(* ===== verification/_CoqProject ===== *)
-Q . S2P
Prelude.v
Bst.v
AvlTree.v
StudentAvl.v
Linear.v
HashTables.v
ConcurrentMap.v
LruCache.v
SlidingWindow.v
PageReplacement.v
RbTree.v
RbDelete.v
BTree.v
BPlusTree.v
TwoPhaseLocking.v
WriteAheadLog.v
MvccStore.v
MvccRow.v
WaitForGraph.v
BoundedBuffer.v
SkipList.v
Allocators.v
SlabAllocator.v
FreeListPool.v
BinaryTree.v
Expressions.v
QueryEngine.v
FileCache.v
LockingTxn.v
LockingRaces.v
ArrayPrograms.v
StringPrograms.v
Latch.v
WordCount.v
Scanner.v
Bison.v
Calculator.v
SqlParser.v
FlexBuffer.v
SocketServers.v
KvServer.v
SelectServers.v
RequestQueue.v
SharedCounters.v
ThreadPrograms.v
CondBuffer.v
