(* ===== verification/Prelude.v ===== *)
(** * A verification of the data-structure, database and concurrency programs

    The repository is a collection of C programs from a systems course: trees,
    lists, hash tables, caches and page replacement, skip lists and filters,
    memory allocators, the building blocks of a database (write-ahead logs, two-phase locking,
    multi-version stores, deadlock detection, bounded queues, expression
    evaluators and query engines), two scanners and parsers generated by flex and
    bison, and servers over sockets.  Each program is
    one C file with its own [main]; programs meet only in what they repeat (the
    same tree or node type, the same rotations), so the development has a file
    per topic, in it a [Module] per C file, and shared lemmas in this prelude.

    ** How C is translated

    - A function that cannot fail is a Rocq function; one that can dereference a
      bad pointer, leave an array or divide by zero returns [res], with the kind
      of undefined behaviour ([ub]) in the error.  Statements that change state
      and print are in the monad [C S A]: state passing over the program's state
      [S], with the text printed so far collected line by line.
    - Memory is a finite map from locations to nodes wherever nodes are shared
      or have parent or backward pointers ([load], [store], [malloc], [free];
      a freed cell is gone, so using it is [UseAfterFree]).  A tree reached only
      through its root is the value of an inductive type.
    - Arrays are lists read and written with [aget] and [aset], which fail
      outside the bounds.  Cells that the program has not written yet hold
      [None] where the difference matters.
    - Integers are [Z].  Where a value could leave the range of [int], a theorem
      bounds it ([AvlTree.avl_history], [TwoPLSpec.twopl_invariant]) or the
      arithmetic is written at its width (the hash functions).  Division and
      remainder are C's, rounding to zero.
    - A program that talks to the operating system takes the results of its calls
      as a list: what each [read], [write], [accept], [pread] or [select] returns,
      errors and interruptions included, so that a theorem about every list is a
      theorem about every behaviour of the system.
    - Threads are step relations: a configuration holds the shared state, the
      owners of the mutexes and a program counter per thread, and a run is any
      sequence of steps of any threads.
    - A loop without a structural measure has fuel, computed from the state (the
      number of live nodes, the size of the table, the number of threads).  Every
      theorem about such a loop shows that it returns, so that the fuel is
      enough; [OutOfFuel] is one of the failures that the theorems exclude.

    ** The files and what they show

    - [Bst] - the eleven binary-search-tree programs of EXTRA_TASK/26-11-2025 and
      WEEKEND_TASK: deletion removes exactly the value, [LCA] is the lowest
      common ancestor, [isBST] decides the order.
    - [AvlTree], [StudentAvl] - day-8(Avl-Tree)/avl-tree.c and the enrolment
      system of EXTRA_TASK/13-11-2025: insertion and deletion keep balance,
      stored heights and order; after any sequence of calls the tree holds the
      keys it should and its height is logarithmic.  The enrolment
      system's [insert] tests the balance differently and can lose it, which its
      deletion survives.
    - [RbTree], [RbDelete] - day-8(Avl-Tree)/rb-tree.c over a memory with parent
      pointers and a NIL node: both fix-ups restore the red-black invariants.
    - [BTree], [BPlusTree] - day-7(B-Tree): insertion with splitting into a
      B-tree of nodes with fixed arrays; the B+ tree overflows a leaf at the
      fourth key.
    - [SkipList] - day-9(skip-list): search, insertion and deletion level by
      level, with the case in which the code loses a key, and the Bloom filter.
    - [Linear] - day-3.5(Linked_Stack_Queue): stacks and queues against the
      interfaces [StackImpl] and [QueueImpl].
    - [HashTables], [ConcurrentMap] - day-4(Hash_Table), the probing table of
      EXTRA_TASK/24-11-2025, and the map with one mutex per bucket of
      Mutex-Spi-Sem-RWlock: refinement of a finite map, and the result of every
      interleaving of the loads, stores and mutex operations on the shared chains.
    - [LruCache], [PageReplacement], [SlidingWindow] - day-5(Leetcode_LRU),
      BUFFERPOOL_PAGE_REPLACEMENT and ARC, day-3(SlidingWin): the caches against
      the ideal ones, the fast window maxima against the direct one.
    - [TwoPhaseLocking] - concurrency-and-multithreading/2pl.c: the final accounts are
      those of a serial run of the transfers the workers have drawn, money is
      conserved at every point, no deadlock.
    - [MvccStore], [MvccRow] - s_mem_key_value_stored_with_mvcc.c and
      mvcc_demo.c: snapshot isolation and first-committer-wins against the
      history of commits, no deadlock; the one-row demonstration lacks both.
    - [WaitForGraph] - deadlock_with_wfg.c: the graph search decides cycles, and a
      deadlock of the two workers is always resolved.
    - [BoundedBuffer] - producer_consumer_queue_using_cond_variable.c: first in, first
      out, no lost wake-up while items are missing, and the run in which a
      consumer hangs at the end.
    - [WriteAheadLog] - WEEKEND_TASK and day-14: the table rebuilt from the text
      of the log is the table before the crash, for the operations that the format
      of the log can hold.
    - [Allocators], [SlabAllocator], [FreeListPool] - the allocators of
      day-1(Heap_Mem) and day-5(Leetcode_LRU): first fit, objects in use never
      overlap, blocks tile the pool, nothing is leaked or freed twice.

    - [BinaryTree] - day-6(Binary_Tree): traversals by recursion, with stacks and
      with a queue agree.
    - [Expressions], [QueryEngine] - the expression trees and the SQL evaluator of
      EXPRESSION_TREE, and the iterator, vectorised and compiled engines of
      QUERY_EXECUTION_ENGINE: well-typed expressions evaluate to their value or
      overflow, and the engines return the same rows.
    - [FileCache] - day-2(LRU): the cache of file pages and the buffer pool against
      an ideal cache over the disk.
    - [LockingTxn], [LockingRaces] - deadlock_mutex_txn.c.  [LockingTxn] has the
      functions, each run without interference: the victim of a deadlock, and the
      run in which the owner chosen as victim hangs.  [LockingRaces] runs the threads
      access by access: what every interleaving keeps, and the deadlock and the
      read of freed memory that some reach.
    - [ArrayPrograms], [StringPrograms] - the array, sorting, searching and string
      programs of EXTRA_TASK and WEEKEND_TASK against their definitions.
    - [Latch] - latch_demo_using_futex.c and futex.c: mutual exclusion at the
      granularity of single accesses, and the livelock after a failed wait.
    - [WordCount] - word_count_using_thread.c: the total whatever [pread] delivers,
      and the words at a boundary that are lost.
    - [Scanner], [Bison], [Calculator], [SqlParser] - LEXICAL_ANALYZER: the tables and
      loops of the generated scanners against the rules of the .l files, the
      generated automaton with error recovery, and both parsers against their
      grammars; [Bison] states the driver's contract once for any tables.
    - [FlexBuffer] - the buffer under the scanners: refilling, growing, rescanning,
      NULs and terminals.  The buffered scanners refine those of the whole text for
      every way the input can be delivered (the record [tables_ok] is what they need of
      the tables, checked by computation), and so the programs as they run do what
      the parsers' theorems say.
    - [SocketServers], [KvServer], [SelectServers] - SOCKET, NON_BLOCKING_IO and the
      key-value servers of STATIC_DYNAMIC_LIBRARY and PROFILING: the servers
      implement a finite map against the interface [KvLaws], stay defined whatever
      they receive, and talk to their client; the chat server delivers
      messages that fit its buffer.
    - [RequestQueue] - pthread_db.c: every request is processed once and the program
      always ends.
    - [SharedCounters] - mutex.c, lock_comparision.c and the three programs on atomics:
      loop bodies that keep to a discipline ([guarded]) lose no increment; without it
      the counter may end at anything from 2 on, and both ends of the range occur.
    - [ThreadPrograms] - multi_thread_bank.c, thread_safe_logging.c, read_write_lock.c:
      the printed ledger of the account, whole lines in the log, exclusion of writers.
    - [CondBuffer] - mutex_with_conditional_variable.c: first in, first out, no
      deadlock while items are missing, and the consumer that nobody wakes.

    Module names ending in [Spec] or [Proof] hold the abstract view of a
    component and the lemmas about it; the theorems follow at the end of each
    file, each with a witness that applies it to a concrete input.

    ** Assumptions

    [malloc] does not return [NULL]; files can be opened and written; the input
    of [scanf] is well formed where the code does not check it.  Mutexes and
    condition variables behave as POSIX says (waits may end spuriously, a signal
    wakes one waiting thread if there is one).  Every
    operation on a mutex and every single access to a variable that threads share
    is a step of its own in [TwoPhaseLocking], [ConcurrentMap], [Latch],
    [SharedCounters] and [RwLock]; so it is in [LockingRaces], except that the
    critical sections of three mutexes inside which nothing else is locked are
    single steps.  A step is a critical section in [MvccStore], [WaitForGraph],
    [BoundedBuffer], [CondBuffer], [RequestQueue], [Bank] and [Logger], where the
    mutex protects the accesses (the one read of [CondBuffer] outside it is a step
    of its own).  [LockingTxn.Calls] runs whole calls that do not
    overlap, and claims nothing about others.  Accesses are sequentially consistent.  [rand], time stamps and the choice of the thread that
    moves are free.  Each transaction of [MvccStore] is used by one thread, and
    in [WaitForGraph] both workers' handles are registered before they run.

    A write to a connection that the
    peer has closed returns an error (the signal that would end the server is
    ignored), and [select] does not fail.

    ** What is not modelled

    The functions of the scanners that push back characters and switch buffers,
    which no program calls; setting up sockets, signal handlers
    and files; programs whose whole effect is a sequence of system calls (pipes,
    message queues, shared memory, signals, timers, processes, memory maps,
    asynchronous I/O), remote procedure calls (floating point and library calls),
    measurements of time, memory barriers, machine code written at run time, the kernel module and
    eBPF hooks. *)
From stdpp Require Import base list gmap strings pretty sorting.
From Stdlib Require Import ZArith Lia.
From Stdlib Require Ascii String.

(** ** Outcomes of C code *)

(** What can go wrong when a C statement is executed.  Each constructor names
    one kind of undefined behaviour or non-termination that the modelled
    programs can reach; [FatalError] is a program that ends itself with an error
    message. *)
Inductive ub : Set :=
  | NullDeref | UseAfterFree | OutOfBounds | Uninitialised | DivByZero
  | Overflow | SelfDeadlock | OutOfFuel | FatalError.

Inductive res (A : Type) : Type :=
  | Ok (a : A)
  | UB (e : ub).
Arguments Ok {A} a.
Arguments UB {A} e.

#[export] Instance ub_eq_dec : EqDecision ub.
Proof. solve_decision. Defined.

#[export] Instance res_eq_dec {A} `{EqDecision A} : EqDecision (res A).
Proof. solve_decision. Defined.

#[export] Instance res_ret : MRet res := fun _ a => Ok a.

#[export] Instance res_bind : MBind res :=
  fun _ _ f m => match m with Ok a => f a | UB e => UB e end.

(** [b && m]: C's short-circuit conjunction, [m] is evaluated (and may be
    undefined) only when [b] holds. *)
Definition and_sc (b : bool) (m : res bool) : res bool :=
  if b then m else Ok false.

Definition is_ok {A} (r : res A) : bool :=
  match r with Ok _ => true | UB _ => false end.

(** ** Programs with state and output *)

(** [C S A]: a C function whose file-level or pointed-to state is [S] and that
    returns an [A].  The list of strings is what its [printf] calls write, one
    element per call, in order. *)
Definition C (S A : Type) : Type := S → res (A * S * list string).

#[export] Instance C_ret {S} : MRet (C S) := fun _ a s => Ok (a, s, []).

#[export] Instance C_bind {S} : MBind (C S) := fun _ _ f m s =>
  match m s with
  | Ok (a, s', o) =>
      match f a s' with
      | Ok (b, s'', o') => Ok (b, s'', o ++ o')
      | UB e => UB e
      end
  | UB e => UB e
  end.

Definition get {S} : C S S := fun s => Ok (s, s, []).
Definition put {S} (s : S) : C S unit := fun _ => Ok (tt, s, []).
Definition modify {S} (f : S → S) : C S unit := fun s => Ok (tt, f s, []).
Definition printf {S} (line : string) : C S unit := fun s => Ok (tt, s, [line]).
Definition lift {S A} (r : res A) : C S A := fun s =>
  match r with Ok a => Ok (a, s, []) | UB e => UB e end.

(** A statement executed for every element of a list, in order. *)
Fixpoint for_each {S A} (f : A → C S unit) (l : list A) : C S unit :=
  match l with
  | [] => mret tt
  | x :: l => f x ;; for_each f l
  end.

(** Runs a program from a state and keeps its text. *)
Definition run_output {S A} (m : C S A) (s : S) : res (list string) :=
  match m s with Ok (_, _, o) => Ok o | UB e => UB e end.

(** ** Arrays *)

(** [a[i]] and [a[i] = x] with an [int] index: out of range is undefined. *)
Definition aget {A} (a : list A) (i : Z) : res A :=
  if (i <? 0)%Z then UB OutOfBounds
  else match a !! Z.to_nat i with Some x => Ok x | None => UB OutOfBounds end.

Definition aset {A} (a : list A) (i : Z) (x : A) : res (list A) :=
  if ((i <? 0) || (Z.of_nat (length a) <=? i))%Z then UB OutOfBounds
  else Ok (<[Z.to_nat i := x]> a).

(** Arrays that start without values: reading one that was not written is
    undefined. *)
Definition uget {A} (a : list (option A)) (i : Z) : res A :=
  x ← aget a i;
  match x with Some v => Ok v | None => UB Uninitialised end.

(** ** Heap cells *)

(** Pointers to [malloc]ed cells; [None] is [NULL].  [malloc] is assumed to
    succeed, and may return an address that was freed before. *)
Abbreviation ptr := (option positive).

Definition load {A} (h : gmap positive A) (p : ptr) : res A :=
  match p with
  | None => UB NullDeref
  | Some l => match h !! l with Some a => Ok a | None => UB UseAfterFree end
  end.

Definition store {A} (h : gmap positive A) (p : ptr) (a : A) : res (gmap positive A) :=
  match p with
  | None => UB NullDeref
  | Some l =>
      match h !! l with
      | Some _ => Ok (<[l := a]> h)
      | None => UB UseAfterFree
      end
  end.

Definition malloc {A} (h : gmap positive A) (a : A) : positive * gmap positive A :=
  let l := fresh (dom h) in (l, <[l := a]> h).

(** [free(p)]: of [NULL] does nothing, of a dead cell is undefined. *)
Definition free {A} (h : gmap positive A) (p : ptr) : res (gmap positive A) :=
  match p with
  | None => Ok h
  | Some l =>
      match h !! l with
      | Some _ => Ok (delete l h)
      | None => UB UseAfterFree
      end
  end.

(** ** Text *)

Definition nl : string := 
  String (Ascii.Ascii false true false true false false false false) EmptyString.
Definition dquote : string := 
  String (Ascii.Ascii false true false false false true false false) EmptyString.

(** [%d] in a format string. *)
Definition d (z : Z) : string := pretty z.

(** [%c] in a format string, of a character given by its code. *)
Definition of_chars (l : list Ascii.ascii) : string := String.string_of_list_ascii l.

(** A value of type [int]: signed arithmetic that leaves the range is
    undefined. *)
Definition in_int (z : Z) : bool := (-2147483648 <=? z)%Z && (z <=? 2147483647)%Z.

Definition as_int (z : Z) : res Z := if in_int z then Ok z else UB Overflow.

(** [atoi]: white space, a sign, digits up to the first other character. *)
Definition is_space (c : Ascii.ascii) : bool :=
  let n := Ascii.nat_of_ascii c in (n =? 32) || (9 <=? n) && (n <=? 13).

Definition is_digit (c : Ascii.ascii) : bool :=
  let n := Ascii.nat_of_ascii c in (48 <=? n) && (n <=? 57).

Definition digit (c : Ascii.ascii) : Z := (Z.of_nat (Ascii.nat_of_ascii c) - 48)%Z.

Fixpoint digits (acc : Z) (s : string) : Z :=
  match s with
  | EmptyString => acc
  | String c s => if is_digit c then digits (acc * 10 + digit c) s else acc
  end.

Fixpoint skip_spaces (s : string) : string :=
  match s with
  | String c s' => if is_space c then skip_spaces s' else s
  | EmptyString => EmptyString
  end.

Definition signed_digits (s : string) : Z :=
  match s with
  | String c s' =>
      if Ascii.nat_of_ascii c =? 45 then (- digits 0 s')%Z
      else if Ascii.nat_of_ascii c =? 43 then digits 0 s' else digits 0 s
  | EmptyString => 0%Z
  end.

Definition atoi (s : string) : res Z := as_int (signed_digits (skip_spaces s)).

(** ** Tactics *)

(** Unfolds the two monads and computes. *)
Ltac c_run :=
  unfold mbind, mret, C_bind, C_ret, res_bind, res_ret, get, put, modify,
    printf, lift; simpl.

(** Splits every comparison of integers in the goal. *)
Ltac zcases :=
  repeat match goal with
  | |- context [Z.ltb ?a ?b] => destruct (Z.ltb_spec a b); simpl
  | |- context [Z.leb ?a ?b] => destruct (Z.leb_spec a b); simpl
  | |- context [Z.eqb ?a ?b] => destruct (Z.eqb_spec a b); simpl
  | |- context [Z.gtb ?a ?b] => rewrite (Z.gtb_ltb a b)
  | |- context [Z.geb ?a ?b] => rewrite (Z.geb_leb a b)
  end.

(** ** Arrays and cells *)

Lemma aget_lookup {A} (a : list A) (i : nat) x :
  a !! i = Some x → aget a (Z.of_nat i) = Ok x.
Proof.
  intros Hx. unfold aget. destruct (Z.ltb_spec (Z.of_nat i) 0); [lia|].
  by rewrite Nat2Z.id, Hx.
Qed.

Lemma aget_Some {A} (a : list A) (i : nat) x : aget a (Z.of_nat i) = Ok x → a !! i = Some x.
Proof.
  unfold aget. destruct (Z.ltb_spec (Z.of_nat i) 0); [done|]. rewrite Nat2Z.id. destruct (a !! i); by intros [= ->].
Qed.

Lemma aget_Z {A} (a : list A) (i : Z) x :
  (0 ≤ i)%Z → a !! Z.to_nat i = Some x → aget a i = Ok x.
Proof.
  intros ? Hx. rewrite <- (Z2Nat.id i) by done. by apply aget_lookup.
Qed.

Lemma aset_lt {A} (a : list A) (i : Z) x :
  (0 ≤ i < Z.of_nat (length a))%Z → aset a i x = Ok (<[Z.to_nat i := x]> a).
Proof. intros ?. unfold aset. zcases; lia || done. Qed.

Lemma aset_nat {A} (a : list A) (i : nat) x :
  i < length a → aset a (Z.of_nat i) x = Ok (<[i := x]> a).
Proof. intros ?. rewrite aset_lt by lia. by rewrite Nat2Z.id. Qed.

Lemma fresh_lookup {A} (h : gmap positive A) : h !! fresh (dom h) = None.
Proof. apply not_elem_of_dom, is_fresh. Qed.

Lemma load_Some {A} (h : gmap positive A) l a :
  h !! l = Some a → load h (Some l) = Ok a.
Proof. intros Hl. simpl. by rewrite Hl. Qed.

Lemma store_Some {A} (h : gmap positive A) l a a' :
  h !! l = Some a → store h (Some l) a' = Ok (<[l := a']> h).
Proof. intros Hl. simpl. by rewrite Hl. Qed.

Lemma free_Some {A} (h : gmap positive A) l a :
  h !! l = Some a → free h (Some l) = Ok (delete l h).
Proof. intros Hl. simpl. by rewrite Hl. Qed.

Arguments aget : simpl never.
Arguments aset : simpl never.
Arguments load : simpl never.
Arguments store : simpl never.
Arguments free : simpl never.

(** Names the cell [malloc] returns and records that it was free. *)
Ltac name_fresh h l :=
  let H := fresh "H" l in
  set (l := base.fresh (dom h)) in *;
  assert (h !! l = None) as H by apply fresh_lookup; clearbody l.

(** ** Sequencing *)

Lemma bind_Ok {S A B} (m : C S A) (f : A → C S B) s a s1 o1 b s2 o2 :
  m s = Ok (a, s1, o1) → f a s1 = Ok (b, s2, o2) →
  (m ≫= f) s = Ok (b, s2, o1 ++ o2).
Proof. intros Hm Hf. unfold mbind, C_bind. by rewrite Hm, Hf. Qed.

(** A statement that prints nothing. *)
Lemma bind_step {S A B} (m : C S A) (f : A → C S B) s a s1 :
  m s = Ok (a, s1, []) → (m ≫= f) s = f a s1.
Proof. intros Hm. unfold mbind, C_bind. rewrite Hm. by destruct (f a s1) as [[[b s2] o]|e]. Qed.

Lemma bind_UB {S A B} (m : C S A) (f : A → C S B) s a s1 o1 e :
  m s = Ok (a, s1, o1) → f a s1 = UB e → (m ≫= f) s = UB e.
Proof. intros Hm Hf. unfold mbind, C_bind. by rewrite Hm, Hf. Qed.

Lemma bind_fails {S A B} (m : C S A) (f : A → C S B) s e : m s = UB e → (m ≫= f) s = UB e.
Proof. intros Hm. unfold mbind, C_bind. by rewrite Hm. Qed.

Lemma for_each_Ok {S A} (f : A → C S unit) x l s s1 o1 s2 o2 :
  f x s = Ok (tt, s1, o1) → for_each f l s1 = Ok (tt, s2, o2) →
  for_each f (x :: l) s = Ok (tt, s2, o1 ++ o2).
Proof. apply (bind_Ok (f x) (λ _, for_each f l)). Qed.

Lemma lift_Ok {S A} (r : res A) (s : S) a : r = Ok a → lift r s = Ok (a, s, []).
Proof. by intros ->. Qed.

(** ** Reading a printed number *)

Lemma as_int_ok z : in_int z = true → as_int z = Ok z.
Proof. unfold as_int. by intros ->. Qed.

Lemma pretty_N_char_digit x : (x < 10)%N → is_digit (pretty_N_char x) = true ∧ digit (pretty_N_char x) = Z.of_N x.
Proof.
  intros Hx. assert (x = 0 ∨ x = 1 ∨ x = 2 ∨ x = 3 ∨ x = 4 ∨ x = 5 ∨ x = 6 ∨ x = 7 ∨ x = 8 ∨ x = 9)%N as Hc by lia.
  repeat destruct Hc as [->|Hc]; try done. by subst.
Qed.

Lemma digits_pretty x s : digits 0 (pretty_N_go x s) = digits (Z.of_N x) s.
Proof.
  revert s. induction (N.lt_wf_0 x) as [x _ IH]; intros s. destruct (decide (x = 0)%N) as [->|Hx]; [done|].
  rewrite pretty_N_go_step by lia. rewrite IH by (apply N.div_lt; lia). cbn [digits].
  destruct (pretty_N_char_digit (x `mod` 10)) as [-> ->]; [by apply N.mod_lt|].
  f_equal. rewrite <- (N2Z.inj_mul _ 10), <- N2Z.inj_add. f_equal. rewrite N.mul_comm. symmetry. by apply N.div_mod.
Qed.

(** The first character of a printed number is a digit. *)
Lemma pretty_N_go_head x s :
  (0 < x)%N → ∃ c s', pretty_N_go x s = String c s' ∧ is_digit c = true.
Proof.
  revert s. induction (N.lt_wf_0 x) as [x _ IH]; intros s Hx. rewrite pretty_N_go_step by done.
  destruct (decide (x `div` 10 = 0)%N) as [->|Hd].
  - eexists _, _. split; [done|]. by apply pretty_N_char_digit, N.mod_lt.
  - apply IH; [by apply N.div_lt|by apply N.neq_0_lt_0].
Qed.

Lemma signed_digits_digit c s : is_digit c = true → signed_digits (skip_spaces (String c s)) = digits 0 (String c s).
Proof. destruct c as [[] [] [] [] [] [] [] []]; done || (intros; discriminate). Qed.

(** [atoi] reads back what [%d] prints. *)
Lemma atoi_d z : atoi (d z) = as_int z.
Proof.
  assert (signed_digits (skip_spaces (d z)) = z) as E; [|unfold atoi; by rewrite E].
  destruct z as [|p|p]; [done|..].
  - change (d (Z.pos p)) with (pretty_N_go (N.pos p) "").
    destruct (pretty_N_go_head (N.pos p) "") as (c & s & Hs & Hc); [done|].
    rewrite Hs, signed_digits_digit, <- Hs, digits_pretty by done. done.
  - change (signed_digits (skip_spaces (d (Z.neg p)))) with (- digits 0 (pretty_N_go (N.pos p) ""))%Z.
    by rewrite digits_pretty.
Qed.

(** A printed number starts with a digit, or with a sign and a digit. *)
Lemma d_head z :
  ∃ c s, d z = String c s ∧ (is_digit c = true ∨ ∃ c' s', s = String c' s' ∧ is_digit c' = true).
Proof.
  destruct z as [|p|p]; [by eexists _, _; split; [|left]|..].
  - destruct (pretty_N_go_head (N.pos p) "") as (c & s & Hs & Hc); [done|]. exists c, s. split; [done|by left].
  - destruct (pretty_N_go_head (N.pos p) "") as (c & s & Hs & Hc); [done|].
    eexists _, (String c s). split; [by rewrite <- Hs|]. right. by exists c, s.
Qed.

(** ** Loops that only print *)

Lemma for_each_printf {S A} (l : list A) (txt : A → string) (s : S) :
  for_each (λ x, printf (txt x)) l s = Ok (tt, s, txt <$> l).
Proof.
  induction l as [|x l IH]; [done|]. simpl.
  unfold mbind, C_bind. simpl. by rewrite IH.
Qed.

(** ** Sums over the threads of a program *)

Lemma lookup_self {A} (l : list A) t x y : l !! t = Some x → <[t := y]> l !! t = Some y.
Proof. intros Ht. apply list_lookup_insert_eq. by eapply lookup_lt_Some. Qed.

Lemma sum_with_insert {A} (f : A → nat) (l : list A) i x y :
  l !! i = Some x → sum_list_with f (<[i := y]> l) + f x = sum_list_with f l + f y.
Proof.
  revert i. induction l as [|z l IH]; intros [|i] Hi; simplify_eq/=; [lia|]. specialize (IH i Hi). lia.
Qed.

Lemma sum_with_insert_lt {A} (f : A → nat) (l : list A) i x y :
  l !! i = Some x → f y < f x → sum_list_with f (<[i := y]> l) < sum_list_with f l.
Proof. intros Hi Hlt. pose proof (sum_with_insert f l i x y Hi). lia. Qed.

(** ** Ring buffers *)

Section Ring.
Context {A : Type} (dummy : A) (size : nat).

(** The [n] items of the array [buf] from position [o] on, round its end. *)
Definition ring (buf : list A) (o n : nat) : list A := (λ k, default dummy (buf !! ((o + k) mod size))) <$> seq 0 n.

Lemma length_ring buf o n : length (ring buf o n) = n.
Proof. unfold ring. by rewrite length_fmap, length_seq. Qed.

Lemma ring_take buf o n x : buf !! o = Some x → o < size → ring buf o (S n) = x :: ring buf ((o + 1) mod size) n.
Proof.
  intros Hx Ho. unfold ring. cbn [seq]. rewrite <- fmap_S_seq, fmap_cons, <- list_fmap_compose. f_equal.
  - rewrite Nat.add_0_r, Nat.mod_small by done. by rewrite Hx.
  - apply list_fmap_ext. intros i k _. unfold compose. rewrite Nat.Div0.add_mod_idemp_l.
    by replace (o + S k) with (o + 1 + k) by lia.
Qed.

Lemma ring_mod_inj o k n : k < n → n < size → (o + k) mod size ≠ (o + n) mod size.
Proof.
  intros Hk Hn He. pose proof (Nat.div_mod_eq (o + k) size). pose proof (Nat.div_mod_eq (o + n) size).
  assert (n - k = size * ((o + n) / size - (o + k) / size)) as E by nia.
  destruct ((o + n) / size - (o + k) / size) as [|q]; nia.
Qed.

Lemma ring_put buf o n x :
  length buf = size → n < size → ring (<[(o + n) mod size := x]> buf) o (S n) = ring buf o n ++ [x].
Proof.
  intros Hl Hn. unfold ring. rewrite seq_S, fmap_app. f_equal.
  - apply list_fmap_ext. intros i k Hk. apply lookup_seq in Hk as [-> Hi]. simpl.
    rewrite list_lookup_insert_ne; [done|]. intros He. by apply (ring_mod_inj o i n).
  - cbn [fmap list_fmap Nat.add]. rewrite list_lookup_insert_eq; [done|]. rewrite Hl. apply Nat.mod_upper_bound. lia.
Qed.

End Ring.

(** ** Lists sorted by an integer key *)

Section KeyedList.
Context {A : Type} (key : A → Z).

Definition key_lt (a b : A) : Prop := (key a < key b)%Z.
Definition sorted_keys (l : list A) : Prop := StronglySorted key_lt l.

(** Insertion that keeps the first element of a given key: the reference for
    every ordered container of the repository. *)
Fixpoint linsert (x : A) (l : list A) : list A :=
  match l with
  | [] => [x]
  | y :: l' =>
      if (key x <? key y)%Z then x :: y :: l'
      else if (key y <? key x)%Z then y :: linsert x l'
      else y :: l'
  end.

Definition ldelete (k : Z) (l : list A) : list A :=
  filter (λ y, key y ≠ k) l.

Lemma sorted_mid l x r :
  sorted_keys (l ++ x :: r) ↔
  sorted_keys l ∧ sorted_keys r ∧
  Forall (λ y, (key y < key x)%Z) l ∧ Forall (λ y, (key x < key y)%Z) r.
Proof.
  unfold sorted_keys. induction l as [|y l IH]; simpl.
  - split.
    + intros [? ?]%StronglySorted_inv. repeat split; auto. constructor.
    + intros (_ & ? & _ & ?). by constructor.
  - split.
    + intros [Hs Hf]%StronglySorted_inv.
      apply IH in Hs as (? & ? & ? & ?).
      apply Forall_app in Hf as [Hf1 Hf2]. inversion Hf2; subst.
      repeat split; auto; by constructor.
    + intros (Hs & ? & Hf & ?). apply StronglySorted_inv in Hs as [Hs Hs'].
      inversion Hf; subst. constructor.
      * apply IH. auto.
      * apply Forall_app; split; [done|]. constructor; [done|].
        eapply Forall_impl; [done|]. unfold key_lt. simpl. lia.
Qed.

Lemma linsert_left x l y r :
  (key x < key y)%Z → linsert x (l ++ y :: r) = linsert x l ++ y :: r.
Proof.
  intros Hxy. induction l as [|z l IH]; simpl.
  - destruct (Z.ltb_spec (key x) (key y)); [done|lia].
  - zcases; rewrite ?IH; done.
Qed.

Lemma linsert_right x l y r :
  Forall (λ z, (key z < key y)%Z) l → (key y < key x)%Z →
  linsert x (l ++ y :: r) = l ++ y :: linsert x r.
Proof.
  intros Hl Hxy. induction Hl as [|z l Hz Hl IH]; simpl.
  - zcases; done || lia.
  - zcases; rewrite ?IH; done || lia.
Qed.

Lemma linsert_present x l y r :
  Forall (λ z, (key z < key y)%Z) l → key x = key y →
  linsert x (l ++ y :: r) = l ++ y :: r.
Proof.
  intros Hl Hxy. induction Hl as [|z l Hz Hl IH]; simpl.
  - zcases; done || lia.
  - zcases; rewrite ?IH; done || lia.
Qed.

Lemma elem_of_linsert_key k x l :
  k ∈ map key (linsert x l) ↔ k = key x ∨ k ∈ map key l.
Proof.
  induction l as [|y l IH]; simpl; [set_solver|].
  zcases; simpl; rewrite ?elem_of_cons, ?IH; try tauto.
  assert (key x = key y) as -> by lia. tauto.
Qed.

Lemma Forall_linsert (P : A → Prop) x l :
  P x → Forall P l → Forall P (linsert x l).
Proof. intros Hx Hl. induction Hl; simpl; zcases; auto. Qed.

Lemma sorted_linsert x l : sorted_keys l → sorted_keys (linsert x l).
Proof.
  unfold sorted_keys. induction 1 as [|y l Hs IH Hf]; simpl.
  - by repeat constructor.
  - zcases.
    + constructor; [by constructor|]. constructor; [done|].
      eapply Forall_impl; [done|]. unfold key_lt. simpl. lia.
    + constructor; [done|]. apply Forall_linsert; done.
    + by constructor.
Qed.

Lemma Forall_filter_id (P : A → Prop) `{!∀ x, Decision (P x)} (l : list A) :
  Forall P l → filter P l = l.
Proof.
  induction 1 as [|x l Hx Hl IH]; [done|].
  rewrite filter_cons_True by done. by rewrite IH.
Qed.

Lemma Forall_filter_keep (P Q : A → Prop) `{!∀ x, Decision (P x)} (l : list A) :
  Forall Q l → Forall Q (filter P l).
Proof.
  induction 1; [constructor|]. rewrite filter_cons. case_decide; auto.
Qed.

Lemma ldelete_id k l : Forall (λ y, key y ≠ k) l → ldelete k l = l.
Proof. apply Forall_filter_id. Qed.

Lemma sorted_ldelete k l : sorted_keys l → sorted_keys (ldelete k l).
Proof.
  unfold sorted_keys, ldelete. induction 1 as [|y l Hs IH Hf]; [constructor|].
  rewrite filter_cons. case_decide; [|done].
  constructor; [done|]. by apply Forall_filter_keep.
Qed.

Lemma ldelete_app k l r : ldelete k (l ++ r) = ldelete k l ++ ldelete k r.
Proof. apply filter_app. Qed.

Lemma ldelete_gt k l : Forall (λ y, (k < key y)%Z) l → ldelete k l = l.
Proof.
  intros Hf. apply ldelete_id.
  eapply Forall_impl; [done|]. simpl. lia.
Qed.

Lemma ldelete_lt k l : Forall (λ y, (key y < k)%Z) l → ldelete k l = l.
Proof.
  intros Hf. apply ldelete_id.
  eapply Forall_impl; [done|]. simpl. lia.
Qed.

(** Deleting the head of a sorted list. *)
Lemma ldelete_head x (l : list A) :
  sorted_keys (x :: l) → ldelete (key x) (x :: l) = l.
Proof.
  intros [_ Hf]%StronglySorted_inv. unfold ldelete.
  rewrite filter_cons_False by auto. by apply ldelete_gt.
Qed.

(** Deleting from a list around a pivot. *)
Lemma ldelete_pivot_lt k x (l r : list A) :
  (k < key x)%Z → Forall (λ y, (key x < key y)%Z) r →
  ldelete k (l ++ x :: r) = ldelete k l ++ x :: r.
Proof.
  intros ? Hr. rewrite ldelete_app. f_equal. apply ldelete_gt.
  constructor; [done|]. eapply Forall_impl; [done|]. simpl. lia.
Qed.

Lemma ldelete_pivot_gt k x (l r : list A) :
  (key x < k)%Z → Forall (λ y, (key y < key x)%Z) l →
  ldelete k (l ++ x :: r) = l ++ x :: ldelete k r.
Proof.
  intros ? Hl. rewrite ldelete_app. f_equal.
  - apply ldelete_lt. eapply Forall_impl; [done|]. simpl. lia.
  - unfold ldelete. by rewrite filter_cons_True by lia.
Qed.

Lemma ldelete_pivot_eq x (l r : list A) :
  Forall (λ y, (key y < key x)%Z) l → Forall (λ y, (key x < key y)%Z) r →
  ldelete (key x) (l ++ x :: r) = l ++ r.
Proof.
  intros Hl Hr. rewrite ldelete_app. f_equal; [by apply ldelete_lt|].
  unfold ldelete. rewrite filter_cons_False by auto. by apply ldelete_gt.
Qed.

End KeyedList.

(** The place of a key between the smaller and the larger ones. *)
Lemma linsert_between (k : Z) a b :
  Forall (λ x, (x < k)%Z) a → Forall (λ x, (k < x)%Z) b → linsert id k (a ++ b) = a ++ k :: b.
Proof.
  intros Ha Hb. induction Ha as [|x a Hx Ha IH]; simpl.
  - destruct Hb as [|x b Hx Hb]; simpl; [done|]. unfold id. by destruct (Z.ltb_spec k x); [|lia].
  - change (id k) with k. change (id x) with x. destruct (Z.ltb_spec k x); [lia|].
    destruct (Z.ltb_spec x k); [|lia]. by rewrite IH.
Qed.

Create HintDb sorted_db.
#[export] Hint Resolve sorted_linsert sorted_ldelete : sorted_db.
