(* ===== verification/Bst.v ===== *)
(** * Binary search trees

    The nine programs of [EXTRA_TASK/26-11-2025] and the two tree programs of
    [WEEKEND_TASK].  Each C file is one [Module]; the files repeat the same
    [struct Node], [createNode], [insert] and [inorder], which are translated
    once (module [BstImplementation]) and re-exported under the name of the
    file that repeats them.

    A tree is owned by its root pointer and never shared, so a pointer to a
    node is the value of the subtree below it and an in-place update that
    returns the same root is the updated value. *)
From stdpp Require Import base list gmap strings pretty sorting.
From Stdlib Require Import ZArith Lia.
From S2P Require Import Prelude.

Definition INT_MIN : Z := -2147483648.
Definition INT_MAX : Z := 2147483647.

(** [struct Node] of every file: [NULL] or a node. *)
Inductive tree : Set :=
  | NULL
  | Node (data : Z) (l r : tree).

#[export] Instance tree_eq_dec : EqDecision tree.
Proof. solve_decision. Defined.

(** The values of a tree from left to right: the specification level. *)
Fixpoint values (t : tree) : list Z :=
  match t with
  | NULL => []
  | Node data l r => values l ++ data :: values r
  end.

Abbreviation zkey := (fun z : Z => z).

Definition bst (t : tree) : Prop := sorted_keys zkey (values t).

Definition tab : string := String (Ascii.ascii_of_nat 9) EmptyString.

Module BstImplementation.

Definition createNode (data : Z) : tree := Node data NULL NULL.

Fixpoint insert (root : tree) (data : Z) : tree :=
  match root with
  | NULL => createNode data
  | Node rdata l r =>
      if (data <? rdata)%Z then Node rdata (insert l data) r
      else if (rdata <? data)%Z then Node rdata l (insert r data)
      else root
  end.

Fixpoint inOrder (root : tree) : C unit unit :=
  match root with
  | NULL => mret tt
  | Node data l r =>
      inOrder l ;; printf (d data +:+ tab) ;; inOrder r
  end.

Definition main : C unit unit :=
  let root := NULL in
  let root := insert root 24 in
  let root := insert root 12 in
  let root := insert root 30 in
  let root := insert root 55 in
  let root := insert root 5 in
  inOrder root.

End BstImplementation.

Module SearchInBst.

Definition createNode := BstImplementation.createNode.
Definition insert := BstImplementation.insert.
Definition inorder := BstImplementation.inOrder.

Fixpoint search (root : tree) (val : Z) : bool :=
  match root with
  | NULL => false
  | Node data l r =>
      if (val =? data)%Z then true
      else if (val <? data)%Z then search l val
      else search r val
  end.

Definition main : C unit unit :=
  let root := foldl insert NULL [15; 9; 25; 5; 11; 18]%Z in
  inorder root ;;
  if search root 5
  then printf (nl +:+ "Found" +:+ nl)
  else printf (nl +:+ "Not Found" +:+ nl).

End SearchInBst.

Module DeleteFromBst.

Definition createNode := BstImplementation.createNode.
Definition insert := BstImplementation.insert.
Definition inOrder := BstImplementation.inOrder.

(** The loop [while (temp->left!=NULL) temp=temp->left;] followed by
    [temp->data], started at a node with data [data] and left child [left]. *)
Fixpoint leftmost (data : Z) (l : tree) : Z :=
  match l with
  | NULL => data
  | Node data' l' _ => leftmost data' l'
  end.

Fixpoint deleteNode (root : tree) (val : Z) : tree :=
  match root with
  | NULL => root
  | Node data l r =>
      if (val <? data)%Z then Node data (deleteNode l val) r
      else if (data <? val)%Z then Node data l (deleteNode r val)
      else
        match l, r with
        | NULL, NULL => NULL
        | NULL, _ => r
        | _, NULL => l
        | _, Node rdata rleft _ =>
            let temp := leftmost rdata rleft in
            Node temp l (deleteNode r temp)
        end
  end.

Definition main : C unit unit :=
  let root := foldl insert NULL [15; 9; 25; 5; 11; 18]%Z in
  inOrder root ;;
  let root := deleteNode root 9 in
  printf (nl +:+ "After deleting node, The resultant Tree is:" +:+ nl) ;;
  inOrder root.

End DeleteFromBst.

Module BstIsValid.

Definition createNode := BstImplementation.createNode.
Definition insert := BstImplementation.insert.
Definition inorder := BstImplementation.inOrder.

Fixpoint isBstUtils (root : tree) (min max : Z) : bool :=
  match root with
  | NULL => true
  | Node data l r =>
      if ((data <=? min) || (max <=? data))%Z then false
      else isBstUtils l min data && isBstUtils r data max
  end.

Definition isBST (root : tree) : bool := isBstUtils root INT_MIN INT_MAX.

Definition main : C unit unit :=
  let root := foldl insert NULL [24; 14; 28; 8; 15]%Z in
  inorder root ;;
  if isBST root then printf (nl +:+ "Valid BST") else printf "Invalid BST".

End BstIsValid.

Module HeightBst.

Definition createNode := BstImplementation.createNode.
Definition insert := BstImplementation.insert.
Definition inorder := BstImplementation.inOrder.

Fixpoint height (root : tree) : Z :=
  match root with
  | NULL => 0
  | Node _ l r =>
      let lh := height l in
      let rh := height r in
      (if lh >? rh then lh else rh) + 1
  end%Z.

Definition main : C unit unit :=
  let root := foldl insert NULL [24; 14; 28; 8; 15]%Z in
  inorder root ;;
  printf (nl +:+ "Heigh of tree: " +:+ d (height root)).

End HeightBst.

Module CountNodes.

Definition createNode := BstImplementation.createNode.
Definition insert := BstImplementation.insert.
Definition inOrder := BstImplementation.inOrder.

Fixpoint countNodes (root : tree) : Z :=
  match root with
  | NULL => 0
  | Node _ l r => 1 + countNodes l + countNodes r
  end%Z.

Definition main : C unit unit :=
  let root := foldl insert NULL [15; 9; 25; 5; 11; 18; 19]%Z in
  inOrder root ;;
  printf (nl +:+ "Total node in bst: " +:+ d (countNodes root)).

End CountNodes.

Module CountLeafNode.

Definition createNode := BstImplementation.createNode.
Definition insert := BstImplementation.insert.
Definition inOrder := BstImplementation.inOrder.

Fixpoint countLeafNode (root : tree) : Z :=
  match root with
  | NULL => 0
  | Node _ NULL NULL => 1
  | Node _ l r => countLeafNode l + countLeafNode r
  end%Z.

Definition main : C unit unit :=
  let root := foldl insert NULL [15; 9; 25; 5; 11; 18; 19]%Z in
  inOrder root ;;
  printf (nl +:+ "Total node in bst: " +:+ d (countLeafNode root)).

End CountLeafNode.

Module FindMinMax.

Definition createNode := BstImplementation.createNode.
Definition insert := BstImplementation.insert.
Definition inorder := BstImplementation.inOrder.

Fixpoint rightmost (data : Z) (r : tree) : Z :=
  match r with
  | NULL => data
  | Node data' _ r' => rightmost data' r'
  end.

(** Dereferences [root->left] before any test: undefined on [NULL]. *)
Definition findMinMax (root : tree) : C unit unit :=
  match root with
  | NULL => lift (UB NullDeref)
  | Node data l r =>
      let temp := DeleteFromBst.leftmost data l in
      let root := rightmost data r in
      printf (nl +:+ "Minimum value= " +:+ d temp +:+ nl) ;;
      printf ("Maximum value= " +:+ d root +:+ nl)
  end.

Definition main : C unit unit :=
  let root := foldl insert NULL [24; 14; 28; 8; 15]%Z in
  inorder root ;; findMinMax root.

End FindMinMax.

Module LowestCommonAncestor.

Definition createNode := BstImplementation.createNode.
Definition insert := BstImplementation.insert.

Fixpoint LCA (root : tree) (a b : Z) : tree :=
  match root with
  | NULL => NULL
  | Node data l r =>
      if ((a <? data) && (b <? data))%Z then LCA l a b
      else if ((data <? a) && (data <? b))%Z then LCA r a b
      else root
  end.

(** [inorder] of this file only walks down the left spine and prints
    nothing. *)
Fixpoint inorder (root : tree) : C unit unit :=
  match root with
  | NULL => mret tt
  | Node _ l _ => inorder l
  end.

(** [LCA(root,15,30)->data]. *)
Definition main : C unit unit :=
  let root := foldl insert NULL [10; 5; 20; 15; 30]%Z in
  match LCA root 15 30 with
  | NULL => lift (UB NullDeref)
  | Node data _ _ => printf ("lowest common ancestor= " +:+ d data)
  end.

End LowestCommonAncestor.

Module BstInOrderDepth.

Definition createNode := BstImplementation.createNode.
Definition insert := BstImplementation.insert.

Fixpoint inOrder_depth (root : tree) (depth : Z) : C unit unit :=
  match root with
  | NULL => mret tt
  | Node data l r =>
      inOrder_depth l (depth + 1) ;;
      printf ("Node: " +:+ d data +:+ ", Depth: " +:+ d depth +:+ nl) ;;
      inOrder_depth r (depth + 1)
  end%Z.

(** [scanf("%d")] takes the next number of the input; the state is the input
    that is l.  A [val] that [scanf] did not set would be read
    uninitialised. *)
Definition scanf_d : C (list Z) Z := fun input =>
  match input with
  | [] => UB Uninitialised
  | v :: input => Ok (v, input, [])
  end.

Fixpoint read_loop (num : nat) (root : tree) : C (list Z) tree :=
  match num with
  | O => mret root
  | S num => val ← scanf_d; read_loop num (insert root val)
  end.

Definition no_input {A} (m : C unit A) : C (list Z) A := fun input =>
  match m tt with
  | Ok (a, _, o) => Ok (a, input, o)
  | UB e => UB e
  end.

Definition main : C (list Z) unit :=
  printf "Enter number of elements to insert into bst:" ;;
  num ← scanf_d;
  printf ("Enter " +:+ d num +:+ " elements into bst" +:+ nl) ;;
  root ← read_loop (Z.to_nat num) NULL;
  printf (nl +:+ "InOrder traversal" +:+ nl) ;;
  no_input (inOrder_depth root 0).

End BstInOrderDepth.

Module BstInsertSearch.

Definition createNode := BstImplementation.createNode.
Definition insert := BstImplementation.insert.

Fixpoint search (root : tree) (key : Z) : tree :=
  match root with
  | NULL => root
  | Node data l r =>
      if (data =? key)%Z then root
      else if (key <? data)%Z then search l key
      else search r key
  end.

Fixpoint pre_order (root : tree) : C unit unit :=
  match root with
  | NULL => mret tt
  | Node data l r =>
      printf (d data +:+ "-> ") ;; pre_order l ;; pre_order r
  end.

Definition main : C (list Z) unit :=
  let root := foldl insert NULL [10; 15; 5; 11; 7]%Z in
  printf "Enter any number to search:" ;;
  search_val ← BstInOrderDepth.scanf_d;
  (match search root search_val with
   | Node _ _ _ => printf (d search_val +:+ " found in the BST." +:+ nl)
   | NULL => printf (d search_val +:+ " not found in the BST." +:+ nl)
   end) ;;
  BstInOrderDepth.no_input (pre_order root) ;;
  printf ("NULL" +:+ nl).

End BstInsertSearch.

(** ** Facts shared by the theorems *)

Lemma bst_node data l r :
  bst (Node data l r) ↔
  bst l ∧ bst r ∧ Forall (λ y, (y < data)%Z) (values l) ∧
  Forall (λ y, (data < y)%Z) (values r).
Proof. apply (sorted_mid zkey). Qed.

(** Splits a [bst] hypothesis of a node into its four parts. *)
Ltac bst_split H :=
  let Hl := fresh "Hbl" in let Hr := fresh "Hbr" in
  let Hlt := fresh "Hlt" in let Hgt := fresh "Hgt" in
  apply bst_node in H as (Hl & Hr & Hlt & Hgt).

Lemma values_insert t x :
  bst t → values (BstImplementation.insert t x) = linsert zkey x (values t).
Proof.
  induction t as [|data l IHl r IHr]; simpl; intros Hb; [done|].
  bst_split Hb. zcases.
  - rewrite IHl by done. by rewrite linsert_left.
  - rewrite IHr by done. by rewrite linsert_right.
  - rewrite linsert_present; [done|done|lia].
Qed.

Lemma bst_insert t x : bst t → bst (BstImplementation.insert t x).
Proof.
  intros Hb. unfold bst. rewrite values_insert by done. by apply sorted_linsert.
Qed.

Lemma bst_foldl_insert xs t :
  bst t → bst (foldl BstImplementation.insert t xs).
Proof. revert t. induction xs; simpl; auto using bst_insert. Qed.

Lemma elem_of_values_insert t x y :
  bst t → y ∈ values (BstImplementation.insert t x) ↔ y = x ∨ y ∈ values t.
Proof.
  intros Hb. rewrite values_insert by done.
  pose proof (elem_of_linsert_key zkey y x (values t)) as H.
  by rewrite !map_id in H.
Qed.

Lemma lt_not_elem x (l : list Z) : Forall (λ y, (y < x)%Z) l → x ∉ l.
Proof. intros Hf Hx. rewrite Forall_forall in Hf. apply Hf in Hx. lia. Qed.

Lemma gt_not_elem x (l : list Z) : Forall (λ y, (x < y)%Z) l → x ∉ l.
Proof. intros Hf Hx. rewrite Forall_forall in Hf. apply Hf in Hx. lia. Qed.

Lemma gt_not_elem' x k (l : list Z) :
  Forall (λ y, (x < y)%Z) l → (k ≤ x)%Z → k ∉ l.
Proof. intros Hf ? Hx. rewrite Forall_forall in Hf. apply Hf in Hx. lia. Qed.

Lemma lt_not_elem' x k (l : list Z) :
  Forall (λ y, (y < x)%Z) l → (x ≤ k)%Z → k ∉ l.
Proof. intros Hf ? Hx. rewrite Forall_forall in Hf. apply Hf in Hx. lia. Qed.

Create HintDb bst_db.
#[export] Hint Resolve bst_insert bst_foldl_insert lt_not_elem gt_not_elem
  lt_not_elem' gt_not_elem' : bst_db.

(** The leftmost value is the head of the in-order list. *)
Lemma leftmost_head data l r :
  head (values (Node data l r)) = Some (DeleteFromBst.leftmost data l).
Proof.
  revert data r. induction l as [|data' l' IH r' _]; intros data r; [done|].
  simpl. specialize (IH data' r'). simpl in IH.
  rewrite <- IH. by destruct (values l').
Qed.

Lemma rightmost_last data l r :
  last (values (Node data l r)) = Some (FindMinMax.rightmost data r).
Proof.
  revert data l. induction r as [|data' l' _ r' IH]; intros data l; simpl.
  - by rewrite last_snoc.
  - rewrite <- (IH data' l'). simpl. rewrite last_app_cons. simpl.
    by destruct (values l').
Qed.

Lemma values_delete t k :
  bst t → values (DeleteFromBst.deleteNode t k) = ldelete zkey k (values t).
Proof.
  revert k. induction t as [|data l IHl r IHr]; simpl; intros k Hb; [done|].
  bst_split Hb. zcases.
  - rewrite ldelete_pivot_lt by done. by rewrite IHl.
  - rewrite ldelete_pivot_gt by done. by rewrite IHr.
  - assert (k = data) as -> by lia. rewrite (ldelete_pivot_eq zkey) by done.
    destruct l as [|ld ll lr]; [by destruct r|].
    destruct r as [|rd rl rr]; [by rewrite app_nil_r|].
    set (lt := Node ld ll lr) in *. set (rt := Node rd rl rr) in *.
    assert (head (values rt) = Some (DeleteFromBst.leftmost rd rl)) as Hh
      by apply leftmost_head.
    change (values lt ++ DeleteFromBst.leftmost rd rl ::
      values (DeleteFromBst.deleteNode rt (DeleteFromBst.leftmost rd rl)) =
      values lt ++ values rt).
    rewrite IHr by done. unfold bst in Hbr.
    destruct (values rt) as [|v vs]; [done|].
    injection Hh as <-. by rewrite (ldelete_head zkey).
Qed.

Lemma search_iff t k :
  bst t → SearchInBst.search t k = true ↔ k ∈ values t.
Proof.
  induction t as [|data l IHl r IHr]; simpl; intros Hb; [set_solver|].
  bst_split Hb. rewrite elem_of_app, elem_of_cons.
  destruct (Z.eqb_spec k data) as [->|Hne]; [tauto|].
  destruct (Z.ltb_spec k data).
  - rewrite IHl by done. assert (k ∉ values r) by (eapply gt_not_elem'; eauto; lia).
    tauto.
  - rewrite IHr by done. assert (k ∉ values l) by (eapply lt_not_elem'; eauto; lia).
    tauto.
Qed.

Lemma isBstUtils_iff t lo hi :
  BstIsValid.isBstUtils t lo hi = true ↔
  bst t ∧ Forall (λ y, (lo < y < hi)%Z) (values t).
Proof.
  revert lo hi. induction t as [|data l IHl r IHr]; simpl; intros lo hi.
  { split; [|done]. intros _. split; constructor. }
  rewrite bst_node, Forall_app, Forall_cons.
  destruct ((data <=? lo) || (hi <=? data))%Z eqn:E.
  { split; [done|]. intros (_ & _ & ? & _). lia. }
  rewrite andb_true_iff, IHl, IHr. split.
  - intros [[? Hl] [? Hr]]. repeat split_and; try done; try lia;
      (eapply Forall_impl; [eassumption|simpl; lia]).
  - intros ((? & ? & Hlt & Hgt) & Hl & ? & Hr).
    rewrite !Forall_forall in *. repeat split; try done; naive_solver lia.
Qed.

(** What [inOrder] writes. *)
Lemma inOrder_output t :
  BstImplementation.inOrder t tt =
  Ok (tt, tt, (λ v, d v +:+ tab) <$> values t).
Proof.
  induction t as [|data l IHl r IHr]; [done|]. simpl.
  c_run. rewrite IHl, IHr. by rewrite fmap_app.
Qed.

(** The number of comparisons on the way from the root to a value. *)
Fixpoint path_depth (t : tree) (k : Z) : option Z :=
  match t with
  | NULL => None
  | Node data l r =>
      if (k =? data)%Z then Some 0%Z
      else Z.succ <$> (if (k <? data)%Z then path_depth l k else path_depth r k)
  end.

(** The lines [inOrder_depth] writes, as data. *)
Fixpoint depth_pairs (t : tree) (depth : Z) : list (Z * Z) :=
  match t with
  | NULL => []
  | Node data l r =>
      depth_pairs l (depth + 1) ++ (data, depth) :: depth_pairs r (depth + 1)
  end.

Definition depth_line (p : Z * Z) : string :=
  "Node: " +:+ d p.1 +:+ ", Depth: " +:+ d p.2 +:+ nl.

Lemma inOrder_depth_output t depth :
  BstInOrderDepth.inOrder_depth t depth tt =
  Ok (tt, tt, depth_line <$> depth_pairs t depth).
Proof.
  revert depth. induction t as [|data l IHl r IHr]; intros depth; [done|].
  simpl. c_run. rewrite IHl, IHr. by rewrite fmap_app.
Qed.

Lemma depth_pairs_fst t depth : (depth_pairs t depth).*1 = values t.
Proof.
  revert depth. induction t as [|data l IHl r IHr]; intros depth; [done|].
  simpl. by rewrite fmap_app, fmap_cons, IHl, IHr.
Qed.

Lemma depth_pairs_path t depth k n :
  bst t → (k, n) ∈ depth_pairs t depth →
  path_depth t k = Some (n - depth)%Z.
Proof.
  revert depth. induction t as [|data l IHl r IHr]; intros depth Hb; [set_solver|].
  bst_split Hb. simpl. rewrite elem_of_app, elem_of_cons. intros Hin.
  assert (Hmem : ∀ s dp, (k, n) ∈ depth_pairs s dp → k ∈ values s).
  { intros s dp Hs. rewrite <- (depth_pairs_fst s dp).
    apply (list_elem_of_fmap_2' fst _ (k, n) k); done. }
  rewrite !Forall_forall in *.
  destruct Hin as [Hin|[Heq|Hin]].
  - pose proof (Hlt _ (Hmem _ _ Hin)). apply IHl in Hin; [|done].
    zcases; try lia. rewrite Hin. simpl. f_equal. lia.
  - injection Heq as -> ->. rewrite Z.eqb_refl. f_equal. lia.
  - pose proof (Hgt _ (Hmem _ _ Hin)). apply IHr in Hin; [|done].
    zcases; try lia. rewrite Hin. simpl. f_equal. lia.
Qed.

Lemma search_bool t k :
  bst t → SearchInBst.search t k = bool_decide (k ∈ values t).
Proof.
  intros Hb. apply search_iff with (k := k) in Hb.
  case_bool_decide; destruct (SearchInBst.search t k); naive_solver.
Qed.

(** Every subtree of a tree. *)
Inductive subtree (s : tree) : tree → Prop :=
  | subtree_refl : subtree s s
  | subtree_left data l r : subtree s l → subtree s (Node data l r)
  | subtree_right data l r : subtree s r → subtree s (Node data l r).

(** ** Properties *)

(** On a search tree, [insert] adds exactly the value: the in-order list
    becomes the sorted insertion of the value (a value already present leaves
    it unchanged), the result is a search tree again, and [search] finds
    precisely the inserted value and what it found before. *)
Theorem bst_insert_correct (t : tree) (x : Z) :
  bst t →
  values (BstImplementation.insert t x) = linsert zkey x (values t) ∧
  bst (BstImplementation.insert t x) ∧
  ∀ y, SearchInBst.search (BstImplementation.insert t x) y =
       ((y =? x)%Z || SearchInBst.search t y).
Proof.
  intros Hb. split; [by apply values_insert|]. split; [by apply bst_insert|].
  intros y. rewrite !search_bool by auto using bst_insert.
  apply Bool.eq_true_iff_eq. rewrite orb_true_iff, Z.eqb_eq, !bool_decide_eq_true.
  by apply elem_of_values_insert.
Qed.

Definition bst_example : tree :=
  foldl BstImplementation.insert NULL [15; 9; 25; 5; 11; 18]%Z.

Lemma bst_example_bst : bst bst_example.
Proof. apply bst_foldl_insert. constructor. Qed.

Lemma bst_insert_correct_witness :
  bst bst_example ∧
  values (BstImplementation.insert bst_example 10) = [5; 9; 10; 11; 15; 18; 25]%Z.
Proof.
  split; [apply bst_example_bst|].
  rewrite (proj1 (bst_insert_correct bst_example 10 bst_example_bst)).
  vm_compute. reflexivity.
Defined.

(** On a search tree, [deleteNode] removes exactly the value: the in-order
    list loses it and nothing else (also in the two-children case, where the
    successor is copied up and deleted from the right subtree), the result is
    a search tree, and [search] no longer finds the deleted value while every
    other answer is unchanged. *)
Theorem bst_delete_correct (t : tree) (k : Z) :
  bst t →
  values (DeleteFromBst.deleteNode t k) = ldelete zkey k (values t) ∧
  bst (DeleteFromBst.deleteNode t k) ∧
  ∀ y, SearchInBst.search (DeleteFromBst.deleteNode t k) y =
       (negb (y =? k)%Z && SearchInBst.search t y).
Proof.
  intros Hb. pose proof (values_delete t k Hb) as Hv.
  assert (bst (DeleteFromBst.deleteNode t k)) as Hb'.
  { unfold bst. rewrite Hv. by apply sorted_ldelete. }
  do 2 (split; [done|]). intros y. rewrite !search_bool by done.
  apply Bool.eq_true_iff_eq. rewrite andb_true_iff, negb_true_iff, Z.eqb_neq,
    !bool_decide_eq_true, Hv. unfold ldelete. by rewrite list_elem_of_filter.
Qed.

Lemma bst_delete_correct_witness :
  bst bst_example ∧
  values (DeleteFromBst.deleteNode bst_example 15) = [5; 9; 11; 18; 25]%Z.
Proof.
  split; [apply bst_example_bst|].
  rewrite (proj1 (bst_delete_correct bst_example 15 bst_example_bst)).
  vm_compute. reflexivity.
Defined.

(** [isBST] returns 1 exactly when the tree is a search tree all of whose
    values lie strictly between [INT_MIN] and [INT_MAX]: it is sound, and it is
    complete except for trees that contain one of the two extreme values. *)
Theorem isBST_iff (t : tree) :
  BstIsValid.isBST t = true ↔
  bst t ∧ Forall (λ y, (INT_MIN < y < INT_MAX)%Z) (values t).
Proof. apply isBstUtils_iff. Qed.

(** For two values of a search tree, [LCA] returns a node of the tree whose
    subtree contains both values while neither of its children's subtrees does:
    the lowest common ancestor. *)
Theorem LCA_is_lowest (t : tree) (a b : Z) :
  bst t → a ∈ values t → b ∈ values t →
  ∃ data l r, LowestCommonAncestor.LCA t a b = Node data l r ∧
    subtree (Node data l r) t ∧
    a ∈ values (Node data l r) ∧ b ∈ values (Node data l r) ∧
    ¬ (a ∈ values l ∧ b ∈ values l) ∧ ¬ (a ∈ values r ∧ b ∈ values r).
Proof.
  induction t as [|data l IHl r IHr]; intros Hb Ha Hb'; [set_solver|].
  bst_split Hb. pose proof Ha as Ha0. pose proof Hb' as Hb0.
  simpl in Ha, Hb' |- *. rewrite elem_of_app, elem_of_cons in Ha, Hb'.
  assert (Hside : ∀ z, z ∈ values (Node data l r) →
    (z < data ∧ z ∈ values l ∨ z = data ∨ data < z ∧ z ∈ values r)%Z).
  { intros z. simpl. rewrite elem_of_app, elem_of_cons.
    rewrite !Forall_forall in *. naive_solver. }
  pose proof (Hside _ Ha0) as Sa. pose proof (Hside _ Hb0) as Sb.
  rewrite Forall_forall in Hlt, Hgt.
  destruct ((a <? data) && (b <? data))%Z eqn:E1.
  { apply andb_true_iff in E1 as [?%Z.ltb_lt ?%Z.ltb_lt].
    destruct IHl as (d' & l' & r' & Hres); [done|naive_solver lia..|].
    exists d', l', r'. intuition auto using subtree_left. }
  destruct ((data <? a) && (data <? b))%Z eqn:E2.
  { apply andb_true_iff in E2 as [?%Z.ltb_lt ?%Z.ltb_lt].
    destruct IHr as (d' & l' & r' & Hres); [done|naive_solver lia..|].
    exists d', l', r'. intuition auto using subtree_right. }
  exists data, l, r. repeat split; auto using subtree_refl.
  - intros [?%Hlt ?%Hlt]. lia.
  - intros [?%Hgt ?%Hgt]. lia.
Qed.

Lemma LCA_is_lowest_witness :
  ∃ data l r, LowestCommonAncestor.LCA bst_example 18 25 = Node data l r ∧
    subtree (Node data l r) bst_example.
Proof.
  destruct (LCA_is_lowest bst_example 18 25 bst_example_bst) as (x & l & r & H & H' & _).
  - vm_compute. repeat constructor.
  - vm_compute. repeat constructor.
  - exists x, l, r. split; [exact H | exact H'].
Defined.

(** [inOrder_depth] started at depth 0 prints one line per value, in
    increasing order, and each line carries the length of the search path from
    the root to that value. *)
Theorem inOrder_depth_correct (t : tree) :
  bst t →
  ∃ ps, BstInOrderDepth.inOrder_depth t 0 tt = Ok (tt, tt, depth_line <$> ps) ∧
    ps.*1 = values t ∧ sorted_keys zkey ps.*1 ∧
    ∀ k n, (k, n) ∈ ps → path_depth t k = Some n.
Proof.
  intros Hb. exists (depth_pairs t 0). split; [apply inOrder_depth_output|].
  rewrite depth_pairs_fst. do 2 (split; [done|]). intros k n Hin.
  rewrite (depth_pairs_path t 0 k n) by done. f_equal. lia.
Qed.

Lemma inOrder_depth_correct_witness :
  ∃ ps, BstInOrderDepth.inOrder_depth bst_example 0 tt
    = Ok (tt, tt, depth_line <$> ps) ∧ ps.*1 = [5; 9; 11; 15; 18; 25]%Z.
Proof.
  destruct (inOrder_depth_correct bst_example bst_example_bst) as (ps & H & Hv & _).
  exists ps. split; [exact H|]. rewrite Hv. vm_compute. reflexivity.
Defined.

Lemma countNodes_length t :
  CountNodes.countNodes t = Z.of_nat (length (values t)).
Proof.
  induction t as [|data l IHl r IHr]; simpl; [done|].
  rewrite IHl, IHr, length_app. simpl. lia.
Qed.

Lemma height_nonneg t : (0 ≤ HeightBst.height t)%Z.
Proof. induction t; simpl; zcases; lia. Qed.

Lemma count_lt_pow t :
  (CountNodes.countNodes t < 2 ^ HeightBst.height t)%Z.
Proof.
  induction t as [|data l IHl r IHr]; simpl; [lia|].
  pose proof (height_nonneg l). pose proof (height_nonneg r).
  set (m := if (HeightBst.height l >? HeightBst.height r)%Z
    then HeightBst.height l else HeightBst.height r).
  assert (HeightBst.height l ≤ m ∧ HeightBst.height r ≤ m)%Z as [Hl Hr].
  { subst m. zcases; lia. }
  rewrite Z.pow_add_r by lia.
  pose proof (Z.pow_le_mono_r 2 _ _ ltac:(lia) Hl).
  pose proof (Z.pow_le_mono_r 2 _ _ ltac:(lia) Hr). lia.
Qed.

Lemma leaf_bounds t :
  (0 ≤ CountLeafNode.countLeafNode t ∧
   2 * CountLeafNode.countLeafNode t ≤ CountNodes.countNodes t + 1)%Z.
Proof.
  induction t as [|data l IHl r IHr]; simpl; [lia|].
  destruct l as [|ld ll lr]; [destruct r as [|rd rl rr]|]; simpl in *; lia.
Qed.

(** The measures agree with each other on every tree: [countNodes] is the
    number of values [inOrder] prints, a tree of height [h] has at least [h]
    and fewer than [2^h] nodes, and [countLeafNode] counts at most half of the
    nodes, rounded up, and at least one leaf of a non-empty tree. *)
Theorem tree_measures (t : tree) :
  CountNodes.countNodes t = Z.of_nat (length (values t)) ∧
  (HeightBst.height t ≤ CountNodes.countNodes t < 2 ^ HeightBst.height t)%Z ∧
  (2 * CountLeafNode.countLeafNode t ≤ CountNodes.countNodes t + 1)%Z ∧
  (t ≠ NULL → 1 ≤ CountLeafNode.countLeafNode t)%Z.
Proof.
  split; [apply countNodes_length|]. split; [split; [|apply count_lt_pow]|].
  - induction t as [|data l IHl r IHr]; simpl; [lia|].
    pose proof (countNodes_length l). pose proof (countNodes_length r).
    zcases; lia.
  - split; [apply leaf_bounds|]. induction t as [|data l IHl r IHr]; [done|].
    intros _. pose proof (leaf_bounds l). pose proof (leaf_bounds r).
    destruct l as [|ld ll lr]; [destruct r as [|rd rl rr]|]; simpl in *;
      try lia; [specialize (IHr ltac:(done)) | specialize (IHl ltac:(done))]; lia.
Qed.

(** [findMinMax] prints the first and the last value of the in-order list, and
    is undefined exactly on the empty tree. *)
Lemma findMinMax_output t :
  FindMinMax.findMinMax t tt =
  match head (values t), last (values t) with
  | Some lo, Some hi =>
      Ok (tt, tt, [nl +:+ "Minimum value= " +:+ d lo +:+ nl;
                   "Maximum value= " +:+ d hi +:+ nl])
  | _, _ => UB NullDeref
  end.
Proof.
  destruct t as [|data l r]; [done|].
  by rewrite leftmost_head, rightmost_last.
Qed.

(** The printed runs of the eleven programs. *)
Example main_outputs :
  run_output BstImplementation.main tt
    = Ok ((λ v, d v +:+ tab) <$> [5; 12; 24; 30; 55]%Z) ∧
  run_output DeleteFromBst.main tt
    = Ok (((λ v, d v +:+ tab) <$> [5; 9; 11; 15; 18; 25]%Z)
          ++ [nl +:+ "After deleting node, The resultant Tree is:" +:+ nl]
          ++ ((λ v, d v +:+ tab) <$> [5; 11; 15; 18; 25]%Z)) ∧
  run_output LowestCommonAncestor.main tt
    = Ok ["lowest common ancestor= 20"] ∧
  run_output CountLeafNode.main tt
    = Ok (((λ v, d v +:+ tab) <$> [5; 9; 11; 15; 18; 19; 25]%Z)
          ++ [nl +:+ "Total node in bst: 3"]) ∧
  run_output CountNodes.main tt
    = Ok (((λ v, d v +:+ tab) <$> [5; 9; 11; 15; 18; 19; 25]%Z)
          ++ [nl +:+ "Total node in bst: 7"]) ∧
  run_output BstInOrderDepth.main [3; 2; 1; 3]%Z
    = Ok ["Enter number of elements to insert into bst:";
          "Enter 3 elements into bst" +:+ nl;
          nl +:+ "InOrder traversal" +:+ nl;
          depth_line (1, 1)%Z; depth_line (2, 0)%Z; depth_line (3, 1)%Z].
Proof. vm_compute. repeat split; reflexivity. Qed.
