(* ===== verification/AvlTree.v ===== *)
(** * The AVL tree of [day-8(Avl-Tree)/avl-tree.c]

    Definitions follow the file function by function.  A node is reached only
    through its parent, so a pointer is the subtree it points to; a function
    that dereferences a pointer that may be [NULL] returns a [res], and the
    theorems show that on AVL trees no dereference fails. *)
From stdpp Require Import base list gmap strings pretty sorting.
From Stdlib Require Import ZArith Lia.
From S2P Require Import Prelude Bst.

Module Avl.

(** [struct Node]: key, children and the stored height. *)
Inductive node : Set :=
  | NULL
  | Node (key : Z) (l r : node) (height : Z).

#[export] Instance node_eq_dec : EqDecision node.
Proof. solve_decision. Defined.

Definition max (value1 value2 : Z) : Z :=
  if (value1 >? value2)%Z then value1 else value2.

Definition height (n : node) : Z :=
  match n with NULL => 0 | Node _ _ _ h => h end.

Definition createNode (key : Z) : node := Node key NULL NULL 1.

(** [node->key] of a pointer that may be [NULL]. *)
Definition key_of (n : node) : res Z :=
  match n with NULL => UB NullDeref | Node k _ _ _ => Ok k end.

Definition rightRotate (y : node) : res node :=
  match y with
  | NULL => UB NullDeref
  | Node ykey x yr _ =>
      match x with
      | NULL => UB NullDeref
      | Node xkey xl T2 _ =>
          let y := Node ykey T2 yr (max (height T2) (height yr) + 1) in
          Ok (Node xkey xl y (max (height xl) (height y) + 1))
      end
  end.

Definition leftRotate (x : node) : res node :=
  match x with
  | NULL => UB NullDeref
  | Node xkey xl y _ =>
      match y with
      | NULL => UB NullDeref
      | Node ykey T2 yr _ =>
          let x := Node xkey xl T2 (max (height xl) (height T2) + 1) in
          Ok (Node ykey x yr (max (height x) (height yr) + 1))
      end
  end.

Definition getBalanceFactor (n : node) : Z :=
  match n with NULL => 0 | Node _ l r _ => height l - height r end.

(** The part of [insert] after the recursive call: the height update, the
    balance factor and the four rotation cases, tested in the source's order
    with C's short-circuit [&&]. *)
Definition insert_fix (key nkey : Z) (l r : node) : res node :=
  let n := Node nkey l r (1 + max (height l) (height r)) in
  let balance := getBalanceFactor n in
  ll ← and_sc (balance >? 1)%Z (k ← key_of l; Ok (key <? k)%Z);
  if ll : bool then rightRotate n else
  rr ← and_sc (balance <? -1)%Z (k ← key_of r; Ok (key >? k)%Z);
  if rr : bool then leftRotate n else
  lr ← and_sc (balance >? 1)%Z (k ← key_of l; Ok (key >? k)%Z);
  if lr : bool then
    (l' ← leftRotate l;
     rightRotate (Node nkey l' r (1 + max (height l) (height r))))
  else
  rl ← and_sc (balance <? -1)%Z (k ← key_of r; Ok (key <? k)%Z);
  if rl : bool then
    (r' ← rightRotate r;
     leftRotate (Node nkey l r' (1 + max (height l) (height r))))
  else Ok n.

Fixpoint insert (n : node) (key : Z) : res node :=
  match n with
  | NULL => Ok (createNode key)
  | Node nkey l r _ =>
      if (key <? nkey)%Z then l' ← insert l key; insert_fix key nkey l' r
      else if (key >? nkey)%Z then r' ← insert r key; insert_fix key nkey l r'
      else Ok n
  end.

(** One [printf(" ")] per column, as [displayTree] indents. *)
Definition spaces (space : Z) : C unit unit :=
  for_each (λ _, printf " ") (seq 0 (Z.to_nat (space - 5))).

Fixpoint displayTree (root : node) (space : Z) : C unit unit :=
  match root with
  | NULL => mret tt
  | Node key l r _ =>
      let space := (space + 5)%Z in
      displayTree r space ;;
      printf nl ;; spaces space ;; printf (d key +:+ nl) ;;
      displayTree l space
  end.

Fixpoint search (root : node) (key : Z) : node :=
  match root with
  | NULL => root
  | Node k l r _ =>
      if (k =? key)%Z then root
      else if (key <? k)%Z then search l key
      else search r key
  end.

(** The key of the node the loop of [minimumValueNode] stops at, started at
    the node with key [key] and left child [l]. *)
Fixpoint minimumValueNode (key : Z) (l : node) : Z :=
  match l with
  | NULL => key
  | Node key' l' _ _ => minimumValueNode key' l'
  end.

(** The part of [deleteNode] after the deletion proper: [root] is not
    [NULL]. *)
Definition delete_fix (key : Z) (l r : node) : res node :=
  let root := Node key l r (1 + max (height l) (height r)) in
  let balance := getBalanceFactor root in
  if ((balance >? 1) && (getBalanceFactor l >=? 0))%Z then rightRotate root
  else if ((balance >? 1) && (getBalanceFactor l <? 0))%Z then
    l' ← leftRotate l;
    rightRotate (Node key l' r (1 + max (height l) (height r)))
  else if ((balance <? -1) && (getBalanceFactor r <=? 0))%Z then leftRotate root
  else if ((balance <? -1) && (getBalanceFactor r >? 0))%Z then
    r' ← rightRotate r;
    leftRotate (Node key l r' (1 + max (height l) (height r)))
  else Ok root.

(** [*root = *temp] copies the only child over the root, children and all, so
    the fix-up then works on the child's own fields. *)
Definition delete_fix_node (root : node) : res node :=
  match root with NULL => Ok NULL | Node k l r _ => delete_fix k l r end.

Fixpoint deleteNode (root : node) (key : Z) : res node :=
  match root with
  | NULL => Ok root
  | Node rkey l r h =>
      if (key <? rkey)%Z then l' ← deleteNode l key; delete_fix rkey l' r
      else if (key >? rkey)%Z then r' ← deleteNode r key; delete_fix rkey l r'
      else
        match l, r with
        | NULL, _ => delete_fix_node r
        | _, NULL => delete_fix_node l
        | _, Node rk rl _ _ =>
            let temp := minimumValueNode rk rl in
            r' ← deleteNode r temp; delete_fix temp l r'
        end
  end.

(** [scanf("%d")] on the numbers of the input that are left. *)
Definition scanf_d := BstInOrderDepth.scanf_d.
Definition no_input {A} := @BstInOrderDepth.no_input A.

Fixpoint read_loop (n : nat) (root : node) : C (list Z) node :=
  match n with
  | O => mret root
  | S n => value ← scanf_d; root ← lift (insert root value); read_loop n root
  end.

Definition main : C (list Z) unit :=
  printf "Enter number of inputs: " ;;
  n ← scanf_d;
  printf ("Enter " +:+ d n +:+ " values:" +:+ nl) ;;
  root ← read_loop (Z.to_nat n) NULL;
  printf (nl +:+ "AVL Tree structure:" +:+ nl) ;;
  no_input (displayTree root 0) ;;
  printf (nl +:+ "Enter key to search: ") ;;
  keyToBeSearched ← scanf_d;
  (match search root keyToBeSearched with
   | NULL => printf ("Key " +:+ d keyToBeSearched +:+ " is not found." +:+ nl)
   | _ => printf ("Key " +:+ d keyToBeSearched +:+ " is found in AVL tree." +:+ nl)
   end) ;;
  printf (nl +:+ "Enter key to delete: ") ;;
  keyToBeDeleted ← scanf_d;
  root ← lift (deleteNode root keyToBeDeleted);
  printf (nl +:+ "AVL Tree after deletion:" +:+ nl) ;;
  no_input (displayTree root 0).

End Avl.

(** ** Invariant *)

Module AvlSpec.
Import Avl.

Fixpoint keys (n : node) : list Z :=
  match n with
  | NULL => []
  | Node k l r _ => keys l ++ k :: keys r
  end.

(** The length of the longest path, against which stored heights are
    checked. *)
Fixpoint depth (n : node) : Z :=
  match n with
  | NULL => 0
  | Node _ l r _ => 1 + Z.max (depth l) (depth r)
  end.

(** Stored heights are right and sibling heights differ by at most one. *)
Fixpoint balanced (n : node) : Prop :=
  match n with
  | NULL => True
  | Node _ l r h =>
      balanced l ∧ balanced r ∧ h = (1 + Z.max (height l) (height r))%Z ∧
      (-1 ≤ height l - height r ≤ 1)%Z
  end.

Definition avl (n : node) : Prop :=
  balanced n ∧ sorted_keys zkey (keys n).

Fixpoint size (n : node) : Z :=
  match n with
  | NULL => 0
  | Node _ l r _ => size l + 1 + size r
  end.

Lemma max_Zmax a b : max a b = Z.max a b.
Proof. unfold max. zcases; lia. Qed.

Lemma balanced_height n : balanced n → height n = depth n ∧ (0 ≤ height n)%Z.
Proof. induction n as [|k l IHl r IHr h]; simpl; [lia|]. intuition lia. Qed.

Lemma balanced_nonneg n : balanced n → (0 ≤ height n)%Z.
Proof. intros H. by apply balanced_height in H as [_ ?]. Qed.

Lemma height_pos_node n :
  balanced n → (0 < height n)%Z → ∃ k l r h, n = Node k l r h.
Proof. destruct n; simpl; [lia|eauto]. Qed.

(** Turns the booleans of the code into facts and closes impossible cases. *)
Ltac branch :=
  repeat match goal with
  | |- context [if ?b then _ else _] => destruct b eqn:?; try lia; simpl
  end.

(** Collects [0 <= height t] for every balanced subtree in the context. *)
Ltac pose_heights :=
  repeat match goal with
  | H : balanced ?t |- _ =>
      lazymatch goal with
      | _ : (0 ≤ height t)%Z |- _ => fail
      | _ => pose proof (balanced_nonneg t H)
      end
  end.

(** Reassociates in-order lists. *)
Ltac app_norm := repeat (rewrite <- app_assoc; simpl).

(** ** Rotations *)

Lemma rightRotate_keys n n' : rightRotate n = Ok n' → keys n' = keys n.
Proof.
  destruct n as [|yk [|xk xl T2 xh] yr yh]; simpl; try done.
  intros [= <-]. simpl. by rewrite <- app_assoc.
Qed.

Lemma leftRotate_keys n n' : leftRotate n = Ok n' → keys n' = keys n.
Proof.
  destruct n as [|xk xl [|yk T2 yr yh] xh]; simpl; try done.
  intros [= <-]. simpl. by rewrite <- app_assoc.
Qed.

(** What a fix-up step promises of its result [n']: balanced, same keys, and
    of height [H] or [H + 1]. *)
Definition fixed (ks : list Z) (H : Z) (n' : node) : Prop :=
  balanced n' ∧ keys n' = ks ∧ (height n' = H ∨ height n' = H + 1)%Z.

(** The four rotations that rebalance, each for a node whose heavy side is two
    higher than the other. *)
Lemma rotate_right_balances k lk ll lr lh r h :
  balanced (Node lk ll lr lh) → balanced r →
  lh = (height r + 2)%Z → (height lr ≤ height ll)%Z →
  ∃ n', rightRotate (Node k (Node lk ll lr lh) r h) = Ok n' ∧
    fixed ((keys ll ++ lk :: keys lr) ++ k :: keys r) (height r + 2)%Z n' ∧
    (height ll = height lr + 1 → height n' = height r + 2)%Z.
Proof.
  simpl. intros (Hll & Hlr & Hlh & Hb) Hr Hh Hle. eexists. split; [done|].
  unfold fixed. simpl. rewrite !max_Zmax. app_norm. pose_heights.
  repeat split; auto; lia.
Qed.

Lemma rotate_left_balances k l rk rl rr rh h :
  balanced l → balanced (Node rk rl rr rh) →
  rh = (height l + 2)%Z → (height rl ≤ height rr)%Z →
  ∃ n', leftRotate (Node k l (Node rk rl rr rh) h) = Ok n' ∧
    fixed (keys l ++ k :: keys rl ++ rk :: keys rr) (height l + 2)%Z n' ∧
    (height rr = height rl + 1 → height n' = height l + 2)%Z.
Proof.
  simpl. intros Hl (Hrl & Hrr & Hrh & Hb) Hh Hle. eexists. split; [done|].
  unfold fixed. simpl. rewrite !max_Zmax. app_norm. pose_heights.
  repeat split; auto; lia.
Qed.

Lemma rotate_left_right_balances k lk ll lr lh r h :
  balanced (Node lk ll lr lh) → balanced r →
  lh = (height r + 2)%Z → height lr = (height ll + 1)%Z →
  ∃ l' n', leftRotate (Node lk ll lr lh) = Ok l' ∧
    rightRotate (Node k l' r h) = Ok n' ∧
    fixed ((keys ll ++ lk :: keys lr) ++ k :: keys r) (height r + 2)%Z n' ∧
    height n' = (height r + 2)%Z.
Proof.
  simpl. intros (Hll & Hlr & Hlh & Hb) Hr Hh Hle. pose_heights.
  destruct (height_pos_node lr) as (mk & ml & mr & mh & ->); [done|lia|].
  simpl in *. destruct Hlr as (Hml & Hmr & Hmh & Hmb). pose_heights.
  do 2 eexists. split; [done|]. split; [done|].
  unfold fixed. simpl. rewrite !max_Zmax. app_norm.
  repeat split; auto; lia.
Qed.

Lemma rotate_right_left_balances k l rk rl rr rh h :
  balanced l → balanced (Node rk rl rr rh) →
  rh = (height l + 2)%Z → height rl = (height rr + 1)%Z →
  ∃ r' n', rightRotate (Node rk rl rr rh) = Ok r' ∧
    leftRotate (Node k l r' h) = Ok n' ∧
    fixed (keys l ++ k :: keys rl ++ rk :: keys rr) (height l + 2)%Z n' ∧
    height n' = (height l + 2)%Z.
Proof.
  simpl. intros Hl (Hrl & Hrr & Hrh & Hb) Hh Hle. pose_heights.
  destruct (height_pos_node rl) as (mk & ml & mr & mh & ->); [done|lia|].
  simpl in *. destruct Hrl as (Hml & Hmr & Hmh & Hmb). pose_heights.
  do 2 eexists. split; [done|]. split; [done|].
  unfold fixed. simpl. rewrite !max_Zmax. app_norm.
  repeat split; auto; lia.
Qed.

(** How a subtree changes under [insert]: its height stays, or it grows by one
    and, unless it was empty, it then leans towards the inserted key. *)
Definition grew (key : Z) (n n' : node) : Prop :=
  height n' = height n ∨
  (height n' = (height n + 1)%Z ∧
   (n = NULL ∨
    match n' with
    | NULL => False
    | Node k l r _ =>
        (key < k ∧ height l = height r + 1)%Z ∨
        (k < key ∧ height r = height l + 1)%Z
    end)).

Lemma insert_fix_left key k l0 l r h :
  balanced (Node k l0 r h) → balanced l → grew key l0 l → (key < k)%Z →
  ∃ n', insert_fix key k l r = Ok n' ∧ balanced n' ∧
    keys n' = keys l ++ k :: keys r ∧ grew key (Node k l0 r h) n'.
Proof.
  intros (Hl0 & Hr & Hh & Hb) Hl Hg Hk. pose_heights.
  assert (height l0 ≤ height l ≤ height l0 + 1)%Z
    by (destruct Hg as [|[? _]]; lia).
  unfold insert_fix, and_sc. simpl. rewrite !max_Zmax.
  destruct (decide (height l = height r + 2)%Z) as [Htwo|Htwo].
  - destruct Hg as [Hg|[Hg [->|Hlean]]]; [lia|simpl in *; lia|].
    destruct l as [|lk ll lr lh]; [done|].
    destruct Hlean as [[Hlk Hll]|[Hlk Hlr]]; simpl in Htwo; simpl key_of; c_run; simpl in *.
    + destruct (rotate_right_balances k lk ll lr lh r
        (1 + lh `max` height r)%Z) as (n' & E & (? & ? & ?) & Hn); [done..|lia|].
      simpl in E. branch. exists n'. rewrite E. unfold grew. simpl.
      intuition lia.
    + destruct (rotate_left_right_balances k lk ll lr lh r
        (1 + lh `max` height r)%Z) as (l' & n' & E1 & E2 & (? & ? & ?) & ?); [done..|].
      simpl in E1, E2. branch. rewrite E1. simpl. rewrite E2.
      exists n'. unfold grew. simpl. intuition lia.
  - exists (Node k l r (1 + height l `max` height r)). split.
    + c_run. branch. done.
    + simpl. unfold grew in *. simpl in *. intuition (try lia).
Qed.

Lemma insert_fix_right key k l r0 r h :
  balanced (Node k l r0 h) → balanced r → grew key r0 r → (k < key)%Z →
  ∃ n', insert_fix key k l r = Ok n' ∧ balanced n' ∧
    keys n' = keys l ++ k :: keys r ∧ grew key (Node k l r0 h) n'.
Proof.
  intros (Hl & Hr0 & Hh & Hb) Hr Hg Hk. pose_heights.
  assert (height r0 ≤ height r ≤ height r0 + 1)%Z
    by (destruct Hg as [|[? _]]; lia).
  unfold insert_fix, and_sc. simpl. rewrite !max_Zmax.
  destruct (decide (height r = height l + 2)%Z) as [Htwo|Htwo].
  - destruct Hg as [Hg|[Hg [->|Hlean]]]; [lia|simpl in *; lia|].
    destruct r as [|rk rl rr rh]; [done|].
    destruct Hlean as [[Hrk Hrl]|[Hrk Hrr]]; simpl in Htwo; simpl key_of; c_run; simpl in *.
    + destruct (rotate_right_left_balances k l rk rl rr rh
        (1 + height l `max` rh)%Z) as (r' & n' & E1 & E2 & (? & ? & ?) & ?); [done..|].
      simpl in E1, E2. branch. rewrite E1. simpl. rewrite E2.
      exists n'. unfold grew. simpl. intuition lia.
    + destruct (rotate_left_balances k l rk rl rr rh
        (1 + height l `max` rh)%Z) as (n' & E & (? & ? & ?) & Hn); [done..|lia|].
      simpl in E. branch. exists n'. rewrite E. unfold grew. simpl.
      intuition lia.
  - exists (Node k l r (1 + height l `max` height r)). split.
    + c_run. branch. done.
    + simpl. unfold grew in *. simpl in *. intuition (try lia).
Qed.

Lemma insert_ok n key :
  balanced n →
  sorted_keys zkey (keys n) →
  ∃ n', insert n key = Ok n' ∧ balanced n' ∧
    keys n' = linsert zkey key (keys n) ∧ grew key n n'.
Proof.
  induction n as [|k l IHl r IHr h]; intros Hb Hs.
  { exists (createNode key). simpl. unfold grew. simpl. intuition lia. }
  simpl in Hs. apply sorted_mid in Hs as (Hsl & Hsr & Hlt & Hgt).
  pose proof Hb as (Hbl & Hbr & _). simpl.
  destruct (Z.ltb_spec key k).
  - destruct IHl as (l' & E & ? & Hk & ?); [done..|]. rewrite E.
    destruct (insert_fix_left key k l l' r h) as (n' & E' & ? & Hk' & ?); [done..|].
    exists n'. rewrite Hk', Hk. rewrite linsert_left by done. auto.
  - rewrite Z.gtb_ltb. destruct (Z.ltb_spec k key).
    + destruct IHr as (r' & E & ? & Hk & ?); [done..|]. rewrite E.
      destruct (insert_fix_right key k l r r' h) as (n' & E' & ? & Hk' & ?); [done..|].
      exists n'. rewrite Hk', Hk. rewrite linsert_right by done. auto.
    + exists (Node k l r h). rewrite linsert_present by (done || lia).
      unfold grew. auto.
Qed.

(** ** Deletion *)

(** The fix-up of [deleteNode]: both children balanced, heights at most two
    apart.  The result has the higher child's height, or one more. *)
Lemma delete_fix_ok k l r :
  balanced l → balanced r → (-2 ≤ height l - height r ≤ 2)%Z →
  ∃ n', delete_fix k l r = Ok n' ∧
    fixed (keys l ++ k :: keys r) (Z.max (height l) (height r)) n' ∧
    ((-1 ≤ height l - height r ≤ 1)%Z → height n' = (1 + Z.max (height l) (height r))%Z).
Proof.
  intros Hl Hr Hb. pose_heights. unfold delete_fix. simpl. rewrite !max_Zmax.
  destruct (decide (height l = height r + 2)%Z) as [Htwo|Htwo];
    [|destruct (decide (height r = height l + 2)%Z) as [Htwo'|Htwo']].
  - destruct (height_pos_node l) as (lk & ll & lr & lh & ->); [done|lia|].
    simpl getBalanceFactor. simpl height in *.
    destruct (decide (height lr ≤ height ll)%Z).
    + destruct (rotate_right_balances k lk ll lr lh r
        (1 + lh `max` height r)%Z) as (n' & E & Hf & Hn); [done..|].
      branch. exists n'. split; [done|].
      unfold fixed in *. simpl. intuition lia.
    + pose proof Hl as (? & ? & ? & ?).
      destruct (rotate_left_right_balances k lk ll lr lh r
        (1 + lh `max` height r)%Z) as (l' & n' & E1 & E2 & Hf & Hn); [done|done|done|lia|].
      simpl in E1. branch. rewrite E1. exists n'. split; [exact E2|].
      unfold fixed in *. simpl. intuition lia.
  - destruct (height_pos_node r) as (rk & rl & rr & rh & ->); [done|lia|].
    simpl getBalanceFactor. simpl height in *.
    destruct (decide (height rl ≤ height rr)%Z).
    + destruct (rotate_left_balances k l rk rl rr rh
        (1 + height l `max` rh)%Z) as (n' & E & Hf & Hn); [done..|].
      branch. exists n'. split; [done|].
      unfold fixed in *. simpl. intuition lia.
    + pose proof Hr as (? & ? & ? & ?).
      destruct (rotate_right_left_balances k l rk rl rr rh
        (1 + height l `max` rh)%Z) as (r' & n' & E1 & E2 & Hf & Hn); [done|done|done|lia|].
      simpl in E1. branch. rewrite E1. exists n'. split; [exact E2|].
      unfold fixed in *. simpl. intuition lia.
  - branch. eexists. split; [done|]. unfold fixed. simpl. intuition lia.
Qed.

Lemma minimum_head k l r h :
  head (keys (Node k l r h)) = Some (minimumValueNode k l).
Proof.
  revert k r h. induction l as [|k' l' IH r' _ h']; intros k r h; [done|].
  simpl. specialize (IH k' r' h'). simpl in IH.
  rewrite <- IH. by destruct (keys l').
Qed.

Lemma delete_fix_node_ok n :
  balanced n →
  ∃ n', delete_fix_node n = Ok n' ∧ balanced n' ∧ keys n' = keys n ∧
    height n' = height n.
Proof.
  destruct n as [|k l r h]; [eauto|]. intros (? & ? & ? & ?).
  destruct (delete_fix_ok k l r) as (n' & E & (? & ? & ?) & Hh); [done..|lia|].
  exists n'. simpl. rewrite E. intuition lia.
Qed.

Lemma deleteNode_ok n key :
  balanced n → sorted_keys zkey (keys n) →
  ∃ n', deleteNode n key = Ok n' ∧ balanced n' ∧
    keys n' = ldelete zkey key (keys n) ∧
    (height n - 1 ≤ height n' ≤ height n)%Z.
Proof.
  revert key. induction n as [|k l IHl r IHr h]; intros key Hb Hs.
  { exists NULL. simpl. intuition lia. }
  simpl in Hs. apply sorted_mid in Hs as (Hsl & Hsr & Hlt & Hgt).
  pose proof Hb as (Hbl & Hbr & Hh & Hbal). simpl. rewrite Z.gtb_ltb. pose_heights.
  destruct (Z.ltb_spec key k); [|destruct (Z.ltb_spec k key)].
  - destruct (IHl key) as (l' & E & ? & Hk & ?); [done..|]. rewrite E. simpl.
    destruct (delete_fix_ok k l' r) as (n' & E' & (? & Hk' & ?) & ?); [done..|lia|].
    exists n'. rewrite Hk', Hk, ldelete_pivot_lt by done. intuition lia.
  - destruct (IHr key) as (r' & E & ? & Hk & ?); [done..|]. rewrite E. simpl.
    destruct (delete_fix_ok k l r') as (n' & E' & (? & Hk' & ?) & ?); [done..|lia|].
    exists n'. rewrite Hk', Hk, ldelete_pivot_gt by done. intuition lia.
  - assert (key = k) as -> by lia. rewrite (ldelete_pivot_eq zkey) by done.
    destruct l as [|lk ll lr lh].
    { destruct (delete_fix_node_ok r) as (n' & E & ? & ? & ?); [done|].
      exists n'. simpl in *. intuition lia. }
    destruct r as [|rk rl rr rh].
    { destruct (delete_fix_node_ok (Node lk ll lr lh)) as (n' & E & ? & Hk & ?); [done|].
      exists n'. rewrite app_nil_r. simpl in *. intuition lia. }
    set (lt := Node lk ll lr lh) in *. set (rt := Node rk rl rr rh) in *.
    assert (head (keys rt) = Some (minimumValueNode rk rl)) as Hh'
      by apply minimum_head.
    destruct (IHr (minimumValueNode rk rl)) as (r' & E & ? & Hk & ?); [done..|].
    rewrite E. simpl.
    destruct (delete_fix_ok (minimumValueNode rk rl) lt r')
      as (n' & E' & (? & Hk' & ?) & ?); [done..|lia|].
    exists n'. do 2 (split; [done|]). split; [|lia]. rewrite Hk', Hk.
    change (keys lt ++ minimumValueNode rk rl ::
      ldelete zkey (minimumValueNode rk rl) (keys rt) = keys lt ++ keys rt).
    destruct (keys rt) as [|v vs]; [done|].
    injection Hh' as ->. by rewrite (ldelete_head zkey).
Qed.

(** ** Search, display and the whole program *)

Lemma search_found n key :
  sorted_keys zkey (keys n) →
  match search n key with
  | NULL => key ∉ keys n
  | Node k _ _ _ => k = key ∧ key ∈ keys n
  end.
Proof.
  induction n as [|k l IHl r IHr h]; intros Hs; [simpl; set_solver|].
  simpl in Hs. apply sorted_mid in Hs as (Hsl & Hsr & Hlt & Hgt). simpl.
  destruct (Z.eqb_spec k key) as [->|]; [set_solver|].
  destruct (Z.ltb_spec key k).
  - specialize (IHl Hsl). destruct (search l key); [|set_solver].
    rewrite elem_of_app, elem_of_cons.
    intros [?|[?|Hr]]; [done|lia|]. eapply gt_not_elem'; eauto; lia.
  - specialize (IHr Hsr). destruct (search r key); [|set_solver].
    rewrite elem_of_app, elem_of_cons.
    intros [Hl|[?|?]]; [|lia|done]. eapply lt_not_elem'; eauto; lia.
Qed.

Lemma displayTree_ok n space : ∃ o, displayTree n space tt = Ok (tt, tt, o).
Proof.
  revert space. induction n as [|k l IHl r IHr h]; intros space; [by eexists|].
  simpl. destruct (IHr (space + 5)%Z) as [o1 E1].
  destruct (IHl (space + 5)%Z) as [o2 E2].
  c_run. rewrite E1. unfold spaces.
  rewrite (for_each_printf _ (λ _, " ")). rewrite E2. by eexists.
Qed.

Lemma read_loop_ok xs rest root :
  avl root →
  ∃ root', read_loop (length xs) root (xs ++ rest) = Ok (root', rest, []) ∧
    avl root' ∧ keys root' = foldl (λ l x, linsert zkey x l) (keys root) xs.
Proof.
  revert root. induction xs as [|x xs IH]; intros root [Hb Hs]; simpl.
  { exists root. by repeat split. }
  destruct (insert_ok root x Hb Hs) as (root1 & E & Hb1 & Hk1 & _).
  destruct (IH root1) as (root2 & E2 & Ha2 & Hk2).
  { split; [done|]. rewrite Hk1. by apply sorted_linsert. }
  exists root2. c_run. rewrite E, E2, Hk2, Hk1. done.
Qed.

Lemma size_pow m n :
  balanced n → (2 * Z.of_nat m ≤ height n)%Z →
  (2 ^ Z.of_nat m ≤ size n + 1)%Z.
Proof.
  revert n. induction m as [|m IH]; intros n Hb Hh.
  { induction n; simpl in *; [lia|]. destruct Hb as (? & ? & _).
    pose_heights. assert (∀ t, 0 ≤ size t)%Z by (intros t; induction t; simpl; lia).
    pose proof (H3 n1). pose proof (H3 n2). lia. }
  destruct n as [|k l r h]; simpl in *; [lia|].
  destruct Hb as (Hl & Hr & -> & ?).
  pose proof (IH l Hl ltac:(lia)). pose proof (IH r Hr ltac:(lia)).
  rewrite Nat2Z.inj_succ, Z.pow_succ_r by lia. lia.
Qed.

End AvlSpec.

(** ** Properties *)

Import Avl AvlSpec.

(** C6: On every AVL tree [insert] runs without dereferencing [NULL] and returns
    an AVL tree (search order, correct stored heights, balance within one) whose
    keys are the old ones with the new key in its place; a duplicate changes
    nothing, and the height grows by at most one. *)
Theorem avl_insert_correct (n : node) (key : Z) :
  avl n →
  ∃ n', insert n key = Ok n' ∧ avl n' ∧
    keys n' = linsert zkey key (keys n) ∧
    (height n ≤ height n' ≤ height n + 1)%Z.
Proof.
  intros [Hb Hs]. destruct (insert_ok n key Hb Hs) as (n' & E & Hb' & Hk & Hg).
  exists n'. split; [done|]. split; [split|]; [done| |].
  - rewrite Hk. by apply sorted_linsert.
  - split; [done|]. destruct Hg as [?|[? _]]; lia.
Qed.

Definition avl_build (xs : list Z) : res node :=
  foldl (λ r x, n ← r; insert n x) (Ok NULL) xs.

Definition avl_example : node :=
  match avl_build [10; 20; 30; 40; 50; 25]%Z with Ok n => n | UB _ => NULL end.

Lemma avl_example_avl : avl avl_example.
Proof.
  vm_compute. split; [repeat split; discriminate|].
  repeat constructor.
Qed.

Lemma avl_insert_correct_witness :
  ∃ n', insert avl_example 5 = Ok n' ∧ keys n' = [5; 10; 20; 25; 30; 40; 50]%Z.
Proof.
  destruct (avl_insert_correct avl_example 5 avl_example_avl) as (n' & E & _ & Hk & _).
  exists n'. split; [exact E|]. rewrite Hk. vm_compute. reflexivity.
Defined.

(** C7: On every AVL tree [deleteNode] runs without dereferencing [NULL] and
    returns an AVL tree that holds exactly the other keys; deleting an absent
    key changes no key, and the height shrinks by at most one. *)
Theorem avl_delete_correct (n : node) (key : Z) :
  avl n →
  ∃ n', deleteNode n key = Ok n' ∧ avl n' ∧
    keys n' = ldelete zkey key (keys n) ∧
    (height n - 1 ≤ height n' ≤ height n)%Z.
Proof.
  intros [Hb Hs].
  destruct (deleteNode_ok n key Hb Hs) as (n' & E & Hb' & Hk & Hh).
  exists n'. split; [done|]. split; [split|]; [done| |done].
  rewrite Hk. by apply sorted_ldelete.
Qed.

Lemma avl_delete_correct_witness :
  ∃ n', deleteNode avl_example 30 = Ok n' ∧ keys n' = [10; 20; 25; 40; 50]%Z.
Proof.
  destruct (avl_delete_correct avl_example 30 avl_example_avl) as (n' & E & _ & Hk & _).
  exists n'. split; [exact E|]. rewrite Hk. vm_compute. reflexivity.
Defined.

(** The stored height of an AVL tree is its real depth and at most
    [2*log2(size+1)+1]: with fewer than [2^31] nodes it is at most 63, so the
    [int] arithmetic on heights and balance factors cannot overflow. *)
Theorem avl_height_bound (n : node) :
  avl n →
  height n = depth n ∧
  (0 ≤ height n ≤ 2 * Z.log2 (size n + 1) + 1)%Z ∧
  (size n < 2 ^ 31 → height n ≤ 63)%Z.
Proof.
  intros [Hb _]. destruct (balanced_height n Hb) as [Hd Hnn].
  assert (height n ≤ 2 * Z.log2 (size n + 1) + 1)%Z as Hlog.
  { pose proof (size_pow (Z.to_nat (height n / 2)) n Hb) as Hp.
    pose proof (Z.div_mod (height n) 2 ltac:(lia)).
    pose proof (Z.mod_pos_bound (height n) 2 ltac:(lia)).
    rewrite Z2Nat.id in Hp by (apply Z.div_pos; lia).
    apply Z.log2_le_mono in Hp; [|lia]. rewrite Z.log2_pow2 in Hp by (apply Z.div_pos; lia).
    lia. }
  split; [done|]. split; [lia|]. intros Hsz.
  assert (Z.log2 (size n + 1) ≤ 31)%Z; [|lia].
  transitivity (Z.log2 (2 ^ 31)); [apply Z.log2_le_mono; lia|].
  by rewrite Z.log2_pow2 by lia.
Qed.

Lemma avl_height_bound_witness :
  (size avl_example < 2 ^ 31)%Z ∧ (height avl_example ≤ 63)%Z.
Proof.
  split; [reflexivity|].
  apply (avl_height_bound avl_example avl_example_avl). reflexivity.
Defined.

(** *** Histories of operations *)

(** A call of [insert] or [deleteNode]. *)
Inductive op : Set := Insert (key : Z) | Delete (key : Z).

(** [root = insert(root, key)] or [root = deleteNode(root, key)]. *)
Definition run_op (root : node) (o : op) : res node :=
  match o with Insert key => insert root key | Delete key => deleteNode root key end.

Fixpoint run_ops (root : node) (ops : list op) : res node :=
  match ops with
  | [] => Ok root
  | o :: ops => root ← run_op root o; run_ops root ops
  end.

(** The keys such calls leave in a set. *)
Definition live_op (s : gset Z) (o : op) : gset Z :=
  match o with Insert key => {[key]} ∪ s | Delete key => s ∖ {[key]} end.
Definition live (ops : list op) : gset Z := foldl live_op ∅ ops.

Lemma size_keys n : size n = Z.of_nat (length (keys n)).
Proof. induction n as [|k l IHl r IHr h]; [done|]. simpl. rewrite length_app. simpl. lia. Qed.

Lemma length_linsert key l : length (linsert zkey key l) ≤ S (length l).
Proof. induction l as [|x l IH]; [done|]. simpl. repeat case_match; simpl; lia. Qed.

Lemma elem_of_linsert k key l : k ∈ linsert zkey key l ↔ k = key ∨ k ∈ l.
Proof. pose proof (elem_of_linsert_key zkey k key l) as H. simpl in H. by rewrite !map_id in H. Qed.

(** One call on an AVL tree, whatever it is. *)
Lemma avl_op_ok n o (s : gset Z) :
  avl n → (∀ k, k ∈ keys n ↔ k ∈ s) →
  ∃ n', run_op n o = Ok n' ∧ avl n' ∧ (∀ k, k ∈ keys n' ↔ k ∈ live_op s o) ∧
    length (keys n') ≤ S (length (keys n)).
Proof.
  intros [Hb Hs] Hk. destruct o as [key|key]; simpl.
  - destruct (insert_ok n key Hb Hs) as (n' & E & Hb' & Hk' & _). exists n'. split; [done|].
    rewrite Hk'. split; [split; [done|rewrite Hk'; by apply sorted_linsert]|]. split; [|apply length_linsert].
    intros k. rewrite elem_of_linsert, Hk. set_solver.
  - destruct (deleteNode_ok n key Hb Hs) as (n' & E & Hb' & Hk' & _). exists n'. split; [done|].
    rewrite Hk'. split; [split; [done|rewrite Hk'; by apply sorted_ldelete]|]. unfold ldelete. split.
    + intros k. rewrite list_elem_of_filter, Hk. set_solver.
    + pose proof (length_filter (λ y, zkey y ≠ key) (keys n)). lia.
Qed.

Lemma avl_ops_ok ops n (s : gset Z) :
  avl n → (∀ k, k ∈ keys n ↔ k ∈ s) →
  ∃ n', run_ops n ops = Ok n' ∧ avl n' ∧ (∀ k, k ∈ keys n' ↔ k ∈ foldl live_op s ops) ∧
    length (keys n') ≤ length ops + length (keys n).
Proof.
  revert n s. induction ops as [|o ops IH]; intros n s Ha Hk; [by exists n|].
  destruct (avl_op_ok n o s Ha Hk) as (n1 & E1 & Ha1 & Hk1 & Hl1).
  destruct (IH n1 _ Ha1 Hk1) as (n2 & E2 & Ha2 & Hk2 & Hl2). exists n2. simpl. rewrite E1. simpl in *.
  do 3 (split; [done|]). lia.
Qed.

(** C38: After any sequence of calls of [insert] and [deleteNode] that starts
    from the empty tree no [NULL] has been dereferenced; the tree holds, in
    order, exactly the keys inserted and not deleted since; [search] finds these
    and no others; the height stored in the root is the real depth and at most
    [2*log2(m+1)+1] for [m] keys.  Up to [2^31 - 1] calls it is at most 63, so
    the [int] arithmetic on heights and balance factors does not overflow. *)
Theorem avl_history (ops : list op) :
  ∃ n, run_ops NULL ops = Ok n ∧
    sorted_keys zkey (keys n) ∧ (∀ k, k ∈ keys n ↔ k ∈ live ops) ∧
    (∀ k, search n k ≠ NULL ↔ k ∈ live ops) ∧
    height n = depth n ∧
    (height n ≤ 2 * Z.log2 (Z.of_nat (length (keys n)) + 1) + 1)%Z ∧
    (Z.of_nat (length ops) < 2 ^ 31 → height n ≤ 63)%Z.
Proof.
  destruct (avl_ops_ok ops NULL ∅) as (n & E & Ha & Hk & Hl); [by repeat constructor|set_solver|].
  destruct (avl_height_bound n Ha) as (Hd & [_ Hlog] & H63). rewrite size_keys in *. simpl in Hl.
  exists n. split; [done|]. split; [apply Ha|]. split; [done|]. split; [|by split_and!; [..|intros; apply H63; lia]].
  intros k. unfold live. rewrite <- Hk. pose proof (search_found n k (proj2 Ha)) as Hf.
  destruct (search n k); naive_solver.
Qed.

Lemma avl_history_witness :
  ∃ n, run_ops NULL [Insert 10; Insert 20; Insert 30; Insert 25; Delete 10]%Z = Ok n ∧ (height n ≤ 63)%Z.
Proof.
  destruct (avl_history [Insert 10; Insert 20; Insert 30; Insert 25; Delete 10]%Z)
    as (n & E & _ & _ & _ & _ & _ & H63). exists n. split; [exact E|]. apply H63. reflexivity.
Defined.

(** For every input of [n] values, a key to search and a key to delete, the
    program runs to its end without undefined behaviour; the tree it builds is
    an AVL tree of exactly the values read, in order and without repetition. *)
Theorem avl_main_safe (xs : list Z) (k1 k2 : Z) :
  ∃ root o,
    read_loop (length xs) NULL (xs ++ [k1; k2]) = Ok (root, [k1; k2], []) ∧
    avl root ∧ keys root = foldl (λ l x, linsert zkey x l) [] xs ∧
    run_output main (Z.of_nat (length xs) :: xs ++ [k1; k2]) = Ok o.
Proof.
  destruct (read_loop_ok xs [k1; k2] NULL) as (root & E & Ha & Hk).
  { split; [done|constructor]. }
  destruct Ha as [Hb Hs].
  destruct (deleteNode_ok root k2 Hb Hs) as (n' & E' & _).
  destruct (displayTree_ok root 0) as [o1 E1].
  destruct (displayTree_ok n' 0) as [o2 E2].
  exists root. enough (∃ o,
    run_output main (Z.of_nat (length xs) :: xs ++ [k1; k2]) = Ok o) as [o Ho]
    by (exists o; done).
  unfold run_output, main, no_input, BstInOrderDepth.no_input.
  c_run. rewrite Nat2Z.id, E, E1. simpl.
  destruct (search root k1); c_run; rewrite E', E2; by eexists.
Qed.
