(* ===== verification/StudentAvl.v ===== *)
(** * The enrolment system of [EXTRA_TASK/13-11-2025/student_enrollment_avl.c]

    The same rotations as [avl-tree.c] over student records, but with the
    balance tests of [insert] written differently; the theorems show what the
    code as written does. *)
From stdpp Require Import base list gmap strings pretty sorting.
From Stdlib Require Import ZArith Lia.
From Stdlib Require String.
From S2P Require Import Prelude Bst.

Module Student.

Inductive node : Set :=
  | NULL
  | Node (rollNo : Z) (name : string) (l r : node) (height : Z).

#[export] Instance node_eq_dec : EqDecision node.
Proof. solve_decision. Defined.

Definition max (a b : Z) : Z := if (a >? b)%Z then a else b.

Definition height (root : node) : Z :=
  match root with NULL => 0 | Node _ _ _ _ h => h end.

(** [strcpy] into [char name[20]]: the terminating zero has to fit. *)
Definition strcpy20 (name : string) : res string :=
  if (String.length name <? 20)%nat then Ok name else UB OutOfBounds.

Definition createNode (roll : Z) (name : string) : res node :=
  name ← strcpy20 name; Ok (Node roll name NULL NULL 1).

Definition leftRotate (x : node) : res node :=
  match x with
  | NULL => UB NullDeref
  | Node xroll xname xl y _ =>
      match y with
      | NULL => UB NullDeref
      | Node yroll yname T2 yr _ =>
          let x := Node xroll xname xl T2 (max (height xl) (height T2) + 1) in
          Ok (Node yroll yname x yr (max (height x) (height yr) + 1))
      end
  end.

Definition rightRotate (y : node) : res node :=
  match y with
  | NULL => UB NullDeref
  | Node yroll yname x yr _ =>
      match x with
      | NULL => UB NullDeref
      | Node xroll xname xl T2 _ =>
          let y := Node yroll yname T2 yr (max (height T2) (height yr) + 1) in
          Ok (Node xroll xname xl y (max (height xl) (height y) + 1))
      end
  end.

Definition getBalance (n : node) : Z :=
  match n with NULL => 0 | Node _ _ l r _ => height l - height r end.

(** [n->rollNo] of a pointer that may be [NULL]. *)
Definition roll_of (n : node) : res Z :=
  match n with NULL => UB NullDeref | Node roll _ _ _ _ => Ok roll end.

(** The part of [insert] after the recursive call.  The second test is
    [balance-1] (non-zero) and the fourth is [roll<-1], as in the source. *)
Definition insert_fix (roll rroll : Z) (rname : string) (l r : node) : res node :=
  let h := (max (height l) (height r) + 1)%Z in
  let root := Node rroll rname l r h in
  let balance := getBalance root in
  ll ← and_sc (balance >? 1)%Z (k ← roll_of l; Ok (roll <? k)%Z);
  if ll : bool then rightRotate root else
  rr ← and_sc (negb (balance - 1 =? 0)%Z) (k ← roll_of r; Ok (roll >? k)%Z);
  if rr : bool then leftRotate root else
  lr ← and_sc (balance >? 1)%Z (k ← roll_of l; Ok (roll >? k)%Z);
  if lr : bool then
    (l' ← leftRotate l; rightRotate (Node rroll rname l' r h))
  else
  rl ← and_sc (roll <? -1)%Z (k ← roll_of r; Ok (roll <? k)%Z);
  if rl : bool then
    (r' ← rightRotate r; leftRotate (Node rroll rname l r' h))
  else Ok root.

Fixpoint insert (root : node) (roll : Z) (name : string) : C unit node :=
  match root with
  | NULL =>
      printf ("Enrolled: " +:+ d roll +:+ "  " +:+ name +:+ nl) ;;
      lift (createNode roll name)
  | Node rroll rname l r h =>
      if (roll <? rroll)%Z then
        l' ← insert l roll name; lift (insert_fix roll rroll rname l' r)
      else if (roll >? rroll)%Z then
        r' ← insert r roll name; lift (insert_fix roll rroll rname l r')
      else printf ("Roll number already exists!" +:+ nl) ;; mret root
  end.

(** Roll and name of the node [minValueNode] stops at. *)
Fixpoint minValueNode (roll : Z) (name : string) (l : node) : Z * string :=
  match l with
  | NULL => (roll, name)
  | Node roll' name' l' _ _ => minValueNode roll' name' l'
  end.

Definition delete_fix (roll : Z) (name : string) (l r : node) : res node :=
  let h := (max (height l) (height r) + 1)%Z in
  let root := Node roll name l r h in
  let balance := getBalance root in
  if ((balance >? 1) && (getBalance l >=? 0))%Z then rightRotate root
  else if ((balance <? -1) && (getBalance r <=? 0))%Z then leftRotate root
  else if ((balance >? 1) && (getBalance l <? 0))%Z then
    l' ← leftRotate l; rightRotate (Node roll name l' r h)
  else if ((balance <? -1) && (getBalance r >? 0))%Z then
    r' ← rightRotate r; leftRotate (Node roll name l r' h)
  else Ok root.

Definition delete_fix_node (root : node) : res node :=
  match root with NULL => Ok NULL | Node k v l r _ => delete_fix k v l r end.

Definition dropped (roll : Z) (name : string) : string :=
  "Dropped: " +:+ d roll +:+ "  " +:+ name +:+ nl.

Fixpoint deleteNode (root : node) (roll : Z) : C unit node :=
  match root with
  | NULL => printf ("Student not found!" +:+ nl) ;; mret root
  | Node rroll rname l r h =>
      if (roll <? rroll)%Z then
        l' ← deleteNode l roll; lift (delete_fix rroll rname l' r)
      else if (roll >? rroll)%Z then
        r' ← deleteNode r roll; lift (delete_fix rroll rname l r')
      else
        printf (dropped rroll rname) ;;
        match l, r with
        | NULL, _ => lift (delete_fix_node r)
        | _, NULL => lift (delete_fix_node l)
        | _, Node rk rv rl _ _ =>
            let succ := minValueNode rk rv rl in
            name ← lift (strcpy20 succ.2);
            r' ← deleteNode r succ.1;
            lift (delete_fix succ.1 name l r')
        end
  end.

Fixpoint search (root : node) (roll : Z) : C unit unit :=
  match root with
  | NULL => printf ("Student not found!" +:+ nl)
  | Node rroll rname l r _ =>
      if (roll =? rroll)%Z then
        printf ("Found: " +:+ d rroll +:+ "  " +:+ rname +:+ nl)
      else if (roll <? rroll)%Z then search l roll
      else search r roll
  end.

Fixpoint inOrder (root : node) : C unit unit :=
  match root with
  | NULL => mret tt
  | Node rroll rname l r _ =>
      inOrder l ;; printf (d rroll +:+ " " +:+ rname +:+ nl) ;; inOrder r
  end.

(** One turn of the menu loop, by the choice read and what the prompts of that
    choice read. *)
Inductive command : Set :=
  | Enroll (roll : Z) (name : string)
  | Drop (roll : Z)
  | Search (roll : Z)
  | PrintAll
  | Exit
  | Invalid.

Definition menu : C unit unit :=
  printf (nl +:+ "--- Student Enrollment System ---" +:+ nl) ;;
  printf ("1. Enroll Student" +:+ nl +:+ "2. Drop Student" +:+ nl
          +:+ "3. Search Student" +:+ nl +:+ "4. Print All Students" +:+ nl
          +:+ "5. Exit" +:+ nl +:+ "Enter choice: ").

(** [main] over the sequence of commands typed; it ends with [Exit]. *)
Fixpoint main (root : node) (cmds : list command) : C unit node :=
  match cmds with
  | [] => mret root
  | cmd :: cmds =>
      menu ;;
      match cmd with
      | Enroll roll name =>
          printf "Enter student's roll number:" ;;
          printf "Enter student's name:" ;;
          root ← insert root roll name; main root cmds
      | Drop roll =>
          printf "Enter Roll Number to Drop: " ;;
          root ← deleteNode root roll; main root cmds
      | Search roll =>
          printf "Enter Roll Number to search: " ;;
          search root roll ;; main root cmds
      | PrintAll =>
          printf ("---- Students data (in asc order (roll number))----" +:+ nl) ;;
          inOrder root ;; main root cmds
      | Exit => printf "Exiting......" ;; mret root
      | Invalid => printf ("Invalid choice! Try again." +:+ nl) ;; main root cmds
      end
  end.

End Student.

(** ** Invariant *)

Module StudentSpec.
Import Student.

Abbreviation roll_key := (@fst Z string).

Fixpoint records (n : node) : list (Z * string) :=
  match n with
  | NULL => []
  | Node roll name l r _ => records l ++ (roll, name) :: records r
  end.

(** Stored heights are those of the tree; nothing is said about balance. *)
Fixpoint heights_ok (n : node) : Prop :=
  match n with
  | NULL => True
  | Node _ _ l r h =>
      heights_ok l ∧ heights_ok r ∧ h = (max (height l) (height r) + 1)%Z
  end.

Definition short_names (n : node) : Prop :=
  Forall (λ p, String.length p.2 < 20) (records n).

(** Sorted by roll, heights right, names within their buffers. *)
Definition enrolled (n : node) : Prop :=
  sorted_keys roll_key (records n) ∧ heights_ok n ∧ short_names n.

Lemma smax_Zmax a b : max a b = Z.max a b.
Proof. unfold max. zcases; lia. Qed.

Lemma heights_nonneg n : heights_ok n → (0 ≤ height n)%Z.
Proof.
  induction n; simpl; [lia|]. rewrite smax_Zmax. intuition lia.
Qed.

(** A fix-up may fail only by dereferencing [NULL]; otherwise it keeps the
    records and the stored heights right. *)
Definition keeps (rs : list (Z * string)) (r : res node) : Prop :=
  match r with
  | Ok n' => records n' = rs ∧ heights_ok n'
  | UB e => e = NullDeref
  end.

Ltac app_norm := repeat (rewrite <- app_assoc; simpl).

Lemma leftRotate_keeps roll name l r h :
  heights_ok l → heights_ok r →
  keeps (records l ++ (roll, name) :: records r) (leftRotate (Node roll name l r h)).
Proof.
  intros Hl Hr. destruct r as [|rk rv rl rr rh]; simpl in *; [done|].
  app_norm. intuition.
Qed.

Lemma rightRotate_keeps roll name l r h :
  heights_ok l → heights_ok r →
  keeps (records l ++ (roll, name) :: records r) (rightRotate (Node roll name l r h)).
Proof.
  intros Hl Hr. destruct l as [|lk lv ll lr lh]; simpl in *; [done|].
  app_norm. intuition.
Qed.

Lemma leftRotate_child_keeps roll name l r h :
  heights_ok l → heights_ok r →
  keeps (records l ++ (roll, name) :: records r)
    (l' ← leftRotate l; rightRotate (Node roll name l' r h)).
Proof.
  intros Hl Hr. destruct l as [|lk lv ll lr lh]; [done|].
  pose proof (leftRotate_keeps lk lv ll lr lh) as H.
  destruct Hl as (? & ? & _). specialize (H ltac:(done) ltac:(done)).
  unfold mbind, res_bind. destruct (leftRotate _) as [l'|e]; simpl in H; [|done].
  destruct H as [Hrec Hh]. change (records (Node lk lv ll lr lh))
    with (records ll ++ (lk, lv) :: records lr). rewrite <- Hrec.
  by apply rightRotate_keeps.
Qed.

Lemma rightRotate_child_keeps roll name l r h :
  heights_ok l → heights_ok r →
  keeps (records l ++ (roll, name) :: records r)
    (r' ← rightRotate r; leftRotate (Node roll name l r' h)).
Proof.
  intros Hl Hr. destruct r as [|rk rv rl rr rh]; [done|].
  pose proof (rightRotate_keeps rk rv rl rr rh) as H.
  destruct Hr as (? & ? & _). specialize (H ltac:(done) ltac:(done)).
  unfold mbind, res_bind. destruct (rightRotate _) as [r'|e]; simpl in H; [|done].
  destruct H as [Hrec Hh]. change (records (Node rk rv rl rr rh))
    with (records rl ++ (rk, rv) :: records rr). rewrite <- Hrec.
  by apply leftRotate_keeps.
Qed.

Create HintDb student_db.
#[export] Hint Resolve leftRotate_keeps rightRotate_keeps
  leftRotate_child_keeps rightRotate_child_keeps : student_db.

(** A guarded rotation keeps the records when both outcomes do. *)
Lemma keeps_guard rs b (n : node) (f : Z → bool) (m1 m2 : res node) :
  keeps rs m1 → keeps rs m2 →
  keeps rs (c ← and_sc b (k ← roll_of n; Ok (f k)); if c : bool then m1 else m2).
Proof.
  intros H1 H2. destruct b; [|done]. destruct n; [done|].
  unfold mbind, res_bind. simpl. by destruct (f _).
Qed.

Lemma insert_fix_keeps roll k v l r :
  heights_ok l → heights_ok r →
  keeps (records l ++ (k, v) :: records r) (insert_fix roll k v l r).
Proof.
  intros Hl Hr. unfold insert_fix.
  repeat (apply keeps_guard; [by eauto with student_db|]).
  by simpl.
Qed.

Lemma delete_fix_keeps k v l r :
  heights_ok l → heights_ok r →
  keeps (records l ++ (k, v) :: records r) (delete_fix k v l r).
Proof.
  intros Hl Hr. unfold delete_fix.
  repeat case_match; eauto with student_db. by simpl.
Qed.

(** [deleteNode]'s tests look at both levels before rotating, so its fix-up
    never fails. *)
Lemma delete_fix_total k v l r :
  heights_ok l → heights_ok r →
  ∃ n', delete_fix k v l r = Ok n' ∧
    records n' = records l ++ (k, v) :: records r ∧ heights_ok n'.
Proof.
  intros Hl Hr. pose proof (delete_fix_keeps k v l r Hl Hr) as Hk.
  enough (∃ n', delete_fix k v l r = Ok n') as [n' E].
  { exists n'. by rewrite E in Hk. }
  clear Hk. unfold delete_fix. simpl. rewrite smax_Zmax.
  pose proof (heights_nonneg l Hl). pose proof (heights_nonneg r Hr).
  destruct l as [|lk lv ll [|lrk lrv lrl lrr lrh] lh];
    destruct r as [|rk rv [|rlk rlv rll rlr rlh] rr rh]; simpl in *;
    repeat match goal with
    | H : heights_ok ?t |- _ =>
        lazymatch goal with _ : (0 ≤ height t)%Z |- _ => fail | _ =>
          pose proof (heights_nonneg t H) end
    | H : _ ∧ _ |- _ => destruct H
    end; rewrite ?smax_Zmax in *;
    repeat match goal with
    | |- context [if ?b then _ else _] => destruct b eqn:?; try lia
    end; by eexists.
Qed.

Lemma delete_fix_node_total n :
  heights_ok n →
  ∃ n', delete_fix_node n = Ok n' ∧ records n' = records n ∧ heights_ok n'.
Proof.
  destruct n as [|k v l r h]; simpl; [by eexists|]. intros (? & ? & _).
  by apply delete_fix_total.
Qed.

#[local] Arguments delete_fix : simpl never.
#[local] Arguments insert_fix : simpl never.
#[local] Arguments strcpy20 : simpl never.

(** ** Insertion *)

Definition insert_line (roll : Z) (name : string) (rs : list (Z * string)) : string :=
  if decide (roll ∈ rs.*1) then "Roll number already exists!" +:+ nl
  else "Enrolled: " +:+ d roll +:+ "  " +:+ name +:+ nl.

Lemma roll_elem roll (rs : list (Z * string)) k v (rs' : list (Z * string)) :
  roll ∈ (rs ++ (k, v) :: rs').*1 ↔ roll ∈ rs.*1 ∨ roll = k ∨ roll ∈ rs'.*1.
Proof. rewrite fmap_app, fmap_cons, elem_of_app, elem_of_cons. done. Qed.

Lemma roll_lt_absent roll x (rs : list (Z * string)) :
  Forall (λ y, (y.1 < x)%Z) rs → (x ≤ roll)%Z → roll ∉ rs.*1.
Proof.
  intros Hf ? Hin. apply list_elem_of_fmap in Hin as (p & -> & Hp).
  rewrite Forall_forall in Hf. apply Hf in Hp. lia.
Qed.

Lemma roll_gt_absent roll x (rs : list (Z * string)) :
  Forall (λ y, (x < y.1)%Z) rs → (roll ≤ x)%Z → roll ∉ rs.*1.
Proof.
  intros Hf ? Hin. apply list_elem_of_fmap in Hin as (p & -> & Hp).
  rewrite Forall_forall in Hf. apply Hf in Hp. lia.
Qed.

Lemma insert_line_left roll name rs k v rs' :
  Forall (λ y, (k < y.1)%Z) rs' → (roll < k)%Z →
  insert_line roll name (rs ++ (k, v) :: rs') = insert_line roll name rs.
Proof.
  intros Hf ?. unfold insert_line.
  assert (roll ∉ rs'.*1) by (eapply roll_gt_absent; eauto; lia).
  repeat case_decide; try done; rewrite roll_elem in *; naive_solver lia.
Qed.

Lemma insert_line_right roll name rs k v rs' :
  Forall (λ y, (y.1 < k)%Z) rs → (k < roll)%Z →
  insert_line roll name (rs ++ (k, v) :: rs') = insert_line roll name rs'.
Proof.
  intros Hf ?. unfold insert_line.
  assert (roll ∉ rs.*1) by (eapply roll_lt_absent; eauto; lia).
  repeat case_decide; try done; rewrite roll_elem in *; naive_solver lia.
Qed.

(** Either the code dereferences [NULL] in a balance test or a rotation, or it
    prints one line and returns the record list with the student added. *)
Definition insert_result (n : node) (roll : Z) (name : string)
    (r : res (node * unit * list string)) : Prop :=
  match r with
  | Ok (n', _, o) =>
      records n' = linsert roll_key (roll, name) (records n) ∧ heights_ok n' ∧
      o = [insert_line roll name (records n)]
  | UB e => e = NullDeref
  end.

Lemma insert_keeps n roll name :
  sorted_keys roll_key (records n) → heights_ok n → String.length name < 20 →
  insert_result n roll name (insert n roll name tt).
Proof.
  intros Hs Hh Hn. induction n as [|k v l IHl r IHr h].
  { unfold insert_result. simpl. c_run. unfold createNode, strcpy20.
    destruct (Nat.ltb_spec (String.length name) 20); [|lia]. by simpl. }
  simpl in Hs. apply sorted_mid in Hs as (Hsl & Hsr & Hlt & Hgt).
  destruct Hh as (Hhl & Hhr & Hhe). simpl.
  specialize (IHl Hsl Hhl). specialize (IHr Hsr Hhr). simpl in Hlt, Hgt.
  rewrite Z.gtb_ltb. destruct (Z.ltb_spec roll k); [|destruct (Z.ltb_spec k roll)].
  - c_run. destruct (insert l roll name tt) as [[[l' []] o]|e]; [|done].
    destruct IHl as (Hrec & Hh' & ->). pose proof (insert_fix_keeps roll k v l' r Hh' Hhr) as Hk.
    destruct (insert_fix roll k v l' r); [|done]. destruct Hk as [Hk ?].
    unfold insert_result. simpl.
    rewrite Hk, Hrec, linsert_left, insert_line_left by done. done.
  - c_run. destruct (insert r roll name tt) as [[[r' []] o]|e]; [|done].
    destruct IHr as (Hrec & Hh' & ->). pose proof (insert_fix_keeps roll k v l r' Hhl Hh') as Hk.
    destruct (insert_fix roll k v l r'); [|done]. destruct Hk as [Hk ?].
    unfold insert_result. simpl.
    rewrite Hk, Hrec, linsert_right, insert_line_right by done. done.
  - assert (roll = k) as -> by lia. unfold insert_result, insert_line. simpl.
    rewrite linsert_present by done.
    rewrite decide_True by (rewrite roll_elem; auto). done.
Qed.

(** ** Deletion *)

Lemma minValue_head k v l r h :
  head (records (Node k v l r h)) = Some (minValueNode k v l).
Proof.
  revert k v r h. induction l as [|k' v' l' IH r' _ h']; intros k v r h; [done|].
  simpl. specialize (IH k' v' r' h'). simpl in IH.
  rewrite <- IH. by destruct (records l').
Qed.

(** The node with the smallest roll has no left child: deleting it prints one
    line. *)
Lemma delete_min_output k v l r h :
  sorted_keys roll_key (records (Node k v l r h)) →
  ∀ n' o, deleteNode (Node k v l r h) (minValueNode k v l).1 tt = Ok (n', tt, o) →
  o = [dropped (minValueNode k v l).1 (minValueNode k v l).2].
Proof.
  revert k v r h. induction l as [|k' v' l' IH r' _ h']; intros k v r h Hs n' o.
  { simpl. rewrite Z.ltb_irrefl, Z.gtb_ltb, Z.ltb_irrefl. c_run.
    destruct (delete_fix_node r); [|done]. intros [= <- <-]. done. }
  pose proof Hs as Hs0. change (records (Node k v (Node k' v' l' r' h') r h)) with
    (records (Node k' v' l' r' h') ++ (k, v) :: records r) in Hs.
  apply sorted_mid in Hs as (Hsl & Hsr & Hlt & Hgt).
  change (minValueNode k v (Node k' v' l' r' h')) with (minValueNode k' v' l').
  pose proof (minValue_head k' v' l' r' h') as Hhd.
  assert ((minValueNode k' v' l').1 < k)%Z as Hm.
  { destruct (records (Node k' v' l' r' h')); [done|]. injection Hhd as ->.
    by apply Forall_cons in Hlt as [? _]. }
  specialize (IH k' v' r' h' Hsl). revert IH Hm.
  generalize (Node k' v' l' r' h'). intros t IH Hm. simpl.
  destruct (Z.ltb_spec (minValueNode k' v' l').1 k); [|lia]. c_run.
  destruct (deleteNode t _ tt) as [[[t' []] o']|e]; [|done].
  rewrite (IH t' o' eq_refl). destruct (delete_fix k v t' r); [|done].
  by intros [= <- <-].
Qed.

(** What [deleteNode] returns and prints: the student is gone, everybody else
    is kept, and a present student gets one [Dropped] line, followed by a
    second one for the successor when the node had two children. *)
Definition delete_result (n : node) (roll : Z) (n' : node) (o : list string) : Prop :=
  records n' = ldelete roll_key roll (records n) ∧ heights_ok n' ∧
  (roll ∉ (records n).*1 → o = ["Student not found!" +:+ nl]) ∧
  (∀ name, (roll, name) ∈ records n →
     o = [dropped roll name] ∨
     ∃ p, p ∈ records n' ∧ o = [dropped roll name; dropped p.1 p.2]).

Lemma short_names_parts k v l r h :
  short_names (Node k v l r h) ↔
  short_names l ∧ String.length v < 20 ∧ short_names r.
Proof. unfold short_names. simpl. by rewrite Forall_app, Forall_cons. Qed.

Lemma records_name_unique n k v v' l r h :
  n = Node k v l r h → sorted_keys roll_key (records n) →
  (k, v') ∈ records n → v' = v.
Proof.
  intros -> Hs Hin. simpl in *. apply sorted_mid in Hs as (_ & _ & Hlt & Hgt).
  rewrite Forall_forall in Hlt, Hgt. simpl in *.
  apply elem_of_app in Hin as [Hin|Hin]; [apply Hlt in Hin; simpl in *; lia|].
  apply elem_of_cons in Hin as [Hin|Hin]; [congruence|].
  apply Hgt in Hin. simpl in *. lia.
Qed.

Lemma elem_records_fst (p : Z * string) rs : p ∈ rs → p.1 ∈ rs.*1.
Proof. intros Hp. apply list_elem_of_fmap. eauto. Qed.

(** Moving a result of a subtree up to its parent. *)
Lemma delete_result_left k v l r h roll l' o n' :
  sorted_keys roll_key (records (Node k v l r h)) → (roll < k)%Z →
  delete_result l roll l' o →
  records n' = records l' ++ (k, v) :: records r → heights_ok n' →
  delete_result (Node k v l r h) roll n' o.
Proof.
  simpl. intros Hs ? (Hrec & _ & Hno & Hyes) Hn' Hh'. pose proof Hs as Hs0.
  apply sorted_mid in Hs as (_ & _ & Hlt & Hgt). simpl in *.
  assert (roll ∉ (records r).*1) as Hr by (eapply roll_gt_absent; eauto; lia).
  unfold delete_result. simpl. rewrite Hn', Hrec, ldelete_pivot_lt by done.
  do 2 (split; [done|]). split.
  - rewrite roll_elem. naive_solver.
  - intros name. rewrite elem_of_app, elem_of_cons. intros [Hin|[[= ? ?]|Hin]].
    + destruct (Hyes name Hin) as [?|(p & Hp & ?)]; [by left|].
      right. exists p. split; [|done]. rewrite Hrec in Hp. set_solver.
    + lia.
    + by apply elem_records_fst in Hin.
Qed.

Lemma delete_result_right k v l r h roll r' o n' :
  sorted_keys roll_key (records (Node k v l r h)) → (k < roll)%Z →
  delete_result r roll r' o →
  records n' = records l ++ (k, v) :: records r' → heights_ok n' →
  delete_result (Node k v l r h) roll n' o.
Proof.
  simpl. intros Hs ? (Hrec & _ & Hno & Hyes) Hn' Hh'. pose proof Hs as Hs0.
  apply sorted_mid in Hs as (_ & _ & Hlt & Hgt). simpl in *.
  assert (roll ∉ (records l).*1) as Hl by (eapply roll_lt_absent; eauto; lia).
  unfold delete_result. simpl. rewrite Hn', Hrec, ldelete_pivot_gt by done.
  do 2 (split; [done|]). split.
  - rewrite roll_elem. naive_solver.
  - intros name. rewrite elem_of_app, elem_of_cons. intros [Hin|[[= ? ?]|Hin]].
    + by apply elem_records_fst in Hin.
    + lia.
    + destruct (Hyes name Hin) as [?|(p & Hp & ?)]; [by left|].
      right. exists p. split; [|done]. rewrite Hrec in Hp. set_solver.
Qed.

(** The node itself is deleted and [n'] holds the records of its children. *)
Lemma delete_result_here k v l r h n' o :
  sorted_keys roll_key (records (Node k v l r h)) →
  records n' = records l ++ records r → heights_ok n' →
  (o = [dropped k v] ∨ ∃ p, p ∈ records n' ∧ o = [dropped k v; dropped p.1 p.2]) →
  delete_result (Node k v l r h) k n' o.
Proof.
  intros Hs Hn' Hh' Ho. pose proof Hs as Hs0. simpl in Hs.
  apply sorted_mid in Hs as (_ & _ & Hlt & Hgt). simpl in *.
  unfold delete_result. simpl.
  rewrite (ldelete_pivot_eq roll_key (k, v)) by done.
  do 2 (split; [done|]). split; [rewrite roll_elem; naive_solver|].
  intros name Hin.
  assert (name = v) as -> by
    (eapply (records_name_unique (Node k v l r h)); [done|exact Hs0|exact Hin]).
  done.
Qed.

Lemma deleteNode_total n roll :
  sorted_keys roll_key (records n) → heights_ok n → short_names n →
  ∃ n' o, deleteNode n roll tt = Ok (n', tt, o) ∧ delete_result n roll n' o.
Proof.
  revert roll. induction n as [|k v l IHl r IHr h]; intros roll Hs Hh Hn.
  { exists NULL, ["Student not found!" +:+ nl]. split; [done|].
    unfold delete_result. simpl. set_solver. }
  pose proof Hs as Hs0. simpl in Hs. apply sorted_mid in Hs as (Hsl & Hsr & Hlt & Hgt).
  destruct Hh as (Hhl & Hhr & Hhe). apply short_names_parts in Hn as (Hnl & Hv & Hnr).
  simpl deleteNode. rewrite Z.gtb_ltb.
  destruct (Z.ltb_spec roll k); [|destruct (Z.ltb_spec k roll)].
  - destruct (IHl roll) as (l' & o & E & Hd); [done..|].
    destruct (delete_fix_total k v l' r) as (n' & E' & Hrec & Hh'); [apply Hd|done|].
    exists n', o. c_run. rewrite E, E', app_nil_r. split; [done|].
    by eapply delete_result_left.
  - destruct (IHr roll) as (r' & o & E & Hd); [done..|].
    destruct (delete_fix_total k v l r') as (n' & E' & Hrec & Hh'); [done|apply Hd|].
    exists n', o. c_run. rewrite E, E', app_nil_r. split; [done|].
    by eapply delete_result_right.
  - assert (roll = k) as -> by lia. c_run. destruct l as [|lk lv ll lr lh].
    { destruct (delete_fix_node_total r) as (n' & E & Hrec & Hh'); [done|].
      rewrite E. exists n', [dropped k v]. split; [done|].
      apply delete_result_here; auto. }
    destruct r as [|rk rv rl rr rh].
    { destruct (delete_fix_node_total (Node lk lv ll lr lh)) as (n' & E & Hrec & Hh'); [done|].
      rewrite E. exists n', [dropped k v]. split; [done|].
      apply delete_result_here; auto. by rewrite app_nil_r. }
    set (lt := Node lk lv ll lr lh) in *.
    destruct (IHr (minValueNode rk rv rl).1) as (r' & o & E & Hd); [done..|].
    pose proof (delete_min_output rk rv rl rr rh Hsr r' o E) as ->.
    pose proof (minValue_head rk rv rl rr rh) as Hhd.
    set (rt := Node rk rv rl rr rh) in *. set (m := minValueNode rk rv rl) in *.
    destruct (records rt) as [|p ps] eqn:Hrt; [done|]. injection Hhd as ->.
    destruct Hd as (Hrec & Hh' & _). rewrite Hrt in Hrec.
    rewrite (ldelete_head roll_key) in Hrec by done.
    assert (strcpy20 m.2 = Ok m.2) as Hcpy.
    { unfold strcpy20. unfold short_names in Hnr. rewrite Hrt in Hnr.
      apply Forall_cons in Hnr as [Hm _].
      by destruct (Nat.ltb_spec (String.length m.2) 20); [|lia]. }
    destruct (delete_fix_total m.1 m.2 lt r') as (n' & E' & Hrec' & Hn'); [done..|].
    rewrite Hcpy. change (fst m) with m.1. rewrite E, E'.
    exists n', [dropped k v; dropped m.1 m.2]. split; [done|].
    rewrite Hrec, <- surjective_pairing in Hrec'.
    apply delete_result_here; [done| |done|].
    + by rewrite Hrt.
    + right. exists m. split; [|done]. rewrite Hrec'. set_solver.
Qed.

End StudentSpec.

(** ** Properties *)

Import Student StudentSpec.

(** Dropping a student always succeeds on an enrolment tree, whatever its
    shape: the student's record and no other is removed, the order and the
    stored heights are kept, and the messages are ["Student not found!"] for an
    unknown roll number, else the student's [Dropped] line, which is followed
    by the [Dropped] line of a student who is still enrolled when the node had
    two children. *)
Theorem student_delete_correct (n : node) (roll : Z) :
  enrolled n →
  ∃ n' o, deleteNode n roll tt = Ok (n', tt, o) ∧ enrolled n' ∧
    records n' = ldelete roll_key roll (records n) ∧
    (roll ∉ (records n).*1 → o = ["Student not found!" +:+ nl]) ∧
    (∀ name, (roll, name) ∈ records n →
       o = [dropped roll name] ∨
       ∃ p, p ∈ records n' ∧ o = [dropped roll name; dropped p.1 p.2]).
Proof.
  intros (Hs & Hh & Hn).
  destruct (deleteNode_total n roll Hs Hh Hn) as (n' & o & E & Hrec & Hh' & Hno & Hyes).
  exists n', o. split; [done|]. split; [|done]. split; [|split]; [|done|].
  - rewrite Hrec. by apply sorted_ldelete.
  - unfold short_names. rewrite Hrec. by apply Forall_filter_keep.
Qed.

(** The tree that results from enrolling students in a given order. *)
Fixpoint enroll_all (n : node) (ps : list (Z * string)) : res node :=
  match ps with
  | [] => Ok n
  | (roll, name) :: ps =>
      match insert n roll name tt with
      | Ok (n', _, _) => enroll_all n' ps
      | UB e => UB e
      end
  end.

Definition student_example : node :=
  match enroll_all NULL [(2, "Asha"); (1, "Ravi"); (3, "Meena")]%Z with
  | Ok n => n
  | UB _ => NULL
  end.

Lemma student_example_enrolled : enrolled student_example.
Proof.
  vm_compute. split; [repeat constructor|].
  split; [repeat split | repeat constructor].
Qed.

Lemma student_delete_correct_witness :
  ∃ n' o, deleteNode student_example 2 tt = Ok (n', tt, o) ∧
    records n' = [(1, "Ravi"); (3, "Meena")]%Z ∧
    o = [dropped 2 "Asha"; dropped 3 "Meena"].
Proof.
  destruct (student_delete_correct student_example 2 student_example_enrolled)
    as (n' & o & E & _ & Hr & _).
  exists n', o. split; [exact E|]. split; [rewrite Hr; vm_compute; reflexivity|].
  vm_compute in E. injection E as _ <-. reflexivity.
Defined.

(** Enrolling a student into an enrolment tree has exactly two outcomes:
    the code dereferences [NULL] in one of its balance tests, or it returns an
    enrolment tree whose record list is the old one with the student added in
    roll order (unchanged for a roll number already present) and prints the
    matching message. *)
Theorem student_insert_outcomes (n : node) (roll : Z) (name : string) :
  enrolled n → String.length name < 20 →
  insert n roll name tt = UB NullDeref ∨
  ∃ n', insert n roll name tt =
          Ok (n', tt, [insert_line roll name (records n)]) ∧
        enrolled n' ∧
        records n' = linsert roll_key (roll, name) (records n).
Proof.
  intros (Hs & Hh & Hn) Hname.
  pose proof (insert_keeps n roll name Hs Hh Hname) as Hk.
  unfold insert_result in Hk.
  destruct (insert n roll name tt) as [[[n' []] o]|e]; [right|by left; f_equal].
  destruct Hk as (Hrec & Hh' & ->). exists n'. split; [done|]. split; [|done].
  split; [|split]; [|done|].
  - rewrite Hrec. by apply sorted_linsert.
  - unfold short_names. rewrite Hrec. by apply Forall_linsert.
Qed.

Lemma student_insert_outcomes_witness :
  insert student_example 4 "Kiran" tt = UB NullDeref ∨
  ∃ n', insert student_example 4 "Kiran" tt =
          Ok (n', tt, [insert_line 4 "Kiran" (records student_example)]) ∧
        records n' = [(1, "Ravi"); (2, "Asha"); (3, "Meena"); (4, "Kiran")]%Z.
Proof.
  destruct (student_insert_outcomes student_example 4 "Kiran" student_example_enrolled)
    as [H | (n' & H & _ & Hr)]; [vm_compute; lia | left; exact H |].
  right. exists n'. split; [exact H|]. rewrite Hr. vm_compute. reflexivity.
Defined.

(** Height difference at the root. *)
Definition root_balance (r : res node) : option Z :=
  match r with Ok n => Some (getBalance n) | UB _ => None end.

(** The balance tests [balance-1] and [roll<-1] of [insert] are wrong in
    both directions: enrolling 3, 1, 2 (a left-right case) and enrolling -5,
    -10 dereference [NULL], and enrolling 1 to 5 in order rotates a balanced
    node and leaves the root with a height difference of two. *)
Theorem student_insert_balance_bug :
  enroll_all NULL [(3, "a"); (1, "b"); (2, "c")]%Z = UB NullDeref ∧
  enroll_all NULL [(-5, "a"); (-10, "b")]%Z = UB NullDeref ∧
  root_balance (enroll_all NULL
    [(1, "a"); (2, "b"); (3, "c"); (4, "d"); (5, "e")]%Z) = Some 2%Z.
Proof. vm_compute. repeat split. Qed.

(** A session: enrol, search, print all, drop, exit. *)
Example student_session :
  run_output (main NULL [Enroll 2 "Asha"; Enroll 1 "Ravi"; Search 2; PrintAll;
                         Drop 7; Exit; Drop 1]%Z) tt =
  Ok (let m := [nl +:+ "--- Student Enrollment System ---" +:+ nl;
        "1. Enroll Student" +:+ nl +:+ "2. Drop Student" +:+ nl
        +:+ "3. Search Student" +:+ nl +:+ "4. Print All Students" +:+ nl
        +:+ "5. Exit" +:+ nl +:+ "Enter choice: "] in
      m ++ ["Enter student's roll number:"; "Enter student's name:";
            "Enrolled: 2  Asha" +:+ nl] ++
      m ++ ["Enter student's roll number:"; "Enter student's name:";
            "Enrolled: 1  Ravi" +:+ nl] ++
      m ++ ["Enter Roll Number to search: "; "Found: 2  Asha" +:+ nl] ++
      m ++ ["---- Students data (in asc order (roll number))----" +:+ nl;
            "1 Ravi" +:+ nl; "2 Asha" +:+ nl] ++
      m ++ ["Enter Roll Number to Drop: "; "Student not found!" +:+ nl] ++
      m ++ ["Exiting......"]).
Proof. vm_compute. reflexivity. Qed.
