(* ===== verification/Linear.v ===== *)
(** * Lists, stacks and queues of [day-3.5(Linked_Stack_Queue)]

    One module per C file, and two interfaces ([StackImpl], [QueueImpl]) that
    state what a stack and a queue promise: the array and the linked versions
    are instances, and the laws about sequences of operations are proved once,
    against the interface. *)
From stdpp Require Import base list gmap strings pretty sorting.
From Stdlib Require Import ZArith Lia.
From S2P Require Import Prelude.

(** ** [linked-list.c] *)
Module LinkedList.

(** The chain that starts at [*head]: nodes are never shared. *)
Definition insertAtBeginning (head : list Z) (value : Z) : list Z := value :: head.

Fixpoint insertAtEnd (head : list Z) (value : Z) : list Z :=
  match head with
  | [] => [value]
  | x :: next => x :: insertAtEnd next value
  end.

(** The search loop and [prev->next = temp->next]. *)
Fixpoint unlink (temp : list Z) (value : Z) : list Z :=
  match temp with
  | [] => []
  | x :: next => if (x =? value)%Z then next else x :: unlink next value
  end.

Definition deleteNode (head : list Z) (value : Z) : list Z :=
  match head with
  | x :: next => if (x =? value)%Z then next else unlink head value
  | [] => unlink head value
  end.

Definition display (head : list Z) : C unit unit :=
  for_each (λ x, printf (d x +:+ " -> ")) head ;; printf ("NULL " +:+ nl).

Definition main : C unit unit :=
  let head := [] in
  display head ;;
  let head := insertAtEnd head 20 in
  display head ;;
  let head := insertAtEnd head 10 in
  display head ;;
  let head := insertAtBeginning head 5 in
  display head ;;
  let head := deleteNode head 20 in
  display head.

End LinkedList.

(** ** [stack-using-arrays.c] *)
Module ArrayStack.

Definition SIZE : Z := 5.

Record Stack : Set := mkStack { array : list Z; top : Z }.

Definition init : C Stack unit := modify (λ s, mkStack (array s) (-1)).
Definition isEmpty : C Stack bool := s ← get; mret (top s =? -1)%Z.
Definition isFull : C Stack bool := s ← get; mret (top s =? SIZE - 1)%Z.

Definition push (value : Z) : C Stack unit :=
  full ← isFull;
  if full : bool then
    printf ("Stack overflow! Can't insert " +:+ d value +:+ " " +:+ nl)
  else
    s ← get;
    arr ← lift (aset (array s) (top s + 1) value);
    put (mkStack arr (top s + 1)) ;;
    printf (d value +:+ " is pushed to the stack " +:+ nl).

Definition pop : C Stack Z :=
  empty ← isEmpty;
  if empty : bool then
    printf ("Stack underflow! Can't pop " +:+ nl) ;; mret (-1)%Z
  else
    s ← get;
    x ← lift (aget (array s) (top s));
    put (mkStack (array s) (top s - 1)) ;;
    mret x.

Definition peek : C Stack Z :=
  empty ← isEmpty;
  if empty : bool then printf ("Stack is empty " +:+ nl) ;; mret (-1)%Z
  else s ← get; lift (aget (array s) (top s)).

(** The loop from [top] down to 0. *)
Fixpoint display_loop (arr : list Z) (n : nat) : C Stack unit :=
  match n with
  | O => mret tt
  | S i =>
      x ← lift (aget arr (Z.of_nat i));
      printf (d x +:+ " " +:+ nl) ;; display_loop arr i
  end.

Definition display : C Stack unit :=
  empty ← isEmpty;
  if empty : bool then printf ("Stack is empty " +:+ nl)
  else
    printf ("Stack elements : " +:+ nl) ;;
    s ← get;
    display_loop (array s) (Z.to_nat (top s + 1)) ;;
    printf nl.

Definition main : C Stack unit :=
  init ;; display ;;
  push 10 ;; display ;;
  push 20 ;; display ;;
  push 30 ;; display ;;
  x ← pop;
  printf ("Popped element : " +:+ d x +:+ " " +:+ nl) ;;
  display ;;
  y ← peek;
  printf ("Top element : " +:+ d y +:+ " " +:+ nl) ;;
  display.

End ArrayStack.

(** ** [stack-using-linked-list.c] *)
Module LinkedStack.

(** The state is [*top], the chain of nodes below the top pointer. *)
Definition isEmpty : C (list Z) bool := top ← get; mret (bool_decide (top = [])).

Definition push (value : Z) : C (list Z) unit :=
  top ← get;
  put (value :: top) ;;
  printf (d value +:+ " is pushed to the stack " +:+ nl).

Definition pop : C (list Z) Z :=
  empty ← isEmpty;
  if empty : bool then printf ("Stack is underflow " +:+ nl) ;; mret (-1)%Z
  else
    top ← get;
    match top with
    | [] => lift (UB NullDeref)
    | poppedValue :: next => put next ;; mret poppedValue
    end.

Definition peek : C (list Z) Z :=
  empty ← isEmpty;
  if empty : bool then printf ("Stack is empty " +:+ nl) ;; mret (-1)%Z
  else
    top ← get;
    match top with [] => lift (UB NullDeref) | x :: _ => mret x end.

Definition display : C (list Z) unit :=
  empty ← isEmpty;
  if empty : bool then printf ("Stack is empty " +:+ nl)
  else
    printf ("Stack elements : " +:+ nl) ;;
    top ← get;
    for_each (λ x, printf (d x +:+ " " +:+ nl)) top ;;
    printf nl.

Definition main : C (list Z) unit :=
  put [] ;; display ;;
  push 10 ;; display ;;
  push 20 ;; display ;;
  push 30 ;; display ;;
  x ← pop;
  printf ("Popped Element is " +:+ d x +:+ " " +:+ nl) ;;
  display ;;
  y ← peek;
  printf ("Top element is " +:+ d y +:+ " " +:+ nl) ;;
  display.

End LinkedStack.

(** ** [queue-using-array.c] *)
Module ArrayQueue.

Definition SIZE : Z := 5.

Record Queue : Set := mkQueue { array : list Z; front : Z; rear : Z }.

Definition init : C Queue unit := modify (λ q, mkQueue (array q) (-1) (-1)).
Definition isEmpty : C Queue bool := q ← get; mret (front q =? -1)%Z.
Definition isFull : C Queue bool := q ← get; mret (rear q =? SIZE - 1)%Z.

Definition enqueue (value : Z) : C Queue unit :=
  full ← isFull;
  if full : bool then printf ("Queue overflow! " +:+ nl)
  else
    q ← get;
    let front' := if (front q =? -1)%Z then 0%Z else front q in
    arr ← lift (aset (array q) (rear q + 1) value);
    put (mkQueue arr front' (rear q + 1)) ;;
    printf (d value +:+ " is added to the queue " +:+ nl).

Definition dequeue : C Queue Z :=
  empty ← isEmpty;
  if empty : bool then printf ("Queue underflow! " +:+ nl) ;; mret (-1)%Z
  else
    q ← get;
    data ← lift (aget (array q) (front q));
    (if (front q =? rear q)%Z then put (mkQueue (array q) (-1) (-1))
     else put (mkQueue (array q) (front q + 1) (rear q))) ;;
    mret data.

(** The loop from [front] to [rear], [n] elements left. *)
Fixpoint display_loop (arr : list Z) (i : Z) (n : nat) : C Queue unit :=
  match n with
  | O => mret tt
  | S n =>
      x ← lift (aget arr i);
      printf (d x +:+ " ") ;; display_loop arr (i + 1) n
  end.

Definition display : C Queue unit :=
  empty ← isEmpty;
  if empty : bool then printf ("Queue is empty! " +:+ nl)
  else
    printf ("Queue elements : " +:+ nl) ;;
    q ← get;
    display_loop (array q) (front q) (Z.to_nat (rear q - front q + 1)) ;;
    printf nl.

Definition main : C Queue unit :=
  init ;; display ;;
  enqueue 10 ;; display ;;
  enqueue 20 ;; display ;;
  enqueue 30 ;; display ;;
  x ← dequeue;
  printf ("Dequeued number : " +:+ d x +:+ " " +:+ nl) ;;
  display.

End ArrayQueue.

(** ** [queue-using-linked-list.c] *)
Module LinkedQueue.

Record Node : Set := mkNode { data : Z; next : ptr }.

(** [rear] aliases the last node of the chain from [front], so the nodes live
    in an explicit memory. *)
Record Queue : Type := mkQueue { front : ptr; rear : ptr; mem : gmap positive Node }.

Definition init : C Queue unit := modify (λ q, mkQueue None None (mem q)).
Definition isEmpty : C Queue bool := q ← get; mret (bool_decide (front q = None)).

Definition createNode (value : Z) : C Queue ptr :=
  q ← get;
  let '(l, m) := malloc (mem q) (mkNode value None) in
  put (mkQueue (front q) (rear q) m) ;; mret (Some l).

Definition enqueue (value : Z) : C Queue unit :=
  newNode ← createNode value;
  q ← get;
  match rear q with
  | None => put (mkQueue newNode newNode (mem q))
  | Some _ =>
      r ← lift (load (mem q) (rear q));
      m ← lift (store (mem q) (rear q) (mkNode (data r) newNode));
      put (mkQueue (front q) newNode m)
  end ;;
  printf (d value +:+ " enqueued to queue" +:+ nl).

Definition dequeue : C Queue Z :=
  empty ← isEmpty;
  if empty : bool then
    printf ("Queue Underflow! Nothing to dequeue" +:+ nl) ;; mret (-1)%Z
  else
    q ← get;
    let temp := front q in
    n ← lift (load (mem q) temp);
    let front' := next n in
    let rear' := if bool_decide (front' = None) then None else rear q in
    m ← lift (free (mem q) temp);
    put (mkQueue front' rear' m) ;;
    mret (data n).

Definition peek : C Queue Z :=
  empty ← isEmpty;
  if empty : bool then printf ("Queue is empty" +:+ nl) ;; mret (-1)%Z
  else q ← get; n ← lift (load (mem q) (front q)); mret (data n).

(** [while (temp != NULL)]: the fuel bounds the number of nodes visited. *)
Fixpoint display_loop (fuel : nat) (m : gmap positive Node) (temp : ptr) : C Queue unit :=
  match temp with
  | None => mret tt
  | Some _ =>
      match fuel with
      | O => lift (UB OutOfFuel)
      | S fuel =>
          n ← lift (load m temp);
          printf (d (data n) +:+ " ") ;; display_loop fuel m (next n)
      end
  end.

Definition display : C Queue unit :=
  empty ← isEmpty;
  if empty : bool then printf ("Queue is empty" +:+ nl)
  else
    printf "Queue elements: " ;;
    q ← get;
    display_loop (size (mem q)) (mem q) (front q) ;;
    printf nl.

Definition main : C Queue unit :=
  init ;; display ;;
  enqueue 10 ;; display ;;
  enqueue 20 ;; display ;;
  enqueue 30 ;; display ;;
  x ← dequeue;
  printf ("Dequeued element: " +:+ d x +:+ " " +:+ nl) ;;
  display ;;
  y ← peek;
  printf ("Front element: " +:+ d y +:+ " " +:+ nl).

End LinkedQueue.

(** ** Interfaces *)

(** A last-in first-out container of integers.  [stk_abs] is the content, top
    first; [stk_room] tells whether a push is accepted. *)
Class StackImpl (S : Type) := {
  stk_ok : S → Prop;
  stk_abs : S → list Z;
  stk_room : S → Prop;
  stk_push : Z → C S unit;
  stk_pop : C S Z;
  stk_peek : C S Z;
}.

Class StackLaws (S : Type) `{StackImpl S} := {
  stk_push_room v s : stk_ok s → stk_room s →
    ∃ s' o, stk_push v s = Ok (tt, s', o) ∧ stk_ok s' ∧ stk_abs s' = v :: stk_abs s;
  stk_push_full v s : stk_ok s → ¬ stk_room s →
    ∃ o, stk_push v s = Ok (tt, s, o);
  stk_pop_nil s : stk_ok s → stk_abs s = [] →
    ∃ o, stk_pop s = Ok ((-1)%Z, s, o);
  stk_pop_cons s x l : stk_ok s → stk_abs s = x :: l →
    ∃ s', stk_pop s = Ok (x, s', []) ∧ stk_ok s' ∧ stk_abs s' = l ∧ stk_room s';
  stk_peek_cons s x l : stk_ok s → stk_abs s = x :: l →
    stk_peek s = Ok (x, s, []);
}.

(** A first-in first-out container; [q_abs] is the content, oldest first. *)
Class QueueImpl (S : Type) := {
  q_ok : S → Prop;
  q_abs : S → list Z → Prop;
  q_room : S → Prop;
  q_enqueue : Z → C S unit;
  q_dequeue : C S Z;
}.

Class QueueLaws (S : Type) `{QueueImpl S} := {
  q_enqueue_room v s l : q_abs s l → q_room s →
    ∃ s' o, q_enqueue v s = Ok (tt, s', o) ∧ q_abs s' (l ++ [v]);
  q_dequeue_nil s : q_abs s [] → ∃ o, q_dequeue s = Ok ((-1)%Z, s, o);
  q_dequeue_cons s x l : q_abs s (x :: l) →
    ∃ s', q_dequeue s = Ok (x, s', []) ∧ q_abs s' l;
}.

(** Pops [n] values. *)
Fixpoint pop_n {T : Type} `{StackImpl T} (n : nat) : C T (list Z) :=
  match n with
  | O => mret []
  | S n => x ← stk_pop; l ← pop_n n; mret (x :: l)
  end.

Fixpoint dequeue_n {T : Type} `{QueueImpl T} (n : nat) : C T (list Z) :=
  match n with
  | O => mret []
  | S n => x ← q_dequeue; l ← dequeue_n n; mret (x :: l)
  end.

Section StackClient.
Context {T : Type} `{StackLaws T}.

Lemma pop_n_spec l (s : T) :
  stk_ok s → ∀ rest, stk_abs s = l ++ rest →
  ∃ s', pop_n (length l) s = Ok (l, s', []) ∧ stk_ok s' ∧ stk_abs s' = rest.
Proof.
  revert s. induction l as [|x l IH]; intros s Hs rest Hl; simpl in *.
  { exists s. done. }
  destruct (stk_pop_cons s x (l ++ rest)) as (s1 & E1 & Hs1 & Ha1 & _); [done..|].
  destruct (IH s1 Hs1 rest Ha1) as (s2 & E2 & ? & ?).
  exists s2. c_run. by rewrite E1, E2.
Qed.

Lemma push_pop_restores v (s : T) :
  stk_ok s → stk_room s →
  ∃ s' o, (stk_push v ;; stk_pop) s = Ok (v, s', o) ∧ stk_ok s' ∧
    stk_abs s' = stk_abs s.
Proof.
  intros Hs Hr. destruct (stk_push_room v s Hs Hr) as (s1 & o & E1 & Hs1 & Ha1).
  destruct (stk_pop_cons s1 v (stk_abs s) Hs1 Ha1) as (s2 & E2 & Hs2 & Ha2 & _).
  exists s2, (o ++ []). c_run. by rewrite E1, E2.
Qed.

End StackClient.

Section QueueClient.
Context {T : Type} `{QueueLaws T}.

Lemma dequeue_n_spec l (s : T) rest :
  q_abs s (l ++ rest) →
  ∃ s', dequeue_n (length l) s = Ok (l, s', []) ∧ q_abs s' rest.
Proof.
  revert s. induction l as [|x l IH]; intros s Hs; simpl in *; [by exists s|].
  destruct (q_dequeue_cons s x (l ++ rest) Hs) as (s1 & E1 & Hs1).
  destruct (IH s1 Hs1) as (s2 & E2 & ?). exists s2. c_run. by rewrite E1, E2.
Qed.

End QueueClient.

(** ** The array stack implements a stack of capacity five *)

Module ArrayStackSpec.
Import ArrayStack.

Definition ok (s : Stack) : Prop :=
  length (array s) = 5 ∧ (-1 ≤ top s < 5)%Z.

Definition abs (s : Stack) : list Z :=
  reverse (take (Z.to_nat (top s + 1)) (array s)).

#[global] Instance impl : StackImpl Stack := {|
  stk_ok := ok; stk_abs := abs; stk_room := λ s, length (abs s) < 5;
  stk_push := push; stk_pop := pop; stk_peek := peek |}.

Lemma length_abs s : ok s → length (abs s) = Z.to_nat (top s + 1).
Proof. intros [Hl ?]. unfold abs. rewrite length_reverse, length_take. lia. Qed.

Lemma abs_cons s x l :
  ok s → abs s = x :: l →
  (0 ≤ top s)%Z ∧ array s !! Z.to_nat (top s) = Some x ∧
  l = reverse (take (Z.to_nat (top s)) (array s)).
Proof.
  intros Hok Ha. pose proof (length_abs s Hok) as Hlen. rewrite Ha in Hlen.
  destruct Hok as [Hl Ht]. simpl in Hlen. split; [lia|].
  destruct (lookup_lt_is_Some_2 (array s) (Z.to_nat (top s))) as [y Hy]; [lia|].
  unfold abs in Ha. replace (Z.to_nat (top s + 1)) with (S (Z.to_nat (top s))) in Ha by lia.
  rewrite (take_S_r _ _ y Hy), reverse_snoc in Ha. by injection Ha as -> <-.
Qed.

Lemma push_accepts v s :
  ok s → length (abs s) < 5 →
  ∃ s' o, push v s = Ok (tt, s', o) ∧ ok s' ∧ abs s' = v :: abs s.
Proof.
  intros Hok Hr. rewrite length_abs in Hr by done. destruct Hok as [Hl Ht].
  unfold push, isFull, SIZE. c_run. destruct (Z.eqb_spec (top s) (5 - 1)); [lia|].
  rewrite aset_lt by lia. simpl. eexists _, _. split; [done|]. unfold ok, abs. simpl.
  rewrite length_insert. split; [lia|].
  replace (Z.to_nat (top s + 1 + 1)) with (S (Z.to_nat (top s + 1))) by lia.
  rewrite (take_S_r _ _ v) by (apply list_lookup_insert_eq; lia).
  by rewrite take_insert_ge, reverse_snoc by lia.
Qed.

#[global] Instance laws : StackLaws Stack.
Proof.
  split; simpl.
  - intros v s Hok Hr. by apply push_accepts.
  - intros v s Hok Hr. rewrite length_abs in Hr by done. destruct Hok as [Hl Ht].
    unfold push, isFull, SIZE. c_run. destruct (Z.eqb_spec (top s) (5 - 1)); [|lia]. by eexists.
  - intros s Hok Ha. pose proof (length_abs s Hok) as Hlen. rewrite Ha in Hlen.
    destruct Hok as [Hl Ht]. simpl in Hlen.
    unfold pop, isEmpty. c_run. destruct (Z.eqb_spec (top s) (-1)); [|lia]. by eexists.
  - intros s x l Hok Ha. destruct (abs_cons s x l Hok Ha) as (Hge & Hx & ->).
    pose proof Hok as [Hl Ht]. exists (mkStack (array s) (top s - 1)).
    unfold pop, isEmpty. c_run. destruct (Z.eqb_spec (top s) (-1)); [lia|].
    rewrite (aget_Z _ _ x) by done. simpl.
    unfold ok, abs. simpl. replace (top s - 1 + 1)%Z with (top s) by lia.
    rewrite length_reverse, length_take. repeat split; lia || done.
  - intros s x l Hok Ha. destruct (abs_cons s x l Hok Ha) as (Hge & Hx & ->).
    unfold peek, isEmpty. c_run. destruct (Z.eqb_spec (top s) (-1)); [lia|].
    by rewrite (aget_Z _ _ x).
Qed.

End ArrayStackSpec.

Module LinkedStackSpec.
Import LinkedStack.

#[global] Instance impl : StackImpl (list Z) := {|
  stk_ok := λ _, True; stk_abs := λ s, s; stk_room := λ _, True;
  stk_push := push; stk_pop := pop; stk_peek := peek |}.

#[global] Instance laws : StackLaws (list Z).
Proof.
  split; simpl.
  - intros v s _ _. by eexists _, _.
  - intros v s _ Hn. by destruct Hn.
  - intros s _ ->. by eexists.
  - intros s x l _ ->. by eexists.
  - intros s x l _ ->. done.
Qed.

End LinkedStackSpec.

(** ** The array queue: FIFO, refusing once [rear] reaches the last slot *)

Module ArrayQueueSpec.
Import ArrayQueue.

Definition slice (q : Queue) : list Z :=
  take (Z.to_nat (rear q - front q + 1)) (drop (Z.to_nat (front q)) (array q)).

Definition abs (q : Queue) (l : list Z) : Prop :=
  length (array q) = 5 ∧
  ((front q = -1 ∧ rear q = -1 ∧ l = []) ∨
   (0 ≤ front q ≤ rear q ∧ rear q < 5 ∧ l = slice q))%Z.

#[global] Instance impl : QueueImpl Queue := {|
  q_ok := λ q, ∃ l, abs q l; q_abs := abs; q_room := λ q, (rear q ≠ 4)%Z;
  q_enqueue := enqueue; q_dequeue := dequeue |}.

Lemma length_slice q :
  length (array q) = 5 → (0 ≤ front q ≤ rear q)%Z → (rear q < 5)%Z →
  length (slice q) = Z.to_nat (rear q - front q + 1).
Proof. intros. unfold slice. rewrite length_take, length_drop. lia. Qed.

Lemma slice_cons q x l :
  length (array q) = 5 → (0 ≤ front q ≤ rear q)%Z → (rear q < 5)%Z →
  slice q = x :: l →
  array q !! Z.to_nat (front q) = Some x ∧
  l = take (Z.to_nat (rear q - front q)) (drop (Z.to_nat (front q + 1)) (array q)).
Proof.
  intros Hl Hf Hr. unfold slice.
  destruct (lookup_lt_is_Some_2 (array q) (Z.to_nat (front q))) as [y Hy]; [lia|].
  rewrite (drop_S _ _ _ Hy).
  replace (Z.to_nat (rear q - front q + 1)) with (S (Z.to_nat (rear q - front q))) by lia.
  replace (Z.to_nat (front q + 1)) with (S (Z.to_nat (front q))) by lia.
  simpl. intros [= -> <-]. done.
Qed.

Lemma slice_snoc a f r v :
  (0 ≤ f ≤ r + 1)%Z → (r + 1 < 5)%Z → length a = 5 →
  slice (mkQueue (<[Z.to_nat (r + 1) := v]> a) f (r + 1)) =
  take (Z.to_nat (r - f + 1)) (drop (Z.to_nat f) a) ++ [v].
Proof.
  intros Hf Hr Ha. unfold slice. simpl.
  replace (Z.to_nat (r + 1 - f + 1)) with (S (Z.to_nat (r - f + 1))) by lia.
  rewrite drop_insert_ge by lia.
  rewrite (take_S_r _ _ v).
  - rewrite take_insert_ge by lia. done.
  - replace (Z.to_nat (r - f + 1)) with (Z.to_nat (r + 1) - Z.to_nat f) by lia.
    apply list_lookup_insert_eq. rewrite length_drop. lia.
Qed.

#[global] Instance laws : QueueLaws Queue.
Proof.
  split; simpl.
  - intros v q l [Ha Hq] Hroom. unfold enqueue, isFull, SIZE. c_run.
    destruct (Z.eqb_spec (rear q) (5 - 1)); [lia|].
    rewrite aset_lt by lia. eexists _, _. split; [done|].
    split; [simpl; by rewrite length_insert|]. right.
    destruct Hq as [(-> & -> & ->)|(Hf & Hr & ->)]; simpl.
    + split; [lia|]. split; [lia|]. by rewrite slice_snoc.
    + destruct (Z.eqb_spec (front q) (-1)); [lia|].
      split; [lia|]. split; [lia|]. by rewrite slice_snoc by lia.
  - intros q [Ha [(Hf & Hr & _)|(Hf & Hr & Hs)]].
    + unfold dequeue, isEmpty. c_run. rewrite Hf. simpl. by eexists.
    + pose proof (length_slice q Ha Hf Hr) as Hlen. rewrite <- Hs in Hlen.
      simpl in Hlen. lia.
  - intros q x l [Ha [(Hf & Hr & Hl)|(Hf & Hr & Hs)]]; [done|].
    symmetry in Hs. pose proof (length_slice q Ha Hf Hr) as Hlen.
    rewrite Hs in Hlen. simpl in Hlen.
    destruct (slice_cons q x l Ha Hf Hr Hs) as [Hx ->].
    unfold dequeue, isEmpty. c_run. destruct (Z.eqb_spec (front q) (-1)); [lia|].
    rewrite (aget_Z _ _ x) by (lia || done).
    destruct (Z.eqb_spec (front q) (rear q)) as [Heq|Hne]; simpl.
    + eexists. split; [done|]. split; [done|]. left. simpl.
      replace (Z.to_nat (rear q - front q)) with 0 by lia. done.
    + eexists. split; [done|]. split; [done|]. right. unfold slice. simpl.
      replace (rear q - (front q + 1) + 1)%Z with (rear q - front q)%Z by lia.
      split; [lia|]. split; [lia|]. done.
Qed.

End ArrayQueueSpec.

(** ** The linked queue: FIFO over an explicit memory *)

Module LinkedQueueSpec.
Import LinkedQueue.

(** The chain from [p] visits the cells [ls] and holds the values [vs]. *)
Fixpoint lseg (m : gmap positive Node) (p : ptr) (ls : list positive) (vs : list Z)
    : Prop :=
  match ls, vs with
  | [], [] => p = None
  | l :: ls, v :: vs =>
      p = Some l ∧ ∃ nxt, m !! l = Some (mkNode v nxt) ∧ lseg m nxt ls vs
  | _, _ => False
  end.

(** The queue holds [vs]; [rear] is its last cell, cells are distinct, and the
    memory holds nothing else: no cell leaks and none dangles. *)
Definition abs (q : Queue) (vs : list Z) : Prop :=
  ∃ ls, lseg (mem q) (front q) ls vs ∧ NoDup ls ∧ rear q = last ls ∧
    dom (mem q) = list_to_set ls.

Lemma lseg_frame m m' p ls vs :
  (∀ l, l ∈ ls → m' !! l = m !! l) → lseg m p ls vs → lseg m' p ls vs.
Proof.
  revert p vs. induction ls as [|l ls IH]; intros p [|v vs] Hm; simpl; try done.
  intros (-> & nxt & Hl & Hrest). split; [done|]. exists nxt.
  split; [rewrite Hm; set_solver|]. apply IH; set_solver.
Qed.

Lemma lseg_snoc m p ls vs l v new x :
  lseg m p (ls ++ [l]) (vs ++ [v]) → length ls = length vs →
  NoDup (ls ++ [l]) → new ∉ ls ++ [l] →
  lseg (<[l := mkNode v (Some new)]> (<[new := mkNode x None]> m)) p
    (ls ++ [l; new]) (vs ++ [v; x]).
Proof.
  revert p vs. induction ls as [|l' ls IH]; intros p vs Hs Hlen Hnd Hnew.
  - destruct vs; [|done]. simpl in *. destruct Hs as (-> & nxt & Hl & _).
    split; [done|]. exists (Some new). rewrite lookup_insert_eq. split; [done|].
    split; [done|]. exists None. rewrite lookup_insert_ne by set_solver.
    by rewrite lookup_insert_eq.
  - destruct vs as [|v' vs]; [done|]. simpl in *. destruct Hs as (-> & nxt & Hl & Hs).
    apply NoDup_cons in Hnd as [Hl' Hnd].
    split; [done|]. exists nxt. rewrite !lookup_insert_ne by set_solver.
    split; [done|]. apply IH; [done|lia|done|set_solver].
Qed.

Lemma lseg_length m p ls vs : lseg m p ls vs → length ls = length vs.
Proof.
  revert p vs. induction ls as [|l ls IH]; intros p [|v vs]; simpl; try done.
  intros (_ & nxt & _ & ?). f_equal. eauto.
Qed.

(** The last cell of a chain ends in [NULL] and holds the last value. *)
Lemma lseg_last m p ls vs l v :
  lseg m p (ls ++ [l]) (vs ++ [v]) → m !! l = Some (mkNode v None).
Proof.
  revert p vs. induction ls as [|l' ls IH]; intros p vs.
  - destruct vs as [|v' [|]]; simpl; try naive_solver.
  - destruct vs as [|v' vs]; simpl.
    + intros (_ & nxt & _ & Hs). by destruct ls.
    + intros (_ & nxt & _ & Hs). by eapply IH.
Qed.

Lemma enqueue_abs v q vs :
  abs q vs →
  ∃ q', enqueue v q = Ok (tt, q', [d v +:+ " enqueued to queue" +:+ nl]) ∧
    abs q' (vs ++ [v]).
Proof.
  intros (ls & Hs & Hnd & Hr & Hdom). unfold enqueue, createNode. c_run.
  name_fresh (mem q) new.
  assert (new ∉ ls) as Hnin.
  { intros Hin. apply not_elem_of_dom in Hnew. rewrite Hdom in Hnew. set_solver. }
  destruct ls as [|l ls] using rev_ind.
  - rewrite Hr. destruct vs; [|done]. eexists. split; [done|].
    exists [new]. simpl. split; [|split; [|split]].
    + split; [done|]. exists None. by rewrite lookup_insert_eq.
    + apply NoDup_singleton.
    + done.
    + rewrite dom_insert_L, Hdom. set_solver.
  - clear IHls. rewrite last_snoc in Hr. rewrite Hr.
    destruct vs as [|w vs _] using rev_ind.
    { apply lseg_length in Hs. rewrite length_app in Hs. simpl in Hs. lia. }
    pose proof (lseg_last _ _ _ _ _ _ Hs) as Hl.
    assert (new ≠ l) by set_solver.
    assert (Hl' : <[new:=mkNode v None]> (mem q) !! l = Some (mkNode w None))
      by by rewrite lookup_insert_ne.
    rewrite (load_Some _ _ _ Hl'). simpl. rewrite (store_Some _ _ _ _ Hl').
    eexists. split; [done|].
    exists (ls ++ [l; new]). simpl. rewrite <- app_assoc. simpl. split; [|split; [|split]].
    + apply lseg_snoc; [done| |done|done].
      apply lseg_length in Hs. rewrite !length_app in Hs. simpl in Hs. lia.
    + change [l; new] with ([l] ++ [new]). rewrite app_assoc, NoDup_app.
      split; [done|]. split; [set_solver|apply NoDup_singleton].
    + by rewrite last_app_cons.
    + rewrite !dom_insert_L, Hdom, !list_to_set_app_L. simpl. set_solver.
Qed.

Lemma abs_nil_front q : abs q [] → front q = None.
Proof. intros ([|l ls] & Hs & _); [done|]. by destruct Hs. Qed.

Lemma dequeue_abs q v vs :
  abs q (v :: vs) → ∃ q', dequeue q = Ok (v, q', []) ∧ abs q' vs.
Proof.
  intros ([|l ls] & Hs & Hnd & Hr & Hdom); [done|].
  destruct Hs as (Hf & nxt & Hl & Hs). apply NoDup_cons in Hnd as [Hnin Hnd].
  unfold dequeue, isEmpty. c_run. rewrite bool_decide_false by by rewrite Hf.
  rewrite Hf, (load_Some _ _ _ Hl). simpl. rewrite (free_Some _ _ _ Hl). simpl.
  eexists. split; [done|]. exists ls. simpl. split; [|split; [|split]].
  - eapply lseg_frame; [|done]. intros l' Hl'.
    rewrite lookup_delete_ne; [done|]. intros <-. done.
  - done.
  - rewrite Hr. destruct ls as [|l' ls].
    + destruct vs; [|done]. simpl in Hs. by rewrite Hs.
    + destruct vs; [done|]. simpl in Hs. destruct Hs as (-> & _). done.
  - rewrite dom_delete_L, Hdom. simpl. set_solver.
Qed.

#[global] Instance impl : QueueImpl Queue := {|
  q_ok := λ q, ∃ l, abs q l; q_abs := abs; q_room := λ q, True;
  q_enqueue := enqueue; q_dequeue := dequeue |}.

#[global] Instance laws : QueueLaws Queue.
Proof.
  split; simpl.
  - intros v q l Ha _. destruct (enqueue_abs v q l Ha) as (q' & E & ?). eauto.
  - intros q Ha%abs_nil_front. unfold dequeue, isEmpty. c_run.
    rewrite bool_decide_true by done. by eexists.
  - intros q x l Ha. by apply dequeue_abs.
Qed.

Lemma peek_abs q v vs : abs q (v :: vs) → peek q = Ok (v, q, []).
Proof.
  intros ([|l ls] & Hs & _); [done|]. destruct Hs as (Hf & nxt & Hl & Hs).
  unfold peek, isEmpty. c_run. rewrite bool_decide_false by by rewrite Hf.
  by rewrite Hf, (load_Some _ _ _ Hl).
Qed.

Lemma display_loop_abs fuel m p ls vs (q : Queue) :
  lseg m p ls vs → length ls ≤ fuel →
  display_loop fuel m p q = Ok (tt, q, (λ v, d v +:+ " ") <$> vs).
Proof.
  revert fuel p vs. induction ls as [|l ls IH]; intros fuel p [|v vs] Hs Hf;
    simpl in *; try done.
  { rewrite Hs. by destruct fuel. }
  destruct fuel as [|fuel]; [lia|]. destruct Hs as (-> & nxt & Hl & Hs).
  simpl. c_run. rewrite (load_Some _ _ _ Hl). simpl.
  rewrite (IH fuel nxt vs) by (done || lia). done.
Qed.

(** The fuel of [display], the number of live cells, is always enough. *)
Lemma display_abs q v vs :
  abs q (v :: vs) →
  display q = Ok (tt, q,
    ["Queue elements: "] ++ ((λ v, d v +:+ " ") <$> v :: vs) ++ [nl]).
Proof.
  intros (ls & Hs & Hnd & _ & Hdom). unfold display, isEmpty. c_run.
  assert (front q ≠ None) as Hf.
  { destruct ls as [|l ls]; [done|]. destruct Hs as (-> & _). done. }
  rewrite bool_decide_false by done.
  rewrite (display_loop_abs _ _ _ ls (v :: vs) q Hs); [done|].
  rewrite <- size_dom, Hdom, size_list_to_set by done. done.
Qed.

End LinkedQueueSpec.

(** ** Properties *)

(** Pushes the values of a list in order. *)
Definition push_all {T : Type} `{StackImpl T} (xs : list Z) : C T unit :=
  for_each stk_push xs.

Lemma push_all_spec {T : Type} `{StackLaws T} (cap : list Z → Prop)
    (xs : list Z) (s : T) :
  (∀ t, stk_ok t → cap (stk_abs t) → stk_room t) →
  (∀ l x ys, cap (ys ++ x :: l) → cap l) →
  stk_ok s → (xs = [] ∨ cap (tl (reverse xs ++ stk_abs s))) →
  ∃ s' o, push_all xs s = Ok (tt, s', o) ∧ stk_ok s' ∧
    stk_abs s' = reverse xs ++ stk_abs s.
Proof.
  intros Hroom Hmono. revert s. induction xs as [|x xs IH]; intros s Hs Hcap.
  { exists s, []. done. }
  destruct Hcap as [|Hcap]; [done|]. rewrite reverse_cons in Hcap.
  assert (stk_room s) as Hr.
  { apply Hroom; [done|]. destruct (reverse xs) as [|y ys]; [done|].
    simpl in Hcap. rewrite <- app_assoc in Hcap. simpl in Hcap. by eapply Hmono. }
  destruct (stk_push_room x s Hs Hr) as (s1 & o1 & E1 & Hs1 & Ha1).
  destruct (IH s1) as (s2 & o2 & E2 & Hs2 & Ha2); [done| |].
  { destruct xs as [|y xs]; [by left|]. right. rewrite Ha1.
    rewrite <- app_assoc in Hcap. done. }
  exists s2, (o1 ++ o2). unfold push_all in *. simpl. unfold mbind, C_bind.
  rewrite E1, E2. split; [done|]. split; [done|].
  rewrite Ha2, Ha1, reverse_cons, <- app_assoc. done.
Qed.

(** Both stacks are last-in first-out: pushing the values [xs] and popping
    as many returns them in reverse order and leaves the earlier content.  The
    array stack does so whenever the five slots suffice, the linked stack
    always. *)
Theorem stacks_lifo :
  (∀ (s : ArrayStack.Stack) (xs : list Z),
     ArrayStackSpec.ok s →
     length xs + length (ArrayStackSpec.abs s) ≤ 5 →
     ∃ s1 o1 s2, push_all xs s = Ok (tt, s1, o1) ∧
       pop_n (length xs) s1 = Ok (reverse xs, s2, []) ∧
       ArrayStackSpec.ok s2 ∧ ArrayStackSpec.abs s2 = ArrayStackSpec.abs s) ∧
  (∀ (s xs : list Z),
     ∃ s1 o1, push_all xs s = Ok (tt, s1, o1) ∧
       pop_n (length xs) s1 = Ok (reverse xs, s, [])).
Proof.
  split.
  - intros s xs Hs Hlen.
    destruct (push_all_spec (λ l, length l < 5) xs s) as (s1 & o1 & E1 & Hs1 & Ha1).
    + by intros t ? ?.
    + intros l x ys. rewrite length_app. simpl. lia.
    + done.
    + destruct xs as [|x xs]; [by left|]. right. simpl in Hlen.
      rewrite length_tl, length_app, length_reverse. simpl. lia.
    + exists s1, o1. pose proof (pop_n_spec (reverse xs) s1 Hs1 _ Ha1) as (s2 & E2 & ? & ?).
      rewrite length_reverse in E2. exists s2. done.
  - intros s xs.
    destruct (push_all_spec (λ _, True) xs s) as (s1 & o1 & E1 & Hs1 & Ha1); try done.
    { by right. }
    pose proof (pop_n_spec (reverse xs) s1 Hs1 _ Ha1) as (s2 & E2 & _ & Ha2).
    simpl in Ha2. subst s2. rewrite length_reverse in E2. eauto.
Qed.

(** The linked queue is first-in first-out, over a memory that holds
    exactly its nodes: every operation succeeds and keeps the invariant
    (distinct cells, [rear] the last of them, nothing leaked or dangling),
    [enqueue] appends, [dequeue] and [peek] return the oldest value, an empty
    queue yields -1, and [display] terminates printing the content in order. *)
Theorem linked_queue_fifo (q : LinkedQueue.Queue) (vs : list Z) (v : Z) :
  LinkedQueueSpec.abs q vs →
  (∃ q', LinkedQueue.enqueue v q =
           Ok (tt, q', [d v +:+ " enqueued to queue" +:+ nl]) ∧
         LinkedQueueSpec.abs q' (vs ++ [v])) ∧
  match vs with
  | [] => ∃ o, LinkedQueue.dequeue q = Ok ((-1)%Z, q, o)
  | x :: vs' =>
      (∃ q', LinkedQueue.dequeue q = Ok (x, q', []) ∧
             LinkedQueueSpec.abs q' vs') ∧
      LinkedQueue.peek q = Ok (x, q, []) ∧
      LinkedQueue.display q = Ok (tt, q,
        ["Queue elements: "] ++ ((λ v, d v +:+ " ") <$> vs) ++ [nl])
  end.
Proof.
  intros Ha. split; [by apply LinkedQueueSpec.enqueue_abs|].
  destruct vs as [|x vs].
  - exact (q_dequeue_nil (S := LinkedQueue.Queue) q Ha).
  - split; [by apply LinkedQueueSpec.dequeue_abs|].
    split; [by eapply LinkedQueueSpec.peek_abs|]. by apply LinkedQueueSpec.display_abs.
Qed.

Definition linked_queue_example : LinkedQueue.Queue :=
  match (LinkedQueue.enqueue 7) (LinkedQueue.mkQueue None None ∅) with
  | Ok (_, q, _) => q
  | UB _ => LinkedQueue.mkQueue None None ∅
  end.

Lemma linked_queue_fifo_witness :
  LinkedQueue.peek linked_queue_example = Ok (7%Z, linked_queue_example, []).
Proof.
  apply (linked_queue_fifo linked_queue_example [7%Z] 8%Z).
  exists [1%positive]. vm_compute. repeat split.
  - exists None. split; reflexivity.
  - repeat constructor. intros H. inversion H.
Defined.

(** The array queue is first-in first-out as long as it accepts: [dequeue]
    returns the oldest values in order, and [enqueue] appends unless [rear] is
    on the last slot, in which case it changes nothing.  Slots freed at the
    front do not count: after five enqueues and one dequeue the queue holds
    four values and refuses the next. *)
Theorem array_queue_fifo (q : ArrayQueue.Queue) (l : list Z) (v : Z) :
  ArrayQueueSpec.abs q l →
  (ArrayQueue.rear q ≠ 4%Z → ∃ q' o,
     ArrayQueue.enqueue v q = Ok (tt, q', o) ∧ ArrayQueueSpec.abs q' (l ++ [v])) ∧
  (ArrayQueue.rear q = 4%Z →
     ArrayQueue.enqueue v q = Ok (tt, q, ["Queue overflow! " +:+ nl])) ∧
  (∃ q', dequeue_n (length l) q = Ok (l, q', []) ∧ ArrayQueueSpec.abs q' []).
Proof.
  intros Ha. split; [|split].
  - intros Hr. exact (q_enqueue_room (S := ArrayQueue.Queue) v q l Ha Hr).
  - intros Hr. unfold ArrayQueue.enqueue, ArrayQueue.isFull. c_run. by rewrite Hr.
  - pose proof (dequeue_n_spec l q []) as H. rewrite app_nil_r in H. exact (H Ha).
Qed.

(** Five enqueues and one dequeue from a fresh queue. *)
Definition array_queue_example : ArrayQueue.Queue :=
  match (ArrayQueue.init ;; for_each ArrayQueue.enqueue [1; 2; 3; 4; 5]%Z ;;
         ArrayQueue.dequeue) (ArrayQueue.mkQueue [0; 0; 0; 0; 0]%Z 0 0) with
  | Ok (_, q, _) => q
  | UB _ => ArrayQueue.mkQueue [] 0 0
  end.

Lemma array_queue_fifo_witness :
  ArrayQueueSpec.abs array_queue_example [2; 3; 4; 5]%Z ∧
  ArrayQueue.enqueue 6 array_queue_example =
    Ok (tt, array_queue_example, ["Queue overflow! " +:+ nl]).
Proof.
  assert (ArrayQueueSpec.abs array_queue_example [2; 3; 4; 5]%Z) as Ha.
  { split; [reflexivity|]. right. vm_compute. repeat split; discriminate. }
  split; [exact Ha|].
  apply (proj1 (proj2 (array_queue_fifo array_queue_example _ 6%Z Ha))). reflexivity.
Defined.

(** [deleteNode] of the linked list removes the first occurrence only. *)
Lemma list_delete_first l v :
  (v ∉ l ∧ LinkedList.deleteNode l v = l) ∨
  (∃ l1 l2, l = l1 ++ v :: l2 ∧ v ∉ l1 ∧ LinkedList.deleteNode l v = l1 ++ l2).
Proof.
  assert (∀ l, (v ∉ l ∧ LinkedList.unlink l v = l) ∨
    (∃ l1 l2, l = l1 ++ v :: l2 ∧ v ∉ l1 ∧ LinkedList.unlink l v = l1 ++ l2)) as Hu.
  { clear l. intros l. induction l as [|x l IH]; simpl; [left; set_solver|].
    destruct (Z.eqb_spec x v) as [->|Hne].
    - right. exists [], l. set_solver.
    - destruct IH as [[? ->]|(l1 & l2 & -> & ? & ->)].
      + left. set_solver.
      + right. exists (x :: l1), l2. set_solver. }
  destruct l as [|x l]; [apply Hu|]. specialize (Hu (x :: l)). simpl in *.
  by destruct (Z.eqb_spec x v).
Qed.

Lemma list_insertAtEnd l v : LinkedList.insertAtEnd l v = l ++ [v].
Proof. induction l as [|x l IH]; simpl; [done|]. by rewrite IH. Qed.

(** The printed runs of the five programs. *)
Example linear_mains :
  run_output LinkedList.main tt = Ok
    ["NULL " +:+ nl; "20 -> "; "NULL " +:+ nl; "20 -> "; "10 -> "; "NULL " +:+ nl;
     "5 -> "; "20 -> "; "10 -> "; "NULL " +:+ nl; "5 -> "; "10 -> "; "NULL " +:+ nl] ∧
  run_output LinkedQueue.main (LinkedQueue.mkQueue None None ∅) = Ok
    ["Queue is empty" +:+ nl; "10 enqueued to queue" +:+ nl; "Queue elements: ";
     "10 "; nl; "20 enqueued to queue" +:+ nl; "Queue elements: "; "10 "; "20 "; nl;
     "30 enqueued to queue" +:+ nl; "Queue elements: "; "10 "; "20 "; "30 "; nl;
     "Dequeued element: 10 " +:+ nl; "Queue elements: "; "20 "; "30 "; nl;
     "Front element: 20 " +:+ nl] ∧
  is_ok (run_output ArrayStack.main (ArrayStack.mkStack [0; 0; 0; 0; 0]%Z 3)) ∧
  is_ok (run_output ArrayQueue.main (ArrayQueue.mkQueue [0; 0; 0; 0; 0]%Z 3 3)) ∧
  is_ok (run_output LinkedStack.main []).
Proof. vm_compute. repeat split. Qed.
