(* ===== verification/HashTables.v ===== *)
(** * Hash tables

    [Chaining] and [OpenAddressing] model the two programs of
    [day-4(Hash_Table)], [LinearProbing] the integer-keyed table of
    [EXTRA_TASK/24-11-2025].  The proofs about probing share one
    characterisation of the loops, [scan]. *)
From stdpp Require Import base list gmap strings pretty relations.
From Stdlib Require Import ZArith Lia.
From Stdlib Require Ascii String.
From S2P Require Import Prelude.
Local Open Scope Z_scope.

(** C strings, without their terminating zero. *)
Definition strlen (s : string) : nat := String.length s.

(** [hashValue * 31 + *key++] over the characters, in [unsigned int]
    arithmetic; [char_val] is the value of a [char]. *)
Fixpoint hash_loop (char_val : Ascii.ascii → Z) (hashValue : Z) (key : string) : Z :=
  match key with
  | EmptyString => hashValue
  | String c key => hash_loop char_val ((hashValue * 31 + char_val c) mod 2 ^ 32) key
  end.

(** A [char] with values -128..127, and [(unsigned char)]. *)
Definition schar (c : Ascii.ascii) : Z :=
  let n := Z.of_N (Ascii.N_of_ascii c) in if (n <? 128) then n else n - 256.
Definition uchar (c : Ascii.ascii) : Z := Z.of_N (Ascii.N_of_ascii c).

(** ** [hash-table-with-chaining.c] *)
Module Chaining.

Definition TABLE_SIZE : Z := 10.

(** The chain that a [struct Node*] starts.  [Dangling] is a pointer to a
    node that was freed: following it is undefined. *)
Inductive chain : Set :=
  | Null
  | Dangling
  | Node (key : string) (value : Z) (next : chain).

(** [hashTable]. *)
Abbreviation table := (list chain).

Definition hash (key : string) : Z := (hash_loop schar 0 key) mod TABLE_SIZE.

(** The chain after [insert]'s walk from [temp]; [live] says whether
    [newNode] has not been freed yet.  The boolean result is false on the early
    [return], where nothing is printed. *)
Fixpoint insert_walk (temp : chain) (key : string) (value : Z) (live : bool)
    : res (chain * bool) :=
  match temp with
  | Null => UB NullDeref
  | Dangling => UB UseAfterFree
  | Node k v Null =>
      if String.eqb k key then
        if live then Ok (Node k value Null, false) else UB UseAfterFree
      else if live then Ok (Node k v (Node key value Null), true)
      else Ok (Node k v Dangling, true)
  | Node k v next =>
      if String.eqb k key then
        if live then
          '(next', p) ← insert_walk next key value false;
          mret (Node k value next', p)
        else UB UseAfterFree
      else
        '(next', p) ← insert_walk next key value live;
        mret (Node k v next', p)
  end.

Definition insert_chain (head : chain) (key : string) (value : Z) : res (chain * bool) :=
  match head with
  | Null => Ok (Node key value Null, true)
  | temp => insert_walk temp key value true
  end.

Definition insert (key : string) (value : Z) : C table unit :=
  let index := hash key in
  (if 50 <=? Z.of_nat (strlen key) then lift (UB OutOfBounds) else mret tt) ;;
  t ← get;
  c ← lift (aget t index);
  '(c', p) ← lift (insert_chain c key value);
  t' ← lift (aset t index c');
  put t' ;;
  if p : bool then
    printf ("(" +:+ key +:+ ", " +:+ d value +:+
            ") is successfully inserted at the index " +:+ d index +:+ " " +:+ nl)
  else mret tt.

Fixpoint search_walk (temp : chain) (key : string) : res Z :=
  match temp with
  | Null => Ok (-1)
  | Dangling => UB UseAfterFree
  | Node k v next => if String.eqb k key then Ok v else search_walk next key
  end.

Definition search (key : string) : C table Z :=
  t ← get;
  temp ← lift (aget t (hash key));
  lift (search_walk temp key).

(** The chain without its first node with the key, or [None]. *)
Fixpoint delete_walk (temp : chain) (key : string) : res (option chain) :=
  match temp with
  | Null => Ok None
  | Dangling => UB UseAfterFree
  | Node k v next =>
      if String.eqb k key then Ok (Some next)
      else
        r ← delete_walk next key;
        mret (match r with Some c => Some (Node k v c) | None => None end)
  end.

Definition delete (key : string) : C table unit :=
  let index := hash key in
  t ← get;
  temp ← lift (aget t index);
  r ← lift (delete_walk temp key);
  match r with
  | Some c =>
      t' ← lift (aset t index c);
      put t' ;;
      printf ("Deleted the data with the key " +:+ key +:+ " " +:+ nl)
  | None => printf ("The key " +:+ key +:+ " is not found " +:+ nl)
  end.

Fixpoint display_chain (temp : chain) : C table unit :=
  match temp with
  | Null => mret tt
  | Dangling => lift (UB UseAfterFree)
  | Node k v next =>
      printf ("(" +:+ k +:+ ", " +:+ d v +:+ ") -> ") ;; display_chain next
  end.

Definition display : C table unit :=
  for_each (λ i,
    printf ("Index " +:+ d i +:+ ": ") ;;
    (t ← get; temp ← lift (aget t i); display_chain temp) ;;
    printf ("NULL" +:+ nl))
    (seqZ 0 TABLE_SIZE).

Definition main : C table unit :=
  insert "apple" 100 ;; display ;;
  insert "banana" 200 ;; display ;;
  insert "orange" 300 ;; display ;;
  insert "grapes" 400 ;; display ;;
  insert "melon" 500 ;; display ;;
  x ← search "banana";
  printf ("Search 'banana': " +:+ d x +:+ nl) ;;
  y ← search "berry";
  printf ("Search 'berry': " +:+ d y +:+ nl) ;;
  delete "orange" ;; display.

(** The file-scope array starts with null pointers. *)
Definition hashTable : table := replicate 10 Null.

End Chaining.

(** ** [hash-table-with-open-addressing.c] *)
Module OpenAddressing.

Definition TABLE_SIZE : Z := 10.

(** The [key] field of an entry: [EMPTY_KEY], [DELETED_KEY] or a string. *)
Inductive key_field : Set := EMPTY_KEY | DELETED_KEY | Key (s : string).

Record Entry : Set := mkEntry { key : key_field; value : Z }.

Abbreviation table := (list Entry).

Definition hash (k : string) : Z := (hash_loop schar 0 k) mod TABLE_SIZE.

Definition init : C table unit :=
  for_each (λ i,
    t ← get;
    t' ← lift (aset t i (mkEntry EMPTY_KEY 0));
    put t')
    (seqZ 0 TABLE_SIZE).

Definition occupied (e : Entry) : bool :=
  match key e with Key _ => true | _ => false end.

(** [key != DELETED_KEY && strcmp(key, k) == 0], for a key that is not
    [EMPTY_KEY]. *)
Definition matches (k : string) (e : Entry) : bool :=
  match key e with Key s => String.eqb s k | _ => false end.

(** The probing loop of [insert]: the index it stops at, [None] when it comes
    back to [originalIndex]. *)
Fixpoint insert_loop (fuel : nat) (t : table) (k : string) (originalIndex index : Z)
    : res (option Z) :=
  match fuel with
  | O => UB OutOfFuel
  | S fuel =>
      e ← aget t index;
      if occupied e && negb (matches k e) then
        let index := (index + 1) mod TABLE_SIZE in
        if index =? originalIndex then Ok None
        else insert_loop fuel t k originalIndex index
      else Ok (Some index)
  end.

Definition insert (k : string) (v : Z) : C table unit :=
  t ← get;
  r ← lift (insert_loop (Z.to_nat TABLE_SIZE) t k (hash k) (hash k));
  match r with
  | None => printf (k +:+ " can't be inserted as the table is full " +:+ nl)
  | Some index =>
      e ← lift (aget t index);
      t' ← lift (aset t index
                   (if occupied e then mkEntry (key e) v else mkEntry (Key k) v));
      put t' ;;
      printf (k +:+ " : " +:+ d v +:+ " is inserted successfully at the index " +:+
              d index +:+ " " +:+ nl)
  end.

(** The probing loop, the same in [search] and [delete]: the index of the
    first entry with the key before an empty one. *)
Fixpoint search_loop (fuel : nat) (t : table) (k : string) (originalIndex index : Z)
    : res (option Z) :=
  match fuel with
  | O => UB OutOfFuel
  | S fuel =>
      e ← aget t index;
      match key e with
      | EMPTY_KEY => Ok None
      | _ =>
          if matches k e then Ok (Some index)
          else
            let index := (index + 1) mod TABLE_SIZE in
            if index =? originalIndex then Ok None
            else search_loop fuel t k originalIndex index
      end
  end.

Definition search (k : string) : C table Z :=
  t ← get;
  r ← lift (search_loop (Z.to_nat TABLE_SIZE) t k (hash k) (hash k));
  match r with
  | Some index => e ← lift (aget t index); mret (value e)
  | None => mret (-1)
  end.

Definition delete (k : string) : C table unit :=
  t ← get;
  r ← lift (search_loop (Z.to_nat TABLE_SIZE) t k (hash k) (hash k));
  match r with
  | Some index =>
      e ← lift (aget t index);
      t' ← lift (aset t index (mkEntry DELETED_KEY (value e)));
      put t' ;;
      printf ("The key " +:+ k +:+ " at the index " +:+ d index +:+ " is deleted " +:+ nl)
  | None => printf ("The key " +:+ k +:+ " is not found " +:+ nl)
  end.

Definition display : C table unit :=
  for_each (λ i,
    t ← get;
    e ← lift (aget t i);
    match key e with
    | EMPTY_KEY => printf ("Index " +:+ d i +:+ " : EMPTY " +:+ nl)
    | DELETED_KEY => printf ("Index " +:+ d i +:+ " : DELETED " +:+ nl)
    | Key s =>
        printf ("Index " +:+ d i +:+ " : (" +:+ s +:+ ", " +:+ d (value e) +:+ ") " +:+ nl)
    end)
    (seqZ 0 TABLE_SIZE).

Definition main : C table unit :=
  init ;; display ;;
  insert "apple" 100 ;; display ;;
  insert "banana" 200 ;; display ;;
  insert "pineapple" 300 ;; display ;;
  insert "watermelon" 400 ;; display ;;
  insert "orange" 500 ;; display ;;
  x ← search "banana";
  printf ("Search 'Banana' : " +:+ d x +:+ " " +:+ nl) ;;
  y ← search "watermelon";
  printf ("Search 'Watermelon' : " +:+ d y +:+ " " +:+ nl) ;;
  delete "orange" ;; display ;;
  insert "strawberry" 600 ;; display.

(** The file-scope array starts zeroed, that is with [NULL] keys. *)
Definition hashTable : table := replicate 10 (mkEntry EMPTY_KEY 0).

End OpenAddressing.

(** ** [insert_search_delete_linearProbing.c] *)
Module LinearProbing.

Definition TABLE_SIZE : Z := 10.
Definition EMPTY : Z := -1.
Definition DELETED : Z := -2.

Record entry : Set := mkentry { key : Z; value : Z }.

Abbreviation table := (list entry).

(** C's remainder takes the sign of the key. *)
Definition hashFunction (k : Z) : Z := Z.rem k TABLE_SIZE.

Definition initTable : C table unit :=
  for_each (λ i,
    t ← get;
    t' ← lift (aset t i (mkentry EMPTY 0));
    put t')
    (seqZ 0 TABLE_SIZE).

(** The probing [for] loops: [stop] decides on the entry at [newIndex] what the
    body returns, [None] going on with the next one. *)
Fixpoint probe_for {A} (stop : Z → entry → option A) (t : table) (index : Z)
    (l : list Z) : res (option A) :=
  match l with
  | [] => Ok None
  | i :: l =>
      let newIndex := Z.rem (index + i) TABLE_SIZE in
      e ← aget t newIndex;
      match stop newIndex e with
      | Some a => Ok (Some a)
      | None => probe_for stop t index l
      end
  end.

Definition insert (k v : Z) : C table unit :=
  t ← get;
  r ← lift (probe_for (λ newIndex e,
              if (key e =? EMPTY) || (value e =? DELETED) then Some newIndex else None)
              t (hashFunction k) (seqZ 0 TABLE_SIZE));
  match r with
  | Some newIndex =>
      t' ← lift (aset t newIndex (mkentry k v));
      put t' ;;
      printf ("inserted (" +:+ d k +:+ " " +:+ d v +:+ ") at index " +:+ d newIndex +:+ nl)
  | None => printf "Not inserted!! hash is full!!"
  end.

Definition search (k : Z) : C table Z :=
  t ← get;
  r ← lift (probe_for (λ _ e,
              if key e =? -1 then Some (-1)
              else if key e =? k then Some (value e) else None)
              t (hashFunction k) (seqZ 0 TABLE_SIZE));
  mret (match r with Some v => v | None => -1 end).

Definition delete (k : Z) : C table unit :=
  t ← get;
  r ← lift (probe_for (λ newIndex e,
              if key e =? EMPTY then Some None
              else if key e =? k then Some (Some (newIndex, e)) else None)
              t (hashFunction k) (seqZ 0 TABLE_SIZE));
  match r with
  | Some (Some (newIndex, e)) =>
      t' ← lift (aset t newIndex (mkentry DELETED (value e)));
      put t' ;;
      printf ("Deleted key " +:+ d k +:+ " from index " +:+ d newIndex +:+ nl)
  | _ => mret tt
  end.

Definition display : C table unit :=
  printf (nl +:+ "Hash Table:" +:+ nl) ;;
  for_each (λ i,
    t ← get;
    e ← lift (aget t i);
    if 0 <=? key e then
      printf ("Index " +:+ d i +:+ " -> (key = " +:+ d (key e) +:+ " and value = " +:+
              d (value e) +:+ ")" +:+ nl)
    else printf ("Index " +:+ d i +:+ " -> EMPTY" +:+ nl))
    (seqZ 0 TABLE_SIZE).

Definition main : C table unit :=
  initTable ;;
  insert 5 50 ;;
  insert 15 150 ;;
  insert 25 250 ;;
  display ;;
  val ← search 15;
  (if val =? -1 then printf (nl +:+ "Key not found" +:+ nl)
   else printf (nl +:+ "found value=" +:+ d val +:+ nl)) ;;
  delete 15 ;;
  display.

(** The file-scope array starts zeroed. *)
Definition hashTable : table := replicate 10 (mkentry 0 0).

End LinearProbing.

(** ** The chained table is a finite map *)
Module ChainingSpec.
Import Chaining.

(** The chain of the nodes [l], ended by [e]. *)
Fixpoint ended (l : list (string * Z)) (e : chain) : chain :=
  match l with
  | [] => e
  | (k, v) :: l => Node k v (ended l e)
  end.

(** The table stores exactly the map [m]: every bucket is a null-terminated
    chain of distinct keys, those of [m] with its hash. *)
Definition bucket_ok (m : gmap string Z) (i : nat) (l : list (string * Z)) : Prop :=
  NoDup l.*1 ∧ ∀ k v, (k, v) ∈ l ↔ m !! k = Some v ∧ Z.to_nat (hash k) = i.

Definition represents (t : table) (m : gmap string Z) : Prop :=
  ∃ ls, t = (λ l, ended l Null) <$> ls ∧ length ls = 10%nat ∧
        ∀ i l, ls !! i = Some l → bucket_ok m i l.

Lemma chain_hash_range k : 0 ≤ hash k < 10.
Proof. unfold hash, TABLE_SIZE. apply Z.mod_pos_bound. lia. Qed.

Lemma eqb_ne (a b : string) : a ≠ b → String.eqb a b = false.
Proof. apply String.eqb_neq. Qed.

(** The bucket of a key. *)
Lemma represents_bucket t m k :
  represents t m →
  ∃ l, aget t (hash k) = Ok (ended l Null) ∧ bucket_ok m (Z.to_nat (hash k)) l.
Proof.
  intros (ls & -> & Hlen & Hb). pose proof (chain_hash_range k).
  destruct (lookup_lt_is_Some_2 ls (Z.to_nat (hash k))) as [l Hl]; [lia|].
  exists l. split; [|by apply Hb].
  apply aget_Z; [lia|]. by rewrite list_lookup_fmap, Hl.
Qed.

(** Storing a new chain in the bucket of a key. *)
Lemma represents_update t m m' k l' :
  represents t m →
  bucket_ok m' (Z.to_nat (hash k)) l' →
  (∀ k', hash k' ≠ hash k → m' !! k' = m !! k') →
  ∃ t', aset t (hash k) (ended l' Null) = Ok t' ∧ represents t' m'.
Proof.
  intros (ls & -> & Hlen & Hb) Hl' Hm. pose proof (chain_hash_range k).
  rewrite aset_lt by (rewrite length_fmap; lia). eexists. split; [done|].
  exists (<[Z.to_nat (hash k) := l']> ls).
  rewrite list_fmap_insert. split; [done|]. split; [by rewrite length_insert|].
  intros i l [(<- & <- & _)|[Hne Hi]]%list_lookup_insert_Some; [done|].
  destruct (Hb _ _ Hi) as [Hnd Hel]. split; [done|]. intros k' v.
  rewrite Hel. split; intros [Hk <-]; (split; [|done]).
  - rewrite Hm; [done|]. congruence.
  - rewrite <- Hm; [done|]. congruence.
Qed.

(** *** Walks over a chain *)

Lemma search_walk_spec m k l :
  bucket_ok m (Z.to_nat (hash k)) l →
  search_walk (ended l Null) k = Ok (default (-1) (m !! k)).
Proof.
  intros [Hnd Hel].
  assert (∀ l', NoDup l'.*1 →
    search_walk (ended l' Null) k =
    Ok (match list_find (λ p, p.1 = k) l' with Some (_, p) => p.2 | None => -1 end))
    as Hs.
  { clear. induction l' as [|[a v] l' IH]; [done|]. intros [_ Hnd]%NoDup_cons.
    simpl. destruct (String.eqb_spec a k) as [->|Hne].
    - by rewrite decide_True.
    - rewrite decide_False, IH by done.
      by destruct (list_find _ l') as [[? ?]|]. }
  rewrite Hs by done. f_equal.
  destruct (list_find _ l) as [[i [a v]]|] eqn:Hf; simpl.
  - apply list_find_Some in Hf as (Hi & Ha & _). simpl in Ha. subst a.
    apply list_elem_of_lookup_2, Hel in Hi as [-> _]. done.
  - apply list_find_None in Hf. destruct (m !! k) as [v|] eqn:Hk; [|done].
    assert ((k, v) ∈ l) as Hin by (by apply Hel).
    rewrite Forall_forall in Hf. by destruct (Hf _ Hin).
Qed.

Lemma delete_walk_absent k l :
  k ∉ l.*1 → delete_walk (ended l Null) k = Ok None.
Proof.
  induction l as [|[a v] l IH]; [done|]. simpl. intros [Hne Hk]%not_elem_of_cons.
  rewrite eqb_ne by auto. by rewrite IH.
Qed.

Lemma delete_walk_present k v l1 l2 :
  k ∉ l1.*1 →
  delete_walk (ended (l1 ++ (k, v) :: l2) Null) k = Ok (Some (ended (l1 ++ l2) Null)).
Proof.
  induction l1 as [|[a w] l IH]; simpl.
  - by rewrite String.eqb_refl.
  - intros [Hne Hk]%not_elem_of_cons. rewrite eqb_ne by auto. by rewrite IH.
Qed.

(** A chain with one more node in front of a non-empty one. *)
Lemma insert_walk_cons a w l k v live :
  l ≠ [] → a ≠ k →
  insert_walk (ended ((a, w) :: l) Null) k v live =
  ('(c, p) ← insert_walk (ended l Null) k v live; mret (Node a w c, p)).
Proof.
  intros Hl Hne. destruct l as [|[b x] l]; [done|]. simpl.
  by rewrite (eqb_ne a k Hne).
Qed.

Lemma insert_walk_tail k v l live :
  l ≠ [] → k ∉ l.*1 →
  insert_walk (ended l Null) k v live =
  Ok (if live then ended (l ++ [(k, v)]) Null else ended l Dangling, true).
Proof.
  induction l as [|[a w] l IH]; [done|]. intros _ [Hne Hk]%not_elem_of_cons.
  destruct (decide (l = [])) as [->|Hl].
  - simpl. rewrite eqb_ne by auto. by destruct live.
  - rewrite insert_walk_cons, IH by auto. by destruct live.
Qed.

Lemma insert_walk_last k v w l :
  k ∉ l.*1 →
  insert_walk (ended (l ++ [(k, w)]) Null) k v true =
  Ok (ended (l ++ [(k, v)]) Null, false).
Proof.
  induction l as [|[a x] l IH].
  - intros _. simpl. by rewrite String.eqb_refl.
  - intros [Hne Hk]%not_elem_of_cons. rewrite <- app_comm_cons.
    rewrite insert_walk_cons, IH by (auto; by destruct l). done.
Qed.

Lemma insert_walk_middle k v w l1 l2 :
  k ∉ l1.*1 → k ∉ l2.*1 → l2 ≠ [] →
  insert_walk (ended (l1 ++ (k, w) :: l2) Null) k v true =
  Ok (ended (l1 ++ (k, v) :: l2) Dangling, true).
Proof.
  intros Hk1 Hk2 Hl2. induction l1 as [|[a x] l IH].
  - simpl. destruct l2 as [|[b y] l2]; [done|]. simpl ended at 1.
    rewrite String.eqb_refl.
    change (Node b y (ended l2 Null)) with (ended ((b, y) :: l2) Null).
    by rewrite insert_walk_tail.
  - apply not_elem_of_cons in Hk1 as [Hne Hk1]. rewrite <- app_comm_cons.
    rewrite insert_walk_cons, IH by (auto; by destruct l). done.
Qed.

Lemma search_walk_dangling k l :
  k ∉ l.*1 → search_walk (ended l Dangling) k = UB UseAfterFree.
Proof.
  induction l as [|[a v] l IH]; [done|]. simpl. intros [Hne Hk]%not_elem_of_cons.
  rewrite eqb_ne by auto. by apply IH.
Qed.

(** *** Buckets of an updated map *)

Lemma bucket_ok_delete m k l1 v l2 :
  bucket_ok m (Z.to_nat (hash k)) (l1 ++ (k, v) :: l2) →
  bucket_ok (base.delete k m) (Z.to_nat (hash k)) (l1 ++ l2).
Proof.
  intros [Hnd Hel]. rewrite fmap_app, fmap_cons in Hnd. simpl in Hnd.
  assert (k ∉ (l1 ++ l2).*1) as Hk.
  { rewrite fmap_app. apply NoDup_app in Hnd as (_ & H1 & [? _]%NoDup_cons).
    rewrite elem_of_app. intros [Hx|Hx]; [|done].
    apply (H1 k Hx). by left. }
  split.
  - rewrite fmap_app. apply NoDup_app in Hnd as (? & H1 & [? ?]%NoDup_cons).
    apply NoDup_app. repeat split; auto. intros x Hx ?.
    apply (H1 x Hx). by right.
  - intros k' v'. rewrite lookup_delete_Some. split.
    + intros Hin. destruct (proj1 (Hel k' v')) as [? ?]; [set_solver|].
      repeat split; auto. intros <-. apply Hk.
      apply list_elem_of_fmap. by exists (k, v').
    + intros [[Hne Hm] Hh]. assert ((k', v') ∈ l1 ++ (k, v) :: l2) as Hin by (by apply Hel).
      apply elem_of_app in Hin as [?|[Heq|?]%elem_of_cons]; [set_solver| |set_solver].
      by injection Heq as <- ->.
Qed.

Lemma bucket_ok_insert m k v l :
  m !! k = None →
  bucket_ok m (Z.to_nat (hash k)) l →
  bucket_ok (<[k := v]> m) (Z.to_nat (hash k)) (l ++ [(k, v)]).
Proof.
  intros Hm [Hnd Hel].
  assert (k ∉ l.*1) as Hk.
  { intros ([a w] & Ha & Hin)%list_elem_of_fmap. simpl in Ha. subst a.
    apply Hel in Hin as [? _]. congruence. }
  split.
  - rewrite fmap_app. apply NoDup_app. repeat split; [done| |apply NoDup_singleton].
    intros x Hx ->%list_elem_of_singleton. done.
  - intros k' v'. rewrite elem_of_app, list_elem_of_singleton, Hel, lookup_insert_Some.
    split; [intros [[? ?]|[= -> ->]]; auto|].
    + split; [|done]. right. split; [|done]. intros <-. congruence.
    + intros [[[-> ->]|[? ?]] ?]; auto.
Qed.

Lemma bucket_ok_replace m k v w l :
  bucket_ok m (Z.to_nat (hash k)) (l ++ [(k, w)]) →
  bucket_ok (<[k := v]> m) (Z.to_nat (hash k)) (l ++ [(k, v)]).
Proof.
  intros Hb. pose proof (bucket_ok_delete _ _ _ _ _ Hb) as Hd.
  rewrite app_nil_r in Hd. rewrite <- insert_delete_eq.
  apply bucket_ok_insert; [apply lookup_delete_eq|done].
Qed.

(** A stored key splits its chain. *)
Lemma bucket_split m k v l :
  bucket_ok m (Z.to_nat (hash k)) l → m !! k = Some v →
  ∃ l1 l2, l = l1 ++ (k, v) :: l2 ∧ (k ∉ l1.*1) ∧ k ∉ l2.*1.
Proof.
  intros [Hnd Hel] Hk.
  assert ((k, v) ∈ l) as (l1 & l2 & ->)%list_elem_of_split by (by apply Hel).
  exists l1, l2. rewrite fmap_app, fmap_cons in Hnd. simpl in Hnd.
  apply NoDup_app in Hnd as (_ & H1 & [? _]%NoDup_cons).
  split; [done|]. split; [|done]. intros Hx. apply (H1 k Hx). by left.
Qed.

Lemma bucket_absent m k l :
  bucket_ok m (Z.to_nat (hash k)) l → m !! k = None → k ∉ l.*1.
Proof.
  intros [_ Hel] Hk ([a w] & Ha & Hin)%list_elem_of_fmap. simpl in Ha. subst a.
  apply Hel in Hin as [? _]. congruence.
Qed.

End ChainingSpec.

(** What [insert] prints. *)
Definition inserted_line (k : string) (v : Z) : string :=
  "(" +:+ k +:+ ", " +:+ d v +:+ ") is successfully inserted at the index " +:+
  d (Chaining.hash k) +:+ " " +:+ nl.

Section Chained.
Import Chaining ChainingSpec.

Lemma represents_insert t m k v :
  represents t m → (strlen k < 50)%nat → m !! k = None →
  ∃ t', insert k v t = Ok (tt, t', [inserted_line k v]) ∧ represents t' (<[k := v]> m).
Proof.
  intros Hr Hlen Hk. destruct (represents_bucket t m k Hr) as (l & Hget & Hb).
  unfold insert. c_run.
  destruct (Z.leb_spec 50 (Z.of_nat (strlen k))); [lia|]. c_run. rewrite Hget.
  destruct (represents_update t m (<[k := v]> m) k (l ++ [(k, v)]) Hr)
    as (t' & Hset & Ht'); [by apply bucket_ok_insert| |].
  { intros k' ?. rewrite lookup_insert_ne; congruence. }
  exists t'. split; [|done].
  assert (insert_chain (ended l Null) k v = Ok (ended (l ++ [(k, v)]) Null, true)) as ->.
  { destruct l as [|[a w] l']; [done|].
    apply (insert_walk_tail k v ((a, w) :: l') true); [done|].
    by eapply bucket_absent. }
  c_run. by rewrite Hset.
Qed.

Lemma represents_empty : represents hashTable ∅.
Proof.
  exists (replicate 10 []). split; [done|]. split; [done|].
  intros i l [-> _]%lookup_replicate. split; [constructor|].
  intros k v. rewrite lookup_empty. split; [intros ?%elem_of_nil|intros [? _]]; done.
Qed.

(** Two keys in one bucket. *)
Definition collided : table := <[7%nat := Node "a" 1 (Node "k" 2 Null)]> hashTable.

Lemma represents_collided : represents collided (<["k" := 2]> (<["a" := 1]> ∅)).
Proof.
  destruct (represents_insert hashTable ∅ "a" 1) as (t1 & Ht1 & Hr1);
    [apply represents_empty|vm_compute; repeat constructor|done|].
  destruct (represents_insert t1 (<["a" := 1]> ∅) "k" 2) as (t2 & Ht2 & Hr2);
    [done|vm_compute; repeat constructor|done|].
  vm_compute in Ht1. injection Ht1 as <-. vm_compute in Ht2. injection Ht2 as <-. done.
Qed.

(** C37: the chained table stores a finite map: on a table that represents [m],
    [search] returns the value of the key or -1, [delete] never touches freed
    memory and leaves a table that represents [m] without the key, and
    [insert] of a key that is absent, with less than 50 characters, leaves one
    that represents [m] with the key added. *)
Theorem chaining_refines_map (t : table) (m : gmap string Z) (k : string) (v : Z) :
  represents t m →
  search k t = Ok (default (-1) (m !! k), t, []) ∧
  (∃ t' o, delete k t = Ok (tt, t', o) ∧ represents t' (base.delete k m)) ∧
  ((strlen k < 50)%nat → m !! k = None →
   ∃ t', insert k v t = Ok (tt, t', [inserted_line k v]) ∧ represents t' (<[k := v]> m)).
Proof.
  intros Hr. destruct (represents_bucket t m k Hr) as (l & Hget & Hb). split; [|split].
  - unfold search. c_run. rewrite Hget. by rewrite (search_walk_spec _ _ _ Hb).
  - unfold delete. c_run. rewrite Hget. destruct (m !! k) as [w|] eqn:Hk.
    + destruct (bucket_split _ _ _ _ Hb Hk) as (l1 & l2 & -> & ? & ?).
      rewrite delete_walk_present by done.
      destruct (represents_update t m (base.delete k m) k (l1 ++ l2) Hr)
        as (t' & -> & ?); [by eapply bucket_ok_delete| |by eauto].
      intros k' ?. rewrite lookup_delete_ne; congruence.
    + rewrite delete_walk_absent by (by eapply bucket_absent).
      rewrite delete_id by done. eauto.
  - intros Hlen Hk. by apply represents_insert.
Qed.

Lemma chaining_refines_map_witness :
  ∃ t, insert "apple" 100 hashTable = Ok (tt, t, [inserted_line "apple" 100]) ∧
       represents t (<["apple" := 100]> ∅).
Proof.
  refine (proj2 (proj2 (chaining_refines_map hashTable ∅ "apple" 100 represents_empty)) _ eq_refl).
  vm_compute. repeat constructor.
Defined.

(** What [insert] does to a key that is already stored: when its node is
    the last of its chain the value is updated in place (and nothing is
    printed); when it is not, the new node is freed and then linked at the
    end, so that a later [search] of an absent key in that bucket reads freed
    memory. *)
Theorem chaining_insert_existing (t : table) (m : gmap string Z) (k : string) (v w : Z) :
  represents t m → (strlen k < 50)%nat → m !! k = Some w →
  ∃ l1 l2, aget t (hash k) = Ok (ended (l1 ++ (k, w) :: l2) Null) ∧
    (l2 = [] → ∃ t', insert k v t = Ok (tt, t', []) ∧ represents t' (<[k := v]> m)) ∧
    (l2 ≠ [] → ∃ t', insert k v t = Ok (tt, t', [inserted_line k v]) ∧
       ∀ k', hash k' = hash k → m !! k' = None → search k' t' = UB UseAfterFree).
Proof.
  intros Hr Hlen Hk. destruct (represents_bucket t m k Hr) as (l & Hget & Hb).
  destruct (bucket_split _ _ _ _ Hb Hk) as (l1 & l2 & -> & Hk1 & Hk2).
  exists l1, l2. split; [done|]. pose proof (chain_hash_range k) as Hrange.
  assert (∀ c p, insert_walk (ended (l1 ++ (k, w) :: l2) Null) k v true = Ok (c, p) →
    insert k v t =
    match aset t (hash k) c with
    | Ok t' => Ok (tt, t', if p then [inserted_line k v] else [])
    | UB e => UB e
    end) as Hins.
  { intros c p Hw. unfold insert. c_run.
    destruct (Z.leb_spec 50 (Z.of_nat (strlen k))); [lia|]. c_run. rewrite Hget.
    assert (insert_chain (ended (l1 ++ (k, w) :: l2) Null) k v = Ok (c, p)) as ->
      by (by destruct l1 as [|[]]).
    c_run. destruct (aset t (hash k) c); [|done]. by destruct p. }
  split.
  - intros ->. rewrite (Hins _ _ (insert_walk_last k v w l1 Hk1)).
    destruct (represents_update t m (<[k := v]> m) k (l1 ++ [(k, v)]) Hr)
      as (t' & -> & Ht'); [by eapply bucket_ok_replace| |by eauto].
    intros k' ?. rewrite lookup_insert_ne; congruence.
  - intros Hl2. rewrite (Hins _ _ (insert_walk_middle k v w l1 l2 Hk1 Hk2 Hl2)).
    destruct Hr as (ls & -> & Hls & Hbs).
    rewrite aset_lt by (rewrite length_fmap; lia). eexists. split; [done|].
    intros k' Hh Hm. unfold search. c_run. rewrite Hh.
    rewrite (aget_Z _ _ (ended (l1 ++ (k, v) :: l2) Dangling)).
    + rewrite search_walk_dangling; [done|].
      rewrite <- Hh in Hb. apply (bucket_absent _ _ _ Hb) in Hm.
      by rewrite fmap_app, fmap_cons in Hm |- *.
    + lia.
    + apply list_lookup_insert_eq. rewrite length_fmap. lia.
Qed.

Lemma chaining_insert_existing_witness :
  ∃ t, insert "a" 3 collided = Ok (tt, t, [inserted_line "a" 3]) ∧
       search "u" t = UB UseAfterFree.
Proof.
  destruct (chaining_insert_existing collided (<["k" := 2]> (<["a" := 1]> ∅)) "a" 3 1)
    as (l1 & l2 & Hget & _ & Hmid);
    [exact represents_collided|vm_compute; repeat constructor|reflexivity|].
  assert (l2 ≠ []) as Hl2.
  { intros ->. destruct l1 as [|p [|q l1]]; vm_compute in Hget;
      [discriminate|destruct p; discriminate|destruct p, q, l1 as [|[]]; discriminate]. }
  destruct (Hmid Hl2) as (t & Hins & Hs). exists t. split; [done|].
  apply Hs; reflexivity.
Defined.

End Chained.

(** ** Probing *)
Module OpenSpec.
Import OpenAddressing.

(** The index of probe [i] from [h], and the entry there. *)
Definition pos (h : Z) (i : nat) : Z := (h + Z.of_nat i) mod 10.
Definition ent (t : table) (h : Z) (i : nat) : option Entry := t !! Z.to_nat (pos h i).

(** The first of the probes [i], ..., [i+n-1] whose entry satisfies [P]. *)
Fixpoint scan (P : Entry → bool) (t : table) (h : Z) (i n : nat) : option nat :=
  match n with
  | O => None
  | S n =>
      match ent t h i with
      | Some e => if P e then Some i else scan P t h (S i) n
      | None => None
      end
  end.

Definition stop_insert (k : string) (e : Entry) : bool :=
  negb (occupied e && negb (matches k e)).

Definition stop_search (k : string) (e : Entry) : bool :=
  match key e with EMPTY_KEY => true | _ => matches k e end.

(** [k] is found with value [v] by probing from its hash. *)
Definition found (t : table) (k : string) (v : Z) : Prop :=
  ∃ j, (j < 10)%nat ∧ ent t (hash k) j = Some (mkEntry (Key k) v) ∧
       ∀ i e, (i < j)%nat → ent t (hash k) i = Some e → stop_search k e = false.

(** No empty entry separates a key from its hash: what makes it findable. *)
Definition reachable (t : table) : Prop :=
  ∀ k v j, (j < 10)%nat → ent t (hash k) j = Some (mkEntry (Key k) v) →
  ∀ i e, (i < j)%nat → ent t (hash k) i = Some e → key e ≠ EMPTY_KEY.

(** At most one entry per key. *)
Definition unique (t : table) : Prop :=
  ∀ p q k v w, t !! p = Some (mkEntry (Key k) v) → t !! q = Some (mkEntry (Key k) w) → p = q.

Lemma pos_range h i : 0 ≤ pos h i < 10.
Proof. apply Z.mod_pos_bound. lia. Qed.

Lemma pos_succ h i : (pos h i + 1) mod 10 = pos h (S i).
Proof. unfold pos. rewrite Z.add_mod_idemp_l by lia. f_equal. lia. Qed.

Lemma pos_zero h : 0 ≤ h < 10 → pos h 0 = h.
Proof. intros. unfold pos. rewrite Z.mod_small; lia. Qed.

Lemma pos_inj h i j : (i < 10)%nat → (j < 10)%nat → pos h i = pos h j → i = j.
Proof. intros. unfold pos in *. Z.div_mod_to_equations. lia. Qed.

(** The probes wrap around to the first one after ten steps only. *)
Lemma pos_wrap h i : 0 ≤ h < 10 → (0 < i ≤ 10)%nat → pos h i = h ↔ i = 10%nat.
Proof. intros. unfold pos. Z.div_mod_to_equations. lia. Qed.

Lemma pos_surj h p : (p < 10)%nat → ∃ i, (i < 10)%nat ∧ Z.to_nat (pos h i) = p.
Proof.
  intros Hp. exists (Z.to_nat ((Z.of_nat p - h) mod 10)).
  pose proof (Z.mod_pos_bound (Z.of_nat p - h) 10).
  split; [lia|]. unfold pos. rewrite Z2Nat.id by lia.
  rewrite Z.add_mod_idemp_r by lia.
  replace (h + (Z.of_nat p - h)) with (Z.of_nat p) by lia.
  rewrite Z.mod_small by lia. lia.
Qed.

Lemma ent_Some t h i : length t = 10%nat → ∃ e, ent t h i = Some e.
Proof.
  intros Hlen. pose proof (pos_range h i). unfold ent.
  apply lookup_lt_is_Some_2. lia.
Qed.

Lemma aget_ent t h i e : ent t h i = Some e → aget t (pos h i) = Ok e.
Proof. intros He. apply aget_Z; [apply pos_range|done]. Qed.

Lemma length_update (t : table) (p : nat) (e : Entry) : length (<[p := e]> t) = length t.
Proof. apply length_insert. Qed.

(** Entries after an update. *)
Lemma ent_update t h j e' h' i :
  length t = 10%nat →
  ent (<[Z.to_nat (pos h j) := e']> t) h' i =
  (if decide (pos h' i = pos h j) then Some e' else ent t h' i).
Proof.
  intros Hlen. pose proof (pos_range h j). pose proof (pos_range h' i).
  unfold ent. case_decide as Heq.
  - rewrite Heq. apply list_lookup_insert_eq. lia.
  - apply list_lookup_insert_ne. lia.
Qed.

Lemma scan_Some P t h i n j :
  scan P t h i n = Some j →
  (i ≤ j < i + n)%nat ∧ (∃ e, ent t h j = Some e ∧ P e = true) ∧
  ∀ i' e, (i ≤ i' < j)%nat → ent t h i' = Some e → P e = false.
Proof.
  revert i. induction n as [|n IH]; intros i Hs; [done|]. simpl in Hs.
  destruct (ent t h i) as [e|] eqn:He; [|done]. destruct (P e) eqn:HP.
  - injection Hs as <-. split; [lia|]. split; [eauto|]. intros. lia.
  - destruct (IH _ Hs) as (? & Hj & Hlt). split; [lia|]. split; [done|].
    intros i' e' Hi' He'. destruct (decide (i' = i)) as [->|].
    + congruence.
    + eapply Hlt; [|done]. lia.
Qed.

Lemma scan_None P t h i n i' e :
  length t = 10%nat → scan P t h i n = None → (i ≤ i' < i + n)%nat →
  ent t h i' = Some e → P e = false.
Proof.
  intros Hlen. revert i. induction n as [|n IH]; intros i Hs Hi He; [lia|].
  simpl in Hs. destruct (ent_Some t h i Hlen) as [e0 He0]. rewrite He0 in Hs.
  destruct (P e0) eqn:HP; [done|]. destruct (decide (i' = i)) as [->|].
  - congruence.
  - eapply (IH (S i)); eauto. lia.
Qed.

Lemma matches_true k e : matches k e = true ↔ key e = Key k.
Proof.
  unfold matches. destruct (key e) as [| |s]; [done..|].
  rewrite String.eqb_eq. split; [by intros ->|by intros [= ->]].
Qed.

(** The loops of the source are scans of ten probes: the fuel is enough. *)
Lemma insert_loop_scan t k h i n :
  length t = 10%nat → 0 ≤ h < 10 → (i + n = 10)%nat → (0 < n)%nat →
  insert_loop n t k h (pos h i) = Ok (pos h <$> scan (stop_insert k) t h i n).
Proof.
  intros Hlen Hh. revert i. induction n as [|n IH]; intros i Hi Hn; [lia|]. simpl.
  destruct (ent_Some t h i Hlen) as [e He]. rewrite (aget_ent _ _ _ _ He), He. c_run.
  unfold stop_insert. destruct (occupied e && negb (matches k e)); [|done]. simpl.
  unfold TABLE_SIZE. rewrite pos_succ.
  destruct (Z.eqb_spec (pos h (S i)) h) as [Heq|Hne].
  - apply pos_wrap in Heq; [|done|lia]. by replace n with O by lia.
  - apply IH; [lia|]. destruct n; [|lia]. exfalso. apply Hne, pos_wrap; [done|lia|lia].
Qed.

Lemma search_loop_scan t k h i n :
  length t = 10%nat → 0 ≤ h < 10 → (i + n = 10)%nat → (0 < n)%nat →
  search_loop n t k h (pos h i) =
  Ok (match scan (stop_search k) t h i n with
      | Some j => match ent t h j with
                  | Some e => if matches k e then Some (pos h j) else None
                  | None => None
                  end
      | None => None
      end).
Proof.
  intros Hlen Hh. revert i. induction n as [|n IH]; intros i Hi Hn; [lia|]. simpl.
  destruct (ent_Some t h i Hlen) as [e He]. rewrite (aget_ent _ _ _ _ He), He. c_run.
  unfold stop_search at 1.
  assert (
    (if (pos h i + 1) mod TABLE_SIZE =? h then Ok None
     else search_loop n t k h ((pos h i + 1) mod TABLE_SIZE)) =
    Ok (match scan (stop_search k) t h (S i) n with
      | Some j => match ent t h j with
                  | Some e => if matches k e then Some (pos h j) else None
                  | None => None
                  end
      | None => None
      end)) as Hgo.
  { unfold TABLE_SIZE. rewrite pos_succ.
    destruct (Z.eqb_spec (pos h (S i)) h) as [Heq|Hne].
    - apply pos_wrap in Heq; [|done|lia]. by replace n with O by lia.
    - apply IH; [lia|]. destruct n; [|lia]. exfalso. apply Hne, pos_wrap; [done|lia|lia]. }
  destruct (matches k e) eqn:Hm.
  - apply matches_true in Hm as Hk. rewrite Hk, He, Hm. done.
  - destruct (key e) as [| |s] eqn:Hk; [|exact Hgo..]. by rewrite He, Hm.
Qed.

#[global] Arguments insert_loop : simpl never.
#[global] Arguments search_loop : simpl never.

Lemma open_hash_range k : 0 ≤ hash k < 10.
Proof. unfold hash, TABLE_SIZE. apply Z.mod_pos_bound. lia. Qed.

(** A search either finds the key or returns -1. *)
Lemma search_loop_found t k :
  length t = 10%nat →
  (∃ j v, found t k v ∧ (j < 10)%nat ∧ ent t (hash k) j = Some (mkEntry (Key k) v) ∧
          search_loop 10 t k (hash k) (hash k) = Ok (Some (pos (hash k) j))) ∨
  ((∀ v, ¬ found t k v) ∧ search_loop 10 t k (hash k) (hash k) = Ok None).
Proof.
  intros Hlen. pose proof (search_loop_scan t k (hash k) 0 10 Hlen (open_hash_range k)
    ltac:(lia) ltac:(lia)) as Hs. rewrite pos_zero in Hs by apply open_hash_range.
  rewrite Hs. destruct (scan _ _ _ _ _) as [j|] eqn:Hsc.
  - apply scan_Some in Hsc as (Hj & (e & He & HP) & Hlt). rewrite He.
    destruct (matches k e) eqn:Hm.
    + left. apply matches_true in Hm. destruct e as [ke v]. simpl in Hm. subst ke.
      exists j, v. split; [|repeat split; auto; lia].
      exists j. split; [lia|]. split; [done|]. intros i e Hi. apply Hlt. lia.
    + right. split; [|done]. intros v (i & Hi & Hf & Hbefore).
      assert (key e = EMPTY_KEY) as Hemp.
      { unfold stop_search in HP. destruct (key e); congruence. }
      destruct (decide (i < j)%nat).
      * assert (stop_search k (mkEntry (Key k) v) = false) as Hst
          by (apply (Hlt i _ ltac:(lia) Hf)).
        unfold stop_search, matches in Hst. simpl in Hst. by rewrite String.eqb_refl in Hst.
      * destruct (decide (i = j)) as [->|].
        -- rewrite Hf in He. injection He as <-. done.
        -- specialize (Hbefore j e ltac:(lia) He). congruence.
  - right. split; [|done]. intros v (i & Hi & Hf & _).
    assert (stop_search k (mkEntry (Key k) v) = false) as Hst
      by (eapply (scan_None _ t (hash k) 0 10 i); [done|done|lia|done]).
    unfold stop_search, matches in Hst. simpl in Hst. by rewrite String.eqb_refl in Hst.
Qed.

(** Overwriting an entry, never with an empty one: keys that neither the old
    nor the new entry holds are found as before. *)
Lemma found_update_other t h j e e' k v :
  length t = 10%nat → reachable t → ent t h j = Some e →
  key e ≠ Key k → key e' ≠ Key k → key e' ≠ EMPTY_KEY →
  found (<[Z.to_nat (pos h j) := e']> t) k v ↔ found t k v.
Proof.
  intros Hlen Hr He Hk Hk' Hne.
  assert (stop_search k e' = false) as Hstop.
  { unfold stop_search. destruct (matches k e') eqn:Hm.
    - by apply matches_true in Hm.
    - by destruct (key e'). }
  assert (∀ i, pos (hash k) i = pos h j → ent t (hash k) i = Some e) as Hsame.
  { intros i Hi. unfold ent in *. by rewrite Hi. }
  split; intros (i & Hi & Hf & Hlt); exists i; (split; [done|]).
  - rewrite ent_update in Hf by done. case_decide as Hp.
    { injection Hf as Hf. destruct Hk'. by rewrite Hf. }
    split; [done|]. intros i0 e0 Hi0 He0.
    destruct (decide (pos (hash k) i0 = pos h j)) as [Hp0|Hp0].
    + assert (e0 = e) as -> by (rewrite (Hsame _ Hp0) in He0; congruence).
      pose proof (Hr k v i Hi Hf i0 e Hi0 He0) as Hemp.
      unfold stop_search. destruct (matches k e) eqn:Hm.
      * by apply matches_true in Hm.
      * by destruct (key e).
    + apply (Hlt i0); [done|]. by rewrite ent_update, decide_False.
  - assert (pos (hash k) i ≠ pos h j) as Hp.
    { intros Hp. rewrite (Hsame _ Hp) in Hf. injection Hf as ->. done. }
    split; [by rewrite ent_update, decide_False|]. intros i0 e0 Hi0.
    rewrite ent_update by done. case_decide; [by intros [= <-]|]. by apply Hlt.
Qed.

Lemma reachable_update t h j e' :
  length t = 10%nat → reachable t → key e' ≠ EMPTY_KEY →
  (∀ k i, key e' = Key k → (i < 10)%nat → pos (hash k) i = pos h j →
     ∀ i0 e0, (i0 < i)%nat → ent t (hash k) i0 = Some e0 → key e0 ≠ EMPTY_KEY) →
  reachable (<[Z.to_nat (pos h j) := e']> t).
Proof.
  intros Hlen Hr Hne Hnew k v i Hi. rewrite ent_update by done.
  case_decide as Hp; intros Hf i0 e0 Hi0; rewrite ent_update by done;
    case_decide; try (by intros [= <-]); intros He0.
  - injection Hf as ->. by eapply (Hnew k i).
  - by eapply (Hr k v i).
Qed.

Lemma found_fun t k v w : found t k v → found t k w → v = w.
Proof.
  intros (i & Hi & Hf & Hlt) (j & Hj & Hg & Hlt').
  assert (∀ x, stop_search k (mkEntry (Key k) x) = true) as Hst
    by (intros x; unfold stop_search, matches; simpl; apply String.eqb_refl).
  destruct (lt_eq_lt_dec i j) as [[?| ->]|?].
  - specialize (Hlt' i _ ltac:(done) Hf). by rewrite Hst in Hlt'.
  - congruence.
  - specialize (Hlt j _ ltac:(done) Hg). by rewrite Hst in Hlt.
Qed.

Lemma open_search_found t k v : length t = 10%nat → found t k v → search k t = Ok (v, t, []).
Proof.
  intros Hlen Hf. unfold search. c_run. change (Z.to_nat TABLE_SIZE) with 10%nat.
  destruct (search_loop_found t k Hlen) as [(j & w & Hw & Hj & He & ->)|[Hno _]].
  - rewrite (aget_ent _ _ _ _ He). by rewrite (found_fun _ _ _ _ Hw Hf).
  - by destruct (Hno v).
Qed.

Lemma search_absent t k :
  length t = 10%nat → (∀ v, ¬ found t k v) → search k t = Ok (-1, t, []).
Proof.
  intros Hlen Hno. unfold search. c_run. change (Z.to_nat TABLE_SIZE) with 10%nat.
  destruct (search_loop_found t k Hlen) as [(j & w & Hw & _)|[_ ->]]; [|done].
  by destruct (Hno w).
Qed.

(** Two tables in which a key is found alike answer its searches alike. *)
Lemma search_same t t' k :
  length t = 10%nat → length t' = 10%nat → (∀ v, found t' k v ↔ found t k v) →
  ∃ v, search k t = Ok (v, t, []) ∧ search k t' = Ok (v, t', []).
Proof.
  intros Hlen Hlen' Hiff.
  destruct (search_loop_found t k Hlen) as [(j & v & Hf & _)|[Hno _]].
  - exists v. split; apply open_search_found; auto. by apply Hiff.
  - exists (-1). split; apply search_absent; auto. intros v Hf. by apply (Hno v), Hiff.
Qed.

(** Where [insert] stops. *)
Lemma insert_loop_stop t k :
  length t = 10%nat →
  (∃ j e, (j < 10)%nat ∧ ent t (hash k) j = Some e ∧ (occupied e = true → key e = Key k) ∧
     (∀ i e0, (i < j)%nat → ent t (hash k) i = Some e0 →
        ∃ s, key e0 = Key s ∧ s ≠ k) ∧
     insert_loop 10 t k (hash k) (hash k) = Ok (Some (pos (hash k) j))) ∨
  (Forall (λ e, ∃ s, key e = Key s ∧ s ≠ k) t ∧
   insert_loop 10 t k (hash k) (hash k) = Ok None).
Proof.
  intros Hlen. pose proof (insert_loop_scan t k (hash k) 0 10 Hlen (open_hash_range k)
    ltac:(lia) ltac:(lia)) as Hs. rewrite pos_zero in Hs by apply open_hash_range. rewrite Hs.
  assert (∀ e, stop_insert k e = false → ∃ s, key e = Key s ∧ s ≠ k) as Hother.
  { intros e. unfold stop_insert, occupied, matches. destruct (key e) as [| |s]; [done..|].
    destruct (String.eqb_spec s k); [done|]. eauto. }
  destruct (scan _ _ _ _ _) as [j|] eqn:Hsc.
  - left. apply scan_Some in Hsc as (Hj & (e & He & HP) & Hlt). exists j, e.
    split; [lia|]. split; [done|]. split; [|split; [|done]].
    + intros Ho. unfold stop_insert in HP. rewrite Ho in HP. simpl in HP.
      destruct (matches k e) eqn:Hm; [by apply matches_true|done].
    + intros i e0 Hi He0. apply Hother. eapply Hlt; [|done]. lia.
  - right. split; [|done]. apply Forall_lookup. intros p e Hp. apply Hother.
    destruct (pos_surj (hash k) p) as (i & Hi & Hpi);
      [apply lookup_lt_Some in Hp; lia|].
    eapply (scan_None _ t (hash k) 0 10 i); [done|done|lia|]. unfold ent. by rewrite Hpi.
Qed.

End OpenSpec.

Section OpenAddressed.
Import OpenAddressing OpenSpec.

(** [insert] into a table whose keys are reachable: the probing loop ends
    within the table; every other key is searched as before; either the key is
    then found with its new value, or all ten entries hold other keys and the
    table is unchanged; and the keys of the new table are reachable. *)
Theorem open_insert_correct (t : table) (k : string) (v : Z) :
  length t = 10%nat → reachable t →
  ∃ t' o, insert k v t = Ok (tt, t', o) ∧ length t' = 10%nat ∧ reachable t' ∧
    (∀ k', k' ≠ k → ∃ w, search k' t = Ok (w, t, []) ∧ search k' t' = Ok (w, t', [])) ∧
    (search k t' = Ok (v, t', []) ∨
     (t' = t ∧ Forall (λ e, ∃ s, key e = Key s ∧ s ≠ k) t)).
Proof.
  intros Hlen Hr. unfold insert. c_run. change (Z.to_nat TABLE_SIZE) with 10%nat.
  destruct (insert_loop_stop t k Hlen) as [(j & e & Hj & He & Hocc & Hlt & ->)|[Hfull ->]].
  - rewrite (aget_ent _ _ _ _ He). rewrite aset_lt by (rewrite Hlen; apply pos_range).
    assert ((if occupied e then mkEntry (key e) v else mkEntry (Key k) v) =
            mkEntry (Key k) v) as ->.
    { destruct (occupied e); [|done]. by rewrite Hocc. }
    set (t' := <[Z.to_nat (pos (hash k) j) := mkEntry (Key k) v]> t).
    assert (length t' = 10%nat) as Hlen' by (unfold t'; by rewrite length_update).
    assert (∀ i e0, (i < j)%nat → ent t' (hash k) i = Some e0 →
              ent t (hash k) i = Some e0) as Hbefore.
    { intros i e0 Hi. unfold t'. rewrite ent_update by done. case_decide as Hp; [|done].
      apply pos_inj in Hp; lia. }
    exists t'. eexists. split; [done|]. split; [done|]. split; [|split].
    + apply reachable_update; [done..|]. simpl. intros k0 i [= <-] Hi Hp i0 e0 Hi0 He0.
      apply pos_inj in Hp; [|lia..]. subst i.
      destruct (Hlt i0 e0 Hi0 He0) as (s & -> & _). done.
    + intros k' Hne. apply search_same; [done..|]. intros w.
      apply (found_update_other t (hash k) j e); simpl; try done; [|congruence].
      destruct (occupied e) eqn:Ho; [rewrite Hocc by done; congruence|].
      unfold occupied in Ho. by destruct (key e).
    + left. apply open_search_found; [done|]. exists j. split; [done|].
      split; [unfold t'; by rewrite ent_update, decide_True|].
      intros i e0 Hi He0. apply Hbefore in He0; [|done].
      destruct (Hlt i e0 Hi He0) as (s & Hs & Hsk).
      unfold stop_search, matches. rewrite Hs. by apply String.eqb_neq.
  - exists t. eexists. repeat split; [done..| |auto].
    intros k' _. by apply search_same.
Qed.

Lemma open_insert_correct_witness :
  ∃ t' o, insert "apple" 100 hashTable = Ok (tt, t', o) ∧ length t' = 10%nat ∧ reachable t'.
Proof.
  destruct (open_insert_correct hashTable "apple" 100) as (t' & o & ? & ? & ? & _);
    [reflexivity| |by eauto].
  intros k v j _ Hf. exfalso. unfold ent, hashTable in Hf.
  apply lookup_replicate in Hf as [[=] _].
Defined.

(** [delete] on a table whose keys are reachable keeps every other key and
    the reachability; when no key is stored twice, the key is gone. *)
Theorem open_delete_correct (t : table) (k : string) :
  length t = 10%nat → reachable t →
  ∃ t' o, delete k t = Ok (tt, t', o) ∧ length t' = 10%nat ∧ reachable t' ∧
    (∀ k', k' ≠ k → ∃ w, search k' t = Ok (w, t, []) ∧ search k' t' = Ok (w, t', [])) ∧
    (unique t → unique t' ∧ search k t' = Ok (-1, t', [])).
Proof.
  intros Hlen Hr. unfold delete. c_run. change (Z.to_nat TABLE_SIZE) with 10%nat.
  destruct (search_loop_found t k Hlen) as [(j & v & Hf & Hj & He & ->)|[Hno ->]].
  - rewrite (aget_ent _ _ _ _ He). simpl.
    rewrite aset_lt by (rewrite Hlen; apply pos_range).
    set (t' := <[Z.to_nat (pos (hash k) j) := mkEntry DELETED_KEY v]> t).
    assert (length t' = 10%nat) as Hlen' by (unfold t'; by rewrite length_update).
    exists t'. eexists. split; [done|]. split; [done|]. split; [|split].
    + by apply reachable_update.
    + intros k' Hne. apply search_same; [done..|]. intros w.
      apply (found_update_other t (hash k) j (mkEntry (Key k) v)); simpl; try done.
      congruence.
    + intros Hu. split.
      * intros p q s x y Hp Hq.
        apply list_lookup_insert_Some in Hp as [(_ & [=] & _)|[_ Hp]].
        apply list_lookup_insert_Some in Hq as [(_ & [=] & _)|[_ Hq]].
        by eapply Hu.
      * apply search_absent; [done|]. intros w (i & Hi & Hw & _).
        unfold ent, t' in Hw.
        apply list_lookup_insert_Some in Hw as [(_ & [=] & _)|[Hne Hw]].
        apply Hne. by apply (Hu _ _ _ _ _ He Hw).
  - exists t. eexists. repeat split; [done..| | |].
    + intros k' _. by apply search_same.
    + done.
    + by apply search_absent.
Qed.

(** The table after [insert a; insert k; delete a]: a deleted entry in front
    of [k] in its probe sequence. *)
Definition tombstone : table :=
  <[8%nat := mkEntry (Key "k") 2]> (<[7%nat := mkEntry DELETED_KEY 1]> hashTable).

Lemma open_delete_correct_witness :
  ∃ t' o, delete "k" tombstone = Ok (tt, t', o) ∧ search "k" t' = Ok (-1, t', []).
Proof.
  destruct (open_delete_correct tombstone "k") as (t' & o & ? & ? & ? & _ & Hu).
  - reflexivity.
  - intros k v j Hj Hf i e Hi He.
    unfold tombstone, ent in Hf.
    apply list_lookup_insert_Some in Hf as [(Hp & [= <- <-] & _)|[_ Hf]].
    + assert (j = 1%nat) as ->.
      { apply (pos_inj (hash "k")); [lia|lia|]. pose proof (pos_range (hash "k") j).
        change (pos (hash "k") 1) with 8. lia. }
      assert (i = O) as -> by lia. by injection He as <-.
    + apply list_lookup_insert_Some in Hf as [(_ & [=] & _)|[_ Hf]].
      apply lookup_replicate in Hf as [[=] _].
  - exists t', o. split; [done|]. apply Hu. intros p q s x y Hp Hq.
    apply list_lookup_insert_Some in Hp as [(<- & _)|[_ Hp]];
      [|apply list_lookup_insert_Some in Hp as [(_ & [=] & _)|[_ Hp]];
        by apply lookup_replicate in Hp as [[=] _]].
    apply list_lookup_insert_Some in Hq as [(<- & _)|[_ Hq]];
      [done|apply list_lookup_insert_Some in Hq as [(_ & [=] & _)|[_ Hq]];
        by apply lookup_replicate in Hq as [[=] _]].
Defined.

(** [insert] takes the first deleted entry without looking for the key
    behind it, so a key can be stored twice: after [insert a], [insert k],
    [delete a], [insert k] again and [delete k], a search of [k] still
    returns the first value it was given. *)
Theorem open_delete_resurrects :
  (insert "a" 1 ;; insert "k" 2 ;; delete "a" ;; insert "k" 3 ;; delete "k" ;;
   search "k") hashTable
  = Ok (2, <[8%nat := mkEntry (Key "k") 2]>
             (<[7%nat := mkEntry DELETED_KEY 3]> hashTable),
        ["a : 1 is inserted successfully at the index 7 " +:+ nl;
         "k : 2 is inserted successfully at the index 8 " +:+ nl;
         "The key a at the index 7 is deleted " +:+ nl;
         "k : 3 is inserted successfully at the index 7 " +:+ nl;
         "The key k at the index 7 is deleted " +:+ nl]).
Proof. vm_compute. reflexivity. Qed.

End OpenAddressed.

(** ** The integer table *)
Module LinearSpec.
Import LinearProbing.

(** The entry at probe [i] from the hash of [k]. *)
Definition lpos (k : Z) (i : nat) : Z := (k mod 10 + Z.of_nat i) mod 10.
Definition lent (t : table) (k : Z) (i : nat) : option entry := t !! Z.to_nat (lpos k i).

Definition free_slot (e : entry) : Prop := key e = EMPTY ∨ value e = DELETED.

Lemma lpos_rem k i :
  0 ≤ k → Z.rem (hashFunction k + Z.of_nat i) TABLE_SIZE = lpos k i.
Proof.
  intros Hk. unfold hashFunction, lpos, TABLE_SIZE.
  rewrite (Z.rem_mod_nonneg k) by lia. pose proof (Z.mod_pos_bound k 10).
  apply Z.rem_mod_nonneg; lia.
Qed.

Lemma lpos_range k i : 0 ≤ lpos k i < 10.
Proof. apply Z.mod_pos_bound. lia. Qed.

Lemma lpos_inj k i j : (i < 10)%nat → (j < 10)%nat → lpos k i = lpos k j → i = j.
Proof. intros. unfold lpos in *. Z.div_mod_to_equations. lia. Qed.

(** A probing loop returns what its first stopping entry decides. *)
Lemma probe_for_first {A} (stop : Z → entry → option A) t k j e a :
  length t = 10%nat → 0 ≤ k → (j < 10)%nat →
  lent t k j = Some e → stop (lpos k j) e = Some a →
  (∀ i e0, (i < j)%nat → lent t k i = Some e0 → stop (lpos k i) e0 = None) →
  probe_for stop t (hashFunction k) (seqZ 0 TABLE_SIZE) = Ok (Some a).
Proof.
  intros Hlen Hk Hj He Ha Hlt.
  assert (∀ n i, (i + n = 10)%nat → (i ≤ j)%nat →
    probe_for stop t (hashFunction k) (seqZ (Z.of_nat i) (Z.of_nat n)) = Ok (Some a)) as H.
  { induction n as [|n IH]; intros i Hi Hij; [lia|].
    rewrite seqZ_cons by lia. unfold probe_for; fold (probe_for (A:=A) stop).
    rewrite lpos_rem by done. pose proof (lpos_range k i).
    destruct (lookup_lt_is_Some_2 t (Z.to_nat (lpos k i))) as [e0 He0]; [lia|].
    rewrite (aget_Z t _ e0) by (lia || done). c_run.
    destruct (decide (i = j)) as [->|Hne].
    - assert (e0 = e) as -> by (unfold lent in He; congruence). by rewrite Ha.
    - rewrite (Hlt i) by (lia || done).
      replace (Z.succ (Z.of_nat i)) with (Z.of_nat (S i)) by lia.
      replace (Z.pred (Z.of_nat (S n))) with (Z.of_nat n) by lia.
      apply IH; lia. }
  apply (H 10%nat O); lia.
Qed.

#[global] Arguments probe_for : simpl never.

(** [insert] stores into the first entry that its test takes for free. *)
Lemma insert_first t k v j e :
  length t = 10%nat → 0 ≤ k → (j < 10)%nat → lent t k j = Some e → free_slot e →
  (∀ i e0, (i < j)%nat → lent t k i = Some e0 → ¬ free_slot e0) →
  ∃ o, insert k v t = Ok (tt, <[Z.to_nat (lpos k j) := mkentry k v]> t, o).
Proof.
  intros Hlen Hk Hj He Hfree Hlt. unfold insert. c_run.
  rewrite (probe_for_first _ t k j e (lpos k j)); [|done..| |].
  - c_run. pose proof (lpos_range k j). rewrite aset_lt by lia. eauto.
  - simpl. destruct (Z.eqb_spec (key e) EMPTY), (Z.eqb_spec (value e) DELETED); try done.
    by destruct Hfree.
  - intros i e0 Hi He0. specialize (Hlt i e0 Hi He0). unfold free_slot in Hlt.
    destruct (Z.eqb_spec (key e0) EMPTY), (Z.eqb_spec (value e0) DELETED); tauto.
Qed.

Lemma search_first t k v j :
  length t = 10%nat → 0 ≤ k → (j < 10)%nat → lent t k j = Some (mkentry k v) →
  (∀ i e0, (i < j)%nat → lent t k i = Some e0 → key e0 ≠ EMPTY ∧ key e0 ≠ k) →
  search k t = Ok (v, t, []).
Proof.
  intros Hlen Hk Hj He Hlt. unfold search. c_run.
  rewrite (probe_for_first _ t k j (mkentry k v) v); [done..| |].
  - simpl. destruct (Z.eqb_spec k (-1)); [lia|]. by rewrite Z.eqb_refl.
  - intros i e0 Hi He0. destruct (Hlt i e0 Hi He0) as [H1 H2]. unfold EMPTY in H1.
    destruct (Z.eqb_spec (key e0) (-1)); [done|].
    destruct (Z.eqb_spec (key e0) k); done.
Qed.

Lemma lent_update t k j e i :
  length t = 10%nat → (j < 10)%nat → (i < 10)%nat →
  lent (<[Z.to_nat (lpos k j) := e]> t) k i =
  (if decide (i = j) then Some e else lent t k i).
Proof.
  intros Hlen Hj Hi. pose proof (lpos_range k j). pose proof (lpos_range k i).
  unfold lent. case_decide as Hij.
  - subst. apply list_lookup_insert_eq. lia.
  - apply list_lookup_insert_ne. intros Heq. apply Hij, (lpos_inj k); lia.
Qed.

End LinearSpec.

Section Linear.
Import LinearProbing LinearSpec.

(** [insert] of a key [k >= 0] stores at the first probe that its test
    takes for free.  When [k] is not stored before that probe, a search then
    finds the new value; when it is, at probe [p], the search still returns
    the old value of [p]: an update is lost. *)
Theorem linear_insert_search (t : table) (k v : Z) (j : nat) (e : entry) :
  length t = 10%nat → 0 ≤ k → (j < 10)%nat → lent t k j = Some e → free_slot e →
  (∀ i e0, (i < j)%nat → lent t k i = Some e0 → ¬ free_slot e0) →
  ∃ t' o, insert k v t = Ok (tt, t', o) ∧
    ((∀ i e0, (i < j)%nat → lent t k i = Some e0 → key e0 ≠ k) →
     search k t' = Ok (v, t', [])) ∧
    (∀ p w, (p < j)%nat → lent t k p = Some (mkentry k w) →
     (∀ i e0, (i < p)%nat → lent t k i = Some e0 → key e0 ≠ k) →
     search k t' = Ok (w, t', [])).
Proof.
  intros Hlen Hk Hj He Hfree Hlt.
  destruct (insert_first t k v j e Hlen Hk Hj He Hfree Hlt) as [o Ho].
  eexists _, o. split; [exact Ho|].
  assert (∀ i e0, (i < j)%nat → lent t k i = Some e0 → key e0 ≠ EMPTY) as Hne.
  { intros i e0 Hi He0 Hemp. apply (Hlt i e0 Hi He0). by left. }
  assert (length (<[Z.to_nat (lpos k j) := mkentry k v]> t) = 10%nat) as Hlen'
    by (etransitivity; [apply length_insert|done]).
  split.
  - intros Habs. apply (search_first _ _ _ j); [done..| |].
    + by rewrite lent_update, decide_True.
    + intros i e0 Hi. rewrite lent_update, decide_False by lia. eauto.
  - intros p w Hp Hw Habs. apply (search_first _ _ _ p); [done|done|lia| |].
    + by rewrite lent_update, decide_False by lia.
    + intros i e0 Hi. rewrite lent_update, decide_False by lia. intros He0.
      split; [apply (Hne i); [lia|done]|eauto].
Qed.

Lemma linear_insert_search_witness :
  ∃ t' o, insert 15 150 (replicate 10 (mkentry EMPTY 0)) = Ok (tt, t', o) ∧
          search 15 t' = Ok (150, t', []).
Proof.
  destruct (linear_insert_search (replicate 10 (mkentry EMPTY 0)) 15 150 0 (mkentry EMPTY 0))
    as (t' & o & ? & Hs & _); [reflexivity|lia|lia|reflexivity|by left|intros; lia|].
  exists t', o. split; [done|]. apply Hs. intros; lia.
Defined.

(** C's [%] makes the index of a negative key negative: unless 10 divides
    the key, [insert], [search] and [delete] index outside the array. *)
Theorem linear_negative_key (t : table) (k v : Z) :
  k < 0 → Z.rem k 10 ≠ 0 →
  insert k v t = UB OutOfBounds ∧ search k t = UB OutOfBounds ∧
  delete k t = UB OutOfBounds.
Proof.
  intros Hk Hr.
  assert (∀ A (stop : Z → entry → option A),
    probe_for stop t (hashFunction k) (seqZ 0 TABLE_SIZE) = UB OutOfBounds) as Hp.
  { intros A stop. change (seqZ 0 TABLE_SIZE) with (0 :: seqZ 1 9).
    unfold probe_for. rewrite Z.add_0_r. unfold hashFunction, TABLE_SIZE.
    rewrite Z.rem_rem by lia. pose proof (Z.rem_nonpos k 10). unfold aget.
    destruct (Z.ltb_spec (Z.rem k 10) 0); [done|lia]. }
  unfold insert, search, delete. c_run. rewrite !Hp. auto.
Qed.

Lemma linear_negative_key_witness :
  insert (-7) 1 hashTable = UB OutOfBounds.
Proof. refine (proj1 (linear_negative_key hashTable (-7) 1 _ _)); [lia|done]. Defined.

End Linear.

(** The programs as they are run. *)
Example hash_mains :
  is_ok (Chaining.main Chaining.hashTable) &&
  is_ok (OpenAddressing.main OpenAddressing.hashTable) &&
  is_ok (LinearProbing.main LinearProbing.hashTable) = true.
Proof. vm_compute. reflexivity. Qed.
