(* ===== verification/ConcurrentMap.v ===== *)
(** * The hash map with one mutex per bucket

    [Mutex-Spi-Sem-RWlock/concurrent_hashmap_using_locks.c].  A configuration
    holds the heap of entries, the buckets with the owner of each mutex, and the
    program counter of every worker thread; [step] is one step of one thread, and
    a run is any interleaving of such steps.  Every load and store of the shared
    memory in [hashmap_insert] is a step of its own: the load of [head] before
    the loop, the load of a key, of a [next], the store of a value, the load of
    [head] for the new entry and the store that publishes it; only the fields of
    a new entry, which no other thread can reach, are set in one step.  So an
    insertion is lost in this model when two threads are between the last two
    accesses, and the proofs depend on the locking. *)
From stdpp Require Import base list gmap strings pretty relations.
From Stdlib Require Import ZArith Lia.
From S2P Require Import Prelude HashTables.

Module ConcurrentHashMap.

Definition NUM_BUCKETS : Z := 16.

(** A pointer is a position in the heap; nothing is ever freed. *)
Record Entry : Set := mkEntry { ekey : string; value : Z; next : option nat }.

(** [lock] is the thread that owns the mutex. *)
Record Bucket : Set := mkBucket { head : option nat; lock : option nat }.

Definition hash (key : string) : Z := (hash_loop uchar 0 key mod NUM_BUCKETS)%Z.

Definition hashmap_init : list Bucket := replicate (Z.to_nat NUM_BUCKETS) (mkBucket None None).

(** [sprintf(key, "key%d", i)]. *)
Definition key (i : nat) : string := "key" +:+ d (Z.of_nat i).
Definition idx (i : nat) : nat := Z.to_nat (hash (key i)).

(** Where a worker is in [hashmap_insert(map, key, i)], [i] being the loop
    counter of [worker]. *)
Inductive pc : Set :=
  | Lock (i : nat)                     (* [pthread_mutex_lock] *)
  | Head (i : nat)                     (* [e = map->buckets[idx].head] *)
  | Walk (i : nat) (e : option nat)    (* [while (e)] and the [strcmp] with [e->key] *)
  | SetValue (i q : nat)               (* [e->value = value] *)
  | Follow (i q : nat)                 (* [e = e->next] *)
  | Link (i : nat)                     (* [malloc] to [new_e->next = head] *)
  | Publish (i q : nat)                (* [map->buckets[idx].head = new_e] *)
  | Unlock (i : nat)                   (* [pthread_mutex_unlock] *)
  | Exit.

#[global] Instance pc_eq_dec : EqDecision pc.
Proof. solve_decision. Defined.

Record config : Set := mkconfig { heap : list Entry; buckets : list Bucket; threads : list pc }.

Definition goto (c : config) (t : nat) (p : pc) : config :=
  mkconfig (heap c) (buckets c) (<[t := p]> (threads c)).
Definition set_bucket (c : config) (n : nat) (b : Bucket) : config :=
  mkconfig (heap c) (<[n := b]> (buckets c)) (threads c).
Definition set_heap (c : config) (h : list Entry) : config :=
  mkconfig h (buckets c) (threads c).

(** [i++; i < 100]. *)
Definition again (i : nat) : pc := if decide (S i < 100) then Lock (S i) else Exit.

(** One step of thread [t]; [None] when the thread has returned, waits for a
    mutex, or follows a pointer to nothing. *)
Definition step (t : nat) (c : config) : option config :=
  match threads c !! t with
  | None | Some Exit => None
  | Some (Lock i) =>
      match buckets c !! idx i with
      | Some (mkBucket h None) => Some (goto (set_bucket c (idx i) (mkBucket h (Some t))) t (Head i))
      | _ => None
      end
  | Some (Head i) =>
      match buckets c !! idx i with
      | Some b => Some (goto c t (Walk i (head b)))
      | None => None
      end
  | Some (Walk i None) => Some (goto c t (Link i))
  | Some (Walk i (Some q)) =>
      match heap c !! q with
      | Some e => Some (goto c t (if String.eqb (ekey e) (key i) then SetValue i q else Follow i q))
      | None => None
      end
  | Some (SetValue i q) =>
      match heap c !! q with
      | Some (mkEntry k _ nx) =>
          Some (goto (set_heap c (<[q := mkEntry k (Z.of_nat i) nx]> (heap c))) t (Unlock i))
      | None => None
      end
  | Some (Follow i q) =>
      match heap c !! q with
      | Some e => Some (goto c t (Walk i (next e)))
      | None => None
      end
  | Some (Link i) =>
      match buckets c !! idx i with
      | Some b =>
          Some (goto (set_heap c (heap c ++ [mkEntry (key i) (Z.of_nat i) (head b)])) t
            (Publish i (length (heap c))))
      | None => None
      end
  | Some (Publish i q) =>
      match buckets c !! idx i with
      | Some (mkBucket _ l) => Some (goto (set_bucket c (idx i) (mkBucket (Some q) l)) t (Unlock i))
      | None => None
      end
  | Some (Unlock i) =>
      match buckets c !! idx i with
      | Some (mkBucket h _) => Some (goto (set_bucket c (idx i) (mkBucket h None)) t (again i))
      | None => None
      end
  end.

Definition cstep (c c' : config) : Prop := ∃ t, step t c = Some c'.

(** The loop of [hashmap_lookup]; [None] when the fuel is not enough or a
    pointer leads nowhere. *)
Fixpoint lookup_chain (fuel : nat) (h : list Entry) (e : option nat) (k : string) : option (option Z) :=
  match e with
  | None => Some None
  | Some q =>
      match fuel, h !! q with
      | S fuel, Some e => if String.eqb (ekey e) k then Some (Some (value e)) else lookup_chain fuel h (next e) k
      | _, _ => None
      end
  end.

(** [hashmap_lookup] after the threads were joined; the outer [None] is also a
    wait for a mutex that nobody will release. *)
Definition hashmap_lookup (c : config) (k : string) : option (option Z) :=
  match buckets c !! Z.to_nat (hash k) with
  | Some (mkBucket h None) => lookup_chain (length (heap c)) (heap c) h k
  | _ => None
  end.

(** The two [pthread_create] calls, and [n] of them in general. *)
Definition start (n : nat) : config := mkconfig [] hashmap_init (replicate n (Lock 0)).

Definition joined (c : config) : Prop := Forall (eq Exit) (threads c).

(** What [main] prints after the joins. *)
Definition main_prints (c : config) : option string :=
  match hashmap_lookup c "key42" with
  | Some (Some val) => Some ("key42 -> " +:+ d val +:+ nl)
  | Some None => Some ("key42 not found" +:+ nl)
  | None => None
  end.

End ConcurrentHashMap.

(** ** Chains *)
Module ConcurrentChains.
Import ConcurrentHashMap.

(** The chain that starts at [p] holds the pairs [l]. *)
Fixpoint chain (h : list Entry) (p : option nat) (l : list (string * Z)) : Prop :=
  match l with
  | [] => p = None
  | kv :: l => ∃ q nx, p = Some q ∧ h !! q = Some (mkEntry kv.1 kv.2 nx) ∧ chain h nx l
  end.

Lemma chain_grow h h' p l : chain h p l → chain (h ++ h') p l.
Proof.
  revert p. induction l as [|kv l IH]; intros p; [done|].
  intros (q & nx & -> & Hq & Hl). exists q, nx. split; [done|]. split; [by apply lookup_app_l_Some|auto].
Qed.

Lemma entries_fun h p l l' : chain h p l → chain h p l' → l = l'.
Proof.
  revert p l'. induction l as [|[k v] l IH]; intros p [|[k' v'] l']; simpl; [done|..].
  - by intros -> (q & nx & ? & _).
  - by intros (q & nx & -> & _) ?.
  - intros (q & nx & -> & Hq & Hl) (q' & nx' & [= <-] & Hq' & Hl'). rewrite Hq in Hq'.
    injection Hq' as <- <- <-. f_equal. by eapply IH.
Qed.

(** The entry a pointer into a chain points to is one of the chain. *)
Lemma chain_load h q l : chain h (Some q) l → ∃ k v nx l', l = (k, v) :: l' ∧ h !! q = Some (mkEntry k v nx) ∧ chain h nx l'.
Proof. destruct l as [|[k v] l']; [done|]. intros (q' & nx & [= <-] & Hq & Hl). by exists k, v, nx, l'. Qed.

Lemma chain_none h l : chain h None l → l = [].
Proof. destruct l; [done|]. by intros (? & ? & ? & _). Qed.

(** A list of distinct things out of [m] is not longer than [m]. *)
Lemma distinct_length {A} (l m : list A) : NoDup l → (∀ x, x ∈ l → x ∈ m) → length l ≤ length m.
Proof. intros Hnd Hin. by apply submseteq_length, NoDup_submseteq. Qed.

(** A chain without duplicate keys is not longer than the heap. *)
Lemma chain_length h p l : chain h p l → NoDup l.*1 → length l ≤ length h.
Proof.
  intros Hc Hnd. rewrite <- (length_fmap fst l), <- (length_fmap ekey h).
  apply distinct_length; [done|]. intros k Hk. clear Hnd. revert p Hc.
  induction l as [|[k' v] l IH]; intros p; [by apply elem_of_nil in Hk|].
  intros (q & nx & -> & Hq & Hl). csimpl in *. apply elem_of_cons in Hk as [->|Hk]; [|by eapply IH].
  apply list_elem_of_fmap. exists (mkEntry k' v nx). split; [done|by eapply list_elem_of_lookup_2].
Qed.

Lemma lookup_chain_spec fuel h p l k :
  chain h p l → length l ≤ fuel →
  lookup_chain fuel h p k = Some (snd <$> find (λ kv, String.eqb kv.1 k) l).
Proof.
  revert p l. induction fuel as [|fuel IH]; intros p [|[k' v] l] Hl Hf; simpl in *; subst; try done; [lia|].
  destruct Hl as (q & nx & -> & Hq & Hl). rewrite Hq. simpl. destruct (String.eqb k' k); [done|]. apply IH; [done|lia].
Qed.

(** The number of entries a walk has before it. *)
Fixpoint ahead (fuel : nat) (h : list Entry) (p : option nat) : nat :=
  match fuel, p with
  | S fuel, Some q => match h !! q with Some e => S (ahead fuel h (next e)) | None => 0 end
  | _, _ => 0
  end.

Lemma ahead_chain fuel h p l : chain h p l → length l ≤ fuel → ahead fuel h p = length l.
Proof.
  revert p l. induction fuel as [|fuel IH]; intros p [|[k v] l] Hl Hf; simpl in *; subst; try done; [lia|].
  destruct Hl as (q & nx & -> & Hq & Hl). rewrite Hq. f_equal. apply IH; [done|lia].
Qed.

End ConcurrentChains.

(** ** The invariant *)
Module ConcurrentSpec.
Import ConcurrentHashMap ConcurrentChains.

(** Some entry of the chain of its bucket holds key number [j] and its value. *)
Definition present (h : list Entry) (bs : list Bucket) (j : nat) : Prop :=
  ∃ b l, bs !! idx j = Some b ∧ chain h (head b) l ∧ (key j, Z.of_nat j) ∈ l.

(** The bucket whose mutex a thread owns, and how many keys it has done. *)
Definition holds (p : pc) : option nat :=
  match p with
  | Head i | Walk i _ | SetValue i _ | Follow i _ | Link i | Publish i _ | Unlock i => Some (idx i)
  | _ => None
  end.

Definition number (p : pc) : nat :=
  match p with
  | Lock i | Head i | Walk i _ | SetValue i _ | Follow i _ | Link i | Publish i _ | Unlock i => i
  | Exit => 0
  end.

Definition cursor (p : pc) : nat :=
  match p with
  | Unlock i => S i
  | Exit => 100
  | _ => number p
  end.

(** What a thread knows of the chain from [p0] that it works on. *)
Definition seen (h : list Entry) (p0 : option nat) (p : pc) : Prop :=
  match p with
  | Walk i e => ∃ l1 l2, chain h p0 (l1 ++ l2) ∧ chain h e l2 ∧ key i ∉ l1.*1
  | SetValue i q => ∃ l v nx, chain h p0 l ∧ h !! q = Some (mkEntry (key i) v nx) ∧ (key i, v) ∈ l
  | Follow i q => ∃ l1 k v l2 nx, chain h p0 (l1 ++ (k, v) :: l2) ∧ h !! q = Some (mkEntry k v nx) ∧
      chain h nx l2 ∧ (key i ∉ l1.*1) ∧ k ≠ key i
  | Link i => ∃ l, chain h p0 l ∧ key i ∉ l.*1
  | Publish i q => ∃ l, chain h p0 l ∧ (key i ∉ l.*1) ∧ h !! q = Some (mkEntry (key i) (Z.of_nat i) p0)
  | _ => True
  end.

Definition pc_ok (h : list Entry) (bs : list Bucket) (p : pc) : Prop :=
  number p < 100 ∧
  (∀ j, j < cursor p → present h bs j) ∧
  (∀ n b, holds p = Some n → bs !! n = Some b → seen h (head b) p).

(** The chain of bucket [n] has no duplicates and only keys of the workers. *)
Definition chain_ok (n : nat) (l : list (string * Z)) : Prop :=
  NoDup l.*1 ∧ ∀ k v, (k, v) ∈ l → ∃ j, j < 100 ∧ k = key j ∧ v = Z.of_nat j ∧ idx j = n.

Definition owns (ts : list pc) (t n : nat) : Prop :=
  ∃ p, ts !! t = Some p ∧ holds p = Some n.

Record inv (c : config) : Prop := mkinv {
  inv_len : length (buckets c) = 16;
  inv_chain n b : buckets c !! n = Some b → ∃ l, chain (heap c) (head b) l ∧ chain_ok n l;
  inv_lock n b t : buckets c !! n = Some b → lock b = Some t ↔ owns (threads c) t n;
  inv_pc t p : threads c !! t = Some p → pc_ok (heap c) (buckets c) p
}.

Lemma key_inj i j : key i = key j → i = j.
Proof.
  unfold key, d. intros H. apply (inj (String.append "key")) in H.
  apply (inj pretty) in H. lia.
Qed.

Lemma idx_lt i : idx i < 16.
Proof.
  unfold idx, hash, NUM_BUCKETS. 
  pose proof (Z.mod_pos_bound (hash_loop uchar 0 (key i)) 16). lia.
Qed.

(** Every key has its bucket. *)
Lemma bucket_of c i : inv c → ∃ b, buckets c !! idx i = Some b.
Proof.
  intros Hi. apply lookup_lt_is_Some_2. rewrite (inv_len _ Hi). apply idx_lt.
Qed.

(** No chain is longer than the number of keys. *)
Lemma chain_ok_length n l : chain_ok n l → length l ≤ 100.
Proof.
  intros [Hnd Hel]. rewrite <- (length_fmap fst l). change 100 with (length (key <$> seq 0 100)).
  apply distinct_length; [done|]. intros k ([k' v] & -> & Hin)%list_elem_of_fmap.
  destruct (Hel k' v Hin) as (j & Hj & -> & _). apply list_elem_of_fmap. exists j. split; [done|].
  apply elem_of_seq. lia.
Qed.

Lemma seen_grow h h' p0 p : seen h p0 p → seen (h ++ h') p0 p.
Proof.
  assert (∀ q e, h !! q = Some e → (h ++ h') !! q = Some e) as Hl by (intros; by apply lookup_app_l_Some).
  destruct p; simpl; try done.
  - intros (l1 & l2 & ? & ? & ?). exists l1, l2. auto using chain_grow.
  - intros (l & v & nx & ? & ? & ?). exists l, v, nx. auto using chain_grow.
  - intros (l1 & k & v & l2 & nx & ? & ? & ? & ?). exists l1, k, v, l2, nx. auto using chain_grow.
  - intros (l & ? & ?). exists l. auto using chain_grow.
  - intros (l & ? & ? & ?). exists l. auto using chain_grow.
Qed.

Lemma chain_ok_cons n l i :
  chain_ok n l → i < 100 → idx i = n → key i ∉ l.*1 → chain_ok n ((key i, Z.of_nat i) :: l).
Proof.
  intros [Hnd Hel] Hi Hn Hk. split; [by constructor|].
  intros k v [[= -> ->]|?]%elem_of_cons; eauto.
Qed.

(** *** Updating one bucket and one thread *)

Lemma present_update h h' bs n b b' j :
  bs !! n = Some b → (∀ l, chain h (head b) l → ∃ l', chain (h ++ h') (head b') l' ∧ ∀ kv, kv ∈ l → kv ∈ l') →
  present h bs j → present (h ++ h') (<[n := b']> bs) j.
Proof.
  intros Hb Hsub (b0 & l & Hb0 & Hl & Hin). destruct (decide (n = idx j)) as [->|Hne].
  - simplify_eq. destruct (Hsub l Hl) as (l' & Hl' & Hin'). exists b', l'.
    split; [apply list_lookup_insert_eq; by eapply lookup_lt_Some|auto].
  - exists b0, l. rewrite list_lookup_insert_ne by done. auto using chain_grow.
Qed.

(** A thread that does not own the bucket keeps what it knows. *)
Lemma pc_ok_other h h' bs n b b' p :
  bs !! n = Some b → (∀ l, chain h (head b) l → ∃ l', chain (h ++ h') (head b') l' ∧ ∀ kv, kv ∈ l → kv ∈ l') →
  (holds p = Some n → head b' = head b) →
  pc_ok h bs p → pc_ok (h ++ h') (<[n := b']> bs) p.
Proof.
  intros Hb Hsub Hhead (H1 & H2 & H3). split; [done|]. split.
  - intros j Hj. eapply present_update; eauto.
  - intros m b0 Hm [(<- & <- & _)|[_ ?]]%list_lookup_insert_Some; [rewrite Hhead by done|];
      apply seen_grow; eauto.
Qed.

(** The lock invariant after thread [t] went to [p'] and bucket [n] became
    [b'], when [t] held nothing but [n] before and after. *)
Lemma lock_update c t p p' n b b' :
  inv c → threads c !! t = Some p → buckets c !! n = Some b →
  (holds p = None ∨ holds p = Some n) →
  (holds p' = None ∧ (lock b = None ∨ lock b = Some t) ∧ lock b' = None ∨
   holds p' = Some n ∧ (lock b = None ∨ lock b = Some t) ∧ lock b' = Some t) →
  ∀ m b0 t0, <[n := b']> (buckets c) !! m = Some b0 →
  lock b0 = Some t0 ↔ owns (<[t := p']> (threads c)) t0 m.
Proof.
  intros Hi Ht Hb Hp Hp' m b0 t0 Hm.
  assert (t < length (threads c)) as Hlt by (by eapply lookup_lt_Some).
  pose proof (inv_lock _ Hi n b) as Hl.
  unfold owns. destruct (decide (t0 = t)) as [->|Hne].
  - rewrite list_lookup_insert_eq by done.
    apply list_lookup_insert_Some in Hm as [(<- & <- & _)|[Hnm Hm]].
    + destruct Hp' as [(Hh & _ & ->)|(Hh & _ & ->)]; split; try done.
      * intros (? & [= <-] & ?). congruence.
      * intros _. eauto.
    + rewrite (inv_lock _ Hi m b0 t Hm). unfold owns. rewrite Ht.
      split; intros (q & [= <-] & Hq); exfalso.
      * destruct Hp; congruence.
      * destruct Hp' as [(? & _)|(? & _)]; congruence.
  - rewrite list_lookup_insert_ne by done.
    apply list_lookup_insert_Some in Hm as [(<- & <- & _)|[Hnm Hm]];
      [|exact (inv_lock _ Hi m b0 t0 Hm)].
    assert (¬ owns (threads c) t0 n) as Hno.
    { intros Ho. apply (Hl t0 Hb) in Ho. destruct Hp' as [(_ & H & _)|(_ & H & _)];
        destruct H; congruence. }
    split; [|intros Ho; by destruct (Hno Ho)].
    destruct Hp' as [(_ & _ & ->)|(_ & _ & ->)]; congruence.
Qed.

(** All of the invariant after such a step; the heap may have grown. *)
Lemma inv_update c t p p' n b b' h' :
  inv c → threads c !! t = Some p → buckets c !! n = Some b →
  (holds p = None ∨ holds p = Some n) →
  (holds p' = None ∧ (lock b = None ∨ lock b = Some t) ∧ lock b' = None ∨
   holds p' = Some n ∧ (lock b = None ∨ lock b = Some t) ∧ lock b' = Some t) →
  (head b' = head b ∨ lock b = Some t) →
  (∀ l, chain (heap c) (head b) l → chain_ok n l →
     ∃ l', chain (heap c ++ h') (head b') l' ∧ (∀ kv, kv ∈ l → kv ∈ l') ∧ chain_ok n l') →
  pc_ok (heap c ++ h') (<[n := b']> (buckets c)) p' →
  inv (mkconfig (heap c ++ h') (<[n := b']> (buckets c)) (<[t := p']> (threads c))).
Proof.
  intros Hi Ht Hb Hp Hp' Hhead Hch Hpc.
  destruct (inv_chain _ Hi n b Hb) as (l & Hl & Hok). destruct (Hch l Hl Hok) as (l' & Hl' & Hsub & Hok').
  constructor; simpl.
  - rewrite length_insert. apply Hi.
  - intros m b0 [(<- & <- & _)|[_ Hm]]%list_lookup_insert_Some; [by exists l'|].
    destruct (inv_chain _ Hi m b0 Hm) as (l0 & ? & ?). exists l0. auto using chain_grow.
  - by eapply lock_update.
  - intros t0 q [(<- & <- & _)|[Hne Hq]]%list_lookup_insert_Some; [done|].
    eapply pc_ok_other; [done| | |by eapply Hi].
    + intros l0 Hl0. rewrite (entries_fun _ _ _ _ Hl0 Hl). by exists l'.
    + intros Hh. destruct Hhead as [?|Hown]; [done|]. exfalso.
      assert (lock b = Some t0) as Hown0 by (apply (inv_lock _ Hi n b t0 Hb); by exists q).
      congruence.
Qed.

Lemma map_inv_start n : inv (start n).
Proof.
  constructor; simpl.
  - done.
  - intros m b [-> _]%lookup_replicate. exists []. split; [done|]. split; [constructor|]. intros ? ? ?%elem_of_nil. done.
  - intros m b t [-> _]%lookup_replicate. split; [done|].
    intros (p & [-> _]%lookup_replicate & ?). done.
  - intros t p [-> _]%lookup_replicate. split; [simpl; lia|].
    split; [intros j Hj; simpl in Hj; lia|done].
Qed.

(** A thread that may hold bucket [n] moves to [p'] and leaves the chain of [n]
    as it is; the heap may have grown. *)
Lemma inv_same c t p p' n b b' h' :
  inv c → threads c !! t = Some p → buckets c !! n = Some b → head b' = head b →
  (holds p = None ∨ holds p = Some n) →
  (holds p' = None ∧ (lock b = None ∨ lock b = Some t) ∧ lock b' = None ∨
   holds p' = Some n ∧ (lock b = None ∨ lock b = Some t) ∧ lock b' = Some t) →
  number p' < 100 →
  (∀ j, j < cursor p' → present (heap c) (buckets c) j) →
  seen (heap c ++ h') (head b) p' →
  inv (mkconfig (heap c ++ h') (<[n := b']> (buckets c)) (<[t := p']> (threads c))).
Proof.
  intros Hi Ht Hb Hh Hp Hp' Hform Hcur Hseen.
  eapply inv_update; eauto.
  - intros l Hl Hok. exists l. rewrite Hh. auto using chain_grow.
  - split; [done|]. split.
    + intros j Hj. eapply present_update; [done| |auto]. intros l Hl. exists l. rewrite Hh. auto using chain_grow.
    + intros m b0 Hm [(<- & <- & _)|[Hne ?]]%list_lookup_insert_Some; [by rewrite Hh|].
      destruct Hp' as [(? & _)|(? & _)]; congruence.
Qed.

(** A thread that touches nothing shared. *)
Lemma map_inv_goto c t p p' n b :
  inv c → threads c !! t = Some p → holds p = Some n → buckets c !! n = Some b →
  holds p' = Some n → number p' < 100 →
  (∀ j, j < cursor p' → present (heap c) (buckets c) j) →
  seen (heap c) (head b) p' → inv (goto c t p').
Proof.
  intros Hi Ht Hh Hb Hh' Hlt Hcur Hs.
  assert (lock b = Some t) as Hl by (apply (inv_lock _ Hi _ _ t Hb); by exists p).
  unfold goto. rewrite <- (app_nil_r (heap c)), <- (list_insert_id _ _ _ Hb).
  eapply inv_same; eauto 12. by rewrite app_nil_r.
Qed.

(** A thread that locks or unlocks its bucket. *)
Lemma inv_bucket c t p p' n b b' :
  inv c → threads c !! t = Some p → buckets c !! n = Some b → head b' = head b →
  (holds p = None ∨ holds p = Some n) →
  (holds p' = None ∧ (lock b = None ∨ lock b = Some t) ∧ lock b' = None ∨
   holds p' = Some n ∧ (lock b = None ∨ lock b = Some t) ∧ lock b' = Some t) →
  number p' < 100 →
  (∀ j, j < cursor p' → present (heap c) (buckets c) j) →
  seen (heap c) (head b) p' →
  inv (goto (set_bucket c n b') t p').
Proof.
  intros. unfold goto, set_bucket. cbn [heap buckets threads]. rewrite <- (app_nil_r (heap c)).
  eapply inv_same; eauto. by rewrite app_nil_r.
Qed.

(** A value is written where it already stands. *)
Lemma value_same c i v n b l :
  inv c → buckets c !! n = Some b → chain (heap c) (head b) l → (key i, v) ∈ l → v = Z.of_nat i.
Proof.
  intros Hi Hb Hl Hin. destruct (inv_chain _ Hi _ _ Hb) as (l' & Hl' & _ & Hel).
  rewrite (entries_fun _ _ _ _ Hl Hl') in Hin. by destruct (Hel _ _ Hin) as (j & _ & ->%key_inj & -> & _).
Qed.

Lemma again_ok h bs i :
  (∀ j, j < S i → present h bs j) → i < 100 →
  number (again i) < 100 ∧ holds (again i) = None ∧ (∀ j, j < cursor (again i) → present h bs j) ∧
  ∀ p0, seen h p0 (again i).
Proof.
  intros Hp Hi. unfold again. case_decide; simpl; [done|]. split; [lia|]. split; [done|]. split; [|done].
  intros j Hj. apply Hp. lia.
Qed.

(** What a thread inside its critical section may rely on. *)
Lemma owner_knows c t p i :
  inv c → threads c !! t = Some p → holds p = Some (idx i) → number p = i →
  ∃ b l, buckets c !! idx i = Some b ∧ lock b = Some t ∧ chain (heap c) (head b) l ∧ chain_ok (idx i) l ∧
    seen (heap c) (head b) p ∧ i < 100 ∧ (∀ j, j < cursor p → present (heap c) (buckets c) j).
Proof.
  intros Hi Ht Hh <-. destruct (bucket_of c (number p) Hi) as [b Hb].
  destruct (inv_chain _ Hi _ _ Hb) as (l & Hl & Hok). destruct (inv_pc _ Hi _ _ Ht) as (Hlt & Hcur & Hseen).
  exists b, l. split; [done|]. split; [apply (inv_lock _ Hi _ _ t Hb); by exists p|]. eauto 10.
Qed.

Lemma inv_publish c t i q b l0 :
  inv c → threads c !! t = Some (Publish i q) → buckets c !! idx i = Some (mkBucket b l0) →
  inv (goto (set_bucket c (idx i) (mkBucket (Some q) l0)) t (Unlock i)).
Proof.
  intros Hi Ht Hb. destruct (owner_knows c t _ i Hi Ht eq_refl eq_refl) as (b' & l & Hb' & Hlk & Hl & Hok & Hs & Hlt & Hcur).
  simplify_eq/=. destruct Hs as (l' & Hl' & Hnin & Hq). rewrite (entries_fun _ _ _ _ Hl' Hl) in Hnin.
  assert (chain (heap c) (Some q) ((key i, Z.of_nat i) :: l)) as Hl2 by (exists q, b; done).
  unfold goto, set_bucket. cbn [heap buckets threads]. rewrite <- (app_nil_r (heap c)).
  eapply inv_update; eauto 12; simpl.
  - intros l1 Hl1 Hok1. exists ((key i, Z.of_nat i) :: l). rewrite app_nil_r. split; [done|].
    rewrite (entries_fun _ _ _ _ Hl1 Hl). split; [set_solver|]. by apply chain_ok_cons.
  - rewrite app_nil_r. split; [done|]. split; [|done]. intros j Hj. simpl in Hj.
    destruct (decide (j = i)) as [->|].
    + exists (mkBucket (Some q) (Some t)), ((key i, Z.of_nat i) :: l).
      split; [apply list_lookup_insert_eq; by eapply lookup_lt_Some|]. split; [done|by left].
    + rewrite <- (app_nil_r (heap c)). eapply present_update; [exact Hb| |apply Hcur; simpl; lia].
      intros l1 Hl1. exists ((key i, Z.of_nat i) :: l). rewrite app_nil_r. split; [done|].
      rewrite (entries_fun _ _ _ _ Hl1 Hl). set_solver.
Qed.

(** Every step of every thread keeps the invariant. *)
Lemma map_inv_step c c' t : inv c → step t c = Some c' → inv c'.
Proof.
  intros Hi Hstep. unfold step in Hstep.
  destruct (threads c !! t) as [p|] eqn:Ht; [|done].
  destruct p as [i|i|i e|i q|i q|i|i q|i|]; [|pose proof (owner_knows c t _ i Hi Ht eq_refl eq_refl)
    as (b & l & Hb & Hlk & Hl & Hok & Hs & Hlt & Hcur)..|done]; rewrite ?Hb in Hstep.
  - destruct (inv_pc _ Hi _ _ Ht) as (Hlt & Hcur & _). destruct (buckets c !! idx i) as [[h [?|]]|] eqn:Hb; try done.
    injection Hstep as <-. eapply inv_bucket; eauto 12; done.
  - injection Hstep as <-. eapply map_inv_goto; eauto. exists [], l. split; [done|]. split; [done|]. apply not_elem_of_nil.
  - destruct Hs as (l1 & l2 & Hl1 & Hl2 & Hk). destruct e as [q|].
    + destruct (chain_load _ _ _ Hl2) as (k & v & nx & l' & -> & Hq & Hl'). rewrite Hq in Hstep.
      injection Hstep as <-. simpl. destruct (String.eqb_spec k (key i)) as [->|Hne]; eapply map_inv_goto; eauto.
      * exists (l1 ++ (key i, v) :: l'), v, nx. split; [done|]. split; [done|]. apply elem_of_app. right. by left.
      * exists l1, k, v, l', nx. auto.
    + apply chain_none in Hl2 as ->. rewrite app_nil_r in Hl1. injection Hstep as <-. eapply map_inv_goto; eauto. by exists l1.
  - destruct Hs as (l1 & v & nx & Hl1 & Hq & Hin). rewrite Hq in Hstep. injection Hstep as <-.
    assert (v = Z.of_nat i) as -> by (by eapply value_same). unfold set_heap. rewrite (list_insert_id _ _ _ Hq).
    eapply (map_inv_goto c); eauto; [|done]. intros j Hj. destruct (decide (j = i)) as [->|]; [by exists b, l1|].
    apply Hcur. simpl in *. lia.
  - destruct Hs as (l1 & k & v & l2 & nx & Hl1 & Hq & Hl2 & Hk & Hne). rewrite Hq in Hstep. injection Hstep as <-.
    eapply map_inv_goto; eauto. exists (l1 ++ [(k, v)]), l2. rewrite <- app_assoc. split; [done|]. split; [done|].
    rewrite fmap_app, elem_of_app. csimpl. rewrite list_elem_of_singleton. intuition congruence.
  - destruct Hs as (l1 & Hl1 & Hk). injection Hstep as <-. unfold goto, set_heap. cbn [heap buckets threads].
    rewrite <- (list_insert_id _ _ _ Hb). eapply inv_same; eauto 12.
    exists l1. split; [by apply chain_grow|]. split; [done|]. rewrite lookup_app_r, Nat.sub_diag by done. done.
  - destruct b as [b l0]. injection Hstep as <-. by eapply inv_publish.
  - destruct b as [b l0]. injection Hstep as <-.
    destruct (again_ok (heap c) (buckets c) i Hcur Hlt) as (Hn & Hh & Hc & Hs'). eapply inv_bucket; eauto 12.
Qed.

Lemma inv_steps n c : rtc cstep (start n) c → inv c.
Proof.
  intros Hr. assert (inv (start n)) as Hs by apply map_inv_start. revert Hs.
  induction Hr as [|x y z [t Hstep] _ IH]; [done|]. intros Hx. by eapply IH, map_inv_step.
Qed.

End ConcurrentSpec.

(** ** Termination: every step lowers the number of steps its thread has left *)
Module ConcurrentMeasure.
Import ConcurrentHashMap ConcurrentChains ConcurrentSpec.

(** A bound for the steps of a thread: 300 for each key it has not inserted,
    two for each entry its walk has before it (there are at most 100). *)
Definition fuel (h : list Entry) (p : pc) : nat :=
  match p with
  | Lock i => 300 * (100 - i)
  | Head i => 300 * (100 - i) - 1
  | Walk i e => 300 * (100 - i) - 202 + 2 * ahead 100 h e
  | Follow i q => 300 * (100 - i) - 203 + 2 * ahead 100 h (Some q)
  | SetValue i _ | Link i => 300 * (100 - i) - 203
  | Publish i _ => 300 * (100 - i) - 204
  | Unlock i => 300 * (100 - i) - 205
  | Exit => 0
  end.

Definition work (c : config) : nat := sum_list_with (fuel (heap c)) (threads c).

Lemma ahead_length n h p l1 l2 :
  chain h p l2 → chain_ok n (l1 ++ l2) → ahead 100 h p = length l2 ∧ length l1 + length l2 ≤ 100.
Proof.
  intros Hl Hok. pose proof (chain_ok_length _ _ Hok) as Hlen. rewrite length_app in Hlen.
  split; [|done]. apply ahead_chain; [done|lia].
Qed.

Lemma ahead_load h q e : h !! q = Some e → ahead 100 h (Some q) = S (ahead 99 h (next e)).
Proof. intros Hq. simpl. by rewrite Hq. Qed.

(** The walk of a thread does not see that the heap grows. *)
Lemma fuel_grow c t p h' : inv c → threads c !! t = Some p → fuel (heap c ++ h') p = fuel (heap c) p.
Proof.
  intros Hi Ht. destruct p as [i|i|i e|i q|i q|i|i q|i|]; [reflexivity|reflexivity| |reflexivity| |reflexivity..];
    destruct (owner_knows c t _ i Hi Ht eq_refl eq_refl) as (b & l & Hb & _ & Hl & Hok & Hs & _); cbn [fuel].
  - destruct Hs as (l1 & l2 & Hl1 & Hl2 & _). rewrite <- (entries_fun _ _ _ _ Hl1 Hl) in Hok.
    destruct (ahead_length _ _ _ _ _ Hl2 Hok) as [-> _].
    by destruct (ahead_length _ _ _ _ _ (chain_grow _ h' _ _ Hl2) Hok) as [-> _].
  - destruct Hs as (l1 & k & v & l2 & nx & Hl1 & Hq & Hl2 & _). rewrite <- (entries_fun _ _ _ _ Hl1 Hl) in Hok.
    assert (chain (heap c) (Some q) ((k, v) :: l2)) as Hc by (by exists q, nx).
    destruct (ahead_length _ _ _ _ _ Hc Hok) as [-> _].
    by destruct (ahead_length _ _ _ _ _ (chain_grow _ h' _ _ Hc) Hok) as [-> _].
Qed.

(** What a step does to its thread and to the heap. *)
Lemma step_fuel t c c' :
  inv c → step t c = Some c' →
  ∃ h' p p', heap c' = heap c ++ h' ∧ threads c !! t = Some p ∧ threads c' = <[t := p']> (threads c) ∧
    fuel (heap c ++ h') p' < fuel (heap c) p.
Proof.
  intros Hi Hstep. unfold step in Hstep. destruct (threads c !! t) as [p|] eqn:Ht; [|done].
  assert (∀ p', fuel (heap c) p' < fuel (heap c) p → goto c t p' = c' →
    ∃ h' p0 p', heap c' = heap c ++ h' ∧ Some p = Some p0 ∧ threads c' = <[t := p']> (threads c) ∧
    fuel (heap c ++ h') p' < fuel (heap c) p0) as Hgoto.
  { intros p' Hlt <-. exists [], p, p'. by rewrite app_nil_r. }
  destruct p as [i|i|i e|i q|i q|i|i q|i|]; [|pose proof (owner_knows c t _ i Hi Ht eq_refl eq_refl)
    as (b & l & Hb & Hlk & Hl & Hok & Hs & Hlt & Hcur)..|done]; rewrite ?Hb in Hstep.
  - destruct (inv_pc _ Hi _ _ Ht) as (Hlt & _). simpl in Hlt.
    destruct (buckets c !! idx i) as [[h [?|]]|] eqn:Hb; try done.
    injection Hstep as <-. exists [], (Lock i), (Head i). rewrite app_nil_r. cbn [fuel]. split_and!; [done..|]. lia.
  - injection Hstep as <-. eapply Hgoto; [|done]. cbn [fuel].
    destruct (ahead_length _ _ _ [] _ Hl Hok) as [-> ?]. lia.
  - destruct Hs as (l1 & l2 & Hl1 & Hl2 & Hk). destruct e as [q|].
    + destruct (chain_load _ _ _ Hl2) as (k & v & nx & l' & -> & Hq & Hl'). rewrite Hq in Hstep.
      injection Hstep as <-. eapply Hgoto; [|done]. destruct (String.eqb _ _); cbn [fuel]; [|lia].
      rewrite (ahead_load _ _ _ Hq). lia.
    + injection Hstep as <-. eapply Hgoto; [|done]. cbn [fuel]. lia.
  - destruct Hs as (l1 & v & nx & Hl1 & Hq & Hin). rewrite Hq in Hstep. injection Hstep as <-.
    assert (v = Z.of_nat i) as -> by (by eapply value_same). eapply (Hgoto (Unlock i)).
    + cbn [fuel]. lia.
    + unfold set_heap. rewrite (list_insert_id _ _ _ Hq). by destruct c.
  - destruct Hs as (l1 & k & v & l2 & nx & Hl1 & Hq & Hl2 & _). rewrite <- (entries_fun _ _ _ _ Hl1 Hl) in Hok.
    rewrite Hq in Hstep. injection Hstep as <-. eapply Hgoto; [|done]. cbn [fuel next].
    assert (chain (heap c) (Some q) ((k, v) :: l2)) as Hc by (by exists q, nx).
    destruct (ahead_length _ _ _ _ _ Hc Hok) as [-> _]. rewrite cons_middle, app_assoc in Hok.
    destruct (ahead_length _ _ _ _ _ Hl2 Hok) as [-> _]. simpl. lia.
  - injection Hstep as <-. eexists _, (Link i), _. split_and!; [done..|]. cbn [fuel]. lia.
  - destruct b as [b l0]. injection Hstep as <-. exists [], (Publish i q), (Unlock i). rewrite app_nil_r.
    cbn [fuel]. split_and!; [done..|]. lia.
  - destruct b as [b l0]. injection Hstep as <-. exists [], (Unlock i), (again i). rewrite app_nil_r.
    split_and!; [done..|]. unfold again. case_decide; cbn [fuel]; lia.
Qed.

Lemma sum_with_ext {A} (f g : A → nat) (l : list A) :
  (∀ i x, l !! i = Some x → f x = g x) → sum_list_with f l = sum_list_with g l.
Proof.
  induction l as [|x l IH]; intros H; [done|]. simpl. rewrite (H 0 x eq_refl), IH; [done|]. intros i y. apply (H (S i)).
Qed.

Lemma map_step_work t c c' : inv c → step t c = Some c' → work c' < work c.
Proof.
  intros Hi Hst. destruct (step_fuel t c c' Hi Hst) as (h' & p & p' & Hh & Ht & Hts & Hlt).
  unfold work. rewrite Hh, Hts.
  rewrite <- (sum_with_ext (fuel (heap c ++ h')) (fuel (heap c))) by (intros; by eapply fuel_grow).
  eapply sum_with_insert_lt; [done|]. by rewrite (fuel_grow c t p h').
Qed.

Lemma map_run_length n m c : nsteps cstep m (start n) c → m + work c ≤ n * (100 * 300).
Proof.
  assert (work (start n) = n * (100 * 300)) as Hs.
  { unfold work, start. cbn [threads heap]. induction n as [|n IH]; [done|].
    change (replicate (S n) ?x) with (x :: replicate n x). cbn [sum_list_with]. rewrite IH. cbn [fuel]. lia. }
  revert c. induction m as [|m IH]; intros c Hr; [inversion Hr; subst; lia|].
  apply nsteps_inv_r in Hr as (c1 & Hr & [t Hst]). specialize (IH c1 Hr).
  pose proof (map_step_work t c1 c (inv_steps n c1 (rtc_nsteps_2 _ _ _ Hr)) Hst). lia.
Qed.

End ConcurrentMeasure.

Section ConcurrentTheorems.
Import ConcurrentHashMap ConcurrentChains ConcurrentSpec ConcurrentMeasure.

(** With every thread returned, every mutex is free. *)
Lemma joined_unlocked c n b : inv c → joined c → buckets c !! n = Some b → lock b = None.
Proof.
  intros Hi Hj Hb. destruct (lock b) as [t|] eqn:Hl; [|done].
  apply (inv_lock _ Hi _ _ _ Hb) in Hl as (p & Hp & Hh).
  assert (p = Exit) as -> by (symmetry; exact (Forall_lookup_1 _ _ _ _ Hj Hp)). done.
Qed.

Lemma map_step_threads t c c' : inv c → step t c = Some c' → length (threads c') = length (threads c).
Proof. intros Hi Hs. destruct (step_fuel t c c' Hi Hs) as (? & ? & ? & _ & _ & -> & _). apply length_insert. Qed.

Lemma threads_exit n c :
  0 < n → rtc cstep (start n) c → joined c → ∃ t, threads c !! t = Some Exit.
Proof.
  intros Hn Hr Hj.
  assert (length (threads c) = n) as Hlen.
  { apply rtc_nsteps in Hr as [m Hr]. clear Hj. revert c Hr. induction m as [|m IH]; intros c Hr.
    - inversion Hr. subst. apply length_replicate.
    - apply nsteps_inv_r in Hr as (c1 & Hr & [t Hst]).
      rewrite (map_step_threads t c1 c); [by apply IH|by eapply inv_steps, rtc_nsteps_2|done]. }
  destruct (lookup_lt_is_Some_2 (threads c) 0) as [p Hp]; [lia|]. exists 0.
  by rewrite (Forall_lookup_1 _ _ _ _ Hj Hp).
Qed.

(** What [hashmap_lookup] finds once the mutexes are free. *)
Lemma lookup_joined c k :
  inv c → joined c → ∃ l b, buckets c !! Z.to_nat (hash k) = Some b ∧ chain (heap c) (head b) l ∧
    chain_ok (Z.to_nat (hash k)) l ∧ hashmap_lookup c k = Some (snd <$> find (λ kv, String.eqb kv.1 k) l).
Proof.
  intros Hi Hj. destruct (lookup_lt_is_Some_2 (buckets c) (Z.to_nat (hash k))) as [b Hb].
  { rewrite (inv_len _ Hi). unfold hash, NUM_BUCKETS. pose proof (Z.mod_pos_bound (hash_loop uchar 0 k) 16). lia. }
  destruct (inv_chain _ Hi _ _ Hb) as (l & Hl & Hok). exists l, b. split; [done|]. split; [done|]. split; [done|].
  unfold hashmap_lookup. rewrite Hb. pose proof (joined_unlocked _ _ _ Hi Hj Hb) as Hu.
  destruct b as [h ?]. simpl in Hu. subst. apply lookup_chain_spec; [done|]. destruct Hok. by eapply chain_length.
Qed.

Lemma find_key n l j :
  chain_ok n l → (key j, Z.of_nat j) ∈ l → snd <$> find (λ kv, String.eqb kv.1 (key j)) l = Some (Z.of_nat j).
Proof.
  intros [_ Hel]. induction l as [|[k v] l IH]; [by intros ?%elem_of_nil|]. intros Hin. simpl.
  destruct (String.eqb_spec k (key j)) as [->|Hne].
  - simpl. destruct (Hel (key j) v) as (i & _ & ->%key_inj & -> & _); [by left|done].
  - apply elem_of_cons in Hin as [Heq|Hin]; [congruence|]. apply IH; [|done].
    intros k' v' ?. apply Hel. by right.
Qed.

Lemma find_nothing (l : list (string * Z)) k : k ∉ l.*1 → find (λ kv, String.eqb kv.1 k) l = None.
Proof.
  induction l as [|[k' v] l IH]; [done|]. csimpl. intros [? ?]%not_elem_of_cons. simpl.
  destruct (String.eqb_spec k' k); [congruence|auto].
Qed.

(** A thread that owns a mutex can go on, and one that waits for a mutex waits
    for such a thread. *)
Lemma owner_steps c t b : inv c → owns (threads c) t b → ∃ c', cstep c c'.
Proof.
  intros Hi (p & Ht & Hh). enough (is_Some (step t c)) as [c' Hc'] by (by exists c', t). unfold step. rewrite Ht.
  destruct p as [i|i|i e|i q|i q|i|i q|i|]; try done;
    destruct (owner_knows c t _ i Hi Ht eq_refl eq_refl) as ([b' o] & l & Hb & _ & _ & _ & Hs & _); rewrite ?Hb; try by eexists.
  - destruct e as [q|]; [|by eexists]. destruct Hs as (l1 & l2 & _ & Hl2 & _).
    destruct (chain_load _ _ _ Hl2) as (k & v & nx & l' & _ & -> & _). by eexists.
  - destruct Hs as (l1 & v & nx & _ & -> & _). by eexists.
  - destruct Hs as (l1 & k & v & l2 & nx & _ & -> & _). by eexists.
Qed.

Lemma progress c : inv c → joined c ∨ ∃ c', cstep c c'.
Proof.
  intros Hi. destruct (decide (Forall (eq Exit) (threads c))) as [|Hn]; [by left|right].
  apply not_Forall_Exists in Hn; [|apply _].
  apply Exists_exists in Hn as (p & [t Ht]%list_elem_of_lookup & Hne).
  destruct p as [i|i|i e|i q|i q|i|i q|i|]; try by (eapply (owner_steps c t (idx i)); [done|]; by eexists).
  - destruct (bucket_of c i Hi) as [[h l] Hb]. destruct l as [t'|].
    + eapply (owner_steps c t' (idx i)); [done|]. by apply (inv_lock _ Hi _ _ _ Hb).
    + eexists _, t. unfold step. by rewrite Ht, Hb.
  - by destruct Hne.
Qed.

(** C30: whatever the interleaving of the loads, stores and mutex operations of
    the worker threads, once they have all returned the map holds exactly the
    hundred keys, each once and with its value (no insertion is lost and none is
    doubled), every mutex is free again, and [main] prints 42 for key42. *)
Theorem concurrent_map_result (n : nat) (c : config) :
  0 < n → rtc cstep (start n) c → joined c →
  (∀ i, i < 100 → hashmap_lookup c (key i) = Some (Some (Z.of_nat i))) ∧
  (∀ k, (∀ i, i < 100 → k ≠ key i) → hashmap_lookup c k = Some None) ∧
  (∀ m b, buckets c !! m = Some b → lock b = None ∧ ∃ l, chain (heap c) (head b) l ∧ NoDup l.*1) ∧
  main_prints c = Some ("key42 -> 42" +:+ nl).
Proof.
  intros Hn Hr Hj. pose proof (inv_steps _ _ Hr) as Hi.
  assert (∀ i, i < 100 → hashmap_lookup c (key i) = Some (Some (Z.of_nat i))) as Hall.
  { intros i Hlt. destruct (threads_exit n c Hn Hr Hj) as [t Ht].
    destruct (inv_pc _ Hi _ _ Ht) as (_ & Hcur & _).
    destruct (Hcur i Hlt) as (b & l & Hb & Hl & Hin).
    destruct (lookup_joined c (key i) Hi Hj) as (l' & b' & Hb' & Hl' & Hok & ->). f_equal.
    assert (b' = b) as -> by (unfold idx in Hb; congruence).
    rewrite (entries_fun _ _ _ _ Hl Hl') in Hin. by eapply find_key. }
  split; [done|]. split; [|split].
  - intros k Hk. destruct (lookup_joined c k Hi Hj) as (l & b & Hb & Hl & [_ Hel] & ->).
    rewrite find_nothing; [done|]. intros ([a v] & -> & Hin)%list_elem_of_fmap.
    destruct (Hel a v Hin) as (i & ? & -> & _). by apply (Hk i).
  - intros m b Hb. split; [by eapply joined_unlocked|].
    destruct (inv_chain _ Hi _ _ Hb) as (l & ? & [? _]). by exists l.
  - unfold main_prints. change "key42" with (key 42). by rewrite (Hall 42) by lia.
Qed.

(** The threads exclude each other and always finish: no two threads own
    the mutex of one bucket, a configuration whose threads have not all
    returned can take a step (there is no deadlock), and no run is longer than
    30000 steps per thread. *)
Theorem concurrent_map_live (n m : nat) (c : config) :
  nsteps cstep m (start n) c →
  (∀ t1 t2 b, owns (threads c) t1 b → owns (threads c) t2 b → t1 = t2) ∧
  (joined c ∨ ∃ c', cstep c c') ∧ m ≤ n * (100 * 300).
Proof.
  intros Hr. pose proof (inv_steps _ _ (rtc_nsteps_2 _ _ _ Hr)) as Hi. split; [|split].
  - intros t1 t2 b H1 H2.
    assert (b < 16) as Hlt by (destruct H1 as (p & _ & Hh); destruct p; simplify_eq/=; apply idx_lt).
    destruct (lookup_lt_is_Some_2 (buckets c) b) as [bk Hb]; [by rewrite (inv_len _ Hi)|].
    apply (inv_lock _ Hi _ _ _ Hb) in H1. apply (inv_lock _ Hi _ _ _ Hb) in H2. congruence.
  - by apply progress.
  - pose proof (map_run_length n m c Hr). lia.
Qed.

(** One run of [main]: the threads take turns while they can. *)
Fixpoint take_turns (fuel : nat) (c : config) : config :=
  match fuel with
  | O => c
  | S fuel =>
      match step (fuel mod 2) c with
      | Some c' => take_turns fuel c'
      | None =>
          match step (S fuel mod 2) c with
          | Some c' => take_turns fuel c'
          | None => c
          end
      end
  end.

Lemma take_turns_steps fuel c : rtc cstep c (take_turns fuel c).
Proof.
  revert c. induction fuel as [|fuel IH]; intros c; [done|]. cbn [take_turns].
  destruct (step (fuel mod 2) c) as [c'|] eqn:H1; [|destruct (step (S fuel mod 2) c) as [c'|] eqn:H2];
    [| |done]; (eapply rtc_l; [eexists; eassumption|apply IH]).
Qed.

Lemma concurrent_map_result_witness :
  main_prints (take_turns 4000 (start 2)) = Some ("key42 -> 42" +:+ nl).
Proof.
  refine (proj2 (proj2 (proj2 (concurrent_map_result 2 (take_turns 4000 (start 2)) _ _ _)))).
  - lia.
  - apply take_turns_steps.
  - apply (bool_decide_unpack (Forall (eq Exit) (threads (take_turns 4000 (start 2))))).
    vm_compute. exact I.
Defined.

Lemma concurrent_map_live_witness : ∃ c', joined c' ∨ ∃ c'', cstep c' c''.
Proof.
  exists (start 2). refine (proj1 (proj2 (concurrent_map_live 2 0 (start 2) _))). apply nsteps_O.
Defined.

End ConcurrentTheorems.
