(* ===== verification/LruCache.v ===== *)
(** * The LRU cache of [day-5(Leetcode_LRU)/leetcode-lru-cache.c]

    Module [Leetcode] models the file: the nodes live in an explicit memory
    because a doubly linked list and the hash table share them.  Module
    [LruSpec] states what an LRU cache is, on a list of pairs in the order of
    use, and the theorems show that the code implements it without touching
    freed memory and without losing a node. *)
From stdpp Require Import base list gmap strings pretty.
From Stdlib Require Import ZArith Lia.
From S2P Require Import Prelude.
Local Open Scope Z_scope.

Module Leetcode.

Definition HASH_SIZE : Z := 10007.

Record Node : Set := mkNode { key : Z; value : Z; prev : ptr; next : ptr }.

(** [struct Entry]: a chain of them belongs to its bucket alone. *)
Record Entry : Set := mkEntry { ekey : Z; node : ptr }.

Record LRUCache : Set := mkCache {
  capacity : Z;
  size : Z;
  hashTable : list (list Entry);
  head : ptr;
  tail : ptr }.

(** The object and the memory that holds the nodes. *)
Record state : Set := mkstate { obj : LRUCache; mem : gmap positive Node }.

Definition set_size (z : Z) (o : LRUCache) : LRUCache :=
  mkCache (capacity o) z (hashTable o) (head o) (tail o).
Definition set_table (t : list (list Entry)) (o : LRUCache) : LRUCache :=
  mkCache (capacity o) (size o) t (head o) (tail o).
Definition set_head (p : ptr) (o : LRUCache) : LRUCache :=
  mkCache (capacity o) (size o) (hashTable o) p (tail o).
Definition set_tail (p : ptr) (o : LRUCache) : LRUCache :=
  mkCache (capacity o) (size o) (hashTable o) (head o) p.

Definition upd (f : LRUCache → LRUCache) : C state unit :=
  modify (λ s, mkstate (f (obj s)) (mem s)).

(** [p->...] and the assignment of all the fields of [*p]. *)
Definition rd (p : ptr) : C state Node := s ← get; lift (load (mem s) p).
Definition wr (p : ptr) (n : Node) : C state unit :=
  s ← get; m ← lift (store (mem s) p n); put (mkstate (obj s) m).

Definition set_value (p : ptr) (v : Z) : C state unit :=
  n ← rd p; wr p (mkNode (key n) v (prev n) (next n)).
Definition set_prev (p q : ptr) : C state unit :=
  n ← rd p; wr p (mkNode (key n) (value n) q (next n)).
Definition set_next (p q : ptr) : C state unit :=
  n ← rd p; wr p (mkNode (key n) (value n) (prev n) q).

(** [unsigned int hash(int)]: the remainder, which may be negative, converted
    to 32 bits. *)
Definition hash (k : Z) : Z := (Z.rem k HASH_SIZE) mod 2 ^ 32.

Definition createNode (k v : Z) : C state ptr :=
  s ← get;
  let '(l, m) := malloc (mem s) (mkNode k v None None) in
  put (mkstate (obj s) m) ;; mret (Some l).

Definition addToHead (n : ptr) : C state unit :=
  s ← get;
  set_next n (head (obj s)) ;;
  set_prev n None ;;
  (match head (obj s) with
   | Some _ => set_prev (head (obj s)) n
   | None => mret tt
   end) ;;
  upd (set_head n) ;;
  match tail (obj s) with
  | None => upd (set_tail n)
  | Some _ => mret tt
  end.

Definition removeNode (n : ptr) : C state unit :=
  x ← rd n;
  (match prev x with
   | Some _ => set_next (prev x) (next x)
   | None => upd (set_head (next x))
   end) ;;
  y ← rd n;
  match next y with
  | Some _ => set_prev (next y) (prev y)
  | None => upd (set_tail (prev y))
  end.

Definition removeTail : C state ptr :=
  s ← get;
  removeNode (tail (obj s)) ;;
  mret (tail (obj s)).

Definition moveToHead (n : ptr) : C state unit := removeNode n ;; addToHead n.

Fixpoint entry_loop (entry : list Entry) (k : Z) : option Entry :=
  match entry with
  | [] => None
  | e :: entry => if ekey e =? k then Some e else entry_loop entry k
  end.

Definition hashGetEntry (k : Z) : C state (option Entry) :=
  s ← get;
  entry ← lift (aget (hashTable (obj s)) (hash k));
  mret (entry_loop entry k).

Definition hashGet (k : Z) : C state ptr :=
  entry ← hashGetEntry k;
  mret (match entry with Some e => node e | None => None end).

(** [entry->node = node] for the entry that [hashGetEntry] returned. *)
Fixpoint entry_set (entry : list Entry) (k : Z) (n : ptr) : list Entry :=
  match entry with
  | [] => []
  | e :: entry =>
      if ekey e =? k then mkEntry (ekey e) n :: entry else e :: entry_set entry k n
  end.

Definition hashPut (k : Z) (n : ptr) : C state unit :=
  entry ← hashGetEntry k;
  s ← get;
  bucket ← lift (aget (hashTable (obj s)) (hash k));
  t ← lift (aset (hashTable (obj s)) (hash k)
              (match entry with
               | Some _ => entry_set bucket k n
               | None => mkEntry k n :: bucket
               end));
  upd (set_table t).

Fixpoint entry_remove (entry : list Entry) (k : Z) : list Entry :=
  match entry with
  | [] => []
  | e :: entry => if ekey e =? k then entry else e :: entry_remove entry k
  end.

Definition hashRemove (k : Z) : C state unit :=
  s ← get;
  entry ← lift (aget (hashTable (obj s)) (hash k));
  t ← lift (aset (hashTable (obj s)) (hash k) (entry_remove entry k));
  upd (set_table t).

(** [HASH_SIZE] null pointers. *)
Definition no_entries : list (list Entry) := replicate (Z.to_nat HASH_SIZE) [].
Arguments no_entries : simpl never.

Definition lRUCacheCreate (cap : Z) : state :=
  mkstate (mkCache cap 0 no_entries None None) ∅.

Definition lRUCacheGet (k : Z) : C state Z :=
  n ← hashGet k;
  match n with
  | None => mret (-1)
  | Some _ => moveToHead n ;; x ← rd n; mret (value x)
  end.

Definition free_node (p : ptr) : C state unit :=
  s ← get; m ← lift (free (mem s) p); put (mkstate (obj s) m).

(** The test after [obj->size++]. *)
Definition evict : C state unit :=
  s ← get;
  if capacity (obj s) <? size (obj s) then
    t ← removeTail;
    x ← rd t;
    hashRemove (key x) ;;
    free_node t ;;
    upd (λ o, set_size (size o - 1) o)
  else mret tt.

Definition lRUCachePut (k v : Z) : C state unit :=
  n ← hashGet k;
  match n with
  | Some _ => set_value n v ;; moveToHead n
  | None =>
      newNode ← createNode k v;
      addToHead newNode ;;
      hashPut k newNode ;;
      upd (λ o, set_size (size o + 1) o) ;;
      evict
  end.

(** The first loop of [lRUCacheFree]; the chains of entries and the object are
    freed after it. *)
Fixpoint free_loop (fuel : nat) (current : ptr) : C state unit :=
  match current with
  | None => mret tt
  | Some _ =>
      match fuel with
      | O => lift (UB OutOfFuel)
      | S fuel =>
          x ← rd current;
          free_node current ;;
          free_loop fuel (next x)
      end
  end.

Definition lRUCacheFree (fuel : nat) : C state unit :=
  s ← get;
  free_loop fuel (head (obj s)) ;;
  upd (set_table no_entries).

End Leetcode.

(** ** What an LRU cache is *)
Module LruSpec.

(** Pairs from the most to the least recently used. *)
Abbreviation cache := (list (Z * Z)).

Definition forget (k : Z) (c : cache) : cache := filter (λ p, p.1 ≠ k) c.

Fixpoint value_of (k : Z) (c : cache) : option Z :=
  match c with
  | [] => None
  | (k', v) :: c => if k' =? k then Some v else value_of k c
  end.

Definition cget (k : Z) (c : cache) : Z * cache :=
  match value_of k c with
  | Some v => (v, (k, v) :: forget k c)
  | None => (-1, c)
  end.

Definition cput (cap : nat) (k v : Z) (c : cache) : cache :=
  match value_of k c with
  | Some _ => (k, v) :: forget k c
  | None => take cap ((k, v) :: c)
  end.

End LruSpec.

(** ** Doubly linked segments *)
Module LruProof.
Import Leetcode LruSpec.

(** The nodes of a segment with their addresses. *)
Abbreviation items := (list (positive * (Z * Z))).

Definition hd_ptr (its : items) (nxt : ptr) : ptr :=
  match its with [] => nxt | (p, _) :: _ => Some p end.

Fixpoint last_ptr (prv : ptr) (its : items) : ptr :=
  match its with [] => prv | (p, _) :: its => last_ptr (Some p) its end.

(** [its] is laid out in [h] between the pointers [prv] and [nxt]. *)
Fixpoint seg (h : gmap positive Node) (prv : ptr) (its : items) (nxt : ptr) : Prop :=
  match its with
  | [] => True
  | (p, (k, v)) :: its' =>
      h !! p = Some (mkNode k v prv (hd_ptr its' nxt)) ∧ seg h (Some p) its' nxt
  end.

Lemma hd_ptr_app a b nxt : hd_ptr (a ++ b) nxt = hd_ptr a (hd_ptr b nxt).
Proof. by destruct a as [|[]]. Qed.

Lemma last_ptr_app prv a b : last_ptr prv (a ++ b) = last_ptr (last_ptr prv a) b.
Proof. revert prv. induction a as [|[p kv] a IH]; intros prv; simpl; auto. Qed.

Lemma seg_app h prv a b nxt :
  seg h prv (a ++ b) nxt ↔ seg h prv a (hd_ptr b nxt) ∧ seg h (last_ptr prv a) b nxt.
Proof.
  revert prv. induction a as [|[p [k v]] a IH]; intros prv; simpl; [tauto|].
  rewrite IH, hd_ptr_app. tauto.
Qed.

Lemma seg_other h prv its nxt p n :
  p ∉ its.*1 → seg (<[p := n]> h) prv its nxt ↔ seg h prv its nxt.
Proof.
  revert prv. induction its as [|[q [k v]] its IH]; intros prv; simpl; [done|].
  intros [Hne Hp]%not_elem_of_cons. rewrite lookup_insert_ne by done. by rewrite IH.
Qed.

(** The last node of a segment, and the effect of changing its [next]. *)
Lemma seg_last h prv a p k v nxt :
  seg h prv (a ++ [(p, (k, v))]) nxt → p ∉ a.*1 →
  h !! p = Some (mkNode k v (last_ptr prv a) nxt) ∧
  ∀ nxt', seg (<[p := mkNode k v (last_ptr prv a) nxt']> h) prv (a ++ [(p, (k, v))]) nxt'.
Proof.
  intros [Ha [Hp _]]%seg_app Hin. split; [done|]. intros nxt'. apply seg_app.
  split; [by apply seg_other|]. simpl. by rewrite lookup_insert_eq.
Qed.

(** The first node of a segment, and the effect of changing its [prev]. *)
Lemma seg_first h prv p k v b nxt :
  seg h prv ((p, (k, v)) :: b) nxt → p ∉ b.*1 →
  h !! p = Some (mkNode k v prv (hd_ptr b nxt)) ∧
  ∀ prv', seg (<[p := mkNode k v prv' (hd_ptr b nxt)]> h) prv' ((p, (k, v)) :: b) nxt.
Proof.
  intros [Hp Hb] Hin. split; [done|]. intros prv'. simpl. rewrite lookup_insert_eq.
  split; [done|]. by apply seg_other.
Qed.

(** The list that the object points to, in a memory with domain [D]. *)
Record linked (s : state) (its : items) : Prop := mklinked {
  linked_seg : seg (mem s) None its None;
  linked_nodup : NoDup its.*1;
  linked_head : head (obj s) = hd_ptr its None;
  linked_tail : tail (obj s) = last_ptr None its
}.

(** [s'] is [s] but for the links. *)
Definition frame (s s' : state) : Prop :=
  dom (mem s') = dom (mem s) ∧ capacity (obj s') = capacity (obj s) ∧
  size (obj s') = size (obj s) ∧ hashTable (obj s') = hashTable (obj s).

(** *** Writes *)

Lemma rd_ok s p n : mem s !! p = Some n → rd (Some p) s = Ok (n, s, []).
Proof. intros Hp. unfold rd. c_run. by rewrite (load_Some _ _ _ Hp). Qed.

Lemma set_value_ok s p n v :
  mem s !! p = Some n →
  set_value (Some p) v s =
  Ok (tt, mkstate (obj s) (<[p := mkNode (key n) v (prev n) (next n)]> (mem s)), []).
Proof.
  intros Hp. unfold set_value, mbind, C_bind. rewrite (rd_ok _ _ _ Hp). unfold wr. c_run.
  by rewrite (store_Some _ _ _ _ Hp).
Qed.

Lemma set_prev_ok s p n q :
  mem s !! p = Some n →
  set_prev (Some p) q s =
  Ok (tt, mkstate (obj s) (<[p := mkNode (key n) (value n) q (next n)]> (mem s)), []).
Proof.
  intros Hp. unfold set_prev, mbind, C_bind. rewrite (rd_ok _ _ _ Hp). unfold wr. c_run.
  by rewrite (store_Some _ _ _ _ Hp).
Qed.

Lemma set_next_ok s p n q :
  mem s !! p = Some n →
  set_next (Some p) q s =
  Ok (tt, mkstate (obj s) (<[p := mkNode (key n) (value n) (prev n) q]> (mem s)), []).
Proof.
  intros Hp. unfold set_next, mbind, C_bind. rewrite (rd_ok _ _ _ Hp). unfold wr. c_run.
  by rewrite (store_Some _ _ _ _ Hp).
Qed.

Lemma dom_write (h : gmap positive Node) p n n' :
  h !! p = Some n → dom (<[p := n']> h) = dom h.
Proof. intros Hp. rewrite dom_insert_L. apply elem_of_dom_2 in Hp. set_solver. Qed.

Lemma last_ptr_snoc prv a p kv : last_ptr prv (a ++ [(p, kv)]) = Some p.
Proof. by rewrite last_ptr_app. Qed.

(** *** [addToHead] *)
Lemma addToHead_ok s its p n :
  linked s its → p ∉ its.*1 → mem s !! p = Some n →
  ∃ s', addToHead (Some p) s = Ok (tt, s', []) ∧
        linked s' ((p, (key n, value n)) :: its) ∧ frame s s'.
Proof.
  intros [Hseg Hnd Hhd Htl] Hp Hn. destruct s as [o h]. simpl in *.
  unfold addToHead. unfold mbind at 1, C_bind at 1, get. simpl.
  unfold mbind at 1, C_bind at 1. rewrite (set_next_ok _ _ n) by done. simpl.
  unfold mbind at 1, C_bind at 1.
  rewrite (set_prev_ok _ _ (mkNode (key n) (value n) (prev n) (head o)))
    by apply lookup_insert_eq. simpl. rewrite insert_insert_eq.
  set (h1 := <[p := mkNode (key n) (value n) None (head o)]> h).
  assert (h1 !! p = Some (mkNode (key n) (value n) None (head o))) as Hp1
    by apply lookup_insert_eq.
  assert (seg h1 None its None) as Hseg1 by (by apply seg_other).
  destruct its as [|[q [k v]] its].
  - simpl in Hhd, Htl. rewrite Hhd in *. rewrite Htl. eexists. split; [by c_run|].
    split; [constructor; simpl; [by split|apply NoDup_singleton|done|done]|].
    repeat split. simpl. by eapply dom_write.
  - simpl in Hhd, Htl, Hp, Hnd. apply not_elem_of_cons in Hp as [Hpq Hp].
    apply NoDup_cons in Hnd as [Hq Hnd].
    destruct (seg_first _ _ _ _ _ _ _ Hseg1 Hq) as [Hq1 Hset].
    rewrite Hhd in *. unfold mbind at 1, C_bind at 1.
    rewrite (set_prev_ok (mkstate o h1) q _ _ Hq1). simpl.
    destruct (tail o) as [tl|] eqn:Htail;
      [|destruct its as [|[? ?] ?] using rev_ind; simpl in Htl; try done;
        by rewrite last_ptr_snoc in Htl].
    eexists. split; [by c_run|]. split.
    + constructor; simpl; [|repeat constructor; auto; set_solver|done|by rewrite Htail].
      rewrite lookup_insert_ne by done. split; [exact Hp1|exact (Hset (Some p))].
    + repeat split. simpl. rewrite (dom_write _ _ _ _ Hq1). by eapply dom_write.
Qed.

(** *** [removeNode] *)

(** [a] and [b] around the node [p], while it is being unlinked. *)
Record around (s : state) (a : items) (p : positive) (b : items)
    (na : ptr) (pb : ptr) : Prop := mkaround {
  around_left : seg (mem s) None a na;
  around_right : seg (mem s) pb b None;
  around_nodup : NoDup (a.*1 ++ p :: b.*1)
}.

Lemma NoDup_around {A} (a b : list A) x :
  NoDup (a ++ x :: b) →
  (x ∉ a) ∧ (x ∉ b) ∧ NoDup a ∧ NoDup b ∧ ∀ y, y ∈ a → y ∉ b.
Proof.
  intros (Ha & Hab & [Hx Hb]%NoDup_cons)%NoDup_app. repeat split; auto.
  - intros Hxa. apply (Hab x Hxa). by left.
  - intros y Hy ?. apply (Hab y Hy). by right.
Qed.

Lemma unlink_prev s a p b x :
  around s a p b (Some p) (Some p) →
  mem s !! p = Some x → prev x = last_ptr None a → next x = hd_ptr b None →
  head (obj s) = hd_ptr a (Some p) →
  ∃ s1, (match prev x with
         | Some _ => set_next (prev x) (next x)
         | None => upd (set_head (next x))
         end) s = Ok (tt, s1, []) ∧
    around s1 a p b (hd_ptr b None) (Some p) ∧ mem s1 !! p = Some x ∧
    head (obj s1) = hd_ptr a (hd_ptr b None) ∧ tail (obj s1) = tail (obj s) ∧ frame s s1.
Proof.
  intros [Ha Hb Hnd] Hp -> -> Hhd. pose proof (NoDup_around _ _ _ Hnd) as (Hpa & Hpb & Hna & _ & Hdis).
  destruct a as [|[q [k v]] a _] using rev_ind.
  - eexists. split; [by c_run|]. simpl. repeat split; auto.
  - rewrite last_ptr_snoc, fmap_app in *. simpl in *.
    apply NoDup_app in Hna as (_ & Hna & _).
    assert (q ∉ a.*1) as Hqa by (intros Hq; apply (Hna q Hq); by left).
    destruct (seg_last _ _ _ _ _ _ _ Ha Hqa) as [Hq Hset].
    rewrite (set_next_ok s q _ _ Hq). simpl. eexists. split; [done|]. simpl.
    split; [split; simpl|].
    + apply Hset.
    + apply seg_other; [|done]. apply Hdis. set_solver.
    + by rewrite fmap_app.
    + split; [rewrite lookup_insert_ne; [done|]; set_solver|].
      split; [by rewrite Hhd, !hd_ptr_app; destruct a as [|[]]|].
      split; [done|]. repeat split. simpl. by eapply dom_write.
Qed.

Lemma unlink_next s a p b x :
  around s a p b (hd_ptr b None) (Some p) →
  mem s !! p = Some x → prev x = last_ptr None a → next x = hd_ptr b None →
  tail (obj s) = last_ptr (Some p) b →
  ∃ s1, (match next x with
         | Some _ => set_prev (next x) (prev x)
         | None => upd (set_tail (prev x))
         end) s = Ok (tt, s1, []) ∧
    around s1 a p b (hd_ptr b None) (last_ptr None a) ∧ mem s1 !! p = Some x ∧
    tail (obj s1) = last_ptr None (a ++ b) ∧ head (obj s1) = head (obj s) ∧ frame s s1.
Proof.
  intros [Ha Hb Hnd] Hp -> -> Htl. pose proof (NoDup_around _ _ _ Hnd) as (Hpa & Hpb & _ & Hnb & Hdis).
  rewrite last_ptr_app. destruct b as [|[q [k v]] b].
  - eexists. split; [by c_run|]. simpl. repeat split; auto.
  - simpl in Hpb, Hnb. apply not_elem_of_cons in Hpb as [Hpq Hpb].
    apply NoDup_cons in Hnb as [Hqb Hnb].
    destruct (seg_first _ _ _ _ _ _ _ Hb Hqb) as [Hq Hset]. simpl.
    rewrite (set_prev_ok s q _ _ Hq). simpl. eexists. split; [done|]. simpl.
    split; [split; simpl|].
    + apply seg_other; [|done]. intros Hqa. apply (Hdis q Hqa). by left.
    + apply (Hset (last_ptr None a)).
    + done.
    + split; [by rewrite lookup_insert_ne|]. split; [done|]. split; [done|].
      repeat split. simpl. by eapply dom_write.
Qed.

Lemma frame_trans s1 s2 s3 : frame s1 s2 → frame s2 s3 → frame s1 s3.
Proof. unfold frame. naive_solver congruence. Qed.

Lemma removeNode_ok s a p k v b :
  linked s (a ++ (p, (k, v)) :: b) →
  ∃ s' x, removeNode (Some p) s = Ok (tt, s', []) ∧ linked s' (a ++ b) ∧ frame s s' ∧
          mem s' !! p = Some x ∧ key x = k ∧ value x = v.
Proof.
  intros [Hseg Hnd Hhd Htl].
  apply seg_app in Hseg as [Ha [Hp Hb]]. rewrite fmap_app in Hnd.
  rewrite hd_ptr_app in Hhd. rewrite last_ptr_app in Htl. simpl in *.
  destruct (unlink_prev s a p b _ (mkaround _ _ _ _ _ _ Ha Hb Hnd) Hp eq_refl eq_refl Hhd)
    as (s1 & Hs1 & Har1 & Hp1 & Hhd1 & Htl1 & Hf1).
  destruct (unlink_next s1 a p b _ Har1 Hp1 eq_refl eq_refl) as (s2 & Hs2 & Har2 & Hp2 & Htl2 & Hhd2 & Hf2);
    [congruence|].
  exists s2. eexists. split; [|split; [|split; [|split; [exact Hp2|done]]]].
  - unfold removeNode, mbind, C_bind. rewrite (rd_ok _ _ _ Hp), Hs1. 
    rewrite (rd_ok _ _ _ Hp1), Hs2. done.
  - destruct Har2 as [Ha2 Hb2 Hnd2]. constructor.
    + apply seg_app. done.
    + rewrite fmap_app. apply NoDup_around in Hnd2 as (_ & _ & ? & ? & ?).
      apply NoDup_app. auto.
    + by rewrite hd_ptr_app, Hhd2.
    + done.
  - by eapply frame_trans.
Qed.

(** Unlinking and relinking in front. *)
Lemma moveToHead_ok s a p k v b :
  linked s (a ++ (p, (k, v)) :: b) →
  ∃ s', moveToHead (Some p) s = Ok (tt, s', []) ∧
        linked s' ((p, (k, v)) :: a ++ b) ∧ frame s s'.
Proof.
  intros Hl. pose proof (linked_nodup _ _ Hl) as Hnd. rewrite fmap_app in Hnd. simpl in Hnd.
  apply NoDup_around in Hnd as (Hpa & Hpb & _).
  destruct (removeNode_ok _ _ _ _ _ _ Hl) as (s1 & x & Hr & Hl1 & Hf1 & Hx & <- & <-).
  destruct (addToHead_ok s1 (a ++ b) p x) as (s2 & Hadd & Hl2 & Hf2); [done| |done|].
  { rewrite fmap_app. set_solver. }
  exists s2. split; [|split; [done|by eapply frame_trans]].
  unfold moveToHead, mbind, C_bind. by rewrite Hr, Hadd.
Qed.

(** *** The hash table *)

Record table_ok (t : list (list Entry)) (its : items) : Prop := mktable {
  table_len : Z.of_nat (length t) = HASH_SIZE;
  table_nodup i b : t !! i = Some b → NoDup (ekey <$> b);
  table_find k b e : 0 ≤ k → t !! Z.to_nat (hash k) = Some b →
    entry_loop b k = Some e ↔ ∃ p v, e = mkEntry k (Some p) ∧ (p, (k, v)) ∈ its
}.

Lemma lru_hash_range k : 0 ≤ k → 0 ≤ hash k < HASH_SIZE.
Proof.
  intros Hk. unfold hash, HASH_SIZE. rewrite Z.rem_mod_nonneg by lia.
  pose proof (Z.mod_pos_bound k 10007). rewrite Z.mod_small; lia.
Qed.

Lemma bucket_get t its k :
  table_ok t its → 0 ≤ k →
  ∃ b, aget t (hash k) = Ok b ∧ t !! Z.to_nat (hash k) = Some b ∧
       ∀ b', aset t (hash k) b' = Ok (<[Z.to_nat (hash k) := b']> t).
Proof.
  intros Ht Hk. pose proof (lru_hash_range k Hk). pose proof (table_len _ _ Ht).
  destruct (lookup_lt_is_Some_2 t (Z.to_nat (hash k))) as [b Hb]; [lia|].
  exists b. split; [by apply aget_Z; [lia|]|]. split; [done|]. intros b'.
  apply aset_lt. lia.
Qed.

Lemma entry_loop_None b k : entry_loop b k = None ↔ k ∉ (ekey <$> b).
Proof.
  induction b as [|e b IH]; simpl; [set_solver|].
  rewrite not_elem_of_cons. destruct (Z.eqb_spec (ekey e) k).
  - naive_solver.
  - rewrite IH. naive_solver.
Qed.

Lemma entry_loop_remove b k k' :
  NoDup (ekey <$> b) →
  entry_loop (entry_remove b k) k' = if k' =? k then None else entry_loop b k'.
Proof.
  induction b as [|e b IH]; simpl; [by destruct (k' =? k)|].
  intros [He Hnd]%NoDup_cons. destruct (Z.eqb_spec (ekey e) k) as [<-|Hne].
  - destruct (Z.eqb_spec k' (ekey e)) as [Hk|].
    + rewrite Hk. by apply entry_loop_None.
    + destruct (Z.eqb_spec (ekey e) k'); congruence.
  - simpl. rewrite IH by done.
    destruct (Z.eqb_spec (ekey e) k'); [|done].
    destruct (Z.eqb_spec k' k); congruence.
Qed.

Lemma entry_remove_nodup b k : NoDup (ekey <$> b) → NoDup (ekey <$> entry_remove b k).
Proof.
  induction b as [|e b IH]; [done|]. simpl. intros [He Hnd]%NoDup_cons.
  destruct (ekey e =? k); [done|]. simpl. constructor; [|auto].
  intros Hin. apply He. clear -Hin. induction b as [|e' b IH]; simpl in *; [done|].
  destruct (ekey e' =? k); simpl in *; set_solver.
Qed.

(** The table only depends on which node holds which key. *)
Lemma table_ext t its its' :
  table_ok t its →
  (∀ k p, (∃ v, (p, (k, v)) ∈ its') ↔ ∃ v, (p, (k, v)) ∈ its) →
  table_ok t its'.
Proof.
  intros [Hlen Hnd Hf] Hiff. constructor; [done|done|]. intros k b e Hk Hb.
  rewrite (Hf k b e Hk Hb). split.
  - intros (p & v & -> & Hin). destruct (proj2 (Hiff k p)) as [w ?]; eauto.
  - intros (p & v & -> & Hin). destruct (proj1 (Hiff k p)) as [w ?]; eauto.
Qed.

(** Two keys of one bucket. *)
Lemma table_put t its k v p b :
  table_ok t its → 0 ≤ k → t !! Z.to_nat (hash k) = Some b →
  entry_loop b k = None →
  table_ok (<[Z.to_nat (hash k) := mkEntry k (Some p) :: b]> t) ((p, (k, v)) :: its).
Proof.
  intros Ht Hk Hb Hnone. pose proof Ht as [Hlen Hnd Hf].
  assert (∀ q w, (q, (k, w)) ∉ its) as Habs.
  { intros q w Hin. assert (entry_loop b k = Some (mkEntry k (Some q))) as Hs
      by (apply (Hf k b _ Hk Hb); eauto). congruence. }
  constructor.
  - by rewrite length_insert.
  - intros i b' [(_ & <- & _)|[_ ?]]%list_lookup_insert_Some; [|eauto].
    simpl. constructor; [by apply entry_loop_None|eauto].
  - intros k' b' e Hk' [(Heq & <- & _)|[Hne Hb']]%list_lookup_insert_Some.
    + simpl. destruct (Z.eqb_spec k k') as [<-|Hkk].
      * split; [intros [= <-]; exists p, v; set_solver|].
        intros (q & w & -> & [[= -> _]|Hin]%elem_of_cons); [done|]. by destruct (Habs q w).
      * rewrite Heq in Hb. rewrite (Hf k' b e Hk' Hb). set_solver.
    + rewrite (Hf k' b' e Hk' Hb'). split.
      * intros (q & w & -> & ?). exists q, w. set_solver.
      * intros (q & w & -> & [[= -> -> ->]|Hin]%elem_of_cons); [done|eauto].
Qed.

Lemma table_remove t its its' k b :
  table_ok t its → 0 ≤ k → t !! Z.to_nat (hash k) = Some b →
  (∀ q k' w, (q, (k', w)) ∈ its' ↔ k' ≠ k ∧ (q, (k', w)) ∈ its) →
  table_ok (<[Z.to_nat (hash k) := entry_remove b k]> t) its'.
Proof.
  intros Ht Hk Hb Hits. pose proof Ht as [Hlen Hnd Hf]. constructor.
  - by rewrite length_insert.
  - intros i b' [(_ & <- & _)|[_ ?]]%list_lookup_insert_Some; [|eauto].
    apply entry_remove_nodup. eauto.
  - intros k' b' e Hk' [(Heq & <- & _)|[Hne Hb']]%list_lookup_insert_Some.
    + rewrite entry_loop_remove by eauto. destruct (Z.eqb_spec k' k) as [->|Hkk].
      * split; [done|]. intros (q & w & _ & Hin). by apply Hits in Hin as [? _].
      * rewrite Heq in Hb. rewrite (Hf k' b e Hk' Hb).
        split; intros (q & w & -> & Hin); exists q, w; (split; [done|]);
          [by apply Hits|by apply Hits in Hin as [_ ?]].
    + rewrite (Hf k' b' e Hk' Hb').
      assert (k' ≠ k) as Hkk by congruence.
      split; intros (q & w & -> & Hin); exists q, w; (split; [done|]);
        [by apply Hits|by apply Hits in Hin as [_ ?]].
Qed.

(** *** The whole cache *)

Record rep (cap : nat) (s : state) (its : items) : Prop := mkrep {
  rep_linked : linked s its;
  rep_keys : NoDup its.*2.*1;
  rep_pos : Forall (λ it, 0 ≤ it.2.1) its;
  rep_dom : dom (mem s) = list_to_set its.*1;
  rep_table : table_ok (hashTable (obj s)) its;
  rep_size : size (obj s) = Z.of_nat (length its);
  rep_cap : capacity (obj s) = Z.of_nat cap;
  rep_len : (length its ≤ cap)%nat
}.

(** The memory holds the cache [c], and nothing else. *)
Definition cache_rep (cap : nat) (s : state) (c : cache) : Prop :=
  ∃ its, rep cap s its ∧ c = its.*2.

Lemma value_of_present (a b : cache) k v :
  k ∉ a.*1 → value_of k (a ++ (k, v) :: b) = Some v.
Proof.
  induction a as [|[k' w] a IH]; simpl; [by rewrite Z.eqb_refl|].
  intros [Hne Ha]%not_elem_of_cons. destruct (Z.eqb_spec k' k); [congruence|auto].
Qed.

Lemma value_of_absent (c : cache) k : k ∉ c.*1 → value_of k c = None.
Proof.
  induction c as [|[k' w] c IH]; simpl; [done|].
  intros [Hne Hc]%not_elem_of_cons. destruct (Z.eqb_spec k' k); [congruence|auto].
Qed.

Lemma forget_absent (c : cache) k : k ∉ c.*1 → forget k c = c.
Proof.
  intros Hk. apply Forall_filter_id, Forall_forall. intros x Hx Heq. apply Hk.
  rewrite <- Heq. by apply list_elem_of_fmap_2.
Qed.

Lemma forget_split (a b : cache) k v :
  k ∉ a.*1 → k ∉ b.*1 → forget k (a ++ (k, v) :: b) = a ++ b.
Proof.
  intros Ha Hb. unfold forget. rewrite filter_app, filter_cons_False by auto.
  f_equal; by apply forget_absent.
Qed.

(** What [hashGet] finds. *)
Lemma hashGet_ok cap s its k :
  rep cap s its → 0 ≤ k →
  (∃ a p v b, its = a ++ (p, (k, v)) :: b ∧ (k ∉ a.*2.*1) ∧ (k ∉ b.*2.*1) ∧
     hashGet k s = Ok (Some p, s, [])) ∨
  ((k ∉ its.*2.*1) ∧ hashGet k s = Ok (None, s, [])).
Proof.
  intros Hr Hk. destruct (bucket_get _ _ k (rep_table _ _ _ Hr) Hk) as (bk & Hget & Hb & _).
  pose proof (table_find _ _ (rep_table _ _ _ Hr) k bk) as Hf.
  assert (hashGet k s = Ok (match entry_loop bk k with Some e => node e | None => None end, s, []))
    as Hg.
  { unfold hashGet, hashGetEntry. c_run. by rewrite Hget. }
  rewrite Hg. destruct (entry_loop bk k) as [e|] eqn:He.
  - left. destruct (proj1 (Hf e Hk Hb) eq_refl) as (p & v & -> & Hin).
    apply list_elem_of_split in Hin as (a & b & ->). exists a, p, v, b.
    pose proof (rep_keys _ _ _ Hr) as Hnd. rewrite !fmap_app in Hnd. simpl in Hnd.
    apply NoDup_around in Hnd as (? & ? & _). done.
  - right. split; [|done]. intros ([k' v] & Hk' & ([p kv] & Hkv & Hin)%list_elem_of_fmap)%list_elem_of_fmap.
    simpl in *. subst k' kv.
    assert (None = Some (mkEntry k (Some p))) as [=].
    apply (Hf (mkEntry k (Some p)) Hk Hb). eauto.
Qed.

(** The invariant after a node moved to the front, possibly with a new value. *)
Lemma rep_moved cap s s' a p k v w b :
  rep cap s (a ++ (p, (k, v)) :: b) →
  linked s' ((p, (k, w)) :: a ++ b) → frame s s' →
  rep cap s' ((p, (k, w)) :: a ++ b).
Proof.
  intros [Hl Hk Hpos Hdom Ht Hsz Hcap Hlen] Hl' (Hd & Hc & Hs & Hh).
  assert (∀ A (f : positive * (Z * Z) → A), f (p, (k, v)) = f (p, (k, w)) →
    f <$> ((p, (k, w)) :: a ++ b) ≡ₚ f <$> (a ++ (p, (k, v)) :: b)) as Hperm.
  { intros A f Hf. rewrite !fmap_app, fmap_cons, fmap_cons, fmap_app, Hf.
    apply Permutation_middle. }
  constructor.
  - done.
  - rewrite <- list_fmap_compose in *. eapply (NoDup_Permutation_proper _); [|exact Hk].
    by apply (Hperm _ (fst ∘ snd)).
  - rewrite Forall_app, Forall_cons in Hpos. destruct Hpos as (? & ? & ?).
    constructor; [done|]. by apply Forall_app.
  - rewrite Hd, Hdom. apply list_to_set_perm_L. symmetry. by apply (Hperm _ fst).
  - rewrite Hh. eapply table_ext; [exact Ht|]. intros k' q. set_solver.
  - rewrite Hs, Hsz. rewrite !length_app in *. simpl in *. rewrite length_app. lia.
  - congruence.
  - rewrite !length_app in *. simpl in *. rewrite length_app. lia.
Qed.

Lemma linked_first s p k v its :
  linked s ((p, (k, v)) :: its) → mem s !! p = Some (mkNode k v None (hd_ptr its None)).
Proof. intros [[Hp _] _ _ _]. done. Qed.

Lemma linked_set_value s a p k v w b :
  linked s (a ++ (p, (k, v)) :: b) →
  ∃ s', set_value (Some p) w s = Ok (tt, s', []) ∧
        linked s' (a ++ (p, (k, w)) :: b) ∧ frame s s'.
Proof.
  intros [Hseg Hnd Hhd Htl]. rewrite fmap_app in Hnd. simpl in Hnd.
  apply NoDup_around in Hnd as Hnd'. destruct Hnd' as (Hpa & Hpb & _).
  apply seg_app in Hseg as (Ha & Hp & Hb).
  rewrite (set_value_ok _ _ _ _ Hp). simpl. eexists. split; [done|]. split.
  - constructor; simpl.
    + apply seg_app. split; [by apply seg_other|]. simpl. rewrite lookup_insert_eq.
      split; [done|]. by apply seg_other.
    + by rewrite fmap_app.
    + by rewrite Hhd, !hd_ptr_app.
    + by rewrite Htl, !last_ptr_app.
  - repeat split. simpl. by eapply dom_write.
Qed.

Lemma put_stored cap s a p k v w b :
  rep cap s (a ++ (p, (k, v)) :: b) →
  ∃ s', (set_value (Some p) w ;; moveToHead (Some p)) s = Ok (tt, s', []) ∧
        rep cap s' ((p, (k, w)) :: a ++ b).
Proof.
  intros Hr. destruct (linked_set_value s a p k v w b) as (s1 & Hs1 & Hl1 & Hf1); [apply Hr|].
  destruct (moveToHead_ok _ _ _ _ _ _ Hl1) as (s2 & Hs2 & Hl2 & Hf2).
  exists s2. split; [unfold mbind, C_bind; by rewrite Hs1, Hs2|].
  eapply rep_moved; [done..|]. by eapply frame_trans.
Qed.

(** The state between the insertion of a node and the test of the size. *)
Lemma put_new cap s its k v :
  rep cap s its → 0 ≤ k → k ∉ its.*2.*1 →
  ∃ p s', (n ← createNode k v; addToHead n ;; hashPut k n) s = Ok (tt, s', []) ∧
    linked s' ((p, (k, v)) :: its) ∧ table_ok (hashTable (obj s')) ((p, (k, v)) :: its) ∧
    dom (mem s') = {[p]} ∪ list_to_set its.*1 ∧
    size (obj s') = size (obj s) ∧ capacity (obj s') = capacity (obj s).
Proof.
  intros Hr Hk Hkey. unfold createNode. c_run. unfold malloc.
  name_fresh (mem s) l.
  assert (l ∉ its.*1) as Hfresh.
  { intros Hin. apply not_elem_of_dom in Hl. apply Hl. rewrite (rep_dom _ _ _ Hr).
    by apply elem_of_list_to_set. }
  destruct (rep_linked _ _ _ Hr) as [Hseg Hnd Hhd Htl].
  destruct (addToHead_ok (mkstate (obj s) (<[l := mkNode k v None None]> (mem s))) its l
              (mkNode k v None None)) as (s1 & Hs1 & Hl1 & Hd & Hc & Hsz & Ht).
  { constructor; [by apply seg_other|done|done|done]. }
  { done. }
  { apply lookup_insert_eq. }
  simpl in *. rewrite Hs1.
  pose proof (rep_table _ _ _ Hr) as Htab. rewrite <- Ht in Htab.
  destruct (bucket_get _ _ k Htab Hk) as (b & Hget & Hb & Hset).
  assert (entry_loop b k = None) as Hnone.
  { destruct (entry_loop b k) as [e|] eqn:He; [|done].
    apply (table_find _ _ Htab k b e Hk Hb) in He as (p & w & _ & Hin).
    destruct Hkey. apply list_elem_of_fmap. exists (k, w). split; [done|].
    apply list_elem_of_fmap. by exists (p, (k, w)). }
  unfold hashPut, hashGetEntry, upd. c_run. rewrite Hget, Hnone. c_run.
  rewrite Hget, Hset. exists l. eexists. split; [done|]. simpl.
  split; [destruct Hl1; by constructor|]. split; [by apply table_put|].
  rewrite Hd, dom_insert_L, (rep_dom _ _ _ Hr). done.
Qed.

(** Evicting the least recently used node. *)
Lemma evict_ok cap s c q k v :
  linked s (c ++ [(q, (k, v))]) → NoDup (c ++ [(q, (k, v))]).*2.*1 →
  Forall (λ it, 0 ≤ it.2.1) (c ++ [(q, (k, v))]) →
  table_ok (hashTable (obj s)) (c ++ [(q, (k, v))]) →
  dom (mem s) = list_to_set (c ++ [(q, (k, v))]).*1 →
  size (obj s) = Z.of_nat (length c) + 1 → capacity (obj s) = Z.of_nat cap →
  (length c ≤ cap)%nat →
  ∃ s', (t ← removeTail; x ← rd t; hashRemove (key x) ;; free_node t ;;
         upd (λ o, set_size (size o - 1) o)) s = Ok (tt, s', []) ∧ rep cap s' c.
Proof.
  intros Hl Hkeys Hpos Ht Hdom Hsz Hcap Hlen.
  pose proof (linked_tail _ _ Hl) as Htl. rewrite last_ptr_snoc in Htl.
  pose proof (linked_nodup _ _ Hl) as Hnd. rewrite fmap_app in Hnd.
  apply NoDup_around in Hnd as (Hqc & _).
  rewrite !fmap_app in Hkeys. simpl in Hkeys. apply NoDup_around in Hkeys as (Hkc & _ & Hkeys & _).
  apply Forall_app in Hpos as [Hpos [Hk _]%Forall_cons]. simpl in Hk.
  destruct (removeNode_ok s c q k v []) as (s1 & x & Hrm & Hl1 & (Hd & Hc & Hs & Hh) & Hx & Hkx & Hvx);
    [done|]. rewrite app_nil_r in Hl1. rewrite <- Hh in Ht.
  destruct (bucket_get _ _ k Ht Hk) as (b & Hget & Hb & Hset).
  eexists. split.
  - unfold removeTail. c_run. rewrite Htl, Hrm. simpl.
    rewrite (rd_ok _ _ _ Hx). rewrite Hkx. unfold hashRemove, free_node, upd. c_run.
    rewrite Hget, Hset. simpl. by rewrite (free_Some _ _ _ Hx).
  - constructor; simpl; try done; [| | |lia|lia].
    + destruct Hl1 as [Hseg ? ? ?]. constructor; simpl; [|done..].
      rewrite <- (seg_other _ _ _ _ q x) by done. rewrite insert_delete_eq.
      by apply seg_other.
    + rewrite dom_delete_L, Hd, Hdom, fmap_app, list_to_set_app_L. simpl. set_solver.
    + eapply (table_remove _ _ c k b Ht Hk Hb). intros q' k' w.
      rewrite elem_of_app, list_elem_of_singleton. split.
      * intros Hin. split; [|by left]. intros ->. apply Hkc.
        apply list_elem_of_fmap. exists (k, w). split; [done|].
        apply list_elem_of_fmap. by exists (q', (k, w)).
      * intros [Hne [?|[= -> -> ->]]]; done.
Qed.

(** The loop of [lRUCacheFree] frees the list it is given. *)
Lemma free_loop_ok its fuel o h prv :
  seg h prv its None → NoDup its.*1 → (length its ≤ fuel)%nat →
  ∃ h', free_loop fuel (hd_ptr its None) (mkstate o h) = Ok (tt, mkstate o h', []) ∧
        dom h' = dom h ∖ list_to_set its.*1.
Proof.
  revert fuel h prv. induction its as [|[p [k v]] its IH]; intros fuel h prv Hseg Hnd Hf.
  - exists h. simpl. split; [by destruct fuel|]. set_solver.
  - destruct fuel as [|fuel]; [simpl in Hf; lia|]. destruct Hseg as [Hp Hseg].
    apply NoDup_cons in Hnd as [Hpi Hnd]. simpl in Hf.
    destruct (IH fuel (delete p h) (Some p)) as (h' & Hh' & Hd); [|done|lia|].
    { rewrite <- (seg_other _ _ _ _ p (mkNode k v prv None)) by done.
      rewrite insert_delete_eq. by apply seg_other. }
    exists h'. split.
    + simpl. unfold mbind, C_bind. rewrite (rd_ok (mkstate o h) p _ Hp). simpl.
      unfold free_node. c_run. rewrite (free_Some _ _ _ Hp). simpl. by rewrite Hh'.
    + rewrite Hd, dom_delete_L. simpl. set_solver.
Qed.

End LruProof.

Section LruTheorems.
Import Leetcode LruSpec LruProof.

Lemma fmap_snd_split (a b : items) p k v :
  (a ++ (p, (k, v)) :: b).*2 = a.*2 ++ (k, v) :: b.*2.
Proof. by rewrite fmap_app. Qed.

(** [lRUCacheCreate] makes the empty cache. *)
Lemma cache_rep_create (cap : nat) : cache_rep cap (lRUCacheCreate (Z.of_nat cap)) [].
Proof.
  exists []. split; [|done]. constructor; [|constructor|constructor|done| |done|done|simpl; lia].
  - constructor; [exact I|constructor|done|done].
  - constructor.
    + unfold lRUCacheCreate. cbn [hashTable obj]. unfold no_entries. rewrite length_replicate. unfold HASH_SIZE. lia.
    + intros i b [-> _]%lookup_replicate. constructor.
    + intros k b e _ [-> _]%lookup_replicate. split; [done|].
      by intros (p & v & _ & ?%elem_of_nil).
Qed.

(** [lRUCacheGet] implements the lookup of an LRU cache: it returns the
    value of the key, or -1, and makes the key the most recently used one; the
    links and the table stay consistent and no freed or null node is read. *)
Theorem lru_get_refines (cap : nat) (s : state) (c : cache) (k : Z) :
  cache_rep cap s c → 0 ≤ k →
  ∃ s', lRUCacheGet k s = Ok ((cget k c).1, s', []) ∧ cache_rep cap s' (cget k c).2.
Proof.
  intros (its & Hr & ->) Hk. unfold lRUCacheGet.
  unfold mbind at 1, C_bind at 1. 
  destruct (hashGet_ok cap s its k Hr Hk) as [(a & p & v & b & -> & Ha & Hb & ->)|[Habs ->]].
  - destruct (moveToHead_ok _ _ _ _ _ _ (rep_linked _ _ _ Hr)) as (s' & Hs' & Hl & Hf).
    unfold cget. rewrite fmap_snd_split, value_of_present, forget_split by done.
    exists s'. split.
    + unfold mbind, C_bind. rewrite Hs', (rd_ok _ _ _ (linked_first _ _ _ _ _ Hl)). done.
    + exists ((p, (k, v)) :: a ++ b). split; [by eapply rep_moved|]. simpl. by rewrite fmap_app.
  - unfold cget. rewrite value_of_absent by done. exists s. split; [done|]. by exists its.
Qed.

Lemma lru_get_refines_witness :
  ∃ s', lRUCacheGet 1 (lRUCacheCreate 2) = Ok (-1, s', []) ∧ cache_rep 2 s' [].
Proof. refine (lru_get_refines 2 (lRUCacheCreate 2) [] 1 _ _); [apply (cache_rep_create 2)|lia]. Defined.

(** C8: for keys that are not negative, as the problem guarantees, [lRUCachePut]
    implements the store of an LRU cache: the key becomes the most recently used
    one with the new value, and when the cache was full exactly the least
    recently used pair is evicted, its node being unlinked, removed from the
    table and freed.  The condition is needed: [lru_negative_key]. *)
Theorem lru_put_refines (cap : nat) (s : state) (c : cache) (k v : Z) :
  cache_rep cap s c → 0 ≤ k →
  ∃ s', lRUCachePut k v s = Ok (tt, s', []) ∧ cache_rep cap s' (cput cap k v c).
Proof.
  intros (its & Hr & ->) Hk. unfold lRUCachePut, cput.
  unfold mbind at 1, C_bind at 1.
  destruct (hashGet_ok cap s its k Hr Hk) as [(a & p & w & b & -> & Ha & Hb & ->)|[Habs ->]].
  - destruct (put_stored _ _ _ _ _ _ v _ Hr) as (s' & Hs' & Hr').
    rewrite fmap_snd_split, value_of_present, forget_split by done.
    exists s'. rewrite Hs'. split; [done|]. eexists. split; [exact Hr'|]. simpl.
    by rewrite fmap_app.
  - rewrite value_of_absent by done.
    destruct (put_new cap s its k v Hr Hk Habs) as (p & s1 & Hs1 & Hl & Ht & Hd & Hsz & Hcap).
    set (s2 := mkstate (set_size (size (obj s1) + 1) (obj s1)) (mem s1)).
    assert (linked s2 ((p, (k, v)) :: its)) as Hl2 by (destruct Hl; by constructor).
    assert (NoDup ((p, (k, v)) :: its).*2.*1) as Hkeys by (constructor; [done|apply Hr]).
    assert (Forall (λ it, 0 ≤ it.2.1) ((p, (k, v)) :: its)) as Hpos
      by (constructor; [done|apply Hr]).
    pose proof (rep_size _ _ _ Hr). pose proof (rep_cap _ _ _ Hr).
    pose proof (rep_len _ _ _ Hr) as Hle.
    enough (∃ s', evict s2 = Ok (tt, s', []) ∧
        cache_rep cap s' (take cap ((k, v) :: its.*2))) as (s' & Hs' & Hr').
    { exists s'. split; [|done]. revert Hs1 Hs'. unfold mbind, C_bind.
      destruct (createNode k v s) as [[[n s0] o0]|]; [|done].
      destruct (addToHead n s0) as [[[[] s3] o3]|]; [|done].
      destruct (hashPut k n s3) as [[[[] s4] o4]|]; [|done].
      intros [= -> Ho]. intros Hs'. unfold upd, modify, get. fold s2. rewrite Hs'.
      simpl. by rewrite !app_nil_r, Ho. }
    unfold evict. unfold mbind at 1, C_bind at 1, get. 
    replace (capacity (obj s2)) with (Z.of_nat cap) by (simpl; lia).
    replace (size (obj s2)) with (Z.of_nat (length its) + 1) by (simpl; lia).
    destruct (Z.ltb_spec (Z.of_nat cap) (Z.of_nat (length its) + 1)).
    + destruct ((p, (k, v)) :: its) as [|[q [k' v']] c _] eqn:Hc using rev_ind; [done|].
      assert (length its = length c) as Hlc
        by (apply (f_equal length) in Hc; rewrite length_app in Hc; simpl in Hc; lia).
      destruct (evict_ok cap s2 c q k' v') as (s' & Hs' & Hr'); try done; simpl;
        [rewrite Hd; rewrite <- Hc; done|lia|lia|lia|].
      exists s'. split; [by rewrite Hs'|]. exists c. split; [done|].
      change ((k, v) :: its.*2) with (((p, (k, v)) :: its).*2). rewrite Hc, fmap_app.
      apply take_app_length'. rewrite length_fmap. lia.
    + exists s2. split; [done|]. exists ((p, (k, v)) :: its). split.
      * constructor; simpl; try done; lia.
      * simpl. apply take_ge. simpl. rewrite length_fmap. lia.
Qed.

Lemma lru_put_refines_witness :
  ∃ s', lRUCachePut 1 10 (lRUCacheCreate 2) = Ok (tt, s', []) ∧ cache_rep 2 s' [(1, 10)].
Proof. refine (lru_put_refines 2 (lRUCacheCreate 2) [] 1 10 _ _); [apply (cache_rep_create 2)|lia]. Defined.

(** A negative key that is no multiple of 10007 leaves a negative remainder, which
    [hash] returns as an [unsigned int] far beyond the table: putting or getting
    such a key reads [hashTable] out of its bounds, whatever the cache holds. *)
Theorem lru_negative_key (s : state) (k v : Z) :
  length (hashTable (obj s)) = Z.to_nat HASH_SIZE → k < 0 → Z.rem k HASH_SIZE ≠ 0 →
  lRUCachePut k v s = UB OutOfBounds ∧ lRUCacheGet k s = UB OutOfBounds.
Proof.
  intros Hlen Hk Hr.
  assert (- HASH_SIZE < Z.rem k HASH_SIZE < 0) as Hb.
  { unfold HASH_SIZE in *. pose proof (Z.rem_bound_abs k 10007 ltac:(lia)).
    pose proof (Z.rem_nonpos k 10007 ltac:(lia) ltac:(lia)). lia. }
  assert (aget (hashTable (obj s)) (hash k) = UB OutOfBounds) as Ha.
  { assert (hash k = Z.rem k HASH_SIZE + 2 ^ 32) as ->.
    { unfold hash. symmetry. apply (Z.mod_unique _ _ (-1)); unfold HASH_SIZE in *; lia. }
    unfold aget. unfold HASH_SIZE in *. destruct (Z.ltb_spec (Z.rem k 10007 + 2 ^ 32) 0); [done|].
    rewrite lookup_ge_None_2; [done|]. rewrite Hlen. lia. }
  split; unfold lRUCachePut, lRUCacheGet, hashGet, hashGetEntry; unfold mbind, C_bind, get, lift; by rewrite Ha.
Qed.

Lemma lru_negative_key_witness : lRUCachePut (-1) 7 (lRUCacheCreate 2) = UB OutOfBounds.
Proof. by apply (lru_negative_key (lRUCacheCreate 2) (-1) 7). Defined.

(** [lRUCacheFree] frees every node exactly once: started on a cache of
    [n] entries its loop ends within [n] rounds, and no node is left. *)
Theorem lru_free_complete (cap : nat) (s : state) (c : cache) :
  cache_rep cap s c →
  ∃ s', lRUCacheFree (length c) s = Ok (tt, s', []) ∧ mem s' = ∅.
Proof.
  intros (its & Hr & ->). rewrite length_fmap. unfold lRUCacheFree. c_run.
  destruct s as [o h]. destruct (rep_linked _ _ _ Hr) as [Hseg Hnd Hhd _]. simpl in *.
  destruct (free_loop_ok its (length its) o h None Hseg Hnd) as (h' & Hh' & Hd); [lia|].
  rewrite Hhd, Hh'. eexists. split; [done|]. simpl. apply dom_empty_inv_L.
  rewrite Hd. pose proof (rep_dom _ _ _ Hr) as Hdom. simpl in Hdom. set_solver.
Qed.

Lemma lru_free_complete_witness :
  ∃ s', lRUCacheFree 0 (lRUCacheCreate 2) = Ok (tt, s', []) ∧ mem s' = ∅.
Proof. refine (lru_free_complete 2 (lRUCacheCreate 2) [] _). apply (cache_rep_create 2). Defined.

(** The example of the problem statement: after two puts into a cache of
    capacity 2 and a use of the first key, a third put evicts the second. *)
Example leetcode_run :
  match (lRUCachePut 1 1 ;; lRUCachePut 2 2 ;; x ← lRUCacheGet 1; lRUCachePut 3 3 ;;
         y ← lRUCacheGet 2; z ← lRUCacheGet 3; mret (x, y, z)) (lRUCacheCreate 2) with
  | Ok (r, s, _) => Some (r, size (obj s))
  | UB _ => None
  end = Some ((1, -1, 3), 2).
Proof. vm_compute. reflexivity. Qed.

End LruTheorems.
