(* ===== verification/SlidingWindow.v ===== *)
(** * Sliding-window maximum, three ways

    The three programs of [day-3(SlidingWin)]: [BruteForce], [Deque] and
    [HeapQueue].  Each prints the maximum of every window of [k] elements; the
    theorems show that the two fast ones print what the direct one prints. *)
From stdpp Require Import base list gmap strings pretty sorting.
From Stdlib Require Import ZArith Lia.
From S2P Require Import Prelude.
Local Open Scope Z_scope.

(** ** [sliding-window-brute-force.c] *)
Module BruteForce.

(** The inner loop over [jterator]. *)
Fixpoint inner (nums : list Z) (iterator : Z) (js : list Z) (maximumWindowValue : Z) : res Z :=
  match js with
  | [] => Ok maximumWindowValue
  | j :: js =>
      x ← aget nums (iterator + j);
      inner nums iterator js (if maximumWindowValue <? x then x else maximumWindowValue)
  end.

Definition maximumSlidingWindow (nums : list Z) (numsSize k : Z) : C unit unit :=
  for_each (λ i,
    x ← lift (aget nums i);
    m ← lift (inner nums i (seqZ 1 (k - 1)) x);
    printf (d m))
    (seqZ 0 (numsSize - k + 1)) ;;
  printf nl.

Definition main : C unit unit :=
  maximumSlidingWindow [1; 3; -1; -3; 5; 3; 6; 7] 8 3.

End BruteForce.

(** ** [slliding-window-deque.c] *)
Module Deque.

(** [deque], [front] and [back]. *)
Record state : Set := mkstate { deque : list (option Z); front : Z; back : Z }.

(** [while(front <= back && nums[deque[back]] <= nums[iterator]) back--]. *)
Fixpoint pop_back (fuel : nat) (nums : list Z) (dq : list (option Z)) (front back x : Z)
    : res Z :=
  if front <=? back then
    match fuel with
    | O => UB OutOfFuel
    | S fuel =>
        j ← uget dq back;
        y ← aget nums j;
        if y <=? x then pop_back fuel nums dq front (back - 1) x else Ok back
    end
  else Ok back.

Definition body (nums : list Z) (k : Z) (iterator : Z) : C state unit :=
  s ← get;
  expired ← lift (if front s <=? back s then
                    j ← uget (deque s) (front s); mret (j <=? iterator - k)
                  else Ok false);
  let front := if expired : bool then front s + 1 else front s in
  x ← lift (aget nums iterator);
  back ← lift (pop_back (length nums) nums (deque s) front (back s) x);
  dq ← lift (aset (deque s) (back + 1) (Some iterator));
  put (mkstate dq front (back + 1)) ;;
  if k - 1 <=? iterator then
    j ← lift (uget dq front);
    y ← lift (aget nums j);
    printf (d y)
  else mret tt.

(** [deque], [front] and [back] at their declarations. *)
Definition start (numsSize : Z) : state :=
  mkstate (replicate (Z.to_nat numsSize) None) 0 (-1).

Definition maximumSlidingWindow (nums : list Z) (numsSize k : Z) : C state unit :=
  for_each (body nums k) (seqZ 0 numsSize) ;;
  printf nl.

Definition main : res (list string) :=
  run_output (maximumSlidingWindow [1; 3; -1; -3; 5; 3; 6; 7] 8 3) (start 8).

End Deque.

(** ** [sliding-window-heap-priority-queue.c] *)
Module HeapQueue.

Record HeapNode : Set := mkHeapNode { value : Z; index : Z }.

Abbreviation array := (list (option HeapNode)).

(** [swap(&heap[a], &heap[b])]. *)
Definition swap (heap : array) (a b : Z) : res array :=
  x ← uget heap a;
  y ← uget heap b;
  heap ← aset heap a (Some y);
  aset heap b (Some x).

Fixpoint heapifyUp (fuel : nat) (heap : array) (index : Z) : res array :=
  if 0 <? index then
    match fuel with
    | O => UB OutOfFuel
    | S fuel =>
        let parent := (index - 1) ÷ 2 in
        x ← uget heap parent;
        y ← uget heap index;
        if value y <=? value x then Ok heap
        else
          heap ← swap heap parent index;
          heapifyUp fuel heap parent
    end
  else Ok heap.

(** One of the two tests of [heapifyDown]: the child when it is in the heap
    and larger. *)
Definition larger (heap : array) (size child largest : Z) : res Z :=
  if child <? size then
    x ← uget heap child;
    y ← uget heap largest;
    mret (if value y <? value x then child else largest)
  else Ok largest.

Fixpoint heapifyDown (fuel : nat) (heap : array) (size index : Z) : res array :=
  match fuel with
  | O => UB OutOfFuel
  | S fuel =>
      largest ← larger heap size (2 * index + 1) index;
      largest ← larger heap size (2 * index + 2) largest;
      if largest =? index then Ok heap
      else
        heap ← swap heap index largest;
        heapifyDown fuel heap size largest
  end.

(** [heap] and [heapSize]. *)
Record state : Set := mkstate { heap : array; heapSize : Z }.

Definition push (index value : Z) : C state unit :=
  s ← get;
  h ← lift (aset (heap s) (heapSize s) (Some (mkHeapNode value index)));
  h ← lift (heapifyUp (length h) h (heapSize s));
  put (mkstate h (heapSize s + 1)).

Definition pop : C state unit :=
  s ← get;
  let size := heapSize s - 1 in
  x ← lift (uget (heap s) size);
  h ← lift (aset (heap s) 0 (Some x));
  h ← lift (heapifyDown (S (length h)) h size 0);
  put (mkstate h size).

Definition top : C state HeapNode := s ← get; lift (uget (heap s) 0).

(** [while (top(heap).index <= iterator - k) pop(heap, &heapSize)]. *)
Fixpoint expire (fuel : nat) (bound : Z) : C state unit :=
  match fuel with
  | O => lift (UB OutOfFuel)
  | S fuel =>
      t ← top;
      if index t <=? bound then pop ;; expire fuel bound else mret tt
  end.

Definition body (nums : list Z) (k iterator : Z) : C state unit :=
  x ← lift (aget nums iterator);
  push iterator x ;;
  expire (length nums) (iterator - k) ;;
  if k - 1 <=? iterator then t ← top; printf (d (value t)) else mret tt.

Definition start (numsSize : Z) : state :=
  mkstate (replicate (Z.to_nat numsSize) None) 0.

Definition maximumSlidingWindow (nums : list Z) (numsSize k : Z) : C state unit :=
  for_each (body nums k) (seqZ 0 numsSize) ;;
  printf nl.

Definition main : res (list string) :=
  run_output (maximumSlidingWindow [1; 3; -1; -3; 5; 3; 6; 7] 8 3) (start 8).

End HeapQueue.

Example windows_main :
  run_output BruteForce.main tt = Ok ["3"; "3"; "5"; "5"; "6"; "7"; nl] ∧
  Deque.main = Ok ["3"; "3"; "5"; "5"; "6"; "7"; nl] ∧
  HeapQueue.main = Ok ["3"; "3"; "5"; "5"; "6"; "7"; nl].
Proof. repeat split; vm_compute; reflexivity. Qed.

(** ** Window maxima *)

(** [m] is the maximum of the [k] elements from [i] on. *)
Definition is_max (nums : list Z) (k i : nat) (m : Z) : Prop :=
  (∃ j, (i ≤ j < i + k)%nat ∧ nums !! j = Some m) ∧
  ∀ j x, (i ≤ j < i + k)%nat → nums !! j = Some x → x ≤ m.

Definition maxima (nums : list Z) (k : nat) (ms : list Z) : Prop :=
  length ms = (length nums - k + 1)%nat ∧ ∀ i m, ms !! i = Some m → is_max nums k i m.

Lemma is_max_unique nums k i m m' : is_max nums k i m → is_max nums k i m' → m = m'.
Proof.
  intros [(j & Hj & Hm) Hall] [(j' & Hj' & Hm') Hall'].
  assert (m ≤ m') by eauto. assert (m' ≤ m) by eauto. lia.
Qed.

Lemma maxima_unique nums k ms ms' : maxima nums k ms → maxima nums k ms' → ms = ms'.
Proof.
  intros [Hlen Hall] [Hlen' Hall']. apply (list_eq_same_length _ _ (length ms)); [lia|done|].
  intros i x y _ Hx Hy. eapply is_max_unique; eauto.
Qed.

(** A loop that keeps an invariant and prints one line per round from round
    [lo] on. *)
Lemma printing_loop {St} (body : Z → C St unit) (Inv : nat → St → Prop)
    (P : nat → Z → Prop) (lo n : nat) :
  (∀ i s, (i < n)%nat → Inv i s → ∃ s' o, body (Z.of_nat i) s = Ok (tt, s', o) ∧ Inv (1 + i)%nat s' ∧
     (if decide (lo ≤ i)%nat then ∃ m, o = [d m] ∧ P (i - lo)%nat m else o = [])) →
  ∀ s, Inv O s →
  ∃ s' ms, for_each body (seqZ 0 (Z.of_nat n)) s = Ok (tt, s', d <$> ms) ∧
    length ms = (n - lo)%nat ∧ ∀ j m, ms !! j = Some m → P j m.
Proof.
  intros Hbody.
  enough (∀ r i s, (i + r = n)%nat → Inv i s →
    ∃ s' ms, for_each body (seqZ (Z.of_nat i) (Z.of_nat r)) s = Ok (tt, s', d <$> ms) ∧
      length ms = (n - lo `max` i)%nat ∧
      ∀ j m, ms !! j = Some m → P (lo `max` i - lo + j)%nat m) as H.
  { intros s Hs. destruct (H n O s) as (s' & ms & Hf & Hl & Hm); [lia|done|].
    exists s', ms. split; [done|]. rewrite Nat.max_0_r in *. rewrite Nat.sub_diag in Hm. done. }
  induction r as [|r IH]; intros i s Hi Hinv.
  - exists s, []. split; [done|]. split; [simpl; lia|done].
  - destruct (Hbody i s) as (s1 & o & Hb & Hinv1 & Ho); [lia|done|].
    destruct (IH (1 + i)%nat s1) as (s2 & ms & Hf & Hl & Hm); [lia|done|].
    rewrite seqZ_cons by lia. cbn [for_each]. unfold mbind, C_bind. rewrite Hb.
    replace (Z.succ (Z.of_nat i)) with (Z.of_nat (1 + i)) by lia.
    replace (Z.pred (Z.of_nat (S r))) with (Z.of_nat r) by lia. rewrite Hf.
    case_decide as Hlo.
    + destruct Ho as (m & -> & HP). exists s2, (m :: ms). split; [done|]. split; [simpl; lia|].
      intros [|j] m'; simpl.
      * intros [= <-]. by replace (lo `max` i - lo + 0)%nat with (i - lo)%nat by lia.
      * intros Hj. replace (lo `max` i - lo + S j)%nat with (lo `max` (1 + i) - lo + j)%nat by lia.
        by apply Hm.
    + subst o. exists s2, ms. split; [done|]. split; [lia|]. intros j m' Hj.
      replace (lo `max` i - lo + j)%nat with (lo `max` (1 + i) - lo + j)%nat by lia.
      by apply Hm.
Qed.

(** *** The direct program *)
Module BruteProof.
Import BruteForce.

Lemma inner_max nums i r j x :
  (i + j + r ≤ length nums)%nat → (0 < j)%nat → is_max nums j i x →
  ∃ m, inner nums (Z.of_nat i) (seqZ (Z.of_nat j) (Z.of_nat r)) x = Ok m ∧
       is_max nums (j + r) i m.
Proof.
  revert j x. induction r as [|r IH]; intros j x Hlen Hj Hx.
  - exists x. split; [done|]. by rewrite Nat.add_0_r.
  - rewrite seqZ_cons by lia. cbn [inner].
    destruct (lookup_lt_is_Some_2 nums (i + j)) as [y Hy]; [lia|].
    rewrite <- Nat2Z.inj_add, (aget_lookup _ _ _ Hy). c_run.
    replace (Z.succ (Z.of_nat j)) with (Z.of_nat (S j)) by lia.
    replace (Z.pred (Z.of_nat (S r))) with (Z.of_nat r) by lia.
    destruct (IH (S j) (if x <? y then y else x)) as (m & Hm & Hmax); [lia|lia| |].
    + destruct Hx as [(j0 & Hj0 & Hx) Hall]. split.
      * destruct (x <? y); [exists (i + j)%nat|exists j0]; split; auto; lia.
      * intros j1 z Hj1 Hz. destruct (decide (j1 = i + j)%nat) as [->|].
        -- rewrite Hy in Hz. injection Hz as ->. destruct (Z.ltb_spec x z); lia.
        -- assert (z ≤ x) by (eapply (Hall j1); [lia|done]). destruct (Z.ltb_spec x y); lia.
    + exists m. split; [done|]. by replace (j + S r)%nat with (S j + r)%nat by lia.
Qed.

Lemma brute_maxima nums (k : nat) :
  (1 ≤ k ≤ length nums)%nat →
  ∃ ms, run_output (maximumSlidingWindow nums (Z.of_nat (length nums)) (Z.of_nat k)) tt
        = Ok ((d <$> ms) ++ [nl]) ∧ maxima nums k ms.
Proof.
  intros Hk.
  destruct (printing_loop (St := unit) (λ i,
      x ← lift (aget nums i); m ← lift (inner nums i (seqZ 1 (Z.of_nat k - 1)) x); printf (d m))
      (λ _ _, True) (λ i m, is_max nums k i m) 0 (length nums - k + 1)) with (s := tt)
      as (s' & ms & Hf & Hl & Hm).
  - intros i [] Hi _. simpl.
    destruct (lookup_lt_is_Some_2 nums i) as [x Hx]; [lia|].
    destruct (inner_max nums i (k - 1) 1 x) as (m & Hm & Hmax); [lia|lia| |].
    { split; [exists i; split; [lia|done]|]. intros j y Hj Hy.
      assert (j = i) as -> by lia. replace y with x by congruence. lia. }
    exists tt, [d m]. c_run. rewrite (aget_lookup _ _ _ Hx).
    change 1 with (Z.of_nat 1) at 1. replace (Z.of_nat k - 1) with (Z.of_nat (k - 1)) by lia.
    rewrite Hm. split; [done|]. split; [done|]. exists m. split; [done|].
    rewrite Nat.sub_0_r. by replace k with (1 + (k - 1))%nat by lia.
  - done.
  - exists ms. split; [|split; [lia|done]].
    unfold run_output, maximumSlidingWindow. unfold mbind at 1, C_bind at 1.
    replace (Z.of_nat (length nums) - Z.of_nat k + 1) with (Z.of_nat (length nums - k + 1)) by lia.
    by rewrite Hf.
Qed.

End BruteProof.

(** *** The deque *)
Module DequeProof.
Import Deque.

Section Window.
Context (nums : list Z) (k : nat).

Abbreviation nv j := (nums !!! j).

(** Indices increase and their values decrease along the deque. *)
Definition before (a b : nat) : Prop := (a < b)%nat ∧ nv b < nv a.

(** The indices [dq] are stored from position [f] of the array on. *)
Definition stored (arr : list (option Z)) (f : nat) (dq : list nat) : Prop :=
  ∀ j x, dq !! j = Some x → arr !! (f + j)%nat = Some (Some (Z.of_nat x)).

(** Before round [i]. *)
Record inv (i : nat) (s : state) (f : nat) (dq : list nat) : Prop := mkinv {
  inv_front : front s = Z.of_nat f;
  inv_back : back s = Z.of_nat f + Z.of_nat (length dq) - 1;
  inv_room : (f + length dq ≤ i)%nat;
  inv_arr : length (deque s) = length nums;
  inv_stored : stored (deque s) f dq;
  inv_range : Forall (λ j, j < i ∧ i ≤ j + k)%nat dq;
  inv_sorted : StronglySorted before dq;
  inv_dom j : (j < i ≤ j + k)%nat → ∃ q, q ∈ dq ∧ (j ≤ q)%nat ∧ nv j ≤ nv q
}.

Lemma nums_get j : (j < length nums)%nat → aget nums (Z.of_nat j) = Ok (nv j).
Proof. intros Hj. by apply aget_lookup, list_lookup_lookup_total_lt. Qed.

Lemma uget_stored arr f dq j x :
  stored arr f dq → dq !! j = Some x → uget arr (Z.of_nat (f + j)) = Ok (Z.of_nat x).
Proof. intros Hs Hx. unfold uget. by rewrite (aget_lookup _ _ _ (Hs j x Hx)). Qed.

Lemma stored_app arr f a b : stored arr f (a ++ b) → stored arr f a.
Proof. intros Hs j x Hx. apply Hs. by apply lookup_app_l_Some. Qed.

Lemma pop_back_ok fuel arr f dq x :
  (length dq ≤ fuel)%nat → stored arr f dq → Forall (λ j, j < length nums)%nat dq →
  ∃ dq2 popped, dq = dq2 ++ popped ∧ Forall (λ j, nv j ≤ x) popped ∧
    (∀ a y, dq2 = a ++ [y] → x < nv y) ∧
    pop_back fuel nums arr (Z.of_nat f) (Z.of_nat f + Z.of_nat (length dq) - 1) x =
    Ok (Z.of_nat f + Z.of_nat (length dq2) - 1).
Proof.
  revert fuel. induction dq as [|y dq IH] using rev_ind; intros fuel Hf Hs Hr.
  - exists [], []. repeat split; [constructor| |].
    + intros a y H. by destruct a.
    + assert ((Z.of_nat f <=? Z.of_nat f + Z.of_nat (length (A := nat) []) - 1) = false) as Hle
        by (apply Z.leb_gt; simpl; lia).
      destruct fuel; cbn [pop_back]; by rewrite Hle.
  - rewrite length_app in *. simpl in Hf. apply Forall_app in Hr as [Hr Hy].
    apply Forall_cons in Hy as [Hy _].
    destruct fuel as [|fuel]; [lia|]. simpl.
    destruct (Z.leb_spec (Z.of_nat f) (Z.of_nat f + Z.of_nat (length dq + 1) - 1)); [|lia].
    replace (Z.of_nat f + Z.of_nat (length dq + 1) - 1) with (Z.of_nat (f + length dq)) by lia.
    rewrite (uget_stored _ _ _ _ y Hs) by (by apply list_lookup_middle). c_run.
    rewrite nums_get by done. destruct (Z.leb_spec (nv y) x).
    + destruct (IH fuel) as (dq2 & popped & -> & Hp & Hl & Hres);
        [lia|by eapply stored_app|done|].
      exists dq2, (popped ++ [y]). rewrite app_assoc. split; [done|].
      split; [apply Forall_app; split; [done|by constructor]|]. split; [done|].
      rewrite <- Hres. f_equal. lia.
    + exists (dq ++ [y]), []. rewrite app_nil_r. split; [done|]. split; [constructor|].
      split; [by intros a z [-> [= ->]]%app_inj_tail_iff|].
      rewrite length_app. simpl. f_equal. lia.
Qed.

Lemma sorted_app_l a b : StronglySorted before (a ++ b) → StronglySorted before a.
Proof.
  induction a as [|x a IH]; [constructor|]. intros [Hs Hf]%StronglySorted_inv.
  constructor; [auto|]. by apply Forall_app in Hf as [? _].
Qed.

(** When the last value is above [x], all are, and the new index fits. *)
Lemma sorted_snoc dq i :
  StronglySorted before dq → Forall (λ j, j < i)%nat dq →
  (∀ a y, dq = a ++ [y] → nv i < nv y) → StronglySorted before (dq ++ [i]).
Proof.
  induction dq as [|x dq IH]; intros Hs Hr Hl; [by repeat constructor|].
  apply StronglySorted_inv in Hs as [Hs Hx]. apply Forall_cons in Hr as [Hxi Hr].
  simpl. constructor.
  - apply IH; [done|done|]. intros a y ->. by apply (Hl (x :: a)).
  - apply Forall_app. split; [done|]. constructor; [|constructor]. split; [done|].
    destruct dq as [|z dq _] using rev_ind; [by apply (Hl [])|].
    apply Forall_app in Hx as [_ [[_ ?] _]%Forall_cons].
    specialize (Hl (x :: dq) z eq_refl). lia.
Qed.

Lemma stored_snoc arr f dq i :
  stored arr f dq → (f + length dq < length arr)%nat →
  stored (<[(f + length dq)%nat := Some (Z.of_nat i)]> arr) f (dq ++ [i]).
Proof.
  intros Hs Hlen j x [Hj|[Hge Hj]]%lookup_app_Some.
  - pose proof (lookup_lt_Some _ _ _ Hj). rewrite list_lookup_insert_ne by lia. auto.
  - apply list_lookup_singleton_Some in Hj as [Hz <-].
    replace j with (length dq) by lia. by apply list_lookup_insert_eq.
Qed.

(** The head of the deque is the maximum of the window. *)
Lemma head_max i h dq :
  (i < length nums)%nat → (k ≤ i + 1)%nat →
  StronglySorted before (h :: dq) → (h ≤ i < h + k)%nat →
  (∀ j, (j ≤ i < j + k)%nat → ∃ q, q ∈ h :: dq ∧ (j ≤ q)%nat ∧ nv j ≤ nv q) →
  is_max nums k (i - (k - 1)) (nv h).
Proof.
  intros Hi Hk Hs Hh Hdom. split.
  - exists h. split; [lia|]. apply list_lookup_lookup_total_lt. lia.
  - intros j x Hj Hx. destruct (Hdom j) as (q & Hq & _ & Hle); [lia|].
    rewrite (list_lookup_total_correct _ _ _ Hx) in Hle.
    apply StronglySorted_inv in Hs as [_ Hs].
    apply elem_of_cons in Hq as [->|Hq]; [done|].
    rewrite Forall_forall in Hs. destruct (Hs q Hq) as [_ ?]. lia.
Qed.

(** The deque after the expiry test of round [i]. *)
Lemma deque_expire_ok i s f dq :
  inv i s f dq → (i < length nums)%nat →
  ∃ f' dq', (f' + length dq' = f + length dq)%nat ∧ stored (deque s) f' dq' ∧
    (if front s <=? back s then
       j ← uget (deque s) (front s); mret (j <=? Z.of_nat i - Z.of_nat k)
     else Ok false) = Ok (negb (f' =? f)%nat) ∧
    (f' = f ∨ f' = S f) ∧
    Forall (λ j, j < i < j + k)%nat dq' ∧ StronglySorted before dq' ∧
    (∀ j, (j < i < j + k)%nat → ∃ q, q ∈ dq' ∧ (j ≤ q)%nat ∧ nv j ≤ nv q).
Proof.
  intros [Hf Hb Hroom Hlen Hst Hr Hs Hdom] Hi.
  destruct dq as [|h dq].
  - exists f, []. rewrite Hf, Hb.
    assert ((Z.of_nat f <=? Z.of_nat f + Z.of_nat (length (A := nat) []) - 1) = false) as ->
      by (apply Z.leb_gt; simpl; lia).
    rewrite Nat.eqb_refl. split; [done|]. split; [done|]. split; [done|].
    split; [by left|]. split; [constructor|]. split; [constructor|].
    intros j Hj. destruct (Hdom j) as (q & Hq & _); [lia|]. by apply elem_of_nil in Hq.
  - rewrite Hf, Hb. simpl length.
    destruct (Z.leb_spec (Z.of_nat f) (Z.of_nat f + Z.of_nat (S (length dq)) - 1)); [|lia].
    assert (uget (deque s) (Z.of_nat f) = Ok (Z.of_nat h)) as ->
      by (rewrite <- (Nat.add_0_r f); by eapply uget_stored).
    c_run. apply Forall_cons in Hr as [[Hh1 Hh2] Hr].
    pose proof Hs as [Hs' Hlt]%StronglySorted_inv.
    destruct (Z.leb_spec (Z.of_nat h) (Z.of_nat i - Z.of_nat k)).
    + exists (S f), dq. split; [lia|]. split.
      { intros j x Hx. replace (S f + j)%nat with (f + S j)%nat by lia. by apply Hst. }
      split; [f_equal; symmetry; apply negb_true_iff, Nat.eqb_neq; lia|].
      split; [by right|]. split; [|split; [done|]].
      * rewrite Forall_forall in *. intros j Hj. destruct (Hr j Hj), (Hlt j Hj). lia.
      * intros j Hj. destruct (Hdom j) as (q & Hq & Hjq & Hle); [lia|].
        apply elem_of_cons in Hq as [->|Hq]; [lia|]. eauto.
    + exists f, (h :: dq). rewrite Nat.eqb_refl. split; [done|]. split; [done|].
      split; [done|]. split; [by left|]. split; [|split; [done|]].
      * constructor; [lia|]. rewrite Forall_forall in *. intros j Hj.
        destruct (Hr j Hj), (Hlt j Hj). lia.
      * intros j Hj. apply Hdom. lia.
Qed.

(** The end of a round. *)
Definition report (arr : list (option Z)) (f i : nat) : C state unit :=
  if Z.of_nat k - 1 <=? Z.of_nat i then
    j ← lift (uget arr (Z.of_nat f)); y ← lift (aget nums j); printf (d y)
  else mret tt.

Lemma body_run i s f f1 dq dq2 :
  inv i s f dq → (i < length nums)%nat →
  (if front s <=? back s then
     j ← uget (deque s) (front s); mret (j <=? Z.of_nat i - Z.of_nat k)
   else Ok false) = Ok (negb (f1 =? f)%nat) →
  (if negb (f1 =? f)%nat then front s + 1 else front s) = Z.of_nat f1 →
  pop_back (length nums) nums (deque s) (Z.of_nat f1) (back s) (nv i) =
    Ok (Z.of_nat f1 + Z.of_nat (length (A := nat) dq2) - 1) →
  (f1 + length dq2 ≤ i)%nat →
  let arr := <[(f1 + length dq2)%nat := Some (Z.of_nat i)]> (deque s) in
  body nums (Z.of_nat k) (Z.of_nat i) s =
  report arr f1 i (mkstate arr (Z.of_nat f1) (Z.of_nat (f1 + length dq2))).
Proof.
  intros Hinv Hi Hexp Hf1 Hpop Hroom arr. pose proof (inv_arr _ _ _ _ Hinv) as Harr.
  unfold body. unfold mbind at 1, C_bind at 1, get. unfold mbind at 1, C_bind at 1, lift at 1.
  rewrite Hexp. unfold mbind at 1, C_bind at 1, lift at 1. rewrite nums_get by done.
  rewrite Hf1. unfold mbind at 1, C_bind at 1, lift at 1. rewrite Hpop.
  unfold mbind at 1, C_bind at 1, lift at 1.
  replace (Z.of_nat f1 + Z.of_nat (length dq2) - 1 + 1) with (Z.of_nat (f1 + length dq2)) by lia.
  rewrite aset_nat by lia. unfold mbind at 1, C_bind at 1, put. fold arr. fold (report arr f1 i).
  by destruct (report arr f1 i _) as [[[? ?] ?]|].
Qed.

Lemma deque_body_ok i s f dq :
  inv i s f dq → (i < length nums)%nat → (1 ≤ k)%nat →
  ∃ s' o f' dq', body nums (Z.of_nat k) (Z.of_nat i) s = Ok (tt, s', o) ∧
    inv (1 + i) s' f' dq' ∧
    (if decide (k - 1 ≤ i)%nat then ∃ m, o = [d m] ∧ is_max nums k (i - (k - 1)) m else o = []).
Proof.
  intros Hinv Hi Hk.
  destruct (deque_expire_ok i s f dq Hinv Hi) as (f1 & dq1 & Hlen1 & Hst1 & Hexp & Hf1 & Hr1 & Hs1 & Hd1).
  pose proof (inv_room _ _ _ _ Hinv). pose proof (inv_arr _ _ _ _ Hinv) as Harr.
  assert (Forall (λ j, j < length nums)%nat dq1) as Hr1'
    by (eapply Forall_impl; [exact Hr1|]; simpl; lia).
  destruct (pop_back_ok (length nums) (deque s) f1 dq1 (nv i)) as (dq2 & popped & -> & Hp & Hl & Hpop);
    [lia|done|done|].
  rewrite length_app in Hlen1. apply stored_app in Hst1.
  apply Forall_app in Hr1 as [Hr2 Hrp]. pose proof (sorted_app_l _ _ Hs1) as Hs2.
  assert (StronglySorted before (dq2 ++ [i])) as Hs3.
  { apply sorted_snoc; [done| |done]. eapply Forall_impl; [exact Hr2|]. simpl. lia. }
  assert (∀ j, (j ≤ i < j + k)%nat → ∃ q, q ∈ dq2 ++ [i] ∧ (j ≤ q)%nat ∧ nv j ≤ nv q) as Hd3.
  { intros j Hj. destruct (decide (j = i)) as [->|]; [exists i; split; [set_solver|lia]|].
    destruct (Hd1 j) as (q & [Hq|Hq]%elem_of_app & Hjq & Hle); [lia| |].
    - exists q. split; [set_solver|done].
    - exists i. split; [set_solver|]. split; [lia|].
      rewrite Forall_forall in Hp. specialize (Hp q Hq). simpl in Hp. lia. }
  set (arr := <[(f1 + length dq2)%nat := Some (Z.of_nat i)]> (deque s)).
  set (s' := mkstate arr (Z.of_nat f1) (Z.of_nat (f1 + length dq2))).
  assert (stored arr f1 (dq2 ++ [i])) as Hst3 by (apply stored_snoc; [done|lia]).
  assert (inv (1 + i) s' f1 (dq2 ++ [i])) as Hinv'.
  { constructor; simpl; rewrite ?length_app; simpl; try lia; try done.
    - unfold arr. by rewrite length_insert.
    - apply Forall_app. split; [|by repeat constructor; lia].
      eapply Forall_impl; [exact Hr2|]. simpl. lia.
    - intros j Hj. apply Hd3. lia. }
  assert (body nums (Z.of_nat k) (Z.of_nat i) s = report arr f1 i s') as ->.
  { apply (body_run i s f f1 dq dq2); [done|done|done| | |lia].
    - rewrite (inv_front _ _ _ _ Hinv). destruct (Nat.eqb_spec f1 f); simpl; lia.
    - rewrite (inv_back _ _ _ _ Hinv), <- Hpop. do 2 f_equal. rewrite length_app. lia. }
  assert (∃ h rest, dq2 ++ [i] = h :: rest) as (h & rest & Hh) by (destruct dq2; eauto).
  rewrite Hh in *.
  assert (uget arr (Z.of_nat f1) = Ok (Z.of_nat h)) as Hget
    by (rewrite <- (Nat.add_0_r f1); by eapply uget_stored).
  assert (h ≤ i < h + k)%nat as Hhr.
  { pose proof (inv_range _ _ _ _ Hinv') as [? _]%Forall_cons. lia. }
  unfold report. case_decide; zcases; try lia.
  - exists s', [d (nv h)], f1, (h :: rest). split; [|split; [done|]].
    + unfold mbind, C_bind, lift. rewrite Hget, nums_get by lia. done.
    + exists (nv h). split; [done|]. by eapply head_max; try done; lia.
  - exists s', [], f1, (h :: rest). done.
Qed.

End Window.

Lemma deque_maxima nums (k : nat) :
  (1 ≤ k ≤ length nums)%nat →
  ∃ ms, run_output (maximumSlidingWindow nums (Z.of_nat (length nums)) (Z.of_nat k))
          (start (Z.of_nat (length nums)))
        = Ok ((d <$> ms) ++ [nl]) ∧ maxima nums k ms.
Proof.
  intros Hk.
  destruct (printing_loop (body nums (Z.of_nat k)) (λ i s, ∃ f dq, inv nums k i s f dq)
    (λ i m, is_max nums k i m) (k - 1) (length nums)) with (s := start (Z.of_nat (length nums)))
    as (s' & ms & Hf & Hl & Hm).
  - intros i s Hi (f & dq & Hinv).
    destruct (deque_body_ok nums k i s f dq Hinv Hi) as (s' & o & f' & dq' & Hb & Hinv' & Ho); [lia|].
    exists s', o. split; [done|]. split; [eauto|done].
  - exists O, []. constructor; simpl; try done; try lia; try constructor.
    rewrite length_replicate. lia.
  - exists ms. split; [|split; [lia|done]].
    unfold run_output, maximumSlidingWindow. unfold mbind at 1, C_bind at 1. by rewrite Hf.
Qed.

End DequeProof.

(** *** The heap *)
Module HeapProof.
Import HeapQueue.

(** Node [x] is at position [j]. *)
Definition at_pos (h : array) (j : nat) (x : HeapNode) : Prop := h !! j = Some (Some x).

(** The first [n] positions are in use. *)
Definition used (h : array) (n : nat) : Prop :=
  (n ≤ length h)%nat ∧ ∀ j, (j < n)%nat → ∃ x, at_pos h j x.

Definition ord (h : array) (a b : nat) : Prop :=
  ∀ x y, at_pos h a x → at_pos h b y → value y ≤ value x.

Definition parent (j : nat) : nat := (j - 1) / 2.

(** Every node but the one at [i] is below its parent. *)
Definition heap_but (h : array) (n i : nat) : Prop :=
  ∀ j, (0 < j < n)%nat → j ≠ i → ord h (parent j) j.

Definition is_heap (h : array) (n : nat) : Prop := ∀ j, (0 < j < n)%nat → ord h (parent j) j.

(** The nodes in use. *)
Definition contains (h : array) (n : nat) (x : HeapNode) : Prop :=
  ∃ j, (j < n)%nat ∧ at_pos h j x.

Definition same_nodes (h h' : array) (n : nat) : Prop :=
  length h' = length h ∧ ∀ x, contains h' n x ↔ contains h n x.

Lemma uget_at h j x : at_pos h j x → uget h (Z.of_nat j) = Ok x.
Proof. intros Hj. unfold uget. by rewrite (aget_lookup _ _ _ Hj). Qed.

Lemma at_lt h j x : at_pos h j x → (j < length h)%nat.
Proof. apply lookup_lt_Some. Qed.

(** [swap] on an array. *)
Lemma swap_ok h a b x y :
  a ≠ b → at_pos h a x → at_pos h b y →
  ∃ h', swap h (Z.of_nat a) (Z.of_nat b) = Ok h' ∧ length h' = length h ∧
    at_pos h' a y ∧ at_pos h' b x ∧ ∀ j, j ≠ a → j ≠ b → h' !! j = h !! j.
Proof.
  intros Hab Ha Hb. pose proof (at_lt _ _ _ Ha). pose proof (at_lt _ _ _ Hb).
  unfold swap. rewrite (uget_at _ _ _ Ha), (uget_at _ _ _ Hb). c_run.
  rewrite aset_nat by done. rewrite aset_nat by (by rewrite length_insert).
  eexists. split; [done|]. rewrite !length_insert. split; [done|].
  unfold at_pos. split; [|split].
  - rewrite list_lookup_insert_ne by done. by apply list_lookup_insert_eq.
  - apply list_lookup_insert_eq. by rewrite length_insert.
  - intros j ? ?. by rewrite !list_lookup_insert_ne.
Qed.

Lemma swap_same h h' a b x y n :
  (a < n)%nat → (b < n)%nat → at_pos h a x → at_pos h b y → at_pos h' a y → at_pos h' b x →
  length h' = length h → (∀ j, j ≠ a → j ≠ b → h' !! j = h !! j) → same_nodes h h' n.
Proof.
  intros Ha Hb Hx Hy Hx' Hy' Hlen Hrest. split; [done|]. intros z.
  assert (∀ j, j = a ∨ j = b ∨ h' !! j = h !! j) as Hcase.
  { intros j. destruct (decide (j = a)), (decide (j = b)); auto. }
  split; intros (j & Hj & Hz); unfold contains, at_pos in *;
    destruct (Hcase j) as [->|[->|Heq]].
  - exists b. split; [done|]. congruence.
  - exists a. split; [done|]. congruence.
  - exists j. split; [done|]. congruence.
  - exists b. split; [done|]. congruence.
  - exists a. split; [done|]. congruence.
  - exists j. split; [done|]. congruence.
Qed.

Lemma used_same h h' n : used h n → length h' = length h →
  (∀ j x, (j < n)%nat → at_pos h j x → ∃ y, at_pos h' j y) → used h' n.
Proof.
  intros [Hn Hu] Hlen Hj. split; [lia|]. intros j Hjn. destruct (Hu j Hjn) as [x Hx]. eauto.
Qed.

Lemma same_nodes_trans h1 h2 h3 n :
  same_nodes h1 h2 n → same_nodes h2 h3 n → same_nodes h1 h3 n.
Proof. intros [? H1] [? H2]. split; [lia|]. intros x. by rewrite H2, H1. Qed.

Lemma parent_Z j : (0 < j)%nat → (Z.of_nat j - 1) ÷ 2 = Z.of_nat (parent j).
Proof.
  intros Hj. unfold parent. rewrite Z.quot_div_nonneg by lia.
  rewrite Nat2Z.inj_div. f_equal; lia.
Qed.

Lemma parent_lt j : (0 < j)%nat → (parent j < j)%nat.
Proof. intros. unfold parent. apply Nat.Div0.div_lt_upper_bound. lia. Qed.

Lemma parent_child j i : (0 < j)%nat → parent j = i ↔ j = (2 * i + 1)%nat ∨ j = (2 * i + 2)%nat.
Proof. intros. unfold parent. pose proof (Nat.div_mod_eq (j - 1) 2).
  pose proof (Nat.mod_upper_bound (j - 1) 2). lia. Qed.

(** Sifting up from [i]: the nodes below [i] are also below the parent of
    [i]. *)
Lemma heapifyUp_ok fuel h n i :
  used h n → (i < n)%nat → (i ≤ fuel)%nat → heap_but h n i →
  (∀ c, (0 < c < n)%nat → parent c = i → (0 < i)%nat → ord h (parent i) c) →
  ∃ h', heapifyUp fuel h (Z.of_nat i) = Ok h' ∧ is_heap h' n ∧ used h' n ∧ same_nodes h h' n.
Proof.
  revert h i. induction fuel as [|fuel IH]; intros h i Hu Hi Hf Hb Hc.
  { assert (i = O) as -> by lia. exists h. split; [done|].
    split; [intros j Hj; apply Hb; lia|]. split; [done|split; done]. }
  cbn [heapifyUp]. destruct (Z.ltb_spec 0 (Z.of_nat i)); [|assert (i = O) as -> by lia].
  2:{ exists h. split; [done|]. split; [intros j Hj; apply Hb; lia|]. split; [done|split; done]. }
  rewrite parent_Z by lia. pose proof (parent_lt i ltac:(lia)) as Hp.
  destruct (proj2 Hu i Hi) as [y Hy]. destruct (proj2 Hu (parent i)) as [x Hx]; [lia|].
  rewrite (uget_at _ _ _ Hx), (uget_at _ _ _ Hy). c_run.
  destruct (Z.leb_spec (value y) (value x)) as [Hle|Hlt].
  - exists h. split; [done|]. split; [|split; [done|split; done]].
    intros j Hj. destruct (decide (j = i)) as [->|]; [|by apply Hb].
    intros x' y' Hx' Hy'. unfold at_pos in *. congruence.
  - destruct (swap_ok h (parent i) i x y) as (h1 & -> & Hlen & H1 & H2 & Hrest); [lia|done|done|].
    assert (same_nodes h h1 n) as Hsame by (eapply (swap_same h h1 (parent i) i); eauto; lia).
    assert (used h1 n) as Hu1.
    { apply (used_same h); [done|done|]. intros j z Hj Hz.
      destruct (decide (j = parent i)) as [->|]; [eauto|].
      destruct (decide (j = i)) as [->|]; [eauto|]. exists z. unfold at_pos. by rewrite Hrest. }
    destruct (IH h1 (parent i)) as (h' & Hh' & Hheap & Hu' & Hsame'); [done|lia|lia| | |].
    + intros j Hj Hjp u v Hpu Hjv. unfold at_pos in *.
      destruct (decide (j = i)) as [->|Hji].
      * replace u with y by congruence. replace v with x by congruence. lia.
      * rewrite (Hrest j) in Hjv by done.
        destruct (decide (parent j = i)) as [Hpj|Hpj].
        -- rewrite Hpj in *. replace u with x by congruence.
           by apply (Hc j Hj Hpj ltac:(lia) x v).
        -- destruct (decide (parent j = parent i)) as [Hpp|Hpp].
           ++ rewrite Hpp in *. replace u with y by congruence.
              assert (value v ≤ value x) by (apply (Hb j Hj Hji x v); [by rewrite Hpp|done]). lia.
           ++ rewrite (Hrest (parent j)) in Hpu by done. by apply (Hb j Hj Hji).
    + intros c Hcn Hpc Hp0 u v Hpu Hcv. unfold at_pos in *.
      pose proof (parent_lt (parent i) Hp0).
      rewrite (Hrest (parent (parent i))) in Hpu by lia.
      assert (value x ≤ value u) as Hxu by (apply (Hb (parent i)); [lia|lia|done|done]).
      destruct (decide (c = i)) as [->|Hci].
      * replace v with x by congruence. lia.
      * pose proof (parent_lt c ltac:(lia)). rewrite (Hrest c) in Hcv by lia.
        assert (value v ≤ value x) by (apply (Hb c Hcn Hci x v); [by rewrite Hpc|done]). lia.
    + exists h'. split; [done|]. split; [done|]. split; [done|]. by eapply same_nodes_trans.
Qed.

Lemma larger_ok h n c l y :
  used h n → at_pos h l y →
  ∃ l' y', larger h (Z.of_nat n) (Z.of_nat c) (Z.of_nat l) = Ok (Z.of_nat l') ∧
    at_pos h l' y' ∧ (l' = l ∨ (l' = c ∧ (c < n)%nat ∧ value y < value y')) ∧ value y ≤ value y' ∧
    ∀ z, (c < n)%nat → at_pos h c z → value z ≤ value y'.
Proof.
  intros Hu Hl. unfold larger. destruct (Z.ltb_spec (Z.of_nat c) (Z.of_nat n)).
  - destruct (proj2 Hu c) as [x Hx]; [lia|].
    rewrite (uget_at _ _ _ Hx), (uget_at _ _ _ Hl). c_run.
    destruct (Z.ltb_spec (value y) (value x)).
    + exists c, x. split; [done|]. split; [done|]. split; [right; split; [done|lia]|].
      split; [lia|]. intros z _ Hz. unfold at_pos in *. replace z with x by congruence. lia.
    + exists l, y. split; [done|]. split; [done|]. split; [by left|]. split; [lia|].
      intros z _ Hz. unfold at_pos in *. replace z with x by congruence. lia.
  - exists l, y. split; [done|]. split; [done|]. split; [by left|]. split; [lia|]. lia.
Qed.

(** The child that [heapifyDown] picks. *)
Lemma pick_ok h n i x :
  used h n → at_pos h i x →
  ∃ l y, (l1 ← larger h (Z.of_nat n) (2 * Z.of_nat i + 1) (Z.of_nat i);
          larger h (Z.of_nat n) (2 * Z.of_nat i + 2) l1) = Ok (Z.of_nat l) ∧
    at_pos h l y ∧ value x ≤ value y ∧
    (l = i ∨ (l < n)%nat ∧ parent l = i ∧ (i < l)%nat ∧ value x < value y) ∧
    ∀ c z, (0 < c < n)%nat → parent c = i → at_pos h c z → value z ≤ value y.
Proof.
  intros Hu Hx.
  replace (2 * Z.of_nat i + 1) with (Z.of_nat (2 * i + 1)) by lia.
  replace (2 * Z.of_nat i + 2) with (Z.of_nat (2 * i + 2)) by lia.
  destruct (larger_ok h n (2 * i + 1) i x Hu Hx) as (l1 & y1 & -> & H1 & Hc1 & Hle1 & Hm1).
  destruct (larger_ok h n (2 * i + 2) l1 y1 Hu H1) as (l2 & y2 & Hres & H2 & Hc2 & Hle2 & Hm2).
  c_run. exists l2, y2. split; [done|]. split; [done|]. split; [lia|]. split.
  - destruct Hc2 as [->|(-> & ? & ?)].
    + destruct Hc1 as [->|(-> & ? & ?)]; [by left|right].
      split; [done|]. split; [apply parent_child; lia|]. lia.
    + right. split; [done|]. split; [apply parent_child; lia|]. lia.
  - intros c z Hc [->| ->]%parent_child Hz; [| |lia].
    + assert (value z ≤ value y1) by (apply Hm1; [lia|done]). lia.
    + apply Hm2; [lia|done].
Qed.

(** Sifting down from [i]. *)
Lemma heapifyDown_ok fuel h n i :
  used h n → (i < n)%nat → (n - i < fuel)%nat →
  (∀ j, (0 < j < n)%nat → parent j ≠ i → ord h (parent j) j) →
  (∀ c, (0 < c < n)%nat → parent c = i → (0 < i)%nat → ord h (parent i) c) →
  ∃ h', heapifyDown fuel h (Z.of_nat n) (Z.of_nat i) = Ok h' ∧ is_heap h' n ∧
        used h' n ∧ same_nodes h h' n.
Proof.
  revert h i. induction fuel as [|fuel IH]; intros h i Hu Hi Hf Hb Hc; [lia|].
  destruct (proj2 Hu i Hi) as [x Hx].
  destruct (pick_ok h n i x Hu Hx) as (l & y & Hpick & Hy & Hxy & Hl & Hmax).
  assert (∀ m : Z → res array, (l1 ← larger h (Z.of_nat n) (2 * Z.of_nat i + 1) (Z.of_nat i);
    l2 ← larger h (Z.of_nat n) (2 * Z.of_nat i + 2) l1; m l2) = m (Z.of_nat l)) as Hrun.
  { intros m. revert Hpick. unfold mbind, res_bind.
    destruct (larger h (Z.of_nat n) (2 * Z.of_nat i + 1) (Z.of_nat i)); [|done]. by intros ->. }
  cbn [heapifyDown]. rewrite Hrun. destruct (Z.eqb_spec (Z.of_nat l) (Z.of_nat i)) as [Heq|Hne].
  - assert (l = i) as -> by lia. exists h. split; [done|]. split; [|split; [done|split; done]].
    intros j Hj. destruct (decide (parent j = i)) as [Hpj|Hpj]; [|by apply Hb].
    intros u v Hu' Hv. rewrite Hpj in Hu'. unfold at_pos in *.
    replace u with y by congruence. by apply (Hmax j v Hj Hpj).
  - destruct Hl as [->|(Hln & Hpl & Hil & Hlt)]; [done|].
    destruct (swap_ok h i l x y) as (h1 & -> & Hlen & H1 & H2 & Hrest); [lia|done|done|].
    assert (same_nodes h h1 n) as Hsame by (eapply (swap_same h h1 i l); eauto).
    assert (used h1 n) as Hu1.
    { apply (used_same h); [done|done|]. intros j z Hj Hz.
      destruct (decide (j = i)) as [->|]; [eauto|].
      destruct (decide (j = l)) as [->|]; [eauto|]. exists z. unfold at_pos. by rewrite Hrest. }
    c_run. destruct (IH h1 l) as (h' & Hh' & Hheap & Hu' & Hsame'); [done|done|lia| | |].
    + intros j Hj Hpj u v Hpu Hjv. unfold at_pos in *.
      destruct (decide (parent j = i)) as [Hji|Hji].
      * rewrite Hji in Hpu. replace u with y by congruence.
        destruct (decide (j = l)) as [->|]; [replace v with x by congruence; lia|].
        pose proof (parent_lt j ltac:(lia)). rewrite (Hrest j) in Hjv by lia. eauto.
      * rewrite (Hrest (parent j)) in Hpu by done.
        destruct (decide (j = i)) as [->|]; [|destruct (decide (j = l)) as [->|]; [done|]].
        -- replace v with y by congruence.
           by apply (Hc l ltac:(lia) Hpl ltac:(lia) u y).
        -- rewrite (Hrest j) in Hjv by done. by apply (Hb j Hj Hji).
    + intros c Hcn Hpc Hl0 u v Hpu Hcv. unfold at_pos in *. rewrite Hpl in Hpu.
      replace u with y by congruence. pose proof (parent_lt c ltac:(lia)).
      rewrite (Hrest c) in Hcv by lia.
      apply (Hb c Hcn ltac:(lia) y v); [by rewrite Hpc|done].
    + exists h'. split; [done|]. split; [done|]. split; [done|]. by eapply same_nodes_trans.
Qed.

Arguments heapifyUp : simpl never.
Arguments heapifyDown : simpl never.

(** The root of a heap is its maximum. *)
Lemma root_max h n r x :
  used h n → is_heap h n → at_pos h 0 r → contains h n x → value x ≤ value r.
Proof.
  intros Hu Hh Hr (j & Hj & Hx). revert x Hx. induction (lt_wf j) as [j _ IH]. intros x Hx.
  destruct (decide (j = O)) as [->|]; [unfold at_pos in *; replace x with r by congruence; lia|].
  pose proof (parent_lt j ltac:(lia)). destruct (proj2 Hu (parent j)) as [y Hy]; [lia|].
  assert (value x ≤ value y) by (by apply (Hh j ltac:(lia) y x)).
  assert (value y ≤ value r) by (apply (IH (parent j)); [done|lia|done]). lia.
Qed.

(** The program's state: a heap of [n] nodes. *)
Record good (s : state) (n : nat) : Prop := mkgood {
  good_size : heapSize s = Z.of_nat n;
  good_used : used (heap s) n;
  good_heap : is_heap (heap s) n
}.

Lemma push_ok s n i v :
  good s n → (n < length (heap s))%nat →
  ∃ s', push i v s = Ok (tt, s', []) ∧ good s' (S n) ∧ length (heap s') = length (heap s) ∧
    ∀ x, contains (heap s') (S n) x ↔ x = mkHeapNode v i ∨ contains (heap s) n x.
Proof.
  intros [Hsz Hu Hh] Hn. unfold push. c_run. rewrite Hsz, aset_nat by done.
  set (h1 := <[n := Some (mkHeapNode v i)]> (heap s)).
  assert (length h1 = length (heap s)) as Hlen by (apply length_insert).
  assert (at_pos h1 n (mkHeapNode v i)) as Hnew by (by apply list_lookup_insert_eq).
  assert (∀ j, j ≠ n → h1 !! j = heap s !! j) as Hold
    by (intros j ?; by apply list_lookup_insert_ne).
  destruct (heapifyUp_ok (length h1) h1 (S n) n) as (h2 & Hup & Hheap & Hu2 & Hlen2 & Hsame).
  - split; [lia|]. intros j Hj. destruct (decide (j = n)) as [->|]; [eauto|].
    destruct (proj2 Hu j) as [x Hx]; [lia|]. exists x. unfold at_pos. by rewrite Hold.
  - lia.
  - lia.
  - intros j Hj Hjn x y Hx Hy. pose proof (parent_lt j ltac:(lia)). unfold at_pos in *.
    rewrite Hold in Hx, Hy by lia. by apply (Hh j ltac:(lia) x y).
  - intros c Hc Hpc. pose proof (parent_lt c ltac:(lia)). lia.
  - simpl. rewrite Hup. eexists. split; [done|]. simpl. split; [|split; [lia|]].
    + constructor; simpl; [lia|done|done].
    + intros x. rewrite Hsame. unfold contains, at_pos in *. split.
      * intros (j & Hj & Hx). destruct (decide (j = n)) as [->|]; [left; congruence|right].
        exists j. rewrite Hold in Hx by done. split; [lia|done].
      * intros [->|(j & Hj & Hx)]; [exists n; auto|]. exists j. rewrite Hold by lia. auto.
Qed.

Lemma pop_ok s n r :
  good s (S n) → (0 < n)%nat → at_pos (heap s) 0 r →
  ∃ s', pop s = Ok (tt, s', []) ∧ good s' n ∧ length (heap s') = length (heap s) ∧
    (∀ x, contains (heap s') n x → contains (heap s) (S n) x) ∧
    (∀ x, x ≠ r → contains (heap s) (S n) x → contains (heap s') n x).
Proof.
  intros [Hsz [Hlen Hu] Hh] Hn Hr. unfold pop. c_run. rewrite Hsz.
  replace (Z.of_nat (S n) - 1) with (Z.of_nat n) by lia.
  destruct (Hu n) as [x Hx]; [lia|]. rewrite (uget_at _ _ _ Hx).
  change 0 with (Z.of_nat 0). rewrite aset_nat by lia.
  set (h1 := <[O := Some x]> (heap s)).
  assert (length h1 = length (heap s)) as Hlen1 by (apply length_insert).
  assert (at_pos h1 0 x) as H0 by (apply list_lookup_insert_eq; lia).
  assert (∀ j, j ≠ O → h1 !! j = heap s !! j) as Hold
    by (intros j ?; by apply list_lookup_insert_ne).
  destruct (heapifyDown_ok (S (length h1)) h1 n 0) as (h2 & Hdown & Hheap & Hu2 & Hlen2 & Hsame).
  - split; [lia|]. intros j Hj. destruct (decide (j = O)) as [->|]; [eauto|].
    destruct (Hu j) as [z Hz]; [lia|]. exists z. unfold at_pos. by rewrite Hold.
  - done.
  - lia.
  - intros j Hj Hp y z Hy Hz. unfold at_pos in *. rewrite Hold in Hy, Hz by lia.
    by apply (Hh j ltac:(lia) y z).
  - intros c Hc Hpc. lia.
  - rewrite Hdown. eexists. split; [done|]. simpl. split; [by constructor|]. split; [lia|].
    unfold contains, at_pos in *. split.
    + intros z (j & Hj & Hz)%Hsame. destruct (decide (j = O)) as [->|].
      * exists n. split; [lia|]. congruence.
      * exists j. rewrite Hold in Hz by done. split; [lia|done].
    + intros z Hzr (j & Hj & Hz). apply Hsame. destruct (decide (j = O)) as [->|]; [congruence|].
      destruct (decide (j = n)) as [->|].
      * exists O. split; [done|]. congruence.
      * exists j. rewrite Hold by done. split; [lia|done].
Qed.

Section Window.
Context (nums : list Z) (k : nat).

Abbreviation nd j := (mkHeapNode (nums !!! j) (Z.of_nat j)).

(** Before round [i]: the heap holds elements met so far, among them those of
    the last window. *)
Record inv (i : nat) (s : state) (n : nat) : Prop := mkinv {
  inv_good : good s n;
  inv_len : length (heap s) = length nums;
  inv_n : (n ≤ i)%nat;
  inv_sound x : contains (heap s) n x → ∃ j, (j < i)%nat ∧ x = nd j;
  inv_complete j : (j < i < j + k)%nat → contains (heap s) n (nd j)
}.

(** The loop that drops what left the window stops at an element of the
    window, which is the maximum. *)
Lemma heap_expire_ok fuel i s n :
  good s n → length (heap s) = length nums → (n ≤ fuel)%nat → (0 < n)%nat →
  (∀ x, contains (heap s) n x → ∃ j, (j ≤ i)%nat ∧ x = nd j) →
  (∀ j, (j ≤ i < j + k)%nat → contains (heap s) n (nd j)) → (1 ≤ k)%nat →
  ∃ s' n' j, expire fuel (Z.of_nat i - Z.of_nat k) s = Ok (tt, s', []) ∧
    good s' n' ∧ length (heap s') = length nums ∧ (n' ≤ n)%nat ∧
    (∀ x, contains (heap s') n' x → ∃ j, (j ≤ i)%nat ∧ x = nd j) ∧
    (∀ j, (j ≤ i < j + k)%nat → contains (heap s') n' (nd j)) ∧
    top s' = Ok (nd j, s', []) ∧ (j ≤ i < j + k)%nat ∧
    (∀ x, contains (heap s') n' x → value x ≤ nums !!! j).
Proof.
  revert s n. induction fuel as [|fuel IH]; intros s n Hg Hlen Hn Hpos Hsound Hcomp Hk; [lia|].
  destruct (proj2 (good_used _ _ Hg) O Hpos) as [r Hr].
  assert (top s = Ok (r, s, [])) as Htop
    by (unfold top; c_run; change 0 with (Z.of_nat 0); by rewrite (uget_at _ _ _ Hr)).
  destruct (Hsound r) as (j & Hj & ->); [by exists O|].
  cbn [expire]. unfold mbind at 1, C_bind at 1. rewrite Htop. cbn [index].
  destruct (Z.leb_spec (Z.of_nat j) (Z.of_nat i - Z.of_nat k)) as [Hold|Hnew].
  - assert (contains (heap s) n (nd i)) as (p & Hp & Hpi) by (apply Hcomp; lia).
    assert (p ≠ O).
    { intros ->. unfold at_pos in *. rewrite Hr in Hpi. injection Hpi. lia. }
    destruct n as [|n]; [lia|].
    destruct (pop_ok s n _ Hg ltac:(lia) Hr) as (s1 & Hpop & Hg1 & Hlen1 & Hsub & Hkeep).
    destruct (IH s1 n) as (s' & n' & j' & He & H1 & H2 & H3 & H4 & H5 & H6 & H7 & H8);
      [done|lia|lia|lia|by auto| |done|].
    { intros j' Hj'. apply Hkeep; [|by apply Hcomp]. intros [= _ ?]. lia. }
    exists s', n', j'. split; [unfold mbind, C_bind; by rewrite Hpop, He|].
    repeat split; auto; try lia; try apply H1.
  - exists s, n, j. split; [done|]. repeat split; auto; try lia; try apply Hg.
    intros x Hx. exact (root_max _ _ _ _ (good_used _ _ Hg) (good_heap _ _ Hg) Hr Hx).
Qed.

Lemma heap_body_ok i s n :
  inv i s n → (i < length nums)%nat → (1 ≤ k)%nat →
  ∃ s' o n', body nums (Z.of_nat k) (Z.of_nat i) s = Ok (tt, s', o) ∧ inv (1 + i) s' n' ∧
    (if decide (k - 1 ≤ i)%nat then ∃ m, o = [d m] ∧ is_max nums k (i - (k - 1)) m else o = []).
Proof.
  intros [Hg Hlen Hn Hsound Hcomp] Hi Hk.
  destruct (push_ok s n (Z.of_nat i) (nums !!! i) Hg) as (s1 & Hpush & Hg1 & Hlen1 & Hel); [lia|].
  destruct (heap_expire_ok (length nums) i s1 (S n)) as
    (s' & n' & j & He & Hg' & Hlen' & Hn' & Hs' & Hc' & Htop & Hj & Hmax);
    [done|lia|lia|lia| | |done|].
  { intros x [->|Hx]%Hel; [by exists i|]. destruct (Hsound x Hx) as (j & ? & ->). exists j. split; [lia|done]. }
  { intros j Hj. apply Hel. destruct (decide (j = i)) as [->|]; [by left|right; apply Hcomp; lia]. }
  assert (body nums (Z.of_nat k) (Z.of_nat i) s =
    (if Z.of_nat k - 1 <=? Z.of_nat i then t ← top; printf (d (value t)) else mret tt) s') as ->.
  { unfold body. unfold mbind at 1, C_bind at 1, lift.
    rewrite (aget_lookup nums i (nums !!! i)) by (by apply list_lookup_lookup_total_lt).
    unfold mbind at 1, C_bind at 1. rewrite Hpush. unfold mbind at 1, C_bind at 1. rewrite He.
    destruct (Z.of_nat k - 1 <=? Z.of_nat i); [|done].
    unfold mbind, C_bind. by rewrite Htop. }
  assert (inv (1 + i) s' n') as Hinv'.
  { constructor; [done|done|lia| |].
    - intros x Hx. destruct (Hs' x Hx) as (j' & ? & ->). exists j'. split; [lia|done].
    - intros j' Hj'. apply Hc'. lia. }
  case_decide; zcases; try lia.
  - exists s', [d (nums !!! j)], n'. split; [unfold mbind, C_bind; by rewrite Htop|].
    split; [done|]. exists (nums !!! j). split; [done|]. split.
    + exists j. split; [lia|]. apply list_lookup_lookup_total_lt. lia.
    + intros j' x Hj' Hx. rewrite <- (list_lookup_total_correct _ _ _ Hx).
      apply (Hmax (nd j')), Hc'. lia.
  - exists s', [], n'. done.
Qed.

End Window.

Lemma heap_maxima nums (k : nat) :
  (1 ≤ k ≤ length nums)%nat →
  ∃ ms, run_output (maximumSlidingWindow nums (Z.of_nat (length nums)) (Z.of_nat k))
          (start (Z.of_nat (length nums)))
        = Ok ((d <$> ms) ++ [nl]) ∧ maxima nums k ms.
Proof.
  intros Hk.
  destruct (printing_loop (body nums (Z.of_nat k)) (λ i s, ∃ n, inv nums k i s n)
    (λ i m, is_max nums k i m) (k - 1) (length nums)) with (s := start (Z.of_nat (length nums)))
    as (s' & ms & Hf & Hl & Hm).
  - intros i s Hi (n & Hinv).
    destruct (heap_body_ok nums k i s n Hinv Hi) as (s' & o & n' & Hb & Hinv' & Ho); [lia|].
    exists s', o. split; [done|]. split; [eauto|done].
  - exists O. constructor; simpl; try done; try lia.
    + constructor; [done|split; [lia|lia]|intros j Hj; lia].
    + rewrite length_replicate. lia.
    + intros x (j & Hj & _). lia.
  - exists ms. split; [|split; [lia|done]].
    unfold run_output, maximumSlidingWindow. unfold mbind at 1, C_bind at 1. by rewrite Hf.
Qed.

End HeapProof.

(** C31: for every array and every window size [1 <= k <= n], the direct
    program, the deque and the heap all run without an error and print the
    same text: the maxima of the [n - k + 1] windows, in order. *)
Theorem windows_agree (nums : list Z) (k : nat) :
  (1 ≤ k ≤ length nums)%nat →
  let n := Z.of_nat (length nums) in
  ∃ ms, maxima nums k ms ∧
    run_output (BruteForce.maximumSlidingWindow nums n (Z.of_nat k)) tt
      = Ok ((d <$> ms) ++ [nl]) ∧
    run_output (Deque.maximumSlidingWindow nums n (Z.of_nat k)) (Deque.start n)
      = Ok ((d <$> ms) ++ [nl]) ∧
    run_output (HeapQueue.maximumSlidingWindow nums n (Z.of_nat k)) (HeapQueue.start n)
      = Ok ((d <$> ms) ++ [nl]).
Proof.
  intros Hk. destruct (BruteProof.brute_maxima nums k Hk) as (ms & Hb & Hms).
  destruct (DequeProof.deque_maxima nums k Hk) as (ms1 & Hd & Hms1).
  destruct (HeapProof.heap_maxima nums k Hk) as (ms2 & Hh & Hms2).
  rewrite (maxima_unique _ _ _ _ Hms1 Hms) in Hd.
  rewrite (maxima_unique _ _ _ _ Hms2 Hms) in Hh. exists ms. auto.
Qed.

Lemma windows_agree_witness :
  ∃ ms, maxima [1; 3; -1; -3; 5; 3; 6; 7] 3 ms ∧
    run_output (HeapQueue.maximumSlidingWindow [1; 3; -1; -3; 5; 3; 6; 7] 8 3) (HeapQueue.start 8)
      = Ok ((d <$> ms) ++ [nl]).
Proof.
  destruct (windows_agree [1; 3; -1; -3; 5; 3; 6; 7] 3) as (ms & ? & _ & _ & ?); [simpl; lia|].
  exists ms. auto.
Defined.
