(* ===== verification/PageReplacement.v ===== *)
(** * Page replacement

    [BUFFERPOOL_PAGE_REPLACEMENT] and [ARC]: FIFO ([BufferPool]), LRU ([LruC]
    and [SimLru]), CLOCK ([Clock] and [SimClock]) and the simplified ARC
    ([SimArc]).  The request sequence is an argument where the source has a
    file-scope array; [main] instantiates it.  The theorems compare LRU and
    FIFO with their ideal caches, and give CLOCK's and ARC's behaviour on every
    request. *)
From stdpp Require Import base list gmap strings pretty sorting.
From Stdlib Require Import ZArith Lia.
From S2P Require Import Prelude.
Local Open Scope Z_scope.

(** ** Loops and formats the programs share *)

(** [for (j...) if (P(a[j])) { r = j; break; }] with [r = -1] before. *)
Fixpoint first_index {A} (P : A → bool) (a : list A) (js : list Z) : res Z :=
  match js with
  | [] => Ok (-1)
  | j :: js => x ← aget a j; if P x then Ok j else first_index P a js
  end.

(** The same loop without [break]: the last such index. *)
Fixpoint last_index {A} (P : A → bool) (a : list A) (js : list Z) (r : Z) : res Z :=
  match js with
  | [] => Ok r
  | j :: js => x ← aget a j; last_index P a js (if P x then j else r)
  end.

(** [for (j = 1; ...) if (time[j] < time[lru]) lru = j]. *)
Fixpoint min_index (time : list Z) (js : list Z) (lru : Z) : res Z :=
  match js with
  | [] => Ok lru
  | j :: js =>
      x ← aget time j;
      y ← aget time lru;
      min_index time js (if x <? y then j else lru)
  end.

(** [%2d], and [%.2f] of a quotient: the nearest hundredth. *)
Definition d2 (z : Z) : string := if (String.length (d z) <? 2)%nat then " " +:+ d z else d z.
Definition fixed2 (num den : Z) : string :=
  let h := (200 * num + den) / (2 * den) in
  d (h / 100) +:+ "." +:+ (if h mod 100 <? 10 then "0" +:+ d (h mod 100) else d (h mod 100)).

(** The frames as the programs print them. *)
Definition frame_text (x : Z) : string := if x =? -1 then "- " else d x +:+ " ".

(** The request sequence of three of the programs. *)
Definition pages : list Z := [1; 2; 3; 4; 1; 2; 5; 1; 2; 3; 4; 5].
Definition MAX_FRAMES : Z := 3.
Definition MAX_PAGES : Z := 12.

(** ** [lru.c] *)
Module LruC.

Record state : Set := mkstate {
  buffer : list Z; time : list Z; hits : Z; misses : Z; counter : Z }.

Definition init : state := mkstate (replicate 3 (-1)) (replicate 3 0) 0 0 0.

Definition findpage (buf : list Z) (page n : Z) : res Z :=
  first_index (λ x, x =? page) buf (seqZ 0 n).

Definition printBuffer : C state unit :=
  printf "Buffer: " ;;
  for_each (λ i, s ← get; x ← lift (aget (buffer s) i); printf (frame_text x))
    (seqZ 0 MAX_FRAMES) ;;
  printf nl.

(** [buffer[j] = page; time[j] = ++counter]. *)
Definition load_frame (j page : Z) : C state unit :=
  s ← get;
  b ← lift (aset (buffer s) j page);
  t ← lift (aset (time s) j (counter s + 1));
  put (mkstate b t (hits s) (misses s) (counter s + 1)).

Definition request (page : Z) : C state unit :=
  s ← get;
  pos ← lift (findpage (buffer s) page MAX_FRAMES);
  printf ("Requesting page " +:+ d page +:+ " -> ") ;;
  (if negb (pos =? -1) then
     t ← lift (aset (time s) pos (counter s + 1));
     put (mkstate (buffer s) t (hits s + 1) (misses s) (counter s + 1)) ;;
     printf ("HIT" +:+ nl)
   else
     put (mkstate (buffer s) (time s) (hits s) (misses s + 1) (counter s)) ;;
     empty ← lift (first_index (λ x, x =? -1) (buffer s) (seqZ 0 MAX_FRAMES));
     (if negb (empty =? -1) then load_frame empty page
      else
        lru ← lift (min_index (time s) (seqZ 1 (MAX_FRAMES - 1)) 0);
        load_frame lru page) ;;
     printf ("MISS (Loaded " +:+ d page +:+ " into buffer)" +:+ nl)) ;;
  printBuffer.

Definition simulateLRU (pages : list Z) : C state unit :=
  printf ("=== LRU Page Replacement Simulation ===" +:+ nl) ;;
  for_each request pages ;;
  printf (nl +:+ "=== Simulation Summary ===" +:+ nl) ;;
  s ← get;
  printf ("Total Page Requests: " +:+ d MAX_PAGES +:+ nl) ;;
  printf ("Total Hits: " +:+ d (hits s) +:+ nl) ;;
  printf ("Total Misses: " +:+ d (misses s) +:+ nl) ;;
  printf ("Hit Ratio: " +:+ fixed2 (hits s * 100) MAX_PAGES +:+ "%" +:+ nl) ;;
  printf ("Miss Ratio: " +:+ fixed2 (misses s * 100) MAX_PAGES +:+ "%" +:+ nl).

Definition main : C state unit := simulateLRU pages.

End LruC.

(** ** [simulateLRU] of [page_cache_simulator_using_lru_clock_arc.c] *)
Module SimLru.
Import LruC.

(** The state and the stores are those of [lru.c]; the searches go through the
    whole array and keep the last match. *)
Definition request (ip : Z * Z) : C state unit :=
  let '(i, page) := ip in
  s ← get;
  found ← lift (last_index (λ x, x =? page) (buffer s) (seqZ 0 MAX_FRAMES) (-1));
  (if negb (found =? -1) then
     t ← lift (aset (time s) found (counter s + 1));
     put (mkstate (buffer s) t (hits s + 1) (misses s) (counter s + 1))
   else
     put (mkstate (buffer s) (time s) (hits s) (misses s + 1) (counter s)) ;;
     empty ← lift (last_index (λ x, x =? -1) (buffer s) (seqZ 0 MAX_FRAMES) (-1));
     if negb (empty =? -1) then load_frame empty page
     else
       lru ← lift (min_index (time s) (seqZ 1 (MAX_FRAMES - 1)) 0);
       load_frame lru page) ;;
  printf ("Step " +:+ d2 (i + 1) +:+ " (Page " +:+ d page +:+ "): ") ;;
  for_each (λ j, s ← get; x ← lift (aget (buffer s) j); printf (frame_text x))
    (seqZ 0 MAX_FRAMES) ;;
  printf (if negb (found =? -1) then "-> HIT" +:+ nl else "-> MISS" +:+ nl).

Definition summary (hits misses : Z) : string :=
  nl +:+ "Total Hits: " +:+ d hits +:+ nl +:+ "Total Misses: " +:+ d misses +:+ nl +:+
  "Hit Ratio: " +:+ fixed2 hits MAX_PAGES +:+ nl.

Definition simulateLRU (pages : list Z) : C state unit :=
  printf (nl +:+ "===== LRU Page Replacement =====" +:+ nl +:+ nl) ;;
  for_each request (imap (λ i p, (Z.of_nat i, p)) pages) ;;
  s ← get;
  printf (summary (hits s) (misses s)).

End SimLru.

(** ** [clock.c] *)
Module Clock.

Record state : Set := mkstate {
  buffer : list Z; refBit : list Z; pointer : Z; hits : Z; misses : Z }.

Definition init : state := mkstate (replicate 3 (-1)) (replicate 3 0) 0 0 0.

(** The [while (1)] loop. *)
Fixpoint sweep (fuel : nat) (page : Z) : C state unit :=
  match fuel with
  | O => lift (UB OutOfFuel)
  | S fuel =>
      s ← get;
      r ← lift (aget (refBit s) (pointer s));
      let next := (pointer s + 1) mod MAX_FRAMES in
      if r =? 0 then
        b ← lift (aset (buffer s) (pointer s) page);
        rb ← lift (aset (refBit s) (pointer s) 1);
        put (mkstate b rb next (hits s) (misses s))
      else
        rb ← lift (aset (refBit s) (pointer s) 0);
        put (mkstate (buffer s) rb next (hits s) (misses s)) ;;
        sweep fuel page
  end.

(** One request, up to the printing; the result is [found]. *)
Definition access (page : Z) : C state bool :=
  s ← get;
  j ← lift (first_index (λ x, x =? page) (buffer s) (seqZ 0 MAX_FRAMES));
  if negb (j =? -1) then
    rb ← lift (aset (refBit s) j 1);
    put (mkstate (buffer s) rb (pointer s) (hits s + 1) (misses s)) ;;
    mret true
  else
    put (mkstate (buffer s) (refBit s) (pointer s) (hits s) (misses s + 1)) ;;
    sweep 4 page ;;
    mret false.

Definition request (page : Z) : C state unit :=
  found ← access page;
  printf ("Request " +:+ d2 page +:+ " -> ") ;;
  for_each (λ j,
    s ← get;
    x ← lift (aget (buffer s) j);
    if negb (x =? -1) then printf (d x) else mret tt)
    (seqZ 0 MAX_FRAMES) ;;
  printf nl.

Definition simulateClock (pages : list Z) : C state unit :=
  printf ("Clock: " +:+ nl) ;;
  for_each request pages ;;
  s ← get;
  printf (nl +:+ "Total Hits: " +:+ d (hits s) +:+ nl +:+ "Total Misses: " +:+
          d (misses s) +:+ nl +:+ "Hit Ratio: " +:+
          fixed2 (hits s) (hits s + misses s) +:+ nl).

Definition main : C state unit := simulateClock pages.

End Clock.

(** ** [simulateClock] of the simulator *)
Module SimClock.
Import Clock.

(** The accesses are those of [clock.c]. *)
Definition request (ip : Z * Z) : C state unit :=
  let '(i, page) := ip in
  found ← access page;
  printf ("Step " +:+ d2 (i + 1) +:+ " (Page " +:+ d page +:+ "): ") ;;
  for_each (λ k, s ← get; x ← lift (aget (buffer s) k); printf (frame_text x))
    (seqZ 0 MAX_FRAMES) ;;
  printf (if found : bool then "-> HIT" +:+ nl else "-> MISS" +:+ nl).

Definition simulateClock (pages : list Z) : C state unit :=
  printf (nl +:+ "===== CLOCK Page Replacement =====" +:+ nl +:+ nl) ;;
  for_each request (imap (λ i p, (Z.of_nat i, p)) pages) ;;
  s ← get;
  printf (SimLru.summary (hits s) (misses s)).

End SimClock.

(** ** [simulateARC] *)
Module SimArc.

(** An array of [MAX_FRAMES] and the number of its elements in use. *)
Record queue : Set := mkqueue { arr : list Z; size : Z }.

Record ARC : Set := mkARC {
  T1 : queue; T2 : queue; B1 : queue; B2 : queue; hits : Z; misses : Z }.

Definition contains (q : queue) (page : Z) : res bool :=
  j ← first_index (λ x, x =? page) (arr q) (seqZ 0 (size q));
  mret (negb (j =? -1)).

(** [for (k = ...) arr[k] = arr[k + 1]]. *)
Fixpoint shift_left (a : list Z) (ks : list Z) : res (list Z) :=
  match ks with
  | [] => Ok a
  | k :: ks => x ← aget a (k + 1); a ← aset a k x; shift_left a ks
  end.

Definition removeFirst (q : queue) : res queue :=
  a ← shift_left (arr q) (seqZ 0 (size q - 1));
  mret (mkqueue a (size q - 1)).

Definition addLast (q : queue) (page : Z) : res queue :=
  a ← aset (arr q) (size q) page;
  mret (mkqueue a (size q + 1)).

(** Removing the page from [T1]. *)
Definition removePage (q : queue) (page : Z) : res queue :=
  j ← first_index (λ x, x =? page) (arr q) (seqZ 0 (size q));
  if j =? -1 then Ok q
  else
    a ← shift_left (arr q) (seqZ j (size q - 1 - j));
    mret (mkqueue a (size q - 1)).

Definition print_queue (q : queue) : C ARC unit :=
  for_each (λ i, x ← lift (aget (arr q) i); printf (d x +:+ " ")) (seqZ 0 (size q)).

Definition printARC : C ARC unit :=
  a ← get;
  printf "T1: " ;;
  print_queue (T1 a) ;;
  printf "| T2: " ;;
  print_queue (T2 a) ;;
  printf nl.

(** A hit. *)
Definition on_hit (page : Z) (inT1 : bool) : C ARC unit :=
  a ← get;
  if inT1 then
    t1 ← lift (removePage (T1 a) page);
    t2 ← lift (addLast (T2 a) page);
    put (mkARC t1 t2 (B1 a) (B2 a) (hits a + 1) (misses a))
  else put (mkARC (T1 a) (T2 a) (B1 a) (B2 a) (hits a + 1) (misses a)).

(** A miss: first the test of [t1Size + b1Size], then the insertion. *)
Definition make_room (a : ARC) : res ARC :=
  if size (T1 a) + size (B1 a) =? MAX_FRAMES then
    if size (T1 a) <? MAX_FRAMES then
      b1 ← removeFirst (B1 a);
      mret (mkARC (T1 a) (T2 a) b1 (B2 a) (hits a) (misses a))
    else
      t1 ← removeFirst (T1 a);
      mret (mkARC t1 (T2 a) (B1 a) (B2 a) (hits a) (misses a))
  else Ok a.

Definition insert_page (page : Z) (a : ARC) : res ARC :=
  if size (T1 a) + size (T2 a) <? MAX_FRAMES then
    t1 ← addLast (T1 a) page;
    mret (mkARC t1 (T2 a) (B1 a) (B2 a) (hits a) (misses a))
  else if size (T2 a) <? MAX_FRAMES then
    t2 ← removeFirst (T2 a);
    t1 ← addLast (T1 a) page;
    mret (mkARC t1 t2 (B1 a) (B2 a) (hits a) (misses a))
  else
    t1 ← removeFirst (T1 a);
    t1 ← addLast t1 page;
    mret (mkARC t1 (T2 a) (B1 a) (B2 a) (hits a) (misses a)).

Definition on_miss (page : Z) : C ARC unit :=
  a ← get;
  a ← lift (make_room (mkARC (T1 a) (T2 a) (B1 a) (B2 a) (hits a) (misses a + 1)));
  a ← lift (insert_page page a);
  put a.

Definition request (ip : Z * Z) : C ARC unit :=
  let '(i, page) := ip in
  a ← get;
  in1 ← lift (contains (T1 a) page);
  in2 ← lift (if in1 : bool then Ok true else contains (T2 a) page);
  if in2 : bool then
    on_hit page in1 ;;
    printf ("Step " +:+ d2 (i + 1) +:+ " (Page " +:+ d page +:+ "): HIT | ") ;;
    printARC
  else
    on_miss page ;;
    printf ("Step " +:+ d2 (i + 1) +:+ " (Page " +:+ d page +:+ "): MISS | ") ;;
    printARC.

(** The designated initialiser leaves the arrays zeroed. *)
Definition init : ARC :=
  let e := mkqueue (replicate 3 0) 0 in mkARC e e e e 0 0.

Definition simulateARC (pages : list Z) : C ARC unit :=
  printf (nl +:+ "===== ARC Page Replacement (Simplified) =====" +:+ nl +:+ nl) ;;
  for_each request (imap (λ i p, (Z.of_nat i, p)) pages) ;;
  a ← get;
  printf (SimLru.summary (hits a) (misses a)).

(** [main] runs the three simulations in turn. *)
Definition main : res (list string) :=
  o1 ← run_output (SimLru.simulateLRU pages) LruC.init;
  o2 ← run_output (SimClock.simulateClock pages) Clock.init;
  o3 ← run_output (simulateARC pages) init;
  mret (o1 ++ o2 ++ o3).

End SimArc.

(** ** [buffer_pool.c] *)
Module BufferPool.

Record state : Set := mkstate { buffer : list Z; buffer_size : Z; nextInsert : Z }.

Definition isPageInBuffer (page : Z) : C state bool :=
  s ← get;
  j ← lift (first_index (λ x, x =? page) (buffer s) (seqZ 0 (buffer_size s)));
  mret (negb (j =? -1)).

Definition printBuffer : C state unit :=
  printf ("Buffer elements" +:+ nl) ;;
  s ← get;
  for_each (λ i, x ← lift (aget (buffer s) i); printf (frame_text x))
    (seqZ 0 (buffer_size s)) ;;
  printf nl.

Definition load_page (page : Z) : C state unit :=
  s ← get;
  b ← lift (aset (buffer s) (nextInsert s) page);
  if buffer_size s =? 0 then lift (UB DivByZero)
  else put (mkstate b (buffer_size s) (Z.rem (nextInsert s + 1) (buffer_size s))).

(** The body of the request loop; the result says whether it was a hit. *)
Definition request (page : Z) : C state bool :=
  printf ("Requesting page " +:+ d page +:+ "->") ;;
  hit ← isPageInBuffer page;
  (if hit : bool then printf ("HIT" +:+ nl)
   else printf ("MISS (Loading into buffer)" +:+ nl) ;; load_page page) ;;
  printBuffer ;;
  mret hit.

(** [for (i...) buffer[i] = -1]. *)
Definition clear (size : Z) : C state unit :=
  for_each (λ i,
    s ← get;
    b ← lift (aset (buffer s) i (-1));
    put (mkstate b (buffer_size s) (nextInsert s)))
    (seqZ 0 size).

(** [main] on the numbers it reads: the [n] pages go into an array of 20. *)
Definition main (n : Z) (input : list Z) (size : Z) : C state unit :=
  printf "Enter number of pages:" ;;
  printf ("Enter " +:+ d n +:+ " pages into the pool:" +:+ nl) ;;
  (if 20 <? n then lift (UB OutOfBounds) else mret tt) ;;
  printf "Enter bufferpool size:" ;;
  modify (λ s, mkstate (buffer s) size 0) ;;
  clear size ;;
  for_each (λ page, request page ;; mret tt) (take (Z.to_nat n) input).

(** The file-scope array starts zeroed. *)
Definition start : state := mkstate (replicate 10 0) 0 0.

End BufferPool.

(** ** Searches *)

(** [r] is the index of an element that satisfies [P], or -1 when there is
    none among the first [n]. *)
Definition index_of {A} (P : A → bool) (a : list A) (n : nat) (r : Z) : Prop :=
  (r = -1 ∧ ∀ j x, (j < n)%nat → a !! j = Some x → P x = false) ∨
  (∃ j x, r = Z.of_nat j ∧ (j < n)%nat ∧ a !! j = Some x ∧ P x = true).

Lemma first_index_ok {A} (P : A → bool) (a : list A) (n : nat) :
  (n ≤ length a)%nat →
  ∃ r, first_index P a (seqZ 0 (Z.of_nat n)) = Ok r ∧ index_of P a n r.
Proof.
  intros Hn.
  enough (∀ m i, (i + m = n)%nat → (∀ j x, (j < i)%nat → a !! j = Some x → P x = false) →
    ∃ r, first_index P a (seqZ (Z.of_nat i) (Z.of_nat m)) = Ok r ∧ index_of P a n r) as H.
  { apply (H n O); [lia|]. intros. lia. }
  induction m as [|m IH]; intros i Hi Hbefore.
  - exists (-1). split; [done|]. left. split; [done|]. intros j x Hj. apply Hbefore. lia.
  - rewrite seqZ_cons by lia. cbn [first_index].
    destruct (lookup_lt_is_Some_2 a i) as [x Hx]; [lia|]. rewrite (aget_lookup _ _ _ Hx). c_run.
    destruct (P x) eqn:HP.
    + exists (Z.of_nat i). split; [done|]. right. exists i, x. split; [done|]. split; [lia|done].
    + replace (Z.succ (Z.of_nat i)) with (Z.of_nat (S i)) by lia.
      replace (Z.pred (Z.of_nat (S m))) with (Z.of_nat m) by lia. apply IH; [lia|].
      intros j y Hj Hy. destruct (decide (j = i)) as [->|]; [congruence|].
      eapply Hbefore; [|done]. lia.
Qed.

Lemma last_index_ok {A} (P : A → bool) (a : list A) (n : nat) :
  (n ≤ length a)%nat →
  ∃ r, last_index P a (seqZ 0 (Z.of_nat n)) (-1) = Ok r ∧ index_of P a n r.
Proof.
  intros Hn.
  enough (∀ m i r0, (i + m = n)%nat →
    (r0 = -1 ∧ (∀ j x, (j < i)%nat → a !! j = Some x → P x = false) ∨
     ∃ j x, r0 = Z.of_nat j ∧ (j < n)%nat ∧ a !! j = Some x ∧ P x = true) →
    ∃ r, last_index P a (seqZ (Z.of_nat i) (Z.of_nat m)) r0 = Ok r ∧ index_of P a n r) as H.
  { apply (H n O); [lia|]. left. split; [done|]. intros. lia. }
  induction m as [|m IH]; intros i r0 Hi Hr.
  - exists r0. split; [done|]. destruct Hr as [[-> Hb]|Hr]; [left|by right].
    split; [done|]. intros j x Hj. apply Hb. lia.
  - rewrite seqZ_cons by lia. cbn [last_index].
    destruct (lookup_lt_is_Some_2 a i) as [x Hx]; [lia|]. rewrite (aget_lookup _ _ _ Hx). c_run.
    replace (Z.succ (Z.of_nat i)) with (Z.of_nat (S i)) by lia.
    replace (Z.pred (Z.of_nat (S m))) with (Z.of_nat m) by lia. apply IH; [lia|].
    destruct (P x) eqn:HP.
    + right. exists i, x. split; [done|]. split; [lia|done].
    + destruct Hr as [[-> Hb]|Hr]; [left|by right]. split; [done|].
      intros j y Hj Hy. destruct (decide (j = i)) as [->|]; [congruence|].
      eapply Hb; [|done]. lia.
Qed.

Lemma min_index_ok (time : list Z) :
  length time = 3%nat →
  ∃ m t, min_index time (seqZ 1 (MAX_FRAMES - 1)) 0 = Ok (Z.of_nat m) ∧ (m < 3)%nat ∧
    time !! m = Some t ∧ ∀ j t', time !! j = Some t' → t ≤ t'.
Proof.
  destruct time as [|a [|b [|c [|]]]]; try done. intros _.
  change (seqZ 1 (MAX_FRAMES - 1)) with [1; 2]. cbn [min_index]. c_run.
  change (aget [a; b; c] 1) with (Ok b). change (aget [a; b; c] 0) with (Ok a).
  change (aget [a; b; c] 2) with (Ok c). simpl.
  assert (∀ (m : nat) t, (m < 3)%nat → [a; b; c] !! m = Some t → t ≤ a → t ≤ b → t ≤ c →
    ∃ m' t', Ok (Z.of_nat m) = Ok (Z.of_nat m') ∧ (m' < 3)%nat ∧ [a; b; c] !! m' = Some t' ∧
    ∀ j t'', [a; b; c] !! j = Some t'' → t' ≤ t'') as Hfin.
  { intros m t Hm Ht Ha Hb Hc. exists m, t. split; [done|]. split; [done|]. split; [done|].
    intros [|[|[|]]] t'' Hj; simplify_eq/=; lia. }
  destruct (Z.ltb_spec b a);
    [change (aget [a; b; c] 1) with (Ok b)|change (aget [a; b; c] 0) with (Ok a)];
    simpl; zcases.
  - by apply (Hfin 2%nat c); [lia| | | |]; try done; lia.
  - by apply (Hfin 1%nat b); [lia| | | |]; try done; lia.
  - by apply (Hfin 2%nat c); [lia| | | |]; try done; lia.
  - by apply (Hfin 0%nat a); [lia| | | |]; try done; lia.
Qed.

Arguments first_index : simpl never.
Arguments last_index : simpl never.
Arguments min_index : simpl never.
Arguments seqZ : simpl never.

(** ** LRU *)

(** The ideal LRU cache of three pages, most recently used first. *)
Definition lru_access (page : Z) (l : list Z) : list Z :=
  take 3 (page :: filter (λ q, q ≠ page) l).

Fixpoint lru_hits (pages l : list Z) : nat :=
  match pages with
  | [] => O
  | p :: pages => ((if decide (p ∈ l) then 1 else 0) + lru_hits pages (lru_access p l))%nat
  end.

Definition lru_final (pages l : list Z) : list Z := foldl (λ l p, lru_access p l) l pages.

Module LruProof.
Import LruC.

Definition newer (buf time : list Z) (p q : Z) : Prop :=
  ∀ i j ti tj, buf !! i = Some p → buf !! j = Some q → time !! i = Some ti → time !! j = Some tj →
  tj < ti.

(** The frames hold exactly the pages of [l], used in that order. *)
Record rel (s : state) (l : list Z) : Prop := mkrel {
  rel_buf : length (buffer s) = 3%nat;
  rel_time : length (time s) = 3%nat;
  rel_nodup : NoDup l;
  rel_real : -1 ∉ l;
  rel_mem p : p ≠ -1 → p ∈ buffer s ↔ p ∈ l;
  rel_inj i j p : buffer s !! i = Some p → buffer s !! j = Some p → p ≠ -1 → i = j;
  rel_sorted : StronglySorted (newer (buffer s) (time s)) l;
  rel_counter i t : time s !! i = Some t → t ≤ counter s
}.

Lemma sorted_filter {A} (R : A → A → Prop) (P : A → Prop) `{!∀ x, Decision (P x)} l :
  StronglySorted R l → StronglySorted R (filter P l).
Proof.
  induction 1 as [|x l Hs IH Hf]; [constructor|]. rewrite filter_cons.
  case_decide; [|done]. constructor; [done|]. by apply Forall_filter_keep.
Qed.

Lemma sorted_impl {A} (R R' : A → A → Prop) l :
  (∀ x y, x ∈ l → y ∈ l → R x y → R' x y) → StronglySorted R l → StronglySorted R' l.
Proof.
  intros Himp Hs. induction Hs as [|x l Hs IH Hf]; [constructor|]. constructor.
  - apply IH. intros y z ? ?. apply Himp; by right.
  - rewrite Forall_forall in *. intros y Hy. apply Himp; [by left|by right|auto].
Qed.

(** Storing [page] into frame [j] with a new time stamp; [l] are the pages of
    the other frames. *)
Lemma rel_load s l l' j page h m :
  rel s l → (j < 3)%nat → page ≠ -1 →
  (∀ q, q ∈ l' ↔ q ∈ l ∧ q ≠ page ∧ buffer s !! j ≠ Some q) →
  NoDup l' → StronglySorted (newer (buffer s) (time s)) l' →
  (∀ i, buffer s !! i = Some page → i = j) →
  rel (mkstate (<[j := page]> (buffer s)) (<[j := counter s + 1]> (time s)) h m (counter s + 1))
      (page :: l').
Proof.
  intros [Hb Ht Hnd Hreal Hmem Hinj Hs Hc] Hj Hp Hl' Hnd' Hs' Hpj.
  assert (∀ i q, q ∈ l' → <[j := page]> (buffer s) !! i = Some q → i ≠ j ∧ buffer s !! i = Some q)
    as Hold.
  { intros i q Hq [(-> & -> & _)|[Hne Hi]]%list_lookup_insert_Some; [|done].
    by apply Hl' in Hq as (_ & ? & _). }
  constructor; simpl.
  - by rewrite length_insert.
  - by rewrite length_insert.
  - constructor; [|done]. intros Hin. by apply Hl' in Hin as (_ & ? & _).
  - intros [?|[? _]%Hl']%elem_of_cons; [congruence|done].
  - intros p Hp1. rewrite elem_of_cons. split.
    + intros (i & Hi)%list_elem_of_lookup.
      apply list_lookup_insert_Some in Hi as [(_ & -> & _)|[Hne Hi]]; [by left|].
      destruct (decide (p = page)) as [->|Hpp]; [by left|right]. apply Hl'. split; [|split; [done|]].
      * apply Hmem; [done|]. by eapply list_elem_of_lookup_2.
      * intros Hjp. apply Hne. by eapply Hinj.
    + intros [->|(Hin & Hpp & Hnj)%Hl'].
      * eapply list_elem_of_lookup_2. apply (list_lookup_insert_eq _ j). lia.
      * apply Hmem in Hin as (i & Hi)%list_elem_of_lookup; [|done].
        eapply list_elem_of_lookup_2. rewrite list_lookup_insert_ne; [done|]. congruence.
  - intros i1 i2 p H1 H2 Hp1.
    apply list_lookup_insert_Some in H1 as [(<- & <- & _)|[Hn1 H1]];
      apply list_lookup_insert_Some in H2 as [(<- & He & _)|[Hn2 H2]]; subst;
      eauto using eq_sym.
  - constructor.
    + eapply sorted_impl; [|exact Hs']. intros p q Hp1 Hq1 Hn i1 i2 t1 t2 H1 H2.
      destruct (Hold i1 p Hp1 H1) as [? H1']. destruct (Hold i2 q Hq1 H2) as [? H2'].
      rewrite !list_lookup_insert_ne by done. by apply Hn.
    + rewrite Forall_forall. intros q Hq i1 i2 t1 t2 H1 H2.
      destruct (Hold i2 q Hq H2) as [Hn2 H2'].
      assert (i1 = j) as ->.
      { apply list_lookup_insert_Some in H1 as [(-> & _)|[_ H1]]; [done|auto]. }
      rewrite list_lookup_insert_eq, list_lookup_insert_ne by (done || lia).
      intros [= <-] Ht2. apply Hc in Ht2. lia.
  - intros i t [(_ & <- & _)|[_ Hi]]%list_lookup_insert_Some; [lia|]. apply Hc in Hi. lia.
Qed.

Lemma rel_length s l : rel s l → (length l ≤ 3)%nat.
Proof.
  intros Hr. rewrite <- (rel_buf _ _ Hr). apply submseteq_length, NoDup_submseteq; [apply Hr|].
  intros p Hp. apply (rel_mem _ _ Hr); [|done]. intros ->. by apply (rel_real _ _ Hr).
Qed.

Lemma filter_ne_id (l : list Z) p : p ∉ l → filter (λ q, q ≠ p) l = l.
Proof.
  intros Hp. apply Forall_filter_id, Forall_forall. intros q Hq ->. done.
Qed.

(** The page is in frame [j]. *)
Lemma hit_ok s l j page h m :
  rel s l → page ≠ -1 → buffer s !! j = Some page →
  page ∈ l ∧ rel (mkstate (buffer s) (<[j := counter s + 1]> (time s)) h m (counter s + 1))
                 (lru_access page l).
Proof.
  intros Hr Hp Hj. split; [apply (rel_mem _ _ Hr); [done|by eapply list_elem_of_lookup_2]|].
  pose proof (lookup_lt_Some _ _ _ Hj) as Hlt. rewrite (rel_buf _ _ Hr) in Hlt.
  pose proof (rel_load s l (filter (λ q, q ≠ page) l) j page h m Hr Hlt Hp) as Hl.
  rewrite list_insert_id in Hl by done. unfold lru_access.
  assert (rel (mkstate (buffer s) (<[j := counter s + 1]> (time s)) h m (counter s + 1))
            (page :: filter (λ q, q ≠ page) l)) as Hr'.
  { apply Hl.
    - intros q. rewrite list_elem_of_filter. naive_solver congruence.
    - apply NoDup_filter, Hr.
    - apply sorted_filter, Hr.
    - intros i Hi. by eapply (rel_inj _ _ Hr). }
  by rewrite take_ge by (by eapply rel_length).
Qed.

(** The page is not resident and frame [j] is empty. *)
Lemma miss_empty_ok s l j page h m :
  rel s l → page ≠ -1 → page ∉ l → buffer s !! j = Some (-1) →
  rel (mkstate (<[j := page]> (buffer s)) (<[j := counter s + 1]> (time s)) h m (counter s + 1))
      (lru_access page l).
Proof.
  intros Hr Hp Hin Hj. pose proof (lookup_lt_Some _ _ _ Hj) as Hlt. rewrite (rel_buf _ _ Hr) in Hlt.
  pose proof (rel_real _ _ Hr) as Hreal.
  assert (rel (mkstate (<[j := page]> (buffer s)) (<[j := counter s + 1]> (time s)) h m
            (counter s + 1)) (page :: l)) as Hr'.
  { apply (rel_load s l); try done; [|apply Hr|apply Hr|].
    - intros q. split; [|by intros (? & _)]. intros Hq. split; [done|].
      split; [congruence|]. intros [= ?]. congruence.
    - intros i Hi. destruct Hin. apply (rel_mem _ _ Hr); [done|]. by eapply list_elem_of_lookup_2. }
  unfold lru_access. rewrite filter_ne_id by done. by rewrite take_ge by (by eapply rel_length).
Qed.

(** The last of the sorted pages is the one with the least time stamp. *)
Lemma oldest_last s l0 r j t :
  rel s (l0 ++ [r]) → (∀ i, buffer s !! i ≠ Some (-1)) →
  (j < 3)%nat → time s !! j = Some t → (∀ i t', time s !! i = Some t' → t ≤ t') →
  buffer s !! j = Some r.
Proof.
  intros Hr Hfull Hj Ht Hmin. pose proof (rel_buf _ _ Hr) as Hlen.
  destruct (lookup_lt_is_Some_2 (buffer s) j) as [p Hp]; [lia|].
  assert (p ≠ -1) as Hp1 by (intros ->; by apply (Hfull j)).
  assert (p ∈ l0 ++ [r]) as Hin
    by (apply (rel_mem _ _ Hr); [done|by eapply list_elem_of_lookup_2]).
  apply elem_of_app in Hin as [Hin|Hin]; [|apply list_elem_of_singleton in Hin; congruence].
  assert (r ≠ -1) as Hr1 by (intros ->; apply (rel_real _ _ Hr); set_solver).
  assert (r ∈ buffer s) as [k Hk]%list_elem_of_lookup by (apply (rel_mem _ _ Hr); set_solver).
  pose proof (lookup_lt_Some _ _ _ Hk) as Hk3. rewrite Hlen, <- (rel_time _ _ Hr) in Hk3.
  destruct (lookup_lt_is_Some_2 (time s) k) as [tk Htk]; [done|].
  assert (newer (buffer s) (time s) p r) as Hn.
  { pose proof (rel_sorted _ _ Hr) as Hs. clear -Hs Hin.
    induction l0 as [|x l0 IH]; [by apply elem_of_nil in Hin|].
    apply StronglySorted_inv in Hs as [Hs Hf]. apply elem_of_cons in Hin as [->|Hin]; [|auto].
    by apply Forall_app in Hf as [_ [? _]%Forall_cons]. }
  specialize (Hn j k t tk Hp Hk Ht Htk). specialize (Hmin k tk Htk). lia.
Qed.

(** The page is not resident, all frames are occupied and [j] has the least
    time stamp. *)
Lemma miss_full_ok s l j t page h m :
  rel s l → page ≠ -1 → page ∉ l → (∀ i, buffer s !! i ≠ Some (-1)) →
  (j < 3)%nat → time s !! j = Some t → (∀ i t', time s !! i = Some t' → t ≤ t') →
  rel (mkstate (<[j := page]> (buffer s)) (<[j := counter s + 1]> (time s)) h m (counter s + 1))
      (lru_access page l).
Proof.
  intros Hr Hp Hin Hfull Hj Ht Hmin.
  assert (3 ≤ length l)%nat as Hlen.
  { rewrite <- (rel_buf _ _ Hr). apply submseteq_length, NoDup_submseteq.
    - apply NoDup_alt. intros i1 i2 p H1 H2. eapply (rel_inj _ _ Hr); eauto.
      intros ->. by apply (Hfull i1).
    - intros p Hpb. pose proof Hpb as [i Hi]%list_elem_of_lookup.
      apply (rel_mem _ _ Hr); [|done]. intros ->. by apply (Hfull i). }
  pose proof (rel_length _ _ Hr).
  destruct l as [|r l0 _] using rev_ind; [simpl in Hlen; lia|].
  rewrite length_app in *. simpl in *.
  pose proof (oldest_last s l0 r j t Hr Hfull Hj Ht Hmin) as Hjr.
  pose proof (rel_nodup _ _ Hr) as Hnd. apply NoDup_app in Hnd as (Hnd & Hlr & _).
  unfold lru_access. rewrite filter_ne_id by done.
  rewrite app_comm_cons, take_app_length' by (simpl; lia).
  apply (rel_load s (l0 ++ [r])); try done.
  - intros q. rewrite elem_of_app, list_elem_of_singleton, Hjr. split.
    + intros Hq. split; [by left|]. split; [intros ->; apply Hin; set_solver|].
      intros [= ->]. apply (Hlr q Hq). by left.
    + intros [[?| ->] [_ Hne]]; congruence.
  - pose proof (rel_sorted _ _ Hr) as Hs. clear -Hs. induction l0 as [|x l0 IH]; [constructor|].
    apply StronglySorted_inv in Hs as [Hs Hf]. constructor; [auto|].
    by apply Forall_app in Hf as [? _].
  - intros i Hi. destruct Hin. apply (rel_mem _ _ Hr); [done|]. by eapply list_elem_of_lookup_2.
Qed.

(** Printing the frames. *)
Lemma print_frames_ok s (txt : Z → string) (js : list Z) :
  length (buffer s) = 3%nat → Forall (λ j, 0 ≤ j < 3) js →
  ∃ o, for_each (λ i, s ← get; x ← lift (aget (buffer s) i); printf (txt x)) js s = Ok (tt, s, o).
Proof.
  intros Hb. induction 1 as [|j js Hj _ [o IH]]; [by eexists|].
  destruct (lookup_lt_is_Some_2 (buffer s) (Z.to_nat j)) as [x Hx]; [lia|].
  exists (txt x :: o). cbn [for_each]. unfold mbind at 1, C_bind at 1.
  assert ((s ← get; x ← lift (aget (buffer s) j); printf (txt x)) s = Ok (tt, s, [txt x])) as ->
    by (c_run; by rewrite (aget_Z _ _ _ (proj1 Hj) Hx)).
  by rewrite IH.
Qed.

Lemma frames_range : Forall (λ j, 0 ≤ j < 3) (seqZ 0 MAX_FRAMES).
Proof. repeat constructor; lia. Qed.

Lemma load_frame_ok s j page :
  length (buffer s) = 3%nat → length (time s) = 3%nat → (j < 3)%nat →
  load_frame (Z.of_nat j) page s =
  Ok (tt, mkstate (<[j := page]> (buffer s)) (<[j := counter s + 1]> (time s)) (hits s) (misses s)
            (counter s + 1), []).
Proof. intros Hb Ht Hj. unfold load_frame. c_run. by rewrite !aset_nat by lia. Qed.

(** What a request does to the counters. *)
Definition counted (page : Z) (l : list Z) (s s' : state) : Prop :=
  hits s' = hits s + (if decide (page ∈ l) then 1 else 0) ∧
  misses s' = misses s + (if decide (page ∈ l) then 0 else 1).

(** The part of a request after the search, common to both programs. *)
Lemma place_ok s l page found empty :
  rel s l → page ≠ -1 →
  index_of (λ x, x =? page) (buffer s) 3 found → index_of (λ x, x =? -1) (buffer s) 3 empty →
  ∃ s', (if negb (found =? -1) then
           t ← lift (aset (time s) found (counter s + 1));
           put (mkstate (buffer s) t (hits s + 1) (misses s) (counter s + 1))
         else
           put (mkstate (buffer s) (time s) (hits s) (misses s + 1) (counter s)) ;;
           if negb (empty =? -1) then load_frame empty page
           else lru ← lift (min_index (time s) (seqZ 1 (MAX_FRAMES - 1)) 0); load_frame lru page) s
        = Ok (tt, s', []) ∧ rel s' (lru_access page l) ∧ counted page l s s'.
Proof.
  intros Hr Hp Hfound Hempty. pose proof (rel_buf _ _ Hr) as Hb. pose proof (rel_time _ _ Hr) as Ht.
  destruct Hfound as [[-> Hno]|(j & x & -> & Hj & Hx & Heq)].
  - assert (page ∉ l) as Hin.
    { rewrite <- (rel_mem _ _ Hr) by done. intros [i Hi]%list_elem_of_lookup.
      pose proof (lookup_lt_Some _ _ _ Hi). specialize (Hno i page ltac:(lia) Hi). simpl in Hno. lia. }
    unfold counted. rewrite !decide_False by done. simpl.
    destruct Hempty as [[-> Hfull]|(e & y & -> & He & Hy & Hey)].
    + destruct (min_index_ok (time s) Ht) as (m & t & Hm & Hm3 & Htm & Hmin).
      eexists. split.
      { c_run. rewrite Hm. simpl. by rewrite load_frame_ok. }
      simpl. split; [|lia]. eapply miss_full_ok; try done.
      intros i Hi. pose proof (lookup_lt_Some _ _ _ Hi).
      specialize (Hfull i (-1) ltac:(lia) Hi). done.
    + apply Z.eqb_eq in Hey. subst y.
      destruct (Z.eqb_spec (Z.of_nat e) (-1)); [lia|]. eexists. split.
      { c_run. by rewrite load_frame_ok. }
      simpl. split; [|lia]. by apply miss_empty_ok.
  - apply Z.eqb_eq in Heq. subst x. destruct (Z.eqb_spec (Z.of_nat j) (-1)); [lia|]. simpl.
    destruct (hit_ok s l j page (hits s + 1) (misses s) Hr Hp Hx) as [Hin Hrel].
    eexists. split; [c_run; by rewrite aset_nat by lia|]. split; [done|].
    unfold counted. rewrite !decide_True by done. simpl. lia.
Qed.

Lemma request_ok s l page :
  rel s l → page ≠ -1 →
  ∃ s' o, request page s = Ok (tt, s', o) ∧ rel s' (lru_access page l) ∧ counted page l s s'.
Proof.
  intros Hr Hp. pose proof (rel_buf _ _ Hr) as Hb.
  destruct (first_index_ok (λ x, x =? page) (buffer s) 3) as (found & Hf & Hfound); [lia|].
  destruct (first_index_ok (λ x, x =? -1) (buffer s) 3) as (empty & He & Hempty); [lia|].
  destruct (place_ok s l page found empty Hr Hp Hfound Hempty) as (s' & Hs' & Hr' & Hc).
  destruct (print_frames_ok s' frame_text (seqZ 0 MAX_FRAMES)) as [o Ho];
    [apply Hr'|apply frames_range|].
  assert (printBuffer s' = Ok (tt, s', ["Buffer: "] ++ (o ++ [nl]))) as Hpr
    by (eapply bind_Ok; [done|]; by eapply bind_Ok).
  exists s'. revert Hs'. unfold request. destruct (negb (found =? -1)) eqn:Hn.
  - unfold mbind at 1, C_bind at 1. destruct (lift _ s) as [[[t s1] o1]|] eqn:Ht; [|done].
    intros [= <- _]. eexists. split; [|by split].
    eapply bind_Ok; [done|]. eapply bind_Ok; [apply lift_Ok, Hf|]. eapply bind_Ok; [done|].
    eapply bind_Ok; [|exact Hpr]. rewrite Hn.
    eapply bind_Ok; [exact Ht|]. by eapply bind_Ok.
  - unfold mbind at 1, C_bind at 1, put at 1.
    match goal with
    | |- match ?m with _ => _ end = _ → _ => destruct m as [[[[] s1] o1]|] eqn:Hl; [|done]
    end.
    intros [= <- _]. eexists. split; [|by split].
    eapply bind_Ok; [done|]. eapply bind_Ok; [apply lift_Ok, Hf|]. eapply bind_Ok; [done|].
    eapply bind_Ok; [|exact Hpr]. rewrite Hn.
    eapply bind_Ok; [done|]. eapply bind_Ok; [apply lift_Ok, He|].
    eapply bind_Ok; [exact Hl|done].
Qed.

Lemma sim_request_ok s l i page :
  rel s l → page ≠ -1 →
  ∃ s' o, SimLru.request (i, page) s = Ok (tt, s', o) ∧ rel s' (lru_access page l) ∧
          counted page l s s'.
Proof.
  intros Hr Hp. pose proof (rel_buf _ _ Hr) as Hb.
  destruct (last_index_ok (λ x, x =? page) (buffer s) 3) as (found & Hf & Hfound); [lia|].
  destruct (last_index_ok (λ x, x =? -1) (buffer s) 3) as (empty & He & Hempty); [lia|].
  destruct (place_ok s l page found empty Hr Hp Hfound Hempty) as (s' & Hs' & Hr' & Hc).
  destruct (print_frames_ok s' frame_text (seqZ 0 MAX_FRAMES)) as [o Ho];
    [apply Hr'|apply frames_range|].
  exists s'. eexists. split; [|by split]. unfold SimLru.request.
  eapply bind_Ok; [done|]. eapply bind_Ok; [apply lift_Ok, Hf|].
  eapply (bind_Ok _ _ _ _ _ []); [|eapply bind_Ok; [done|]; eapply bind_Ok; [exact Ho|done]].
  revert Hs'. destruct (negb (found =? -1)) eqn:Hn; [intros ->; done|].
  unfold mbind at 1, C_bind at 1, put at 1.
  match goal with
  | |- match ?m with _ => _ end = _ → _ => destruct m as [[[[] s1] o1]|] eqn:Hl; [|done]
  end.
  intros [= <- Ho1]. simpl in Ho1. subst o1.
  refine (bind_Ok _ _ _ _ _ [] _ _ [] eq_refl _).
  refine (bind_Ok _ _ _ _ _ [] _ _ [] _ Hl). apply lift_Ok, He.
Qed.

Lemma rel_init : rel init [].
Proof.
  constructor; try done; [constructor|set_solver| | |constructor|].
  - intros p Hp. split; [|by intros ?%elem_of_nil].
    intros [i [-> _]%lookup_replicate]%list_elem_of_lookup. done.
  - intros i j p [-> _]%lookup_replicate. done.
  - intros i t [-> _]%lookup_replicate. simpl. lia.
Qed.

(** A run of requests of either program. *)
Lemma trace_ok {A} (req : A → C state unit) (page_of : A → Z) (reqs : list A) s l :
  (∀ a s l, rel s l → page_of a ≠ -1 →
     ∃ s' o, req a s = Ok (tt, s', o) ∧ rel s' (lru_access (page_of a) l) ∧
             counted (page_of a) l s s') →
  rel s l → Forall (λ a, page_of a ≠ -1) reqs →
  ∃ s' o, for_each req reqs s = Ok (tt, s', o) ∧ rel s' (lru_final (page_of <$> reqs) l) ∧
    hits s' = hits s + Z.of_nat (lru_hits (page_of <$> reqs) l) ∧
    hits s' + misses s' = hits s + misses s + Z.of_nat (length reqs).
Proof.
  intros Hreq. revert s l. induction reqs as [|a reqs IH]; intros s l Hr Hall.
  - exists s, []. split; [done|]. split; [done|]. simpl. lia.
  - apply Forall_cons in Hall as [Ha Hall].
    destruct (Hreq a s l Hr Ha) as (s1 & o1 & H1 & Hr1 & Hh & Hm).
    destruct (IH s1 _ Hr1 Hall) as (s2 & o2 & H2 & Hr2 & Hh2 & Hm2).
    exists s2, (o1 ++ o2). split; [simpl; unfold mbind, C_bind; by rewrite H1, H2|].
    split; [done|]. cbn [lru_hits fmap list_fmap length].
    destruct (decide (page_of a ∈ l)); lia.
Qed.

End LruProof.

Section LruTheorems.
Import LruC LruProof.

Lemma imap_pages (ps : list Z) n :
  (imap (λ i p, (Z.of_nat (n + i), p)) ps).*2 = ps.
Proof.
  revert n. induction ps as [|p ps IH]; intros n; [done|]. simpl. f_equal.
  etransitivity; [|exact (IH (S n))]. f_equal. apply imap_ext. intros i x _. simpl. f_equal. lia.
Qed.

Lemma numbered_pages (ps : list Z) : (imap (λ i p, (Z.of_nat i, p)) ps).*2 = ps.
Proof. exact (imap_pages ps 0). Qed.

(** C32: on every sequence of requests (pages other than the marker -1), both
    LRU simulations keep in their three frames exactly the pages of the ideal
    LRU cache, and count exactly its hits and misses, although one takes the
    first empty frame and the other the last. *)
Theorem lru_simulations_correct (ps : list Z) :
  Forall (λ p, p ≠ -1) ps →
  (∃ s o, for_each request ps init = Ok (tt, s, o) ∧ rel s (lru_final ps []) ∧
     hits s = Z.of_nat (lru_hits ps []) ∧ hits s + misses s = Z.of_nat (length ps)) ∧
  (∃ s o, for_each SimLru.request (imap (λ i p, (Z.of_nat i, p)) ps) init = Ok (tt, s, o) ∧
     rel s (lru_final ps []) ∧
     hits s = Z.of_nat (lru_hits ps []) ∧ hits s + misses s = Z.of_nat (length ps)).
Proof.
  intros Hall. split.
  - destruct (trace_ok request id ps init []
      (λ a s l, request_ok s l a) rel_init Hall) as (s & o & ? & ? & ? & ?).
    exists s, o. rewrite list_fmap_id in *. auto.
  - destruct (trace_ok SimLru.request snd (imap (λ i p, (Z.of_nat i, p)) ps) init [])
      as (s & o & ? & Hr & Hh & Hm).
    + intros [i page] s l. apply sim_request_ok.
    + apply rel_init.
    + apply (Forall_fmap snd (λ p, p ≠ -1)). by rewrite numbered_pages.
    + exists s, o. rewrite numbered_pages in *. rewrite length_imap in Hm. auto.
Qed.

Lemma lru_simulations_correct_witness :
  ∃ s o, for_each request pages init = Ok (tt, s, o) ∧ hits s = 2 ∧ hits s + misses s = 12.
Proof.
  destruct (lru_simulations_correct pages) as [(s & o & ? & _ & ? & ?) _];
    [repeat constructor; lia|].
  exists s, o. auto.
Defined.

End LruTheorems.

(** ** CLOCK *)
Section ClockTheorems.
Import Clock.

Definition clock_ok (s : state) : Prop :=
  length (buffer s) = 3%nat ∧ length (refBit s) = 3%nat ∧
  Forall (λ r, r = 0 ∨ r = 1) (refBit s) ∧ 0 ≤ pointer s < 3.

(** The hand sweeps over at most three referenced frames: four rounds are
    enough. *)
Lemma sweep_ok s page :
  clock_ok s →
  ∃ s' v, sweep 4 page s = Ok (tt, s', []) ∧ clock_ok s' ∧ (v < 3)%nat ∧
    buffer s' = <[v := page]> (buffer s) ∧
    (refBit s !! v = Some 0 ∨ refBit s = [1; 1; 1]) ∧
    hits s' = hits s ∧ misses s' = misses s.
Proof.
  destruct s as [buf rb ptr h m]. unfold clock_ok. simpl. intros (Hb & Hr & Hall & Hp).
  destruct buf as [|x [|y [|z [|]]]]; try done.
  destruct rb as [|a [|b [|c [|]]]]; try done.
  apply Forall_cons in Hall as [Ha Hall]. apply Forall_cons in Hall as [Hb' Hall].
  apply Forall_cons in Hall as [Hc _].
  assert (ptr = 0 ∨ ptr = 1 ∨ ptr = 2) as Hptr by lia.
  assert (∀ (v : nat) s', (v < 3)%nat →
    ([a; b; c] !! v = Some 0 ∨ [a; b; c] = [1; 1; 1]) → buffer s' = <[v := page]> [x; y; z] →
    length (refBit s') = 3%nat → Forall (λ r, r = 0 ∨ r = 1) (refBit s') → 0 ≤ pointer s' < 3 →
    hits s' = h → misses s' = m →
    ∃ s'' v', Ok (tt, s', @nil string) = Ok (tt, s'', []) ∧
      (length (buffer s'') = 3%nat ∧ length (refBit s'') = 3%nat ∧
       Forall (λ r, r = 0 ∨ r = 1) (refBit s'') ∧ 0 ≤ pointer s'' < 3) ∧ (v' < 3)%nat ∧
      buffer s'' = <[v' := page]> [x; y; z] ∧
      ([a; b; c] !! v' = Some 0 ∨ [a; b; c] = [1; 1; 1]) ∧ hits s'' = h ∧ misses s'' = m) as Hfin.
  { intros v s' Hv Hz Hbuf ? ? ? ? ?. exists s', v. repeat split; auto; try lia.
    rewrite Hbuf, length_insert. done. }
  destruct Hptr as [->|[->| ->]]; destruct Ha as [->| ->], Hb' as [->| ->], Hc as [->| ->];
    first [ by apply (Hfin 0%nat); simpl; first [lia|done|auto|repeat constructor; auto]
          | by apply (Hfin 1%nat); simpl; first [lia|done|auto|repeat constructor; auto]
          | by apply (Hfin 2%nat); simpl; first [lia|done|auto|repeat constructor; auto] ].
Qed.

(** One request to CLOCK: the search for a frame ends; a resident page is a
    hit and moves nothing; a miss puts the page into a frame whose reference
    bit was clear, unless all three were set, and touches no other frame; the
    counters advance by one. *)
Theorem clock_access_correct (s : state) (page : Z) :
  clock_ok s →
  ∃ found s', access page s = Ok (found, s', []) ∧ clock_ok s' ∧
    (found = true ↔ page ∈ buffer s) ∧ page ∈ buffer s' ∧
    (found = true → buffer s' = buffer s ∧ hits s' = hits s + 1 ∧ misses s' = misses s) ∧
    (found = false → hits s' = hits s ∧ misses s' = misses s + 1 ∧
       ∃ v, (v < 3)%nat ∧ buffer s' = <[v := page]> (buffer s) ∧
            (refBit s !! v = Some 0 ∨ refBit s = [1; 1; 1])).
Proof.
  intros Hok. pose proof Hok as (Hb & Hr & Hall & Hp).
  destruct (first_index_ok (λ x, x =? page) (buffer s) 3) as (j & Hj & Hidx); [lia|].
  unfold access. destruct Hidx as [[-> Hno]|(i & x & -> & Hi & Hx & Heq)].
  - destruct (sweep_ok (mkstate (buffer s) (refBit s) (pointer s) (hits s) (misses s + 1)) page)
      as (s' & v & Hs' & Hok' & Hv & Hbuf & Hz & Hh & Hm); [done|].
    exists false, s'. split.
    { refine (bind_Ok _ _ _ _ _ [] _ _ [] eq_refl _).
      refine (bind_Ok _ _ _ _ _ [] _ _ [] _ _); [apply lift_Ok, Hj|].
      refine (bind_Ok _ _ _ _ _ [] _ _ [] eq_refl _).
      by refine (bind_Ok _ _ _ _ _ [] _ _ [] Hs' _). }
    simpl in *. split; [done|]. split; [split; [done|]|].
    { intros [i Hi]%list_elem_of_lookup. pose proof (lookup_lt_Some _ _ _ Hi).
      specialize (Hno i page ltac:(lia) Hi). simpl in Hno. lia. }
    split; [rewrite Hbuf; eapply list_elem_of_lookup_2, list_lookup_insert_eq; lia|].
    split; [done|]. intros _. split; [done|]. split; [done|]. eauto.
  - apply Z.eqb_eq in Heq. subst x. eexists true, _. split.
    { refine (bind_Ok _ _ _ _ _ [] _ _ [] eq_refl _).
      refine (bind_Ok _ _ _ _ _ [] _ _ [] _ _); [apply lift_Ok, Hj|].
      destruct (Z.eqb_spec (Z.of_nat i) (-1)); [lia|]. simpl negb. cbv iota.
      refine (bind_Ok _ _ _ _ _ [] _ _ [] _ _); [apply lift_Ok, aset_nat; lia|].
      by refine (bind_Ok _ _ _ _ _ [] _ _ [] eq_refl _). }
    simpl. apply list_elem_of_lookup_2 in Hx. split; [|split; [done|split; [done|split; done]]].
    unfold clock_ok. simpl. split; [done|]. split; [by rewrite length_insert|]. split; [|done].
    apply Forall_insert; auto.
Qed.

Lemma clock_access_correct_witness :
  ∃ found s', access 1 init = Ok (found, s', []) ∧ 1 ∈ buffer s'.
Proof.
  destruct (clock_access_correct init 1) as (f & s' & ? & _ & _ & ? & _).
  - split; [done|]. split; [done|]. split; [by repeat constructor|]. simpl. lia.
  - exists f, s'. auto.
Defined.

End ClockTheorems.

(** ** FIFO *)
Section FifoTheorems.
Import BufferPool.

(** The frames in the order in which they will be replaced. *)
Definition ring (s : state) : list Z :=
  let c := take (Z.to_nat (buffer_size s)) (buffer s) in
  drop (Z.to_nat (nextInsert s)) c ++ take (Z.to_nat (nextInsert s)) c.

Definition pool_ok (s : state) : Prop :=
  length (buffer s) = 10%nat ∧ 1 ≤ buffer_size s ≤ 10 ∧ 0 ≤ nextInsert s < buffer_size s.

Definition ring_load (page : Z) (r : list Z) : list Z := tail r ++ [page].

Lemma ring_elem s page :
  pool_ok s → page ∈ ring s ↔ page ∈ take (Z.to_nat (buffer_size s)) (buffer s).
Proof.
  intros _. unfold ring. set (c := take _ _). rewrite elem_of_app, (comm (∨)), <- elem_of_app.
  by rewrite take_drop.
Qed.

Lemma load_page_ok s page :
  pool_ok s →
  ∃ s', load_page page s = Ok (tt, s', []) ∧ pool_ok s' ∧ ring s' = ring_load page (ring s).
Proof.
  intros (Hlen & Hsz & Hn). destruct s as [b sz n]. simpl in *.
  unfold load_page. c_run. rewrite aset_lt by lia. simpl.
  destruct (Z.eqb_spec sz 0); [lia|]. eexists. split; [done|].
  rewrite Z.rem_mod_nonneg by lia. pose proof (Z.mod_pos_bound (n + 1) sz).
  split; [unfold pool_ok; simpl; rewrite length_insert; lia|].
  unfold ring, ring_load. simpl.
  set (k := Z.to_nat n). set (m := Z.to_nat sz). set (c := take m b).
  assert (length c = m) as Hc by (unfold c; rewrite length_take; lia).
  assert (take m (<[k := page]> b) = <[k := page]> c) as -> by (apply take_insert_lt; lia).
  destruct (lookup_lt_is_Some_2 c k) as [x Hx]; [lia|].
  rewrite (drop_S c x k Hx). simpl.
  destruct (decide (n + 1 = sz)) as [Heq|Hne].
  - rewrite Heq, Z.mod_same by lia. simpl. rewrite drop_0, app_nil_r.
    rewrite (drop_ge c (S k)) by lia. simpl.
    rewrite insert_take_drop by lia. rewrite (drop_ge c (S k)) by lia. done.
  - rewrite Z.mod_small by lia. replace (Z.to_nat (n + 1)) with (S k) by lia.
    rewrite drop_insert_lt by lia. rewrite <- app_assoc. f_equal.
    erewrite take_S_r by (apply list_lookup_insert_eq; lia).
    by rewrite take_insert_ge by lia.
Qed.

Lemma print_pool_ok s :
  pool_ok s → ∃ o, printBuffer s = Ok (tt, s, o).
Proof.
  intros (Hlen & Hsz & Hn). unfold printBuffer.
  enough (∃ o, for_each (λ i, x ← lift (aget (buffer s) i); printf (frame_text x))
    (seqZ 0 (buffer_size s)) s = Ok (tt, s, o)) as [o Ho].
  { eexists. eapply bind_Ok; [done|]. eapply bind_Ok; [done|]. by eapply bind_Ok. }
  assert (Forall (λ j, 0 ≤ j < 10) (seqZ 0 (buffer_size s))) as Hall.
  { apply Forall_forall. intros j Hj%elem_of_seqZ. lia. }
  induction Hall as [|j js Hj _ [o IH]]; [by eexists|].
  destruct (lookup_lt_is_Some_2 (buffer s) (Z.to_nat j)) as [x Hx]; [lia|].
  eexists. cbn [for_each]. eapply bind_Ok; [|exact IH].
  eapply bind_Ok; [apply lift_Ok, (aget_Z _ _ _ (proj1 Hj) Hx)|done].
Qed.

(** The buffer pool is FIFO: a request for a resident page changes nothing;
    any other is loaded in place of the page that was loaded longest ago, for
    every pool of 1 to 10 frames. *)
Theorem buffer_pool_fifo (s : state) (page : Z) :
  pool_ok s →
  ∃ s' o, request page s = Ok (bool_decide (page ∈ ring s), s', o) ∧ pool_ok s' ∧
    ring s' = (if bool_decide (page ∈ ring s) then ring s else ring_load page (ring s)).
Proof.
  intros Hok. pose proof Hok as (Hlen & Hsz & Hn).
  destruct (first_index_ok (λ x, x =? page) (buffer s) (Z.to_nat (buffer_size s)))
    as (j & Hj & Hidx); [lia|]. rewrite Z2Nat.id in Hj by lia.
  assert (isPageInBuffer page s = Ok (bool_decide (page ∈ ring s), s, [])) as Hin.
  { unfold isPageInBuffer. c_run. rewrite Hj. do 3 f_equal. apply Bool.eq_true_iff_eq.
    rewrite bool_decide_eq_true, ring_elem by done.
    destruct Hidx as [[-> Hno]|(i & x & -> & Hi & Hx & Heq)].
    - split; [done|]. intros [i Hi]%list_elem_of_lookup. apply lookup_take_Some in Hi as [Hi Hlt].
      specialize (Hno i page ltac:(lia) Hi). simpl in Hno. lia.
    - apply Z.eqb_eq in Heq. subst x. destruct (Z.eqb_spec (Z.of_nat i) (-1)); [lia|].
      split; [|done]. intros _. eapply list_elem_of_lookup_2. by apply lookup_take_Some. }
  unfold request. destruct (bool_decide (page ∈ ring s)) eqn:Hd.
  - destruct (print_pool_ok s Hok) as [o Ho]. exists s. eexists.
    split; [|by split]. eapply bind_Ok; [done|]. eapply bind_Ok; [exact Hin|].
    eapply bind_Ok; [done|]. by eapply bind_Ok.
  - destruct (load_page_ok s page Hok) as (s' & Hs' & Hok' & Hring).
    destruct (print_pool_ok s' Hok') as [o Ho]. exists s'. eexists.
    split; [|by split]. eapply bind_Ok; [done|]. eapply bind_Ok; [exact Hin|].
    eapply bind_Ok; [eapply bind_Ok; [done|exact Hs']|]. by eapply bind_Ok.
Qed.

Lemma buffer_pool_fifo_witness :
  ∃ s' o, request 3 (mkstate ([1; 2] ++ replicate 8 0) 2 0) = Ok (false, s', o) ∧
          ring s' = [2; 3].
Proof.
  destruct (buffer_pool_fifo (mkstate ([1; 2] ++ replicate 8 0) 2 0) 3) as (s' & o & ? & _ & ?).
  - split; [done|]. simpl. lia.
  - exists s', o. auto.
Defined.

End FifoTheorems.

(** ** ARC *)
Section ArcTheorems.
Import SimArc.

(** The array holds the list [l] in its first elements. *)
Definition qrep (q : queue) (l : list Z) : Prop :=
  length (arr q) = 3%nat ∧ size q = Z.of_nat (length l) ∧ take (length l) (arr q) = l.

Lemma qrep_len q l : qrep q l → (length l ≤ 3)%nat.
Proof.
  intros (Hlen & _ & Ht). apply (f_equal length) in Ht. rewrite length_take in Ht. lia.
Qed.

Lemma contains_ok q l page :
  qrep q l → contains q page = Ok (bool_decide (page ∈ l)).
Proof.
  intros Hq. pose proof (qrep_len _ _ Hq). destruct Hq as (Hlen & Hsz & Ht).
  destruct (first_index_ok (λ x, x =? page) (arr q) (length l)) as (j & Hj & Hidx); [lia|].
  unfold contains. rewrite Hsz, Hj. c_run. f_equal. apply Bool.eq_true_iff_eq.
  rewrite bool_decide_eq_true. destruct Hidx as [[-> Hno]|(i & x & -> & Hi & Hx & Heq)].
  - split; [done|]. rewrite <- Ht. intros [i Hi]%list_elem_of_lookup.
    apply lookup_take_Some in Hi as [Hi ?]. specialize (Hno i page ltac:(done) Hi). simpl in Hno. lia.
  - apply Z.eqb_eq in Heq. subst x. destruct (Z.eqb_spec (Z.of_nat i) (-1)); [lia|].
    split; [|done]. intros _. rewrite <- Ht. eapply list_elem_of_lookup_2.
    by apply lookup_take_Some.
Qed.

Lemma addLast_ok q l page :
  qrep q l → (length l < 3)%nat → ∃ q', addLast q page = Ok q' ∧ qrep q' (l ++ [page]).
Proof.
  intros (Hlen & Hsz & Ht) Hl. unfold addLast. rewrite Hsz, aset_nat by lia. c_run.
  eexists. split; [done|]. unfold qrep. simpl. rewrite length_insert, length_app. simpl.
  split; [done|]. split; [lia|]. rewrite Nat.add_1_r.
  erewrite take_S_r by (apply list_lookup_insert_eq; lia).
  by rewrite take_insert_ge, Ht by lia.
Qed.

(** The shifting loops close the gap at [j]. *)
Lemma shift_left_ok m : ∀ (a : list Z) j, (j + m < length a)%nat →
  ∃ a', shift_left a (seqZ (Z.of_nat j) (Z.of_nat m)) = Ok a' ∧ length a' = length a ∧
    take (j + m) a' = take j a ++ take m (drop (S j) a).
Proof.
  induction m as [|m IH]; intros a j Hj.
  - exists a. split; [done|]. split; [done|]. by rewrite Nat.add_0_r, app_nil_r.
  - rewrite seqZ_cons by lia. cbn [shift_left].
    destruct (lookup_lt_is_Some_2 a (S j)) as [x Hx]; [lia|].
    replace (Z.of_nat j + 1) with (Z.of_nat (S j)) by lia.
    rewrite (aget_lookup _ _ _ Hx). c_run. rewrite aset_nat by lia.
    replace (Z.succ (Z.of_nat j)) with (Z.of_nat (S j)) by lia.
    replace (Z.pred (Z.of_nat (S m))) with (Z.of_nat m) by lia.
    destruct (IH (<[j := x]> a) (S j)) as (a' & Ha' & Hlen & Ht); [rewrite length_insert; lia|].
    exists a'. split; [done|]. rewrite length_insert in Hlen. split; [done|].
    replace (j + S m)%nat with (S j + m)%nat by lia. rewrite Ht.
    rewrite drop_insert_lt by lia. erewrite take_S_r by (apply list_lookup_insert_eq; lia).
    rewrite take_insert_ge by lia. rewrite <- app_assoc. f_equal. simpl.
    by rewrite (drop_S a x (S j) Hx).
Qed.

Lemma removeFirst_ok q x l :
  qrep q (x :: l) → ∃ q', removeFirst q = Ok q' ∧ qrep q' l.
Proof.
  intros Hq. pose proof (qrep_len _ _ Hq) as Hl. destruct Hq as (Hlen & Hsz & Ht). simpl in Hl.
  destruct (shift_left_ok (length l) (arr q) 0) as (a' & Ha' & Hlen' & Ht'); [lia|].
  unfold removeFirst. rewrite Hsz. simpl length.
  replace (Z.of_nat (S (length l)) - 1) with (Z.of_nat (length l)) by lia.
  change (Z.of_nat 0) with 0 in Ha'. rewrite Ha'. c_run. eexists. split; [done|].
  unfold qrep. simpl. split; [lia|]. split; [done|].
  rewrite Nat.add_0_l in Ht'. rewrite Ht'. simpl.
  destruct (arr q) as [|y a]; [done|]. simpl in *. injection Ht as _ Ht. by rewrite ?drop_0.
Qed.

Lemma removePage_ok q l1 page l2 :
  qrep q (l1 ++ page :: l2) → NoDup (l1 ++ page :: l2) →
  ∃ q', removePage q page = Ok q' ∧ qrep q' (l1 ++ l2).
Proof.
  intros Hq Hnd. pose proof (qrep_len _ _ Hq) as Hl. destruct Hq as (Hlen & Hsz & Ht).
  rewrite length_app in *. simpl in *.
  destruct (first_index_ok (λ x, x =? page) (arr q) (length l1 + S (length l2)))
    as (r & Hr & Hidx); [lia|].
  assert (arr q !! length l1 = Some page) as Hp.
  { rewrite <- (take_drop (length l1 + S (length l2)) (arr q)), Ht.
    apply lookup_app_l_Some. by apply list_lookup_middle. }
  assert (r = Z.of_nat (length l1)) as ->.
  { destruct Hidx as [[-> Hn]|(i & x & -> & Hi & Hx & Heq)].
    - specialize (Hn (length l1) page ltac:(lia) Hp). simpl in Hn. lia.
    - apply Z.eqb_eq in Heq. subst x. f_equal. eapply NoDup_lookup; [exact Hnd| |].
      + rewrite <- Ht. by apply lookup_take_Some.
      + by apply list_lookup_middle. }
  unfold removePage. rewrite Hsz, Hr. c_run.
  destruct (Z.eqb_spec (Z.of_nat (length l1)) (-1)); [lia|].
  replace (Z.of_nat (length l1 + S (length l2)) - 1 - Z.of_nat (length l1))
    with (Z.of_nat (length l2)) by lia.
  destruct (shift_left_ok (length l2) (arr q) (length l1)) as (a' & -> & Hlen' & Ht'); [lia|].
  eexists. split; [done|]. unfold qrep. simpl. rewrite length_app. split; [lia|]. split; [lia|].
  rewrite Ht'. f_equal.
  - transitivity (take (length l1) (l1 ++ page :: l2)); [|apply take_app_length].
    rewrite <- Ht, take_take. f_equal. lia.
  - apply (f_equal (drop (S (length l1)))) in Ht. replace (length l1 + S (length l2))%nat with (S (length l1) + length l2)%nat in Ht by lia.
    rewrite <- take_drop_commute in Ht. rewrite Ht. rewrite cons_middle, app_assoc. apply drop_app_length'. rewrite length_app. simpl. lia.
Qed.

(** The state that holds [t1] and [t2], with the ghost lists empty. *)
Definition arc_rep (a : ARC) (t1 t2 : list Z) : Prop :=
  qrep (T1 a) t1 ∧ qrep (T2 a) t2 ∧ qrep (B1 a) [] ∧ qrep (B2 a) [] ∧
  NoDup (t1 ++ t2) ∧ (length t1 + length t2 ≤ 3)%nat.

(** What a request does to the two lists: a page of [t1] moves to the end of
    [t2], a page of [t2] stays, and a new page is appended to [t1] after the
    oldest page of [t1] or of [t2] was dropped when there is no room. *)
Definition arc_next (page : Z) (t1 t2 : list Z) : option (list Z * list Z) :=
  if bool_decide (page ∈ t1) then Some (filter (λ q, q ≠ page) t1, t2 ++ [page])
  else if bool_decide (page ∈ t2) then Some (t1, t2)
  else if decide (length t1 = 3%nat) then Some (tail t1 ++ [page], t2)
  else if decide (length t1 + length t2 < 3)%nat then Some (t1 ++ [page], t2)
  else if decide (length t2 = 3%nat) then None
  else Some (t1 ++ [page], tail t2).

Lemma print_queue_ok (q : queue) l (a : ARC) :
  qrep q l → ∃ o, print_queue q a = Ok (tt, a, o).
Proof.
  intros Hq. pose proof (qrep_len _ _ Hq). destruct Hq as (Hlen & Hsz & _).
  unfold print_queue.
  assert (Forall (λ j, 0 ≤ j < 3) (seqZ 0 (size q))) as Hall
    by (apply Forall_forall; intros j Hj%elem_of_seqZ; lia).
  induction Hall as [|j js Hj _ [o IH]]; [by eexists|].
  destruct (lookup_lt_is_Some_2 (arr q) (Z.to_nat j)) as [x Hx]; [lia|].
  eexists. cbn [for_each]. eapply bind_Ok; [|exact IH].
  eapply bind_Ok; [apply lift_Ok, (aget_Z _ _ _ (proj1 Hj) Hx)|done].
Qed.

Lemma printARC_ok a t1 t2 : arc_rep a t1 t2 → ∃ o, printARC a = Ok (tt, a, o).
Proof.
  intros (H1 & H2 & _). destruct (print_queue_ok _ _ a H1) as [o1 Ho1].
  destruct (print_queue_ok _ _ a H2) as [o2 Ho2]. eexists. unfold printARC.
  eapply bind_Ok; [done|]. eapply bind_Ok; [done|]. eapply bind_Ok; [exact Ho1|].
  eapply bind_Ok; [done|]. eapply bind_Ok; [exact Ho2|done].
Qed.

Lemma moved_perm (l1 l2 t2 : list Z) page :
  (l1 ++ page :: l2) ++ t2 ≡ₚ (l1 ++ l2) ++ t2 ++ [page].
Proof.
  rewrite <- !app_assoc. apply Permutation_app_head. rewrite (app_assoc l2 t2). simpl.
  apply Permutation_cons_append.
Qed.

Lemma on_hit_ok a t1 t2 page :
  arc_rep a t1 t2 → page ∈ t1 ++ t2 →
  ∃ a' t1' t2', on_hit page (bool_decide (page ∈ t1)) a = Ok (tt, a', []) ∧
    arc_next page t1 t2 = Some (t1', t2') ∧ arc_rep a' t1' t2' ∧
    hits a' = hits a + 1 ∧ misses a' = misses a.
Proof.
  intros (H1 & H2 & HB1 & HB2 & Hnd & Hlen) Hin. unfold arc_next, on_hit.
  destruct (bool_decide (page ∈ t1)) eqn:Hd.
  - apply bool_decide_eq_true in Hd. pose proof Hd as (l1 & l2 & ->)%list_elem_of_split.
    apply NoDup_app in Hnd as Hnd'. destruct Hnd' as (Hnd1 & _ & _).
    assert (filter (λ q, q ≠ page) (l1 ++ page :: l2) = l1 ++ l2) as ->.
    { apply NoDup_app in Hnd1 as (_ & Hl & [Hp _]%NoDup_cons).
      rewrite filter_app, filter_cons_False by auto. 
      rewrite !LruProof.filter_ne_id; [done|done|]. intros Hp1. apply (Hl page Hp1). by left. }
    destruct (removePage_ok _ _ _ _ H1 Hnd1) as (q1 & Hq1 & Hr1).
    rewrite length_app in Hlen. simpl in Hlen.
    destruct (addLast_ok _ _ page H2) as (q2 & Hq2 & Hr2); [lia|].
    eexists _, _, _. split.
    { c_run. by rewrite Hq1, Hq2. }
    split; [done|]. split; [|simpl; lia]. repeat split; try apply HB1; try apply HB2; try apply Hr1;
      try apply Hr2.
    + by rewrite <- moved_perm.
    + rewrite !length_app. simpl. lia.
  - apply bool_decide_eq_false in Hd. apply elem_of_app in Hin as [?|Hin]; [done|].
    rewrite bool_decide_true by done. eexists _, _, _. split; [by c_run|]. split; [done|].
    split; [by repeat split; auto; try apply H1; try apply H2; try apply HB1; try apply HB2|].
    simpl. lia.
Qed.

Lemma qrep_size q l : qrep q l → size q = Z.of_nat (length l).
Proof. by intros (_ & ? & _). Qed.

Lemma on_miss_ok a t1 t2 page :
  arc_rep a t1 t2 → page ∉ t1 ++ t2 →
  match arc_next page t1 t2 with
  | Some (t1', t2') =>
      ∃ a', on_miss page a = Ok (tt, a', []) ∧ arc_rep a' t1' t2' ∧
        hits a' = hits a ∧ misses a' = misses a + 1
  | None => on_miss page a = UB OutOfBounds
  end.
Proof.
  intros (H1 & H2 & HB1 & HB2 & Hnd & Hlen) Hin. destruct a as [T1a T2a B1a B2a h m]. simpl in *.
  pose proof (qrep_size _ _ H1) as Hs1. pose proof (qrep_size _ _ H2) as Hs2.
  pose proof (qrep_size _ _ HB1) as Hs3.
  rewrite not_elem_of_app in Hin. destruct Hin as [Hin1 Hin2].
  unfold arc_next. rewrite !bool_decide_false by done.
  unfold on_miss, make_room, insert_page. c_run. rewrite Hs1, Hs3. simpl. unfold MAX_FRAMES.
  destruct (decide (length t1 = 3%nat)) as [H3|H3].
  - rewrite H3. simpl. destruct t1 as [|x t1]; [done|]. assert (t2 = []) as -> by (destruct t2; [done|simpl in *; lia]).
    destruct (removeFirst_ok _ _ _ H1) as (q1 & -> & Hq1). simpl in H3. simpl.
    rewrite (qrep_size _ _ Hq1), Hs2. replace (length t1) with 2%nat by lia. simpl.
    destruct (addLast_ok _ _ page Hq1) as (q2 & -> & Hq2); [lia|].
    eexists. split; [done|]. split; [|simpl; lia]. repeat split; try apply Hq2; try apply H2;
      try apply HB1; try apply HB2.
    + rewrite app_nil_r in *. apply NoDup_cons in Hnd as [_ Hnd].
      rewrite <- Permutation_cons_append. constructor; [set_solver|done].
    + rewrite !length_app. simpl in *. lia.
  - destruct (Z.eqb_spec (Z.of_nat (length t1) + Z.of_nat 0) 3); [lia|]. simpl. rewrite ?Hs1, ?Hs2.
    destruct (decide (length t1 + length t2 < 3)%nat) as [Hlt|Hge].
    + destruct (Z.ltb_spec (Z.of_nat (length t1) + Z.of_nat (length t2)) 3); [|lia].
      destruct (addLast_ok _ _ page H1) as (q1 & -> & Hq1); [lia|].
      eexists. split; [done|]. split; [|simpl; lia]. repeat split; try apply Hq1; try apply H2;
        try apply HB1; try apply HB2.
      * rewrite <- app_assoc. simpl. rewrite <- Permutation_middle. constructor; [set_solver|done].
      * rewrite !length_app. simpl in *. lia.
    + destruct (Z.ltb_spec (Z.of_nat (length t1) + Z.of_nat (length t2)) 3); [lia|].
      destruct (decide (length t2 = 3%nat)) as [Ht3|Ht3].
      * destruct (Z.ltb_spec (Z.of_nat (length t2)) 3); [lia|].
        assert (t1 = []) as -> by (destruct t1; [done|simpl in *; lia]).
        unfold removeFirst, addLast. rewrite Hs1. simpl. c_run. 
        change (seqZ 0 (-1)) with (@nil Z). simpl. by unfold aset.
      * destruct (Z.ltb_spec (Z.of_nat (length t2)) 3); [|lia].
        destruct t2 as [|x t2]; [simpl in *; lia|].
        destruct (removeFirst_ok _ _ _ H2) as (q2 & -> & Hq2).
        destruct (addLast_ok _ _ page H1) as (q1 & -> & Hq1); [simpl in *; lia|].
        eexists. split; [done|]. split; [|simpl; lia]. repeat split; try apply Hq1; try apply Hq2;
          try apply HB1; try apply HB2.
        -- rewrite <- Permutation_middle in Hnd. apply NoDup_cons in Hnd as [_ Hnd].
           simpl. rewrite <- app_assoc. simpl. rewrite <- Permutation_middle.
           constructor; [set_solver|done].
        -- rewrite !length_app. simpl in *. lia.
Qed.

(** Every request to the simplified ARC does exactly [arc_next], keeps the
    resident pages distinct and at most three, and counts one hit or one miss;
    the ghost lists stay empty.  The one exception: a miss while all three
    pages are in [T2] makes [t1Size] negative and writes outside [T1]. *)
Theorem arc_request_correct (a : ARC) (t1 t2 : list Z) (i page : Z) :
  arc_rep a t1 t2 →
  match arc_next page t1 t2 with
  | Some (t1', t2') =>
      ∃ a' o, request (i, page) a = Ok (tt, a', o) ∧ arc_rep a' t1' t2' ∧
        hits a' = hits a + (if bool_decide (page ∈ t1 ++ t2) then 1 else 0) ∧
        hits a' + misses a' = hits a + misses a + 1
  | None => request (i, page) a = UB OutOfBounds
  end.
Proof.
  intros Ha. pose proof Ha as (H1 & H2 & _). unfold request.
  assert (∀ B (f : bool → bool → C ARC B),
    (a ← get; in1 ← lift (contains (T1 a) page);
     in2 ← lift (if in1 : bool then Ok true else contains (T2 a) page); f in1 in2) a =
    f (bool_decide (page ∈ t1)) (bool_decide (page ∈ t1 ++ t2)) a) as Hrun.
  { intros B f. c_run. rewrite (contains_ok _ _ _ H1), (contains_ok _ _ _ H2).
    rewrite (bool_decide_ext (page ∈ t1 ++ t2) (page ∈ t1 ∨ page ∈ t2)) by apply elem_of_app.
    rewrite bool_decide_or. destruct (bool_decide (page ∈ t1)), (bool_decide (page ∈ t2)); simpl;
      by destruct (f _ _ a) as [[[? ?] ?]|]. }
  rewrite (Hrun _ (λ in1 in2 : bool, if in2 then _ else _)). clear Hrun.
  case_bool_decide as Hin.
  - destruct (on_hit_ok a t1 t2 page Ha Hin) as (a' & t1' & t2' & Hhit & -> & Ha' & Hh & Hm).
    destruct (printARC_ok a' t1' t2' Ha') as [o Ho]. exists a'. eexists.
    split; [eapply bind_Ok; [exact Hhit|]; eapply bind_Ok; [done|exact Ho]|]. split; [done|]. lia.
  - pose proof (on_miss_ok a t1 t2 page Ha Hin) as Hmiss.
    destruct (arc_next page t1 t2) as [[t1' t2']|].
    + destruct Hmiss as (a' & Hmiss & Ha' & Hh & Hm).
      destruct (printARC_ok a' t1' t2' Ha') as [o Ho]. exists a'. eexists.
      split; [eapply bind_Ok; [exact Hmiss|]; eapply bind_Ok; [done|exact Ho]|]. split; [done|]. lia.
    + unfold mbind, C_bind. by rewrite Hmiss.
Qed.

Lemma arc_init : arc_rep init [] [].
Proof. repeat split; [constructor|simpl; lia]. Qed.

Lemma arc_request_correct_witness :
  ∃ a' o, request (0, 7) init = Ok (tt, a', o) ∧ arc_rep a' [7] [].
Proof.
  destruct (arc_request_correct init [] [] 0 7 arc_init) as (a' & o & ? & ? & _). eauto.
Defined.

(** Six requests fill [T2]; the seventh writes to [T1[-1]]. *)
Example arc_overflow :
  is_ok (for_each request (imap (λ i p, (Z.of_nat i, p)) [1; 1; 2; 2; 3; 3]) init) = true ∧
  for_each request (imap (λ i p, (Z.of_nat i, p)) [1; 1; 2; 2; 3; 3; 4]) init = UB OutOfBounds.
Proof. split; vm_compute; reflexivity. Qed.

End ArcTheorems.

Example page_replacement_mains :
  is_ok SimArc.main && is_ok (LruC.main LruC.init) && is_ok (Clock.main Clock.init) &&
  is_ok (BufferPool.main 5 [1; 2; 1; 3; 4] 2 BufferPool.start) = true.
Proof. vm_compute. reflexivity. Qed.
