(* ===== verification/RbTree.v ===== *)
(** * The red-black tree of [day-8(Avl-Tree)/rb-tree.c]

    Module [Rb] models the file over an explicit memory: nodes have parent
    pointers, and [NIL] is a node of its own that the code reads (and, when it
    deletes, writes).  [RbSpec] relates the memory to trees seen through a
    context ([plug]), so that each pointer operation is proved once, at any
    place of the tree. *)
From stdpp Require Import base list gmap strings pretty sorting.
From Stdlib Require Import ZArith Lia.
From S2P Require Import Prelude.
Local Open Scope Z_scope.

Module Rb.

Inductive Color : Set := RED | BLACK.

#[global] Instance Color_eq_dec : EqDecision Color.
Proof. solve_decision. Defined.

Abbreviation loc := positive.

Record RBNode : Set := mkRB {
  key : Z; color : Color; left : loc; right : loc; parent : loc }.

(** [NIL], [tree->root] and the memory. *)
Record state : Set := mkstate { NIL : loc; root : loc; mem : gmap loc RBNode }.

Definition rd (p : loc) : C state RBNode := s ← get; lift (load (mem s) (Some p)).
Definition wr (p : loc) (n : RBNode) : C state unit :=
  s ← get; m ← lift (store (mem s) (Some p) n); put (mkstate (NIL s) (root s) m).

(** Assignments to one field. *)
Definition set_color (p : loc) (c : Color) : C state unit :=
  n ← rd p; wr p (mkRB (key n) c (left n) (right n) (parent n)).
Definition set_left (p q : loc) : C state unit :=
  n ← rd p; wr p (mkRB (key n) (color n) q (right n) (parent n)).
Definition set_right (p q : loc) : C state unit :=
  n ← rd p; wr p (mkRB (key n) (color n) (left n) q (parent n)).
Definition set_parent (p q : loc) : C state unit :=
  n ← rd p; wr p (mkRB (key n) (color n) (left n) (right n) q).
Definition set_root (p : loc) : C state unit :=
  modify (λ s, mkstate (NIL s) p (mem s)).

Definition newNode (k : Z) : C state loc :=
  s ← get;
  let '(l, m) := malloc (mem s) (mkRB k RED (NIL s) (NIL s) (NIL s)) in
  put (mkstate (NIL s) (root s) m) ;; mret l.

(** [NIL] is the first cell, and the tree is empty. *)
Definition init : state := mkstate 1 1 {[ 1%positive := mkRB 0 BLACK 1 1 1 ]}.

(** What both rotations and [transplant] do to the parent [p] of [x]: it, or
    the root, now points to [y]. *)
Definition relink (p x y : loc) : C state unit :=
  s ← get;
  if decide (p = NIL s) then set_root y
  else
    np ← rd p;
    if decide (x = left np) then set_left p y else set_right p y.

(** [if (b != NIL) b->parent = p]. *)
Definition reparent (b p : loc) : C state unit :=
  s ← get;
  if decide (b = NIL s) then mret tt else set_parent b p.

Definition leftRotate (x : loc) : C state unit :=
  nx ← rd x;
  let y := right nx in
  ny ← rd y;
  set_right x (left ny) ;;
  reparent (left ny) x ;;
  nx ← rd x;
  set_parent y (parent nx) ;;
  relink (parent nx) x y ;;
  set_left y x ;;
  set_parent x y.

Definition rightRotate (y : loc) : C state unit :=
  ny ← rd y;
  let x := left ny in
  nx ← rd x;
  set_left y (right nx) ;;
  reparent (right nx) y ;;
  ny ← rd y;
  set_parent x (parent ny) ;;
  relink (parent ny) y x ;;
  set_right x y ;;
  set_parent y x.

(** The [else] branches of [insertFixup]: cases 2 and 3, and their mirror
    image. *)
Definition fix_left (z : loc) : C state loc :=
  nz ← rd z;
  np ← rd (parent nz);
  z ← (if decide (z = right np) then leftRotate (parent nz) ;; mret (parent nz) else mret z);
  nz ← rd z;
  set_color (parent nz) BLACK ;;
  np ← rd (parent nz);
  set_color (parent np) RED ;;
  rightRotate (parent np) ;;
  mret z.

Definition fix_right (z : loc) : C state loc :=
  nz ← rd z;
  np ← rd (parent nz);
  z ← (if decide (z = left np) then rightRotate (parent nz) ;; mret (parent nz) else mret z);
  nz ← rd z;
  set_color (parent nz) BLACK ;;
  np ← rd (parent nz);
  set_color (parent np) RED ;;
  leftRotate (parent np) ;;
  mret z.

(** Case 1, for either side: [y] is the uncle; the result is the new [z]. *)
Definition recolor (z y : loc) : C state loc :=
  nz ← rd z;
  set_color (parent nz) BLACK ;;
  set_color y BLACK ;;
  np ← rd (parent nz);
  set_color (parent np) RED ;;
  mret (parent np).

(** The body of the [while] loop; the result is the new [z]. *)
Definition fix_round (z : loc) : C state loc :=
  nz ← rd z;
  np ← rd (parent nz);
  ng ← rd (parent np);
  if decide (parent nz = left ng) then
    ny ← rd (right ng);
    match color ny with
    | RED => recolor z (right ng)
    | BLACK => fix_left z
    end
  else
    ny ← rd (left ng);
    match color ny with
    | RED => recolor z (left ng)
    | BLACK => fix_right z
    end.

(** [while (z->parent->color == RED)]. *)
Fixpoint fixup_loop (fuel : nat) (z : loc) : C state unit :=
  nz ← rd z;
  np ← rd (parent nz);
  match color np with
  | BLACK => mret tt
  | RED =>
      match fuel with
      | O => lift (UB OutOfFuel)
      | S fuel => z ← fix_round z; fixup_loop fuel z
      end
  end.

(** The loop climbs the tree: its size is more than enough rounds. *)
Definition insertFixup (z : loc) : C state unit :=
  s ← get;
  fixup_loop (size (mem s)) z ;;
  s ← get;
  set_color (root s) BLACK.

(** The descent of [insert]: the last node met, or [None] on a duplicate. *)
Fixpoint descend (fuel : nat) (k : Z) (y x : loc) : C state (option loc) :=
  s ← get;
  if decide (x = NIL s) then mret (Some y)
  else
    match fuel with
    | O => lift (UB OutOfFuel)
    | S fuel =>
        nx ← rd x;
        if k <? key nx then descend fuel k x (left nx)
        else if key nx <? k then descend fuel k x (right nx)
        else mret None
    end.

Definition free_node (p : loc) : C state unit :=
  s ← get; m ← lift (free (mem s) (Some p)); put (mkstate (NIL s) (root s) m).

(** The node [z] with key [k] becomes a red leaf below [y]. *)
Definition attach (z : loc) (k : Z) (y : loc) : C state unit :=
  s ← get;
  set_parent z y ;;
  (if decide (y = NIL s) then set_root z
   else
     ny ← rd y;
     if k <? key ny then set_left y z else set_right y z) ;;
  set_left z (NIL s) ;;
  set_right z (NIL s) ;;
  set_color z RED.

Definition insert (k : Z) : C state unit :=
  z ← newNode k;
  s ← get;
  r ← descend (size (mem s)) k (NIL s) (root s);
  match r with
  | None => free_node z
  | Some y => attach z k y ;; insertFixup z
  end.

Fixpoint search_loop (fuel : nat) (k : Z) (x : loc) : C state ptr :=
  s ← get;
  if decide (x = NIL s) then mret None
  else
    match fuel with
    | O => lift (UB OutOfFuel)
    | S fuel =>
        nx ← rd x;
        if k =? key nx then mret (Some x)
        else search_loop fuel k (if k <? key nx then left nx else right nx)
    end.

Definition search (k : Z) : C state ptr :=
  s ← get; search_loop (size (mem s)) k (root s).

Fixpoint treeMinimum (fuel : nat) (x : loc) : C state loc :=
  s ← get;
  nx ← rd x;
  if decide (left nx = NIL s) then mret x
  else
    match fuel with
    | O => lift (UB OutOfFuel)
    | S fuel => treeMinimum fuel (left nx)
    end.

Definition transplant (u v : loc) : C state unit :=
  nu ← rd u;
  relink (parent nu) u v ;;
  nu ← rd u;
  set_parent v (parent nu).

(** One round of the [while] loop of [deleteFixup] with [x] a left child, and
    with [x] a right child; the result is the new [x]. *)
Definition delete_fix_left (x : loc) : C state loc :=
  nx ← rd x;
  np ← rd (parent nx);
  let w := right np in
  nw ← rd w;
  w ← (match color nw with
       | RED =>
           set_color w BLACK ;;
           set_color (parent nx) RED ;;
           leftRotate (parent nx) ;;
           nx ← rd x;
           np ← rd (parent nx);
           mret (right np)
       | BLACK => mret w
       end);
  nw ← rd w;
  nl ← rd (left nw);
  nr ← rd (right nw);
  if decide (color nl = BLACK ∧ color nr = BLACK) then
    set_color w RED ;;
    nx ← rd x;
    mret (parent nx)
  else
    w ← (match color nr with
         | BLACK =>
             set_color (left nw) BLACK ;;
             set_color w RED ;;
             rightRotate w ;;
             nx ← rd x;
             np ← rd (parent nx);
             mret (right np)
         | RED => mret w
         end);
    nx ← rd x;
    np ← rd (parent nx);
    set_color w (color np) ;;
    set_color (parent nx) BLACK ;;
    nw ← rd w;
    set_color (right nw) BLACK ;;
    leftRotate (parent nx) ;;
    s ← get;
    mret (root s).

Definition delete_fix_right (x : loc) : C state loc :=
  nx ← rd x;
  np ← rd (parent nx);
  let w := left np in
  nw ← rd w;
  w ← (match color nw with
       | RED =>
           set_color w BLACK ;;
           set_color (parent nx) RED ;;
           rightRotate (parent nx) ;;
           nx ← rd x;
           np ← rd (parent nx);
           mret (left np)
       | BLACK => mret w
       end);
  nw ← rd w;
  nr ← rd (right nw);
  nl ← rd (left nw);
  if decide (color nr = BLACK ∧ color nl = BLACK) then
    set_color w RED ;;
    nx ← rd x;
    mret (parent nx)
  else
    w ← (match color nl with
         | BLACK =>
             set_color (right nw) BLACK ;;
             set_color w RED ;;
             leftRotate w ;;
             nx ← rd x;
             np ← rd (parent nx);
             mret (left np)
         | RED => mret w
         end);
    nx ← rd x;
    np ← rd (parent nx);
    set_color w (color np) ;;
    set_color (parent nx) BLACK ;;
    nw ← rd w;
    set_color (left nw) BLACK ;;
    rightRotate (parent nx) ;;
    s ← get;
    mret (root s).

Fixpoint delete_fixup_loop (fuel : nat) (x : loc) : C state loc :=
  s ← get;
  if decide (x = root s) then mret x
  else
    nx ← rd x;
    match color nx with
    | RED => mret x
    | BLACK =>
        match fuel with
        | O => lift (UB OutOfFuel)
        | S fuel =>
            np ← rd (parent nx);
            x ← (if decide (x = left np) then delete_fix_left x else delete_fix_right x);
            delete_fixup_loop fuel x
        end
    end.

Definition deleteFixup (x : loc) : C state unit :=
  s ← get;
  x ← delete_fixup_loop (S (size (mem s))) x;
  set_color x BLACK.

(** The three-way [if] of [delete]: unlinks [z] and returns [x] and the
    original color of [y]. *)
Definition unlink (z : loc) : C state (loc * Color) :=
  s ← get;
  nz ← rd z;
  if decide (left nz = NIL s) then
    transplant z (right nz) ;; mret (right nz, color nz)
  else if decide (right nz = NIL s) then
    transplant z (left nz) ;; mret (left nz, color nz)
  else
    y ← treeMinimum (size (mem s)) (right nz);
    ny ← rd y;
    let x := right ny in
    (if decide (parent ny = z) then set_parent x y
     else
       transplant y (right ny) ;;
       nz ← rd z;
       set_right y (right nz) ;;
       set_parent (right nz) y) ;;
    transplant z y ;;
    nz ← rd z;
    set_left y (left nz) ;;
    set_parent (left nz) y ;;
    nz ← rd z;
    set_color y (color nz) ;;
    mret (x, color ny).

Definition delete (k : Z) : C state unit :=
  r ← search k;
  match r with
  | None => mret tt
  | Some z =>
      '(x, c) ← unlink z;
      free_node z ;;
      match c with
      | BLACK => deleteFixup x
      | RED => mret tt
      end
  end.

(** [for (i = 6; i < space; i++) printf(" ")]. *)
Definition spaces (n : Z) : C state unit :=
  for_each (λ _, printf " ") (seqZ 6 (n - 6)).

Definition color_letter (c : Color) : string := match c with RED => "R" | BLACK => "B" end.

Fixpoint display (fuel : nat) (p : loc) (space : Z) : C state unit :=
  s ← get;
  if decide (p = NIL s) then mret tt
  else
    match fuel with
    | O => lift (UB OutOfFuel)
    | S fuel =>
        n ← rd p;
        display fuel (right n) (space + 6) ;;
        printf nl ;;
        spaces (space + 6) ;;
        printf (d (key n) +:+ "(" +:+ color_letter (color n) +:+ ")" +:+ nl) ;;
        display fuel (left n) (space + 6)
    end.

Definition displayTree : C state unit :=
  s ← get;
  if decide (root s = NIL s) then printf ("[empty]" +:+ nl)
  else display (size (mem s)) (root s) 0.

(** [main] on the numbers it reads.  [red] and [black] are the characters that
    the multi-character constants ['Red'] and ['Black'] print with [%c], which
    the implementation defines. *)
Definition main (red black : string) (values : list Z) (toSearch toDelete : Z) : C state unit :=
  printf "Enter number of inputs: " ;;
  printf ("Enter " +:+ d (Z.of_nat (length values)) +:+ " values:" +:+ nl) ;;
  for_each insert values ;;
  printf (nl +:+ "Red-Black Tree (key(color)):" +:+ nl) ;;
  displayTree ;;
  printf (nl +:+ "Enter key to search: ") ;;
  found ← search toSearch;
  (match found with
   | Some p =>
       n ← rd p;
       printf ("Key " +:+ d toSearch +:+ " is found, and its (" +:+
               (match color n with RED => red | BLACK => black end) +:+ ") in color." +:+ nl)
   | None => printf ("Key " +:+ d toSearch +:+ " is not found." +:+ nl)
   end) ;;
  printf (nl +:+ "Enter key to delete: ") ;;
  delete toDelete ;;
  printf (nl +:+ "After deletion:" +:+ nl) ;;
  displayTree.

End Rb.

(** ** Trees in memory *)
Module RbSpec.
Import Rb.

(** A tree with the addresses of its nodes; [E] is [NIL]. *)
Inductive tree : Set :=
  | E
  | T (x : loc) (c : Color) (k : Z) (a b : tree).

(** A step of a path from the root, with what hangs on its other side: the
    hole is the left child of [x], or its right child. *)
Inductive step : Set :=
  | FL (x : loc) (c : Color) (k : Z) (b : tree)
  | FR (x : loc) (c : Color) (k : Z) (a : tree).

(** The path from a subtree up to the root. *)
Abbreviation context := (list step).

Definition fill (f : step) (t : tree) : tree :=
  match f with FL x c k b => T x c k t b | FR x c k a => T x c k a t end.

Fixpoint plug (ctx : context) (t : tree) : tree :=
  match ctx with [] => t | f :: ctx => plug ctx (fill f t) end.

Fixpoint locs (t : tree) : list loc :=
  match t with E => [] | T x _ _ a b => x :: locs a ++ locs b end.

Definition step_loc (f : step) : loc := match f with FL x _ _ _ | FR x _ _ _ => x end.
Definition step_locs (f : step) : list loc :=
  match f with FL x _ _ b => x :: locs b | FR x _ _ a => x :: locs a end.
Definition ctx_locs (ctx : context) : list loc := concat (step_locs <$> ctx).

Fixpoint inorder (t : tree) : list Z :=
  match t with E => [] | T _ _ k a b => inorder a ++ k :: inorder b end.

Section Memory.
Context (nil : loc).

Definition pt (t : tree) : loc := match t with E => nil | T x _ _ _ _ => x end.
Definition top (ctx : context) : loc := match ctx with [] => nil | f :: _ => step_loc f end.

(** [t] is laid out in [h], its root having the parent pointer [par]. *)
Fixpoint tree_at (h : gmap loc RBNode) (par : loc) (t : tree) : Prop :=
  match t with
  | E => True
  | T x c k a b =>
      h !! x = Some (mkRB k c (pt a) (pt b) par) ∧ tree_at h x a ∧ tree_at h x b
  end.

(** The nodes of a path whose hole is filled with the pointer [p]. *)
Fixpoint ctx_at (h : gmap loc RBNode) (ctx : context) (p : loc) : Prop :=
  match ctx with
  | [] => True
  | FL x c k b :: ctx =>
      h !! x = Some (mkRB k c p (pt b) (top ctx)) ∧ tree_at h x b ∧ ctx_at h ctx x
  | FR x c k a :: ctx =>
      h !! x = Some (mkRB k c (pt a) p (top ctx)) ∧ tree_at h x a ∧ ctx_at h ctx x
  end.

Lemma tree_at_plug h ctx t :
  tree_at h nil (plug ctx t) ↔ ctx_at h ctx (pt t) ∧ tree_at h (top ctx) t.
Proof.
  revert t. induction ctx as [|[x c k b|x c k a] ctx IH]; intros t; simpl.
  - tauto.
  - rewrite IH. simpl. tauto.
  - rewrite IH. simpl. tauto.
Qed.

Lemma tree_at_ext h h' par t :
  (∀ l, l ∈ locs t → h' !! l = h !! l) → tree_at h par t → tree_at h' par t.
Proof.
  revert par. induction t as [|x c k a IHa b IHb]; intros par Hl; simpl; [done|].
  intros (Hx & Ha & Hb). simpl in Hl. split; [|split].
  - rewrite Hl; [done|]. by left.
  - apply IHa; [|done]. set_solver.
  - apply IHb; [|done]. set_solver.
Qed.

Lemma ctx_at_ext h h' ctx p :
  (∀ l, l ∈ ctx_locs ctx → h' !! l = h !! l) → ctx_at h ctx p → ctx_at h' ctx p.
Proof.
  revert p. induction ctx as [|[x c k b|x c k a] ctx IH]; intros p Hl; simpl; [done|..];
    intros (Hx & Hb & Hc); unfold ctx_locs in *; simpl in Hl; (split; [|split]).
  - rewrite Hl; [done|]. by left.
  - eapply tree_at_ext; [|done]. set_solver.
  - apply IH; [|done]. set_solver.
  - rewrite Hl; [done|]. by left.
  - eapply tree_at_ext; [|done]. set_solver.
  - apply IH; [|done]. set_solver.
Qed.

Lemma locs_plug ctx t : locs (plug ctx t) ≡ₚ ctx_locs ctx ++ locs t.
Proof.
  revert t. induction ctx as [|[x c k b|x c k a] ctx IH]; intros t; [done|..];
    simpl; rewrite IH; unfold ctx_locs; simpl; fold (ctx_locs ctx).
  - rewrite <- Permutation_middle. apply perm_skip.
    rewrite (Permutation_app_comm (locs t)), app_assoc. f_equiv. by rewrite (comm (++)).
  - rewrite <- Permutation_middle. apply perm_skip.
    rewrite app_assoc. f_equiv. by rewrite (comm (++)).
Qed.

(** The root does not depend on what is plugged into a non-empty path. *)
Lemma pt_plug ctx t t' : ctx ≠ [] → pt (plug ctx t) = pt (plug ctx t').
Proof.
  revert t t'. induction ctx as [|f ctx IH]; intros t t' Hne; [done|]. simpl.
  destruct ctx as [|g ctx]; [by destruct f|]. by apply IH.
Qed.

End Memory.

(** The state holds exactly the nodes of [t] and [NIL], which is black. *)
Record rep (s : state) (t : tree) : Prop := mkrep {
  rep_tree : tree_at (NIL s) (mem s) (NIL s) t;
  rep_root : root s = pt (NIL s) t;
  rep_nodup : NoDup (NIL s :: locs t);
  rep_nil : ∃ n, mem s !! NIL s = Some n ∧ color n = BLACK;
  rep_dom : dom (mem s) = list_to_set (NIL s :: locs t)
}.

(** *** Field assignments *)

Lemma rb_rd_ok s p n : mem s !! p = Some n → rd p s = Ok (n, s, []).
Proof. intros Hp. unfold rd. c_run. by rewrite (load_Some _ _ _ Hp). Qed.

Lemma wr_ok s p n n' :
  mem s !! p = Some n →
  wr p n' s = Ok (tt, mkstate (NIL s) (root s) (<[p := n']> (mem s)), []).
Proof. intros Hp. unfold wr. c_run. by rewrite (store_Some _ _ _ _ Hp). Qed.

Ltac field_ok Hp :=
  refine (bind_Ok _ _ _ _ _ [] _ _ [] (rb_rd_ok _ _ _ Hp) _); apply (wr_ok _ _ _ _ Hp).

Lemma set_color_ok s p n c :
  mem s !! p = Some n →
  set_color p c s = Ok (tt, mkstate (NIL s) (root s)
    (<[p := mkRB (key n) c (left n) (right n) (parent n)]> (mem s)), []).
Proof. intros Hp. field_ok Hp. Qed.

Lemma set_left_ok s p n q :
  mem s !! p = Some n →
  set_left p q s = Ok (tt, mkstate (NIL s) (root s)
    (<[p := mkRB (key n) (color n) q (right n) (parent n)]> (mem s)), []).
Proof. intros Hp. field_ok Hp. Qed.

Lemma set_right_ok s p n q :
  mem s !! p = Some n →
  set_right p q s = Ok (tt, mkstate (NIL s) (root s)
    (<[p := mkRB (key n) (color n) (left n) q (parent n)]> (mem s)), []).
Proof. intros Hp. field_ok Hp. Qed.

Lemma set_parent_ok s p n q :
  mem s !! p = Some n →
  set_parent p q s = Ok (tt, mkstate (NIL s) (root s)
    (<[p := mkRB (key n) (color n) (left n) (right n) q]> (mem s)), []).
Proof. intros Hp. field_ok Hp. Qed.

Lemma rb_dom_write (h : gmap loc RBNode) p n n' : h !! p = Some n → dom (<[p := n']> h) = dom h.
Proof. intros Hp. rewrite dom_insert_L. apply elem_of_dom_2 in Hp. set_solver. Qed.

(** [s'] is [s] but for the cells in [ls]. *)
Definition changes (ls : list loc) (s s' : state) : Prop :=
  NIL s' = NIL s ∧ dom (mem s') = dom (mem s) ∧
  ∀ l, l ∉ ls → mem s' !! l = mem s !! l.

(** [reparent] gives a subtree a new parent. *)
Lemma reparent_ok s b par p :
  tree_at (NIL s) (mem s) par b → NoDup (NIL s :: locs b) →
  ∃ s', reparent (pt (NIL s) b) p s = Ok (tt, s', []) ∧ tree_at (NIL s) (mem s') p b ∧
    changes (locs b) s s' ∧ root s' = root s.
Proof.
  intros Hb Hnd. unfold reparent. destruct b as [|x c k a1 a2].
  - exists s. unfold mbind, C_bind, get. simpl. rewrite decide_True by done.
    split; [done|]. split; [done|]. split; [by split|done].
  - destruct Hb as (Hx & H1 & H2). simpl in Hnd.
    assert (x ≠ NIL s) as Hne by (apply NoDup_cons in Hnd as [? _]; set_solver).
    assert (x ∉ locs a1 ++ locs a2) as Hx12
      by (apply NoDup_cons in Hnd as [_ Hnd]; by apply NoDup_cons in Hnd as [? _]).
    eexists. split.
    { refine (bind_Ok _ _ _ _ _ [] _ _ [] eq_refl _). simpl pt. rewrite decide_False by done.
      apply (set_parent_ok _ _ _ _ Hx). }
    simpl. split; [|split; [|done]].
    + rewrite lookup_insert_eq. split; [done|].
      split; (eapply tree_at_ext; [|done]); intros l Hl; apply lookup_insert_ne; set_solver.
    + split; [done|]. split; [by eapply rb_dom_write|]. simpl. intros l Hl. apply lookup_insert_ne.
      set_solver.
Qed.

(** [relink] fills the hole of a path with [y] instead of [x]. *)
Lemma relink_ok s ctx x y :
  ctx_at (NIL s) (mem s) ctx x → x ≠ NIL s → NoDup (NIL s :: ctx_locs ctx) → x ∉ ctx_locs ctx →
  ∃ s', relink (top (NIL s) ctx) x y s = Ok (tt, s', []) ∧ ctx_at (NIL s) (mem s') ctx y ∧
    changes (ctx_locs ctx) s s' ∧
    root s' = (match ctx with [] => y | _ => root s end).
Proof.
  intros Hc Hx Hnd Hxc. unfold relink. destruct ctx as [|f ctx].
  - exists (mkstate (NIL s) y (mem s)). split.
    { unfold mbind, C_bind, get. simpl. by rewrite decide_True by done. }
    split; [done|]. by split.
  - assert (step_loc f ≠ NIL s) as Hf.
    { apply NoDup_cons in Hnd as [Hn _]. unfold ctx_locs in Hn. destruct f; simpl in *; set_solver. }
    unfold ctx_locs in *. simpl in Hnd, Hxc. fold (ctx_locs ctx) in *.
    apply NoDup_cons in Hnd as [_ Hnd].
    destruct f as [g c k b|g c k b]; simpl in *; destruct Hc as (Hg & Hb & Hc);
      apply NoDup_cons in Hnd as [Hgn Hnd];
      assert (∀ l n, l ∈ locs b ++ ctx_locs ctx → <[g := n]> (mem s) !! l = mem s !! l) as Hkeep
        by (intros l n Hl; apply lookup_insert_ne; set_solver).
    + eexists. split.
      { refine (bind_Ok _ _ _ _ _ [] _ _ [] eq_refl _). rewrite decide_False by done.
        refine (bind_Ok _ _ _ _ _ [] _ _ [] (rb_rd_ok _ _ _ Hg) _). simpl.
        rewrite decide_True by done. apply (set_left_ok _ _ _ _ Hg). }
      simpl. rewrite lookup_insert_eq. split; [split; [done|split]|split; [|done]].
      * eapply tree_at_ext; [|done]. intros l Hl. apply Hkeep. set_solver.
      * eapply ctx_at_ext; [|done]. intros l Hl. apply Hkeep. set_solver.
      * split; [done|]. split; [by eapply rb_dom_write|]. simpl. intros l Hl. apply lookup_insert_ne.
        unfold ctx_locs in Hl. simpl in Hl. set_solver.
    + eexists. split.
      { refine (bind_Ok _ _ _ _ _ [] _ _ [] eq_refl _). rewrite decide_False by done.
        refine (bind_Ok _ _ _ _ _ [] _ _ [] (rb_rd_ok _ _ _ Hg) _). simpl.
        rewrite decide_False by (destruct b; simpl in *; set_solver).
        apply (set_right_ok _ _ _ _ Hg). }
      simpl. rewrite lookup_insert_eq. split; [split; [done|split]|split; [|done]].
      * eapply tree_at_ext; [|done]. intros l Hl. apply Hkeep. set_solver.
      * eapply ctx_at_ext; [|done]. intros l Hl. apply Hkeep. set_solver.
      * split; [done|]. split; [by eapply rb_dom_write|]. simpl. intros l Hl. apply lookup_insert_ne.
        unfold ctx_locs in Hl. simpl in Hl. set_solver.
Qed.

(** *** Rotations *)

(** An operation on the tree leaves [NIL] alone. *)
Definition keeps (s s' : state) : Prop := NIL s' = NIL s ∧ mem s' !! NIL s = mem s !! NIL s.

Lemma keeps_trans s1 s2 s3 : keeps s1 s2 → keeps s2 s3 → keeps s1 s3.
Proof. intros [H1 H2] [H3 H4]. split; congruence. Qed.

(** How to build [rep] for a plugged tree. *)
Lemma rep_plug s s' ctx t t' :
  rep s (plug ctx t) → NIL s' = NIL s →
  mem s' !! NIL s = mem s !! NIL s →
  ctx_at (NIL s) (mem s') ctx (pt (NIL s) t') → tree_at (NIL s) (mem s') (top (NIL s) ctx) t' →
  locs t' ≡ₚ locs t → dom (mem s') = dom (mem s) →
  root s' = (match ctx with [] => pt (NIL s) t' | _ => root s end) →
  rep s' (plug ctx t').
Proof.
  intros [Ht Hr Hnd (n & Hn & Hcol) Hdom] Hnil Hkeep Hc Ht' Hl Hd Hroot.
  assert (locs (plug ctx t') ≡ₚ locs (plug ctx t)) as Hp by (by rewrite !locs_plug, Hl).
  constructor; rewrite Hnil.
  - by apply tree_at_plug.
  - rewrite Hroot. destruct ctx as [|f ctx]; [done|]. rewrite Hr. by apply pt_plug.
  - by rewrite Hp.
  - rewrite Hkeep. eauto.
  - rewrite Hd, Hdom. simpl. f_equal. by apply list_to_set_perm_L.
Qed.

(** The memory of a tree seen through a path. *)
Lemma rep_focus s ctx t :
  rep s (plug ctx t) →
  ctx_at (NIL s) (mem s) ctx (pt (NIL s) t) ∧ tree_at (NIL s) (mem s) (top (NIL s) ctx) t ∧
  NoDup (NIL s :: ctx_locs ctx ++ locs t).
Proof.
  intros Hr. pose proof (rep_tree _ _ Hr) as Ht. apply tree_at_plug in Ht as [Hc Ht].
  pose proof (rep_nodup _ _ Hr) as Hnd. rewrite locs_plug in Hnd. done.
Qed.

(** Facts of disjointness that the rotations use: [x] and [y] are rotated, [B]
    changes sides, [C] is the path, [A] and [D] stay. *)
Record apart (n x y : loc) (C A B D : list loc) : Prop := mkapart {
  apart_xy : x ≠ y; apart_xn : x ≠ n; apart_yn : y ≠ n;
  apart_xB : x ∉ B; apart_yB : y ∉ B; apart_xC : x ∉ C; apart_yC : y ∉ C;
  apart_nB : NoDup (n :: B); apart_nC : NoDup (n :: C);
  apart_C l : l ∈ C → l ≠ x ∧ l ≠ y ∧ l ∉ B;
  apart_B l : l ∈ B → l ≠ x ∧ l ≠ y ∧ l ∉ C;
  apart_AD l : l ∈ A ∨ l ∈ D ∨ l = n → l ≠ x ∧ l ≠ y ∧ (l ∉ B) ∧ l ∉ C
}.

Lemma NoDup_apart n x y C A B D :
  NoDup (n :: C ++ x :: A ++ y :: B ++ D) → apart n x y C A B D.
Proof.
  intros [Hn (HC & HCr & [Hx (HA & HAr & [Hy (HB & HBD & HD)%NoDup_app]%NoDup_cons)%NoDup_app]
    %NoDup_cons)%NoDup_app]%NoDup_cons.
  rewrite !elem_of_app, !elem_of_cons, !elem_of_app, !elem_of_cons, !elem_of_app in Hn.
  rewrite !elem_of_app, !elem_of_cons, !elem_of_app in Hx. rewrite !elem_of_app in Hy.
  assert (∀ l, l ∈ C → l ≠ x ∧ (l ∉ A) ∧ l ≠ y ∧ (l ∉ B) ∧ l ∉ D) as HC'.
  { intros l Hl. specialize (HCr l Hl).
    rewrite !elem_of_cons, !elem_of_app, !elem_of_cons, !elem_of_app in HCr. tauto. }
  assert (∀ l, l ∈ A → l ≠ y ∧ (l ∉ B) ∧ l ∉ D) as HA'.
  { intros l Hl. specialize (HAr l Hl). rewrite !elem_of_cons, !elem_of_app in HAr. tauto. }
  constructor; try (by intros ->; tauto); try tauto.
  - intros Hq. by destruct (HC' x Hq).
  - intros Hq. destruct (HC' y Hq) as (_ & _ & ? & _). done.
  - constructor; [tauto|done].
  - constructor; [tauto|done].
  - intros l Hl. destruct (HC' l Hl). tauto.
  - intros l Hl. split; [intros ->; tauto|]. split; [intros ->; tauto|].
    intros Hq. destruct (HC' l Hq). tauto.
  - intros l [Hl|[Hl| ->]].
    + destruct (HA' l Hl) as (? & ? & ?). split; [intros ->; tauto|]. split; [done|].
      split; [done|]. intros Hq. destruct (HC' l Hq). tauto.
    + split; [intros ->; tauto|]. split; [intros ->; tauto|].
      split; [intros Hq; by apply (HBD l)|]. intros Hq. destruct (HC' l Hq). tauto.
    + split; [intros ->; tauto|]. split; [intros ->; tauto|]. tauto.
Qed.

Lemma rotated_perm (x y : loc) (A B D : list loc) :
  y :: (x :: A ++ B) ++ D ≡ₚ x :: A ++ y :: B ++ D.
Proof. rewrite <- Permutation_middle. simpl. rewrite <- app_assoc. apply perm_swap. Qed.

(** The memory after a rotation, from the lookups that matter; the rotated
    tree [t'] has the nodes of [t]. *)
Lemma rotate_finish s ctx t t' n x y A B D (h2 h3 h4 h5 : gmap loc RBNode) :
  rep s (plug ctx t) → NIL s = n → apart n x y (ctx_locs ctx) A B D →
  (∀ l, l ≠ x → l ≠ y → l ∉ B → h2 !! l = mem s !! l) →
  (∀ l, l ≠ x → l ≠ y → h3 !! l = h2 !! l) →
  (∀ l, l ∉ ctx_locs ctx → h4 !! l = h3 !! l) →
  (∀ l, l ≠ x → l ≠ y → h5 !! l = h4 !! l) →
  ctx_at n h4 ctx (pt n t') → dom h5 = dom (mem s) → locs t' ≡ₚ locs t →
  ((∀ p u, (∀ l, l ∈ locs u → l ∈ A ∨ l ∈ D ∨ l = n) → tree_at n (mem s) p u → tree_at n h5 p u) →
   (∀ p u, (∀ l, l ∈ locs u → l ∈ B) → tree_at n h2 p u → tree_at n h5 p u) →
   tree_at n h5 (top n ctx) t') →
  let s' := mkstate n (match ctx with [] => pt n t' | _ => root s end) h5 in
  rep s' (plug ctx t') ∧ keeps s s'.
Proof.
  intros Hr <- Hap H2 H3 H4 H5 Hctx Hdom Hl Htree s'.
  assert (∀ l, l ∈ A ∨ l ∈ D ∨ l = NIL s → h5 !! l = mem s !! l) as HAD.
  { intros l Hin. destruct (apart_AD _ _ _ _ _ _ _ Hap l Hin) as (? & ? & ? & ?).
    by rewrite H5, H4, H3, H2. }
  assert (∀ l, l ∈ B → h5 !! l = h2 !! l) as HB.
  { intros l Hin. destruct (apart_B _ _ _ _ _ _ _ Hap l Hin) as (? & ? & ?).
    by rewrite H5, H4, H3. }
  assert (mem s' !! NIL s = mem s !! NIL s) as Hnil by (apply HAD; auto).
  split; [|by split]. eapply (rep_plug s); [exact Hr|done|done| | |done|done|done].
  - eapply ctx_at_ext; [|exact Hctx]. intros l Hin.
    destruct (apart_C _ _ _ _ _ _ _ Hap l Hin) as (? & ? & ?). by apply H5.
  - apply Htree.
    + intros p u Hin Hu. eapply tree_at_ext; [|exact Hu]. auto.
    + intros p u Hin Hu. eapply tree_at_ext; [|exact Hu]. auto.
Qed.

Lemma leftRotate_ok s ctx x cx kx a y cy ky b c :
  rep s (plug ctx (T x cx kx a (T y cy ky b c))) →
  ∃ s', leftRotate x s = Ok (tt, s', []) ∧
    rep s' (plug ctx (T y cy ky (T x cx kx a b) c)) ∧ keeps s s'.
Proof.
  intros Hr. destruct (rep_focus _ _ _ Hr) as (Hc & (Hx & Ha & Hy & Hb & Hcc) & Hnd).
  simpl in Hc, Hx, Hnd. apply NoDup_apart in Hnd as Hap.
  pose proof Hap as [Hxy Hxn Hyn HxB HyB HxC HyC HnB HnC HC HB HAD].
  set (h1 := <[x := mkRB kx cx (pt (NIL s) a) (pt (NIL s) b) (top (NIL s) ctx)]> (mem s)).
  destruct (reparent_ok (mkstate (NIL s) (root s) h1) b y x) as (s2 & Hs2 & Hb2 & (Hn2 & Hd2 & Hk2) & Hr2);
    [|done|].
  { eapply tree_at_ext; [|exact Hb]. intros l Hl. apply lookup_insert_ne.
    destruct (HB l Hl). congruence. }
  destruct s2 as [n2 r2 h2]. simpl in Hn2, Hr2, Hd2, Hk2, Hb2, Hs2. subst n2 r2.
  assert (h2 !! x = Some (mkRB kx cx (pt (NIL s) a) (pt (NIL s) b) (top (NIL s) ctx))) as Hx2
    by (rewrite Hk2 by done; apply lookup_insert_eq).
  assert (h2 !! y = Some (mkRB ky cy (pt (NIL s) b) (pt (NIL s) c) x)) as Hy2
    by (rewrite Hk2 by done; unfold h1; by rewrite lookup_insert_ne).
  set (h3 := <[y := mkRB ky cy (pt (NIL s) b) (pt (NIL s) c) (top (NIL s) ctx)]> h2).
  destruct (relink_ok (mkstate (NIL s) (root s) h3) ctx x y)
    as (s4 & Hs4 & Hc4 & (Hn4 & Hd4 & Hk4) & Hr4); [|done|done|done|].
  { simpl. eapply ctx_at_ext; [|exact Hc]. intros l Hl. destruct (HC l Hl) as (? & ? & ?).
    unfold h3. rewrite lookup_insert_ne, Hk2 by done. by apply lookup_insert_ne. }
  destruct s4 as [n4 r4 h4]. simpl in Hn4, Hr4, Hd4, Hk4, Hc4, Hs4. subst n4 r4.
  assert (h4 !! y = Some (mkRB ky cy (pt (NIL s) b) (pt (NIL s) c) (top (NIL s) ctx))) as Hy4
    by (rewrite Hk4 by done; apply lookup_insert_eq).
  assert (h4 !! x = Some (mkRB kx cx (pt (NIL s) a) (pt (NIL s) b) (top (NIL s) ctx))) as Hx4
    by (rewrite Hk4 by done; unfold h3; by rewrite lookup_insert_ne).
  set (h5 := <[x := mkRB kx cx (pt (NIL s) a) (pt (NIL s) b) y]>
    (<[y := mkRB ky cy x (pt (NIL s) c) (top (NIL s) ctx)]> h4)).
  exists (mkstate (NIL s) (match ctx with [] => y | _ => root s end) h5). split.
  - unfold leftRotate.
    refine (bind_Ok _ _ _ _ _ [] _ _ [] (rb_rd_ok _ _ _ Hx) _). simpl.
    refine (bind_Ok _ _ _ _ _ [] _ _ [] (rb_rd_ok _ _ _ Hy) _). simpl.
    refine (bind_Ok _ _ _ _ _ [] _ _ [] (set_right_ok _ _ _ _ Hx) _). simpl.
    refine (bind_Ok _ _ _ _ _ [] _ _ [] Hs2 _).
    refine (bind_Ok _ _ _ _ _ [] _ _ [] (rb_rd_ok (mkstate _ _ h2) _ _ Hx2) _). simpl.
    refine (bind_Ok _ _ _ _ _ [] _ _ [] (set_parent_ok (mkstate _ _ h2) _ _ _ Hy2) _). simpl.
    refine (bind_Ok _ _ _ _ _ [] _ _ [] Hs4 _).
    refine (bind_Ok _ _ _ _ _ [] _ _ [] (set_left_ok (mkstate _ _ h4) _ _ _ Hy4) _). simpl.
    etransitivity; [apply (set_parent_ok _ _ (mkRB kx cx (pt (NIL s) a) (pt (NIL s) b) (top (NIL s) ctx)));
      simpl; by rewrite lookup_insert_ne|].
    simpl. unfold h5. by destruct ctx.
  - apply (rotate_finish s ctx (T x cx kx a (T y cy ky b c)) (T y cy ky (T x cx kx a b) c) (NIL s)
      x y (locs a) (locs b) (locs c) h2 h3 h4 h5); try done.
    + intros l ? ? ?. rewrite Hk2 by done. by apply lookup_insert_ne.
    + intros l ? ?. by apply lookup_insert_ne.
    + intros l ? ?. unfold h5. by rewrite !lookup_insert_ne.
    + unfold h5. erewrite rb_dom_write by (by rewrite lookup_insert_ne).
      rewrite (rb_dom_write _ _ _ _ Hy4), Hd4. unfold h3. rewrite (rb_dom_write _ _ _ _ Hy2), Hd2.
      apply (rb_dom_write _ _ _ _ Hx).
    + apply rotated_perm.
    + intros HADt HBt. simpl. unfold h5 at 1 2. rewrite lookup_insert_ne, !lookup_insert_eq by done.
      split; [done|]. split; [split; [done|split]|]; [apply HADt|apply HBt|apply HADt]; auto.
Qed.

Lemma mirrored_perm (y x : loc) (A B D : list loc) :
  y :: x :: (A ++ B) ++ D ≡ₚ y :: D ++ x :: B ++ A.
Proof.
  apply perm_skip. rewrite (Permutation_app_comm D). simpl. apply perm_skip.
  by rewrite (Permutation_app_comm B).
Qed.

Lemma rightRotate_ok s ctx y cy ky x cx kx a b c :
  rep s (plug ctx (T y cy ky (T x cx kx a b) c)) →
  ∃ s', rightRotate y s = Ok (tt, s', []) ∧
    rep s' (plug ctx (T x cx kx a (T y cy ky b c))) ∧ keeps s s'.
Proof.
  intros Hr. destruct (rep_focus _ _ _ Hr) as (Hc & (Hy & (Hx & Ha & Hb) & Hcc) & Hnd).
  simpl in Hc, Hy, Hnd. rewrite mirrored_perm in Hnd.
  apply NoDup_apart in Hnd as Hap.
  pose proof Hap as [Hyx Hyn Hxn HyB HxB HyC HxC HnB HnC HC HB HAD].
  set (h1 := <[y := mkRB ky cy (pt (NIL s) b) (pt (NIL s) c) (top (NIL s) ctx)]> (mem s)).
  destruct (reparent_ok (mkstate (NIL s) (root s) h1) b x y) as (s2 & Hs2 & Hb2 & (Hn2 & Hd2 & Hk2) & Hr2);
    [|done|].
  { eapply tree_at_ext; [|exact Hb]. intros l Hl. apply lookup_insert_ne.
    destruct (HB l Hl). congruence. }
  destruct s2 as [n2 r2 h2]. simpl in Hn2, Hr2, Hd2, Hk2, Hb2, Hs2. subst n2 r2.
  assert (h2 !! y = Some (mkRB ky cy (pt (NIL s) b) (pt (NIL s) c) (top (NIL s) ctx))) as Hy2
    by (rewrite Hk2 by done; apply lookup_insert_eq).
  assert (h2 !! x = Some (mkRB kx cx (pt (NIL s) a) (pt (NIL s) b) y)) as Hx2
    by (rewrite Hk2 by done; unfold h1; by rewrite lookup_insert_ne).
  set (h3 := <[x := mkRB kx cx (pt (NIL s) a) (pt (NIL s) b) (top (NIL s) ctx)]> h2).
  destruct (relink_ok (mkstate (NIL s) (root s) h3) ctx y x)
    as (s4 & Hs4 & Hc4 & (Hn4 & Hd4 & Hk4) & Hr4); [|done|done|done|].
  { simpl. eapply ctx_at_ext; [|exact Hc]. intros l Hl. destruct (HC l Hl) as (? & ? & ?).
    unfold h3. rewrite lookup_insert_ne, Hk2 by done. by apply lookup_insert_ne. }
  destruct s4 as [n4 r4 h4]. simpl in Hn4, Hr4, Hd4, Hk4, Hc4, Hs4. subst n4 r4.
  assert (h4 !! x = Some (mkRB kx cx (pt (NIL s) a) (pt (NIL s) b) (top (NIL s) ctx))) as Hx4
    by (rewrite Hk4 by done; apply lookup_insert_eq).
  assert (h4 !! y = Some (mkRB ky cy (pt (NIL s) b) (pt (NIL s) c) (top (NIL s) ctx))) as Hy4
    by (rewrite Hk4 by done; unfold h3; by rewrite lookup_insert_ne).
  set (h5 := <[y := mkRB ky cy (pt (NIL s) b) (pt (NIL s) c) x]>
    (<[x := mkRB kx cx (pt (NIL s) a) y (top (NIL s) ctx)]> h4)).
  exists (mkstate (NIL s) (match ctx with [] => x | _ => root s end) h5). split.
  - unfold rightRotate.
    refine (bind_Ok _ _ _ _ _ [] _ _ [] (rb_rd_ok _ _ _ Hy) _). simpl.
    refine (bind_Ok _ _ _ _ _ [] _ _ [] (rb_rd_ok _ _ _ Hx) _). simpl.
    refine (bind_Ok _ _ _ _ _ [] _ _ [] (set_left_ok _ _ _ _ Hy) _). simpl.
    refine (bind_Ok _ _ _ _ _ [] _ _ [] Hs2 _).
    refine (bind_Ok _ _ _ _ _ [] _ _ [] (rb_rd_ok (mkstate _ _ h2) _ _ Hy2) _). simpl.
    refine (bind_Ok _ _ _ _ _ [] _ _ [] (set_parent_ok (mkstate _ _ h2) _ _ _ Hx2) _). simpl.
    refine (bind_Ok _ _ _ _ _ [] _ _ [] Hs4 _).
    refine (bind_Ok _ _ _ _ _ [] _ _ [] (set_right_ok (mkstate _ _ h4) _ _ _ Hx4) _). simpl.
    etransitivity; [apply (set_parent_ok _ _ (mkRB ky cy (pt (NIL s) b) (pt (NIL s) c) (top (NIL s) ctx)));
      simpl; by rewrite lookup_insert_ne|].
    simpl. unfold h5. by destruct ctx.
  - apply (rotate_finish s ctx (T y cy ky (T x cx kx a b) c) (T x cx kx a (T y cy ky b c)) (NIL s)
      y x (locs c) (locs b) (locs a) h2 h3 h4 h5); try done.
    + intros l ? ? ?. rewrite Hk2 by done. by apply lookup_insert_ne.
    + intros l ? ?. by apply lookup_insert_ne.
    + intros l ? ?. unfold h5. by rewrite !lookup_insert_ne.
    + unfold h5. erewrite rb_dom_write by (by rewrite lookup_insert_ne).
      rewrite (rb_dom_write _ _ _ _ Hx4), Hd4. unfold h3. rewrite (rb_dom_write _ _ _ _ Hx2), Hd2.
      apply (rb_dom_write _ _ _ _ Hy).
    + symmetry. apply rotated_perm.
    + intros HADt HBt. simpl. unfold h5 at 1 3. rewrite lookup_insert_ne, !lookup_insert_eq by done.
      split; [done|]. split; [|split; [done|split]]; [apply HADt|apply HBt|apply HADt]; auto.
Qed.

(** *** Reading and recoloring a node anywhere in the tree *)

Lemma focus_node s ctx x c k a b :
  rep s (plug ctx (T x c k a b)) →
  mem s !! x = Some (mkRB k c (pt (NIL s) a) (pt (NIL s) b) (top (NIL s) ctx)).
Proof. intros Hr. by destruct (rep_focus _ _ _ Hr) as (_ & (Hx & _) & _). Qed.

Lemma set_color_focus s ctx x c c' k a b :
  rep s (plug ctx (T x c k a b)) →
  ∃ s', set_color x c' s = Ok (tt, s', []) ∧ rep s' (plug ctx (T x c' k a b)) ∧ keeps s s'.
Proof.
  intros Hr. destruct (rep_focus _ _ _ Hr) as (Hc & (Hx & Ha & Hb) & Hnd). simpl in Hc, Hnd.
  apply NoDup_cons in Hnd as [Hn (HC & HCx & [Hxab Hab]%NoDup_cons)%NoDup_app].
  eexists. split; [apply (set_color_ok _ _ _ _ Hx)|]. simpl.
  assert (x ≠ NIL s) as Hxn by (intros ->; apply Hn, elem_of_app; right; by left).
  assert (∀ l n, l ≠ x → <[x := n]> (mem s) !! l = mem s !! l) as Hk
    by (intros; by apply lookup_insert_ne).
  split; [|split; simpl; [done|by apply Hk]].
  eapply (rep_plug s); [exact Hr|done|by apply Hk| | |done|by eapply rb_dom_write|].
  - eapply ctx_at_ext; [|exact Hc]. intros l Hl. apply Hk. intros ->. apply (HCx x Hl). by left.
  - simpl. rewrite lookup_insert_eq. split; [done|].
    split; (eapply tree_at_ext; [|done]); intros l Hl; apply Hk; intros ->; apply Hxab, elem_of_app;
      auto.
  - simpl. pose proof (rep_root _ _ Hr) as Hroot. by destruct ctx.
Qed.

(** ** Red-black trees *)

Definition tcolor (t : tree) : Color := match t with E => BLACK | T _ c _ _ _ => c end.
Definition scolor (f : step) : Color := match f with FL _ c _ _ | FR _ c _ _ => c end.
Definition sibling (f : step) : tree := match f with FL _ _ _ b | FR _ _ _ b => b end.

(** Black height [n], and no red node with a red child. *)
Fixpoint rb (t : tree) (n : nat) : Prop :=
  match t with
  | E => n = O
  | T _ RED _ a b => tcolor a = BLACK ∧ tcolor b = BLACK ∧ rb a n ∧ rb b n
  | T _ BLACK _ a b => match n with O => False | S m => rb a m ∧ rb b m end
  end.

(** The color above the hole; the root hangs below [NIL]. *)
Definition ccolor (ctx : context) : Color := match ctx with [] => BLACK | f :: _ => scolor f end.

(** The path takes a subtree of black height [n] in its hole. *)
Fixpoint ctx_rb (ctx : context) (n : nat) : Prop :=
  match ctx with
  | [] => True
  | f :: ctx =>
      rb (sibling f) n ∧
      match scolor f with
      | BLACK => ctx_rb ctx (S n)
      | RED => tcolor (sibling f) = BLACK ∧ ctx ≠ [] ∧ ccolor ctx = BLACK ∧ ctx_rb ctx n
      end
  end.

Lemma plug_rb ctx t n :
  ctx_rb ctx n → rb t n → (tcolor t = RED → ccolor ctx = BLACK) →
  ∃ m, rb (plug ctx t) m ∧ (ctx ≠ [] → tcolor (plug ctx t) = BLACK).
Proof.
  revert t n. induction ctx as [|f ctx IH]; intros t n Hc Ht Hcol; simpl.
  - exists n. done.
  - destruct Hc as [Hs Hc]. destruct (scolor f) eqn:Hf.
    + destruct Hc as (Hsc & Hne & Hcc & Hc). destruct (IH (fill f t) n) as (m & Hm & Hroot).
      * done.
      * assert (tcolor t = BLACK) by (simpl in Hcol; rewrite Hf in Hcol; destruct (tcolor t); auto).
        destruct f; simpl in *; subst; auto.
      * done.
      * eauto.
    + destruct (IH (fill f t) (S n)) as (m & Hm & Hroot).
      * done.
      * destruct f; simpl in *; subst; auto.
      * destruct f; simpl in *; subst; done.
      * exists m. split; [done|]. intros _. destruct ctx as [|g ctx]; [|by apply Hroot].
        destruct f; simpl in *; by subst.
Qed.

Lemma unplug_rb ctx t m :
  rb (plug ctx t) m → tcolor (plug ctx t) = BLACK →
  ∃ n, ctx_rb ctx n ∧ rb t n ∧ (tcolor t = RED → ctx ≠ [] ∧ ccolor ctx = BLACK).
Proof.
  revert t. induction ctx as [|f ctx IH]; intros t Hm Hroot; simpl in *.
  - exists m. split; [done|]. split; [done|]. intros. congruence.
  - destruct (IH _ Hm Hroot) as (n & Hc & Hf & Hcol).
    destruct f as [x [] k b|x [] k a]; simpl in *.
    + destruct Hf as (Ht & Hb & Hrt & Hrb). destruct (Hcol eq_refl). exists n.
      split; [tauto|]. split; [done|]. congruence.
    + destruct n as [|n]; [done|]. destruct Hf. exists n. auto.
    + destruct Hf as (Ha & Ht & Hra & Hrt). destruct (Hcol eq_refl). exists n.
      split; [tauto|]. split; [done|]. congruence.
    + destruct n as [|n]; [done|]. destruct Hf. exists n. auto.
Qed.

(** *** Keys along a path *)

Fixpoint lefts (ctx : context) : list Z :=
  match ctx with
  | [] => []
  | FL _ _ _ _ :: ctx => lefts ctx
  | FR _ _ k a :: ctx => lefts ctx ++ inorder a ++ [k]
  end.

Fixpoint rights (ctx : context) : list Z :=
  match ctx with
  | [] => []
  | FL _ _ k b :: ctx => k :: inorder b ++ rights ctx
  | FR _ _ _ _ :: ctx => rights ctx
  end.

Lemma inorder_plug ctx t : inorder (plug ctx t) = lefts ctx ++ inorder t ++ rights ctx.
Proof.
  revert t. induction ctx as [|[x c k b|x c k a] ctx IH]; intros t; simpl.
  - by rewrite app_nil_r.
  - rewrite IH. simpl. by rewrite <- app_assoc.
  - rewrite IH. simpl. by rewrite <- !app_assoc.
Qed.

Lemma inorder_plug_ext ctx t t' :
  inorder t = inorder t' → inorder (plug ctx t) = inorder (plug ctx t').
Proof. intros Heq. by rewrite !inorder_plug, Heq. Qed.

(** *** [insertFixup] *)

Lemma step_node s f ctx t :
  rep s (plug (f :: ctx) t) →
  ∃ n, mem s !! step_loc f = Some n ∧ key n = (match f with FL _ _ k _ | FR _ _ k _ => k end) ∧
    color n = scolor f ∧ parent n = top (NIL s) ctx ∧
    left n = (match f with FL _ _ _ _ => pt (NIL s) t | FR _ _ _ a => pt (NIL s) a end) ∧
    right n = (match f with FL _ _ _ b => pt (NIL s) b | FR _ _ _ _ => pt (NIL s) t end).
Proof.
  intros Hr. destruct f as [x c k b|x c k a]; simpl in Hr; apply focus_node in Hr; simpl;
    eexists; (split; [exact Hr|]); done.
Qed.

(** The color of the root of any subtree, [NIL] included. *)
Lemma read_color s ctx t :
  rep s (plug ctx t) → ∃ n, mem s !! pt (NIL s) t = Some n ∧ color n = tcolor t.
Proof.
  intros Hr. destruct t as [|x c k a b]; simpl.
  - apply (rep_nil _ _ Hr).
  - apply focus_node in Hr. eexists. split; [exact Hr|done].
Qed.

(** The result of cases 2 and 3 on the left side: [z] below the red [f] below
    [g] with the black uncle [u]. *)
Definition fixed_left (f : step) (xz : loc) (kz : Z) (a b : tree) (xg : loc) (kg : Z) (u : tree)
    : tree :=
  match f with
  | FL xf _ kf sf => T xf BLACK kf (T xz RED kz a b) (T xg RED kg sf u)
  | FR xf _ kf sf => T xz BLACK kz (T xf RED kf sf a) (T xg RED kg b u)
  end.

Definition fixed_right (f : step) (xz : loc) (kz : Z) (a b : tree) (xg : loc) (kg : Z) (u : tree)
    : tree :=
  match f with
  | FL xf _ kf sf => T xz BLACK kz (T xg RED kg u a) (T xf RED kf b sf)
  | FR xf _ kf sf => T xf BLACK kf (T xg RED kg u sf) (T xz RED kz a b)
  end.

(** After a fix the parent of [z] is black, which ends the loop. *)
Definition parent_black (s : state) (z : loc) : Prop :=
  ∃ nz np, mem s !! z = Some nz ∧ mem s !! parent nz = Some np ∧ color np = BLACK.

Lemma focus_ne_sibling s f ctx z c k a b :
  rep s (plug (f :: ctx) (T z c k a b)) → z ≠ pt (NIL s) (sibling f).
Proof.
  intros Hr Heq. destruct (rep_focus s (f :: ctx) _ Hr) as (_ & _ & Hnd). unfold ctx_locs in Hnd.
  simpl in Hnd. apply NoDup_cons in Hnd as [Hn Hnd]. apply NoDup_app in Hnd as (_ & Hd & _).
  destruct (sibling f) as [|x' c' k' a' b'] eqn:Hs; simpl in Heq; subst z.
  - apply Hn, elem_of_app. right. by left.
  - apply (Hd x'); [|by left]. apply elem_of_app. left.
    destruct f; simpl in *; subst; right; by left.
Qed.

(** One read or call that succeeds without output. *)
Ltac run H := refine (bind_Ok _ _ _ _ _ [] _ _ [] H _); cbv beta; simpl.

(** Case 3, once [z] hangs below [f] below [g] on the same side. *)
Lemma case3_left s ctx z xf cf kf sf xg cg kg u tz :
  tz ≠ E → pt (NIL s) tz = z →
  rep s (plug ctx (T xg cg kg (T xf cf kf tz sf) u)) →
  ∃ s', (nz ← rd z; set_color (parent nz) BLACK ;; np ← rd (parent nz);
         set_color (parent np) RED ;; rightRotate (parent np) ;; mret z) s = Ok (z, s', []) ∧
    rep s' (plug ctx (T xf BLACK kf tz (T xg RED kg sf u))) ∧ keeps s s' ∧ parent_black s' z.
Proof.
  intros Hne Hz Hr. destruct tz as [|xz c k a b]; [done|]. simpl in Hz. subst xz.
  pose proof (focus_node s (FL xf cf kf sf :: FL xg cg kg u :: ctx) z c k a b Hr) as Hnz.
  destruct (set_color_focus s (FL xg cg kg u :: ctx) xf cf BLACK kf (T z c k a b) sf Hr)
    as (s1 & Hs1 & Hr1 & Hk1).
  pose proof (focus_node s1 (FL xg cg kg u :: ctx) _ _ _ _ _ Hr1) as Hnf.
  destruct (set_color_focus s1 ctx xg cg RED kg _ u Hr1) as (s2 & Hs2 & Hr2 & Hk2).
  destruct (rightRotate_ok s2 ctx _ _ _ _ _ _ _ _ _ Hr2) as (s3 & Hs3 & Hr3 & Hk3).
  exists s3. split; [|split; [done|split; [by repeat (eapply keeps_trans; [eassumption|])|]]].
  - run (rb_rd_ok _ _ _ Hnz). run Hs1. run (rb_rd_ok _ _ _ Hnf). run Hs2. run Hs3. done.
  - pose proof (focus_node s3 (FL xf BLACK kf (T xg RED kg sf u) :: ctx) z _ _ _ _ Hr3) as H1.
    pose proof (focus_node s3 ctx xf _ _ _ _ Hr3) as H2.
    eexists _, _. split; [exact H1|]. split; [exact H2|done].
Qed.

Lemma case3_right s ctx z xf cf kf sf xg cg kg u tz :
  tz ≠ E → pt (NIL s) tz = z →
  rep s (plug ctx (T xg cg kg u (T xf cf kf sf tz))) →
  ∃ s', (nz ← rd z; set_color (parent nz) BLACK ;; np ← rd (parent nz);
         set_color (parent np) RED ;; leftRotate (parent np) ;; mret z) s = Ok (z, s', []) ∧
    rep s' (plug ctx (T xf BLACK kf (T xg RED kg u sf) tz)) ∧ keeps s s' ∧ parent_black s' z.
Proof.
  intros Hne Hz Hr. destruct tz as [|xz c k a b]; [done|]. simpl in Hz. subst xz.
  pose proof (focus_node s (FR xf cf kf sf :: FR xg cg kg u :: ctx) z c k a b Hr) as Hnz.
  destruct (set_color_focus s (FR xg cg kg u :: ctx) xf cf BLACK kf sf (T z c k a b) Hr)
    as (s1 & Hs1 & Hr1 & Hk1).
  pose proof (focus_node s1 (FR xg cg kg u :: ctx) _ _ _ _ _ Hr1) as Hnf.
  destruct (set_color_focus s1 ctx xg cg RED kg u _ Hr1) as (s2 & Hs2 & Hr2 & Hk2).
  destruct (leftRotate_ok s2 ctx _ _ _ _ _ _ _ _ _ Hr2) as (s3 & Hs3 & Hr3 & Hk3).
  exists s3. split; [|split; [done|split; [by repeat (eapply keeps_trans; [eassumption|])|]]].
  - run (rb_rd_ok _ _ _ Hnz). run Hs1. run (rb_rd_ok _ _ _ Hnf). run Hs2. run Hs3. done.
  - pose proof (focus_node s3 (FR xf BLACK kf (T xg RED kg u sf) :: ctx) z _ _ _ _ Hr3) as H1.
    pose proof (focus_node s3 ctx xf _ _ _ _ Hr3) as H2.
    eexists _, _. split; [exact H1|]. split; [exact H2|done].
Qed.

Lemma fix_left_ok s ctx f z k a b xg cg kg u :
  rep s (plug ctx (T xg cg kg (fill f (T z RED k a b)) u)) → scolor f = RED →
  ∃ z' s', fix_left z s = Ok (z', s', []) ∧ rep s' (plug ctx (fixed_left f z k a b xg kg u)) ∧
    keeps s s' ∧ parent_black s' z'.
Proof.
  intros Hr Hf. pose proof (focus_node s (f :: FL xg cg kg u :: ctx) z _ _ _ _ Hr) as Hnz.
  pose proof (focus_ne_sibling s f (FL xg cg kg u :: ctx) _ _ _ _ _ Hr) as Hne.
  destruct (step_node s f (FL xg cg kg u :: ctx) _ Hr) as (np & Hnp & _ & _ & _ & _ & Hrt).
  unfold fix_left. destruct f as [xf cf kf sf|xf cf kf sf]; simpl in *; subst cf.
  - destruct (case3_left s ctx z xf RED kf sf xg cg kg u (T z RED k a b)) as (s' & Hs' & Hr' & Hk & Hp);
      [done..|].
    exists z, s'. split; [|done]. run (rb_rd_ok _ _ _ Hnz). run (rb_rd_ok _ _ _ Hnp). rewrite Hrt.
    rewrite decide_False by done. refine (bind_Ok _ _ _ _ _ [] _ _ [] eq_refl _). exact Hs'.
  - destruct (leftRotate_ok s (FL xg cg kg u :: ctx) _ _ _ _ _ _ _ _ _ Hr) as (s1 & Hs1 & Hr1 & Hk1).
    destruct (case3_left s1 ctx xf z RED k b xg cg kg u (T xf RED kf sf a))
      as (s' & Hs' & Hr' & Hk & Hp); [done..|].
    exists xf, s'. split; [|split; [done|split; [by eapply keeps_trans|done]]].
    run (rb_rd_ok _ _ _ Hnz). run (rb_rd_ok _ _ _ Hnp). rewrite Hrt, decide_True by done.
    refine (bind_Ok _ _ _ _ _ [] _ _ [] _ _); [|exact Hs'].
    refine (bind_Ok _ _ _ _ _ [] _ _ [] Hs1 _). done.
Qed.

Lemma fix_right_ok s ctx f z k a b xg cg kg u :
  rep s (plug ctx (T xg cg kg u (fill f (T z RED k a b)))) → scolor f = RED →
  ∃ z' s', fix_right z s = Ok (z', s', []) ∧ rep s' (plug ctx (fixed_right f z k a b xg kg u)) ∧
    keeps s s' ∧ parent_black s' z'.
Proof.
  intros Hr Hf. pose proof (focus_node s (f :: FR xg cg kg u :: ctx) z _ _ _ _ Hr) as Hnz.
  pose proof (focus_ne_sibling s f (FR xg cg kg u :: ctx) _ _ _ _ _ Hr) as Hne.
  destruct (step_node s f (FR xg cg kg u :: ctx) _ Hr) as (np & Hnp & _ & _ & _ & Hlt & _).
  unfold fix_right. destruct f as [xf cf kf sf|xf cf kf sf]; simpl in *; subst cf.
  - destruct (rightRotate_ok s (FR xg cg kg u :: ctx) _ _ _ _ _ _ _ _ _ Hr) as (s1 & Hs1 & Hr1 & Hk1).
    destruct (case3_right s1 ctx xf z RED k a xg cg kg u (T xf RED kf b sf))
      as (s' & Hs' & Hr' & Hk & Hp); [done..|].
    exists xf, s'. split; [|split; [done|split; [by eapply keeps_trans|done]]].
    run (rb_rd_ok _ _ _ Hnz). run (rb_rd_ok _ _ _ Hnp). rewrite Hlt, decide_True by done.
    refine (bind_Ok _ _ _ _ _ [] _ _ [] _ _); [|exact Hs'].
    refine (bind_Ok _ _ _ _ _ [] _ _ [] Hs1 _). done.
  - destruct (case3_right s ctx z xf RED kf sf xg cg kg u (T z RED k a b)) as (s' & Hs' & Hr' & Hk & Hp);
      [done..|].
    exists z, s'. split; [|done]. run (rb_rd_ok _ _ _ Hnz). run (rb_rd_ok _ _ _ Hnp). rewrite Hlt.
    rewrite decide_False by done. refine (bind_Ok _ _ _ _ _ [] _ _ [] eq_refl _). exact Hs'.
Qed.

(** Case 1: the parent and the uncle become black, the grandparent red. *)
Definition paint (c : Color) (f : step) : step :=
  match f with FL x _ k b => FL x c k b | FR x _ k a => FR x c k a end.

Definition with_sibling (u : tree) (f : step) : step :=
  match f with FL x c k _ => FL x c k u | FR x c k _ => FR x c k u end.

Lemma paint_step s f ctx t c :
  rep s (plug (f :: ctx) t) →
  ∃ s', set_color (step_loc f) c s = Ok (tt, s', []) ∧ rep s' (plug (paint c f :: ctx) t) ∧
    keeps s s'.
Proof.
  intros Hr. destruct f as [x c0 k b|x c0 k a]; simpl in *; by apply (set_color_focus _ _ _ c0).
Qed.

Lemma paint_sibling s f ctx t x c0 k a b c :
  rep s (plug (f :: ctx) t) → sibling f = T x c0 k a b →
  ∃ s', set_color x c s = Ok (tt, s', []) ∧
    rep s' (plug (with_sibling (T x c k a b) f :: ctx) t) ∧ keeps s s'.
Proof.
  intros Hr Hs. destruct f as [xf cf kf bf|xf cf kf bf]; simpl in *; subst bf.
  - exact (set_color_focus s (FR xf cf kf t :: ctx) x c0 c k a b Hr).
  - exact (set_color_focus s (FL xf cf kf t :: ctx) x c0 c k a b Hr).
Qed.

Lemma recolor_ok s ctx f g z c k a b xu ku ua ub :
  rep s (plug (f :: g :: ctx) (T z c k a b)) → sibling g = T xu RED ku ua ub →
  ∃ s', recolor z xu s = Ok (step_loc g, s', []) ∧ keeps s s' ∧
    rep s' (plug ctx (fill (paint RED (with_sibling (T xu BLACK ku ua ub) g))
                           (fill (paint BLACK f) (T z c k a b)))).
Proof.
  intros Hr Hs. pose proof (focus_node s (f :: g :: ctx) z _ _ _ _ Hr) as Hnz.
  destruct (paint_step s f (g :: ctx) _ BLACK Hr) as (s1 & Hs1 & Hr1 & Hk1).
  destruct (paint_sibling s1 g ctx (fill (paint BLACK f) (T z c k a b)) _ _ _ _ _ BLACK Hr1 Hs)
    as (s2 & Hs2 & Hr2 & Hk2).
  destruct (step_node s2 (paint BLACK f) (with_sibling (T xu BLACK ku ua ub) g :: ctx) (T z c k a b))
    as (np & Hnp & _ & _ & Hpar & _); [done|].
  destruct (paint_step s2 (with_sibling (T xu BLACK ku ua ub) g) ctx (fill (paint BLACK f) (T z c k a b))
    RED Hr2) as (s3 & Hs3 & Hr3 & Hk3).
  assert (step_loc (paint BLACK f) = step_loc f) as Hf by (by destruct f).
  assert (step_loc (with_sibling (T xu BLACK ku ua ub) g) = step_loc g) as Hg by (by destruct g).
  rewrite Hf in Hnp. rewrite Hg in Hs3. simpl in Hpar. rewrite Hg in Hpar.
  exists s3. split; [|split; [by repeat (eapply keeps_trans; [eassumption|])|done]].
  unfold recolor. run (rb_rd_ok _ _ _ Hnz). run Hs1. run Hs2. run (rb_rd_ok _ _ _ Hnp).
  rewrite Hpar. run Hs3. done.
Qed.

Lemma fill_paint_inorder c f t : inorder (fill (paint c f) t) = inorder (fill f t).
Proof. by destruct f. Qed.

Lemma fill_sibling_inorder f t x c c' k a b :
  sibling f = T x c k a b → inorder (fill (with_sibling (T x c' k a b) f) t) = inorder (fill f t).
Proof. destruct f; simpl; by intros ->. Qed.

Lemma fill_inorder_ext f t t' : inorder t = inorder t' → inorder (fill f t) = inorder (fill f t').
Proof. destruct f; simpl; by intros ->. Qed.

Lemma fixed_inorder f z k a b xg cg kg u :
  inorder (fixed_left f z k a b xg kg u) = inorder (T xg cg kg (fill f (T z RED k a b)) u) ∧
  inorder (fixed_right f z k a b xg kg u) = inorder (T xg cg kg u (fill f (T z RED k a b))).
Proof.
  destruct f; simpl; repeat (rewrite <- ?app_assoc; simpl); auto.
Qed.

Lemma fixed_rb f z k a b xg kg u n :
  scolor f = RED → rb (T z RED k a b) n → rb (sibling f) n → tcolor (sibling f) = BLACK →
  rb u n → tcolor u = BLACK →
  rb (fixed_left f z k a b xg kg u) (S n) ∧ tcolor (fixed_left f z k a b xg kg u) = BLACK ∧
  rb (fixed_right f z k a b xg kg u) (S n) ∧ tcolor (fixed_right f z k a b xg kg u) = BLACK.
Proof.
  intros Hf (Ha & Hb & Hra & Hrb) Hs Hsc Hu Huc. destruct f; simpl in *; tauto.
Qed.

Lemma fixup_stop fuel s z : parent_black s z → fixup_loop fuel z s = Ok (tt, s, []).
Proof.
  intros (nz & np & Hnz & Hnp & Hcol).
  destruct fuel; cbn [fixup_loop]; run (rb_rd_ok _ _ _ Hnz); run (rb_rd_ok _ _ _ Hnp); by rewrite Hcol.
Qed.

Lemma keeps_refl s : keeps s s.
Proof. done. Qed.

Lemma plug_not_E ctx x c k a b : plug ctx (T x c k a b) ≠ E.
Proof.
  intros He. assert (length (locs (plug ctx (T x c k a b))) = O) as Hl by (by rewrite He).
  rewrite locs_plug, length_app in Hl. simpl in Hl. lia.
Qed.

(** One round below a red parent: either [z] moves up two steps, or the tree
    is repaired and the loop will stop. *)
Lemma fix_round_ok s f g ctx z k a b n :
  rep s (plug (f :: g :: ctx) (T z RED k a b)) → scolor f = RED → rb (T z RED k a b) n →
  ctx_rb (f :: g :: ctx) n →
  ∃ z' s', fix_round z s = Ok (z', s', []) ∧ keeps s s' ∧
    ((∃ k' a' b', rep s' (plug ctx (T z' RED k' a' b')) ∧ rb (T z' RED k' a' b') (S n) ∧
        ctx_rb ctx (S n) ∧
        inorder (plug ctx (T z' RED k' a' b')) = inorder (plug (f :: g :: ctx) (T z RED k a b))) ∨
     (∃ x' k' a' b' m, rep s' (plug ctx (T x' BLACK k' a' b')) ∧ parent_black s' z' ∧
        rb (plug ctx (T x' BLACK k' a' b')) m ∧
        inorder (plug ctx (T x' BLACK k' a' b')) = inorder (plug (f :: g :: ctx) (T z RED k a b)))).
Proof.
  intros Hr Hf Hrb Hc. pose proof (focus_node s (f :: g :: ctx) z _ _ _ _ Hr) as Hnz.
  destruct (step_node s f (g :: ctx) _ Hr) as (np & Hnp & _ & _ & Hpar & _).
  destruct (step_node s g ctx (fill f (T z RED k a b)) Hr) as (ng & Hng & _ & _ & _ & Hgl & Hgr).
  destruct Hc as [Hsib Hc]. rewrite Hf in Hc. destruct Hc as (Hsc & _ & Hgc & Hu & Hc).
  simpl in Hgc. rewrite Hgc in Hc. simpl in Hpar.
  assert (pt (NIL s) (fill f (T z RED k a b)) = step_loc f) as Hpf by (by destruct f).
  assert (step_loc f ≠ pt (NIL s) (sibling g)) as Hne.
  { destruct f as [xf cf kf bf|xf cf kf bf]; exact (focus_ne_sibling s g ctx _ _ _ _ _ Hr). }
  assert (∃ nu, mem s !! pt (NIL s) (sibling g) = Some nu ∧ color nu = tcolor (sibling g))
    as (nu & Hnu & Hnuc).
  { destruct g as [xg cg kg u|xg cg kg u]; simpl in *.
    - exact (read_color s (FR xg cg kg (fill f (T z RED k a b)) :: ctx) u Hr).
    - exact (read_color s (FL xg cg kg (fill f (T z RED k a b)) :: ctx) u Hr). }
  unfold fix_round. destruct (tcolor (sibling g)) eqn:Huc.
  - destruct (sibling g) as [|xu cu ku ua ub] eqn:Hsg; [done|]. simpl in Huc. subst cu.
    destruct (recolor_ok s ctx f g z RED k a b xu ku ua ub Hr Hsg) as (s' & Hs' & Hk & Hr').
    exists (step_loc g), s'. split; [|split; [done|left]].
    + run (rb_rd_ok _ _ _ Hnz). run (rb_rd_ok _ _ _ Hnp). rewrite Hpar. run (rb_rd_ok _ _ _ Hng).
      rewrite Hgl, Hgr. destruct g as [xg cg kg u|xg cg kg u]; simpl in *; subst u; simpl.
      * rewrite decide_True by done. run (rb_rd_ok _ _ _ Hnu). by rewrite Hnuc.
      * rewrite decide_False by done. run (rb_rd_ok _ _ _ Hnu). by rewrite Hnuc.
    + assert (rb (fill (paint BLACK f) (T z RED k a b)) (S n)) as Hrf
        by (destruct f; simpl in *; tauto).
      assert (tcolor (fill (paint BLACK f) (T z RED k a b)) = BLACK) as Hcf by (by destruct f).
      destruct g as [xg cg kg u|xg cg kg u]; simpl in *; subst u; eexists _, _, _;
        (split; [exact Hr'|]); (split; [simpl in *; tauto|]); (split; [done|]);
        apply inorder_plug_ext; simpl; by rewrite fill_paint_inorder.
  - destruct g as [xg cg kg u|xg cg kg u]; simpl in *; subst cg.
    + destruct (fix_left_ok s ctx f z k a b xg BLACK kg u Hr Hf) as (z' & s' & Hs' & Hr' & Hk & Hp).
      destruct (fixed_rb f z k a b xg kg u n) as (Hb1 & Hb2 & _); [done..|].
      destruct (plug_rb ctx (fixed_left f z k a b xg kg u) (S n)) as (m & Hm & _); [done|done|congruence|].
      exists z', s'. split; [|split; [done|right]].
      * run (rb_rd_ok _ _ _ Hnz). run (rb_rd_ok _ _ _ Hnp). rewrite Hpar. run (rb_rd_ok _ _ _ Hng).
        rewrite Hgl, Hgr, Hpf, decide_True by done. run (rb_rd_ok _ _ _ Hnu). by rewrite Hnuc.
      * pose proof (proj1 (fixed_inorder f z k a b xg BLACK kg u)) as Hin.
        destruct f; simpl in *; eexists _, _, _, _, m; (split; [exact Hr'|]); (split; [done|]);
          (split; [done|]); by apply inorder_plug_ext.
    + destruct (fix_right_ok s ctx f z k a b xg BLACK kg u Hr Hf) as (z' & s' & Hs' & Hr' & Hk & Hp).
      destruct (fixed_rb f z k a b xg kg u n) as (_ & _ & Hb1 & Hb2); [done..|].
      destruct (plug_rb ctx (fixed_right f z k a b xg kg u) (S n)) as (m & Hm & _); [done|done|congruence|].
      exists z', s'. split; [|split; [done|right]].
      * run (rb_rd_ok _ _ _ Hnz). run (rb_rd_ok _ _ _ Hnp). rewrite Hpar. run (rb_rd_ok _ _ _ Hng).
        rewrite Hgl, Hgr, decide_False by done. run (rb_rd_ok _ _ _ Hnu). by rewrite Hnuc.
      * pose proof (proj2 (fixed_inorder f z k a b xg BLACK kg u)) as Hin.
        destruct f; simpl in *; eexists _, _, _, _, m; (split; [exact Hr'|]); (split; [done|]);
          (split; [done|]); by apply inorder_plug_ext.
Qed.

(** The [while] loop of [insertFixup] from a red [z]. *)
Lemma fixup_loop_ok fuel s ctx z k a b n :
  rep s (plug ctx (T z RED k a b)) → rb (T z RED k a b) n → ctx_rb ctx n →
  (length ctx ≤ fuel)%nat →
  ∃ s' t' m, fixup_loop fuel z s = Ok (tt, s', []) ∧ rep s' t' ∧ keeps s s' ∧ t' ≠ E ∧
    inorder t' = inorder (plug ctx (T z RED k a b)) ∧ rb t' m.
Proof.
  revert s ctx z k a b n. induction fuel as [fuel IH] using lt_wf_ind.
  intros s ctx z k a b n Hr Hrb Hc Hf. pose proof (focus_node s ctx z _ _ _ _ Hr) as Hnz.
  destruct (decide (ccolor ctx = BLACK)) as [Hcc|Hcc].
  - destruct (plug_rb ctx (T z RED k a b) n) as (m & Hm & _); [done..|].
    exists s, (plug ctx (T z RED k a b)), m. split.
    { apply fixup_stop. destruct ctx as [|f ctx].
      - destruct (rep_nil _ _ Hr) as (nn & Hnn & Hcol). by exists (mkRB k RED (pt (NIL s) a) (pt (NIL s) b) (NIL s)), nn.
      - destruct (step_node s f ctx _ Hr) as (np & Hnp & _ & Hcol & _). simpl in Hcc.
        eexists _, np. split; [exact Hnz|]. simpl. split; [done|congruence]. }
    split; [done|]. split; [apply keeps_refl|]. split; [apply plug_not_E|done].
  - destruct ctx as [|f ctx]; [done|]. simpl in Hcc.
    assert (scolor f = RED) as Hfr by (by destruct (scolor f)).
    destruct ctx as [|g ctx]; [simpl in Hc; rewrite Hfr in Hc; naive_solver|].
    destruct fuel as [|fuel]; [simpl in Hf; lia|].
    destruct (fix_round_ok s f g ctx z k a b n Hr Hfr Hrb Hc)
      as (z' & s1 & Hs1 & Hk1 & [(k' & a' & b' & Hr1 & Hrb1 & Hc1 & Hin)|
                                 (x' & k' & a' & b' & m & Hr1 & Hp & Hm & Hin)]).
    + destruct (IH fuel ltac:(lia) s1 ctx z' k' a' b' (S n) Hr1 Hrb1 Hc1)
        as (s' & t' & m & Hs' & Hr' & Hk' & Hne & Hin' & Hm); [simpl in Hf; lia|].
      exists s', t', m. split; [|split; [done|split; [by eapply keeps_trans|]]].
      * destruct (step_node s f (g :: ctx) _ Hr) as (np & Hnp & _ & Hcol & _).
        cbn [fixup_loop]. run (rb_rd_ok _ _ _ Hnz). run (rb_rd_ok _ _ _ Hnp). rewrite Hcol, Hfr.
        by run Hs1.
      * split; [done|]. split; [congruence|done].
    + exists s1, (plug ctx (T x' BLACK k' a' b')), m. split; [|split; [done|split; [done|]]].
      * destruct (step_node s f (g :: ctx) _ Hr) as (np & Hnp & _ & Hcol & _).
        cbn [fixup_loop]. run (rb_rd_ok _ _ _ Hnz). run (rb_rd_ok _ _ _ Hnp). rewrite Hcol, Hfr.
        run Hs1. by apply fixup_stop.
      * split; [apply plug_not_E|done].
Qed.

(** *** The descent of [insert] *)

(** The path to the leaf where [k] belongs, [None] when [k] is there. *)
Fixpoint down (k : Z) (t : tree) (ctx : context) : option context :=
  match t with
  | E => Some ctx
  | T x c k' a b =>
      if k <? k' then down k a (FL x c k' b :: ctx)
      else if k' <? k then down k b (FR x c k' a :: ctx)
      else None
  end.

Lemma descend_ok fuel s k t ctx :
  tree_at (NIL s) (mem s) (top (NIL s) ctx) t → NIL s ∉ locs t → (length (locs t) ≤ fuel)%nat →
  descend fuel k (top (NIL s) ctx) (pt (NIL s) t) s =
  Ok (top (NIL s) <$> down k t ctx, s, []).
Proof.
  revert t ctx. induction fuel as [|fuel IH]; intros t ctx Ht Hn Hf;
    (destruct t as [|x c k' a b];
     [cbn [descend pt]; run (@eq_refl (res (state * state * list string)) (Ok (s, s, [])));
      by rewrite decide_True|]).
  { simpl in Hf. lia. }
  destruct Ht as (Hx & Ha & Hb). simpl in Hn, Hf. rewrite length_app in Hf.
  apply not_elem_of_cons in Hn as [Hxn Hn]. apply not_elem_of_app in Hn as [Hna Hnb].
  cbn [descend pt down]. run (@eq_refl (res (state * state * list string)) (Ok (s, s, []))).
  rewrite decide_False by done. run (rb_rd_ok _ _ _ Hx).
  destruct (k <? k'); [|destruct (k' <? k); [|done]].
  - apply (IH a (FL x c k' b :: ctx)); [done|done|lia].
  - apply (IH b (FR x c k' a :: ctx)); [done|done|lia].
Qed.

Lemma down_plug k t ctx ctx' : down k t ctx = Some ctx' → plug ctx' E = plug ctx t.
Proof.
  revert ctx. induction t as [|x c k' a IHa b IHb]; intros ctx; simpl; [by intros [= ->]|].
  destruct (k <? k'); [by intros ?%IHa|]. destruct (k' <? k); [by intros ?%IHb|done].
Qed.

(** The path leaves the smaller keys on its left and the larger on its right. *)
Lemma down_sides k t ctx ctx' :
  sorted_keys id (inorder t) →
  Forall (λ y, y < k) (lefts ctx) → Forall (λ y, k < y) (rights ctx) →
  down k t ctx = Some ctx' →
  Forall (λ y, y < k) (lefts ctx') ∧ Forall (λ y, k < y) (rights ctx').
Proof.
  revert ctx. induction t as [|x c k' a IHa b IHb]; intros ctx Hs Hl Hr; simpl;
    [by intros [= <-]|].
  simpl in Hs. apply sorted_mid in Hs as (Hsa & Hsb & Hak & Hkb).
  destruct (Z.ltb_spec k k'); [|destruct (Z.ltb_spec k' k); [|done]].
  - apply IHa; [done|done|]. simpl. constructor; [done|]. apply Forall_app. split; [|done].
    eapply Forall_impl; [exact Hkb|]. simpl. lia.
  - apply IHb; [done| |done]. simpl. apply Forall_app. split; [done|]. apply Forall_app.
    split; [|by constructor]. eapply Forall_impl; [exact Hak|]. simpl. lia.
Qed.

Lemma down_None k t ctx :
  sorted_keys id (inorder t) → down k t ctx = None → k ∈ inorder t.
Proof.
  revert ctx. induction t as [|x c k' a IHa b IHb]; intros ctx Hs; simpl; [done|].
  simpl in Hs. apply sorted_mid in Hs as (Hsa & Hsb & _). rewrite elem_of_app, elem_of_cons.
  destruct (Z.ltb_spec k k'); [intros ?%IHa; auto|].
  destruct (Z.ltb_spec k' k); [intros ?%IHb; auto|]. intros _. right. left. lia.
Qed.

Lemma linsert_there k (l : list Z) : sorted_keys id l → k ∈ l → linsert id k l = l.
Proof.
  intros Hs (l1 & l2 & ->)%list_elem_of_split.
  apply (sorted_mid id) in Hs as (_ & _ & H1 & _). by apply linsert_present.
Qed.

(** Linking the new node [z] below the end of the path. *)
Lemma link_ok s ctx k z :
  ctx_at (NIL s) (mem s) ctx (NIL s) → NoDup (NIL s :: ctx_locs ctx) → z ∉ ctx_locs ctx →
  (match ctx with
   | [] => True
   | FL _ _ k' _ :: _ => k < k'
   | FR _ _ k' _ :: _ => k' < k
   end) →
  ∃ s', (if decide (top (NIL s) ctx = NIL s) then set_root z
         else ny ← rd (top (NIL s) ctx);
              if k <? key ny then set_left (top (NIL s) ctx) z
              else set_right (top (NIL s) ctx) z) s = Ok (tt, s', []) ∧
    ctx_at (NIL s) (mem s') ctx z ∧ changes (ctx_locs ctx) s s' ∧
    root s' = (match ctx with [] => z | _ => root s end).
Proof.
  intros Hc Hnd Hz Hk. destruct ctx as [|f ctx].
  - simpl. rewrite decide_True by done. eexists. split; [done|]. simpl. by split.
  - assert (step_loc f ≠ NIL s) as Hf.
    { apply NoDup_cons in Hnd as [Hn _]. intros He. apply Hn. rewrite <- He. unfold ctx_locs.
      destruct f; simpl; by left. }
    simpl top. rewrite decide_False by done. unfold ctx_locs in Hnd. simpl in Hnd.
    apply NoDup_cons in Hnd as [_ Hnd].
    destruct f as [g c k' b|g c k' b]; simpl in *; destruct Hc as (Hg & Hb & Hc);
      apply NoDup_cons in Hnd as [Hgn _]; fold (ctx_locs ctx) in Hgn; rewrite elem_of_app in Hgn;
      assert (∀ l n, l ∈ locs b ∨ l ∈ ctx_locs ctx → <[g := n]> (mem s) !! l = mem s !! l) as Hkeep
        by (intros l n Hl; apply lookup_insert_ne; intros ->; tauto).
    + eexists. split.
      { run (rb_rd_ok _ _ _ Hg). destruct (Z.ltb_spec k k'); [|lia]. apply (set_left_ok _ _ _ _ Hg). }
      simpl. rewrite lookup_insert_eq. split; [split; [done|split]|split; [|done]].
      * eapply tree_at_ext; [|done]. auto.
      * eapply ctx_at_ext; [|done]. auto.
      * split; [done|]. split; [by eapply rb_dom_write|]. simpl. intros l Hl. apply lookup_insert_ne.
        intros ->. apply Hl. by left.
    + eexists. split.
      { run (rb_rd_ok _ _ _ Hg). destruct (Z.ltb_spec k k'); [lia|]. apply (set_right_ok _ _ _ _ Hg). }
      simpl. rewrite lookup_insert_eq. split; [split; [done|split]|split; [|done]].
      * eapply tree_at_ext; [|done]. auto.
      * eapply ctx_at_ext; [|done]. auto.
      * split; [done|]. split; [by eapply rb_dom_write|]. simpl. intros l Hl. apply lookup_insert_ne.
        intros ->. apply Hl. by left.
Qed.

Lemma attach_ok s ctx k z :
  rep s (plug ctx E) → mem s !! z = None →
  Forall (λ y, y < k) (lefts ctx) → Forall (λ y, k < y) (rights ctx) →
  ∃ s', attach z k (top (NIL s) ctx)
          (mkstate (NIL s) (root s) (<[z := mkRB k RED (NIL s) (NIL s) (NIL s)]> (mem s)))
        = Ok (tt, s', []) ∧ rep s' (plug ctx (T z RED k E E)) ∧ NIL s' = NIL s.
Proof.
  intros Hr Hz Hl Hrt. destruct (rep_focus _ _ _ Hr) as (Hc & _ & Hnd). simpl in Hc, Hnd.
  rewrite app_nil_r in Hnd.
  assert (z ∉ NIL s :: ctx_locs ctx) as Hzl.
  { intros Hin. apply not_elem_of_dom in Hz. apply Hz. rewrite (rep_dom _ _ Hr).
    rewrite elem_of_list_to_set, locs_plug, app_nil_r. done. }
  apply not_elem_of_cons in Hzl as [Hzn Hzc].
  set (h1 := <[z := mkRB k RED (NIL s) (NIL s) (top (NIL s) ctx)]> (mem s)).
  destruct (link_ok (mkstate (NIL s) (root s) h1) ctx k z) as (s2 & Hs2 & Hc2 & (Hn2 & Hd2 & Hk2) & Hr2).
  { eapply ctx_at_ext; [|exact Hc]. intros l Hin. apply lookup_insert_ne. intros ->. done. }
  { done. }
  { done. }
  { destruct ctx as [|[? ? ? ?|? ? ? ?] ctx]; simpl in *; [done| |].
    - by apply Forall_cons in Hrt as [? _].
    - apply Forall_app in Hl as [_ Hl]. apply Forall_app in Hl as [_ Hl].
      by apply Forall_cons in Hl as [? _]. }
  destruct s2 as [n2 r2 h2]. simpl in *. subst n2 r2.
  assert (h2 !! z = Some (mkRB k RED (NIL s) (NIL s) (top (NIL s) ctx))) as Hz2
    by (rewrite Hk2 by done; apply lookup_insert_eq).
  exists (mkstate (NIL s) (match ctx with [] => z | _ => root s end) h2).
  split; [|split; [|done]].
  - unfold attach. refine (bind_Ok _ _ _ _ _ [] _ _ [] eq_refl _). simpl.
    refine (bind_Ok _ _ _ _ _ [] _ _ [] (set_parent_ok _ _ _ _ (lookup_insert_eq _ _ _)) _). simpl.
    rewrite insert_insert_eq. run Hs2.
    run (set_left_ok (mkstate (NIL s) (match ctx with [] => z | _ => root s end) h2) _ _ (NIL s) Hz2).
    rewrite (insert_id h2) by done.
    run (set_right_ok (mkstate (NIL s) (match ctx with [] => z | _ => root s end) h2) _ _ (NIL s) Hz2).
    rewrite (insert_id h2) by done.
    rewrite (set_color_ok (mkstate (NIL s) _ h2) z _ RED Hz2). simpl. by rewrite (insert_id h2).
  - destruct Hr as [Ht Hroot Hnd' (nn & Hnn & Hcol) Hdom].
    assert (locs (plug ctx (T z RED k E E)) ≡ₚ z :: locs (plug ctx E)) as Hp.
    { rewrite !locs_plug. simpl. rewrite app_nil_r. symmetry. apply Permutation_cons_append. }
    constructor; simpl.
    + apply tree_at_plug. by split.
    + destruct ctx as [|f ctx]; [done|]. rewrite Hroot. by apply pt_plug.
    + rewrite Hp, Permutation_swap. constructor; [|done].
      rewrite locs_plug, app_nil_r, elem_of_cons. tauto.
    + exists nn. rewrite Hk2 by (by apply NoDup_cons in Hnd as [? _]).
      unfold h1. by rewrite lookup_insert_ne.
    + rewrite Hd2. unfold h1. rewrite dom_insert_L, Hdom. simpl.
      rewrite (list_to_set_perm_L _ _ Hp). simpl. set_solver.
Qed.

Lemma rep_size s t : rep s t → size (mem s) = S (length (locs t)).
Proof.
  intros Hr. rewrite <- size_dom, (rep_dom _ _ Hr), size_list_to_set by apply Hr. done.
Qed.

Lemma ctx_length ctx : (length ctx ≤ length (ctx_locs ctx))%nat.
Proof.
  induction ctx as [|[] ctx IH]; [done| |]; unfold ctx_locs in *; simpl;
    rewrite length_app; apply le_n_S; (etrans; [exact IH|apply Nat.le_add_l]).
Qed.

(** A red-black tree with a black root. *)
Definition red_black (t : tree) : Prop := tcolor t = BLACK ∧ ∃ n, rb t n.

(** Blackening the root of a tree whose root may be red. *)
Lemma blacken x c k a b n : rb (T x c k a b) n → red_black (T x BLACK k a b).
Proof.
  intros Hb. split; [done|]. destruct c; simpl in Hb.
  - exists (S n). simpl. tauto.
  - destruct n as [|n]; [done|]. exists (S n). done.
Qed.

Lemma insertFixup_ok s ctx z k n :
  rep s (plug ctx (T z RED k E E)) → n = O → ctx_rb ctx n →
  ∃ s' t', insertFixup z s = Ok (tt, s', []) ∧ rep s' t' ∧ red_black t' ∧
    inorder t' = inorder (plug ctx (T z RED k E E)).
Proof.
  intros Hr -> Hc.
  destruct (fixup_loop_ok (size (mem s)) s ctx z k E E O Hr) as (s1 & t1 & m & Hs1 & Hr1 & _ & Hne & Hin & Hm);
    [done|done| |].
  { rewrite (rep_size _ _ Hr), locs_plug, length_app. pose proof (ctx_length ctx). simpl. lia. }
  destruct t1 as [|x c k1 a b]; [done|].
  destruct (set_color_focus s1 [] x c BLACK k1 a b Hr1) as (s2 & Hs2 & Hr2 & _).
  exists s2, (T x BLACK k1 a b). split; [|split; [done|split; [by eapply blacken|done]]].
  unfold insertFixup. refine (bind_Ok _ _ _ _ _ [] _ _ [] eq_refl _). run Hs1.
  refine (bind_Ok _ _ _ _ _ [] _ _ [] eq_refl _). rewrite (rep_root _ _ Hr1). done.
Qed.

End RbSpec.

Section RbTheorems.
Import Rb RbSpec.

(** C5: [insert] into a red-black tree with increasing keys: it never reads a
    freed cell, its loops end, and the memory then holds a red-black tree (black
    root, no red node with a red child, equal black heights) with exactly the
    key added; of a key that is there it frees the new node and changes
    nothing. *)
Theorem rb_insert_correct (s : state) (t : tree) (k : Z) :
  rep s t → red_black t → sorted_keys id (inorder t) →
  ∃ s' t', insert k s = Ok (tt, s', []) ∧ rep s' t' ∧ red_black t' ∧
    inorder t' = linsert id k (inorder t).
Proof.
  intros Hr [Hroot [n Hrb]] Hs. unfold insert, newNode. 
  set (z := fresh (dom (mem s))).
  assert (mem s !! z = None) as Hz by apply fresh_lookup.
  set (s1 := mkstate (NIL s) (root s) (<[z := mkRB k RED (NIL s) (NIL s) (NIL s)]> (mem s))).
  assert (descend (size (mem s1)) k (NIL s) (root s) s1 = Ok (top (NIL s) <$> down k t [], s1, [])) as Hd.
  { rewrite (rep_root _ _ Hr). apply (descend_ok _ s1 k t []).
    - eapply tree_at_ext; [|apply (rep_tree _ _ Hr)]. intros l Hl. apply lookup_insert_ne.
      intros <-. apply not_elem_of_dom in Hz. apply Hz. rewrite (rep_dom _ _ Hr).
      apply elem_of_list_to_set. by right.
    - pose proof (rep_nodup _ _ Hr) as Hnd. by apply NoDup_cons in Hnd as [? _].
    - simpl. rewrite map_size_insert_None, (rep_size _ _ Hr) by done. lia. }
  destruct (down k t []) as [ctx|] eqn:Hdown; simpl in Hd.
  - pose proof (down_plug _ _ _ _ Hdown) as Hp. simpl in Hp. rewrite <- Hp in Hr, Hrb, Hroot.
    destruct (down_sides k t [] ctx Hs) as [Hl Hrt]; [constructor|constructor|done|].
    destruct (attach_ok s ctx k z Hr Hz Hl Hrt) as (s2 & Hs2 & Hr2 & _).
    destruct (unplug_rb ctx E n Hrb Hroot) as (n' & Hc & Hn' & _). simpl in Hn'.
    destruct (insertFixup_ok s2 ctx z k n' Hr2 Hn' Hc) as (s' & t' & Hs' & Hr' & Hrb' & Hin).
    exists s', t'. split; [|split; [done|split; [done|]]].
    + refine (bind_Ok _ _ _ _ _ [] _ _ [] eq_refl _).
      refine (bind_Ok _ _ _ _ _ [] _ _ [] eq_refl _).
      refine (bind_Ok _ _ _ _ _ [] _ _ [] Hd _). cbv beta iota.
      by refine (bind_Ok _ _ _ _ _ [] _ _ [] Hs2 _).
    + rewrite Hin, <- Hp, !inorder_plug. simpl. by rewrite linsert_between.
  - exists s, t. split; [|split; [done|split; [by split; eauto|]]].
    + refine (bind_Ok _ _ _ _ _ [] _ _ [] eq_refl _).
      refine (bind_Ok _ _ _ _ _ [] _ _ [] eq_refl _).
      refine (bind_Ok _ _ _ _ _ [] _ _ [] Hd _). cbv beta iota.
      unfold free_node. c_run. rewrite (free_Some _ _ _ (lookup_insert_eq _ _ _)).
      rewrite delete_insert_id by done. by destruct s.
    + rewrite linsert_there; [done|done|]. by eapply down_None.
Qed.

Lemma rep_init : rep init E.
Proof.
  constructor; simpl; [done|done|by apply NoDup_singleton| |].
  - eexists. split; [apply lookup_singleton_eq|done].
  - rewrite dom_singleton_L. set_solver.
Qed.

Lemma rb_insert_correct_witness :
  ∃ s' t', insert 10 init = Ok (tt, s', []) ∧ rep s' t' ∧ red_black t' ∧ inorder t' = [10].
Proof.
  refine (rb_insert_correct init E 10 rep_init _ _); [split; [done|by exists O]|constructor].
Defined.

End RbTheorems.
