(* ===== verification/RbDelete.v ===== *)
(** * Deletion from the red-black tree

    The proof that [delete] of day-8(Avl-Tree)/rb-tree.c, modelled in
    [RbTree.Rb], removes exactly the key and restores the red-black
    invariants.  The two halves of [deleteFixup] are mirror images: they are
    instances of one text over a side ([fix_side]), so each case is proved
    once. *)
From stdpp Require Import base list gmap strings pretty sorting.
From Stdlib Require Import ZArith Lia.
From S2P Require Import Prelude.
From S2P Require Import RbTree.
Local Open Scope Z_scope.

Module RbDel.
Import Rb RbSpec.

(** ** Sides *)

Inductive side : Set := L | R.

Definition flip (d : side) : side := match d with L => R | R => L end.
Definition near (d : side) (n : RBNode) : loc := match d with L => left n | R => right n end.
Definition far (d : side) (n : RBNode) : loc := match d with L => right n | R => left n end.
Definition rotate (d : side) : loc → C state unit :=
  match d with L => leftRotate | R => rightRotate end.

(** A node with its near and its far child, and a step with the near child as
    its hole. *)
Definition mk (d : side) (x : loc) (c : Color) (k : Z) (a b : tree) : tree :=
  match d with L => T x c k a b | R => T x c k b a end.
Definition frame (d : side) (x : loc) (c : Color) (k : Z) (b : tree) : step :=
  match d with L => FL x c k b | R => FR x c k b end.

(** Case 1 of a round of [deleteFixup] for [x] a child on side [d]: a red
    sibling [w] is rotated up, and the new sibling is black. *)
Definition red_sibling (d : side) (x p w : loc) : C state loc :=
  set_color w BLACK ;;
  set_color p RED ;;
  rotate d p ;;
  nx ← rd x;
  np ← rd (parent nx);
  mret (far d np).

(** Case 3, which leaves a sibling whose far child is red. *)
Definition far_red (d : side) (x w : loc) (nw nf : RBNode) : C state loc :=
  match color nf with
  | BLACK =>
      set_color (near d nw) BLACK ;;
      set_color w RED ;;
      rotate (flip d) w ;;
      nx ← rd x;
      np ← rd (parent nx);
      mret (far d np)
  | RED => mret w
  end.

(** Case 4. *)
Definition finish (d : side) (x w : loc) : C state loc :=
  nx ← rd x;
  np ← rd (parent nx);
  set_color w (color np) ;;
  set_color (parent nx) BLACK ;;
  nw ← rd w;
  set_color (far d nw) BLACK ;;
  rotate d (parent nx) ;;
  s ← get;
  mret (root s).

(** Cases 2 to 4 with the black sibling [w]. *)
Definition sibling_cases (d : side) (x w : loc) : C state loc :=
  nw ← rd w;
  nn ← rd (near d nw);
  nf ← rd (far d nw);
  if decide (color nn = BLACK ∧ color nf = BLACK) then
    set_color w RED ;;
    nx ← rd x;
    mret (parent nx)
  else
    w ← far_red d x w nw nf;
    finish d x w.

Definition fix_side (d : side) (x : loc) : C state loc :=
  nx ← rd x;
  np ← rd (parent nx);
  let w := far d np in
  nw ← rd w;
  w ← (match color nw with
       | RED => red_sibling d x (parent nx) w
       | BLACK => mret w
       end);
  sibling_cases d x w.

(** Both halves of the loop body are [fix_side]. *)
Lemma delete_fix_sides x : delete_fix_left x = fix_side L x ∧ delete_fix_right x = fix_side R x.
Proof. done. Qed.

(** ** Memory at a side *)

Lemma fill_frame d x c k b t : fill (frame d x c k b) t = mk d x c k t b.
Proof. by destruct d. Qed.

Lemma fill_frame_flip d x c k a b : fill (frame (flip d) x c k a) b = mk d x c k a b.
Proof. by destruct d. Qed.

Lemma mk_flip d x c k a b : mk (flip d) x c k a b = mk d x c k b a.
Proof. by destruct d. Qed.

Lemma mk_view d t : t ≠ E → ∃ x c k a b, t = mk d x c k a b.
Proof. intros Ht. destruct t as [|x c k a b]; [done|]. destruct d; by eexists _, _, _, _, _. Qed.

Lemma pt_mk nil d x c k a b : pt nil (mk d x c k a b) = x.
Proof. by destruct d. Qed.

Lemma tcolor_mk d x c k a b : tcolor (mk d x c k a b) = c.
Proof. by destruct d. Qed.

Lemma frame_loc d x c k b : step_loc (frame d x c k b) = x.
Proof. by destruct d. Qed.

Lemma read_mk s ctx d x c k a b :
  rep s (plug ctx (mk d x c k a b)) →
  ∃ n, mem s !! x = Some n ∧ color n = c ∧ near d n = pt (NIL s) a ∧ far d n = pt (NIL s) b ∧
    parent n = top (NIL s) ctx.
Proof. intros Hr. destruct d; apply focus_node in Hr; eexists; (split; [exact Hr|done]). Qed.

Lemma paint_mk s ctx d x c c' k a b :
  rep s (plug ctx (mk d x c k a b)) →
  ∃ s', set_color x c' s = Ok (tt, s', []) ∧ rep s' (plug ctx (mk d x c' k a b)) ∧ keeps s s'.
Proof. intros Hr. destruct d; by apply (set_color_focus _ _ _ c). Qed.

(** The same for the far child [b] of a node, through the step it hangs on. *)
Lemma paint_far s ctx d p cp kp a x c c' k l r :
  rep s (plug ctx (mk d p cp kp a (mk d x c k l r))) →
  ∃ s', set_color x c' s = Ok (tt, s', []) ∧
    rep s' (plug ctx (mk d p cp kp a (mk d x c' k l r))) ∧ keeps s s'.
Proof.
  intros Hr. rewrite <- fill_frame_flip in Hr.
  destruct (paint_mk s (frame (flip d) p cp kp a :: ctx) d x c c' k l r Hr) as (s' & ? & Hr' & ?).
  exists s'. simpl in Hr'. rewrite fill_frame_flip in Hr'. done.
Qed.

Lemma rotate_ok s ctx d x cx kx a y cy ky b c :
  rep s (plug ctx (mk d x cx kx a (mk d y cy ky b c))) →
  ∃ s', rotate d x s = Ok (tt, s', []) ∧
    rep s' (plug ctx (mk d y cy ky (mk d x cx kx a b) c)) ∧ keeps s s'.
Proof. intros Hr. destruct d; [by apply leftRotate_ok|by apply rightRotate_ok]. Qed.

(** The tree [t] at the hole of [ctx], its root (perhaps [NIL]) pointing to the
    right parent: [deleteFixup] climbs from there. *)
Definition hole (s : state) (ctx : context) (t : tree) : Prop :=
  rep s (plug ctx t) ∧ ∃ n, mem s !! pt (NIL s) t = Some n ∧ parent n = top (NIL s) ctx.

Lemma hole_node s ctx t : rep s (plug ctx t) → t ≠ E → hole s ctx t.
Proof.
  intros Hr Ht. split; [done|]. destruct t as [|x c k a b]; [done|]. apply focus_node in Hr.
  eexists. split; [exact Hr|done].
Qed.

(** Steps that leave [NIL] alone keep the hole when its parent stays. *)
Lemma hole_keeps s s' ctx ctx' t :
  hole s ctx t → keeps s s' → rep s' (plug ctx' t) → top (NIL s) ctx' = top (NIL s) ctx →
  hole s' ctx' t.
Proof.
  intros [_ (n & Hn & Hp)] [Hnil Hk] Hr Htop. destruct t as [|x c k a b]; [|by apply hole_node].
  split; [done|]. exists n. simpl in *. rewrite Hnil, Hk, Htop. done.
Qed.

(** ** The cases of a round *)

Lemma red_sibling_ok s ctx d p cp kp w kw wl wr t :
  hole s (frame d p cp kp (mk d w RED kw wl wr) :: ctx) t →
  ∃ s', red_sibling d (pt (NIL s) t) p w s = Ok (pt (NIL s) wl, s', []) ∧ keeps s s' ∧
    hole s' (frame d p RED kp wl :: frame d w BLACK kw wr :: ctx) t.
Proof.
  intros Hh. pose proof (proj1 Hh) as Hr. simpl in Hr. rewrite fill_frame in Hr.
  destruct (paint_far _ _ _ _ _ _ _ _ _ BLACK _ _ _ Hr) as (s1 & Hs1 & Hr1 & Hk1).
  destruct (paint_mk _ _ _ _ _ RED _ _ _ Hr1) as (s2 & Hs2 & Hr2 & Hk2).
  destruct (rotate_ok _ _ _ _ _ _ _ _ _ _ _ _ Hr2) as (s3 & Hs3 & Hr3 & Hk3).
  assert (keeps s s3) as Hk by (by repeat (eapply keeps_trans; [eassumption|])).
  assert (hole s3 (frame d p RED kp wl :: frame d w BLACK kw wr :: ctx) t) as Hh3.
  { eapply hole_keeps; [exact Hh|done| |]; simpl; by rewrite ?fill_frame, ?frame_loc. }
  exists s3. split; [|done]. destruct Hh3 as [_ (nx & Hnx & Hpx)].
  simpl in Hpx. rewrite frame_loc in Hpx. rewrite (proj1 Hk) in Hnx.
  rewrite <- fill_frame in Hr3.
  destruct (read_mk s3 (frame d w BLACK kw wr :: ctx) d p RED kp t wl Hr3)
    as (np & Hnp & _ & _ & Hfar & _).
  unfold red_sibling. run Hs1. run Hs2. run Hs3. run (rb_rd_ok _ _ _ Hnx). rewrite Hpx.
  run (rb_rd_ok _ _ _ Hnp). by rewrite Hfar, (proj1 Hk).
Qed.

Lemma far_red_ok s ctx d p cp kp w kw v kv va vb wr t nw nf :
  hole s (frame d p cp kp (mk d w BLACK kw (mk d v RED kv va vb) wr) :: ctx) t →
  near d nw = v → color nf = BLACK →
  ∃ s', far_red d (pt (NIL s) t) w nw nf s = Ok (v, s', []) ∧ keeps s s' ∧
    hole s' (frame d p cp kp (mk d v BLACK kv va (mk d w RED kw vb wr)) :: ctx) t.
Proof.
  intros Hh Hv Hf. pose proof (proj1 Hh) as Hr. simpl in Hr.
  rewrite fill_frame, <- fill_frame_flip, <- (mk_flip d w), <- (mk_flip d v) in Hr.
  destruct (paint_far _ (frame (flip d) p cp kp t :: ctx) _ _ _ _ _ _ _ BLACK _ _ _ Hr)
    as (s1 & Hs1 & Hr1 & Hk1).
  destruct (paint_mk _ _ _ _ _ RED _ _ _ Hr1) as (s2 & Hs2 & Hr2 & Hk2).
  destruct (rotate_ok _ _ _ _ _ _ _ _ _ _ _ _ Hr2) as (s3 & Hs3 & Hr3 & Hk3).
  assert (keeps s s3) as Hk by (by repeat (eapply keeps_trans; [eassumption|])).
  simpl in Hr3. rewrite fill_frame_flip, !mk_flip in Hr3.
  assert (hole s3 (frame d p cp kp (mk d v BLACK kv va (mk d w RED kw vb wr)) :: ctx) t) as Hh3.
  { eapply hole_keeps; [exact Hh|done| |]; simpl; by rewrite ?fill_frame, ?frame_loc. }
  exists s3. split; [|done]. destruct Hh3 as [_ (nx & Hnx & Hpx)].
  simpl in Hpx. rewrite frame_loc in Hpx. rewrite (proj1 Hk) in Hnx.
  destruct (read_mk s3 ctx d p cp kp t _ Hr3) as (np & Hnp & _ & _ & Hfar & _).
  unfold far_red. rewrite Hf, Hv. run Hs1. run Hs2. run Hs3. run (rb_rd_ok _ _ _ Hnx). rewrite Hpx.
  run (rb_rd_ok _ _ _ Hnp). by rewrite Hfar, pt_mk.
Qed.

Lemma finish_ok s ctx d p cp kp w cw kw wl v kv va vb t :
  hole s (frame d p cp kp (mk d w cw kw wl (mk d v RED kv va vb)) :: ctx) t →
  ∃ s', finish d (pt (NIL s) t) w s = Ok (root s', s', []) ∧ keeps s s' ∧
    rep s' (plug ctx (mk d w cp kw (mk d p BLACK kp t wl) (mk d v BLACK kv va vb))).
Proof.
  intros Hh. pose proof (proj1 Hh) as Hr. simpl in Hr. rewrite fill_frame in Hr.
  destruct (proj2 Hh) as (nx & Hnx & Hpx). simpl in Hpx. rewrite frame_loc in Hpx.
  destruct (read_mk s ctx d p cp kp t _ Hr) as (np & Hnp & Hcp & _).
  destruct (paint_far _ _ _ _ _ _ _ _ _ cp _ _ _ Hr) as (s1 & Hs1 & Hr1 & Hk1).
  destruct (paint_mk _ _ _ _ _ BLACK _ _ _ Hr1) as (s2 & Hs2 & Hr2 & Hk2).
  rewrite <- fill_frame_flip in Hr2.
  destruct (read_mk s2 (frame (flip d) p BLACK kp t :: ctx) d w cp kw wl _ Hr2)
    as (nw & Hnw & _ & _ & Hfar & _). rewrite pt_mk in Hfar.
  destruct (paint_far s2 (frame (flip d) p BLACK kp t :: ctx) _ _ _ _ _ _ _ BLACK _ _ _ Hr2)
    as (s3 & Hs3 & Hr3 & Hk3).
  simpl in Hr3. rewrite fill_frame_flip in Hr3.
  destruct (rotate_ok _ _ _ _ _ _ _ _ _ _ _ _ Hr3) as (s4 & Hs4 & Hr4 & Hk4).
  exists s4. split; [|split; [by repeat (eapply keeps_trans; [eassumption|])|done]].
  unfold finish. run (rb_rd_ok _ _ _ Hnx). rewrite Hpx. run (rb_rd_ok _ _ _ Hnp). rewrite Hcp.
  run Hs1. run Hs2. run (rb_rd_ok _ _ _ Hnw). rewrite Hfar. run Hs3. by run Hs4.
Qed.

(** ** Black heights through a round *)

(** A tree of black height [n] whose root, when red, may have red children. *)
Definition almost (t : tree) (n : nat) : Prop :=
  match t with T _ RED _ a b => rb a n ∧ rb b n | _ => rb t n end.

(** What the path above a node of color [c] takes. *)
Definition above (c : Color) (ctx : context) (n : nat) : Prop :=
  match c with
  | BLACK => ctx_rb ctx (S n)
  | RED => ctx ≠ [] ∧ ccolor ctx = BLACK ∧ ctx_rb ctx n
  end.

Lemma rb_almost t n : rb t n → almost t n.
Proof. destruct t as [|x [] k a b]; simpl; tauto. Qed.

Lemma almost_rb t n : almost t n → tcolor t = BLACK → rb t n.
Proof. by destruct t as [|x [] k a b]. Qed.

Lemma rb_mk d x c k a b n : rb (mk d x c k a b) n ↔ rb (T x c k a b) n.
Proof. destruct d; [done|]. destruct c; simpl; [tauto|]. destruct n; tauto. Qed.

Lemma almost_mk d x c k a b n : almost (mk d x c k a b) n ↔ almost (T x c k a b) n.
Proof. destruct d; [done|]. destruct c; simpl; [tauto|]. destruct n; tauto. Qed.

Lemma ctx_rb_frame d x c k b ctx n :
  ctx_rb (frame d x c k b :: ctx) n ↔ rb b n ∧ (c = RED → tcolor b = BLACK) ∧ above c ctx n.
Proof. destruct d, c; simpl; naive_solver. Qed.

Lemma inorder_mk d x c c' k a b a' b' :
  inorder a = inorder a' → inorder b = inorder b' →
  inorder (mk d x c k a b) = inorder (mk d x c' k a' b').
Proof. intros Ha Hb. destruct d; simpl; by rewrite Ha, Hb. Qed.

Lemma inorder_rotate d x cx cx' y cy cy' kx ky a b c :
  inorder (mk d x cx kx a (mk d y cy ky b c)) = inorder (mk d y cy' ky (mk d x cx' kx a b) c).
Proof. destruct d; simpl; by rewrite <- !app_assoc. Qed.

(** The state of the loop of [deleteFixup] at [t]: the path expects one more
    black node than [t] has. *)
Definition climbing (s : state) (ctx : context) (t : tree) : Prop :=
  hole s ctx t ∧ ∃ n, almost t n ∧ ctx_rb ctx (S n).

(** The outcome of cases 2 to 4 below a path [ctx], the keys [ks] unchanged. *)
Definition round_done (s s' : state) (x' : loc) (ctx : context) (cp : Color) (ks : list Z) : Prop :=
  keeps s s' ∧ ∃ ctx' t', climbing s' ctx' t' ∧ x' = pt (NIL s) t' ∧ inorder (plug ctx' t') = ks ∧
    ((ctx' = ctx ∧ tcolor t' = cp) ∨ ctx' = []).

Lemma finish_done s ctx d p cp kp w cw kw wl v kv va vb t n :
  hole s (frame d p cp kp (mk d w cw kw wl (mk d v RED kv va vb)) :: ctx) t →
  rb t n → rb wl n → rb va n → rb vb n → above cp ctx (S n) →
  ∃ x' s', finish d (pt (NIL s) t) w s = Ok (x', s', []) ∧
    round_done s s' x' ctx cp
      (inorder (plug (frame d p cp kp (mk d w cw kw wl (mk d v RED kv va vb)) :: ctx) t)).
Proof.
  intros Hh Ht Hl Ha Hb Hc. destruct (finish_ok _ _ _ _ _ _ _ _ _ _ _ _ _ _ _ Hh) as (s' & Hs' & Hk & Hr).
  exists (root s'), s'. split; [done|]. split; [done|].
  set (t' := mk d w cp kw (mk d p BLACK kp t wl) (mk d v BLACK kv va vb)) in *.
  assert (∃ m, rb (plug ctx t') m) as [m Hm].
  { destruct cp.
    - destruct (plug_rb ctx t' (S n)) as (m & Hm & _); [apply Hc| |by intros _; apply Hc|by exists m].
      apply rb_mk. simpl. rewrite !tcolor_mk, !rb_mk. done.
    - destruct (plug_rb ctx t' (S (S n))) as (m & Hm & _); [apply Hc| | |by exists m].
      + apply rb_mk. simpl. rewrite !rb_mk. done.
      + unfold t'. by rewrite tcolor_mk. }
  exists [], (plug ctx t'). split; [|split; [|split; [|by right]]].
  - split; [|exists m; split; [by apply rb_almost|done]]. apply hole_node; [done|].
    unfold t'. destruct d; apply plug_not_E.
  - rewrite <- (proj1 Hk). apply (rep_root _ _ Hr).
  - simpl. apply inorder_plug_ext. rewrite fill_frame. unfold t'. symmetry.
    transitivity (inorder (mk d p cp kp t (mk d w cp kw wl (mk d v BLACK kv va vb))));
      [|apply inorder_rotate]. apply inorder_mk; [done|]. by apply inorder_mk; [|apply inorder_mk].
Qed.

Lemma case2_done s ctx d p cp kp w kw wl wr t n :
  hole s (frame d p cp kp (mk d w BLACK kw wl wr) :: ctx) t →
  rb t n → rb wl n → rb wr n → tcolor wl = BLACK → tcolor wr = BLACK → above cp ctx (S n) →
  ∃ s', set_color w RED s = Ok (tt, s', []) ∧
    (∃ nx, mem s' !! pt (NIL s) t = Some nx ∧ parent nx = p) ∧
    round_done s s' p ctx cp (inorder (plug (frame d p cp kp (mk d w BLACK kw wl wr) :: ctx) t)).
Proof.
  intros Hh Ht Hl Hr Hlb Hrb Hc. pose proof (proj1 Hh) as Hrep. simpl in Hrep. rewrite fill_frame in Hrep.
  destruct (paint_far _ _ _ _ _ _ _ _ _ RED _ _ _ Hrep) as (s1 & Hs1 & Hr1 & Hk1).
  assert (hole s1 (frame d p cp kp (mk d w RED kw wl wr) :: ctx) t) as Hh1.
  { eapply hole_keeps; [exact Hh|done| |]; simpl; by rewrite ?fill_frame, ?frame_loc. }
  exists s1. split; [done|]. split.
  { destruct Hh1 as [_ (nx & Hnx & Hpx)]. exists nx. rewrite <- (proj1 Hk1). split; [done|].
    rewrite Hpx. simpl. by rewrite frame_loc. }
  split; [done|]. exists ctx, (mk d p cp kp t (mk d w RED kw wl wr)). split.
  - split; [apply hole_node; [done|by destruct d]|].
    assert (rb (mk d w RED kw wl wr) n) as Hw by (by apply rb_mk).
    destruct cp.
    + exists n. rewrite almost_mk. simpl. split; [done|]. apply Hc.
    + exists (S n). rewrite almost_mk. simpl. split; [done|]. apply Hc.
  - rewrite pt_mk, tcolor_mk. split; [done|]. split; [|by left].
    simpl. apply inorder_plug_ext. rewrite fill_frame. by apply inorder_mk; [|apply inorder_mk].
Qed.

Lemma sibling_cases_ok s ctx d p cp kp w kw wl wr t n :
  hole s (frame d p cp kp (mk d w BLACK kw wl wr) :: ctx) t →
  rb t n → tcolor t = BLACK → rb wl n → rb wr n → above cp ctx (S n) →
  ∃ x' s', sibling_cases d (pt (NIL s) t) w s = Ok (x', s', []) ∧
    round_done s s' x' ctx cp (inorder (plug (frame d p cp kp (mk d w BLACK kw wl wr) :: ctx) t)).
Proof.
  intros Hh Ht Htc Hl Hr Hc. pose proof (proj1 Hh) as Hrep. simpl in Hrep.
  rewrite fill_frame, <- fill_frame_flip in Hrep.
  destruct (read_mk s (frame (flip d) p cp kp t :: ctx) d w BLACK kw wl wr Hrep)
    as (nw & Hnw & _ & Hnear & Hfar & _).
  destruct (read_color s (frame d w BLACK kw wr :: frame (flip d) p cp kp t :: ctx) wl)
    as (nn & Hnn & Hnnc); [by simpl; rewrite (fill_frame d w)|].
  destruct (read_color s (frame (flip d) w BLACK kw wl :: frame (flip d) p cp kp t :: ctx) wr)
    as (nf & Hnf & Hnfc); [by simpl; rewrite (fill_frame_flip d w)|].
  unfold sibling_cases. destruct (decide (tcolor wl = BLACK ∧ tcolor wr = BLACK)) as [[Hlb Hrb]|Hnb].
  - destruct (case2_done _ _ _ _ _ _ _ _ _ _ _ _ Hh Ht Hl Hr Hlb Hrb Hc) as (s1 & Hs1 & Hnx & Hdone).
    exists p, s1. split; [|done]. destruct Hnx as (nx & Hnx & Hpx).
    run (rb_rd_ok _ _ _ Hnw). rewrite Hnear, Hfar. run (rb_rd_ok _ _ _ Hnn). run (rb_rd_ok _ _ _ Hnf).
    rewrite decide_True by (by rewrite Hnnc, Hnfc). run Hs1. run (rb_rd_ok _ _ _ Hnx). by rewrite Hpx.
  - assert (∃ w' v kw' wl' kv va vb cw' s1, far_red d (pt (NIL s) t) w nw nf s = Ok (w', s1, []) ∧
      keeps s s1 ∧ hole s1 (frame d p cp kp (mk d w' cw' kw' wl' (mk d v RED kv va vb)) :: ctx) t ∧
      rb wl' n ∧ rb va n ∧ rb vb n ∧
      inorder (mk d w' cw' kw' wl' (mk d v RED kv va vb)) = inorder (mk d w BLACK kw wl wr))
      as (w' & v & kw' & wl' & kv & va & vb & cw' & s1 & Hs1 & Hk1 & Hh1 & Hl1 & Ha1 & Hb1 & Hin).
    { destruct (tcolor wr) eqn:Hwr.
      - destruct (mk_view d wr) as (v & cv & kv & va & vb & ->); [by intros ->|].
        rewrite tcolor_mk in Hwr. subst cv. apply rb_mk in Hr as (_ & _ & Hva & Hvb).
        exists w, v, kw, wl, kv, va, vb, BLACK, s. unfold far_red. by rewrite Hnfc.
      - assert (tcolor wl = RED) as Hwl by (destruct (tcolor wl) eqn:?; tauto).
        destruct (mk_view d wl) as (v & cv & kv & va & vb & ->); [by intros ->|].
        rewrite tcolor_mk in Hwl. subst cv. apply rb_mk in Hl as (_ & _ & Hva & Hvb).
        rewrite pt_mk in Hnear.
        destruct (far_red_ok _ _ _ _ _ _ _ _ _ _ _ _ _ _ _ _ Hh Hnear Hnfc) as (s1 & Hs1 & Hk1 & Hh1).
        exists v, w, kv, va, kw, vb, wr, BLACK, s1.
        split; [done|]. split; [done|]. split; [done|]. split; [done|]. split; [done|]. split; [done|].
        apply inorder_rotate. }
    destruct (finish_done _ _ _ _ _ _ _ _ _ _ _ _ _ _ _ n Hh1 Ht Hl1 Ha1 Hb1 Hc)
      as (x' & s' & Hs' & Hk' & ctx' & t' & Hcl & Hx' & Hin' & Hor).
    rewrite (proj1 Hk1) in Hs', Hx'.
    exists x', s'. split.
    + run (rb_rd_ok _ _ _ Hnw). rewrite Hnear, Hfar. run (rb_rd_ok _ _ _ Hnn). run (rb_rd_ok _ _ _ Hnf).
      rewrite decide_False by (by rewrite Hnnc, Hnfc). by run Hs1.
    + split; [by eapply keeps_trans|]. exists ctx', t'. split; [done|]. split; [done|]. split; [|done].
      rewrite Hin'. simpl. apply inorder_plug_ext. rewrite !fill_frame. by apply inorder_mk.
Qed.

(** ** The loop *)

Lemma fix_side_ok s ctx d p cp kp b t n :
  hole s (frame d p cp kp b :: ctx) t → rb t n → tcolor t = BLACK →
  ctx_rb (frame d p cp kp b :: ctx) (S n) →
  ∃ x' s' ctx' t', fix_side d (pt (NIL s) t) s = Ok (x', s', []) ∧ keeps s s' ∧
    climbing s' ctx' t' ∧ x' = pt (NIL s) t' ∧
    inorder (plug ctx' t') = inorder (plug (frame d p cp kp b :: ctx) t) ∧
    (tcolor t' = RED ∨ (length ctx' ≤ length ctx)%nat).
Proof.
  intros Hh Ht Htc Hc. pose proof (proj1 Hh) as Hrep. simpl in Hrep. rewrite fill_frame in Hrep.
  destruct (proj2 Hh) as (nx & Hnx & Hpx). simpl in Hpx. rewrite frame_loc in Hpx.
  destruct (read_mk _ _ _ _ _ _ _ _ Hrep) as (np & Hnp & _ & _ & Hfar & _).
  apply ctx_rb_frame in Hc as (Hb & Hred & Hab).
  destruct (mk_view d b) as (w & cw & kw & wl & wr & ->); [by intros ->|].
  rewrite <- fill_frame_flip in Hrep.
  destruct (read_mk s (frame (flip d) p cp kp t :: ctx) d w cw kw wl wr Hrep) as (nw & Hnw & Hcw & _).
  rewrite pt_mk in Hfar. apply rb_mk in Hb. rewrite tcolor_mk in Hred.
  unfold fix_side. destruct cw.
  - destruct Hb as (Hlb & Hrb & Hl & Hr). destruct cp; [by specialize (Hred eq_refl)|].
    destruct (mk_view d wl) as (v & cv & kv & va & vb & ->); [by intros ->|].
    rewrite tcolor_mk in Hlb. subst cv. apply rb_mk in Hl as [Hva Hvb].
    destruct (red_sibling_ok _ _ _ _ _ _ _ _ _ _ _ Hh) as (s1 & Hs1 & Hk1 & Hh1).
    destruct (sibling_cases_ok _ _ _ _ _ _ _ _ _ _ _ n Hh1 Ht Htc Hva Hvb)
      as (x' & s' & Hs' & Hk' & ctx' & t' & Hcl & Hx' & Hin & Hor).
    { split; [done|]. split; [by destruct d|]. apply ctx_rb_frame. done. }
    rewrite (proj1 Hk1) in Hs', Hx'.
    exists x', s', ctx', t'. split; [|split; [by eapply keeps_trans|]].
    + run (rb_rd_ok _ _ _ Hnx). rewrite Hpx. run (rb_rd_ok _ _ _ Hnp). rewrite Hfar.
      run (rb_rd_ok _ _ _ Hnw). rewrite Hcw, pt_mk in *. by run Hs1.
    + split; [done|]. split; [done|]. split.
      * rewrite Hin. simpl. apply inorder_plug_ext. rewrite !fill_frame. symmetry. apply inorder_rotate.
      * destruct Hor as [[-> ->]| ->]; [by left|right; simpl; lia].
  - destruct Hb as [Hl Hr].
    destruct (sibling_cases_ok _ _ _ _ _ _ _ _ _ _ _ n Hh Ht Htc Hl Hr Hab)
      as (x' & s' & Hs' & Hk' & ctx' & t' & Hcl & Hx' & Hin & Hor).
    exists x', s', ctx', t'. split; [|split; [done|]].
    + run (rb_rd_ok _ _ _ Hnx). rewrite Hpx. run (rb_rd_ok _ _ _ Hnp). rewrite Hfar.
      run (rb_rd_ok _ _ _ Hnw). rewrite Hcw. refine (bind_Ok _ _ _ _ _ [] _ _ [] eq_refl _). exact Hs'.
    + split; [done|]. split; [done|]. split; [done|]. right. destruct Hor as [[-> _]| ->]; simpl; lia.
Qed.

Lemma pt_plug_in nil ctx t : ctx ≠ [] → pt nil (plug ctx t) ∈ ctx_locs ctx.
Proof.
  revert t. induction ctx as [|f ctx IH]; intros t Hne; [done|]. unfold ctx_locs. simpl.
  apply elem_of_app. destruct ctx as [|g ctx]; [left; destruct f; by left|]. right. by apply IH.
Qed.

Lemma pt_not_in_ctx s ctx t : rep s (plug ctx t) → pt (NIL s) t ∉ ctx_locs ctx.
Proof.
  intros Hr Hin. destruct (rep_focus _ _ _ Hr) as (_ & _ & [Hn (_ & Hd & _)%NoDup_app]%NoDup_cons).
  destruct t as [|x c k a b]; simpl in Hin.
  - apply Hn, elem_of_app. by left.
  - apply (Hd x Hin). by left.
Qed.

Lemma root_test s ctx t : rep s (plug ctx t) → pt (NIL s) t = root s ↔ ctx = [].
Proof.
  intros Hr. rewrite (rep_root _ _ Hr). split; [|by intros ->]. intros He.
  destruct ctx as [|f ctx]; [done|]. destruct (pt_not_in_ctx _ _ _ Hr). rewrite He. by apply pt_plug_in.
Qed.

(** The test [x == x->parent->left]. *)
Lemma side_test s d p cp kp b ctx t n :
  rep s (plug (frame d p cp kp b :: ctx) t) → rb b (S n) →
  ∃ np, mem s !! p = Some np ∧ (pt (NIL s) t = left np ↔ d = L).
Proof.
  intros Hr Hb. pose proof Hr as Hr'. simpl in Hr'. rewrite fill_frame in Hr'.
  destruct (read_mk _ _ _ _ _ _ _ _ Hr') as (np & Hnp & _ & Hnear & Hfar & _). exists np.
  split; [done|]. destruct d; simpl in Hnear, Hfar; [by rewrite Hnear|]. split; [|done].
  rewrite Hfar. intros He. destruct (pt_not_in_ctx _ _ _ Hr). rewrite He.
  destruct b as [|x c k a1 a2]; [done|]. unfold ctx_locs. simpl. right. by left.
Qed.

Lemma delete_fixup_stop fuel s ctx t :
  rep s (plug ctx t) → ctx = [] ∨ tcolor t = RED →
  delete_fixup_loop fuel (pt (NIL s) t) s = Ok (pt (NIL s) t, s, []).
Proof.
  intros Hr Hor. pose proof (root_test _ _ _ Hr) as Hroot.
  destruct (read_color _ _ _ Hr) as (nx & Hnx & Hcx).
  destruct fuel; simpl; refine (bind_Ok _ _ _ _ _ [] _ _ [] eq_refl _);
    (destruct (decide (pt (NIL s) t = root s)); [done|]);
    (destruct Hor as [Hor|Hor]; [tauto|]); run (rb_rd_ok _ _ _ Hnx); by rewrite Hcx, Hor.
Qed.

Lemma delete_fixup_loop_ok fuel s ctx t :
  climbing s ctx t → tcolor t = RED ∨ (length ctx ≤ fuel)%nat →
  ∃ x' s' ctx' t', delete_fixup_loop fuel (pt (NIL s) t) s = Ok (x', s', []) ∧ keeps s s' ∧
    climbing s' ctx' t' ∧ x' = pt (NIL s) t' ∧ inorder (plug ctx' t') = inorder (plug ctx t) ∧
    (ctx' = [] ∨ tcolor t' = RED).
Proof.
  revert s ctx t. induction fuel as [|fuel IH]; intros s ctx t Hcl Hf;
    pose proof Hcl as [[Hrep (nx & Hnx & Hpx)] (n & Ht & Hc)];
    (destruct (decide (ctx = [] ∨ tcolor t = RED)) as [Hor|Hno];
      [exists (pt (NIL s) t), s, ctx, t; split; [by eapply delete_fixup_stop|];
       by split; [apply keeps_refl|]|]).
  { destruct ctx; simpl in Hf; [tauto|]. destruct Hf; [tauto|lia]. }
  assert (tcolor t = BLACK) as Htc by (destruct (tcolor t); tauto).
  assert (∃ d p cp kp b ctx0, ctx = frame d p cp kp b :: ctx0) as (d & p & cp & kp & b & ctx0 & ->).
  { destruct ctx as [|[p cp kp b|p cp kp b] ctx0]; [tauto|by exists L, p, cp, kp, b, ctx0|
      by exists R, p, cp, kp, b, ctx0]. }
  apply almost_rb in Ht; [|done]. pose proof (proj1 (proj1 (ctx_rb_frame _ _ _ _ _ _ _) Hc)) as Hb.
  destruct (side_test _ _ _ _ _ _ _ _ _ Hrep Hb) as (np & Hnp & Hside).
  destruct (fix_side_ok _ _ _ _ _ _ _ _ _ (proj1 Hcl) Ht Htc Hc)
    as (x1 & s1 & ctx1 & t1 & Hs1 & Hk1 & Hcl1 & Hx1 & Hin1 & Hor1).
  destruct (IH s1 ctx1 t1 Hcl1) as (x' & s' & ctx' & t' & Hs' & Hk' & Hcl' & Hx' & Hin' & Hor').
  { simpl in Hf. destruct Hor1; [by left|right]. destruct Hf; [congruence|lia]. }
  rewrite (proj1 Hk1) in Hs', Hx'.
  exists x', s', ctx', t'. split; [|split; [by eapply keeps_trans|]].
  - destruct (read_color _ _ _ Hrep) as (nx' & Hnx' & Hcx). rewrite Hnx in Hnx'. injection Hnx' as <-.
    cbn [delete_fixup_loop]. refine (bind_Ok _ _ _ _ _ [] _ _ [] eq_refl _).
    rewrite decide_False by (by rewrite (root_test _ _ _ Hrep)).
    run (rb_rd_ok _ _ _ Hnx). rewrite Hcx, Htc, Hpx. simpl. rewrite frame_loc. run (rb_rd_ok _ _ _ Hnp).
    refine (bind_Ok _ _ _ _ _ [] _ _ [] _ _); [|rewrite <- Hx1 in Hs'; exact Hs'].
    rewrite <- Hs1. destruct d.
    + rewrite decide_True by tauto. exact (f_equal (λ f, f s) (proj1 (delete_fix_sides _))).
    + rewrite decide_False by (intros He; by apply Hside in He).
      exact (f_equal (λ f, f s) (proj2 (delete_fix_sides _))).
  - split; [done|]. split; [done|]. by rewrite Hin'.
Qed.

(** [NIL] painted black, which it is. *)
Lemma paint_nil s t : rep s t → ∃ s', set_color (NIL s) BLACK s = Ok (tt, s', []) ∧ rep s' t.
Proof.
  intros [Ht Hroot Hnd (n & Hn & Hcol) Hdom]. eexists. split; [apply (set_color_ok _ _ _ _ Hn)|].
  constructor; simpl; [|done|done| |by erewrite rb_dom_write].
  - eapply tree_at_ext; [|exact Ht]. intros l Hl. apply lookup_insert_ne. intros <-.
    by apply NoDup_cons in Hnd as [? _].
  - rewrite lookup_insert_eq. by eexists.
Qed.

Lemma deleteFixup_ok s ctx t :
  climbing s ctx t →
  ∃ s' t', deleteFixup (pt (NIL s) t) s = Ok (tt, s', []) ∧ rep s' t' ∧ red_black t' ∧
    inorder t' = inorder (plug ctx t).
Proof.
  intros Hcl. pose proof (proj1 (proj1 Hcl)) as Hrep.
  destruct (delete_fixup_loop_ok (S (size (mem s))) s ctx t Hcl)
    as (x1 & s1 & ctx1 & t1 & Hs1 & Hk1 & [[Hr1 _] (n & Ht1 & Hc1)] & -> & Hin1 & Hor).
  { right. rewrite (rep_size _ _ Hrep), locs_plug, length_app. pose proof (ctx_length ctx). lia. }
  assert (∃ s' t', set_color (pt (NIL s) t1) BLACK s1 = Ok (tt, s', []) ∧ rep s' t' ∧ red_black t' ∧
    inorder t' = inorder (plug ctx1 t1)) as (s' & t' & Hs' & Hr' & Hrb' & Hin').
  { destruct t1 as [|x c k a b].
    - destruct Hor as [->|?]; [|done]. destruct (paint_nil _ _ Hr1) as (s' & Hs' & Hr').
      rewrite (proj1 Hk1) in Hs'. exists s', E. split; [done|]. split; [done|]. split; [|done].
      split; [done|]. by exists O.
    - destruct (set_color_focus _ _ _ _ BLACK _ _ _ Hr1) as (s' & Hs' & Hr' & _).
      exists s', (plug ctx1 (T x BLACK k a b)). split; [done|]. split; [done|].
      split; [|by apply inorder_plug_ext]. destruct c.
      + destruct (plug_rb ctx1 (T x BLACK k a b) (S n)) as (m & Hm & Hroot); [done..|].
        split; [|by exists m]. destruct ctx1; [done|]. by apply Hroot.
      + destruct Hor as [->|?]; [|done]. split; [done|]. by exists n. }
  exists s', t'. split; [|by rewrite Hin'].
  unfold deleteFixup. refine (bind_Ok _ _ _ _ _ [] _ _ [] eq_refl _). by run Hs1.
Qed.

(** ** Unlinking a node *)

Lemma NoDup_part {A} (l k : list A) : NoDup k → l ⊆+ k → NoDup l.
Proof. intros Hk (k' & Hp)%submseteq_Permutation. rewrite Hp in Hk. by apply NoDup_app in Hk as [? _]. Qed.

Lemma not_in_part {A} x (l k : list A) : NoDup k → x :: l ⊆+ k → x ∉ l.
Proof. intros Hk Hl. apply (NoDup_part _ _ Hk) in Hl. by apply NoDup_cons in Hl as [? _]. Qed.

Lemma ne_part {A} (x y : A) (k : list A) : NoDup k → [x; y] ⊆+ k → x ≠ y.
Proof. intros Hk Hl ->. apply (not_in_part _ _ _ Hk Hl). by left. Qed.

Lemma apart_part {A} x (l1 l2 k : list A) : NoDup k → l1 ++ l2 ⊆+ k → x ∈ l1 → x ∉ l2.
Proof. intros Hk Hl Hx. apply (NoDup_part _ _ Hk) in Hl. apply NoDup_app in Hl as (_ & Hd & _). by apply Hd. Qed.

(** Disjointness from one list without duplicates. *)
Ltac part H := first
  [ apply (NoDup_part _ _ H); simpl; solve_submseteq
  | apply (not_in_part _ _ _ H); simpl; solve_submseteq
  | apply (ne_part _ _ _ H); simpl; solve_submseteq
  | (eapply (apart_part _ _ _ _ H); [|eassumption]); simpl; solve_submseteq ].

Definition nil_black (s : state) : Prop := ∃ n, mem s !! NIL s = Some n ∧ color n = BLACK.

(** The parent pointer of the root of [r], which may be [NIL]. *)
Definition points (s : state) (r : tree) (p : loc) : Prop :=
  ∃ n, mem s !! pt (NIL s) r = Some n ∧ parent n = p.

Lemma changes_mono ls ls' s s' : ls ⊆ ls' → changes ls s s' → changes ls' s s'.
Proof. intros Hl (? & ? & Hk). split; [done|]. split; [done|]. intros l Hn. apply Hk. set_solver. Qed.

Lemma changes_trans ls ls' s1 s2 s3 :
  changes ls s1 s2 → changes ls' s2 s3 → changes (ls ++ ls') s1 s3.
Proof.
  intros (Hn1 & Hd1 & Hk1) (Hn2 & Hd2 & Hk2). split; [congruence|]. split; [congruence|].
  intros l Hl. rewrite Hk2, Hk1; [done|..]; intros Hin; apply Hl, elem_of_app; auto.
Qed.

Lemma changes_tree ls s s' nil par t :
  changes ls s s' → (∀ l, l ∈ locs t → l ∉ ls) → tree_at nil (mem s) par t → tree_at nil (mem s') par t.
Proof. intros (_ & _ & Hk) Hl. apply tree_at_ext. intros l Hin. by apply Hk, Hl. Qed.

Lemma changes_ctx ls s s' nil ctx p :
  changes ls s s' → (∀ l, l ∈ ctx_locs ctx → l ∉ ls) → ctx_at nil (mem s) ctx p → ctx_at nil (mem s') ctx p.
Proof. intros (_ & _ & Hk) Hl. apply ctx_at_ext. intros l Hin. by apply Hk, Hl. Qed.

Lemma changes_nil ls s s' : changes ls s s' → NIL s ∉ ls → nil_black s → nil_black s'.
Proof. intros (Hn & _ & Hk) Hl (n & ? & ?). exists n. rewrite Hn, Hk by done. done. Qed.

Lemma changes_points ls s s' r p : changes ls s s' → pt (NIL s) r ∉ ls → points s r p → points s' r p.
Proof. intros (Hn & _ & Hk) Hl (n & ? & ?). exists n. rewrite Hn, Hk by done. done. Qed.

Lemma write_changes s p n n' :
  mem s !! p = Some n → changes [p] s (mkstate (NIL s) (root s) (<[p := n']> (mem s))).
Proof.
  intros Hp. split; [done|]. split; [by eapply rb_dom_write|]. intros l Hl. apply lookup_insert_ne.
  intros ->. apply Hl. by left.
Qed.

Lemma set_parent_tree s r par p :
  tree_at (NIL s) (mem s) par r → NoDup (NIL s :: locs r) → nil_black s →
  ∃ s', set_parent (pt (NIL s) r) p s = Ok (tt, s', []) ∧ tree_at (NIL s) (mem s') p r ∧
    points s' r p ∧ changes [pt (NIL s) r] s s' ∧ root s' = root s ∧ nil_black s'.
Proof.
  intros Ht Hnd (nn & Hnn & Hcol). destruct r as [|x c k a b].
  - eexists. split; [apply (set_parent_ok _ _ _ _ Hnn)|]. split; [done|].
    split; [eexists; split; [apply lookup_insert_eq|done]|].
    split; [by eapply write_changes|]. split; [done|]. eexists. split; [apply lookup_insert_eq|done].
  - destruct Ht as (Hx & Ha & Hb). eexists. split; [apply (set_parent_ok _ _ _ _ Hx)|].
    pose proof (write_changes s x _ (mkRB k c (pt (NIL s) a) (pt (NIL s) b) p) Hx) as Hch.
    split; [|split; [|split; [done|split; [done|]]]].
    + split; [apply lookup_insert_eq|].
      split; (eapply changes_tree; [exact Hch| |done]); intros l Hl; part Hnd.
    + eexists. split; [apply lookup_insert_eq|done].
    + eapply changes_nil; [exact Hch| |by exists nn]. part Hnd.
Qed.

Lemma transplant_ok s ctx z nz r par :
  mem s !! z = Some nz → parent nz = top (NIL s) ctx → ctx_at (NIL s) (mem s) ctx z →
  tree_at (NIL s) (mem s) par r → NoDup (NIL s :: z :: ctx_locs ctx ++ locs r) → nil_black s →
  ∃ s', transplant z (pt (NIL s) r) s = Ok (tt, s', []) ∧ ctx_at (NIL s) (mem s') ctx (pt (NIL s) r) ∧
    tree_at (NIL s) (mem s') (top (NIL s) ctx) r ∧ points s' r (top (NIL s) ctx) ∧
    changes (ctx_locs ctx ++ [pt (NIL s) r]) s s' ∧ nil_black s' ∧
    root s' = (match ctx with [] => pt (NIL s) r | _ => root s end).
Proof.
  intros Hz Hpar Hc Ht Hnd Hnil.
  destruct (relink_ok s ctx z (pt (NIL s) r) Hc) as (s1 & Hs1 & Hc1 & Hch1 & Hr1); [part Hnd..|].
  pose proof Hch1 as (Hn1 & _ & Hk1).
  assert (mem s1 !! z = Some nz) as Hz1 by (rewrite Hk1; [done|part Hnd]).
  destruct (set_parent_tree s1 r par (top (NIL s) ctx)) as (s2 & Hs2 & Ht2 & Hp2 & Hch2 & Hr2 & Hb2).
  { rewrite Hn1. eapply changes_tree; [exact Hch1| |done]. intros l Hl. part Hnd. }
  { rewrite Hn1. part Hnd. }
  { eapply changes_nil; [exact Hch1| |done]. part Hnd. }
  rewrite Hn1 in *. exists s2. split; [|split; [|split; [done|split; [done|split; [|split; [done|congruence]]]]]].
  - unfold transplant. run (rb_rd_ok _ _ _ Hz). rewrite Hpar. run Hs1. run (rb_rd_ok _ _ _ Hz1).
    by rewrite Hpar.
  - eapply changes_ctx; [exact Hch2| |done]. intros l Hl. destruct r; simpl; part Hnd.
  - by eapply changes_trans.
Qed.

(** The second half of [delete] with two children: [y], its right subtree [b]
    in place, takes the place, the left child and the color of [z]. *)
Definition replace {A} (z y : loc) (v : A) : C state A :=
  transplant z y ;;
  nz ← rd z;
  set_left y (left nz) ;;
  set_parent (left nz) y ;;
  nz ← rd z;
  set_color y (color nz) ;;
  mret v.

Lemma replace_ok {A} s ctx z kz cz a rz y cy ky b par (v : A) :
  mem s !! z = Some (mkRB kz cz (pt (NIL s) a) rz (top (NIL s) ctx)) →
  ctx_at (NIL s) (mem s) ctx z → tree_at (NIL s) (mem s) z a → a ≠ E →
  tree_at (NIL s) (mem s) par (T y cy ky E b) →
  NoDup (NIL s :: z :: ctx_locs ctx ++ locs a ++ y :: locs b) → nil_black s →
  ∃ s', replace z y v s = Ok (v, s', []) ∧ ctx_at (NIL s) (mem s') ctx y ∧
    tree_at (NIL s) (mem s') (top (NIL s) ctx) (T y cz ky a b) ∧
    changes (ctx_locs ctx ++ y :: locs a) s s' ∧
    root s' = (match ctx with [] => y | _ => root s end).
Proof.
  intros Hz Hc Ha Hne Hy Hnd Hnil.
  destruct (transplant_ok s ctx z _ _ _ Hz eq_refl Hc Hy) as (s1 & Hs1 & Hc1 & (Hy1 & _ & Hb1) & _ & Hch1 & Hb & Hr1);
    [part Hnd|done|]. simpl in Hs1, Hc1, Hch1, Hr1.
  pose proof Hch1 as (Hn1 & _ & Hk1).
  assert (mem s1 !! z = Some (mkRB kz cz (pt (NIL s) a) rz (top (NIL s) ctx))) as Hz1
    by (rewrite Hk1; [done|part Hnd]).
  set (s2 := mkstate (NIL s1) (root s1) (<[y := mkRB ky cy (pt (NIL s) a) (pt (NIL s) b) (top (NIL s) ctx)]> (mem s1))).
  assert (changes [y] s1 s2) as Hch2 by (by eapply write_changes).
  assert (changes (ctx_locs ctx ++ [y]) s s2) as Hch12.
  { eapply changes_mono; [|by eapply changes_trans]. set_solver. }
  assert (NIL s2 = NIL s) as Hn2 by exact Hn1.
  destruct (set_parent_tree s2 a z y) as (s3 & Hs3 & Ha3 & _ & Hch3' & Hr3 & _).
  { rewrite Hn2. eapply changes_tree; [exact Hch12| |done]. intros l Hl. part Hnd. }
  { rewrite Hn2. part Hnd. }
  { eapply changes_nil; [exact Hch2| |done]. rewrite Hn1. part Hnd. }
  rewrite Hn2 in *.
  assert (changes (locs a) s2 s3) as Hch3.
  { eapply changes_mono; [|exact Hch3']. destruct a; [done|]. simpl. set_solver. }
  pose proof Hch3 as (Hn3 & _ & Hk3). rewrite Hn2 in Hn3.
  assert (mem s3 !! z = Some (mkRB kz cz (pt (NIL s) a) rz (top (NIL s) ctx))) as Hz3.
  { rewrite Hk3 by part Hnd. unfold s2. simpl. rewrite lookup_insert_ne; [done|part Hnd]. }
  assert (mem s3 !! y = Some (mkRB ky cy (pt (NIL s) a) (pt (NIL s) b) (top (NIL s) ctx))) as Hy3.
  { rewrite Hk3 by part Hnd. unfold s2. simpl. by rewrite lookup_insert_eq. }
  set (s4 := mkstate (NIL s3) (root s3)
    (<[y := mkRB ky cz (pt (NIL s) a) (pt (NIL s) b) (top (NIL s) ctx)]> (mem s3))).
  assert (changes [y] s3 s4) as Hch4 by (by eapply write_changes).
  assert (changes (y :: locs a) s1 s4) as Hch14.
  { eapply changes_mono; [|exact (changes_trans _ _ _ _ _ (changes_trans _ _ _ _ _ Hch2 Hch3) Hch4)].
    set_solver. }
  exists s4. split; [|split; [|split; [|split]]].
  - unfold replace. run Hs1. run (rb_rd_ok _ _ _ Hz1). run (set_left_ok _ _ _ (pt (NIL s) a) Hy1).
    run Hs3. run (rb_rd_ok _ _ _ Hz3). by run (set_color_ok _ _ _ cz Hy3).
  - eapply changes_ctx; [exact Hch14| |done]. intros l Hl. part Hnd.
  - split; [apply lookup_insert_eq|]. split.
    + eapply changes_tree; [exact Hch4| |done]. intros l Hl. part Hnd.
    + eapply changes_tree; [exact Hch14| |done]. intros l Hl. part Hnd.
  - eapply changes_mono; [|exact (changes_trans _ _ _ _ _ Hch1 Hch14)]. set_solver.
  - simpl. rewrite Hr3. exact Hr1.
Qed.

Lemma plug_app ctx ctx' t : plug (ctx ++ ctx') t = plug ctx' (plug ctx t).
Proof. revert t. induction ctx as [|f ctx IH]; intros t; simpl; [done|]. by rewrite IH. Qed.

Lemma ctx_locs_app ctx ctx' : ctx_locs (ctx ++ ctx') = ctx_locs ctx ++ ctx_locs ctx'.
Proof. unfold ctx_locs. by rewrite fmap_app, concat_app. Qed.

(** The first half: [y], the minimum of the right subtree of [z], gives up its
    place and takes the rest of that subtree as its own. *)
Definition detach (z y : loc) (ny : RBNode) : C state unit :=
  if decide (parent ny = z) then set_parent (right ny) y
  else
    transplant y (right ny) ;;
    nz ← rd z;
    set_right y (right nz) ;;
    set_parent (right nz) y.

Definition top_or (p : loc) (ctx : context) : loc := match ctx with [] => p | f :: _ => step_loc f end.

Lemma top_app nil ctx f ctx' : top nil (ctx ++ f :: ctx') = top_or (step_loc f) ctx.
Proof. by destruct ctx. Qed.

Lemma detach_ok s ctx z cz kz a lctx y cy ky r ny :
  rep s (plug ctx (T z cz kz a (plug lctx (T y cy ky E r)))) → mem s !! y = Some ny →
  ∃ s' rz par, detach z y ny s = Ok (tt, s', []) ∧
    mem s' !! z = Some (mkRB kz cz (pt (NIL s) a) rz (top (NIL s) ctx)) ∧
    ctx_at (NIL s) (mem s') ctx z ∧ tree_at (NIL s) (mem s') z a ∧
    tree_at (NIL s) (mem s') par (T y cy ky E (plug lctx r)) ∧ nil_black s' ∧
    points s' r (top_or y lctx) ∧ NIL s' = NIL s ∧ dom (mem s') = dom (mem s) ∧ root s' = root s.
Proof.
  intros Hr Hny.
  assert (plug ctx (T z cz kz a (plug lctx (T y cy ky E r))) =
    plug (lctx ++ FR z cz kz a :: ctx) (T y cy ky E r)) as Hp by (by rewrite plug_app).
  pose proof Hr as Hr0. rewrite Hp in Hr0. clear Hp.
  destruct (rep_focus _ _ _ Hr0) as (Hc & (Hy & _ & Hrt) & Hnd). rewrite Hny in Hy. injection Hy as ->.
  rewrite ctx_locs_app in Hnd. unfold ctx_locs in Hnd at 2. simpl in Hnd. fold (ctx_locs ctx) in Hnd.
  assert (nil_black s) as Hb by apply (rep_nil _ _ Hr).
  unfold detach. simpl. rewrite top_app. simpl. destruct lctx as [|f lctx].
  - destruct (rep_focus _ _ _ Hr) as (Hcz & (Hz & Ha & _) & _). simpl in *.
    destruct (set_parent_tree s r y y Hrt) as (s1 & Hs1 & Hrt1 & Hp1 & Hch & Hroot & Hb1);
      [part Hnd|done|]. pose proof Hch as (Hn1 & Hd1 & Hk1).
    exists s1, y, z. rewrite decide_True by done. split; [done|].
    assert (∀ l, l ∈ z :: y :: locs a ++ ctx_locs ctx → l ∉ [pt (NIL s) r]) as Hne
      by (intros l Hl; destruct r; part Hnd).
    split; [rewrite Hk1; [done|apply Hne; by left]|].
    split; [|split; [|split; [|done]]].
    + eapply changes_ctx; [exact Hch| |done]. intros l Hl. apply Hne. set_solver.
    + eapply changes_tree; [exact Hch| |done]. intros l Hl. apply Hne. set_solver.
    + split; [|split; [done|exact Hrt1]]. rewrite Hk1; [done|]. apply Hne. right. by left.
  - set (l0 := f :: lctx) in *. set (ctx0 := l0 ++ FR z cz kz a :: ctx) in *.
    assert (top_or z l0 ≠ z) as Hfz.
    { simpl. assert (step_loc f ∈ ctx_locs l0) as Hin by (destruct f; by left).
      intros He. rewrite He in Hin. revert Hin. part Hnd. }
    rewrite decide_False by done.
    destruct (transplant_ok s ctx0 y _ r y Hny) as (s1 & Hs1 & Hc1 & Hr1 & Hp1 & Hch1 & Hb1 & Hroot1); [done|done|done| |done|].
    { unfold ctx0. rewrite ctx_locs_app. unfold ctx_locs at 2. simpl. part Hnd. }
    pose proof Hch1 as (Hn1 & Hd1 & Hk1).
    destruct (proj1 (tree_at_plug (NIL s) (mem s1) ctx (T z cz kz a (plug l0 r)))) as [Hcz (Hz & Ha & Hb')].
    { change (T z cz kz a (plug l0 r)) with (fill (FR z cz kz a) (plug l0 r)).
      change (plug ctx (fill (FR z cz kz a) (plug l0 r))) with (plug (FR z cz kz a :: ctx) (plug l0 r)).
      rewrite <- plug_app. by apply tree_at_plug. }
    assert (mem s1 !! y = Some (mkRB ky cy (NIL s) (pt (NIL s) r) (top_or z l0))) as Hy1.
    { rewrite Hk1; [done|]. unfold ctx0. rewrite ctx_locs_app. unfold ctx_locs at 2. simpl.
      destruct r; simpl; part Hnd. }
    set (s2 := mkstate (NIL s1) (root s1)
      (<[y := mkRB ky cy (NIL s) (pt (NIL s) (plug l0 r)) (top_or z l0)]> (mem s1))).
    assert (changes [y] s1 s2) as Hch2 by (by eapply write_changes).
    assert (NIL s2 = NIL s) as Hn2 by exact Hn1.
    destruct (set_parent_tree s2 (plug l0 r) z y) as (s3 & Hs3 & Ht3 & _ & Hch3' & Hroot3 & Hb3).
    { rewrite Hn2. eapply changes_tree; [exact Hch2| |done]. intros l Hl. rewrite locs_plug in Hl. part Hnd. }
    { rewrite Hn2, locs_plug. part Hnd. }
    { eapply changes_nil; [exact Hch2| |done]. rewrite Hn1. part Hnd. }
    rewrite Hn2 in *.
    assert (changes (ctx_locs l0) s2 s3) as Hch3.
    { eapply changes_mono; [|exact Hch3']. intros l ->%list_elem_of_singleton. by apply pt_plug_in. }
    pose proof (changes_trans _ _ _ _ _ Hch2 Hch3) as Hch. pose proof Hch as (Hn3 & Hd3 & Hk3).
    exists s3, (pt (NIL s) (plug l0 r)), (top_or z l0). split; [|split; [|split; [|split; [|split; [|split; [done|split]]]]]].
    + run Hs1. run (rb_rd_ok _ _ _ Hz). run (set_right_ok _ _ _ (pt (NIL s) (plug l0 r)) Hy1). exact Hs3.
    + rewrite Hk3; [done|part Hnd].
    + eapply changes_ctx; [exact Hch| |done]. intros l Hl. part Hnd.
    + eapply changes_tree; [exact Hch| |done]. intros l Hl. part Hnd.
    + split; [|split; [done|exact Ht3]].
      destruct Hch3 as (_ & _ & Hk). rewrite Hk; [apply lookup_insert_eq|part Hnd].
    + eapply changes_points; [exact Hch| |].
      * rewrite Hn1. destruct r; simpl; part Hnd.
      * exact Hp1.
    + split; [congruence|]. split; [congruence|]. rewrite Hroot3. exact Hroot1.
Qed.

Lemma lefts_app ctx ctx' : lefts (ctx ++ ctx') = lefts ctx' ++ lefts ctx.
Proof. induction ctx as [|[] ctx IH]; simpl; [by rewrite app_nil_r|done|]. by rewrite IH, <- app_assoc. Qed.

Lemma rights_app ctx ctx' : rights (ctx ++ ctx') = rights ctx ++ rights ctx'.
Proof. induction ctx as [|[] ctx IH]; simpl; [done| |done]. by rewrite IH, <- app_assoc. Qed.

Lemma treeMinimum_ok fuel s par b :
  tree_at (NIL s) (mem s) par b → NIL s ∉ locs b → b ≠ E → (length (locs b) ≤ fuel)%nat →
  ∃ lctx y cy ky r, b = plug lctx (T y cy ky E r) ∧ lefts lctx = [] ∧
    treeMinimum fuel (pt (NIL s) b) s = Ok (y, s, []).
Proof.
  revert fuel par. induction b as [|x c k a IHa b IHb]; intros fuel par Hb Hn Hne Hf; [done|].
  destruct Hb as (Hx & Ha & Hb). simpl in Hn, Hf. rewrite length_app in Hf.
  destruct a as [|x' c' k' a1 a2] eqn:Ea.
  - exists [], x, c, k, b. split; [done|]. split; [done|].
    destruct fuel; cbn [treeMinimum pt]; run (@eq_refl (res (state * state * list string)) (Ok (s, s, [])));
      run (rb_rd_ok _ _ _ Hx); by rewrite decide_True.
  - rewrite <- Ea in *. destruct fuel as [|fuel]; [lia|].
    destruct (IHa fuel x Ha) as (lctx & y & cy & ky & r & Hp & Hl & Hs);
      [intros Hin; apply Hn; right; apply elem_of_app; by left|by rewrite Ea|lia|].
    exists (lctx ++ [FL x c k b]), y, cy, ky, r. rewrite plug_app, lefts_app, Hl, <- Hp.
    split; [done|]. split; [done|].
    cbn [treeMinimum pt]. run (@eq_refl (res (state * state * list string)) (Ok (s, s, []))).
    run (rb_rd_ok _ _ _ Hx). rewrite decide_False; [done|].
    rewrite Ea. simpl. intros He. apply Hn. right. apply elem_of_app. left. rewrite Ea, <- He. by left.
Qed.

(** What removing the root of the tree at [ctx] leaves: [r] in the hole of the
    last argument but one, the node taken out having had color [c]. *)
Inductive removed (ctx : context) : tree → Color → context → tree → Prop :=
  | removed_right z c k b : removed ctx (T z c k E b) c ctx b
  | removed_left z c k a : a ≠ E → removed ctx (T z c k a E) c ctx a
  | removed_min z c k a lctx y cy ky r :
      a ≠ E → lefts lctx = [] →
      removed ctx (T z c k a (plug lctx (T y cy ky E r))) cy (lctx ++ FR y c ky a :: ctx) r.

(** The tree [t] together with the unlinked node [z]. *)
Record extra (s : state) (z : loc) (t : tree) : Prop := mkextra {
  extra_tree : tree_at (NIL s) (mem s) (NIL s) t;
  extra_root : root s = pt (NIL s) t;
  extra_nodup : NoDup (NIL s :: z :: locs t);
  extra_nil : nil_black s;
  extra_dom : dom (mem s) = list_to_set (NIL s :: z :: locs t)
}.

Lemma extra_intro s s' z ctx t t' :
  rep s (plug ctx t) → NIL s' = NIL s → dom (mem s') = dom (mem s) → nil_black s' →
  ctx_at (NIL s) (mem s') ctx (pt (NIL s) t') → tree_at (NIL s) (mem s') (top (NIL s) ctx) t' →
  root s' = (match ctx with [] => pt (NIL s) t' | _ => root s end) → locs t ≡ₚ z :: locs t' →
  extra s' z (plug ctx t').
Proof.
  intros Hr Hn Hd Hb Hc Ht Hroot Hl.
  assert (locs (plug ctx t) ≡ₚ z :: locs (plug ctx t')) as Hp
    by (by rewrite !locs_plug, Hl, <- Permutation_middle).
  constructor; rewrite ?Hn.
  - by apply tree_at_plug.
  - rewrite Hroot. destruct ctx as [|f ctx]; [done|]. rewrite (rep_root _ _ Hr). by apply pt_plug.
  - rewrite <- Hp. apply (rep_nodup _ _ Hr).
  - done.
  - rewrite Hd, (rep_dom _ _ Hr). apply list_to_set_perm_L. by constructor.
Qed.

Lemma free_extra s z t r p :
  extra s z t → points s r p → pt (NIL s) r ≠ z →
  ∃ s', free_node z s = Ok (tt, s', []) ∧ rep s' t ∧ NIL s' = NIL s ∧ points s' r p.
Proof.
  intros [Ht Hroot Hnd (nn & Hnn & Hcol) Hdom] (n & Hn & Hp) Hne.
  assert (is_Some (mem s !! z)) as [nz Hz].
  { apply elem_of_dom. rewrite Hdom. apply elem_of_list_to_set. right. by left. }
  exists (mkstate (NIL s) (root s) (base.delete z (mem s))).
  assert (NIL s ≠ z) as Hnz by part Hnd.
  split; [|split; [|split; [done|]]].
  - unfold free_node. c_run. by rewrite (free_Some _ _ _ Hz).
  - constructor; simpl; [|done|part Hnd| |].
    + eapply tree_at_ext; [|exact Ht]. intros l Hl. apply lookup_delete_ne. intros ->.
      revert Hl. part Hnd.
    + exists nn. by rewrite lookup_delete_ne.
    + rewrite dom_delete_L, Hdom. apply set_eq. intros l. simpl.
      rewrite elem_of_difference, !elem_of_union, !elem_of_singleton.
      assert (z ∉ locs t) as Hzt by part Hnd. rewrite elem_of_list_to_set.
      split; [tauto|]. intros [->|Hl]; [tauto|]. split; [tauto|]. intros ->. done.
  - exists n. simpl. rewrite lookup_delete_ne by done. done.
Qed.

(** [unlink] when one child is [NIL]: the other child [r] moves up. *)
Lemma move_up s ctx z c k a b r :
  rep s (plug ctx (T z c k a b)) → (a = E ∧ r = b) ∨ (b = E ∧ r = a) →
  ∃ s', transplant z (pt (NIL s) r) s = Ok (tt, s', []) ∧ extra s' z (plug ctx r) ∧
    points s' r (top (NIL s) ctx) ∧ NIL s' = NIL s.
Proof.
  intros Hr Hab. destruct (rep_focus _ _ _ Hr) as (Hc & (Hz & Ha & Hb) & Hnd). simpl in Hc, Hnd.
  assert (locs a ++ locs b = locs r) as Hl
    by (destruct Hab as [[-> ->]|[-> ->]]; simpl; by rewrite ?app_nil_r).
  rewrite Hl in Hnd.
  destruct (transplant_ok s ctx z _ r z Hz eq_refl Hc) as (s' & Hs' & Hc' & Ht' & Hp & (Hn & Hd & _) & Hb' & Hroot).
  { by destruct Hab as [[-> ->]|[-> ->]]. }
  { part Hnd. }
  { apply (rep_nil _ _ Hr). }
  exists s'. split; [done|]. split; [|done]. eapply extra_intro; [exact Hr|done..|]. simpl. by rewrite Hl.
Qed.

#[global] Instance tree_eq_dec : EqDecision tree.
Proof. solve_decision. Defined.

(** The test of a child against [NIL]. *)
Lemma pt_test nil t : nil ∉ locs t → t ≠ E → pt nil t ≠ nil.
Proof. destruct t as [|x c k a b]; [done|]. simpl. intros Hn _ ->. apply Hn. by left. Qed.

Lemma unlink_ok s ctx z c k a b :
  rep s (plug ctx (T z c k a b)) →
  ∃ s' cy ctx' r, unlink z s = Ok ((pt (NIL s) r, cy), s', []) ∧ removed ctx (T z c k a b) cy ctx' r ∧
    extra s' z (plug ctx' r) ∧ points s' r (top (NIL s) ctx') ∧ NIL s' = NIL s.
Proof.
  intros Hr. destruct (rep_focus _ _ _ Hr) as (Hc & (Hz & Ha & Hb) & Hnd). simpl in Hc, Hnd.
  unfold unlink. destruct (decide (a = E)) as [->|Hae]; [|destruct (decide (b = E)) as [->|Hbe]].
  - destruct (move_up s ctx z c k E b b Hr) as (s' & Hs' & Hx & Hp & Hn); [by left|].
    exists s', c, ctx, b. split; [|split; [constructor|done]].
    refine (bind_Ok _ _ _ _ _ [] _ _ [] eq_refl _). run (rb_rd_ok _ _ _ Hz).
    rewrite decide_True by done. by run Hs'.
  - destruct (move_up s ctx z c k a E a Hr) as (s' & Hs' & Hx & Hp & Hn); [by right|].
    exists s', c, ctx, a. split; [|split; [by constructor|done]].
    refine (bind_Ok _ _ _ _ _ [] _ _ [] eq_refl _). run (rb_rd_ok _ _ _ Hz).
    rewrite decide_False by (apply pt_test; [part Hnd|done]).
    rewrite decide_True by done. by run Hs'.
  - destruct (treeMinimum_ok (size (mem s)) s z b Hb) as (lctx & y & cy & ky & r & -> & Hl & Hmin);
      [part Hnd|done| |].
    { rewrite (rep_size _ _ Hr), locs_plug. simpl. rewrite !length_app. simpl. rewrite length_app. lia. }
    pose proof Hnd as Hnd'. rewrite locs_plug in Hnd'. simpl in Hnd'.
    pose proof Hr as Hry. change (plug ctx (T z c k a (plug lctx (T y cy ky E r)))) with
      (plug (FR z c k a :: ctx) (plug lctx (T y cy ky E r))) in Hry. rewrite <- plug_app in Hry.
    pose proof (focus_node _ _ _ _ _ _ _ Hry) as Hy.
    destruct (detach_ok _ _ _ _ _ _ _ _ _ _ _ _ Hr Hy)
      as (s1 & rz & par & Hs1 & Hz1 & Hc1 & Ha1 & Hy1 & Hb1 & Hp1 & Hn1 & Hd1 & Hr1).
    rewrite <- Hn1 in Hz1, Hc1, Ha1, Hy1.
    destruct (replace_ok s1 ctx z k c a rz y cy ky (plug lctx r) par (pt (NIL s) r, cy) Hz1 Hc1 Ha1 Hae Hy1)
      as (s2 & Hs2 & Hc2 & Ht2 & Hch2 & Hr2); [|done|].
    { rewrite Hn1, locs_plug. part Hnd'. }
    pose proof Hch2 as (Hn2 & Hd2 & _). rewrite Hn1 in *.
    exists s2, cy, (lctx ++ FR y c ky a :: ctx), r. split; [|split; [by constructor|split; [|split; [|done]]]].
    + refine (bind_Ok _ _ _ _ _ [] _ _ [] eq_refl _). run (rb_rd_ok _ _ _ Hz).
      rewrite decide_False by (apply pt_test; [part Hnd|done]).
      rewrite decide_False by (apply pt_test; [part Hnd|done]).
      run Hmin. run (rb_rd_ok _ _ _ Hy). run Hs1. exact Hs2.
    + rewrite plug_app. simpl. eapply extra_intro; [exact Hr|done|congruence| |done|done|by rewrite Hr2, Hr1|].
      * eapply changes_nil; [exact Hch2| |done]. rewrite Hn1. part Hnd'.
      * simpl. rewrite !locs_plug. simpl. solve_Permutation.
    + rewrite top_app. eapply changes_points; [exact Hch2| |done]. rewrite Hn1. destruct r; simpl; part Hnd'.
Qed.

(** ** Search *)

(** The subtree whose root has the key, with the path to it. *)
Fixpoint find (k : Z) (t : tree) (ctx : context) : option (context * tree) :=
  match t with
  | E => None
  | T x c k' a b =>
      if k =? k' then Some (ctx, t)
      else if k <? k' then find k a (FL x c k' b :: ctx) else find k b (FR x c k' a :: ctx)
  end.

Lemma search_loop_ok fuel s k par t ctx :
  tree_at (NIL s) (mem s) par t → NIL s ∉ locs t → (length (locs t) ≤ fuel)%nat →
  search_loop fuel k (pt (NIL s) t) s = Ok (pt (NIL s) ∘ snd <$> find k t ctx, s, []).
Proof.
  revert t par ctx. induction fuel as [|fuel IH]; intros t par ctx Ht Hn Hf;
    (destruct t as [|x c k' a b];
     [cbn [search_loop pt]; run (@eq_refl (res (state * state * list string)) (Ok (s, s, [])));
      by rewrite decide_True|]).
  { simpl in Hf. lia. }
  destruct Ht as (Hx & Ha & Hb). simpl in Hn, Hf. rewrite length_app in Hf.
  apply not_elem_of_cons in Hn as [Hxn Hn]. apply not_elem_of_app in Hn as [Hna Hnb].
  cbn [search_loop pt find]. run (@eq_refl (res (state * state * list string)) (Ok (s, s, []))).
  rewrite decide_False by done. run (rb_rd_ok _ _ _ Hx).
  destruct (k =? k'); [done|]. destruct (k <? k'); [apply (IH a x)|apply (IH b x)]; done || lia.
Qed.

Lemma find_Some k t ctx ctx' t' :
  find k t ctx = Some (ctx', t') → plug ctx' t' = plug ctx t ∧ ∃ x c a b, t' = T x c k a b.
Proof.
  revert ctx. induction t as [|x c k' a IHa b IHb]; intros ctx; simpl; [done|].
  destruct (Z.eqb_spec k k') as [->|_].
  - intros [= <- <-]. split; [done|]. by eexists _, _, _, _.
  - destruct (k <? k'); [apply IHa|apply IHb].
Qed.

Lemma find_None k t ctx : sorted_keys id (inorder t) → find k t ctx = None → k ∉ inorder t.
Proof.
  revert ctx. induction t as [|x c k' a IHa b IHb]; intros ctx Hs; simpl; [intros _ ?%elem_of_nil; done|].
  simpl in Hs. apply sorted_mid in Hs as (Hsa & Hsb & Hak & Hkb). rewrite elem_of_app, elem_of_cons.
  destruct (Z.eqb_spec k k') as [|Hne]; [done|]. rewrite Forall_forall in Hak, Hkb. unfold id in *.
  destruct (Z.ltb_spec k k'); [intros Hf%IHa|intros Hf%IHb]; try done; intros [Hin|[?|Hin]]; try done.
  - specialize (Hkb _ Hin). lia.
  - specialize (Hak _ Hin). lia.
Qed.

(** ** Keys and black heights after unlinking *)

Lemma removed_inorder ctx z c k a b cy ctx' r :
  removed ctx (T z c k a b) cy ctx' r →
  ∃ l l', inorder (plug ctx (T z c k a b)) = l ++ k :: l' ∧ inorder (plug ctx' r) = l ++ l'.
Proof.
  intros Hrm. remember (T z c k a b) as t eqn:Ht.
  destruct Hrm as [z' c' k' b'|z' c' k' a' Ha|z' c' k' a' lctx y cy ky r Ha Hl];
    injection Ht as -> -> -> <- <-; rewrite !inorder_plug; simpl.
  - by exists (lefts ctx), (inorder b' ++ rights ctx).
  - exists (lefts ctx ++ inorder a'), (rights ctx). by rewrite <- !app_assoc.
  - rewrite lefts_app, rights_app, inorder_plug, Hl. simpl.
    exists (lefts ctx ++ inorder a'), (ky :: inorder r ++ rights lctx ++ rights ctx).
    rewrite app_nil_r, <- !app_assoc. simpl. by rewrite <- app_assoc.
Qed.

(** The frame of [z] can take the address and the key of [y]. *)
Lemma ctx_rb_rename lctx z y c k k' a ctx n :
  ctx_rb (lctx ++ FR z c k a :: ctx) n → ctx_rb (lctx ++ FR y c k' a :: ctx) n.
Proof.
  revert n. induction lctx as [|f lctx IH]; intros n; simpl; [done|].
  intros [Hs Hc]. split; [done|]. destruct (scolor f); [|by apply IH].
  destruct Hc as (Hsc & Hne & Hcc & Hc). split; [done|]. split; [by destruct lctx|].
  split; [by destruct lctx|by apply IH].
Qed.

Lemma removed_rb ctx t cy ctx' r m :
  removed ctx t cy ctx' r → rb (plug ctx t) m → tcolor (plug ctx t) = BLACK →
  match cy with
  | RED => red_black (plug ctx' r)
  | BLACK => ∃ n, rb r n ∧ ctx_rb ctx' (S n)
  end.
Proof.
  intros Hrm Hm Hroot.
  assert (∃ n, ctx_rb ctx' n ∧ ∃ x k, rb (T x cy k E r) n ∨ rb (T x cy k r E) n) as (n & Hc & x & k & Hr).
  { destruct Hrm as [z c k b|z c k a Ha|z c k a lctx y cy ky r Ha Hl].
    - destruct (unplug_rb _ _ _ Hm Hroot) as (n & Hc & Hrb & _). exists n. split; [done|]. exists z, k. by left.
    - destruct (unplug_rb _ _ _ Hm Hroot) as (n & Hc & Hrb & _). exists n. split; [done|]. exists z, k. by right.
    - change (plug ctx (T z c k a (plug lctx (T y cy ky E r)))) with
        (plug (FR z c k a :: ctx) (plug lctx (T y cy ky E r))) in Hm, Hroot.
      rewrite <- plug_app in Hm, Hroot.
      destruct (unplug_rb _ _ _ Hm Hroot) as (n & Hc & Hrb & _). exists n.
      split; [by eapply ctx_rb_rename|]. exists y, ky. by left. }
  destruct cy.
  - assert (rb r n ∧ tcolor r = BLACK) as [Hrb Hrc] by (simpl in Hr; tauto).
    destruct (plug_rb ctx' r n) as (m' & Hm' & Hb); [done|done|congruence|].
    split; [|by exists m']. destruct ctx'; [done|]. by apply Hb.
  - destruct n as [|n]; [simpl in Hr; tauto|]. exists n. split; [|done]. simpl in Hr. tauto.
Qed.

End RbDel.

Section RbDeleteTheorem.
Import Rb RbSpec RbDel.

(** A red-black tree whose keys increase from left to right. *)
Definition search_tree (t : tree) : Prop := red_black t ∧ sorted_keys id (inorder t).

(** C1: [delete] from a red-black tree with increasing keys: it never touches
    freed memory, its loops end, the node is freed, and the memory then holds a
    red-black tree with increasing keys and exactly the key removed; of a key that is not there it
    changes nothing. *)
Theorem rb_delete_correct (s : state) (t : tree) (k : Z) :
  rep s t → search_tree t →
  ∃ s' t', delete k s = Ok (tt, s', []) ∧ rep s' t' ∧ search_tree t' ∧
    inorder t' = ldelete id k (inorder t).
Proof.
  intros Hr [[Hroot [m Hm]] Hs].
  enough (∃ s' t', delete k s = Ok (tt, s', []) ∧ rep s' t' ∧ red_black t' ∧ inorder t' = ldelete id k (inorder t))
    as (s' & t' & ? & ? & ? & E).
  { exists s', t'. split_and!; try done. split; [done|]. rewrite E. by apply sorted_ldelete. }
  unfold delete.
  assert (search k s = Ok (pt (NIL s) ∘ snd <$> find k t [], s, [])) as Hsearch.
  { unfold search. refine (bind_Ok _ _ _ _ _ [] _ _ [] eq_refl _). rewrite (rep_root _ _ Hr).
    pose proof (rep_nodup _ _ Hr) as [Hn _]%NoDup_cons.
    eapply search_loop_ok; [apply (rep_tree _ _ Hr)|done|]. rewrite (rep_size _ _ Hr). lia. }
  destruct (find k t []) as [[ctx t0]|] eqn:Hf; simpl in Hsearch.
  - apply find_Some in Hf as (Hp & z & c & a & b & ->). simpl in Hp, Hsearch. subst t.
    destruct (unlink_ok _ _ _ _ _ _ _ Hr) as (s1 & cy & ctx' & r & Hs1 & Hrm & Hx & Hpts & Hn1).
    destruct (free_extra s1 z _ r _ Hx Hpts) as (s2 & Hs2 & Hr2 & Hn2 & Hpts2).
    { pose proof (extra_nodup _ _ _ Hx) as Hnd. rewrite locs_plug in Hnd. destruct r; simpl in *; part Hnd. }
    destruct (removed_inorder _ _ _ _ _ _ _ _ _ Hrm) as (l & l' & Hk & Hk').
    rewrite Hk in Hs |- *. apply (sorted_mid id) in Hs as (_ & _ & Hl & Hl').
    rewrite (ldelete_pivot_eq id k), <- Hk' by done.
    pose proof (removed_rb _ _ _ _ _ _ Hrm Hm Hroot) as Hrb.
    assert (∃ s' t', (match cy with BLACK => deleteFixup (pt (NIL s) r) | RED => mret tt end) s2 = Ok (tt, s', []) ∧
      rep s' t' ∧ red_black t' ∧ inorder t' = inorder (plug ctx' r)) as (s' & t' & Hs' & Hfin).
    { destruct cy; [by exists s2, (plug ctx' r)|]. destruct Hrb as (n & Hrb & Hc).
      assert (climbing s2 ctx' r) as Hcl.
      { split; [|exists n; split; [by apply rb_almost|done]]. split; [done|]. rewrite Hn2, Hn1.
        unfold points in Hpts2. by rewrite Hn2, Hn1 in Hpts2. }
      destruct (deleteFixup_ok _ _ _ Hcl) as (s' & t' & Hs' & ?). rewrite Hn2, Hn1 in Hs'. by exists s', t'. }
    exists s', t'. split; [|done]. run Hsearch. run Hs1. by run Hs2.
  - exists s, t. split; [by run Hsearch|]. split; [done|]. split; [by split; eauto|].
    symmetry. apply ldelete_id, Forall_forall. intros y Hy He. unfold id in He. subst y.
    by apply (find_None _ _ _ Hs Hf).
Qed.

Definition sample : state := mkstate 1 2 (list_to_map [
  (1%positive, mkRB 0 BLACK 1 1 1); (2%positive, mkRB 20 BLACK 3 4 1);
  (3%positive, mkRB 10 RED 1 1 2); (4%positive, mkRB 30 RED 1 1 2)]).

Definition sample_tree : tree := T 2 BLACK 20 (T 3 RED 10 E E) (T 4 RED 30 E E).

Lemma rep_sample : rep sample sample_tree.
Proof.
  constructor; [vm_compute; tauto|done|apply (bool_decide_unpack _); by vm_compute| |].
  - eexists. by split.
  - apply (bool_decide_unpack _). by vm_compute.
Qed.

Lemma rb_delete_correct_witness :
  ∃ s' t', delete 20 sample = Ok (tt, s', []) ∧ rep s' t' ∧ search_tree t' ∧ inorder t' = [10; 30].
Proof.
  refine (rb_delete_correct sample sample_tree 20 rep_sample _). split.
  - split; [done|]. exists 1%nat. vm_compute. tauto.
  - repeat constructor.
Defined.

End RbDeleteTheorem.
