(* ===== verification/BTree.v ===== *)
(** * The B-trees of [day-7(B-Tree)]

    [BTreeSearch] models b-tree.c (a search in a tree built by hand) and [BTree]
    models b-tree-dynamic-insertion.c, both over an explicit memory of nodes with
    their fixed-size arrays.  [BTreeSpec] relates the memory of [BTree] to trees
    and proves insertion and search. *)
From stdpp Require Import base list gmap strings pretty sorting.
From Stdlib Require Import ZArith Lia.
From S2P Require Import Prelude.
Local Open Scope Z_scope.

Abbreviation loc := positive.

(** [#define MAX 3]: the most keys of a node, in all three files. *)
Definition MAX : Z := 3.

(** [while (i < count && key > keys[i]) i++], from [i]. *)
Fixpoint scan (fuel : nat) (keys : list (option Z)) (count key i : Z) : res Z :=
  if i <? count then
    x ← uget keys i;
    if key >? x then
      match fuel with O => UB OutOfFuel | S fuel => scan fuel keys count key (i + 1) end
    else Ok i
  else Ok i.

(** ** [b-tree.c] *)
Module BTreeSearch.

(** [createNode] leaves the last child pointer without a value. *)
Record BTreeNode : Set := mkNode {
  keys : list (option Z); child : list (option ptr); count : Z; isleaf : bool }.

Abbreviation heap := (gmap loc BTreeNode).

Definition rd (p : ptr) : C heap BTreeNode := h ← get; lift (load h p).
Definition wr (p : ptr) (n : BTreeNode) : C heap unit :=
  h ← get; h' ← lift (store h p n); put h'.

Definition createNode (isleaf : bool) : C heap ptr :=
  h ← get;
  let '(l, h') := malloc h (mkNode [None; None; None] [Some None; Some None; Some None; None] 0 isleaf) in
  put h' ;; mret (Some l).

Fixpoint searchKey (fuel : nat) (keyToBeSearched : Z) (root : ptr) : C heap bool :=
  match root with
  | None => mret false
  | Some _ =>
      n ← rd root;
      i ← lift (scan (length (keys n)) (keys n) (count n) keyToBeSearched 0);
      hit ← lift (if i <? count n then x ← uget (keys n) i; Ok (keyToBeSearched =? x) else Ok false);
      if hit : bool then mret true
      else if isleaf n then mret false
      else
        c ← lift (uget (child n) i);
        match fuel with
        | O => lift (UB OutOfFuel)
        | S fuel => searchKey fuel keyToBeSearched c
        end
  end.

Definition set_key (p : ptr) (i k : Z) : C heap unit :=
  n ← rd p; ks ← lift (aset (keys n) i (Some k)); wr p (mkNode ks (child n) (count n) (isleaf n)).
Definition set_count (p : ptr) (c : Z) : C heap unit :=
  n ← rd p; wr p (mkNode (keys n) (child n) c (isleaf n)).
Definition set_child (p : ptr) (i : Z) (c : ptr) : C heap unit :=
  n ← rd p; cs ← lift (aset (child n) i (Some c)); wr p (mkNode (keys n) cs (count n) (isleaf n)).
Definition child_of (p : ptr) (i : Z) : C heap ptr := n ← rd p; lift (uget (child n) i).

Definition build : C heap ptr :=
  root ← createNode false;
  set_key root 0 10 ;; set_key root 1 20 ;; set_count root 2 ;;
  c ← createNode true; set_child root 0 c ;;
  c ← createNode true; set_child root 1 c ;;
  c ← createNode true; set_child root 2 c ;;
  c ← child_of root 0; set_key c 0 5 ;; set_key c 1 8 ;; set_count c 2 ;;
  c ← child_of root 1; set_key c 0 12 ;; set_key c 1 15 ;; set_key c 2 18 ;; set_count c 3 ;;
  c ← child_of root 2; set_key c 0 25 ;; set_key c 1 30 ;; set_count c 2 ;;
  mret root.

Definition found_text (k : Z) (b : bool) : string :=
  d k +:+ " key is " +:+ (if b then "found" else "not found") +:+ " in the B-Tree " +:+ nl.

Definition main : C heap unit :=
  root ← build;
  for_each (λ k, b ← searchKey 4 k root; printf (found_text k b)) [15; 9; 25; 100].

End BTreeSearch.

Example btree_search_main :
  run_output BTreeSearch.main (∅ : BTreeSearch.heap) =
  Ok [BTreeSearch.found_text 15 true; BTreeSearch.found_text 9 false;
      BTreeSearch.found_text 25 true; BTreeSearch.found_text 100 false].
Proof. vm_compute. reflexivity. Qed.

(** ** [b-tree-dynamic-insertion.c] *)
Module BTree.

Record BTreeNode : Set := mkNode {
  keys : list (option Z); count : Z; child : list ptr; isLeaf : bool }.

Abbreviation heap := (gmap loc BTreeNode).

Definition rd (p : ptr) : C heap BTreeNode := h ← get; lift (load h p).
Definition wr (p : ptr) (n : BTreeNode) : C heap unit :=
  h ← get; h' ← lift (store h p n); put h'.

Definition createNode (isLeaf : bool) : C heap ptr :=
  h ← get;
  let '(l, h') := malloc h (mkNode [None; None; None] 0 [None; None; None; None] isLeaf) in
  put h' ;; mret (Some l).

Fixpoint searchKey (fuel : nat) (key : Z) (root : ptr) : C heap bool :=
  match root with
  | None => mret false
  | Some _ =>
      n ← rd root;
      i ← lift (scan (length (keys n)) (keys n) (count n) key 0);
      hit ← lift (if i <? count n then x ← uget (keys n) i; Ok (key =? x) else Ok false);
      if hit : bool then mret true
      else if isLeaf n then mret false
      else
        c ← lift (aget (child n) i);
        match fuel with
        | O => lift (UB OutOfFuel)
        | S fuel => searchKey fuel key c
        end
  end.

(** [dst[j] = src[off + j]] for every [j] in turn. *)
Fixpoint copy {A} (src dst : list A) (off : Z) (js : list Z) : res (list A) :=
  match js with
  | [] => Ok dst
  | j :: js => x ← aget src (off + j); dst ← aset dst j x; copy src dst off js
  end.

(** [a[j+1] = a[j]] for every [j] in turn. *)
Fixpoint shift {A} (a : list A) (js : list Z) : res (list A) :=
  match js with
  | [] => Ok a
  | j :: js => x ← aget a j; a ← aset a (j + 1) x; shift a js
  end.

(** The values of [for (int j = hi; j >= lo; j--)]. *)
Definition down_from (hi lo : Z) : list Z := reverse (seqZ lo (hi - lo + 1)).

Definition mid : Z := MAX / 2.

Definition splitChild (parent : ptr) (idx : Z) (fullChild : ptr) : C heap unit :=
  f ← rd fullChild;
  newNode ← createNode (isLeaf f);
  n ← rd newNode;
  let cnt := MAX - mid - 1 in
  ks ← lift (copy (keys f) (keys n) (mid + 1) (seqZ 0 cnt));
  cs ← lift (if isLeaf f then Ok (child n)
             else copy (child f) (child n) (mid + 1) (seqZ 0 (cnt + 1)));
  wr newNode (mkNode ks cnt cs (isLeaf n)) ;;
  wr fullChild (mkNode (keys f) mid (child f) (isLeaf f)) ;;
  p ← rd parent;
  cs ← lift (shift (child p) (down_from (count p) (idx + 1)));
  cs ← lift (aset cs (idx + 1) newNode);
  ks ← lift (shift (keys p) (down_from (count p - 1) idx));
  k ← lift (uget (keys f) mid);
  ks ← lift (aset ks idx (Some k));
  wr parent (mkNode ks (count p + 1) cs (isLeaf p)).

(** The loop of a leaf from [i = n - 1] down: the keys after it, and [i + 1]. *)
Fixpoint slide (n : nat) (keys : list (option Z)) (key : Z) : res (list (option Z) * Z) :=
  match n with
  | O => Ok (keys, 0)
  | S i =>
      x ← uget keys (Z.of_nat i);
      if key <? x then
        keys ← aset keys (Z.of_nat i + 1) (Some x);
        slide i keys key
      else Ok (keys, Z.of_nat i + 1)
  end.

(** The loop of an inner node from [i = n - 1] down: [i + 1]. *)
Fixpoint back (n : nat) (keys : list (option Z)) (key : Z) : res Z :=
  match n with
  | O => Ok 0
  | S i =>
      x ← uget keys (Z.of_nat i);
      if key <? x then back i keys key else Ok (Z.of_nat i + 1)
  end.

Fixpoint insertWhenNonFull (fuel : nat) (node : ptr) (key : Z) : C heap unit :=
  n ← rd node;
  if isLeaf n then
    '(ks, i) ← lift (slide (Z.to_nat (count n)) (keys n) key);
    ks ← lift (aset ks i (Some key));
    wr node (mkNode ks (count n + 1) (child n) (isLeaf n))
  else
    i ← lift (back (Z.to_nat (count n)) (keys n) key);
    c ← lift (aget (child n) i);
    nc ← rd c;
    i ← (if count nc =? MAX then
           splitChild node i c ;;
           n ← rd node;
           x ← lift (uget (keys n) i);
           mret (if key >? x then i + 1 else i)
         else mret i);
    n ← rd node;
    c ← lift (aget (child n) i);
    match fuel with
    | O => lift (UB OutOfFuel)
    | S fuel => insertWhenNonFull fuel c key
    end.

(** A path is no longer than the memory. *)
Definition insert (key : Z) (root : ptr) : C heap ptr :=
  match root with
  | None =>
      root ← createNode true;
      n ← rd root;
      ks ← lift (aset (keys n) 0 (Some key));
      wr root (mkNode ks 1 (child n) (isLeaf n)) ;;
      mret root
  | Some _ =>
      n ← rd root;
      if count n =? MAX then
        newRoot ← createNode false;
        r ← rd newRoot;
        cs ← lift (aset (child r) 0 root);
        wr newRoot (mkNode (keys r) (count r) cs (isLeaf r)) ;;
        splitChild newRoot 0 root ;;
        r ← rd newRoot;
        x ← lift (uget (keys r) 0);
        let i := if key >? x then 1 else 0 in
        c ← lift (aget (child r) i);
        h ← get;
        insertWhenNonFull (size h) c key ;;
        mret newRoot
      else
        h ← get;
        insertWhenNonFull (size h) root key ;;
        mret root
  end.

Fixpoint display (fuel : nat) (root : ptr) (level : Z) : C heap unit :=
  match root with
  | None => mret tt
  | Some _ =>
      n ← rd root;
      for_each (λ _, printf "    ") (seqZ 0 level) ;;
      printf "[" ;;
      for_each (λ i,
        x ← lift (uget (keys n) i);
        printf (d x) ;;
        if i <? count n - 1 then printf " | " else mret tt) (seqZ 0 (count n)) ;;
      printf ("]" +:+ nl) ;;
      for_each (λ i,
        c ← lift (aget (child n) i);
        match c with
        | None => mret tt
        | Some _ =>
            match fuel with O => lift (UB OutOfFuel) | S fuel => display fuel c (level + 1) end
        end) (seqZ 0 (count n + 1))
  end.

Fixpoint insert_all (ks : list Z) (root : ptr) : C heap ptr :=
  match ks with
  | [] => mret root
  | k :: ks => root ← insert k root; insert_all ks root
  end.

Definition main : C heap unit :=
  root ← insert_all [10; 20; 5; 6; 12; 30; 7; 17] None;
  printf ("Data inserted successfully " +:+ nl) ;;
  h ← get;
  display (size h) root 0 ;;
  for_each (λ k,
    b ← searchKey (size h) k root;
    printf (d k +:+ " key is " +:+ (if b : bool then "found" else "not found") +:+ " in the B-Tree " +:+ nl))
    [6; 15; 30].

End BTree.

Example btree_main :
  String.concat EmptyString <$> (match run_output BTree.main (∅ : BTree.heap) with Ok o => Some o | UB _ => None end) =
  Some ("Data inserted successfully " +:+ nl +:+ "[10 | 20]" +:+ nl +:+ "    [5 | 6 | 7]" +:+ nl
        +:+ "    [12 | 17]" +:+ nl +:+ "    [30]" +:+ nl
        +:+ "6 key is found in the B-Tree " +:+ nl +:+ "15 key is not found in the B-Tree " +:+ nl
        +:+ "30 key is found in the B-Tree " +:+ nl).
Proof. vm_compute. reflexivity. Qed.

(** ** Trees in memory *)
Module BTreeSpec.
Import BTree.

(** A tree with the addresses of its nodes; a leaf has no children. *)
#[warnings="-register-all"]
Inductive btree : Set := Node (x : loc) (ks : list Z) (cs : list btree).

Definition addr (t : btree) : loc := match t with Node x _ _ => x end.
Definition nkeys (t : btree) : nat := match t with Node _ ks _ => length ks end.

(** The lists of the children with the keys between them. *)
Fixpoint weave (ks : list Z) (ls : list (list Z)) {struct ls} : list Z :=
  match ls, ks with
  | [], _ => ks
  | l :: ls, k :: ks => l ++ k :: weave ks ls
  | l :: _, [] => l
  end.

Fixpoint inorder (t : btree) : list Z :=
  match t with Node _ ks cs => weave ks (map inorder cs) end.

Fixpoint locs (t : btree) : list loc :=
  match t with Node x _ cs => x :: concat (map locs cs) end.

(** The node holds the keys [ks] and the child pointers [ps]; the rest of its
    arrays is arbitrary, but a leaf has no child pointer at all. *)
Record holds (n : BTreeNode) (ks : list Z) (ps : list loc) (leaf : bool) : Prop := mkholds {
  holds_keys : take (length ks) (keys n) = Some <$> ks;
  holds_klen : length (keys n) = 3%nat;
  holds_count : count n = Z.of_nat (length ks);
  holds_child : take (length ps) (child n) = Some <$> ps;
  holds_clen : length (child n) = 4%nat;
  holds_leaf : isLeaf n = leaf;
  holds_null : leaf = true → child n = [None; None; None; None]
}.

(** All leaves of [t] are [n] levels down, and every node below the root has
    one to three keys. *)
Fixpoint bt (h : heap) (n : nat) (t : btree) : Prop :=
  match t with
  | Node x ks cs =>
      (∃ nd, h !! x = Some nd ∧
        holds nd ks (map addr cs) (match n with O => true | S _ => false end)) ∧
      match n with
      | O => cs = []
      | S n => length cs = S (length ks) ∧ Forall (λ c, bt h n c ∧ (1 ≤ nkeys c ≤ 3)%nat) cs
      end
  end.

Definition leaf_at (n : nat) : bool := match n with O => true | S _ => false end.

Lemma bt_eq h n x ks cs :
  bt h n (Node x ks cs) ↔
  (∃ nd, h !! x = Some nd ∧ holds nd ks (map addr cs) (leaf_at n)) ∧
  length cs = (if leaf_at n then 0 else S (length ks))%nat ∧
  Forall (λ c, bt h (Nat.pred n) c ∧ (1 ≤ nkeys c ≤ 3)%nat) cs.
Proof.
  destruct n; simpl; [|done]. split; [intros [? ->]; auto|]. intros (? & Hl & _).
  split; [done|]. by destruct cs.
Qed.

Lemma holds_le n ks ps leaf : holds n ks ps leaf → (length ks ≤ 3)%nat.
Proof.
  intros Hn. pose proof (f_equal length (holds_keys _ _ _ _ Hn)) as Hl.
  rewrite length_take, length_fmap, (holds_klen _ _ _ _ Hn) in Hl. lia.
Qed.

Lemma holds_key n ks ps leaf (i : nat) k :
  holds n ks ps leaf → ks !! i = Some k → uget (keys n) (Z.of_nat i) = Ok k.
Proof.
  intros Hn Hk. unfold uget. rewrite (aget_lookup _ _ (Some k)); [done|].
  apply lookup_lt_Some in Hk as Hi.
  rewrite <- (lookup_take_lt (keys n) (length ks)), (holds_keys _ _ _ _ Hn), list_lookup_fmap, Hk by done.
  done.
Qed.

Lemma holds_ptr n ks ps leaf (i : nat) p :
  holds n ks ps leaf → ps !! i = Some p → aget (child n) (Z.of_nat i) = Ok (Some p).
Proof.
  intros Hn Hp. apply aget_lookup. apply lookup_lt_Some in Hp as Hi.
  rewrite <- (lookup_take_lt (child n) (length ps)), (holds_child _ _ _ _ Hn), list_lookup_fmap, Hp by done.
  done.
Qed.

Lemma elem_of_concat {A B} (f : A → list B) (cs : list A) y :
  y ∈ concat (map f cs) ↔ ∃ c, c ∈ cs ∧ y ∈ f c.
Proof.
  induction cs as [|c cs IH]; simpl.
  - split; [by intros ?%elem_of_nil|]. by intros (c & ?%elem_of_nil & _).
  - rewrite elem_of_app, IH. split.
    + intros [Hy|(c' & ? & ?)]; [exists c|exists c']; (split; [|done]); [by left|by right].
    + intros (c' & [->|?]%elem_of_cons & Hy); [by left|right]. by exists c'.
Qed.

Lemma bt_ext h h' n t : (∀ l, l ∈ locs t → h' !! l = h !! l) → bt h n t → bt h' n t.
Proof.
  revert t. induction n as [|n IH]; intros [x ks cs] Hl [(nd & Hx & Hn) Hc]; simpl in *.
  - split; [|done]. exists nd. rewrite Hl; [done|by left].
  - split; [exists nd; rewrite Hl; [done|by left]|]. destruct Hc as [Hlen Hc]. split; [done|].
    apply Forall_forall. intros c Hin. rewrite Forall_forall in Hc. destruct (Hc c Hin) as [Hb ?].
    split; [|done]. apply IH; [|done]. intros l Hlc. apply Hl. right.
    apply elem_of_concat. by exists c.
Qed.

(** *** Reading and writing nodes *)

Lemma bt_rd_ok (h : heap) x n : h !! x = Some n → rd (Some x) h = Ok (n, h, []).
Proof. intros Hx. unfold rd. c_run. by rewrite (load_Some _ _ _ Hx). Qed.

Lemma bt_wr_ok (h : heap) x n n' : h !! x = Some n → wr (Some x) n' h = Ok (tt, <[x := n']> h, []).
Proof. intros Hx. unfold wr. c_run. by rewrite (store_Some _ _ _ _ Hx). Qed.

Ltac run H := refine (bind_Ok _ _ _ _ _ [] _ _ [] H _); cbv beta iota; cbn [keys count child isLeaf].

(** Three slots, four slots. *)
Lemma three {A} (l : list A) : length l = 3%nat → ∃ a b c, l = [a; b; c].
Proof. destruct l as [|a [|b [|c [|]]]]; try done. by eexists _, _, _. Qed.

Lemma four {A} (l : list A) : length l = 4%nat → ∃ a b c e, l = [a; b; c; e].
Proof. destruct l as [|a [|b [|c [|e [|]]]]]; try done. by eexists _, _, _, _. Qed.

(** *** [splitChild] *)

Lemma createNode_ok (h : heap) leaf :
  ∃ l, h !! l = None ∧
    createNode leaf h = Ok (Some l, <[l := mkNode [None; None; None] 0 [None; None; None; None] leaf]> h, []).
Proof. exists (fresh (dom h)). split; [apply fresh_lookup|done]. Qed.

(** The node that takes the upper part of a full node. *)
Lemma upper_part f a b c qs leaf :
  holds f [a; b; c] qs leaf → length qs = (if leaf then 0 else 4)%nat →
  ∃ ks cs, copy (keys f) [None; None; None] (mid + 1) (seqZ 0 (MAX - mid - 1)) = Ok ks ∧
    (if leaf then Ok [None; None; None; None]
     else copy (child f) [None; None; None; None] (mid + 1) (seqZ 0 (MAX - mid - 1 + 1))) = Ok cs ∧
    holds (mkNode ks (MAX - mid - 1) cs leaf) [c] (drop 2 qs) leaf ∧
    holds (mkNode (keys f) mid (child f) leaf) [a] (take 2 qs) leaf ∧ uget (keys f) mid = Ok b.
Proof.
  intros [Hk Hkl Hc Hp Hpl Hlf Hnull] Hq.
  destruct (three _ Hkl) as (k0 & k1 & k2 & Hk'). rewrite Hk' in *. simpl in Hk. injection Hk as -> -> ->.
  destruct (four _ Hpl) as (p0 & p1 & p2 & p3 & Hp'). rewrite Hp' in *.
  destruct leaf.
  - destruct qs; [|done]. injection (Hnull eq_refl) as -> -> -> ->.
    eexists _, _. split; [reflexivity|]. split; [reflexivity|]. done.
  - destruct (four _ Hq) as (q0 & q1 & q2 & q3 & ->). simpl in Hp. injection Hp as -> -> -> ->.
    eexists _, _. split; [reflexivity|]. split; [reflexivity|]. done.
Qed.

(** The parent after the split of its child [idx]. *)
Lemma parent_part p ks ps (idx : nat) xn b :
  holds p ks ps false → length ps = S (length ks) → (length ks ≤ 2)%nat → (idx ≤ length ks)%nat →
  ∃ cs cs' kx ks', shift (child p) (down_from (count p) (Z.of_nat idx + 1)) = Ok cs ∧
    aset cs (Z.of_nat idx + 1) (Some xn) = Ok cs' ∧
    shift (keys p) (down_from (count p - 1) (Z.of_nat idx)) = Ok kx ∧
    aset kx (Z.of_nat idx) (Some b) = Ok ks' ∧
    holds (mkNode ks' (count p + 1) cs' false) (take idx ks ++ b :: drop idx ks)
      (take (S idx) ps ++ xn :: drop (S idx) ps) false.
Proof.
  intros [Hk Hkl Hc Hp Hpl Hlf Hnull] Hlen Hks Hidx.
  destruct (three _ Hkl) as (k0 & k1 & k2 & Hk'). rewrite Hk' in *.
  destruct (four _ Hpl) as (p0 & p1 & p2 & p3 & Hp'). rewrite Hp', Hc in *. clear Hk' Hp' Hc Hnull.
  destruct ks as [|x0 [|x1 [|]]]; simpl in Hks; [| | |lia]; simpl in Hlen;
    destruct ps as [|q0 [|q1 [|q2 [|]]]]; try done; simpl in Hk, Hp; simplify_eq;
    (destruct idx as [|[|[|idx]]]; simpl in Hidx; try lia);
    (eexists _, _, _, _; split; [reflexivity|]; split; [reflexivity|]; split; [reflexivity|];
     split; [reflexivity|]; done).
Qed.

Lemma splitChild_ok (h : heap) xp p ks ps (idx : nat) xf f a b c qs leaf :
  h !! xp = Some p → holds p ks ps false → length ps = S (length ks) → (length ks ≤ 2)%nat →
  (idx ≤ length ks)%nat → h !! xf = Some f → holds f [a; b; c] qs leaf →
  length qs = (if leaf then 0 else 4)%nat → xp ≠ xf →
  ∃ xn p' f' n', splitChild (Some xp) (Z.of_nat idx) (Some xf) h =
      Ok (tt, <[xp := p']> (<[xf := f']> (<[xn := n']> h)), []) ∧ h !! xn = None ∧
    holds p' (take idx ks ++ b :: drop idx ks) (take (S idx) ps ++ xn :: drop (S idx) ps) false ∧
    holds f' [a] (take 2 qs) leaf ∧ holds n' [c] (drop 2 qs) leaf.
Proof.
  intros Hxp Hp Hlen Hks Hidx Hxf Hf Hq Hne.
  destruct (createNode_ok h leaf) as (xn & Hxn & Hcreate).
  destruct (upper_part _ _ _ _ _ _ Hf Hq) as (nk & nc & Hnk & Hnc & Hn' & Hf' & Hb).
  destruct (parent_part _ _ _ idx xn b Hp Hlen Hks Hidx) as (cs & cs' & kx & ks' & H1 & H2 & H3 & H4 & Hp').
  exists xn, (mkNode ks' (count p + 1) cs' false), (mkNode (keys f) mid (child f) leaf), (mkNode nk (MAX - mid - 1) nc leaf).
  split; [|done].
  assert (xn ≠ xf ∧ xn ≠ xp) as [Hnf Hnp] by (split; congruence).
  set (n0 := mkNode [None; None; None] 0 [None; None; None; None] leaf) in *.
  set (n' := mkNode nk (MAX - mid - 1) nc leaf) in *.
  set (f' := mkNode (keys f) mid (child f) leaf) in *.
  assert (<[xn := n0]> h !! xn = Some n0) as Hxn0 by apply lookup_insert_eq.
  assert (<[xn := n']> h !! xf = Some f) as Hxf1 by (by rewrite lookup_insert_ne).
  set (h2 := <[xf := f']> (<[xn := n']> h)).
  assert (h2 !! xp = Some p) as Hxp1 by (unfold h2; by rewrite !lookup_insert_ne).
  unfold splitChild. run (bt_rd_ok _ _ _ Hxf). rewrite (holds_leaf _ _ _ _ Hf). run Hcreate.
  run (bt_rd_ok _ _ _ Hxn0). run (lift_Ok _ (<[xn := n0]> h) _ Hnk). run (lift_Ok _ (<[xn := n0]> h) _ Hnc).
  run (bt_wr_ok _ _ _ n' Hxn0). rewrite insert_insert_eq. run (bt_wr_ok _ _ _ f' Hxf1).
  run (bt_rd_ok _ _ _ Hxp1). run (lift_Ok _ h2 _ H1). run (lift_Ok _ h2 _ H2). run (lift_Ok _ h2 _ H3).
  run (lift_Ok _ h2 _ Hb). run (lift_Ok _ h2 _ H4). rewrite (holds_leaf _ _ _ _ Hp).
  apply (bt_wr_ok _ _ _ _ Hxp1).
Qed.

(** *** The loops over the keys *)

(** Adding a key to a sorted list behind the keys not larger. *)
Fixpoint add (key : Z) (ks : list Z) : list Z :=
  match ks with
  | [] => [key]
  | k :: ks => if key <? k then key :: k :: ks else k :: add key ks
  end.

Abbreviation sorted := (StronglySorted Z.le).

Lemma leaf_insert n ks key :
  holds n ks [] true → (length ks ≤ 2)%nat → sorted ks →
  ∃ kx i ks', slide (Z.to_nat (count n)) (keys n) key = Ok (kx, i) ∧ aset kx i (Some key) = Ok ks' ∧
    holds (mkNode ks' (count n + 1) (child n) true) (add key ks) [] true.
Proof.
  intros [Hk Hkl Hc Hp Hpl Hlf Hnull] Hks Hs.
  destruct (three _ Hkl) as (k0 & k1 & k2 & Hk'). rewrite Hk', Hc in *. rewrite (Hnull eq_refl) in *.
  destruct ks as [|x0 [|x1 [|]]]; simpl in Hks; [| | |lia]; simpl in Hk; simplify_eq; simpl.
  - eexists _, _, _. split; [reflexivity|]. by split; [reflexivity|].
  - unfold uget, aget. simpl. destruct (key <? x0); (eexists _, _, _; split; [reflexivity|]; split; [reflexivity|]; done).
  - unfold uget, aget. simpl. apply StronglySorted_inv in Hs as [_ Hs]. apply Forall_cons in Hs as [Hs _].
    destruct (Z.ltb_spec key x1); simpl.
    + destruct (key <? x0); (eexists _, _, _; split; [reflexivity|]; split; [reflexivity|]; done).
    + destruct (Z.ltb_spec key x0); [lia|].
      eexists _, _, _; split; [reflexivity|]; split; [reflexivity|]; done.
Qed.

Lemma back_ok n ks ps leaf key :
  holds n ks ps leaf →
  ∃ i : nat, back (Z.to_nat (count n)) (keys n) key = Ok (Z.of_nat i) ∧ (i ≤ length ks)%nat ∧
    (∀ k, (0 < i)%nat → ks !! Nat.pred i = Some k → k ≤ key) ∧ (∀ k, ks !! i = Some k → key < k).
Proof.
  intros Hn. rewrite (holds_count _ _ _ _ Hn), Nat2Z.id.
  assert (∀ m, (m ≤ length ks)%nat → (∀ k, ks !! m = Some k → key < k) →
    ∃ i : nat, back m (keys n) key = Ok (Z.of_nat i) ∧ (i ≤ length ks)%nat ∧
      (∀ k, (0 < i)%nat → ks !! Nat.pred i = Some k → k ≤ key) ∧ (∀ k, ks !! i = Some k → key < k)) as H.
  { intros m. induction m as [|m IH]; intros Hm Hk.
    - exists O. split; [done|]. split; [lia|]. split; [intros; lia|done].
    - destruct (lookup_lt_is_Some_2 ks m) as [k Hkm]; [lia|]. simpl.
      rewrite (holds_key _ _ _ _ _ _ Hn Hkm). simpl. destruct (Z.ltb_spec key k) as [Hlt|Hge].
      + apply IH; [lia|]. intros k' Hk'. by simplify_eq.
      + exists (S m). split; [do 2 f_equal; lia|]. split; [done|]. split; [|done].
        intros k' _ Hk'. simpl in Hk'. simplify_eq. lia. }
  apply H; [done|]. intros k Hk. apply lookup_lt_Some in Hk. lia.
Qed.

(** *** Keys of a node and of its children *)

(** The list of a node around its child [i], which starts behind key [i - 1]
    and ends before key [i]. *)
Lemma weave_focus ks l c r :
  length (l ++ c :: r) = S (length ks) →
  ∃ A B, (∀ c', weave ks (l ++ c' :: r) = A ++ c' ++ B) ∧
    ((l = [] ∧ A = []) ∨ ∃ A0 k, (0 < length l)%nat ∧ ks !! Nat.pred (length l) = Some k ∧ A = A0 ++ [k]) ∧
    ((ks !! length l = None ∧ B = []) ∨ ∃ k B0, ks !! length l = Some k ∧ B = k :: B0).
Proof.
  revert ks. induction l as [|l0 l IH]; intros ks Hlen; simpl in *.
  - destruct ks as [|k ks].
    + exists [], []. split; [intros; simpl; destruct r; by rewrite app_nil_r|]. auto.
    + exists [], (k :: weave ks r). split; [done|]. split; [by left|]. right. by exists k, (weave ks r).
  - destruct ks as [|k ks]; [rewrite length_app in Hlen; simpl in Hlen; lia|].
    destruct (IH ks) as (A & B & Hw & HA & HB); [simpl in Hlen; lia|].
    exists (l0 ++ k :: A), B. split; [intros c'; simpl; by rewrite Hw, <- app_assoc|]. split; [|done]. right.
    destruct HA as [[-> ->]|(A0 & k' & Hl & Hk & ->)].
    + exists l0, k. split; [simpl; lia|]. done.
    + exists (l0 ++ k :: A0), k'. split; [simpl; lia|]. split; [|by rewrite <- app_assoc].
      destruct l; simpl in *; [lia|done].
Qed.

Lemma weave_split ks l l1 b l2 r :
  length (l ++ (l1 ++ b :: l2) :: r) = S (length ks) →
  weave (take (length l) ks ++ b :: drop (length l) ks) (l ++ l1 :: l2 :: r) =
  weave ks (l ++ (l1 ++ b :: l2) :: r).
Proof.
  revert ks. induction l as [|l0 l IH]; intros ks Hlen; simpl in *.
  - destruct ks as [|k ks]; simpl; [|by rewrite <- app_assoc].
    destruct r; [done|simpl in Hlen; lia].
  - destruct ks as [|k ks]; [rewrite length_app in Hlen; simpl in Hlen; lia|]. simpl.
    rewrite IH; [done|]. simpl in Hlen. lia.
Qed.

Lemma inorder_halves xf xn x a b c ds :
  length ds = 0%nat ∨ length ds = 4%nat →
  inorder (Node xf [a; b; c] ds) = inorder (Node x [a] (take 2 ds)) ++ b :: inorder (Node xn [c] (drop 2 ds)).
Proof.
  intros [Hd|Hd].
  - by destruct ds.
  - destruct (four _ Hd) as (d0 & d1 & d2 & d3 & ->). simpl. by rewrite <- app_assoc.
Qed.

(** *** Sorted lists with duplicates *)

Lemma sorted_app_inv (l1 l2 : list Z) :
  sorted (l1 ++ l2) ↔ sorted l1 ∧ sorted l2 ∧ ∀ x y, x ∈ l1 → y ∈ l2 → x ≤ y.
Proof.
  split.
  - intros Hs. split; [by eapply StronglySorted_app_1_l|]. split; [by eapply StronglySorted_app_1_r|].
    intros x y. by apply StronglySorted_app_1_elem_of.
  - intros (? & ? & ?). by apply StronglySorted_app_2.
Qed.

Lemma sorted_around (A I I' B : list Z) key :
  sorted (A ++ I ++ B) → sorted I' → I' ≡ₚ key :: I →
  (∀ y, y ∈ A → y ≤ key) → (∀ y, y ∈ B → key ≤ y) → sorted (A ++ I' ++ B).
Proof.
  rewrite !sorted_app_inv. intros (HA & (HI & HB & HIB) & HAB) HI' Hp HAk HBk.
  split; [done|]. split; [split; [done|split; [done|]]|].
  - intros x y Hx Hy. rewrite Hp in Hx. apply elem_of_cons in Hx as [->|Hx]; auto.
  - intros x y Hx Hy. apply elem_of_app in Hy as [Hy|Hy].
    + rewrite Hp in Hy. apply elem_of_cons in Hy as [->|Hy]; [auto|]. apply HAB; [done|].
      apply elem_of_app. by left.
    + apply HAB; [done|]. apply elem_of_app. by right.
Qed.

Lemma add_spec key ks : sorted ks → sorted (add key ks) ∧ add key ks ≡ₚ key :: ks.
Proof.
  induction 1 as [|k ks Hs [IH1 IH2] Hf]; simpl; [split; [repeat constructor|done]|].
  destruct (Z.ltb_spec key k).
  - split; [|done]. constructor; [by constructor|]. constructor; [lia|].
    eapply Forall_impl; [exact Hf|]. simpl. lia.
  - split; [|rewrite IH2; apply perm_swap]. constructor; [done|]. rewrite IH2.
    constructor; [lia|done].
Qed.

Lemma take_mid {A} (l : list A) x r : take (S (length l)) (l ++ x :: r) = l ++ [x].
Proof. induction l as [|y l IH]; simpl; [by rewrite take_0|]. by f_equal. Qed.

Lemma drop_mid {A} (l : list A) x r : drop (S (length l)) (l ++ x :: r) = r.
Proof. induction l as [|y l IH]; simpl; [by rewrite drop_0|]. done. Qed.

(** *** Growing a tree inside a memory *)

(** [t] became [t'] while the memory went from [h] to [h']: the rest of [h] is
    unchanged, and the new cells are all in [t']. *)
Record grown (h h' : heap) (t t' : btree) : Prop := mkgrown {
  grown_dom : dom h ⊆ dom h';
  grown_rest l : l ∈ dom h → l ∉ locs t → h' !! l = h !! l;
  grown_locs l : l ∈ locs t' ↔ l ∈ locs t ∨ (l ∈ dom h' ∧ l ∉ dom h);
  grown_nodup : NoDup (locs t')
}.

Lemma grown_trans h1 h2 h3 t1 t2 t3 :
  (∀ l, l ∈ locs t1 → l ∈ dom h1) → grown h1 h2 t1 t2 → grown h2 h3 t2 t3 → grown h1 h3 t1 t3.
Proof.
  intros Hin [Hd1 Hr1 Hl1 _] [Hd2 Hr2 Hl2 Hnd]. constructor; [set_solver| | |done].
  - intros l Hl Hn. rewrite Hr2, Hr1; [done|done|done|by apply Hd1|]. rewrite Hl1. tauto.
  - intros l. rewrite Hl2, Hl1. specialize (Hd1 l). specialize (Hd2 l). specialize (Hin l).
    destruct (decide (l ∈ dom h1)), (decide (l ∈ dom h2)); tauto.
Qed.

Lemma bt_dom h n t l : bt h n t → l ∈ locs t → l ∈ dom h.
Proof.
  revert t. induction n as [|n IH]; intros [x ks cs] [(nd & Hx & _) Hc] Hl; simpl in *;
    apply elem_of_cons in Hl as [->|Hl]; try (by eapply elem_of_dom_2).
  - subst cs. by apply elem_of_nil in Hl.
  - apply elem_of_concat in Hl as (c & Hin & Hl). destruct Hc as [_ Hc]. rewrite Forall_forall in Hc.
    destruct (Hc c Hin) as [Hb _]. by apply (IH c).
Qed.

Lemma locs_mid x ks l c r :
  locs (Node x ks (l ++ c :: r)) = x :: concat (map locs l) ++ locs c ++ concat (map locs r).
Proof. simpl. by rewrite map_app, concat_app. Qed.

(** A child grown in place. *)
Lemma grow_child h h' n x ks l c c' r :
  bt h (S n) (Node x ks (l ++ c :: r)) → NoDup (locs (Node x ks (l ++ c :: r))) →
  bt h' n c' → addr c' = addr c → (1 ≤ nkeys c' ≤ 3)%nat → grown h h' c c' →
  bt h' (S n) (Node x ks (l ++ c' :: r)) ∧
  grown h h' (Node x ks (l ++ c :: r)) (Node x ks (l ++ c' :: r)).
Proof.
  intros Hb Hnd Hc' Ha Hk [Hdom Hrest Hlocs Hnd'].
  pose proof (λ y, bt_dom h (S n) _ y Hb) as Hin. rewrite locs_mid in Hnd, Hin.
  apply NoDup_cons in Hnd as [Hx Hnd]. apply NoDup_app in Hnd as (Hl & Hlcr & Hcr).
  apply NoDup_app in Hcr as (Hc & Hcr & Hr). rewrite !elem_of_app in Hx.
  assert (∀ y, y = x ∨ y ∈ concat (map locs l) ∨ y ∈ concat (map locs r) → y ∈ dom h ∧ y ∉ locs c) as Hout.
  { intros y Hy. split; [apply Hin; rewrite elem_of_cons, !elem_of_app; tauto|]. intros Hyc.
    destruct Hy as [->|[Hy|Hy]]; [tauto| |by apply (Hcr y)].
    apply (Hlcr y Hy). apply elem_of_app. by left. }
  assert (∀ y, y = x ∨ y ∈ concat (map locs l) ∨ y ∈ concat (map locs r) → y ∉ locs c') as Hout'.
  { intros y Hy. destruct (Hout y Hy). rewrite Hlocs. tauto. }
  split.
  - destruct Hb as [(nd & Hxn & Hn) [Hlen Hcs]]. apply Forall_app in Hcs as [Hfl Hfr].
    apply Forall_cons in Hfr as [_ Hfr]. split; [|split].
    + exists nd. destruct (Hout x) as [? ?]; [by left|]. rewrite Hrest by done. split; [done|].
      rewrite map_app in *. simpl in *. by rewrite Ha.
    + rewrite length_app in *. done.
    + apply Forall_app. split; [|constructor; [done|]]; apply Forall_forall; intros t Ht.
      * rewrite Forall_forall in Hfl. destruct (Hfl t Ht) as [Hbt ?]. split; [|done].
        eapply bt_ext; [|exact Hbt]. intros y Hy. destruct (Hout y); [|by apply Hrest].
        right. left. apply elem_of_concat. by exists t.
      * rewrite Forall_forall in Hfr. destruct (Hfr t Ht) as [Hbt ?]. split; [|done].
        eapply bt_ext; [|exact Hbt]. intros y Hy. destruct (Hout y); [|by apply Hrest].
        right. right. apply elem_of_concat. by exists t.
  - constructor; [done| | |].
    + intros y Hy Hn. apply Hrest; [done|]. intros Hyc. apply Hn. rewrite locs_mid, elem_of_cons, !elem_of_app. tauto.
    + intros y. rewrite !locs_mid, !elem_of_cons, !elem_of_app, Hlocs. tauto.
    + rewrite locs_mid. apply NoDup_cons. split.
      { rewrite !elem_of_app. intros [?|[?|?]]; [tauto| |tauto]. apply (Hout' x); [by left|done]. }
      apply NoDup_app. split; [done|]. split.
      { intros y Hy. rewrite elem_of_app. intros [?|?]; [apply (Hout' y); auto|].
        apply (Hlcr y Hy). apply elem_of_app. by right. }
      apply NoDup_app. split; [done|]. split; [|done]. intros y Hy Hyr. apply (Hout' y); auto.
Qed.

(** The result of inserting [key] below [t]. *)
Definition inserted (h h' : heap) (n : nat) (key : Z) (t t' : btree) : Prop :=
  bt h' n t' ∧ addr t' = addr t ∧ (nkeys t ≤ nkeys t' ≤ 3)%nat ∧ grown h h' t t' ∧
  sorted (inorder t') ∧ inorder t' ≡ₚ key :: inorder t.

(** [insertWhenNonFull] does this at depth [n]. *)
Definition inserts (n : nat) : Prop :=
  ∀ fuel h t key, bt h n t → NoDup (locs t) → (nkeys t ≤ 2)%nat → sorted (inorder t) → (n ≤ fuel)%nat →
  ∃ h' t', insertWhenNonFull fuel (Some (addr t)) key h = Ok (tt, h', []) ∧ inserted h h' n key t t'.

Lemma descend_child n fuel h x ks l c r key :
  inserts n → bt h (S n) (Node x ks (l ++ c :: r)) → NoDup (locs (Node x ks (l ++ c :: r))) →
  sorted (inorder (Node x ks (l ++ c :: r))) → (nkeys c ≤ 2)%nat → (n ≤ fuel)%nat →
  (∀ k, (0 < length l)%nat → ks !! Nat.pred (length l) = Some k → k ≤ key) →
  (∀ k, ks !! length l = Some k → key ≤ k) →
  ∃ h' t', insertWhenNonFull fuel (Some (addr c)) key h = Ok (tt, h', []) ∧
    inserted h h' (S n) key (Node x ks (l ++ c :: r)) t' ∧ nkeys t' = length ks.
Proof.
  intros IH Hb Hnd Hs Hc Hf Hlo Hhi.
  assert (bt h n c ∧ (1 ≤ nkeys c)%nat) as [Hbc Hck].
  { destruct Hb as [_ [_ Hcs]]. apply Forall_app in Hcs as [_ Hcs]. apply Forall_cons in Hcs as [? _]. naive_solver lia. }
  assert (length ks ≤ 3)%nat as Hk3 by (destruct Hb as [(nd & _ & Hn) _]; by eapply holds_le).
  assert (NoDup (locs c)) as Hndc.
  { rewrite locs_mid in Hnd. apply NoDup_cons in Hnd as [_ (_ & _ & Hnd)%NoDup_app]. by apply NoDup_app in Hnd as [? _]. }
  destruct (weave_focus ks (map inorder l) (inorder c) (map inorder r)) as (A & B & Hw & HA & HB).
  { destruct Hb as [_ [Hlen _]]. rewrite length_app in *. simpl in *. by rewrite !length_map. }
  rewrite length_map in HA, HB.
  assert (∀ c', inorder (Node x ks (l ++ c' :: r)) = A ++ inorder c' ++ B) as Hin
    by (intros c'; simpl; rewrite map_app; apply Hw).
  rewrite Hin in Hs. pose proof Hs as Hs'. rewrite !sorted_app_inv in Hs'. destruct Hs' as (HsA & (HsI & HsB & _) & _).
  destruct (IH fuel h c key Hbc Hndc Hc HsI Hf) as (h' & c' & Hrun & Hbc' & Ha & Hk & Hg & Hsc & Hp).
  destruct (grow_child _ _ _ _ _ _ _ _ _ Hb Hnd Hbc' Ha ltac:(lia) Hg) as [Hb' Hg'].
  exists h', (Node x ks (l ++ c' :: r)). split; [done|]. split; [|done].
  split; [done|]. split; [done|]. split; [simpl; lia|]. split; [done|]. rewrite !Hin. split.
  - eapply sorted_around; [exact Hs|done|exact Hp| |].
    + intros y Hy. destruct HA as [[_ ->]|(A0 & k & Hpos & Hk0 & ->)]; [by apply elem_of_nil in Hy|].
      specialize (Hlo k Hpos Hk0). apply sorted_app_inv in HsA as (_ & _ & HsA).
      apply elem_of_app in Hy as [Hy|Hy%list_elem_of_singleton]; [|by subst].
      specialize (HsA y k Hy). rewrite list_elem_of_singleton in HsA. specialize (HsA eq_refl). lia.
    + intros y Hy. destruct HB as [[_ ->]|(k & B0 & Hk0 & ->)]; [by apply elem_of_nil in Hy|].
      specialize (Hhi k Hk0). apply elem_of_cons in Hy as [->|Hy]; [done|].
      apply StronglySorted_inv in HsB as [_ HsB]. rewrite Forall_forall in HsB. specialize (HsB y Hy). lia.
  - rewrite Hp. simpl. by rewrite <- Permutation_middle.
Qed.

(** The split of a full child. *)
Lemma split_tree n h x ks l r xf a b c ds :
  bt h (S n) (Node x ks (l ++ Node xf [a; b; c] ds :: r)) →
  NoDup (locs (Node x ks (l ++ Node xf [a; b; c] ds :: r))) → (length ks ≤ 2)%nat →
  ∃ h' xn, splitChild (Some x) (Z.of_nat (length l)) (Some xf) h = Ok (tt, h', []) ∧
    let t' := Node x (take (length l) ks ++ b :: drop (length l) ks)
                (l ++ Node xf [a] (take 2 ds) :: Node xn [c] (drop 2 ds) :: r) in
    bt h' (S n) t' ∧ grown h h' (Node x ks (l ++ Node xf [a; b; c] ds :: r)) t' ∧
    inorder t' = inorder (Node x ks (l ++ Node xf [a; b; c] ds :: r)).
Proof.
  intros Hb Hnd0 Hks. pose proof (λ y, bt_dom h (S n) _ y Hb) as Hin0.
  pose proof Hnd0 as Hnd. pose proof Hin0 as Hin. rewrite locs_mid in Hnd, Hin.
  change (locs (Node xf [a; b; c] ds)) with (xf :: concat (map locs ds)) in Hnd, Hin.
  destruct Hb as [(p & Hxp & Hp) [Hlen Hcs]].
  pose proof Hcs as [Hfl Hfr]%Forall_app. apply Forall_cons in Hfr as [[Hbf _] Hfr].
  apply bt_eq in Hbf as ((f & Hxf & Hf) & Hdl & Hds).
  assert (length (map addr ds) = (if leaf_at n then 0 else 4)%nat) as Hq by (by rewrite length_map).
  assert (x ≠ xf) as Hne.
  { apply NoDup_cons in Hnd as [Hx _]. intros ->. apply Hx. rewrite !elem_of_app. right. left. by left. }
  destruct (splitChild_ok h x p ks (map addr (l ++ Node xf [a; b; c] ds :: r)) (length l) xf f a b c _ _
    Hxp Hp ltac:(by rewrite length_map) Hks ltac:(rewrite length_app in Hlen; simpl in Hlen; lia) Hxf Hf Hq Hne)
    as (xn & p' & f' & n' & Hrun & Hxn & Hp' & Hf' & Hn').
  exists (<[x := p']> (<[xf := f']> (<[xn := n']> h))), xn. split; [done|]. cbv zeta.
  assert (xn ∉ dom h) as Hxnd by (by apply not_elem_of_dom).
  assert (∀ y, y ≠ x → y ≠ xf → y ≠ xn → <[x := p']> (<[xf := f']> (<[xn := n']> h)) !! y = h !! y) as Hrest
    by (intros; by rewrite !lookup_insert_ne).
  assert (x ≠ xn ∧ xf ≠ xn) as [Hxxn Hfxn] by (split; intros ->; congruence).
  set (h' := <[x := p']> (<[xf := f']> (<[xn := n']> h))) in *.
  assert (Forall (λ c, bt h' (Nat.pred n) c ∧ (1 ≤ nkeys c ≤ 3)%nat) ds ∧
    Forall (λ c, bt h' n c ∧ (1 ≤ nkeys c ≤ 3)%nat) l ∧
    Forall (λ c, bt h' n c ∧ (1 ≤ nkeys c ≤ 3)%nat) r) as (Hds' & Hfl' & Hfr').
  { assert (∀ t y, t ∈ l ∨ t ∈ ds ∨ t ∈ r → y ∈ locs t → h' !! y = h !! y) as Hkeep.
    { intros t y Ht Hy.
      assert (y ∈ concat (map locs l) ∨ y ∈ concat (map locs ds) ∨ y ∈ concat (map locs r)) as Hy'
        by (rewrite !elem_of_concat; naive_solver).
      apply NoDup_cons in Hnd as [Hx (_ & Hl & [Hxf' Hrr]%NoDup_cons)%NoDup_app].
      rewrite !elem_of_app, elem_of_cons in Hx. apply Hrest.
      - intros ->. tauto.
      - intros ->. destruct Hy' as [Hy'|Hy'].
        + apply (Hl xf Hy'), elem_of_app. left. by left.
        + apply Hxf'. apply elem_of_app. tauto.
      - intros ->. apply Hxnd, Hin. rewrite elem_of_cons, !elem_of_app, elem_of_cons. tauto. }
    rewrite Forall_forall in Hds, Hfl, Hfr.
    split; [|split]; apply Forall_forall; intros t Ht;
      [destruct (Hds t Ht) as [Hbt ?]|destruct (Hfl t Ht) as [Hbt ?]|destruct (Hfr t Ht) as [Hbt ?]];
      (split; [|done]); (eapply bt_ext; [|exact Hbt]); intros y Hy; apply (Hkeep t); auto. }
  split; [|split].
  - split; [|split].
    + exists p'. split; [apply lookup_insert_eq|]. revert Hp'. rewrite !map_app. simpl.
      rewrite <- (length_map addr l), take_mid, drop_mid, <- app_assoc. done.
    + rewrite !length_app in *. simpl in *. rewrite length_take, length_drop. lia.
    + apply Forall_app. split; [done|]. constructor; [|constructor; [|done]]; (split; [|simpl; lia]).
      * apply bt_eq. split; [|split; [|by apply Forall_take]].
        -- exists f'. unfold h'. rewrite lookup_insert_ne, lookup_insert_eq, <- firstn_map by done. done.
        -- rewrite length_take, Hdl. by destruct (leaf_at n).
      * apply bt_eq. split; [|split; [|by apply Forall_drop]].
        -- exists n'. unfold h'. rewrite !lookup_insert_ne, lookup_insert_eq, <- skipn_map by done. done.
        -- rewrite length_drop, Hdl. by destruct (leaf_at n).
  - assert (locs (Node x (take (length l) ks ++ b :: drop (length l) ks)
      (l ++ Node xf [a] (take 2 ds) :: Node xn [c] (drop 2 ds) :: r)) ≡ₚ
      xn :: locs (Node x ks (l ++ Node xf [a; b; c] ds :: r))) as Hperm.
    { rewrite !locs_mid. simpl.
      replace (concat (map locs ds)) with (concat (map locs (take 2 ds)) ++ concat (map locs (drop 2 ds)))
        by (by rewrite <- concat_app, <- map_app, take_drop). solve_Permutation. }
    assert (dom h' = dom h ∪ {[xn]}) as Hdom.
    { unfold h'. rewrite !dom_insert_L. apply elem_of_dom_2 in Hxp, Hxf. set_solver. }
    constructor.
    + set_solver.
    + intros y Hy Hn. apply Hrest; [| |by intros ->]; intros ->; apply Hn; rewrite locs_mid; [by left|].
      right. rewrite !elem_of_app. right. left. by left.
    + intros y. rewrite Hperm, elem_of_cons, Hdom, elem_of_union, elem_of_singleton.
      specialize (Hin0 y). split; [|tauto].
      intros [->|?]; [right|by left]. tauto.
    + rewrite Hperm. apply NoDup_cons. split; [|done]. intros Hy. by apply Hxnd, Hin0.
  - pose proof (weave_split ks (map inorder l) (inorder (Node xf [a] (take 2 ds))) b
      (inorder (Node xn [c] (drop 2 ds))) (map inorder r)) as Hw.
    rewrite <- (inorder_halves xf xn xf) in Hw by (rewrite Hdl; destruct (leaf_at n); auto).
    rewrite length_map in Hw. cbn [inorder]. rewrite !map_app. apply Hw.
    rewrite length_app in *. simpl in *. by rewrite !length_map.
Qed.

(** *** [insertWhenNonFull] *)

Lemma inserts_leaf : inserts 0.
Proof.
  intros fuel h [x ks cs] key [(nd & Hx & Hn) Hcs] Hnd Hk Hs _. simpl in Hcs. subst cs. simpl in *.
  destruct (leaf_insert nd ks key Hn Hk Hs) as (kx & i & ks' & Hsl & Has & Hn').
  destruct (add_spec key ks Hs) as [Hs' Hp].
  exists (<[x := mkNode ks' (count nd + 1) (child nd) true]> h), (Node x (add key ks) []). split.
  - destruct fuel; simpl; run (bt_rd_ok _ _ _ Hx); rewrite (holds_leaf _ _ _ _ Hn);
      run (lift_Ok _ h _ Hsl); run (lift_Ok _ h _ Has); apply (bt_wr_ok _ _ _ _ Hx).
  - assert (dom (<[x := mkNode ks' (count nd + 1) (child nd) true]> h) = dom h) as Hdom.
    { rewrite dom_insert_L. apply elem_of_dom_2 in Hx. set_solver. }
    split; [split; [eexists; split; [apply lookup_insert_eq|done]|done]|]. split; [done|].
    split; [simpl; rewrite Hp; simpl; lia|]. split; [|done].
    constructor; [by rewrite Hdom| |intros l; rewrite Hdom; simpl; tauto|done].
    intros l _ Hl. apply lookup_insert_ne. intros ->. apply Hl. by left.
Qed.

(** A node after the split of its child: the key moved up is at its place, and
    so are its neighbours. *)
Lemma split_keys (ks : list Z) (i : nat) b :
  (i ≤ length ks)%nat →
  (take i ks ++ b :: drop i ks) !! i = Some b ∧ (take i ks ++ b :: drop i ks) !! S i = ks !! i ∧
  ((0 < i)%nat → (take i ks ++ b :: drop i ks) !! Nat.pred i = ks !! Nat.pred i).
Proof.
  intros Hi. assert (length (take i ks) = i) as Hl by (rewrite length_take; lia). split; [|split].
  - rewrite lookup_app_r, Hl, Nat.sub_diag by lia. done.
  - rewrite lookup_app_r, Hl by lia. replace (S i - i)%nat with 1%nat by lia. simpl.
    by rewrite lookup_drop, Nat.add_0_r.
  - intros Hpos. rewrite lookup_app_l by lia. rewrite lookup_take_lt by lia. done.
Qed.

(** After a split the insertion goes on in one of the halves. *)
Lemma inserts_split n fuel h x ks l r xf xn a b c ds1 ds2 key t0 h0 :
  inserts n → (n ≤ fuel)%nat → (length l ≤ length ks)%nat →
  let t := Node x (take (length l) ks ++ b :: drop (length l) ks)
             (l ++ Node xf [a] ds1 :: Node xn [c] ds2 :: r) in
  bt h (S n) t → grown h0 h t0 t → inorder t = inorder t0 → addr t0 = x → nkeys t0 = length ks →
  (∀ y, y ∈ locs t0 → y ∈ dom h0) → sorted (inorder t0) →
  (∀ k, (0 < length l)%nat → ks !! Nat.pred (length l) = Some k → k ≤ key) →
  (∀ k, ks !! length l = Some k → key < k) →
  ∃ h' t', insertWhenNonFull fuel (Some (if key >? b then xn else xf)) key h = Ok (tt, h', []) ∧
    inserted h0 h' (S n) key t0 t' ∧ (1 ≤ nkeys t')%nat.
Proof.
  intros IH Hf Hi t Hb Hg Hin Ha Hk Hdom Hs Hlo Hhi.
  destruct (split_keys ks (length l) b Hi) as (Hk0 & Hk1 & Hkp).
  pose proof (grown_nodup _ _ _ _ Hg) as Hnd. rewrite <- Hin in Hs.
  assert (∃ h' t', insertWhenNonFull fuel (Some (if key >? b then xn else xf)) key h = Ok (tt, h', []) ∧
    inserted h h' (S n) key t t') as (h' & t' & Hrun & Hbt & Ha' & Hk' & Hg' & Hs' & Hp).
  { rewrite Z.gtb_ltb. destruct (Z.ltb_spec b key) as [Hbk|Hbk].
    - unfold t in *. rewrite (cons_middle (Node xf [a] ds1)), app_assoc in *.
      destruct (descend_child n fuel h x _ (l ++ [Node xf [a] ds1]) (Node xn [c] ds2) r key IH Hb Hnd Hs)
        as (h' & t' & Hrun & Hins & _); [simpl; lia|done| | |by exists h', t'].
      + intros k _. rewrite length_app, Nat.add_1_r. simpl. rewrite Hk0. intros [= <-]. lia.
      + intros k. rewrite length_app, Nat.add_1_r, Hk1. intros Hk2. specialize (Hhi k Hk2). lia.
    - destruct (descend_child n fuel h x _ l (Node xf [a] ds1) (Node xn [c] ds2 :: r) key IH Hb Hnd Hs)
        as (h' & t' & Hrun & Hins & _); [simpl; lia|done| | |by exists h', t'].
      + intros k Hpos. rewrite Hkp by done. by apply Hlo.
      + intros k. rewrite Hk0. intros [= <-]. lia. }
  assert (nkeys t = S (length ks)) as Hkt
    by (simpl; rewrite length_app; simpl; rewrite length_take, length_drop; lia).
  exists h', t'. split; [done|]. split; [|lia]. split; [done|]. split; [by rewrite Ha', Ha|].
  split; [lia|]. split; [by eapply grown_trans|]. split; [done|]. by rewrite Hp, Hin.
Qed.

Lemma inserts_ok n : inserts n.
Proof.
  induction n as [|n IH]; [exact inserts_leaf|]. intros fuel h [x ks cs] key Hb Hnd Hk Hs Hf.
  simpl in Hk. destruct fuel as [|fuel]; [lia|].
  pose proof Hb as [(nd & Hx & Hn) [Hlen Hcs]]. simpl in Hn.
  destruct (back_ok _ _ _ _ key Hn) as (i & Hback & Hi & Hlo & Hhi).
  destruct (lookup_lt_is_Some_2 cs i) as [c Hc]; [lia|].
  pose proof (holds_ptr _ _ _ _ i (addr c) Hn ltac:(by rewrite list_lookup_fmap, Hc)) as Hptr.
  pose proof (list_elem_of_lookup_2 _ _ _ Hc) as Hin. rewrite Forall_forall in Hcs.
  destruct (Hcs c Hin) as [Hbc Hck].
  apply take_drop_middle in Hc as Hsplit. assert (length (take i cs) = i) as Hli by (rewrite length_take; lia).
  set (l := take i cs) in *. set (r := drop (S i) cs) in *. clearbody l r. subst cs i.
  assert (∃ nc, h !! addr c = Some nc ∧ count nc = Z.of_nat (nkeys c)) as (nc & Hnc & Hcount).
  { destruct c as [xc kc dc]. apply bt_eq in Hbc as [(nc & Hnc & Hh) _]. exists nc. split; [done|].
    apply (holds_count _ _ _ _ Hh). }
  destruct (decide (nkeys c = 3%nat)) as [Hfull|Hfree].
  - destruct c as [xf kc ds]. simpl in Hfull. destruct (three _ Hfull) as (a & b & c & ->).
    destruct (split_tree n h x ks l r xf a b c ds Hb Hnd Hk) as (h1 & xn & Hsplit & Hb1 & Hg1 & Hin1).
    cbv zeta in Hb1, Hg1, Hin1.
    destruct (inserts_split n fuel h1 x ks l r xf xn a b c _ _ key _ h IH ltac:(lia) Hi Hb1 Hg1 Hin1
      eq_refl eq_refl (λ y, bt_dom h (S n) _ y Hb) Hs Hlo Hhi) as (h' & t' & Hrun & Hins & _).
    exists h', t'. split; [|done].
    destruct (split_keys ks (length l) b Hi) as (Hk0 & _).
    destruct Hb1 as [(p1 & Hx1 & Hp1) _].
    cbn [insertWhenNonFull addr]. run (bt_rd_ok _ _ _ Hx). rewrite (holds_leaf _ _ _ _ Hn).
    run (lift_Ok _ h _ Hback). run (lift_Ok _ h _ Hptr). cbn [addr] in *. run (bt_rd_ok _ _ _ Hnc).
    rewrite Hcount. cbn [nkeys length]. change (Z.of_nat 3 =? MAX) with true. cbv iota.
    refine (bind_Ok _ _ _ (if key >? b then Z.of_nat (length l) + 1 else Z.of_nat (length l)) h1 [] _ _ [] _ _).
    { run Hsplit. run (bt_rd_ok _ _ _ Hx1). by run (lift_Ok _ h1 _ (holds_key _ _ _ _ _ _ Hp1 Hk0)). }
    run (bt_rd_ok _ _ _ Hx1).
    refine (bind_Ok _ _ _ (Some (if key >? b then xn else xf)) h1 [] _ _ [] (lift_Ok _ _ _ _) Hrun).
    destruct (key >? b).
    + replace (Z.of_nat (length l) + 1) with (Z.of_nat (S (length l))) by lia.
      apply (holds_ptr _ _ _ _ _ _ Hp1). rewrite map_app, lookup_app_r, length_map by (rewrite length_map; lia).
      by replace (S (length l) - length l)%nat with 1%nat by lia.
    + apply (holds_ptr _ _ _ _ _ _ Hp1). rewrite map_app, lookup_app_r, length_map by (rewrite length_map; lia).
      by rewrite Nat.sub_diag.
  - destruct (descend_child n fuel h x ks l c r key IH Hb Hnd Hs) as (h' & t' & Hrun & Hins & _);
      [lia|lia|done|intros k Hk0; specialize (Hhi k Hk0); lia|].
    exists h', t'. split; [|done].
    cbn [insertWhenNonFull addr]. run (bt_rd_ok _ _ _ Hx). rewrite (holds_leaf _ _ _ _ Hn).
    run (lift_Ok _ h _ Hback). run (lift_Ok _ h _ Hptr). run (bt_rd_ok _ _ _ Hnc). rewrite Hcount.
    replace (Z.of_nat (nkeys c) =? MAX) with false by (unfold MAX; symmetry; apply Z.eqb_neq; lia).
    refine (bind_Ok _ _ _ _ _ [] _ _ [] eq_refl _). run (bt_rd_ok _ _ _ Hx). by run (lift_Ok _ h _ Hptr).
Qed.

(** ** The whole tree *)

(** The memory holds exactly the nodes of [t], which [root] points to; [None]
    for the empty tree. *)
Definition rep (h : heap) (root : ptr) (t : option btree) : Prop :=
  match t with
  | None => root = None ∧ h = ∅
  | Some t =>
      root = Some (addr t) ∧ NoDup (locs t) ∧ (1 ≤ nkeys t)%nat ∧ (∃ n, bt h n t) ∧
      ∀ l, l ∈ dom h ↔ l ∈ locs t
  end.

Definition elements (t : option btree) : list Z := match t with None => [] | Some t => inorder t end.

(** The depth is less than the number of nodes. *)
Lemma bt_depth h n t : bt h n t → (n < length (locs t))%nat.
Proof.
  revert t. induction n as [|n IH]; intros [x ks cs] Hb; simpl; [lia|].
  destruct Hb as [_ [Hlen Hcs]]. destruct cs as [|c cs]; [done|]. apply Forall_cons in Hcs as [[Hc _] _].
  apply IH in Hc. simpl. rewrite length_app. lia.
Qed.

Lemma bt_fuel h n t : bt h n t → NoDup (locs t) → (n ≤ size h)%nat.
Proof.
  intros Hb Hnd. pose proof (bt_depth _ _ _ Hb) as Hd.
  assert (length (locs t) ≤ size h)%nat; [|lia].
  rewrite <- (size_dom h), <- (size_list_to_set (C := gset loc) (locs t)) by done.
  apply subseteq_size. intros l Hl. apply elem_of_list_to_set in Hl. by eapply bt_dom.
Qed.

(** A full root gets a parent of its own before it is split. *)
Lemma new_root h n t nr :
  bt h n t → nkeys t = 3%nat → NoDup (locs t) → (∀ l, l ∈ dom h ↔ l ∈ locs t) → h !! nr = None →
  let h1 := <[nr := mkNode [None; None; None] 0 [Some (addr t); None; None; None] false]> h in
  bt h1 (S n) (Node nr [] [t]) ∧ NoDup (locs (Node nr [] [t])) ∧
  ∀ l, l ∈ dom h1 ↔ l ∈ locs (Node nr [] [t]).
Proof.
  intros Hb Hk Hnd Hdom Hnr h1. assert (nr ∉ locs t) as Hn by (rewrite <- Hdom; by apply not_elem_of_dom).
  split; [|split].
  - split; [|split; [done|]].
    + eexists. split; [apply lookup_insert_eq|]. done.
    + constructor; [|done]. split; [|lia]. eapply bt_ext; [|exact Hb]. intros l Hl.
      apply lookup_insert_ne. by intros ->.
  - simpl. rewrite app_nil_r. by constructor.
  - intros l. unfold h1. rewrite dom_insert. simpl. rewrite app_nil_r, elem_of_cons, elem_of_union, elem_of_singleton, Hdom.
    done.
Qed.

(** The result of [insert]: everything the memory holds is in the new tree. *)
Lemma inserted_rep h h' n key t t' :
  inserted h h' n key t t' → (1 ≤ nkeys t')%nat → (∀ l, l ∈ dom h ↔ l ∈ locs t) →
  rep h' (Some (addr t)) (Some t').
Proof.
  intros (Hb & Ha & _ & [Hd _ Hl Hnd] & _) Hk Hdom. split; [by rewrite Ha|]. split; [done|]. split; [done|].
  split; [by exists n|]. intros l. rewrite Hl, <- Hdom. specialize (Hd l).
  destruct (decide (l ∈ dom h)); tauto.
Qed.

Lemma split_root h n t key :
  bt h n t → nkeys t = 3%nat → NoDup (locs t) → (∀ l, l ∈ dom h ↔ l ∈ locs t) → sorted (inorder t) →
  ∃ h' root' t', insert key (Some (addr t)) h = Ok (root', h', []) ∧ rep h' root' (Some t') ∧
    sorted (inorder t') ∧ inorder t' ≡ₚ key :: inorder t.
Proof.
  intros Hb Hk Hnd Hdom Hs. destruct (createNode_ok h false) as (nr & Hnr & Hcreate).
  destruct (new_root h n t nr Hb Hk Hnd Hdom Hnr) as (Hb1 & Hnd1 & Hdom1).
  set (n0 := mkNode [None; None; None] 0 [None; None; None; None] false) in *.
  set (n1 := mkNode [None; None; None] 0 [Some (addr t); None; None; None] false) in *.
  set (h1 := <[nr := n1]> h) in *. cbv zeta in Hb1, Hdom1.
  assert (<[nr := n0]> h !! nr = Some n0) as Hnr0 by apply lookup_insert_eq.
  destruct t as [xf kc ds]. simpl in Hk. destruct (three _ Hk) as (a & b & c & ->).
  destruct (split_tree n h1 nr [] [] [] xf a b c ds Hb1 Hnd1) as (h2 & xn & Hsplit & Hb2 & Hg2 & Hin2); [simpl; lia|].
  cbv zeta in Hb2, Hg2, Hin2. simpl length in Hsplit, Hb2, Hg2, Hin2. simpl take in Hb2, Hg2, Hin2. simpl drop in Hb2, Hg2, Hin2.
  pose proof (bt_fuel _ _ _ Hb2 (grown_nodup _ _ _ _ Hg2)) as Hfuel.
  destruct (inserts_split n (size h2) h2 nr [] [] [] xf xn a b c _ _ key (Node nr [] [Node xf [a; b; c] ds]) h1
    (inserts_ok n) ltac:(lia) ltac:(simpl; lia) Hb2 Hg2 Hin2 eq_refl eq_refl) as (h' & t' & Hrun & Hins & Hkt).
  { intros y Hy. by apply Hdom1. }
  { exact Hs. }
  { simpl. lia. }
  { done. }
  exists h', (Some nr), t'. split; [|split; [|split]].
  - apply bt_eq in Hb as [(nd & Hx & Hn) _]. destruct Hb2 as [(p2 & Hx2 & Hp2) _].
    unfold insert. cbn [addr]. run (bt_rd_ok _ _ _ Hx). rewrite (holds_count _ _ _ _ Hn).
    change (Z.of_nat (length [a; b; c]) =? MAX) with true. cbv iota. run Hcreate. run (bt_rd_ok _ _ _ Hnr0).
    refine (bind_Ok _ _ _ [Some xf; None; None; None] _ [] _ _ [] eq_refl _).
    run (bt_wr_ok _ _ _ n1 Hnr0). rewrite insert_insert_eq. fold h1. run Hsplit. run (bt_rd_ok _ _ _ Hx2).
    run (lift_Ok _ h2 _ (holds_key _ _ _ _ 0 b Hp2 eq_refl)).
    refine (bind_Ok _ _ _ (Some (if key >? b then xn else xf)) h2 [] _ _ [] (lift_Ok _ _ _ _) _).
    { destruct (key >? b); [by apply (holds_ptr _ _ _ _ 1 xn Hp2)|by apply (holds_ptr _ _ _ _ 0 xf Hp2)]. }
    refine (bind_Ok _ _ _ _ _ [] _ _ [] eq_refl _). by run Hrun.
  - exact (inserted_rep _ _ _ _ _ _ Hins Hkt Hdom1).
  - by destruct Hins as (_ & _ & _ & _ & ? & _).
  - by destruct Hins as (_ & _ & _ & _ & _ & ?).
Qed.

(** *** Search *)

Lemma scan_ok n ks ps leaf key :
  holds n ks ps leaf →
  ∃ i : nat, scan (length (keys n)) (keys n) (count n) key 0 = Ok (Z.of_nat i) ∧ (i ≤ length ks)%nat ∧
    (∀ k, (0 < i)%nat → ks !! Nat.pred i = Some k → k < key) ∧ (∀ k, ks !! i = Some k → key ≤ k).
Proof.
  intros Hn. pose proof (holds_le _ _ _ _ Hn) as Hle. rewrite (holds_count _ _ _ _ Hn), (holds_klen _ _ _ _ Hn).
  assert (∀ m f, (m ≤ length ks)%nat → (length ks ≤ m + f)%nat →
    (∀ k, (0 < m)%nat → ks !! Nat.pred m = Some k → k < key) →
    ∃ i : nat, scan f (keys n) (Z.of_nat (length ks)) key (Z.of_nat m) = Ok (Z.of_nat i) ∧ (i ≤ length ks)%nat ∧
      (∀ k, (0 < i)%nat → ks !! Nat.pred i = Some k → k < key) ∧ (∀ k, ks !! i = Some k → key ≤ k)) as H.
  { intros m f. revert m. induction f as [|f IH]; intros m Hm Hf Hlo.
    - assert (m = length ks) as -> by lia. exists (length ks). simpl.
      destruct (Z.ltb_spec (Z.of_nat (length ks)) (Z.of_nat (length ks))); [lia|].
      split; [done|]. split; [done|]. split; [done|]. intros k Hk. apply lookup_lt_Some in Hk. lia.
    - simpl. destruct (Z.ltb_spec (Z.of_nat m) (Z.of_nat (length ks))) as [Hlt|Hge].
      + destruct (lookup_lt_is_Some_2 ks m) as [k Hk]; [lia|].
        rewrite (holds_key _ _ _ _ _ _ Hn Hk). simpl. rewrite Z.gtb_ltb.
        destruct (Z.ltb_spec k key).
        * replace (Z.of_nat m + 1) with (Z.of_nat (S m)) by lia. apply IH; [lia|lia|].
          intros k' _ Hk'. simpl in Hk'. by simplify_eq.
        * exists m. split; [done|]. split; [done|]. split; [done|]. intros k' Hk'. by simplify_eq.
      + exists m. split; [done|]. split; [done|]. split; [done|]. intros k Hk. apply lookup_lt_Some in Hk. lia. }
  apply (H O 3%nat); [lia|lia|]. intros; lia.
Qed.

(** What the position found by [scan] says about a sorted list around it. *)
Lemma around (A I B : list Z) key :
  sorted (A ++ I ++ B) →
  (A = [] ∨ ∃ A0 k, k < key ∧ A = A0 ++ [k]) → (B = [] ∨ ∃ k B0, key < k ∧ B = k :: B0) →
  key ∈ A ++ I ++ B ↔ key ∈ I.
Proof.
  rewrite !sorted_app_inv. intros (HA & (_ & HB & _) & _) HAk HBk. rewrite !elem_of_app.
  split; [|by right; left]. intros [Hin|[Hin|Hin]]; [|done|].
  - destruct HAk as [->|(A0 & k & Hk & ->)]; [by apply elem_of_nil in Hin|].
    apply sorted_app_inv in HA as (_ & _ & HA). apply elem_of_app in Hin as [Hin|Hin%list_elem_of_singleton]; [|lia].
    specialize (HA key k Hin). rewrite list_elem_of_singleton in HA. specialize (HA eq_refl). lia.
  - destruct HBk as [->|(k & B0 & Hk & ->)]; [by apply elem_of_nil in Hin|].
    apply StronglySorted_inv in HB as [_ HB]. rewrite Forall_forall in HB.
    apply elem_of_cons in Hin as [->|Hin]; [lia|]. specialize (HB key Hin). lia.
Qed.

(** A key found in the node. *)
Lemma weave_key ks ls (i : nat) k :
  ls = [] ∨ length ls = S (length ks) → ks !! i = Some k → k ∈ weave ks ls.
Proof.
  revert ks i. induction ls as [|l ls IH]; intros ks i Hl Hk; simpl.
  - by eapply list_elem_of_lookup_2.
  - destruct Hl as [?|Hl]; [done|]. destruct ks as [|k0 ks]; [done|]. simpl in Hl.
    rewrite elem_of_app, elem_of_cons. right. destruct i as [|i]; [left; by simplify_eq/=|right].
    apply (IH ks i); [right; lia|done].
Qed.

Lemma btree_hit_ok n ks ps leaf (i : nat) key :
  holds n ks ps leaf →
  (if Z.of_nat i <? count n then x ← uget (keys n) (Z.of_nat i); Ok (key =? x) else Ok false) =
  Ok (bool_decide (ks !! i = Some key)).
Proof.
  intros Hn. rewrite (holds_count _ _ _ _ Hn). destruct (ks !! i) as [k|] eqn:Hk.
  - apply lookup_lt_Some in Hk as Hlt. destruct (Z.ltb_spec (Z.of_nat i) (Z.of_nat (length ks))); [|lia].
    rewrite (holds_key _ _ _ _ _ _ Hn Hk). simpl. f_equal. case_bool_decide; simplify_eq; [by apply Z.eqb_refl|].
    apply Z.eqb_neq. congruence.
  - apply lookup_ge_None in Hk. destruct (Z.ltb_spec (Z.of_nat i) (Z.of_nat (length ks))); [lia|done].
Qed.

(** A key that is not at the position of a leaf is not in the leaf. *)
Lemma leaf_miss ks (i : nat) key :
  sorted ks → (i ≤ length ks)%nat → (∀ k, (0 < i)%nat → ks !! Nat.pred i = Some k → k < key) →
  (∀ k, ks !! i = Some k → key ≤ k) → ks !! i ≠ Some key → key ∉ ks.
Proof.
  intros Hs Hi Hlo Hhi Hne Hin. rewrite <- (take_drop i ks), <- (app_nil_l (drop i ks)) in Hin, Hs.
  apply (around _ [] _ key Hs) in Hin; [by apply elem_of_nil in Hin| |].
  - destruct i as [|j]; [by left|right]. destruct (lookup_lt_is_Some_2 ks j) as [k' Hk']; [lia|].
    exists (take j ks), k'. split; [apply Hlo; [lia|done]|]. by apply take_S_r.
  - destruct (ks !! i) as [k|] eqn:Hk.
    + right. exists k, (drop (S i) ks). split; [|by apply drop_S].
      specialize (Hhi k eq_refl). assert (k ≠ key) by congruence. lia.
    + left. apply drop_ge. by apply lookup_ge_None.
Qed.

Lemma searchKey_ok n fuel h t key :
  bt h n t → sorted (inorder t) → (n ≤ fuel)%nat →
  searchKey fuel key (Some (addr t)) h = Ok (bool_decide (key ∈ inorder t), h, []).
Proof.
  revert fuel t. induction n as [|n IH]; intros fuel [x ks cs] Hb Hs Hf;
    pose proof Hb as [(nd & Hx & Hn) Hc]; destruct (scan_ok _ _ _ _ key Hn) as (i & Hscan & Hi & Hlo & Hhi);
    pose proof (btree_hit_ok _ _ _ _ i key Hn) as Hhit.
  - simpl in Hc. subst cs. cbn [inorder map weave] in *.
    destruct fuel; cbn [searchKey addr]; run (bt_rd_ok _ _ _ Hx); run (lift_Ok _ h _ Hscan);
      run (lift_Ok _ h _ Hhit); rewrite (holds_leaf _ _ _ _ Hn); case_bool_decide as Hk.
    + rewrite bool_decide_true; [done|]. by eapply list_elem_of_lookup_2.
    + rewrite bool_decide_false; [done|]. by eapply leaf_miss.
    + rewrite bool_decide_true; [done|]. by eapply list_elem_of_lookup_2.
    + rewrite bool_decide_false; [done|]. by eapply leaf_miss.
  - destruct fuel as [|fuel]; [lia|]. destruct Hc as [Hlen Hcs].
    cbn [searchKey addr]. run (bt_rd_ok _ _ _ Hx). run (lift_Ok _ h _ Hscan). run (lift_Ok _ h _ Hhit).
    rewrite (holds_leaf _ _ _ _ Hn). case_bool_decide as Hk.
    { rewrite bool_decide_true; [done|]. apply (weave_key _ _ i); [right; by rewrite length_map|done]. }
    destruct (lookup_lt_is_Some_2 cs i) as [c Hci]; [lia|].
    run (lift_Ok _ h _ (holds_ptr _ _ _ _ i (addr c) Hn ltac:(by rewrite list_lookup_fmap, Hci))).
    apply list_elem_of_lookup_2 in Hci as Hin. rewrite Forall_forall in Hcs. destruct (Hcs c Hin) as [Hbc _].
    apply take_drop_middle in Hci as Hsplit. assert (length (take i cs) = i) as Hli by (rewrite length_take; lia).
    destruct (weave_focus ks (map inorder (take i cs)) (inorder c) (map inorder (drop (S i) cs)))
      as (A & B & Hw & HA & HB).
    { rewrite length_app. simpl. rewrite !length_map, Hli, length_drop. lia. }
    assert (inorder (Node x ks cs) = A ++ inorder c ++ B) as Hino.
    { rewrite <- Hw. cbn [inorder]. f_equal. by rewrite <- Hsplit, map_app at 1. }
    rewrite length_map, Hli in HA, HB. rewrite Hino in *.
    rewrite (IH fuel c Hbc); [|rewrite !sorted_app_inv in Hs; tauto|lia].
    do 3 f_equal. apply bool_decide_ext. symmetry. apply around; [done| |].
    + destruct HA as [[_ ->]|(A0 & k & Hpos & Hk0 & ->)]; [by left|right]. exists A0, k. split; [by apply Hlo|done].
    + destruct HB as [[_ ->]|(k & B0 & Hk0 & ->)]; [by left|right]. exists k, B0. split; [|done].
      specialize (Hhi k Hk0). assert (k ≠ key) by congruence. lia.
Qed.

End BTreeSpec.

Section BTreeTheorems.
Import BTree BTreeSpec.

(** C4: [insert] into a B-tree whose keys are in order: it never leaves an
    array or dereferences [NULL], the recursion ends, and the memory then holds
    exactly a B-tree (all leaves at one depth, one to three keys in every node,
    one child more than keys) whose keys are in order and are the old ones with
    the key added. *)
Theorem btree_insert_correct (h : heap) (root : ptr) (t : option btree) (key : Z) :
  rep h root t → StronglySorted Z.le (elements t) →
  ∃ h' root' t', insert key root h = Ok (root', h', []) ∧ rep h' root' (Some t') ∧
    StronglySorted Z.le (inorder t') ∧ inorder t' ≡ₚ key :: elements t.
Proof.
  intros Hrep Hs. destruct t as [t|].
  - destruct Hrep as (-> & Hnd & Hk & [n Hb] & Hdom). simpl in Hs.
    assert (∃ nd, h !! addr t = Some nd ∧ count nd = Z.of_nat (nkeys t) ∧ (nkeys t ≤ 3)%nat) as (nd & Hx & Hc & Hk3).
    { destruct t as [x ks cs]. apply bt_eq in Hb as [(nd & Hx & Hn) _]. exists nd. split; [done|].
      split; [apply (holds_count _ _ _ _ Hn)|by eapply holds_le]. }
    destruct (decide (nkeys t = 3%nat)) as [Hfull|Hfree]; [by apply (split_root h n)|].
    destruct (inserts_ok n (size h) h t key Hb Hnd ltac:(lia) Hs (bt_fuel _ _ _ Hb Hnd)) as (h' & t' & Hrun & Hins).
    exists h', (Some (addr t)), t'. pose proof Hins as (_ & _ & Hkt & _ & Hs' & Hp).
    split; [|split; [eapply inserted_rep; [exact Hins|lia|done]|done]].
    unfold insert. run (bt_rd_ok _ _ _ Hx). rewrite Hc.
    replace (Z.of_nat (nkeys t) =? MAX) with false by (unfold MAX; symmetry; apply Z.eqb_neq; lia).
    refine (bind_Ok _ _ _ _ _ [] _ _ [] eq_refl _). by run Hrun.
  - destruct Hrep as [-> ->].
    exists {[ fresh (dom (∅ : heap)) := mkNode [Some key; None; None] 1 [None; None; None; None] true ]},
      (Some (fresh (dom (∅ : heap)))), (Node (fresh (dom (∅ : heap))) [key] []).
    split; [done|]. split; [|by repeat constructor].
    split; [done|]. split; [by apply NoDup_singleton|]. split; [done|]. split.
    + exists O. split; [|done]. eexists. split; [apply lookup_singleton_eq|done].
    + intros l. rewrite dom_singleton, elem_of_singleton. simpl. by rewrite list_elem_of_singleton.
Qed.

Lemma btree_insert_correct_witness :
  ∃ h' root' t', insert 10 None ∅ = Ok (root', h', []) ∧ rep h' root' (Some t') ∧
    StronglySorted Z.le (inorder t') ∧ inorder t' ≡ₚ [10].
Proof. refine (btree_insert_correct ∅ None None 10 _ _); [done|constructor]. Defined.

(** [searchKey] ends, dereferences only live nodes and returns [true]
    exactly for the keys of the tree, in any B-tree whose keys are in order, with
    the memory itself as bound on its recursion. *)
Theorem btree_search_correct (h : heap) (root : ptr) (t : option btree) (key : Z) :
  rep h root t → StronglySorted Z.le (elements t) →
  searchKey (size h) key root h = Ok (bool_decide (key ∈ elements t), h, []).
Proof.
  intros Hrep Hs. destruct t as [t|].
  - destruct Hrep as (-> & Hnd & _ & [n Hb] & _). simpl. eapply searchKey_ok; [done|done|by eapply bt_fuel].
  - destruct Hrep as [-> ->]. simpl. done.
Qed.

Definition sample : heap := {[ 1%positive := mkNode [Some 5; Some 8; None] 2 [None; None; None; None] true ]}.

Lemma rep_sample_leaf : rep sample (Some 1%positive) (Some (Node 1 [5; 8] [])).
Proof.
  split; [done|]. split; [by apply NoDup_singleton|]. split; [simpl; lia|]. split.
  - exists O. split; [|done]. eexists. split; [apply lookup_singleton_eq|done].
  - intros l. unfold sample. rewrite dom_singleton, elem_of_singleton. simpl. by rewrite list_elem_of_singleton.
Qed.

Lemma btree_search_correct_witness :
  searchKey (size sample) 8 (Some 1%positive) sample = Ok (true, sample, []).
Proof. refine (btree_search_correct sample _ _ 8 rep_sample_leaf _). repeat constructor; lia. Defined.

End BTreeTheorems.
