(* ===== verification/BPlusTree.v ===== *)
(** * The B+ tree of [day-7(B-Tree)/b-plus-tree.c]

    [BPlusTree] models the file over an explicit memory of nodes with their
    fixed-size arrays; [BPlusSpec] shows how far it works. *)
From stdpp Require Import base list gmap strings pretty sorting.
From Stdlib Require Import ZArith Lia.
From S2P Require Import Prelude.
From S2P Require Import BTree.
Local Open Scope Z_scope.

(** ** [b-plus-tree.c] *)
Module BPlusTree.

Record BPlusTreeNode : Set := mkNode {
  keys : list (option Z); child : list ptr; count : Z; isleaf : bool; next : ptr }.

Abbreviation heap := (gmap loc BPlusTreeNode).

Definition rd (p : ptr) : C heap BPlusTreeNode := h ← get; lift (load h p).
Definition wr (p : ptr) (n : BPlusTreeNode) : C heap unit :=
  h ← get; h' ← lift (store h p n); put h'.

Definition createNode (isLeaf : bool) : C heap ptr :=
  h ← get;
  let '(l, h') := malloc h (mkNode [None; None; None] [None; None; None; None] 0 isLeaf None) in
  put h' ;; mret (Some l).

(** The loop is that of [BTree.slide]. *)
Definition insertIntoLeaf (leaf : ptr) (key : Z) : C heap unit :=
  n ← rd leaf;
  '(ks, i) ← lift (BTree.slide (Z.to_nat (count n)) (keys n) key);
  ks ← lift (aset ks i (Some key));
  wr leaf (mkNode ks (child n) (count n + 1) (isleaf n) (next n)).

(** The new leaf, and [*newKey]. *)
Definition splitLeaf (leaf : ptr) : C heap (ptr * Z) :=
  let mid := (MAX + 1) / 2 in
  newLeaf ← createNode true;
  n ← rd leaf;
  m ← rd newLeaf;
  ks ← lift (BTree.copy (keys n) (keys m) mid (seqZ 0 (MAX - mid)));
  wr newLeaf (mkNode ks (child m) (count m + Z.max 0 (MAX - mid)) (isleaf m) (next n)) ;;
  wr leaf (mkNode (keys n) (child n) mid (isleaf n) newLeaf) ;;
  k ← lift (uget ks 0);
  mret (newLeaf, k).

(** The loop of [insertIntoInternal] from [i = n - 1] down. *)
Fixpoint slide_both (n : nat) (keys : list (option Z)) (child : list ptr) (key : Z)
    : res (list (option Z) * list ptr * Z) :=
  match n with
  | O => Ok (keys, child, 0)
  | S i =>
      x ← uget keys (Z.of_nat i);
      if key <? x then
        keys ← aset keys (Z.of_nat i + 1) (Some x);
        c ← aget child (Z.of_nat i + 1);
        child ← aset child (Z.of_nat i + 2) c;
        slide_both i keys child key
      else Ok (keys, child, Z.of_nat i + 1)
  end.

Definition insertIntoInternal (internal : ptr) (key : Z) (c : ptr) : C heap unit :=
  n ← rd internal;
  '(ks, cs, i) ← lift (slide_both (Z.to_nat (count n)) (keys n) (child n) key);
  ks ← lift (aset ks i (Some key));
  cs ← lift (aset cs (i + 1) c);
  wr internal (mkNode ks cs (count n + 1) (isleaf n) (next n)).

Definition splitInternal (internal : ptr) : C heap (ptr * Z) :=
  newInternal ← createNode false;
  n ← rd internal;
  m ← rd newInternal;
  let mid := count n / 2 in
  let moved := count n - (mid + 1) in
  ks ← lift (BTree.copy (keys n) (keys m) (mid + 1) (seqZ 0 moved));
  cs ← lift (BTree.copy (child n) (child m) (mid + 1) (seqZ 0 moved));
  let cnt := count m + Z.max 0 moved in
  last ← lift (aget (child n) (count n));
  cs ← lift (aset cs cnt last);
  wr newInternal (mkNode ks cs cnt (isleaf m) (next m)) ;;
  k ← lift (uget (keys n) mid);
  wr internal (mkNode (keys n) (child n) mid (isleaf n) (next n)) ;;
  mret (newInternal, k).

(** The result is [None] when [*grew] is false, else the node returned and
    [*promoted]. *)
Fixpoint insert (fuel : nat) (root : ptr) (key : Z) : C heap (option (ptr * Z)) :=
  n ← rd root;
  if isleaf n then
    if count n <? MAX then insertIntoLeaf root key ;; mret None
    else
      insertIntoLeaf root key ;;
      r ← splitLeaf root;
      mret (Some r)
  else
    i ← lift (scan (length (keys n)) (keys n) (count n) key 0);
    c ← lift (aget (child n) i);
    match fuel with
    | O => lift (UB OutOfFuel)
    | S fuel =>
        r ← insert fuel c key;
        match r with
        | None => mret None
        | Some (newChild, newKey) =>
            n ← rd root;
            if count n <? MAX then insertIntoInternal root newKey newChild ;; mret None
            else
              insertIntoInternal root newKey newChild ;;
              r ← splitInternal root;
              mret (Some r)
        end
    end.

Definition insertKey (root : ptr) (key : Z) : C heap ptr :=
  match root with
  | None =>
      root ← createNode true;
      insertIntoLeaf root key ;;
      mret root
  | Some _ =>
      h ← get;
      r ← insert (size h) root key;
      match r with
      | None => mret root
      | Some (newChild, promoted) =>
          newRoot ← createNode false;
          n ← rd newRoot;
          ks ← lift (aset (keys n) 0 (Some promoted));
          cs ← lift (aset (child n) 0 root);
          cs ← lift (aset cs 1 newChild);
          wr newRoot (mkNode ks cs 1 (isleaf n) (next n)) ;;
          mret newRoot
      end
  end.

(** [for (j = 0; j < count; j++) if (keys[j] == key) return true]. *)
Fixpoint leaf_has (keys : list (option Z)) (js : list Z) (key : Z) : res bool :=
  match js with
  | [] => Ok false
  | j :: js => x ← uget keys j; if x =? key then Ok true else leaf_has keys js key
  end.

Fixpoint search (fuel : nat) (root : ptr) (key : Z) : C heap bool :=
  n ← rd root;
  i ← lift (scan (length (keys n)) (keys n) (count n) key 0);
  if isleaf n then lift (leaf_has (keys n) (seqZ 0 (count n)) key)
  else
    c ← lift (aget (child n) i);
    match fuel with O => lift (UB OutOfFuel) | S fuel => search fuel c key end.

(** The descent to a leaf, by the child that [choose] finds. *)
Fixpoint leaf_of (fuel : nat) (choose : BPlusTreeNode → res Z) (root : ptr) : C heap ptr :=
  n ← rd root;
  if isleaf n then mret root
  else
    i ← lift (choose n);
    c ← lift (aget (child n) i);
    match fuel with O => lift (UB OutOfFuel) | S fuel => leaf_of fuel choose c end.

Definition print_key (n : BPlusTreeNode) (i : Z) : C heap unit :=
  x ← lift (uget (keys n) i); printf (d x +:+ " ").

Fixpoint leaves_loop (fuel : nat) (root : ptr) : C heap unit :=
  match root with
  | None => mret tt
  | Some _ =>
      n ← rd root;
      for_each (print_key n) (seqZ 0 (count n)) ;;
      match fuel with O => lift (UB OutOfFuel) | S fuel => leaves_loop fuel (next n) end
  end.

Definition printLeaves (root : ptr) : C heap unit :=
  h ← get;
  root ← leaf_of (size h) (λ _, Ok 0) root;
  leaves_loop (size h) root ;;
  printf nl.

(** The keys of one leaf; [true] when the function returns there. *)
Fixpoint range_keys (n : BPlusTreeNode) (js : list Z) (start stop : Z) : C heap bool :=
  match js with
  | [] => mret false
  | i :: js =>
      x ← lift (uget (keys n) i);
      (if (start <=? x) && (x <=? stop) then printf (d x +:+ " ") else mret tt) ;;
      if stop <? x then mret true else range_keys n js start stop
  end.

Fixpoint range_loop (fuel : nat) (root : ptr) (start stop : Z) : C heap unit :=
  match root with
  | None => mret tt
  | Some _ =>
      n ← rd root;
      past ← range_keys n (seqZ 0 (count n)) start stop;
      if past : bool then mret tt
      else match fuel with O => lift (UB OutOfFuel) | S fuel => range_loop fuel (next n) start stop end
  end.

Definition printRange (root : ptr) (start stop : Z) : C heap unit :=
  h ← get;
  root ← leaf_of (size h) (λ n, scan (length (keys n)) (keys n) (count n) start 0) root;
  range_loop (size h) root start stop.

Fixpoint insert_all (root : ptr) (ks : list Z) : C heap ptr :=
  match ks with
  | [] => mret root
  | k :: ks => root ← insertKey root k; insert_all root ks
  end.

Definition main : C heap unit :=
  root ← insert_all None [10; 20; 5; 6; 12; 30; 7; 17; 25; 40];
  printf "All leaf keys in order: " ;;
  printLeaves root ;;
  h ← get;
  for_each (λ k,
    b ← search (size h) root k;
    printf (if b : bool then d k +:+ " found" +:+ nl else d k +:+ " not found" +:+ nl)) [6; 15; 25] ;;
  printf "Keys in range [10, 25]: " ;;
  printRange root 10 25 ;;
  printf nl.

End BPlusTree.

(** ** The B+ tree as far as it goes *)
Module BPlusSpec.
Import BPlusTree.

(** The memory after the keys [ks]: nothing, or one leaf that holds them in
    order. *)
Definition leaf_rep (h : heap) (root : ptr) (ks : list Z) : Prop :=
  match root with
  | None => ks = [] ∧ h = ∅
  | Some l =>
      ∃ arr ks', ks ≠ [] ∧ ks' ≡ₚ ks ∧ StronglySorted Z.le ks' ∧
        h = {[ l := mkNode arr [None; None; None; None] (Z.of_nat (length ks')) true None ]} ∧
        BTreeSpec.holds (BTree.mkNode arr (Z.of_nat (length ks')) [None; None; None; None] true) ks' [] true
  end.

Lemma bplus_rd_ok (h : heap) x n : h !! x = Some n → rd (Some x) h = Ok (n, h, []).
Proof. intros Hx. unfold rd. c_run. by rewrite (load_Some _ _ _ Hx). Qed.

Lemma insertIntoLeaf_ok l arr ks key :
  BTreeSpec.holds (BTree.mkNode arr (Z.of_nat (length ks)) [None; None; None; None] true) ks [] true →
  (length ks ≤ 2)%nat → StronglySorted Z.le ks →
  ∃ arr', insertIntoLeaf (Some l) key
      {[ l := mkNode arr [None; None; None; None] (Z.of_nat (length ks)) true None ]} =
      Ok (tt, {[ l := mkNode arr' [None; None; None; None] (Z.of_nat (length ks) + 1) true None ]}, []) ∧
    BTreeSpec.holds (BTree.mkNode arr' (Z.of_nat (length ks) + 1) [None; None; None; None] true)
      (BTreeSpec.add key ks) [] true.
Proof.
  intros Hn Hl Hs. destruct (BTreeSpec.leaf_insert _ ks key Hn Hl Hs) as (kx & i & arr' & Hsl & Has & Hn').
  simpl in Hsl, Hn'. exists arr'. split; [|done]. unfold insertIntoLeaf.
  refine (bind_Ok _ _ _ _ _ [] _ _ [] (bplus_rd_ok _ _ _ (lookup_singleton_eq _ _)) _). simpl.
  refine (bind_Ok _ _ _ _ _ [] _ _ [] (lift_Ok _ _ _ Hsl) _). cbv beta iota.
  refine (bind_Ok _ _ _ _ _ [] _ _ [] (lift_Ok _ _ _ Has) _).
  unfold wr. c_run. rewrite (store_Some _ _ _ _ (lookup_singleton_eq _ _)). by rewrite insert_singleton_eq.
Qed.

(** On a full leaf the fourth key is written behind the array. *)
Lemma insertIntoLeaf_full (h : heap) l n a b c key :
  h !! l = Some n → keys n = [Some a; Some b; Some c] → count n = 3 →
  insertIntoLeaf (Some l) key h = UB OutOfBounds.
Proof.
  intros Hl Hk Hc. unfold insertIntoLeaf. unfold mbind at 1, C_bind at 1. rewrite (bplus_rd_ok _ _ _ Hl).
  rewrite Hk, Hc. c_run. unfold uget, aget. simpl. destruct (key <? c); done.
Qed.

Lemma add_length key ks : length (BTreeSpec.add key ks) = S (length ks).
Proof. induction ks as [|k ks IH]; simpl; [done|]. destruct (key <? k); simpl; [done|by rewrite IH]. Qed.

Lemma insertKey_ok h root ks key :
  leaf_rep h root ks → (length ks ≤ 2)%nat →
  ∃ h' root', insertKey root key h = Ok (root', h', []) ∧ leaf_rep h' root' (key :: ks).
Proof.
  intros Hrep Hl. destruct root as [l|]; simpl in Hrep.
  - destruct Hrep as (arr & ks' & Hne & Hp & Hs & -> & Hn).
    assert (length ks' ≤ 2)%nat as Hl' by (by rewrite Hp).
    destruct (insertIntoLeaf_ok l arr ks' key Hn Hl' Hs) as (arr' & Hins & Hn').
    destruct (BTreeSpec.add_spec key ks' Hs) as [Hs' Hp'].
    eexists _, (Some l). split.
    + unfold insertKey. refine (bind_Ok _ _ _ _ _ [] _ _ [] eq_refl _).
      refine (bind_Ok _ _ _ None _ [] _ _ [] _ eq_refl).
      destruct (size _); simpl;
        refine (bind_Ok _ _ _ _ _ [] _ _ [] (bplus_rd_ok _ _ _ (lookup_singleton_eq _ _)) _); simpl;
        (destruct (Z.ltb_spec (Z.of_nat (length ks')) MAX); [|unfold MAX in *; lia]);
        refine (bind_Ok _ _ _ _ _ [] _ _ [] Hins _); done.
    + exists arr', (BTreeSpec.add key ks'). split; [done|]. split; [by rewrite Hp', Hp|]. split; [done|].
      rewrite add_length, Nat2Z.inj_succ. done.
  - destruct Hrep as [-> ->].
    destruct (insertIntoLeaf_ok (fresh (dom (∅ : heap))) [None; None; None] [] key) as (arr' & Hins & Hn');
      [done|simpl; lia|constructor|].
    eexists _, (Some (fresh (dom (∅ : heap)))). split.
    + unfold insertKey. refine (bind_Ok _ _ _ _ _ [] _ _ [] eq_refl _). rewrite insert_empty.
      refine (bind_Ok _ _ _ _ _ [] _ _ [] Hins _). done.
    + exists arr', [key]. split; [done|]. split; [done|]. split; [by repeat constructor|]. done.
Qed.

Lemma insertKey_full h root ks key :
  leaf_rep h root ks → length ks = 3%nat → insertKey root key h = UB OutOfBounds.
Proof.
  intros Hrep Hl. destruct root as [l|]; simpl in Hrep; [|destruct Hrep; by subst].
  destruct Hrep as (arr & ks' & Hne & Hp & Hs & -> & Hn).
  assert (length ks' = 3%nat) as Hl' by (by rewrite Hp). destruct (BTreeSpec.three _ Hl') as (a & b & c & ->).
  assert (arr = [Some a; Some b; Some c]) as Harr.
  { destruct (BTreeSpec.three _ (BTreeSpec.holds_klen _ _ _ _ Hn)) as (k0 & k1 & k2 & Hk). simpl in Hk.
    pose proof (BTreeSpec.holds_keys _ _ _ _ Hn) as Hk'. simpl in Hk'. rewrite Hk in Hk'. by simplify_eq/=. }
  set (h := {[ l := _ ]}).
  assert (h !! l = Some (mkNode arr [None; None; None; None] 3 true None)) as Hlk by apply lookup_singleton_eq.
  unfold insertKey. unfold mbind at 1, C_bind at 1. simpl. unfold mbind at 1, C_bind at 1.
  replace (insert (size h) (Some l) key h) with (UB (A := option (ptr * Z) * heap * list string) OutOfBounds); [done|].
  symmetry. destruct (size h); simpl; unfold mbind at 1, C_bind at 1; rewrite (bplus_rd_ok _ _ _ Hlk); simpl;
    unfold mbind at 1, C_bind at 1; by rewrite (insertIntoLeaf_full h l _ a b c key Hlk Harr).
Qed.

Lemma insert_all_ok h root ks ks0 :
  leaf_rep h root ks0 → (length ks0 ≤ 3)%nat →
  if decide (length ks0 + length ks ≤ 3)%nat then
    ∃ h' root', insert_all root ks h = Ok (root', h', []) ∧ leaf_rep h' root' (reverse ks ++ ks0)
  else insert_all root ks h = UB OutOfBounds.
Proof.
  revert h root ks0. induction ks as [|k ks IH]; intros h root ks0 Hrep Hl0; simpl.
  - rewrite decide_True by lia. by exists h, root.
  - destruct (decide (length ks0 = 3%nat)) as [Hfull|Hfree].
    + rewrite decide_False by lia. unfold mbind, C_bind. by rewrite (insertKey_full _ _ _ k Hrep Hfull).
    + destruct (insertKey_ok h root ks0 k Hrep ltac:(lia)) as (h1 & root1 & Hins & Hrep1).
      specialize (IH h1 root1 (k :: ks0) Hrep1 ltac:(simpl; lia)). simpl in IH.
      unfold mbind, C_bind. rewrite Hins. rewrite reverse_cons, <- app_assoc. simpl.
      destruct (decide (length ks0 + S (length ks) ≤ 3)%nat); [rewrite decide_True in IH by lia|
        rewrite decide_False in IH by lia; by rewrite IH].
      destruct IH as (h' & root' & -> & ?). by exists h', root'.
Qed.

Lemma leaf_has_ok n ks ps leaf key :
  BTreeSpec.holds n ks ps leaf →
  leaf_has (BTree.keys n) (seqZ 0 (Z.of_nat (length ks))) key = Ok (bool_decide (key ∈ ks)).
Proof.
  intros Hn.
  assert (∀ l1 l2, ks = l1 ++ l2 →
    leaf_has (BTree.keys n) (seqZ (Z.of_nat (length l1)) (Z.of_nat (length l2))) key = Ok (bool_decide (key ∈ l2))) as H.
  { intros l1 l2. revert l1. induction l2 as [|k l2 IH]; intros l1 Hks; [done|].
    simpl length. rewrite Nat2Z.inj_succ, seqZ_cons by lia. simpl.
    rewrite (BTreeSpec.holds_key _ _ _ _ _ k Hn) by (subst ks; by apply list_lookup_middle). simpl.
    destruct (Z.eqb_spec k key) as [->|Hne].
    - by rewrite bool_decide_true by (by left).
    - replace (Z.succ (Z.of_nat (length l1))) with (Z.of_nat (length (l1 ++ [k]))) by (rewrite length_app; simpl; lia).
      rewrite Z.pred_succ, IH by (by rewrite <- app_assoc). f_equal. apply bool_decide_ext.
      rewrite elem_of_cons. split; [by right|]. by intros [->|?]. }
  by apply (H []).
Qed.

End BPlusSpec.

Section BPlusTheorem.
Import BPlusTree BPlusSpec.

(** The B+ tree works for up to three keys and for no more: inserting at
    most three keys gives one leaf, in which [search] finds exactly them; any
    longer sequence writes behind the array [keys] of a full leaf. *)
Theorem bplus_three_keys (ks : list Z) :
  if decide (length ks ≤ 3)%nat then
    ∃ h root, insert_all None ks ∅ = Ok (root, h, []) ∧
      (ks ≠ [] → ∀ key, search (size h) root key h = Ok (bool_decide (key ∈ ks), h, []))
  else insert_all None ks ∅ = UB OutOfBounds.
Proof.
  pose proof (insert_all_ok ∅ None ks [] (conj eq_refl eq_refl) ltac:(simpl; lia)) as H. simpl in H.
  destruct (decide (length ks ≤ 3)%nat) as [Hle|]; [|done]. destruct H as (h & root & Hrun & Hrep).
  exists h, root. split; [done|]. intros Hne key. rewrite app_nil_r in Hrep.
  destruct root as [l|]; [|destruct Hrep as [Hr _]; apply (f_equal reverse) in Hr; by rewrite reverse_involutive in Hr].
  destruct Hrep as (arr & ks' & _ & Hp & _ & -> & Hn).
  destruct (BTreeSpec.scan_ok _ _ _ _ key Hn) as (i & Hscan & _). simpl in Hscan.
  pose proof (leaf_has_ok _ _ _ _ key Hn) as Hhas. simpl in Hhas.
  destruct (size _); simpl;
    refine (bind_Ok _ _ _ _ _ [] _ _ [] (bplus_rd_ok _ _ _ (lookup_singleton_eq _ _)) _); simpl;
    refine (bind_Ok _ _ _ _ _ [] _ _ [] (lift_Ok _ _ _ Hscan) _); apply lift_Ok;
    rewrite Hhas; f_equal; apply bool_decide_ext; by rewrite Hp, elem_of_reverse.
Qed.

(** The program's own ten keys are too many. *)
Example bplus_main_overflow : run_output main (∅ : heap) = UB OutOfBounds.
Proof. vm_compute. reflexivity. Qed.

End BPlusTheorem.
