(* ===== verification/TwoPhaseLocking.v ===== *)
(** * Two-phase locking: [concurrency-and-multithreading/2pl.c]

    Worker threads move money between accounts, each transfer under the mutexes
    of its two records.  [TwoPL] models the program as a step relation in which
    every load of an account, every store to one and every mutex operation is a
    step of its own, for any number of workers; [rand()] is a free choice, and
    what it gave is recorded.  [TwoPLSpec] gives the invariant and the
    serialization of the recorded transfers. *)
From stdpp Require Import base list gmap strings pretty sorting.
From Stdlib Require Import ZArith Lia Relations.
From S2P Require Import Prelude.

Module TwoPL.

Definition NUMBER_OF_ACCOUNTS : nat := 8.
Definition INITIAL_BALANCE : Z := 1000.
Definition NUMBER_OF_THREADS : nat := 4.
Definition TRANSFERS_PER_THREAD : nat := 2000.

(** What [worker] draws for one transfer. *)
Record transfer : Set := mktransfer { from : nat; to : nat; amount : Z }.

(** [rnd(0, NUMBER_OF_ACCOUNTS - 1)] twice and [rnd(1, 25)]. *)
Definition drawn (x : transfer) : Prop :=
  from x < NUMBER_OF_ACCOUNTS ∧ to x < NUMBER_OF_ACCOUNTS ∧ (1 ≤ amount x ≤ 25)%Z.

(** [a] and [b] of [tx_transfer] once they are in order. *)
Definition lo (x : transfer) : nat := if from x <? to x then from x else to x.
Definition hi (x : transfer) : nat := if from x <? to x then to x else from x.

(** Where a worker is, with the number of transfers it has done. *)
Inductive pc : Set :=
  | Loop (i : nat)                    (* the test of the [for] loop *)
  | LockLo (i : nat) (x : transfer)   (* [tx_lock_record(transaction, a)] *)
  | LockHi (i : nat) (x : transfer)   (* [tx_lock_record(transaction, b)] *)
  | Test (i : nat) (x : transfer)     (* [if (accounts[from] >= amount)] *)
  | Debit (i : nat) (x : transfer)    (* [accounts[from] -= amount]: the load *)
  | DebitStore (i : nat) (x : transfer) (v : Z)    (* ... the store, [v] loaded *)
  | Credit (i : nat) (x : transfer)   (* [accounts[to] += amount]: the load *)
  | CreditStore (i : nat) (x : transfer) (v : Z)   (* ... the store, [v] loaded *)
  | Commit (i : nat) (x : transfer)   (* the loop of [tx_commit] *)
  | Report (i : nat) (x : transfer)   (* [pthread_mutex_lock(&print_lock)] *)
  | Print (i : nat) (x : transfer)    (* [printf] and the unlock *)
  | Exit.

(** A worker with [transaction.locked_ids]. *)
Record thread : Set := mkthread { at_pc : pc; locked_ids : list nat }.

(** The shared state; a mutex holds the number of its owner.  [draws] is no
    variable of the program: it lists the transfers the workers have drawn, each
    with its worker, and no step reads it. *)
Record config : Set := mkconfig {
  accounts : list Z; record_lock : list (option nat); print_lock : option nat;
  threads : list thread; draws : list (nat * transfer) }.

Definition set_thread (c : config) (t : nat) (th : thread) : config :=
  mkconfig (accounts c) (record_lock c) (print_lock c) (<[t := th]> (threads c)) (draws c).
Definition set_account (c : config) (k : nat) (b : Z) : config :=
  mkconfig (<[k := b]> (accounts c)) (record_lock c) (print_lock c) (threads c) (draws c).
Definition set_lock (c : config) (k : nat) (o : option nat) : config :=
  mkconfig (accounts c) (<[k := o]> (record_lock c)) (print_lock c) (threads c) (draws c).
Definition set_print (c : config) (o : option nat) : config :=
  mkconfig (accounts c) (record_lock c) o (threads c) (draws c).
Definition draw (c : config) (t : nat) (x : transfer) : config :=
  mkconfig (accounts c) (record_lock c) (print_lock c) (threads c) (draws c ++ [(t, x)]).

(** [tx_lock_record]: a record in [locked_ids] is not locked again; another one
    is locked once its mutex is free. *)
Inductive tx_lock_record (t : nat) (ids : list nat) (id : nat) (c : config)
    : list nat → config → Prop :=
  | lock_again : id ∈ ids → tx_lock_record t ids id c ids c
  | lock_free :
      id ∉ ids → record_lock c !! id = Some None →
      tx_lock_record t ids id c (ids ++ [id]) (set_lock c id (Some t)).

(** One statement of worker [t]. *)
Inductive step (t : nat) (c : config) : config → Prop :=
  | step_begin i ids x :
      threads c !! t = Some (mkthread (Loop i) ids) → i < TRANSFERS_PER_THREAD → drawn x →
      from x ≠ to x →
      step t c (set_thread (draw c t x) t (mkthread (LockLo i x) []))
  | step_same i ids x :
      threads c !! t = Some (mkthread (Loop i) ids) → i < TRANSFERS_PER_THREAD → drawn x →
      from x = to x →
      step t c (set_thread (draw c t x) t (mkthread (Loop (S i)) []))
  | step_exit i ids :
      threads c !! t = Some (mkthread (Loop i) ids) → TRANSFERS_PER_THREAD ≤ i →
      step t c (set_thread c t (mkthread Exit ids))
  | step_lock_lo i x ids ids' c' :
      threads c !! t = Some (mkthread (LockLo i x) ids) → tx_lock_record t ids (lo x) c ids' c' →
      step t c (set_thread c' t (mkthread (LockHi i x) ids'))
  | step_lock_hi i x ids ids' c' :
      threads c !! t = Some (mkthread (LockHi i x) ids) → tx_lock_record t ids (hi x) c ids' c' →
      step t c (set_thread c' t (mkthread (Test i x) ids'))
  | step_enough i x ids b :
      threads c !! t = Some (mkthread (Test i x) ids) → accounts c !! from x = Some b →
      (amount x ≤ b)%Z → step t c (set_thread c t (mkthread (Debit i x) ids))
  | step_short i x ids b :
      threads c !! t = Some (mkthread (Test i x) ids) → accounts c !! from x = Some b →
      (b < amount x)%Z → step t c (set_thread c t (mkthread (Commit i x) ids))
  | step_debit i x ids b :
      threads c !! t = Some (mkthread (Debit i x) ids) → accounts c !! from x = Some b →
      step t c (set_thread c t (mkthread (DebitStore i x b) ids))
  | step_debit_store i x v ids :
      threads c !! t = Some (mkthread (DebitStore i x v) ids) →
      step t c (set_thread (set_account c (from x) (v - amount x)%Z) t (mkthread (Credit i x) ids))
  | step_credit i x ids b :
      threads c !! t = Some (mkthread (Credit i x) ids) → accounts c !! to x = Some b →
      step t c (set_thread c t (mkthread (CreditStore i x b) ids))
  | step_credit_store i x v ids :
      threads c !! t = Some (mkthread (CreditStore i x v) ids) →
      step t c (set_thread (set_account c (to x) (v + amount x)%Z) t (mkthread (Commit i x) ids))
  | step_unlock i x ids id :
      threads c !! t = Some (mkthread (Commit i x) (ids ++ [id])) →
      step t c (set_thread (set_lock c id None) t (mkthread (Commit i x) ids))
  | step_done i x :
      threads c !! t = Some (mkthread (Commit i x) []) →
      step t c (set_thread c t (mkthread (Loop (S i)) []))
  | step_report i x :
      threads c !! t = Some (mkthread (Commit i x) []) →
      step t c (set_thread c t (mkthread (Report i x) []))
  | step_print_lock i x ids :
      threads c !! t = Some (mkthread (Report i x) ids) → print_lock c = None →
      step t c (set_thread (set_print c (Some t)) t (mkthread (Print i x) ids))
  | step_print i x ids :
      threads c !! t = Some (mkthread (Print i x) ids) →
      step t c (set_thread (set_print c None) t (mkthread (Loop (S i)) ids)).

Definition any_step (c c' : config) : Prop := ∃ t, step t c c'.

Definition reachable : config → config → Prop := rtc any_step.

(** [main] before the joins, with [n] workers. *)
Definition start (n : nat) : config :=
  mkconfig (replicate NUMBER_OF_ACCOUNTS INITIAL_BALANCE) (replicate NUMBER_OF_ACCOUNTS None) None
    (replicate n (mkthread (Loop 0) [])) [].

Definition joined (c : config) : Prop := Forall (λ th, at_pc th = Exit) (threads c).
#[export] Instance pc_exit_dec (p : pc) : Decision (p = Exit).
Proof. destruct p; (by left) || (by right). Defined.
#[export] Instance joined_dec (c : config) : Decision (joined c).
Proof. unfold joined. apply _. Defined.

Definition total_balance (accounts : list Z) : Z := foldr Z.add 0%Z accounts.

(** The first line [main] prints. *)
Definition summary (initial_sum : Z) (c : config) : string :=
  "Initial total = Rs. " +:+ d initial_sum +:+ ", Final total = Rs. " +:+ d (total_balance (accounts c))
  +:+ " " +:+ nl.

End TwoPL.

(** ** The invariant *)
Module TwoPLSpec.
Import TwoPL.

(** The records a worker holds at each point: the growing phase takes the lower
    one first, the shrinking phase gives them back in reverse. *)
Definition thread_ok (th : thread) : Prop :=
  match at_pc th with
  | Loop i => locked_ids th = [] ∧ i ≤ TRANSFERS_PER_THREAD
  | Exit => locked_ids th = []
  | LockLo i x => locked_ids th = [] ∧ i < TRANSFERS_PER_THREAD ∧ drawn x ∧ from x ≠ to x
  | LockHi i x => locked_ids th = [lo x] ∧ i < TRANSFERS_PER_THREAD ∧ drawn x ∧ from x ≠ to x
  | Test i x | Debit i x | DebitStore i x _ | Credit i x | CreditStore i x _ =>
      locked_ids th = [lo x; hi x] ∧ i < TRANSFERS_PER_THREAD ∧ drawn x ∧ from x ≠ to x
  | Commit i x =>
      (locked_ids th = [lo x; hi x] ∨ locked_ids th = [lo x] ∨ locked_ids th = []) ∧
      i < TRANSFERS_PER_THREAD ∧ drawn x ∧ from x ≠ to x
  | Report i x | Print i x => locked_ids th = [] ∧ i < TRANSFERS_PER_THREAD
  end.

(** Money a worker has taken from one account and not yet put on the other. *)
Definition in_flight (th : thread) : Z :=
  match at_pc th with Credit _ x | CreditStore _ x _ => amount x | _ => 0%Z end.

Definition printing (th : thread) : bool := match at_pc th with Print _ _ => true | _ => false end.

(** What a worker has learnt of the balances [acc] of its two records. *)
Definition knows (acc : list Z) (th : thread) : Prop :=
  match at_pc th with
  | Debit _ x => ∀ b, acc !! from x = Some b → (amount x ≤ b)%Z
  | DebitStore _ x v => acc !! from x = Some v ∧ (amount x ≤ v)%Z
  | CreditStore _ x v => acc !! to x = Some v
  | _ => True
  end.

Record inv (c : config) : Prop := mkinv {
  inv_accounts : length (accounts c) = NUMBER_OF_ACCOUNTS;
  inv_locks : length (record_lock c) = NUMBER_OF_ACCOUNTS;
  inv_thread t th : threads c !! t = Some th → thread_ok th;
  inv_own k t : record_lock c !! k = Some (Some t) ↔ ∃ th, threads c !! t = Some th ∧ k ∈ locked_ids th;
  inv_print t : print_lock c = Some t ↔ ∃ th, threads c !! t = Some th ∧ printing th;
  inv_knows t th : threads c !! t = Some th → knows (accounts c) th;
  inv_positive k b : accounts c !! k = Some b → (0 ≤ b)%Z;
  inv_total : (total_balance (accounts c) + foldr Z.add 0 (in_flight <$> threads c) =
    Z.of_nat NUMBER_OF_ACCOUNTS * INITIAL_BALANCE)%Z
}.

(** *** Sums *)

Lemma balance_insert (l : list Z) i x y :
  l !! i = Some x → (foldr Z.add 0 (<[i := y]> l) = foldr Z.add 0 l - x + y)%Z.
Proof.
  revert i. induction l as [|z l IH]; intros [|i]; simpl; try done.
  - intros [= ->]. lia.
  - intros Hi. rewrite (IH _ Hi). lia.
Qed.

Lemma sum_fmap_insert (f : thread → Z) (l : list thread) i th th' :
  l !! i = Some th →
  (foldr Z.add 0 (f <$> <[i := th']> l) = foldr Z.add 0 (f <$> l) - f th + f th')%Z.
Proof.
  intros Hi. rewrite list_fmap_insert. apply balance_insert. by rewrite list_lookup_fmap, Hi.
Qed.

(** *** Ownership *)

Lemma lo_hi x : from x ≠ to x → lo x < hi x ∧ (from x = lo x ∨ from x = hi x) ∧ (to x = lo x ∨ to x = hi x).
Proof. intros Hne. unfold lo, hi. destruct (Nat.ltb_spec (from x) (to x)); lia. Qed.

Lemma hi_drawn x : drawn x → hi x < NUMBER_OF_ACCOUNTS ∧ lo x < NUMBER_OF_ACCOUNTS.
Proof. intros (? & ? & _). unfold lo, hi. destruct (from x <? to x); done. Qed.

(** Two workers never hold the same record. *)
Lemma tx_own_unique c k t1 t2 th1 th2 :
  inv c → threads c !! t1 = Some th1 → threads c !! t2 = Some th2 →
  k ∈ locked_ids th1 → k ∈ locked_ids th2 → t1 = t2.
Proof.
  intros Hi H1 H2 Hk1 Hk2.
  assert (record_lock c !! k = Some (Some t1)) as E1 by (apply (inv_own _ Hi); eauto).
  assert (record_lock c !! k = Some (Some t2)) as E2 by (apply (inv_own _ Hi); eauto).
  congruence.
Qed.

(** Both accounts of a transfer that has its records are locked. *)
Lemma own_both x ids : from x ≠ to x → ids = [lo x; hi x] → from x ∈ ids ∧ to x ∈ ids.
Proof. intros Hne ->. destruct (lo_hi x Hne) as (_ & [->| ->] & [->| ->]); set_solver. Qed.

(** What a worker knows stands on records it holds. *)
Lemma knows_stable acc acc' th :
  thread_ok th → (∀ k, k ∈ locked_ids th → acc' !! k = acc !! k) → knows acc th → knows acc' th.
Proof.
  intros Hok Hacc Hk. destruct th as [[] ids]; try done; cbv [thread_ok knows at_pc locked_ids] in *;
    destruct Hok as (Hids & _ & _ & Hne); destruct (own_both x ids Hne Hids) as [Hf Ht]; rewrite Hacc by done; done.
Qed.

(** The worker [t] goes from [th] to [th'] with the same records. *)
Lemma own_same c t th th' (k t' : nat) :
  inv c → threads c !! t = Some th → locked_ids th' = locked_ids th →
  record_lock c !! k = Some (Some t') ↔ ∃ u, <[t := th']> (threads c) !! t' = Some u ∧ k ∈ locked_ids u.
Proof.
  intros Hi Ht Hids. rewrite (inv_own _ Hi). apply lookup_lt_Some in Ht as Hlt.
  destruct (decide (t = t')) as [<-|Hne].
  - rewrite list_lookup_insert_eq by done. split; intros (u & Hu & Hk); simplify_eq; [exists th'|exists th].
    + by rewrite Hids.
    + by rewrite Hids in Hk.
  - by rewrite list_lookup_insert_ne.
Qed.

Lemma print_same c t th th' (t' : nat) :
  inv c → threads c !! t = Some th → printing th' = printing th →
  print_lock c = Some t' ↔ ∃ u, <[t := th']> (threads c) !! t' = Some u ∧ printing u.
Proof.
  intros Hi Ht Hp. rewrite (inv_print _ Hi). apply lookup_lt_Some in Ht as Hlt.
  destruct (decide (t = t')) as [<-|Hne].
  - rewrite list_lookup_insert_eq by done. split; intros (u & Hu & Hk); simplify_eq; [exists th'|exists th].
    + by rewrite Hp.
    + by rewrite Hp in Hk.
  - by rewrite list_lookup_insert_ne.
Qed.

Lemma thread_insert c t th' (P : thread → Prop) :
  (∀ t' u, threads c !! t' = Some u → P u) → P th' →
  ∀ t' u, <[t := th']> (threads c) !! t' = Some u → P u.
Proof.
  intros Hall Hth t' u Hu. apply list_lookup_insert_Some in Hu as [(_ & -> & _)|[_ Hu]]; [done|by eapply Hall].
Qed.

(** *** Every statement keeps the invariant *)

(** What has to be shown when worker [t] goes from [th] to [th']. *)
Lemma tx_inv_update c t th th' acc locks pr ds :
  inv c → threads c !! t = Some th → thread_ok th' →
  length acc = NUMBER_OF_ACCOUNTS → length locks = NUMBER_OF_ACCOUNTS →
  (∀ k t', locks !! k = Some (Some t') ↔ ∃ u, <[t := th']> (threads c) !! t' = Some u ∧ k ∈ locked_ids u) →
  (∀ t', pr = Some t' ↔ ∃ u, <[t := th']> (threads c) !! t' = Some u ∧ printing u) →
  (∀ k, k ∉ locked_ids th → acc !! k = accounts c !! k) →
  knows acc th' →
  (∀ k b, acc !! k = Some b → (0 ≤ b)%Z) →
  (total_balance acc + in_flight th' = total_balance (accounts c) + in_flight th)%Z →
  inv (mkconfig acc locks pr (<[t := th']> (threads c)) ds).
Proof.
  intros Hi Ht Hok Ha Hl Hown Hpr Hacc Hkn Hpos Hsum. constructor; simpl; try done.
  - eapply thread_insert; [apply (inv_thread _ Hi)|done].
  - intros t' u Hu. apply list_lookup_insert_Some in Hu as [(_ & <- & _)|[Hne Hu]]; [done|].
    apply (knows_stable (accounts c)); [by eapply inv_thread| |by eapply inv_knows].
    intros k Hk. apply Hacc. intros Hin. apply Hne. by eapply (tx_own_unique c k).
  - rewrite (sum_fmap_insert _ _ _ _ _ Ht). pose proof (inv_total _ Hi). lia.
Qed.

(** Statements that touch nothing shared. *)
Lemma tx_inv_local c t th th' :
  inv c → threads c !! t = Some th → thread_ok th' → locked_ids th' = locked_ids th →
  printing th' = printing th → in_flight th' = in_flight th →
  knows (accounts c) th' →
  inv (set_thread c t th').
Proof.
  intros Hi Ht Hok Hids Hp Hf Hd. unfold set_thread.
  apply (tx_inv_update c t th); try done; try apply Hi.
  - intros k t'. by apply (own_same c t th).
  - intros t'. by apply (print_same c t th).
  - lia.
Qed.

Lemma inv_lock c t th th' id :
  inv c → threads c !! t = Some th → thread_ok th' → record_lock c !! id = Some None →
  locked_ids th' = locked_ids th ++ [id] → printing th' = printing th → in_flight th = 0%Z → in_flight th' = 0%Z →
  knows (accounts c) th' →
  inv (set_thread (set_lock c id (Some t)) t th').
Proof.
  intros Hi Ht Hok Hid Hids Hp Hf Hf' Hnd. apply lookup_lt_Some in Ht as Hlt. apply lookup_lt_Some in Hid as Hidl.
  apply (tx_inv_update c t th); simpl; try done; try apply Hi.
  - rewrite length_insert. apply Hi.
  - intros k t'. destruct (decide (k = id)) as [->|Hk].
    + rewrite list_lookup_insert_eq by done. split.
      * intros [= <-]. exists th'. rewrite list_lookup_insert_eq by done. split; [done|]. rewrite Hids.
        apply elem_of_app. right. by left.
      * intros (u & Hu & Hin). apply list_lookup_insert_Some in Hu as [(-> & _ & _)|[_ Hu]]; [done|].
        exfalso. assert (record_lock c !! id = Some (Some t')) by (apply (inv_own _ Hi); eauto). congruence.
    + rewrite list_lookup_insert_ne by done. rewrite (inv_own _ Hi).
      destruct (decide (t = t')) as [<-|Hne]; [|by rewrite list_lookup_insert_ne].
      rewrite list_lookup_insert_eq by done. split; intros (u & Hu & Hin); simplify_eq; [exists th'|exists th];
        (split; [done|]).
      * rewrite Hids. apply elem_of_app. by left.
      * rewrite Hids in Hin. apply elem_of_app in Hin as [Hin|Hin%list_elem_of_singleton]; done.
  - intros t'. by apply (print_same c t th).
  - lia.
Qed.

Lemma inv_unlock c t i x ids id :
  inv c → threads c !! t = Some (mkthread (Commit i x) (ids ++ [id])) →
  inv (set_thread (set_lock c id None) t (mkthread (Commit i x) ids)).
Proof.
  intros Hi Ht. apply lookup_lt_Some in Ht as Hlt.
  pose proof (inv_thread _ Hi _ _ Ht) as (Hids & Hi' & Hx & Hne). simpl in Hids.
  assert ((id ∉ ids) ∧ thread_ok (mkthread (Commit i x) ids)) as [Hnin Hok].
  { destruct (lo_hi x Hne) as (Hlt' & _).
    destruct Hids as [Hids|[Hids|Hids]].
    - apply (app_inj_2 ids [lo x] [id] [hi x]) in Hids as [-> [= ->]]; [|done]. split; [set_solver by lia|].
      split; [auto|done].
    - apply (app_inj_2 ids [] [id] [lo x]) in Hids as [-> [= ->]]; [|done]. split; [set_solver|]. split; [auto|done].
    - by destruct ids. }
  assert (record_lock c !! id = Some (Some t)) as Hown.
  { apply (inv_own _ Hi). eexists. split; [done|]. simpl. apply elem_of_app. right. by left. }
  apply lookup_lt_Some in Hown as Hidl.
  apply (tx_inv_update c t (mkthread (Commit i x) (ids ++ [id]))); simpl; try done; try apply Hi.
  - rewrite length_insert. apply Hi.
  - intros k t'. destruct (decide (k = id)) as [->|Hk].
    + rewrite list_lookup_insert_eq by done. split; [done|]. intros (u & Hu & Hin).
      apply list_lookup_insert_Some in Hu as [(_ & <- & _)|[Hne' Hu]]; [done|].
      exfalso. assert (record_lock c !! id = Some (Some t')) by (apply (inv_own _ Hi); eauto). congruence.
    + rewrite list_lookup_insert_ne by done. rewrite (inv_own _ Hi).
      destruct (decide (t = t')) as [<-|Hne']; [|by rewrite list_lookup_insert_ne].
      rewrite list_lookup_insert_eq by done. split; intros (u & Hu & Hin); simplify_eq; eexists; (split; [done|]);
        simpl in *; set_solver.
  - intros t'. by apply (print_same c t (mkthread (Commit i x) (ids ++ [id]))).
Qed.

(** The store of a worker that holds both records. *)
Lemma inv_store c t i x th th' k b :
  inv c → threads c !! t = Some th → locked_ids th = [lo x; hi x] → i < TRANSFERS_PER_THREAD → drawn x → from x ≠ to x →
  k = from x ∨ k = to x → accounts c !! k = Some b →
  thread_ok th' → locked_ids th' = locked_ids th → printing th' = printing th →
  (∀ b', (0 ≤ b')%Z → (b' + in_flight th' = b + in_flight th)%Z →
     knows (<[k := b']> (accounts c)) th' → inv (set_thread (set_account c k b') t th')).
Proof.
  intros Hi Ht Hids Hlt Hx Hne Hk Hb Hok Hids' Hpr b' Hpos Hsum Hkn.
  destruct (own_both x _ Hne Hids) as [Hf Hto].
  apply (tx_inv_update c t th); simpl; try done; try apply Hi.
  - by rewrite length_insert, (inv_accounts _ Hi).
  - intros k' t'. by apply (own_same c t th).
  - intros t'. by apply (print_same c t th).
  - intros k' Hk'. apply list_lookup_insert_ne. intros <-. by destruct Hk as [-> | ->].
  - intros k' z Hz. apply list_lookup_insert_Some in Hz as [(_ & <- & _)|[_ Hz]]; [done|by apply (inv_positive _ Hi k')].
  - unfold total_balance. rewrite (balance_insert _ _ _ _ Hb). lia.
Qed.

Lemma inv_debit c t i x v ids :
  inv c → threads c !! t = Some (mkthread (DebitStore i x v) ids) →
  inv (set_thread (set_account c (from x) (v - amount x)) t (mkthread (Credit i x) ids)).
Proof.
  intros Hi Ht. pose proof (inv_thread _ Hi _ _ Ht) as (Hids & Hi' & Hx & Hne). simpl in Hids.
  destruct (inv_knows _ Hi _ _ Ht) as [Hb Hm].
  eapply (inv_store c t i x); try done; [by left|lia|unfold in_flight; simpl; lia].
Qed.

Lemma inv_credit c t i x v ids :
  inv c → threads c !! t = Some (mkthread (CreditStore i x v) ids) →
  inv (set_thread (set_account c (to x) (v + amount x)) t (mkthread (Commit i x) ids)).
Proof.
  intros Hi Ht. pose proof (inv_thread _ Hi _ _ Ht) as (Hids & Hi' & Hx & Hne). simpl in Hids.
  pose proof (inv_knows _ Hi _ _ Ht : accounts c !! to x = Some v) as Hb. pose proof (inv_positive _ Hi _ _ Hb).
  eapply (inv_store c t i x); try done; [by right|split; [auto|done]| |unfold in_flight; simpl; lia].
  destruct Hx as (_ & _ & ?). lia.
Qed.

Lemma inv_draw c t x : inv c → inv (draw c t x).
Proof. intros Hi. constructor; apply Hi. Qed.

Lemma inv_set_print c t th th' o :
  inv c → threads c !! t = Some th → thread_ok th' → locked_ids th' = locked_ids th →
  in_flight th' = 0%Z → in_flight th = 0%Z → knows (accounts c) th' →
  (∀ t', o = Some t' ↔ ∃ u, <[t := th']> (threads c) !! t' = Some u ∧ printing u) →
  inv (set_thread (set_print c o) t th').
Proof.
  intros Hi Ht Hok Hids Hf Hf' Hnd Hpr.
  apply (tx_inv_update c t th); simpl; try done; try apply Hi.
  - intros k t'. by apply (own_same c t th).
  - lia.
Qed.

(** Locking never meets a record the worker already has. *)
Lemma lock_record_free t ids id c ids' c' :
  tx_lock_record t ids id c ids' c' → id ∉ ids →
  record_lock c !! id = Some None ∧ ids' = ids ++ [id] ∧ c' = set_lock c id (Some t).
Proof. intros Hl Hn. by destruct Hl. Qed.

Lemma tx_inv_step t c c' : inv c → step t c c' → inv c'.
Proof.
  intros Hi Hst. destruct Hst as [i ids x Ht Hlt Hx Hne|i ids x Ht Hlt Hx He|i ids Ht Hge|i x ids ids' c1 Ht Hl
    |i x ids ids' c1 Ht Hl|i x ids b Ht Hb Hm|i x ids b Ht Hb Hm|i x ids b Ht Hb|i x v ids Ht|i x ids b Ht Hb|i x v ids Ht
    |i x ids id Ht|i x Ht|i x Ht|i x ids Ht Hp|i x ids Ht];
    pose proof (inv_thread _ Hi _ _ Ht) as Hok; cbv [thread_ok at_pc locked_ids] in Hok.
  - destruct Hok as [-> _]. by eapply (tx_inv_local (draw c t x)); [apply inv_draw|..].
  - destruct Hok as [-> _]. by eapply (tx_inv_local (draw c t x)); [apply inv_draw|..].
  - destruct Hok as [-> _]. by eapply tx_inv_local.
  - destruct Hok as (-> & ? & ? & ?). apply lock_record_free in Hl as (Hf & -> & ->); [|set_solver].
    by eapply inv_lock.
  - destruct Hok as (-> & ? & ? & Hne). destruct (lo_hi x Hne) as [Hlt _].
    apply lock_record_free in Hl as (Hf & -> & ->); [|rewrite list_elem_of_singleton; lia]. by eapply inv_lock.
  - eapply tx_inv_local; try done. intros b'. simpl. intros Hb'. simplify_eq. done.
  - eapply tx_inv_local; try done. destruct Hok as (? & ? & ? & ?). split; [auto|done].
  - eapply tx_inv_local; try done. split; [done|]. by apply (inv_knows _ Hi _ _ Ht).
  - by apply (inv_debit c t i x v ids).
  - by eapply tx_inv_local.
  - by apply (inv_credit c t i x v ids).
  - by apply inv_unlock.
  - eapply tx_inv_local; try done. destruct Hok as (_ & ? & _). split; [done|lia].
  - eapply tx_inv_local; try done. destruct Hok as (_ & ? & _). done.
  - eapply inv_set_print; try done. intros t'. simpl. split.
    + intros [= <-]. eexists. split; [by eapply lookup_self|done].
    + intros (u & Hu & Hpr). apply list_lookup_insert_Some in Hu as [(-> & _ & _)|[_ Hu]]; [done|].
      assert (print_lock c = Some t') by (apply (inv_print _ Hi); eauto). congruence.
  - destruct Hok as [-> Hlt]. eapply inv_set_print; try done. intros t'. simpl. split; [done|].
    intros (u & Hu & Hpr). apply list_lookup_insert_Some in Hu as [(-> & <- & _)|[Hne Hu]]; [done|].
    assert (print_lock c = Some t') by (apply (inv_print _ Hi); eauto).
    assert (print_lock c = Some t) by (apply (inv_print _ Hi); eexists; split; [exact Ht|done]). congruence.
Qed.

Lemma tx_inv_start n : inv (start n).
Proof.
  constructor; unfold start; cbn [accounts record_lock print_lock threads]; try done.
  - intros t th [-> _]%lookup_replicate. split; [done|]. unfold TRANSFERS_PER_THREAD. lia.
  - intros k t. split.
    + intros [? _]%lookup_replicate. done.
    + intros (th & [-> _]%lookup_replicate & Hk). by apply elem_of_nil in Hk.
  - intros t. split; [done|]. intros (th & [-> _]%lookup_replicate & Hk). done.
  - intros t th [-> _]%lookup_replicate. done.
  - intros k b [-> _]%lookup_replicate. done.
  - assert (foldr Z.add 0 (in_flight <$> replicate n (mkthread (Loop 0) [])) = 0)%Z as Hz
      by (rewrite fmap_replicate; induction n as [|n IH]; [done|exact IH]).
    rewrite Hz. reflexivity.
Qed.

Lemma tx_inv_reachable n c : reachable (start n) c → inv c.
Proof.
  intros Hr. remember (start n) as c0 eqn:E. assert (inv c0) as Hi by (subst; apply tx_inv_start). clear E.
  induction Hr as [c|c1 c2 c3 [t Hst] _ IH]; [done|]. by apply IH, (tx_inv_step t c1).
Qed.

(** ** Atomic transfers *)

(** One transfer on its own. *)
Definition atomic (a : list Z) (x : transfer) : list Z :=
  match a !! from x with
  | Some b =>
      if (amount x <=? b)%Z then
        alter (λ z, z + amount x)%Z (to x) (alter (λ z, z - amount x)%Z (from x) a)
      else a
  | None => a
  end.

(** What a worker that passed its test will still add to account [k]. *)
Definition pending (k : nat) (th : thread) : Z :=
  (match at_pc th with
   | Debit _ x | DebitStore _ x _ => (if decide (k = to x) then amount x else 0) - (if decide (k = from x) then amount x else 0)
   | Credit _ x | CreditStore _ x _ => if decide (k = to x) then amount x else 0
   | _ => 0
   end)%Z.

(** The accounts as if every transfer whose test succeeded were complete. *)
Definition settled (c : config) : list Z :=
  imap (λ k b, b + foldr Z.add 0 (pending k <$> threads c))%Z (accounts c).

Lemma settled_lookup c k :
  settled c !! k = (λ b, b + foldr Z.add 0 (pending k <$> threads c))%Z <$> accounts c !! k.
Proof. unfold settled. by rewrite list_lookup_imap. Qed.

(** A worker that holds [k] is the only one with something pending there. *)
Lemma pending_other c t th k t' u :
  inv c → threads c !! t = Some th → k ∈ locked_ids th → threads c !! t' = Some u → t' ≠ t → pending k u = 0%Z.
Proof.
  intros Hi Ht Hk Hu Hne.
  assert (k ∉ locked_ids u) as Hnk by (intros Hku; apply Hne; by eapply tx_own_unique).
  pose proof (inv_thread _ Hi _ _ Hu) as Hok. unfold pending, thread_ok in *.
  destruct u as [[] ids]; simpl in *; try done; destruct Hok as (-> & _ & _ & Hft);
    destruct (lo_hi x Hft) as (_ & Hf & Hto).
  1,2: rewrite !decide_False; [done|intros ->; set_solver..].
  1,2: rewrite decide_False; [done|intros ->; set_solver].
Qed.

Lemma pending_sum c t th k :
  inv c → threads c !! t = Some th → k ∈ locked_ids th →
  foldr Z.add 0%Z (pending k <$> threads c) = pending k th.
Proof.
  intros Hi Ht Hk. pose proof (λ t' u, pending_other c t th k t' u Hi Ht Hk) as Hz. revert t Ht Hz. clear.
  induction (threads c) as [|u l IH]; intros [|t] Ht Hz; csimpl in *; try done.
  - injection Ht as ->. assert (foldr Z.add 0%Z (pending k <$> l) = 0%Z) as ->; [|lia].
    assert (∀ t' u, l !! t' = Some u → pending k u = 0%Z) as Hl by (intros t' u Hu; by apply (Hz (S t') u)).
    clear -Hl. induction l as [|u l IH]; [done|]. csimpl. rewrite (Hl 0 u eq_refl), IH; [done|].
    intros t' u'. apply (Hl (S t')).
  - rewrite (Hz 0 u eq_refl) by done. rewrite (IH t Ht); [done|]. intros t' u' Hu Hne. apply (Hz (S t') u' Hu). lia.
Qed.

(** The accounts that [t] changes, and what is pending there. *)
Lemma settled_ext c c' :
  (∀ k, (λ b, b + foldr Z.add 0 (pending k <$> threads c'))%Z <$> accounts c' !! k =
        (λ b, b + foldr Z.add 0 (pending k <$> threads c))%Z <$> accounts c !! k) →
  settled c' = settled c.
Proof. intros Hk. apply list_eq. intros k. by rewrite !settled_lookup. Qed.

Lemma settled_local c t th th' locks pr ds :
  threads c !! t = Some th → (∀ k, pending k th' = pending k th) →
  settled (mkconfig (accounts c) locks pr (<[t := th']> (threads c)) ds) = settled c.
Proof.
  intros Ht Hp. apply settled_ext. intros k. simpl. rewrite (sum_fmap_insert _ _ _ _ _ Ht), Hp.
  destruct (accounts c !! k); simpl; [f_equal; lia|done].
Qed.

(** At its test a worker sees the settled balance. *)
Lemma settled_test c t i x ids b :
  inv c → threads c !! t = Some (mkthread (Test i x) ids) → accounts c !! from x = Some b →
  settled c !! from x = Some b ∧ from x ≠ to x ∧ drawn x.
Proof.
  intros Hi Ht Hb. pose proof (inv_thread _ Hi _ _ Ht) as (Hids & _ & Hx & Hne). simpl in Hids.
  split; [|done]. rewrite settled_lookup, Hb. simpl. f_equal.
  rewrite (pending_sum c t _ (from x) Hi Ht); [unfold pending; simpl; lia|]. simpl. rewrite Hids.
  destruct (lo_hi x Hne) as (_ & [->| ->] & _); [by left|right; by left].
Qed.

Lemma settled_enough c t i x ids b :
  inv c → threads c !! t = Some (mkthread (Test i x) ids) → accounts c !! from x = Some b → (amount x ≤ b)%Z →
  settled (set_thread c t (mkthread (Debit i x) ids)) = atomic (settled c) x.
Proof.
  intros Hi Ht Hb Hm. destruct (settled_test _ _ _ _ _ _ Hi Ht Hb) as (Hs & Hne & _).
  unfold atomic. rewrite Hs. destruct (Z.leb_spec (amount x) b); [|lia].
  apply list_eq. intros k. rewrite settled_lookup. simpl. rewrite (sum_fmap_insert _ _ _ _ _ Ht).
  destruct (decide (k = to x)) as [->|Hto]; [|destruct (decide (k = from x)) as [->|Hf]].
  - rewrite list_lookup_alter_eq, list_lookup_alter_ne, settled_lookup, <- option_fmap_compose by done.
    destruct (accounts c !! to x); simpl; [|done]. f_equal. unfold pending. simpl.
    rewrite decide_True, decide_False by done. lia.
  - rewrite list_lookup_alter_ne, list_lookup_alter_eq, settled_lookup, <- option_fmap_compose by done.
    destruct (accounts c !! from x); simpl; [|done]. f_equal. unfold pending. simpl.
    rewrite decide_False, decide_True by done. lia.
  - rewrite !list_lookup_alter_ne, settled_lookup by done. destruct (accounts c !! k); simpl; [|done].
    f_equal. unfold pending. simpl. rewrite !decide_False by done. lia.
Qed.

(** Moving the pending amount into the account. *)
Lemma settled_write c t th th' k0 b b' :
  threads c !! t = Some th → accounts c !! k0 = Some b →
  (∀ k, pending k th' = pending k th + (if decide (k = k0) then b - b' else 0))%Z →
  settled (set_thread (set_account c k0 b') t th') = settled c.
Proof.
  intros Ht Hb Hp. apply settled_ext. intros k. simpl. rewrite (sum_fmap_insert _ _ _ _ _ Ht), Hp.
  destruct (decide (k = k0)) as [->|Hk].
  - rewrite (lookup_self _ _ _ _ Hb), Hb. simpl. f_equal. lia.
  - rewrite list_lookup_insert_ne by done. destruct (accounts c !! k); simpl; [f_equal; lia|done].
Qed.

Lemma joined_at c t th : joined c → threads c !! t = Some th → at_pc th = Exit.
Proof. intros Hj Ht. by eapply (Forall_lookup_1 _ _ t th Hj). Qed.

Lemma settled_joined c : joined c → settled c = accounts c.
Proof.
  intros Hj. apply list_eq. intros k. rewrite settled_lookup.
  assert (foldr Z.add 0%Z (pending k <$> threads c) = 0%Z) as ->.
  { induction Hj as [|[] l Hu _ IH]; [done|]. simpl in Hu. subst. csimpl. by rewrite IH. }
  destruct (accounts c !! k); simpl; [f_equal; lia|done].
Qed.

Lemma settled_start n : settled (start n) = replicate NUMBER_OF_ACCOUNTS INITIAL_BALANCE.
Proof.
  apply list_eq. intros k. rewrite settled_lookup. cbn [start accounts threads].
  assert (foldr Z.add 0%Z (pending k <$> replicate n (mkthread (Loop 0) [])) = 0%Z) as ->
    by (rewrite fmap_replicate; induction n as [|n IH]; [done|exact IH]).
  destruct (replicate _ _ !! k); simpl; [f_equal; lia|done].
Qed.

Lemma settled_short c t i x ids b :
  inv c → threads c !! t = Some (mkthread (Test i x) ids) → accounts c !! from x = Some b → (b < amount x)%Z →
  atomic (settled c) x = settled c.
Proof.
  intros Hi Ht Hb Hm. destruct (settled_test _ _ _ _ _ _ Hi Ht Hb) as (Hs & _).
  unfold atomic. rewrite Hs. by destruct (Z.leb_spec (amount x) b); [lia|].
Qed.

(** A transfer from an account to itself leaves it alone. *)
Lemma atomic_same a x : from x = to x → atomic a x = a.
Proof.
  intros He. unfold atomic. destruct (a !! from x) as [b|] eqn:Hb; [|done].
  destruct (amount x <=? b)%Z; [|done]. rewrite <- He. apply list_eq. intros k.
  destruct (decide (k = from x)) as [->|Hk]; [|by rewrite !list_lookup_alter_ne].
  rewrite !list_lookup_alter_eq, Hb. simpl. f_equal. lia.
Qed.

(** ** The serial order *)

(** What worker [t] contributes to a list of transfers. *)
Definition drawn_by (t : nat) (xs : list (nat * transfer)) : list transfer := (filter (λ p, p.1 = t) xs).*2.

(** The transfer a worker has drawn but not yet decided. *)
Definition current (th : thread) : list transfer :=
  match at_pc th with LockLo _ x | LockHi _ x | Test _ x => [x] | _ => [] end.

(** How many transfers a worker has drawn. *)
Definition count (th : thread) : nat :=
  match at_pc th with
  | Loop i => i
  | LockLo i _ | LockHi i _ | Test i _ | Debit i _ | DebitStore i _ _ | Credit i _ | CreditStore i _ _
  | Commit i _ | Report i _ | Print i _ => S i
  | Exit => TRANSFERS_PER_THREAD
  end.

(** [xs] is the order in which the transfers drawn so far have been decided. *)
Record serial (c : config) (xs : list (nat * transfer)) : Prop := mkserial {
  serial_accounts : settled c = foldl atomic (replicate NUMBER_OF_ACCOUNTS INITIAL_BALANCE) xs.*2;
  serial_draws t : drawn_by t (draws c) = drawn_by t xs ++ from_option current [] (threads c !! t);
  serial_count t th : threads c !! t = Some th → length (drawn_by t (draws c)) = count th;
  serial_drawn : Forall (λ p, drawn p.2) (draws c)
}.

Lemma drawn_by_app t xs ys : drawn_by t (xs ++ ys) = drawn_by t xs ++ drawn_by t ys.
Proof. unfold drawn_by. by rewrite filter_app, fmap_app. Qed.

Lemma drawn_by_own t zs : drawn_by t (pair t <$> zs) = zs.
Proof.
  unfold drawn_by. induction zs as [|z zs IH]; [done|]. csimpl. rewrite filter_cons_True by done. csimpl. by rewrite IH.
Qed.

Lemma drawn_by_other t t' zs : t ≠ t' → drawn_by t' (pair t <$> zs) = [].
Proof.
  intros Hne. unfold drawn_by. induction zs as [|z zs IH]; [done|]. csimpl. by rewrite filter_cons_False.
Qed.

(** Worker [t] draws [ds] and decides [zs]. *)
Lemma serial_update c t th th' acc locks pr dr ds zs xs :
  serial c xs → threads c !! t = Some th → dr = draws c ++ (pair t <$> ds) →
  settled (mkconfig acc locks pr (<[t := th']> (threads c)) dr) = foldl atomic (settled c) zs →
  Forall drawn ds → current th ++ ds = zs ++ current th' → count th' = count th + length ds →
  serial (mkconfig acc locks pr (<[t := th']> (threads c)) dr) (xs ++ (pair t <$> zs)).
Proof.
  intros Hs Ht -> Hset Hds Hcur Hcount. constructor; cbn [draws threads].
  - rewrite Hset, (serial_accounts _ _ Hs), fmap_app, foldl_app. f_equal. clear. induction zs as [|z zs IH]; [done|].
    csimpl. by rewrite <- IH.
  - intros t'. rewrite !drawn_by_app, (serial_draws _ _ Hs). destruct (decide (t = t')) as [<-|Hne].
    + rewrite (lookup_self _ _ _ _ Ht), Ht, !drawn_by_own. simpl. by rewrite <- !app_assoc, Hcur.
    + by rewrite list_lookup_insert_ne, !drawn_by_other, !app_nil_r by done.
  - intros t' u Hu. rewrite drawn_by_app, length_app. apply list_lookup_insert_Some in Hu as [(<- & <- & _)|[Hne Hu]].
    + by rewrite drawn_by_own, (serial_count _ _ Hs t th Ht).
    + rewrite drawn_by_other by done. rewrite (serial_count _ _ Hs t' u Hu). simpl. lia.
  - apply Forall_app. split; [apply Hs|]. apply Forall_fmap. by eapply Forall_impl.
Qed.

(** A statement that neither draws nor decides. *)
Lemma serial_same c t th th' acc locks pr xs :
  serial c xs → threads c !! t = Some th →
  settled (mkconfig acc locks pr (<[t := th']> (threads c)) (draws c)) = settled c →
  current th' = current th → count th' = count th →
  ∃ ys, serial (mkconfig acc locks pr (<[t := th']> (threads c)) (draws c)) ys.
Proof.
  intros Hs Ht Hset Hcur Hcount. eexists. eapply (serial_update c t th th' _ _ _ _ [] []); try done.
  - by rewrite app_nil_r.
  - by rewrite app_nil_r, Hcur.
  - simpl. lia.
Qed.

Lemma serial_step t c c' xs : inv c → step t c c' → serial c xs → ∃ ys, serial c' ys.
Proof.
  intros Hi Hst Hs. destruct Hst as [i ids x Ht Hlt Hx Hne|i ids x Ht Hlt Hx He|i ids Ht Hge|i x ids ids' c1 Ht Hl
    |i x ids ids' c1 Ht Hl|i x ids b Ht Hb Hm|i x ids b Ht Hb Hm|i x ids b Ht Hb|i x v ids Ht|i x ids b Ht Hb|i x v ids Ht
    |i x ids id Ht|i x Ht|i x Ht|i x ids Ht Hp|i x ids Ht];
    pose proof (inv_knows _ Hi _ _ Ht) as Hk;
    try (eapply (serial_same c t); [done|done|by eapply (settled_local c)|done|done]).
  - eexists. eapply (serial_update c t _ _ _ _ _ _ [x] []); try done; [by eapply (settled_local c)|by apply Forall_singleton|].
    cbn [count at_pc length]. lia.
  - eexists. eapply (serial_update c t _ _ _ _ _ _ [x] [x]); try done.
    + cbn [foldl]. rewrite (atomic_same _ x He). by eapply (settled_local c).
    + by apply Forall_singleton.
    + cbn [count at_pc length]. lia.
  - eapply (serial_same c t); [done|done|by eapply (settled_local c)|done|].
    destruct (inv_thread _ Hi _ _ Ht) as [_ Hle]. cbn [count at_pc]. lia.
  - destruct Hl; (eapply (serial_same c t); [done|done|by eapply (settled_local c)|done|done]).
  - destruct Hl; (eapply (serial_same c t); [done|done|by eapply (settled_local c)|done|done]).
  - eexists. eapply (serial_update c t _ _ _ _ _ _ [] [x]); try done; [by rewrite app_nil_r|by eapply settled_enough].
  - eexists. eapply (serial_update c t _ _ _ _ _ _ [] [x]); try done; [by rewrite app_nil_r|].
    cbn [foldl]. rewrite (settled_short _ _ _ _ _ _ Hi Ht Hb Hm). by eapply (settled_local c).
  - destruct Hk as [Hb _]. eapply (serial_same c t); [done|done| |done|done].
    eapply settled_write; [done|done|]. intros k. unfold pending. simpl. destruct (decide (k = from x)); lia.
  - eapply (serial_same c t); [done|done| |done|done].
    eapply settled_write; [done|exact Hk|]. intros k. unfold pending. simpl. destruct (decide (k = to x)); lia.
Qed.

Lemma serial_start n : serial (start n) [].
Proof.
  constructor; cbn [draws start threads]; [apply settled_start| | |constructor].
  - intros t. unfold drawn_by. destruct (replicate n _ !! t) as [th|] eqn:Ht; [|done].
    by apply lookup_replicate in Ht as [-> _].
  - by intros t th [-> _]%lookup_replicate.
Qed.

Lemma step_threads t c c' : step t c c' → length (threads c') = length (threads c).
Proof.
  intros Hst. destruct Hst; try match goal with H : tx_lock_record _ _ _ _ _ _ |- _ => destruct H end; apply length_insert.
Qed.

Lemma serial_reachable n c : reachable (start n) c → (∃ xs, serial c xs) ∧ length (threads c) = n.
Proof.
  intros Hr. apply rtc_nsteps in Hr as [m Hr]. revert c Hr. induction m as [|m IH]; intros c Hr.
  - inversion Hr. subst. split; [exists []; apply serial_start|apply length_replicate].
  - apply nsteps_inv_r in Hr as (c1 & Hr & [t Hst]). destruct (IH c1 Hr) as ((xs & Hs) & Hn).
    split; [|by rewrite (step_threads t c1 c)].
    eapply serial_step; [|done|done]. eapply (tx_inv_reachable n), (rtc_nsteps_2 _ _ _ Hr).
Qed.

(** *** Progress *)

(** The record a worker waits for or takes next. *)
Definition wants (th : thread) : option nat :=
  match at_pc th with LockLo _ x => Some (lo x) | LockHi _ x => Some (hi x) | _ => None end.

(** Every record a waiting worker holds is below the one it wants. *)
Lemma tx_wants_above c t th k k' :
  inv c → threads c !! t = Some th → wants th = Some k → k' ∈ locked_ids th → k' < k.
Proof.
  intros Hi Ht Hw Hk. pose proof (inv_thread _ Hi _ _ Ht) as Hok. destruct th as [[] ids]; cbv [wants at_pc] in Hw; simplify_eq/=;
    destruct Hok as (Hids & _ & _ & Hne); simpl in *; subst; [by apply elem_of_nil in Hk|].
  apply list_elem_of_singleton in Hk as ->. by destruct (lo_hi x Hne).
Qed.

Lemma tx_wants_bound c t th k : inv c → threads c !! t = Some th → wants th = Some k → k < NUMBER_OF_ACCOUNTS.
Proof.
  intros Hi Ht Hw. pose proof (inv_thread _ Hi _ _ Ht) as Hok. destruct th as [[] ids]; cbv [wants at_pc] in Hw; simplify_eq/=;
    destruct Hok as (_ & _ & Hx & _); by apply hi_drawn in Hx as [? ?].
Qed.

(** A worker whose record is free takes it. *)
Lemma wants_free c t th k :
  inv c → threads c !! t = Some th → wants th = Some k → record_lock c !! k = Some None → ∃ c', step t c c'.
Proof.
  intros Hi Ht Hw Hf.
  assert (k ∉ locked_ids th) as Hn by (intros Hk; pose proof (tx_wants_above _ _ _ _ _ Hi Ht Hw Hk); lia).
  destruct th as [[] ids]; cbv [wants at_pc] in Hw; simplify_eq/=; eexists.
  - eapply step_lock_lo; [exact Ht|]. by apply lock_free.
  - eapply step_lock_hi; [exact Ht|]. by apply lock_free.
Qed.

Definition first_transfer : transfer := mktransfer 0 0 1.

Lemma drawn_first : drawn first_transfer.
Proof. unfold drawn, first_transfer, NUMBER_OF_ACCOUNTS. simpl. lia. Qed.

Lemma account_some c k : inv c → k < NUMBER_OF_ACCOUNTS → ∃ b, accounts c !! k = Some b.
Proof. intros Hi Hk. apply lookup_lt_is_Some. by rewrite (inv_accounts _ Hi). Qed.

(** A worker that waits for no record and has not finished runs, or somebody
    prints and runs. *)
Lemma running_steps c t th :
  inv c → threads c !! t = Some th → wants th = None → at_pc th ≠ Exit → ∃ c', any_step c c'.
Proof.
  intros Hi Ht Hw He. pose proof (inv_thread _ Hi _ _ Ht) as Hok.
  destruct th as [[i|i x|i x|i x|i x|i x v|i x|i x v|i x|i x|i x|] ids]; cbv [wants at_pc] in Hw; simplify_eq/=; cbv [thread_ok at_pc locked_ids] in Hok.
  - destruct (decide (i < TRANSFERS_PER_THREAD)); (eexists; exists t).
    + by eapply (step_same t c i ids first_transfer), eq_refl; [| |apply drawn_first].
    + eapply step_exit; [done|lia].
  - destruct Hok as (_ & _ & (Hf & _) & _). destruct (account_some c _ Hi Hf) as [b Hb].
    destruct (decide (amount x ≤ b)%Z); (eexists; exists t); [by eapply step_enough|].
    eapply step_short; [done|done|lia].
  - destruct Hok as (_ & _ & (Hf & _) & _). destruct (account_some c _ Hi Hf) as [b Hb].
    eexists; exists t; by eapply step_debit.
  - eexists; exists t. by eapply step_debit_store.
  - destruct Hok as (_ & _ & (_ & Hf & _) & _). destruct (account_some c _ Hi Hf) as [b Hb].
    eexists; exists t; by eapply step_credit.
  - eexists; exists t. by eapply step_credit_store.
  - destruct Hok as ([-> |[-> | ->]] & _).
    + eexists; exists t. by apply (step_unlock t c i x [lo x] (hi x)).
    + eexists; exists t. by apply (step_unlock t c i x [] (lo x)).
    + eexists; exists t. by apply (step_done t c i x).
  - destruct (print_lock c) as [p|] eqn:Hp; [|eexists; exists t; by eapply step_print_lock].
    apply (inv_print _ Hi) in Hp as ([[] ids'] & Hu & Hpr); try done.
    eexists; exists p; by eapply step_print.
  - eexists; exists t. by eapply step_print.
Qed.

(** Waiting for ever higher records ends: somebody runs. *)
Lemma waiting_steps c d : inv c → ∀ t th k,
  threads c !! t = Some th → wants th = Some k → NUMBER_OF_ACCOUNTS - k ≤ d → ∃ c', any_step c c'.
Proof.
  intros Hi. induction d as [|d IH]; intros t th k Ht Hw Hd;
    pose proof (tx_wants_bound _ _ _ _ Hi Ht Hw) as Hk; [lia|].
  destruct (record_lock c !! k) as [[o|]|] eqn:Ho.
  - apply (inv_own _ Hi) in Ho as (u & Hu & Hin). destruct (wants u) as [k'|] eqn:Hw'.
    + pose proof (tx_wants_above _ _ _ _ _ Hi Hu Hw' Hin). by eapply (IH o u k'); [| |lia].
    + apply (running_steps c o u); try done. intros He. pose proof (inv_thread _ Hi _ _ Hu) as Hok.
      unfold thread_ok in Hok. rewrite He in Hok. rewrite Hok in Hin. by apply elem_of_nil in Hin.
  - destruct (wants_free c t th k) as [c' Hst]; try done. by exists c', t.
  - apply lookup_ge_None in Ho. rewrite (inv_locks _ Hi) in Ho. lia.
Qed.

Lemma tx_no_deadlock c : inv c → ¬ joined c → ∃ c', any_step c c'.
Proof.
  intros Hi Hj. unfold joined in Hj. apply not_Forall_Exists in Hj; [|intros []; destruct at_pc; (by left) || (by right)].
  apply Exists_exists in Hj as (th & [t Ht]%list_elem_of_lookup_1 & He). simpl in He.
  destruct (wants th) as [k|] eqn:Hw; [by eapply (waiting_steps c _ Hi)|by eapply running_steps].
Qed.

(** *** Every run is finite *)

(** Statements a worker still has to execute. *)
Definition fuel (th : thread) : nat :=
  match at_pc th with
  | Loop i => (TRANSFERS_PER_THREAD - i) * 20 + 1
  | LockLo i _ => (TRANSFERS_PER_THREAD - i) * 20
  | LockHi i _ => (TRANSFERS_PER_THREAD - i) * 20 - 1
  | Test i _ => (TRANSFERS_PER_THREAD - i) * 20 - 2
  | Debit i _ => (TRANSFERS_PER_THREAD - i) * 20 - 3
  | DebitStore i _ _ => (TRANSFERS_PER_THREAD - i) * 20 - 4
  | Credit i _ => (TRANSFERS_PER_THREAD - i) * 20 - 5
  | CreditStore i _ _ => (TRANSFERS_PER_THREAD - i) * 20 - 6
  | Commit i _ => (TRANSFERS_PER_THREAD - i) * 20 - 10 + length (locked_ids th)
  | Report i _ => (TRANSFERS_PER_THREAD - i) * 20 - 11
  | Print i _ => (TRANSFERS_PER_THREAD - i) * 20 - 12
  | Exit => 0
  end.

Definition work (c : config) : nat := sum_list_with fuel (threads c).

Lemma ids_at_most_two th : thread_ok th → length (locked_ids th) ≤ 2.
Proof.
  destruct th as [[] ids]; cbv [thread_ok at_pc locked_ids]; intros Hok;
    repeat match type of Hok with _ ∧ _ => destruct Hok as [Hok _] end; subst; simpl; try lia.
  destruct Hok as [-> |[-> | ->]]; simpl; lia.
Qed.

Lemma step_work t c c' : inv c → step t c c' → work c' < work c.
Proof.
  intros Hi Hst. unfold work. destruct Hst as [i ids x Ht Hlt Hx Hne|i ids x Ht Hlt Hx He|i ids Ht Hge|i x ids ids' c1 Ht Hl
    |i x ids ids' c1 Ht Hl|i x ids b Ht Hb Hm|i x ids b Ht Hb Hm|i x ids b Ht Hb|i x v ids Ht|i x ids b Ht Hb|i x v ids Ht
    |i x ids id Ht|i x Ht|i x Ht|i x ids Ht Hp|i x ids Ht];
    pose proof (inv_thread _ Hi _ _ Ht) as Hok; cbv [thread_ok at_pc locked_ids] in Hok;
    pose proof (ids_at_most_two _ (inv_thread _ Hi _ _ Ht)) as H2;
    try (destruct Hl); cbn [set_thread draw set_account set_lock set_print threads];
    (eapply sum_with_insert_lt; [exact Ht|]); cbn [fuel at_pc locked_ids] in *; rewrite ?length_app in *; simpl length in *;
    try lia.
Qed.

(** *** Consequences for every run *)

Lemma sum_bound (l : list Z) k b :
  (∀ i z, l !! i = Some z → (0 ≤ z)%Z) → l !! k = Some b → (b ≤ foldr Z.add 0 l)%Z.
Proof.
  revert k. induction l as [|z l IH]; intros [|k] Hp Hk; try done; simpl.
  - injection Hk as ->. enough (0 ≤ foldr Z.add 0 l)%Z by lia.
    clear IH. assert (∀ i z, l !! i = Some z → (0 ≤ z)%Z) as Hl by (intros i z; apply (Hp (S i))). clear Hp.
    induction l as [|z l IH]; simpl; [lia|]. pose proof (Hl 0 z eq_refl).
    enough (0 ≤ foldr Z.add 0 l)%Z by lia. apply IH. intros i z'. apply (Hl (S i)).
  - pose proof (Hp 0 z eq_refl). enough (b ≤ foldr Z.add 0 l)%Z by lia. apply (IH k); [|done]. intros i. apply (Hp (S i)).
Qed.

Lemma in_flight_positive c t z : inv c → (in_flight <$> threads c) !! t = Some z → (0 ≤ z)%Z.
Proof.
  intros Hi Hz. rewrite list_lookup_fmap in Hz. apply fmap_Some in Hz as (th & Ht & ->).
  pose proof (inv_thread _ Hi _ _ Ht) as Hok. destruct th as [[] ids]; cbv [in_flight at_pc]; try lia;
    destruct Hok as (_ & _ & (_ & _ & ?) & _); lia.
Qed.

Lemma in_flight_sum c : inv c → (0 ≤ foldr Z.add 0 (in_flight <$> threads c))%Z.
Proof.
  intros Hi. destruct (in_flight <$> threads c) as [|z l] eqn:E; [done|].
  assert (∀ i z', (z :: l) !! i = Some z' → (0 ≤ z')%Z) as Hp
    by (intros i z'; rewrite <- E; by apply in_flight_positive).
  pose proof (sum_bound (z :: l) 0 z Hp eq_refl). pose proof (Hp 0 z eq_refl). lia.
Qed.

Lemma run_length n m c : nsteps any_step m (start n) c → m + work c ≤ work (start n).
Proof.
  revert c. induction m as [|m IH]; intros c Hr; [inversion Hr; subst; lia|].
  apply nsteps_inv_r in Hr as (c1 & Hr & [t Hst]). specialize (IH c1 Hr).
  pose proof (step_work t c1 c (tx_inv_reachable n c1 (rtc_nsteps_2 _ _ _ Hr)) Hst). lia.
Qed.

Lemma work_start n : work (start n) = n * (TRANSFERS_PER_THREAD * 20 + 1).
Proof.
  unfold work, start. cbn [threads]. induction n as [|n IH]; [done|].
  change (replicate (S n) ?x) with (x :: replicate n x). cbn [sum_list_with]. rewrite IH.
  cbn [fuel at_pc]. rewrite Nat.sub_0_r. lia.
Qed.

Lemma run_to_join d c : inv c → work c ≤ d → ∃ c', reachable c c' ∧ joined c'.
Proof.
  revert c. induction d as [d IH] using lt_wf_ind. intros c Hi Hd.
  destruct (decide (joined c)) as [Hj|Hj]; [by exists c; split; [apply rtc_refl|]|].
  destruct (tx_no_deadlock c Hi Hj) as (c1 & t & Hst). pose proof (step_work t c c1 Hi Hst) as Hlt.
  destruct (IH (work c1)) with (c := c1) as (c2 & Hr & Hj'); [lia|by eapply tx_inv_step|done|].
  exists c2. split; [|done]. eapply rtc_l; [by exists t|done].
Qed.

(** ** The properties of the program *)

(** C9: two-phase locking makes the transfers serializable: when the workers of
    any run have all returned, each has drawn its 2000 transfers, and the
    accounts are what these transfers, executed whole and one after the other,
    make of the eight initial balances, in an order [xs] that takes every
    worker's transfers as the worker drew them (one whose source is short at its
    turn is skipped); the line [main] prints shows the same total, 8000, before
    and after. *)
Theorem twopl_serializable n c :
  reachable (start n) c → joined c →
  (∃ xs, accounts c = foldl atomic (replicate NUMBER_OF_ACCOUNTS INITIAL_BALANCE) xs.*2 ∧
     ∀ t, drawn_by t xs = drawn_by t (draws c)) ∧
  (∀ t, t < n → length (drawn_by t (draws c)) = TRANSFERS_PER_THREAD) ∧
  Forall (λ p, drawn p.2) (draws c) ∧
  summary (total_balance (accounts (start n))) c =
    ("Initial total = Rs. 8000, Final total = Rs. 8000 " +:+ nl)%string.
Proof.
  intros Hr Hj. destruct (serial_reachable n c Hr) as ((xs & Hs) & Hn). split; [|split; [|split]].
  - exists xs. split; [by rewrite <- (settled_joined c Hj), (serial_accounts _ _ Hs)|].
    intros t. rewrite (serial_draws _ _ Hs). destruct (threads c !! t) as [[p ids]|] eqn:Ht; simpl; [|by rewrite app_nil_r].
    pose proof (joined_at c t _ Hj Ht) as He. simpl in He. subst p. by rewrite app_nil_r.
  - intros t Hlt. rewrite <- Hn in Hlt. apply lookup_lt_is_Some in Hlt as [[p ids] Ht].
    rewrite (serial_count _ _ Hs t _ Ht). pose proof (joined_at c t _ Hj Ht) as He. simpl in He. by subst p.
  - apply Hs.
  - pose proof (inv_total _ (tx_inv_reachable n c Hr)) as Ht.
    assert (foldr Z.add 0 (in_flight <$> threads c) = 0)%Z as Hz.
    { clear -Hj. unfold joined in Hj. induction Hj as [|[] l Hu _ IH]; [done|]. simpl in Hu. subst. csimpl. by rewrite IH. }
    unfold summary. rewrite Hz, Z.add_0_r in Ht. rewrite Ht. reflexivity.
Qed.

(** At every point of every run, for any number of workers, no record is
    held by two workers, a mutex is taken exactly when a worker lists its record
    in [locked_ids], no balance is negative or above the 8000 there are in all
    (so [int] cannot overflow), and the balances with the money in transit
    always add up to 8000. *)
Theorem twopl_invariant n c :
  reachable (start n) c →
  (∀ k t, record_lock c !! k = Some (Some t) ↔ ∃ th, threads c !! t = Some th ∧ k ∈ locked_ids th) ∧
  (∀ k t1 t2 th1 th2, threads c !! t1 = Some th1 → threads c !! t2 = Some th2 →
     k ∈ locked_ids th1 → k ∈ locked_ids th2 → t1 = t2) ∧
  (∀ k b, accounts c !! k = Some b → (0 ≤ b ≤ 8000)%Z) ∧
  (total_balance (accounts c) + foldr Z.add 0 (in_flight <$> threads c) = 8000)%Z.
Proof.
  intros Hr. pose proof (tx_inv_reachable n c Hr) as Hi. split; [apply Hi|]. split; [intros; by eapply tx_own_unique|].
  pose proof (inv_total _ Hi) as Ht. split; [|exact Ht]. intros k b Hk. pose proof (inv_positive _ Hi _ _ Hk).
  pose proof (sum_bound _ _ _ (inv_positive _ Hi) Hk). pose proof (in_flight_sum c Hi).
  unfold total_balance, NUMBER_OF_ACCOUNTS, INITIAL_BALANCE in Ht. lia.
Qed.

(** C35: taking the lower record first rules deadlock out: from every point of
    every run some worker can go on until all have returned, no run is longer
    than 40001 statements per worker, and all of them can still be joined. *)
Theorem twopl_live n m c :
  nsteps any_step m (start n) c →
  (joined c ∨ ∃ c', any_step c c') ∧ m ≤ n * (TRANSFERS_PER_THREAD * 20 + 1) ∧ (∃ c', reachable c c' ∧ joined c').
Proof.
  intros Hr. pose proof (tx_inv_reachable n c (rtc_nsteps_2 _ _ _ Hr)) as Hi. split; [|split].
  - destruct (decide (joined c)); [by left|right; by apply tx_no_deadlock].
  - pose proof (run_length n m c Hr). rewrite work_start in *. lia.
  - by eapply run_to_join.
Qed.

(** *** A run *)

Definition alone (a : list Z) (th : thread) (ds : list (nat * transfer)) : config :=
  mkconfig a (replicate 8 None) None [th] ds.

(** A worker that draws the same account twice from now on returns. *)
Lemma idle_run a d i ds :
  TRANSFERS_PER_THREAD - i = d →
  reachable (alone a (mkthread (Loop i) []) ds) (alone a (mkthread Exit []) (ds ++ replicate d (0, first_transfer))).
Proof.
  revert i ds. induction d as [|d IH]; intros i ds Hd.
  - rewrite app_nil_r. apply rtc_once. exists 0. apply (step_exit 0 (alone a (mkthread (Loop i) []) ds) i []); [done|lia].
  - eapply rtc_l.
    + exists 0. apply (step_same 0 (alone a (mkthread (Loop i) []) ds) i [] first_transfer); [done|lia|apply drawn_first|done].
    + change (replicate (S d) ?x) with ([x] ++ replicate d x). rewrite app_assoc. apply (IH (S i)). lia.
Qed.

Definition one_transfer : transfer := mktransfer 3 1 25.

Definition after_one : config :=
  alone (<[1 := 1025%Z]> (<[3 := 975%Z]> (replicate 8 1000%Z))) (mkthread (Commit 0 one_transfer) []) [(0, one_transfer)].

(** One transfer of 25 from account 3 to account 1. *)
Lemma transfer_run : nsteps any_step 10 (start 1) after_one.
Proof.
  unfold start. eapply nsteps_l.
  { exists 0. apply (step_begin 0 _ 0 [] one_transfer); [done|unfold TRANSFERS_PER_THREAD; lia| |done].
    unfold drawn, NUMBER_OF_ACCOUNTS; simpl; lia. }
  eapply nsteps_l. { exists 0. eapply step_lock_lo; [done|]. apply lock_free; [apply not_elem_of_nil|done]. }
  eapply nsteps_l.
  { exists 0. eapply step_lock_hi; [done|]. apply lock_free; [|done]. cbv. intros H. inversion H as [|??? H']. inversion H'. }
  eapply nsteps_l. { exists 0. eapply (step_enough 0 _ 0 one_transfer); [done|done|]. simpl. done. }
  eapply nsteps_l. { exists 0. eapply step_debit; done. }
  eapply nsteps_l. { exists 0. eapply step_debit_store; done. }
  eapply nsteps_l. { exists 0. eapply step_credit; done. }
  eapply nsteps_l. { exists 0. eapply step_credit_store; done. }
  eapply nsteps_l. { exists 0. by apply (step_unlock 0 _ 0 one_transfer [1] 3). }
  eapply nsteps_l. { exists 0. by apply (step_unlock 0 _ 0 one_transfer [] 1). }
  apply nsteps_O.
Qed.

Definition final : config :=
  alone (<[1 := 1025%Z]> (<[3 := 975%Z]> (replicate 8 1000%Z))) (mkthread Exit [])
    ((0, one_transfer) :: replicate 1999 (0, first_transfer)).

Lemma final_run : reachable (start 1) final.
Proof.
  etrans; [apply (rtc_nsteps_2 _ _ _ transfer_run)|]. eapply rtc_l; [exists 0; by eapply step_done|].
  by apply (idle_run _ 1999 1 [(0, one_transfer)]).
Qed.

Lemma twopl_serializable_witness :
  (∃ xs, accounts final = foldl atomic (replicate NUMBER_OF_ACCOUNTS INITIAL_BALANCE) xs.*2 ∧
     ∀ t, drawn_by t xs = drawn_by t (draws final)) ∧
  (∀ t, t < 1 → length (drawn_by t (draws final)) = TRANSFERS_PER_THREAD) ∧
  Forall (λ p, drawn p.2) (draws final) ∧
  summary (total_balance (accounts (start 1))) final =
    ("Initial total = Rs. 8000, Final total = Rs. 8000 " +:+ nl)%string.
Proof. apply (twopl_serializable 1 final); [apply final_run|]. repeat constructor. Defined.

Lemma twopl_invariant_witness : (total_balance (accounts final) + foldr Z.add 0 (in_flight <$> threads final) = 8000)%Z.
Proof. apply (twopl_invariant 1 final), final_run. Defined.

Lemma twopl_live_witness : ∃ c', reachable after_one c' ∧ joined c'.
Proof. apply (twopl_live 1 10 _ transfer_run). Defined.

End TwoPLSpec.
