(* ===== verification/WriteAheadLog.v ===== *)
(** * Write-ahead logs

    [WEEKEND_TASK/wal_replay_and_mem_reconstruction.c] ([WalStore]: a table in
    memory rebuilt from its log), [WEEKEND_TASK/wal_kv.c] ([WalKv]: the same log
    in front of a data file) and [day-14/wal_demo.c] ([WalDemo]: BEGIN/COMMIT
    records and a recovery that reads the log character by character).  Files
    are their text, [None] when they do not exist; opening one for appending is
    taken to succeed, and the time stamps are whatever [strftime] writes. *)
From stdpp Require Import base list gmap strings pretty.
From Stdlib Require Import ZArith Lia.
From Stdlib Require Ascii String.
From S2P Require Import Prelude.

(** ** The parts of the C library the three programs use *)
Module Stdio.

Abbreviation char := Ascii.ascii.
Abbreviation text := (list char).
Definition chars (s : string) : text := String.list_ascii_of_string s.

Definition code (c : char) : nat := Ascii.nat_of_ascii c.

(** [isspace] of the C locale. *)
Definition isspace (c : char) : bool := (code c =? 32) || ((9 <=? code c) && (code c <=? 13)).

Definition newline : char := Ascii.ascii_of_nat 10.
Definition lbracket : char := Ascii.ascii_of_nat 91.
Definition rbracket : char := Ascii.ascii_of_nat 93.

(** The longest prefix of characters that satisfy [p], and what follows. *)
Fixpoint span (p : char → bool) (t : text) : text * text :=
  match t with
  | c :: t' => if p c then let '(a, b) := span p t' in (c :: a, b) else ([], t)
  | [] => ([], [])
  end.

(** White space in a [scanf] format. *)
Definition skip_space (t : text) : text := (span isspace t).2.

(** An ordinary character in a [scanf] format. *)
Definition literal (c : char) (t : text) : option text :=
  match t with c' :: t' => if Ascii.eqb c c' then Some t' else None | [] => None end.

(** A conversion into an array of [n] characters: it needs one character at
    least, and the array must have room for the terminator. *)
Definition conversion (n : nat) (p : char → bool) (t : text) : res (option (string * text)) :=
  match span p t with
  | ([], _) => Ok None
  | (a, b) => if length a <? n then Ok (Some (of_chars a, b)) else UB OutOfBounds
  end.

(** [%s]. *)
Definition scan_word (n : nat) (t : text) : res (option (string * text)) :=
  conversion n (λ c, negb (isspace c)) (skip_space t).

(** [strcpy] into an array of [n] characters; the source may be [NULL]. *)
Definition strcpy (n : nat) (src : option string) : res string :=
  match src with
  | None => UB NullDeref
  | Some s => if String.length s <? n then Ok s else UB OutOfBounds
  end.

(** One line of the log: what [fscanf] stores when it returns 4. *)
Record entry : Set := mkentry { timestamp : string; op : string; key : string; value : string }.

(** [fscanf(repWal, "[%[^]]] %s %s %s\n", timestamp, op, key, value)] with
    [char timestamp[64], op[16], key[64], value[128]]: [None] when fewer than
    four conversions succeed. *)
Definition fscanf_entry (t : text) : res (option (entry * text)) :=
  match literal lbracket t with
  | None => Ok None
  | Some t =>
      r ← conversion 64 (λ c, negb (Ascii.eqb c rbracket)) t;
      match r with
      | None => Ok None
      | Some (timestamp, t) =>
          match literal rbracket t with
          | None => Ok None
          | Some t =>
              r ← scan_word 16 (skip_space t);
              match r with
              | None => Ok None
              | Some (op, t) =>
                  r ← scan_word 64 (skip_space t);
                  match r with
                  | None => Ok None
                  | Some (key, t) =>
                      r ← scan_word 128 (skip_space t);
                      match r with
                      | None => Ok None
                      | Some (value, t) => Ok (Some (mkentry timestamp op key value, skip_space t))
                      end
                  end
              end
          end
      end
  end.

(** [fprintf(wal, "[%s] %s %s %s\n", ..., val ? val : "NULL")]. *)
Definition or_null (val : option string) : string := match val with Some v => v | None => "NULL" end.

Definition log_line (stamp op key : string) (val : option string) : string :=
  "[" +:+ stamp +:+ "] " +:+ op +:+ " " +:+ key +:+ " " +:+ or_null val +:+ nl.

(** The file after a line is appended to it. *)
Definition append (f : option text) (line : string) : option text := Some (default [] f ++ chars line).

End Stdio.

(** ** [wal_replay_and_mem_reconstruction.c] *)
Module WalStore.
Import Stdio.

Definition MAX_KEYS : nat := 100.

Record Record_ : Set := mkRecord { rkey : string; rvalue : string; valid : bool }.

(** The log on disk, and [db] with its first [db_size] records. *)
Record state : Set := mkstate { wal : option text; db : list Record_ }.

Definition set_db (l : list Record_) : C state unit := modify (λ s, mkstate (wal s) l).

Definition writeToWal (stamp operation key : string) (val : option string) : C state unit :=
  modify (λ s, mkstate (append (wal s) (log_line stamp operation key val)) (db s)).

(** The search at the top of [applyOperation]: [None] is [found == -1]. *)
Fixpoint find_key (l : list Record_) (key : string) : option nat :=
  match l with
  | [] => None
  | r :: l => if String.eqb (rkey r) key then Some 0 else S <$> find_key l key
  end.

(** [applyOperation] on the table. *)
Definition apply (l : list Record_) (operation key : string) (val : option string) : res (list Record_) :=
  let found := find_key l key in
  if String.eqb operation "INSERT" then
    match found with
    | None =>
        if length l <? MAX_KEYS then
          k ← strcpy 64 (Some key); v ← strcpy 128 val; Ok (l ++ [mkRecord k v true])
        else Ok l
    | Some i => v ← strcpy 128 val; Ok (<[i := mkRecord (default key (rkey <$> l !! i)) v true]> l)
    end
  else if String.eqb operation "UPDATE" then
    match found with
    | None => Ok l
    | Some i => v ← strcpy 128 val; Ok (<[i := mkRecord (default key (rkey <$> l !! i)) v true]> l)
    end
  else if String.eqb operation "DELETE" then
    match found with
    | None => Ok l
    | Some i => Ok (alter (λ r, mkRecord (rkey r) (rvalue r) false) i l)
    end
  else Ok l.

Definition applyOperation (operation key : string) (val : option string) : C state unit :=
  s ← get; l ← lift (apply (db s) operation key val); set_db l.

Definition commitOperation (stamp operation key : string) (val : option string) : C state unit :=
  writeToWal stamp operation key val ;;
  applyOperation operation key val ;;
  printf ("Committed: " +:+ operation +:+ " " +:+ key +:+ " " +:+ or_null val +:+ nl).

(** The loop of [replay]. *)
Fixpoint replay_loop (fuel : nat) (t : text) : C state unit :=
  match fuel with
  | 0 => lift (UB OutOfFuel)
  | S fuel =>
      r ← lift (fscanf_entry t);
      match r with
      | None => mret tt
      | Some (e, t) =>
          applyOperation (op e) (key e) (Some (if String.eqb (value e) "NULL" then EmptyString else value e)) ;;
          printf ("Recovered: " +:+ op e +:+ " " +:+ key e +:+ " " +:+ value e +:+ nl) ;;
          replay_loop fuel t
      end
  end.

Definition replay : C state unit :=
  s ← get;
  match wal s with
  | None => printf ("No WAL file found for recovery." +:+ nl)
  | Some t =>
      printf (nl +:+ "Replaying WAL for recovery..." +:+ nl) ;;
      replay_loop (S (length t)) t ;;
      printf ("Replay completed." +:+ nl +:+ nl)
  end.

Definition printDBSummary : C state unit :=
  printf ("---------- Final In-Memory Key-Value Store -------" +:+ nl) ;;
  s ← get;
  for_each (λ r, if valid r then printf (rkey r +:+ " => " +:+ rvalue r +:+ nl) else mret tt) (db s).

(** An operation a process commits, with the time at which it does. *)
Record operation : Set := mkoperation { stamp : string; oper : string; okey : string; oval : option string }.

Definition commit (o : operation) : C state unit := commitOperation (stamp o) (oper o) (okey o) (oval o).

(** A process: [main] with the operations it commits. *)
Definition process (os : list operation) : C state unit :=
  replay ;; for_each commit os ;; printf nl ;; printDBSummary.

(** [main] at time [now]. *)
Definition main (now : string) : C state unit :=
  process
    [mkoperation now "INSERT" "user1" (Some "Rahul"); mkoperation now "INSERT" "user2" (Some "Kanha");
     mkoperation now "UPDATE" "user1" (Some "Gaurav_update"); mkoperation now "DELETE" "user2" None;
     mkoperation now "INSERT" "user3" (Some "Sita")].

(** The next process finds the log and an empty table. *)
Definition restart (s : state) : state := mkstate (wal s) [].

End WalStore.

(** ** [wal_kv.c] *)
Module WalKv.
Import Stdio.

(** The log and the data file. *)
Record state : Set := mkstate { wal : option text; DB : option text }.

Definition writeToWal (stamp operation key : string) (val : option string) : C state unit :=
  modify (λ s, mkstate (append (wal s) (log_line stamp operation key val)) (DB s)).

Definition db_line (operation key : string) (val : option string) : string :=
  operation +:+ " " +:+ key +:+ " " +:+ or_null val +:+ nl.

Definition applyToDB (operation key : string) (val : option string) : C state unit :=
  modify (λ s, mkstate (wal s) (append (DB s) (db_line operation key val))).

Definition commitOperation (stamp operation key : string) (val : option string) : C state unit :=
  writeToWal stamp operation key val ;;
  applyToDB operation key val ;;
  printf ("committed: " +:+ operation +:+ " " +:+ key +:+ " " +:+ or_null val +:+ nl).

Fixpoint replay_loop (fuel : nat) (t : text) : C state unit :=
  match fuel with
  | 0 => lift (UB OutOfFuel)
  | S fuel =>
      r ← lift (fscanf_entry t);
      match r with
      | None => mret tt
      | Some (e, t) =>
          applyToDB (op e) (key e) (if String.eqb (value e) "NULL" then None else Some (value e)) ;;
          printf ("Recovered: " +:+ op e +:+ " " +:+ key e +:+ " " +:+ value e +:+ nl) ;;
          replay_loop fuel t
      end
  end.

Definition replay : C state unit :=
  s ← get;
  match wal s with
  | None => printf ("There is not found for recovery." +:+ nl)
  | Some t =>
      printf (nl +:+ "Replaying wal for recovery..." +:+ nl) ;;
      replay_loop (S (length t)) t ;;
      printf ("Replay completed." +:+ nl)
  end.

(** [main] at time [now]. *)
Definition main (now : string) : C state unit :=
  replay ;;
  commitOperation now "INSERT" "user1" (Some "Rahul") ;;
  commitOperation now "INSERT" "user2" (Some "Kanha") ;;
  commitOperation now "UPDATE" "user1" (Some "Gaurav_update") ;;
  commitOperation now "DELETE" "user2" None.

End WalKv.

(** ** [wal_demo.c] *)
Module WalDemo.
Import Stdio.

Definition MAX_LINE : nat := 256.

(** A file with the part of it that [fsync] has put on the disk. *)
Record file : Set := mkfile { content : text; durable : nat }.

Record state : Set := mkstate { WAL_FILE : option file; DB_FILE : option file }.

Inductive filename : Set := Wal | Db.

Definition file_of (n : filename) (s : state) : option file :=
  match n with Wal => WAL_FILE s | Db => DB_FILE s end.

Definition set_file (n : filename) (f : file) (s : state) : state :=
  match n with
  | Wal => mkstate (Some f) (DB_FILE s)
  | Db => mkstate (WAL_FILE s) (Some f)
  end.

Definition nul : char := Ascii.ascii_of_nat 0.

(** What [snprintf(buf, MAX_LINE, ...)] keeps of a text. *)
Definition snprintf (t : text) : text := take (MAX_LINE - 1) t.

(** [write(fd, buf, len)] of what [snprintf] made of the line and its newline,
    where [len] is the length it would have had: with one character too many
    the terminator is written in place of the newline, with more the array is
    left. *)
Definition written (line : text) : res text :=
  let len := length line + 1 in
  if len <? MAX_LINE then Ok (line ++ [newline])
  else if len =? MAX_LINE then Ok (snprintf (line ++ [newline]) ++ [nul])
  else UB OutOfBounds.

Definition append_file (n : filename) (line : text) (sync : bool) : C state unit :=
  w ← lift (written line);
  modify (λ s,
    let f := default (mkfile [] 0) (file_of n s) in
    let c := content f ++ w in
    set_file n (mkfile c (if sync then length c else durable f)) s).

Definition set_line (key value : text) : text := snprintf (chars "SET " ++ key ++ chars " " ++ value).

Definition transaction (key value : text) (sync : bool) : C state unit :=
  append_file Wal (chars "TRANSACTION 1 BEGIN") sync ;;
  append_file Wal (set_line key value) sync ;;
  append_file Wal (chars "TRANSACTION 1 COMMIT") sync.

Definition write_nosync (key value : text) : C state Z :=
  transaction key value false ;;
  printf ("Wrote to WAL without fsync." +:+ nl) ;;
  mret 0%Z.

(** It ends in [exit(1)]. *)
Definition crash_after_wal (key value : text) : C state Z :=
  transaction key value true ;;
  printf ("WAL written and fsynced. Simulating crash before applying DB." +:+ nl) ;;
  mret 1%Z.

(** The array up to its terminator. *)
Definition cstr (b : text) : text := (span (λ c, negb (Ascii.eqb c nul)) b).1.

(** [strncmp(b, p, length p) == 0], for a [p] without terminator. *)
Fixpoint starts (p b : text) : bool :=
  match p, b with
  | [], _ => true
  | x :: p, y :: b => Ascii.eqb x y && starts p b
  | _, [] => false
  end.

Fixpoint strstr (b p : text) : bool :=
  starts p b || match b with [] => false | _ :: b => strstr b p end.

(** What the loop of [recover] does with a whole line. *)
Definition recover_line (in_tx : bool) (buf : text) : C state bool :=
  let line := cstr buf in
  if starts (chars "TRANSACTION") line && strstr line (chars "BEGIN") then mret true
  else if starts (chars "TRANSACTION") line && strstr line (chars "COMMIT") then mret false
  else if in_tx && starts (chars "SET") line then append_file Db line false ;; mret in_tx
  else mret in_tx.

(** The loop of [recover]: [buf] holds the [pos] characters of the line so far. *)
Fixpoint recover_loop (t : text) (buf : text) (in_tx : bool) : C state unit :=
  match t with
  | [] => mret tt
  | c :: t =>
      if Ascii.eqb c newline then
        in_tx ← recover_line in_tx buf;
        recover_loop t [] in_tx
      else
        let buf := buf ++ [c] in
        recover_loop t (if MAX_LINE - 1 <=? length buf then take (MAX_LINE - 2) buf else buf) in_tx
  end.

Definition recover : C state Z :=
  s ← get;
  match WAL_FILE s with
  | None => mret 1%Z
  | Some f =>
      recover_loop (content f) [] false ;;
      printf ("Recovery complete." +:+ nl) ;;
      mret 0%Z
  end.

(** [read] in pieces of [sizeof(buf)] until the end of the file. *)
Fixpoint cat_file (fuel : nat) (t : text) : C state unit :=
  match fuel, t with
  | _, [] => mret tt
  | 0, _ => lift (UB OutOfFuel)
  | S fuel, _ => printf (of_chars (take MAX_LINE t)) ;; cat_file fuel (drop MAX_LINE t)
  end.

Definition cat (f : option file) : C state unit :=
  match f with Some f => cat_file (length (content f)) (content f) | None => mret tt end.

Definition display : C state Z :=
  printf ("=== WAL LOG ===" +:+ nl) ;;
  s ← get; cat (WAL_FILE s) ;;
  printf (nl +:+ "=== DB FILE ===" +:+ nl) ;;
  cat (DB_FILE s) ;;
  mret 0%Z.

(** [main]: the exit status, with what it writes to [stderr] left out. *)
Definition main (argv : list string) : C state Z :=
  match argv with
  | [] => mret 1%Z
  | command :: args =>
      if String.eqb command "write-nosync" && (length args =? 2) then
        write_nosync (chars (nth 0 args EmptyString)) (chars (nth 1 args EmptyString))
      else if String.eqb command "crash-after-wal" && (length args =? 2) then
        crash_after_wal (chars (nth 0 args EmptyString)) (chars (nth 1 args EmptyString))
      else if String.eqb command "recover" then recover
      else if String.eqb command "display" then display
      else mret 0%Z
  end.

(** The machine stops: what was not synchronised is lost. *)
Definition power_loss (s : state) : state :=
  let cut f := mkfile (take (durable f) (content f)) (durable f) in
  mkstate (cut <$> WAL_FILE s) (cut <$> DB_FILE s).

End WalDemo.

(** ** Reading back what was written *)
Module StdioSpec.
Import Stdio.

Lemma chars_app a b : chars (a +:+ b) = chars a ++ chars b.
Proof. induction a as [|c a IH]; [done|]. unfold chars in *. simpl. by f_equal. Qed.

Lemma of_chars_chars s : of_chars (chars s) = s.
Proof. apply String.string_of_list_ascii_of_string. Qed.

Lemma length_chars s : length (chars s) = String.length s.
Proof. induction s as [|c s IH]; [done|]. unfold chars in *. simpl. by f_equal. Qed.

(** Where a run of characters ends. *)
Definition ends (p : char → bool) (t : text) : Prop := match t with [] => True | c :: _ => p c = false end.

Lemma span_app p a b : Forall (λ c, p c = true) a → ends p b → span p (a ++ b) = (a, b).
Proof.
  intros Ha Hb. induction Ha as [|c a Hc Ha IH]; simpl.
  - destruct b as [|c b]; [done|]. simpl in *. by rewrite Hb.
  - by rewrite Hc, IH.
Qed.

Lemma skip_nothing t : ends isspace t → skip_space t = t.
Proof. intros He. unfold skip_space. by rewrite (span_app _ [] t). Qed.

Lemma skip_one c t : isspace c = true → ends isspace t → skip_space (c :: t) = t.
Proof. intros Hc Ht. unfold skip_space. rewrite (span_app _ [c] t); [done|by constructor|done]. Qed.

(** Text that the [%s] conversion reads as a whole into [n] characters. *)
Definition word (n : nat) (s : string) : Prop :=
  s ≠ EmptyString ∧ String.length s < n ∧ Forall (λ c, isspace c = false) (chars s).

Lemma conversion_app n p s t :
  s ≠ EmptyString → String.length s < n → Forall (λ c, p c = true) (chars s) → ends p t →
  conversion n p (chars s ++ t) = Ok (Some (s, t)).
Proof.
  intros Hne Hlen Hs Ht. unfold conversion. rewrite span_app by done.
  destruct (chars s) as [|c l] eqn:E; [by destruct s|]. rewrite <- E, length_chars, of_chars_chars.
  destruct (Nat.ltb_spec (String.length s) n); [done|lia].
Qed.

Lemma word_ends n s t : word n s → ends isspace (chars s ++ t).
Proof. intros (Hne & _ & Hs). destruct s as [|c s]; [done|]. unfold chars in *. simpl in *. by inversion Hs. Qed.

Lemma scan_word_app n s t :
  word n s → ends (λ c, negb (isspace c)) t → scan_word n (chars s ++ t) = Ok (Some (s, t)).
Proof.
  intros Hw Ht. unfold scan_word. rewrite skip_nothing by (by eapply word_ends). destruct Hw as (Hne & Hlen & Hs).
  apply conversion_app; try done. eapply Forall_impl; [exact Hs|]. intros c Hc. simpl. by rewrite Hc.
Qed.

(** A blank before a word. *)
Lemma scan_blank_word n s t :
  word n s → ends (λ c, negb (isspace c)) t →
  scan_word n (skip_space (chars " " ++ chars s ++ t)) = Ok (Some (s, t)).
Proof.
  intros Hw Ht. change (chars " ") with [Ascii.ascii_of_nat 32]. simpl app.
  rewrite skip_one; [by apply scan_word_app|done|by eapply word_ends].
Qed.

Definition stamp_ok (s : string) : Prop :=
  s ≠ EmptyString ∧ String.length s < 64 ∧ Forall (λ c, Ascii.eqb c rbracket = false) (chars s).

(** A line of the log in front of more log. *)
Lemma fscanf_log_line stamp op key val t :
  stamp_ok stamp → word 16 op → word 64 key → word 128 (or_null val) → ends isspace t →
  fscanf_entry (chars (log_line stamp op key val) ++ t) = Ok (Some (mkentry stamp op key (or_null val), t)).
Proof.
  intros (Hs1 & Hs2 & Hs3) Hop Hkey Hval Ht. unfold log_line.
  rewrite !chars_app, <- !app_assoc. change (chars "[") with [lbracket]. cbn [app literal fscanf_entry].
  unfold fscanf_entry at 1. cbn [literal]. rewrite Ascii.eqb_refl.
  rewrite conversion_app; [|done|done| |done].
  2:{ eapply Forall_impl; [exact Hs3|]. intros c Hc. simpl. by rewrite Hc. }
  change (chars "] ") with (rbracket :: chars " "). cbn [app]. unfold mbind, res_bind. cbn [literal].
  rewrite Ascii.eqb_refl. cbn match.
  rewrite scan_blank_word by done. rewrite scan_blank_word by done. rewrite scan_blank_word by done.
  change (chars nl) with [newline]. cbn [app]. rewrite skip_one by done. done.
Qed.

End StdioSpec.

(** ** Recovery of the table *)
Module WalStoreSpec.
Import Stdio StdioSpec WalStore.

(** Operations that survive the trip through the log. *)
Definition loggable (o : operation) : Prop :=
  stamp_ok (stamp o) ∧ word 16 (oper o) ∧ word 64 (okey o) ∧
  match oval o with
  | Some v => word 128 v ∧ v ≠ "NULL"
  | None => oper o ≠ "INSERT" ∧ oper o ≠ "UPDATE"
  end.

(** The table after an operation, and after many. *)
Definition effect (l : list Record_) (o : operation) : list Record_ :=
  match apply l (oper o) (okey o) (oval o) with Ok l' => l' | UB _ => l end.

Definition table (os : list operation) : list Record_ := foldl effect [] os.

Definition logged (os : list operation) : text :=
  mjoin ((λ o, chars (log_line (stamp o) (oper o) (okey o) (oval o))) <$> os).

Lemma logged_cons o os : logged (o :: os) = chars (log_line (stamp o) (oper o) (okey o) (oval o)) ++ logged os.
Proof. done. Qed.

(** The log file with these operations: it does not exist before the first. *)
Definition log (os : list operation) : option text := match os with [] => None | _ => Some (logged os) end.

Lemma strcpy_word n v : word n v → strcpy n (Some v) = Ok v.
Proof. intros (_ & Hlen & _). simpl. destruct (Nat.ltb_spec (String.length v) n); [done|lia]. Qed.

(** Nothing undefined happens, and the value read back does the same. *)
Lemma apply_loggable l o :
  loggable o →
  apply l (oper o) (okey o) (oval o) = Ok (effect l o) ∧
  apply l (oper o) (okey o)
    (Some (if String.eqb (or_null (oval o)) "NULL" then EmptyString else or_null (oval o))) = Ok (effect l o).
Proof.
  intros (_ & _ & Hkey & Hval). unfold effect, apply. destruct (oval o) as [v|]; cbn [or_null].
  - destruct Hval as [Hv Hne]. apply String.eqb_neq in Hne. rewrite Hne, !(strcpy_word _ _ Hv), (strcpy_word _ _ Hkey).
    unfold mbind, res_bind. split; repeat case_match; done.
  - destruct Hval as [Hi Hu]. apply String.eqb_neq in Hi, Hu. rewrite Hi, Hu. split; repeat case_match; done.
Qed.

Lemma commit_loggable o s :
  loggable o → ∃ out,
  commit o s = Ok (tt, mkstate (append (wal s) (log_line (stamp o) (oper o) (okey o) (oval o))) (effect (db s) o), out).
Proof.
  intros Ho. destruct (apply_loggable (db s) o Ho) as [Ha _]. eexists.
  unfold commit, commitOperation, applyOperation, writeToWal, set_db. c_run. rewrite Ha. done.
Qed.

Lemma commits_loggable os s :
  Forall loggable os → ∃ out,
  for_each commit os s =
    Ok (tt, mkstate (match os with [] => wal s | _ => Some (default [] (wal s) ++ logged os) end)
              (foldl effect (db s) os), out).
Proof.
  intros Hos. revert s. induction Hos as [|o os Ho Hos IH]; intros s.
  - exists []. by destruct s.
  - destruct (commit_loggable o s Ho) as [o1 H1].
    destruct (IH (mkstate (append (wal s) (log_line (stamp o) (oper o) (okey o) (oval o))) (effect (db s) o))) as [o2 H2].
    exists (o1 ++ o2). cbn [for_each]. erewrite bind_Ok; [|exact H1|exact H2]. cbn [wal db foldl]. do 4 f_equal.
    rewrite logged_cons. unfold append. cbn [default from_option]. destruct os; [|by rewrite app_assoc].
    change (logged []) with (@nil char). by rewrite app_nil_r.
Qed.

Lemma logged_ends os : ends isspace (logged os).
Proof. by destruct os. Qed.

Lemma logged_length os : length os ≤ length (logged os).
Proof.
  induction os as [|o os IH]; [done|]. rewrite logged_cons, length_app.
  unfold log_line. rewrite chars_app, length_app. simpl length. lia.
Qed.

Lemma or_null_word o : loggable o → word 128 (or_null (oval o)).
Proof.
  intros (_ & _ & _ & Hv). destruct (oval o); simpl; [apply Hv|]. split; [done|]. split; [simpl; lia|].
  repeat constructor.
Qed.

(** The loop of [replay] on a log: [S (length os)] rounds are enough. *)
Lemma replay_loop_logged os fuel s :
  Forall loggable os → length os < fuel → ∃ out,
  replay_loop fuel (logged os) s = Ok (tt, mkstate (wal s) (foldl effect (db s) os), out).
Proof.
  intros Hos. revert fuel s. induction Hos as [|o os Ho Hos IH]; intros [|fuel] s Hf; simpl in Hf; try lia.
  - exists []. by destruct s.
  - destruct (IH fuel (mkstate (wal s) (effect (db s) o))) as [out Hout]; [lia|].
    eexists. cbn [replay_loop]. rewrite logged_cons.
    refine (bind_Ok _ _ _ _ _ [] _ _ _ (lift_Ok _ _ _ (fscanf_log_line _ _ _ _ _ _ _ _ _ _)) _);
      [apply Ho|apply Ho|apply Ho|by apply or_null_word|apply logged_ends|].
    cbn [op key value]. destruct (apply_loggable (db s) o Ho) as [_ Ha].
    refine (bind_Ok _ _ _ tt (mkstate (wal s) (effect (db s) o)) [] _ _ _ _ _).
    { unfold applyOperation, set_db. c_run. by rewrite Ha. }
    refine (bind_Ok _ _ _ tt _ [_] _ _ _ eq_refl Hout).
Qed.

Lemma replay_log os :
  Forall loggable os → ∃ out, replay (mkstate (log os) []) = Ok (tt, mkstate (log os) (table os), out).
Proof.
  intros Hos. unfold replay. destruct os as [|o os]; [by eexists|].
  destruct (replay_loop_logged (o :: os) (S (length (logged (o :: os)))) (mkstate (log (o :: os)) []) Hos) as [out Hout].
  { pose proof (logged_length (o :: os)). lia. }
  exists ([] ++ [nl +:+ "Replaying WAL for recovery..." +:+ nl] ++ out ++ ["Replay completed." +:+ nl +:+ nl]).
  refine (bind_Ok _ _ _ _ _ [] _ _ _ eq_refl _). cbn [wal log].
  refine (bind_Ok _ _ _ _ _ [_] _ _ _ eq_refl _). exact (bind_Ok _ _ _ _ _ _ _ _ [_] Hout eq_refl).
Qed.

Lemma summary_runs s : ∃ out, printDBSummary s = Ok (tt, s, out).
Proof.
  assert (∀ l, ∃ out, for_each (λ r, if valid r then printf (rkey r +:+ " => " +:+ rvalue r +:+ nl) else mret tt) l s =
    Ok (tt, s, out)) as Hl.
  { induction l as [|r l [out IH]]; [by eexists|]. eexists.
    refine (bind_Ok _ _ _ tt s _ _ _ _ _ IH). instantiate (1 := if valid r then _ else _). by destruct (valid r). }
  destruct (Hl (db s)) as [out Hout]. eexists.
  refine (bind_Ok _ _ _ _ _ [_] _ _ _ eq_refl _). refine (bind_Ok _ _ _ s s [] _ _ _ eq_refl _). exact Hout.
Qed.

Lemma log_app os0 os : log (os0 ++ os) = match os with [] => log os0 | _ => Some (default [] (log os0) ++ logged os) end.
Proof.
  assert (logged (os0 ++ os) = logged os0 ++ logged os) as Happ
    by (unfold logged; by rewrite fmap_app, join_app).
  destruct os as [|o os]; [by rewrite app_nil_r|]. destruct os0 as [|o0 os0]; [done|].
  exact (f_equal Some Happ).
Qed.

(** C3: for operations the format of the log can hold, the log gives back the
    table.  Such an operation ([loggable]) has a time stamp of 1 to 63 characters
    without a bracket, an operation name, a key and a value that are not empty,
    have no white space and fit the arrays of [replay] with their terminators (16,
    64 and 128 characters), its value is not the word NULL, and it is not an
    INSERT or an UPDATE without a value.  Then a process that starts with the log
    of the operations [os0] and commits [os] ends with the log and the table of
    all of them, and the next process, which starts with an empty table, rebuilds
    exactly that table from that log and leaves the log as it is.  Outside this
    condition it fails: [null_value_lost], [spaced_value_lost]. *)
Theorem wal_replay_roundtrip os0 os :
  Forall loggable os0 → Forall loggable os →
  ∃ s out out',
    process os (mkstate (log os0) []) = Ok (tt, s, out) ∧
    wal s = log (os0 ++ os) ∧ db s = foldl effect (table os0) os ∧
    replay (restart s) = Ok (tt, s, out').
Proof.
  intros H0 H1. set (s := mkstate (log (os0 ++ os)) (table (os0 ++ os))).
  assert (table (os0 ++ os) = foldl effect (table os0) os) as Ht by apply foldl_app.
  destruct (replay_log os0 H0) as [o1 Hr]. destruct (commits_loggable os (mkstate (log os0) (table os0)) H1) as [o2 Hc].
  cbn [wal db] in Hc. rewrite <- log_app, <- Ht in Hc. destruct (summary_runs s) as [o3 Hs].
  destruct (replay_log (os0 ++ os)) as [o4 Hr']; [by apply Forall_app|].
  exists s. do 2 eexists. split; [|split; [done|]; split; [exact Ht|exact Hr']].
  refine (bind_Ok _ _ _ _ _ _ _ _ _ Hr _). refine (bind_Ok _ _ _ _ _ _ _ _ _ Hc _).
  refine (bind_Ok _ _ _ _ _ [_] _ _ _ eq_refl _). exact Hs.
Qed.

Definition now : string := "2025-11-24 10:15:00".

Lemma wal_replay_roundtrip_witness :
  ∃ s out out',
    process [mkoperation now "DELETE" "user1" None] (mkstate (log [mkoperation now "INSERT" "user1" (Some "Rahul")]) []) =
      Ok (tt, s, out) ∧
    db s = [mkRecord "user1" "Rahul" false] ∧ replay (restart s) = Ok (tt, s, out').
Proof.
  destruct (wal_replay_roundtrip [mkoperation now "INSERT" "user1" (Some "Rahul")] [mkoperation now "DELETE" "user1" None])
    as (s & out & out' & Hp & _ & Hdb & Hr).
  - unfold loggable, stamp_ok, word. simpl. repeat constructor; try done; lia.
  - unfold loggable, stamp_ok, word. simpl. repeat constructor; try done; lia.
  - by exists s, out, out'.
Defined.

(** A value that spells [NULL] does not come back: the log cannot tell it from
    the missing value of a [DELETE]. *)
Lemma null_value_lost :
  ∃ s out, process [mkoperation now "INSERT" "user1" (Some "NULL")] (mkstate None []) = Ok (tt, s, out) ∧
    db s = [mkRecord "user1" "NULL" true] ∧
    ∃ out', replay (restart s) = Ok (tt, mkstate (wal s) [mkRecord "user1" EmptyString true], out').
Proof. do 2 eexists. split; [reflexivity|]. split; [reflexivity|]. eexists. reflexivity. Qed.

(** A value with a space is read back up to the space, and what follows the
    space ends the replay: every later operation is lost. *)
Lemma spaced_value_lost :
  ∃ s out, process [mkoperation now "INSERT" "user1" (Some "Rahul B"); mkoperation now "INSERT" "user2" (Some "Kanha")]
      (mkstate None []) = Ok (tt, s, out) ∧
    db s = [mkRecord "user1" "Rahul B" true; mkRecord "user2" "Kanha" true] ∧
    ∃ out', replay (restart s) = Ok (tt, mkstate (wal s) [mkRecord "user1" "Rahul" true], out').
Proof. do 2 eexists. split; [reflexivity|]. split; [reflexivity|]. eexists. reflexivity. Qed.

(** An [UPDATE] of a deleted key brings it back. *)
Lemma update_resurrects :
  table [mkoperation now "INSERT" "k" (Some "a"); mkoperation now "DELETE" "k" None; mkoperation now "UPDATE" "k" (Some "b")] =
    [mkRecord "k" "b" true].
Proof. reflexivity. Qed.

End WalStoreSpec.

(** ** The log in front of a data file *)
Module WalKvSpec.
Import Stdio StdioSpec WalKv.

(** Operations as in [WalStore]; here a missing value is written as [NULL]
    and read back as missing. *)
Abbreviation operation := WalStore.operation.

Definition kv_loggable (o : operation) : Prop :=
  stamp_ok (WalStore.stamp o) ∧ word 16 (WalStore.oper o) ∧ word 64 (WalStore.okey o) ∧
  word 128 (or_null (WalStore.oval o)).

Definition commit (o : operation) : C state unit :=
  commitOperation (WalStore.stamp o) (WalStore.oper o) (WalStore.okey o) (WalStore.oval o).

Definition kv_line (o : operation) : text := chars (db_line (WalStore.oper o) (WalStore.okey o) (WalStore.oval o)).

Definition data (os : list operation) : text := mjoin (kv_line <$> os).

Lemma kv_commits os w b :
  ∃ out, for_each commit os (mkstate (Some w) (Some b)) =
    Ok (tt, mkstate (Some (w ++ WalStoreSpec.logged os)) (Some (b ++ data os)), out).
Proof.
  revert w b. induction os as [|o os IH]; intros w b.
  - exists []. unfold data, WalStoreSpec.logged. simpl. by rewrite !app_nil_r.
  - destruct (IH (w ++ chars (log_line (WalStore.stamp o) (WalStore.oper o) (WalStore.okey o) (WalStore.oval o)))
      (b ++ kv_line o)) as [out Hout]. eexists.
    rewrite WalStoreSpec.logged_cons. change (data (o :: os)) with (kv_line o ++ data os). rewrite !app_assoc.
    refine (bind_Ok _ _ _ tt _ _ _ _ _ _ Hout). reflexivity.
Qed.

Lemma kv_replay_loop os fuel w b :
  Forall kv_loggable os → length os < fuel →
  ∃ out, replay_loop fuel (WalStoreSpec.logged os) (mkstate w (Some b)) = Ok (tt, mkstate w (Some (b ++ data os)), out).
Proof.
  intros Hos. revert fuel b. induction Hos as [|o os Ho Hos IH]; intros [|fuel] b Hf; simpl in Hf; try lia.
  - exists []. unfold data. simpl. by rewrite app_nil_r.
  - destruct (IH fuel (b ++ kv_line o)) as [out Hout]; [lia|].
    eexists. cbn [replay_loop]. rewrite WalStoreSpec.logged_cons. destruct Ho as (? & ? & ? & ?).
    refine (bind_Ok _ _ _ _ _ [] _ _ _ (lift_Ok _ _ _ (fscanf_log_line _ _ _ _ _ _ _ _ _ _)) _);
      [done..|apply WalStoreSpec.logged_ends|].
    cbn [op key value]. change (data (o :: os)) with (kv_line o ++ data os). rewrite app_assoc.
    refine (bind_Ok _ _ _ tt (mkstate w (Some (b ++ kv_line o))) [] _ _ _ _ _).
    { unfold applyToDB. c_run. unfold append, kv_line, db_line. destruct (WalStore.oval o) as [v|]; simpl; [|done].
      by destruct (String.eqb_spec v "NULL") as [->|]. }
    exact (bind_Ok _ _ _ tt _ [_] _ _ _ eq_refl Hout).
Qed.

(** Recovery is not idempotent: [replay] appends every logged operation to
    the data file once more, whether or not the file already has it, so after a
    process that committed [os] and a restart each operation is there twice. *)
Theorem kv_replay_duplicates os :
  os ≠ [] → Forall kv_loggable os →
  ∃ s out s' out',
    for_each commit os (mkstate None None) = Ok (tt, s, out) ∧ DB s = Some (data os) ∧
    replay s = Ok (tt, s', out') ∧ wal s' = wal s ∧ DB s' = Some (data os ++ data os).
Proof.
  intros Hne Hos. destruct os as [|o os]; [done|].
  destruct (kv_commits os (chars (log_line (WalStore.stamp o) (WalStore.oper o) (WalStore.okey o) (WalStore.oval o)))
    (kv_line o)) as [out Hout].
  set (l := WalStoreSpec.logged (o :: os)).
  destruct (kv_replay_loop (o :: os) (S (length l)) (Some l) (data (o :: os)) Hos) as [out' Hout'].
  { pose proof (WalStoreSpec.logged_length (o :: os)). unfold l. lia. }
  do 4 eexists. split; [refine (bind_Ok _ _ _ tt _ [_] _ _ _ eq_refl _); exact Hout|]. split; [done|]. split; [|split].
  - refine (bind_Ok _ _ _ _ _ [] _ _ _ eq_refl _). cbn [wal].
    refine (bind_Ok _ _ _ _ _ [_] _ _ _ eq_refl _). refine (bind_Ok _ _ _ _ _ _ _ _ [_] Hout' _); reflexivity.
  - done.
  - done.
Qed.

Lemma kv_replay_duplicates_witness :
  ∃ s out s' out',
    for_each commit [WalStore.mkoperation WalStoreSpec.now "INSERT" "k" (Some "v")] (mkstate None None) = Ok (tt, s, out) ∧
    DB s = Some (chars ("INSERT k v" +:+ nl)) ∧
    replay s = Ok (tt, s', out') ∧ wal s' = wal s ∧ DB s' = Some (chars ("INSERT k v" +:+ nl +:+ "INSERT k v" +:+ nl)).
Proof.
  apply (kv_replay_duplicates [WalStore.mkoperation WalStoreSpec.now "INSERT" "k" (Some "v")]); [done|].
  unfold kv_loggable, stamp_ok, word. simpl. repeat constructor; try done; lia.
Defined.

End WalKvSpec.

(** ** The demonstration of recovery *)
Module WalDemoSpec.
Import Stdio StdioSpec WalDemo.

(** Characters that neither end a line nor a C string. *)
Definition plain (t : text) : Prop := Forall (λ c, Ascii.eqb c newline = false ∧ Ascii.eqb c nul = false) t.

(** A key and a value whose record fits a line. *)
Definition fits (k v : text) : Prop := plain k ∧ plain v ∧ length k + length v + 5 < MAX_LINE - 1.

Definition record (k v : text) : text := chars "SET " ++ k ++ chars " " ++ v.

Lemma record_plain k v : fits k v → plain (record k v).
Proof. intros (Hk & Hv & _). unfold plain, record. rewrite !Forall_app. repeat split; try done; repeat constructor. Qed.

Lemma record_length k v : length (record k v) = length k + length v + 5.
Proof. unfold record. rewrite !length_app. simpl length. lia. Qed.

Lemma set_line_record k v : fits k v → set_line k v = record k v.
Proof. intros (_ & _ & Hl). unfold set_line, snprintf. apply take_ge. pose proof (record_length k v). unfold record in *. lia. Qed.

Lemma written_short line : length line < MAX_LINE - 1 → written line = Ok (line ++ [newline]).
Proof. intros Hl. unfold written. destruct (Nat.ltb_spec (length line + 1) MAX_LINE); [done|lia]. Qed.

(** Reading the characters of a line that fits the array. *)
Lemma recover_chars line t buf in_tx :
  plain line → length buf + length line < MAX_LINE - 1 →
  recover_loop (line ++ t) buf in_tx = recover_loop t (buf ++ line) in_tx.
Proof.
  intros Hp. revert buf. induction Hp as [|c line [Hc _] Hp IH]; intros buf Hl; [by rewrite app_nil_r|].
  cbn [app recover_loop]. rewrite Hc, length_app. simpl length in *.
  destruct (Nat.leb_spec (MAX_LINE - 1) (length buf + 1)); [lia|].
  rewrite IH by (rewrite length_app; simpl length; lia). by rewrite <- app_assoc.
Qed.

Lemma cstr_plain line : plain line → cstr line = line.
Proof.
  intros Hp. unfold cstr. rewrite <- (app_nil_r line) at 1. rewrite span_app; [done| |done].
  eapply Forall_impl; [exact Hp|]. intros c [_ Hc]. simpl. by rewrite Hc.
Qed.

Lemma recover_whole_line line t in_tx s in_tx' s' out s2 out2 :
  plain line → length line < MAX_LINE - 1 →
  recover_line in_tx line s = Ok (in_tx', s', out) → recover_loop t [] in_tx' s' = Ok (tt, s2, out2) →
  recover_loop (line ++ newline :: t) [] in_tx s = Ok (tt, s2, out ++ out2).
Proof.
  intros Hp Hl H1 H2. rewrite recover_chars by done. cbn [app recover_loop]. rewrite Ascii.eqb_refl.
  by apply (bind_Ok _ _ _ _ _ _ _ _ _ H1).
Qed.

(** The record of a transaction goes to the data file. *)
Lemma recover_record k v s :
  fits k v →
  recover_line true (record k v) s =
    Ok (true, mkstate (WAL_FILE s)
          (Some (mkfile (content (default (mkfile [] 0) (DB_FILE s)) ++ record k v ++ [newline])
                   (durable (default (mkfile [] 0) (DB_FILE s))))), []).
Proof.
  intros Hf. unfold recover_line. rewrite cstr_plain by (by apply record_plain).
  change (starts (chars "TRANSACTION") (record k v)) with false. change (starts (chars "SET") (record k v)) with true.
  cbn [andb]. refine (bind_Ok _ _ _ tt _ [] _ _ _ _ eq_refl). unfold append_file.
  refine (bind_Ok _ _ _ _ _ [] _ _ [] (lift_Ok _ _ _ (written_short _ _)) _); [|done].
  rewrite record_length. destruct Hf as (_ & _ & Hl). lia.
Qed.

(** The log of [transaction], whole and without its last line. *)
Definition begin_text : text := chars "TRANSACTION 1 BEGIN" ++ [newline].
Definition commit_text : text := chars "TRANSACTION 1 COMMIT" ++ [newline].
Definition tx_text (k v : text) : text := begin_text ++ (record k v ++ [newline]) ++ commit_text.

Lemma transaction_text k v sync s :
  fits k v → WAL_FILE s = None →
  transaction k v sync s =
    Ok (tt, mkstate (Some (mkfile (tx_text k v) (if sync then length (tx_text k v) else 0))) (DB_FILE s), []).
Proof.
  intros Hf Hw. unfold transaction, append_file. rewrite set_line_record by done.
  rewrite (written_short (chars "TRANSACTION 1 BEGIN")) by (simpl; lia).
  rewrite (written_short (chars "TRANSACTION 1 COMMIT")) by (simpl; lia).
  rewrite (written_short (record k v)) by (rewrite record_length; destruct Hf as (_ & _ & ?); lia).
  destruct s as [w b]. simpl in Hw. subst w. unfold mbind, C_bind, lift, modify. cbn [file_of set_file WAL_FILE DB_FILE default from_option id content durable app].
  unfold tx_text, begin_text, commit_text. rewrite <- !app_assoc. by destruct sync.
Qed.

(** What [recover] does with the records between BEGIN and whatever follows. *)
Lemma recover_tx k v rest s s' :
  fits k v → (rest = [] ∨ rest = commit_text) →
  s' = mkstate (WAL_FILE s)
         (Some (mkfile (content (default (mkfile [] 0) (DB_FILE s)) ++ record k v ++ [newline])
                  (durable (default (mkfile [] 0) (DB_FILE s))))) →
  recover_loop (begin_text ++ (record k v ++ [newline]) ++ rest) [] false s = Ok (tt, s', []).
Proof.
  intros Hf Hrest ->. unfold begin_text. rewrite <- !app_assoc. cbn [app].
  refine (recover_whole_line (chars "TRANSACTION 1 BEGIN") _ false s true s [] _ [] _ _ eq_refl _);
    [repeat constructor|simpl; lia|].
  refine (recover_whole_line (record k v) rest true s true _ [] _ [] _ _ (recover_record k v s Hf) _);
    [by apply record_plain|rewrite record_length; destruct Hf as (_ & _ & ?); lia|].
  destruct Hrest as [->| ->]; reflexivity.
Qed.

Lemma take_whole {A} (l : list A) : take (length l) l = l.
Proof. by apply take_ge. Qed.

(** A transaction whose log was synchronised survives the crash: after
    [crash-after-wal] and the loss of everything that is not on the disk,
    [recover] appends its record to the data file; a transaction written with
    [write-nosync] may be lost with the machine, and then [recover] changes
    nothing. *)
Theorem demo_crash_recovery k v :
  fits k v →
  (∃ s out s' out', crash_after_wal k v (mkstate None None) = Ok (1%Z, s, out) ∧
     recover (power_loss s) = Ok (0%Z, s', out') ∧
     content <$> WAL_FILE s' = Some (tx_text k v) ∧ content <$> DB_FILE s' = Some (record k v ++ [newline])) ∧
  (∃ s out s' out', write_nosync k v (mkstate None None) = Ok (0%Z, s, out) ∧
     content <$> WAL_FILE s = Some (tx_text k v) ∧
     recover (power_loss s) = Ok (0%Z, s', out') ∧ DB_FILE s' = None).
Proof.
  intros Hf. split.
  - do 4 eexists. split; [|split; [|split]].
    + refine (bind_Ok _ _ _ tt _ [] _ _ [_] (transaction_text k v true (mkstate None None) Hf eq_refl) _). reflexivity.
    + unfold recover. refine (bind_Ok _ _ _ _ _ [] _ _ [_] eq_refl _).
      unfold power_loss. cbn [WAL_FILE DB_FILE fmap option_fmap option_map content durable].
      rewrite take_whole. refine (bind_Ok _ _ _ tt _ [] _ _ [_] (recover_tx k v commit_text _ _ Hf _ eq_refl) _);
        [by right|reflexivity].
    + reflexivity.
    + reflexivity.
  - do 4 eexists. split; [|split; [|split]].
    + refine (bind_Ok _ _ _ tt _ [] _ _ [_] (transaction_text k v false (mkstate None None) Hf eq_refl) _). reflexivity.
    + reflexivity.
    + reflexivity.
    + reflexivity.
Qed.

Lemma demo_crash_recovery_witness :
  ∃ s out s' out', crash_after_wal (chars "k") (chars "42") (mkstate None None) = Ok (1%Z, s, out) ∧
     recover (power_loss s) = Ok (0%Z, s', out') ∧
     content <$> DB_FILE s' = Some (chars ("SET k 42" +:+ nl)).
Proof.
  destruct (demo_crash_recovery (chars "k") (chars "42")) as [(s & out & s' & out' & Hc & Hr & _ & Hd) _].
  - unfold fits, plain, MAX_LINE. simpl. repeat constructor; lia.
  - by exists s, out, s', out'.
Defined.

(** Recovery also applies what was never committed: a log that stops after
    the record, where the process died before its COMMIT line, puts the record
    into the data file like a committed one. *)
Theorem demo_recovers_uncommitted k v d b :
  fits k v →
  ∃ s' out', recover (mkstate (Some (mkfile (begin_text ++ record k v ++ [newline]) d)) (Some b)) = Ok (0%Z, s', out') ∧
    content <$> DB_FILE s' = Some (content b ++ record k v ++ [newline]).
Proof.
  intros Hf. do 2 eexists. split.
  - unfold recover. refine (bind_Ok _ _ _ _ _ [] _ _ [_] eq_refl _). cbn [WAL_FILE content].
    pose proof (recover_tx k v [] (mkstate (Some (mkfile (begin_text ++ record k v ++ [newline]) d)) (Some b)) _
      Hf (or_introl eq_refl) eq_refl) as Hr. rewrite app_nil_r in Hr.
    refine (bind_Ok _ _ _ tt _ [] _ _ [_] Hr _). reflexivity.
  - reflexivity.
Qed.

Lemma demo_recovers_uncommitted_witness :
  ∃ s' out', recover (mkstate (Some (mkfile (begin_text ++ record (chars "k") (chars "42") ++ [newline]) 0))
      (Some (mkfile [] 0))) = Ok (0%Z, s', out') ∧
    content <$> DB_FILE s' = Some (chars ("SET k 42" +:+ nl)).
Proof.
  apply (demo_recovers_uncommitted (chars "k") (chars "42") 0 (mkfile [] 0)).
  unfold fits, plain, MAX_LINE. simpl. repeat constructor; lia.
Defined.

End WalDemoSpec.
