(* ===== verification/MvccStore.v ===== *)
(** * The multi-version store:
    [concurrency-and-multithreading/s_mem_key_value_stored_with_mvcc.c]

    Transactions read the newest version that was committed before they started
    and write into a private list; a commit locks its keys in order, gives way
    when one of them got a newer version in the meantime, and otherwise puts its
    versions in front of the chains.  [Mvcc] models the store as a step relation
    with one step for every critical section and every access to a version
    chain, one transaction per thread; [MvccSpec] proves snapshot isolation
    against the history of the commits. *)
From stdpp Require Import base list gmap strings sorting.
From Stdlib Require Import ZArith Lia.
From Stdlib Require Ascii String.
From S2P Require Import Prelude.

Module Mvcc.

Definition MAX_KEYS : nat := 128.
Definition MAX_KEY_LEN : nat := 64.
Definition MAX_VALUE_LEN : nat := 256.
Definition MAX_TXNS : nat := 256.

Record Version : Set := mkVersion { value : string; commit_ts : nat }.

(** A slot of the store; its mutex holds the transaction that locked it. *)
Record KeyEntry : Set := mkKeyEntry { key : string; versions : list Version; mtx : option nat; used : bool }.

(** ** Keys *)

(** [((h << 5) + h) + c] on [unsigned long]. *)
Definition hash_step (h : Z) (c : Ascii.ascii) : Z :=
  ((Z.shiftl h 5 + h + Z.of_nat (Ascii.nat_of_ascii c)) mod 2 ^ 64)%Z.

Definition hash_key (k : string) : nat :=
  Z.to_nat (foldl hash_step 5381%Z (String.list_ascii_of_string k) mod Z.of_nat MAX_KEYS).

(** [strncpy(dst, s, n - 1); dst[n - 1] = '\0']. *)
Definition strncpy (n : nat) (s : string) : string := String.substring 0 (n - 1) s.

(** [strncmp(a, b, n) == 0]. *)
Definition strncmp (n : nat) (a b : string) : bool := String.eqb (String.substring 0 n a) (String.substring 0 n b).

(** The loop of [get_or_create_key] from slot [idx], with [n] slots to go before
    it is back at [start] and the program exits. *)
Fixpoint probe (n : nat) (k : string) (idx : nat) (store : list KeyEntry) : option (nat * list KeyEntry) :=
  match n with
  | 0 => None
  | S n =>
      match store !! idx with
      | None => None
      | Some e =>
          if negb (used e) then
            Some (idx, <[idx := mkKeyEntry (strncpy MAX_KEY_LEN k) [] None true]> store)
          else if strncmp MAX_KEY_LEN (key e) k then Some (idx, store)
          else probe n k ((idx + 1) mod MAX_KEYS) store
      end
  end.

Definition get_or_create_key (k : string) (store : list KeyEntry) : option (nat * list KeyEntry) :=
  probe MAX_KEYS k (hash_key k) store.

(** ** Transactions *)

Inductive txn_status : Set := TXN_ACTIVE | TXN_ABORTED | TXN_COMMITTED.

(** [WriteEntry]: the key's slot and the value; the list is newest first. *)
Abbreviation writes_t := (list (nat * string)).

(** Where the thread of a transaction is. *)
Inductive pc : Set :=
  | Idle                                          (* outside the library *)
  | Reading (idx : nat)                           (* before [ke->mtx] in [txn_read] *)
  | Locking (todo locked_idxs : list nat)         (* the last loop of [lock_write_keys_sorted] *)
  | Checking (todo : writes_t)                    (* the loop that sets [conflict] *)
  | Installing (commit_ts : nat) (todo : writes_t) (* the loop that adds the versions *)
  | Unlocking (ok : bool) (todo : list nat).      (* [unlock_locked_idxs] *)

(** [observed] collects what [txn_read] returned from the store. *)
Record Transaction : Set := mkTransaction {
  start_ts : nat; status : txn_status; writes : writes_t; at_pc : pc; observed : list (nat * string) }.

Fixpoint find_local_write (ws : writes_t) (key_idx : nat) : option string :=
  match ws with
  | [] => None
  | (k, v) :: ws => if k =? key_idx then Some v else find_local_write ws key_idx
  end.

(** The entry of [key_idx] gets the value, or a new entry is put in front. *)
Fixpoint replace_write (ws : writes_t) (key_idx : nat) (v : string) : writes_t :=
  match ws with
  | [] => []
  | (k, u) :: ws => if k =? key_idx then (k, v) :: ws else (k, u) :: replace_write ws key_idx v
  end.

Definition local_write (ws : writes_t) (key_idx : nat) (v : string) : writes_t :=
  match find_local_write ws key_idx with
  | Some _ => replace_write ws key_idx (strncpy MAX_VALUE_LEN v)
  | None => (key_idx, strncpy MAX_VALUE_LEN v) :: ws
  end.

(** The walk down the versions in [txn_read]: [strdup("")] without one. *)
Fixpoint visible (start_ts : nat) (vs : list Version) : string :=
  match vs with
  | [] => EmptyString
  | v :: vs => if start_ts <? commit_ts v then visible start_ts vs else value v
  end.

(** The inner loop of the sort: [keys[i]] is exchanged with every smaller key
    behind it. *)
Fixpoint exchange (x : nat) (l : list nat) : nat * list nat :=
  match l with
  | [] => (x, [])
  | y :: l =>
      if y <? x then let '(m, r) := exchange y l in (m, x :: r)
      else let '(m, r) := exchange x l in (m, y :: r)
  end.

Fixpoint sort_loop (n : nat) (l : list nat) : list nat :=
  match n, l with
  | S n, x :: l => let '(m, r) := exchange x l in m :: sort_loop n r
  | _, _ => []
  end.

(** The [keys] of [lock_write_keys_sorted]: each slot once, then sorted. *)
Fixpoint distinct (present : list nat) (ws : writes_t) : list nat :=
  match ws with
  | [] => []
  | (k, _) :: ws => if bool_decide (k ∈ present) then distinct present ws else k :: distinct (k :: present) ws
  end.

Definition keys_sorted (ws : writes_t) : list nat :=
  let keys := distinct [] ws in sort_loop (length keys) keys.

(** ** The store *)

(** A commit: the transaction's start, its time stamp and its writes. *)
Record commit : Set := mkcommit { c_start : nat; c_ts : nat; c_writes : writes_t }.

(** [txns[id]] is at position [id - 1], so [next_txn_id] is one more than their
    number; [history] records the commits with writes, newest first. *)
Record config : Set := mkconfig {
  store : list KeyEntry; global_ts : nat; txns : list Transaction; history : list commit }.

Definition set_txn (c : config) (t : nat) (x : Transaction) : config :=
  mkconfig (store c) (global_ts c) (<[t := x]> (txns c)) (history c).
Definition set_store (c : config) (s : list KeyEntry) : config :=
  mkconfig s (global_ts c) (txns c) (history c).

Definition goto (x : Transaction) (p : pc) : Transaction :=
  mkTransaction (start_ts x) (status x) (writes x) p (observed x).

Definition set_mtx (o : option nat) (e : KeyEntry) : KeyEntry := mkKeyEntry (key e) (versions e) o (used e).
Definition add_version (v : Version) (e : KeyEntry) : KeyEntry :=
  mkKeyEntry (key e) (v :: versions e) (mtx e) (used e).

(** [head && head->commit_ts > t->start_ts]. *)
Definition newer (start_ts : nat) (vs : list Version) : bool :=
  match vs with [] => false | v :: _ => start_ts <? commit_ts v end.

(** One step of the thread of transaction [t]; a thread that is idle can call
    any function of the library next. *)
Inductive step (t : nat) (c : config) : config → Prop :=
  | step_create :
      t = length (txns c) → length (txns c) + 1 < MAX_TXNS →
      step t c (mkconfig (store c) (global_ts c + 1)
        (txns c ++ [mkTransaction (global_ts c) TXN_ACTIVE [] Idle []]) (history c))
  | step_read_own x k idx s v :
      txns c !! t = Some x → at_pc x = Idle → status x = TXN_ACTIVE →
      get_or_create_key k (store c) = Some (idx, s) → find_local_write (writes x) idx = Some v →
      step t c (set_store c s)
  | step_read_key x k idx s :
      txns c !! t = Some x → at_pc x = Idle → status x = TXN_ACTIVE →
      get_or_create_key k (store c) = Some (idx, s) → find_local_write (writes x) idx = None →
      step t c (set_txn (set_store c s) t (goto x (Reading idx)))
  | step_read x idx e :
      txns c !! t = Some x → at_pc x = Reading idx → store c !! idx = Some e → mtx e = None →
      step t c (set_txn c t (mkTransaction (start_ts x) (status x) (writes x) Idle
        ((idx, visible (start_ts x) (versions e)) :: observed x)))
  | step_write x k v idx s :
      txns c !! t = Some x → at_pc x = Idle → status x = TXN_ACTIVE →
      get_or_create_key k (store c) = Some (idx, s) →
      step t c (set_txn (set_store c s) t
        (mkTransaction (start_ts x) (status x) (local_write (writes x) idx v) Idle (observed x)))
  | step_abort x :
      txns c !! t = Some x → at_pc x = Idle → status x = TXN_ACTIVE →
      step t c (set_txn c t (mkTransaction (start_ts x) TXN_ABORTED [] Idle (observed x)))
  | step_commit_read_only x :
      txns c !! t = Some x → at_pc x = Idle → status x = TXN_ACTIVE → writes x = [] →
      step t c (mkconfig (store c) (global_ts c + 1)
        (<[t := mkTransaction (start_ts x) TXN_COMMITTED [] Idle (observed x)]> (txns c)) (history c))
  | step_commit x :
      txns c !! t = Some x → at_pc x = Idle → status x = TXN_ACTIVE → writes x ≠ [] →
      step t c (set_txn c t (goto x (Locking (keys_sorted (writes x)) [])))
  | step_lock x k ks locked e :
      txns c !! t = Some x → at_pc x = Locking (k :: ks) locked → store c !! k = Some e → mtx e = None →
      step t c (set_txn (set_store c (<[k := set_mtx (Some t) e]> (store c))) t (goto x (Locking ks (locked ++ [k]))))
  | step_locked x locked :
      txns c !! t = Some x → at_pc x = Locking [] locked →
      step t c (set_txn c t (goto x (Checking (writes x))))
  | step_check x k v ws e :
      txns c !! t = Some x → at_pc x = Checking ((k, v) :: ws) → store c !! k = Some e →
      newer (start_ts x) (versions e) = false →
      step t c (set_txn c t (goto x (Checking ws)))
  | step_conflict x k v ws e :
      txns c !! t = Some x → at_pc x = Checking ((k, v) :: ws) → store c !! k = Some e →
      newer (start_ts x) (versions e) = true →
      step t c (set_txn c t (goto x (Unlocking false (keys_sorted (writes x)))))
  | step_stamp x :
      txns c !! t = Some x → at_pc x = Checking [] →
      step t c (mkconfig (store c) (global_ts c + 1)
        (<[t := goto x (Installing (global_ts c) (writes x))]> (txns c))
        (mkcommit (start_ts x) (global_ts c) (writes x) :: history c))
  | step_install x ts k v ws e :
      txns c !! t = Some x → at_pc x = Installing ts ((k, v) :: ws) → store c !! k = Some e →
      step t c (set_txn
        (set_store c (<[k := add_version (mkVersion (strncpy MAX_VALUE_LEN v) ts) e]> (store c))) t
        (goto x (Installing ts ws)))
  | step_installed x ts :
      txns c !! t = Some x → at_pc x = Installing ts [] →
      step t c (set_txn c t (mkTransaction (start_ts x) (status x) []
        (Unlocking true (keys_sorted (writes x))) (observed x)))
  | step_unlock x ok k ks e :
      txns c !! t = Some x → at_pc x = Unlocking ok (k :: ks) → store c !! k = Some e →
      step t c (set_txn (set_store c (<[k := set_mtx None e]> (store c))) t (goto x (Unlocking ok ks)))
  | step_finish x ok :
      txns c !! t = Some x → at_pc x = Unlocking ok [] →
      step t c (set_txn c t (mkTransaction (start_ts x) (if ok : bool then TXN_COMMITTED else TXN_ABORTED) [] Idle
        (observed x))).

Definition any_step (c c' : config) : Prop := ∃ t, step t c c'.

(** [main] after its two [memset]s. *)
Definition start : config :=
  mkconfig (replicate MAX_KEYS (mkKeyEntry EmptyString [] None false)) 1 [] [].

Definition reachable (c : config) : Prop := rtc any_step start c.

End Mvcc.

(** ** Keys and write lists *)
Module MvccLemmas.
Import Mvcc.

Lemma exchange_perm x l : (exchange x l).1 :: (exchange x l).2 ≡ₚ x :: l.
Proof.
  revert x. induction l as [|y l IH]; intros x; simpl; [done|]. destruct (y <? x).
  - specialize (IH y). destruct (exchange y l) as [m r]. simpl in *. by rewrite Permutation_swap, IH.
  - specialize (IH x). destruct (exchange x l) as [m r]. simpl in *. rewrite Permutation_swap, IH. apply Permutation_swap.
Qed.

Lemma exchange_min x l : Forall (λ y, (exchange x l).1 ≤ y) (x :: l).
Proof.
  revert x. induction l as [|y l IH]; intros x; simpl; [by repeat constructor|]. destruct (Nat.ltb_spec y x).
  - specialize (IH y). destruct (exchange y l) as [m r]. simpl in *. inversion IH; subst. constructor; [lia|done].
  - specialize (IH x). destruct (exchange x l) as [m r]. simpl in *. inversion IH; subst.
    constructor; [done|]. constructor; [lia|done].
Qed.

Lemma sort_loop_perm n l : length l ≤ n → sort_loop n l ≡ₚ l.
Proof.
  revert l. induction n as [|n IH]; intros [|x l] Hl; simpl in *; try done; [lia|].
  pose proof (exchange_perm x l) as Hp. destruct (exchange x l) as [m r]. simpl in Hp.
  pose proof (Permutation_length Hp) as Hlen. simpl in Hlen. rewrite IH by lia. done.
Qed.

Lemma sort_loop_sorted n l : length l ≤ n → StronglySorted le (sort_loop n l).
Proof.
  revert l. induction n as [|n IH]; intros [|x l] Hl; simpl in *; [apply SSorted_nil|lia|apply SSorted_nil|].
  pose proof (exchange_perm x l) as Hp. pose proof (exchange_min x l) as Hm. destruct (exchange x l) as [m r].
  simpl in *. pose proof (Permutation_length Hp) as Hlen. simpl in Hlen.
  constructor; [apply IH; lia|]. rewrite sort_loop_perm by lia. rewrite <- Hp in Hm. by inversion Hm.
Qed.

Lemma distinct_elem present ws k : k ∈ distinct present ws ↔ k ∈ ws.*1 ∧ k ∉ present.
Proof.
  revert present. induction ws as [|[k' v] ws IH]; intros present; csimpl; [set_solver|].
  case_bool_decide as Hk; rewrite ?elem_of_cons, IH; [set_solver|]. destruct (decide (k = k')); set_solver.
Qed.

Lemma distinct_NoDup present ws : NoDup (distinct present ws).
Proof.
  revert present. induction ws as [|[k v] ws IH]; intros present; simpl; [constructor|].
  case_bool_decide; [done|]. constructor; [|done]. rewrite distinct_elem. set_solver.
Qed.

(** The keys that are locked are those of the writes, each once, ascending. *)
Lemma keys_sorted_elem ws k : k ∈ keys_sorted ws ↔ k ∈ ws.*1.
Proof. unfold keys_sorted. rewrite sort_loop_perm, distinct_elem by done. set_solver. Qed.

Lemma keys_sorted_NoDup ws : NoDup (keys_sorted ws).
Proof. unfold keys_sorted. rewrite sort_loop_perm by done. apply distinct_NoDup. Qed.

Lemma keys_sorted_lt ws : StronglySorted lt (keys_sorted ws).
Proof.
  pose proof (sort_loop_sorted (length (distinct [] ws)) (distinct [] ws) (le_n _)) as Hs.
  pose proof (keys_sorted_NoDup ws) as Hn. unfold keys_sorted in *.
  induction Hs as [|x l Hs IH Hx]; [constructor|]. apply NoDup_cons in Hn as [Hnx Hn]. constructor; [auto|].
  rewrite Forall_forall in *. intros y Hy. specialize (Hx y Hy). destruct (decide (x = y)); [by subst|lia].
Qed.

Lemma find_local_None ws k : find_local_write ws k = None ↔ k ∉ ws.*1.
Proof.
  induction ws as [|[k' v] ws IH]; csimpl; [set_solver|]. rewrite elem_of_cons.
  destruct (Nat.eqb_spec k' k) as [->|Hne]; [split; [done|tauto]|]. rewrite IH. naive_solver.
Qed.

Lemma replace_write_keys ws k v : (replace_write ws k v).*1 = ws.*1.
Proof. induction ws as [|[k' u] ws IH]; csimpl; [done|]. destruct (k' =? k); csimpl; by rewrite ?IH. Qed.

(** What a transaction reads back of its own writes. *)
Lemma find_local_write_same ws k v :
  find_local_write (local_write ws k v) k = Some (strncpy MAX_VALUE_LEN v).
Proof.
  unfold local_write. destruct (find_local_write ws k) as [u|] eqn:E; simpl; [|by rewrite Nat.eqb_refl].
  induction ws as [|[k' w] ws IH]; [done|]. simpl in *. destruct (k' =? k) eqn:Ek; simpl; rewrite Ek; [done|auto].
Qed.

Lemma local_write_keys ws k v j : j ∈ (local_write ws k v).*1 → j = k ∨ j ∈ ws.*1.
Proof.
  unfold local_write. destruct (find_local_write ws k); [rewrite replace_write_keys; auto|]. csimpl.
  by rewrite elem_of_cons.
Qed.

Lemma local_write_NoDup ws k v : NoDup ws.*1 → NoDup (local_write ws k v).*1.
Proof.
  intros Hn. unfold local_write. destruct (find_local_write ws k) eqn:E; [by rewrite replace_write_keys|].
  csimpl. constructor; [by apply find_local_None|done].
Qed.

(** *** Slots *)

Definition live (s : list KeyEntry) (k : nat) : Prop := ∃ e, s !! k = Some e ∧ used e = true.

(** [get_or_create_key] leaves the store as it is or fills an unused slot. *)
Lemma probe_effect n k idx s i s' :
  probe n k idx s = Some (i, s') →
  live s' i ∧ (s' = s ∨ ∃ e, s !! i = Some e ∧ used e = false ∧ s' = <[i := mkKeyEntry (strncpy MAX_KEY_LEN k) [] None true]> s).
Proof.
  revert idx. induction n as [|n IH]; intros idx; simpl; [done|].
  destruct (s !! idx) as [e|] eqn:He; [|done]. destruct (used e) eqn:Hu; simpl.
  - destruct (strncmp MAX_KEY_LEN (key e) k); [|apply IH]. intros [= <- <-]. split; [by exists e|by left].
  - intros [= <- <-]. split; [|right; by exists e].
    exists (mkKeyEntry (strncpy MAX_KEY_LEN k) [] None true). split; [|done].
    apply list_lookup_insert_eq. by eapply lookup_lt_Some.
Qed.

(** Stores that only gain keys. *)
Definition extends (s s' : list KeyEntry) : Prop :=
  ∀ i e, s !! i = Some e → used e = true → ∃ e', s' !! i = Some e' ∧ used e' = true ∧ key e' = key e.

Lemma substring_all n s : String.length s ≤ n → String.substring 0 n s = s.
Proof.
  revert n. induction s as [|c s IH]; intros [|n] Hl; simpl in *; try done; [lia|]. f_equal. apply IH. lia.
Qed.

(** A key keeps its slot: when keys fit the array, looking one up again, in any
    store that has only gained keys, finds the slot it got and adds nothing. *)
Lemma probe_stable n k idx s i s' s'' :
  String.length k < MAX_KEY_LEN → probe n k idx s = Some (i, s') → extends s' s'' → probe n k idx s'' = Some (i, s'').
Proof.
  intros Hk. revert idx. induction n as [|n IH]; intros idx; simpl; [done|].
  destruct (s !! idx) as [e|] eqn:He; [|done]. destruct (used e) eqn:Hu; simpl.
  - destruct (strncmp MAX_KEY_LEN (key e) k) eqn:Hc.
    + intros [= <- <-] Hx. destruct (Hx _ _ He Hu) as (e' & -> & -> & ->). simpl. by rewrite Hc.
    + intros Hp Hx. assert (∃ e', s'' !! idx = Some e' ∧ used e' = true ∧ key e' = key e) as (e' & -> & -> & ->).
      { apply probe_effect in Hp as [_ [->|(e0 & H0 & Hu0 & ->)]]; [by apply Hx|].
        apply Hx; [|done]. rewrite list_lookup_insert_ne; [done|]. intros ->. congruence. }
      simpl. rewrite Hc. by apply IH.
  - intros [= <- <-] Hx. destruct (Hx idx (mkKeyEntry (strncpy MAX_KEY_LEN k) [] None true)) as (e' & -> & -> & ->);
      [apply list_lookup_insert_eq; by eapply lookup_lt_Some|done|]. simpl. unfold strncmp, strncpy.
    rewrite !substring_all; [by rewrite String.eqb_refl|unfold MAX_KEY_LEN in *; rewrite ?substring_all by lia; lia..].
Qed.

Lemma substring_short n s k : String.substring 0 n s = k → String.length k < n → s = k.
Proof.
  revert n k. induction s as [|c s IH]; intros [|n] k <-; simpl; try lia; [done|]. intros Hl. f_equal. apply (IH n); [done|lia].
Qed.

(** The slot it returns has the key. *)
Lemma probe_key n k idx s i s' :
  String.length k < MAX_KEY_LEN → probe n k idx s = Some (i, s') → ∃ e, s' !! i = Some e ∧ used e = true ∧ key e = k.
Proof.
  intros Hk. revert idx. induction n as [|n IH]; intros idx; simpl; [done|].
  destruct (s !! idx) as [e|] eqn:He; [|done]. destruct (used e) eqn:Hu; simpl.
  - destruct (strncmp MAX_KEY_LEN (key e) k) eqn:Hc; [|apply IH]. intros [= <- <-]. exists e. split; [done|]. split; [done|].
    apply String.eqb_eq in Hc. rewrite (substring_all _ k) in Hc by lia. by eapply substring_short.
  - intros [= <- <-]. exists (mkKeyEntry (strncpy MAX_KEY_LEN k) [] None true).
    split; [apply list_lookup_insert_eq; by eapply lookup_lt_Some|]. split; [done|]. simpl. unfold strncpy.
    apply substring_all. lia.
Qed.

Lemma extends_refl s : extends s s.
Proof. intros i e He Hu. by exists e. Qed.

Lemma extends_trans s1 s2 s3 : extends s1 s2 → extends s2 s3 → extends s1 s3.
Proof.
  intros H12 H23 i e He Hu. destruct (H12 i e He Hu) as (e2 & He2 & Hu2 & <-).
  destruct (H23 i e2 He2 Hu2) as (e3 & He3 & Hu3 & <-). by exists e3.
Qed.

Lemma extends_insert s i e e' :
  s !! i = Some e → (used e = true → used e' = true ∧ key e' = key e) → extends s (<[i := e']> s).
Proof.
  intros He Hs j e1 H1 Hu. destruct (decide (i = j)) as [<-|Hne].
  - simplify_eq. exists e'. split; [|by apply Hs]. apply list_lookup_insert_eq. by eapply lookup_lt_Some.
  - exists e1. by rewrite list_lookup_insert_ne.
Qed.

Lemma probe_extends n k idx s i s' : probe n k idx s = Some (i, s') → extends s s'.
Proof.
  intros [_ [->|(e & He & Hu & ->)]]%probe_effect; [apply extends_refl|]. apply (extends_insert s i e); [done|].
  by rewrite Hu.
Qed.

(** No step takes a key out of its slot. *)
Lemma step_extends t c c' : step t c c' → extends (store c) (store c').
Proof.
  destruct 1; simpl; try apply extends_refl; eauto using probe_extends; by eapply extends_insert.
Qed.

Lemma run_extends c c' : rtc any_step c c' → extends (store c) (store c').
Proof.
  induction 1 as [c|c1 c2 c3 [t Hst] _ IH]; [apply extends_refl|]. eapply extends_trans; [by eapply step_extends|done].
Qed.

End MvccLemmas.

(** ** The invariant *)
Module MvccSpec.
Import Mvcc MvccLemmas.

(** The versions the commits gave to slot [k], newest first. *)
Definition version_of (k : nat) (h : commit) : option Version :=
  (λ v, mkVersion (strncpy MAX_VALUE_LEN v) (c_ts h)) <$> find_local_write (c_writes h) k.
Definition chain (k : nat) (hist : list commit) : list Version := omap (version_of k) hist.

(** What a transaction that started at [ts] should see in slot [k]: the value of
    the last commit before its start that wrote there. *)
Fixpoint snapshot (hist : list commit) (ts k : nat) : string :=
  match hist with
  | [] => EmptyString
  | h :: hist =>
      match find_local_write (c_writes h) k with
      | Some v => if c_ts h <=? ts then strncpy MAX_VALUE_LEN v else snapshot hist ts k
      | None => snapshot hist ts k
      end
  end.

(** The locks a transaction holds. *)
Definition held (x : Transaction) : list nat :=
  match at_pc x with
  | Idle | Reading _ => []
  | Locking _ locked => locked
  | Checking _ | Installing _ _ => keys_sorted (writes x)
  | Unlocking _ todo => todo
  end.

(** The version it has a time stamp for and has not put into slot [k] yet. *)
Definition pend (x : Transaction) (k : nat) : option Version :=
  match at_pc x with
  | Installing ts todo => (λ v, mkVersion (strncpy MAX_VALUE_LEN v) ts) <$> find_local_write todo k
  | _ => None
  end.

(** The slots it has found without conflict. *)
Definition checked (x : Transaction) (k : nat) : Prop :=
  match at_pc x with Checking todo => k ∈ (writes x).*1 ∧ k ∉ todo.*1 | _ => False end.

Definition txn_ok (x : Transaction) : Prop :=
  NoDup (writes x).*1 ∧
  match at_pc x with
  | Idle => True
  | Reading idx => idx < MAX_KEYS
  | Locking todo locked => keys_sorted (writes x) = locked ++ todo
  | Checking todo | Installing _ todo => ∃ pre, writes x = pre ++ todo
  | Unlocking _ todo => NoDup todo
  end.

Definition hist_ok (gts : nat) (hist : list commit) : Prop :=
  StronglySorted (λ a b, c_ts b < c_ts a) hist ∧ Forall (λ h, c_ts h < gts) hist.

(** Of two commits that wrote the same slot the later one started after the
    other had its time stamp. *)
Definition first_committer (hist : list commit) : Prop :=
  StronglySorted (λ b a, ∀ k, k ∈ (c_writes a).*1 → k ∈ (c_writes b).*1 → c_ts a ≤ c_start b) hist.

Definition own (s : list KeyEntry) (xs : list Transaction) : Prop :=
  ∀ k e t, s !! k = Some e → mtx e = Some t ↔ ∃ x, xs !! t = Some x ∧ k ∈ held x.

Definition chains (s : list KeyEntry) (xs : list Transaction) (hist : list commit) : Prop :=
  ∀ k e, s !! k = Some e →
    (∀ t x v, xs !! t = Some x → pend x k = Some v → chain k hist = v :: versions e) ∧
    ((∀ t x, xs !! t = Some x → pend x k = None) → chain k hist = versions e).

Record inv (c : config) : Prop := mkinv {
  inv_len : length (store c) = MAX_KEYS;
  inv_unused k e : store c !! k = Some e → used e = false → versions e = [];
  inv_txn t x : txns c !! t = Some x → txn_ok x;
  inv_live t x k : txns c !! t = Some x → k ∈ (writes x).*1 ∨ k ∈ held x → live (store c) k;
  inv_own : own (store c) (txns c);
  inv_start t x : txns c !! t = Some x → start_ts x < global_ts c;
  inv_checked t x k e : txns c !! t = Some x → checked x k → store c !! k = Some e →
    Forall (λ v, commit_ts v ≤ start_ts x) (versions e);
  inv_hist : hist_ok (global_ts c) (history c);
  inv_first : first_committer (history c);
  inv_chains : chains (store c) (txns c) (history c);
  inv_observed t x k v : txns c !! t = Some x → (k, v) ∈ observed x → v = snapshot (history c) (start_ts x) k
}.

(** *** Versions and snapshots *)

Lemma visible_snapshot ts k hist : visible ts (chain k hist) = snapshot hist ts k.
Proof.
  unfold chain. induction hist as [|h hist IH]; [done|]. simpl. unfold version_of at 1.
  destruct (find_local_write (c_writes h) k) as [v|]; simpl; [|done].
  destruct (Nat.ltb_spec ts (c_ts h)), (Nat.leb_spec (c_ts h) ts); try lia; done.
Qed.

(** A commit after the start does not change what is seen. *)
Lemma snapshot_stable h hist ts k : ts < c_ts h → snapshot (h :: hist) ts k = snapshot hist ts k.
Proof. intros Hlt. simpl. destruct (Nat.leb_spec (c_ts h) ts); [lia|]. by destruct (find_local_write _ k). Qed.

Lemma chain_elem k hist v : v ∈ chain k hist ↔ ∃ h, h ∈ hist ∧ version_of k h = Some v.
Proof. unfold chain. by rewrite list_elem_of_omap. Qed.

Lemma version_of_writes k h : k ∈ (c_writes h).*1 → ∃ v, version_of k h = Some v ∧ commit_ts v = c_ts h.
Proof.
  intros Hk. unfold version_of. destruct (find_local_write (c_writes h) k) as [v|] eqn:E; [by eexists|].
  by apply find_local_None in E.
Qed.

(** The chain of a slot is in order, so its first version decides. *)
Lemma chain_newer gts hist k ts :
  hist_ok gts hist → newer ts (chain k hist) = false → Forall (λ v, commit_ts v ≤ ts) (chain k hist).
Proof.
  intros [Hs _] Hn. apply Forall_forall. intros v (h & Hh & Hv)%chain_elem.
  assert (commit_ts v = c_ts h) as -> by (unfold version_of in Hv; destruct (find_local_write _ k); by simplify_eq/=).
  induction Hs as [|h0 hist Hs IH Hall]; [by apply elem_of_nil in Hh|].
  unfold chain in Hn. simpl in Hn. destruct (version_of k h0) as [v0|] eqn:E0.
  - assert (commit_ts v0 = c_ts h0) as E1
      by (unfold version_of in E0; destruct (find_local_write _ k); by simplify_eq/=).
    simpl in Hn. apply Nat.ltb_ge in Hn. apply elem_of_cons in Hh as [->|Hh]; [lia|].
    rewrite Forall_forall in Hall. specialize (Hall h Hh). lia.
  - apply elem_of_cons in Hh as [->|Hh]; [congruence|]. by apply IH.
Qed.

(** *** Ownership *)

Lemma mv_own_unique c k t1 t2 x1 x2 :
  inv c → k < MAX_KEYS → txns c !! t1 = Some x1 → txns c !! t2 = Some x2 → k ∈ held x1 → k ∈ held x2 → t1 = t2.
Proof.
  intros Hi Hk H1 H2 K1 K2. rewrite <- (inv_len c Hi) in Hk. apply lookup_lt_is_Some in Hk as [e He].
  assert (mtx e = Some t1) by (apply (inv_own c Hi k e); eauto).
  assert (mtx e = Some t2) by (apply (inv_own c Hi k e); eauto). congruence.
Qed.

Lemma pend_held x k v : txn_ok x → pend x k = Some v → k ∈ held x.
Proof.
  intros [_ Hok] Hp. unfold pend, held in *. destruct (at_pc x) as [| | | |ts todo|]; try done.
  destruct (find_local_write todo k) as [u|] eqn:E; [|done]. apply keys_sorted_elem.
  destruct Hok as [pre ->]. rewrite fmap_app. apply elem_of_app. right.
  destruct (decide (k ∈ todo.*1)) as [|Hn]; [done|]. apply find_local_None in Hn. congruence.
Qed.

Lemma checked_held x k : checked x k → k ∈ held x.
Proof. unfold checked, held. destruct (at_pc x); try done. intros [? _]. by apply keys_sorted_elem. Qed.

(** A slot whose lock is not held by an installing transaction is settled. *)
Lemma chain_settled c k e :
  inv c → store c !! k = Some e → (∀ t x, txns c !! t = Some x → k ∈ held x → pend x k = None) →
  chain k (history c) = versions e.
Proof.
  intros Hi He Hn. apply (inv_chains c Hi k e He). intros t x Hx.
  destruct (pend x k) as [v|] eqn:Hp; [|done]. rewrite <- Hp. apply (Hn t x Hx). eapply pend_held; [|exact Hp].
  by eapply (inv_txn c Hi).
Qed.

Lemma live_lt c k : inv c → live (store c) k → k < MAX_KEYS.
Proof. intros Hi (e & He & _). rewrite <- (inv_len c Hi). by eapply lookup_lt_Some. Qed.

Lemma chain_of_holder c t x k e :
  inv c → txns c !! t = Some x → k ∈ held x → pend x k = None → store c !! k = Some e →
  chain k (history c) = versions e.
Proof.
  intros Hi Hx Hk Hp He. apply (chain_settled c k e Hi He). intros t' x' Hx' Hk'.
  assert (t' = t) as ->; [|by simplify_eq]. eapply (mv_own_unique c k); eauto.
  eapply live_lt; [done|]. by apply (inv_live c Hi t x); [|right].
Qed.

(** *** What has to be shown for a step of [t] from [x] to [x'] *)

Lemma lookup_same_length {A} (s s' : list A) k e' :
  length s' = length s → s' !! k = Some e' → ∃ e, s !! k = Some e.
Proof. intros Hl He. apply lookup_lt_is_Some. rewrite <- Hl. by eapply lookup_lt_Some. Qed.

Lemma mv_inv_update c t x x' s' gts' hist' :
  inv c → txns c !! t = Some x → length s' = length (store c) →
  (∀ k, live (store c) k → live s' k) →
  (∀ k e, s' !! k = Some e → used e = false → versions e = []) →
  txn_ok x' → (∀ k, k ∈ (writes x').*1 ∨ k ∈ held x' → live s' k) →
  own s' (<[t := x']> (txns c)) → start_ts x' = start_ts x → global_ts c ≤ gts' →
  (∀ k e e', store c !! k = Some e → s' !! k = Some e' → k ∉ held x → versions e' = versions e) →
  (∀ k e, checked x' k → s' !! k = Some e → Forall (λ v, commit_ts v ≤ start_ts x) (versions e)) →
  hist_ok gts' hist' → first_committer hist' → chains s' (<[t := x']> (txns c)) hist' →
  (∀ k v, (k, v) ∈ observed x' → v = snapshot hist' (start_ts x) k) →
  (∀ ts k, ts < global_ts c → snapshot hist' ts k = snapshot (history c) ts k) →
  inv (mkconfig s' gts' (<[t := x']> (txns c)) hist').
Proof.
  intros Hi Ht Hlen Hlive Hun Hok Hw Hown Hst Hg Hver Hchk Hh Hf Hch Hobs Hsnap.
  constructor; simpl; try done.
  - by rewrite Hlen, (inv_len c Hi).
  - intros t' y Hy. apply list_lookup_insert_Some in Hy as [(_ & <- & _)|[_ Hy]]; [done|by eapply (inv_txn c Hi)].
  - intros t' y k Hy. apply list_lookup_insert_Some in Hy as [(_ & <- & _)|[_ Hy]]; [apply Hw|].
    intros Hk. apply Hlive. by eapply (inv_live c Hi).
  - intros t' y Hy. apply list_lookup_insert_Some in Hy as [(_ & <- & _)|[_ Hy]].
    + rewrite Hst. pose proof (inv_start c Hi t x Ht). lia.
    + pose proof (inv_start c Hi t' y Hy). lia.
  - intros t' y k e Hy Hc He. apply list_lookup_insert_Some in Hy as [(_ & <- & _)|[Hne Hy]];
      [rewrite Hst; by eapply Hchk|].
    destruct (lookup_same_length _ _ _ _ Hlen He) as [e0 He0]. rewrite (Hver k e0 e He0 He);
      [by eapply (inv_checked c Hi)|].
    intros Hk. apply Hne. eapply (mv_own_unique c k); eauto using checked_held.
    eapply live_lt; [done|]. by apply (inv_live c Hi t x); [|right].
  - intros t' y k v Hy Hv. apply list_lookup_insert_Some in Hy as [(_ & <- & _)|[_ Hy]]; [rewrite Hst; by apply Hobs|].
    rewrite Hsnap; [by eapply (inv_observed c Hi)|]. by eapply (inv_start c Hi).
Qed.

(** Stores that differ in their keys only. *)
Definition same_data (s s' : list KeyEntry) : Prop :=
  length s' = length s ∧
  ∀ k e e', s !! k = Some e → s' !! k = Some e' →
    versions e' = versions e ∧ mtx e' = mtx e ∧ (used e = true → used e' = true).

Lemma same_data_refl s : same_data s s.
Proof. split; [done|]. intros k e e' He He'. by simplify_eq. Qed.

Lemma create_same_data c k i s' :
  inv c → get_or_create_key k (store c) = Some (i, s') → same_data (store c) s' ∧ live s' i.
Proof.
  intros Hi Hp. apply probe_effect in Hp as [Hl [->|(e & He & Hu & ->)]]; (split; [|done]); [apply same_data_refl|].
  split; [by rewrite length_insert|]. intros j e1 e2 H1 H2.
  apply list_lookup_insert_Some in H2 as [(-> & <- & _)|[_ H2]]; [|by simplify_eq]. simplify_eq. simpl.
  split; [by rewrite (inv_unused c Hi j e)|]. split; [|done]. destruct (mtx e) as [t|] eqn:Hm; [|done].
  apply (inv_own c Hi j e) in Hm as (x & Hx & Hk); [|done].
  destruct (inv_live c Hi t x j Hx (or_intror Hk)) as (e' & He' & Hu'). congruence.
Qed.

Lemma same_data_live s s' k : same_data s s' → live s k → live s' k.
Proof.
  intros [Hl Hs] (e & He & Hu). destruct (lookup_same_length s' s k e (eq_sym Hl) He) as [e' He'].
  exists e'. split; [done|]. by apply (Hs k e e').
Qed.

Lemma own_keep c t x x' s' :
  inv c → txns c !! t = Some x → length s' = length (store c) →
  (∀ k e e', store c !! k = Some e → s' !! k = Some e' → mtx e' = mtx e) →
  (∀ k, k ∈ held x' ↔ k ∈ held x) → own s' (<[t := x']> (txns c)).
Proof.
  intros Hi Ht Hlen Hm Hh k e t' He. destruct (lookup_same_length _ _ _ _ Hlen He) as [e0 He0].
  rewrite (Hm k e0 e He0 He), (inv_own c Hi k e0 t' He0). apply lookup_lt_Some in Ht as Hlt.
  destruct (decide (t = t')) as [<-|Hne]; [|by rewrite list_lookup_insert_ne].
  rewrite list_lookup_insert_eq by done. split; intros (y & Hy & Hk); simplify_eq; [exists x'|exists x];
    (split; [done|]); by apply Hh.
Qed.

Lemma chains_keep c t x x' s' :
  inv c → txns c !! t = Some x → length s' = length (store c) →
  (∀ k e e', store c !! k = Some e → s' !! k = Some e' → versions e' = versions e) →
  (∀ k, pend x' k = pend x k) → chains s' (<[t := x']> (txns c)) (history c).
Proof.
  intros Hi Ht Hlen Hv Hp k e He. destruct (lookup_same_length _ _ _ _ Hlen He) as [e0 He0].
  rewrite (Hv k e0 e He0 He). destruct (inv_chains c Hi k e0 He0) as [H1 H2]. apply lookup_lt_Some in Ht as Hlt. split.
  - intros t' y v Hy Hpy. apply list_lookup_insert_Some in Hy as [(_ & <- & _)|[_ Hy]]; [|by eapply H1].
    rewrite Hp in Hpy. by eapply H1.
  - intros Hn. apply H2. intros t' y Hy. destruct (decide (t' = t)) as [->|Hne].
    + simplify_eq. rewrite <- Hp. apply (Hn t). by rewrite list_lookup_insert_eq.
    + apply (Hn t'). by rewrite list_lookup_insert_ne.
Qed.

(** Steps that change neither versions nor locks. *)
Lemma mv_inv_local c t x x' s' gts' :
  inv c → txns c !! t = Some x → same_data (store c) s' → txn_ok x' →
  (∀ k, k ∈ (writes x').*1 → live s' k) → (∀ k, k ∈ held x' ↔ k ∈ held x) → (∀ k, pend x' k = pend x k) →
  start_ts x' = start_ts x → global_ts c ≤ gts' →
  (∀ k e, checked x' k → s' !! k = Some e → Forall (λ v, commit_ts v ≤ start_ts x) (versions e)) →
  (∀ k v, (k, v) ∈ observed x' → v = snapshot (history c) (start_ts x) k) →
  inv (mkconfig s' gts' (<[t := x']> (txns c)) (history c)).
Proof.
  intros Hi Ht Hs Hok Hw Hh Hp Hst Hg Hc Ho. pose proof Hs as [Hlen Hd].
  apply (mv_inv_update c t x); try done.
  - intros k. by apply same_data_live.
  - intros k e He Hu. destruct (lookup_same_length _ _ _ _ Hlen He) as [e0 He0].
    destruct (Hd k e0 e He0 He) as (-> & _ & Hu'). apply (inv_unused c Hi k); [done|].
    destruct (used e0); [by rewrite Hu' in Hu|done].
  - intros k [Hk|Hk]; [by apply Hw|]. apply (same_data_live _ _ _ Hs). apply (inv_live c Hi t x k Ht).
    right. by apply Hh.
  - apply (own_keep c t x); try done. intros k e e' He He'. by apply (Hd k).
  - intros k e e' He He' _. by apply (Hd k).
  - destruct (inv_hist c Hi) as [? Hf]. split; [done|]. eapply Forall_impl; [exact Hf|]. simpl. lia.
  - apply (inv_first c Hi).
  - apply (chains_keep c t x); try done. intros k e e' He He'. by apply (Hd k).
Qed.

(** *** Locks *)

Lemma inv_set_mtx c t x x' k e o :
  inv c → txns c !! t = Some x → store c !! k = Some e → txn_ok x' → writes x' = writes x →
  (∀ j, j ∈ held x' → j ∈ held x ∨ j ∈ (writes x).*1) →
  own (<[k := set_mtx o e]> (store c)) (<[t := x']> (txns c)) → (∀ j, pend x' j = None) → (∀ j, pend x j = None) →
  start_ts x' = start_ts x → (∀ j, ¬ checked x' j) → observed x' = observed x →
  inv (mkconfig (<[k := set_mtx o e]> (store c)) (global_ts c) (<[t := x']> (txns c)) (history c)).
Proof.
  intros Hi Ht He Hok Hw Hh Hown Hp Hp0 Hst Hc Ho.
  assert (∀ j e1 e2, store c !! j = Some e1 → <[k := set_mtx o e]> (store c) !! j = Some e2 →
    versions e2 = versions e1 ∧ used e2 = used e1) as Hd.
  { intros j e1 e2 H1 H2. apply list_lookup_insert_Some in H2 as [(-> & <- & _)|[_ H2]]; by simplify_eq. }
  assert (length (<[k := set_mtx o e]> (store c)) = length (store c)) as Hlen by apply length_insert.
  assert (∀ j, live (store c) j → live (<[k := set_mtx o e]> (store c)) j) as Hlive.
  { intros j (e1 & H1 & Hu). destruct (lookup_same_length _ _ _ _ (eq_sym Hlen) H1) as [e2 H2].
    exists e2. split; [done|]. by destruct (Hd j e1 e2 H1 H2) as [_ ->]. }
  apply (mv_inv_update c t x); try done.
  - intros j e2 H2 Hu. destruct (lookup_same_length _ _ _ _ Hlen H2) as [e1 H1].
    destruct (Hd j e1 e2 H1 H2) as [-> Hu1]. apply (inv_unused c Hi j); congruence.
  - intros j Hj. apply Hlive, (inv_live c Hi t x); [done|]. rewrite Hw in Hj. destruct Hj as [|Hj%Hh]; tauto.
  - intros j e1 e2 H1 H2 _. by apply (Hd j).
  - intros j e2 Hj. by apply Hc in Hj.
  - apply Hi.
  - apply Hi.
  - apply (chains_keep c t x); try done; [|intros j; by rewrite Hp, Hp0]. intros j e1 e2 H1 H2. by apply (Hd j).
  - intros j v. rewrite Ho. by apply (inv_observed c Hi t).
Qed.

Lemma inv_step_lock c t x k ks locked e :
  inv c → txns c !! t = Some x → at_pc x = Locking (k :: ks) locked → store c !! k = Some e → mtx e = None →
  inv (set_txn (set_store c (<[k := set_mtx (Some t) e]> (store c))) t (goto x (Locking ks (locked ++ [k])))).
Proof.
  intros Hi Ht Hpc He Hm. pose proof (inv_txn c Hi t x Ht) as [Hnd Hk]. rewrite Hpc in Hk.
  assert (held x = locked) as Hheld by (unfold held; by rewrite Hpc). apply lookup_lt_Some in Ht as Hlt.
  apply (inv_set_mtx c t x); try done.
  - split; [done|]. simpl. by rewrite Hk, <- app_assoc.
  - simpl. intros j. unfold held at 1. simpl. rewrite Hheld, elem_of_app. intros [|Hj]; [by left|right].
    apply list_elem_of_singleton in Hj as ->. apply keys_sorted_elem. rewrite Hk. set_solver.
  - intros j e' t' He'. destruct (decide (j = k)) as [->|Hj].
    + rewrite list_lookup_insert_eq in He' by (by eapply lookup_lt_Some). injection He' as <-. simpl. split.
      * intros [= <-]. eexists. rewrite list_lookup_insert_eq by done. split; [done|]. unfold held. simpl. set_solver.
      * intros (y & Hy & Hin). apply list_lookup_insert_Some in Hy as [(-> & _ & _)|[_ Hy]]; [done|].
        assert (mtx e = Some t') by (apply (inv_own c Hi k e); eauto). congruence.
    + rewrite list_lookup_insert_ne in He' by done. rewrite (inv_own c Hi j e' t' He').
      destruct (decide (t = t')) as [<-|Hne]; [|by rewrite list_lookup_insert_ne].
      rewrite list_lookup_insert_eq by done. split; intros (y & Hy & Hin); simplify_eq; eexists; (split; [done|]);
        unfold held in *; simpl in *; rewrite ?Hpc in *; set_solver.
  - intros j. unfold pend. by rewrite Hpc.
  - intros j Hj. done.
Qed.

Lemma inv_step_unlock c t x ok k ks e :
  inv c → txns c !! t = Some x → at_pc x = Unlocking ok (k :: ks) → store c !! k = Some e →
  inv (set_txn (set_store c (<[k := set_mtx None e]> (store c))) t (goto x (Unlocking ok ks))).
Proof.
  intros Hi Ht Hpc He. pose proof (inv_txn c Hi t x Ht) as [Hnd Hk]. rewrite Hpc in Hk. apply NoDup_cons in Hk as [Hnk Hk].
  assert (held x = k :: ks) as Hheld by (unfold held; by rewrite Hpc). apply lookup_lt_Some in Ht as Hlt.
  assert (mtx e = Some t) as Hm by (apply (inv_own c Hi k e t He); exists x; split; [done|]; rewrite Hheld; by left).
  apply (inv_set_mtx c t x); try done.
  - intros j. unfold held at 1. simpl. rewrite Hheld. intros Hj. left. by right.
  - intros j e' t' He'. destruct (decide (j = k)) as [->|Hj].
    + rewrite list_lookup_insert_eq in He' by (by eapply lookup_lt_Some). injection He' as <-. simpl. split; [done|].
      intros (y & Hy & Hin). apply list_lookup_insert_Some in Hy as [(_ & <- & _)|[Hne Hy]]; [done|].
      assert (mtx e = Some t') by (apply (inv_own c Hi k e); eauto). congruence.
    + rewrite list_lookup_insert_ne in He' by done. rewrite (inv_own c Hi j e' t' He').
      destruct (decide (t = t')) as [<-|Hne]; [|by rewrite list_lookup_insert_ne].
      rewrite list_lookup_insert_eq by done. split; intros (y & Hy & Hin); simplify_eq; eexists; (split; [done|]);
        unfold held in *; simpl in *; rewrite ?Hpc in *; set_solver.
  - intros j. unfold pend. by rewrite Hpc.
  - intros j Hj. done.
Qed.

(** *** The time stamp *)

Lemma chain_cons k h hist : chain k (h :: hist) = option_list (version_of k h) ++ chain k hist.
Proof. unfold chain. simpl. by destruct (version_of k h). Qed.

(** Every slot of the writes was found without a newer version, and still is. *)
Lemma stamp_first c t x h k :
  inv c → txns c !! t = Some x → at_pc x = Checking [] → h ∈ history c → k ∈ (c_writes h).*1 → k ∈ (writes x).*1 →
  c_ts h ≤ start_ts x.
Proof.
  intros Hi Ht Hpc Hh Hk Hw. assert (checked x k) as Hc by (unfold checked; rewrite Hpc; set_solver).
  destruct (inv_live c Hi t x k Ht (or_introl Hw)) as (e & He & _).
  pose proof (inv_checked c Hi t x k e Ht Hc He) as Hall.
  rewrite <- (chain_of_holder c t x k e Hi Ht) in Hall; [|by apply checked_held|unfold pend; by rewrite Hpc|done].
  destruct (version_of_writes k h Hk) as (v & Hv & <-). rewrite Forall_forall in Hall. apply Hall.
  apply chain_elem. by exists h.
Qed.

Lemma stamp_chains c t x :
  inv c → txns c !! t = Some x → at_pc x = Checking [] →
  chains (store c) (<[t := goto x (Installing (global_ts c) (writes x))]> (txns c))
    (mkcommit (start_ts x) (global_ts c) (writes x) :: history c).
Proof.
  intros Hi Ht Hpc k e He. apply lookup_lt_Some in Ht as Hlt.
  assert (pend x k = None) as Hp by (unfold pend; by rewrite Hpc).
  assert (held x = keys_sorted (writes x)) as Hheld by (unfold held; by rewrite Hpc).
  rewrite chain_cons. unfold version_of. cbn [c_writes c_ts].
  destruct (find_local_write (writes x) k) as [v|] eqn:E.
  - assert (k ∈ held x) as Hk.
    { rewrite Hheld, keys_sorted_elem. destruct (decide (k ∈ (writes x).*1)) as [|Hn%find_local_None]; congruence. }
    rewrite (chain_of_holder c t x k e Hi Ht Hk Hp He). split.
    + intros t' y u Hy Hpy. apply list_lookup_insert_Some in Hy as [(_ & <- & _)|[Hne Hy]].
      * unfold pend in Hpy. simpl in Hpy. rewrite E in Hpy. by simplify_eq/=.
      * exfalso. apply Hne. eapply (mv_own_unique c k); eauto using live_lt, inv_live.
        eapply pend_held; [by eapply (inv_txn c Hi)|done].
    + intros Hn. specialize (Hn t). rewrite list_lookup_insert_eq in Hn by done.
      specialize (Hn _ eq_refl). unfold pend in Hn. simpl in Hn. by rewrite E in Hn.
  - simpl. destruct (inv_chains c Hi k e He) as [H1 H2]. split.
    + intros t' y u Hy Hpy. apply list_lookup_insert_Some in Hy as [(_ & <- & _)|[Hne Hy]]; [|by eapply H1].
      unfold pend in Hpy. simpl in Hpy. by rewrite E in Hpy.
    + intros Hn. apply H2. intros t' y Hy. destruct (decide (t' = t)) as [->|Hne]; [by simplify_eq|].
      apply (Hn t'). by rewrite list_lookup_insert_ne.
Qed.

Lemma inv_step_stamp c t x :
  inv c → txns c !! t = Some x → at_pc x = Checking [] →
  inv (mkconfig (store c) (global_ts c + 1) (<[t := goto x (Installing (global_ts c) (writes x))]> (txns c))
    (mkcommit (start_ts x) (global_ts c) (writes x) :: history c)).
Proof.
  intros Hi Ht Hpc. pose proof (inv_txn c Hi t x Ht) as [Hnd _].
  assert (held x = keys_sorted (writes x)) as Hheld by (unfold held; by rewrite Hpc).
  destruct (inv_hist c Hi) as [Hs Hf].
  apply (mv_inv_update c t x); try done.
  - apply (inv_unused c Hi).
  - split; [done|]. by exists [].
  - intros k Hk. apply (inv_live c Hi t x k Ht). by rewrite Hheld.
  - apply (own_keep c t x); try done; [|by rewrite Hheld]. intros; by simplify_eq.
  - lia.
  - intros; by simplify_eq.
  - split; [constructor; [done|exact Hf]|]. constructor; [simpl; lia|]. eapply Forall_impl; [exact Hf|]. simpl. lia.
  - constructor; [apply (inv_first c Hi)|]. apply Forall_forall. intros h Hh k. simpl.
    intros. by eapply (stamp_first c t x h k).
  - by apply stamp_chains.
  - intros k v Hv. rewrite snapshot_stable by (simpl; by eapply (inv_start c Hi)). by eapply (inv_observed c Hi).
  - intros ts k Hlt. by apply snapshot_stable.
Qed.

(** *** The versions *)

(** No slot is installed twice. *)
Lemma installing_fresh c t x ts k v ws :
  inv c → txns c !! t = Some x → at_pc x = Installing ts ((k, v) :: ws) → find_local_write ws k = None.
Proof.
  intros Hi Ht Hpc. pose proof (inv_txn c Hi t x Ht) as [Hnd Hw]. rewrite Hpc in Hw. destruct Hw as [pre Hw].
  rewrite Hw, fmap_app in Hnd. apply NoDup_app in Hnd as (_ & _ & Hnd). csimpl in Hnd.
  apply NoDup_cons in Hnd as [Hk _]. by apply find_local_None.
Qed.

Lemma install_chains c t x ts k v ws e :
  inv c → txns c !! t = Some x → at_pc x = Installing ts ((k, v) :: ws) → store c !! k = Some e →
  chains (<[k := add_version (mkVersion (strncpy MAX_VALUE_LEN v) ts) e]> (store c))
    (<[t := goto x (Installing ts ws)]> (txns c)) (history c).
Proof.
  intros Hi Ht Hpc He j e' He'. apply lookup_lt_Some in Ht as Hlt.
  pose proof (installing_fresh c t x ts k v ws Hi Ht Hpc) as Hfresh.
  assert (pend x k = Some (mkVersion (strncpy MAX_VALUE_LEN v) ts)) as Hpk
    by (unfold pend; rewrite Hpc; simpl; by rewrite Nat.eqb_refl).
  assert (k ∈ held x) as Hk by (eapply pend_held; [by eapply (inv_txn c Hi)|done]).
  apply list_lookup_insert_Some in He' as [(<- & <- & _)|[Hne He']].
  - destruct (inv_chains c Hi k e He) as [H1 _]. split.
    + intros t' y u Hy Hpy. exfalso. apply list_lookup_insert_Some in Hy as [(_ & <- & _)|[Hne Hy]].
      * unfold pend in Hpy. simpl in Hpy. by rewrite Hfresh in Hpy.
      * apply Hne. eapply (mv_own_unique c k); eauto using live_lt, inv_live.
        eapply pend_held; [by eapply (inv_txn c Hi)|done].
    + intros _. by apply (H1 t x).
  - assert (pend (goto x (Installing ts ws)) j = pend x j) as Hpj.
    { unfold pend. rewrite Hpc. simpl. by destruct (Nat.eqb_spec k j). }
    destruct (inv_chains c Hi j e' He') as [H1 H2]. split.
    + intros t' y u Hy Hpy. apply list_lookup_insert_Some in Hy as [(_ & <- & _)|[_ Hy]]; [|by eapply H1].
      rewrite Hpj in Hpy. by eapply H1.
    + intros Hn. apply H2. intros t' y Hy. destruct (decide (t' = t)) as [->|Hne'].
      * simplify_eq. rewrite <- Hpj. apply (Hn t). by rewrite list_lookup_insert_eq.
      * apply (Hn t'). by rewrite list_lookup_insert_ne.
Qed.

Lemma inv_step_install c t x ts k v ws e :
  inv c → txns c !! t = Some x → at_pc x = Installing ts ((k, v) :: ws) → store c !! k = Some e →
  inv (set_txn (set_store c (<[k := add_version (mkVersion (strncpy MAX_VALUE_LEN v) ts) e]> (store c))) t
    (goto x (Installing ts ws))).
Proof.
  intros Hi Ht Hpc He. pose proof (inv_txn c Hi t x Ht) as [Hnd Hw]. rewrite Hpc in Hw. destruct Hw as [pre Hw].
  assert (held x = keys_sorted (writes x)) as Hheld by (unfold held; by rewrite Hpc).
  assert (k ∈ (writes x).*1) as Hk by (rewrite Hw, fmap_app; set_solver).
  set (s' := <[k := add_version (mkVersion (strncpy MAX_VALUE_LEN v) ts) e]> (store c)).
  assert (∀ j e1 e2, store c !! j = Some e1 → s' !! j = Some e2 →
    used e2 = used e1 ∧ mtx e2 = mtx e1 ∧ (j ≠ k → versions e2 = versions e1)) as Hd.
  { intros j e1 e2 H1 H2. apply list_lookup_insert_Some in H2 as [(-> & <- & _)|[_ H2]]; by simplify_eq. }
  assert (length s' = length (store c)) as Hlen by apply length_insert.
  assert (∀ j, live (store c) j → live s' j) as Hlive.
  { intros j (e1 & H1 & Hu). destruct (lookup_same_length _ _ _ _ (eq_sym Hlen) H1) as [e2 H2].
    exists e2. split; [done|]. by destruct (Hd j e1 e2 H1 H2) as [-> _]. }
  change (inv (mkconfig s' (global_ts c) (<[t := goto x (Installing ts ws)]> (txns c)) (history c))).
  apply (mv_inv_update c t x); try done.
  - intros j e2 H2 Hu. destruct (lookup_same_length _ _ _ _ Hlen H2) as [e1 H1].
    destruct (Hd j e1 e2 H1 H2) as (Hu1 & _ & Hv). rewrite Hv; [apply (inv_unused c Hi j); congruence|].
    intros ->. destruct (inv_live c Hi t x k Ht (or_introl Hk)) as (e0 & H0 & Hu0). congruence.
  - split; [done|]. exists (pre ++ [(k, v)]). simpl. by rewrite Hw, <- app_assoc.
  - intros j Hj. apply Hlive, (inv_live c Hi t x j Ht). by rewrite Hheld.
  - apply (own_keep c t x); try done; [|by rewrite Hheld]. intros j e1 e2 H1 H2. by apply (Hd j).
  - intros j e1 e2 H1 H2 Hj. apply (Hd j e1 e2 H1 H2). intros ->. apply Hj. by rewrite Hheld, keys_sorted_elem.
  - apply Hi.
  - apply Hi.
  - by apply install_chains.
  - intros j u Hu. by eapply (inv_observed c Hi).
Qed.

(** *** Every step *)

Lemma inv_create c :
  inv c → inv (mkconfig (store c) (global_ts c + 1) (txns c ++ [mkTransaction (global_ts c) TXN_ACTIVE [] Idle []]) (history c)).
Proof.
  intros Hi. set (x0 := mkTransaction (global_ts c) TXN_ACTIVE [] Idle []).
  assert (∀ t y, (txns c ++ [x0]) !! t = Some y → txns c !! t = Some y ∨ y = x0) as Hlook.
  { intros t y Hy. apply lookup_app_Some in Hy as [|[_ Hy]]; [by left|right].
    apply list_lookup_singleton_Some in Hy as [_ <-]. done. }
  assert (∀ t y, txns c !! t = Some y → (txns c ++ [x0]) !! t = Some y) as Hold
    by (intros t y Hy; by apply lookup_app_l_Some).
  constructor; simpl; try apply Hi.
  - intros t y [Hy| ->]%Hlook; [by eapply (inv_txn c Hi)|]. split; [constructor|done].
  - intros t y k [Hy| ->]%Hlook; [by eapply (inv_live c Hi)|]. unfold held. simpl. intros [Hk|Hk]; by apply elem_of_nil in Hk.
  - intros k e t He. rewrite (inv_own c Hi k e t He). split; intros (y & Hy & Hk); [eauto|].
    apply Hlook in Hy as [Hy| ->]; [eauto|]. by apply elem_of_nil in Hk.
  - intros t y [Hy| ->]%Hlook; [pose proof (inv_start c Hi t y Hy)|]; simpl; lia.
  - intros t y k e [Hy| ->]%Hlook; [by eapply (inv_checked c Hi)|done].
  - destruct (inv_hist c Hi) as [? Hf]. split; [done|]. eapply Forall_impl; [exact Hf|]. simpl. lia.
  - intros k e He. destruct (inv_chains c Hi k e He) as [H1 H2]. split.
    + intros t y v [Hy| ->]%Hlook Hp; [by eapply H1|done].
    + intros Hn. apply H2. eauto.
  - intros t y k v [Hy| ->]%Hlook; [by eapply (inv_observed c Hi)|]. intros Hv. by apply elem_of_nil in Hv.
Qed.

Lemma inv_step_read c t x idx e :
  inv c → txns c !! t = Some x → at_pc x = Reading idx → store c !! idx = Some e → mtx e = None →
  inv (set_txn c t (mkTransaction (start_ts x) (status x) (writes x) Idle
    ((idx, visible (start_ts x) (versions e)) :: observed x))).
Proof.
  intros Hi Ht Hpc He Hm. pose proof (inv_txn c Hi t x Ht) as [Hnd _].
  apply (mv_inv_local c t x); try done.
  - apply same_data_refl.
  - intros k Hk. by apply (inv_live c Hi t x); [|left].
  - intros k. unfold held. by rewrite Hpc.
  - intros k. unfold pend. by rewrite Hpc.
  - simpl. intros k v [[= -> ->]|Hv]%elem_of_cons; [|by eapply (inv_observed c Hi)].
    rewrite <- visible_snapshot. rewrite (chain_settled c idx e Hi He); [done|].
    intros t' y Hy Hk. assert (mtx e = Some t') by (apply (inv_own c Hi idx e); eauto). congruence.
Qed.

Lemma inv_step_write c t x k v idx s :
  inv c → txns c !! t = Some x → at_pc x = Idle → get_or_create_key k (store c) = Some (idx, s) →
  inv (set_txn (set_store c s) t
    (mkTransaction (start_ts x) (status x) (local_write (writes x) idx v) Idle (observed x))).
Proof.
  intros Hi Ht Hpc Hk. destruct (create_same_data c k idx s Hi Hk) as [Hs Hl].
  pose proof (inv_txn c Hi t x Ht) as [Hnd _].
  apply (mv_inv_local c t x); try done.
  - split; [|done]. by apply local_write_NoDup.
  - simpl. intros j [->|Hj]%local_write_keys; [done|]. apply (same_data_live _ _ _ Hs).
    by apply (inv_live c Hi t x); [|left].
  - intros j. unfold held. by rewrite Hpc.
  - intros j. unfold pend. by rewrite Hpc.
  - intros j u. exact (inv_observed c Hi t x j u Ht).
Qed.

Lemma inv_step_check c t x k v ws e :
  inv c → txns c !! t = Some x → at_pc x = Checking ((k, v) :: ws) → store c !! k = Some e →
  newer (start_ts x) (versions e) = false → inv (set_txn c t (goto x (Checking ws))).
Proof.
  intros Hi Ht Hpc He Hn. pose proof (inv_txn c Hi t x Ht) as [Hnd Hw]. rewrite Hpc in Hw. destruct Hw as [pre Hw].
  assert (held x = keys_sorted (writes x)) as Hheld by (unfold held; by rewrite Hpc).
  apply (mv_inv_local c t x); try done.
  - apply same_data_refl.
  - split; [done|]. exists (pre ++ [(k, v)]). simpl. by rewrite Hw, <- app_assoc.
  - intros j Hj. by apply (inv_live c Hi t x); [|left].
  - intros j. by rewrite Hheld.
  - intros j. unfold pend. by rewrite Hpc.
  - intros j e' [Hj Hjw] He'. simpl in Hj. destruct (decide (j = k)) as [->|Hne].
    + simplify_eq. assert (chain k (history c) = versions e) as Hch.
      { apply (chain_of_holder c t x); try done; [by rewrite Hheld, keys_sorted_elem|unfold pend; by rewrite Hpc]. }
      rewrite <- Hch in *. eapply chain_newer; [apply (inv_hist c Hi)|done].
    + apply (inv_checked c Hi t x j); try done. unfold checked. rewrite Hpc. set_solver.
  - intros j u. exact (inv_observed c Hi t x j u Ht).
Qed.

(** Steps that only move the thread on. *)
Lemma inv_goto c t x x' gts' :
  inv c → txns c !! t = Some x → txn_ok x' → (∀ k, k ∈ (writes x').*1 → k ∈ (writes x).*1) →
  (∀ k, k ∈ held x' ↔ k ∈ held x) → (∀ k, pend x' k = pend x k) →
  start_ts x' = start_ts x → global_ts c ≤ gts' → (∀ k, ¬ checked x' k) → observed x' = observed x →
  inv (mkconfig (store c) gts' (<[t := x']> (txns c)) (history c)).
Proof.
  intros Hi Ht Hok Hw Hh Hp Hst Hg Hc Ho. apply (mv_inv_local c t x); try done.
  - apply same_data_refl.
  - intros k Hk. by apply (inv_live c Hi t x); [|left; apply Hw].
  - intros k e Hk. by apply Hc in Hk.
  - intros k v. rewrite Ho. by apply (inv_observed c Hi t).
Qed.

Lemma mv_inv_step t c c' : inv c → step t c c' → inv c'.
Proof.
  intros Hi Hst.
  destruct Hst as [Ht Hlt|x k idx s v Ht Hpc Hs Hk Hf|x k idx s Ht Hpc Hs Hk Hf|x idx e Ht Hpc He Hm|x k v idx s Ht Hpc Hs Hk
    |x Ht Hpc Hs|x Ht Hpc Hs Hw|x Ht Hpc Hs Hw|x k ks locked e Ht Hpc He Hm|x locked Ht Hpc|x k v ws e Ht Hpc He Hn
    |x k v ws e Ht Hpc He Hn|x Ht Hpc|x ts k v ws e Ht Hpc He|x ts Ht Hpc|x ok k ks e Ht Hpc He|x ok Ht Hpc];
    try (pose proof (inv_txn c Hi t x Ht) as [Hnd Hok]; rewrite Hpc in Hok).
  - by apply inv_create.
  - destruct (create_same_data c k idx s Hi Hk) as [Hd _]. unfold set_store.
    rewrite <- (list_insert_id (txns c) t x Ht). apply (mv_inv_local c t x); try done.
    + split; [done|]. by rewrite Hpc.
    + intros j Hj. apply (same_data_live _ _ _ Hd). by apply (inv_live c Hi t x); [|left].
    + intros j e Hc. unfold checked in Hc. by rewrite Hpc in Hc.
    + intros j u. exact (inv_observed c Hi t x j u Ht).
  - destruct (create_same_data c k idx s Hi Hk) as [Hd Hl]. apply (mv_inv_local c t x); try done.
    + split; [done|]. simpl. destruct Hl as (e & He%lookup_lt_Some & _), Hd as [Hlen _].
      by rewrite Hlen, (inv_len c Hi) in He.
    + intros j Hj. apply (same_data_live _ _ _ Hd). by apply (inv_live c Hi t x); [|left].
    + intros j. unfold held. by rewrite Hpc.
    + intros j. unfold pend. by rewrite Hpc.
    + intros j u. exact (inv_observed c Hi t x j u Ht).
  - by apply inv_step_read.
  - by eapply inv_step_write.
  - apply (inv_goto c t x); try done; [split; [apply NoDup_nil_2|done]|simpl; set_solver| | |by intros ? []].
    + intros j. unfold held. by rewrite Hpc.
    + intros j. unfold pend. by rewrite Hpc.
  - apply (inv_goto c t x); try done; [split; [apply NoDup_nil_2|done]|simpl; set_solver| | |lia|by intros ? []].
    + intros j. unfold held. by rewrite Hpc.
    + intros j. unfold pend. by rewrite Hpc.
  - apply (inv_goto c t x); try done; [| |by intros ? []].
    + intros j. unfold held. by rewrite Hpc.
    + intros j. unfold pend. by rewrite Hpc.
  - by eapply inv_step_lock.
  - apply (inv_goto c t x); try done.
    + split; [done|]. by exists [].
    + intros j. unfold held. rewrite Hpc. simpl. by rewrite Hok, app_nil_r.
    + intros j. unfold pend. by rewrite Hpc.
    + intros j [Hj Hj']. done.
  - by eapply inv_step_check.
  - apply (inv_goto c t x); try done; [| | |by intros ? []].
    + split; [done|]. apply keys_sorted_NoDup.
    + intros j. unfold held. by rewrite Hpc.
    + intros j. unfold pend. by rewrite Hpc.
  - by apply inv_step_stamp.
  - by apply inv_step_install.
  - apply (inv_goto c t x); try done; [|simpl; set_solver| | |by intros ? []].
    + split; [apply NoDup_nil_2|]. apply keys_sorted_NoDup.
    + intros j. unfold held. by rewrite Hpc.
    + intros j. unfold pend. by rewrite Hpc.
  - by eapply inv_step_unlock.
  - apply (inv_goto c t x); try done; [simpl; set_solver| | |by intros ? []].
    + intros j. unfold held. by rewrite Hpc.
    + intros j. unfold pend. by rewrite Hpc.
Qed.

Lemma inv_initial : inv start.
Proof.
  constructor; unfold start; cbn [store txns history global_ts]; try done.
  - by intros k e [-> _]%lookup_replicate.
  - intros k e t [-> _]%lookup_replicate. simpl. split; [done|]. by intros (x & Hx & _).
  - split; constructor.
  - constructor.
  - intros k e [-> _]%lookup_replicate. done.
Qed.

Lemma mv_inv_reachable c : reachable c → inv c.
Proof.
  unfold reachable. pose proof inv_initial as Hi. revert Hi. generalize start. intros c0 Hi Hr.
  induction Hr as [c|c1 c2 c3 [t Hst] _ IH]; [done|]. by apply IH, (mv_inv_step t c1).
Qed.

(** *** Calls finish *)

(** The slot a thread waits for. *)
Definition wants (x : Transaction) : option nat :=
  match at_pc x with Reading k => Some k | Locking (k :: _) _ => Some k | _ => None end.

(** Steps a call still has to do. *)
Definition busy (x : Transaction) : nat :=
  let n := length (writes x) in
  match at_pc x with
  | Idle => 0
  | Reading _ => 1
  | Locking todo _ => length todo + 3 * n + 4
  | Checking todo => length todo + 2 * n + 3
  | Installing _ todo => length todo + n + 2
  | Unlocking _ todo => length todo + 1
  end.

Definition work (c : config) : nat := sum_list_with busy (txns c).

(** A step of a thread that is inside the library. *)
Definition call_step (c c' : config) : Prop :=
  ∃ t x, txns c !! t = Some x ∧ at_pc x ≠ Idle ∧ step t c c'.

Lemma keys_sorted_length ws : length (keys_sorted ws) ≤ length ws.
Proof.
  unfold keys_sorted. rewrite sort_loop_perm by done. generalize (@nil nat).
  induction ws as [|[k v] ws IH]; intros p; simpl; [done|]. case_bool_decide; simpl.
  - specialize (IH p). lia.
  - specialize (IH (k :: p)). lia.
Qed.

Definition advances (c : config) : Prop := ∃ c', call_step c c' ∧ work c' < work c.

Lemma advance c t x x' c' :
  txns c !! t = Some x → at_pc x ≠ Idle → step t c c' → txns c' = <[t := x']> (txns c) → busy x' < busy x → advances c.
Proof.
  intros Ht Hpc Hst Hx Hb. exists c'. split; [by exists t, x|]. unfold work. rewrite Hx. by eapply sum_with_insert_lt.
Qed.

Lemma slot_some c k : inv c → k < MAX_KEYS → ∃ e, store c !! k = Some e.
Proof. intros Hi Hk. apply lookup_lt_is_Some. by rewrite (inv_len c Hi). Qed.

(** A thread that waits for nothing goes on. *)
Lemma running_advances c t x : inv c → txns c !! t = Some x → at_pc x ≠ Idle → wants x = None → advances c.
Proof.
  intros Hi Ht Hpc Hw. pose proof (inv_txn c Hi t x Ht) as [Hnd Hok]. pose proof (keys_sorted_length (writes x)) as Hlen.
  unfold wants in Hw. destruct (at_pc x) as [|idx|[|k ks] locked|[|[k v] ws]|ts [|[k v] ws]|ok [|k ks]] eqn:E; try done.
  - eapply (advance c t x); [done|by rewrite E|by eapply step_locked|reflexivity|]. unfold busy. rewrite E. simpl. lia.
  - eapply (advance c t x); [done|by rewrite E|by eapply step_stamp|reflexivity|]. unfold busy. rewrite E. simpl. lia.
  - assert (k ∈ (writes x).*1) as Hk by (destruct Hok as [pre ->]; rewrite fmap_app; set_solver).
    destruct (inv_live c Hi t x k Ht (or_introl Hk)) as (e & He & _).
    destruct (newer (start_ts x) (versions e)) eqn:Hn.
    + eapply (advance c t x); [done|by rewrite E|by eapply step_conflict|reflexivity|]. unfold busy. rewrite E. simpl. lia.
    + eapply (advance c t x); [done|by rewrite E|by eapply step_check|reflexivity|]. unfold busy. rewrite E. simpl. lia.
  - eapply (advance c t x); [done|by rewrite E|by eapply step_installed|reflexivity|]. unfold busy. rewrite E. simpl. lia.
  - assert (k ∈ (writes x).*1) as Hk by (destruct Hok as [pre ->]; rewrite fmap_app; set_solver).
    destruct (inv_live c Hi t x k Ht (or_introl Hk)) as (e & He & _).
    eapply (advance c t x); [done|by rewrite E|by eapply step_install|reflexivity|]. unfold busy. rewrite E. simpl. lia.
  - eapply (advance c t x); [done|by rewrite E|by eapply step_finish|reflexivity|]. unfold busy. rewrite E. simpl. lia.
  - destruct (inv_live c Hi t x k Ht) as (e & He & _); [right; unfold held; rewrite E; by left|].
    eapply (advance c t x); [done|by rewrite E|by eapply step_unlock|reflexivity|]. unfold busy. rewrite E. simpl. lia.
Qed.

Lemma mv_wants_bound c t x k : inv c → txns c !! t = Some x → wants x = Some k → k < MAX_KEYS.
Proof.
  intros Hi Ht Hw. pose proof (inv_txn c Hi t x Ht) as [Hnd Hok]. unfold wants in Hw.
  destruct (at_pc x) as [|idx|[|k' ks] locked| | |] eqn:E; simplify_eq; [done|]. eapply live_lt; [done|].
  apply (inv_live c Hi t x k Ht). left. apply keys_sorted_elem. rewrite Hok. set_solver.
Qed.

(** The keys are locked in ascending order. *)
Lemma mv_wants_above c t x k k' :
  inv c → txns c !! t = Some x → wants x = Some k → k' ∈ held x → k' < k.
Proof.
  intros Hi Ht Hw Hk. pose proof (inv_txn c Hi t x Ht) as [Hnd Hok]. unfold wants, held in *.
  destruct (at_pc x) as [|idx|[|k0 ks] locked| | |] eqn:E; simplify_eq; [by apply elem_of_nil in Hk|].
  pose proof (keys_sorted_lt (writes x)) as Hs. rewrite Hok in Hs.
  eapply (StronglySorted_app_1_elem_of lt); [exact Hs|done|by left].
Qed.

Lemma waiting_advances c d : inv c → ∀ t x k,
  txns c !! t = Some x → wants x = Some k → MAX_KEYS - k ≤ d → advances c.
Proof.
  intros Hi. induction d as [|d IH]; intros t x k Ht Hw Hd; pose proof (mv_wants_bound c t x k Hi Ht Hw) as Hk; [lia|].
  destruct (slot_some c k Hi Hk) as [e He]. destruct (mtx e) as [o|] eqn:Hm.
  - apply (inv_own c Hi k e o He) in Hm as (y & Hy & Hin). destruct (wants y) as [k'|] eqn:Hw'.
    + pose proof (mv_wants_above c o y k' k Hi Hy Hw' Hin). by eapply (IH o y k'); [| |lia].
    + apply (running_advances c o y); try done. intros E. unfold held in Hin. rewrite E in Hin. by apply elem_of_nil in Hin.
  - unfold wants in Hw. destruct (at_pc x) as [|idx|[|k0 ks] locked| | |] eqn:E; simplify_eq.
    + eapply (advance c t x); [done|by rewrite E|by eapply step_read|reflexivity|]. unfold busy. rewrite E. simpl. lia.
    + eapply (advance c t x); [done|by rewrite E|by eapply step_lock|reflexivity|]. unfold busy. rewrite E. simpl. lia.
Qed.

#[local] Instance idle_dec (x : Transaction) : Decision (at_pc x = Idle).
Proof. destruct (at_pc x); (by left) || (by right). Defined.

Lemma calls_finish_work d c :
  inv c → work c ≤ d → ∃ c', rtc call_step c c' ∧ Forall (λ x, at_pc x = Idle) (txns c').
Proof.
  revert c. induction d as [d IH] using lt_wf_ind. intros c Hi Hd.
  destruct (decide (Forall (λ x, at_pc x = Idle) (txns c))) as [Hj|Hj]; [by exists c; split; [apply rtc_refl|]|].
  apply not_Forall_Exists in Hj; [|apply _]. apply Exists_exists in Hj as (x & [t Ht]%list_elem_of_lookup_1 & Hx).
  assert (advances c) as (c1 & Hst & Hlt).
  { destruct (wants x) as [k|] eqn:Hw; [by eapply (waiting_advances c _ Hi)|by eapply running_advances]. }
  pose proof Hst as (t1 & x1 & _ & _ & Hs1).
  destruct (IH (work c1)) with (c := c1) as (c2 & Hr & Hj'); [lia|by eapply mv_inv_step|done|].
  exists c2. split; [|done]. by eapply rtc_l.
Qed.

(** ** The properties of the store *)

(** C2: snapshot isolation: whatever the interleaving, every value a transaction
    has read from the store is the one of the last commit before its start that
    wrote the key, or the empty string; commits that finish later do not change
    it, so reading a key again gives the same value; and a chain nobody has
    locked holds exactly the versions of the commits, newest first. *)
Theorem mvcc_snapshot_isolation c :
  reachable c →
  (∀ t x k v, txns c !! t = Some x → (k, v) ∈ observed x → v = snapshot (history c) (start_ts x) k) ∧
  (∀ t x k v w, txns c !! t = Some x → (k, v) ∈ observed x → (k, w) ∈ observed x → v = w) ∧
  (∀ k e, store c !! k = Some e → mtx e = None → versions e = chain k (history c)) ∧
  StronglySorted (λ a b, c_ts b < c_ts a) (history c).
Proof.
  intros Hr%mv_inv_reachable. split; [apply (inv_observed c Hr)|]. split; [|split].
  - intros t x k v w Hx Hv Hw. by rewrite (inv_observed c Hr t x k v), (inv_observed c Hr t x k w).
  - intros k e He Hm. symmetry. apply (chain_settled c k e Hr He). intros t x Hx Hk.
    assert (mtx e = Some t) by (apply (inv_own c Hr k e); eauto). congruence.
  - apply (inv_hist c Hr).
Qed.

(** C33: first committer wins: of two committed transactions that wrote the same
    key the one with the later time stamp started after the other was stamped,
    so no commit overwrites a version that its transaction did not see. *)
Theorem mvcc_first_committer_wins c l1 b l2 a k :
  reachable c → history c = l1 ++ b :: l2 → a ∈ l2 → k ∈ (c_writes a).*1 → k ∈ (c_writes b).*1 →
  c_ts a ≤ c_start b ∧ c_ts a < c_ts b.
Proof.
  intros Hr%mv_inv_reachable Hh Ha Hka Hkb. pose proof (inv_first c Hr) as Hf. destruct (inv_hist c Hr) as [Hs _].
  unfold first_committer in Hf. rewrite Hh in Hf, Hs.
  apply StronglySorted_app_1_r, StronglySorted_inv in Hf as [_ Hf], Hs as [_ Hs].
  rewrite Forall_forall in Hf, Hs. split; [by apply (Hf a Ha k)|by apply Hs].
Qed.

(** No call hangs: locking the keys in ascending order rules deadlock out,
    and from every reachable state the threads that are inside the library can
    run, without help from the others, until all of them have returned. *)
Theorem mvcc_calls_finish c :
  reachable c → ∃ c', rtc call_step c c' ∧ Forall (λ x, at_pc x = Idle) (txns c').
Proof. intros Hr%mv_inv_reachable. by eapply calls_finish_work. Qed.

(** A key keeps its slot: once [get_or_create_key] has returned a slot for a
    key of fewer than [MAX_KEY_LEN] characters, it returns the same one, and
    creates nothing, after any further steps of any threads, and returns it for
    no other key. *)
Theorem mvcc_key_stable c k i s' c' :
  String.length k < MAX_KEY_LEN → get_or_create_key k (store c) = Some (i, s') → rtc any_step (set_store c s') c' →
  get_or_create_key k (store c') = Some (i, store c') ∧
  (∀ k2 s2, String.length k2 < MAX_KEY_LEN → get_or_create_key k2 (store c') = Some (i, s2) → k2 = k).
Proof.
  intros Hk Hp Hr%run_extends. simpl in Hr. pose proof (probe_stable _ _ _ _ _ _ _ Hk Hp Hr) as Hp'. split; [exact Hp'|].
  intros k2 s2 Hk2 Hp2. destruct (probe_key _ _ _ _ _ _ Hk Hp') as (e & He & Hu & <-).
  destruct (probe_extends _ _ _ _ _ _ Hp2 i e He Hu) as (e2 & He2 & _ & <-).
  destruct (probe_key _ _ _ _ _ _ Hk2 Hp2) as (e3 & He3 & _ & <-). congruence.
Qed.

(** *** The scenario of [main], and a third transaction *)

(** A step, after which the state is computed. *)
Ltac go t tac :=
  eapply rtc_l; [exists t; tac; try (vm_compute; reflexivity); try discriminate|];
  match goal with |- rtc _ ?c ?f =>
    let v := eval vm_compute in c in
    let E := fresh in assert (c = v) as E by (vm_compute; reflexivity);
    refine (eq_ind_r (λ z, rtc any_step z f) _ E); clear E
  end.

Definition writes_A (v : string) : writes_t := [(102, v)].

Lemma demo_run :
  ∃ c, reachable c ∧
    history c = [mkcommit 4 5 (writes_A "T3_A"); mkcommit 2 3 (writes_A "T2_A")] ∧
    txns c !! 0 = Some (mkTransaction 1 TXN_ACTIVE [] Idle [(102, EmptyString); (102, EmptyString)]).
Proof.
  eexists. split.
  - unfold reachable. go 0 ltac:(eapply step_create; [|simpl; unfold MAX_TXNS; lia]).
    go 0 ltac:(eapply (step_read_key _ _ _ "A")). go 0 ltac:(eapply step_read).
    go 1 ltac:(eapply step_create; [|simpl; unfold MAX_TXNS; lia]).
    go 1 ltac:(eapply (step_write _ _ _ "A" "T2_A")). go 1 ltac:(eapply step_commit). go 1 ltac:(eapply step_lock).
    go 1 ltac:(eapply step_locked). go 1 ltac:(eapply step_check). go 1 ltac:(eapply step_stamp).
    go 1 ltac:(eapply step_install). go 1 ltac:(eapply step_installed). go 1 ltac:(eapply step_unlock).
    go 1 ltac:(eapply step_finish).
    go 0 ltac:(eapply (step_read_key _ _ _ "A")). go 0 ltac:(eapply step_read).
    go 2 ltac:(eapply step_create; [|simpl; unfold MAX_TXNS; lia]).
    go 2 ltac:(eapply (step_write _ _ _ "A" "T3_A")). go 2 ltac:(eapply step_commit). go 2 ltac:(eapply step_lock).
    go 2 ltac:(eapply step_locked). go 2 ltac:(eapply step_check). go 2 ltac:(eapply step_stamp).
    apply rtc_refl.
  - split; vm_compute; reflexivity.
Qed.

Lemma mvcc_snapshot_isolation_witness :
  ∃ c, reachable c ∧ history c = [mkcommit 4 5 (writes_A "T3_A"); mkcommit 2 3 (writes_A "T2_A")] ∧
    EmptyString = snapshot (history c) 1 102.
Proof.
  destruct demo_run as (c & Hr & Hh & Hx). exists c. split; [done|]. split; [done|].
  eapply (proj1 (mvcc_snapshot_isolation c Hr) 0 _ 102 EmptyString Hx). by left.
Defined.

Lemma mvcc_first_committer_wins_witness :
  ∃ c, reachable c ∧ c_ts (mkcommit 2 3 (writes_A "T2_A")) ≤ c_start (mkcommit 4 5 (writes_A "T3_A")).
Proof.
  destruct demo_run as (c & Hr & Hh & _). exists c. split; [done|].
  eapply (mvcc_first_committer_wins c [] (mkcommit 4 5 (writes_A "T3_A")) [mkcommit 2 3 (writes_A "T2_A")] _ 102 Hr Hh);
    by left.
Defined.

Lemma mvcc_calls_finish_witness :
  ∃ c, history c ≠ [] ∧ ∃ c', rtc call_step c c' ∧ Forall (λ x, at_pc x = Idle) (txns c').
Proof.
  destruct demo_run as (c & Hr & Hh & _). exists c. split; [by rewrite Hh|]. apply (mvcc_calls_finish c Hr).
Defined.

Lemma mvcc_key_stable_witness :
  ∃ s', get_or_create_key "A" (store start) = Some (102, s') ∧ get_or_create_key "A" s' = Some (102, s').
Proof.
  eexists. split; [vm_compute; reflexivity|].
  eapply (mvcc_key_stable start "A" 102 _ (set_store start _)); [simpl; unfold MAX_KEY_LEN; lia|vm_compute; reflexivity|].
  apply rtc_refl.
Defined.

End MvccSpec.
