(* ===== verification/MvccRow.v ===== *)
(** * The multi-version row: [concurrency-and-multithreading/mvcc_demo.c]

    One row with a chain of versions, each valid from its [begin_ts] up to its
    [end_ts], and a global clock.  [mvcc_write_commit] advances the clock first
    and takes the row's mutex afterwards, so a commit is two steps, [next_ts]
    and [install]; reads and the start of a transaction are one step each. *)
From stdpp Require Import base list.
From Stdlib Require Import ZArith Lia.
From S2P Require Import Prelude.

Local Open Scope Z_scope.

Module MvccRow.

Definition UINT64_MAX : Z := 2 ^ 64 - 1.

Record Version : Set := mkVersion { value : Z; begin_ts : Z; end_ts : Z }.

(** The row's versions, newest first, and [global_ts]. *)
Record state : Set := mkstate { versions : list Version; global_ts : Z }.

(** [++global_ts] on [unsigned long]. *)
Definition next_ts : C state Z :=
  s ← get; let t := (global_ts s + 1) mod 2 ^ 64 in
  put (mkstate (versions s) t) ;; mret t.

Definition begin_tx : C state Z := s ← get; mret (global_ts s).

Definition row_init (initial_value : Z) : list Version := [mkVersion initial_value 1 UINT64_MAX].

(** The walk of [mvcc_read]: [-1] when no version is valid at [start_ts]. *)
Fixpoint find_version (vs : list Version) (start_ts : Z) : Z :=
  match vs with
  | [] => -1
  | v :: vs =>
      if (begin_ts v <=? start_ts) && (start_ts <? end_ts v) then value v else find_version vs start_ts
  end.

Definition mvcc_read (start_ts : Z) : C state Z := s ← get; mret (find_version (versions s) start_ts).

(** What [mvcc_write_commit] does under the row's mutex. *)
Definition install (commit_timestamp new_value : Z) : C state unit :=
  modify (λ s,
    let old :=
      match versions s with
      | o :: vs => (if end_ts o =? UINT64_MAX then mkVersion (value o) (begin_ts o) commit_timestamp else o) :: vs
      | [] => []
      end in
    mkstate (mkVersion new_value commit_timestamp UINT64_MAX :: old) (global_ts s)).

Definition mvcc_write_commit (new_value : Z) : C state unit :=
  commit_timestamp ← next_ts; install commit_timestamp new_value.

(** [main] before the threads start. *)
Definition start (initial_value : Z) : state := mkstate (row_init initial_value) 1.

End MvccRow.

Module MvccRowSpec.
Import MvccRow.

(** The versions of the values [v0], ..., the newest last, the first valid from
    [ts] on, newest first. *)
Fixpoint timeline (ts : Z) (v0 : Z) (vs : list Z) : list Version :=
  match vs with
  | [] => [mkVersion v0 ts UINT64_MAX]
  | v :: vs => timeline (ts + 1) v vs ++ [mkVersion v0 ts (ts + 1)]
  end.

Lemma timeline_snoc ts v0 vs v :
  ts + Z.of_nat (length vs) + 1 < UINT64_MAX →
  ∃ o rest, timeline ts v0 vs = o :: rest ∧ end_ts o = UINT64_MAX ∧ begin_ts o = ts + Z.of_nat (length vs) ∧
    timeline ts v0 (vs ++ [v]) =
      mkVersion v (ts + Z.of_nat (length vs) + 1) UINT64_MAX ::
      mkVersion (value o) (begin_ts o) (ts + Z.of_nat (length vs) + 1) :: rest.
Proof.
  revert ts v0. induction vs as [|u vs IH]; intros ts v0 Hlt; simpl in *.
  - eexists _, []. split_and!; [done|done|simpl; lia|]. by rewrite Z.add_0_r.
  - destruct (IH (ts + 1) u) as (o & rest & Ht & He & Hb & Hs); [lia|].
    exists o, (rest ++ [mkVersion v0 ts (ts + 1)]). rewrite Ht, Hs. simpl.
    split_and!; [done|done|lia|].
    by replace (ts + 1 + Z.of_nat (length vs)) with (ts + Z.of_nat (S (length vs))) by lia.
Qed.

(** A commit on such a row. *)
Lemma commit_timeline v0 vs v :
  Z.of_nat (length vs) + 2 < UINT64_MAX →
  mvcc_write_commit v (mkstate (timeline 1 v0 vs) (Z.of_nat (length vs) + 1)) =
    Ok (tt, mkstate (timeline 1 v0 (vs ++ [v])) (Z.of_nat (length (vs ++ [v])) + 1), []).
Proof.
  intros Hlt. destruct (timeline_snoc 1 v0 vs v) as (o & rest & Ht & He & Hb & Hs); [lia|].
  unfold mvcc_write_commit, next_ts, install. c_run. rewrite Ht, Hs, He, Z.eqb_refl, length_app. simpl.
  rewrite (Z.mod_small (Z.of_nat (length vs) + 1 + 1)) by (unfold UINT64_MAX in Hlt; lia).
  replace (1 + Z.of_nat (length vs) + 1) with (Z.of_nat (length vs) + 1 + 1) by lia.
  by replace (Z.of_nat (length vs + 1)) with (Z.of_nat (length vs) + 1) by lia.
Qed.

Lemma commits_timeline v0 vs us :
  Z.of_nat (length (vs ++ us)) + 1 < UINT64_MAX →
  for_each mvcc_write_commit us (mkstate (timeline 1 v0 vs) (Z.of_nat (length vs) + 1)) =
    Ok (tt, mkstate (timeline 1 v0 (vs ++ us)) (Z.of_nat (length (vs ++ us)) + 1), []).
Proof.
  revert vs. induction us as [|u us IH]; intros vs Hlt; simpl.
  - by rewrite app_nil_r.
  - rewrite length_app in Hlt. simpl in Hlt.
    assert (vs ++ u :: us = (vs ++ [u]) ++ us) as E by (by rewrite <- app_assoc).
    refine (bind_Ok _ _ _ tt _ [] _ _ [] (commit_timeline v0 vs u _) _); [lia|]. rewrite E. apply IH.
    rewrite <- E, length_app. simpl. lia.
Qed.

(** Reading a row: every moment has exactly one valid version. *)
Lemma find_timeline ts v0 vs s tail :
  0 <= ts → ts + Z.of_nat (length vs) < UINT64_MAX → s < UINT64_MAX →
  find_version (timeline ts v0 vs ++ tail) s =
    if s <? ts then find_version tail s else default 0 ((v0 :: vs) !! Nat.min (Z.to_nat (s - ts)) (length vs)).
Proof.
  revert ts v0 tail. induction vs as [|v vs IH]; intros ts v0 tail H0 Hlt Hs; simpl in *.
  - rewrite Nat.min_0_r. simpl. zcases; try lia; done.
  - rewrite <- app_assoc, IH by lia. simpl. destruct (Z.ltb_spec s (ts + 1)) as [H1|H1]; simpl.
    + destruct (Z.leb_spec ts s) as [H2|H2]; simpl.
      * destruct (Z.ltb_spec s ts); [lia|]. assert (s - ts = 0) as -> by lia. done.
      * destruct (Z.ltb_spec s ts); [done|lia].
    + destruct (Z.ltb_spec s ts); [lia|]. replace (Z.to_nat (s - ts)) with (S (Z.to_nat (s - (ts + 1)))) by lia. done.
Qed.

(** With commits that are not interrupted, a transaction that starts at time
    [s] reads the value of the last commit up to [s], whatever is committed
    later: after the initial value and any further values the read is the
    element of that sequence at position [s - 1], or the last one. *)
Theorem row_snapshot v0 vs s :
  1 <= s < UINT64_MAX → Z.of_nat (length vs) + 1 < UINT64_MAX →
  ∃ st, for_each mvcc_write_commit vs (start v0) = Ok (tt, st, []) ∧ global_ts st = Z.of_nat (length vs) + 1 ∧
    mvcc_read s st = Ok (default 0 ((v0 :: vs) !! Nat.min (Z.to_nat (s - 1)) (length vs)), st, []).
Proof.
  intros Hs Hlt. eexists. split; [exact (commits_timeline v0 [] vs Hlt)|]. split; [done|].
  unfold mvcc_read. c_run. rewrite <- (app_nil_r (timeline 1 v0 vs)), find_timeline by lia.
  destruct (Z.ltb_spec s 1); [lia|done].
Qed.

Lemma row_snapshot_witness :
  ∃ st, for_each mvcc_write_commit [200] (start 100) = Ok (tt, st, []) ∧ mvcc_read 1 st = Ok (100, st, []).
Proof.
  destruct (row_snapshot 100 [200] 1) as (st & Hc & _ & Hr); [unfold UINT64_MAX; lia|unfold UINT64_MAX; simpl; lia|].
  by exists st.
Defined.

(** The snapshot is not stable when a transaction starts between the two
    halves of a commit: it gets the commit's own time stamp, reads the old
    value before the new version is installed and the new one afterwards. *)
Theorem row_unstable_read v0 v1 :
  ∃ st1 st2 s,
    next_ts (start v0) = Ok (2, st1, []) ∧ begin_tx st1 = Ok (s, st1, []) ∧
    mvcc_read s st1 = Ok (v0, st1, []) ∧ install 2 v1 st1 = Ok (tt, st2, []) ∧ mvcc_read s st2 = Ok (v1, st2, []).
Proof. do 3 eexists. repeat split. Qed.

(** Two commits whose halves cross leave the older one as the current version. *)
Lemma row_crossed_commits v0 v1 v2 :
  ∃ st, (t1 ← next_ts; t2 ← next_ts; install t2 v2 ;; install t1 v1) (start v0) = Ok (tt, st, []) ∧
    mvcc_read 3 st = Ok (v1, st, []).
Proof. eexists. split; reflexivity. Qed.

End MvccRowSpec.
