(* ===== verification/WaitForGraph.v ===== *)
(** * Deadlock detection: [concurrency-and-multithreading/deadlock_with_wfg.c]

    Two workers take two locks in opposite orders; a thread that waits records
    an edge to the owner in a wait-for graph, and a monitor looks for a cycle
    and aborts worker 1.  [Wfg] is the graph with its depth-first search,
    [WfgSpec] shows that the search decides whether the graph has a cycle;
    [Deadlock] is the protocol as a step relation, one step per critical
    section of a lock's mutex, and [DeadlockSpec] its properties. *)
From stdpp Require Import base list relations.
From Stdlib Require Import ZArith Lia.
From S2P Require Import Prelude.

(** ** Depth-first search and cycles *)
Module Acyclic.
Section Acyclic.
Context (edge : nat → nat → Prop).

(** Nodes in the order in which the search left them, the last first: the edges
    of each go to nodes left before it. *)
Inductive finished : list nat → Prop :=
  | finished_nil : finished []
  | finished_cons u b : finished b → u ∉ b → (∀ v, edge u v → v ∈ b) → finished (u :: b).

Lemma finished_closed b : finished b → ∀ u v, u ∈ b → edge u v → v ∈ b.
Proof.
  induction 1 as [|x b Hb IH Hx He]; intros u v Hu Huv; [by apply elem_of_nil in Hu|].
  apply elem_of_cons in Hu as [->|Hu]; right; [by apply He|by apply (IH u)].
Qed.

Lemma finished_acyclic b : finished b → ∀ u, u ∈ b → ¬ tc edge u u.
Proof.
  assert (∀ c u v, finished c → u ∈ c → tc edge u v → v ∈ c) as Hstay.
  { intros c u v Hc Hu Huv. induction Huv as [u v Huv|u v x Huv _ IH]; [by eapply finished_closed|].
    apply IH. by eapply finished_closed. }
  induction 1 as [|x b Hb IH Hx He]; intros u Hu Hc; [by apply elem_of_nil in Hu|].
  apply elem_of_cons in Hu as [->|Hu]; [|by apply (IH u)].
  apply Hx. inversion Hc as [? ? H1|? y ? H1 H2]; subst; [by apply He|]. eapply Hstay; [done| |exact H2]. by apply He.
Qed.

End Acyclic.
End Acyclic.

Module Wfg.

Definition MAXIMUM_THREADS : nat := 4.

(** [wait_for]. *)
Abbreviation graph := (list (list bool)).

Definition waits (wait_for : graph) (u v : nat) : bool :=
  match wait_for !! u with Some r => match r !! v with Some b => b | None => false end | None => false end.

Definition wfg_add_edge (waiter_idx owner_idx : nat) (wait_for : graph) : graph :=
  alter (λ r, <[owner_idx := true]> r) waiter_idx wait_for.

Definition wfg_remove_all_from (waiter_idx : nat) (wait_for : graph) : graph :=
  alter (λ r, replicate MAXIMUM_THREADS false) waiter_idx wait_for.

(** A cell of [vis] or [stk]. *)
Definition marked (l : list bool) (v : nat) : bool := match l !! v with Some b => b | None => false end.

(** The loop of [detect_cycle_dfs] over the nodes [vs], with [dfs] the function
    itself; the arrays it leaves are part of the result. *)
Fixpoint dfs_loop (dfs : nat → list bool → list bool → option (bool * list bool * list bool))
    (wait_for : graph) (u : nat) (vs : list nat) (vis stk : list bool) : option (bool * list bool * list bool) :=
  match vs with
  | [] => Some (false, vis, <[u := false]> stk)
  | v :: vs =>
      if negb (waits wait_for u v) then dfs_loop dfs wait_for u vs vis stk
      else
        match (if negb (marked vis v) then dfs v vis stk else Some (false, vis, stk)) with
        | None => None
        | Some (true, vis, stk) => Some (true, vis, stk)
        | Some (false, vis, stk) =>
            if marked stk v then Some (true, vis, stk) else dfs_loop dfs wait_for u vs vis stk
        end
  end.

(** [None] is a call deeper than [fuel]. *)
Fixpoint detect_cycle_dfs (fuel : nat) (wait_for : graph) (u : nat) (vis stk : list bool)
    : option (bool * list bool * list bool) :=
  match fuel with
  | 0 => None
  | S fuel =>
      dfs_loop (detect_cycle_dfs fuel wait_for) wait_for u (seq 0 MAXIMUM_THREADS) (<[u := true]> vis) (<[u := true]> stk)
  end.

Fixpoint has_cycle_loop (wait_for : graph) (us : list nat) (vis stk : list bool) : option bool :=
  match us with
  | [] => Some false
  | i :: us =>
      if negb (marked vis i) then
        match detect_cycle_dfs MAXIMUM_THREADS wait_for i vis stk with
        | None => None
        | Some (true, _, _) => Some true
        | Some (false, vis, stk) => has_cycle_loop wait_for us vis stk
        end
      else has_cycle_loop wait_for us vis stk
  end.

Definition has_cycle (wait_for : graph) : option bool :=
  has_cycle_loop wait_for (seq 0 MAXIMUM_THREADS) (replicate MAXIMUM_THREADS false) (replicate MAXIMUM_THREADS false).

End Wfg.

(** ** The search is right *)
Module WfgSpec.
Import Wfg.

Section Search.
Context (w : graph).

(** An edge between nodes the search looks at. *)
Definition edge (u v : nat) : Prop := u < MAXIMUM_THREADS ∧ v < MAXIMUM_THREADS ∧ waits w u v = true.

Abbreviation finished := (Acyclic.finished edge).

(** The arrays when the nodes [s] are being visited and [b] are left. *)
Definition arrays (vis stk : list bool) (s b : list nat) : Prop :=
  length vis = MAXIMUM_THREADS ∧ length stk = MAXIMUM_THREADS ∧
  (∀ v, v < MAXIMUM_THREADS → (marked vis v = true ↔ v ∈ s ∨ v ∈ b)) ∧
  (∀ v, v < MAXIMUM_THREADS → (marked stk v = true ↔ v ∈ s)).

Record searching (vis stk : list bool) (s b : list nat) : Prop := mksearching {
  s_arrays : arrays vis stk s b;
  s_nodup : NoDup (s ++ b);
  s_nodes : Forall (λ v, v < MAXIMUM_THREADS) (s ++ b);
  s_finished : finished b
}.

Lemma nodes_bound l : NoDup l → Forall (λ v, v < MAXIMUM_THREADS) l → length l ≤ MAXIMUM_THREADS.
Proof.
  intros Hn Hl. rewrite <- (length_seq MAXIMUM_THREADS 0). apply submseteq_length, NoDup_submseteq; [done|].
  intros x Hx. apply elem_of_seq. rewrite Forall_forall in Hl. specialize (Hl x Hx). lia.
Qed.

Lemma marked_insert l u b v : u < length l → marked (<[u := b]> l) v = if decide (u = v) then b else marked l v.
Proof.
  intros Hu. unfold marked. destruct (decide (u = v)) as [<-|Hne]; [by rewrite list_lookup_insert_eq|].
  by rewrite list_lookup_insert_ne.
Qed.

(** A node that is not marked is entered. *)
Lemma searching_enter vis stk s b u :
  searching vis stk s b → u < MAXIMUM_THREADS → marked vis u = false →
  searching (<[u := true]> vis) (<[u := true]> stk) (u :: s) b.
Proof.
  intros [(Hv & Hk & Hmv & Hmk) Hn Hl Hf] Hu Hm.
  assert ((u ∉ s) ∧ u ∉ b) as [Hs Hb].
  { split; intros Hin; assert (marked vis u = true) by (apply Hmv; tauto); congruence. }
  split; [|simpl; constructor; [set_solver|done]|by constructor|done].
  split; [by rewrite length_insert|]. split; [by rewrite length_insert|]. split; intros v Hlt.
  - rewrite marked_insert by lia. case_decide; subst; [set_solver|]. rewrite Hmv by done. set_solver.
  - rewrite marked_insert by lia. case_decide; subst; [set_solver|]. rewrite Hmk by done. set_solver.
Qed.

(** A node all of whose edges lead to nodes that were left is left. *)
Lemma searching_leave vis stk s b u :
  searching vis stk (u :: s) b → (∀ v, edge u v → v ∈ b) → searching vis (<[u := false]> stk) s (u :: b).
Proof.
  intros [(Hv & Hk & Hmv & Hmk) Hn Hl Hf] He. simpl in Hn, Hl. apply NoDup_cons in Hn as [Hu Hn].
  apply Forall_cons in Hl as [Hlu Hl].
  split.
  - split; [done|]. split; [by rewrite length_insert|]. split; intros v Hlt.
    + rewrite Hmv by done. set_solver.
    + rewrite marked_insert by lia. case_decide; subst; [set_solver|]. rewrite Hmk by done. set_solver.
  - rewrite <- Permutation_middle. constructor; [done|done].
  - rewrite <- Permutation_middle. by constructor.
  - constructor; [done|set_solver|done].
Qed.

(** What a call promises for a node [u] that all nodes being visited reach. *)
Definition dfs_ok (dfs : nat → list bool → list bool → option (bool * list bool * list bool)) (d : nat) : Prop :=
  ∀ u vis stk s b, searching vis stk s b → u < MAXIMUM_THREADS → marked vis u = false →
    (∀ x, x ∈ s → tc edge x u) → MAXIMUM_THREADS ≤ d + length (s ++ b) →
    ∃ r vis' stk', dfs u vis stk = Some (r, vis', stk') ∧
      if r : bool then ∃ x, tc edge x x
      else ∃ b', searching vis' stk' s b' ∧ u ∈ b' ∧ b ⊆ b'.

Lemma dfs_loop_ok dfs d u s : dfs_ok dfs d → u < MAXIMUM_THREADS → (∀ x, x ∈ s → tc edge x u) →
  ∀ vs vis stk b, searching vis stk (u :: s) b → Forall (λ v, v < MAXIMUM_THREADS) vs →
    (∀ v, edge u v → v ∈ vs ∨ v ∈ b) → MAXIMUM_THREADS ≤ d + length (u :: s ++ b) →
    ∃ r vis' stk', dfs_loop dfs w u vs vis stk = Some (r, vis', stk') ∧
      if r : bool then ∃ x, tc edge x x
      else ∃ b', searching vis' stk' s b' ∧ u ∈ b' ∧ b ⊆ b'.
Proof.
  intros Hdfs Hu Hreach vs. induction vs as [|v vs IH]; intros vis stk b Hs Hvs He Hd.
  - exists false. do 2 eexists. split; [reflexivity|]. exists (u :: b).
    split; [|split; [by left|set_solver]]. apply searching_leave; [done|]. intros v Hv. destruct (He v Hv) as [H|]; [|done].
    by apply elem_of_nil in H.
  - apply Forall_cons in Hvs as [Hv Hvs]. cbn [dfs_loop]. destruct (waits w u v) eqn:Hw; cbn [negb].
    2:{ apply IH; [done|done| |done]. intros x Hx. destruct (He x Hx) as [Hin|]; [|by right].
        apply elem_of_cons in Hin as [->|]; [|by left]. destruct Hx as (_ & _ & Hx). congruence. }
    assert (edge u v) as Huv by done. assert (∀ x, x ∈ u :: s → tc edge x v) as Hreach'.
    { intros x [->|Hx]%elem_of_cons; [by apply tc_once|]. eapply tc_r; [by apply Hreach|done]. }
    pose proof (s_arrays _ _ _ _ Hs) as (_ & _ & Hmv & Hmk). destruct (marked vis v) eqn:Hm; cbn [negb].
    + destruct (marked stk v) eqn:Hk.
      * do 3 eexists. split; [reflexivity|]. exists v. apply Hreach', Hmk; done.
      * apply IH; [done|done| |done]. intros x Hx. destruct (He x Hx) as [Hin|]; [|by right].
        apply elem_of_cons in Hin as [->|]; [|by left]. right. apply Hmv in Hm as [Hin|]; [|done|done].
        apply Hmk in Hin; [congruence|done].
    + destruct (Hdfs v vis stk (u :: s) b Hs Hv Hm Hreach' Hd) as (r & vis' & stk' & -> & Hr).
      destruct r; [by do 3 eexists|]. destruct Hr as (b' & Hs' & Hvb & Hbb).
      pose proof (s_arrays _ _ _ _ Hs') as (_ & _ & _ & Hmk').
      assert (marked stk' v = false) as ->.
      { destruct (marked stk' v) eqn:Hk; [|done]. apply Hmk' in Hk; [|done]. pose proof (s_nodup _ _ _ _ Hs') as Hn.
        apply NoDup_app in Hn as (_ & Hn & _). by apply Hn in Hk. }
      assert (length b ≤ length b') as Hlen.
      { apply submseteq_length, NoDup_submseteq; [|done]. pose proof (s_nodup _ _ _ _ Hs) as Hn.
        by apply NoDup_app in Hn as (_ & _ & Hn). }
      destruct (IH vis' stk' b') as (r & vis'' & stk'' & -> & Hr); [done|done| | |].
      { intros x Hx. destruct (He x Hx) as [Hin|Hin]; [|right; by apply Hbb].
        apply elem_of_cons in Hin as [->|]; [by right|by left]. }
      { cbn [length] in *. rewrite length_app in *. lia. }
      do 3 eexists. split; [reflexivity|]. destruct r; [done|]. destruct Hr as (b'' & ? & ? & ?).
      exists b''. split; [done|]. split; [done|]. by transitivity b'.
Qed.

Lemma detect_cycle_ok d : dfs_ok (detect_cycle_dfs d w) d.
Proof.
  induction d as [|d IH]; intros u vis stk s b Hs Hu Hm Hreach Hd; pose proof (searching_enter _ _ _ _ _ Hs Hu Hm) as Hs'.
  - exfalso. pose proof (nodes_bound _ (s_nodup _ _ _ _ Hs') (s_nodes _ _ _ _ Hs')) as Hb. simpl in Hb. lia.
  - cbn [detect_cycle_dfs]. apply (dfs_loop_ok _ d); try done.
    + apply Forall_forall. intros x Hx%elem_of_seq. lia.
    + intros v (_ & Hv & _). left. apply elem_of_seq. lia.
    + cbn [length]. lia.
Qed.

Lemma has_cycle_loop_ok us : ∀ vis stk b,
  searching vis stk [] b → Forall (λ v, v < MAXIMUM_THREADS) us →
  ∃ r, has_cycle_loop w us vis stk = Some r ∧
    if r : bool then ∃ x, tc edge x x else ∃ b', finished b' ∧ b ⊆ b' ∧ ∀ u, u ∈ us → u ∈ b'.
Proof.
  induction us as [|u us IH]; intros vis stk b Hs Hus; cbn [has_cycle_loop].
  - exists false. split; [done|]. exists b. split; [apply Hs|]. split; [done|]. intros u Hu. by apply elem_of_nil in Hu.
  - apply Forall_cons in Hus as [Hu Hus]. destruct (marked vis u) eqn:Hm; cbn [negb].
    + destruct (IH vis stk b Hs Hus) as (r & -> & Hr). exists r. split; [done|]. destruct r; [done|].
      destruct Hr as (b' & ? & Hb & Hall). exists b'. split; [done|]. split; [done|].
      intros x [->|Hx]%elem_of_cons; [|by apply Hall]. apply Hb. pose proof (s_arrays _ _ _ _ Hs) as (_ & _ & Hmv & _).
      apply Hmv in Hm as [Hin|]; [by apply elem_of_nil in Hin|done|done].
    + destruct (detect_cycle_ok MAXIMUM_THREADS u vis stk [] b Hs Hu Hm) as (r & vis' & stk' & -> & Hr).
      { intros x Hx. by apply elem_of_nil in Hx. }
      { lia. }
      destruct r; [by eexists|]. destruct Hr as (b' & Hs' & Hub & Hbb).
      destruct (IH vis' stk' b' Hs' Hus) as (r & -> & Hr). exists r. split; [done|]. destruct r; [done|].
      destruct Hr as (b'' & ? & Hb & Hall). exists b''. split; [done|]. split; [by transitivity b'|].
      intros x [->|Hx]%elem_of_cons; [by apply Hb|by apply Hall].
Qed.

Lemma searching_start : searching (replicate MAXIMUM_THREADS false) (replicate MAXIMUM_THREADS false) [] [].
Proof.
  split; [|constructor|constructor|constructor]. split; [done|]. split; [done|].
  split; intros v Hv; unfold marked; rewrite lookup_replicate_2 by done; set_solver.
Qed.

End Search.

(** C10: the search always ends and decides whether the graph has a cycle: it
    never goes deeper than the number of nodes, and [has_cycle] returns 1
    exactly when some thread waits, through any number of others, for itself. *)
Theorem has_cycle_correct w :
  ∃ b, has_cycle w = Some b ∧ (b = true ↔ ∃ u, tc (edge w) u u).
Proof.
  destruct (has_cycle_loop_ok w (seq 0 MAXIMUM_THREADS) _ _ _ (searching_start w)) as (r & Hr & Hok).
  { apply Forall_forall. intros x Hx%elem_of_seq. lia. }
  exists r. split; [exact Hr|]. destruct r; [tauto|]. split; [done|]. intros [u Hu].
  destruct Hok as (b & Hb & _ & Hall). exfalso. eapply Acyclic.finished_acyclic; [exact Hb| |exact Hu].
  apply Hall, elem_of_seq. assert (u < MAXIMUM_THREADS) by (inversion Hu as [? ? (? & _)|? ? ? (? & _)]; done). lia.
Qed.

End WfgSpec.

(** ** The two workers and the monitor *)
Module Deadlock.
Import Wfg.

Definition MAXIMUM_LOCKS : nat := 2.

(** Where a worker is; in [pthread_cond_wait] the flag says whether it has been
    signalled. *)
Inductive wpc : Set :=
  | Acquire1                  (* [track_acquire(first)] *)
  | Wait1 (woken : bool)
  | Acquire2                  (* [track_acquire(second)] *)
  | Wait2 (woken : bool)
  | Release2                  (* got both: [track_release(second)] *)
  | Release1                  (* [track_release(first)] *)
  | ReleaseAborted            (* aborted while waiting: [track_release(first)] *)
  | Finished | Aborted.

(** The monitor: in its loop, waking the waiters of lock [i], returned. *)
Inductive mpc : Set := Watch | Wake (i : nat) | Gone.

Record config : Set := mkconfig {
  owner : list (option nat);       (* [track_lock[i].owner] *)
  wait_for : graph; abort_flag : list bool;
  worker : list wpc; monitor : mpc }.

#[export] Instance wpc_eq_dec : EqDecision wpc.
Proof. solve_decision. Defined.
#[export] Instance mpc_eq_dec : EqDecision mpc.
Proof. solve_decision. Defined.
#[export] Instance config_eq_dec : EqDecision config.
Proof. solve_decision. Defined.

Definition first (tid : nat) : nat := if tid =? 0 then 0 else 1.
Definition second (tid : nat) : nat := if tid =? 0 then 1 else 0.

Definition set_worker (t : nat) (p : wpc) (c : config) : config :=
  mkconfig (owner c) (wait_for c) (abort_flag c) (<[t := p]> (worker c)) (monitor c).

(** The test of the [while] loop of [track_acquire] for lock [l] and what
    follows it: the lock is taken, or the thread waits. *)
Definition attempt (t l : nat) (got wait : wpc) (c : config) : config :=
  match owner c !! l with
  | Some (Some o) =>
      if o =? t then set_worker t got (mkconfig (owner c) (wfg_remove_all_from t (wait_for c)) (abort_flag c) (worker c) (monitor c))
      else set_worker t wait (mkconfig (owner c) (wfg_add_edge t o (wait_for c)) (abort_flag c) (worker c) (monitor c))
  | _ =>
      set_worker t got
        (mkconfig (<[l := Some t]> (owner c)) (wfg_remove_all_from t (wait_for c)) (abort_flag c) (worker c) (monitor c))
  end.

(** After [pthread_cond_wait] returns. *)
Definition woken (t l : nat) (got wait aborted : wpc) (c : config) : config :=
  if marked (abort_flag c) t then
    set_worker t aborted (mkconfig (owner c) (wfg_remove_all_from t (wait_for c)) (abort_flag c) (worker c) (monitor c))
  else attempt t l got wait c.

(** [pthread_cond_broadcast] of lock [l]. *)
Definition signal (l t : nat) (p : wpc) : wpc :=
  match p with
  | Wait1 w => if first t =? l then Wait1 true else p
  | Wait2 w => if second t =? l then Wait2 true else p
  | _ => p
  end.

Definition broadcast (l : nat) (c : config) : config :=
  mkconfig (owner c) (wait_for c) (abort_flag c) (imap (signal l) (worker c)) (monitor c).

Definition track_release (t l : nat) (c : config) : config :=
  if decide (owner c !! l = Some (Some t)) then
    broadcast l (mkconfig (<[l := None]> (owner c)) (wait_for c) (abort_flag c) (worker c) (monitor c))
  else c.

(** The next step of worker [t]; none when it waits for a signal or is done. *)
Definition worker_step (t : nat) (c : config) : list config :=
  match worker c !! t with
  | Some Acquire1 => [attempt t (first t) Acquire2 (Wait1 false) c]
  | Some (Wait1 true) => [woken t (first t) Acquire2 (Wait1 false) Aborted c]
  | Some Acquire2 => [attempt t (second t) Release2 (Wait2 false) c]
  | Some (Wait2 true) => [woken t (second t) Release2 (Wait2 false) ReleaseAborted c]
  | Some Release2 => [set_worker t Release1 (track_release t (second t) c)]
  | Some Release1 => [set_worker t Finished (track_release t (first t) c)]
  | Some ReleaseAborted => [set_worker t Aborted (track_release t (first t) c)]
  | _ => []
  end.

(** A wait that returns without a signal. *)
Definition spurious_step (t : nat) (c : config) : list config :=
  match worker c !! t with
  | Some (Wait1 false) => [woken t (first t) Acquire2 (Wait1 false) Aborted c]
  | Some (Wait2 false) => [woken t (second t) Release2 (Wait2 false) ReleaseAborted c]
  | _ => []
  end.

Definition set_monitor (m : mpc) (c : config) : config :=
  mkconfig (owner c) (wait_for c) (abort_flag c) (worker c) m.

(** One round of [monitor_function]: a cycle sets [abort_flag[1]]; then each
    lock's waiters are woken. *)
Definition monitor_step (c : config) : list config :=
  match monitor c with
  | Watch =>
      match has_cycle (wait_for c) with
      | Some true => [mkconfig (owner c) (wait_for c) (<[1 := true]> (abort_flag c)) (worker c) (Wake 0)]
      | _ => [c]
      end
  | Wake i => [set_monitor (if i + 1 <? MAXIMUM_LOCKS then Wake (i + 1) else Gone) (broadcast i c)]
  | Gone => []
  end.

(** [main] after it has started the three threads. *)
Definition start : config :=
  mkconfig (replicate MAXIMUM_LOCKS None) (replicate MAXIMUM_THREADS (replicate MAXIMUM_THREADS false))
    (replicate MAXIMUM_THREADS false) [Acquire1; Acquire1] Watch.

Definition moves (c : config) : list config := worker_step 0 c ++ worker_step 1 c ++ monitor_step c.
Definition all_moves (c : config) : list config := moves c ++ spurious_step 0 c ++ spurious_step 1 c.

Definition step (c c' : config) : Prop := c' ∈ moves c.
Definition any_step (c c' : config) : Prop := c' ∈ all_moves c.
Definition reachable (c : config) : Prop := rtc any_step start c.

(** [main] joins the workers, then the monitor. *)
Definition workers_done (c : config) : bool :=
  forallb (λ p, bool_decide (p = Finished) || bool_decide (p = Aborted)) (worker c).

End Deadlock.

(** ** Exploring finite systems *)
Module Explore.
Section Explore.
Context {A : Type} `{EqDecision A} (next : A → list A).

Definition goes (a b : A) : Prop := b ∈ next a.

(** The states found from [todo], depth first. *)
Fixpoint explore (fuel : nat) (seen todo : list A) : list A :=
  match fuel, todo with
  | S fuel, a :: todo =>
      if bool_decide (a ∈ seen) then explore fuel seen todo else explore fuel (a :: seen) (next a ++ todo)
  | _, _ => seen
  end.

(** Nothing is found that cannot be reached. *)
Lemma explore_sound (root : A) fuel : ∀ seen todo b,
  (∀ a, a ∈ seen ∨ a ∈ todo → rtc goes root a) → b ∈ explore fuel seen todo → rtc goes root b.
Proof.
  induction fuel as [|fuel IH]; intros seen [|a todo] b Hr Hb; simpl in Hb; try by apply Hr; left.
  case_bool_decide as Ha.
  - eapply IH; [|exact Hb]. intros x [Hx|Hx]; apply Hr; set_solver.
  - eapply IH; [|exact Hb]. intros x [Hx|Hx].
    + apply Hr. set_solver.
    + apply elem_of_app in Hx as [Hx|Hx]; [|apply Hr; set_solver]. eapply rtc_r; [|exact Hx]. apply Hr. set_solver.
Qed.

(** A set of states that no step leaves. *)
Definition closed (l : list A) : bool := forallb (λ a, forallb (λ b, bool_decide (b ∈ l)) (next a)) l.

Lemma closed_reach l a b : closed l = true → a ∈ l → rtc goes a b → b ∈ l.
Proof.
  intros Hc Ha Hr. induction Hr as [|a1 a2 a3 H12 _ IH]; [done|]. apply IH. unfold closed in Hc.
  rewrite forallb_forall in Hc. specialize (Hc a1). rewrite forallb_forall in Hc.
  eapply bool_decide_eq_true, Hc; by apply list_elem_of_In.
Qed.

(** Some state that satisfies [p] can be reached. *)
Definition can_reach (fuel : nat) (p : A → bool) (a : A) : bool := existsb p (explore fuel [] [a]).

Lemma can_reach_sound fuel p a : can_reach fuel p a = true → ∃ b, rtc goes a b ∧ p b = true.
Proof.
  unfold can_reach. rewrite existsb_exists. intros (b & Hb & Hp). exists b. split; [|done].
  eapply explore_sound; [|by apply list_elem_of_In]. intros x [Hx|Hx]; [by apply elem_of_nil in Hx|].
  apply list_elem_of_singleton in Hx as ->. apply rtc_refl.
Qed.

End Explore.
End Explore.

Module DeadlockSpec.
Import Wfg Deadlock Explore.

(** All states of the program. *)
Definition states : list config := Eval vm_compute in explore all_moves 500 [] [start].

Lemma states_closed : closed all_moves states = true.
Proof. vm_compute. reflexivity. Qed.

Lemma reachable_states c : reachable c → c ∈ states.
Proof.
  intros Hr. eapply (closed_reach all_moves states start); [apply states_closed| |exact Hr].
  apply (bool_decide_eq_true (start ∈ states)). vm_compute. reflexivity.
Qed.

(** A property of all states, by looking at each. *)
Lemma every_state (p : config → bool) : forallb p states = true → ∀ c, reachable c → p c = true.
Proof.
  intros Hp c Hc%reachable_states. rewrite forallb_forall in Hp. by apply Hp, list_elem_of_In.
Qed.

(** Neither worker has finished and neither can do anything by itself. *)
Definition deadlocked (c : config) : bool :=
  bool_decide (worker_step 0 c = []) && bool_decide (worker_step 1 c = []) && negb (workers_done c).

(** Which locks a worker holds. *)
Definition holds (t : nat) (p : wpc) (l : nat) : bool :=
  match p with
  | Acquire2 | Wait2 _ | Release1 | ReleaseAborted => l =? first t
  | Release2 => true
  | _ => false
  end.

(** A lock's owner is the one worker that holds it. *)
Definition owners_ok (c : config) : bool :=
  forallb (λ l, forallb (λ t,
    eqb (bool_decide (owner c !! l = Some (Some t))) (match worker c !! t with Some p => holds t p l | None => false end))
    (seq 0 2)) (seq 0 MAXIMUM_LOCKS).

Lemma states_owners : forallb owners_ok states = true.
Proof. vm_compute. reflexivity. Qed.

Lemma states_detected :
  forallb (λ c, bool_decide (monitor c = Watch → (has_cycle (wait_for c) = Some true ↔ deadlocked c = true))) states = true.
Proof. vm_compute. reflexivity. Qed.

Lemma states_finish : forallb (can_reach moves 200 workers_done) states = true.
Proof. vm_compute. reflexivity. Qed.

Lemma states_aborted :
  forallb (λ c, bool_decide (monitor c ≠ Watch → can_reach moves 200
    (λ c', bool_decide (worker c' = [Finished; Aborted]) && bool_decide (monitor c' = Gone)) c = true)) states = true.
Proof. vm_compute. reflexivity. Qed.

(** Detection is exact and helps: in every reachable state, spurious wake-ups
    included, each lock belongs to the one worker that holds it; as long as the
    monitor watches, the graph has a cycle exactly when the workers are
    deadlocked; from every state, with real signals only, both workers can
    finish; and once the monitor has acted, worker 0 can finish with both locks
    while worker 1 is aborted and the monitor returns. *)
Theorem deadlock_resolved c :
  reachable c →
  owners_ok c = true ∧
  (monitor c = Watch → (has_cycle (wait_for c) = Some true ↔ deadlocked c = true)) ∧
  (∃ c', rtc step c c' ∧ workers_done c' = true) ∧
  (monitor c ≠ Watch → ∃ c', rtc step c c' ∧ worker c' = [Finished; Aborted] ∧ monitor c' = Gone).
Proof.
  intros Hr. split; [by apply (every_state _ states_owners)|].
  split; [by eapply bool_decide_eq_true, (every_state _ states_detected)|].
  split; [eapply can_reach_sound, (every_state _ states_finish), Hr|]. intros Hm.
  assert (monitor c ≠ Watch → can_reach moves 200
    (λ c', bool_decide (worker c' = [Finished; Aborted]) && bool_decide (monitor c' = Gone)) c = true) as Hc
    by (eapply bool_decide_eq_true, (every_state _ states_aborted), Hr).
  apply Hc, can_reach_sound in Hm as (c' & Hr' & Hp). exists c'. split; [exact Hr'|].
  apply andb_true_iff in Hp as [H1%bool_decide_eq_true H2%bool_decide_eq_true]. done.
Qed.

(** The run that deadlocks. *)
Definition deadlock : config :=
  mkconfig [Some 0; Some 1]
    [[false; true; false; false]; [true; false; false; false]; replicate 4 false; replicate 4 false]
    (replicate 4 false) [Wait2 false; Wait2 false] Watch.

Lemma deadlock_reachable : reachable deadlock.
Proof.
  apply (explore_sound all_moves start 500 [] [start]).
  - intros a [Ha|Ha]; [by apply elem_of_nil in Ha|]. apply list_elem_of_singleton in Ha as ->. apply rtc_refl.
  - apply (bool_decide_eq_true (deadlock ∈ _)). vm_compute. reflexivity.
Qed.

Lemma deadlock_resolved_witness :
  has_cycle (wait_for deadlock) = Some true ∧ ∃ c', rtc step deadlock c' ∧ workers_done c' = true.
Proof.
  destruct (deadlock_resolved deadlock deadlock_reachable) as (_ & Hd & Hf & _).
  split; [|exact Hf]. by apply Hd.
Defined.

(** The run in which worker 0 has finished before worker 1 starts. *)
Definition quiet : config :=
  mkconfig [None; None] (replicate 4 (replicate 4 false)) (replicate 4 false) [Finished; Finished] Watch.

(** Without a deadlock the program does not end: when both workers return
    without having met, the monitor, which leaves its loop only for a cycle,
    watches for ever, and [main] joins it. *)
Theorem monitor_never_returns :
  reachable quiet ∧ workers_done quiet = true ∧ ∀ c, rtc any_step quiet c → monitor c = Watch.
Proof.
  split; [|split; [reflexivity|]].
  - apply (explore_sound all_moves start 500 [] [start]).
    + intros a [Ha|Ha]; [by apply elem_of_nil in Ha|]. apply list_elem_of_singleton in Ha as ->. apply rtc_refl.
    + apply (bool_decide_eq_true (quiet ∈ _)). vm_compute. reflexivity.
  - intros c Hc. assert (c ∈ [quiet]) as Hq.
    { eapply (closed_reach all_moves [quiet] quiet); [vm_compute; reflexivity|by left|exact Hc]. }
    by apply list_elem_of_singleton in Hq as ->.
Qed.

End DeadlockSpec.
