(* ===== verification/BoundedBuffer.v ===== *)
(** * The bounded buffer:
    [concurrency-and-multithreading/producer_consumer_queue_using_cond_variable.c]

    Producers and consumers share a ring of [BUFFER_SIZE] items under one mutex
    and wait on two condition variables.  [Buffer] models the program as
    actions of its threads, one for every stretch of code between taking the
    mutex and giving it back (in [pthread_cond_wait] or at the end of the
    section); whom [pthread_cond_signal] wakes is part of the action, and a wait
    may also return without a signal.  [BufferSpec] holds the properties. *)
From stdpp Require Import base list relations.
From Stdlib Require Import ZArith Lia.
From S2P Require Import Prelude.

Module Buffer.

Definition NUMBER_OF_PRODUCERS : nat := 4.
Definition NUMBER_OF_CONSUMERS : nat := 3.
Definition PRODUCES_PER_PRODUCER : nat := 20.
Definition BUFFER_SIZE : nat := 20.
Definition total_to_be_produced : nat := NUMBER_OF_PRODUCERS * PRODUCES_PER_PRODUCER.

(** A producer before item [i], in [pthread_cond_wait] (signalled or not), or
    returned. *)
Inductive producer : Set := Produce (i : nat) | WaitNotFull (i : nat) (woken : bool) | Produced.

(** A consumer at the top of its loop, in [pthread_cond_wait], or returned. *)
Inductive consumer : Set := Consume | WaitNotEmpty (woken : bool) | Consumed.

(** [main]: joining the producers, then the consumers. *)
Inductive main_pc : Set := JoinProducers | JoinConsumers | Returned.

(** The shared variables and the threads; [items_in] and [items_out] record what
    went into the buffer and came out of it, in order. *)
Record config : Set := mkconfig {
  buffer : list Z; in_ : nat; out : nat; count : nat; consumed_total : nat;
  producers : list producer; consumers : list consumer; main_at : main_pc;
  items_in : list Z; items_out : list Z }.

#[export] Instance producer_eq_dec : EqDecision producer.
Proof. solve_decision. Defined.
#[export] Instance consumer_eq_dec : EqDecision consumer.
Proof. solve_decision. Defined.

(** Waiting without having been signalled. *)
Definition asleep_p (p : producer) : bool := match p with WaitNotFull _ false => true | _ => false end.
Definition asleep_c (p : consumer) : bool := match p with WaitNotEmpty false => true | _ => false end.

Definition wake_p (p : producer) : producer := match p with WaitNotFull i _ => WaitNotFull i true | _ => p end.
Definition wake_c (p : consumer) : consumer := match p with WaitNotEmpty _ => WaitNotEmpty true | _ => p end.

(** [pthread_cond_signal]: one sleeping thread, the [j]th, is woken; nothing
    happens when there is none. *)
Definition signal {A} (asleep : A → bool) (wake : A → A) (j : nat) (l : list A) : option (list A) :=
  if existsb asleep l then
    match l !! j with
    | Some p => if asleep p then Some (<[j := wake p]> l) else None
    | None => None
    end
  else Some l.

Definition item (i : nat) : Z := (Z.of_nat i * 100 + Z.of_nat i)%Z.

(** The body of [producer]'s loop once it has the mutex. *)
Definition produce (t i j : nat) (c : config) : option config :=
  if count c =? BUFFER_SIZE then
    Some (mkconfig (buffer c) (in_ c) (out c) (count c) (consumed_total c)
      (<[t := WaitNotFull i false]> (producers c)) (consumers c) (main_at c) (items_in c) (items_out c))
  else
    cs ← signal asleep_c wake_c j (consumers c);
    Some (mkconfig (<[in_ c := item i]> (buffer c)) ((in_ c + 1) mod BUFFER_SIZE) (out c) (count c + 1)
      (consumed_total c) (<[t := Produce (i + 1)]> (producers c)) cs (main_at c)
      (items_in c ++ [item i]) (items_out c)).

(** The rest of [consumer]'s loop after the test for the end. *)
Definition consume (t j : nat) (c : config) : option config :=
  if count c =? 0 then
    Some (mkconfig (buffer c) (in_ c) (out c) (count c) (consumed_total c)
      (producers c) (<[t := WaitNotEmpty false]> (consumers c)) (main_at c) (items_in c) (items_out c))
  else
    x ← buffer c !! out c;
    ps ← signal asleep_p wake_p j (producers c);
    Some (mkconfig (buffer c) (in_ c) ((out c + 1) mod BUFFER_SIZE) (count c - 1) (consumed_total c + 1)
      ps (<[t := Consume]> (consumers c)) (main_at c) (items_in c) (items_out c ++ [x])).

(** Who runs next: a producer or consumer, with the thread its signal wakes,
    a wait that returns by itself, or [main]. *)
Inductive action : Set :=
  | Producer (t j : nat) | Consumer (t j : nat) | SpuriousProducer (t : nat) | SpuriousConsumer (t : nat) | Main.

Definition act (a : action) (c : config) : option config :=
  match a with
  | Producer t j =>
      match producers c !! t with
      | Some (Produce i) =>
          if i <? PRODUCES_PER_PRODUCER then produce t i j c
          else Some (mkconfig (buffer c) (in_ c) (out c) (count c) (consumed_total c)
            (<[t := Produced]> (producers c)) (consumers c) (main_at c) (items_in c) (items_out c))
      | Some (WaitNotFull i true) => produce t i j c
      | _ => None
      end
  | Consumer t j =>
      match consumers c !! t with
      | Some Consume =>
          if total_to_be_produced <=? consumed_total c then
            Some (mkconfig (buffer c) (in_ c) (out c) (count c) (consumed_total c)
              (producers c) (<[t := Consumed]> (consumers c)) (main_at c) (items_in c) (items_out c))
          else consume t j c
      | Some (WaitNotEmpty true) => consume t j c
      | _ => None
      end
  | SpuriousProducer t =>
      Some (mkconfig (buffer c) (in_ c) (out c) (count c) (consumed_total c)
        (alter wake_p t (producers c)) (consumers c) (main_at c) (items_in c) (items_out c))
  | SpuriousConsumer t =>
      Some (mkconfig (buffer c) (in_ c) (out c) (count c) (consumed_total c)
        (producers c) (alter wake_c t (consumers c)) (main_at c) (items_in c) (items_out c))
  | Main =>
      match main_at c with
      | JoinProducers =>
          if forallb (λ p, bool_decide (p = Produced)) (producers c) then
            Some (mkconfig (buffer c) (in_ c) (out c) (count c) (consumed_total c)
              (producers c) (wake_c <$> consumers c) JoinConsumers (items_in c) (items_out c))
          else None
      | JoinConsumers =>
          if forallb (λ p, bool_decide (p = Consumed)) (consumers c) then
            Some (mkconfig (buffer c) (in_ c) (out c) (count c) (consumed_total c)
              (producers c) (consumers c) Returned (items_in c) (items_out c))
          else None
      | Returned => None
      end
  end.

Definition step (c c' : config) : Prop := ∃ a, act a c = Some c'.

Definition start : config :=
  mkconfig (replicate BUFFER_SIZE 0%Z) 0 0 0 0 (replicate NUMBER_OF_PRODUCERS (Produce 0))
    (replicate NUMBER_OF_CONSUMERS Consume) JoinProducers [] [].

Definition reachable (c : config) : Prop := rtc step start c.

(** A schedule. *)
Fixpoint run (l : list action) (c : config) : option config :=
  match l with [] => Some c | a :: l => match act a c with Some c' => run l c' | None => None end end.

End Buffer.

Module BufferSpec.
Import Buffer.

(** *** Sums over threads *)

#[local] Arguments Nat.modulo : simpl never.
#[local] Arguments Nat.leb : simpl never.
#[local] Arguments Nat.ltb : simpl never.
#[local] Arguments Nat.eqb : simpl never.

Abbreviation Σ f l := (sum_list_with f l).

Lemma sum_lookup {A} (f : A → nat) (l : list A) i x : l !! i = Some x → f x ≤ Σ f l.
Proof. revert i. induction l as [|z l IH]; intros [|i] Hi; simplify_eq/=; [lia|]. specialize (IH i Hi). lia. Qed.

Lemma sum_pos {A} (f : A → nat) (l : list A) : 0 < Σ f l → ∃ i x, l !! i = Some x ∧ 0 < f x.
Proof.
  induction l as [|x l IH]; simpl; [lia|]. destruct (decide (0 < f x)) as [Hx|Hx]; [by exists 0, x|].
  intros Hs. destruct IH as (i & y & Hi & Hy); [lia|]. by exists (S i), y.
Qed.

Definition awake_p (p : producer) : bool := match p with WaitNotFull _ true => true | _ => false end.
Definition awake_c (p : consumer) : bool := match p with WaitNotEmpty true => true | _ => false end.

(** Sleeping and woken threads. *)
Definition asleep_ps (c : config) : nat := Σ (Nat.b2n ∘ asleep_p) (producers c).
Definition awake_ps (c : config) : nat := Σ (Nat.b2n ∘ awake_p) (producers c).
Definition asleep_cs (c : config) : nat := Σ (Nat.b2n ∘ asleep_c) (consumers c).
Definition awake_cs (c : config) : nat := Σ (Nat.b2n ∘ awake_c) (consumers c).

(** The items a producer has put into the buffer. *)
Definition made (p : producer) : nat :=
  match p with Produce i | WaitNotFull i _ => i | Produced => PRODUCES_PER_PRODUCER end.

Lemma existsb_sum {A} (f : A → bool) l : existsb f l = (0 <? Σ (Nat.b2n ∘ f) l).
Proof. induction l as [|x l IH]; [done|]. simpl. rewrite IH. by destruct (f x). Qed.

(** What a signal does to the counts. *)
Lemma signal_sum {A} (asleep awake : A → bool) (wake : A → A) (f : A → nat) j l l' :
  (∀ x, asleep x = true → asleep (wake x) = false ∧ awake x = false ∧ awake (wake x) = true) → (∀ x, f (wake x) = f x) →
  signal asleep wake j l = Some l' →
  Σ f l' = Σ f l ∧ length l' = length l ∧
  (Σ (Nat.b2n ∘ asleep) l = 0 ∧ l' = l ∨
   Σ (Nat.b2n ∘ asleep) l = Σ (Nat.b2n ∘ asleep) l' + 1 ∧ Σ (Nat.b2n ∘ awake) l' = Σ (Nat.b2n ∘ awake) l + 1).
Proof.
  intros Hw Hf. unfold signal. rewrite existsb_sum. destruct (Nat.ltb_spec 0 (Σ (Nat.b2n ∘ asleep) l)).
  - destruct (l !! j) as [x|] eqn:Hj; [|done]. destruct (asleep x) eqn:Hx; [|done]. intros [= <-].
    destruct (Hw x Hx) as (H1 & H2 & H3). rewrite length_insert.
    pose proof (sum_with_insert f l j x (wake x) Hj). pose proof (sum_with_insert (Nat.b2n ∘ asleep) l j x (wake x) Hj).
    pose proof (sum_with_insert (Nat.b2n ∘ awake) l j x (wake x) Hj). rewrite Hf in *. simpl in *.
    rewrite Hx, H1, H2, H3 in *. simpl in *. split; [lia|]. split; [done|]. right. lia.
  - intros [= <-]. split; [done|]. split; [done|]. left. split; [lia|done].
Qed.

Lemma signal_p_sum j l l' :
  signal asleep_p wake_p j l = Some l' →
  Σ made l' = Σ made l ∧ length l' = length l ∧
  (Σ (Nat.b2n ∘ asleep_p) l = 0 ∧ l' = l ∨
   Σ (Nat.b2n ∘ asleep_p) l = Σ (Nat.b2n ∘ asleep_p) l' + 1 ∧ Σ (Nat.b2n ∘ awake_p) l' = Σ (Nat.b2n ∘ awake_p) l + 1).
Proof. apply signal_sum; [by intros [|? []|]|by intros []]. Qed.

Lemma signal_c_sum j l l' :
  signal asleep_c wake_c j l = Some l' →
  length l' = length l ∧
  (Σ (Nat.b2n ∘ asleep_c) l = 0 ∧ l' = l ∨
   Σ (Nat.b2n ∘ asleep_c) l = Σ (Nat.b2n ∘ asleep_c) l' + 1 ∧ Σ (Nat.b2n ∘ awake_c) l' = Σ (Nat.b2n ∘ awake_c) l + 1).
Proof. intros H. by apply (signal_sum asleep_c awake_c wake_c (λ _, 0)) in H as (_ & ? & ?); [|intros [|[]|]|]. Qed.

(** The [n] items from position [o] on. *)
Abbreviation ring := (Prelude.ring 0%Z BUFFER_SIZE).

(** *** The invariant *)
Record inv (c : config) : Prop := mkinv {
  inv_buf : length (buffer c) = BUFFER_SIZE;
  inv_out : out c < BUFFER_SIZE;
  inv_count : count c ≤ BUFFER_SIZE;
  inv_in : in_ c = (out c + count c) mod BUFFER_SIZE;
  inv_fifo : items_in c = items_out c ++ ring (buffer c) (out c) (count c);
  inv_consumed : consumed_total c = length (items_out c);
  inv_made : length (items_in c) = Σ made (producers c);
  inv_producers : length (producers c) = NUMBER_OF_PRODUCERS;
  inv_consumers : length (consumers c) = NUMBER_OF_CONSUMERS;
  inv_bound t p : producers c !! t = Some p → made p ≤ PRODUCES_PER_PRODUCER;
  inv_waiting t i w : producers c !! t = Some (WaitNotFull i w) → i < PRODUCES_PER_PRODUCER;
  inv_not_empty : 0 < asleep_cs c → count c ≤ awake_cs c;
  inv_not_full : 0 < asleep_ps c → BUFFER_SIZE - count c ≤ awake_ps c;
  inv_end t : consumers c !! t = Some Consumed → total_to_be_produced ≤ consumed_total c
}.

Lemma buf_inv_start : inv start.
Proof.
  constructor; unfold start; cbn [buffer in_ out count consumed_total producers consumers items_in items_out];
    try done; try (unfold BUFFER_SIZE; lia).
  - intros t p [-> _]%lookup_replicate. simpl. lia.
  - intros t i w [? _]%lookup_replicate. done.
  - unfold asleep_ps. simpl. lia.
  - intros t [? _]%lookup_replicate. done.
Qed.

(** Threads after an insertion. *)
Lemma insert_inv {A} (P : A → Prop) (l : list A) t y :
  (∀ t' x, l !! t' = Some x → P x) → P y → ∀ t' x, <[t := y]> l !! t' = Some x → P x.
Proof. intros Hl Hy t' x Hx. apply list_lookup_insert_Some in Hx as [(_ & <- & _)|[_ Hx]]; [done|by eapply Hl]. Qed.

Lemma signal_lookup {A} (asleep : A → bool) wake j l l' t (x : A) :
  signal asleep wake j l = Some l' → l' !! t = Some x → l !! t = Some x ∨ ∃ y, l !! t = Some y ∧ asleep y = true ∧ x = wake y.
Proof.
  unfold signal. destruct (existsb asleep l); [|intros [= <-]; by left].
  destruct (l !! j) as [y|] eqn:Hj; [|done]. destruct (asleep y) eqn:Hy; [|done]. intros [= <-] Hx.
  apply list_lookup_insert_Some in Hx as [(<- & <- & _)|[_ Hx]]; [right; by exists y|by left].
Qed.

(** A producer with the mutex. *)
Lemma inv_produce c t p i j c' :
  inv c → producers c !! t = Some p → made p = i → i < PRODUCES_PER_PRODUCER → asleep_p p = false →
  produce t i j c = Some c' → inv c'.
Proof.
  intros Hi Ht Hm Hlt Hs. unfold produce.
  pose proof (sum_with_insert made _ _ _ (WaitNotFull i false) Ht). pose proof (sum_with_insert (Nat.b2n ∘ asleep_p) _ _ _ (WaitNotFull i false) Ht) as HA.
  pose proof (sum_with_insert (Nat.b2n ∘ awake_p) _ _ _ (WaitNotFull i false) Ht) as HB.
  pose proof (sum_with_insert made _ _ _ (Produce (i + 1)) Ht). pose proof (sum_with_insert (Nat.b2n ∘ asleep_p) _ _ _ (Produce (i + 1)) Ht) as HC.
  pose proof (sum_with_insert (Nat.b2n ∘ awake_p) _ _ _ (Produce (i + 1)) Ht) as HD.
  destruct (Nat.eqb_spec (count c) BUFFER_SIZE) as [Hc|Hc].
  - intros [= <-]. constructor; simpl; try apply Hi.
    + rewrite (inv_made c Hi). simpl in *. lia.
    + by rewrite length_insert, (inv_producers c Hi).
    + apply insert_inv; [apply (inv_bound c Hi)|simpl; lia].
    + intros t' i' w Hw. apply list_lookup_insert_Some in Hw as [(_ & Hw & _)|[_ Hw]]; [by simplify_eq|by eapply (inv_waiting c Hi)].
    + unfold asleep_ps, awake_ps. simpl. lia.
  - destruct (signal asleep_c wake_c j (consumers c)) as [cs|] eqn:Hsig; [|done]. simpl. intros [= <-].
    pose proof (inv_count c Hi) as Hcnt.
    destruct (signal_c_sum _ _ _ Hsig) as [Hlen Hcase]. constructor; simpl; try apply Hi.
    + by rewrite length_insert, (inv_buf c Hi).
    + lia.
    + rewrite (inv_in c Hi), Nat.Div0.add_mod_idemp_l. f_equal. lia.
    + rewrite (inv_in c Hi), Nat.add_1_r, ring_put, (inv_fifo c Hi), app_assoc; [done|apply Hi|lia].
    + rewrite length_app, (inv_made c Hi). simpl in *. lia.
    + by rewrite length_insert, (inv_producers c Hi).
    + by rewrite Hlen, (inv_consumers c Hi).
    + apply insert_inv; [apply (inv_bound c Hi)|simpl; lia].
    + intros t' i' w Hw. apply list_lookup_insert_Some in Hw as [(_ & Hw & _)|[_ Hw]]; [done|by eapply (inv_waiting c Hi)].
    + pose proof (inv_not_empty c Hi) as Hne. unfold asleep_cs, awake_cs in *. simpl.
      destruct Hcase as [[H1 ->]|[H1 H2]]; lia.
    + pose proof (inv_not_full c Hi) as Hnf. unfold asleep_ps, awake_ps in *. simpl in *. rewrite Hs in HC. simpl in HC.
      assert (Nat.b2n (awake_p p) ≤ 1) by (destruct (awake_p p); simpl; lia). lia.
    + intros t' Ht'. apply (inv_end c Hi t'). destruct (signal_lookup _ _ _ _ _ _ _ Hsig Ht') as [|([|[]|] & _ & ? & ?)]; done.
Qed.

(** A consumer with the mutex that has not seen the end. *)
Lemma inv_consume c t p j c' :
  inv c → consumers c !! t = Some p → asleep_c p = false → p ≠ Consumed → consume t j c = Some c' → inv c'.
Proof.
  intros Hi Ht Hs Hp. unfold consume.
  pose proof (sum_with_insert (Nat.b2n ∘ asleep_c) _ _ _ (WaitNotEmpty false) Ht) as HA.
  pose proof (sum_with_insert (Nat.b2n ∘ awake_c) _ _ _ (WaitNotEmpty false) Ht) as HB.
  pose proof (sum_with_insert (Nat.b2n ∘ asleep_c) _ _ _ Consume Ht) as HC.
  pose proof (sum_with_insert (Nat.b2n ∘ awake_c) _ _ _ Consume Ht) as HD.
  destruct (Nat.eqb_spec (count c) 0) as [Hc|Hc].
  - intros [= <-]. constructor; simpl; try apply Hi.
    + by rewrite length_insert, (inv_consumers c Hi).
    + unfold asleep_cs, awake_cs. simpl. lia.
    + intros t' Ht'. apply list_lookup_insert_Some in Ht' as [(_ & ? & _)|[_ Ht']]; [done|by eapply (inv_end c Hi)].
  - destruct (buffer c !! out c) as [x|] eqn:Hx; [|done]. simpl.
    destruct (signal asleep_p wake_p j (producers c)) as [ps|] eqn:Hsig; [|done]. simpl. intros [= <-].
    pose proof (inv_count c Hi) as Hcnt. pose proof (inv_out c Hi) as Hout.
    destruct (signal_p_sum _ _ _ Hsig) as (Hmade & Hlen & Hcase). constructor; simpl; try apply Hi.
    + by apply Nat.mod_upper_bound.
    + lia.
    + rewrite (inv_in c Hi), Nat.Div0.add_mod_idemp_l. f_equal. lia.
    + rewrite (inv_fifo c Hi), <- app_assoc. simpl. replace (count c) with (S (count c - 1)) at 1 by lia.
      by rewrite (ring_take _ _ _ _ _ x).
    + rewrite length_app, (inv_consumed c Hi). simpl. lia.
    + by rewrite Hmade, (inv_made c Hi).
    + by rewrite Hlen, (inv_producers c Hi).
    + by rewrite length_insert, (inv_consumers c Hi).
    + intros t' p' Ht'. destruct (signal_lookup _ _ _ _ _ _ _ Hsig Ht') as [H|(y & H & _ & ->)];
        pose proof (inv_bound c Hi t' _ H); [done|by destruct y].
    + intros t' i w Ht'. destruct (signal_lookup _ _ _ _ _ _ _ Hsig Ht') as [H|(y & H & _ & Hy)];
        [by eapply (inv_waiting c Hi)|]. destruct y; simplify_eq/=. by eapply (inv_waiting c Hi).
    + pose proof (inv_not_empty c Hi) as Hne. unfold asleep_cs, awake_cs in *. simpl in *. rewrite Hs in HC. simpl in HC.
      assert (Nat.b2n (awake_c p) ≤ 1) by (destruct (awake_c p); simpl; lia). lia.
    + pose proof (inv_not_full c Hi) as Hnf. unfold asleep_ps, awake_ps in *. simpl.
      destruct Hcase as [[H1 ->]|[H1 H2]]; lia.
    + intros t' Ht'. apply list_lookup_insert_Some in Ht' as [(_ & ? & _)|[_ Ht']]; [done|].
      pose proof (inv_end c Hi t' Ht'). lia.
Qed.

Lemma alter_lookup {A} (f : A → A) t (l : list A) :
  alter f t l = match l !! t with Some x => <[t := f x]> l | None => l end.
Proof.
  revert t. induction l as [|x l IH]; intros [|t]; try done. change (x :: alter f t l = match l !! t with
    Some y => x :: <[t := f y]> l | None => x :: l end). rewrite IH. by destruct (l !! t).
Qed.

Lemma all_awake (l : list consumer) : Σ (Nat.b2n ∘ asleep_c) (wake_c <$> l) = 0.
Proof. induction l as [|[|w|] l IH]; csimpl; auto. Qed.

Lemma inv_spurious_producer c t :
  inv c → inv (mkconfig (buffer c) (in_ c) (out c) (count c) (consumed_total c)
    (alter wake_p t (producers c)) (consumers c) (main_at c) (items_in c) (items_out c)).
Proof.
  intros Hi. rewrite alter_lookup. destruct (producers c !! t) as [p|] eqn:Ht; [|by destruct c].
  pose proof (sum_with_insert made _ _ _ (wake_p p) Ht). pose proof (sum_with_insert (Nat.b2n ∘ asleep_p) _ _ _ (wake_p p) Ht) as HA.
  pose proof (sum_with_insert (Nat.b2n ∘ awake_p) _ _ _ (wake_p p) Ht) as HB.
  assert (made (wake_p p) = made p) as Hm by (by destruct p). constructor; simpl; try apply Hi.
  - rewrite (inv_made c Hi). simpl in *. lia.
  - by rewrite length_insert, (inv_producers c Hi).
  - apply insert_inv; [apply (inv_bound c Hi)|]. rewrite Hm. by apply (inv_bound c Hi t).
  - intros t' i w Hw. apply list_lookup_insert_Some in Hw as [(_ & Hw & _)|[_ Hw]]; [|by eapply (inv_waiting c Hi)].
    destruct p; simplify_eq/=. by eapply (inv_waiting c Hi).
  - pose proof (inv_not_full c Hi) as Hnf. unfold asleep_ps, awake_ps in *. simpl in *.
    destruct p as [|? []|]; simpl in *; lia.
Qed.

Lemma inv_spurious_consumer c t :
  inv c → inv (mkconfig (buffer c) (in_ c) (out c) (count c) (consumed_total c)
    (producers c) (alter wake_c t (consumers c)) (main_at c) (items_in c) (items_out c)).
Proof.
  intros Hi. rewrite alter_lookup. destruct (consumers c !! t) as [p|] eqn:Ht; [|by destruct c].
  pose proof (sum_with_insert (Nat.b2n ∘ asleep_c) _ _ _ (wake_c p) Ht) as HA.
  pose proof (sum_with_insert (Nat.b2n ∘ awake_c) _ _ _ (wake_c p) Ht) as HB. constructor; simpl; try apply Hi.
  - by rewrite length_insert, (inv_consumers c Hi).
  - pose proof (inv_not_empty c Hi) as Hnf. unfold asleep_cs, awake_cs in *. simpl in *. destruct p as [|[]|]; simpl in *; lia.
  - intros t' Hw. apply list_lookup_insert_Some in Hw as [(<- & Hw & _)|[_ Hw]]; [|by eapply (inv_end c Hi)].
    destruct p; simplify_eq/=. by eapply (inv_end c Hi).
Qed.

Lemma inv_act a c c' : inv c → act a c = Some c' → inv c'.
Proof.
  intros Hi. destruct a as [t j|t j|t|t|]; simpl.
  - destruct (producers c !! t) as [[i|i []|]|] eqn:Ht; try done.
    + destruct (Nat.ltb_spec i PRODUCES_PER_PRODUCER) as [Hlt|Hge]; [by apply (inv_produce c t (Produce i))|].
      pose proof (inv_bound c Hi t _ Ht) as Hle. simpl in Hle. intros [= <-].
      pose proof (sum_with_insert made _ _ _ Produced Ht). pose proof (sum_with_insert (Nat.b2n ∘ asleep_p) _ _ _ Produced Ht) as HA.
      pose proof (sum_with_insert (Nat.b2n ∘ awake_p) _ _ _ Produced Ht) as HB. constructor; simpl; try apply Hi.
      * rewrite (inv_made c Hi). simpl in *. lia.
      * by rewrite length_insert, (inv_producers c Hi).
      * apply insert_inv; [apply (inv_bound c Hi)|done].
      * intros t' i' w Hw. apply list_lookup_insert_Some in Hw as [(_ & Hw & _)|[_ Hw]]; [done|by eapply (inv_waiting c Hi)].
      * pose proof (inv_not_full c Hi) as Hnf. unfold asleep_ps, awake_ps in *. simpl in *. lia.
    + apply (inv_produce c t (WaitNotFull i true)); try done. by eapply (inv_waiting c Hi).
  - destruct (consumers c !! t) as [[|[]|]|] eqn:Ht; try done.
    + destruct (Nat.leb_spec total_to_be_produced (consumed_total c)) as [Hge|Hlt]; [|by apply (inv_consume c t Consume)].
      intros [= <-]. pose proof (sum_with_insert (Nat.b2n ∘ asleep_c) _ _ _ Consumed Ht) as HA.
      pose proof (sum_with_insert (Nat.b2n ∘ awake_c) _ _ _ Consumed Ht) as HB. constructor; simpl; try apply Hi.
      * by rewrite length_insert, (inv_consumers c Hi).
      * pose proof (inv_not_empty c Hi) as Hnf. unfold asleep_cs, awake_cs in *. simpl in *. lia.
      * intros t' Hw. done.
    + by apply (inv_consume c t (WaitNotEmpty true)).
  - intros [= <-]. by apply inv_spurious_producer.
  - intros [= <-]. by apply inv_spurious_consumer.
  - destruct (main_at c); [| |done]; case_match; intros; simplify_eq; constructor; simpl; try apply Hi.
    + by rewrite length_fmap, (inv_consumers c Hi).
    + unfold asleep_cs. simpl. rewrite all_awake. lia.
    + intros t Ht. rewrite list_lookup_fmap in Ht. apply fmap_Some in Ht as (p & Hp & Hpe).
      destruct p; simplify_eq/=. by eapply (inv_end c Hi).
Qed.

Lemma buf_inv_reachable c : reachable c → inv c.
Proof.
  unfold reachable. pose proof buf_inv_start as Hi. revert Hi. generalize start. intros c0 Hi Hr.
  induction Hr as [c|c1 c2 c3 [a Ha] _ IH]; [done|]. by apply IH, (inv_act a c1).
Qed.

(** *** Progress *)

Lemma sum_bool_le {A} (f : A → bool) (l : list A) : Σ (Nat.b2n ∘ f) l ≤ length l.
Proof. induction l as [|x l IH]; simpl; [done|]. destruct (f x); simpl; lia. Qed.

Lemma made_total c : inv c → Σ made (producers c) ≤ total_to_be_produced.
Proof.
  intros Hi. unfold total_to_be_produced. rewrite <- (inv_producers c Hi). pose proof (inv_bound c Hi) as Hb.
  unfold PRODUCES_PER_PRODUCER in *. induction (producers c) as [|p l IH]; [done|]. cbn [sum_list_with length]. pose proof (Hb 0 p eq_refl).
  assert (Σ made l ≤ length l * 20) by (apply IH; intros t; apply (Hb (S t))). lia.
Qed.

Lemma items_total c : inv c → consumed_total c + count c = Σ made (producers c).
Proof.
  intros Hi. rewrite <- (inv_made c Hi), (inv_fifo c Hi), length_app, (inv_consumed c Hi), length_ring. done.
Qed.

(** There is always a thread for a signal to wake. *)
Lemma signal_some {A} (asleep : A → bool) wake (l : list A) : ∃ j l', signal asleep wake j l = Some l'.
Proof.
  unfold signal. destruct (existsb asleep l) eqn:E; [|by exists 0; eexists].
  rewrite existsb_sum in E. apply Nat.ltb_lt, sum_pos in E as (j & x & Hj & Hx). exists j. rewrite Hj.
  simpl in Hx. destruct (asleep x); [by eexists|simpl in Hx; lia].
Qed.

(** An action that is not a spurious wake-up. *)
Definition real (a : action) : bool := match a with SpuriousProducer _ | SpuriousConsumer _ => false | _ => true end.

Definition advances (c : config) : Prop := ∃ a c', real a = true ∧ act a c = Some c'.

Lemma produce_some c t i : ∃ j c', produce t i j c = Some c'.
Proof.
  unfold produce. destruct (count c =? BUFFER_SIZE); [by exists 0; eexists|].
  destruct (signal_some asleep_c wake_c (consumers c)) as (j & cs & Hj). exists j. rewrite Hj. by eexists.
Qed.

Lemma consume_some c t : inv c → ∃ j c', consume t j c = Some c'.
Proof.
  intros Hi. unfold consume. destruct (count c =? 0); [by exists 0; eexists|].
  destruct (lookup_lt_is_Some_2 (buffer c) (out c)) as [x Hx]; [rewrite (inv_buf c Hi); apply Hi|]. rewrite Hx. simpl.
  destruct (signal_some asleep_p wake_p (producers c)) as (j & ps & Hj). exists j. rewrite Hj. by eexists.
Qed.

(** A producer that is not asleep and has not returned can run. *)
Lemma producer_advances c t p :
  producers c !! t = Some p → asleep_p p = false → p ≠ Produced → advances c.
Proof.
  intros Ht Hs Hp. destruct p as [i|i []|]; try done.
  - destruct (i <? PRODUCES_PER_PRODUCER) eqn:Hlt.
    + destruct (produce_some c t i) as (j & c' & Hj). exists (Producer t j), c'. split; [done|]. simpl. by rewrite Ht, Hlt.
    + eexists (Producer t 0), _. split; [done|]. simpl. by rewrite Ht, Hlt.
  - destruct (produce_some c t i) as (j & c' & Hj). exists (Producer t j), c'. split; [done|]. simpl. by rewrite Ht.
Qed.

Lemma consumer_advances c t p :
  inv c → consumers c !! t = Some p → asleep_c p = false → p ≠ Consumed → advances c.
Proof.
  intros Hi Ht Hs Hp. destruct (consume_some c t Hi) as (j & c' & Hj). destruct p as [|[]|]; try done.
  - destruct (total_to_be_produced <=? consumed_total c) eqn:He.
    + eexists (Consumer t 0), _. split; [done|]. simpl. by rewrite Ht, He.
    + exists (Consumer t j), c'. split; [done|]. simpl. by rewrite Ht, He.
  - exists (Consumer t j), c'. split; [done|]. simpl. by rewrite Ht.
Qed.

Lemma producers_left c :
  inv c → Σ made (producers c) < total_to_be_produced → ∃ t p, producers c !! t = Some p ∧ p ≠ Produced.
Proof.
  intros Hi. unfold total_to_be_produced. rewrite <- (inv_producers c Hi). clear Hi.
  induction (producers c) as [|p l IH]; [simpl; lia|]. intros Hs. destruct (decide (p = Produced)) as [->|Hp]; [|by exists 0, p].
  destruct IH as (t & q & Ht & Hq); [cbn [sum_list_with length made] in Hs; unfold PRODUCES_PER_PRODUCER in *; lia|]. by exists (S t), q.
Qed.

Lemma buf_no_deadlock c : inv c → consumed_total c < total_to_be_produced → advances c.
Proof.
  intros Hi Hlt. pose proof (items_total c Hi) as Hsum. pose proof (inv_count c Hi) as Hc.
  destruct (decide (count c = 0)) as [H0|H0].
  - destruct (producers_left c Hi) as (t & p & Ht & Hp); [lia|]. eapply producer_advances; [done| |done].
    destruct (asleep_p p) eqn:Hs; [|done]. exfalso. pose proof (sum_lookup (Nat.b2n ∘ asleep_p) _ _ _ Ht) as Hl.
    simpl in Hl. rewrite Hs in Hl. pose proof (inv_not_full c Hi Hl) as Hf.
    pose proof (sum_bool_le awake_p (producers c)). rewrite (inv_producers c Hi) in *.
    unfold awake_ps, BUFFER_SIZE, NUMBER_OF_PRODUCERS in *. lia.
  - destruct (lookup_lt_is_Some_2 (consumers c) 0) as [p Hp];
      [rewrite (inv_consumers c Hi); unfold NUMBER_OF_CONSUMERS; lia|].
    destruct (asleep_c p) eqn:Hs.
    + pose proof (sum_lookup (Nat.b2n ∘ asleep_c) _ _ _ Hp) as Hl. simpl in Hl. rewrite Hs in Hl.
      pose proof (inv_not_empty c Hi Hl) as Hf. destruct (sum_pos (Nat.b2n ∘ awake_c) (consumers c)) as (t & q & Ht & Hq);
        [unfold awake_cs in Hf; lia|]. destruct q as [|[]|]; simpl in Hq; try lia. by eapply (consumer_advances c t).
    + eapply (consumer_advances c 0); try done. intros ->. pose proof (inv_end c Hi 0 Hp). lia.
Qed.

(** *** Runs are finite *)

(** Threads that can run count one, items still to be moved three each. *)
Definition weight_p (p : producer) : nat := match p with Produce _ | WaitNotFull _ true => 1 | _ => 0 end.
Definition weight_c (p : consumer) : nat := match p with Consume | WaitNotEmpty true => 1 | _ => 0 end.
Definition weight_m (m : main_pc) : nat := match m with JoinProducers => 8 | JoinConsumers => 4 | Returned => 0 end.

Definition work (c : config) : nat :=
  3 * (2 * total_to_be_produced - (Σ made (producers c) + consumed_total c)) +
  Σ weight_p (producers c) + Σ weight_c (consumers c) + weight_m (main_at c).

Lemma signal_weight {A} (asleep : A → bool) (wake : A → A) (f : A → nat) j l l' :
  (∀ x, f (wake x) ≤ f x + 1) → signal asleep wake j l = Some l' → Σ f l' ≤ Σ f l + 1.
Proof.
  intros Hf. unfold signal. destruct (existsb asleep l); [|intros [= <-]; lia].
  destruct (l !! j) as [x|] eqn:Hj; [|done]. destruct (asleep x); [|done]. intros [= <-].
  pose proof (sum_with_insert f l j x (wake x) Hj). specialize (Hf x). lia.
Qed.

Lemma produce_work c t p i j c' :
  inv c → inv c' → producers c !! t = Some p → made p = i → i < PRODUCES_PER_PRODUCER → weight_p p = 1 →
  produce t i j c = Some c' → work c' < work c.
Proof.
  intros Hi Hi' Ht Hm Hlt Hw Hp. pose proof (items_total c Hi) as H1. pose proof (made_total c Hi) as H2.
  pose proof (made_total c' Hi') as H3. unfold produce in Hp. unfold work.
  pose proof (sum_with_insert made _ _ _ (WaitNotFull i false) Ht). pose proof (sum_with_insert weight_p _ _ _ (WaitNotFull i false) Ht).
  pose proof (sum_with_insert made _ _ _ (Produce (i + 1)) Ht). pose proof (sum_with_insert weight_p _ _ _ (Produce (i + 1)) Ht).
  destruct (Nat.eqb_spec (count c) BUFFER_SIZE) as [Hc|Hc].
  - injection Hp as <-. cbn [producers consumers main_at consumed_total made weight_p] in *. lia.
  - destruct (signal asleep_c wake_c j (consumers c)) as [cs|] eqn:Hsig; [|done].
    apply (signal_weight _ _ weight_c) in Hsig; [|intros [|[]|]; simpl; lia]. injection Hp as <-.
    cbn [producers consumers main_at consumed_total made weight_p] in *. lia.
Qed.

Lemma consume_work c t p j c' :
  inv c → consumers c !! t = Some p → weight_c p = 1 → consume t j c = Some c' → work c' < work c.
Proof.
  intros Hi Ht Hw Hp. pose proof (items_total c Hi) as H1. pose proof (made_total c Hi) as H2. unfold consume in Hp. unfold work.
  pose proof (sum_with_insert weight_c _ _ _ (WaitNotEmpty false) Ht). pose proof (sum_with_insert weight_c _ _ _ Consume Ht).
  destruct (Nat.eqb_spec (count c) 0) as [Hc|Hc].
  - injection Hp as <-. cbn [producers consumers main_at consumed_total weight_c] in *. lia.
  - destruct (buffer c !! out c) as [x|] eqn:Hx; [|done]. simpl in Hp.
    destruct (signal asleep_p wake_p j (producers c)) as [ps|] eqn:Hsig; [|done].
    destruct (signal_p_sum _ _ _ Hsig) as (Hmade & _).
    apply (signal_weight _ _ weight_p) in Hsig; [|intros [|? []|]; simpl; lia]. injection Hp as <-.
    cbn [producers consumers main_at consumed_total weight_c] in *. lia.
Qed.

Lemma wake_all_weight (l : list consumer) : Σ weight_c (wake_c <$> l) ≤ length l.
Proof. induction l as [|[|w|] l IH]; csimpl; lia. Qed.

Lemma act_work a c c' : inv c → real a = true → act a c = Some c' → work c' < work c.
Proof.
  intros Hi Hr Ha. pose proof (inv_act a c c' Hi Ha) as Hi'. destruct a as [t j|t j|t|t|]; try done; cbn [act] in Ha.
  - destruct (producers c !! t) as [[i|i []|]|] eqn:Ht; try done.
    + destruct (Nat.ltb_spec i PRODUCES_PER_PRODUCER) as [Hlt|Hge]; [by eapply produce_work|].
      pose proof (inv_bound c Hi t _ Ht). injection Ha as <-. unfold work.
      pose proof (sum_with_insert made _ _ _ Produced Ht). pose proof (sum_with_insert weight_p _ _ _ Produced Ht).
      cbn [producers consumers main_at consumed_total made weight_p] in *. lia.
    + eapply produce_work; try done. by eapply (inv_waiting c Hi).
  - destruct (consumers c !! t) as [[|[]|]|] eqn:Ht; try done.
    + destruct (total_to_be_produced <=? consumed_total c); [|by eapply consume_work]. injection Ha as <-. unfold work.
      pose proof (sum_with_insert weight_c _ _ _ Consumed Ht). cbn [producers consumers main_at consumed_total weight_c] in *. lia.
    + by eapply consume_work.
  - unfold work. destruct (main_at c) eqn:Hm; [| |done]; case_match; simplify_eq;
      cbn [producers consumers main_at consumed_total weight_m]; [|lia].
    pose proof (wake_all_weight (consumers c)). rewrite (inv_consumers c Hi) in *. unfold NUMBER_OF_CONSUMERS in *. lia.
Qed.

(** A step that is not a spurious wake-up. *)
Definition real_step (c c' : config) : Prop := ∃ a, real a = true ∧ act a c = Some c'.

Lemma real_run_length m c c' : inv c → nsteps real_step m c c' → m + work c' ≤ work c.
Proof.
  intros Hi Hr. induction Hr as [c|m c1 c2 c3 (a & Hr & Ha) _ IH]; [lia|].
  pose proof (act_work a c1 c2 Hi Hr Ha). pose proof (IH (inv_act a c1 c2 Hi Ha)). lia.
Qed.

(** *** The end that does not come *)

(** Everything has been consumed and consumer [t] waits for more. *)
Definition stuck (t : nat) (c : config) : Prop :=
  count c = 0 ∧ Forall (λ p, p = Produced) (producers c) ∧ ∃ w, consumers c !! t = Some (WaitNotEmpty w).

Lemma stuck_act t a c c' : stuck t c → act a c = Some c' → stuck t c'.
Proof.
  intros (Hc & Hp & w & Ht) Ha. destruct a as [u j|u j|u|u|]; cbn [act] in Ha.
  - destruct (producers c !! u) as [p|] eqn:Hu; [|done]. rewrite Forall_forall in Hp.
    rewrite (Hp p) in Ha by (by eapply list_elem_of_lookup_2). done.
  - assert (∀ c', consume u j c = Some c' → stuck t c') as Hcons.
    { intros c1 Hc1. unfold consume in Hc1. rewrite Hc in Hc1. simpl in Hc1. simplify_eq. split; [done|]. split; [done|].
      simpl. destruct (decide (u = t)) as [->|Hne]; [|rewrite list_lookup_insert_ne by done; by exists w].
      exists false. apply list_lookup_insert_eq. by eapply lookup_lt_Some. }
    destruct (consumers c !! u) as [[|[]|]|] eqn:Hu; try done; [|by apply Hcons].
    destruct (total_to_be_produced <=? consumed_total c); [|by apply Hcons]. simplify_eq. split; [done|]. split; [done|].
    simpl. exists w. rewrite list_lookup_insert_ne; [done|]. intros ->. congruence.
  - simplify_eq. split; [done|]. split; [|by exists w]. simpl. rewrite alter_lookup.
    destruct (producers c !! u) as [p|] eqn:Hu; [|done]. apply Forall_insert; [done|]. rewrite Forall_forall in Hp.
    by rewrite (Hp p) by (by eapply list_elem_of_lookup_2).
  - simplify_eq. split; [done|]. split; [done|]. simpl. destruct (decide (u = t)) as [->|Hne].
    + rewrite list_lookup_alter_eq, Ht. by exists true.
    + rewrite list_lookup_alter_ne by done. by exists w.
  - destruct (main_at c); [| |done]; case_match; simplify_eq; (split; [done|]; split; [done|]); simpl; [|by exists w].
    rewrite list_lookup_fmap, Ht. by exists true.
Qed.

Lemma stuck_main t a c c' : stuck t c → main_at c = JoinConsumers → act a c = Some c' → main_at c' = JoinConsumers.
Proof.
  intros (_ & _ & w & Ht) Hm Ha. destruct a; cbn [act] in Ha; unfold produce, consume, mbind, option_bind in Ha;
    repeat case_match; simplify_eq/=; try done.
  match goal with H : forallb _ (consumers c) = true |- _ => rewrite forallb_forall in H; rename H into Hall end.
  specialize (Hall (WaitNotEmpty w)). rewrite bool_decide_eq_true in Hall.
  by discriminate Hall; apply list_elem_of_In, (list_elem_of_lookup_2 _ t).
Qed.

Lemma stuck_forever t c c' :
  stuck t c → main_at c = JoinConsumers → rtc step c c' → stuck t c' ∧ main_at c' = JoinConsumers.
Proof.
  intros Hs Hm Hr. induction Hr as [|c1 c2 c3 [a Ha] _ IH]; [done|]. apply IH; [by eapply stuck_act|by eapply stuck_main].
Qed.

Lemma run_reachable l c c' : run l c = Some c' → rtc step c c'.
Proof.
  revert c. induction l as [|a l IH]; intros c; simpl; [intros [= <-]; apply rtc_refl|].
  destruct (act a c) as [c1|] eqn:Ha; [|done]. intros Hr. eapply rtc_l; [by exists a|by apply IH].
Qed.

(** Consumer 0 finds the buffer empty and waits; consumer 1 then takes every
    item before consumer 0 runs again. *)
Definition schedule : list action :=
  [Consumer 0 0] ++
  mjoin ((λ t, replicate 20 (Producer t 0) ++ replicate 20 (Consumer 1 0)) <$> seq 0 4) ++
  ((λ t, Producer t 0) <$> seq 0 4) ++
  [Consumer 0 0; Consumer 1 0; Consumer 2 0; Main; Consumer 0 0].

Definition hung : config := Eval vm_compute in default start (run schedule start).

Lemma hung_run : run schedule start = Some hung.
Proof. vm_compute. reflexivity. Qed.

Lemma hung_stuck : stuck 0 hung.
Proof. split; [reflexivity|]. split; [repeat constructor|]. exists false. reflexivity. Qed.

(** ** The properties *)

(** The buffer is a bounded queue: in every reachable state, spurious
    wake-ups included, the items taken out are, in order, the first of those
    put in and the rest lie in the ring from [out] on; there are never more
    than [BUFFER_SIZE], both indices stay inside the array, and no more than the
    80 items are ever consumed. *)
Theorem buffer_fifo c :
  reachable c →
  items_in c = items_out c ++ ring (buffer c) (out c) (count c) ∧
  count c ≤ BUFFER_SIZE ∧ in_ c < BUFFER_SIZE ∧ out c < BUFFER_SIZE ∧
  consumed_total c = length (items_out c) ∧ consumed_total c + count c ≤ total_to_be_produced.
Proof.
  intros Hi%buf_inv_reachable. split; [apply Hi|]. split; [apply Hi|]. split; [|split; [apply Hi|]; split; [apply Hi|]].
  - rewrite (inv_in c Hi). by apply Nat.mod_upper_bound.
  - rewrite (items_total c Hi). by apply made_total.
Qed.

(** C36: no wake-up is lost and no run goes on for ever: as long as items are
    missing some thread can go on without spurious wake-ups, and no run without
    them has more than 495 actions; so every such run consumes all 80 items. *)
Theorem buffer_live m c :
  nsteps real_step m start c →
  m ≤ 495 ∧ (consumed_total c < total_to_be_produced → ∃ c', real_step c c').
Proof.
  intros Hr. assert (inv c) as Hi.
  { clear -Hr. pose proof buf_inv_start as Hi. revert Hi. induction Hr as [|m c1 c2 c3 (a & _ & Ha) _ IH]; [done|].
    intros Hi. by apply IH, (inv_act a c1). }
  split.
  - pose proof (real_run_length m start c buf_inv_start Hr) as Hl. assert (work start = 495) as E by reflexivity. lia.
  - intros Hlt. destruct (buf_no_deadlock c Hi Hlt) as (a & c' & Hreal & Ha). by exists c', a.
Qed.

(** The program may hang at its end: there is a run after which all 80 items
    are consumed, the producers have returned and [main] has sent its broadcast
    and joins the consumers, while consumer 0, which tests for the end only
    before it waits, waits for an item that never comes. *)
Theorem consumer_may_hang :
  ∃ c, reachable c ∧ consumed_total c = total_to_be_produced ∧ main_at c = JoinConsumers ∧
    ∀ c', rtc step c c' → (∃ w, consumers c' !! 0 = Some (WaitNotEmpty w)) ∧ main_at c' = JoinConsumers.
Proof.
  exists hung. split; [apply (run_reachable _ _ _ hung_run)|]. split; [reflexivity|]. split; [reflexivity|].
  intros c' Hr. destruct (stuck_forever 0 hung c' hung_stuck eq_refl Hr) as [(_ & _ & Hw) Hm']. done.
Qed.

Lemma buffer_fifo_witness :
  items_in hung = items_out hung ++ ring (buffer hung) (out hung) (count hung) ∧ consumed_total hung = 80.
Proof. split; [apply (buffer_fifo hung), (run_reachable _ _ _ hung_run)|reflexivity]. Defined.

Definition first_item : config := Eval vm_compute in default start (act (Producer 0 0) start).

Lemma buffer_live_witness : ∃ c', real_step first_item c'.
Proof.
  apply (buffer_live 1 first_item).
  - eapply nsteps_l; [|apply nsteps_O]. exists (Producer 0 0). split; reflexivity.
  - apply Nat.ltb_lt. reflexivity.
Defined.

End BufferSpec.
