(* ===== verification/SkipList.v ===== *)
(** * Skip list and Bloom filter: [day-9(skip-list)/]

    [Skip] is [skip-list.c] over a memory of nodes with their [forward] arrays;
    the draws of [rand()] are an argument of [insert].  [SkipSpec] relates the
    memory to a sorted sequence of keys with their heights, level by level.
    [Bloom] is [bloom-filter.c]. *)
From stdpp Require Import base list gmap strings pretty sorting.
From Stdlib Require Import ZArith Lia.
From Stdlib Require Ascii String.
From S2P Require Import Prelude.

Module Skip.

Definition MAX_LEVEL : nat := 6.

Abbreviation loc := positive.

Record SkipListNode : Set := mkNode { key : Z; forward : list ptr }.

(** The nodes, and the [level] and [header] of the list. *)
Record SkipList : Set := mkSkipList { heap : gmap loc SkipListNode; level : nat; header : loc }.

(** [malloc] with the loop that clears the pointers. *)
Definition createNode (key : Z) (level : nat) (h : gmap loc SkipListNode) : loc * gmap loc SkipListNode :=
  malloc h (mkNode key (replicate (level + 1) None)).

Definition createSkipList : SkipList :=
  let '(l, h) := createNode (-1) MAX_LEVEL ∅ in mkSkipList h 0 l.

(** A draw is [true] when [rand()/(double)RAND_MAX < P_FACTOR]. *)
Fixpoint generateRandomLevel (draws : list bool) (level : nat) : nat :=
  match draws with
  | true :: draws => if level <? MAX_LEVEL then generateRandomLevel draws (level + 1) else level
  | _ => level
  end.

Definition rd (p : ptr) : C SkipList SkipListNode := s ← get; lift (load (heap s) p).

(** [p->forward[i]] and [p->forward[i] = v]. *)
Definition get_forward (p : ptr) (i : nat) : C SkipList ptr := n ← rd p; lift (aget (forward n) (Z.of_nat i)).

Definition set_forward (p : ptr) (i : nat) (v : ptr) : C SkipList unit :=
  n ← rd p;
  f ← lift (aset (forward n) (Z.of_nat i) v);
  s ← get;
  h ← lift (store (heap s) p (mkNode (key n) f));
  put (mkSkipList h (level s) (header s)).

(** [while(current->forward[i] && current->forward[i]->key < key)]. *)
Fixpoint walk (fuel i : nat) (k : Z) (current : ptr) : C SkipList ptr :=
  match fuel with
  | 0 => lift (UB OutOfFuel)
  | S fuel =>
      next ← get_forward current i;
      match next with
      | None => mret current
      | Some _ =>
          n ← rd next;
          if (key n <? k)%Z then walk fuel i k next else mret current
      end
  end.

(** The loop over the levels, from [i - 1] down; [update] gets the node at which
    each level is left. *)
Fixpoint descend (fuel i : nat) (k : Z) (current : ptr) (update : list (option ptr))
    : C SkipList (ptr * list (option ptr)) :=
  match i with
  | 0 => mret (current, update)
  | S i =>
      current ← walk fuel i k current;
      update ← lift (aset update (Z.of_nat i) (Some current));
      descend fuel i k current update
  end.

(** The top of [search], [insert] and [delete]: the first node that is not
    smaller, and [update]. *)
Definition locate (k : Z) : C SkipList (ptr * list (option ptr)) :=
  s ← get;
  r ← descend (S (size (heap s))) (level s + 1) k (Some (header s)) (replicate (MAX_LEVEL + 1) None);
  current ← get_forward (fst r) 0;
  mret (current, snd r).

(** [current && current->key == key]. *)
Definition has_key (current : ptr) (k : Z) : C SkipList bool :=
  match current with
  | None => mret false
  | Some _ => n ← rd current; mret (key n =? k)%Z
  end.

Definition search (k : Z) : C SkipList ptr :=
  r ← locate k;
  b ← has_key (fst r) k;
  mret (if b : bool then fst r else None).

(** [for(iterator = list->level; iterator <= newLevel; iterator++)
      update[iterator] = list->header;] *)
Fixpoint raise (n i : nat) (header : ptr) (update : list (option ptr)) : res (list (option ptr)) :=
  match n with
  | 0 => Ok update
  | S n => update ← aset update (Z.of_nat i) (Some header); raise n (i + 1) header update
  end.

(** The loop that links the new node, [n] levels from [i] on. *)
Fixpoint link (n i : nat) (newNode : ptr) (update : list (option ptr)) : C SkipList unit :=
  match n with
  | 0 => mret tt
  | S n =>
      u ← lift (uget update (Z.of_nat i));
      next ← get_forward u i;
      set_forward newNode i next ;;
      set_forward u i newNode ;;
      link n (i + 1) newNode update
  end.

Definition insert (draws : list bool) (k : Z) : C SkipList unit :=
  r ← locate k;
  b ← has_key (fst r) k;
  if b : bool then mret tt
  else
    let newLevel := generateRandomLevel draws 0 in
    s ← get;
    update ←
      (if level s <? newLevel then
         update ← lift (raise (newLevel + 1 - level s) (level s) (Some (header s)) (snd r));
         put (mkSkipList (heap s) newLevel (header s)) ;;
         mret update
       else mret (snd r));
    s ← get;
    let '(l, h) := createNode k newLevel (heap s) in
    put (mkSkipList h (level s) (header s)) ;;
    link (newLevel + 1) 0 (Some l) update.

(** The loop that unlinks [current], [n] levels from [i] on. *)
Fixpoint unlink (n i : nat) (current : ptr) (update : list (option ptr)) : C SkipList unit :=
  match n with
  | 0 => mret tt
  | S n =>
      u ← lift (uget update (Z.of_nat i));
      next ← get_forward u i;
      if decide (current = next) then
        after ← get_forward current i;
        set_forward u i after ;;
        unlink n (i + 1) current update
      else mret tt
  end.

(** [while(list->level > 0 && list->header->forward[list->level] == NULL)]. *)
Fixpoint lower (n : nat) : C SkipList unit :=
  match n with
  | 0 => mret tt
  | S n' =>
      s ← get;
      top ← get_forward (Some (header s)) n;
      match top with
      | None => put (mkSkipList (heap s) n' (header s)) ;; lower n'
      | Some _ => mret tt
      end
  end.

Definition delete (k : Z) : C SkipList unit :=
  r ← locate k;
  b ← has_key (fst r) k;
  if b : bool then
    s ← get;
    unlink (level s + 1) 0 (fst r) (snd r) ;;
    s ← get;
    h ← lift (free (heap s) (fst r));
    put (mkSkipList h (level s) (header s)) ;;
    lower (level s)
  else mret tt.

(** The inner loop of [display]. *)
Fixpoint display_level (fuel i : nat) (p : ptr) : C SkipList unit :=
  match p with
  | None => mret tt
  | Some _ =>
      match fuel with
      | 0 => lift (UB OutOfFuel)
      | S fuel =>
          n ← rd p;
          printf (d (key n) +:+ " ") ;;
          next ← get_forward p i;
          display_level fuel i next
      end
  end.

Fixpoint display_loop (n : nat) : C SkipList unit :=
  match n with
  | 0 => mret tt
  | S i =>
      s ← get;
      first ← get_forward (Some (header s)) i;
      printf ("Level " +:+ d (Z.of_nat i) +:+ " : " +:+ nl) ;;
      display_level (size (heap s)) i first ;;
      printf nl ;;
      display_loop i
  end.

Definition display : C SkipList unit :=
  printf ("----------SKIP LIST-----------" +:+ nl) ;;
  s ← get; display_loop (level s + 1).

Definition found (p : ptr) : string := match p with Some _ => "Found" | None => "Not Found" end.

Definition report (k : Z) : C SkipList unit :=
  p ← search k; printf (nl +:+ " Searching for " +:+ d k +:+ " : " +:+ found p +:+ " " +:+ nl).

(** [main], with the draws of its five insertions. *)
Definition main (draws : nat → list bool) : C SkipList unit :=
  insert (draws 0) 10 ;; insert (draws 1) 20 ;; insert (draws 2) 30 ;; insert (draws 3) 40 ;; insert (draws 4) 25 ;;
  display ;;
  report 25 ;; report 28 ;;
  printf (nl +:+ " Deleting for 25.." +:+ nl) ;;
  delete 25 ;;
  display ;;
  report 25.

End Skip.

(** ** The list behind the memory *)
Module SkipSpec.
Import Skip.

(** A node with its key and the highest level it is linked into. *)
Record nd : Set := mknd { nloc : loc; nkey : Z; nheight : nat }.

(** The nodes of level [i]. *)
Definition tall (i : nat) (ns : list nd) : list nd := filter (λ n, i ≤ nheight n) ns.

Definition fwd (h : gmap loc SkipListNode) (l : loc) (i : nat) : option ptr := n ← h !! l; forward n !! i.
Definition key_of (h : gmap loc SkipListNode) (l : loc) : option Z := key <$> h !! l.

(** The pointers of level [i] from node [c] on visit exactly [ls]. *)
Fixpoint lchain (h : gmap loc SkipListNode) (i : nat) (c : loc) (ls : list loc) : Prop :=
  match ls with
  | [] => fwd h c i = Some None
  | l :: ls => fwd h c i = Some (Some l) ∧ lchain h i l ls
  end.

Fixpoint lastl (c : loc) (ls : list loc) : loc := match ls with [] => c | l :: ls => lastl l ls end.

Record rep (s : SkipList) (ns : list nd) : Prop := mkrep {
  rep_nodup : NoDup (header s :: (nloc <$> ns));
  rep_dom : dom (heap s) = list_to_set (header s :: (nloc <$> ns));
  rep_key n : n ∈ ns → key_of (heap s) (nloc n) = Some (nkey n);
  rep_chain i : i ≤ MAX_LEVEL → lchain (heap s) i (header s) (nloc <$> tall i ns);
  rep_height : Forall (λ n, nheight n ≤ level s) ns;
  rep_level : level s ≤ MAX_LEVEL
}.

Definition ordered (ns : list nd) : Prop := sorted_keys nkey ns.

(** *** Chains *)

Lemma lchain_ext h h' i c ls : (∀ l, fwd h' l i = fwd h l i) → lchain h i c ls → lchain h' i c ls.
Proof.
  intros He. revert c. induction ls as [|l ls IH]; intros c; simpl; rewrite He; [done|]. intros [? ?]. split; [done|by apply IH].
Qed.

Lemma lchain_ext_in h h' i c ls : (∀ l, l ∈ c :: ls → fwd h' l i = fwd h l i) → lchain h i c ls → lchain h' i c ls.
Proof.
  revert c. induction ls as [|l ls IH]; intros c He; simpl; rewrite He by (by left); [done|].
  intros [? ?]. split; [done|]. apply IH; [|done]. intros x Hx. apply He. by right.
Qed.

Lemma lchain_app h i c l1 l2 : lchain h i c (l1 ++ l2) → lchain h i (lastl c l1) l2.
Proof. revert c. induction l1 as [|l l1 IH]; intros c; simpl; [done|]. intros [_ H]. by apply IH. Qed.

Lemma lastl_in c ls : lastl c ls ∈ c :: ls.
Proof. revert c. induction ls as [|l ls IH]; intros c; simpl; [by left|right; apply IH]. Qed.

Lemma lastl_app c l1 l2 : lastl c (l1 ++ l2) = lastl (lastl c l1) l2.
Proof. revert c. induction l1 as [|l l1 IH]; intros c; simpl; [done|apply IH]. Qed.

Lemma lchain_next h i c ls : lchain h i c ls → fwd h c i = Some (head ls).
Proof. destruct ls; simpl; [done|tauto]. Qed.

(** A node is put into a level. *)
Lemma lchain_link h h' i c l1 l2 x :
  lchain h i c (l1 ++ l2) → NoDup (c :: l1 ++ l2) → x ∉ c :: l1 ++ l2 →
  fwd h' x i = Some (head l2) → fwd h' (lastl c l1) i = Some (Some x) →
  (∀ l, l ≠ x → l ≠ lastl c l1 → fwd h' l i = fwd h l i) → lchain h' i c (l1 ++ x :: l2).
Proof.
  revert c. induction l1 as [|l l1 IH]; intros c Hc Hn Hx H1 H2 He; simpl in *.
  - split; [done|]. destruct l2 as [|l l2]; [done|]. simpl in *. destruct Hc as [_ Hc]. split; [done|].
    apply NoDup_cons in Hn as [Hn Hn2]. eapply lchain_ext_in; [|exact Hc]. intros y Hy. apply He; set_solver.
  - destruct Hc as [Hcl Hc]. apply NoDup_cons in Hn as [Hn Hn2]. split.
    + rewrite He; [done|set_solver|]. intros ->. apply Hn. pose proof (lastl_in l l1). set_solver.
    + apply IH; try done. set_solver.
Qed.

(** A node is taken out of a level. *)
Lemma lchain_unlink h h' i c l1 l2 x :
  lchain h i c (l1 ++ x :: l2) → NoDup (c :: l1 ++ x :: l2) →
  fwd h' (lastl c l1) i = Some (head l2) → (∀ l, l ≠ lastl c l1 → fwd h' l i = fwd h l i) → lchain h' i c (l1 ++ l2).
Proof.
  revert c. induction l1 as [|l l1 IH]; intros c Hc Hn H1 He; simpl in *.
  - apply NoDup_cons in Hn as [Hn Hn2]. destruct Hc as [_ Hc]. destruct l2 as [|l l2]; [done|]. simpl in *.
    split; [done|]. destruct Hc as [_ Hc]. eapply lchain_ext_in; [|exact Hc]. intros y Hy. apply He. set_solver.
  - destruct Hc as [Hcl Hc]. apply NoDup_cons in Hn as [Hn Hn2]. split.
    + rewrite He; [done|]. intros ->. apply Hn. pose proof (lastl_in l l1). set_solver.
    + by apply IH.
Qed.

(** *** Levels *)

Lemma tall_app i a b : tall i (a ++ b) = tall i a ++ tall i b.
Proof. unfold tall. by rewrite filter_app. Qed.

Lemma tall_0 ns : tall 0 ns = ns.
Proof. unfold tall. induction ns as [|n ns IH]; [done|]. rewrite filter_cons_True by lia. by rewrite IH. Qed.

Lemma tall_elem i ns n : n ∈ tall i ns ↔ i ≤ nheight n ∧ n ∈ ns.
Proof. unfold tall. by rewrite list_elem_of_filter. Qed.

Lemma tall_high i ns : Forall (λ n, nheight n < i) ns → tall i ns = [].
Proof. induction 1 as [|n ns Hn _ IH]; [done|]. unfold tall in *. rewrite filter_cons_False by lia. done. Qed.

Lemma tall_cons i n ns : tall i (n :: ns) = if decide (i ≤ nheight n) then n :: tall i ns else tall i ns.
Proof. unfold tall. by rewrite filter_cons. Qed.

(** The last node of a level is on the level below. *)
Lemma tall_below i c lo :
  ∃ a b, tall i lo = a ++ b ∧ lastl c (nloc <$> a) = lastl c (nloc <$> tall (S i) lo).
Proof.
  induction lo as [|n lo IH] using rev_ind; [by exists [], []|]. destruct IH as (a & b & Ha & Hl).
  rewrite !tall_app, !(tall_cons _ n). destruct (decide (S i ≤ nheight n)) as [H1|H1].
  - exists (tall i lo ++ [n]), []. rewrite decide_True by lia. rewrite app_nil_r. split; [done|].
    by rewrite !fmap_app, !lastl_app.
  - rewrite app_nil_r. change (tall i []) with (@nil nd). destruct (decide (i ≤ nheight n)).
    + exists a, (b ++ [n]). by rewrite Ha, <- app_assoc.
    + exists a, b. by rewrite app_nil_r.
Qed.

Lemma tall_sublist i ns : tall i ns `sublist_of` ns.
Proof. apply sublist_filter. Qed.

Lemma locs_sublist (a b : list nd) : a `sublist_of` b → (nloc <$> a) `sublist_of` (nloc <$> b).
Proof. induction 1; csimpl; by constructor. Qed.

Lemma level_nodup (c : loc) i ns : NoDup (c :: (nloc <$> ns)) → NoDup (c :: (nloc <$> tall i ns)).
Proof. intros Hn. eapply sublist_NoDup; [exact Hn|]. apply sublist_skip, locs_sublist, tall_sublist. Qed.

(** *** Reading and writing pointers *)

Ltac srun H := refine (bind_Ok _ _ _ _ _ [] _ _ [] H _).

Lemma sk_rd_ok s l n : heap s !! l = Some n → rd (Some l) s = Ok (n, s, []).
Proof. intros Hl. unfold rd. srun (eq_refl : get s = Ok (s, s, [])). apply lift_Ok, load_Some, Hl. Qed.

Lemma fwd_cell h l i v : fwd h l i = Some v → ∃ n, h !! l = Some n ∧ forward n !! i = Some v.
Proof. unfold fwd. destruct (h !! l) as [n|]; [|done]. simpl. by exists n. Qed.

Lemma get_forward_ok s l i v : fwd (heap s) l i = Some v → get_forward (Some l) i s = Ok (v, s, []).
Proof.
  intros (n & Hn & Hv)%fwd_cell. unfold get_forward. srun (sk_rd_ok s l n Hn). by apply lift_Ok, aget_lookup.
Qed.

(** What a write changes. *)
Definition written (h h' : gmap loc SkipListNode) (l : loc) (i : nat) (v : ptr) : Prop :=
  dom h' = dom h ∧ (∀ x, key_of h' x = key_of h x) ∧ fwd h' l i = Some v ∧
  (∀ x j, x ≠ l ∨ j ≠ i → fwd h' x j = fwd h x j).

Lemma set_forward_ok s l i v0 v :
  fwd (heap s) l i = Some v0 →
  ∃ s', set_forward (Some l) i v s = Ok (tt, s', []) ∧ written (heap s) (heap s') l i v ∧
    level s' = level s ∧ header s' = header s.
Proof.
  intros (n & Hn & Hv)%fwd_cell. apply lookup_lt_Some in Hv as Hlt.
  eexists (mkSkipList (<[l := mkNode (key n) (<[i := v]> (forward n))]> (heap s)) (level s) (header s)). split_and!; try done.
  - unfold set_forward. srun (sk_rd_ok s l n Hn).
    srun (lift_Ok (aset (forward n) (Z.of_nat i) v) s _ (aset_nat _ i v Hlt)).
    srun (eq_refl : get s = Ok (s, s, [])).
    srun (lift_Ok (store (heap s) (Some l) (mkNode (key n) (<[i := v]> (forward n)))) s _ (store_Some _ _ _ _ Hn)). done.
  - simpl. split; [apply dom_insert_lookup_L; by eexists|]. split; [|split].
    + intros x. unfold key_of. destruct (decide (l = x)) as [<-|Hx]; [by rewrite lookup_insert_eq, Hn|by rewrite lookup_insert_ne].
    + unfold fwd. rewrite lookup_insert_eq. simpl. by apply list_lookup_insert_eq.
    + intros x j Hx. unfold fwd. destruct (decide (l = x)) as [<-|Hlx]; [|by rewrite lookup_insert_ne].
      rewrite lookup_insert_eq, Hn. simpl. apply list_lookup_insert_ne. naive_solver.
Qed.

(** *** Finding a place *)

Definition split_at (k : Z) (ns lo hi : list nd) : Prop :=
  ns = lo ++ hi ∧ Forall (λ n, (nkey n < k)%Z) lo ∧ Forall (λ n, (k ≤ nkey n)%Z) hi.

Lemma split_exists k ns : ordered ns → ∃ lo hi, split_at k ns lo hi.
Proof.
  unfold ordered, sorted_keys. induction 1 as [|n ns Hs IH Hn]; [by exists [], []|].
  destruct (decide (nkey n < k)%Z) as [Hk|Hk].
  - destruct IH as (lo & hi & -> & Hlo & Hhi). exists (n :: lo), hi. split; [done|]. split; [by constructor|done].
  - exists [], (n :: ns). split; [done|]. split; [constructor|]. constructor; [lia|].
    eapply Forall_impl; [exact Hn|]. unfold key_lt. simpl. intros. lia.
Qed.

Lemma tall_Forall (P : nd → Prop) i ns : Forall P ns → Forall P (tall i ns).
Proof. rewrite !Forall_forall. intros H n Hn%tall_elem. apply H, Hn. Qed.

Lemma walk_ok s i k b1 b2 : ∀ fuel c,
  lchain (heap s) i c (nloc <$> b1 ++ b2) → (∀ n, n ∈ b1 ++ b2 → key_of (heap s) (nloc n) = Some (nkey n)) →
  Forall (λ n, (nkey n < k)%Z) b1 → Forall (λ n, (k ≤ nkey n)%Z) b2 → length b1 < fuel →
  walk fuel i k (Some c) s = Ok (Some (lastl c (nloc <$> b1)), s, []).
Proof.
  induction b1 as [|n b1 IH]; intros [|fuel] c Hc Hk H1 H2 Hf; simpl in Hf; try lia; cbn [walk].
  - srun (get_forward_ok s c i _ (lchain_next _ _ _ _ Hc)). destruct b2 as [|n b2]; [done|]. csimpl.
    specialize (Hk n (list_elem_of_here _ _)). unfold key_of in Hk. apply fmap_Some in Hk as (x & Hx & Hkx).
    srun (sk_rd_ok s _ x Hx). apply Forall_inv in H2. rewrite <- Hkx. by destruct (Z.ltb_spec (nkey n) k); [lia|].
  - srun (get_forward_ok s c i _ (lchain_next _ _ _ _ Hc)). csimpl.
    pose proof (Hk n (list_elem_of_here _ _)) as Hkn. unfold key_of in Hkn. apply fmap_Some in Hkn as (x & Hx & Hkx).
    srun (sk_rd_ok s _ x Hx). apply Forall_cons in H1 as [Hn H1]. rewrite <- Hkx. destruct (Z.ltb_spec (nkey n) k); [|lia].
    apply IH; try done; [apply Hc| |lia]. intros m Hm. apply Hk. by right.
Qed.

(** The node before the place of the key on level [i]. *)
Definition pred_at (s : SkipList) (i : nat) (lo : list nd) : loc := lastl (header s) (nloc <$> tall i lo).

Lemma skip_rep_size s ns : rep s ns → size (heap s) = S (length ns).
Proof.
  intros Hr. rewrite <- size_dom, (rep_dom _ _ Hr), size_list_to_set by apply (rep_nodup _ _ Hr).
  simpl. by rewrite length_fmap.
Qed.

Lemma skip_descend_ok s ns k lo hi : rep s ns → split_at k ns lo hi → ∀ i c update,
  i ≤ MAX_LEVEL + 1 → length update = MAX_LEVEL + 1 → c = pred_at s i lo →
  ∃ update', descend (S (size (heap s))) i k (Some c) update s = Ok ((Some (pred_at s 0 lo), update'), s, []) ∧
    length update' = MAX_LEVEL + 1 ∧
    (∀ j, j < i → update' !! j = Some (Some (Some (pred_at s j lo)))) ∧ (∀ j, i ≤ j → update' !! j = update !! j).
Proof.
  intros Hr (Hns & Hlo & Hhi) i. induction i as [|i IH]; intros c update Hi Hl ->; cbn [descend].
  - exists update. split; [done|]. split; [done|]. split; [intros j Hj; lia|done].
  - pose proof (rep_chain _ _ Hr i ltac:(lia)) as Hc. rewrite Hns, tall_app in Hc.
    destruct (tall_below i (header s) lo) as (a & b & Hab & Hlast). rewrite Hab, <- app_assoc, fmap_app in Hc.
    apply lchain_app in Hc. rewrite Hlast in Hc. change (lastl _ _) with (pred_at s (S i) lo) in Hc.
    assert (pred_at s i lo = lastl (pred_at s (S i) lo) (nloc <$> b)) as Hp.
    { unfold pred_at. by rewrite Hab, fmap_app, lastl_app, Hlast. }
    assert (walk (S (size (heap s))) i k (Some (pred_at s (S i) lo)) s = Ok (Some (pred_at s i lo), s, [])) as Hw.
    { rewrite Hp. apply (walk_ok s i k b (tall i hi)); [done| | |by apply tall_Forall|].
      - intros n Hn. apply (rep_key _ _ Hr). rewrite Hns. apply elem_of_app.
        apply elem_of_app in Hn as [Hn|Hn]; [left|right; by apply tall_elem in Hn as [_ ?]].
        assert (n ∈ tall i lo) as [_ ?]%tall_elem by (rewrite Hab; set_solver). done.
      - apply (tall_Forall _ i) in Hlo. rewrite Hab in Hlo. by apply Forall_app in Hlo as [_ ?].
      - rewrite (skip_rep_size _ _ Hr), Hns, length_app. pose proof (sublist_length _ _ (tall_sublist i lo)) as Hle.
        rewrite Hab, length_app in Hle. lia. }
    destruct (IH (pred_at s i lo) (<[i := Some (Some (pred_at s i lo))]> update)) as (u & Hu & Hul & Hall & Hrest);
      [lia|by rewrite length_insert|done|].
    exists u. split; [|split; [done|split]].
    + srun Hw. srun (lift_Ok (aset update (Z.of_nat i) (Some (Some (pred_at s i lo)))) s _ (aset_nat update i _ ltac:(lia))). exact Hu.
    + intros j Hj. destruct (decide (j = i)) as [->|]; [|apply Hall; lia]. rewrite Hrest by lia. apply list_lookup_insert_eq. lia.
    + intros j Hj. rewrite Hrest by lia. apply list_lookup_insert_ne. lia.
Qed.

Lemma high_empty s ns lo hi i : rep s ns → ns = lo ++ hi → level s < i → tall i lo = [] ∧ tall i hi = [].
Proof.
  intros Hr -> Hi. pose proof (rep_height _ _ Hr) as Hh. apply Forall_app in Hh as [H1 H2].
  split; apply tall_high; (eapply Forall_impl; [eassumption|simpl; intros; lia]).
Qed.

(** [locate] stops in front of the first key that is not smaller. *)
Lemma locate_ok s ns k lo hi :
  rep s ns → split_at k ns lo hi →
  ∃ update, locate k s = Ok ((head (nloc <$> hi), update), s, []) ∧ length update = MAX_LEVEL + 1 ∧
    ∀ j, j ≤ level s → update !! j = Some (Some (Some (pred_at s j lo))).
Proof.
  intros Hr Hsp. pose proof Hsp as (Hns & _). pose proof (rep_level _ _ Hr) as Hlv.
  destruct (skip_descend_ok s ns k lo hi Hr Hsp (level s + 1) (header s) (replicate (MAX_LEVEL + 1) None))
    as (u & Hu & Hl & Hall & _).
  - lia.
  - apply length_replicate.
  - unfold pred_at. by destruct (high_empty s ns lo hi (level s + 1) Hr Hns ltac:(lia)) as [-> _].
  - exists u. split; [|split; [done|]; intros j Hj; apply Hall; lia].
    unfold locate. srun (eq_refl : get s = Ok (s, s, [])). srun Hu. cbn [fst snd].
    pose proof (rep_chain _ _ Hr 0 ltac:(lia)) as Hc. rewrite Hns, tall_app, fmap_app in Hc. apply lchain_app, lchain_next in Hc.
    srun (get_forward_ok s (pred_at s 0 lo) 0 _ Hc). by rewrite tall_0.
Qed.

Lemma has_key_ok s k hi :
  (∀ n, n ∈ hi → key_of (heap s) (nloc n) = Some (nkey n)) →
  has_key (head (nloc <$> hi)) k s = Ok (match hi with n :: _ => (nkey n =? k)%Z | [] => false end, s, []).
Proof.
  intros Hk. destruct hi as [|n hi]; [done|]. csimpl.
  specialize (Hk n (list_elem_of_here _ _)). unfold key_of in Hk. apply fmap_Some in Hk as (x & Hx & Hkx).
  srun (sk_rd_ok s _ x Hx). by rewrite Hkx.
Qed.

(** *** Linking and unlinking, level by level *)

(** Nothing but pointers of the levels in [P] has changed. *)
Record touched (P : nat → Prop) (s s' : SkipList) : Prop := mktouched {
  t_dom : dom (heap s') = dom (heap s);
  t_key l : key_of (heap s') l = key_of (heap s) l;
  t_level : level s' = level s;
  t_header : header s' = header s;
  t_fwd l j : ¬ P j → fwd (heap s') l j = fwd (heap s) l j
}.

Lemma touched_refl P s : touched P s s.
Proof. by constructor. Qed.

Lemma touched_trans P Q R s1 s2 s3 :
  touched P s1 s2 → touched Q s2 s3 → (∀ j, P j → R j) → (∀ j, Q j → R j) → touched R s1 s3.
Proof.
  intros [D1 K1 L1 H1 F1] [D2 K2 L2 H2 F2] HP HQ. constructor; try congruence.
  intros l j Hj. rewrite F2, F1; auto.
Qed.

Lemma touched_written s s' l i v :
  written (heap s) (heap s') l i v → level s' = level s → header s' = header s → touched (λ j, j = i) s s'.
Proof. intros (D & K & _ & F) Hl Hh. constructor; try done. intros x j Hj. apply F. by right. Qed.

(** One round of the loop in [insert]. *)
Lemma link_level s i x l1 l2 u :
  let hd := header s in
  u = lastl hd l1 → lchain (heap s) i hd (l1 ++ l2) → NoDup (hd :: l1 ++ l2) → x ∉ hd :: l1 ++ l2 →
  fwd (heap s) x i ≠ None →
  ∃ s', (next ← get_forward (Some u) i; set_forward (Some x) i next ;; set_forward (Some u) i (Some x)) s = Ok (tt, s', []) ∧
    touched (λ j, j = i) s s' ∧ lchain (heap s') i hd (l1 ++ x :: l2).
Proof.
  intros hd -> Hc Hn Hx Hfx. pose proof (lchain_next _ _ _ _ (lchain_app _ _ _ _ _ Hc)) as Hnext.
  destruct (fwd (heap s) x i) as [v0|] eqn:Hv0; [|done].
  destruct (set_forward_ok s x i v0 (head l2) Hv0) as (s1 & Hs1 & Hw1 & Hl1 & Hh1).
  assert (lastl hd l1 ≠ x) as Hux by (intros <-; apply Hx; pose proof (lastl_in hd l1); set_solver).
  pose proof Hw1 as (_ & _ & Hx1 & Ho1).
  destruct (set_forward_ok s1 (lastl hd l1) i (head l2) (Some x)) as (s2 & Hs2 & Hw2 & Hl2 & Hh2);
    [by rewrite Ho1 by (by left)|].
  exists s2. split; [srun (get_forward_ok s (lastl hd l1) i _ Hnext); srun Hs1; exact Hs2|].
  pose proof Hw2 as (_ & _ & Hx2 & Ho2). split.
  - eapply touched_trans; [by eapply touched_written|by eapply touched_written| |]; done.
  - eapply lchain_link; try done.
    + by rewrite Ho2 by (left; congruence).
    + intros l H1 H2. rewrite Ho2, Ho1 by (by left). done.
Qed.

Lemma skip_link_ok x update (L1 L2 : nat → list loc) : ∀ n i s,
  (∀ j, i ≤ j < i + n → update !! j = Some (Some (Some (lastl (header s) (L1 j)))) ∧
     lchain (heap s) j (header s) (L1 j ++ L2 j) ∧ NoDup (header s :: L1 j ++ L2 j) ∧
     (x ∉ header s :: L1 j ++ L2 j) ∧ fwd (heap s) x j ≠ None) →
  ∃ s', link n i (Some x) update s = Ok (tt, s', []) ∧ touched (λ j, i ≤ j < i + n) s s' ∧
    ∀ j, i ≤ j < i + n → lchain (heap s') j (header s) (L1 j ++ x :: L2 j).
Proof.
  induction n as [|n IH]; intros i s Hall; cbn [link].
  - exists s. split; [done|]. split; [apply touched_refl|]. intros j Hj. lia.
  - destruct (Hall i ltac:(lia)) as (Hu & Hc & Hn & Hx & Hf).
    destruct (link_level s i x (L1 i) (L2 i) _ eq_refl Hc Hn Hx Hf) as (s1 & Hs1 & Ht1 & Hc1).
    destruct (IH (i + 1) s1) as (s2 & Hs2 & Ht2 & Hc2).
    { intros j Hj. destruct (Hall j ltac:(lia)) as (Hu' & Hc' & Hn' & Hx' & Hf'). rewrite (t_header _ _ _ Ht1).
      split_and!; try done.
      - eapply lchain_ext; [|exact Hc']. intros l. apply (t_fwd _ _ _ Ht1). lia.
      - rewrite (t_fwd _ _ _ Ht1) by lia. done. }
    exists s2. split; [|split].
    + srun (lift_Ok (uget update (Z.of_nat i)) s (Some (lastl (header s) (L1 i))) ltac:(unfold uget; by rewrite (aget_lookup _ _ _ Hu))).
      revert Hs1 Hs2. unfold mbind, C_bind. destruct (get_forward _ _ s) as [[[v sa] oa]|]; [|done].
      destruct (set_forward (Some x) i v sa) as [[[[] sb] ob]|]; [|done].
      destruct (set_forward _ i (Some x) sb) as [[[[] sc] oc]|]; [|done]. intros Hs1 Hs2. simplify_eq.
      rewrite Hs2. do 2 f_equal. destruct oa, ob, oc; done.
    + eapply touched_trans; [exact Ht1|exact Ht2| |]; simpl; intros; lia.
    + intros j Hj. destruct (decide (j = i)) as [->|Hne].
      * eapply lchain_ext; [|exact Hc1]. intros l. apply (t_fwd _ _ _ Ht2). lia.
      * rewrite <- (t_header _ _ _ Ht1). apply Hc2. lia.
Qed.

(** The loop in [delete]: it stops at the first level without the node. *)
Lemma skip_unlink_ok x update (L1 L2 : nat → list loc) top : ∀ n i s,
  (∀ j, i ≤ j < i + n → update !! j = Some (Some (Some (lastl (header s) (L1 j))))) →
  (∀ j, i ≤ j < i + n → j ≤ top → lchain (heap s) j (header s) (L1 j ++ x :: L2 j) ∧ NoDup (header s :: L1 j ++ x :: L2 j)) →
  (∀ j, i ≤ j < i + n → top < j → lchain (heap s) j (header s) (L1 j ++ L2 j) ∧ x ∉ L2 j) →
  ∃ s', unlink n i (Some x) update s = Ok (tt, s', []) ∧ touched (λ j, i ≤ j < i + n ∧ j ≤ top) s s' ∧
    ∀ j, i ≤ j < i + n → j ≤ top → lchain (heap s') j (header s) (L1 j ++ L2 j).
Proof.
  induction n as [|n IH]; intros i s Hu Hin Hout; cbn [unlink].
  - exists s. split; [done|]. split; [apply touched_refl|]. intros j Hj. lia.
  - assert (lift (uget update (Z.of_nat i)) s = Ok (Some (lastl (header s) (L1 i)), s, [])) as Hget
      by (apply lift_Ok; unfold uget; by rewrite (aget_lookup _ _ _ (Hu i ltac:(lia)))).
    destruct (decide (i ≤ top)) as [Hi|Hi].
    + destruct (Hin i ltac:(lia) Hi) as [Hc Hn]. pose proof (lchain_app _ _ _ _ _ Hc) as Hx.
      pose proof (lchain_next _ _ _ _ Hx) as Hnext. simpl in Hnext.
      assert (fwd (heap s) x i = Some (head (L2 i))) as Hafter by (destruct Hx as [_ Hx]; by apply lchain_next in Hx).
      destruct (set_forward_ok s (lastl (header s) (L1 i)) i _ (head (L2 i)) Hnext) as (s1 & Hs1 & Hw1 & Hl1 & Hh1).
      pose proof (touched_written _ _ _ _ _ Hw1 Hl1 Hh1) as Ht1. pose proof Hw1 as (_ & _ & Hf1 & Ho1).
      assert (lchain (heap s1) i (header s) (L1 i ++ L2 i)) as Hc1.
      { eapply lchain_unlink; [exact Hc|done|done|]. intros l Hl. apply Ho1. by left. }
      destruct (IH (i + 1) s1) as (s2 & Hs2 & Ht2 & Hc2).
      { intros j Hj. rewrite Hh1. apply Hu. lia. }
      { intros j Hj Hle. rewrite Hh1. destruct (Hin j ltac:(lia) Hle) as [Hcj ?]. split; [|done].
        eapply lchain_ext; [|exact Hcj]. intros l. apply (t_fwd _ _ _ Ht1). lia. }
      { intros j Hj Hlt. rewrite Hh1. destruct (Hout j ltac:(lia) Hlt) as [Hcj ?]. split; [|done].
        eapply lchain_ext; [|exact Hcj]. intros l. apply (t_fwd _ _ _ Ht1). lia. }
      exists s2. split; [|split].
      * srun Hget. srun (get_forward_ok s _ i _ Hnext). rewrite decide_True by done.
        srun (get_forward_ok s x i _ Hafter). srun Hs1. exact Hs2.
      * eapply touched_trans; [exact Ht1|exact Ht2| |]; simpl; intros; lia.
      * intros j Hj Hle. destruct (decide (j = i)) as [->|Hne].
        -- eapply lchain_ext; [|exact Hc1]. intros l. apply (t_fwd _ _ _ Ht2). lia.
        -- rewrite <- Hh1. apply Hc2; [lia|done].
    + destruct (Hout i ltac:(lia) ltac:(lia)) as [Hc Hx]. pose proof (lchain_next _ _ _ _ (lchain_app _ _ _ _ _ Hc)) as Hnext.
      exists s. split; [|split].
      * srun Hget. srun (get_forward_ok s _ i _ Hnext). rewrite decide_False; [done|].
        intros He. apply Hx. destruct (L2 i); simplify_eq/=. by left.
      * apply touched_refl.
      * intros j Hj Hle. lia.
Qed.

(** *** Insertion *)

Lemma random_level draws : ∀ n, n ≤ MAX_LEVEL → generateRandomLevel draws n ≤ MAX_LEVEL.
Proof.
  induction draws as [|[] draws IH]; intros n Hn; simpl; try done. destruct (Nat.ltb_spec n MAX_LEVEL); [|done]. apply IH. lia.
Qed.

Lemma raise_ok hd : ∀ n i update, i + n ≤ length update →
  ∃ u, raise n i hd update = Ok u ∧ length u = length update ∧
    (∀ j, i ≤ j < i + n → u !! j = Some (Some hd)) ∧ (∀ j, j < i → u !! j = update !! j).
Proof.
  induction n as [|n IH]; intros i update Hl; cbn [raise].
  - exists update. split_and!; try done. intros j Hj. lia.
  - rewrite aset_nat by lia. cbn. destruct (IH (i + 1) (<[i := Some hd]> update)) as (u & Hu & Hlu & H1 & H2);
      [rewrite length_insert; lia|].
    exists u. split; [done|]. split; [by rewrite Hlu, length_insert|]. split; intros j Hj.
    + destruct (decide (j = i)) as [->|]; [|apply H1; lia]. rewrite H2 by lia. apply list_lookup_insert_eq. lia.
    + rewrite H2 by lia. apply list_lookup_insert_ne. lia.
Qed.

Lemma keys_Forall (P : Z → Prop) ns : Forall P (nkey <$> ns) ↔ Forall (λ n, P (nkey n)) ns.
Proof. apply Forall_fmap. Qed.

(** In the levels where it is linked the new node stands between smaller and
    larger keys. *)
Lemma tall_insert j lo n hi :
  nloc <$> tall j (lo ++ n :: hi) =
    (nloc <$> tall j lo) ++ (if decide (j ≤ nheight n) then nloc n :: (nloc <$> tall j hi) else nloc <$> tall j hi).
Proof. rewrite tall_app, tall_cons, fmap_app. by case_decide. Qed.

Lemma rep_insert s ns lo hi k x s2 lv :
  rep s ns → ns = lo ++ hi → x ∉ dom (heap s) → lv ≤ MAX_LEVEL →
  dom (heap s2) = {[x]} ∪ dom (heap s) → header s2 = header s → level s2 = max lv (level s) →
  key_of (heap s2) x = Some k → (∀ l, l ≠ x → key_of (heap s2) l = key_of (heap s) l) →
  (∀ j, j ≤ lv → lchain (heap s2) j (header s) ((nloc <$> tall j lo) ++ x :: (nloc <$> tall j hi))) →
  (∀ j l, lv < j → l ≠ x → fwd (heap s2) l j = fwd (heap s) l j) →
  rep s2 (lo ++ mknd x k lv :: hi).
Proof.
  intros Hr -> Hx Hlv Hd Hh Hl Hkx Hk Hc Hf.
  assert (x ∉ header s :: (nloc <$> lo ++ hi)) as Hxn.
  { rewrite (rep_dom _ _ Hr) in Hx. by rewrite elem_of_list_to_set in Hx. }
  constructor.
  - rewrite Hh, fmap_app. csimpl. rewrite <- Permutation_middle, Permutation_swap. constructor.
    + by rewrite <- fmap_app.
    + rewrite <- fmap_app. apply (rep_nodup _ _ Hr).
  - rewrite Hd, (rep_dom _ _ Hr), Hh, !fmap_app. csimpl. set_solver.
  - intros n Hn. apply elem_of_app in Hn as [Hn|[->|Hn]%elem_of_cons]; [| |]; [|done|];
      (rewrite Hk; [apply (rep_key _ _ Hr); set_solver|intros <-; apply Hxn; right; apply list_elem_of_fmap_2; set_solver]).
  - intros j Hj. rewrite tall_insert, Hh. simpl nheight. case_decide as Hjl; [by apply Hc|].
    pose proof (rep_chain _ _ Hr j Hj) as Hch. rewrite tall_app, fmap_app in Hch.
    eapply lchain_ext_in; [|exact Hch]. intros l Hin. apply Hf; [lia|]. intros ->. apply Hxn.
    rewrite <- fmap_app, <- tall_app in Hin. apply elem_of_cons in Hin as [->|Hin]; [by left|right].
    eapply elem_of_sublist; [exact Hin|]. apply locs_sublist, tall_sublist.
  - pose proof (rep_height _ _ Hr) as Hht. rewrite Forall_forall in Hht |- *. intros n Hn. rewrite Hl.
    apply elem_of_app in Hn as [Hn|[->|Hn]%elem_of_cons]; [|simpl; lia|]; (assert (nheight n ≤ level s) by (apply Hht; set_solver); lia).
  - rewrite Hl. pose proof (rep_level _ _ Hr). lia.
Qed.

Lemma pair_nodup s ns lo hi j :
  rep s ns → ns = lo ++ hi → NoDup (header s :: (nloc <$> tall j lo) ++ (nloc <$> tall j hi)).
Proof.
  intros Hr ->. rewrite <- fmap_app, <- tall_app. apply level_nodup, (rep_nodup _ _ Hr).
Qed.

Lemma pair_locs s ns lo hi j l :
  rep s ns → ns = lo ++ hi → l ∈ header s :: (nloc <$> tall j lo) ++ (nloc <$> tall j hi) → l ∈ dom (heap s).
Proof.
  intros Hr -> Hl. rewrite (rep_dom _ _ Hr). apply elem_of_list_to_set. rewrite <- fmap_app, <- tall_app in Hl.
  eapply elem_of_sublist; [exact Hl|]. apply sublist_skip, locs_sublist, tall_sublist.
Qed.

(** The second half of [insert], given the right [update]. *)
Lemma insert_link s s0 ns lo hi k lv update :
  rep s ns → ns = lo ++ hi → lv ≤ MAX_LEVEL → heap s0 = heap s → header s0 = header s → level s0 = max lv (level s) →
  (∀ j, j ≤ lv → update !! j = Some (Some (Some (pred_at s j lo)))) →
  ∃ s' x, (let '(l, h) := createNode k lv (heap s0) in
     put (mkSkipList h (level s0) (header s0)) ;; link (lv + 1) 0 (Some l) update) s0 = Ok (tt, s', []) ∧
    rep s' (lo ++ mknd x k lv :: hi).
Proof.
  intros Hr Hns Hlv Hh0 Hd0 Hl0 Hu. unfold createNode, malloc. rewrite Hh0.
  name_fresh (heap s) x. set (s1 := mkSkipList (<[x := mkNode k (replicate (lv + 1) None)]> (heap s)) (level s0) (header s0)).
  assert (x ∉ dom (heap s)) as Hxd by (by apply not_elem_of_dom).
  assert (∀ l j, l ≠ x → fwd (heap s1) l j = fwd (heap s) l j) as Hfo.
  { intros l j Hl. unfold fwd, s1. simpl. by rewrite lookup_insert_ne. }
  destruct (skip_link_ok x update (λ j, nloc <$> tall j lo) (λ j, nloc <$> tall j hi) (lv + 1) 0 s1) as (s2 & Hs2 & Ht & Hc).
  { intros j Hj. simpl. rewrite Hd0. split_and!.
    - apply Hu. lia.
    - pose proof (rep_chain _ _ Hr j ltac:(lia)) as Hch. rewrite Hns, tall_app, fmap_app in Hch.
      eapply lchain_ext_in; [|exact Hch]. intros l Hl. apply Hfo. intros ->. apply Hxd.
      by eapply (pair_locs s ns lo hi j).
    - by eapply pair_nodup.
    - intros Hin. apply Hxd. by eapply (pair_locs s ns lo hi j).
    - unfold fwd. simpl. rewrite lookup_insert_eq. simpl. rewrite lookup_replicate_2 by lia. done. }
  exists s2, x. split; [exact (bind_Ok _ _ _ tt s1 [] _ _ [] eq_refl Hs2)|].
  apply (rep_insert s ns lo hi k x s2 lv); try done.
  - rewrite (t_dom _ _ _ Ht). simpl. by rewrite dom_insert_L.
  - rewrite (t_header _ _ _ Ht). done.
  - rewrite (t_level _ _ _ Ht). done.
  - rewrite (t_key _ _ _ Ht). unfold key_of. simpl. by rewrite lookup_insert_eq.
  - intros l Hl. rewrite (t_key _ _ _ Ht). unfold key_of. simpl. by rewrite lookup_insert_ne.
  - intros j Hj. rewrite <- Hd0. apply Hc. lia.
  - intros j l Hj Hl. rewrite (t_fwd _ _ _ Ht) by lia. by apply Hfo.
Qed.

Lemma ordered_split ns k lo hi : ordered ns → split_at k ns lo hi → k ∉ nkey <$> ns → Forall (λ n, (k < nkey n)%Z) hi.
Proof.
  intros Ho (-> & _ & Hhi) Hk. rewrite Forall_forall in Hhi |- *. intros n Hn. specialize (Hhi n Hn).
  assert (nkey n ≠ k); [|lia]. intros <-. apply Hk, list_elem_of_fmap_2. set_solver.
Qed.

(** The key is in the list exactly when the node found has it. *)
Lemma hit_iff ns k lo hi :
  ordered ns → split_at k ns lo hi →
  match hi with n :: _ => (nkey n =? k)%Z | [] => false end = true ↔ k ∈ nkey <$> ns.
Proof.
  intros Ho (-> & Hlo & Hhi). unfold ordered in Ho. split.
  - destruct hi as [|n hi]; [done|]. intros <-%Z.eqb_eq. apply list_elem_of_fmap_2. set_solver.
  - intros (n & -> & Hn)%list_elem_of_fmap. apply elem_of_app in Hn as [Hn|Hn].
    + rewrite Forall_forall in Hlo. specialize (Hlo n Hn). lia.
    + destruct hi as [|m hi]; [by apply elem_of_nil in Hn|]. apply sorted_mid in Ho as (_ & _ & _ & Hm).
      apply Forall_cons in Hhi as [Hhm _]. apply Z.eqb_eq. apply elem_of_cons in Hn as [->|Hn]; [done|].
      rewrite Forall_forall in Hm. specialize (Hm n Hn). lia.
Qed.

Lemma split_key s ns k lo hi n : rep s ns → split_at k ns lo hi → n ∈ hi → key_of (heap s) (nloc n) = Some (nkey n).
Proof. intros Hr (-> & _) Hn. apply (rep_key _ _ Hr). set_solver. Qed.

(** No smaller key is on the top level. *)
Definition top_clear (s : SkipList) (ns : list nd) (k : Z) : Prop :=
  Forall (λ n, (nkey n < k)%Z → nheight n < level s) ns.

(** The [update] array with which the node is linked. *)
Lemma insert_update s ns k lo hi lv u :
  rep s ns → split_at k ns lo hi → lv ≤ MAX_LEVEL → (lv ≤ level s ∨ top_clear s ns k) →
  length u = MAX_LEVEL + 1 → (∀ j, j ≤ level s → u !! j = Some (Some (Some (pred_at s j lo)))) →
  ∃ s0 u', (if level s <? lv then
       update ← lift (raise (lv + 1 - level s) (level s) (Some (header s)) u);
       put (mkSkipList (heap s) lv (header s)) ;; mret update
     else mret u) s = Ok (u', s0, []) ∧
    heap s0 = heap s ∧ header s0 = header s ∧ level s0 = max lv (level s) ∧
    (∀ j, j ≤ lv → u' !! j = Some (Some (Some (pred_at s j lo)))).
Proof.
  intros Hr Hsp Hlv Hcond Hlu Hu. pose proof Hsp as (Hns & Hlo & _). destruct (Nat.ltb_spec (level s) lv) as [Hlt|Hge].
  - destruct Hcond as [|Hclear]; [lia|].
    destruct (raise_ok (Some (header s)) (lv + 1 - level s) (level s) u) as (u' & Hr' & _ & H1 & H2); [lia|].
    exists (mkSkipList (heap s) lv (header s)), u'. split; [srun (lift_Ok _ s _ Hr'); done|].
    split_and!; try done; [simpl; lia|]. intros j Hj. destruct (decide (j < level s)) as [Hj'|Hj'].
    + rewrite H2 by done. apply Hu. lia.
    + rewrite H1 by lia. unfold pred_at. rewrite tall_high; [done|]. unfold top_clear in Hclear. rewrite Hns in Hclear.
      apply Forall_app in Hclear as [Hcl _]. rewrite Forall_forall in Hlo, Hcl |- *. intros n Hn.
      specialize (Hcl n Hn (Hlo n Hn)). lia.
  - exists s, u. split; [done|]. split_and!; try done; [lia|]. intros j Hj. apply Hu. lia.
Qed.

Lemma skip_insert_ok s ns draws k :
  rep s ns → ordered ns → (generateRandomLevel draws 0 ≤ level s ∨ top_clear s ns k) →
  ∃ s' ns', insert draws k s = Ok (tt, s', []) ∧ rep s' ns' ∧ ordered ns' ∧ nkey <$> ns' = linsert id k (nkey <$> ns).
Proof.
  intros Hr Ho Hcond. destruct (split_exists k ns Ho) as (lo & hi & Hsp). pose proof Hsp as (Hns & Hlo & Hhi).
  destruct (locate_ok s ns k lo hi Hr Hsp) as (u & Hloc & Hlu & Hu).
  pose proof (has_key_ok s k hi (λ n, split_key s ns k lo hi n Hr Hsp)) as Hhas.
  pose proof (hit_iff ns k lo hi Ho Hsp) as Hiff.
  unfold insert. destruct (match hi with n :: _ => (nkey n =? k)%Z | [] => false end) eqn:Hb.
  - exists s, ns. split; [srun Hloc; cbn [fst snd]; srun Hhas; done|]. split_and!; try done.
    assert (k ∈ nkey <$> ns) as Hk by (by apply Hiff). destruct hi as [|n hi]; [done|]. apply Z.eqb_eq in Hb as <-.
    rewrite Hns, fmap_app. csimpl. symmetry. apply (linsert_present id); [by apply keys_Forall|done].
  - assert (k ∉ nkey <$> ns) as Hk by (intros Hin; apply Hiff in Hin; done).
    pose proof (ordered_split _ _ _ _ Ho Hsp Hk) as Hgt. pose proof (random_level draws 0 ltac:(lia)) as Hlv.
    destruct (insert_update s ns k lo hi _ u Hr Hsp Hlv Hcond Hlu Hu) as (s0 & u' & Hup & H1 & H2 & H3 & H4).
    destruct (insert_link s s0 ns lo hi k _ u' Hr Hns Hlv H1 H2 H3 H4) as (s' & x & Hlink & Hr').
    exists s', (lo ++ mknd x k (generateRandomLevel draws 0) :: hi). split_and!.
    + srun Hloc. cbn [fst snd]. srun Hhas. srun (eq_refl : get s = Ok (s, s, [])). srun Hup.
      srun (eq_refl : get s0 = Ok (s0, s0, [])). exact Hlink.
    + done.
    + apply sorted_mid. unfold ordered in Ho. rewrite Hns in Ho. unfold sorted_keys in Ho |- *.
      split_and!; try done; [by eapply StronglySorted_app_1_l|by eapply StronglySorted_app_1_r].
    + rewrite Hns, !fmap_app. csimpl. rewrite linsert_between; [done|by apply keys_Forall|by apply keys_Forall].
Qed.

(** *** Deletion *)

Lemma rep_lower s ns lv :
  rep s ns → lv ≤ level s → Forall (λ n, nheight n ≤ lv) ns → rep (mkSkipList (heap s) lv (header s)) ns.
Proof.
  intros [H1 H2 H3 H4 H5 H6] Hl Hf. constructor; simpl; try done. lia.
Qed.

Lemma lower_ok ns : ∀ lv s, level s = lv → rep s ns → ∃ s', lower lv s = Ok (tt, s', []) ∧ rep s' ns.
Proof.
  induction lv as [|lv IH]; intros s Hl Hr; cbn [lower]; [by exists s|].
  pose proof (rep_level _ _ Hr) as Hlv. pose proof (lchain_next _ _ _ _ (rep_chain _ _ Hr (S lv) ltac:(lia))) as Hn.
  destruct (nloc <$> tall (S lv) ns) as [|x xs] eqn:Ht; simpl in Hn.
  - destruct (IH (mkSkipList (heap s) lv (header s)) eq_refl) as (s' & Hs' & Hr').
    { apply rep_lower; [done|lia|]. apply fmap_nil_inv in Ht. pose proof (rep_height _ _ Hr) as Hh.
      rewrite Forall_forall in Hh |- *. intros n Hin. specialize (Hh n Hin). rewrite Hl in Hh.
      destruct (decide (nheight n = S lv)); [|lia]. assert (n ∈ tall (S lv) ns) as Hin' by (apply tall_elem; split; [lia|done]).
      rewrite Ht in Hin'. by apply elem_of_nil in Hin'. }
    exists s'. split; [|done]. srun (eq_refl : get s = Ok (s, s, [])). srun (get_forward_ok s _ _ _ Hn).
    srun (eq_refl : put (mkSkipList (heap s) lv (header s)) s = Ok (tt, _, [])). exact Hs'.
  - exists s. split; [|done]. srun (eq_refl : get s = Ok (s, s, [])). srun (get_forward_ok s _ _ _ Hn). done.
Qed.

(** The node is unlinked from every level and freed. *)
Lemma rep_delete s ns lo n hi s1 :
  rep s ns → ns = lo ++ n :: hi → touched (λ j, 0 ≤ j < 0 + (level s + 1) ∧ j ≤ nheight n) s s1 →
  (∀ j, j ≤ nheight n → lchain (heap s1) j (header s) ((nloc <$> tall j lo) ++ (nloc <$> tall j hi))) →
  rep (mkSkipList (base.delete (nloc n) (heap s1)) (level s1) (header s1)) (lo ++ hi).
Proof.
  intros Hr -> Ht Hc. pose proof (rep_nodup _ _ Hr) as Hn. rewrite fmap_app in Hn. csimpl in Hn.
  assert (NoDup (nloc n :: header s :: (nloc <$> lo ++ hi))) as Hn'.
  { rewrite fmap_app. by rewrite Permutation_swap, Permutation_middle. }
  apply NoDup_cons in Hn' as [Hnx Hnd].
  assert (∀ l j, l ≠ nloc n → fwd (base.delete (nloc n) (heap s1)) l j = fwd (heap s1) l j) as Hf
    by (intros l j Hl; unfold fwd; by rewrite lookup_delete_ne).
  assert (∀ m, m ∈ lo ++ hi → nloc m ≠ nloc n) as Hne.
  { intros m Hm He. apply Hnx. right. rewrite <- He. by apply list_elem_of_fmap_2. }
  constructor; simpl; rewrite ?(t_header _ _ _ Ht), ?(t_level _ _ _ Ht).
  - done.
  - rewrite dom_delete_L, (t_dom _ _ _ Ht), (rep_dom _ _ Hr), !fmap_app. csimpl.
    rewrite fmap_app in Hnx. set_solver.
  - intros m Hm. unfold key_of. rewrite lookup_delete_ne by (intros E; by apply (Hne m Hm)).
    change (key <$> heap s1 !! nloc m) with (key_of (heap s1) (nloc m)). rewrite (t_key _ _ _ Ht).
    apply (rep_key _ _ Hr). set_solver.
  - intros j Hj. assert (lchain (heap s1) j (header s) (nloc <$> tall j (lo ++ hi))) as Hch.
    { rewrite tall_app, fmap_app. destruct (decide (j ≤ nheight n)) as [Hle|Hgt]; [by apply Hc|].
      pose proof (rep_chain _ _ Hr j Hj) as Hch. rewrite tall_insert, decide_False in Hch by done.
      eapply lchain_ext; [|exact Hch]. intros l. apply (t_fwd _ _ _ Ht). tauto. }
    eapply lchain_ext_in; [|exact Hch]. intros l Hl. apply Hf. intros ->. apply Hnx.
    eapply elem_of_sublist; [exact Hl|]. apply sublist_skip, locs_sublist, tall_sublist.
  - pose proof (rep_height _ _ Hr) as Hh. apply Forall_app in Hh as [H1 H2]. apply Forall_cons in H2 as [_ H2].
    by apply Forall_app.
  - apply (rep_level _ _ Hr).
Qed.

Lemma delete_node s ns lo n hi u :
  rep s ns → ns = lo ++ n :: hi → (∀ j, j ≤ level s → u !! j = Some (Some (Some (pred_at s j lo)))) →
  ∃ s', (s ← get; unlink (level s + 1) 0 (Some (nloc n)) u ;;
     s ← get; h ← lift (free (heap s) (Some (nloc n)));
     put (mkSkipList h (level s) (header s)) ;; lower (level s)) s = Ok (tt, s', []) ∧ rep s' (lo ++ hi).
Proof.
  intros Hr Hns Hu. pose proof (rep_level _ _ Hr) as Hlv.
  assert (nheight n ≤ level s) as Hnl.
  { pose proof (rep_height _ _ Hr) as Hh. rewrite Hns in Hh. apply Forall_app in Hh as [_ Hh]. by apply Forall_cons in Hh as [? _]. }
  pose proof (rep_nodup _ _ Hr) as Hnd. rewrite Hns in Hnd.
  destruct (skip_unlink_ok (nloc n) u (λ j, nloc <$> tall j lo) (λ j, nloc <$> tall j hi) (nheight n) (level s + 1) 0 s)
    as (s1 & Hs1 & Ht & Hc).
  - intros j Hj. apply Hu. lia.
  - intros j Hj Hle. pose proof (rep_chain _ _ Hr j ltac:(lia)) as Hch. rewrite Hns, tall_insert, decide_True in Hch by done.
    split; [exact Hch|]. apply (level_nodup _ j) in Hnd. by rewrite tall_insert, decide_True in Hnd.
  - intros j Hj Hlt. pose proof (rep_chain _ _ Hr j ltac:(lia)) as Hch. rewrite Hns, tall_insert, decide_False in Hch by lia.
    split; [exact Hch|]. intros Hin. rewrite fmap_app in Hnd. csimpl in Hnd.
    apply NoDup_cons in Hnd as [_ Hnd]. apply NoDup_app in Hnd as (_ & _ & Hnd). apply NoDup_cons in Hnd as [Hnd _].
    apply Hnd. eapply elem_of_sublist; [exact Hin|]. apply locs_sublist, tall_sublist.
  - pose proof (rep_delete s ns lo n hi s1 Hr Hns Ht (λ j Hj, Hc j ltac:(lia) Hj)) as Hr1.
    destruct (lower_ok (lo ++ hi) _ _ eq_refl Hr1) as (s' & Hs' & Hr'). exists s'. split; [|done].
    assert (∃ c, heap s1 !! nloc n = Some c) as [c Hcell].
    { assert (nloc n ∈ dom (heap s1)) as Hin; [|by apply elem_of_dom in Hin].
      rewrite (t_dom _ _ _ Ht), (rep_dom _ _ Hr), Hns, fmap_app. csimpl. set_solver. }
    srun (eq_refl : get s = Ok (s, s, [])). srun Hs1. srun (eq_refl : get s1 = Ok (s1, s1, [])).
    srun (lift_Ok (free (heap s1) (Some (nloc n))) s1 _ (free_Some _ _ _ Hcell)).
    srun (eq_refl : put (mkSkipList (base.delete (nloc n) (heap s1)) (level s1) (header s1)) s1 = Ok (tt, _, [])). exact Hs'.
Qed.

Lemma delete_ok s ns k :
  rep s ns → ordered ns →
  ∃ s' ns', Skip.delete k s = Ok (tt, s', []) ∧ rep s' ns' ∧ ordered ns' ∧ nkey <$> ns' = ldelete id k (nkey <$> ns).
Proof.
  intros Hr Ho. destruct (split_exists k ns Ho) as (lo & hi & Hsp). pose proof Hsp as (Hns & Hlo & Hhi).
  destruct (locate_ok s ns k lo hi Hr Hsp) as (u & Hloc & Hlu & Hu).
  pose proof (has_key_ok s k hi (λ n, split_key s ns k lo hi n Hr Hsp)) as Hhas.
  pose proof (hit_iff ns k lo hi Ho Hsp) as Hiff.
  unfold Skip.delete. destruct (match hi with n :: _ => (nkey n =? k)%Z | [] => false end) eqn:Hb.
  - destruct hi as [|n hi]; [done|]. apply Z.eqb_eq in Hb as <-.
    destruct (delete_node s ns lo n hi u Hr Hns Hu) as (s' & Hs' & Hr'). exists s', (lo ++ hi). split_and!; [|done| |].
    + srun Hloc. cbn [fst snd]. srun Hhas. exact Hs'.
    + unfold ordered in *. rewrite Hns in Ho. unfold sorted_keys in *. apply StronglySorted_app in Ho as (Hx & H1 & H2).
      apply StronglySorted_inv in H2 as [H2 _]. apply StronglySorted_app_2; [|done|done].
      intros a b Ha Hbb. apply Hx; [done|by right].
    + rewrite Hns, !fmap_app. csimpl. symmetry. unfold ordered in Ho. rewrite Hns in Ho. apply sorted_mid in Ho as (_ & _ & H1 & H2).
      apply (ldelete_pivot_eq id); by apply keys_Forall.
  - exists s, ns. split_and!; try done; [srun Hloc; cbn [fst snd]; srun Hhas; done|].
    symmetry. apply ldelete_id, Forall_forall. intros y Hy He. unfold id in He. subst y. apply Hiff in Hy. done.
Qed.

(** *** An empty list *)

Lemma rep_create : rep createSkipList [].
Proof.
  constructor; simpl; try done.
  - apply NoDup_singleton.
  - intros n Hn. by apply elem_of_nil in Hn.
  - intros i Hi. change (tall i []) with (@nil nd). csimpl. unfold fwd, MAX_LEVEL in *.
    do 7 (destruct i as [|i]; [reflexivity|]). lia.
  - unfold MAX_LEVEL. lia.
Qed.

End SkipSpec.

(** ** The properties of the skip list *)
Section SkipTheorems.
Import Skip SkipSpec.

(** [search] on an ordered skip list ends, changes nothing, and returns the
    node with the key, or NULL exactly when the key is not in the list. *)
Theorem skip_search_correct s ns k :
  rep s ns → ordered ns →
  ∃ p, search k s = Ok (p, s, []) ∧ (p = None ↔ k ∉ nkey <$> ns) ∧
    ∀ l, p = Some l → ∃ n, n ∈ ns ∧ nloc n = l ∧ nkey n = k.
Proof.
  intros Hr Ho. destruct (split_exists k ns Ho) as (lo & hi & Hsp). pose proof Hsp as (Hns & _).
  destruct (locate_ok s ns k lo hi Hr Hsp) as (u & Hloc & _).
  pose proof (has_key_ok s k hi (λ n, split_key s ns k lo hi n Hr Hsp)) as Hhas.
  pose proof (hit_iff ns k lo hi Ho Hsp) as Hiff. eexists. split; [unfold search; srun Hloc; cbn [fst snd]; srun Hhas; reflexivity|].
  destruct hi as [|n hi]; [split; [|done]; split; [|done]; intros _ Hin; apply Hiff in Hin; done|].
  destruct (nkey n =? k)%Z eqn:Hb; csimpl.
  - split; [split; [done|]; intros Hk; exfalso; apply Hk, Hiff; done|]. intros l [= <-]. exists n.
    split; [rewrite Hns; set_solver|]. split; [done|by apply Z.eqb_eq].
  - split; [|done]. split; [|done]. intros _ Hin. apply Hiff in Hin. done.
Qed.

(** C11: [insert] into an ordered skip list adds exactly the key and keeps the
    order on every level, and [delete] removes exactly the key and frees its
    node; neither touches memory outside the list or loops for ever.  For
    [insert] the level drawn must not be above the list's level, unless no
    smaller key is on the list's top level. *)
Theorem skip_update_correct s ns k draws :
  rep s ns → ordered ns → (generateRandomLevel draws 0 ≤ level s ∨ top_clear s ns k) →
  (∃ s' ns', insert draws k s = Ok (tt, s', []) ∧ rep s' ns' ∧ ordered ns' ∧
     nkey <$> ns' = linsert id k (nkey <$> ns)) ∧
  (∃ s' ns', Skip.delete k s = Ok (tt, s', []) ∧ rep s' ns' ∧ ordered ns' ∧
     nkey <$> ns' = ldelete id k (nkey <$> ns)).
Proof. intros Hr Ho Hl. split; [by apply skip_insert_ok|by apply delete_ok]. Qed.

Lemma skip_search_correct_witness : ∃ p, search 5 createSkipList = Ok (p, createSkipList, []) ∧ p = None.
Proof.
  destruct (skip_search_correct createSkipList [] 5 rep_create) as (p & Hs & Hp & _); [constructor|].
  exists p. split; [done|]. apply Hp. apply not_elem_of_nil.
Defined.

Lemma skip_update_correct_witness :
  ∃ s' ns', insert [true; true] 5 createSkipList = Ok (tt, s', []) ∧ rep s' ns' ∧ ordered ns' ∧ nkey <$> ns' = [5%Z].
Proof.
  apply (skip_update_correct createSkipList [] 5 [true; true] rep_create); [constructor|]. right. constructor.
Defined.

(** A key can be lost: when a key is drawn a level above the list's level
    while a smaller key is on the top level, the loop that raises the level
    overwrites [update] of the old top level with the header, so the new node is
    put in front of the smaller key there: after 10 on level 0 and 20 on level 1
    the list reads 20, 10, and [search] of 10 returns NULL. *)
Theorem skip_insert_loses_key :
  ∃ s s', insert [] 10 createSkipList = Ok (tt, s, []) ∧ insert [true] 20 s = Ok (tt, s', []) ∧
    search 10 s' = Ok (None, s', []) ∧
    (∃ a b, a ≠ b ∧ lchain (heap s') 0 (header s') [a; b] ∧ key_of (heap s') a = Some 20%Z ∧ key_of (heap s') b = Some 10%Z).
Proof.
  eexists _, _. split; [vm_compute; reflexivity|]. split; [vm_compute; reflexivity|]. split; [vm_compute; reflexivity|].
  eexists _, _. split_and!; [|vm_compute; split_and!; reflexivity|vm_compute; reflexivity|vm_compute; reflexivity]. done.
Qed.

End SkipTheorems.

(** ** [bloom-filter.c] *)
Module Bloom.

Definition BLOOM_SIZE : Z := 20.

(** The characters of a word as values of [char], which is signed here. *)
Definition char_code (c : Ascii.ascii) : Z :=
  let n := Z.of_nat (Ascii.nat_of_ascii c) in if (n <? 128)%Z then n else (n - 256)%Z.

Definition codes (word : string) : list Z := char_code <$> String.list_ascii_of_string word.

(** The sums stay below [2 ^ 31] for a word of at most 5,800 characters. *)
Definition hashFunone (word : string) : Z := Z.rem (foldl Z.add 0%Z (codes word)) BLOOM_SIZE.

(** The loop of [hashFuntwo] from position [i] on. *)
Fixpoint weighted (i : Z) (l : list Z) : Z :=
  match l with [] => 0%Z | c :: l => ((i + 1) * c + weighted (i + 1) l)%Z end.

Definition hashFuntwo (word : string) : Z := Z.rem (weighted 0 (codes word)) BLOOM_SIZE.

(** [bloom_filter]. *)
Abbreviation filter_t := (list Z).

Definition printBloom : C filter_t unit :=
  a ← get; for_each (λ b, printf (d b +:+ " ")) a ;; printf nl.

Definition insert (word : string) : C filter_t unit :=
  let firstIndex := hashFunone word in
  let secondIndex := hashFuntwo word in
  a ← get; a ← lift (aset a firstIndex 1%Z); a ← lift (aset a secondIndex 1%Z); put a ;;
  printf ("inserted " +:+ word +:+ " at indices " +:+ d firstIndex +:+ " and " +:+ d secondIndex +:+ nl) ;;
  printBloom.

Definition search (word : string) : C filter_t Z :=
  let firstIndex := hashFunone word in
  let secondIndex := hashFuntwo word in
  a ← get;
  b1 ← lift (aget a firstIndex);
  hit ← lift (and_sc (b1 =? 1)%Z (b2 ← aget a secondIndex; Ok (b2 =? 1)%Z));
  if hit : bool then
    printf (dquote +:+ word +:+ dquote +:+ " is possibly present at position " +:+ d firstIndex +:+ " " +:+ d secondIndex +:+ nl) ;;
    mret 1%Z
  else
    printf (dquote +:+ word +:+ dquote +:+ " Definitely not present at position " +:+ d firstIndex +:+ " " +:+ d secondIndex +:+ nl) ;;
    mret 0%Z.

Definition empty : filter_t := replicate (Z.to_nat BLOOM_SIZE) 0%Z.

Definition main : C filter_t unit :=
  put empty ;;
  insert "cat" ;; insert "dog" ;; insert "rat" ;; insert "bat" ;;
  search "cat" ;; search "cow" ;;
  printf ("After forcefully false position:" +:+ nl) ;;
  a ← get; a ← lift (aset a 9 1%Z); a ← lift (aset a 18 1%Z); put a ;;
  search "cow" ;; mret tt.

End Bloom.

(** ** What the filter promises *)
Module BloomSpec.
Import Bloom.

(** A word of 7-bit characters. *)
Definition plain (w : string) : Prop := Forall (λ c, (0 ≤ c)%Z) (codes w).

(** The positions a word sets. *)
Definition bit_of (i : nat) (w : string) : Prop :=
  i = Z.to_nat (hashFunone w) ∨ i = Z.to_nat (hashFuntwo w).

(** The filter [a] holds exactly the bits of [ws] besides those of [a0]. *)
Definition holds (a0 a : filter_t) (ws : list string) : Prop :=
  length a = length a0 ∧
  ∀ i, a !! i = Some 1%Z ↔ a0 !! i = Some 1%Z ∨ (i < length a0 ∧ ∃ w, w ∈ ws ∧ bit_of i w).

Lemma foldl_add_nonneg l acc : Forall (λ c, (0 ≤ c)%Z) l → (0 ≤ acc)%Z → (0 ≤ foldl Z.add acc l)%Z.
Proof. intros H. revert acc. induction H; intros acc Hacc; simpl; [done|]. apply IHForall. lia. Qed.

Lemma weighted_nonneg l i : Forall (λ c, (0 ≤ c)%Z) l → (0 ≤ i)%Z → (0 ≤ weighted i l)%Z.
Proof. intros H. revert i. induction H; intros i Hi; simpl; [done|]. specialize (IHForall (i + 1)%Z). nia. Qed.

Lemma hash_range w : plain w → (0 ≤ hashFunone w < BLOOM_SIZE)%Z ∧ (0 ≤ hashFuntwo w < BLOOM_SIZE)%Z.
Proof.
  intros Hw. unfold hashFunone, hashFuntwo, BLOOM_SIZE.
  split; apply Z.rem_bound_pos; try lia; [by apply foldl_add_nonneg|by apply weighted_nonneg].
Qed.

Lemma holds_nil a : holds a a [].
Proof. split; [done|]. intros i. split; [by left|]. intros [?|(_ & w & Hw & _)]; [done|]. by apply elem_of_nil in Hw. Qed.

Lemma holds_insert a0 a ws w :
  holds a0 a ws →
  holds a0 (<[Z.to_nat (hashFuntwo w) := 1%Z]> (<[Z.to_nat (hashFunone w) := 1%Z]> a)) (w :: ws).
Proof.
  intros [Hl Hb]. split; [by rewrite !length_insert|]. intros i. unfold bit_of in *.
  assert (a !! i = Some 1%Z → i < length a0) as Hlt by (intros H; apply lookup_lt_Some in H; lia).
  setoid_rewrite elem_of_cons. rewrite !list_lookup_insert_Some, length_insert. specialize (Hb i). split.
  - intros [(E & _ & ?)|(_ & [(E & _ & ?)|(_ & Ha)])]; [right; split; [lia|]; exists w; auto..|].
    apply Hb in Ha as [?|(? & v & ? & ?)]; [by left|]. right. split; [done|]. exists v. tauto.
  - intros H. destruct (decide (Z.to_nat (hashFuntwo w) = i)) as [E|Hn2].
    { left. split_and!; try done. destruct H as [H|[H _]]; [apply lookup_lt_Some in H; lia|lia]. }
    right. split; [done|]. destruct (decide (Z.to_nat (hashFunone w) = i)) as [E|Hn1].
    { left. split_and!; try done. destruct H as [H|[H _]]; [apply lookup_lt_Some in H; lia|lia]. }
    right. split; [done|]. apply Hb. destruct H as [?|(? & v & [->|Hv] & Hi)]; [by left|naive_solver|].
    right. eauto.
Qed.

Lemma printBloom_run a : ∃ out, printBloom a = Ok (tt, a, out).
Proof.
  eexists. unfold printBloom. eapply bind_Ok; [reflexivity|].
  eapply bind_Ok; [apply for_each_printf|reflexivity].
Qed.

Lemma insert_run w a :
  plain w → length a = Z.to_nat BLOOM_SIZE →
  ∃ out, insert w a =
    Ok (tt, <[Z.to_nat (hashFuntwo w) := 1%Z]> (<[Z.to_nat (hashFunone w) := 1%Z]> a), out).
Proof.
  intros Hw Hl. apply hash_range in Hw as [H1 H2]. unfold insert.
  destruct (printBloom_run (<[Z.to_nat (hashFuntwo w) := 1%Z]> (<[Z.to_nat (hashFunone w) := 1%Z]> a))) as [out Hp].
  eexists. c_run. rewrite aset_lt by lia. c_run. rewrite aset_lt by (rewrite length_insert; lia). c_run.
  rewrite Hp. reflexivity.
Qed.

Lemma inserts_run ws : ∀ a0 a seen,
  Forall plain ws → length a0 = Z.to_nat BLOOM_SIZE → holds a0 a seen →
  ∃ a' out, for_each insert ws a = Ok (tt, a', out) ∧ holds a0 a' (reverse ws ++ seen).
Proof.
  induction ws as [|w ws IH]; intros a0 a seen Hp Hl Hh; [by eexists _, _|].
  apply Forall_cons in Hp as [Hw Hp]. destruct (insert_run w a Hw) as [out Hi]; [rewrite (proj1 Hh); done|].
  destruct (IH a0 _ (w :: seen) Hp Hl (holds_insert _ _ _ w Hh)) as (a' & out' & Hr & Hh').
  eexists a', _. split; [exact (bind_Ok _ _ _ _ _ _ _ _ _ Hi Hr)|].
  by rewrite reverse_cons, <- app_assoc.
Qed.

End BloomSpec.

Section BloomTheorems.
Import Bloom BloomSpec.

(** After inserting 7-bit words into an empty filter, [search] of a 7-bit
    word changes nothing and returns 1 exactly when both its positions were set
    by inserted words, and 0 otherwise; in particular it returns 1 for every
    inserted word: the filter has no false negatives. *)
Theorem bloom_search_correct ws w :
  Forall plain ws → plain w →
  ∃ a out r out', for_each insert ws empty = Ok (tt, a, out) ∧ search w a = Ok (r, a, out') ∧
    (r = 0 ∨ r = 1)%Z ∧
    (r = 1%Z ↔ (∃ v, v ∈ ws ∧ bit_of (Z.to_nat (hashFunone w)) v) ∧
               (∃ v, v ∈ ws ∧ bit_of (Z.to_nat (hashFuntwo w)) v)) ∧
    (w ∈ ws → r = 1%Z).
Proof.
  intros Hp Hw. destruct (inserts_run ws empty empty [] Hp eq_refl (holds_nil _)) as (a & out & Hr & Hl & Hb).
  rewrite app_nil_r in Hb. change (length empty) with 20 in *. exists a, out.
  destruct (hash_range w Hw) as [H1 H2]. unfold BLOOM_SIZE in *.
  assert (∀ i, (0 ≤ i < 20)%Z → ∃ x, a !! Z.to_nat i = Some x ∧ aget a i = Ok x ∧
    ((x =? 1)%Z = true ↔ ∃ v, v ∈ ws ∧ bit_of (Z.to_nat i) v)) as Hbit.
  { intros i Hi. destruct (lookup_lt_is_Some_2 a (Z.to_nat i)) as [x Hx]; [rewrite Hl; lia|]. exists x.
    split_and!; [done|apply aget_Z; [lia|done]|]. rewrite Z.eqb_eq. specialize (Hb (Z.to_nat i)). rewrite Hx in Hb.
    split.
    - intros ->. destruct (proj1 Hb eq_refl) as [He|(_ & v & Hv & ?)]; [|exists v; by rewrite elem_of_reverse in Hv].
      apply lookup_replicate in He as [? _]. done.
    - intros (v & Hv & ?). enough (Some x = Some 1%Z) by congruence. apply Hb. right. split; [lia|].
      exists v. by rewrite elem_of_reverse. }
  destruct (Hbit _ H1) as (x & _ & Hx & Ex), (Hbit _ H2) as (y & _ & Hy & Ey).
  assert (w ∈ ws → (x =? 1)%Z = true ∧ (y =? 1)%Z = true) as Hin.
  { intros Hi. split; [apply Ex|apply Ey]; exists w; unfold bit_of; tauto. }
  assert (∃ out', search w a = Ok (if (x =? 1)%Z && (y =? 1)%Z then 1%Z else 0%Z, a, out')) as [out' Hs].
  { unfold search. c_run. rewrite Hx. c_run.
    destruct (x =? 1)%Z; c_run; [rewrite Hy; c_run; destruct (y =? 1)%Z|]; c_run; eexists; reflexivity. }
  eexists _, out'. split; [exact Hr|]. split; [exact Hs|]. rewrite <- Ex, <- Ey.
  destruct (x =? 1)%Z, (y =? 1)%Z; naive_solver.
Qed.

Lemma bloom_search_correct_witness :
  ∃ a out r out', for_each insert ["cat"; "dog"] empty = Ok (tt, a, out) ∧ search "cat" a = Ok (r, a, out') ∧ r = 1%Z.
Proof.
  destruct (bloom_search_correct ["cat"; "dog"] "cat") as (a & out & r & out' & H1 & H2 & _ & _ & H3).
  - repeat constructor; vm_compute; discriminate.
  - repeat constructor; vm_compute; discriminate.
  - exists a, out, r, out'. split_and!; [done|done|]. apply H3. left.
Defined.

(** The run of [main]: 'cow' is found absent, and then, with positions 9 and 18
    set by hand, reported as possibly present although it was never inserted. *)
Lemma bloom_false_positive :
  ∃ a out, (put empty ;; insert "cat" ;; insert "dog" ;; insert "rat" ;; insert "bat" ;; search "cow") []
    = Ok (0%Z, a, out) ∧
  ∃ a' out', (b ← lift (aset a 9 1%Z); b ← lift (aset b 18 1%Z); put b ;; search "cow") a = Ok (1%Z, a', out').
Proof. eexists _, _. split; [vm_compute; reflexivity|]. eexists _, _. vm_compute. reflexivity. Qed.

(** A character above 127 makes the sum negative, and C's [%] keeps the sign: the
    index is negative and [insert] writes outside the array. *)
Lemma bloom_negative_index :
  insert (String.String (Ascii.ascii_of_nat 233) String.EmptyString) empty = UB OutOfBounds.
Proof. reflexivity. Qed.

End BloomTheorems.
