(* ===== verification/Allocators.v ===== *)
(** * Memory allocators

    [LeetAllocator] is day-5(Leetcode_LRU)/leetcode-memory-allocator.c, an array
    of units given out to owners by first fit; [BumpPool] is
    day-1(Heap_Mem)/memory-pool.c, a pool of equal blocks given out in order.
    The [Spec] modules state what is promised of each. *)
From stdpp Require Import base list gmap strings pretty.
From Stdlib Require Import ZArith Lia.
From Stdlib Require Ascii String.
From S2P Require Import Prelude.
Local Open Scope Z_scope.

(** ** [leetcode-memory-allocator.c] *)
Module LeetAllocator.

Abbreviation cells := (gmap positive (list (option Z))).

(** The arrays of positions are reached through the pointers in
    [mIDPositions]; [heap] holds those that are allocated. *)
Record Allocator : Set := mkAllocator {
  memory : list Z;
  size : Z;
  mIDPositions : list ptr;
  mIDCounts : list Z;
  heap : cells
}.

Definition allocatorCreate (n : Z) : Allocator :=
  mkAllocator (replicate (Z.to_nat n) 0) n (replicate 1001 None) (replicate 1001 0) ∅.

(** [realloc] to [n] cells; the new ones are not initialised. *)
Definition realloc (h : cells) (p : ptr) (n : Z) : res (ptr * cells) :=
  match p with
  | None => let '(l, h) := malloc h (replicate (Z.to_nat n) None) in Ok (Some l, h)
  | Some l =>
      a ← load h p;
      Ok (p, <[l := take (Z.to_nat n) a ++ replicate (Z.to_nat n - length a) None]> h)
  end.

(** The loop over [jterator], from [j] on, [n] rounds. *)
Fixpoint mark (n : nat) (j start mID : Z) (obj : Allocator) : res Allocator :=
  match n with
  | O => Ok obj
  | S n =>
      m ← aset (memory obj) (start + j) mID;
      p ← aget (mIDPositions obj) mID;
      c ← aget (mIDCounts obj) mID;
      a ← load (heap obj) p;
      a ← aset a c (Some (start + j));
      h ← store (heap obj) p a;
      cs ← aset (mIDCounts obj) mID (c + 1);
      mark n (j + 1) start mID (mkAllocator m (size obj) (mIDPositions obj) cs h)
  end.

(** The block that ends at [iterator] is taken. *)
Definition take_block (iterator sz mID : Z) (obj : Allocator) : res (Z * Allocator) :=
  let start := iterator - sz + 1 in
  p ← aget (mIDPositions obj) mID;
  c ← aget (mIDCounts obj) mID;
  r ← realloc (heap obj) p (c + sz);
  ps ← aset (mIDPositions obj) mID (fst r);
  obj ← mark (Z.to_nat sz) 0 start mID (mkAllocator (memory obj) (size obj) ps (mIDCounts obj) (snd r));
  Ok (start, obj).

(** The loop over [iterator]: [n] units are left. *)
Fixpoint allocate_loop (n : nat) (iterator count sz mID : Z) (obj : Allocator) : res (Z * Allocator) :=
  match n with
  | O => Ok (-1, obj)
  | S n =>
      x ← aget (memory obj) iterator;
      let count := if x =? 0 then count + 1 else 0 in
      if count =? sz then take_block iterator sz mID obj
      else allocate_loop n (iterator + 1) count sz mID obj
  end.

Definition allocatorAllocate (obj : Allocator) (sz mID : Z) : res (Z * Allocator) :=
  allocate_loop (Z.to_nat (size obj)) 0 0 sz mID obj.

(** The loop of [allocatorFreeMemory], [n] rounds from [i] on. *)
Fixpoint clear (n : nat) (i mID : Z) (obj : Allocator) : res Allocator :=
  match n with
  | O => Ok obj
  | S n =>
      p ← aget (mIDPositions obj) mID;
      a ← load (heap obj) p;
      k ← uget a i;
      m ← aset (memory obj) k 0;
      clear n (i + 1) mID (mkAllocator m (size obj) (mIDPositions obj) (mIDCounts obj) (heap obj))
  end.

Definition allocatorFreeMemory (obj : Allocator) (mID : Z) : res (Z * Allocator) :=
  freed ← aget (mIDCounts obj) mID;
  obj ← clear (Z.to_nat freed) 0 mID obj;
  p ← aget (mIDPositions obj) mID;
  h ← free (heap obj) p;
  ps ← aset (mIDPositions obj) mID None;
  cs ← aset (mIDCounts obj) mID 0;
  Ok (freed, mkAllocator (memory obj) (size obj) ps cs h).

Fixpoint free_all (h : cells) (ps : list ptr) : res cells :=
  match ps with
  | [] => Ok h
  | p :: ps => h ← free h p; free_all h ps
  end.

(** What is left of the arrays of positions; the other four [free]s give back
    the arrays of the record and the record. *)
Definition allocatorFree (obj : Allocator) : res cells := free_all (heap obj) (mIDPositions obj).

End LeetAllocator.

(** ** What the allocator promises *)
Module LeetSpec.
Import LeetAllocator.

(** The block of [n] units from [r] on is free. *)
Definition free_block (m : list Z) (r n : nat) : Prop :=
  ∀ i, (r ≤ i < r + n)%nat → m !! i = Some 0.

(** Writing [x] into [n] units from [k] on. *)
Fixpoint fill (n k : nat) (x : Z) (m : list Z) : list Z :=
  match n with O => m | S n => fill n (S k) x (<[k := x]> m) end.

(** Every owner's list [own id] is exactly the list of its units. *)
Record inv (s : Allocator) (own : nat → list nat) : Prop := mkinv {
  i_size : size s = Z.of_nat (length (memory s));
  i_positions : length (mIDPositions s) = 1001%nat;
  i_counts : ∀ id, (id ≤ 1000)%nat → mIDCounts s !! id = Some (Z.of_nat (length (own id)));
  i_array : ∀ id l, mIDPositions s !! id = Some (Some l) →
    heap s !! l = Some ((Some ∘ Z.of_nat) <$> own id);
  i_null : ∀ id, mIDPositions s !! id = Some None → own id = [];
  i_nodup : ∀ id, NoDup (own id);
  i_own : ∀ id k, k ∈ own id ↔ (1 ≤ id ≤ 1000)%nat ∧ memory s !! k = Some (Z.of_nat id);
  i_inj : ∀ i j l, mIDPositions s !! i = Some (Some l) → mIDPositions s !! j = Some (Some l) → i = j;
  i_noleak : ∀ l, is_Some (heap s !! l) → ∃ i, mIDPositions s !! i = Some (Some l);
  i_range : Forall (λ x, 0 ≤ x ≤ 1000) (memory s)
}.

Lemma length_fill n k x m : length (fill n k x m) = length m.
Proof. revert k m. induction n as [|n IH]; intros k m; simpl; [done|]. by rewrite IH, length_insert. Qed.

Lemma lookup_fill n k x m i :
  (k + n ≤ length m)%nat → fill n k x m !! i = if decide (k ≤ i < k + n)%nat then Some x else m !! i.
Proof.
  revert k m. induction n as [|n IH]; intros k m Hl; simpl; [by rewrite decide_False by lia|].
  rewrite IH by (rewrite length_insert; lia). destruct (decide (i = k)) as [->|Hne].
  - rewrite decide_False, decide_True by lia. apply list_lookup_insert_eq. lia.
  - rewrite list_lookup_insert_ne by done. repeat case_decide; lia || done.
Qed.

Lemma mark_ok mID l n : ∀ j start ps s,
  mIDPositions s !! Z.to_nat mID = Some (Some l) → (0 ≤ mID) →
  heap s !! l = Some (((Some ∘ Z.of_nat) <$> ps) ++ replicate n None) →
  mIDCounts s !! Z.to_nat mID = Some (Z.of_nat (length ps)) →
  0 ≤ start + j → (Z.to_nat (start + j) + n ≤ length (memory s))%nat →
  mark n j start mID s =
    Ok (mkAllocator (fill n (Z.to_nat (start + j)) mID (memory s)) (size s) (mIDPositions s)
         (<[Z.to_nat mID := Z.of_nat (length ps + n)]> (mIDCounts s))
         (<[l := (Some ∘ Z.of_nat) <$> ps ++ seq (Z.to_nat (start + j)) n]> (heap s))).
Proof.
  induction n as [|n IH]; intros j start ps s Hp Hid Hh Hc H0 Hl; cbn [mark].
  - rewrite app_nil_r in *. rewrite Nat.add_0_r, list_insert_id, insert_id by done. by destruct s.
  - rewrite aset_lt by lia. csimpl. rewrite (aget_Z _ _ _ Hid Hp). csimpl. rewrite (aget_Z _ _ _ Hid Hc). csimpl.
    rewrite (load_Some _ _ _ Hh). csimpl.
    rewrite aset_nat by (rewrite length_app, length_fmap; simpl; lia). csimpl.
    rewrite (store_Some _ _ _ _ Hh). csimpl.
    pose proof (lookup_lt_Some _ _ _ Hc). rewrite aset_lt by lia. csimpl.
    rewrite (IH _ _ (ps ++ [Z.to_nat (start + j)])); csimpl; try done.
    + replace (Z.to_nat (start + (j + 1))) with (S (Z.to_nat (start + j))) by lia.
      rewrite list_insert_insert_eq, insert_insert_eq, length_app, <- app_assoc. simpl.
      by replace (length ps + 1 + n)%nat with (length ps + S n)%nat by lia.
    + rewrite lookup_insert_eq. f_equal. rewrite fmap_app, <- app_assoc. simpl.
      rewrite insert_app_r_alt by (rewrite length_fmap; lia). rewrite length_fmap, Nat.sub_diag. simpl.
      do 3 f_equal. simpl. f_equal. lia.
    + rewrite list_lookup_insert_eq by done. rewrite length_app. f_equal. simpl. lia.
    + lia.
    + rewrite length_insert. lia.
Qed.

Lemma realloc_ok s own id p n :
  inv s own → mIDPositions s !! id = Some p →
  ∃ l, realloc (heap s) p (Z.of_nat (length (own id)) + Z.of_nat n) =
    Ok (Some l, <[l := ((Some ∘ Z.of_nat) <$> own id) ++ replicate n None]> (heap s)) ∧
    (p = Some l ∨ p = None ∧ heap s !! l = None).
Proof.
  intros Hi Hp. rewrite <- Nat2Z.inj_add. destruct p as [l|]; unfold realloc.
  - exists l. rewrite (load_Some _ _ _ (i_array _ _ Hi _ _ Hp)). csimpl. split; [|by left].
    rewrite Nat2Z.id, length_fmap, take_ge by (rewrite length_fmap; lia).
    by replace (length (own id) + n - length (own id))%nat with n by lia.
  - exists (fresh (dom (heap s))). rewrite (i_null _ _ Hi _ Hp). csimpl. rewrite Nat2Z.id.
    split; [done|]. right. split; [done|]. apply fresh_lookup.
Qed.

Lemma inv_lookup s own id : inv s own → (id ≤ 1000)%nat → ∃ p, mIDPositions s !! id = Some p.
Proof. intros Hi Hid. apply lookup_lt_is_Some_2. rewrite (i_positions _ _ Hi). lia. Qed.

Lemma own_lt s own id k : inv s own → k ∈ own id → (k < length (memory s))%nat.
Proof. intros Hi Hk. apply (i_own _ _ Hi) in Hk as [_ Hk]. by apply lookup_lt_Some in Hk. Qed.

(** The state after a block was taken. *)
Definition taken (s : Allocator) (own : nat → list nat) (id r n : nat) (l : positive) : Allocator :=
  mkAllocator (fill n r (Z.of_nat id) (memory s)) (size s) (<[id := Some l]> (mIDPositions s))
    (<[id := Z.of_nat (length (own id) + n)]> (mIDCounts s))
    (<[l := (Some ∘ Z.of_nat) <$> own id ++ seq r n]> (heap s)).

Definition give (own : nat → list nat) (id : nat) (ks : list nat) (i : nat) : list nat :=
  if decide (i = id) then ks else own i.

Lemma taken_inv s own id r n l p :
  inv s own → (1 ≤ id ≤ 1000)%nat → (r + n ≤ length (memory s))%nat → free_block (memory s) r n →
  mIDPositions s !! id = Some p → (p = Some l ∨ p = None ∧ heap s !! l = None) →
  inv (taken s own id r n l) (give own id (own id ++ seq r n)).
Proof.
  intros Hi Hid Hlen Hfree Hp Hl.
  assert (∀ j, j ≠ id → mIDPositions s !! j ≠ Some (Some l)) as Hother.
  { intros j Hj Hjl. destruct Hl as [->|[-> Hn]]; [by apply Hj, (i_inj _ _ Hi _ _ l)|].
    rewrite (i_array _ _ Hi _ _ Hjl) in Hn. done. }
  pose proof (lookup_lt_Some _ _ _ Hp) as Hplt. pose proof (lookup_lt_Some _ _ _ (i_counts _ _ Hi id ltac:(lia))) as Hclt.
  constructor; unfold taken, give; simpl.
  - rewrite length_fill. apply (i_size _ _ Hi).
  - rewrite length_insert. apply (i_positions _ _ Hi).
  - intros j Hj. case_decide as E; [subst j|].
    + rewrite list_lookup_insert_eq by done. by rewrite length_app, length_seq.
    + rewrite list_lookup_insert_ne by done. by apply (i_counts _ _ Hi).
  - intros j l' Hj. case_decide as E; [subst j|].
    + rewrite list_lookup_insert_eq in Hj by done. simplify_eq. by rewrite lookup_insert_eq.
    + rewrite list_lookup_insert_ne in Hj by done. rewrite lookup_insert_ne by (intros ->; by apply (Hother j)).
      by apply (i_array _ _ Hi).
  - intros j Hj. case_decide as E; [subst j; by rewrite list_lookup_insert_eq in Hj|].
    rewrite list_lookup_insert_ne in Hj by done. by apply (i_null _ _ Hi).
  - intros j. case_decide as E; [subst j|apply (i_nodup _ _ Hi)]. apply NoDup_app. split_and!; [apply (i_nodup _ _ Hi)| |apply NoDup_seq].
    intros k Hk Hs. apply elem_of_seq in Hs. apply (i_own _ _ Hi) in Hk as [_ Hk]. rewrite Hfree in Hk by lia. injection Hk. lia.
  - intros j k. rewrite lookup_fill by done. pose proof (i_own _ _ Hi j k) as Ho. specialize (Hfree k).
    case_decide as E; [subst j; rewrite elem_of_app, elem_of_seq, Ho|rewrite Ho]; case_decide; try naive_solver lia.
  - intros i j l'. destruct (decide (i = id)) as [->|E1], (decide (j = id)) as [->|E2]; try done.
    + rewrite list_lookup_insert_eq, list_lookup_insert_ne by done. intros [= <-] H. by destruct (Hother j).
    + rewrite list_lookup_insert_eq, list_lookup_insert_ne by done. intros H [= <-]. by destruct (Hother i).
    + rewrite !list_lookup_insert_ne by done. apply (i_inj _ _ Hi).
  - intros l'. destruct (decide (l' = l)) as [->|E].
    + intros _. exists id. by rewrite list_lookup_insert_eq.
    + rewrite lookup_insert_ne by done. intros [j Hj]%(i_noleak _ _ Hi). exists j.
      rewrite list_lookup_insert_ne; [done|]. intros <-. destruct Hl as [->|[-> _]]; congruence.
  - apply Forall_lookup. intros k x. rewrite lookup_fill by done. case_decide; [intros [= <-]; lia|].
    apply (Forall_lookup_1 _ _ k x (i_range _ _ Hi)).
Qed.

Lemma take_block_ok s own id r n :
  inv s own → (1 ≤ id ≤ 1000)%nat → (1 ≤ n)%nat → (r + n ≤ length (memory s))%nat → free_block (memory s) r n →
  ∃ s', take_block (Z.of_nat (r + n) - 1) (Z.of_nat n) (Z.of_nat id) s = Ok (Z.of_nat r, s') ∧
    memory s' = fill n r (Z.of_nat id) (memory s) ∧ inv s' (give own id (own id ++ seq r n)).
Proof.
  intros Hi Hid Hn Hlen Hfree. destruct (inv_lookup s own id Hi) as [p Hp]; [lia|].
  destruct (realloc_ok s own id p n Hi Hp) as (l & Hre & Hl).
  exists (taken s own id r n l). split; [|split; [done|by eapply taken_inv]].
  pose proof (lookup_lt_Some _ _ _ Hp).
  unfold take_block. rewrite (aget_lookup _ _ _ Hp). csimpl.
  rewrite (aget_lookup _ _ _ (i_counts _ _ Hi id ltac:(lia))). csimpl. rewrite Hre. csimpl.
  rewrite aset_nat by done. csimpl. rewrite Nat2Z.id.
  replace (Z.of_nat (r + n) - 1 - Z.of_nat n + 1) with (Z.of_nat r) by lia.
  rewrite (mark_ok _ l _ _ _ (own id)); csimpl; rewrite ?Nat2Z.id, ?Z.add_0_r, ?Nat2Z.id; try done; try lia.
  - unfold taken. by rewrite insert_insert_eq.
  - by rewrite list_lookup_insert_eq.
  - by rewrite lookup_insert_eq.
  - apply (i_counts _ _ Hi). lia.
Qed.

(** The loop over [iterator]: [c] free units end before [it], a used one stands
    before them, and no block of [n] units is free before [it]. *)
Lemma allocate_loop_ok s own id n :
  inv s own → (1 ≤ id ≤ 1000)%nat → (1 ≤ n)%nat → ∀ k it c,
  (it + k = length (memory s))%nat → (c ≤ it)%nat → (c < n)%nat → free_block (memory s) (it - c) c →
  (∀ r, (r + n ≤ it)%nat → ¬ free_block (memory s) r n) →
  ((c < it)%nat → memory s !! (it - c - 1)%nat ≠ Some 0) →
  ∃ r s', allocate_loop k (Z.of_nat it) (Z.of_nat c) (Z.of_nat n) (Z.of_nat id) s = Ok (r, s') ∧
    ((r = -1 ∧ s' = s ∧ ∀ r, (r + n ≤ length (memory s))%nat → ¬ free_block (memory s) r n) ∨
     ∃ b, r = Z.of_nat b ∧ (b + n ≤ length (memory s))%nat ∧ free_block (memory s) b n ∧
       (∀ r, (r < b)%nat → ¬ free_block (memory s) r n) ∧
       memory s' = fill n b (Z.of_nat id) (memory s) ∧ inv s' (give own id (own id ++ seq b n))).
Proof.
  intros Hi Hid Hn. induction k as [|k IH]; intros it c Hlen Hc Hcn Hfree Hno Hused; cbn [allocate_loop].
  - exists (-1), s. split; [done|]. left. split_and!; try done. intros r Hr. apply Hno. lia.
  - destruct (lookup_lt_is_Some_2 (memory s) it) as [x Hx]; [lia|].
    rewrite (aget_lookup _ _ _ Hx). csimpl. replace (Z.of_nat it + 1) with (Z.of_nat (S it)) by lia.
    destruct (Z.eqb_spec x 0) as [->|Hx0].
    + assert (free_block (memory s) (it - c) (S c)) as Hf'.
      { intros i Hrange. destruct (decide (i = it)) as [->|]; [done|]. apply Hfree. lia. }
      replace (Z.of_nat c + 1) with (Z.of_nat (S c)) by lia. destruct (Z.eqb_spec (Z.of_nat (S c)) (Z.of_nat n)) as [E|E].
      * assert (n = S c) as -> by lia. destruct (take_block_ok s own id (it - c) (S c)) as (s' & Hs' & Hm & Hi'); try done; [lia|].
        replace (Z.of_nat (it - c + S c) - 1) with (Z.of_nat it) in Hs' by lia.
        exists (Z.of_nat (it - c)), s'. split; [done|]. right. exists (it - c)%nat. split_and!; try done; [lia|].
        intros r Hr. apply Hno. lia.
      * apply IH; try lia; [by replace (S it - S c)%nat with (it - c)%nat by lia| |].
        -- intros r Hr. destruct (decide (r + n ≤ it)%nat); [by apply Hno|]. intros Hb.
           apply (Hused ltac:(lia)). apply Hb. lia.
        -- intros Hlt. replace (S it - S c - 1)%nat with (it - c - 1)%nat by lia. apply Hused. lia.
    + destruct (Z.eqb_spec 0 (Z.of_nat n)); [lia|].
      apply (IH (S it) 0%nat); try lia; [intros i Hrange; lia| |].
      * intros r Hr Hb. destruct (decide (r + n ≤ it)%nat); [by apply (Hno r)|]. specialize (Hb it ltac:(lia)). congruence.
      * intros _. replace (S it - 0 - 1)%nat with it by lia. congruence.
Qed.

(** *** Giving back *)

Definition wipe (ks : list nat) (m : list Z) : list Z := foldl (λ m k, <[k := 0]> m) m ks.

Lemma length_wipe ks m : length (wipe ks m) = length m.
Proof. unfold wipe. revert m. induction ks as [|k ks IH]; intros m; simpl; [done|]. by rewrite IH, length_insert. Qed.

Lemma lookup_wipe ks m i :
  Forall (λ k, (k < length m)%nat) ks → wipe ks m !! i = if decide (i ∈ ks) then Some 0 else m !! i.
Proof.
  unfold wipe. intros H. revert m H. induction ks as [|k ks IH]; intros m H; cbn [foldl];
    [by rewrite decide_False by apply not_elem_of_nil|].
  apply Forall_cons in H as [H1 H2]. rewrite IH by (by rewrite length_insert).
  destruct (decide (i = k)) as [->|Hne].
  - rewrite list_lookup_insert_eq by done. rewrite (decide_True (P := k ∈ k :: ks)) by left. by case_decide.
  - rewrite list_lookup_insert_ne by done. repeat case_decide; try done; set_solver.
Qed.

Lemma clear_ok id l ks : ∀ ds s,
  mIDPositions s !! id = Some (Some l) → heap s !! l = Some ((Some ∘ Z.of_nat) <$> ds ++ ks) →
  Forall (λ k, (k < length (memory s))%nat) ks →
  clear (length ks) (Z.of_nat (length ds)) (Z.of_nat id) s =
    Ok (mkAllocator (wipe ks (memory s)) (size s) (mIDPositions s) (mIDCounts s) (heap s)).
Proof.
  induction ks as [|k ks IH]; intros ds s Hp Hh Hf; cbn [length clear]; [by destruct s|].
  apply Forall_cons in Hf as [Hk Hf]. rewrite (aget_lookup _ _ _ Hp). csimpl. rewrite (load_Some _ _ _ Hh). csimpl.
  unfold uget. rewrite (aget_lookup _ _ (Some (Z.of_nat k))).
  - csimpl. rewrite aset_nat by done. csimpl.
    replace (Z.of_nat (length ds) + 1) with (Z.of_nat (length (ds ++ [k]))) by (rewrite length_app; simpl; lia).
    rewrite IH; csimpl; try done; [by rewrite <- app_assoc|by rewrite length_insert].
  - rewrite list_lookup_fmap, lookup_app_r by done. by rewrite Nat.sub_diag.
Qed.

Lemma filter_ext_in {A} (P Q : A → Prop) `{!∀ x, Decision (P x), !∀ x, Decision (Q x)} (l : list A) :
  (∀ x, x ∈ l → P x ↔ Q x) → filter P l = filter Q l.
Proof.
  induction l as [|x l IH]; intros Heq; [done|]. rewrite !filter_cons.
  rewrite IH by (intros y Hy; apply Heq; by right). specialize (Heq x (list_elem_of_here x l)).
  repeat case_decide; tauto || done.
Qed.

(** The units of an owner, in order. *)
Definition units (x : Z) (m : list Z) : list nat := filter (λ k, m !! k = Some x) (seq 0 (length m)).

Lemma length_units x m : length (units x m) = length (filter (λ y, y = x) m).
Proof.
  unfold units. induction m as [|y m IH] using rev_ind; [done|].
  rewrite length_app, Nat.add_1_r, seq_S, !filter_app, !length_app. f_equal.
  - rewrite <- IH. f_equal. apply filter_ext_in. intros k Hk. apply elem_of_seq in Hk.
    by rewrite lookup_app_l by lia.
  - rewrite !filter_cons, !filter_nil. rewrite lookup_app_r, Nat.sub_diag by lia. simpl.
    repeat case_decide; simplify_eq; done.
Qed.

Lemma own_units s own id :
  inv s own → (1 ≤ id ≤ 1000)%nat → length (own id) = length (filter (λ y, y = Z.of_nat id) (memory s)).
Proof.
  intros Hi Hid. rewrite <- length_units. apply Permutation_length, NoDup_Permutation; [apply (i_nodup _ _ Hi)| |].
  - unfold units. apply NoDup_filter, NoDup_seq.
  - intros k. unfold units. rewrite list_elem_of_filter, elem_of_seq, (i_own _ _ Hi).
    split; [intros [_ Hk]; split; [done|]; apply lookup_lt_Some in Hk; lia|naive_solver].
Qed.

Definition release (id : nat) (m : list Z) : list Z := (λ x, if decide (x = Z.of_nat id) then 0 else x) <$> m.

Lemma wipe_own s own id : inv s own → (1 ≤ id ≤ 1000)%nat → wipe (own id) (memory s) = release id (memory s).
Proof.
  intros Hi Hid. apply list_eq. intros k. rewrite lookup_wipe by (apply Forall_forall; intros; by eapply own_lt).
  unfold release. rewrite list_lookup_fmap. pose proof (i_own _ _ Hi id k) as Ho.
  destruct (memory s !! k) as [x|] eqn:Hx; csimpl; repeat case_decide; naive_solver.
Qed.

(** The state after the units of an owner were given back. *)
Definition freed (s : Allocator) (id : nat) (p : ptr) : Allocator :=
  mkAllocator (release id (memory s)) (size s) (<[id := None]> (mIDPositions s)) (<[id := 0]> (mIDCounts s))
    (match p with Some l => delete l (heap s) | None => heap s end).

Lemma freed_inv s own id p :
  inv s own → (1 ≤ id ≤ 1000)%nat → mIDPositions s !! id = Some p → inv (freed s id p) (give own id []).
Proof.
  intros Hi Hid Hp. pose proof (lookup_lt_Some _ _ _ Hp) as Hplt.
  pose proof (lookup_lt_Some _ _ _ (i_counts _ _ Hi id ltac:(lia))) as Hclt.
  constructor; unfold freed, give, release; simpl.
  - rewrite length_fmap. apply (i_size _ _ Hi).
  - rewrite length_insert. apply (i_positions _ _ Hi).
  - intros j Hj. case_decide as E; [subst j; by rewrite list_lookup_insert_eq|].
    rewrite list_lookup_insert_ne by done. by apply (i_counts _ _ Hi).
  - intros j l Hj. case_decide as E; [subst j; by rewrite list_lookup_insert_eq in Hj|].
    rewrite list_lookup_insert_ne in Hj by done. rewrite <- (i_array _ _ Hi _ _ Hj).
    destruct p as [l'|]; [|done]. apply lookup_delete_ne. intros ->. by apply E, (i_inj _ _ Hi _ _ l).
  - intros j Hj. case_decide as E; [done|]. rewrite list_lookup_insert_ne in Hj by done. by apply (i_null _ _ Hi).
  - intros j. case_decide as E; [constructor|apply (i_nodup _ _ Hi)].
  - intros j k. rewrite list_lookup_fmap. pose proof (i_own _ _ Hi j k) as Ho.
    case_decide as E; [subst j; rewrite elem_of_nil|rewrite Ho];
      destruct (memory s !! k) as [x|] eqn:Hx; csimpl; repeat case_decide; naive_solver lia.
  - intros i j l Hil Hjl. destruct (decide (i = id)) as [->|]; [by rewrite list_lookup_insert_eq in Hil|].
    destruct (decide (j = id)) as [->|]; [by rewrite list_lookup_insert_eq in Hjl|].
    rewrite list_lookup_insert_ne in Hil, Hjl by done. by apply (i_inj _ _ Hi _ _ l).
  - intros l Hl. destruct (i_noleak _ _ Hi l) as [i Hil].
    { destruct p; [|done]. destruct Hl as [a Ha]. apply lookup_delete_Some in Ha as [_ Ha]. by exists a. }
    exists i. destruct (decide (i = id)) as [->|]; [|by rewrite list_lookup_insert_ne].
    rewrite Hil in Hp. simplify_eq. rewrite lookup_delete_eq in Hl. by destruct Hl.
  - apply Forall_fmap. eapply Forall_impl; [apply (i_range _ _ Hi)|]. intros x Hx. unfold compose. cbn beta in Hx |- *. destruct (decide _); lia.
Qed.

Lemma free_memory_ok s own id :
  inv s own → (1 ≤ id ≤ 1000)%nat →
  ∃ p, mIDPositions s !! id = Some p ∧
    allocatorFreeMemory s (Z.of_nat id) = Ok (Z.of_nat (length (own id)), freed s id p).
Proof.
  intros Hi Hid. destruct (inv_lookup s own id Hi) as [p Hp]; [lia|]. exists p. split; [done|].
  pose proof (i_counts _ _ Hi id ltac:(lia)) as Hc. pose proof (lookup_lt_Some _ _ _ Hp). pose proof (lookup_lt_Some _ _ _ Hc).
  assert (clear (length (own id)) 0 (Z.of_nat id) s =
    Ok (mkAllocator (release id (memory s)) (size s) (mIDPositions s) (mIDCounts s) (heap s))) as Hclear.
  { rewrite <- (wipe_own s own id Hi Hid). destruct p as [l|].
    - apply (clear_ok id l (own id) []); [done|by apply (i_array _ _ Hi)|apply Forall_forall; intros; by eapply own_lt].
    - rewrite (i_null _ _ Hi _ Hp). by destruct s. }
  unfold allocatorFreeMemory. rewrite (aget_lookup _ _ _ Hc). csimpl. rewrite Nat2Z.id, Hclear. csimpl.
  rewrite (aget_lookup _ _ _ Hp). csimpl.
  destruct p as [l|]; [rewrite (free_Some _ _ _ (i_array _ _ Hi _ _ Hp))|]; csimpl; by rewrite !aset_nat by done.
Qed.

(** *** Creation and destruction *)

Lemma create_inv n : 0 ≤ n → inv (allocatorCreate n) (λ _, []).
Proof.
  intros Hn. constructor; unfold allocatorCreate; cbn [memory size mIDPositions mIDCounts heap].
  - rewrite length_replicate. lia.
  - apply length_replicate.
  - intros id Hid. by rewrite lookup_replicate_2 by lia.
  - intros id l Hl. by apply lookup_replicate in Hl as [? _].
  - done.
  - constructor.
  - intros id k. rewrite elem_of_nil. split; [done|]. intros [Hid [Hk _]%lookup_replicate]. lia.
  - intros i j l Hl. by apply lookup_replicate in Hl as [? _].
  - intros l [a Ha]. by rewrite lookup_empty in Ha.
  - apply Forall_replicate. lia.
Qed.

Lemma free_all_ok ps : ∀ h : cells,
  (∀ i j l, ps !! i = Some (Some l) → ps !! j = Some (Some l) → i = j) →
  (∀ i l, ps !! i = Some (Some l) → is_Some (h !! l)) →
  (∀ l, is_Some (h !! l) → ∃ i, ps !! i = Some (Some l)) → free_all h ps = Ok ∅.
Proof.
  induction ps as [|p ps IH]; intros h Hinj Hlive Hleak; cbn [free_all].
  - f_equal. apply map_empty. intros l. apply eq_None_not_Some. by intros [i Hi]%Hleak.
  - assert (∀ i j l, ps !! i = Some (Some l) → ps !! j = Some (Some l) → i = j) as Hinj'
      by (intros i j l H1 H2; specialize (Hinj (S i) (S j) l H1 H2); lia).
    destruct p as [l|].
    + destruct (Hlive 0%nat l eq_refl) as [a Ha]. rewrite (free_Some _ _ _ Ha). csimpl. apply IH; [done| |].
      * intros i l' Hi. rewrite lookup_delete_ne; [by apply (Hlive (S i))|]. intros ->. by specialize (Hinj 0%nat (S i) l' eq_refl Hi).
      * intros l' Hl'. assert (l' ≠ l) as Hne by (intros ->; rewrite lookup_delete_eq in Hl'; by destruct Hl').
        rewrite lookup_delete_ne in Hl' by done. destruct (Hleak l' Hl') as [[|i] Hi]; [simpl in Hi; congruence|by exists i].
    + csimpl. apply IH; [done|intros i l Hi; by apply (Hlive (S i))|].
      intros l Hl. destruct (Hleak l Hl) as [[|i] Hi]; [done|by exists i].
Qed.

End LeetSpec.

Section LeetTheorems.
Import LeetAllocator LeetSpec.

(** The allocator is first fit.  In a consistent state [allocatorAllocate] of
    at least one unit ends without leaving an array: it returns -1 and changes
    nothing exactly when no block of that many free units exists, and otherwise
    gives the lowest such block to the owner, units of others unchanged, with
    its lists of positions again exact.  [allocatorFreeMemory] returns the number
    of units the owner has, frees exactly these and its list. *)
Theorem leet_allocator_correct s own n id :
  inv s own → (1 ≤ n)%nat → (1 ≤ id ≤ 1000)%nat →
  (∃ r s' own', allocatorAllocate s (Z.of_nat n) (Z.of_nat id) = Ok (r, s') ∧ inv s' own' ∧
    ((r = -1 ∧ s' = s ∧ ∀ b, (b + n ≤ length (memory s))%nat → ¬ free_block (memory s) b n) ∨
     ∃ b, r = Z.of_nat b ∧ (b + n ≤ length (memory s))%nat ∧ free_block (memory s) b n ∧
       (∀ b', (b' < b)%nat → ¬ free_block (memory s) b' n) ∧ memory s' = fill n b (Z.of_nat id) (memory s))) ∧
  (∃ s' own', allocatorFreeMemory s (Z.of_nat id) =
      Ok (Z.of_nat (length (filter (λ x, x = Z.of_nat id) (memory s))), s') ∧
    inv s' own' ∧ memory s' = release id (memory s)).
Proof.
  intros Hi Hn Hid. split.
  - destruct (allocate_loop_ok s own id n Hi Hid Hn (length (memory s)) 0 0) as (r & s' & Hr & Hcase); try lia.
    + intros i Hrange. lia.
    + exists r, s'. unfold allocatorAllocate. rewrite (i_size _ _ Hi), Nat2Z.id. destruct Hcase as [(-> & -> & Hno)|(b & -> & H1 & H2 & H3 & H4 & H5)].
      * exists own. split_and!; try done. by left.
      * eexists. split_and!; try done. right. by exists b.
  - destruct (free_memory_ok s own id Hi Hid) as (p & Hp & Hr). exists (freed s id p), (give own id []).
    rewrite <- (own_units s own id Hi Hid). split_and!; try done. by apply freed_inv.
Qed.

(** A new allocator is consistent with all units free, and destroying a
    consistent one frees every list of positions exactly once and leaves
    nothing allocated. *)
Theorem leet_allocator_no_leak s own n :
  inv s own → 0 ≤ n → inv (allocatorCreate n) (λ _, []) ∧ allocatorFree s = Ok ∅.
Proof.
  intros Hi Hn. split; [by apply create_inv|]. apply free_all_ok; [apply (i_inj _ _ Hi)| |apply (i_noleak _ _ Hi)].
  intros i l Hl. rewrite (i_array _ _ Hi _ _ Hl). eauto.
Qed.

Lemma leet_allocator_correct_witness :
  ∃ s', allocatorAllocate (allocatorCreate 3) 2 7 = Ok (0, s') ∧ memory s' = [7; 7; 0].
Proof.
  destruct (leet_allocator_correct (allocatorCreate 3) (λ _, []) 2 7) as [(r & s' & own' & Hr & _ & Hcase) _];
    [apply create_inv; lia|lia|lia|].
  destruct Hcase as [(_ & _ & Hno)|(b & -> & Hb & Hf & Hleast & Hm)].
  - exfalso. apply (Hno 0%nat); [simpl; lia|]. intros i Hrange. change (memory (allocatorCreate 3)) with [0; 0; 0]. destruct i as [|[|i]]; try done; lia.
  - assert (b = 0%nat) as ->.
    { destruct b as [|b]; [done|]. exfalso. apply (Hleast 0%nat); [lia|]. intros i Hrange.
      change (memory (allocatorCreate 3)) with [0; 0; 0]. destruct i as [|[|i]]; try done; lia. }
    exists s'. split; [exact Hr|]. rewrite Hm. reflexivity.
Defined.

Lemma leet_allocator_no_leak_witness : allocatorFree (allocatorCreate 5) = Ok ∅.
Proof. apply (leet_allocator_no_leak (allocatorCreate 5) (λ _, []) 5); [apply create_inv; lia|lia]. Defined.

End LeetTheorems.

(** ** [memory-pool.c] *)
Module BumpPool.

(** [size_t] arithmetic. *)
Definition wrap64 (z : Z) : Z := z mod 2 ^ 64.

(** [memory] holds the bytes written so far, by their offset in the block. *)
Record memory_pool : Set := mkPool {
  memory : gmap Z Ascii.ascii;
  size : Z;
  used : Z;
  block_size : Z
}.

Definition pool_create (total_size bsize : Z) : memory_pool * list string :=
  (mkPool ∅ total_size 0 bsize,
   ["Created memory pool : " +:+ d total_size +:+ " bytes, block size : " +:+ d bsize +:+ " " +:+ nl]).

(** A pointer into the pool is the offset from [pool->memory]. *)
Definition pool_alloc : C memory_pool (option Z) :=
  pool ← get;
  if wrap64 (used pool + block_size pool) >? size pool then
    printf ("Memory pool is exhausted! " +:+ nl) ;; mret None
  else
    let p := used pool in
    put (mkPool (memory pool) (size pool) (wrap64 (used pool + block_size pool)) (block_size pool)) ;;
    mret (Some p).

Definition pool_reset : C memory_pool unit :=
  pool ← get;
  put (mkPool (memory pool) (size pool) 0 (block_size pool)) ;;
  printf "Pool reset - All memory are free now".

(** Bytes written from offset [p] on. *)
Fixpoint write (p : Z) (bytes : list Ascii.ascii) (pool : memory_pool) : res memory_pool :=
  match bytes with
  | [] => Ok pool
  | b :: bytes =>
      if (0 <=? p) && (p <? size pool) then
        write (p + 1) bytes (mkPool (<[p := b]> (memory pool)) (size pool) (used pool) (block_size pool))
      else UB OutOfBounds
  end.

(** [snprintf(p, n, "%s", text)]: at most [n - 1] characters and the terminator. *)
Definition snprintf (p : Z) (n : nat) (text : string) : C memory_pool unit :=
  pool ← get;
  pool ← lift (write p (take (n - 1) (String.list_ascii_of_string text) ++ [Ascii.zero]) pool);
  put pool.

Definition store_record (iterator : Z) : C memory_pool unit :=
  record ← pool_alloc;
  match record with
  | Some p => snprintf p 256 ("Record " +:+ d iterator +:+ " data")
  | None => mret tt
  end.

(** The pool of [dbms_scenario] before it is reset; [pool_destroy] then gives
    the block back. *)
Definition records : C memory_pool unit := for_each store_record (seqZ 0 100).

Definition dbms_scenario : res (list string) :=
  let '(pool, created) := pool_create (1024 * 1024) 256 in
  '(_, _, out) ← (records ;; pool_reset) pool;
  Ok (created ++ out).

(** The string at offset [p], of at most [n] characters. *)
Fixpoint string_at (n : nat) (p : Z) (pool : memory_pool) : option string :=
  match n with
  | O => None
  | S n =>
      c ← memory pool !! p;
      if decide (c = Ascii.zero) then Some EmptyString
      else s ← string_at n (p + 1) pool; Some (String c s)
  end.

End BumpPool.

Module BumpSpec.
Import BumpPool.

(** [k] blocks of a pool have been given out. *)
Definition given (pool : memory_pool) (k : nat) : Prop :=
  0 ≤ size pool < 2 ^ 63 ∧ 0 < block_size pool < 2 ^ 64 ∧
  used pool = Z.of_nat k * block_size pool ∧ used pool ≤ size pool.

Lemma pool_no_wrap pool k :
  given pool k →
  (wrap64 (used pool + block_size pool) >? size pool) = (used pool + block_size pool >? size pool).
Proof.
  intros (Hs & Hb & Hu & Hle). unfold wrap64. destruct k as [|k].
  - rewrite Z.mod_small; [done|]. lia.
  - rewrite Z.mod_small; [done|]. nia.
Qed.

Lemma pool_alloc_run pool k :
  given pool k →
  (used pool + block_size pool ≤ size pool ∧
   ∃ pool', pool_alloc pool = Ok (Some (used pool), pool', []) ∧ given pool' (S k) ∧
     memory pool' = memory pool ∧ size pool' = size pool ∧ block_size pool' = block_size pool) ∨
  (size pool < used pool + block_size pool ∧ ∃ out, pool_alloc pool = Ok (None, pool, out)).
Proof.
  intros Hg. pose proof (pool_no_wrap pool k Hg) as Hw. destruct Hg as (Hs & Hb & Hu & Hle).
  unfold pool_alloc. c_run. rewrite Hw. rewrite Z.gtb_ltb.
  destruct (Z.ltb_spec (size pool) (used pool + block_size pool)) as [Hfull|Hroom].
  - right. split; [done|]. by eexists.
  - left. split; [done|]. eexists. split; [done|]. unfold given, wrap64. simpl.
    rewrite Z.mod_small by lia. split_and!; try done; lia.
Qed.

(** The pointers that [n] calls return. *)
Fixpoint allocs (n : nat) : C memory_pool (list (option Z)) :=
  match n with
  | O => mret []
  | S n => p ← pool_alloc; ps ← allocs n; mret (p :: ps)
  end.

Lemma allocs_full n pool k :
  given pool k → size pool < used pool + block_size pool →
  ∃ out, allocs n pool = Ok (replicate n None, pool, out).
Proof.
  intros Hg Hf. induction n as [|n [out IH]]; [by eexists|]. cbn [allocs].
  destruct (pool_alloc_run pool k Hg) as [[? _]|(_ & out1 & H1)]; [lia|].
  eexists. eapply bind_Ok; [exact H1|]. eapply bind_Ok; [exact IH|done].
Qed.

Lemma allocs_run n : ∀ pool k,
  given pool k →
  ∃ pool' out, allocs n pool =
    Ok ((λ i, if Z.of_nat (S i) * block_size pool <=? size pool then Some (Z.of_nat i * block_size pool) else None)
         <$> seq k n, pool', out) ∧ size pool' = size pool.
Proof.
  induction n as [|n IH]; intros pool k Hg; [by eexists _, _|].
  pose proof Hg as (Hs & Hb & Hu & Hle). cbn [seq]. rewrite fmap_cons.
  destruct (pool_alloc_run pool k Hg) as [(Hroom & pool' & H1 & Hg' & _ & Hsz & Hbs)|(Hfull & out1 & H1)].
  - destruct (IH pool' (S k) Hg') as (pool2 & out & H2 & Hsz'). rewrite Hsz, Hbs in *.
    rewrite (proj2 (Z.leb_le (Z.of_nat (S k) * block_size pool) (size pool))) by lia. rewrite <- Hu.
    eexists pool2, _. split; [|done]. cbn [allocs]. eapply bind_Ok; [exact H1|]. eapply bind_Ok; [exact H2|done].
  - destruct (allocs_full (S n) pool k Hg Hfull) as [out H2]. exists pool, out. split; [|done]. rewrite H2.
    rewrite (proj2 (Z.leb_gt (Z.of_nat (S k) * block_size pool) (size pool))) by lia. do 3 f_equal. cbn [replicate]. f_equal.
    apply replicate_as_elem_of. split; [by rewrite length_fmap, length_seq|].
    intros x (i & -> & Hi)%list_elem_of_fmap. apply elem_of_seq in Hi. by rewrite (proj2 (Z.leb_gt _ _)) by nia.
Qed.

End BumpSpec.

Section BumpTheorems.
Import BumpPool BumpSpec.

(** Of [n] calls of [pool_alloc] on a new pool of less than 2^63 bytes the
    [i]-th returns the block at [i * block_size] while that block fits into the
    pool, and NULL from then on: blocks never overlap or leave the pool, and
    the [size_t] sum never wraps around. *)
Theorem bump_pool_blocks total bs n :
  0 ≤ total < 2 ^ 63 → 0 < bs < 2 ^ 64 →
  ∃ pool out, allocs n (fst (pool_create total bs)) =
    Ok ((λ i, if Z.of_nat (S i) * bs <=? total then Some (Z.of_nat i * bs) else None) <$> seq 0 n, pool, out).
Proof.
  intros Ht Hb. destruct (allocs_run n (fst (pool_create total bs)) 0) as (pool & out & H & _); [|by exists pool, out].
  unfold given. simpl. lia.
Qed.

Lemma bump_pool_blocks_witness :
  ∃ pool out, allocs 3 (fst (pool_create 600 256)) = Ok ([Some 0; Some 256; None], pool, out).
Proof. apply (bump_pool_blocks 600 256 3); lia. Defined.

(** After the loop of [dbms_scenario] every one of the hundred records is still
    there. *)
Lemma records_kept :
  match records (fst (pool_create (1024 * 1024) 256)) with
  | Ok (_, pool, _) =>
      forallb (λ i, bool_decide (string_at 256 (256 * i) pool = Some ("Record " +:+ d i +:+ " data"))) (seqZ 0 100)
  | UB _ => false
  end = true.
Proof. vm_compute. reflexivity. Qed.

End BumpTheorems.
