(* ===== verification/SlabAllocator.v ===== *)
(** * The slab allocator: [day-1(Heap_Mem)/slab-allocator.c]

    Pages of [SLAB_SIZE] bytes are cut into objects of one size; the free
    objects of a page form a list whose links are stored in the objects
    themselves.  [Slab] models the file with addresses as integers, because
    [slab_free] finds the page of an object by comparing addresses; the words in
    which links are stored are a map from addresses, and whatever overlaps a
    write is lost from it.  [SlabSpec] shows that objects are given out at most
    once and never overlap. *)
From stdpp Require Import base list gmap strings pretty fin_maps.
From Stdlib Require Import ZArith Lia.
From Stdlib Require Ascii String.
From S2P Require Import Prelude.
Local Open Scope Z_scope.

Module Slab.

Definition SLAB_SIZE : Z := 4096.

(** [sizeof(object_header_t)]. *)
Definition HEADER : Z := 8.

Record slab : Set := mkSlab {
  memory : Z;
  free_list : option Z;
  object_size : Z;
  objects_per_slab : Z;
  free_objects : Z
}.

(** The list [cache->slabs] in order, [name] with its cells that [strncpy] may
    leave unwritten. *)
Record slab_cache : Set := mkCache {
  slabs : list slab;
  osize : Z;
  name : list (option Ascii.ascii)
}.

(** [words] holds the link stored at an address, [pages] the pages that
    [aligned_alloc] has given out. *)
Record state : Set := mkState {
  cache : slab_cache;
  words : gmap Z (option Z);
  pages : gset positive
}.

Abbreviation heap := (gmap Z (option Z)).

(** Bytes [a .. a + n - 1] are overwritten. *)
Definition clobber (a : Z) (n : nat) (h : heap) : heap :=
  foldr delete h (seqZ (a - (HEADER - 1)) (Z.of_nat n + HEADER - 1)).

(** [header->next_free = v] for a header at [a]. *)
Definition put_word (a : Z) (v : option Z) (h : heap) : heap := <[a := v]> (clobber a 8 h).

Definition set_words (h : heap) : C state unit := s ← get; put (mkState (cache s) h (pages s)).

(** A header at [a] lies in the page at [base]. *)
Definition header_in (base a : Z) : bool := (base <=? a) && (a + HEADER <=? base + SLAB_SIZE).

(** The loop of [slab_create]: [n] objects are left, the next one at [a]. *)
Fixpoint carve (n : nat) (base a size : Z) (fl : option Z) : C state (option Z) :=
  match n with
  | O => mret fl
  | S n =>
      if header_in base a then
        s ← get; set_words (put_word a fl (words s)) ;; carve n base (a + size) size (Some a)
      else lift (UB OutOfBounds)
  end.

(** [aligned_alloc(4096, SLAB_SIZE)]: a page that is not in use. *)
Definition aligned_alloc : C state Z :=
  s ← get;
  let p := fresh (pages s) in
  put (mkState (cache s) (words s) ({[p]} ∪ pages s)) ;; mret (SLAB_SIZE * Zpos p).

Definition slab_create (size : Z) : C state slab :=
  base ← aligned_alloc;
  if size =? 0 then lift (UB DivByZero)
  else
    let n := SLAB_SIZE / size in
    fl ← carve (Z.to_nat n) base base size None;
    printf ("Created a slab with " +:+ d n +:+ " objects of size " +:+ d size +:+ " " +:+ nl) ;;
    mret (mkSlab base fl size n n).

(** [strncpy] of [name] into the first 63 of 64 cells. *)
Definition slab_cache_create (nm : string) (size : Z) : slab_cache * list string :=
  let l := take 63 (String.list_ascii_of_string nm) in
  (mkCache [] size ((Some <$> l) ++ replicate (63 - length l) (Some Ascii.zero) ++ [None]),
   ["Created slab cache '" +:+ nm +:+ "' for the " +:+ d size +:+ " bytes of objects " +:+ nl]).

(** The loops that walk [cache->slabs]: the place of the first slab with [p]. *)
Fixpoint find_slab (p : slab → bool) (l : list slab) : option nat :=
  match l with
  | [] => None
  | sb :: l => if p sb then Some 0%nat else S <$> find_slab p l
  end.

Definition set_slabs (l : list slab) : C state unit :=
  s ← get; put (mkState (mkCache l (osize (cache s)) (name (cache s))) (words s) (pages s)).

(** The place of a slab that has a free object, after creating one if need be. *)
Definition provide : C state nat :=
  s ← get;
  match find_slab (λ sb, negb (free_objects sb =? 0)) (slabs (cache s)) with
  | Some i => mret i
  | None =>
      sb ← slab_create (osize (cache s));
      set_slabs (sb :: slabs (cache s)) ;; mret 0%nat
  end.

(** [obj->next_free]. *)
Definition next_free (obj : option Z) : C state (option Z) :=
  match obj with
  | None => lift (UB NullDeref)
  | Some a => s ← get; lift (match words s !! a with Some v => Ok v | None => UB Uninitialised end)
  end.

Definition slab_alloc : C state (option Z) :=
  i ← provide;
  s ← get;
  match slabs (cache s) !! i with
  | None => lift (UB OutOfBounds)
  | Some sb =>
      next ← next_free (free_list sb);
      set_slabs (<[i := mkSlab (memory sb) next (object_size sb) (objects_per_slab sb) (free_objects sb - 1)]>
                  (slabs (cache s))) ;;
      mret (free_list sb)
  end.

Definition holds (obj : Z) (sb : slab) : bool := (memory sb <=? obj) && (obj <? memory sb + SLAB_SIZE).

Definition slab_free (obj : Z) : C state unit :=
  s ← get;
  match find_slab (holds obj) (slabs (cache s)) with
  | None => mret tt
  | Some i =>
      match slabs (cache s) !! i with
      | None => mret tt
      | Some sb =>
          if header_in (memory sb) obj then
            set_words (put_word obj (free_list sb) (words s)) ;;
            set_slabs (<[i := mkSlab (memory sb) (Some obj) (object_size sb) (objects_per_slab sb) (free_objects sb + 1)]>
                        (slabs (cache s)))
          else lift (UB OutOfBounds)
      end
  end.

(** The owner of an object of [n] bytes at [a] writes to it. *)
Definition user_write (a : Z) (n : nat) : C state unit := s ← get; set_words (clobber a n (words s)).

(** [sizeof(db_tuple_t)]. *)
Definition TUPLE : Z := 132.

(** The two loops of [dbms_scenario]; what is written into a tuple is not kept. *)
Fixpoint fill_tuples (n : nat) : C state (list (option Z)) :=
  match n with
  | O => mret []
  | S n =>
      p ← slab_alloc;
      match p with Some a => user_write a 132 | None => mret tt end ;;
      ps ← fill_tuples n; mret (p :: ps)
  end.

Definition free_tuple (p : option Z) : C state unit :=
  match p with Some a => slab_free a | None => mret tt end.

Definition dbms_scenario : res (list (option Z) * state * list string) :=
  let '(c, created) := slab_cache_create "db_tuples" TUPLE in
  '(tuples, s, out) ← (tuples ← fill_tuples 1000;
     for_each free_tuple (take 500 tuples) ;;
     printf ("500 Tuple objects' memory are unallocated " +:+ nl) ;;
     mret tuples) (mkState c ∅ ∅);
  Ok (tuples, s, created ++ out).

End Slab.

(** ** What the allocator promises *)
Module SlabSpec.
Import Slab.

(** [a] is an object of the page at [base], for objects of size [os]. *)
Definition obj_of (os base a : Z) : Prop := ∃ i, 0 ≤ i < SLAB_SIZE / os ∧ a = base + os * i.

(** The free list from [p] on. *)
Fixpoint fchain (h : heap) (p : option Z) (l : list Z) : Prop :=
  match l with
  | [] => p = None
  | a :: l => p = Some a ∧ ∃ q, h !! a = Some q ∧ fchain h q l
  end.

(** A slab with its free list, when the objects of [live] are in use. *)
Record good (os : Z) (h : heap) (live : gset Z) (x : slab * list Z) : Prop := mkgood {
  g_size : object_size (fst x) = os;
  g_per : objects_per_slab (fst x) = SLAB_SIZE / os;
  g_count : free_objects (fst x) = Z.of_nat (length (snd x));
  g_chain : fchain h (free_list (fst x)) (snd x);
  g_nodup : NoDup (snd x);
  g_obj : ∀ a, a ∈ snd x → obj_of os (memory (fst x)) a;
  g_free : ∀ a, obj_of os (memory (fst x)) a → a ∈ snd x ↔ a ∉ live
}.

Record view (os : Z) (s : state) (live : gset Z) (gs : list (slab * list Z)) : Prop := mkview {
  v_os : osize (cache s) = os;
  v_slabs : slabs (cache s) = gs.*1;
  v_good : Forall (good os (words s) live) gs;
  v_bases : NoDup (memory <$> gs.*1);
  v_pages : ∀ x, x ∈ gs → ∃ p, p ∈ pages s ∧ memory (fst x) = SLAB_SIZE * Zpos p;
  v_live : ∀ a, a ∈ live → ∃ x, x ∈ gs ∧ obj_of os (memory (fst x)) a
}.

Definition inv (os : Z) (s : state) (live : gset Z) : Prop := ∃ gs, view os s live gs.

(** *** Addresses *)

Lemma obj_range os base a : 8 ≤ os ≤ 4096 → obj_of os base a → base ≤ a ∧ a + os ≤ base + SLAB_SIZE.
Proof.
  intros Hos (i & Hi & ->). unfold SLAB_SIZE in *. pose proof (Z.mul_div_le 4096 os ltac:(lia)). nia.
Qed.

Lemma obj_apart os base base' a b :
  8 ≤ os ≤ 4096 → obj_of os base a → obj_of os base' b →
  (base = base' ∨ base + SLAB_SIZE ≤ base' ∨ base' + SLAB_SIZE ≤ base) →
  a ≠ b → a + os ≤ b ∨ b + os ≤ a.
Proof.
  intros Hos Ha Hb Hbase Hne. pose proof (obj_range _ _ _ Hos Ha). pose proof (obj_range _ _ _ Hos Hb).
  destruct Hbase as [<-|[?|?]]; [|lia..].
  destruct Ha as (i & Hi & ->), Hb as (j & Hj & ->). assert (i ≠ j) by congruence.
  destruct (Z.lt_total i j) as [?|[?|?]]; [left|done|right]; nia.
Qed.

Lemma view_pages_apart os s live gs x y :
  view os s live gs → x ∈ gs → y ∈ gs →
  memory (fst x) = memory (fst y) ∨ memory (fst x) + SLAB_SIZE ≤ memory (fst y) ∨ memory (fst y) + SLAB_SIZE ≤ memory (fst x).
Proof.
  intros Hv Hx Hy. destruct (v_pages _ _ _ _ Hv x Hx) as (p & _ & ->), (v_pages _ _ _ _ Hv y Hy) as (q & _ & ->).
  unfold SLAB_SIZE. lia.
Qed.

(** *** Writing words *)

Lemma lookup_clobber a n h k :
  clobber a n h !! k = if decide (a - 8 < k < a + Z.of_nat n) then None else h !! k.
Proof.
  unfold clobber, HEADER. case_decide as Hk.
  - apply lookup_foldr_delete, elem_of_seqZ. lia.
  - apply lookup_foldr_delete_not_elem_of. rewrite elem_of_seqZ. lia.
Qed.

Lemma lookup_put_word a v h k :
  put_word a v h !! k = if decide (k = a) then Some v else if decide (a - 8 < k < a + 8) then None else h !! k.
Proof.
  unfold put_word. case_decide as Hk; [subst; apply lookup_insert_eq|].
  rewrite lookup_insert_ne by done. apply lookup_clobber.
Qed.

Lemma fchain_ext h h' p l : (∀ a, a ∈ l → h' !! a = h !! a) → fchain h p l → fchain h' p l.
Proof.
  revert p. induction l as [|a l IH]; intros p Heq; simpl; [done|]. intros (-> & q & Hq & Hc).
  split; [done|]. exists q. split; [rewrite Heq by left; done|]. apply IH; [|done]. intros b Hb. apply Heq. by right.
Qed.

Lemma good_words os h h' live x : (∀ a, a ∈ snd x → h' !! a = h !! a) → good os h live x → good os h' live x.
Proof. intros Heq [H1 H2 H3 H4 H5 H6 H7]. constructor; try done. by apply (fchain_ext h). Qed.

Lemma good_live os h live live' x :
  (∀ a, obj_of os (memory (fst x)) a → a ∈ live ↔ a ∈ live') → good os h live x → good os h live' x.
Proof. intros Heq [H1 H2 H3 H4 H5 H6 H7]. constructor; try done. intros a Ha. by rewrite (H7 a Ha), (Heq a Ha). Qed.

(** One slab of a view changes, its page apart. *)
Lemma view_update os s live gs i x x' h' live' :
  view os s live gs → gs !! i = Some x → memory (fst x') = memory (fst x) → good os h' live' x' →
  (∀ j y, j ≠ i → gs !! j = Some y → good os h' live' y) →
  (∀ a, a ∈ live' → a ∈ live ∨ obj_of os (memory (fst x)) a) →
  view os (mkState (mkCache (<[i := fst x']> (slabs (cache s))) (osize (cache s)) (name (cache s))) h' (pages s)) live'
    (<[i := x']> gs).
Proof.
  intros Hv Hx Hm Hg Hgs Hl. pose proof (lookup_lt_Some _ _ _ Hx) as Hlt.
  assert (∀ y, y ∈ <[i := x']> gs → ∃ z, z ∈ gs ∧ memory (fst z) = memory (fst y)) as Hback.
  { intros y (j & Hj)%list_elem_of_lookup. apply list_lookup_insert_Some in Hj as [(-> & <- & _)|[_ Hj]].
    - exists x. split; [by eapply list_elem_of_lookup_2|done].
    - exists y. split; [by eapply list_elem_of_lookup_2|done]. }
  constructor; cbn [cache slabs osize name words pages].
  - apply (v_os _ _ _ _ Hv).
  - by rewrite (v_slabs _ _ _ _ Hv), list_fmap_insert.
  - apply Forall_lookup. intros j y Hj. apply list_lookup_insert_Some in Hj as [(-> & <- & _)|[Hne Hj]]; [done|].
    by apply (Hgs j).
  - rewrite !list_fmap_insert, Hm. rewrite list_insert_id; [apply (v_bases _ _ _ _ Hv)|]. by rewrite !list_lookup_fmap, Hx.
  - intros y Hy. destruct (Hback y Hy) as (z & Hz & <-). by apply (v_pages _ _ _ _ Hv).
  - assert (∀ z, z ∈ gs → ∃ y, y ∈ <[i := x']> gs ∧ memory (fst y) = memory (fst z)) as Hfwd.
    { intros z (j & Hj)%list_elem_of_lookup. destruct (decide (j = i)) as [->|Hne].
      - exists x'. rewrite Hx in Hj. simplify_eq. split; [|done]. apply (list_elem_of_lookup_2 _ i). by apply list_lookup_insert_eq.
      - exists z. split; [|done]. apply (list_elem_of_lookup_2 _ j). by rewrite list_lookup_insert_ne. }
    intros a [(z & Hz & Ha)%(v_live _ _ _ _ Hv)|Ha]%Hl.
    + destruct (Hfwd z Hz) as (y & Hy & He). exists y. by rewrite He.
    + destruct (Hfwd x) as (y & Hy & He); [by eapply list_elem_of_lookup_2|]. exists y. by rewrite He.
Qed.

(** Two slabs at different places have different pages. *)
Lemma view_bases_ne os s live gs i j x y :
  view os s live gs → gs !! i = Some x → gs !! j = Some y → j ≠ i →
  memory (fst x) + SLAB_SIZE ≤ memory (fst y) ∨ memory (fst y) + SLAB_SIZE ≤ memory (fst x).
Proof.
  intros Hv Hx Hy Hne. destruct (view_pages_apart os s live gs x y Hv) as [He|?]; [by eapply list_elem_of_lookup_2..| |done].
  exfalso. apply Hne. symmetry. eapply NoDup_lookup; [apply (v_bases _ _ _ _ Hv)| |]; rewrite !list_lookup_fmap.
  - by rewrite Hx.
  - by rewrite Hy; csimpl; rewrite He.
Qed.

Lemma find_slab_Some p l i : find_slab p l = Some i → ∃ sb, l !! i = Some sb ∧ p sb = true.
Proof.
  revert i. induction l as [|sb l IH]; intros i; simpl; [done|]. destruct (p sb) eqn:Hp.
  - intros [= <-]. by exists sb.
  - intros (j & Hj & ->)%fmap_Some. by apply IH.
Qed.

Lemma find_slab_None p l : find_slab p l = None → ∀ sb, sb ∈ l → p sb = false.
Proof.
  induction l as [|sb l IH]; simpl; [intros _ sb Hsb; by apply elem_of_nil in Hsb|].
  destruct (p sb) eqn:Hp; [done|]. intros Hn%fmap_None sb' [->|Hsb]%elem_of_cons; [done|by apply IH].
Qed.

(** *** Cutting a new page *)

Definition objs (base os : Z) (i n : nat) : list Z := (λ j, base + os * Z.of_nat j) <$> seq i n.

Lemma elem_of_objs base os i n a : a ∈ objs base os i n ↔ ∃ j, (i ≤ j < i + n)%nat ∧ a = base + os * Z.of_nat j.
Proof. unfold objs. rewrite list_elem_of_fmap. setoid_rewrite elem_of_seq. naive_solver. Qed.

Lemma carve_ok base os n : 8 ≤ os ≤ 4096 → ∀ i fl l s,
  fchain (words s) fl l → (∀ a, a ∈ l → ∃ j, (j < i)%nat ∧ a = base + os * Z.of_nat j) →
  Z.of_nat (i + n) ≤ SLAB_SIZE / os →
  ∃ fl' h', carve n base (base + os * Z.of_nat i) os fl s = Ok (fl', mkState (cache s) h' (pages s), []) ∧
    fchain h' fl' (reverse (objs base os i n) ++ l) ∧
    ∀ k, (∀ j, (i ≤ j < i + n)%nat → ¬ (base + os * Z.of_nat j - 8 < k < base + os * Z.of_nat j + 8)) → h' !! k = words s !! k.
Proof.
  intros Hos. induction n as [|n IH]; intros i fl l s Hc Hl Hle; cbn [carve].
  - exists fl, (words s). by destruct s.
  - set (a := base + os * Z.of_nat i).
    assert (obj_of os base a) as Ha by (exists (Z.of_nat i); split; [lia|done]).
    pose proof (obj_range os base a Hos Ha) as Hr. unfold header_in, HEADER.
    rewrite (proj2 (Z.leb_le base a)), (proj2 (Z.leb_le (a + 8) (base + SLAB_SIZE))) by lia. simpl andb. cbv iota.
    destruct (IH (S i) (Some a) (a :: l) (mkState (cache s) (put_word a fl (words s)) (pages s))) as (fl' & h' & Hr' & Hch & Hk).
    + simpl. split; [done|]. exists fl. rewrite lookup_put_word, decide_True by done. split; [done|].
      eapply fchain_ext; [|exact Hc]. intros b Hb. destruct (Hl b Hb) as (j & Hj & ->). rewrite lookup_put_word.
      unfold a. rewrite !decide_False by nia. done.
    + intros b [->|Hb]%elem_of_cons; [exists i; split; [lia|done]|]. destruct (Hl b Hb) as (j & Hj & ->). exists j. split; [lia|done].
    + lia.
    + exists fl', h'. split_and!.
      * unfold set_words. c_run. replace (a + os) with (base + os * Z.of_nat (S i)) by (unfold a; lia).
        rewrite Hr'. done.
      * unfold objs. cbn [seq]. rewrite fmap_cons, reverse_cons, <- app_assoc. exact Hch.
      * intros k Hfar. rewrite Hk by (intros j Hj; apply Hfar; lia). cbn [words]. rewrite lookup_put_word.
        specialize (Hfar i ltac:(lia)). fold a in Hfar. rewrite !decide_False by lia. done.
Qed.

Lemma objs_all os base a :
  8 ≤ os ≤ 4096 → a ∈ reverse (objs base os 0 (Z.to_nat (SLAB_SIZE / os))) ↔ obj_of os base a.
Proof.
  intros Hos. rewrite elem_of_reverse, elem_of_objs. split.
  - intros (j & Hj & ->). exists (Z.of_nat j). split; [lia|done].
  - intros (i & Hi & ->). exists (Z.to_nat i). split; [lia|]. by rewrite Z2Nat.id by lia.
Qed.

Lemma NoDup_objs base os i n : 8 ≤ os → NoDup (objs base os i n).
Proof. intros Hos. unfold objs. apply NoDup_fmap; [intros x y E; nia|apply NoDup_seq]. Qed.

(** A new slab goes in front of the others. *)
Lemma create_view os s live gs :
  8 ≤ os ≤ 4096 → view os s live gs →
  ∃ sb fl h' out,
    let s' := mkState (cache s) h' ({[fresh (pages s)]} ∪ pages s) in
    slab_create os s = Ok (sb, s', out) ∧ fl ≠ [] ∧
    view os (mkState (mkCache (sb :: slabs (cache s)) (osize (cache s)) (name (cache s))) h' (pages s')) live ((sb, fl) :: gs).
Proof.
  intros Hos Hv. set (page := fresh (pages s)). set (base := SLAB_SIZE * Zpos page).
  assert (page ∉ pages s) as Hfresh by apply is_fresh.
  assert (0 < SLAB_SIZE / os) as Hn by (unfold SLAB_SIZE; apply Z.div_str_pos; lia).
  assert (∀ x, x ∈ gs → base + SLAB_SIZE ≤ memory (fst x) ∨ memory (fst x) + SLAB_SIZE ≤ base) as Hapart.
  { intros x Hx. destruct (v_pages _ _ _ _ Hv x Hx) as (q & Hq & ->). assert (q ≠ page) by (intros ->; done).
    unfold base, SLAB_SIZE. lia. }
  destruct (carve_ok base os (Z.to_nat (SLAB_SIZE / os)) Hos 0 None [] (mkState (cache s) (words s) ({[page]} ∪ pages s)))
    as (fl' & h' & Hrun & Hch & Hk); [done|intros a Ha; by apply elem_of_nil in Ha|lia|].
  rewrite Z.mul_0_r, Z.add_0_r in Hrun. rewrite app_nil_r in Hch. cbn [cache words pages] in *.
  exists (mkSlab base fl' os (SLAB_SIZE / os) (SLAB_SIZE / os)), (reverse (objs base os 0 (Z.to_nat (SLAB_SIZE / os)))), h'.
  assert (∀ a, obj_of os base a → a ∉ live) as Hnotlive.
  { intros a Ha (x & Hx & Hax)%(v_live _ _ _ _ Hv). pose proof (obj_range _ _ _ Hos Ha). pose proof (obj_range _ _ _ Hos Hax).
    specialize (Hapart x Hx). lia. }
  eexists. split_and!.
  - unfold slab_create. eapply bind_Ok; [reflexivity|]. fold page base. destruct (Z.eqb_spec os 0); [lia|].
    eapply bind_Ok; [exact Hrun|]. eapply bind_Ok; [reflexivity|]. reflexivity.
  - intros Hnil. assert (base ∈ reverse (objs base os 0 (Z.to_nat (SLAB_SIZE / os)))) as Hin; [|rewrite Hnil in Hin; by apply elem_of_nil in Hin].
    apply objs_all; [done|]. exists 0. split; [lia|lia].
  - constructor; cbn [cache slabs osize name words pages]; rewrite ?fmap_cons; cbn [fst memory].
    + apply (v_os _ _ _ _ Hv).
    + by rewrite (v_slabs _ _ _ _ Hv).
    + constructor.
      * constructor; simpl; try done.
        -- rewrite length_reverse. unfold objs. rewrite length_fmap, length_seq. lia.
        -- rewrite reverse_Permutation. apply NoDup_objs. lia.
        -- intros a. by apply objs_all.
        -- intros a Ha. rewrite objs_all by done. naive_solver.
      * apply Forall_forall. intros x Hx. pose proof (v_good _ _ _ _ Hv) as Hg. rewrite Forall_forall in Hg. specialize (Hg x Hx).
        eapply good_words; [|exact Hg]. intros a Ha. apply Hk. intros j Hj.
        pose proof (obj_range _ _ _ Hos (g_obj _ _ _ _ Hg a Ha)).
        assert (obj_of os base (base + os * Z.of_nat j)) as Hobj by (exists (Z.of_nat j); split; [lia|done]).
        pose proof (obj_range _ _ _ Hos Hobj). specialize (Hapart x Hx). lia.
    + apply NoDup_cons. split; [|apply (v_bases _ _ _ _ Hv)]. intros (sb & Hb & Hin)%list_elem_of_fmap.
      apply list_elem_of_fmap in Hin as (x & -> & Hx). specialize (Hapart x Hx). unfold SLAB_SIZE in *. lia.
    + intros x [->|Hx]%elem_of_cons; [exists page; split; [set_solver|done]|].
      destruct (v_pages _ _ _ _ Hv x Hx) as (p & Hp & ?). exists p. split; [set_solver|done].
    + intros a (x & Hx & Ha)%(v_live _ _ _ _ Hv). exists x. split; [by right|done].
Qed.

Lemma provide_ok os s live gs :
  8 ≤ os ≤ 4096 → view os s live gs →
  ∃ i s' gs' sb a l out, provide s = Ok (i, s', out) ∧ view os s' live gs' ∧ gs' !! i = Some (sb, a :: l).
Proof.
  intros Hos Hv. unfold provide. destruct (find_slab (λ sb, negb (free_objects sb =? 0)) (slabs (cache s))) as [i|] eqn:Hf.
  - pose proof (find_slab_Some _ _ _ Hf) as (sb & Hsb & Hfree).
    rewrite (v_slabs _ _ _ _ Hv), list_lookup_fmap in Hsb. apply fmap_Some in Hsb as ([sb' fl] & Hi & ->). simpl in Hfree.
    pose proof (Forall_lookup_1 _ _ _ _ (v_good _ _ _ _ Hv) Hi) as Hg. pose proof (g_count _ _ _ _ Hg) as Hcnt. simpl in Hcnt.
    destruct fl as [|a l]; [simpl in Hcnt; rewrite Hcnt in Hfree; done|].
    exists i, s, gs, sb', a, l, []. split_and!; [|done|done]. c_run. by rewrite Hf.
  - destruct (create_view os s live gs Hos Hv) as (sb & fl & h' & out & Hrun & Hne & Hv').
    destruct fl as [|a l]; [done|]. eexists 0%nat, _, _, sb, a, l, _. split_and!; [|exact Hv'|done].
    eapply bind_Ok; [reflexivity|]. rewrite Hf. rewrite <- (v_os _ _ _ _ Hv) in Hrun at 1.
    eapply bind_Ok; [exact Hrun|]. eapply bind_Ok; reflexivity.
Qed.

(** The objects of other slabs are not affected by what happens to [a]. *)
Lemma other_slab os s live gs i j x y a b :
  8 ≤ os ≤ 4096 → view os s live gs → gs !! i = Some x → gs !! j = Some y → j ≠ i →
  obj_of os (memory (fst x)) a → obj_of os (memory (fst y)) b → a + os ≤ b ∨ b + os ≤ a.
Proof.
  intros Hos Hv Hx Hy Hne Ha Hb. pose proof (view_bases_ne _ _ _ _ _ _ _ _ Hv Hx Hy Hne).
  pose proof (obj_range _ _ _ Hos Ha). pose proof (obj_range _ _ _ Hos Hb). lia.
Qed.

Lemma alloc_ok os s live :
  8 ≤ os ≤ 4096 → inv os s live →
  ∃ a s' out, slab_alloc s = Ok (Some a, s', out) ∧ (a ∉ live) ∧ inv os s' ({[a]} ∪ live).
Proof.
  intros Hos [gs0 Hv0]. destruct (provide_ok os s live gs0 Hos Hv0) as (i & s1 & gs & sb & a & l & out & Hp & Hv & Hi).
  pose proof (Forall_lookup_1 _ _ _ _ (v_good _ _ _ _ Hv) Hi) as Hg. pose proof (g_chain _ _ _ _ Hg) as Hch. simpl in Hch.
  destruct Hch as (Hfl & q & Hq & Hch). pose proof (g_nodup _ _ _ _ Hg) as Hnd. simpl in Hnd. apply NoDup_cons in Hnd as [Hal Hnd].
  pose proof (g_obj _ _ _ _ Hg a ltac:(left)) as Hobj. cbn [fst] in Hobj.
  assert (a ∉ live) as Hfree by (by apply (g_free _ _ _ _ Hg); [|left]).
  set (sb' := mkSlab (memory sb) q (object_size sb) (objects_per_slab sb) (free_objects sb - 1)).
  pose proof (view_update os s1 live gs i (sb, a :: l) (sb', l) (words s1) ({[a]} ∪ live) Hv Hi eq_refl) as Hup.
  eexists a, _, _. split_and!; [|done|].
  - unfold slab_alloc. eapply bind_Ok; [exact Hp|]. eapply bind_Ok; [reflexivity|].
    rewrite (v_slabs _ _ _ _ Hv), list_lookup_fmap, Hi. cbn [fmap option_fmap option_map fst]. rewrite Hfl.
    eapply bind_Ok; [unfold next_free; c_run; rewrite Hq; reflexivity|]. eapply bind_Ok; reflexivity.
  - eexists. rewrite <- (v_slabs _ _ _ _ Hv). apply Hup; clear Hup.
    + constructor; simpl; try apply Hg; try done.
      * pose proof (g_count _ _ _ _ Hg) as Hc. simpl in Hc. lia.
      * intros b Hb. apply (g_obj _ _ _ _ Hg). by right.
      * intros b Hb. pose proof (g_free _ _ _ _ Hg b Hb) as Hfb. simpl in Hfb. rewrite elem_of_cons in Hfb.
        rewrite elem_of_union, elem_of_singleton. split; [|tauto]. intros Hbl. assert (b ≠ a) by (intros ->; done). tauto.
    + intros j y Hne Hj. eapply good_live; [|apply (Forall_lookup_1 _ _ _ _ (v_good _ _ _ _ Hv) Hj)].
      intros b Hb. rewrite elem_of_union, elem_of_singleton. split; [by right|]. intros [->|?]; [|done].
      pose proof (other_slab _ _ _ _ _ _ _ _ _ _ Hos Hv Hi Hj Hne Hobj Hb). lia.
    + intros b [->%elem_of_singleton|?]%elem_of_union; [by right|by left].
Qed.

Lemma live_slab os s live gs a :
  view os s live gs → a ∈ live → ∃ i x, gs !! i = Some x ∧ obj_of os (memory (fst x)) a ∧ (a ∉ snd x).
Proof.
  intros Hv Ha. destruct (v_live _ _ _ _ Hv a Ha) as (x & [i Hi]%list_elem_of_lookup & Hx). exists i, x. split_and!; [done|done|].
  intros Hin. by apply (g_free _ _ _ _ (Forall_lookup_1 _ _ _ _ (v_good _ _ _ _ Hv) Hi) a Hx) in Hin.
Qed.

(** Free objects lie at least a header away from an object in use. *)
Lemma live_far os s live gs a y b :
  8 ≤ os ≤ 4096 → view os s live gs → a ∈ live → y ∈ gs → b ∈ snd y → a + os ≤ b ∨ b + os ≤ a.
Proof.
  intros Hos Hv Ha Hy Hb. destruct (live_slab _ _ _ _ _ Hv Ha) as (i & x & Hi & Hx & _).
  pose proof (v_good _ _ _ _ Hv) as Hg. rewrite Forall_forall in Hg. specialize (Hg y Hy). pose proof (g_obj _ _ _ _ Hg b Hb) as Hob.
  eapply obj_apart; [done|exact Hx|exact Hob| |].
  - eapply view_pages_apart; [done|by eapply list_elem_of_lookup_2|done].
  - intros <-. by apply (g_free _ _ _ _ Hg a Hob) in Hb.
Qed.

Lemma write_ok os s live a n :
  8 ≤ os ≤ 4096 → inv os s live → a ∈ live → Z.of_nat n ≤ os → ∃ s', user_write a n s = Ok (tt, s', []) ∧ inv os s' live.
Proof.
  intros Hos [gs Hv] Ha Hn. eexists. split; [reflexivity|]. exists gs. destruct Hv as [H1 H2 H3 H4 H5 H6]. constructor; try done.
  apply Forall_forall. intros y Hy. rewrite Forall_forall in H3. eapply good_words; [|by apply H3]. intros b Hb. cbn [words].
  assert (view os s live gs) as Hv by (constructor; try done; by rewrite Forall_forall).
  pose proof (live_far os s live gs a y b Hos Hv Ha Hy Hb). rewrite lookup_clobber, decide_False; [done|lia].
Qed.

Lemma find_holding os s live gs a :
  8 ≤ os ≤ 4096 → view os s live gs → a ∈ live →
  ∃ i x, find_slab (holds a) (slabs (cache s)) = Some i ∧ gs !! i = Some x ∧ obj_of os (memory (fst x)) a ∧ (a ∉ snd x).
Proof.
  intros Hos Hv Ha. destruct (live_slab _ _ _ _ _ Hv Ha) as (j & y & Hj & Hy & Hn). pose proof (obj_range _ _ _ Hos Hy) as Hr.
  destruct (find_slab (holds a) (slabs (cache s))) as [i|] eqn:Hf.
  - pose proof (find_slab_Some _ _ _ Hf) as (sb & Hsb & Hh). rewrite (v_slabs _ _ _ _ Hv), list_lookup_fmap in Hsb.
    apply fmap_Some in Hsb as (x & Hi & ->). unfold holds in Hh. apply andb_prop in Hh as [Hh1%Z.leb_le Hh2%Z.ltb_lt].
    destruct (decide (j = i)) as [->|Hne]; [by exists i, y|].
    pose proof (view_bases_ne _ _ _ _ _ _ _ _ Hv Hi Hj Hne). lia.
  - pose proof (find_slab_None _ _ Hf (fst y)) as Hnone. rewrite (v_slabs _ _ _ _ Hv) in Hnone.
    specialize (Hnone ltac:(by apply list_elem_of_fmap_2, (list_elem_of_lookup_2 _ j))). unfold holds in Hnone.
    rewrite (proj2 (Z.leb_le _ _)), (proj2 (Z.ltb_lt _ _)) in Hnone by lia. done.
Qed.

Lemma free_ok os s live a :
  8 ≤ os ≤ 4096 → inv os s live → a ∈ live → ∃ s', slab_free a s = Ok (tt, s', []) ∧ inv os s' (live ∖ {[a]}).
Proof.
  intros Hos [gs Hv] Ha. destruct (find_holding os s live gs a Hos Hv Ha) as (i & [sb fl] & Hf & Hi & Hobj & Hfl).
  cbn [fst snd] in *. pose proof (obj_range _ _ _ Hos Hobj) as Hr.
  pose proof (Forall_lookup_1 _ _ _ _ (v_good _ _ _ _ Hv) Hi) as Hg.
  assert (∀ y b, y ∈ gs → b ∈ snd y → put_word a (free_list sb) (words s) !! b = words s !! b) as Hsame.
  { intros y b Hy Hb. pose proof (live_far os s live gs a y b Hos Hv Ha Hy Hb). rewrite lookup_put_word, !decide_False by lia. done. }
  set (sb' := mkSlab (memory sb) (Some a) (object_size sb) (objects_per_slab sb) (free_objects sb + 1)).
  pose proof (view_update os s live gs i (sb, fl) (sb', a :: fl) (put_word a (free_list sb) (words s)) (live ∖ {[a]}) Hv Hi eq_refl) as Hup.
  eexists. split.
  - unfold slab_free. refine (bind_Ok _ _ _ _ _ [] _ _ [] eq_refl _). rewrite Hf, (v_slabs _ _ _ _ Hv), list_lookup_fmap, Hi. csimpl.
    unfold header_in, HEADER. rewrite (proj2 (Z.leb_le (memory sb) a)), (proj2 (Z.leb_le (a + 8) (memory sb + SLAB_SIZE))) by lia.
    simpl andb. cbv iota. refine (bind_Ok _ _ _ _ _ [] _ _ [] eq_refl _). reflexivity.
  - eexists. cbn [cache words pages osize name]. rewrite <- (v_slabs _ _ _ _ Hv). apply Hup; clear Hup.
    + constructor; simpl; try apply Hg.
      * pose proof (g_count _ _ _ _ Hg) as Hc. simpl in Hc. lia.
      * split; [done|]. exists (free_list sb). rewrite lookup_put_word, decide_True by done. split; [done|].
        eapply fchain_ext; [|apply (g_chain _ _ _ _ Hg)]. intros b Hb. apply (Hsame (sb, fl)); [by eapply list_elem_of_lookup_2|done].
      * constructor; [done|apply (g_nodup _ _ _ _ Hg)].
      * intros b [->|Hb]%elem_of_cons; [done|by apply (g_obj _ _ _ _ Hg)].
      * intros b Hb. pose proof (g_free _ _ _ _ Hg b Hb) as Hfb. simpl in Hfb. rewrite elem_of_cons, elem_of_difference, elem_of_singleton, Hfb.
        destruct (decide (b = a)); tauto.
    + intros j y Hne Hj. eapply (good_live _ _ live).
      * intros b Hb. rewrite elem_of_difference, elem_of_singleton. split; [|tauto]. intros ?. split; [done|]. intros ->.
        pose proof (other_slab _ _ _ _ _ _ _ _ _ _ Hos Hv Hi Hj Hne Hobj Hb). lia.
      * eapply good_words; [|apply (Forall_lookup_1 _ _ _ _ (v_good _ _ _ _ Hv) Hj)]. intros b Hb.
        apply (Hsame y); [by eapply list_elem_of_lookup_2|done].
    + intros b [? _]%elem_of_difference. by left.
Qed.

(** A new cache. *)
Definition empty_state (nm : string) (size : Z) : state := mkState (fst (slab_cache_create nm size)) ∅ ∅.

Lemma inv_empty nm os : inv os (empty_state nm os) ∅.
Proof. exists []. constructor; try done; [apply NoDup_nil_2|..]; intros x Hx; set_solver. Qed.

End SlabSpec.

Section SlabTheorems.
Import Slab SlabSpec.

(** For objects of 8 to 4096 bytes the allocator keeps its free lists and
    counts exact, whatever owners write into their objects.  [slab_alloc] always
    returns an object that is not in use, inside one page and disjoint from
    every object in use, creating a slab when all are full; a write of at most
    the object's size into an object in use does no harm; and [slab_free] of an
    object in use makes it free again. *)
Theorem slab_allocator_correct os s live :
  8 ≤ os ≤ 4096 → inv os s live →
  (∃ a s' out, slab_alloc s = Ok (Some a, s', out) ∧ inv os s' ({[a]} ∪ live) ∧ (a ∉ live) ∧
     (∃ p : positive, SLAB_SIZE * Zpos p ≤ a ∧ a + os ≤ SLAB_SIZE * (Zpos p + 1)) ∧
     ∀ b, b ∈ live → a + os ≤ b ∨ b + os ≤ a) ∧
  (∀ a n, a ∈ live → Z.of_nat n ≤ os → ∃ s', user_write a n s = Ok (tt, s', []) ∧ inv os s' live) ∧
  (∀ a, a ∈ live → ∃ s', slab_free a s = Ok (tt, s', []) ∧ inv os s' (live ∖ {[a]})).
Proof.
  intros Hos Hi. split_and!; [|intros a n; by apply write_ok|intros a; by apply free_ok].
  destruct (alloc_ok os s live Hos Hi) as (a & s' & out & Hr & Hn & Hi'). exists a, s', out.
  split_and!; try done; destruct Hi' as [gs Hv]; destruct (v_live _ _ _ _ Hv a ltac:(set_solver)) as (x & Hx & Ha).
  - destruct (v_pages _ _ _ _ Hv x Hx) as (p & _ & Hp). pose proof (obj_range _ _ _ Hos Ha). exists p. unfold SLAB_SIZE in *. lia.
  - intros b Hb. destruct (v_live _ _ _ _ Hv b ltac:(set_solver)) as (y & Hy & Hyb).
    eapply obj_apart; [done|exact Ha|exact Hyb|by eapply view_pages_apart|]. intros ->. done.
Qed.

Lemma slab_allocator_correct_witness :
  ∃ a s' out, slab_alloc (empty_state "db_tuples" TUPLE) = Ok (Some a, s', out) ∧ inv TUPLE s' ({[a]} ∪ ∅).
Proof.
  destruct (slab_allocator_correct TUPLE (empty_state "db_tuples" TUPLE) ∅) as [(a & s' & out & H1 & H2 & _) _].
  - unfold TUPLE. lia.
  - apply inv_empty.
  - exists a, s', out. split; [exact H1|exact H2].
Defined.

(** [slab_free] of a pointer outside every slab does nothing. *)
Lemma slab_free_stray a s :
  (∀ sb, sb ∈ slabs (cache s) → holds a sb = false) → slab_free a s = Ok (tt, s, []).
Proof.
  intros Hno. unfold slab_free. c_run. destruct (find_slab (holds a) (slabs (cache s))) as [i|] eqn:Hf; [|done].
  apply find_slab_Some in Hf as (sb & Hsb & Hh). rewrite Hno in Hh; [done|by eapply list_elem_of_lookup_2].
Qed.

(** Objects larger than a page: the new slab has no object, and its empty free
    list is read through NULL. *)
Lemma slab_large_object : slab_alloc (empty_state "pages" 5000) = UB NullDeref.
Proof. reflexivity. Qed.

(** The scenario of the file: a thousand different tuples. *)
Lemma dbms_scenario_runs :
  match dbms_scenario with
  | Ok (tuples, _, _) => bool_decide (NoDup tuples) && forallb (λ p, bool_decide (p ≠ None)) tuples
  | UB _ => false
  end = true.
Proof. vm_compute. reflexivity. Qed.

End SlabTheorems.
