(* ===== verification/FreeListPool.v ===== *)
(** * The pool with a free list: [day-5(Leetcode_LRU)/simple-memory-pool.c]

    Blocks of a pool of 1024 bytes, each with a header in front of it; free
    blocks are linked and searched by first fit, large ones are split.  [Pool]
    models the file, with a pointer into the pool as its offset.  [PoolSpec]
    shows that the blocks always tile the pool, so that headers never overlap
    and a map from offsets to headers is exact. *)
From stdpp Require Import base list gmap strings pretty.
From Stdlib Require Import ZArith Lia.
From S2P Require Import Prelude.
Local Open Scope Z_scope.

Module Pool.
Section Pool.

(** What [%p] prints for an offset depends on where the pool is. *)
Variable show : Z → string.

Definition POOL_SIZE : Z := 1024.

(** [sizeof(Block)]. *)
Definition BLOCK : Z := 16.

(** [size_t] arithmetic. *)
Definition wrap64 (z : Z) : Z := z mod 2 ^ 64.

Record Block : Set := mkBlock { bsize : Z; next : option Z }.

Record state : Set := mkState { blocks : gmap Z Block; free_list : option Z }.

Definition rd (o : Z) : C state Block :=
  s ← get; lift (match blocks s !! o with Some b => Ok b | None => UB Uninitialised end).

Definition wr (o : Z) (b : Block) : C state unit :=
  s ← get;
  if (0 <=? o) && (o + BLOCK <=? POOL_SIZE) then put (mkState (<[o := b]> (blocks s)) (free_list s))
  else lift (UB OutOfBounds).

Definition pool_init : C state unit :=
  wr 0 (mkBlock (POOL_SIZE - BLOCK) None) ;;
  s ← get; put (mkState (blocks s) (Some 0)).

(** [if (prev) prev->next = p; else free_list = p;]. *)
Definition relink (prev p : option Z) : C state unit :=
  match prev with
  | Some o => b ← rd o; wr o (mkBlock (bsize b) p)
  | None => s ← get; put (mkState (blocks s) p)
  end.

(** The block at [c] is taken out of the free list, or split. *)
Definition take_block (prev : option Z) (c size : Z) : C state unit :=
  b ← rd c;
  if bsize b >=? wrap64 (size + BLOCK + 1) then
    let new_block := c + BLOCK + size in
    wr new_block (mkBlock (bsize b - size - BLOCK) (next b)) ;;
    wr c (mkBlock size (next b)) ;;
    relink prev (Some new_block)
  else relink prev (next b).

(** [while (current)]. *)
Fixpoint allocate_loop (fuel : nat) (prev current : option Z) (size : Z) : C state (option Z) :=
  match current with
  | None => printf ("Allocation of " +:+ d size +:+ " bytes is failed") ;; mret None
  | Some c =>
      match fuel with
      | O => lift (UB OutOfFuel)
      | S fuel =>
          b ← rd c;
          if bsize b >=? size then
            take_block prev c size ;;
            printf ("Allocation of " +:+ d size +:+ " bytes is successful at " +:+ show (c + BLOCK) +:+ " " +:+ nl) ;;
            mret (Some (c + BLOCK))
          else allocate_loop fuel current (next b) size
      end
  end.

(** There is a round for every header at most. *)
Definition pool_allocate (size : Z) : C state (option Z) :=
  s ← get; allocate_loop (base.size (blocks s)) None (free_list s) size.

Definition pool_free (ptr : option Z) : C state unit :=
  match ptr with
  | None => mret tt
  | Some p =>
      let block_to_free := p - BLOCK in
      s ← get;
      b ← rd block_to_free;
      wr block_to_free (mkBlock (bsize b) (free_list s)) ;;
      s ← get; put (mkState (blocks s) (Some block_to_free)) ;;
      printf (d (bsize b) +:+ " bytes of data is freed from " +:+ show p +:+ " " +:+ nl)
  end.

Definition main : C state unit :=
  pool_init ;;
  ptr1 ← pool_allocate 256;
  ptr2 ← pool_allocate 128;
  pool_free ptr1 ;;
  ptr3 ← pool_allocate 512;
  mret tt.

End Pool.
End Pool.

(** ** Blocks tile the pool *)
Module PoolSpec.
Import Pool.

(** The blocks, by offset and size, cover the bytes from [a] to [e]. *)
Fixpoint tile (a : Z) (ts : list (Z * Z)) (e : Z) : Prop :=
  match ts with
  | [] => a = e
  | (o, z) :: ts => o = a ∧ 0 ≤ z ∧ tile (a + BLOCK + z) ts e
  end.

Fixpoint chain (h : gmap Z Block) (p : option Z) (l : list Z) : Prop :=
  match l with
  | [] => p = None
  | o :: l => p = Some o ∧ ∃ b, h !! o = Some b ∧ chain h (next b) l
  end.

Record inv (s : state) (ts : list (Z * Z)) (fl : list Z) : Prop := mkinv {
  i_tile : tile 0 ts POOL_SIZE;
  i_size : ∀ o z, (o, z) ∈ ts ↔ bsize <$> blocks s !! o = Some z;
  i_chain : chain (blocks s) (free_list s) fl;
  i_nodup : NoDup fl
}.

Lemma tile_app a ts1 ts2 e : tile a (ts1 ++ ts2) e ↔ ∃ m, tile a ts1 m ∧ tile m ts2 e.
Proof.
  revert a. induction ts1 as [|[o z] ts1 IH]; intros a; simpl; [naive_solver|]. rewrite IH. naive_solver.
Qed.

Lemma tile_range a ts e o z : tile a ts e → (o, z) ∈ ts → a ≤ o ∧ 0 ≤ z ∧ o + BLOCK + z ≤ e.
Proof.
  revert a. induction ts as [|[o' z'] ts IH]; intros a Ht Hin; [by apply elem_of_nil in Hin|].
  destruct Ht as (-> & Hz & Ht). assert (∀ x, tile x ts e → x ≤ e) as Hle.
  { clear. induction ts as [|[o z] ts IH]; intros x; simpl; [lia|]. intros (-> & Hz & Hx%IH). unfold BLOCK in *. lia. }
  apply elem_of_cons in Hin as [[= -> ->]|Hin]; [specialize (Hle _ Ht); unfold BLOCK in *; lia|].
  specialize (IH _ Ht Hin). unfold BLOCK in *. lia.
Qed.

(** Different blocks are disjoint, headers included. *)
Lemma tile_apart a ts e o z o' z' :
  tile a ts e → (o, z) ∈ ts → (o', z') ∈ ts → o < o' → o + BLOCK + z ≤ o'.
Proof.
  revert a. induction ts as [|[o1 z1] ts IH]; intros a Ht H1 H2 Hlt; [by apply elem_of_nil in H1|].
  destruct Ht as (-> & Hz & Ht). apply elem_of_cons in H1 as [[= -> ->]|H1]; apply elem_of_cons in H2 as [[= -> ->]|H2].
  - lia.
  - apply (tile_range _ _ _ _ _ Ht) in H2. lia.
  - apply (tile_range _ _ _ _ _ Ht) in H1. unfold BLOCK in *. lia.
  - by apply (IH _ Ht).
Qed.

Lemma chain_ext h h' p l : (∀ o, o ∈ l → h' !! o = h !! o) → chain h p l → chain h' p l.
Proof.
  revert p. induction l as [|o l IH]; intros p Heq; simpl; [done|]. intros (-> & b & Hb & Hc). split; [done|].
  exists b. split; [by rewrite Heq by left|]. apply IH; [|done]. intros x Hx. apply Heq. by right.
Qed.

(** The end of a chain is exchanged: the last of [f1] now links to [v]. *)
Lemma chain_relink h h' p v f1 g g' :
  chain h p (f1 ++ g) → chain h' v g' →
  (∀ x b, x ∈ f1 → h !! x = Some b → h' !! x = Some (if decide (last f1 = Some x) then mkBlock (bsize b) v else b)) →
  NoDup f1 → chain h' (match f1 with [] => v | _ => p end) (f1 ++ g').
Proof.
  revert p. induction f1 as [|x f1 IH]; intros p Hc Hv Heq Hnd; [done|]. simpl app in *. simpl in Hc.
  destruct Hc as (-> & b & Hb & Hc). apply NoDup_cons in Hnd as [Hx Hnd]. split; [done|].
  pose proof (Heq x b ltac:(left) Hb) as Hxb. destruct f1 as [|y f1].
  - rewrite decide_True in Hxb by done. eexists. split; [exact Hxb|]. exact Hv.
  - rewrite last_cons_cons, decide_False in Hxb.
    + exists b. split; [done|]. apply (IH _ Hc Hv); [|done]. intros z bz Hz. rewrite <- (last_cons_cons x y f1). apply Heq. by right.
    + intros Hl. apply Hx. by apply last_Some_elem_of.
Qed.

Lemma chain_live h p l o : chain h p l → o ∈ l → is_Some (h !! o).
Proof.
  revert p. induction l as [|x l IH]; intros p Hc Ho; [by apply elem_of_nil in Ho|]. destruct Hc as (_ & b & Hb & Hc).
  apply elem_of_cons in Ho as [->|Ho]; [by exists b|by apply (IH (next b))].
Qed.

Lemma chain_app h p l1 o l2 : chain h p (l1 ++ o :: l2) → ∃ b, h !! o = Some b ∧ chain h (next b) l2.
Proof.
  revert p. induction l1 as [|x l1 IH]; intros p Hc; [destruct Hc as (_ & b & ?); by exists b|].
  destruct Hc as (_ & b & _ & Hc). by apply (IH (next b)).
Qed.

Lemma inv_block s ts fl o b : inv s ts fl → blocks s !! o = Some b → (o, bsize b) ∈ ts.
Proof. intros Hi Hb. apply (i_size _ _ _ Hi). by rewrite Hb. Qed.

Lemma inv_range s ts fl o b :
  inv s ts fl → blocks s !! o = Some b → 0 ≤ o ∧ 0 ≤ bsize b ∧ o + BLOCK + bsize b ≤ POOL_SIZE.
Proof. intros Hi Hb. eapply tile_range; [apply (i_tile _ _ _ Hi)|by eapply inv_block]. Qed.

Lemma pool_wr_ok o b s : 0 ≤ o → o + BLOCK ≤ POOL_SIZE → wr o b s = Ok (tt, mkState (<[o := b]> (blocks s)) (free_list s), []).
Proof.
  intros H1 H2. unfold wr. c_run. rewrite (proj2 (Z.leb_le 0 o)), (proj2 (Z.leb_le (o + BLOCK) POOL_SIZE)) by done. done.
Qed.

Lemma pool_rd_ok o b s : blocks s !! o = Some b → rd o s = Ok (b, s, []).
Proof. intros Hb. unfold rd. c_run. by rewrite Hb. Qed.

(** [h'] is [h] with the link of the last of [f1] set to [v]. *)
Definition relinked (f1 : list Z) (v : option Z) (h h' : gmap Z Block) : Prop :=
  ∀ x, h' !! x = (λ b, if decide (last f1 = Some x) then mkBlock (bsize b) v else b) <$> h !! x.

Lemma pool_relink_ok s f1 v :
  (∀ o, o ∈ f1 → is_Some (blocks s !! o) ∧ 0 ≤ o ∧ o + BLOCK ≤ POOL_SIZE) →
  ∃ h', relink (last f1) v s = Ok (tt, mkState h' (match f1 with [] => v | _ => free_list s end), []) ∧ relinked f1 v (blocks s) h'.
Proof.
  intros Hf. destruct (last f1) as [p|] eqn:Hl; unfold relink, relinked; rewrite ?Hl.
  - destruct (Hf p) as ([b Hb] & H1 & H2); [by apply last_Some_elem_of|]. eexists. split.
    + refine (bind_Ok _ _ _ _ _ [] _ _ [] (pool_rd_ok _ _ _ Hb) _). rewrite pool_wr_ok by done. by destruct f1.
    + intros x. destruct (decide (p = x)) as [->|Hne]; [rewrite lookup_insert_eq, Hb; csimpl; by rewrite decide_True|].
      rewrite lookup_insert_ne by done. destruct (blocks s !! x); csimpl; [|done]. by rewrite decide_False by congruence.
  - apply last_None in Hl as ->. eexists. split; [reflexivity|]. intros x. by destruct (blocks s !! x).
Qed.

Lemma relinked_size f1 v h h' x : relinked f1 v h h' → bsize <$> h' !! x = bsize <$> h !! x.
Proof. intros Hr. rewrite (Hr x). destruct (h !! x); csimpl; [|done]. by case_decide. Qed.

Lemma relinked_other f1 v h h' x : relinked f1 v h h' → (x ∉ f1) → h' !! x = h !! x.
Proof.
  intros Hr Hx. rewrite (Hr x). destruct (h !! x); csimpl; [|done]. rewrite decide_False; [done|].
  intros Hl. by apply Hx, last_Some_elem_of.
Qed.

Section Take.
Context (s : state) (ts : list (Z * Z)) (f1 f2 : list Z) (o : Z) (b : Block).
Hypothesis Hinv : inv s ts (f1 ++ o :: f2).
Hypothesis Hb : blocks s !! o = Some b.

Lemma take_nodup : NoDup f1 ∧ (o ∉ f1) ∧ (o ∉ f2) ∧ NoDup f2 ∧ (∀ x, x ∈ f1 → x ∉ f2).
Proof.
  pose proof (i_nodup _ _ _ Hinv) as (H1 & H2 & H3)%NoDup_app. apply NoDup_cons in H3 as [H3 H4].
  split_and!; try done; [intros Ho; by apply (H2 o Ho); left|]. intros x Hx Hx2. apply (H2 x Hx). by right.
Qed.

Lemma take_prev_ok x : x ∈ f1 → is_Some (blocks s !! x) ∧ 0 ≤ x ∧ x + BLOCK ≤ POOL_SIZE.
Proof.
  intros Hx. destruct (chain_live _ _ _ x (i_chain _ _ _ Hinv)) as [bx Hbx]; [apply elem_of_app; by left|].
  pose proof (inv_range _ _ _ _ _ Hinv Hbx). split; [by exists bx|]. lia.
Qed.

(** The block is used whole. *)
Lemma pool_take_whole size :
  size ≤ bsize b → bsize b < size + BLOCK + 1 → 0 ≤ size →
  ∃ s', take_block (last f1) o size s = Ok (tt, s', []) ∧ inv s' ts (f1 ++ f2).
Proof.
  intros Hfit Hsmall H0. destruct take_nodup as (Hn1 & Ho1 & Ho2 & Hn2 & H12).
  pose proof (inv_range _ _ _ _ _ Hinv Hb) as Hr. unfold POOL_SIZE, BLOCK in Hr.
  destruct (pool_relink_ok s f1 (next b) take_prev_ok) as (h' & Hrun & Hre).
  destruct (chain_app _ _ _ _ _ (i_chain _ _ _ Hinv)) as (b' & Hb' & Hc). rewrite Hb in Hb'. injection Hb' as <-.
  eexists. split.
  - unfold take_block. refine (bind_Ok _ _ _ _ _ [] _ _ [] (pool_rd_ok _ _ _ Hb) _).
    unfold wrap64, BLOCK in *. rewrite Z.mod_small by lia. rewrite Z.geb_leb, (proj2 (Z.leb_gt _ _)) by lia. exact Hrun.
  - constructor; cbn [blocks free_list].
    + apply (i_tile _ _ _ Hinv).
    + intros x z. rewrite (relinked_size _ _ _ _ x Hre). apply (i_size _ _ _ Hinv).
    + eapply chain_relink; [apply (i_chain _ _ _ Hinv)| | |done].
      * eapply chain_ext; [|exact Hc]. intros x Hx. apply (relinked_other _ _ _ _ _ Hre). intros Hx1. by apply (H12 x).
      * intros x bx _ Hbx. by rewrite (Hre x), Hbx.
    + apply NoDup_app. split_and!; done.
Qed.

(** The block is split and its rest takes its place in the free list. *)
Lemma take_split size t1 t2 :
  ts = t1 ++ (o, bsize b) :: t2 → size + BLOCK + 1 ≤ bsize b → 0 ≤ size →
  ∃ s', take_block (last f1) o size s = Ok (tt, s', []) ∧
    inv s' (t1 ++ (o, size) :: (o + BLOCK + size, bsize b - size - BLOCK) :: t2) (f1 ++ (o + BLOCK + size) :: f2).
Proof.
  intros Hts Hbig H0. destruct take_nodup as (Hn1 & Ho1 & Ho2 & Hn2 & H12). set (o' := o + BLOCK + size).
  pose proof (inv_range _ _ _ _ _ Hinv Hb) as Hr.
  assert (blocks s !! o' = None) as Hnew.
  { destruct (blocks s !! o') as [b'|] eqn:Hb'; [|done].
    pose proof (tile_apart _ _ _ _ _ _ _ (i_tile _ _ _ Hinv) (inv_block _ _ _ _ _ Hinv Hb) (inv_block _ _ _ _ _ Hinv Hb')).
    unfold o', BLOCK in *. lia. }
  assert (∀ x, x ∈ f1 ++ o :: f2 → x ≠ o') as Hfl.
  { intros x Hx ->. destruct (chain_live _ _ _ _ (i_chain _ _ _ Hinv) Hx). congruence. }
  assert (o' ≠ o) as Hoo by (unfold o', BLOCK; lia).
  set (s1 := mkState (<[o := mkBlock size (next b)]> (<[o' := mkBlock (bsize b - size - BLOCK) (next b)]> (blocks s))) (free_list s)).
  assert (∀ x, x ≠ o → x ≠ o' → blocks s1 !! x = blocks s !! x) as Hsame
    by (intros x ? ?; unfold s1; simpl; by rewrite !lookup_insert_ne by done).
  destruct (pool_relink_ok s1 f1 (Some o')) as (h' & Hrun & Hre).
  { intros x Hx. rewrite Hsame; [by apply take_prev_ok|intros ->; done|apply Hfl, elem_of_app; by left]. }
  destruct (chain_app _ _ _ _ _ (i_chain _ _ _ Hinv)) as (b' & Hb' & Hc). rewrite Hb in Hb'. injection Hb' as <-.
  assert (o' ∉ f1) as Ho'1 by (intros Hx; by apply (Hfl o'); [apply elem_of_app; left|]).
  assert ((∀ x z, (x, z) ∈ t1 → x < o) ∧ (∀ x z, (x, z) ∈ t2 → o' < x)) as [Hlow Hhigh].
  { pose proof (i_tile _ _ _ Hinv) as Ht. rewrite Hts in Ht. apply tile_app in Ht as (m & Ht1 & -> & Hz & Ht2).
    split; intros x z Hx; [apply (tile_range _ _ _ _ _ Ht1) in Hx|apply (tile_range _ _ _ _ _ Ht2) in Hx]; unfold o', BLOCK in *; lia. }
  eexists. split.
  - unfold take_block. refine (bind_Ok _ _ _ _ _ [] _ _ [] (pool_rd_ok _ _ _ Hb) _).
    assert (wrap64 (size + BLOCK + 1) = size + BLOCK + 1) as -> by (unfold wrap64, POOL_SIZE, BLOCK in *; rewrite Z.mod_small; lia).
    rewrite Z.geb_leb, (proj2 (Z.leb_le _ _)) by lia. cbv zeta. fold o'.
    refine (bind_Ok _ _ _ _ _ [] _ _ [] (pool_wr_ok o' _ _ _ _) _); [unfold o', BLOCK in *; lia..|].
    refine (bind_Ok _ _ _ _ _ [] _ _ [] (pool_wr_ok o _ _ _ _) _); [unfold BLOCK in *; lia..|]. exact Hrun.
  - constructor; cbn [blocks free_list].
    + pose proof (i_tile _ _ _ Hinv) as Ht. rewrite Hts in Ht. apply tile_app in Ht as (m & Ht1 & -> & Hz & Ht2).
      apply tile_app. exists m. split; [done|]. simpl. split_and!; [done|done|done|unfold BLOCK in *; lia|].
      by replace (m + BLOCK + size + BLOCK + (bsize b - size - BLOCK)) with (m + BLOCK + bsize b) by lia.
    + intros x z. rewrite (relinked_size _ _ _ _ x Hre). pose proof (i_size _ _ _ Hinv x z) as Hs. rewrite Hts in Hs.
      rewrite elem_of_app, elem_of_cons in Hs. rewrite elem_of_app, !elem_of_cons.
      pose proof (Hlow x z) as Hl. pose proof (Hhigh x z) as Hh.
      destruct (decide (x = o)) as [->|Hne]; [|destruct (decide (x = o')) as [->|Hne']].
      * unfold s1. simpl. rewrite lookup_insert_eq. csimpl. split; [|intros [= <-]; tauto].
        intros [H|[[= ->]|[[= ? _]|H]]]; [specialize (Hl H); lia|done|done|specialize (Hh H); unfold o', BLOCK in *; lia].
      * unfold s1. simpl. rewrite lookup_insert_ne, lookup_insert_eq by done. csimpl. split; [|intros [= <-]; tauto].
        intros [H|[[= ? _]|[[= ->]|H]]]; [specialize (Hl H); unfold o', BLOCK in *; lia|done|done|specialize (Hh H); lia].
      * rewrite Hsame by done. rewrite <- Hs. naive_solver.
    + eapply chain_relink; [apply (i_chain _ _ _ Hinv)| | |done].
      * simpl. split; [done|]. eexists. split; [rewrite (relinked_other _ _ _ _ _ Hre) by done; unfold s1; simpl;
          rewrite lookup_insert_ne, lookup_insert_eq by done; reflexivity|]. simpl.
        eapply chain_ext; [|exact Hc]. intros x Hx. rewrite (relinked_other _ _ _ _ _ Hre) by (intros Hx1; by apply (H12 x)).
        apply Hsame; [intros ->; done|]. apply Hfl. apply elem_of_app. right. by right.
      * intros x bx Hx Hbx. rewrite (Hre x), Hsame, Hbx; [done|intros ->; done|apply Hfl, elem_of_app; by left].
    + apply NoDup_app. split_and!; [done| |].
      * intros x Hx [->|Hx2]%elem_of_cons; [done|by apply (H12 x)].
      * apply NoDup_cons. split; [|done]. intros Hx. apply (Hfl o'); [|done]. apply elem_of_app. right. by right.
Qed.

End Take.

(** What a successful call for [size] bytes does to the blocks. *)
Definition handed_out (size : Z) (ts : list (Z * Z)) (fl : list Z) (o : Z) (ts' : list (Z * Z)) (fl' : list Z) : Prop :=
  (∃ z', (o, z') ∈ ts' ∧ size ≤ z' ≤ size + BLOCK) ∧ (o ∉ fl') ∧
  ∀ x w, (x, w) ∈ ts → (x ∉ fl) → (x, w) ∈ ts' ∧ (x ∉ fl').

Lemma pool_take_block_ok s ts f1 f2 o b size :
  inv s ts (f1 ++ o :: f2) → blocks s !! o = Some b → 0 ≤ size ≤ bsize b →
  ∃ s' ts' fl', take_block (last f1) o size s = Ok (tt, s', []) ∧ inv s' ts' fl' ∧ handed_out size ts (f1 ++ o :: f2) o ts' fl'.
Proof.
  intros Hi Hb Hz. pose proof (take_nodup s ts f1 f2 o Hi) as (_ & Ho1 & Ho2 & _).
  pose proof (inv_block _ _ _ _ _ Hi Hb) as Hin. unfold handed_out.
  destruct (decide (size + BLOCK + 1 ≤ bsize b)) as [Hbig|Hsmall].
  - pose proof Hin as (t1 & t2 & Hts)%list_elem_of_split.
    destruct (take_split s ts f1 f2 o b Hi Hb size t1 t2 Hts Hbig) as (s' & Hr & Hi'); [lia|].
    eexists s', _, _. split_and!; [exact Hr|exact Hi'| | |].
    + exists size. split; [rewrite elem_of_app; right; left|unfold BLOCK; lia].
    + rewrite elem_of_app, elem_of_cons. intros [?|[?|?]]; [done|unfold BLOCK in *; lia|done].
    + intros x w Hx Hnx. rewrite elem_of_app, elem_of_cons in Hnx. split.
      * rewrite Hts, elem_of_app, elem_of_cons in Hx. rewrite elem_of_app, !elem_of_cons. naive_solver.
      * rewrite elem_of_app, elem_of_cons. intros [?|[->|?]]; [tauto| |tauto].
        pose proof (tile_apart _ _ _ _ _ _ _ (i_tile _ _ _ Hi) Hin Hx). unfold BLOCK in *. lia.
  - destruct (pool_take_whole s ts f1 f2 o b Hi Hb size) as (s' & Hr & Hi'); [lia..|].
    exists s', ts, (f1 ++ f2). split_and!; [done|done| | |].
    + exists (bsize b). split; [done|]. lia.
    + rewrite elem_of_app. tauto.
    + intros x w Hx Hnx. split; [done|]. rewrite elem_of_app, elem_of_cons in Hnx. rewrite elem_of_app. tauto.
Qed.

(** First fit: [o] is the first free block that is large enough. *)
Definition first_fit (size : Z) (ts : list (Z * Z)) (fl : list Z) (o : Z) : Prop :=
  ∃ f1 f2 z, fl = f1 ++ o :: f2 ∧ (o, z) ∈ ts ∧ size ≤ z ∧ ∀ x w, x ∈ f1 → (x, w) ∈ ts → w < size.

Lemma pool_allocate_loop_ok show s ts size f2 : ∀ f1 fuel cur,
  inv s ts (f1 ++ f2) → 0 ≤ size → chain (blocks s) cur f2 → (length f2 ≤ fuel)%nat →
  (∀ x w, x ∈ f1 → (x, w) ∈ ts → w < size) →
  (∃ out, allocate_loop show fuel (last f1) cur size s = Ok (None, s, out) ∧
     ∀ x w, x ∈ f1 ++ f2 → (x, w) ∈ ts → w < size) ∨
  (∃ o s' ts' fl' out, allocate_loop show fuel (last f1) cur size s = Ok (Some (o + BLOCK), s', out) ∧
     first_fit size ts (f1 ++ f2) o ∧ inv s' ts' fl' ∧ handed_out size ts (f1 ++ f2) o ts' fl').
Proof.
  induction f2 as [|o f2 IH]; intros f1 fuel cur Hi H0 Hc Hfuel Hsmall.
  - left. simpl in Hc. subst cur. rewrite app_nil_r. destruct fuel; eexists; split; try exact Hsmall; reflexivity.
  - destruct Hc as (-> & b & Hb & Hc). destruct fuel as [|fuel]; [simpl in Hfuel; lia|]. cbn [allocate_loop].
    pose proof (inv_block _ _ _ _ _ Hi Hb) as Hin.
    destruct (decide (size ≤ bsize b)) as [Hfit|Hno].
    + right. destruct (pool_take_block_ok s ts f1 f2 o b size Hi Hb) as (s' & ts' & fl' & Hr & Hi' & Hh); [lia|].
      eexists o, s', ts', fl', _. split_and!; [|by exists f1, f2, (bsize b)|done|done].
      eapply bind_Ok; [by apply pool_rd_ok|]. rewrite Z.geb_leb, (proj2 (Z.leb_le _ _)) by lia.
      eapply bind_Ok; [exact Hr|]. eapply bind_Ok; reflexivity.
    + assert (f1 ++ o :: f2 = (f1 ++ [o]) ++ f2) as Heq by (by rewrite <- app_assoc). rewrite Heq in Hi.
      destruct (IH (f1 ++ [o]) fuel (next b) Hi H0 Hc) as [(out & Hr & Hall)|(o' & s' & ts' & fl' & out & Hr & Hrest)].
      * simpl in Hfuel. lia.
      * intros x w [Hx | ->%list_elem_of_singleton]%elem_of_app Hw; [by apply (Hsmall x)|].
        apply (i_size _ _ _ Hi) in Hw. rewrite Hb in Hw. injection Hw as <-. lia.
      * left. rewrite last_snoc in Hr. exists out. rewrite Heq. split; [|done].
        refine (bind_Ok _ _ _ _ _ [] _ _ out (pool_rd_ok _ _ _ Hb) _). rewrite Z.geb_leb, (proj2 (Z.leb_gt _ _)) by lia. exact Hr.
      * right. rewrite last_snoc in Hr. exists o', s', ts', fl', out. rewrite Heq. split; [|done].
        refine (bind_Ok _ _ _ _ _ [] _ _ out (pool_rd_ok _ _ _ Hb) _). rewrite Z.geb_leb, (proj2 (Z.leb_gt _ _)) by lia. exact Hr.
Qed.

Lemma free_length s ts fl : inv s ts fl → (length fl ≤ base.size (blocks s))%nat.
Proof.
  intros Hi. rewrite <- size_dom, <- (size_list_to_set (C := gset Z) fl) by apply (i_nodup _ _ _ Hi).
  apply subseteq_size. intros x Hx. apply elem_of_list_to_set in Hx. by apply elem_of_dom, (chain_live _ _ _ _ (i_chain _ _ _ Hi)).
Qed.

Lemma pool_free_ok show s ts fl o z :
  inv s ts fl → (o, z) ∈ ts → (o ∉ fl) → ∃ s' out, pool_free show (Some (o + BLOCK)) s = Ok (tt, s', out) ∧ inv s' ts (o :: fl).
Proof.
  intros Hi Hin Ho. pose proof (proj1 (i_size _ _ _ Hi o z) Hin) as (b & Hb & ->)%fmap_Some.
  pose proof (inv_range _ _ _ _ _ Hi Hb) as Hr.
  eexists (mkState (<[o := mkBlock (bsize b) (free_list s)]> (blocks s)) (Some o)), _. split.
  - unfold pool_free. replace (o + BLOCK - BLOCK) with o by lia. eapply bind_Ok; [reflexivity|].
    eapply bind_Ok; [by apply pool_rd_ok|]. eapply bind_Ok; [apply pool_wr_ok; lia|]. eapply bind_Ok; [reflexivity|].
    eapply bind_Ok; reflexivity.
  - constructor; cbn [blocks free_list].
    + apply (i_tile _ _ _ Hi).
    + intros x w. rewrite (i_size _ _ _ Hi). destruct (decide (x = o)) as [->|Hne]; [by rewrite lookup_insert_eq, Hb|].
      by rewrite lookup_insert_ne.
    + simpl. split; [done|]. eexists. split; [apply lookup_insert_eq|]. simpl. eapply chain_ext; [|apply (i_chain _ _ _ Hi)].
      intros x Hx. apply lookup_insert_ne. intros ->. done.
    + apply NoDup_cons. split; [done|apply (i_nodup _ _ _ Hi)].
Qed.

(** The pool after [pool_init]. *)
Definition initial : state := mkState {[0 := mkBlock 1008 None]} (Some 0).

Lemma init_ok s : blocks s = ∅ → pool_init s = Ok (tt, initial, []) ∧ inv initial [(0, 1008)] [0].
Proof.
  intros Hs. split; [unfold pool_init, initial; rewrite <- insert_empty, <- Hs; reflexivity|]. constructor.
  - simpl. unfold BLOCK, POOL_SIZE. lia.
  - intros o z. rewrite list_elem_of_singleton. unfold initial. simpl. destruct (decide (o = 0)) as [->|Hne].
    + rewrite lookup_singleton_eq. csimpl. split; [by intros [= ->]|by intros [= ->]].
    + rewrite lookup_singleton_ne by done. split; [by intros [= ? _]|done].
  - simpl. split; [done|]. eexists. split; [by rewrite lookup_singleton_eq|done].
  - apply NoDup_singleton.
Qed.

End PoolSpec.

Section PoolTheorems.
Import Pool PoolSpec.

(** The blocks always tile the pool.  [pool_allocate] of any size ends: it
    returns NULL and changes nothing exactly when no free block is large enough,
    and otherwise the first free block in list order that is, at least [size]
    and at most [size + 16] bytes long after a split, no longer free, with every
    block in use left where it was.  [pool_free] of a block in use puts it back
    and changes no other block. *)
Theorem free_list_pool_correct show s ts fl size :
  inv s ts fl → 0 ≤ size →
  ((∃ out, pool_allocate show size s = Ok (None, s, out) ∧ ∀ x w, x ∈ fl → (x, w) ∈ ts → w < size) ∨
   (∃ o s' ts' fl' out, pool_allocate show size s = Ok (Some (o + BLOCK), s', out) ∧
      first_fit size ts fl o ∧ inv s' ts' fl' ∧ handed_out size ts fl o ts' fl')) ∧
  (∀ o z, (o, z) ∈ ts → (o ∉ fl) →
     ∃ s' out, pool_free show (Some (o + BLOCK)) s = Ok (tt, s', out) ∧ inv s' ts (o :: fl)).
Proof.
  intros Hi H0. split; [|intros o z; by apply pool_free_ok].
  assert (pool_allocate show size s = allocate_loop show (base.size (blocks s)) None (free_list s) size s) as ->.
  { unfold pool_allocate. c_run. by destruct (allocate_loop _ _ _ _ _ _) as [[[? ?] ?]|]. }
  exact (pool_allocate_loop_ok show s ts size fl [] _ _ Hi H0 (i_chain _ _ _ Hi) (free_length _ _ _ Hi) ltac:(intros x w Hx; by apply elem_of_nil in Hx)).
Qed.

Lemma free_list_pool_correct_witness :
  ∃ s' ts' fl' out, pool_allocate (λ _, EmptyString) 256 initial = Ok (Some 16, s', out) ∧ inv s' ts' fl'.
Proof.
  destruct (free_list_pool_correct (λ _, EmptyString) initial [(0, 1008)] [0] 256) as [[(out & _ & Hall)|(o & s' & ts' & fl' & out & Hr & Hf & Hi & _)] _].
  - by apply (init_ok (mkState ∅ None)).
  - lia.
  - specialize (Hall 0 1008 ltac:(left) ltac:(left)). lia.
  - destruct Hf as (f1 & f2 & z & Hfl & _). assert (o = 0) as ->.
    { destruct f1 as [|x [|y f1]]; cbn [app] in Hfl; congruence. }
    exists s', ts', fl', out. split; [exact Hr|exact Hi].
Defined.

(** The three requests of [main] succeed, as in the sample at the end of the
    file. *)
Lemma pool_main_runs :
  ∃ s out, (pool_init ;; p1 ← pool_allocate d 256; p2 ← pool_allocate d 128; pool_free d p1 ;; p3 ← pool_allocate d 512;
    mret (p1, p2, p3)) (mkState ∅ None) = Ok ((Some 16, Some 288, Some 432), s, out).
Proof. eexists _, _. vm_compute. reflexivity. Qed.

(** Freed blocks are not joined: after two blocks of 480 bytes were used and
    given back, no block of 600 bytes is left. *)
Lemma pool_fragmented :
  ∃ s out, (pool_init ;; p1 ← pool_allocate d 480; p2 ← pool_allocate d 480; pool_free d p1 ;; pool_free d p2 ;;
    pool_allocate d 600) (mkState ∅ None) = Ok (None, s, out).
Proof. eexists _, _. vm_compute. reflexivity. Qed.

End PoolTheorems.
