(* ===== verification/BinaryTree.v ===== *)
(** * Binary trees in level order: [day-6(Binary_Tree)]

    [Traversal] is binary-tree-with-traversal.c, [DepthFromArray] builds a tree
    from an array whose element [i] has its children at [2 * i + 1] and
    [2 * i + 2], and [DynamicInsertion] puts every new value into the first free
    place of a tree in memory, which it finds with a queue of node pointers.
    [LevelSpec] shows that the two programs build the same trees, and how far
    the fixed queue reaches. *)
From stdpp Require Import base list gmap strings pretty.
From Stdlib Require Import ZArith Lia.
From S2P Require Import Prelude Bst.

(** ** [binary-tree-with-traversal.c] *)
Module Traversal.

Definition createNode (value : Z) : tree := Node value NULL NULL.

Fixpoint inorder (root : tree) : C unit unit :=
  match root with
  | NULL => mret tt
  | Node data l r => inorder l ;; printf (d data +:+ " ") ;; inorder r
  end.

Fixpoint preorder (root : tree) : C unit unit :=
  match root with
  | NULL => mret tt
  | Node data l r => printf (d data +:+ " ") ;; preorder l ;; preorder r
  end.

Fixpoint postorder (root : tree) : C unit unit :=
  match root with
  | NULL => mret tt
  | Node data l r => postorder l ;; postorder r ;; printf (d data +:+ " ")
  end.

Definition rule : string := nl +:+ " ------------ " +:+ nl.

Definition main : C unit unit :=
  let root := Node 1 (Node 2 (createNode 4) (createNode 5)) (Node 3 (createNode 6) (createNode 7)) in
  printf ("Inorder Traversal : " +:+ nl) ;; inorder root ;; printf rule ;;
  printf ("Preorder Traversal : " +:+ nl) ;; preorder root ;; printf rule ;;
  printf ("Postorder Traversal : " +:+ nl) ;; postorder root ;; printf rule.

End Traversal.

(** ** [binary-tree-depth-from-array.c] *)
Module DepthFromArray.

(** The index grows with every call, so a round for each place of the array and
    one for the end are enough. *)
Fixpoint insertLevelOrder (fuel : nat) (array : list Z) (index n : Z) : res tree :=
  if (n <=? index)%Z then Ok NULL
  else
    match fuel with
    | O => UB OutOfFuel
    | S fuel =>
        v ← aget array index;
        l ← insertLevelOrder fuel array (2 * index + 1)%Z n;
        r ← insertLevelOrder fuel array (2 * index + 2)%Z n;
        Ok (Node v l r)
    end.

Fixpoint findDepth (root : tree) : Z :=
  match root with
  | NULL => 0
  | Node _ l r =>
      let leftDepth := findDepth l in
      let rightDepth := findDepth r in
      ((if leftDepth >? rightDepth then leftDepth else rightDepth) + 1)%Z
  end.

Definition main : C unit unit :=
  let array := [1; 2; 3; 4; 5; 6; 7]%Z in
  root ← lift (insertLevelOrder 7 array 0 7);
  printf ("Depth of the tree is : " +:+ d (findDepth root) +:+ " " +:+ nl).

End DepthFromArray.

(** ** [binary-tree-with-dynamic-insertion.c] *)
Module DynamicInsertion.

Record Node : Set := mkNode { data : Z; left : ptr; right : ptr }.

Abbreviation heap := (gmap positive Node).

(** The queue of [insertNode]; the cells of [items] are not initialised. *)
Record Queue : Set := mkQueue { items : list (option ptr); front : Z; rear : Z; size : Z }.

Definition createNode (value : Z) (h : heap) : positive * heap := malloc h (mkNode value None None).

Definition createQueue (capacity : nat) : Queue := mkQueue (replicate capacity None) 0 (-1) 0.

Definition isEmpty (queue : Queue) : bool := (size queue =? 0)%Z.

Definition enqueue (queue : Queue) (node : ptr) : res Queue :=
  its ← aset (items queue) (rear queue + 1) (Some node);
  Ok (mkQueue its (front queue) (rear queue + 1) (size queue + 1)).

Definition dequeue (queue : Queue) : res (ptr * Queue) :=
  node ← uget (items queue) (front queue);
  Ok (node, mkQueue (items queue) (front queue + 1) (rear queue) (size queue - 1)).

(** [while(!isEmpty(queue))]: looks for the first node without a child. *)
Fixpoint insert_loop (fuel : nat) (queue : Queue) (newNode : ptr) (h : heap) : res heap :=
  if isEmpty queue then Ok h
  else
    match fuel with
    | O => UB OutOfFuel
    | S fuel =>
        '(temp, queue) ← dequeue queue;
        n ← load h temp;
        match left n with
        | None => store h temp (mkNode (data n) newNode (right n))
        | Some _ =>
            queue ← enqueue queue (left n);
            match right n with
            | None => store h temp (mkNode (data n) (left n) newNode)
            | Some _ =>
                queue ← enqueue queue (right n);
                insert_loop fuel queue newNode h
            end
        end
    end.

(** A round takes a node out of the queue, which never holds more than 100. *)
Definition insertNode (root : ptr) (value : Z) (h : heap) : res (ptr * heap) :=
  let '(newNode, h) := createNode value h in
  match root with
  | None => Ok (Some newNode, h)
  | Some _ =>
      queue ← enqueue (createQueue 100) root;
      h ← insert_loop 101 queue (Some newNode) h;
      Ok (root, h)
  end.

(** The three traversals print while they walk through the memory. *)
Fixpoint inorder (fuel : nat) (root : ptr) : C heap unit :=
  match root with
  | None => mret tt
  | Some _ =>
      match fuel with
      | O => lift (UB OutOfFuel)
      | S fuel =>
          h ← get; n ← lift (load h root);
          inorder fuel (left n) ;; printf (d (data n) +:+ " ") ;; inorder fuel (right n)
      end
  end.

Fixpoint preorder (fuel : nat) (root : ptr) : C heap unit :=
  match root with
  | None => mret tt
  | Some _ =>
      match fuel with
      | O => lift (UB OutOfFuel)
      | S fuel =>
          h ← get; n ← lift (load h root);
          printf (d (data n) +:+ " ") ;; preorder fuel (left n) ;; preorder fuel (right n)
      end
  end.

Fixpoint postorder (fuel : nat) (root : ptr) : C heap unit :=
  match root with
  | None => mret tt
  | Some _ =>
      match fuel with
      | O => lift (UB OutOfFuel)
      | S fuel =>
          h ← get; n ← lift (load h root);
          postorder fuel (left n) ;; postorder fuel (right n) ;; printf (d (data n) +:+ " ")
      end
  end.

Definition menu : string :=
  nl +:+ "------ Binary Tree Handling ----- " +:+ nl +:+ "1. Insert a node " +:+ nl +:+
  "2. Inorder Traversal " +:+ nl +:+ "3. Preorder Traversal " +:+ nl +:+
  "4. Postorder Traversal " +:+ nl +:+ "5. Exit " +:+ nl +:+ "Enter your choice : ".

(** One of the printing choices. *)
Definition show (title : string) (walk : nat → ptr → C heap unit) (root : ptr) : C heap unit :=
  h ← get; printf title ;; walk (base.size h) root ;; printf nl.

(** [while(1)] over the numbers typed in; it leaves by [exit(0)] or stands still
    when there is no more input. *)
Fixpoint main_loop (input : list Z) (root : ptr) : C heap unit :=
  match input with
  | [] => printf menu
  | choice :: input =>
      printf menu ;;
      if (choice =? 1)%Z then
        printf "Enter the value to insert : " ;;
        match input with
        | [] => mret tt
        | value :: input =>
            printf nl ;;
            h ← get; '(root, h) ← lift (insertNode root value h); put h ;;
            printf ("Inserted " +:+ d value +:+ " successfully") ;; main_loop input root
        end
      else if (choice =? 2)%Z then show ("InOrder Traversal : " +:+ nl) inorder root ;; main_loop input root
      else if (choice =? 3)%Z then show ("PreOrder Traversal : " +:+ nl) preorder root ;; main_loop input root
      else if (choice =? 4)%Z then show ("PostOrder Traversal : " +:+ nl) postorder root ;; main_loop input root
      else if (choice =? 5)%Z then mret tt
      else printf ("Invalid choice. Please try again " +:+ nl) ;; main_loop input root
  end.

Definition main (input : list Z) : C heap unit := main_loop input None.

End DynamicInsertion.

(** ** Level order *)
Module LevelSpec.
Import DepthFromArray DynamicInsertion.

(** The tree of the values [vs], element [i] at the root. *)
Fixpoint level_tree (fuel : nat) (vs : list Z) (i : nat) : tree :=
  match fuel, vs !! i with
  | S fuel, Some v => Bst.Node v (level_tree fuel vs (2 * i + 1)) (level_tree fuel vs (2 * i + 2))
  | _, _ => NULL
  end.

(** The node [k] in level order of the nodes below [i]: [path] goes down from
    the root, [true] to the right. *)
Fixpoint place (i : nat) (path : list bool) : nat :=
  match path with
  | [] => i
  | b :: path => place (if b : bool then 2 * i + 2 else 2 * i + 1) path
  end.

Fixpoint node_at (t : tree) (path : list bool) : option Z :=
  match t, path with
  | NULL, _ => None
  | Bst.Node v _ _, [] => Some v
  | Bst.Node _ l r, b :: path => node_at (if b : bool then r else l) path
  end.

Lemma place_ge i path : i ≤ place i path.
Proof. revert i. induction path as [|b path IH]; intros i; simpl; [lia|]. destruct b; etrans; [|apply IH| |apply IH]; lia. Qed.

Lemma level_tree_node fuel vs i path :
  length vs ≤ i + fuel → node_at (level_tree fuel vs i) path = vs !! place i path.
Proof.
  revert i path. induction fuel as [|fuel IH]; intros i path Hlen; cbn [level_tree].
  - rewrite lookup_ge_None_2; [by destruct path|]. pose proof (place_ge i path). lia.
  - destruct (vs !! i) as [v|] eqn:Hi.
    + apply lookup_lt_Some in Hi as Hlt. destruct path as [|[] path]; cbn [node_at place]; [done|apply IH; lia..].
    + apply lookup_ge_None in Hi. rewrite lookup_ge_None_2; [by destruct path|]. pose proof (place_ge i path). lia.
Qed.

Lemma insertLevelOrder_ok vs fuel i :
  length vs ≤ i + fuel →
  insertLevelOrder fuel vs (Z.of_nat i) (Z.of_nat (length vs)) = Ok (level_tree fuel vs i).
Proof.
  revert i. induction fuel as [|fuel IH]; intros i Hlen; cbn [insertLevelOrder level_tree].
  - destruct (Z.leb_spec (Z.of_nat (length vs)) (Z.of_nat i)); [done|lia].
  - destruct (vs !! i) as [v|] eqn:Hi.
    + apply lookup_lt_Some in Hi as Hlt. destruct (Z.leb_spec (Z.of_nat (length vs)) (Z.of_nat i)); [lia|].
      rewrite (aget_lookup _ _ _ Hi). csimpl.
      replace (2 * Z.of_nat i + 1)%Z with (Z.of_nat (2 * i + 1)) by lia.
      replace (2 * Z.of_nat i + 2)%Z with (Z.of_nat (2 * i + 2)) by lia.
      rewrite !IH by lia. done.
    + apply lookup_ge_None in Hi. destruct (Z.leb_spec (Z.of_nat (length vs)) (Z.of_nat i)); [done|lia].
Qed.

(** *** Depth *)

(** The depth of the tree below [i] when there are [n] values: the number of
    doublings of [i + 1] that do not exceed [n]. *)
Definition depth_below (n i : nat) : Z :=
  if decide (i < n) then (1 + Z.log2 (Z.of_nat n / Z.of_nat (i + 1)))%Z else 0%Z.

Lemma depth_below_mono n i j : i ≤ j → (depth_below n j ≤ depth_below n i)%Z.
Proof.
  intros Hij. unfold depth_below. repeat case_decide; try lia.
  - assert (Z.of_nat n / Z.of_nat (j + 1) ≤ Z.of_nat n / Z.of_nat (i + 1))%Z by (apply Z.div_le_compat_l; lia).
    pose proof (Z.log2_le_mono _ _ H1). lia.
  - pose proof (Z.log2_nonneg (Z.of_nat n / Z.of_nat (i + 1))). lia.
Qed.

Lemma depth_below_left n i : i < n → depth_below n i = (depth_below n (2 * i + 1) + 1)%Z.
Proof.
  intros Hi. unfold depth_below. rewrite decide_True by done.
  assert (Z.of_nat n / Z.of_nat (2 * i + 1 + 1) = Z.shiftr (Z.of_nat n / Z.of_nat (i + 1)) 1)%Z as E.
  { rewrite Z.shiftr_div_pow2, Z.div_div by lia. f_equal. change (2 ^ 1)%Z with 2%Z. lia. }
  assert (1 ≤ Z.of_nat n / Z.of_nat (i + 1))%Z as H1 by (apply Z.div_le_lower_bound; lia).
  case_decide as Hc.
  - rewrite E, Z.log2_shiftr by lia. assert (2 ≤ Z.of_nat n / Z.of_nat (i + 1))%Z as H2 by (apply Z.div_le_lower_bound; lia).
    pose proof (Z.log2_le_mono _ _ H2). change (Z.log2 2) with 1%Z in *. lia.
  - assert (Z.of_nat n / Z.of_nat (i + 1) < 2)%Z by (apply Z.div_lt_upper_bound; lia).
    replace (Z.of_nat n / Z.of_nat (i + 1))%Z with 1%Z by lia. done.
Qed.

Lemma findDepth_level fuel vs i : length vs ≤ i + fuel → findDepth (level_tree fuel vs i) = depth_below (length vs) i.
Proof.
  revert i. induction fuel as [|fuel IH]; intros i Hlen; cbn [level_tree].
  - unfold depth_below. by rewrite decide_False by lia.
  - destruct (vs !! i) as [v|] eqn:Hi.
    + apply lookup_lt_Some in Hi as Hlt. cbn [findDepth]. rewrite !IH by lia. rewrite (depth_below_left (length vs) i) by done.
      pose proof (depth_below_mono (length vs) (2 * i + 1) (2 * i + 2) ltac:(lia)). cbv zeta. rewrite Z.gtb_ltb.
      destruct (Z.ltb_spec (depth_below (length vs) (2 * i + 2)) (depth_below (length vs) (2 * i + 1))); lia.
    + apply lookup_ge_None in Hi. unfold depth_below. by rewrite decide_False by lia.
Qed.

(** *** The tree in memory *)

(** The nodes of a tree in level order, with their values. *)
Record rep (h : heap) (ls : list positive) (vs : list Z) : Prop := mkrep {
  r_len : length ls = length vs;
  r_nodup : NoDup ls;
  r_node : ∀ i l v, ls !! i = Some l → vs !! i = Some v →
    h !! l = Some (mkNode v (ls !! (2 * i + 1)) (ls !! (2 * i + 2)));
  r_dom : dom h = list_to_set ls
}.

Lemma rep_node h ls vs i l : rep h ls vs → ls !! i = Some l →
  ∃ v, vs !! i = Some v ∧ h !! l = Some (mkNode v (ls !! (2 * i + 1)) (ls !! (2 * i + 2))).
Proof.
  intros Hr Hl. destruct (lookup_lt_is_Some_2 vs i) as [v Hv].
  { rewrite <- (r_len _ _ _ Hr). by apply lookup_lt_Some in Hl. }
  exists v. split; [done|]. by apply (r_node _ _ _ Hr).
Qed.

(** The cells of the queue when the first [j] nodes have been put in. *)
Definition items_at (ls : list positive) (j : nat) : list (option ptr) :=
  ((λ l, Some (Some l)) <$> take j ls) ++ replicate (100 - j) None.

(** The queue after [k] rounds. *)
Definition queue_at (ls : list positive) (k : nat) : Queue :=
  mkQueue (items_at ls (2 * k + 1)) (Z.of_nat k) (Z.of_nat (2 * k)) (Z.of_nat (k + 1)).

Lemma length_items_at ls j : j ≤ 100 → j ≤ length ls → length (items_at ls j) = 100.
Proof. intros H1 H2. unfold items_at. rewrite length_app, length_fmap, length_take, length_replicate. lia. Qed.

Lemma items_at_lookup ls j i l : i < j → j ≤ length ls → ls !! i = Some l → items_at ls j !! i = Some (Some (Some l)).
Proof.
  intros H1 H2 Hl. unfold items_at. rewrite lookup_app_l by (rewrite length_fmap, length_take; lia).
  by rewrite list_lookup_fmap, lookup_take_lt, Hl by done.
Qed.

Lemma items_at_S ls j l :
  j < 100 → ls !! j = Some l → aset (items_at ls j) (Z.of_nat j) (Some (Some l)) = Ok (items_at ls (S j)).
Proof.
  intros Hj Hl. pose proof (lookup_lt_Some _ _ _ Hl) as Hlt. rewrite aset_nat by (rewrite length_items_at; lia). f_equal.
  unfold items_at. replace (100 - j) with (S (100 - S j)) by lia. cbn [replicate].
  assert (length ((λ l, Some (Some l)) <$> take j ls) = j) as E by (rewrite length_fmap, length_take; lia).
  rewrite <- E at 1. rewrite (insert_app_r_alt _ _ (length _)) by done. rewrite Nat.sub_diag. cbn.
  rewrite (take_S_r _ _ l) by done. by rewrite fmap_app, <- app_assoc.
Qed.

#[local] Arguments Nat.mul : simpl never.
#[local] Arguments Nat.add : simpl never.

(** A round that finds both children. *)
Lemma round_step ls k h lk v a b fuel nw :
  2 * k + 2 < 100 → ls !! k = Some lk → ls !! (2 * k + 1) = Some a → ls !! (2 * k + 2) = Some b →
  h !! lk = Some (mkNode v (Some a) (Some b)) →
  insert_loop (S fuel) (queue_at ls k) nw h = insert_loop fuel (queue_at ls (S k)) nw h.
Proof.
  intros Hk Hlk Ha Hb Hn. pose proof (lookup_lt_Some _ _ _ Hb) as Hlen. cbn [insert_loop].
  unfold isEmpty, queue_at at 1. cbn [size]. destruct (Z.eqb_spec (Z.of_nat (k + 1)) 0); [lia|].
  unfold dequeue, queue_at at 1, uget. cbn [items front rear size].
  rewrite (aget_lookup _ k (Some (Some lk))) by (apply items_at_lookup; [lia|lia|done]). csimpl.
  rewrite (load_Some _ _ _ Hn). csimpl. unfold enqueue. cbn [items front rear size].
  replace (Z.of_nat (2 * k) + 1)%Z with (Z.of_nat (2 * k + 1)) by lia. rewrite (items_at_S _ _ a) by (lia || done). csimpl.
  replace (Z.of_nat (2 * k + 1) + 1)%Z with (Z.of_nat (S (2 * k + 1))) by lia.
  replace (2 * k + 2) with (S (2 * k + 1)) in Hb by lia. rewrite (items_at_S _ _ b) by (lia || done). csimpl.
  unfold queue_at. replace (2 * S k + 1) with (S (S (2 * k + 1))) by lia. f_equal. f_equal; lia.
Qed.

(** A round at the parent of the next place. *)
Lemma round_last ls k h lk v fuel nw :
  2 * k + 2 < 102 → length ls = 2 * k + 1 ∨ (length ls = 2 * k + 2 ∧ 2 * k + 1 < 100) → ls !! k = Some lk →
  h !! lk = Some (mkNode v (ls !! (2 * k + 1)) (ls !! (2 * k + 2))) →
  insert_loop (S fuel) (queue_at ls k) (Some nw) h =
    Ok (<[lk := mkNode v ((ls ++ [nw]) !! (2 * k + 1)) ((ls ++ [nw]) !! (2 * k + 2))]> h).
Proof.
  intros Hk Hlen Hlk Hn. cbn [insert_loop].
  unfold isEmpty, queue_at at 1. cbn [size]. destruct (Z.eqb_spec (Z.of_nat (k + 1)) 0); [lia|].
  unfold dequeue, queue_at at 1, uget. cbn [items front rear size].
  rewrite (aget_lookup _ k (Some (Some lk))) by (apply items_at_lookup; [lia|lia|done]). csimpl.
  rewrite (load_Some _ _ _ Hn). csimpl. destruct Hlen as [Hlen|[Hlen Hc]].
  - rewrite (lookup_ge_None_2 ls (2 * k + 1)), (lookup_ge_None_2 ls (2 * k + 2)) by lia.
    rewrite (store_Some _ _ _ _ Hn). do 3 f_equal; symmetry.
    + rewrite lookup_app_r by lia. by replace (2 * k + 1 - length ls) with 0 by lia.
    + apply lookup_ge_None_2. rewrite length_app. simpl. lia.
  - destruct (lookup_lt_is_Some_2 ls (2 * k + 1)) as [a Ha]; [lia|]. rewrite Ha. unfold enqueue. cbn [items front rear size].
    replace (Z.of_nat (2 * k) + 1)%Z with (Z.of_nat (2 * k + 1)) by lia. rewrite (items_at_S _ _ a) by done. csimpl.
    rewrite (lookup_ge_None_2 ls (2 * k + 2)) by lia. rewrite (store_Some _ _ _ _ Hn). do 3 f_equal; symmetry.
    + by rewrite lookup_app_l by lia.
    + rewrite lookup_app_r by lia. by replace (2 * k + 2 - length ls) with 0 by lia.
Qed.

(** The tree grows by a node at the end of the level order. *)
Lemma rep_grow h ls vs nw v p lp vp :
  rep h ls vs → h !! nw = None → ls !! p = Some lp → vs !! p = Some vp →
  length ls = 2 * p + 1 ∨ length ls = 2 * p + 2 →
  rep (<[lp := mkNode vp ((ls ++ [nw]) !! (2 * p + 1)) ((ls ++ [nw]) !! (2 * p + 2))]>
        (<[nw := mkNode v None None]> h)) (ls ++ [nw]) (vs ++ [v]).
Proof.
  intros Hr Hnw Hlp Hvp Hlen. pose proof (r_len _ _ _ Hr) as Hl.
  assert (nw ∉ ls) as Hfresh.
  { intros Hin. assert (nw ∈ dom h) as Hd by (rewrite (r_dom _ _ _ Hr); by apply elem_of_list_to_set).
    apply elem_of_dom in Hd as [? ?]. congruence. }
  assert (lp ≠ nw) as Hne by (intros <-; by apply Hfresh, (list_elem_of_lookup_2 _ p)).
  constructor.
  - rewrite !length_app. simpl. lia.
  - apply NoDup_app. split_and!; [apply (r_nodup _ _ _ Hr)| |apply NoDup_singleton].
    by intros x Hx ->%list_elem_of_singleton.
  - intros i l w Hi Hw. destruct (decide (i = p)) as [->|Hip].
    + pose proof (lookup_lt_Some _ _ _ Hlp). rewrite lookup_app_l in Hi by lia. rewrite lookup_app_l in Hw by lia. simplify_eq. apply lookup_insert_eq.
    + destruct (decide (i < length ls)) as [Hlt|Hge].
      * rewrite lookup_app_l in Hi by lia. rewrite lookup_app_l in Hw by lia.
        assert (l ≠ lp) by (intros ->; apply Hip; by eapply NoDup_lookup; [apply (r_nodup _ _ _ Hr)|..]).
        assert (l ≠ nw) by (intros ->; by apply Hfresh, (list_elem_of_lookup_2 _ i)).
        rewrite !lookup_insert_ne by done. rewrite (r_node _ _ _ Hr i l w Hi Hw).
        assert (∀ j, j ≠ length ls → (ls ++ [nw]) !! j = ls !! j) as Hsame.
        { intros j Hj. destruct (decide (j < length ls)); [by apply lookup_app_l|].
          rewrite !lookup_ge_None_2; [done|lia|rewrite length_app; simpl; lia]. }
        rewrite !Hsame by lia. done.
      * rewrite lookup_app_r in Hi by lia. rewrite lookup_app_r in Hw by lia. replace (i - length vs) with (i - length ls) in Hw by lia.
        destruct (i - length ls) as [|] eqn:E; [|done]. simplify_eq/=.
        rewrite lookup_insert_ne, lookup_insert_eq by done. do 2 f_equal; symmetry; apply lookup_ge_None_2; rewrite length_app; simpl; lia.
  - rewrite !dom_insert_L, (r_dom _ _ _ Hr), list_to_set_app_L. simpl.
    pose proof (list_elem_of_lookup_2 _ _ _ Hlp). set_solver.
Qed.

Lemma insert_loop_ok h ls vs nw v fuel k :
  rep h ls vs → h !! nw = None → length ls ≤ 100 → 2 * k + 1 ≤ length ls → length ls ≤ k + fuel →
  ∃ h', insert_loop fuel (queue_at ls k) (Some nw) (<[nw := mkNode v None None]> h) = Ok h' ∧ rep h' (ls ++ [nw]) (vs ++ [v]).
Proof.
  intros Hr Hnw Hcap. revert k. induction fuel as [|fuel IH]; intros k Hk Hfuel; [lia|].
  destruct (lookup_lt_is_Some_2 ls k) as [lk Hlk]; [lia|]. destruct (rep_node _ _ _ _ _ Hr Hlk) as (w & Hw & Hn).
  assert (<[nw := mkNode v None None]> h !! lk = Some (mkNode w (ls !! (2 * k + 1)) (ls !! (2 * k + 2)))) as Hn'.
  { rewrite lookup_insert_ne; [done|]. intros ->. congruence. }
  destruct (decide (length ls ≤ 2 * k + 2)) as [Hend|Hmore].
  - eexists. split; [apply (round_last ls k _ lk w); [lia|lia|done|done]|]. apply (rep_grow h ls vs nw v k lk w); try done. lia.
  - destruct (lookup_lt_is_Some_2 ls (2 * k + 1)) as [a Ha]; [lia|]. destruct (lookup_lt_is_Some_2 ls (2 * k + 2)) as [b Hb]; [lia|].
    rewrite Ha, Hb in Hn'. rewrite (round_step ls k _ lk w a b) by (lia || done). apply IH; lia.
Qed.

Lemma start_queue ls l0 : ls !! 0 = Some l0 → enqueue (createQueue 100) (Some l0) = Ok (queue_at ls 0).
Proof.
  intros Hl. unfold enqueue, createQueue, queue_at. cbn [items front rear size].
  change (replicate 100 None) with (items_at ls 0). change (-1 + 1)%Z with (Z.of_nat 0). rewrite (items_at_S _ _ l0) by (lia || done). reflexivity.
Qed.

(** [insertNode] puts the value at the end of the level order, as long as the
    tree has at most 100 nodes. *)
Lemma insertNode_ok h ls vs v :
  rep h ls vs → length vs ≤ 100 →
  ∃ h' nw, insertNode (ls !! 0) v h = Ok ((ls ++ [nw]) !! 0, h') ∧ rep h' (ls ++ [nw]) (vs ++ [v]).
Proof.
  intros Hr Hcap. pose proof (r_len _ _ _ Hr) as Hl. set (nw := fresh (dom h)). pose proof (fresh_lookup h) as Hnw. fold nw in Hnw.
  unfold insertNode, createNode, malloc. fold nw. destruct ls as [|l0 ls].
  - eexists _, nw. split; [done|]. destruct vs; [|done]. cbn [app]. constructor.
    + done.
    + apply NoDup_singleton.
    + intros [|i] l w Hi Hw; simplify_eq/=. by rewrite lookup_insert_eq.
    + rewrite dom_insert_L, (r_dom _ _ _ Hr). simpl. set_solver.
  - destruct (insert_loop_ok h (l0 :: ls) vs nw v 101 0 Hr Hnw) as (h' & Hrun & Hr'); [simpl in *; lia..|].
    exists h', nw. split; [|done]. change ((l0 :: ls) !! 0) with (Some l0). cbv iota beta.
    rewrite (start_queue (l0 :: ls) l0) by done. unfold mbind, res_bind. cbv beta iota. rewrite Hrun. reflexivity.
Qed.

(** With more nodes the queue overflows. *)
Lemma insert_loop_overflow h ls nw fuel k :
  (∀ i l, ls !! i = Some l → ∃ v, h !! l = Some (mkNode v (ls !! (2 * i + 1)) (ls !! (2 * i + 2)))) → 101 ≤ length ls → k ≤ 49 → 50 ≤ k + fuel → insert_loop fuel (queue_at ls k) nw h = UB OutOfBounds.
Proof.
  intros Hr Hlen. revert k. induction fuel as [|fuel IH]; intros k Hk Hfuel; [lia|].
  destruct (lookup_lt_is_Some_2 ls k) as [lk Hlk]; [lia|]. destruct (Hr k lk Hlk) as (w & Hn).
  destruct (lookup_lt_is_Some_2 ls (2 * k + 1)) as [a Ha]; [lia|]. destruct (lookup_lt_is_Some_2 ls (2 * k + 2)) as [b Hb]; [lia|].
  rewrite Ha, Hb in Hn. destruct (decide (k = 49)) as [->|Hne].
  - cbn [insert_loop]. unfold isEmpty, queue_at at 1. cbn [size]. destruct (Z.eqb_spec (Z.of_nat (49 + 1)) 0); [lia|].
    unfold dequeue, queue_at at 1, uget. cbn [items front rear size].
    rewrite (aget_lookup _ 49 (Some (Some lk))) by (apply items_at_lookup; [lia|lia|done]). csimpl.
    rewrite (load_Some _ _ _ Hn). csimpl. unfold enqueue. cbn [items front rear size].
    change (Z.of_nat (2 * 49) + 1)%Z with (Z.of_nat 99). change (2 * 49 + 1) with 99 in *. rewrite (items_at_S _ _ a) by (lia || done). csimpl.
    unfold aset. rewrite length_items_at by lia. reflexivity.
  - rewrite (round_step ls k _ lk w a b) by (lia || done). apply IH; lia.
Qed.

(** *** Traversals *)

Fixpoint pre (t : tree) : list Z := match t with NULL => [] | Bst.Node v l r => v :: pre l ++ pre r end.
Fixpoint post (t : tree) : list Z := match t with NULL => [] | Bst.Node v l r => post l ++ post r ++ [v] end.

(** What a traversal prints for these values. *)
Definition texts (vs : list Z) : list string := (λ v, d v +:+ " ") <$> vs.

Lemma walks_ok h ls vs fuel i :
  rep h ls vs → length ls ≤ i + fuel → let t := level_tree fuel vs i in
  inorder fuel (ls !! i) h = Ok (tt, h, texts (values t)) ∧
  preorder fuel (ls !! i) h = Ok (tt, h, texts (pre t)) ∧
  postorder fuel (ls !! i) h = Ok (tt, h, texts (post t)).
Proof.
  intros Hr. revert i. induction fuel as [|fuel IH]; intros i Hlen; cbv zeta.
  - rewrite lookup_ge_None_2 by lia. done.
  - destruct (ls !! i) as [l|] eqn:Hl.
    + destruct (rep_node _ _ _ _ _ Hr Hl) as (v & Hv & Hn). apply lookup_lt_Some in Hl as Hlt. cbn [level_tree]. rewrite Hv.
      destruct (IH (2 * i + 1)) as (L1 & L2 & L3); [lia|]. destruct (IH (2 * i + 2)) as (R1 & R2 & R3); [lia|].
      assert (∀ B (f : Node → C heap B) r, f (mkNode v (ls !! (2 * i + 1)) (ls !! (2 * i + 2))) h = r →
        (h0 ← get; n ← lift (load h0 (Some l)); f n) h = r) as Hload.
      { intros B f r Hf. unfold mbind, C_bind, get, lift. rewrite (load_Some _ _ _ Hn). cbv beta iota. rewrite Hf. by destruct r as [[[] ?]|]. }
      unfold texts in *. cbn [inorder preorder postorder values pre post]. rewrite !fmap_app, !fmap_cons. split_and!; apply Hload; cbn [data left right].
      * eapply bind_Ok; [exact L1|]. refine (bind_Ok _ _ _ _ _ [_] _ _ _ eq_refl _). exact R1.
      * refine (bind_Ok _ _ _ _ _ [_] _ _ _ eq_refl _). rewrite fmap_app. eapply bind_Ok; [exact L2|exact R2].
      * eapply bind_Ok; [exact L3|]. eapply bind_Ok; [exact R3|done].
    + apply lookup_ge_None in Hl. cbn [level_tree]. rewrite lookup_ge_None_2 by (rewrite <- (r_len _ _ _ Hr); lia). done.
Qed.

Lemma level_rep_size h ls vs : rep h ls vs → base.size h = length vs.
Proof.
  intros Hr. rewrite <- size_dom, (r_dom _ _ _ Hr), size_list_to_set by apply (r_nodup _ _ _ Hr). apply (r_len _ _ _ Hr).
Qed.

(** A sequence of insertions, as choice 1 makes them. *)
Fixpoint inserts (vs : list Z) (root : ptr) (h : heap) : res (ptr * heap) :=
  match vs with
  | [] => Ok (root, h)
  | v :: vs => '(root, h) ← insertNode root v h; inserts vs root h
  end.

Lemma rep_empty : rep ∅ [] [].
Proof. constructor; try done. constructor. Qed.

Lemma level_inserts_ok vs : ∀ h ls ws,
  rep h ls ws → length ws + length vs ≤ 101 →
  ∃ h' ls', inserts vs (ls !! 0) h = Ok (ls' !! 0, h') ∧ rep h' ls' (ws ++ vs).
Proof.
  induction vs as [|v vs IH]; intros h ls ws Hr Hlen; cbn [inserts length] in *; [exists h, ls; by rewrite app_nil_r|].
  destruct (insertNode_ok h ls ws v Hr) as (h1 & nw & Hi & Hr1); [lia|]. rewrite Hi. cbn.
  destruct (IH h1 (ls ++ [nw]) (ws ++ [v]) Hr1) as (h' & ls' & Hrest & Hr'); [rewrite length_app; simpl; lia|].
  exists h', ls'. split; [done|]. by rewrite <- app_assoc in Hr'.
Qed.

Lemma inserts_app vs ws root h : inserts (vs ++ ws) root h = '(root, h) ← inserts vs root h; inserts ws root h.
Proof.
  revert root h. induction vs as [|v vs IH]; intros root h; cbn [app inserts]; [done|].
  destruct (insertNode root v h) as [[root1 h1]|]; [|done]. apply IH.
Qed.

End LevelSpec.

Section LevelTheorems.
Import DepthFromArray DynamicInsertion LevelSpec.

(** Inserting up to 101 values one by one builds in memory the very tree that
    [insertLevelOrder] builds from the array of these values: the traversals of
    the one print the values of the other, its node at the end of a path is the
    array element at that place of the level order, and [findDepth] is one more
    than the binary logarithm of the number of values. *)
Theorem level_order_agree vs :
  length vs ≤ 101 →
  ∃ root h t, inserts vs None ∅ = Ok (root, h) ∧
    insertLevelOrder (length vs) vs 0 (Z.of_nat (length vs)) = Ok t ∧
    inorder (base.size h) root h = Ok (tt, h, texts (values t)) ∧
    preorder (base.size h) root h = Ok (tt, h, texts (pre t)) ∧
    postorder (base.size h) root h = Ok (tt, h, texts (post t)) ∧
    (∀ path, node_at t path = vs !! place 0 path) ∧
    findDepth t = (if decide (vs = []) then 0 else 1 + Z.log2 (Z.of_nat (length vs)))%Z.
Proof.
  intros Hlen. destruct (level_inserts_ok vs ∅ [] [] rep_empty Hlen) as (h & ls & Hi & Hr). cbn [app] in Hr.
  exists (ls !! 0), h, (level_tree (length vs) vs 0). rewrite (level_rep_size _ _ _ Hr).
  destruct (walks_ok h ls vs (length vs) 0 Hr) as (H1 & H2 & H3); [rewrite (r_len _ _ _ Hr); lia|].
  split_and!; try done.
  - apply (insertLevelOrder_ok vs (length vs) 0). lia.
  - intros path. apply level_tree_node. lia.
  - rewrite findDepth_level by lia. unfold depth_below. destruct vs as [|v vs]; [done|].
    rewrite decide_True, decide_False by (simpl; lia || done). change (Z.of_nat (0 + 1)) with 1%Z. by rewrite Z.div_1_r.
Qed.

(** The 102nd insertion writes outside the queue of 100 node pointers. *)
Theorem insertion_overflows vs : 102 ≤ length vs → inserts vs None ∅ = UB OutOfBounds.
Proof.
  intros Hlen. rewrite <- (take_drop 101 vs), inserts_app.
  destruct (level_inserts_ok (take 101 vs) ∅ [] [] rep_empty) as (h & ls & Hi & Hr); [rewrite length_take; change (length []) with 0; lia|].
  change ([] !! 0) with (@None positive) in Hi. rewrite Hi. cbn [app] in Hr.
  assert (length ls = 101) as Hl by (rewrite (r_len _ _ _ Hr), length_take; lia).
  destruct (drop 101 vs) as [|v rest] eqn:Hd; [apply (f_equal length) in Hd; rewrite length_drop in Hd; simpl in Hd; lia|].
  destruct ls as [|l0 ls]; [done|]. unfold mbind at 1, res_bind at 1. cbv iota beta. cbn [inserts].
  change ((l0 :: ls) !! 0) with (Some l0). unfold insertNode at 1, createNode, malloc. cbv iota beta.
  rewrite (start_queue (l0 :: ls) l0) by done. unfold mbind, res_bind. cbv beta iota.
  assert (∀ nw n, h !! nw = None → insert_loop 101 (queue_at (l0 :: ls) 0) (Some nw) (<[nw := n]> h) = UB OutOfBounds) as Hov.
  { intros nw n Hnw. apply insert_loop_overflow; [|lia..]. intros i l Hli. destruct (rep_node _ _ _ _ _ Hr Hli) as (w & _ & Hn).
    exists w. rewrite lookup_insert_ne; [done|]. intros ->. congruence. }
  rewrite Hov by apply fresh_lookup. reflexivity.
Qed.

Lemma level_order_agree_witness :
  ∃ root h t, inserts [1; 2; 3; 4; 5; 6; 7]%Z None ∅ = Ok (root, h) ∧
    insertLevelOrder 7 [1; 2; 3; 4; 5; 6; 7]%Z 0 7 = Ok t ∧ findDepth t = 3%Z.
Proof.
  destruct (level_order_agree [1; 2; 3; 4; 5; 6; 7]%Z) as (root & h & t & H1 & H2 & _ & _ & _ & _ & H3); [simpl; lia|].
  exists root, h, t. split; [exact H1|]. split; [exact H2|exact H3].
Defined.

End LevelTheorems.

