(* ===== verification/Expressions.v ===== *)
(** * Expression trees: [EXPRESSION_TREE]

    ast.c, evaluation_ast.c and mini_sql_expre_evaluator.c share the node type
    and the traversals (module [Ast]) and differ in the operators they evaluate
    ([EvaluationAst], [MiniSql]); deleteMe.c ([DoubleAst]) evaluates a typed tree
    in [double] arithmetic, modelled by the executable specification of IEEE 754.
    [ExprSpec] gives expressions types and values; the theorems relate the
    evaluators and the printed orders to them. *)
From stdpp Require Import base list sets strings pretty.
From Stdlib Require Import ZArith Lia.
From Stdlib Require Floats.SpecFloat.
From S2P Require Import Prelude.
Local Open Scope Z_scope.

(** ** The tree and its traversals *)
Module Ast.

Inductive Node : Set :=
  | NULL
  | mkNode (data : string) (left right : Node).

(** [strcpy] into [char data[100]]. *)
Definition createNode (val : string) : res Node :=
  if (String.length val <? 100)%nat then Ok (mkNode val NULL NULL) else UB OutOfBounds.

Fixpoint preOrder (root : Node) : C unit unit :=
  match root with
  | NULL => mret tt
  | mkNode data l r => printf (data +:+ " ") ;; preOrder l ;; preOrder r
  end.

Fixpoint postOrder (root : Node) : C unit unit :=
  match root with
  | NULL => mret tt
  | mkNode data l r => postOrder l ;; postOrder r ;; printf (data +:+ " ")
  end.

(** [root->left = l; root->right = r;]. *)
Definition with_children (root l r : Node) : Node :=
  match root with NULL => NULL | mkNode data _ _ => mkNode data l r end.

Definition branch (val : string) (l r : res Node) : res Node :=
  root ← createNode val; l ← l; r ← r; Ok (with_children root l r).

Definition main : C unit unit :=
  root ← lift (branch "AND" (branch ">" (createNode "age") (createNode "20"))
                            (branch "<" (createNode "marks") (createNode "80")));
  printf ("preOrde traversal:" +:+ nl) ;; preOrder root ;;
  printf (nl +:+ "postOrde traversal:" +:+ nl) ;; postOrder root.

(** [evaluation] of both programs, which differ in what an operator yields. *)
Fixpoint evaluation (operator : string → Z → Z → res Z) (root : Node) : res Z :=
  match root with
  | NULL => Ok 0
  | mkNode data NULL NULL => atoi data
  | mkNode data l r =>
      leftval ← evaluation operator l;
      rightval ← evaluation operator r;
      operator data leftval rightval
  end.

(** An [int] division that is not by zero. *)
Definition int_div (a b : Z) : res Z := as_int (Z.quot a b).

Definition of_bool (b : bool) : Z := if b then 1 else 0.

End Ast.

(** ** [evaluation_ast.c] *)
Module EvaluationAst.
Import Ast.

Definition operator (data : string) (leftval rightval : Z) : res Z :=
  if String.eqb data "+" then as_int (leftval + rightval)
  else if String.eqb data "-" then as_int (leftval - rightval)
  else if String.eqb data "*" then as_int (leftval * rightval)
  else if String.eqb data "/" then
    if rightval =? 0 then Ok 0 else int_div leftval rightval
  else Ok 0.

Definition evaluation : Node → res Z := Ast.evaluation operator.

Definition main : C unit unit :=
  root ← lift (branch "*" (branch "+" (createNode "5") (createNode "3"))
                          (branch "-" (createNode "8") (createNode "2")));
  printf ("preOrde traversal:" +:+ nl) ;; preOrder root ;;
  printf (nl +:+ "postOrde traversal:" +:+ nl) ;; postOrder root ;;
  v ← lift (evaluation root);
  printf (nl +:+ nl +:+ "Result of expression: " +:+ d v +:+ nl).

End EvaluationAst.

(** ** [mini_sql_expre_evaluator.c] *)
Module MiniSql.
Import Ast.

Definition operator (data : string) (leftval rightval : Z) : res Z :=
  if String.eqb data "+" then as_int (leftval + rightval)
  else if String.eqb data "-" then as_int (leftval - rightval)
  else if String.eqb data "*" then Ok rightval
  else if String.eqb data "/" then
    if rightval =? 0 then Ok 0 else int_div leftval rightval
  else if String.eqb data ">" then Ok (of_bool (leftval >? rightval))
  else if String.eqb data "<" then Ok (of_bool (leftval <? rightval))
  else if String.eqb data "=" then Ok (of_bool (leftval =? rightval))
  else if String.eqb data ">=" then Ok (of_bool (leftval >=? rightval))
  else if String.eqb data "<=" then Ok (of_bool (leftval <=? rightval))
  else if String.eqb data "!=" then Ok (of_bool (negb (leftval =? rightval)))
  else if String.eqb data "AND" then Ok (of_bool (negb (leftval =? 0) && negb (rightval =? 0)))
  else if String.eqb data "OR" then Ok (of_bool (negb (leftval =? 0) || negb (rightval =? 0)))
  else Ok 0.

Definition evaluation : Node → res Z := Ast.evaluation operator.

Definition main : C unit unit :=
  root ← lift (branch "AND"
    (branch ">" (branch "+" (createNode "5") (createNode "3")) (branch "-" (createNode "8") (createNode "8")))
    (branch "=" (createNode "4") (createNode "4")));
  printf ("preOrde traversal:" +:+ nl) ;; preOrder root ;;
  printf (nl +:+ "postOrde traversal:" +:+ nl) ;; postOrder root ;;
  v ← lift (evaluation root);
  printf (nl +:+ nl +:+ "Result of expression: " +:+ d v +:+ nl).

End MiniSql.

(** ** [deleteMe.c] *)
Module DoubleAst.
Import SpecFloat.

(** [double]: 53 bits of precision, exponents below 1024. *)
Abbreviation double := spec_float.
Definition add := SFadd 53 1024.
Definition sub := SFsub 53 1024.
Definition mul := SFmul 53 1024.
Definition div := SFdiv 53 1024.

(** The [double] of a small integer. *)
Definition of_Z (z : Z) : double := binary_normalize 53 1024 z 0 false.

Inductive NodeType : Set := NUM | ADD | SUB | MUL | DIV | GT | LT | EQ | AND | OR.

Inductive Node : Set :=
  | NULL
  | mkNode (type : NodeType) (value : double) (left right : Node).

Definition make_node (type : NodeType) (value : double) (l r : Node) : Node := mkNode type value l r.

Definition truth (b : bool) : double := of_Z (if b then 1 else 0).

(** [x != 0], the truth of a [double]; a NaN is true. *)
Definition nonzero (x : double) : bool := negb (SFeqb x (S754_zero false)).

Fixpoint eval (n : Node) : double :=
  match n with
  | NULL => of_Z 0
  | mkNode type value l r =>
      match type with
      | NUM => value
      | ADD => add (eval l) (eval r)
      | SUB => sub (eval l) (eval r)
      | MUL => mul (eval l) (eval r)
      | DIV => div (eval l) (eval r)
      | GT => truth (SFltb (eval r) (eval l))
      | LT => truth (SFltb (eval l) (eval r))
      | EQ => truth (SFeqb (eval l) (eval r))
      | AND => truth (nonzero (eval l) && nonzero (eval r))
      | OR => truth (nonzero (eval l) || nonzero (eval r))
      end
  end.

Definition num (z : Z) : Node := make_node NUM (of_Z z) NULL NULL.

(** The tree that [main] evaluates, [(5 + 3) * 2 > 10 AND 1]. *)
Definition expr : Node :=
  make_node AND (of_Z 0)
    (make_node GT (of_Z 0) (make_node MUL (of_Z 0) (make_node ADD (of_Z 0) (num 5) (num 3)) (num 2)) (num 10))
    (num 1).

End DoubleAst.

(** ** Types and values of expressions *)
Module ExprSpec.
Import Ast.

Inductive ty : Set := TInt | TBool.

Definition comparisons : list string := [">"; "<"; "="; ">="; "<="; "!="].

(** The type of the operands and of the result. *)
Definition op_type (s : string) : option (ty * ty) :=
  if decide (s ∈ ["+"; "-"; "*"; "/"]) then Some (TInt, TInt)
  else if decide (s ∈ comparisons) then Some (TInt, TBool)
  else if decide (s ∈ ["AND"; "OR"]) then Some (TBool, TBool)
  else None.

(** Numbers at the leaves, operators with two operands of their type. *)
Inductive typed : Node → ty → Prop :=
  | typed_num z : typed (mkNode (d z) NULL NULL) TInt
  | typed_op s a b l r : op_type s = Some (a, b) → typed l a → typed r a → typed (mkNode s l r) b.

(** The value of an expression in mathematics. *)
Definition meaning (s : string) (x y : Z) : Z :=
  if String.eqb s "+" then x + y
  else if String.eqb s "-" then x - y
  else if String.eqb s "*" then x * y
  else if String.eqb s "/" then (if y =? 0 then 0 else Z.quot x y)
  else of_bool
    (if String.eqb s ">" then bool_decide (y < x)
     else if String.eqb s "<" then bool_decide (x < y)
     else if String.eqb s "=" then bool_decide (x = y)
     else if String.eqb s ">=" then bool_decide (y ≤ x)
     else if String.eqb s "<=" then bool_decide (x ≤ y)
     else if String.eqb s "!=" then bool_decide (x ≠ y)
     else if String.eqb s "AND" then bool_decide (x ≠ 0 ∧ y ≠ 0)
     else bool_decide (x ≠ 0 ∨ y ≠ 0)).

Inductive value : Node → Z → Prop :=
  | value_num z : in_int z = true → value (mkNode (d z) NULL NULL) z
  | value_op s l r x y : l ≠ NULL → value l x → value r y → in_int (meaning s x y) = true →
      value (mkNode s l r) (meaning s x y).

Definition arithmetic (s : string) : Prop := s ∈ ["+"; "-"; "*"; "/"].

Fixpoint ops_in (P : string → Prop) (t : Node) : Prop :=
  match t with
  | NULL => True
  | mkNode s NULL NULL => True
  | mkNode s l r => P s ∧ ops_in P l ∧ ops_in P r
  end.

(** The values of a type. *)
Definition of_type (a : ty) (v : Z) : Prop := match a with TInt => True | TBool => v = 0 ∨ v = 1 end.

Lemma meaning_type s a b x y : op_type s = Some (a, b) → of_type b (meaning s x y).
Proof.
  unfold op_type, comparisons. intros Hs. destruct b; [done|]. repeat case_decide; simplify_eq; unfold meaning;
    repeat match goal with H : s ∈ _ :: _ |- _ => apply elem_of_cons in H as [->|H] | H : s ∈ [] |- _ => by apply elem_of_nil in H end;
    simpl; match goal with |- context [of_bool ?b] => destruct b end; simpl; auto.
Qed.

Lemma eval_branch op s l r : l ≠ NULL →
  Ast.evaluation op (mkNode s l r) =
    (x ← Ast.evaluation op l; y ← Ast.evaluation op r; op s x y).
Proof. intros Hl. by destruct l. Qed.

Lemma ops_in_branch P s l r : l ≠ NULL → ops_in P (mkNode s l r) → P s ∧ ops_in P l ∧ ops_in P r.
Proof. intros Hl. by destruct l. Qed.

Section Evaluator.
Context (op : string → Z → Z → res Z) (P : string → Prop).
Hypothesis Hop : ∀ s x y, P s → op s x y = as_int (meaning s x y).

(** An evaluator that has the right operators computes the value. *)
Lemma evaluation_value t v : value t v → ops_in P t → Ast.evaluation op t = Ok v.
Proof.
  intros Hv. induction Hv as [z Hz|s l r x y Hl Hx IHx Hy IHy Hin]; intros Ht.
  - simpl. rewrite atoi_d. by apply as_int_ok.
  - apply ops_in_branch in Ht as (Hs & Hl' & Hr'); [|done]. rewrite eval_branch by done.
    rewrite (IHx Hl'). csimpl. rewrite (IHy Hr'). csimpl. rewrite Hop by done. by apply as_int_ok.
Qed.

Lemma evaluation_typed t a :
  typed t a → ops_in P t → (∃ v, Ast.evaluation op t = Ok v ∧ value t v ∧ of_type a v) ∨ Ast.evaluation op t = UB Overflow.
Proof.
  intros Ht. induction Ht as [z|s a b l r Hs Hl IHl Hr IHr]; intros Hops.
  - simpl. rewrite atoi_d. unfold as_int. destruct (in_int z) eqn:Hz; [|by right]. left. exists z. by split_and!; [|constructor|].
  - assert (l ≠ NULL) as Hnl by (by destruct Hl). apply ops_in_branch in Hops as (HP & Hol & Hor); [|done].
    rewrite eval_branch by done. destruct (IHl Hol) as [(x & -> & Hx & _)| ->]; [|by right]. csimpl.
    destruct (IHr Hor) as [(y & -> & Hy & _)| ->]; [|by right]. csimpl. rewrite Hop by done. unfold as_int.
    destruct (in_int (meaning s x y)) eqn:Hin; [|by right]. left. eexists. split_and!; [done|by constructor|].
    by eapply meaning_type.
Qed.

(** The two outcomes exclude each other. *)
Lemma evaluation_sound t a :
  typed t a → ops_in P t →
  (∃ v, Ast.evaluation op t = Ok v ∧ value t v ∧ of_type a v) ∨
  (Ast.evaluation op t = UB Overflow ∧ ∀ v, ¬ value t v).
Proof.
  intros Ht Hops. destruct (evaluation_typed t a Ht Hops) as [?|Ho]; [by left|]. right. split; [done|].
  intros v Hv. rewrite (evaluation_value t v Hv Hops) in Ho. done.
Qed.

End Evaluator.

Lemma in_int_spec z : in_int z = true ↔ -2147483648 ≤ z ≤ 2147483647.
Proof. unfold in_int. rewrite andb_true_iff, !Z.leb_le. done. Qed.

Lemma bool_decide_leb x y : bool_decide (x ≤ y) = (x <=? y).
Proof. apply Bool.eq_iff_eq_true. by rewrite bool_decide_eq_true, Z.leb_le. Qed.

Lemma bool_decide_ltb x y : bool_decide (x < y) = (x <? y).
Proof. apply Bool.eq_iff_eq_true. by rewrite bool_decide_eq_true, Z.ltb_lt. Qed.

Lemma bool_decide_eqb (x y : Z) : bool_decide (x = y) = (x =? y).
Proof. apply Bool.eq_iff_eq_true. by rewrite bool_decide_eq_true, Z.eqb_eq. Qed.

(** Walks down a chain of comparisons with operator names. *)
Ltac op_cases :=
  repeat match goal with |- context [String.eqb ?s ?c] => destruct (String.eqb_spec s c) as [->|?] end.

Lemma as_int_bool b : Ok (of_bool b) = as_int (of_bool b).
Proof. by destruct b. Qed.

Lemma ast_operator_ok s x y : arithmetic s → EvaluationAst.operator s x y = as_int (meaning s x y).
Proof.
  unfold arithmetic, EvaluationAst.operator, meaning, int_div. intros Hs.
  repeat (apply elem_of_cons in Hs as [->|Hs]); [..|by apply elem_of_nil in Hs]; simpl; try done.
  by destruct (Z.eqb_spec y 0).
Qed.

Lemma sql_operator_ok s x y : s ≠ "*" ∧ op_type s ≠ None → MiniSql.operator s x y = as_int (meaning s x y).
Proof.
  intros [Hne Hop]. unfold MiniSql.operator, meaning, int_div.
  op_cases; try done; try (by destruct (Z.eqb_spec y 0)); rewrite ?as_int_bool; do 2 f_equal.
  all: rewrite ?bool_decide_ltb, ?bool_decide_leb, ?bool_decide_eqb, ?Z.gtb_ltb, ?Z.geb_leb; try done.
  - by rewrite bool_decide_not, bool_decide_eqb.
  - by rewrite bool_decide_and, !bool_decide_not, !bool_decide_eqb.
  - by rewrite bool_decide_or, !bool_decide_not, !bool_decide_eqb.
  - exfalso. apply Hop. unfold op_type, comparisons. rewrite !decide_False; [done|set_solver..].
Qed.

Lemma typed_ops t a : typed t a → ops_in (λ s, op_type s ≠ None) t.
Proof.
  induction 1 as [z|s a b l r Hs Hl IHl Hr IHr]; [done|]. destruct l; [inversion Hl|]. simpl. split; [congruence|done].
Qed.

Lemma ops_in_and P Q t : ops_in P t → ops_in Q t → ops_in (λ s, P s ∧ Q s) t.
Proof.
  induction t as [|s l IHl r IHr]; [done|]. destruct l as [|sl ll lr].
  - destruct r as [|sr rl rr]; [done|]. intros (? & _ & Hr1) (? & _ & Hr2). split; [done|]. split; [done|by apply IHr].
  - intros (? & Hl1 & Hr1) (? & Hl2 & Hr2). split; [done|]. split; [by apply IHl|by apply IHr].
Qed.

(** *** The printed orders *)

Fixpoint pre (t : Node) : list string :=
  match t with NULL => [] | mkNode s l r => s :: pre l ++ pre r end.
Fixpoint post (t : Node) : list string :=
  match t with NULL => [] | mkNode s l r => post l ++ post r ++ [s] end.

Definition printed (ts : list string) : list string := (λ s, s +:+ " ") <$> ts.

Lemma orders_ok t : preOrder t tt = Ok (tt, tt, printed (pre t)) ∧ postOrder t tt = Ok (tt, tt, printed (post t)).
Proof.
  unfold printed. induction t as [|s l [L1 L2] r [R1 R2]]; [done|]. cbn [pre post preOrder postOrder].
  rewrite fmap_cons, !fmap_app. split.
  - refine (bind_Ok _ _ _ _ _ [_] _ _ _ eq_refl _). eapply bind_Ok; [exact L1|exact R1].
  - eapply bind_Ok; [exact L2|]. eapply bind_Ok; [exact R2|done].
Qed.

Definition is_op (s : string) : bool := bool_decide (op_type s ≠ None).

(** Reads an expression from its tokens in prefix order. *)
Fixpoint read_prefix (fuel : nat) (ts : list string) : option (Node * list string) :=
  match fuel, ts with
  | S fuel, s :: ts =>
      if is_op s then
        '(l, ts) ← read_prefix fuel ts;
        '(r, ts) ← read_prefix fuel ts;
        Some (mkNode s l r, ts)
      else Some (mkNode s NULL NULL, ts)
  | _, _ => None
  end.

(** A pocket calculator for postfix notation; the top of the stack first. *)
Fixpoint calculate (op : string → Z → Z → res Z) (ts : list string) (stack : list Z) : res (list Z) :=
  match ts with
  | [] => Ok stack
  | s :: ts =>
      if is_op s then
        match stack with
        | y :: x :: stack => v ← op s x y; calculate op ts (v :: stack)
        | _ => UB OutOfBounds
        end
      else v ← atoi s; calculate op ts (v :: stack)
  end.

Lemma is_op_number z : is_op (d z) = false.
Proof.
  destruct (d_head z) as (c & s & -> & Hc). unfold is_op. apply bool_decide_eq_false. intros Hn. apply Hn. clear Hn.
  unfold op_type, comparisons. rewrite !decide_False; [done|..]; intros Hin;
    repeat (apply elem_of_cons in Hin as [Hin|Hin]; [injection Hin as -> ->; naive_solver|]); by apply elem_of_nil in Hin.
Qed.

Lemma typed_full s a b : op_type s = Some (a, b) → is_op s = true.
Proof. intros Hs. apply bool_decide_eq_true. congruence. Qed.

Lemma read_prefix_ok t a fuel rest :
  typed t a → (length (pre t) ≤ fuel)%nat → read_prefix fuel (pre t ++ rest) = Some (t, rest).
Proof.
  intros Ht. revert fuel rest. induction Ht as [z|s a b l r Hs Hl IHl Hr IHr]; intros fuel rest Hf.
  - destruct fuel as [|fuel]; [simpl in Hf; lia|]. simpl. by rewrite is_op_number.
  - destruct fuel as [|fuel]; [simpl in Hf; lia|]. cbn [pre length] in Hf. rewrite length_app in Hf.
    cbn [pre app read_prefix]. rewrite (typed_full s a b Hs), <- app_assoc, IHl by lia. csimpl. rewrite IHr by lia. done.
Qed.

Lemma calculate_app op ts ts' st : calculate op (ts ++ ts') st = (st ← calculate op ts st; calculate op ts' st).
Proof.
  revert st. induction ts as [|s ts IH]; intros st; [done|]. cbn [app calculate]. destruct (is_op s).
  - destruct st as [|y [|x st]]; try done. destruct (op s x y); [apply IH|done].
  - destruct (atoi s); [apply IH|done].
Qed.

Lemma calculate_post op t a st :
  typed t a → calculate op (post t) st = (v ← Ast.evaluation op t; Ok (v :: st)).
Proof.
  intros Ht. revert st. induction Ht as [z|s a b l r Hs Hl IHl Hr IHr]; intros st.
  - cbn [post app calculate]. rewrite is_op_number. cbn [Ast.evaluation]. by destruct (atoi (d z)).
  - assert (l ≠ NULL) as Hnl by (by destruct Hl). cbn [post]. rewrite !calculate_app, IHl, eval_branch by done.
    destruct (Ast.evaluation op l) as [x|]; [|done]. csimpl. rewrite calculate_app, IHr.
    destruct (Ast.evaluation op r) as [y|]; [|done]. csimpl. rewrite (typed_full s a b Hs).
    by destruct (op s x y).
Qed.

End ExprSpec.

Section ExprTheorems.
Import Ast ExprSpec.

(** C39: the SQL evaluator is type sound up to overflow.  On an expression tree
    whose leaves are printed numbers and whose operators, any but [*], get
    operands of their type, [evaluation] returns the mathematical value (a
    quotient by zero counts as 0, as in the code), which is 0 or 1 for a
    comparison or logical operator, when all numbers and intermediate values are
    [int]s; otherwise signed overflow, undefined behaviour in C, is where it
    ends.  No other undefined behaviour occurs. *)
Theorem sql_type_sound t a :
  typed t a → ops_in (λ s, s ≠ "*") t →
  (∃ v, MiniSql.evaluation t = Ok v ∧ value t v ∧ of_type a v) ∨
  (MiniSql.evaluation t = UB Overflow ∧ ∀ v, ¬ value t v).
Proof.
  intros Ht Hs. apply (evaluation_sound _ _ sql_operator_ok t a Ht).
  apply ops_in_and; [done|by eapply typed_ops].
Qed.

(** The arithmetic evaluator computes the value of every expression of
    numbers and the four operators, and the orders that the programs print are
    faithful: the tree can be read back from [preOrder]'s output, and what
    [postOrder] prints, worked off with a stack, gives the result of
    [evaluation]. *)
Theorem ast_orders t a :
  typed t a → ops_in arithmetic t →
  ((∃ v, EvaluationAst.evaluation t = Ok v ∧ value t v) ∨ (EvaluationAst.evaluation t = UB Overflow ∧ ∀ v, ¬ value t v)) ∧
  preOrder t tt = Ok (tt, tt, printed (pre t)) ∧
  read_prefix (length (pre t)) (pre t) = Some (t, []) ∧
  postOrder t tt = Ok (tt, tt, printed (post t)) ∧
  calculate EvaluationAst.operator (post t) [] = (v ← EvaluationAst.evaluation t; Ok [v]).
Proof.
  intros Ht Hs. destruct (orders_ok t) as [H1 H2]. split_and!; [|done| |done|by eapply calculate_post].
  - destruct (evaluation_sound _ _ ast_operator_ok t a Ht Hs) as [(v & Hv & Hval & _)|?]; [left; by exists v|by right].
  - pose proof (read_prefix_ok t a (length (pre t)) [] Ht) as Hr. rewrite app_nil_r in Hr. by apply Hr.
Qed.

(** [(5 + 3) > 7]. *)
Definition example_tree : Node :=
  mkNode ">" (mkNode "+" (mkNode (d 5) NULL NULL) (mkNode (d 3) NULL NULL)) (mkNode (d 7) NULL NULL).

Lemma example_typed : typed example_tree TBool.
Proof. by apply (typed_op ">" TInt TBool); [|apply (typed_op "+" TInt TInt); [|constructor..]|constructor]. Qed.

Lemma sql_type_sound_witness : ∃ v, MiniSql.evaluation example_tree = Ok v ∧ (v = 0 ∨ v = 1).
Proof.
  destruct (sql_type_sound example_tree TBool) as [(v & Hv & _ & Ht)|[Ho _]].
  - apply example_typed.
  - vm_compute. repeat split; discriminate.
  - exists v. split; [exact Hv|exact Ht].
  - exfalso. vm_compute in Ho. discriminate.
Defined.

Lemma ast_orders_witness :
  read_prefix 3 (pre (mkNode "+" (mkNode (d 5) NULL NULL) (mkNode (d 3) NULL NULL))) =
    Some (mkNode "+" (mkNode (d 5) NULL NULL) (mkNode (d 3) NULL NULL), []).
Proof.
  apply (ast_orders (mkNode "+" (mkNode (d 5) NULL NULL) (mkNode (d 3) NULL NULL)) TInt).
  - by apply (typed_op "+" TInt TInt); [|constructor..].
  - split; [left|done].
Defined.

(** The SQL evaluator's [*] returns its right operand. *)
Lemma sql_product_wrong : MiniSql.evaluation (mkNode "*" (mkNode "2" NULL NULL) (mkNode "3" NULL NULL)) = Ok 3.
Proof. reflexivity. Qed.

(** The example of deleteMe.c is true. *)
Lemma double_example : DoubleAst.eval DoubleAst.expr = DoubleAst.of_Z 1.
Proof. reflexivity. Qed.

End ExprTheorems.
