(* ===== verification/QueryEngine.v ===== *)
(** * Query execution engines: [QUERY_EXECUTION_ENGINE]

    iterator_based_execution.c, modular_operator_chaining.c and
    TASK/mini_query_engine.c pull rows one by one through scan, filter, limit and
    projection operators ([Volcano] holds what they share, the other modules what
    differs); query_execution_engine.c ([Direct]) runs over the table in a loop.
    [QuerySpec] states what an operator promises its consumer, the class
    [Iterator], and every operator is an instance. *)
From stdpp Require Import base list strings pretty.
From Stdlib Require Import ZArith Lia.
From S2P Require Import Prelude.
Local Open Scope Z_scope.

Record Student : Set := mkStudent { name : string; age : Z; city : string }.

(** ** The operators *)
Module Volcano.

(** The file-scope variables; [table] is never written. *)
Record state : Set := mkState {
  table : list Student;
  current_index : Z;
  current_row : option Student;
  limit_count : Z;
  limit_value : Z
}.

Definition set_index (i : Z) : C state unit :=
  s ← get; put (mkState (table s) i (current_row s) (limit_count s) (limit_value s)).

Definition set_row (r : option Student) : C state unit :=
  s ← get; put (mkState (table s) (current_index s) r (limit_count s) (limit_value s)).

Definition set_limit_count (n : Z) : C state unit :=
  s ← get; put (mkState (table s) (current_index s) (current_row s) n (limit_value s)).

Definition table_scan_open : C state unit := set_index 0 ;; printf ("TableScan: Opened table." +:+ nl).

(** A pointer to a row is the row, as rows do not change. *)
Definition table_scan_next : C state (option Student) :=
  s ← get;
  if current_index s >=? Z.of_nat (length (table s)) then mret None
  else
    r ← lift (aget (table s) (current_index s));
    set_index (current_index s + 1) ;; mret (Some r).

Definition table_scan_close : C state unit := printf ("TableScan: Closed table." +:+ nl).

(** The message differs from file to file. *)
Definition filter_open (opened : string) : C state unit := printf (opened +:+ nl) ;; table_scan_open.

Fixpoint filter_loop (fuel : nat) : C state (option Student) :=
  match fuel with
  | O => lift (UB OutOfFuel)
  | S fuel =>
      row ← table_scan_next;
      set_row row ;;
      match row with
      | None => mret None
      | Some r => if age r >? 18 then mret (Some r) else filter_loop fuel
      end
  end.

(** A round for every row that is left, and one for the end. *)
Definition filter_next : C state (option Student) :=
  s ← get; filter_loop (S (length (table s) - Z.to_nat (current_index s))).

Definition filter_close : C state unit := table_scan_close ;; printf ("Filter: Closed filter." +:+ nl).

(** [while ((row = next()) != NULL)] of [projection_next]. *)
Fixpoint projection_loop (fuel : nat) (next : C state (option Student)) (line : Student → string) : C state unit :=
  match fuel with
  | O => lift (UB OutOfFuel)
  | S fuel =>
      row ← next;
      match row with
      | None => mret tt
      | Some r => printf (line r) ;; projection_loop fuel next line
      end
  end.

Definition projection_next (next : C state (option Student)) (line : Student → string) : C state unit :=
  s ← get; projection_loop (S (length (table s))) next line.

End Volcano.

(** ** [iterator_based_execution.c] *)
Module IteratorBased.
Import Volcano.

Definition rows : list Student :=
  [mkStudent "Alice" 17 "Pune"; mkStudent "Bob" 20 "Delhi"; mkStudent "Charlie" 22 "Mumbai"; mkStudent "Daisy" 16 "Chennai"].

Definition line (r : Student) : string := "Result Name: " +:+ name r +:+ ", Age: " +:+ d (age r) +:+ nl.

Definition projection_open : C state unit :=
  printf ("Projection: Opened projection (name, age)." +:+ nl) ;; filter_open "Filter: Opened filter (age > 18).".

Definition projection_close : C state unit := filter_close ;; printf ("Projection: Closed projection." +:+ nl).

Definition main : C state unit :=
  projection_open ;; projection_next filter_next line ;; projection_close.

End IteratorBased.

(** ** [modular_operator_chaining.c] *)
Module OperatorChaining.
Import Volcano.

Definition limit_open : C state unit :=
  s ← get;
  printf ("Limit: Opened (LIMIT " +:+ d (limit_value s) +:+ ")." +:+ nl) ;;
  filter_open "Filter: Opened filter (age > 18)." ;;
  set_limit_count 0.

Definition limit_next : C state (option Student) :=
  s ← get;
  if limit_count s >=? limit_value s then mret None
  else
    row ← filter_next;
    match row with
    | Some _ => s ← get; set_limit_count (limit_count s + 1) ;; mret row
    | None => mret row
    end.

Definition limit_close : C state unit := filter_close ;; printf ("Limit: Closed." +:+ nl).

Definition line (r : Student) : string := "Result → Name: " +:+ name r +:+ ", Age: " +:+ d (age r) +:+ nl.

Definition projection_open : C state unit :=
  printf ("Projection: Opened projection (name, age)." +:+ nl) ;; limit_open.

Definition projection_close : C state unit := limit_close ;; printf ("Projection: Closed projection." +:+ nl).

Definition main : C state unit :=
  projection_open ;; projection_next limit_next line ;; projection_close.

End OperatorChaining.

(** ** [TASK/mini_query_engine.c] *)
Module MiniEngine.
Import Volcano.

Definition rows : list Student :=
  [mkStudent "Rahul" 23 "Pune"; mkStudent "Gaurav" 20 "Delhi"; mkStudent "Kanha" 21 "Mumbai"; mkStudent "Gulshan" 22 "Chennai"].

Definition line (r : Student) : string := "Name: " +:+ name r +:+ ", Age: " +:+ d (age r) +:+ nl.

Definition projection_open : C state unit :=
  printf ("Projection: Opened projection." +:+ nl) ;; filter_open "Filter: Opened filter.".

Definition projection_close : C state unit := filter_close ;; printf ("Projection: Closed projection." +:+ nl).

Definition main : C state unit :=
  projection_open ;; printf ("Result:" +:+ nl) ;; projection_next filter_next line ;; projection_close.

End MiniEngine.

(** ** [query_execution_engine.c] *)
Module Direct.

Definition MAX_STUDENTS : Z := 5.

Definition students : list Student :=
  [mkStudent "Rahul" 19 "Delhi"; mkStudent "Raman" 27 "Mumbai"; mkStudent "Sarika" 6 "Pune";
   mkStudent "Monu" 20 "Bangalore"; mkStudent "Gaurav" 21 "Chennai"].

(** What is stored through [row], or nothing when the result is 0.  The table
    has [MAX_STUDENTS] rows. *)
Definition tableScan (students : list Student) (index : Z) : res (option Student) :=
  if index <? Z.of_nat (length students) then r ← aget students index; Ok (Some r) else Ok None.

Definition filter (input : Student) : option Student := if age input >? 18 then Some input else None.

(** [%-10s]. *)
Definition left10 (s : string) : string :=
  s +:+ String.concat EmptyString (replicate (10 - String.length s) " ").

Definition project (row : Student) : C unit unit := printf (left10 (name row) +:+ " " +:+ d (age row) +:+ nl).

(** The [for] loop from [i] on, [n] rounds. *)
Fixpoint query_loop (n : nat) (i : Z) (students : list Student) : C unit unit :=
  match n with
  | O => mret tt
  | S n =>
      scanRow ← lift (tableScan students i);
      match scanRow with
      | Some r => match filter r with Some f => project f | None => mret tt end
      | None => mret tt
      end ;;
      query_loop n (i + 1) students
  end.

Definition rule : string := "-------------------" +:+ nl.

Definition main (students : list Student) : C unit unit :=
  printf ("Query: SELECT name, age FROM students WHERE age > 18;" +:+ nl +:+ nl) ;;
  printf ("Result:" +:+ nl) ;; printf rule ;;
  query_loop (length students) 0 students ;;
  printf rule.

End Direct.

(** ** What an operator promises *)
Module QuerySpec.
Import Volcano OperatorChaining.

(** Rows of adults. *)
Definition adult (r : Student) : Prop := 18 < age r.
#[export] Instance adult_dec r : Decision (adult r) := _.

(** The index is inside the table or at its end. *)
Definition ready (s : state) : Prop := 0 ≤ current_index s ≤ Z.of_nat (length (table s)).

Definition scanned (s : state) : list Student := drop (Z.to_nat (current_index s)) (table s).

(** [next] hands out the rows of [rest] one by one and then NULL, keeps the
    table, and prints nothing. *)
Class Iterator (next : C state (option Student)) (rest : state → list Student) : Prop := iterate :
  ∀ s, ready s → ∃ s', next s = Ok (head (rest s), s', []) ∧ rest s' = tail (rest s) ∧ ready s' ∧ table s' = table s.

(** Operators below the limit leave its variables alone. *)
Definition same_limit (s s' : state) : Prop := limit_count s' = limit_count s ∧ limit_value s' = limit_value s.

Lemma table_scan_ok s : ready s →
  ∃ s', table_scan_next s = Ok (head (scanned s), s', []) ∧ scanned s' = tail (scanned s) ∧ ready s' ∧
    table s' = table s ∧ same_limit s s' ∧ current_index s ≤ current_index s' ∧
    (scanned s ≠ [] → current_index s' = current_index s + 1).
Proof.
  intros Hs. unfold table_scan_next, ready, scanned, same_limit in *. c_run.
  destruct (Z.geb_spec (current_index s) (Z.of_nat (length (table s)))) as [Hge|Hlt].
  - exists s. rewrite drop_ge by lia. split_and!; try done; lia.
  - destruct (lookup_lt_is_Some_2 (table s) (Z.to_nat (current_index s))) as [r Hr]; [lia|].
    rewrite (aget_Z _ _ r) by (lia || done). rewrite (drop_S _ r) by done. eexists. split; [reflexivity|]. simpl.
    replace (Z.to_nat (current_index s + 1)) with (S (Z.to_nat (current_index s))) by lia. split_and!; try done; lia.
Qed.

#[export] Instance scan_iterator : Iterator table_scan_next scanned.
Proof. intros s Hs. destruct (table_scan_ok s Hs) as (s' & H1 & H2 & H3 & H4 & _). by exists s'. Qed.

Definition filtered (s : state) : list Student := base.filter adult (scanned s).

Lemma filter_loop_ok fuel : ∀ s,
  ready s → (length (scanned s) < fuel)%nat →
  ∃ s', filter_loop fuel s = Ok (head (filtered s), s', []) ∧ filtered s' = tail (filtered s) ∧ ready s' ∧
    table s' = table s ∧ same_limit s s'.
Proof.
  induction fuel as [|fuel IH]; intros s Hs Hf; [lia|]. destruct (table_scan_ok s Hs) as (s1 & H1 & H2 & H3 & H4 & [H5 H5'] & _).
  set (s2 := mkState (table s1) (current_index s1) (head (scanned s)) (limit_count s1) (limit_value s1)).
  assert (scanned s2 = tail (scanned s)) as E2 by exact H2. assert (ready s2) as R2 by exact H3.
  assert (∀ x, (set_row (head (scanned s)) ;; x) s1 = (x : C state (option Student)) s2) as Hset.
  { intros x. unfold set_row. c_run. fold s2. by destruct (x s2) as [[[? ?] ?]|]. }
  cbn [filter_loop]. unfold filtered. destruct (scanned s) as [|r l] eqn:Es.
  - exists s2. split; [refine (bind_Ok _ _ _ _ _ [] _ _ [] H1 _); rewrite Hset; reflexivity|]. unfold filtered. rewrite E2. done.
  - cbn [head tail] in *. rewrite filter_cons. case_decide as Ha.
    + exists s2. split; [|unfold filtered; by rewrite E2].
      refine (bind_Ok _ _ _ _ _ [] _ _ [] H1 _). rewrite Hset, Z.gtb_ltb, (proj2 (Z.ltb_lt _ _)) by exact Ha. done.
    + destruct (IH s2 R2) as (s' & Hr & Hf' & Hrd & Ht & [Hl Hl']); [rewrite E2; simpl in Hf; lia|].
      unfold filtered in *. rewrite E2 in *. exists s'. split_and!; try done; [|by rewrite Ht|by split; [rewrite Hl|rewrite Hl']].
      refine (bind_Ok _ _ _ _ _ [] _ _ [] H1 _). rewrite Hset. unfold adult in Ha. rewrite Z.gtb_ltb, (proj2 (Z.ltb_ge _ _)) by lia. exact Hr.
Qed.

Lemma filter_next_ok s : ready s →
  ∃ s', filter_next s = Ok (head (filtered s), s', []) ∧ filtered s' = tail (filtered s) ∧ ready s' ∧
    table s' = table s ∧ same_limit s s'.
Proof.
  intros Hs. destruct (filter_loop_ok (S (length (table s) - Z.to_nat (current_index s))) s Hs) as (s' & H1 & H2).
  { unfold scanned. rewrite length_drop. lia. }
  exists s'. split; [|done]. unfold filter_next. refine (bind_Ok _ _ _ _ _ [] _ _ [] eq_refl _). exact H1.
Qed.

#[export] Instance filter_iterator : Iterator filter_next filtered.
Proof. intros s Hs. destruct (filter_next_ok s Hs) as (s' & H1 & H2 & H3 & H4 & _). by exists s'. Qed.

Definition limited (s : state) : list Student := take (Z.to_nat (limit_value s - limit_count s)) (filtered s).

#[export] Instance limit_iterator : Iterator limit_next limited.
Proof.
  intros s Hs. unfold limit_next, limited. destruct (Z.geb_spec (limit_count s) (limit_value s)) as [Hge|Hlt].
  - exists s. replace (Z.to_nat (limit_value s - limit_count s)) with 0%nat by lia. rewrite take_0. split_and!; try done.
    c_run. by rewrite (proj2 (Z.geb_le _ _)) by lia.
  - destruct (filter_next_ok s Hs) as (s1 & H1 & H2 & H3 & H4 & H5 & H6).
    assert ((limit_count s >=? limit_value s) = false) as Hc by (rewrite Z.geb_leb; apply Z.leb_gt; lia).
    replace (Z.to_nat (limit_value s - limit_count s)) with (S (Z.to_nat (limit_value s - limit_count s - 1))) by lia.
    destruct (filtered s) as [|r l] eqn:Ef; cbn [head tail take] in *.
    + exists s1. split_and!; try done; [|by rewrite H2, take_nil]. unfold limit_next.
      refine (bind_Ok _ _ _ _ _ [] _ _ [] eq_refl _). rewrite Hc. refine (bind_Ok _ _ _ _ _ [] _ _ [] H1 _). done.
    + exists (mkState (table s1) (current_index s1) (current_row s1) (limit_count s1 + 1) (limit_value s1)). split_and!; try done.
      * refine (bind_Ok _ _ _ _ _ [] _ _ [] eq_refl _). rewrite Hc. refine (bind_Ok _ _ _ _ _ [] _ _ [] H1 _). done.
      * cbn [limit_count limit_value]. rewrite H5, H6. change (take (Z.to_nat (limit_value s - (limit_count s + 1))) (filtered s1) = take (Z.to_nat (limit_value s - limit_count s - 1)) l).
        rewrite H2. f_equal. lia.
Qed.

(** A consumer that prints every row, proved against the interface. *)
Lemma projection_loop_ok next rest line `{!Iterator next rest} fuel : ∀ s,
  ready s → (length (rest s) < fuel)%nat →
  ∃ s', projection_loop fuel next line s = Ok (tt, s', line <$> rest s) ∧ table s' = table s.
Proof.
  induction fuel as [|fuel IH]; intros s Hs Hf; [lia|]. destruct (iterate s Hs) as (s1 & H1 & H2 & H3 & H4). cbn [projection_loop].
  destruct (rest s) as [|r l]; cbn [head tail] in *.
  - exists s1. split; [|done]. refine (bind_Ok _ _ _ _ _ [] _ _ [] H1 _). done.
  - destruct (IH s1 H3) as (s' & Hr & Ht); [rewrite H2; simpl in Hf; lia|]. rewrite H2 in Hr. exists s'. split; [|by rewrite Ht].
    rewrite fmap_cons. refine (bind_Ok _ _ _ _ _ [] _ _ (_ :: _) H1 _). refine (bind_Ok _ _ _ _ _ [_] _ _ _ eq_refl _). exact Hr.
Qed.

Lemma projection_ok next rest line `{!Iterator next rest} s :
  ready s → (length (rest s) ≤ length (table s))%nat →
  ∃ s', projection_next next line s = Ok (tt, s', line <$> rest s) ∧ table s' = table s.
Proof.
  intros Hs Hl. destruct (projection_loop_ok next rest line (S (length (table s))) s Hs) as (s' & Hr & Ht); [lia|].
  exists s'. split; [|done]. refine (bind_Ok _ _ _ _ _ [] _ _ _ eq_refl _). exact Hr.
Qed.

Lemma length_filtered s : (length (filtered s) ≤ length (table s))%nat.
Proof.
  unfold filtered. etrans; [apply length_filter|]. unfold scanned. rewrite length_drop. lia.
Qed.

Lemma direct_loop_ok rows n i :
  (i + n = length rows)%nat →
  Direct.query_loop n (Z.of_nat i) rows tt =
    Ok (tt, tt, (λ r, Direct.left10 (name r) +:+ " " +:+ d (age r) +:+ nl) <$> base.filter adult (drop i rows)).
Proof.
  revert i. induction n as [|n IH]; intros i Hi; [by rewrite drop_ge by lia|]. cbn [Direct.query_loop].
  destruct (lookup_lt_is_Some_2 rows i) as [r Hr]; [lia|]. rewrite (drop_S _ r) by done.
  replace (Z.of_nat i + 1) with (Z.of_nat (S i)) by lia. specialize (IH (S i) ltac:(lia)).
  refine (bind_Ok _ _ _ _ _ [] _ _ _ (lift_Ok _ _ (Some r) _) _).
  { unfold Direct.tableScan. rewrite (proj2 (Z.ltb_lt _ _)) by lia. by rewrite (aget_lookup _ _ _ Hr). }
  rewrite filter_cons. unfold Direct.filter. case_decide as Ha; unfold adult in Ha; rewrite Z.gtb_ltb.
  - rewrite (proj2 (Z.ltb_lt _ _)) by lia. rewrite fmap_cons. refine (bind_Ok _ _ _ _ _ [_] _ _ _ eq_refl _). exact IH.
  - rewrite (proj2 (Z.ltb_ge _ _)) by lia. refine (bind_Ok _ _ _ _ _ [] _ _ _ eq_refl _). exact IH.
Qed.

End QuerySpec.

Section QueryTheorems.
Import Volcano QuerySpec.

(** C27: all engines answer the same query.  For every table and whatever the
    variables held before, the lines that the two iterator engines print for rows,
    those of the direct loop, and those of the engine with LIMIT [k] up to the
    [k]-th, are exactly the rows with age above 18, in table order, each line
    between the messages of opening and closing the operators. *)
Theorem engines_agree s :
  (∃ s' o1 o2, IteratorBased.main s = Ok (tt, s', o1 ++ (IteratorBased.line <$> base.filter adult (table s)) ++ o2) ∧
     length o1 = 3%nat ∧ length o2 = 3%nat) ∧
  (∃ s' o1 o2, MiniEngine.main s = Ok (tt, s', o1 ++ (MiniEngine.line <$> base.filter adult (table s)) ++ o2) ∧
     length o1 = 4%nat ∧ length o2 = 3%nat) ∧
  (∃ s' o1 o2, OperatorChaining.main s =
     Ok (tt, s', o1 ++ (OperatorChaining.line <$> take (Z.to_nat (limit_value s)) (base.filter adult (table s))) ++ o2) ∧
     length o1 = 4%nat ∧ length o2 = 4%nat) ∧
  (∃ o1 o2, Direct.main (table s) tt =
     Ok (tt, tt, o1 ++ ((λ r, Direct.left10 (name r) +:+ " " +:+ d (age r) +:+ nl) <$> base.filter adult (table s)) ++ o2) ∧
     length o1 = 3%nat ∧ length o2 = 1%nat).
Proof.
  set (s0 := mkState (table s) 0 (current_row s) (limit_count s) (limit_value s)).
  set (s1 := mkState (table s) 0 (current_row s) 0 (limit_value s)).
  assert (ready s0 ∧ ready s1) as [R0 R1] by (unfold ready; simpl; lia).
  split_and!.
  - destruct (projection_ok filter_next filtered IteratorBased.line s0 R0 (length_filtered s0)) as (s' & Hp & _).
    eexists s', [_; _; _], [_; _; _]. split; [|done]. unfold IteratorBased.main.
    refine (bind_Ok _ _ _ _ s0 [_; _; _] _ _ _ eq_refl _). refine (bind_Ok _ _ _ _ _ _ _ _ [_; _; _] Hp _). reflexivity.
  - destruct (projection_ok filter_next filtered MiniEngine.line s0 R0 (length_filtered s0)) as (s' & Hp & _).
    eexists s', [_; _; _; _], [_; _; _]. split; [|done]. unfold MiniEngine.main.
    refine (bind_Ok _ _ _ _ s0 [_; _; _] _ _ (_ :: _) eq_refl _). refine (bind_Ok _ _ _ _ s0 [_] _ _ _ eq_refl _).
    refine (bind_Ok _ _ _ _ _ _ _ _ [_; _; _] Hp _). reflexivity.
  - destruct (projection_ok OperatorChaining.limit_next limited OperatorChaining.line s1 R1) as (s' & Hp & _).
    { unfold limited. rewrite length_take. pose proof (length_filtered s1). lia. }
    unfold limited in Hp. cbn [limit_value limit_count] in Hp. rewrite Z.sub_0_r in Hp.
    eexists s', [_; _; _; _], [_; _; _; _]. split; [|done]. unfold OperatorChaining.main.
    refine (bind_Ok _ _ _ _ s1 [_; _; _; _] _ _ _ eq_refl _). refine (bind_Ok _ _ _ _ _ _ _ _ [_; _; _; _] Hp _). reflexivity.
  - eexists [_; _; _], [_]. split; [|done]. pose proof (direct_loop_ok (table s) (length (table s)) 0 eq_refl) as Hq.
    unfold Direct.main. refine (bind_Ok _ _ _ _ tt [_] _ _ (_ :: _ :: _) eq_refl _).
    refine (bind_Ok _ _ _ _ tt [_] _ _ (_ :: _) eq_refl _). refine (bind_Ok _ _ _ _ tt [_] _ _ _ eq_refl _).
    refine (bind_Ok _ _ _ _ _ _ _ _ [_] Hq _). reflexivity.
Qed.

End QueryTheorems.
