(* ===== verification/FileCache.v ===== *)
(** * The file cache: [day-2(LRU)/file-caching-system.c] and [buffer-pool.c]

    [BufferPool] is the pool of page buffers with its free list, [FileCache] the
    cache of whole files in such buffers, hashed by name with [hash] of
    lru-cache.c.  The chains of a bucket and the free list are owned by their
    heads, so they are lists; the entries carry their address, because
    [evict_lru_files] keeps pointers to them.  The disk is a map from names to
    files; [time] is an argument.  [CacheSpec] relates the cache to a map from
    names to contents. *)
From stdpp Require Import base list gmap strings pretty sorting.
From Stdlib Require Import ZArith Lia.
From Stdlib Require Ascii String.
From S2P Require Import Prelude.
Local Open Scope Z_scope.

(** ** [buffer-pool.c] *)
Module BufferPool.

Definition BUFFER_SIZE : nat := 4096.
Definition POOL_SIZE : Z := 10.

(** Cells of [data] that were never written hold [None]. *)
Record buffer : Set := mkBuffer { data : list (option Ascii.ascii); is_free : bool; buffer_id : Z }.

(** [free_list] lists the buffers in the order of their [next] pointers. *)
Record buffer_pool : Set := mkPool {
  buffers : list buffer;
  free_list : list nat;
  total_buffers : Z;
  free_count : Z
}.

Definition create_buffer_pool (pool_size : Z) : buffer_pool :=
  let ids := seq 0 (Z.to_nat pool_size) in
  mkPool ((λ i, mkBuffer (replicate BUFFER_SIZE None) true (Z.of_nat i)) <$> ids) ids pool_size pool_size.

(** The buffer behind a pointer into the array. *)
Definition deref (pool : buffer_pool) (b : option nat) : res (nat * buffer) :=
  match b with
  | None => UB NullDeref
  | Some i => match buffers pool !! i with Some x => Ok (i, x) | None => UB OutOfBounds end
  end.

Definition acquire_buffer : C buffer_pool (option nat) :=
  pool ← get;
  if free_count pool =? 0 then printf ("Buffer pool is already exhausted " +:+ nl) ;; mret None
  else
    '(i, b) ← lift (deref pool (head (free_list pool)));
    put (mkPool (<[i := mkBuffer (data b) false (buffer_id b)]> (buffers pool)) (tail (free_list pool))
           (total_buffers pool) (free_count pool - 1)) ;;
    printf ("The acquired buffer is " +:+ d (buffer_id b) +:+ nl) ;;
    mret (Some i).

(** [prinf] in the source is taken for [printf]. *)
Definition release_buffer (buffer : option nat) : C buffer_pool unit :=
  pool ← get;
  '(i, b) ← lift (deref pool buffer);
  if is_free b then mret tt
  else
    put (mkPool (<[i := mkBuffer (replicate BUFFER_SIZE (Some Ascii.zero)) true (buffer_id b)]> (buffers pool))
           (i :: free_list pool) (total_buffers pool) (free_count pool + 1)) ;;
    printf ("Released buffer is " +:+ d (buffer_id b) +:+ " " +:+ nl).

End BufferPool.

(** ** [file-caching-system.c] *)
Module FileCache.
Import BufferPool.

Definition CACHE_SIZE : nat := 5.

(** [char] is signed. *)
Definition char_code (c : Ascii.ascii) : Z :=
  let n := Z.of_nat (Ascii.nat_of_ascii c) in if n <? 128 then n else n - 256.

(** [hash] of lru-cache.c, in [unsigned int]. *)
Definition hash (key : string) : nat :=
  Z.to_nat (foldl (λ hv c, (hv * 31 + char_code c) mod 2 ^ 32) 0 (String.list_ascii_of_string key) mod Z.of_nat CACHE_SIZE).

Record cached_file : Set := mkFile {
  filename : string;
  buffer : option nat;
  file_size : nat;
  last_accessed : Z
}.

(** [malloc] leaves the counters unset. *)
Record cache_stats : Set := mkStats { hits : option Z; misses : option Z; evictions : option Z }.

Record file_cache : Set := mkCache {
  buffer_pool : BufferPool.buffer_pool;
  files : list (list (positive * cached_file));
  cached_files_count : Z;
  stats : cache_stats
}.

(** What a name stands for on the disk: a directory can be opened for reading
    but not read or written. *)
Inductive file : Set := Data (content : list Ascii.ascii) | Dir.

Record state : Set := mkState { cache : file_cache; disk : gmap string file }.

Definition create_file_cache : file_cache :=
  mkCache (create_buffer_pool POOL_SIZE) (replicate CACHE_SIZE []) 0 (mkStats None None None).

Definition set_cache (c : file_cache) : C state unit := s ← get; put (mkState c (disk s)).

(** A call into the buffer pool. *)
Definition on_pool {A} (m : C BufferPool.buffer_pool A) : C state A := fun s =>
  match m (buffer_pool (cache s)) with
  | Ok (a, p, o) =>
      Ok (a, mkState (mkCache p (files (cache s)) (cached_files_count (cache s)) (stats (cache s))) (disk s), o)
  | UB e => UB e
  end.

Definition bucket (i : nat) : C state (list (positive * cached_file)) :=
  s ← get; match files (cache s) !! i with Some l => mret l | None => lift (UB OutOfBounds) end.

Definition set_bucket (i : nat) (l : list (positive * cached_file)) : C state unit :=
  s ← get;
  set_cache (mkCache (buffer_pool (cache s)) (<[i := l]> (files (cache s))) (cached_files_count (cache s)) (stats (cache s))).

Definition add_count (n : Z) : C state unit :=
  s ← get;
  set_cache (mkCache (buffer_pool (cache s)) (files (cache s)) (cached_files_count (cache s) + n) (stats (cache s))).

(** [while (cached)]: the first entry of the chain with this name. *)
Fixpoint find_file (name : string) (l : list (positive * cached_file)) : option (positive * cached_file) :=
  match l with
  | [] => None
  | (p, c) :: l => if String.eqb (filename c) name then Some (p, c) else find_file name l
  end.

(** Writes to the entry at [p]. *)
Definition update_file (p : positive) (f : cached_file → cached_file) (l : list (positive * cached_file)) :=
  (λ x : positive * cached_file, if decide (fst x = p) then (fst x, f (snd x)) else x) <$> l.

Definition touch (now : Z) (c : cached_file) : cached_file := mkFile (filename c) (buffer c) (file_size c) now.

(** [memcpy] of [bytes] to the start of a buffer and a terminator behind them. *)
Definition fill_buffer (b : option nat) (bytes : list Ascii.ascii) : C BufferPool.buffer_pool unit :=
  pool ← get;
  '(i, x) ← lift (deref pool b);
  dt ← lift (aset ((Some <$> bytes) ++ drop (length bytes) (data x)) (Z.of_nat (length bytes)) (Some Ascii.zero));
  put (mkPool (<[i := mkBuffer dt (is_free x) (buffer_id x)]> (buffers pool)) (free_list pool) (total_buffers pool) (free_count pool)).

(** [strncpy] into [char filename[256]]. *)
Definition copy_name (name : string) : string := String.string_of_list_ascii (take 255 (String.list_ascii_of_string name)).

Definition addresses (c : file_cache) : gset positive := list_to_set (fst <$> concat (files c)).

(** A new entry at the head of its chain. *)
Definition add_entry (index : nat) (name : string) (b : option nat) (size : nat) (now : Z) : C state unit :=
  s ← get;
  l ← bucket index;
  set_bucket index ((fresh (addresses (cache s)), mkFile (copy_name name) b size now) :: l) ;;
  add_count 1.

(** [open] for reading. *)
Definition open_read (name : string) : C state (option file) := s ← get; mret (disk s !! name).

(** [read_file_cached] when the file is not in its chain. *)
Definition read_miss (now : Z) (index : nat) (name : string) : C state (option nat) :=
  printf ("File cache MISS for " +:+ name +:+ " " +:+ nl) ;;
  b ← on_pool acquire_buffer;
  match b with
  | None => printf "No buffers are available" ;; mret None
  | Some _ =>
      fd ← open_read name;
      match fd with
      | None | Some Dir => on_pool (release_buffer b) ;; mret None
      | Some (Data content) =>
          let bytes := take (BUFFER_SIZE - 1) content in
          on_pool (fill_buffer b bytes) ;;
          add_entry index name b (length bytes) now ;;
          printf ("Cached file " +:+ name +:+ " of size " +:+ d (Z.of_nat (length bytes)) +:+ " bytes " +:+ nl) ;;
          mret b
      end
  end.

Definition read_file_cached (now : Z) (name : string) : C state (option nat) :=
  let index := hash name in
  l ← bucket index;
  match find_file name l with
  | Some (p, c) =>
      set_bucket index (update_file p (touch now) l) ;;
      printf ("File cache HIT for " +:+ name +:+ " " +:+ nl) ;;
      mret (buffer c)
  | None => read_miss now index name
  end.

(** The argument of [remove_cached_file]: a string of the caller or the name
    inside an entry. *)
Inductive name_arg : Set := Lit (s : string) | Of (p : positive).

Definition read_name (a : name_arg) : C state string :=
  match a with
  | Lit s => mret s
  | Of p =>
      s ← get;
      match list_find (λ x, fst x = p) (concat (files (cache s))) with
      | Some (_, (_, c)) => mret (filename c)
      | None => lift (UB UseAfterFree)
      end
  end.

Definition remove_cached_file (a : name_arg) : C state unit :=
  name ← read_name a;
  let index := hash name in
  l ← bucket index;
  match find_file name l with
  | None => mret tt
  | Some (p, c) =>
      set_bucket index (filter (λ x, fst x ≠ p) l) ;;
      on_pool (release_buffer (buffer c)) ;;
      add_count (-1) ;;
      name ← read_name a;
      printf ("Removed file from cache: " +:+ name +:+ nl)
  end.

(** One pass of the bubble sort over [files], by [last_accessed]. *)
Fixpoint bubble (x : positive * Z) (l : list (positive * Z)) (n : nat) : list (positive * Z) :=
  match n, l with
  | S n, y :: l => if snd x >? snd y then y :: bubble x l n else x :: bubble y l n
  | _, _ => x :: l
  end.

Fixpoint bubble_sort (n : nat) (l : list (positive * Z)) : list (positive * Z) :=
  match n with
  | O => l
  | S n => match l with [] => [] | x :: l => bubble_sort n (bubble x l n) end
  end.

Definition evict_lru_files (max_files : Z) : C state unit :=
  s ← get;
  if cached_files_count (cache s) <=? max_files then mret tt
  else
    let files := (λ x : positive * cached_file, (fst x, last_accessed (snd x))) <$> concat (files (cache s)) in
    let files := bubble_sort (length files) files in
    let files_to_remove := cached_files_count (cache s) - max_files in
    for_each (λ i, x ← lift (aget files (Z.of_nat i)); remove_cached_file (Of (fst x))) (seq 0 (Z.to_nat files_to_remove)) ;;
    printf ("Evicted " +:+ d files_to_remove +:+ " LRU files" +:+ nl).

Definition write_file_cached (now : Z) (name : string) (bytes : list Ascii.ascii) : C state Z :=
  let data_size := length bytes in
  if (BUFFER_SIZE <=? data_size)%nat then
    printf ("Data too large for buffer: " +:+ d (Z.of_nat data_size) +:+ " bytes" +:+ nl) ;; mret (-1)
  else
    let index := hash name in
    l ← bucket index;
    match find_file name l with
    | Some (p, c) =>
        on_pool (fill_buffer (buffer c) bytes) ;;
        set_bucket index (update_file p (λ c, mkFile (filename c) (buffer c) data_size now) l) ;;
        printf ("Updated cached file: " +:+ name +:+ nl) ;; mret 0
    | None =>
        b ← on_pool acquire_buffer;
        match b with
        | None => printf ("No buffers available for write!" +:+ nl) ;; mret (-1)
        | Some _ =>
            on_pool (fill_buffer b bytes) ;;
            add_entry index name b data_size now ;;
            printf ("Cached new file for write: " +:+ name +:+ " (" +:+ d (Z.of_nat data_size) +:+ " bytes)" +:+ nl) ;;
            mret 0
        end
    end.

(** [write(fd, data, size)], all of it. *)
Fixpoint initialised (l : list (option Ascii.ascii)) : res (list Ascii.ascii) :=
  match l with
  | [] => Ok []
  | None :: _ => UB Uninitialised
  | Some c :: l => cs ← initialised l; Ok (c :: cs)
  end.

Definition flush_cached_file (name : string) : C state Z :=
  l ← bucket (hash name);
  match find_file name l with
  | None => printf ("File not found in cache: " +:+ name +:+ nl) ;; mret (-1)
  | Some (_, c) =>
      s ← get;
      match disk s !! name with
      | Some Dir => printf "Failed to open file for writing" ;; mret (-1)
      | _ =>
          '(_, b) ← lift (deref (buffer_pool (cache s)) (buffer c));
          bytes ← lift (initialised (take (file_size c) (data b)));
          put (mkState (cache s) (<[name := Data bytes]> (disk s))) ;;
          printf ("Flushed cached file to disk: " +:+ name +:+ " (" +:+ d (Z.of_nat (file_size c)) +:+ " bytes)" +:+ nl) ;;
          mret 0
      end
  end.

(** The hit rate would be printed from the same counters, which are never set. *)
Definition counter (x : option Z) : res Z := match x with Some z => Ok z | None => UB Uninitialised end.

Definition print_cache_stats : C state unit :=
  s ← get;
  printf (nl +:+ "=== File Cache Statistics ===" +:+ nl) ;;
  printf ("Cached files: " +:+ d (cached_files_count (cache s)) +:+ nl) ;;
  h ← lift (counter (hits (stats (cache s))));
  printf ("Cache hits: " +:+ d h +:+ nl) ;;
  m ← lift (counter (misses (stats (cache s))));
  printf ("Cache misses: " +:+ d m +:+ nl) ;;
  e ← lift (counter (evictions (stats (cache s))));
  printf ("Total evictions: " +:+ d e +:+ nl) ;;
  printf ("Available buffers: " +:+ d (free_count (buffer_pool (cache s))) +:+ "/" +:+
          d (total_buffers (buffer_pool (cache s))) +:+ nl) ;;
  printf ("===============================" +:+ nl +:+ nl).

(** [%-30s] and [%6zu]. *)
Definition spaces (n : nat) : string := String.concat EmptyString (replicate n " ").
Definition pad_right (n : nat) (s : string) : string := s +:+ spaces (n - String.length s).
Definition pad_left (n : nat) (s : string) : string := spaces (n - String.length s) +:+ s.

Definition list_cached_files (now : Z) : C state unit :=
  s ← get;
  printf (nl +:+ "=== Cached Files ===" +:+ nl) ;;
  for_each (λ x : positive * cached_file,
    printf ("File: " +:+ pad_right 30 (filename (snd x)) +:+ " Size: " +:+ pad_left 6 (d (Z.of_nat (file_size (snd x)))) +:+
            " bytes Age: " +:+ d (now - last_accessed (snd x)) +:+ " seconds" +:+ nl)) (concat (files (cache s))) ;;
  printf ("===================" +:+ nl +:+ nl).

Definition age_out (now : Z) (max_age : Z) (c : cached_file) : bool := now - last_accessed c >? max_age.

(** The inner loop of [cleanup_old_entries]: what is left of a chain. *)
Fixpoint cleanup_chain (now max_age : Z) (l : list (positive * cached_file)) : C state (list (positive * cached_file)) :=
  match l with
  | [] => mret []
  | (p, c) :: l =>
      if age_out now max_age c then
        on_pool (release_buffer (buffer c)) ;;
        printf ("Aged out file: " +:+ filename c +:+ nl) ;;
        add_count (-1) ;;
        s ← get;
        e ← lift (counter (evictions (stats (cache s))));
        set_cache (mkCache (buffer_pool (cache s)) (files (cache s)) (cached_files_count (cache s))
                    (mkStats (hits (stats (cache s))) (misses (stats (cache s))) (Some (e + 1)))) ;;
        cleanup_chain now max_age l
      else l' ← cleanup_chain now max_age l; mret ((p, c) :: l')
  end.

Definition cleanup_old_entries (now max_age : Z) : C state unit :=
  for_each (λ i, l ← bucket i; l ← cleanup_chain now max_age l; set_bucket i l) (seq 0 CACHE_SIZE).

Definition prefetch_files (now : Z) (filenames : list string) : C state unit :=
  for_each (λ name,
    l ← bucket (hash name);
    match find_file name l with
    | Some _ => mret tt
    | None => printf ("Prefetching: " +:+ name +:+ nl) ;; read_file_cached now name ;; mret tt
    end) filenames.

Definition flush_all_cached_files : C state unit :=
  printf ("Flushing all cached files to disk..." +:+ nl) ;;
  s ← get;
  for_each (λ x : positive * cached_file, flush_cached_file (filename (snd x)) ;; mret tt) (concat (files (cache s))).

(** What is left afterwards is the disk; the entries, the buffers and the cache
    are given back. *)
Definition destroy_file_cache : C state unit :=
  flush_all_cached_files ;;
  s ← get;
  for_each (λ x : positive * cached_file, on_pool (release_buffer (buffer (snd x)))) (concat (files (cache s))) ;;
  printf ("File cache destroyed" +:+ nl).

(** 20 characters and the terminator. *)
Definition hello : list Ascii.ascii := String.list_ascii_of_string "Hello, cached world!" ++ [Ascii.zero].

(** Every call happens at time [now]. *)
Definition main (now : Z) : C state unit :=
  set_cache create_file_cache ;;
  read_file_cached now "test1.txt" ;;
  read_file_cached now "test2.txt" ;;
  read_file_cached now "test1.txt" ;;
  write_file_cached now "output.txt" hello ;;
  print_cache_stats ;;
  list_cached_files now ;;
  evict_lru_files 2 ;;
  cleanup_old_entries now 300 ;;
  destroy_file_cache.

End FileCache.

(** ** [lru-cache.c]

    The links [prev] and [next] are those of the list in order of use, and
    [next] is the link of the hash chains as well; so the nodes are kept in a
    heap. *)
Module LruLibrary.
Import FileCache.

Definition KEY_SIZE : nat := 32.
Definition DATA_SIZE : nat := 256.

Record cache_node : Set := mkNode { key : string; data : string; prev : ptr; next : ptr }.

Record lru_cache : Set := mkLru {
  heap : gmap positive cache_node;
  head : ptr;
  tail : ptr;
  nodes : list ptr;
  count : Z;
  capacity : Z
}.

Definition create_lru_cache : lru_cache := mkLru ∅ None None (replicate CACHE_SIZE None) 0 (Z.of_nat CACHE_SIZE).

Definition node (p : ptr) : C lru_cache cache_node := c ← get; lift (load (heap c) p).

Definition set_heap (h : gmap positive cache_node) : C lru_cache unit :=
  modify (λ c, mkLru h (head c) (tail c) (nodes c) (count c) (capacity c)).
Definition set_head (p : ptr) : C lru_cache unit :=
  modify (λ c, mkLru (heap c) p (tail c) (nodes c) (count c) (capacity c)).
Definition set_tail (p : ptr) : C lru_cache unit :=
  modify (λ c, mkLru (heap c) (head c) p (nodes c) (count c) (capacity c)).
Definition set_chain (i : nat) (p : ptr) : C lru_cache unit :=
  modify (λ c, mkLru (heap c) (head c) (tail c) (<[i := p]> (nodes c)) (count c) (capacity c)).
Definition add_count (n : Z) : C lru_cache unit :=
  modify (λ c, mkLru (heap c) (head c) (tail c) (nodes c) (count c + n) (capacity c)).

(** [p->f = ...] *)
Definition change (p : ptr) (f : cache_node → cache_node) : C lru_cache unit :=
  c ← get; n ← lift (load (heap c) p); h ← lift (store (heap c) p (f n)); set_heap h.

Definition set_prev (q : ptr) (n : cache_node) : cache_node := mkNode (key n) (data n) q (next n).
Definition set_next (q : ptr) (n : cache_node) : cache_node := mkNode (key n) (data n) (prev n) q.

Definition when (p : ptr) (m : C lru_cache unit) : C lru_cache unit := match p with Some _ => m | None => mret tt end.

Definition add_to_front (p : ptr) : C lru_cache unit :=
  c ← get;
  change p (set_prev None) ;;
  change p (set_next (head c)) ;;
  when (head c) (change (head c) (set_prev p)) ;;
  set_head p ;;
  c ← get;
  if bool_decide (tail c = None) then set_tail p else mret tt.

Definition move_to_front (p : ptr) : C lru_cache unit :=
  c ← get;
  if bool_decide (head c = p) then mret tt
  else
    n ← node p;
    when (prev n) (change (prev n) (set_next (next n))) ;;
    n ← node p;
    when (next n) (change (next n) (set_prev (prev n))) ;;
    n ← node p;
    (if bool_decide (tail c = p) then set_tail (prev n) else mret tt) ;;
    change p (set_prev None) ;;
    change p (set_next (head c)) ;;
    when (head c) (change (head c) (set_prev p)) ;;
    set_head p ;;
    c ← get;
    if bool_decide (tail c = None) then set_tail p else mret tt.

Definition remove_lru : C lru_cache ptr :=
  c ← get;
  match tail c with
  | None => mret None
  | lru =>
      n ← node lru;
      (match prev n with
       | Some _ => change (prev n) (set_next None)
       | None => set_head None
       end) ;;
      n ← node lru;
      set_tail (prev n) ;;
      mret lru
  end.

(** [while (current)]: a walk over more nodes than there are never ends. *)
Fixpoint search (fuel : nat) (k : string) (current : ptr) : C lru_cache ptr :=
  match current with
  | None => mret None
  | Some _ =>
      match fuel with
      | O => lift (UB OutOfFuel)
      | S fuel =>
          n ← node current;
          if String.eqb (key n) k then mret current else search fuel k (next n)
      end
  end.

Definition chain (index : nat) (k : string) : C lru_cache ptr :=
  c ← get; p ← lift (aget (nodes c) (Z.of_nat index)); search (base.size (heap c)) k p.

Definition cache_get (k : string) : C lru_cache (option string) :=
  current ← chain (hash k) k;
  match current with
  | Some _ =>
      move_to_front current ;;
      printf ("Cache successfully HIT for the key " +:+ k +:+ " " +:+ nl) ;;
      n ← node current; mret (Some (data n))
  | None => printf ("Cache MISS for the key " +:+ k +:+ " " +:+ nl) ;; mret None
  end.

(** [strncpy] and the terminator. *)
Definition clip (size : nat) (s : string) : string := String.string_of_list_ascii (take (size - 1) (String.list_ascii_of_string s)).

Definition new_node (n : cache_node) : C lru_cache ptr :=
  c ← get; let '(l, h) := malloc (heap c) n in set_heap h ;; mret (Some l).

Definition cache_put (k dt : string) : C lru_cache unit :=
  let index := hash k in
  existing ← cache_get k;
  match existing with
  | Some _ =>
      current ← chain index k;
      when current (change current (λ n, mkNode (key n) (clip DATA_SIZE dt) (prev n) (next n)))
  | None =>
      p ← new_node (mkNode (clip KEY_SIZE k) (clip DATA_SIZE dt) None None);
      c ← get;
      (if count c >=? capacity c then
         lru ← remove_lru;
         when lru (
           n ← node lru;
           c ← get;
           first ← lift (aget (nodes c) (Z.of_nat (hash (key n))));
           (if bool_decide (first = lru) then set_chain (hash (key n)) (next n) else mret tt) ;;
           c ← get;
           h ← lift (free (heap c) lru); set_heap h ;;
           add_count (-1))
       else mret tt) ;;
      add_to_front p ;;
      c ← get;
      first ← lift (aget (nodes c) (Z.of_nat index));
      change p (set_next first) ;;
      set_chain index p ;;
      add_count 1 ;;
      printf ("Cached key is " +:+ k +:+ " with the data " +:+ dt +:+ " " +:+ nl)
  end.

Definition put_all (ks : list string) : C lru_cache unit := for_each (λ k, cache_put k k) ks.

(** Keys in one chain with another key used in between: after six keys a chain
    still leads to the node that was freed. *)
Lemma lru_library_uses_freed :
  (put_all ["a"; "b"; "f"; "c"; "d"; "e"] ;; cache_get "k") create_lru_cache = UB UseAfterFree.
Proof. vm_compute. reflexivity. Qed.

(** Moving a node to the front ties its chain into a ring: the search for a
    key that is not there does not end. *)
Lemma lru_library_loops :
  (put_all ["a"; "b"; "f"] ;; cache_get "a" ;; cache_get "k") create_lru_cache = UB OutOfFuel.
Proof. vm_compute. reflexivity. Qed.

End LruLibrary.

(** ** The cache as a map *)
Module CacheSpec.
Import BufferPool FileCache.

Abbreviation entry := (positive * cached_file)%type.

(** A buffer holds a file: its bytes and a terminator. *)
Definition holds (p : BufferPool.buffer_pool) (i : nat) (content : list Ascii.ascii) : Prop :=
  ∃ b, buffers p !! i = Some b ∧ take (length content) (data b) = Some <$> content ∧
    data b !! length content = Some (Some Ascii.zero).

(** An entry is in order: its buffer holds [content]. *)
Definition entry_ok (p : BufferPool.buffer_pool) (c : cached_file) (content : list Ascii.ascii) : Prop :=
  file_size c = length content ∧ ∃ i, buffer c = Some i ∧ holds p i content.

(** The entries [es], in any order, the buffers [bs] that a function holds, and
    the free list share the ten buffers; [m] has the contents by name. *)
Record core (p : BufferPool.buffer_pool) (es : list entry) (bs : list nat) (m : gmap string (list Ascii.ascii)) : Prop := mkcore {
  c_addr : NoDup (fst <$> es);
  c_names : NoDup ((filename ∘ snd) <$> es);
  c_bufs : ((buffer ∘ snd) <$> es) ++ (Some <$> bs) ++ (Some <$> free_list p) ≡ₚ Some <$> seq 0 10;
  c_len : length (buffers p) = 10%nat;
  c_free : ∀ i b, buffers p !! i = Some b → is_free b = bool_decide (i ∈ free_list p);
  c_data : ∀ i b, buffers p !! i = Some b → length (data b) = BUFFER_SIZE;
  c_count : free_count p = Z.of_nat (length (free_list p));
  c_total : total_buffers p = 10;
  c_map : ∀ x, x ∈ es → ∃ content, m !! filename (snd x) = Some content ∧ entry_ok p (snd x) content;
  c_dom : dom m = list_to_set ((filename ∘ snd) <$> es)
}.

Record inv (s : state) (m : gmap string (list Ascii.ascii)) : Prop := mkinv {
  i_core : core (buffer_pool (cache s)) (concat (files (cache s))) [] m;
  i_len : length (files (cache s)) = CACHE_SIZE;
  i_hash : ∀ i l x, files (cache s) !! i = Some l → x ∈ l → hash (filename (snd x)) = i;
  i_count : cached_files_count (cache s) = Z.of_nat (length (concat (files (cache s))))
}.

Lemma core_perm p es es' bs m : es ≡ₚ es' → core p es bs m → core p es' bs m.
Proof.
  intros Hp [H1 H2 H3 H4 H5 H6 H7 H8 H9 H10]. constructor; try done.
  - by rewrite <- Hp.
  - by rewrite <- Hp.
  - by rewrite <- Hp.
  - intros x. rewrite <- Hp. apply H9.
  - rewrite H10. apply list_to_set_perm_L. by rewrite Hp.
Qed.

#[export] Instance core_proper p : Proper ((≡ₚ) ==> (=) ==> (=) ==> iff) (core p).
Proof. intros es es' Hp bs _ <- m _ <-. split; by apply core_perm. Qed.

(** Buffers in use are distinct and not free. *)
Lemma core_nodup p es bs m : core p es bs m → NoDup (((buffer ∘ snd) <$> es) ++ (Some <$> bs) ++ (Some <$> free_list p)).
Proof. intros Hc. rewrite (c_bufs _ _ _ _ Hc). apply NoDup_fmap; [apply _|apply NoDup_seq]. Qed.

Lemma core_index p es bs m i :
  core p es bs m → Some i ∈ ((buffer ∘ snd) <$> es) ++ (Some <$> bs) ++ (Some <$> free_list p) → ∃ b, buffers p !! i = Some b.
Proof.
  intros Hc Hi. rewrite (c_bufs _ _ _ _ Hc) in Hi. apply list_elem_of_fmap in Hi as (j & [= <-] & Hj). apply elem_of_seq in Hj.
  apply lookup_lt_is_Some_2. rewrite (c_len _ _ _ _ Hc). lia.
Qed.

(** Changing buffer [i] does not touch entries with other buffers. *)
Lemma entry_ok_other p p' c content :
  (∀ i, buffer c = Some i → buffers p' !! i = buffers p !! i) → entry_ok p c content → entry_ok p' c content.
Proof.
  intros Heq (Hs & i & Hi & b & Hb & Hh). split; [done|]. exists i. split; [done|]. exists b. by rewrite Heq.
Qed.

(** *** The buffer pool *)

Lemma pool_acquire_ok p es m :
  core p es [] m →
  (free_list p = [] ∧ ∃ o, acquire_buffer p = Ok (None, p, o)) ∨
  (∃ i p' o, acquire_buffer p = Ok (Some i, p', o) ∧ core p' es [i] m ∧ length (free_list p) = S (length (free_list p'))).
Proof.
  intros Hc. unfold acquire_buffer. destruct (free_list p) as [|i fl] eqn:Hfl.
  - left. split; [done|]. eexists. c_run. rewrite (c_count _ _ _ _ Hc), Hfl. done.
  - right. destruct (core_index p es [] m i Hc) as [b Hb]; [rewrite Hfl, !elem_of_app, !list_elem_of_fmap; right; right; exists i; split; [done|left]|].
    pose proof (core_nodup _ _ _ _ Hc) as Hnd. rewrite Hfl in Hnd. apply NoDup_app in Hnd as (_ & Hd & Hnd). cbn [fmap list_fmap app] in Hnd, Hd.
    apply NoDup_cons in Hnd as [Hi _].
    eexists i, _, _. split.
    { refine (bind_Ok _ _ _ _ _ [] _ _ _ eq_refl _). rewrite (c_count _ _ _ _ Hc), Hfl. cbn [length]. destruct (Z.eqb_spec (Z.of_nat (S (length fl))) 0); [lia|].
      refine (bind_Ok _ _ _ _ _ [] _ _ _ (lift_Ok _ _ (i, b) _) _); [simpl; by rewrite Hb|]. reflexivity. }
    cbn [tail length free_list]. split; [|done]. destruct Hc as [H1 H2 H3 H4 H5 H6 H7 H8 H9 H10].
    constructor; cbn [buffers free_list free_count total_buffers]; try done.
    + rewrite Hfl in H3. exact H3.
    + by rewrite length_insert.
    + intros j b' Hj. apply list_lookup_insert_Some in Hj as [(<- & <- & _)|[Hne Hj]].
      * simpl. symmetry. apply bool_decide_eq_false. intros Hin. apply Hi. by apply list_elem_of_fmap_2.
      * rewrite (H5 j b' Hj), Hfl. apply bool_decide_ext. rewrite elem_of_cons. naive_solver.
    + intros j b' Hj. apply list_lookup_insert_Some in Hj as [(<- & <- & _)|[Hne Hj]]; [simpl|]; by eapply H6.
    + lia.
    + intros x Hx. destruct (H9 x Hx) as (content & Hm & Hok). exists content. split; [done|].
      eapply entry_ok_other; [|exact Hok]. intros j Hj. cbn [buffers]. apply list_lookup_insert_ne. intros <-.
      apply (Hd (Some i)); [apply list_elem_of_fmap; by exists x|left].
Qed.

Lemma release_ok p es i m :
  core p es [i] m → ∃ p' o, release_buffer (Some i) p = Ok (tt, p', o) ∧ core p' es [] m ∧ length (free_list p') = S (length (free_list p)).
Proof.
  intros Hc. destruct (core_index p es [i] m i Hc) as [b Hb]; [rewrite !elem_of_app, !list_elem_of_fmap; right; left; exists i; split; [done|left]|].
  pose proof (core_nodup _ _ _ _ Hc) as Hnd. apply NoDup_app in Hnd as (_ & Hd & Hnd). cbn [fmap list_fmap app] in Hnd, Hd.
  apply NoDup_cons in Hnd as [Hi _].
  assert (is_free b = false) as Hb0.
  { rewrite (c_free _ _ _ _ Hc i b Hb). apply bool_decide_eq_false. intros Hin. apply Hi. by apply list_elem_of_fmap_2. }
  eexists _, _. split.
  { unfold release_buffer. refine (bind_Ok _ _ _ _ _ [] _ _ _ eq_refl _).
    refine (bind_Ok _ _ _ _ _ [] _ _ _ (lift_Ok _ _ (i, b) _) _); [simpl; by rewrite Hb|]. cbv iota beta. rewrite Hb0. reflexivity. }
  cbn [length free_list]. split; [|done]. destruct Hc as [H1 H2 H3 H4 H5 H6 H7 H8 H9 H10].
  constructor; cbn [buffers free_list free_count total_buffers]; try done.
  - by rewrite length_insert.
  - intros j b' Hj. apply list_lookup_insert_Some in Hj as [(<- & <- & _)|[Hne Hj]].
    + simpl. symmetry. apply bool_decide_eq_true. left.
    + rewrite (H5 j b' Hj). apply bool_decide_ext. rewrite elem_of_cons. naive_solver.
  - intros j b' Hj. apply list_lookup_insert_Some in Hj as [(<- & <- & _)|[Hne Hj]]; [apply length_replicate|]; by eapply H6.
  - rewrite H7. simpl. lia.
  - intros x Hx. destruct (H9 x Hx) as (content & Hm & Hok). exists content. split; [done|].
    eapply entry_ok_other; [|exact Hok]. intros j Hj. cbn [buffers]. apply list_lookup_insert_ne. intros <-.
    apply (Hd (Some i)); [apply list_elem_of_fmap; by exists x|left].
Qed.

Lemma fill_ok p es i m bytes :
  core p es [i] m → (length bytes < BUFFER_SIZE)%nat →
  ∃ p', fill_buffer (Some i) bytes p = Ok (tt, p', []) ∧ core p' es [i] m ∧ holds p' i bytes ∧ free_list p' = free_list p.
Proof.
  intros Hc Hlen. destruct (core_index p es [i] m i Hc) as [b Hb]; [rewrite !elem_of_app, !list_elem_of_fmap; right; left; exists i; split; [done|left]|].
  pose proof (core_nodup _ _ _ _ Hc) as (_ & Hd & _)%NoDup_app. pose proof (lookup_lt_Some _ _ _ Hb) as Hlt.
  pose proof (c_data _ _ _ _ Hc i b Hb) as Hdl.
  set (dt := (Some <$> bytes) ++ drop (length bytes) (data b)).
  assert (length dt = BUFFER_SIZE) as Hdt by (unfold dt; rewrite length_app, length_fmap, length_drop; lia).
  eexists. split_and!.
  - unfold fill_buffer. refine (bind_Ok _ _ _ _ _ [] _ _ [] eq_refl _).
    refine (bind_Ok _ _ _ _ _ [] _ _ [] (lift_Ok _ _ (i, b) _) _); [simpl; by rewrite Hb|]. fold dt.
    refine (bind_Ok _ _ _ _ _ [] _ _ [] (lift_Ok _ _ _ (aset_nat dt (length bytes) _ _)) _); [by rewrite Hdt|]. reflexivity.
  - destruct Hc as [H1 H2 H3 H4 H5 H6 H7 H8 H9 H10]. constructor; cbn [buffers free_list free_count total_buffers]; try done.
    + by rewrite length_insert.
    + intros j b' Hj. apply list_lookup_insert_Some in Hj as [(<- & <- & _)|[Hne Hj]]; [simpl|]; by apply H5.
    + intros j b' Hj. apply list_lookup_insert_Some in Hj as [(<- & <- & _)|[Hne Hj]]; [simpl; by rewrite length_insert|]; by eapply H6.
    + intros x Hx. destruct (H9 x Hx) as (content & Hm & Hok). exists content. split; [done|].
      eapply entry_ok_other; [|exact Hok]. intros j Hj. cbn [buffers]. apply list_lookup_insert_ne. intros <-.
      apply (Hd (Some i)); [apply list_elem_of_fmap; by exists x|left].
  - eexists. cbn [buffers]. split; [by apply list_lookup_insert_eq|]. cbn [data]. split.
    + rewrite take_insert_ge by lia. unfold dt. rewrite <- (length_fmap Some bytes) at 1. by rewrite take_app_length.
    + apply list_lookup_insert_eq. by rewrite Hdt.
  - done.
Qed.

(** *** Entries *)

Lemma take_out p a c es m i : core p ((a, c) :: es) [] m → buffer c = Some i → core p es [i] (delete (filename c) m).
Proof.
  intros [H1 H2 H3 H4 H5 H6 H7 H8 H9 H10] Hi. rewrite fmap_cons in H1. rewrite fmap_cons in H2. rewrite fmap_cons in H10.
  apply NoDup_cons in H1 as [_ H1]. apply NoDup_cons in H2 as [H2' H2].
  cbn [compose snd] in H2', H10. constructor; try done.
  - rewrite fmap_cons in H3. cbn [compose snd] in H3. rewrite Hi in H3. rewrite <- H3. cbn [fmap list_fmap app]. by rewrite <- Permutation_middle.
  - intros x Hx. destruct (H9 x ltac:(by right)) as (content & Hm & Hok). exists content. split; [|done].
    rewrite lookup_delete_ne; [done|]. intros E. apply H2'. rewrite E. apply list_elem_of_fmap. by exists x.
  - rewrite dom_delete_L, H10. simpl. rewrite difference_union_distr_l_L, difference_diag_L, (left_id_L ∅ (∪)).
    apply difference_disjoint_L. apply disjoint_singleton_r. by rewrite elem_of_list_to_set.
Qed.

Lemma put_in p a c es m i content :
  core p es [i] m → (a ∉ fst <$> es) → m !! filename c = None → buffer c = Some i → file_size c = length content → holds p i content →
  core p ((a, c) :: es) [] (<[filename c := content]> m).
Proof.
  intros [H1 H2 H3 H4 H5 H6 H7 H8 H9 H10] Ha Hm Hi Hs Hh.
  assert (filename c ∉ (filename ∘ snd) <$> es) as Hn.
  { rewrite <- (elem_of_list_to_set (C := gset string)), <- H10. by apply not_elem_of_dom. }
  constructor; try done.
  - rewrite fmap_cons. by apply NoDup_cons.
  - rewrite fmap_cons. by apply NoDup_cons.
  - rewrite fmap_cons. cbn [compose snd]. rewrite Hi, <- H3. cbn [fmap list_fmap app]. by rewrite <- Permutation_middle.
  - intros x [->|Hx]%elem_of_cons; [exists content; cbn [snd]; rewrite lookup_insert_eq; split; [done|]; by split; [|exists i]|].
    destruct (H9 x Hx) as (content' & Hm' & Hok). exists content'. split; [|done]. rewrite lookup_insert_ne; [done|]. congruence.
  - rewrite dom_insert_L, H10. done.
Qed.

(** An entry in which only the time changes. *)
Lemma core_touch p a c now es m : core p ((a, c) :: es) [] m → core p ((a, touch now c) :: es) [] m.
Proof.
  intros [H1 H2 H3 H4 H5 H6 H7 H8 H9 H10]. constructor; try done.
  intros x [->|Hx]%elem_of_cons; [apply (H9 (a, c)); left|apply H9; by right].
Qed.

(** *** Buckets *)

Lemma concat_bucket (fs : list (list entry)) i l : fs !! i = Some l → concat fs ≡ₚ l ++ concat (delete i fs).
Proof.
  revert i. induction fs as [|l0 fs IH]; intros [|i] Hi; simplify_eq/=; [done|].
  rewrite (IH i Hi). by rewrite !app_assoc, (Permutation_app_comm l0 l).
Qed.

Lemma delete_insert_eq (fs : list (list entry)) i l : delete i (<[i := l]> fs) = delete i fs.
Proof. revert i. induction fs as [|l0 fs IH]; intros [|i]; simpl; [done|done|done|]. f_equal. apply IH. Qed.

Lemma concat_set_bucket (fs : list (list entry)) i l l' :
  fs !! i = Some l → concat (<[i := l']> fs) ≡ₚ l' ++ concat (delete i fs).
Proof.
  intros Hi. rewrite (concat_bucket _ i l') by (apply list_lookup_insert_eq; by apply lookup_lt_Some in Hi). by rewrite delete_insert_eq.
Qed.

Lemma hash_lt name : (hash name < CACHE_SIZE)%nat.
Proof.
  unfold hash. pose proof (Z.mod_pos_bound (foldl (λ hv c, (hv * 31 + char_code c) mod 2 ^ 32) 0 (String.list_ascii_of_string name))
    (Z.of_nat CACHE_SIZE) ltac:(unfold CACHE_SIZE; lia)). lia.
Qed.

Lemma find_file_Some name l p c :
  find_file name l = Some (p, c) → ∃ l1 l2, l = l1 ++ (p, c) :: l2 ∧ filename c = name.
Proof.
  induction l as [|[q c'] l IH]; simpl; [done|]. destruct (String.eqb_spec (filename c') name) as [E|E].
  - intros [= -> ->]. by exists [], l.
  - intros (l1 & l2 & -> & Hn)%IH. by exists ((q, c') :: l1), l2.
Qed.

Lemma find_file_None name l x : find_file name l = None → x ∈ l → filename (snd x) ≠ name.
Proof.
  induction l as [|[q c'] l IH]; simpl; [intros _ Hx; by apply elem_of_nil in Hx|].
  destruct (String.eqb_spec (filename c') name) as [E|E]; [done|]. intros Hf [->|Hx]%elem_of_cons; [done|by apply IH].
Qed.

(** Writing to or removing one entry of a chain. *)
Lemma update_file_at p f l1 c l2 :
  (p ∉ fst <$> l1) → (p ∉ fst <$> l2) → update_file p f (l1 ++ (p, c) :: l2) = l1 ++ (p, f c) :: l2.
Proof.
  intros H1 H2. unfold update_file. rewrite fmap_app, fmap_cons. cbn [fst snd]. rewrite decide_True by done.
  assert (∀ l : list entry, (p ∉ fst <$> l) → (λ x : entry, if decide (fst x = p) then (fst x, f (snd x)) else x) <$> l = l) as Hid.
  { induction l as [|x l IH]; intros Hn; [done|]. rewrite fmap_cons in *. apply not_elem_of_cons in Hn as [Hx Hn].
    rewrite decide_False by congruence. f_equal. by apply IH. }
  by rewrite !Hid.
Qed.

Lemma filter_file_at p l1 (c : cached_file) l2 :
  (p ∉ fst <$> l1) → (p ∉ fst <$> l2) → filter (λ x : entry, fst x ≠ p) (l1 ++ (p, c) :: l2) = l1 ++ l2.
Proof.
  intros H1 H2. rewrite filter_app, filter_cons_False by (simpl; tauto).
  assert (∀ l : list entry, (p ∉ fst <$> l) → filter (λ x : entry, fst x ≠ p) l = l) as Hid.
  { intros l Hl. apply Forall_filter_id, Forall_forall. intros x Hx E. apply Hl. rewrite <- E. by apply list_elem_of_fmap_2. }
  by rewrite !Hid.
Qed.

(** *** The functions of the cache *)

Ltac frun H := refine (bind_Ok _ _ _ _ _ [] _ _ _ H _).

Lemma bucket_ok i s l : files (cache s) !! i = Some l → bucket i s = Ok (l, s, []).
Proof. intros Hl. unfold bucket. c_run. by rewrite Hl. Qed.

Lemma on_pool_ok {A} (m : C BufferPool.buffer_pool A) s a p o :
  m (buffer_pool (cache s)) = Ok (a, p, o) →
  on_pool m s = Ok (a, mkState (mkCache p (files (cache s)) (cached_files_count (cache s)) (stats (cache s))) (disk s), o).
Proof. intros Hm. unfold on_pool. by rewrite Hm. Qed.

Lemma on_pool_at {A} (m : C BufferPool.buffer_pool A) p fs n st dk a p' o :
  m p = Ok (a, p', o) → on_pool m (mkState (mkCache p fs n st) dk) = Ok (a, mkState (mkCache p' fs n st) dk, o).
Proof. intros Hm. unfold on_pool. cbn [cache buffer_pool]. by rewrite Hm. Qed.

Lemma copy_name_id name : (String.length name ≤ 255)%nat → copy_name name = name.
Proof.
  intros Hn. unfold copy_name. rewrite take_ge, String.string_of_list_ascii_of_string; [done|].
  assert (∀ t, length (String.list_ascii_of_string t) = String.length t) as -> by (induction t; simpl; congruence). done.
Qed.

Lemma core_size p es m : core p es [] m → (base.size m + length (free_list p) = 10)%nat ∧ length es = base.size m.
Proof.
  intros Hc. pose proof (Permutation_length (c_bufs _ _ _ _ Hc)) as Hl. rewrite !length_app, !length_fmap, length_seq in Hl. simpl in Hl.
  assert (base.size m = length es) as ->; [|lia]. rewrite <- size_dom, (c_dom _ _ _ _ Hc), size_list_to_set by apply (c_names _ _ _ _ Hc). apply length_fmap.
Qed.

Section Bucket.
Context (s : state) (m : gmap string (list Ascii.ascii)) (name : string).
Hypothesis Hinv : inv s m.

Lemma bucket_exists : ∃ l, files (cache s) !! hash name = Some l.
Proof. apply lookup_lt_is_Some_2. rewrite (i_len _ _ Hinv). apply hash_lt. Qed.

(** The name is cached exactly when the loop finds it. *)
Lemma bucket_find_None l : files (cache s) !! hash name = Some l → find_file name l = None → m !! name = None.
Proof.
  intros Hl Hf. apply not_elem_of_dom. rewrite (c_dom _ _ _ _ (i_core _ _ Hinv)), elem_of_list_to_set, list_elem_of_fmap.
  intros (x & Hx & Hin). apply list_elem_of_In, in_concat in Hin as (l' & Hl' & Hxl). apply list_elem_of_In in Hl', Hxl.
  apply list_elem_of_lookup in Hl' as (i & Hi). pose proof (i_hash _ _ Hinv i l' x Hi Hxl) as Hh.
  cbn [compose] in Hx. rewrite <- Hx in Hh. subst i. rewrite Hl in Hi. injection Hi as <-. by apply (find_file_None name l x Hf Hxl).
Qed.

Lemma bucket_find_Some l a c l1 l2 :
  files (cache s) !! hash name = Some l → l = l1 ++ (a, c) :: l2 → filename c = name →
  core (buffer_pool (cache s)) ((a, c) :: l1 ++ l2 ++ concat (delete (hash name) (files (cache s)))) [] m ∧
  (∃ content, m !! name = Some content ∧ entry_ok (buffer_pool (cache s)) c content) ∧
  (a ∉ fst <$> l1) ∧ (a ∉ fst <$> l2).
Proof.
  intros Hl -> Hn. pose proof (i_core _ _ Hinv) as Hc. rewrite (concat_bucket _ _ _ Hl) in Hc.
  assert ((l1 ++ (a, c) :: l2) ++ concat (delete (hash name) (files (cache s))) ≡ₚ
    (a, c) :: l1 ++ l2 ++ concat (delete (hash name) (files (cache s)))) as Hp by (rewrite <- app_assoc; symmetry; apply Permutation_middle).
  rewrite Hp in Hc. split; [done|]. split; [rewrite <- Hn; apply (c_map _ _ _ _ Hc (a, c)); left|].
  pose proof (c_addr _ _ _ _ Hc) as Ha. rewrite fmap_cons, !fmap_app in Ha. apply NoDup_cons in Ha as [Ha _].
  rewrite !elem_of_app in Ha. tauto.
Qed.

(** The bucket of the name is replaced: what to check. *)
Lemma set_bucket_inv l l' p' m' count :
  files (cache s) !! hash name = Some l →
  core p' (l' ++ concat (delete (hash name) (files (cache s)))) [] m' →
  (∀ x, x ∈ l' → hash (filename (snd x)) = hash name) →
  count = cached_files_count (cache s) + Z.of_nat (length l') - Z.of_nat (length l) →
  ∀ st dk, inv (mkState (mkCache p' (<[hash name := l']> (files (cache s))) count st) dk) m'.
Proof.
  intros Hl Hc Hh Hcount st dk. constructor; cbn [cache files buffer_pool cached_files_count].
  - by rewrite (concat_set_bucket _ _ _ _ Hl).
  - rewrite length_insert. apply (i_len _ _ Hinv).
  - intros i l0 x Hi Hx. apply list_lookup_insert_Some in Hi as [(<- & <- & _)|[_ Hi]]; [by apply Hh|by eapply (i_hash _ _ Hinv)].
  - rewrite (Permutation_length (concat_set_bucket _ _ _ l' Hl)), Hcount, (i_count _ _ Hinv), (Permutation_length (concat_bucket _ _ _ Hl)), !length_app. lia.
Qed.

Lemma bucket_hash l x : files (cache s) !! hash name = Some l → x ∈ l → hash (filename (snd x)) = hash name.
Proof. apply (i_hash _ _ Hinv). Qed.

End Bucket.

Lemma mid_perm (a : entry) l1 l2 R : (l1 ++ a :: l2) ++ R ≡ₚ a :: l1 ++ l2 ++ R.
Proof. rewrite <- app_assoc. symmetry. apply Permutation_middle. Qed.

(** A file enters the cache, in a buffer that was just acquired. *)
Lemma add_new s m name now bytes p1 i :
  inv s m → m !! name = None → (String.length name ≤ 255)%nat → (length bytes < BUFFER_SIZE)%nat →
  core p1 (concat (files (cache s))) [i] m →
  ∃ s2 s3,
    on_pool (fill_buffer (Some i) bytes)
      (mkState (mkCache p1 (files (cache s)) (cached_files_count (cache s)) (stats (cache s))) (disk s)) = Ok (tt, s2, []) ∧
    add_entry (hash name) name (Some i) (length bytes) now s2 = Ok (tt, s3, []) ∧
    inv s3 (<[name := bytes]> m) ∧ disk s3 = disk s ∧ holds (buffer_pool (cache s3)) i bytes.
Proof.
  intros Hi Hm Hn Hb Hc. destruct (fill_ok p1 _ i m bytes Hc Hb) as (p2 & Hf & Hc2 & Hh & Hfl).
  destruct (bucket_exists s m name Hi) as [l Hl]. eexists _, _. split_and!.
  - by apply on_pool_ok.
  - unfold add_entry. refine (bind_Ok _ _ _ _ _ [] _ _ [] eq_refl _).
    refine (bind_Ok _ _ _ _ _ [] _ _ [] (bucket_ok _ _ l _) _); [done|]. refine (bind_Ok _ _ _ _ _ [] _ _ [] eq_refl _). reflexivity.
  - cbn [buffer_pool cache files cached_files_count stats disk].
    eapply (set_bucket_inv s m name Hi l); [done| | |].
    + cbn [app]. rewrite <- (concat_bucket _ _ _ Hl). rewrite <- (copy_name_id name Hn) at 2.
      apply (put_in p2 _ (mkFile (copy_name name) (Some i) (length bytes) now) _ m i bytes); try done.
      * unfold addresses. cbn [files cache]. rewrite <- (elem_of_list_to_set (C := gset positive)). apply is_fresh.
      * cbn [filename]. by rewrite copy_name_id.
    + intros x [->|Hx]%elem_of_cons; [cbn [snd filename]; by rewrite copy_name_id|by apply (bucket_hash s m name Hi l)].
    + cbn [length]. lia.
  - done.
  - exact Hh.
Qed.

(** *** What the functions do to the map and to the disk *)

Abbreviation contents := (gmap string (list Ascii.ascii)).

Definition read_spec (dk : gmap string file) (name : string) (m : contents) : contents * option (list Ascii.ascii) :=
  match m !! name with
  | Some content => (m, Some content)
  | None =>
      if decide (base.size m = 10%nat) then (m, None)
      else match dk !! name with
           | Some (Data content) => let bytes := take (BUFFER_SIZE - 1) content in (<[name := bytes]> m, Some bytes)
           | _ => (m, None)
           end
  end.

Definition write_spec (name : string) (bytes : list Ascii.ascii) (m : contents) : contents * Z :=
  if decide (length bytes < BUFFER_SIZE)%nat
  then if decide (m !! name = None ∧ base.size m = 10%nat) then (m, -1) else (<[name := bytes]> m, 0)
  else (m, -1).

Definition flush_spec (name : string) (m : contents) (dk : gmap string file) : gmap string file * Z :=
  match m !! name, dk !! name with
  | None, _ | _, Some Dir => (dk, -1)
  | Some content, _ => (<[name := Data content]> dk, 0)
  end.

(** The pointer returned is [NULL] or the buffer with the contents. *)
Definition returned (s : state) (b : option nat) (content : option (list Ascii.ascii)) : Prop :=
  match content with
  | None => b = None
  | Some content => ∃ i, b = Some i ∧ holds (buffer_pool (cache s)) i content
  end.

Lemma not_cached s m name l :
  inv s m → m !! name = None → files (cache s) !! hash name = Some l → find_file name l = None.
Proof.
  intros Hi Hm Hl. destruct (find_file name l) as [[a c]|] eqn:Hf; [|done].
  destruct (find_file_Some _ _ _ _ Hf) as (l1 & l2 & El & Hn).
  destruct (bucket_find_Some s m name Hi l a c l1 l2 Hl El Hn) as (_ & (content & Hm' & _) & _). congruence.
Qed.

(** The entry of a cached file, and what is around it. *)
Lemma cached s m name content :
  inv s m → m !! name = Some content →
  ∃ l a c l1 l2 i, files (cache s) !! hash name = Some l ∧ find_file name l = Some (a, c) ∧ l = l1 ++ (a, c) :: l2 ∧
    filename c = name ∧ core (buffer_pool (cache s)) ((a, c) :: l1 ++ l2 ++ concat (delete (hash name) (files (cache s)))) [] m ∧
    file_size c = length content ∧ buffer c = Some i ∧ holds (buffer_pool (cache s)) i content ∧
    (a ∉ fst <$> l1) ∧ (a ∉ fst <$> l2).
Proof.
  intros Hi Hm. destruct (bucket_exists s m name Hi) as [l Hl]. destruct (find_file name l) as [[a c]|] eqn:Hf.
  2:{ rewrite (bucket_find_None s m name Hi l Hl Hf) in Hm. done. }
  destruct (find_file_Some _ _ _ _ Hf) as (l1 & l2 & El & Hn).
  destruct (bucket_find_Some s m name Hi l a c l1 l2 Hl El Hn) as (Hc & (content' & Hm' & Hs & i & Hb & Hh) & Ha1 & Ha2).
  rewrite Hm in Hm'. injection Hm' as <-. by exists l, a, c, l1, l2, i.
Qed.

Lemma inv_disk s m dk : inv s m → inv (mkState (cache s) dk) m.
Proof. by intros [????]. Qed.

(** Only the pool changed. *)
Lemma inv_pool s m p' dk :
  inv s m → core p' (concat (files (cache s))) [] m →
  inv (mkState (mkCache p' (files (cache s)) (cached_files_count (cache s)) (stats (cache s))) dk) m.
Proof. intros [????] Hc. by constructor. Qed.

Lemma acquire_not_full s m : inv s m → base.size m ≠ 10%nat →
  ∃ i p' o, acquire_buffer (buffer_pool (cache s)) = Ok (Some i, p', o) ∧ core p' (concat (files (cache s))) [i] m.
Proof.
  intros Hi Hs. pose proof (core_size _ _ _ (i_core _ _ Hi)) as [Hsz _].
  destruct (pool_acquire_ok _ _ _ (i_core _ _ Hi)) as [[Hfl _]|(i & p' & o & Ha & Hc & _)]; [rewrite Hfl in Hsz; cbn [length] in Hsz; lia|eauto].
Qed.

Lemma acquire_full s m : inv s m → base.size m = 10%nat → ∃ o, acquire_buffer (buffer_pool (cache s)) = Ok (None, buffer_pool (cache s), o).
Proof.
  intros Hi Hs. pose proof (core_size _ _ _ (i_core _ _ Hi)) as [Hsz _].
  destruct (pool_acquire_ok _ _ _ (i_core _ _ Hi)) as [[_ Ha]|(i & p' & o & _ & _ & Hl)]; [done|lia].
Qed.

(** Changing the entry of a cached file, and perhaps its buffer. *)
Lemma update_inv s m name l a c l1 l2 f p' m' :
  inv s m → files (cache s) !! hash name = Some l → l = l1 ++ (a, c) :: l2 → (a ∉ fst <$> l1) → (a ∉ fst <$> l2) →
  (∀ c, filename (f c) = filename c) →
  core p' ((a, f c) :: l1 ++ l2 ++ concat (delete (hash name) (files (cache s)))) [] m' →
  ∀ st dk, inv (mkState (mkCache p' (<[hash name := update_file a f l]> (files (cache s))) (cached_files_count (cache s)) st) dk) m'.
Proof.
  intros Hi Hl El Ha1 Ha2 Hf Hc. eapply (set_bucket_inv s m name Hi l); [done| | |].
  - rewrite El, update_file_at by done. by rewrite mid_perm.
  - intros x Hx. apply list_elem_of_fmap in Hx as (y & -> & Hy). case_decide; cbn [snd]; rewrite ?Hf; by apply (bucket_hash s m name Hi l).
  - unfold update_file. rewrite length_fmap. lia.
Qed.

Lemma read_hit s m now name content :
  inv s m → m !! name = Some content →
  ∃ i s' o, read_file_cached now name s = Ok (Some i, s', o) ∧ inv s' m ∧ disk s' = disk s ∧ holds (buffer_pool (cache s')) i content.
Proof.
  intros Hi Hm. destruct (cached s m name content Hi Hm) as (l & a & c & l1 & l2 & i & Hl & Hf & El & Hcn & Hc & Hs & Hb & Hh & Ha1 & Ha2).
  eexists i, _, _. split_and!.
  - unfold read_file_cached. frun (bucket_ok _ _ _ Hl). rewrite Hf. frun (eq_refl : set_bucket (hash name) (update_file a (touch now) l) s = Ok (tt, _, [])).
    refine (bind_Ok _ _ _ _ _ [_] _ _ [] eq_refl _). rewrite Hb. reflexivity.
  - eapply update_inv; try done. by apply core_touch.
  - done.
  - exact Hh.
Qed.

Lemma read_miss_ok s m now name :
  inv s m → m !! name = None → (String.length name ≤ 255)%nat →
  ∃ b s' o, read_miss now (hash name) name s = Ok (b, s', o) ∧ inv s' (read_spec (disk s) name m).1 ∧ disk s' = disk s ∧
    returned s' b (read_spec (disk s) name m).2.
Proof.
  intros Hi Hm Hn. unfold read_spec. rewrite Hm. case_decide as Hs.
  - destruct (acquire_full s m Hi Hs) as [o Ha]. eexists None, s, _. split_and!; [|done..]. unfold read_miss.
    refine (bind_Ok _ _ _ _ _ [_] _ _ _ eq_refl _). refine (bind_Ok _ _ _ _ _ _ _ _ _ (on_pool_ok _ _ _ _ _ Ha) _).
    destruct s as [[bp fs cnt st] dk]. reflexivity.
  - destruct (acquire_not_full s m Hi Hs) as (i & p' & o & Ha & Hc).
    destruct (disk s !! name) as [[content|]|] eqn:Hd; cbn [fst snd].
    2-3: destruct (release_ok _ _ _ _ Hc) as (p2 & o2 & Hr & Hc2 & _); eexists None, _, _;
      (split; [|split_and!; [by apply inv_pool|done|done]]); unfold read_miss.
    2-3: refine (bind_Ok _ _ _ _ _ [_] _ _ _ eq_refl _).
    2-3: refine (bind_Ok _ _ _ _ _ _ _ _ _ (on_pool_ok _ _ _ _ _ Ha) _).
    2-3: refine (bind_Ok _ _ _ _ _ [] _ _ _ eq_refl _).
    2-3: cbn [disk]; rewrite Hd.
    2-3: exact (bind_Ok _ _ _ _ _ _ _ _ [] (on_pool_at _ _ _ _ _ _ _ _ _ Hr) eq_refl).
    destruct (add_new s m name now (take (BUFFER_SIZE - 1) content) p' i Hi Hm Hn) as (s2 & s3 & H2 & H3 & Hi3 & Hd3 & Hh).
    { rewrite length_take. unfold BUFFER_SIZE. lia. } { done. }
    eexists (Some i), s3, _. split_and!; [|done|done|by exists i]. unfold read_miss.
    refine (bind_Ok _ _ _ _ _ [_] _ _ _ eq_refl _).
    refine (bind_Ok _ _ _ _ _ _ _ _ _ (on_pool_ok _ _ _ _ _ Ha) _). refine (bind_Ok _ _ _ _ _ [] _ _ _ eq_refl _).
    cbn [disk]. rewrite Hd. frun H2. frun H3. reflexivity.
Qed.

Lemma read_ok now name s m :
  inv s m → (String.length name ≤ 255)%nat →
  ∃ b s' o, read_file_cached now name s = Ok (b, s', o) ∧ inv s' (read_spec (disk s) name m).1 ∧ disk s' = disk s ∧
    returned s' b (read_spec (disk s) name m).2.
Proof.
  intros Hi Hn. destruct (m !! name) as [content|] eqn:Hm.
  - destruct (read_hit s m now name content Hi Hm) as (i & s' & o & Hr & Hi' & Hd & Hh). exists (Some i), s', o.
    unfold read_spec. rewrite Hm. cbn [fst snd]. split_and!; [done..|by exists i].
  - destruct (read_miss_ok s m now name Hi Hm Hn) as (b & s' & o & Hr & Hrest). destruct (bucket_exists s m name Hi) as [l Hl].
    exists b, s', o. split; [|done]. unfold read_file_cached. frun (bucket_ok _ _ _ Hl). by rewrite (not_cached s m name l Hi Hm Hl).
Qed.

Lemma file_write_ok now name bytes s m :
  inv s m → (String.length name ≤ 255)%nat →
  ∃ s' o, write_file_cached now name bytes s = Ok ((write_spec name bytes m).2, s', o) ∧ inv s' (write_spec name bytes m).1 ∧ disk s' = disk s.
Proof.
  intros Hi Hn. unfold write_spec, write_file_cached. case_decide as Hlen.
  2:{ exists s. eexists. destruct (Nat.leb_spec BUFFER_SIZE (length bytes)); [|lia]. done. }
  destruct (Nat.leb_spec BUFFER_SIZE (length bytes)) as [?|_]; [lia|]. destruct (m !! name) as [content|] eqn:Hm.
  - rewrite decide_False by naive_solver. cbn [fst snd].
    destruct (cached s m name content Hi Hm) as (l & a & c & l1 & l2 & i & Hl & Hf & El & Hcn & Hc & Hs & Hb & Hh & Ha1 & Ha2).
    pose proof (take_out _ _ _ _ _ _ Hc Hb) as Hc1. rewrite Hcn in Hc1. destruct (fill_ok _ _ _ _ bytes Hc1 Hlen) as (p2 & Hfill & Hc2 & Hh2 & _).
    eexists _, _. split_and!.
    + frun (bucket_ok _ _ _ Hl). rewrite Hf, Hb. frun (on_pool_ok _ _ _ _ _ Hfill). reflexivity.
    + eapply (update_inv s m name l a c l1 l2 (λ c, mkFile (filename c) (buffer c) (length bytes) now)); try done.
      subst name. rewrite <- insert_delete_eq. apply (put_in p2 a (mkFile (filename c) (buffer c) (length bytes) now) _ _ i bytes); try done; cbn [filename].
      * pose proof (c_addr _ _ _ _ Hc) as Hna. rewrite fmap_cons in Hna. apply NoDup_cons in Hna as [Hna _]. exact Hna.
      * apply lookup_delete_eq.
    + done.
  - destruct (bucket_exists s m name Hi) as [l Hl]. pose proof (not_cached s m name l Hi Hm Hl) as Hf. case_decide as Hs.
    + destruct Hs as [_ Hs]. destruct (acquire_full s m Hi Hs) as [o Ha]. exists s. eexists. split_and!; [|done..].
      frun (bucket_ok _ _ _ Hl). rewrite Hf. refine (bind_Ok _ _ _ _ _ _ _ _ _ (on_pool_ok _ _ _ _ _ Ha) _).
      destruct s as [[bp fs cnt st] dk]. reflexivity.
    + destruct (acquire_not_full s m Hi ltac:(tauto)) as (i & p' & o & Ha & Hc).
      destruct (add_new s m name now bytes p' i Hi Hm Hn Hlen Hc) as (s2 & s3 & H2 & H3 & Hi3 & Hd3 & _).
      exists s3. eexists. split_and!; [|done|done]. frun (bucket_ok _ _ _ Hl). rewrite Hf.
      refine (bind_Ok _ _ _ _ _ _ _ _ _ (on_pool_ok _ _ _ _ _ Ha) _). cbv iota beta. frun H2. frun H3. reflexivity.
Qed.

Lemma initialised_Some l : initialised (Some <$> l) = Ok l.
Proof. induction l as [|c l IH]; [done|]. rewrite fmap_cons. cbn [initialised]. by rewrite IH. Qed.

Lemma flush_ok name s m :
  inv s m → ∃ o, flush_cached_file name s =
    Ok ((flush_spec name m (disk s)).2, mkState (cache s) (flush_spec name m (disk s)).1, o).
Proof.
  intros Hi. unfold flush_spec, flush_cached_file. destruct (m !! name) as [content|] eqn:Hm.
  - destruct (cached s m name content Hi Hm) as (l & a & c & l1 & l2 & i & Hl & Hf & El & Hcn & Hc & Hs & Hb & (b & Hib & Hbd & _) & _).
    destruct (disk s !! name) as [[old|]|] eqn:Hd; cbn [fst snd]; eexists.
    all: frun (bucket_ok _ _ _ Hl); rewrite Hf; refine (bind_Ok _ _ _ _ _ [] _ _ _ eq_refl _); rewrite Hd.
    2:{ destruct s as [ch dk]. reflexivity. }
    1-2: refine (bind_Ok _ _ _ _ _ [] _ _ _ (lift_Ok _ _ (i, b) _) _); [rewrite Hb; simpl; by rewrite Hib|]; cbv iota beta.
    1-2: refine (bind_Ok _ _ _ _ _ [] _ _ _ (lift_Ok _ _ content _) _); [rewrite Hs, Hbd; apply initialised_Some|].
    1-2: reflexivity.
  - destruct (bucket_exists s m name Hi) as [l Hl]. pose proof (not_cached s m name l Hi Hm Hl) as Hf.
    eexists. frun (bucket_ok _ _ _ Hl). rewrite Hf. destruct s as [ch dk]. reflexivity.
Qed.

Lemma file_remove_ok name s m :
  inv s m → ∃ s' o, remove_cached_file (Lit name) s = Ok (tt, s', o) ∧ inv s' (delete name m) ∧ disk s' = disk s.
Proof.
  intros Hi. unfold remove_cached_file. destruct (m !! name) as [content|] eqn:Hm.
  - destruct (cached s m name content Hi Hm) as (l & a & c & l1 & l2 & i & Hl & Hf & El & Hcn & Hc & Hs & Hb & Hh & Ha1 & Ha2).
    pose proof (take_out _ _ _ _ _ _ Hc Hb) as Hc1. destruct (release_ok _ _ _ _ Hc1) as (p' & o & Hr & Hc2 & _).
    eexists _, _. split_and!.
    + refine (bind_Ok _ _ _ _ _ [] _ _ _ eq_refl _). frun (bucket_ok _ _ _ Hl). rewrite Hf, Hb. refine (bind_Ok _ _ _ _ _ [] _ _ _ eq_refl _).
      refine (bind_Ok _ _ _ _ _ _ _ _ _ (on_pool_at _ _ _ _ _ _ _ _ _ Hr) _). refine (bind_Ok _ _ _ _ _ [] _ _ _ eq_refl _). reflexivity.
    + subst name. eapply (set_bucket_inv s m (filename c) Hi l); [done| | |].
      * rewrite El, filter_file_at by done. by rewrite <- app_assoc.
      * intros x Hx. apply list_elem_of_filter in Hx as [_ Hx]. by apply (bucket_hash s m (filename c) Hi l).
      * rewrite El, filter_file_at by done. rewrite !length_app. cbn [length cache cached_files_count]. lia.
    + done.
  - destruct (bucket_exists s m name Hi) as [l Hl]. pose proof (not_cached s m name l Hi Hm Hl) as Hf.
    exists s. eexists. split_and!; [|by rewrite delete_id|done]. refine (bind_Ok _ _ _ _ _ [] _ _ _ eq_refl _).
    frun (bucket_ok _ _ _ Hl). rewrite Hf. reflexivity.
Qed.

(** Every cached file that is not a directory on the disk is written. *)
Definition flush_all_spec (m : contents) (dk : gmap string file) : gmap string file :=
  merge (λ c f, match c, f with None, _ | _, Some Dir => f | Some content, _ => Some (Data content) end) m dk.

Lemma flush_spec_lookup name m dk n :
  (flush_spec name m dk).1 !! n = if decide (n = name) then flush_all_spec m dk !! n else dk !! n.
Proof.
  unfold flush_spec, flush_all_spec. rewrite lookup_merge. case_decide as Hn; [subst n|].
  - destruct (m !! name), (dk !! name) as [[]|] eqn:E; simpl; rewrite ?E; try done; apply lookup_insert_eq.
  - destruct (m !! name), (dk !! name) as [[]|]; simpl; try done; by apply lookup_insert_ne.
Qed.

Lemma flush_list_ok (es : list entry) s m :
  inv s m →
  ∃ dk o, for_each (λ x : entry, flush_cached_file (filename (snd x)) ;; mret tt) es s = Ok (tt, mkState (cache s) dk, o) ∧
    ∀ n, dk !! n = if decide (n ∈ (filename ∘ snd) <$> es) then flush_all_spec m (disk s) !! n else disk s !! n.
Proof.
  revert s. induction es as [|x es IH]; intros s Hi.
  - exists (disk s), []. split; [by destruct s|]. intros n. rewrite decide_False; [done|apply not_elem_of_nil].
  - destruct (flush_ok (filename (snd x)) s m Hi) as [o Hf]. destruct (IH (mkState (cache s) (flush_spec (filename (snd x)) m (disk s)).1)) as (dk & o' & Hr & Hdk).
    { by apply inv_disk. }
    exists dk. eexists. split.
    { refine (for_each_Ok _ _ _ _ _ _ _ _ _ Hr). refine (bind_Ok _ _ _ _ _ _ _ _ [] Hf _). reflexivity. }
    intros n. rewrite (Hdk n), fmap_cons. cbn [disk compose]. unfold flush_all_spec at 1. rewrite lookup_merge, flush_spec_lookup.
    unfold flush_all_spec. rewrite lookup_merge. destruct (decide (n = filename (snd x))) as [->|Hn].
    + rewrite (decide_True (P := _ ∈ _ :: _)) by left. by destruct (m !! _), (disk s !! _) as [[]|]; case_decide.
    + rewrite (decide_ext (n ∈ _ :: _) (n ∈ (filename ∘ snd) <$> es)); [done|]. rewrite elem_of_cons. tauto.
Qed.

Lemma flush_all_ok s m :
  inv s m → ∃ o, flush_all_cached_files s = Ok (tt, mkState (cache s) (flush_all_spec m (disk s)), o).
Proof.
  intros Hi. destruct (flush_list_ok (concat (files (cache s))) s m Hi) as (dk & o & Hr & Hdk).
  assert (dk = flush_all_spec m (disk s)) as <-.
  { apply map_eq. intros n. rewrite Hdk. case_decide as Hn; [done|]. unfold flush_all_spec. rewrite lookup_merge.
    rewrite <- (elem_of_list_to_set (C := gset string)), <- (c_dom _ _ _ _ (i_core _ _ Hi)) in Hn. apply not_elem_of_dom in Hn. rewrite Hn.
    by destruct (disk s !! n). }
  eexists. unfold flush_all_cached_files. refine (bind_Ok _ _ _ _ _ [_] _ _ _ eq_refl _). refine (bind_Ok _ _ _ _ _ [] _ _ _ eq_refl _). exact Hr.
Qed.

Lemma prefetch_ok now names s m :
  inv s m → Forall (λ name, String.length name ≤ 255)%nat names →
  ∃ s' o, prefetch_files now names s = Ok (tt, s', o) ∧ disk s' = disk s ∧
    inv s' (foldl (λ m name, (read_spec (disk s) name m).1) m names).
Proof.
  unfold prefetch_files. intros Hi Hn. revert s m Hi. induction Hn as [|name names Hn _ IH]; intros s m Hi; cbn [foldl].
  { by exists s, []. }
  destruct (bucket_exists s m name Hi) as [l Hl]. destruct (find_file name l) as [[a c]|] eqn:Hf.
  - destruct (find_file_Some _ _ _ _ Hf) as (l1 & l2 & El & Hcn). destruct (bucket_find_Some s m name Hi l a c l1 l2 Hl El Hcn) as (_ & (content & Hm & _) & _).
    destruct (IH s m Hi) as (s' & o & Hr & Hd & Hi'). exists s'. eexists. split_and!; [|done|unfold read_spec at 2; rewrite Hm; done].
    refine (for_each_Ok _ _ _ _ _ [] _ _ _ Hr). frun (bucket_ok _ _ _ Hl). rewrite Hf. reflexivity.
  - destruct (read_ok now name s m Hi Hn) as (b & s1 & o1 & H1 & Hi1 & Hd1 & _). destruct (IH s1 _ Hi1) as (s' & o & Hr & Hd & Hi').
    exists s'. eexists. split_and!; [|congruence|by rewrite Hd1 in Hi'].
    refine (for_each_Ok _ _ _ _ _ _ _ _ _ Hr). frun (bucket_ok _ _ _ Hl). rewrite Hf. refine (bind_Ok _ _ _ _ _ [_] _ _ _ eq_refl _).
    refine (bind_Ok _ _ _ _ _ _ _ _ [] H1 _). reflexivity.
Qed.

(** *** Sequences of calls *)

Inductive op : Set :=
  | ORead (now : Z) (name : string) | OWrite (now : Z) (name : string) (bytes : list Ascii.ascii)
  | OFlush (name : string) | ORemove (name : string) | OFlushAll | OPrefetch (now : Z) (names : list string).

Definition op_names (o : op) : list string :=
  match o with
  | ORead _ name | OWrite _ name _ | OFlush name | ORemove name => [name]
  | OFlushAll => []
  | OPrefetch _ names => names
  end.

(** What the caller sees: the string at the pointer, a status, or nothing. *)
Inductive reply : Set := RText (text : option (list Ascii.ascii)) | RStatus (z : Z) | RDone.

(** The characters before the terminator. *)
Fixpoint until_nul (l : list Ascii.ascii) : list Ascii.ascii :=
  match l with
  | [] => []
  | c :: l => if Ascii.eqb c Ascii.zero then [] else c :: until_nul l
  end.

(** A caller reads the string at [char *]. *)
Fixpoint c_string (l : list (option Ascii.ascii)) : res (list Ascii.ascii) :=
  match l with
  | [] => UB OutOfBounds
  | None :: _ => UB Uninitialised
  | Some c :: l => if Ascii.eqb c Ascii.zero then Ok [] else t ← c_string l; Ok (c :: t)
  end.

Definition read_text (b : option nat) : C state reply :=
  match b with
  | None => mret (RText None)
  | Some _ => s ← get; '(_, x) ← lift (deref (buffer_pool (cache s)) b); t ← lift (c_string (data x)); mret (RText (Some t))
  end.

Definition run_op (o : op) : C state reply :=
  match o with
  | ORead now name => b ← read_file_cached now name; read_text b
  | OWrite now name bytes => z ← write_file_cached now name bytes; mret (RStatus z)
  | OFlush name => z ← flush_cached_file name; mret (RStatus z)
  | ORemove name => remove_cached_file (Lit name) ;; mret RDone
  | OFlushAll => flush_all_cached_files ;; mret RDone
  | OPrefetch now names => prefetch_files now names ;; mret RDone
  end.

Definition spec_op (o : op) (m : contents) (dk : gmap string file) : reply * contents * gmap string file :=
  match o with
  | ORead _ name => let r := read_spec dk name m in (RText (until_nul <$> r.2), r.1, dk)
  | OWrite _ name bytes => let r := write_spec name bytes m in (RStatus r.2, r.1, dk)
  | OFlush name => let r := flush_spec name m dk in (RStatus r.2, m, r.1)
  | ORemove name => (RDone, delete name m, dk)
  | OFlushAll => (RDone, m, flush_all_spec m dk)
  | OPrefetch _ names => (RDone, foldl (λ m name, (read_spec dk name m).1) m names, dk)
  end.

Fixpoint run_ops (l : list op) : C state (list reply) :=
  match l with
  | [] => mret []
  | o :: l => r ← run_op o; rs ← run_ops l; mret (r :: rs)
  end.

Fixpoint spec_ops (l : list op) (m : contents) (dk : gmap string file) : list reply * contents * gmap string file :=
  match l with
  | [] => ([], m, dk)
  | o :: l => let '(r, m, dk) := spec_op o m dk in let '(rs, m, dk) := spec_ops l m dk in (r :: rs, m, dk)
  end.

Lemma c_string_ok content l :
  take (length content) l = Some <$> content → l !! length content = Some (Some Ascii.zero) → c_string l = Ok (until_nul content).
Proof.
  revert l. induction content as [|c content IH]; intros [|x l] Ht Hz; simplify_eq/=; [done|].
  destruct (Ascii.eqb c Ascii.zero); [done|]. by rewrite (IH l).
Qed.

Lemma read_text_ok s b content : returned s b content → read_text b s = Ok (RText (until_nul <$> content), s, []).
Proof.
  destruct content as [content|]; [|by intros ->]. intros (i & -> & x & Hx & Ht & Hz). unfold read_text.
  refine (bind_Ok _ _ _ _ _ [] _ _ [] eq_refl _). refine (bind_Ok _ _ _ _ _ [] _ _ [] (lift_Ok _ _ (i, x) _) _); [simpl; by rewrite Hx|].
  cbv iota beta. by refine (bind_Ok _ _ _ _ _ [] _ _ [] (lift_Ok _ _ _ (c_string_ok _ _ Ht Hz)) _).
Qed.

Lemma run_op_ok o s m :
  inv s m → Forall (λ name, String.length name ≤ 255)%nat (op_names o) →
  ∃ r s' out m', run_op o s = Ok (r, s', out) ∧ inv s' m' ∧ spec_op o m (disk s) = (r, m', disk s').
Proof.
  intros Hi Hn. destruct o as [now name|now name bytes|name|name| |now names]; cbn [op_names] in Hn; unfold run_op, spec_op.
  - apply Forall_cons in Hn as [Hn _]. destruct (read_ok now name s m Hi Hn) as (b & s' & o & Hr & Hi' & Hd & Hb).
    eexists _, s', _, _. split_and!; [exact (bind_Ok _ _ _ _ _ _ _ _ [] Hr (read_text_ok _ _ _ Hb))|done|by rewrite Hd].
  - apply Forall_cons in Hn as [Hn _]. destruct (file_write_ok now name bytes s m Hi Hn) as (s' & o & Hr & Hi' & Hd).
    eexists _, s', _, _. split_and!; [exact (bind_Ok _ _ _ _ _ _ _ _ [] Hr eq_refl)|done|by rewrite Hd].
  - destruct (flush_ok name s m Hi) as [o Hr]. eexists _, _, _, m.
    split_and!; [exact (bind_Ok _ _ _ _ _ _ _ _ [] Hr eq_refl)|by apply inv_disk|done].
  - destruct (file_remove_ok name s m Hi) as (s' & o & Hr & Hi' & Hd).
    eexists _, s', _, _. split_and!; [exact (bind_Ok _ _ _ _ _ _ _ _ [] Hr eq_refl)|done|by rewrite Hd].
  - destruct (flush_all_ok s m Hi) as [o Hr]. eexists _, _, _, m.
    split_and!; [exact (bind_Ok _ _ _ _ _ _ _ _ [] Hr eq_refl)|by apply inv_disk|done].
  - destruct (prefetch_ok now names s m Hi Hn) as (s' & o & Hr & Hd & Hi').
    eexists _, s', _, _. split_and!; [exact (bind_Ok _ _ _ _ _ _ _ _ [] Hr eq_refl)|done|by rewrite Hd].
Qed.

Lemma run_ops_ok ops s m :
  inv s m → Forall (λ o, Forall (λ name, String.length name ≤ 255)%nat (op_names o)) ops →
  ∃ rs s' out m', run_ops ops s = Ok (rs, s', out) ∧ inv s' m' ∧ spec_ops ops m (disk s) = (rs, m', disk s').
Proof.
  intros Hi Hn. revert s m Hi. induction Hn as [|o ops Ho _ IH]; intros s m Hi; cbn [run_ops spec_ops].
  - by eexists [], s, [], m.
  - destruct (run_op_ok o s m Hi Ho) as (r & s1 & out & m1 & H1 & Hi1 & E1). destruct (IH s1 m1 Hi1) as (rs & s2 & out2 & m2 & H2 & Hi2 & E2).
    eexists _, s2, _, m2. split_and!; [|done|by rewrite E1, E2].
    refine (bind_Ok _ _ _ _ _ _ _ _ _ H1 _). exact (bind_Ok _ _ _ _ _ _ _ _ [] H2 eq_refl).
Qed.

Lemma cache_create_inv dk : inv (mkState create_file_cache dk) ∅.
Proof.
  constructor; [constructor| | |]; cbn -[BUFFER_SIZE seq replicate]; try done.
  - apply NoDup_nil_2.
  - apply NoDup_nil_2.
  - intros i b Hb. apply list_lookup_fmap_Some in Hb as (j & -> & Hj). apply lookup_seq in Hj as [-> Hj]. cbn [is_free].
    symmetry. apply bool_decide_eq_true. apply elem_of_seq. lia.
  - intros i b Hb. apply list_lookup_fmap_Some in Hb as (j & -> & Hj). apply length_replicate.
  - intros x Hx. by apply elem_of_nil in Hx.
  - intros i l x Hl Hx. apply lookup_replicate in Hl as [-> _]. by apply elem_of_nil in Hx.
Qed.

(** *** Eviction *)

Lemma bubble_perm n l x : bubble x l n ≡ₚ x :: l.
Proof.
  revert x l. induction n as [|n IH]; intros x [|y l]; simpl; [done..|]. destruct (_ >? _); rewrite IH; [constructor|done].
Qed.

Lemma bubble_sort_perm n l : bubble_sort n l ≡ₚ l.
Proof. revert l. induction n as [|n IH]; intros [|x l]; simpl; [done..|]. by rewrite IH, bubble_perm. Qed.

(** Names identify entries. *)
Lemma same_name s m x y :
  inv s m → x ∈ concat (files (cache s)) → y ∈ concat (files (cache s)) → filename (snd x) = filename (snd y) → x = y.
Proof.
  intros Hi Hx Hy Hn. apply list_elem_of_lookup in Hx as [i Hx]. apply list_elem_of_lookup in Hy as [j Hy].
  pose proof (c_names _ _ _ _ (i_core _ _ Hi)) as Hnd. assert (i = j) as <-; [|congruence].
  apply (NoDup_lookup _ _ _ (filename (snd x)) Hnd); rewrite list_lookup_fmap; [by rewrite Hx|rewrite Hy; simpl; congruence].
Qed.

(** The name is read once more when the entry is gone. *)
Lemma remove_by_entry s m p c :
  inv s m → (p, c) ∈ concat (files (cache s)) → remove_cached_file (Of p) s = UB UseAfterFree.
Proof.
  intros Hi Hin. pose proof (c_addr _ _ _ _ (i_core _ _ Hi)) as Hnd.
  destruct (c_map _ _ _ _ (i_core _ _ Hi) (p, c) Hin) as (content & Hm & _). cbn [snd] in Hm.
  destruct (cached s m _ content Hi Hm) as (l & a & c' & l1 & l2 & i & Hl & Hf & El & Hcn & Hc & Hs & Hb & Hh & Ha1 & Ha2).
  assert ((a, c') = (p, c)) as [= -> ->].
  { apply (same_name s m _ _ Hi); [|done|done]. rewrite (concat_bucket _ _ _ Hl), El. apply elem_of_app. left. apply elem_of_app. right. left. }
  destruct (release_ok _ _ _ _ (take_out _ _ _ _ _ _ Hc Hb)) as (p' & o & Hr & _).
  assert (read_name (Of p) s = Ok (filename c, s, [])) as Hrn.
  { unfold read_name. refine (bind_Ok _ _ _ _ _ [] _ _ [] eq_refl _). destruct (list_find _ _) as [[j [q cq]]|] eqn:E.
    - apply list_find_Some in E as (Hj & Hq & _). simpl in Hq. subst q. apply list_elem_of_lookup_2 in Hj.
      apply list_elem_of_lookup in Hin as [k Hk]. apply list_elem_of_lookup in Hj as [k' Hk'].
      assert (k = k') as <- by (apply (NoDup_lookup _ _ _ p Hnd); rewrite list_lookup_fmap; [by rewrite Hk|by rewrite Hk']).
      rewrite Hk in Hk'. by injection Hk' as <-.
    - apply list_find_None in E. rewrite Forall_forall in E. by apply E in Hin. }
  unfold remove_cached_file. refine (bind_UB _ _ _ _ _ _ _ Hrn _). refine (bind_UB _ _ _ _ _ _ _ (bucket_ok _ _ _ Hl) _). rewrite Hf, Hb.
  refine (bind_UB _ _ _ _ _ [] _ eq_refl _). refine (bind_UB _ _ _ _ _ _ _ (on_pool_at _ _ _ _ _ _ _ _ _ Hr) _).
  refine (bind_UB _ _ _ _ _ [] _ eq_refl _). apply bind_fails. unfold read_name. refine (bind_UB _ _ _ _ _ [] _ eq_refl _). cbn [cache files].
  destruct (list_find _ _) as [[j [q cq]]|] eqn:E; [|done]. exfalso. apply list_find_Some in E as (Hj & Hq & _). simpl in Hq. subst q.
  apply list_elem_of_lookup_2 in Hj. rewrite (concat_set_bucket _ _ _ _ Hl), elem_of_app in Hj. destruct Hj as [Hj|Hj].
  - by apply list_elem_of_filter in Hj as [Hj _].
  - pose proof (c_addr _ _ _ _ Hc) as Hna. rewrite fmap_cons in Hna. apply NoDup_cons in Hna as [Hna _]. apply Hna.
    apply list_elem_of_fmap. exists (p, cq). split; [done|]. rewrite !elem_of_app. tauto.
Qed.

Lemma file_evict_ok max_files s m :
  inv s m →
  evict_lru_files max_files s =
    if Z.of_nat (base.size m) <=? max_files then Ok (tt, s, [])
    else UB (if decide (base.size m = 0%nat) then OutOfBounds else UseAfterFree).
Proof.
  intros Hi. pose proof (core_size _ _ _ (i_core _ _ Hi)) as [_ Hsz]. pose proof (i_count _ _ Hi) as Hcount. rewrite Hsz in Hcount.
  unfold evict_lru_files. destruct (Z.leb_spec (Z.of_nat (base.size m)) max_files) as [Hle|Hlt].
  { refine (bind_Ok _ _ _ _ _ [] _ _ [] eq_refl _). rewrite Hcount. by destruct (Z.leb_spec (Z.of_nat (base.size m)) max_files); [|lia]. }
  refine (bind_UB _ _ _ _ _ [] _ eq_refl _). rewrite Hcount. destruct (Z.leb_spec (Z.of_nat (base.size m)) max_files) as [?|_]; [lia|].
  set (fs := bubble_sort _ _).
  assert (fs ≡ₚ (λ x : entry, (fst x, last_accessed (snd x))) <$> concat (files (cache s))) as Hp by apply bubble_sort_perm.
  destruct (Z.to_nat (Z.of_nat (base.size m) - max_files)) as [|n] eqn:En; [lia|]. apply bind_fails. cbn [seq for_each]. apply bind_fails.
  case_decide as Hz.
  - apply bind_fails. rewrite Hz in Hsz. apply nil_length_inv in Hsz. rewrite Hsz in Hp. apply Permutation_nil_r in Hp. by rewrite Hp.
  - destruct fs as [|[p z] fs'] eqn:Ef.
    { apply Permutation_nil_l in Hp. symmetry in Hp. apply fmap_nil_inv in Hp. rewrite Hp in Hsz. done. }
    assert ((p, z) ∈ (λ x : entry, (fst x, last_accessed (snd x))) <$> concat (files (cache s))) as Hin by (rewrite <- Hp; left).
    apply list_elem_of_fmap in Hin as ([p' c] & [= -> ->] & Hin).
    refine (bind_UB _ _ _ _ _ [] _ eq_refl _). exact (remove_by_entry s m p' c Hi Hin).
Qed.

End CacheSpec.

(** The program itself stops at its statistics: the counters have no value. *)
Lemma main_stats_unset : FileCache.main 0 (FileCache.mkState FileCache.create_file_cache ∅) = UB Uninitialised.
Proof. vm_compute. reflexivity. Qed.

(** ** Theorems *)
Section Theorems.
Import FileCache CacheSpec.

(** C18: any sequence of reads, writes, flushes, removals, prefetches and
    flushes of everything, on a new cache and any disk, runs without undefined
    behaviour and does what the map from names to contents does: a cached name
    is answered from the map, another one is loaded from the disk (its first 4095
    bytes) unless ten files are cached, in which case reads return [NULL] and
    writes -1; flushing puts the contents of the map on the disk.  The caller of
    a read sees the contents up to the first NUL. *)
Theorem file_cache_refines (ops : list op) (dk : gmap string file) :
  Forall (λ o, Forall (λ name, String.length name ≤ 255)%nat (op_names o)) ops →
  ∃ replies s m out,
    run_ops ops (mkState create_file_cache dk) = Ok (replies, s, out) ∧
    spec_ops ops ∅ dk = (replies, m, disk s) ∧ inv s m.
Proof.
  intros Hn. destruct (run_ops_ok ops _ ∅ (cache_create_inv dk) Hn) as (rs & s & out & m & Hr & Hi & Hs). by exists rs, s, m, out.
Qed.

Lemma file_cache_refines_witness :
  ∃ replies s m out,
    run_ops [OWrite 1 "a" (String.list_ascii_of_string "x"); OFlushAll; ORead 2 "b"]
      (mkState create_file_cache {[ "b" := Data [] ]}) = Ok (replies, s, out) ∧
    spec_ops [OWrite 1 "a" (String.list_ascii_of_string "x"); OFlushAll; ORead 2 "b"] ∅ {[ "b" := Data [] ]} = (replies, m, disk s) ∧ inv s m.
Proof. apply file_cache_refines. repeat (constructor; [repeat constructor|]). constructor. Defined.

(** What is written to the cache, flushed, removed and read again comes
    back from the disk (as a string: up to its first NUL), for every text that
    fits a buffer and every name that is not a directory. *)
Theorem write_flush_read (t1 t2 : Z) (name : string) (bytes : list Ascii.ascii) (dk : gmap string file) :
  (String.length name ≤ 255)%nat → (length bytes < BufferPool.BUFFER_SIZE)%nat → dk !! name ≠ Some Dir →
  ∃ s out,
    run_ops [OWrite t1 name bytes; OFlush name; ORemove name; ORead t2 name] (mkState create_file_cache dk) =
      Ok ([RStatus 0; RStatus 0; RDone; RText (Some (until_nul bytes))], s, out) ∧
    disk s = <[name := Data bytes]> dk.
Proof.
  intros Hn Hb Hd. destruct (run_ops_ok [OWrite t1 name bytes; OFlush name; ORemove name; ORead t2 name] _ ∅ (cache_create_inv dk))
    as (rs & s & out & m & Hr & _ & Hs); [by rewrite !Forall_cons, Forall_nil; cbn [op_names]; rewrite !Forall_cons, Forall_nil|].
  cbn [spec_ops spec_op disk] in Hs. unfold write_spec in Hs. rewrite decide_True in Hs by done.
  rewrite decide_False in Hs by (rewrite map_size_empty; lia). cbn [fst snd] in Hs. unfold flush_spec in Hs. rewrite lookup_insert_eq in Hs.
  assert (take (BufferPool.BUFFER_SIZE - 1) bytes = bytes) as Ht by (apply take_ge; unfold BufferPool.BUFFER_SIZE in *; lia).
  destruct (dk !! name) as [[old|]|] eqn:E; [|done|]; cbn [fst snd] in Hs; unfold read_spec in Hs;
    rewrite lookup_delete_eq, delete_insert_id, decide_False in Hs by (rewrite ?map_size_empty; done);
    rewrite lookup_insert_eq, Ht in Hs; cbn [fst snd fmap option_fmap option_map] in Hs; injection Hs as <- _ Hdk; by exists s, out.
Qed.

Lemma write_flush_read_witness :
  ∃ s out,
    run_ops [OWrite 1 "f" (String.list_ascii_of_string "text"); OFlush "f"; ORemove "f"; ORead 2 "f"] (mkState create_file_cache ∅) =
      Ok ([RStatus 0; RStatus 0; RDone; RText (Some (until_nul (String.list_ascii_of_string "text")))], s, out) ∧
    disk s = <[ "f" := Data (String.list_ascii_of_string "text") ]> ∅.
Proof. apply write_flush_read; [simpl; lia|simpl; unfold BufferPool.BUFFER_SIZE; lia|done]. Defined.

(** Whenever there are more files than [max_files], [evict_lru_files]
    reads the name of an entry it has just freed (or, with no file cached and a
    negative bound, reads outside its array); otherwise it does nothing. *)
Theorem evict_uses_freed (max_files : Z) (ops : list op) (dk : gmap string file) s out replies :
  Forall (λ o, Forall (λ name, String.length name ≤ 255)%nat (op_names o)) ops →
  run_ops ops (mkState create_file_cache dk) = Ok (replies, s, out) →
  evict_lru_files max_files s =
    let n := base.size (snd (fst (spec_ops ops ∅ dk))) in
    if Z.of_nat n <=? max_files then Ok (tt, s, []) else UB (if decide (n = 0%nat) then OutOfBounds else UseAfterFree).
Proof.
  intros Hn Hrun. destruct (run_ops_ok ops _ ∅ (cache_create_inv dk) Hn) as (rs & s' & out' & m & Hr & Hi & Hs).
  rewrite Hr in Hrun. injection Hrun as <- <- <-. cbn [disk] in Hs. rewrite Hs. by apply file_evict_ok.
Qed.

Lemma evict_uses_freed_witness :
  ∃ replies s out, run_ops [OWrite 1 "a" []] (mkState create_file_cache ∅) = Ok (replies, s, out) ∧ evict_lru_files 0 s = UB UseAfterFree.
Proof.
  assert (Forall (λ o, Forall (λ name, String.length name ≤ 255)%nat (op_names o)) [OWrite 1 "a" []]) as Hn by repeat constructor.
  destruct (run_ops_ok [OWrite 1 "a" []] _ ∅ (cache_create_inv ∅) Hn) as (rs & s & out & m & Hr & _).
  exists rs, s, out. split; [exact Hr|]. exact (evict_uses_freed 0 _ ∅ s out rs Hn Hr).
Defined.

End Theorems.
