(* ===== verification/LockingTxn.v ===== *)
(** * Locking transactions: [concurrency-and-multithreading/deadlock_mutex_txn.c]

    Transactions buffer their writes and lock the keys they write; a
    transaction that has to wait looks for a cycle among those that wait and
    aborts the youngest of it.  [LockTxn] is the key table, the transactions,
    the search and the functions of the lock protocol, each as the code runs it
    when no other thread interferes; [Calls] runs such calls of several
    transactions one after another, a call being left only where it sleeps in
    [pthread_cond_wait].  These are some of the runs of the program, not all:
    calls that overlap, access by access, are the subject of [LockingRaces].
    [DetectSpec] is about the search, [LockSpec] about the locks. *)
From stdpp Require Import base list gmap strings relations.
From Stdlib Require Import ZArith Lia.
From Stdlib Require Ascii String.
From S2P Require Import Prelude WaitForGraph.

Module LockTxn.

Definition MAX_KEYS : nat := 128.
Definition MAX_KEY_LEN : nat := 64.
Definition MAX_VALUE_LEN : nat := 256.
Definition MAX_TXNS : nat := 256.

(** [versions] is never used; [lock.mtx] is [locked] below. *)
Record KeyEntry : Set := mkEntry { key : string; value : string; owner_txn : nat; used : bool }.

Inductive txn_status : Set := TXN_ACTIVE | TXN_ABORTED | TXN_COMMITTED.

#[export] Instance txn_status_eq_dec : EqDecision txn_status.
Proof. solve_decision. Defined.

Record Transaction : Set := mkTxn {
  id : nat;
  start_ts : Z;
  status : txn_status;
  writes : list (nat * string);
  held_keys : list bool
}.

(** [locked] is the key whose mutex the running thread holds; locking it again
    never returns. *)
Record state : Set := mkState {
  store : list KeyEntry;
  txns : list (option Transaction);
  global_ts : Z;
  next_txn_id : nat;
  wait_for : list (list bool);
  locked : option nat
}.

Definition empty_entry : KeyEntry := mkEntry "" "" 0 false.

Definition init : state :=
  mkState (replicate MAX_KEYS empty_entry) (replicate MAX_TXNS None) 1 1
    (replicate MAX_TXNS (replicate MAX_TXNS false)) None.

Definition set_store (st : list KeyEntry) (s : state) : state :=
  mkState st (txns s) (global_ts s) (next_txn_id s) (wait_for s) (locked s).
Definition set_txns (ts : list (option Transaction)) (s : state) : state :=
  mkState (store s) ts (global_ts s) (next_txn_id s) (wait_for s) (locked s).
Definition set_wait_for (w : list (list bool)) (s : state) : state :=
  mkState (store s) (txns s) (global_ts s) (next_txn_id s) w (locked s).
Definition set_locked (l : option nat) (s : state) : state :=
  mkState (store s) (txns s) (global_ts s) (next_txn_id s) (wait_for s) l.

(** *** Keys *)

Definition hash_key (k : string) : nat :=
  Z.to_nat (foldl (λ h c, (h * 32 + h + Z.of_nat (Ascii.nat_of_ascii c)) mod 2 ^ 64) 5381 (String.list_ascii_of_string k)
            mod Z.of_nat MAX_KEYS)%Z.

(** [strncpy] of at most [n - 1] characters and the terminator. *)
Definition clip (n : nat) (s : string) : string := String.string_of_list_ascii (take (n - 1) (String.list_ascii_of_string s)).

(** [strncmp(a, b, n) == 0]. *)
Definition same_prefix (n : nat) (a b : string) : bool :=
  bool_decide (take n (String.list_ascii_of_string a) = take n (String.list_ascii_of_string b)).

(** The [while (1)] of [get_or_create_key] over the slots still to be tried;
    [None] is [exit(1)]. *)
Fixpoint probe (k : string) (idx : nat) (slots : nat) : C state (option nat) :=
  match slots with
  | O => printf ("Key store full" +:+ nl) ;; mret None
  | S slots =>
      s ← get;
      e ← lift (aget (store s) (Z.of_nat idx));
      if negb (used e) then
        put (set_store (<[idx := mkEntry (clip MAX_KEY_LEN k) "" 0 true]> (store s)) s) ;; mret (Some idx)
      else if same_prefix MAX_KEY_LEN (key e) k then mret (Some idx)
      else probe k ((idx + 1) mod MAX_KEYS) slots
  end.

Definition get_or_create_key (k : string) : C state (option nat) := probe k (hash_key k) MAX_KEYS.

(** *** Transactions *)

Definition create_txn : C state (option nat) :=
  s ← get;
  if MAX_TXNS <=? next_txn_id s then mret None
  else
    let i := next_txn_id s in
    let t := mkTxn i (global_ts s) TXN_ACTIVE [] (replicate MAX_KEYS false) in
    put (mkState (store s) (<[i := Some t]> (txns s)) ((global_ts s + 1) mod 2 ^ 64) (i + 1) (wait_for s) (locked s)) ;;
    mret (Some i).

Definition get_txn (i : nat) (s : state) : option Transaction :=
  if (i =? 0) || (MAX_TXNS <=? i) then None else default None (txns s !! i).

(** [t->...] for the transaction with number [i]. *)
Definition txn (i : nat) : C state Transaction :=
  s ← get; match txns s !! i with Some (Some t) => mret t | _ => lift (UB NullDeref) end.

Definition update_txn (i : nat) (f : Transaction → Transaction) : C state unit :=
  t ← txn i; modify (λ s, set_txns (<[i := Some (f t)]> (txns s)) s).

Definition set_status (x : txn_status) (t : Transaction) : Transaction := mkTxn (id t) (start_ts t) x (writes t) (held_keys t).
Definition set_writes (w : list (nat * string)) (t : Transaction) : Transaction := mkTxn (id t) (start_ts t) (status t) w (held_keys t).
Definition set_held (i : nat) (b : bool) (t : Transaction) : Transaction :=
  mkTxn (id t) (start_ts t) (status t) (writes t) (<[i := b]> (held_keys t)).

(** *** The wait-for graph *)

(** Indices are transaction numbers, below [MAX_TXNS]. *)
Definition waits (w : list (list bool)) (u v : nat) : bool := Wfg.waits w u v.
Definition set_edge (u v : nat) (b : bool) (w : list (list bool)) : list (list bool) := alter (λ r, <[v := b]> r) u w.

Definition add_wait_edge (waiter owner : nat) (w : list (list bool)) : list (list bool) :=
  if (waiter =? 0) || (owner =? 0) then w else set_edge waiter owner true w.

Definition remove_wait_edge (waiter owner : nat) (w : list (list bool)) : list (list bool) :=
  if (waiter =? 0) || (owner =? 0) then w else set_edge waiter owner false w.

(** The locals of [detect_cycle_and_pick_victim]: [stack] pairs [st_stack] with
    [edge_idx], the top first; [path] is [path[0..path_len)].  [cycle_nodes]
    and the outer [stack] are never read. *)
Record search : Set := mkSearch {
  visited : list bool;
  recstack : list bool;
  stack : list (nat * nat);
  path : list nat;
  winner_victim : option nat;
  cycle_found : bool
}.

Definition ts_of (ts : list (option Transaction)) (i : nat) : option Z := start_ts <$> default None (ts !! i).

(** The loop over [j]: the node with the largest time stamp, the first of equals. *)
Definition pick (ts : list (option Transaction)) (nodes : list nat) : option (nat * Z) :=
  foldl (λ picked x,
    match ts_of ts x with
    | None => picked
    | Some t =>
        match picked with
        | None => Some (x, t)
        | Some (_, picked_ts) => if (t >? picked_ts)%Z then Some (x, t) else picked
        end
    end) None nodes.

(** The loop over [k]: the part of the path from [u] on. *)
Fixpoint from_node (u : nat) (p : list nat) : list nat :=
  match p with
  | [] => []
  | x :: r => if x =? u then p else from_node u r
  end.

(** An edge from [v] back to [u]. *)
Definition back_edge (ts : list (option Transaction)) (v u : nat) (s : search) : res search :=
  let picked_victim :=
    match pick ts (from_node u (path s)) with
    | Some (x, _) => Some x
    | None => match ts_of ts v with Some _ => Some v | None => None end
    end in
  match picked_victim with
  | None => Ok s
  | Some x =>
      w ← match winner_victim s with
          | None => Ok x
          | Some w =>
              match ts_of ts x, ts_of ts w with
              | Some tx, Some tw => Ok (if (tx >? tw)%Z then x else w)
              | _, _ => UB NullDeref
              end
          end;
      Ok (mkSearch (visited s) (recstack s) (stack s) (path s) (Some w) true)
  end.

(** The loop over [u]; [Some u] is [found_next]. *)
Fixpoint scan (ts : list (option Transaction)) (w : list (list bool)) (v : nat) (us : list nat) (s : search)
    : res (option nat * search) :=
  match us with
  | [] => Ok (None, s)
  | u :: us =>
      if waits w v u then
        if negb (Wfg.marked (visited s) u) then Ok (Some u, s)
        else if Wfg.marked (recstack s) u then s ← back_edge ts v u s; scan ts w v us s
        else scan ts w v us s
      else scan ts w v us s
  end.

(** [if (!visited[v])]. *)
Definition enter (v : nat) (s : search) : res search :=
  if negb (Wfg.marked (visited s) v) then
    if MAX_TXNS <=? length (path s) then UB OutOfBounds
    else Ok (mkSearch (<[v := true]> (visited s)) (<[v := true]> (recstack s)) (stack s) (path s ++ [v]) (winner_victim s) (cycle_found s))
  else Ok s.

(** [while (sp > 0)]. *)
Fixpoint walk (fuel : nat) (ts : list (option Transaction)) (w : list (list bool)) (n : nat) (s : search) : res search :=
  match stack s with
  | [] => Ok s
  | (v, e) :: rest =>
      match fuel with
      | O => UB OutOfFuel
      | S fuel =>
          s ← enter v s;
          '(next, s) ← scan ts w v (seq e (n - e)) s;
          match next with
          | Some u =>
              if MAX_TXNS <=? length (stack s) then UB OutOfBounds
              else walk fuel ts w n
                     (mkSearch (visited s) (recstack s) ((u, 0) :: (v, u + 1) :: rest) (path s) (winner_victim s) (cycle_found s))
          | None =>
              walk fuel ts w n
                (mkSearch (visited s) (<[v := false]> (recstack s)) rest (removelast (path s)) (winner_victim s) (cycle_found s))
          end
      end
  end.

(** Every round of the [while] loop pushes a node that was not visited or pops one. *)
Definition walk_fuel : nat := 2 * MAX_TXNS.

Fixpoint search_from (ts : list (option Transaction)) (w : list (list bool)) (n : nat) (starts : list nat) (s : search) : res search :=
  match starts with
  | [] => Ok s
  | x :: starts =>
      match default None (ts !! x) with
      | None => search_from ts w n starts s
      | Some _ =>
          if Wfg.marked (visited s) x then search_from ts w n starts s
          else
            s ← walk walk_fuel ts w n (mkSearch (visited s) (recstack s) [(x, 0)] (path s) (winner_victim s) (cycle_found s));
            search_from ts w n starts s
      end
  end.

(** [Some victim] is a return value of 1. *)
Definition detect_cycle_and_pick_victim (s : state) : res (option nat) :=
  let n := next_txn_id s in
  r ← search_from (txns s) (wait_for s) n (seq 1 (n - 1))
        (mkSearch (replicate MAX_TXNS false) (replicate MAX_TXNS false) [] [] None false);
  Ok (if cycle_found r then winner_victim r else None).

(** *** Locks *)

Definition entry_at (i : nat) : C state KeyEntry := s ← get; lift (aget (store s) (Z.of_nat i)).

Definition set_owner (i t : nat) : C state unit :=
  e ← entry_at i; modify (λ s, set_store (<[i := mkEntry (key e) (value e) t (used e)]> (store s)) s).

(** [pthread_mutex_lock(&lk->mtx)] by a thread that may hold one already. *)
Definition lock_key (i : nat) : C state unit :=
  s ← get; if bool_decide (locked s = Some i) then lift (UB SelfDeadlock) else mret tt.

(** The body of the loop of [release_all_locks].  Wakes are not recorded: a
    thread in [pthread_cond_wait] may run at any time. *)
Definition release_body (t i : nat) : C state unit :=
  x ← txn t;
  held ← lift (aget (held_keys x) (Z.of_nat i));
  if held : bool then
    lock_key i ;;
    e ← entry_at i;
    (if owner_txn e =? id x then set_owner i 0 else mret tt) ;;
    update_txn t (set_held i false)
  else mret tt.

Definition release_all_locks (t : nat) : C state unit := for_each (release_body t) (seq 0 MAX_KEYS).

(** Row and column of [t] in the graph. *)
Definition clear_edges (t n : nat) (w : list (list bool)) : list (list bool) :=
  let w := foldl (λ w i, set_edge i t false w) w (seq 1 (n - 1)) in
  foldl (λ w j, set_edge t j false w) w (seq 1 (n - 1)).

Definition abort_txn (t : nat) : C state unit :=
  x ← txn t;
  if bool_decide (status x ≠ TXN_ACTIVE) then mret tt
  else
    update_txn t (set_status TXN_ABORTED) ;;
    modify (λ s, set_wait_for (clear_edges t (next_txn_id s) (wait_for s)) s) ;;
    update_txn t (set_writes []) ;;
    release_all_locks t ;;
    printf ("[TXN " +:+ d (Z.of_nat t) +:+ "] Aborted (victim or explicit)." +:+ nl).

(** How a call of [acquire_key_lock] goes on: it returns 0 or -1, or sleeps
    with [owner] in its local variable. *)
Inductive outcome : Set := Acquired | Refused | Waits (owner : nat).

(** The key is owned by another transaction; [again] is [continue]. *)
Definition contend (again : C state outcome) (t : nat) (x : Transaction) (owner : nat) : C state outcome :=
  modify (λ s, set_wait_for (add_wait_edge (id x) owner (wait_for s)) s) ;;
  s ← get;
  victim ← lift (detect_cycle_and_pick_victim s);
  match victim with
  | None => modify (set_locked None) ;; mret (Waits owner)
  | Some v =>
      if v =? id x then
        modify (λ s, set_wait_for (remove_wait_edge (id x) owner (wait_for s)) s) ;;
        modify (set_locked None) ;;
        abort_txn t ;; mret Refused
      else
        match get_txn v s with
        | Some _ =>
            printf ("[DEADLOCK] Cycle detected. Aborting victim txn " +:+ d (Z.of_nat v) +:+ " (youngest in cycle)" +:+ nl) ;;
            abort_txn v ;;
            modify (λ s, set_wait_for (remove_wait_edge (id x) owner (wait_for s)) s) ;;
            again
        | None => modify (set_locked None) ;; mret (Waits owner)
        end
  end.

Fixpoint acquire_key_lock (fuel : nat) (t key_idx : nat) : C state outcome :=
  match fuel with
  | O => lift (UB OutOfFuel)
  | S fuel =>
      modify (set_locked (Some key_idx)) ;;
      x ← txn t;
      if bool_decide (status x ≠ TXN_ACTIVE) then modify (set_locked None) ;; mret Refused
      else
        e ← entry_at key_idx;
        if owner_txn e =? 0 then
          set_owner key_idx (id x) ;; update_txn t (set_held key_idx true) ;;
          modify (set_locked None) ;; mret Acquired
        else if owner_txn e =? id x then modify (set_locked None) ;; mret Acquired
        else contend (acquire_key_lock fuel t key_idx) t x (owner_txn e)
  end.

(** Each round but the last aborts a transaction. *)
Definition acquire_fuel : nat := S MAX_TXNS.

(** [pthread_cond_wait] returns: the inner [while] is tested again. *)
Definition woken (t key_idx owner : nat) : C state outcome :=
  x ← txn t;
  e ← entry_at key_idx;
  if negb (owner_txn e =? 0) && negb (owner_txn e =? id x) && bool_decide (status x = TXN_ACTIVE) then mret (Waits owner)
  else
    modify (λ s, set_wait_for (remove_wait_edge (id x) owner (wait_for s)) s) ;;
    acquire_key_lock acquire_fuel t key_idx.

Definition release_key_lock (t key_idx : nat) : C state unit :=
  x ← txn t;
  lock_key key_idx ;;
  e ← entry_at key_idx;
  (if owner_txn e =? id x then set_owner key_idx 0 else mret tt) ;;
  update_txn t (set_held key_idx false).

(** *** Reads, writes, commit *)

Definition find_local_write (key_idx : nat) (l : list (nat * string)) : option string :=
  snd <$> (snd <$> list_find (λ w : nat * string, fst w = key_idx) l).

(** [None] is [NULL] or, when the table is full, the end of the program. *)
Definition txn_read (t : nat) (k : string) : C state (option string) :=
  x ← txn t;
  if bool_decide (status x ≠ TXN_ACTIVE) then mret None
  else
    idx ← get_or_create_key k;
    match idx with
    | None => mret None
    | Some idx =>
        x ← txn t;
        match find_local_write idx (writes x) with
        | Some v => mret (Some v)
        | None => e ← entry_at idx; mret (Some (clip MAX_VALUE_LEN (value e)))
        end
    end.

(** The part of [txn_write] after the lock. *)
Definition local_write (idx : nat) (v : string) (l : list (nat * string)) : list (nat * string) :=
  match list_find (λ w : nat * string, fst w = idx) l with
  | Some (i, _) => <[i := (idx, clip MAX_VALUE_LEN v)]> l
  | None => (idx, clip MAX_VALUE_LEN v) :: l
  end.

Definition store_writes (l : list (nat * string)) : C state unit :=
  for_each (λ w : nat * string,
    e ← entry_at (fst w);
    modify (λ s, set_store (<[fst w := mkEntry (key e) (clip MAX_VALUE_LEN (snd w)) (owner_txn e) (used e)]> (store s)) s)) l.

Definition txn_commit (t : nat) : C state Z :=
  x ← txn t;
  if bool_decide (status x ≠ TXN_ACTIVE) then mret (-1)%Z
  else
    store_writes (writes x) ;;
    update_txn t (set_writes []) ;;
    release_all_locks t ;;
    update_txn t (set_status TXN_COMMITTED) ;;
    printf ("[TXN " +:+ d (Z.of_nat t) +:+ "] Committed." +:+ nl) ;;
    mret 0%Z.

Definition txn_explicit_abort (t : nat) : C state unit := abort_txn t.

End LockTxn.

(** ** Calls one after another

    A transaction is created, writes some keys and commits.  The calls of
    several transactions follow each other in any order and do not overlap: a
    call runs until it returns or sleeps in [pthread_cond_wait].  The program's
    own timing, with its [sleep] and [usleep], gives such runs. *)
Module Calls.
Import LockTxn.

(** Before [create_txn]; with the writes still to be done; asleep in
    [acquire_key_lock] for the first of them; returned. *)
Inductive pc : Set :=
  | Start (about : string) (todo : list (string * string))
  | Running (t : nat) (todo : list (string * string))
  | Asleep (t key_idx owner : nat) (k v : string) (todo : list (string * string))
  | Returned.

Record system : Set := mkSystem { shared : state; threads : list pc }.

(** [txn_write] returned -1. *)
Definition refused_write (t : nat) (k : string) : C state pc :=
  printf ("[TXN " +:+ d (Z.of_nat t) +:+ "] Aborted while writing " +:+ k +:+ nl) ;; mret Returned.

(** What follows the return of [acquire_key_lock] in [txn_write] and in the thread. *)
Definition after_acquire (t idx : nat) (k v : string) (todo : list (string * string)) (o : outcome) : C state pc :=
  match o with
  | Acquired => update_txn t (λ x, set_writes (local_write idx v (writes x)) x) ;; mret (Running t todo)
  | Refused => refused_write t k
  | Waits owner => mret (Asleep t idx owner k v todo)
  end.

(** [None] is the end of the program in [get_or_create_key]. *)
Definition advance (p : pc) : C state (option pc) :=
  match p with
  | Start about todo =>
      i ← create_txn;
      match i with
      | None => lift (UB NullDeref)
      | Some t =>
          x ← txn t;
          printf ("[TXN " +:+ d (Z.of_nat t) +:+ "] Started (ts=" +:+ d (start_ts x) +:+ ") - will write key " +:+ about +:+ nl) ;;
          mret (Some (Running t todo))
      end
  | Running t [] => txn_commit t ;; mret (Some Returned)
  | Running t ((k, v) :: todo) =>
      x ← txn t;
      if bool_decide (status x ≠ TXN_ACTIVE) then p ← refused_write t k; mret (Some p)
      else
        idx ← get_or_create_key k;
        match idx with
        | None => mret None
        | Some idx => o ← acquire_key_lock acquire_fuel t idx; p ← after_acquire t idx k v todo o; mret (Some p)
        end
  | Asleep t idx owner k v todo => o ← woken t idx owner; p ← after_acquire t idx k v todo o; mret (Some p)
  | Returned => mret (Some Returned)
  end.

Definition move (i : nat) (s : system) : res (option system) :=
  match threads s !! i with
  | None => Ok None
  | Some p =>
      match advance p (shared s) with
      | UB e => UB e
      | Ok (None, _, _) => Ok None
      | Ok (Some p, st, _) => Ok (Some (mkSystem st (<[i := p]> (threads s))))
      end
  end.

Fixpoint schedule (sched : list nat) (s : system) : res (option system) :=
  match sched with
  | [] => Ok (Some s)
  | i :: sched => match move i s with Ok (Some s) => schedule sched s | r => r end
  end.

(** [txn_func_ab_deadlock1] and [txn_func_ab_deadlock2], and [main]. *)
Definition demo : system :=
  mkSystem init [Start "A then B" [("A", "T1_A"); ("B", "T1_B")]; Start "B then A" [("B", "T2_B"); ("A", "T2_A")]].

Definition final_store (s : system) : list (string * string) :=
  (λ e, (key e, value e)) <$> filter (λ e, used e = true) (store (shared s)).

End Calls.

(** ** The search for a victim *)
Module DetectSpec.
Import LockTxn.

Section Detect.
Context (ts : list (option Transaction)) (w : list (list bool)) (n : nat).
Hypothesis Hn : n ≤ MAX_TXNS.

Definition edge (u v : nat) : Prop := u < n ∧ v < n ∧ waits w u v = true.

(** Transactions that wait, or are waited for, exist. *)
Hypothesis Hts : ∀ u v, edge u v → is_Some (ts_of ts u) ∧ u ≠ 0.

(** Each node of the list has an edge to the next. *)
Fixpoint linked (l : list nat) : Prop :=
  match l with
  | x :: r => match r with y :: _ => edge x y | [] => True end ∧ linked r
  | [] => True
  end.

Definition cycle (c : list nat) : Prop := ∃ x l, c = x :: l ∧ linked (x :: l ++ [x]).

(** [v] is on a cycle, and no transaction of that cycle is younger. *)
Definition youngest (v : nat) : Prop :=
  ∃ c tv, cycle c ∧ v ∈ c ∧ ts_of ts v = Some tv ∧ ∀ x tx, x ∈ c → ts_of ts x = Some tx → (tx ≤ tv)%Z.

Lemma linked_app_r l1 l2 : linked (l1 ++ l2) → linked l2.
Proof. induction l1 as [|x l1 IH]; [done|]. intros [_ H]. by apply IH. Qed.

Lemma linked_app l1 x l2 : linked (l1 ++ [x]) → linked (x :: l2) → linked (l1 ++ x :: l2).
Proof.
  induction l1 as [|y l1 IH]; [done|]. intros [H1 H2] Hx. split; [|by apply IH]. by destruct l1.
Qed.

Lemma linked_tc x l y : linked (x :: l ++ [y]) → tc edge x y.
Proof.
  revert x. induction l as [|z l IH]; intros x [H1 H2]; [by apply tc_once|]. eapply tc_l; [exact H1|by apply IH].
Qed.

Lemma cycle_tc c x : cycle c → x ∈ c → tc edge x x.
Proof.
  intros (y & l & -> & Hl) Hx. apply elem_of_cons in Hx as [->|Hx]; [by eapply linked_tc|].
  apply list_elem_of_split in Hx as (l1 & l2 & ->). rewrite <- app_assoc in Hl. cbn [app] in Hl.
  apply (linked_tc x (l2 ++ y :: l1) x). rewrite <- app_assoc. cbn [app]. rewrite app_comm_cons.
  apply linked_app; [exact (linked_app_r (y :: l1) _ Hl)|].
  assert (∀ a b, linked (a ++ b) → linked a) as Hpre.
  { induction a as [|z a IH]; intros b Hb; [done|]. destruct Hb as [H1 H2]. split; [by destruct a|by eapply IH]. }
  apply (Hpre _ (l2 ++ [y])). rewrite app_comm_cons in Hl. rewrite <- app_comm_cons, <- app_assoc. exact Hl.
Qed.

(** *** The youngest of a list *)

Lemma pick_fold_ok l acc :
  (∀ x t, acc = Some (x, t) → ts_of ts x = Some t) →
  match foldl (λ picked x,
    match ts_of ts x with
    | None => picked
    | Some t =>
        match picked with
        | None => Some (x, t)
        | Some (_, picked_ts) => if (t >? picked_ts)%Z then Some (x, t) else picked
        end
    end) acc l with
  | None => acc = None ∧ ∀ x, x ∈ l → ts_of ts x = None
  | Some (v, tv) =>
      ts_of ts v = Some tv ∧ (acc = Some (v, tv) ∨ v ∈ l) ∧ (∀ x tx, x ∈ l → ts_of ts x = Some tx → (tx ≤ tv)%Z) ∧
      (∀ x tx, acc = Some (x, tx) → (tx ≤ tv)%Z)
  end.
Proof.
  revert acc. induction l as [|y l IH]; intros acc Hacc; cbn [foldl].
  - destruct acc as [[v tv]|]; [|split; [done|intros x Hx; by apply elem_of_nil in Hx]].
    split; [by apply Hacc|]. split; [by left|]. split; [intros x tx Hx; by apply elem_of_nil in Hx|]. intros x tx [= -> ->]. lia.
  - destruct (ts_of ts y) as [ty|] eqn:Hy.
    + destruct acc as [[a ta]|].
      * destruct (Z.gtb_spec ty ta) as [Hgt|Hle].
        -- specialize (IH (Some (y, ty)) ltac:(by intros ?? [= <- <-])). destruct (foldl _ _ l) as [[v tv]|]; [|naive_solver].
           destruct IH as (H1 & H2 & H3 & H4). split; [done|]. specialize (H4 _ _ eq_refl). split; [right; destruct H2 as [[= -> ->]|]; [left|by right]|].
           split; [|intros ?? [= <- <-]; lia]. intros x tx [->|Hx]%elem_of_cons Htx; [congruence|by eapply H3].
        -- specialize (IH (Some (a, ta)) Hacc). destruct (foldl _ _ l) as [[v tv]|]; [|naive_solver].
           destruct IH as (H1 & H2 & H3 & H4). split; [done|]. specialize (H4 _ _ eq_refl). split; [destruct H2; [by left|right; by right]|].
           split; [|intros ?? [= <- <-]; lia]. intros x tx [->|Hx]%elem_of_cons Htx; [simplify_eq; lia|by eapply H3].
      * specialize (IH (Some (y, ty)) ltac:(by intros ?? [= <- <-])). destruct (foldl _ _ l) as [[v tv]|]; [|naive_solver].
        destruct IH as (H1 & H2 & H3 & H4). split; [done|]. specialize (H4 _ _ eq_refl). split; [right; destruct H2 as [[= -> ->]|]; [left|by right]|].
        split; [|done]. intros x tx [->|Hx]%elem_of_cons Htx; [congruence|by eapply H3].
    + specialize (IH acc Hacc). destruct (foldl _ _ l) as [[v tv]|].
      * destruct IH as (H1 & H2 & H3 & H4). split; [done|]. split; [destruct H2; [by left|right; by right]|].
        split; [|done]. intros x tx [->|Hx]%elem_of_cons Htx; [congruence|by eapply H3].
      * destruct IH as [H1 H2]. split; [done|]. intros x [->|Hx]%elem_of_cons; [done|by apply H2].
Qed.

Lemma pick_nodes l : (∀ x, x ∈ l → is_Some (ts_of ts x)) → l ≠ [] →
  ∃ v tv, pick ts l = Some (v, tv) ∧ v ∈ l ∧ ts_of ts v = Some tv ∧ ∀ x tx, x ∈ l → ts_of ts x = Some tx → (tx ≤ tv)%Z.
Proof.
  intros Hl Hne. pose proof (pick_fold_ok l None ltac:(done)) as Hp. unfold pick. destruct (foldl _ _ l) as [[v tv]|].
  - destruct Hp as (H1 & [?|H2] & H3 & _); [done|]. by exists v, tv.
  - destruct Hp as [_ Hp]. destruct l as [|y l]; [done|]. exfalso. destruct (Hl y) as [ty Hy]; [left|]. rewrite Hp in Hy; [done|left].
Qed.

Lemma from_node_split u p : u ∈ p → ∃ p1 l, p = p1 ++ u :: l ∧ from_node u p = u :: l.
Proof.
  induction p as [|x p IH]; intros Hu; [by apply elem_of_nil in Hu|]. cbn [from_node]. destruct (Nat.eqb_spec x u) as [->|Hne].
  - by exists [], p.
  - apply elem_of_cons in Hu as [->|Hu]; [done|]. destruct (IH Hu) as (p1 & l & -> & Hf). by exists (x :: p1), l.
Qed.

Lemma linked_nodes l y : linked (l ++ [y]) → ∀ x, x ∈ l → ∃ z, edge x z.
Proof.
  induction l as [|a l IH]; intros Hl x Hx; [by apply elem_of_nil in Hx|]. destruct Hl as [H1 H2].
  apply elem_of_cons in Hx as [->|Hx]; [|by apply IH]. destruct l as [|z l]; [exists y|exists z]; exact H1.
Qed.

(** An edge back into the path closes a cycle, and its youngest becomes the
    victim or the old victim stays. *)
Lemma back_edge_ok v u s p1 :
  path s = p1 ++ [v] → linked (path s) → u ∈ path s → edge v u → (∀ x, winner_victim s = Some x → youngest x) →
  ∃ x, back_edge ts v u s = Ok (mkSearch (visited s) (recstack s) (stack s) (path s) (Some x) true) ∧ youngest x.
Proof.
  intros Hp Hl Hu Hvu Hw. destruct (from_node_split u _ Hu) as (p2 & l & Hsplit & Hf).
  assert (linked ((u :: l) ++ [u])) as Hc.
  { rewrite Hsplit in Hl. apply linked_app_r in Hl. destruct l as [|y l] using rev_ind.
    - rewrite Hsplit in Hp. apply app_inj_tail in Hp as [_ ->]. split; [exact Hvu|by split].
    - clear IHl. rewrite Hsplit in Hp. rewrite app_comm_cons, app_assoc in Hp. apply app_inj_tail in Hp as [_ ->].
      rewrite <- app_comm_cons, <- app_assoc. rewrite app_comm_cons. apply (linked_app (u :: l)); [exact Hl|]. split; [exact Hvu|by split]. }
  assert (cycle (u :: l)) as Hcyc by (by exists u, l).
  destruct (pick_nodes (u :: l)) as (x & tx & Hpick & Hx & Htx & Hmax); [|done|].
  { intros x Hx. destruct (linked_nodes _ _ Hc x Hx) as [z Hz]. by apply (Hts _ _ Hz). }
  unfold back_edge. rewrite Hf, Hpick. assert (youngest x) as Hyx by (by exists (u :: l), tx).
  destruct (winner_victim s) as [x'|] eqn:Ew; [|by exists x]. pose proof (Hw x' eq_refl) as Hy'.
  pose proof Hy' as (c' & tx' & _ & _ & Htx' & _). rewrite Htx, Htx'. unfold mbind, res_bind.
  destruct (_ >? _)%Z; [by exists x|by exists x'].
Qed.

(** *** The state of the search *)

(** What the frames of the stack have explored: nodes that were left, or the
    frame above. *)
Fixpoint frames_ok (above : option nat) (st : list (nat * nat)) (b : list nat) : Prop :=
  match st with
  | [] => True
  | (v, e) :: st => (∀ u, edge v u → u < e → u ∈ b ∨ above = Some u) ∧ frames_ok (Some v) st b
  end.

(** [st] is the stack of nodes that were entered, [b] the nodes that were left. *)
Record searching (above : option nat) (s : search) (st : list (nat * nat)) (b : list nat) : Prop := mksearching {
  sr_lens : length (visited s) = MAX_TXNS ∧ length (recstack s) = MAX_TXNS;
  sr_vis : ∀ v, v < n → (Wfg.marked (visited s) v = true ↔ v ∈ (fst <$> st) ∨ v ∈ b);
  sr_rec : ∀ v, v < n → (Wfg.marked (recstack s) v = true ↔ v ∈ (fst <$> st));
  sr_nodup : NoDup ((fst <$> st) ++ b);
  sr_nodes : Forall (λ v, v < n) ((fst <$> st) ++ b);
  sr_path : path s = reverse (fst <$> st);
  sr_linked : linked (path s);
  sr_found : cycle_found s = bool_decide (is_Some (winner_victim s));
  sr_victim : ∀ x, winner_victim s = Some x → youngest x;
  sr_done : winner_victim s = None → Acyclic.finished edge b ∧ frames_ok above st b
}.

Lemma txn_nodes_bound l : NoDup l → Forall (λ v, v < n) l → length l ≤ n.
Proof.
  intros Hnd Hl. rewrite <- (length_seq n 0). apply submseteq_length, NoDup_submseteq; [done|].
  intros x Hx. apply elem_of_seq. rewrite Forall_forall in Hl. specialize (Hl x Hx). lia.
Qed.

(** The node above the stack can be entered. *)
Definition pending (s : search) (st : list (nat * nat)) (b : list nat) (x : nat) : Prop :=
  searching (Some x) s st b ∧ x < n ∧ Wfg.marked (visited s) x = false ∧ match st with (y, _) :: _ => edge y x | [] => True end.

Lemma pending_new s st b x : pending s st b x → (x ∉ (fst <$> st) ++ b).
Proof. intros (Hs & Hx & Hm & _) Hin. rewrite elem_of_app in Hin. apply (sr_vis _ _ _ _ Hs x Hx) in Hin. congruence. Qed.

Lemma pending_room s st b x : pending s st b x → length ((fst <$> st) ++ b) < n.
Proof.
  intros Hp. pose proof Hp as (Hs & Hx & _). pose proof (txn_nodes_bound (x :: (fst <$> st) ++ b)) as Hb. cbn [length] in Hb. apply Hb.
  - constructor; [by eapply pending_new|apply (sr_nodup _ _ _ _ Hs)].
  - constructor; [done|apply (sr_nodes _ _ _ _ Hs)].
Qed.

Lemma enter_ok s st b x : pending s st b x → ∃ s', enter x s = Ok s' ∧ searching None s' ((x, 0) :: st) b.
Proof.
  intros Hp. pose proof (pending_new _ _ _ _ Hp) as Hnew. pose proof (pending_room _ _ _ _ Hp) as Hroom.
  destruct Hp as ([[Hl1 Hl2] H2 H3 H4 H5 H6 H7 H8 H9 H10] & Hx & Hm & Hedge). unfold enter. rewrite Hm. cbn [negb].
  destruct (Nat.leb_spec MAX_TXNS (length (path s))) as [Hle|_].
  { exfalso. rewrite H6, length_reverse in Hle. rewrite length_app in Hroom. lia. }
  eexists. split; [reflexivity|]. rewrite not_elem_of_app in Hnew. destruct Hnew as [Hn1 Hn2].
  constructor; cbn [visited recstack path winner_victim cycle_found]; rewrite ?fmap_cons; cbn [fst].
  - by rewrite !length_insert.
  - intros v Hv. rewrite WfgSpec.marked_insert by lia. case_decide as E; [subst; set_solver|]. rewrite H2 by done. set_solver.
  - intros v Hv. rewrite WfgSpec.marked_insert by lia. case_decide as E; [subst; set_solver|]. rewrite H3 by done. set_solver.
  - cbn [app]. constructor; [rewrite elem_of_app; tauto|done].
  - cbn [app]. by constructor.
  - by rewrite reverse_cons, <- H6.
  - rewrite H6 in H7 |- *. destruct st as [|[y e] st]; [by split|]. rewrite fmap_cons, reverse_cons in *. cbn [fst] in *.
    rewrite <- app_assoc. apply linked_app; [done|]. split; [exact Hedge|by split].
  - done.
  - done.
  - intros Hw. destruct (H10 Hw) as [Hf Hfr]. split; [done|]. split; [lia|done].
Qed.

(** More of the edges of the top frame are explored. *)
Lemma searching_frame above s v e e' st b :
  searching None s ((v, e) :: st) b → (∀ u, edge v u → u < e' → u < e ∨ u ∈ b ∨ above = Some u) → searching above s ((v, e') :: st) b.
Proof.
  intros [H1 H2 H3 H4 H5 H6 H7 H8 H9 H10] He. constructor; try done. intros Hw. destruct (H10 Hw) as [Hf [Hfr Hst]].
  split; [done|]. split; [|done]. intros u Hu Hlt. destruct (He u Hu Hlt) as [Hlt'|[?|?]]; [|by left|by right].
  destruct (Hfr u Hu Hlt') as [?|?]; [by left|done].
Qed.

(** Only the victim changed, and there is one. *)
Lemma searching_victim s v e e' st b x :
  searching None s ((v, e) :: st) b → youngest x →
  searching None (mkSearch (visited s) (recstack s) (stack s) (path s) (Some x) true) ((v, e') :: st) b.
Proof. intros [H1 H2 H3 H4 H5 H6 H7 H8 H9 H10] Hx. constructor; try done. by intros y [= <-]. Qed.

Lemma edge_scan_ok v st b m e s :
  searching None s ((v, e) :: st) b → m = n - e →
  ∃ next s', scan ts w v (seq e m) s = Ok (next, s') ∧ stack s' = stack s ∧
    match next with None => searching None s' ((v, n) :: st) b | Some u => pending s' ((v, u + 1) :: st) b u end.
Proof.
  revert e s. induction m as [|m IH]; intros e s Hs Hm; cbn [seq scan].
  { exists None, s. split_and!; [done..|]. eapply searching_frame; [exact Hs|]. intros u (_ & Hu & _) _. left. lia. }
  assert (e < n) as He by lia. pose proof (sr_nodes _ _ _ _ Hs) as Hv. rewrite fmap_cons in Hv. apply Forall_cons in Hv as [Hv _]. cbn [fst] in Hv.
  assert (∀ s', searching None s' ((v, S e) :: st) b → stack s' = stack s →
    ∃ next s'', scan ts w v (seq (S e) m) s' = Ok (next, s'') ∧ stack s'' = stack s ∧
    match next with None => searching None s'' ((v, n) :: st) b | Some u => pending s'' ((v, u + 1) :: st) b u end) as Hgo.
  { intros s' Hs' Hst. destruct (IH (S e) s' Hs') as (next & s'' & Hrun & Hst'' & Hr); [lia|]. exists next, s''. by rewrite Hst''. }
  destruct (waits w v e) eqn:Hw.
  - assert (edge v e) as Hedge by done. destruct (Wfg.marked (visited s) e) eqn:Hvis; cbn [negb].
    + destruct (Wfg.marked (recstack s) e) eqn:Hrec.
      * pose proof (sr_path _ _ _ _ Hs) as Hp. rewrite fmap_cons, reverse_cons in Hp. cbn [fst] in Hp.
        destruct (back_edge_ok v e s _ Hp (sr_linked _ _ _ _ Hs)) as (x & Hb & Hx); [|done|apply (sr_victim _ _ _ _ Hs)|].
        { rewrite (sr_path _ _ _ _ Hs), elem_of_reverse. by apply (sr_rec _ _ _ _ Hs). }
        rewrite Hb. unfold mbind, res_bind. apply Hgo; [by eapply searching_victim|done].
      * apply Hgo; [|done]. eapply searching_frame; [exact Hs|]. intros u Hu Hlt. destruct (decide (u = e)) as [->|]; [|left; lia].
        right. left. apply (sr_vis _ _ _ _ Hs) in Hvis as [Hin|]; [|done|done]. apply (sr_rec _ _ _ _ Hs) in Hin; [congruence|done].
    + exists (Some e), s. split_and!; [done..|]. split; [|done]. eapply searching_frame; [exact Hs|]. intros u Hu Hlt.
      destruct (decide (u = e)) as [->|]; [by right; right|left; lia].
  - apply Hgo; [|done]. eapply searching_frame; [exact Hs|]. intros u Hu Hlt. destruct (decide (u = e)) as [->|]; [|left; lia].
    destruct Hu as (_ & _ & Hu). congruence.
Qed.

Lemma frames_mono above above' st b b' :
  (∀ x, x ∈ b → x ∈ b') → (∀ x, above = Some x → x ∈ b' ∨ above' = Some x) → frames_ok above st b → frames_ok above' st b'.
Proof.
  intros Hb. revert above above'. induction st as [|[v e] st IH]; intros above above' Ha; [done|]. intros [H1 H2]. split.
  - intros u Hu Hlt. destruct (H1 u Hu Hlt) as [?|?]; [left; by apply Hb|by apply Ha].
  - eapply IH; [|exact H2]. intros x [= <-]. by right.
Qed.

Lemma leave_ok s v st b :
  searching None s ((v, n) :: st) b →
  searching None (mkSearch (visited s) (<[v := false]> (recstack s)) st (removelast (path s)) (winner_victim s) (cycle_found s)) st (v :: b).
Proof.
  intros [[Hl1 Hl2] H2 H3 H4 H5 H6 H7 H8 H9 H10]. rewrite fmap_cons in H4, H5, H6. cbn [fst] in H4, H5, H6.
  assert (removelast (path s) = reverse (fst <$> st)) as Hpath by (rewrite H6, reverse_cons; apply removelast_last).
  apply NoDup_cons in H4 as [Hv H4]. apply Forall_cons in H5 as [Hvn H5]. rewrite not_elem_of_app in Hv. destruct Hv as [Hv1 Hv2].
  constructor; cbn [visited recstack path winner_victim cycle_found]; try done.
  - by rewrite length_insert.
  - intros u Hu. rewrite H2 by done. rewrite fmap_cons. cbn [fst]. set_solver.
  - intros u Hu. rewrite WfgSpec.marked_insert by lia. case_decide as E; [subst; set_solver|]. rewrite H3 by done. rewrite fmap_cons. set_solver.
  - rewrite <- Permutation_middle. constructor; [rewrite elem_of_app; tauto|done].
  - rewrite <- Permutation_middle. by constructor.
  - rewrite Hpath. rewrite H6, reverse_cons in H7. clear - H7. revert H7. generalize (reverse (fst <$> st)). intros l Hl.
    induction l as [|x l IH]; [done|]. destruct Hl as [Ha Hb]. split; [by destruct l|by apply IH].
  - intros Hw. destruct (H10 Hw) as [Hf [Hfr Hst]]. split.
    + constructor; [done|done|]. intros u Hu. destruct (Hfr u Hu) as [?|?]; [by destruct Hu as (_ & ? & _)|done|done].
    + eapply frames_mono; [| |exact Hst]; [intros x Hx; by right|intros x [= <-]; left; left].
Qed.

Lemma searching_stack above s st b stk :
  searching above s st b → searching above (mkSearch (visited s) (recstack s) stk (path s) (winner_victim s) (cycle_found s)) st b.
Proof. by intros [H1 H2 H3 H4 H5 H6 H7 H8 H9 H10]. Qed.

(** At the head of the [while] loop: the top was entered or is about to be. *)
Definition at_head (s : search) (b : list nat) : Prop :=
  searching None s (stack s) b ∨ ∃ x st, stack s = (x, 0) :: st ∧ pending s st b x.

Lemma at_head_enter s b v e rest :
  at_head s b → stack s = (v, e) :: rest → ∃ s', enter v s = Ok s' ∧ stack s' = stack s ∧ searching None s' ((v, e) :: rest) b.
Proof.
  intros [Hs|(x & st & Hst & Hp)] Hstack.
  - exists s. rewrite Hstack in Hs. split_and!; [|done|done]. unfold enter.
    assert (Wfg.marked (visited s) v = true) as ->; [|done]. apply (sr_vis _ _ _ _ Hs); [|left; rewrite fmap_cons; left].
    pose proof (sr_nodes _ _ _ _ Hs) as Hv. rewrite fmap_cons in Hv. by apply Forall_cons in Hv as [Hv _].
  - rewrite Hst in Hstack. injection Hstack as -> <- ->. destruct (enter_ok s _ b v Hp) as (s' & He & Hs'). exists s'. split_and!; [done| |done].
    unfold enter in He. destruct (negb _); [|by injection He as <-]. destruct (_ <=? _); [done|]. by injection He as <-.
Qed.

Lemma dfs_walk_ok fuel s b :
  at_head s b → 2 * (n - (length (stack s) + length b)) + length (stack s) ≤ fuel →
  ∃ s' b', walk fuel ts w n s = Ok s' ∧ searching None s' [] b' ∧ b ⊆ b' ∧ (fst <$> stack s) ⊆ b'.
Proof.
  revert s b. induction fuel as [|fuel IH]; intros s b Hhead Hfuel; destruct (stack s) as [|[v e] rest] eqn:Hstack; cbn [walk length] in *.
  1,3: destruct Hhead as [Hs|(x & st & Hst & _)]; [|congruence]; rewrite Hstack in Hs; exists s, b; rewrite Hstack; split_and!; [done|done|done|intros y Hy; by apply elem_of_nil in Hy].
  { lia. }
  rewrite Hstack. destruct (at_head_enter s b v e rest Hhead Hstack) as (s1 & He & Hst1 & Hs1). rewrite He. unfold mbind at 1, res_bind at 1.
  destruct (edge_scan_ok v rest b (n - e) e s1 Hs1 eq_refl) as (next & s2 & Hscan & Hst2 & Hnext). rewrite Hscan. unfold mbind, res_bind.
  pose proof (txn_nodes_bound _ (sr_nodup _ _ _ _ Hs1) (sr_nodes _ _ _ _ Hs1)) as Hroom. rewrite length_app, length_fmap in Hroom. cbn [length] in Hroom.
  destruct next as [u|].
  - pose proof (pending_room _ _ _ _ Hnext) as Hr. rewrite length_app, length_fmap in Hr. cbn [length] in Hr.
    rewrite Hst2, Hst1, Hstack. cbn [length]. destruct (Nat.leb_spec MAX_TXNS (S (length rest))) as [?|_]; [lia|].
    destruct (IH (mkSearch (visited s2) (recstack s2) ((u, 0) :: (v, u + 1) :: rest) (path s2) (winner_victim s2) (cycle_found s2)) b)
      as (s' & b' & Hw & Hs' & Hb & Hst').
    { right. exists u, ((v, u + 1) :: rest). split; [done|]. destruct Hnext as (H1 & H2 & H3 & H4). split; [by apply searching_stack|done]. }
    { cbn [stack length]. lia. }
    exists s', b'. split_and!; [done..|]. cbn [stack] in Hst'. rewrite !fmap_cons in Hst'. rewrite fmap_cons. set_solver.
  - destruct (IH _ (v :: b) (or_introl (leave_ok s2 v rest b Hnext))) as (s' & b' & Hw & Hs' & Hb & Hst').
    { cbn [stack length]. lia. }
    exists s', b'. split_and!; [done|done|set_solver|]. cbn [stack] in Hst'. rewrite fmap_cons. set_solver.
Qed.

Lemma search_from_ok starts s b :
  searching None s [] b → Forall (λ x, x < n) starts →
  ∃ s' b', search_from ts w n starts s = Ok s' ∧ searching None s' [] b' ∧ b ⊆ b' ∧
    ∀ x, x ∈ starts → is_Some (ts_of ts x) → x ∈ b'.
Proof.
  revert s b. induction starts as [|x starts IH]; intros s b Hs Hst; cbn [search_from].
  { exists s, b. split_and!; [done..|]. intros x Hx. by apply elem_of_nil in Hx. }
  apply Forall_cons in Hst as [Hx Hst]. unfold ts_of in *. destruct (default None (ts !! x)) as [t|] eqn:Ht.
  - destruct (Wfg.marked (visited s) x) eqn:Hm.
    + destruct (IH s b Hs Hst) as (s' & b' & Hr & Hs' & Hb & Hall). exists s', b'. split_and!; [done..|].
      intros y [->|Hy]%elem_of_cons Hts'; [|by apply Hall]. apply Hb. apply (sr_vis _ _ _ _ Hs) in Hm as [Hin|]; [|done|done]. by apply elem_of_nil in Hin.
    + destruct (dfs_walk_ok walk_fuel (mkSearch (visited s) (recstack s) [(x, 0)] (path s) (winner_victim s) (cycle_found s)) b) as (s1 & b1 & Hw & Hs1 & Hb1 & Hx1).
      { right. exists x, []. split; [done|]. split_and!; [|done|done|done]. apply searching_stack.
        destruct Hs as [H1 H2 H3 H4 H5 H6 H7 H8 H9 H10]. constructor; try done. }
      { cbn [stack length]. unfold walk_fuel. lia. }
      rewrite Hw. unfold mbind, res_bind. destruct (IH s1 b1 Hs1 Hst) as (s' & b' & Hr & Hs' & Hb & Hall). exists s', b'.
      split_and!; [exact Hr|done|by transitivity b1|]. intros y [->|Hy]%elem_of_cons Hts'; [|by apply Hall]. apply Hb, Hx1. cbn [stack]. rewrite fmap_cons. left.
  - destruct (IH s b Hs Hst) as (s' & b' & Hr & Hs' & Hb & Hall). exists s', b'. split_and!; [done..|].
    intros y [->|Hy]%elem_of_cons Hts'; [|by apply Hall]. rewrite Ht in Hts'. by destruct Hts'.
Qed.

Lemma dfs_start : searching None (mkSearch (replicate MAX_TXNS false) (replicate MAX_TXNS false) [] [] None false) [] [].
Proof.
  constructor; cbn [visited recstack path winner_victim cycle_found].
  - split; apply length_replicate.
  - intros v Hv. unfold Wfg.marked. rewrite lookup_replicate_2 by lia. set_solver.
  - intros v Hv. unfold Wfg.marked. rewrite lookup_replicate_2 by lia. set_solver.
  - constructor.
  - constructor.
  - done.
  - done.
  - done.
  - done.
  - intros _. split; [constructor|done].
Qed.

(** The search ends; it finds a victim exactly when there is a cycle. *)
Lemma search_ok :
  ∃ s, search_from ts w n (seq 1 (n - 1)) (mkSearch (replicate MAX_TXNS false) (replicate MAX_TXNS false) [] [] None false) = Ok s ∧
    cycle_found s = bool_decide (is_Some (winner_victim s)) ∧
    match winner_victim s with Some v => youngest v | None => ∀ x, ¬ tc edge x x end.
Proof.
  destruct (search_from_ok (seq 1 (n - 1)) _ _ dfs_start) as (s & b & Hr & Hs & _ & Hall).
  { apply Forall_forall. intros x Hx%elem_of_seq. lia. }
  exists s. split_and!; [done|apply (sr_found _ _ _ _ Hs)|]. destruct (winner_victim s) as [v|] eqn:Ew; [by apply (sr_victim _ _ _ _ Hs)|].
  intros x Hx. destruct (sr_done _ _ _ _ Hs Ew) as [Hf _]. assert (∃ y, edge x y) as [y Hy] by (inversion Hx; eauto).
  eapply (Acyclic.finished_acyclic edge b Hf x); [|done]. apply Hall; [|by apply (Hts _ _ Hy)].
  apply elem_of_seq. destruct (Hts _ _ Hy) as [_ ?]. destruct Hy as (? & _). lia.
Qed.

End Detect.
End DetectSpec.

(** ** The locks *)
Module LockSpec.
Import LockTxn Calls.

(** [ex] is a transaction that is being finished: it need not be active. *)
Record sinv (ex : option nat) (s : state) : Prop := mksinv {
  si_store : length (store s) = MAX_KEYS;
  si_len : length (txns s) = MAX_TXNS;
  si_graph : length (wait_for s) = MAX_TXNS ∧ Forall (λ r, length r = MAX_TXNS) (wait_for s);
  si_next : 1 ≤ next_txn_id s ≤ MAX_TXNS;
  si_exists : ∀ i, 1 ≤ i < next_txn_id s → ∃ t, txns s !! i = Some (Some t);
  si_txn : ∀ i t, txns s !! i = Some (Some t) →
    1 ≤ i < next_txn_id s ∧ id t = i ∧ length (held_keys t) = MAX_KEYS ∧ NoDup (fst <$> writes t);
  si_owner : ∀ k e, store s !! k = Some e → owner_txn e ≠ 0 →
    used e = true ∧ ∃ t, txns s !! owner_txn e = Some (Some t) ∧ held_keys t !! k = Some true ∧
      (status t = TXN_ACTIVE ∨ ex = Some (owner_txn e));
  si_held : ∀ i t k, txns s !! i = Some (Some t) → held_keys t !! k = Some true → ∃ e, store s !! k = Some e ∧ owner_txn e = i;
  si_writes : ∀ i t k, txns s !! i = Some (Some t) → k ∈ (fst <$> writes t) → held_keys t !! k = Some true;
  si_edge : ∀ u v, waits (wait_for s) u v = true →
    v ≠ 0 ∧ v < next_txn_id s ∧ ∃ t, txns s !! u = Some (Some t) ∧ status t = TXN_ACTIVE
}.

(** *** Reads and updates *)

Lemma txn_ok i s t : txns s !! i = Some (Some t) → txn i s = Ok (t, s, []).
Proof. intros Ht. unfold txn. c_run. by rewrite Ht. Qed.

Lemma update_txn_ok i f s t : txns s !! i = Some (Some t) → update_txn i f s = Ok (tt, set_txns (<[i := Some (f t)]> (txns s)) s, []).
Proof. intros Ht. unfold update_txn. by refine (bind_Ok _ _ _ _ _ [] _ _ [] (txn_ok _ _ _ Ht) _). Qed.

Lemma entry_at_ok i s e : store s !! i = Some e → entry_at i s = Ok (e, s, []).
Proof. intros He. unfold entry_at. c_run. by rewrite (aget_lookup _ _ _ He). Qed.

Definition with_owner (o : nat) (e : KeyEntry) : KeyEntry := mkEntry (key e) (value e) o (used e).

Lemma set_owner_ok i o s e : store s !! i = Some e → set_owner i o s = Ok (tt, set_store (<[i := with_owner o e]> (store s)) s, []).
Proof. intros He. unfold set_owner. by refine (bind_Ok _ _ _ _ _ [] _ _ [] (entry_at_ok _ _ _ He) _). Qed.

Lemma entry_exists ex s k : sinv ex s → k < MAX_KEYS → ∃ e, store s !! k = Some e.
Proof. intros Hs Hk. apply lookup_lt_is_Some_2. by rewrite (si_store _ _ Hs). Qed.

(** The owner of a key and the transaction that holds it are the same. *)
Lemma held_iff s ex i t k e :
  sinv ex s → txns s !! i = Some (Some t) → store s !! k = Some e → (held_keys t !! k = Some true ↔ owner_txn e = i).
Proof.
  intros Hs Ht He. destruct (si_txn _ _ Hs _ _ Ht) as (Hi & _). split.
  - intros Hh. destruct (si_held _ _ Hs _ _ _ Ht Hh) as (e' & He' & Ho). congruence.
  - intros Ho. destruct (si_owner _ _ Hs k e He ltac:(lia)) as (_ & t' & Ht' & Hh & _). rewrite Ho, Ht in Ht'. by injection Ht' as <-.
Qed.

(** *** One transaction changes *)

Ltac txn_cases H := apply list_lookup_insert_Some in H as [(<- & [= <-] & _)|[? H]].

(** A transaction that neither gains nor loses keys. *)
Lemma sinv_txn ex ex' s i t t' w :
  sinv ex s → txns s !! i = Some (Some t) → id t' = id t → held_keys t' = held_keys t → NoDup (fst <$> writes t') →
  (∀ k, k ∈ (fst <$> writes t') → held_keys t !! k = Some true) →
  (∀ j, ex = Some j → j ≠ i → ex' = Some j) →
  (status t' = TXN_ACTIVE ∨ ex' = Some i ∨ ∀ k, held_keys t !! k ≠ Some true) →
  length w = MAX_TXNS ∧ Forall (λ r, length r = MAX_TXNS) w →
  (∀ u v, waits w u v = true → waits (wait_for s) u v = true ∧ (u = i → status t' = TXN_ACTIVE)) →
  sinv ex' (set_wait_for w (set_txns (<[i := Some t']> (txns s)) s)).
Proof.
  intros [H1 H2 H3 H4 H5 H6 H7 H8 H9 H10] Ht Hid Hh Hnd Hw Hex Hst Hg Hwt.
  pose proof (lookup_lt_Some _ _ _ Ht) as Hlt. destruct (H6 _ _ Ht) as (Hi & Hid' & Hhl & _).
  constructor; cbn [store txns next_txn_id wait_for set_wait_for set_txns]; try done.
  - by rewrite length_insert.
  - intros j Hj. destruct (decide (i = j)) as [<-|Hne]; [exists t'; by rewrite list_lookup_insert_eq|].
    rewrite list_lookup_insert_ne by done. by apply H5.
  - intros j x Hx. txn_cases Hx; [|by apply H6]. by rewrite Hh, Hid.
  - intros k e He Ho. destruct (H7 k e He Ho) as (Hu & x & Hx & Hxh & Hxs). split; [done|].
    destruct (decide (i = owner_txn e)) as [Heq|Hne].
    + rewrite <- Heq in Hx. rewrite Ht in Hx. injection Hx as <-. exists t'. rewrite Heq, list_lookup_insert_eq by lia. split; [done|].
      rewrite Hh. split; [done|]. rewrite Heq in Hst. destruct Hst as [?|[?|Hst]]; [by left|by right|by apply Hst in Hxh].
    + exists x. rewrite list_lookup_insert_ne by done. split; [done|]. split; [done|]. destruct Hxs as [?|Hxs]; [by left|right].
      by apply Hex.
  - intros j x k Hx Hk. txn_cases Hx; [|by apply (H8 j x)]. rewrite Hh in Hk. by apply (H8 i t).
  - intros j x k Hx Hk. txn_cases Hx; [|by apply (H9 j x)]. rewrite Hh. by apply Hw.
  - intros u v Huv. destruct (Hwt u v Huv) as [Huv' Hus]. destruct (H10 u v Huv') as (Hv & Hvn & x & Hx & Hxs). split; [done|]. split; [done|].
    destruct (decide (i = u)) as [<-|Hne].
    + exists t'. rewrite list_lookup_insert_eq by done. by split; [|apply Hus].
    + exists x. by rewrite list_lookup_insert_ne.
Qed.

(** A key is handed to a transaction, or given back. *)
Lemma sinv_take s t x k e :
  sinv None s → txns s !! t = Some (Some x) → status x = TXN_ACTIVE → store s !! k = Some e → used e = true → owner_txn e = 0 →
  sinv None (set_txns (<[t := Some (set_held k true x)]> (txns s)) (set_store (<[k := with_owner t e]> (store s)) s)).
Proof.
  intros [H1 H2 H3 H4 H5 H6 H7 H8 H9 H10] Ht Hst He Hu Ho.
  pose proof (lookup_lt_Some _ _ _ Ht) as Hlt. pose proof (lookup_lt_Some _ _ _ He) as Hk. destruct (H6 _ _ Ht) as (Hi & Hid & Hhl & Hnd).
  assert (k < length (held_keys x)) as Hkl by lia.
  constructor; cbn [store txns next_txn_id wait_for set_store set_txns]; try done.
  - by rewrite length_insert.
  - by rewrite length_insert.
  - intros j Hj. destruct (decide (t = j)) as [<-|Hne]; [eexists; by rewrite list_lookup_insert_eq|].
    rewrite list_lookup_insert_ne by done. by apply H5.
  - intros j y Hy. txn_cases Hy; [|by apply H6]. cbn [set_held id held_keys writes]. by rewrite length_insert.
  - intros k' e' He' Ho'. apply list_lookup_insert_Some in He' as [(<- & <- & _)|[Hne He']].
    + cbn [with_owner owner_txn used]. split; [done|]. exists (set_held k true x). rewrite list_lookup_insert_eq by done. split; [done|].
      cbn [set_held held_keys status]. rewrite list_lookup_insert_eq by done. by split; [|left].
    + destruct (H7 k' e' He' Ho') as (Hu' & y & Hy & Hyh & Hys). split; [done|]. destruct (decide (t = owner_txn e')) as [Heq|Hne'].
      * rewrite <- Heq in Hy |- *. rewrite Ht in Hy. injection Hy as <-. exists (set_held k true x). rewrite list_lookup_insert_eq by done. split; [done|].
        cbn [set_held held_keys status]. rewrite list_lookup_insert_ne by done. by split; [|left].
      * exists y. by rewrite list_lookup_insert_ne.
  - intros j y k' Hy Hk'. txn_cases Hy.
    + cbn [set_held held_keys] in Hk'. apply list_lookup_insert_Some in Hk' as [(<- & _ & _)|[Hne Hk']].
      * exists (with_owner t e). by rewrite list_lookup_insert_eq.
      * destruct (H8 t x k' Ht Hk') as (e' & He' & Hoe'). exists e'. by rewrite list_lookup_insert_ne.
    + destruct (H8 j y k' Hy Hk') as (e' & He' & Hoe'). destruct (decide (k = k')) as [<-|Hne]; [|exists e'; by rewrite list_lookup_insert_ne].
      rewrite He in He'. injection He' as <-. destruct (H6 _ _ Hy) as (? & _). lia.
  - intros j y k' Hy Hk'. txn_cases Hy; [|by apply (H9 j y)]. cbn [set_held held_keys writes] in *. pose proof (H9 t x k' Ht Hk') as Hh.
    destruct (decide (k = k')) as [<-|Hne]; [by rewrite list_lookup_insert_eq|by rewrite list_lookup_insert_ne].
  - intros u v Huv. destruct (H10 u v Huv) as (Hv & Hvn & y & Hy & Hys). split; [done|]. split; [done|].
    destruct (decide (t = u)) as [<-|Hne]; [eexists; by rewrite list_lookup_insert_eq|exists y; by rewrite list_lookup_insert_ne].
Qed.

Lemma sinv_give s ex t x k e :
  sinv ex s → txns s !! t = Some (Some x) → held_keys x !! k = Some true → store s !! k = Some e → writes x = [] →
  sinv ex (set_txns (<[t := Some (set_held k false x)]> (txns s)) (set_store (<[k := with_owner 0 e]> (store s)) s)).
Proof.
  intros Hs Ht Hh He Hw. pose proof (proj1 (held_iff s ex t x k e Hs Ht He) Hh) as Ho. destruct Hs as [H1 H2 H3 H4 H5 H6 H7 H8 H9 H10].
  pose proof (lookup_lt_Some _ _ _ Ht) as Hlt. pose proof (lookup_lt_Some _ _ _ He) as Hk. destruct (H6 _ _ Ht) as (Hi & Hid & Hhl & Hnd).
  constructor; cbn [store txns next_txn_id wait_for set_store set_txns]; try done.
  - by rewrite length_insert.
  - by rewrite length_insert.
  - intros j Hj. destruct (decide (t = j)) as [<-|Hne]; [eexists; by rewrite list_lookup_insert_eq|].
    rewrite list_lookup_insert_ne by done. by apply H5.
  - intros j y Hy. txn_cases Hy; [|by apply H6]. cbn [set_held id held_keys writes]. by rewrite length_insert.
  - intros k' e' He' Ho'. apply list_lookup_insert_Some in He' as [(<- & <- & _)|[Hne He']]; [done|].
    destruct (H7 k' e' He' Ho') as (Hu' & y & Hy & Hyh & Hys). split; [done|]. destruct (decide (t = owner_txn e')) as [Heq|Hne'].
    + rewrite <- Heq in Hy |- *. rewrite Ht in Hy. injection Hy as <-. exists (set_held k false x). rewrite list_lookup_insert_eq by done. split; [done|].
      cbn [set_held held_keys status]. rewrite list_lookup_insert_ne by done. by rewrite <- Heq in Hys.
    + exists y. by rewrite list_lookup_insert_ne.
  - intros j y k' Hy Hk'. txn_cases Hy.
    + cbn [set_held held_keys] in Hk'. apply list_lookup_insert_Some in Hk' as [(_ & ? & _)|[Hne Hk']]; [done|].
      destruct (H8 t x k' Ht Hk') as (e' & He' & Hoe'). exists e'. by rewrite list_lookup_insert_ne.
    + destruct (H8 j y k' Hy Hk') as (e' & He' & Hoe'). destruct (decide (k = k')) as [<-|Hne]; [|exists e'; by rewrite list_lookup_insert_ne].
      rewrite He in He'. injection He' as <-. congruence.
  - intros j y k' Hy Hk'. txn_cases Hy; [|by apply (H9 j y)]. cbn [set_held writes] in Hk'. rewrite Hw in Hk'. by apply elem_of_nil in Hk'.
  - intros u v Huv. destruct (H10 u v Huv) as (Hv & Hvn & y & Hy & Hys). split; [done|]. split; [done|].
    destruct (decide (t = u)) as [<-|Hne]; [|exists y; by rewrite list_lookup_insert_ne].
    rewrite Ht in Hy. injection Hy as <-. eexists. by rewrite list_lookup_insert_eq.
Qed.

(** What stays when keys of [t] are given back. *)
Record released (t : nat) (s s' : state) : Prop := mkreleased {
  re_others : ∀ j, j ≠ t → txns s' !! j = txns s !! j;
  re_txn : ∀ x, txns s !! t = Some (Some x) → ∃ x', txns s' !! t = Some (Some x') ∧ status x' = status x ∧ writes x' = writes x ∧
    start_ts x' = start_ts x ∧ id x' = id x ∧ ∀ k, held_keys x' !! k = Some true → held_keys x !! k = Some true;
  re_store : ∀ k e, store s !! k = Some e → ∃ o, store s' !! k = Some (with_owner o e) ∧ (o = owner_txn e ∨ owner_txn e = t ∧ o = 0);
  re_same : next_txn_id s' = next_txn_id s ∧ wait_for s' = wait_for s ∧ locked s' = locked s ∧ global_ts s' = global_ts s
}.

Lemma released_refl t s : released t s s.
Proof.
  constructor; [done| |intros k e He; exists (owner_txn e); by destruct e; split; [|left]|done]. intros x Hx. by exists x.
Qed.

Lemma released_trans t s1 s2 s3 : released t s1 s2 → released t s2 s3 → released t s1 s3.
Proof.
  intros [A1 A2 A3 A4] [B1 B2 B3 B4]. constructor.
  - intros j Hj. by rewrite B1, A1.
  - intros x Hx. destruct (A2 x Hx) as (y & Hy & ? & ? & ? & ? & Hh). destruct (B2 y Hy) as (z & Hz & ? & ? & ? & ? & Hh'). exists z. naive_solver congruence.
  - intros k e He. destruct (A3 k e He) as (o & Ho & Hor). destruct (B3 k _ Ho) as (o' & Ho' & Hor'). exists o'. destruct e; cbn in *. split; [done|].
    intuition congruence.
  - naive_solver congruence.
Qed.

Lemma release_body_ok ex t i s x :
  sinv ex s → txns s !! t = Some (Some x) → writes x = [] → i < MAX_KEYS → locked s ≠ Some i ∨ held_keys x !! i ≠ Some true →
  ∃ s', release_body t i s = Ok (tt, s', []) ∧ sinv ex s' ∧ released t s s' ∧ ∃ x', txns s' !! t = Some (Some x') ∧ held_keys x' !! i = Some false ∧ ∀ k, k ≠ i → held_keys x' !! k = held_keys x !! k.
Proof.
  intros Hs Ht Hw Hi Hlock. destruct (si_txn _ _ Hs _ _ Ht) as (_ & Hid & Hlen & _).
  destruct (lookup_lt_is_Some_2 (held_keys x) i) as [b Hb]; [lia|]. unfold release_body. destruct b.
  - destruct (si_held _ _ Hs _ _ _ Ht Hb) as (e & He & Ho). pose proof (lookup_lt_Some _ _ _ Ht) as Hlt. pose proof (lookup_lt_Some _ _ _ He) as Hk.
    eexists. split.
    { refine (bind_Ok _ _ _ _ _ [] _ _ [] (txn_ok _ _ _ Ht) _). refine (bind_Ok _ _ _ _ _ [] _ _ [] (lift_Ok _ _ _ (aget_lookup _ _ _ Hb)) _).
      refine (bind_Ok _ _ _ _ _ [] _ _ [] (_ : lock_key i s = Ok (tt, s, [])) _).
      { unfold lock_key. c_run. rewrite bool_decide_eq_false_2; [done|]. destruct Hlock; congruence. }
      refine (bind_Ok _ _ _ _ _ [] _ _ [] (entry_at_ok _ _ _ He) _). rewrite Ho, Hid, Nat.eqb_refl.
      refine (bind_Ok _ _ _ _ _ [] _ _ [] (set_owner_ok _ _ _ _ He) _). by apply update_txn_ok. }
    split_and!.
    + by apply (sinv_give s ex t x i e).
    + constructor; cbn [set_txns set_store txns store].
      * intros j Hj. by rewrite list_lookup_insert_ne.
      * intros y Hy. rewrite Ht in Hy. injection Hy as <-. exists (set_held i false x). rewrite list_lookup_insert_eq by done. split_and!; [done..|].
        intros k Hk'. apply list_lookup_insert_Some in Hk' as [(_ & ? & _)|[_ ?]]; done.
      * intros k e' He'. destruct (decide (i = k)) as [<-|Hne].
        -- rewrite He in He'. injection He' as <-. exists 0. rewrite list_lookup_insert_eq by done. by split; [|right].
        -- exists (owner_txn e'). rewrite list_lookup_insert_ne by done. by destruct e'; split; [|left].
      * done.
    + exists (set_held i false x). cbn [set_txns set_store txns]. rewrite list_lookup_insert_eq by done. split; [done|].
      cbn [set_held held_keys]. rewrite list_lookup_insert_eq by lia. split; [done|]. intros k Hne. by apply list_lookup_insert_ne.
  - exists s. split_and!; [|done|apply released_refl|by exists x].
    refine (bind_Ok _ _ _ _ _ [] _ _ [] (txn_ok _ _ _ Ht) _). by refine (bind_Ok _ _ _ _ _ [] _ _ [] (lift_Ok _ _ _ (aget_lookup _ _ _ Hb)) _).
Qed.

(** The mutex of a key the transaction holds is taken: the thread waits for itself. *)
Lemma release_body_hangs ex t i s x :
  sinv ex s → txns s !! t = Some (Some x) → i < MAX_KEYS → locked s = Some i → held_keys x !! i = Some true →
  release_body t i s = UB SelfDeadlock.
Proof.
  intros Hs Ht Hi Hl Hh. unfold release_body. refine (bind_UB _ _ _ _ _ [] _ (txn_ok _ _ _ Ht) _).
  refine (bind_UB _ _ _ _ _ [] _ (lift_Ok _ _ _ (aget_lookup _ _ _ Hh)) _). apply bind_fails. unfold lock_key. c_run.
  by rewrite bool_decide_eq_true_2.
Qed.

Lemma release_list_ok ex t ks s x :
  sinv ex s → txns s !! t = Some (Some x) → writes x = [] → Forall (λ k, k < MAX_KEYS) ks →
  (∀ k, k ∈ ks → locked s ≠ Some k ∨ held_keys x !! k ≠ Some true) →
  ∃ s' x', for_each (release_body t) ks s = Ok (tt, s', []) ∧ sinv ex s' ∧ released t s s' ∧ txns s' !! t = Some (Some x') ∧
    (∀ k, k ∈ ks → held_keys x' !! k = Some false) ∧ (∀ k, k ∉ ks → held_keys x' !! k = held_keys x !! k).
Proof.
  revert s x. induction ks as [|i ks IH]; intros s x Hs Ht Hw Hks Hl.
  { exists s, x. split_and!; [done|done|apply released_refl|done| |done]. intros k Hk. by apply elem_of_nil in Hk. }
  apply Forall_cons in Hks as [Hi Hks]. destruct (release_body_ok ex t i s x Hs Ht Hw Hi) as (s1 & H1 & Hs1 & Hr1 & x1 & Hx1 & Hx1i & Hx1k).
  { apply Hl. left. }
  destruct (re_txn _ _ _ Hr1 _ Ht) as (x1' & Hx1' & _ & Hw1 & _ & _ & Hsub). rewrite Hx1 in Hx1'. injection Hx1' as <-.
  destruct (IH s1 x1 Hs1 Hx1) as (s' & x' & H2 & Hs' & Hr' & Hx' & Hin & Hout); [congruence|done| |].
  { intros k Hk. destruct (re_same _ _ _ Hr1) as (_ & _ & -> & _). destruct (Hl k ltac:(by right)) as [?|Hh]; [by left|right].
    intros Hk'. apply Hh. by apply Hsub. }
  exists s', x'. split_and!; [exact (for_each_Ok _ _ _ _ _ _ _ _ H1 H2)|done|by eapply released_trans|done| |].
  - intros k [->|Hk]%elem_of_cons; [|by apply Hin]. destruct (decide (i ∈ ks)); [by apply Hin|]. by rewrite Hout.
  - intros k [Hki Hk]%not_elem_of_cons. rewrite Hout, Hx1k by done. done.
Qed.

(** All keys of a transaction are given back. *)
Lemma release_all_ok ex t s x :
  sinv ex s → txns s !! t = Some (Some x) → writes x = [] →
  (∀ k, locked s = Some k → held_keys x !! k ≠ Some true) →
  ∃ s' x', release_all_locks t s = Ok (tt, s', []) ∧ sinv ex s' ∧ released t s s' ∧ txns s' !! t = Some (Some x') ∧
    ∀ k, held_keys x' !! k ≠ Some true.
Proof.
  intros Hs Ht Hw Hl. destruct (release_list_ok ex t (seq 0 MAX_KEYS) s x Hs Ht Hw) as (s' & x' & H1 & Hs' & Hr & Hx' & Hin & _).
  { apply Forall_forall. intros k Hk%elem_of_seq. lia. }
  { intros k _. destruct (decide (locked s = Some k)) as [E|]; [right; by apply Hl|by left]. }
  exists s', x'. split_and!; [done..|]. intros k Hk. destruct (si_txn _ _ Hs' _ _ Hx') as (_ & _ & Hlen & _).
  pose proof (lookup_lt_Some _ _ _ Hk) as Hlt. rewrite Hin in Hk; [done|]. apply elem_of_seq. lia.
Qed.

Lemma release_all_hangs ex t s x k :
  sinv ex s → txns s !! t = Some (Some x) → writes x = [] → locked s = Some k → held_keys x !! k = Some true →
  release_all_locks t s = UB SelfDeadlock.
Proof.
  intros Hs Ht Hw Hl Hh. destruct (si_txn _ _ Hs _ _ Ht) as (_ & _ & Hlen & _). pose proof (lookup_lt_Some _ _ _ Hh) as Hlt.
  unfold release_all_locks. replace (seq 0 MAX_KEYS) with (seq 0 k ++ k :: seq (S k) (MAX_KEYS - S k)).
  2:{ replace MAX_KEYS with (k + S (MAX_KEYS - S k)) at 2 by lia. by rewrite seq_app. }
  destruct (release_list_ok ex t (seq 0 k) s x Hs Ht Hw) as (s' & x' & H1 & Hs' & Hr & Hx' & _ & Hout).
  { apply Forall_forall. intros j Hj%elem_of_seq. lia. }
  { intros j Hj%elem_of_seq. left. rewrite Hl. intros [= ->]. lia. }
  assert (∀ ks1 ks2 s0 s1, for_each (release_body t) ks1 s0 = Ok (tt, s1, []) →
    for_each (release_body t) ks2 s1 = UB SelfDeadlock → for_each (release_body t) (ks1 ++ ks2) s0 = UB SelfDeadlock) as Happ.
  { induction ks1 as [|j ks1 IH]; intros ks2 s0 s1 Ha Hb; [by injection Ha as <-|]. cbn [for_each app] in *.
    unfold mbind, C_bind in *. destruct (release_body t j s0) as [[[[] s2] o]|]; [|done].
    destruct (for_each (release_body t) ks1 s2) as [[[[] s3] o3]|] eqn:E; [|done]. injection Ha as -> Ho. apply app_nil in Ho as [-> ->].
    by rewrite (IH ks2 s2 s1 E Hb). }
  eapply Happ; [exact H1|]. apply bind_fails. eapply (release_body_hangs ex t k s' x'); [done|done|lia| |].
  - by destruct (re_same _ _ _ Hr) as (_ & _ & -> & _).
  - rewrite Hout; [done|]. intros Hk%elem_of_seq. lia.
Qed.

(** *** The graph *)

Definition graph_ok (w : list (list bool)) : Prop := length w = MAX_TXNS ∧ Forall (λ r, length r = MAX_TXNS) w.

Lemma set_edge_ok u v b w : graph_ok w → graph_ok (set_edge u v b w).
Proof.
  intros [H1 H2]. unfold set_edge. split; [by rewrite length_alter|]. apply Forall_lookup. intros i r Hr. destruct (decide (u = i)) as [<-|Hne].
  - rewrite list_lookup_alter_eq in Hr. destruct (w !! u) as [r0|] eqn:E; [|done]. injection Hr as <-. rewrite length_insert.
    by eapply (proj1 (Forall_lookup _ _) H2).
  - rewrite list_lookup_alter_ne in Hr by done. by eapply (proj1 (Forall_lookup _ _) H2).
Qed.

Lemma waits_set_edge u v b w x y :
  waits (set_edge u v b w) x y = true → waits w x y = true ∧ ¬ (b = false ∧ x = u ∧ y = v) ∨ b = true ∧ x = u ∧ y = v.
Proof.
  unfold waits, Wfg.waits, set_edge. destruct (decide (u = x)) as [<-|Hne].
  - rewrite list_lookup_alter_eq. destruct (w !! u) as [r|]; [|done]. cbn [fmap option_fmap option_map].
    destruct (<[v := b]> r !! y) as [z|] eqn:E; [|done]. intros ->. apply list_lookup_insert_Some in E as [(<- & <- & _)|[Hv ->]]; [by right|].
    left. split; [done|]. intros (_ & _ & ?). congruence.
  - rewrite list_lookup_alter_ne by done. destruct (w !! x) as [r|]; [|done]. intros Hy. left. split; [exact Hy|]. intros (_ & ? & _). congruence.
Qed.

Lemma waits_cut u v w x y : waits (set_edge u v false w) x y = true → waits w x y = true ∧ ¬ (x = u ∧ y = v).
Proof. intros [[H1 H2]|[? _]]%waits_set_edge; [|done]. split; [done|]. intros [??]. by apply H2. Qed.

Lemma unwait_graph_ok t o w : graph_ok w → graph_ok (remove_wait_edge t o w).
Proof. intros Hw. unfold remove_wait_edge. destruct (_ || _); [done|by apply set_edge_ok]. Qed.

Lemma waits_remove t o w x y : waits (remove_wait_edge t o w) x y = true → waits w x y = true ∧ (t ≠ 0 → o ≠ 0 → ¬ (x = t ∧ y = o)).
Proof.
  unfold remove_wait_edge. destruct (Nat.eqb_spec t 0) as [->|Ht]; cbn [orb]; [done|]. destruct (Nat.eqb_spec o 0) as [->|Ho]; [done|].
  intros [H1 H2]%waits_cut. done.
Qed.

Lemma clear_graph_ok t n w : graph_ok w → graph_ok (clear_edges t n w).
Proof.
  intros Hw. unfold clear_edges. assert (∀ (f : nat → nat * nat) l w, graph_ok w → graph_ok (foldl (λ w i, set_edge (f i).1 (f i).2 false w) w l)) as Hf.
  { intros f l. induction l as [|i l IH]; intros w0 Hw0; [done|]. apply IH. by apply set_edge_ok. }
  apply (Hf (λ j, (t, j))), (Hf (λ i, (i, t))), Hw.
Qed.

(** No edge from or to [t] is left. *)
Lemma waits_clear t n w x y :
  waits (clear_edges t n w) x y = true → waits w x y = true ∧ (1 ≤ y < n → x ≠ t) ∧ (1 ≤ x < n → y ≠ t).
Proof.
  unfold clear_edges.
  assert (∀ (f : nat → nat * nat) l w, waits (foldl (λ w i, set_edge (f i).1 (f i).2 false w) w l) x y = true →
    waits w x y = true ∧ ∀ i, i ∈ l → ¬ (x = (f i).1 ∧ y = (f i).2)) as Hf.
  { intros f l. induction l as [|i l IH]; intros w0 Hw0; [split; [done|]; intros j Hj; by apply elem_of_nil in Hj|].
    destruct (IH _ Hw0) as [[H1 H2]%waits_cut H3]. split; [done|]. intros j [->|Hj]%elem_of_cons; [done|by apply H3]. }
  intros H. apply (Hf (λ j, (t, j))) in H as [H H2]. apply (Hf (λ i, (i, t))) in H as [H H1]. split; [done|]. cbn [fst snd] in *. split.
  - intros Hy ->. apply (H2 y); [apply elem_of_seq; lia|done].
  - intros Hx ->. apply (H1 x); [apply elem_of_seq; lia|done].
Qed.

(** *** Abort *)

Lemma sinv_drop s t x : sinv (Some t) s → txns s !! t = Some (Some x) → (∀ k, held_keys x !! k ≠ Some true) → sinv None s.
Proof.
  intros [H1 H2 H3 H4 H5 H6 H7 H8 H9 H10] Ht Hh. constructor; try done.
  intros k e He Ho. destruct (H7 k e He Ho) as (Hu & y & Hy & Hyh & Hys). split; [done|]. exists y. split; [done|]. split; [done|].
  left. destruct Hys as [?|[= Heq]]; [done|]. rewrite <- Heq, Ht in Hy. injection Hy as <-. by apply Hh in Hyh.
Qed.

Definition before_release (t : nat) (x : Transaction) (s : state) : state :=
  set_wait_for (clear_edges t (next_txn_id s) (wait_for s)) (set_txns (<[t := Some (set_writes [] (set_status TXN_ABORTED x))]> (txns s)) s).

Lemma before_release_inv t x s : sinv None s → txns s !! t = Some (Some x) → sinv (Some t) (before_release t x s).
Proof.
  intros Hs Ht. eapply sinv_txn; [exact Hs|exact Ht|done|done|constructor| |done|by right; left|apply clear_graph_ok, (si_graph _ _ Hs)|].
  - intros k Hk. by apply elem_of_nil in Hk.
  - intros u v Huv. apply waits_clear in Huv as (Huv & Hu & _). split; [done|]. intros ->.
    destruct (si_edge _ _ Hs _ _ Huv) as (? & ? & _). by destruct (Hu ltac:(lia)).
Qed.

(** [abort_txn] of an active transaction up to [release_all_locks]. *)
Lemma abort_start t x s r :
  txns s !! t = Some (Some x) → status x = TXN_ACTIVE →
  release_all_locks t (before_release t x s) = r →
  match r with
  | UB e => abort_txn t s = UB e
  | Ok (_, s', o) => ∃ o', abort_txn t s = Ok (tt, s', o')
  end.
Proof.
  intros Ht Hst Hr. pose proof (lookup_lt_Some _ _ _ Ht) as Hlt.
  set (s1 := set_wait_for (clear_edges t (next_txn_id s) (wait_for s)) (set_txns (<[t := Some (set_status TXN_ABORTED x)]> (txns s)) s)).
  assert (update_txn t (set_writes []) s1 = Ok (tt, before_release t x s, [])) as Hu.
  { rewrite (update_txn_ok t (set_writes []) s1 (set_status TXN_ABORTED x)).
    - unfold before_release, s1, set_txns, set_wait_for. cbn [store txns global_ts next_txn_id wait_for locked]. by rewrite list_insert_insert_eq.
    - unfold s1. cbn [set_wait_for set_txns txns]. by apply list_lookup_insert_eq. }
  unfold abort_txn. destruct r as [[[[] s'] o]|e].
  - eexists. refine (bind_Ok _ _ _ _ _ [] _ _ _ (txn_ok _ _ _ Ht) _). rewrite bool_decide_eq_false_2 by (rewrite Hst; tauto).
    refine (bind_Ok _ _ _ _ _ [] _ _ _ (update_txn_ok _ _ _ _ Ht) _). refine (bind_Ok _ _ _ _ _ [] _ _ _ eq_refl _).
    refine (bind_Ok _ _ _ _ _ [] _ _ _ Hu _). exact (bind_Ok _ _ _ _ _ _ _ _ _ Hr eq_refl).
  - refine (bind_UB _ _ _ _ _ [] _ (txn_ok _ _ _ Ht) _). rewrite bool_decide_eq_false_2 by (rewrite Hst; tauto).
    refine (bind_UB _ _ _ _ _ [] _ (update_txn_ok _ _ _ _ Ht) _). refine (bind_UB _ _ _ _ _ [] _ eq_refl _).
    refine (bind_UB _ _ _ _ _ [] _ Hu _). by apply bind_fails.
Qed.

(** The effect of an abort. *)
Record aborted (t : nat) (s s' : state) : Prop := mkaborted {
  ab_others : ∀ j, j ≠ t → txns s' !! j = txns s !! j;
  ab_txn : ∃ x', txns s' !! t = Some (Some x') ∧ status x' = TXN_ABORTED ∧ writes x' = [] ∧ ∀ k, held_keys x' !! k ≠ Some true;
  ab_store : ∀ k e, store s !! k = Some e → ∃ o, store s' !! k = Some (with_owner o e) ∧ (o = owner_txn e ∨ owner_txn e = t ∧ o = 0);
  ab_same : next_txn_id s' = next_txn_id s ∧ wait_for s' = clear_edges t (next_txn_id s) (wait_for s) ∧ locked s' = locked s
}.

Lemma abort_ok t x s :
  sinv None s → txns s !! t = Some (Some x) → status x = TXN_ACTIVE → (∀ k, locked s = Some k → held_keys x !! k ≠ Some true) →
  ∃ s' o, abort_txn t s = Ok (tt, s', o) ∧ sinv None s' ∧ aborted t s s'.
Proof.
  intros Hs Ht Hst Hl. pose proof (before_release_inv t x s Hs Ht) as Hs1. pose proof (lookup_lt_Some _ _ _ Ht) as Hlt.
  assert (txns (before_release t x s) !! t = Some (Some (set_writes [] (set_status TXN_ABORTED x)))) as Ht1 by (by apply list_lookup_insert_eq).
  destruct (release_all_ok (Some t) t _ _ Hs1 Ht1 eq_refl Hl) as (s' & x' & Hr & Hs' & Hre & Hx' & Hnone).
  destruct (abort_start t x s _ Ht Hst Hr) as [o Ho]. exists s', o. split_and!; [done|by eapply sinv_drop|].
  destruct Hre as [R1 R2 R3 (R4 & R5 & R6 & _)]. constructor.
  - intros j Hj. rewrite R1 by done. cbn [before_release set_wait_for set_txns txns]. by rewrite list_lookup_insert_ne.
  - exists x'. destruct (R2 _ Ht1) as (x2 & Hx2 & ? & ? & _). rewrite Hx' in Hx2. injection Hx2 as <-. done.
  - exact R3.
  - done.
Qed.

Lemma abort_hangs t x s k :
  sinv None s → txns s !! t = Some (Some x) → status x = TXN_ACTIVE → locked s = Some k → held_keys x !! k = Some true →
  abort_txn t s = UB SelfDeadlock.
Proof.
  intros Hs Ht Hst Hl Hh. pose proof (before_release_inv t x s Hs Ht) as Hs1. pose proof (lookup_lt_Some _ _ _ Ht) as Hlt.
  apply (abort_start t x s (UB SelfDeadlock) Ht Hst).
  apply (release_all_hangs (Some t) t _ (set_writes [] (set_status TXN_ABORTED x)) k Hs1); [by apply list_lookup_insert_eq|done..].
Qed.

(** *** Taking a lock *)

(** The transactions that are active. *)
Definition is_active (s : state) (i : nat) : bool :=
  match txns s !! i with Some (Some t) => bool_decide (status t = TXN_ACTIVE) | _ => false end.

Definition actives (s : state) : nat := length (filter (λ i, is_active s i = true) (seq 0 MAX_TXNS)).

Lemma actives_bound s : actives s ≤ MAX_TXNS.
Proof. unfold actives. rewrite <- (length_seq MAX_TXNS 0) at 2. apply length_filter. Qed.

Lemma actives_abort t s s' : sinv None s → is_active s t = true → aborted t s s' → actives s' < actives s.
Proof.
  intros Hs Ht Hab. unfold actives. apply (submseteq_length (t :: _)). apply NoDup_submseteq.
  - constructor; [|apply NoDup_filter, NoDup_seq]. intros Hin. apply list_elem_of_filter in Hin as [Hin _].
    destruct (ab_txn _ _ _ Hab) as (x' & Hx' & Hst & _). unfold is_active in Hin. rewrite Hx' in Hin. by rewrite Hst in Hin.
  - intros j [->|Hj]%elem_of_cons.
    + apply list_elem_of_filter. split; [done|]. unfold is_active in Ht. destruct (txns s !! t) as [[x|]|] eqn:E; [|done|done].
      apply elem_of_seq. apply lookup_lt_Some in E. rewrite (si_len _ _ Hs) in E. lia.
    + apply list_elem_of_filter in Hj as [Hj Hr]. apply list_elem_of_filter. split; [|done]. unfold is_active in *.
      destruct (decide (j = t)) as [->|Hne]; [|by rewrite (ab_others _ _ _ Hab) in Hj].
      destruct (ab_txn _ _ _ Hab) as (x' & Hx' & Hst & _). rewrite Hx' in Hj. by rewrite Hst in Hj.
Qed.

(** The lock bit and a new edge of an active transaction. *)
Lemma sinv_locked ex s l : sinv ex s → sinv ex (set_locked l s).
Proof. by intros [H1 H2 H3 H4 H5 H6 H7 H8 H9 H10]. Qed.

Lemma sinv_graph s w :
  sinv None s → graph_ok w →
  (∀ u v, waits w u v = true → waits (wait_for s) u v = true ∨ v ≠ 0 ∧ v < next_txn_id s ∧ ∃ t, txns s !! u = Some (Some t) ∧ status t = TXN_ACTIVE) →
  sinv None (set_wait_for w s).
Proof.
  intros [H1 H2 H3 H4 H5 H6 H7 H8 H9 H10] Hw He. constructor; try done. intros u v Huv. destruct (He u v Huv) as [?|?]; [by apply H10|done].
Qed.

(** The search in a state of the program. *)
Lemma detect_ok s :
  sinv None s →
  ∃ r, detect_cycle_and_pick_victim s = Ok r ∧
    match r with
    | Some v => DetectSpec.youngest (txns s) (wait_for s) (next_txn_id s) v
    | None => ∀ x, ¬ tc (DetectSpec.edge (wait_for s) (next_txn_id s)) x x
    end.
Proof.
  intros Hs. destruct (DetectSpec.search_ok (txns s) (wait_for s) (next_txn_id s)) as (r & Hr & Hf & Hv).
  { apply (si_next _ _ Hs). }
  { intros u v (_ & _ & Huv). destruct (si_edge _ _ Hs u v Huv) as (_ & _ & t & Ht & _). unfold DetectSpec.edge, ts_of. rewrite Ht.
    split; [by eexists|]. destruct (si_txn _ _ Hs _ _ Ht). lia. }
  unfold detect_cycle_and_pick_victim. rewrite Hr. unfold mbind, res_bind. rewrite Hf. eexists. split; [done|].
  destruct (winner_victim r) as [v|]; [|done]. by rewrite bool_decide_eq_true_2 by eauto.
Qed.

Lemma youngest_active s v :
  sinv None s → DetectSpec.youngest (txns s) (wait_for s) (next_txn_id s) v →
  ∃ x y, txns s !! v = Some (Some x) ∧ status x = TXN_ACTIVE ∧ get_txn v s = Some x ∧ waits (wait_for s) v y = true.
Proof.
  intros Hs (c & tv & Hc & Hv & _). pose proof (DetectSpec.cycle_tc _ _ _ _ Hc Hv) as Htc.
  assert (∃ y, DetectSpec.edge (wait_for s) (next_txn_id s) v y) as (y & _ & _ & Hy) by (inversion Htc; eauto).
  destruct (si_edge _ _ Hs _ _ Hy) as (_ & _ & x & Hx & Hst). exists x, y. split_and!; [done|done| |done].
  destruct (si_txn _ _ Hs _ _ Hx) as (Hr & _). pose proof (si_next _ _ Hs). unfold get_txn.
  destruct (Nat.eqb_spec v 0); [lia|]. destruct (Nat.leb_spec MAX_TXNS v); [lia|]. cbn [orb]. by rewrite Hx.
Qed.

(** What a caller of [acquire_key_lock] finds. *)
Record taken (t k : nat) (s : state) (o : outcome) (s' : state) : Prop := mktaken {
  ta_inv : sinv None s';
  ta_locked : locked s' = None;
  ta_next : next_txn_id s' = next_txn_id s;
  ta_store : ∀ i e, store s !! i = Some e → ∃ o, store s' !! i = Some (with_owner o e);
  ta_edges : ∀ u v, waits (wait_for s') u v = true → waits (wait_for s) u v = true ∧ u ≠ t ∨ u = t ∧ o = Waits v;
  ta_txn : ∀ x, txns s !! t = Some (Some x) → ∃ x', txns s' !! t = Some (Some x') ∧
    match o with
    | Acquired => status x' = TXN_ACTIVE ∧ held_keys x' !! k = Some true ∧ writes x' = writes x
    | Refused => status x' ≠ TXN_ACTIVE
    | Waits _ => True
    end
}.

Lemma with_owner_id e : with_owner (owner_txn e) e = e.
Proof. by destruct e. Qed.

Section Acquire.
Context (t k : nat) (s : state) (x : Transaction) (e : KeyEntry).
Hypothesis Hs : sinv None s.
Hypothesis Hx : txns s !! t = Some (Some x).
Hypothesis He : store s !! k = Some e.
Hypothesis Hu : used e = true.
Hypothesis Hno : ∀ v, waits (wait_for s) t v ≠ true.

Lemma acquire_edges u v : waits (wait_for s) u v = true → waits (wait_for s) u v = true ∧ u ≠ t.
Proof. intros Huv. split; [done|]. intros ->. by apply Hno in Huv. Qed.

(** Nothing changes but the mutex. *)
Lemma taken_same o :
  match o with
  | Acquired => status x = TXN_ACTIVE ∧ held_keys x !! k = Some true
  | Refused => status x ≠ TXN_ACTIVE
  | Waits _ => False
  end → taken t k s o (set_locked None (set_locked (Some k) s)).
Proof.
  intros Ho. constructor; cbn [set_locked locked next_txn_id store wait_for txns]; try done.
  - by apply sinv_locked, sinv_locked.
  - intros i e' He'. exists (owner_txn e'). by rewrite with_owner_id.
  - intros u v Huv. left. by apply acquire_edges.
  - intros y Hy. rewrite Hx in Hy. injection Hy as <-. exists x. split; [done|]. destruct o; tauto.
Qed.

Lemma taken_new :
  status x = TXN_ACTIVE → owner_txn e = 0 →
  taken t k s Acquired (set_locked None (set_txns (<[t := Some (set_held k true x)]> (txns s)) (set_store (<[k := with_owner t e]> (store s)) (set_locked (Some k) s)))).
Proof.
  intros Hst Ho. pose proof (lookup_lt_Some _ _ _ Hx) as Hlt. pose proof (lookup_lt_Some _ _ _ He) as Hk.
  destruct (si_txn _ _ Hs _ _ Hx) as (_ & _ & Hlen & _). rewrite (si_store _ _ Hs) in Hk.
  constructor; cbn [set_locked set_txns set_store locked next_txn_id store wait_for txns]; try done.
  - apply sinv_locked. exact (sinv_take (set_locked (Some k) s) t x k e (sinv_locked _ _ _ Hs) Hx Hst He Hu Ho).
  - intros i e' He'. destruct (decide (k = i)) as [<-|Hne].
    + rewrite He in He'. injection He' as <-. exists t. apply list_lookup_insert_eq. by rewrite (si_store _ _ Hs).
    + exists (owner_txn e'). rewrite with_owner_id. by rewrite list_lookup_insert_ne.
  - intros u v Huv. left. by apply acquire_edges.
  - intros y Hy. rewrite Hx in Hy. injection Hy as <-. exists (set_held k true x). rewrite list_lookup_insert_eq by done. split; [done|].
    cbn [set_held held_keys]. rewrite list_lookup_insert_eq by lia. done.
Qed.

(** The state in which the search runs. *)
Definition waiting : state :=
  set_wait_for (add_wait_edge (id x) (owner_txn e) (wait_for s)) (set_locked (Some k) s).

Lemma waiting_edges u v : waits (wait_for waiting) u v = true → waits (wait_for s) u v = true ∧ u ≠ t ∨ u = t ∧ v = owner_txn e.
Proof.
  destruct (si_txn _ _ Hs _ _ Hx) as (_ & Hid & _). cbn [waiting set_wait_for wait_for]. unfold add_wait_edge. rewrite Hid.
  destruct (_ || _); [intros Huv; left; by apply acquire_edges|]. intros [[Huv _]|(_ & -> & ->)]%waits_set_edge; [left; by apply acquire_edges|by right].
Qed.

Lemma waiting_inv : status x = TXN_ACTIVE → owner_txn e ≠ 0 → sinv None waiting.
Proof.
  intros Hst Ho. apply (sinv_graph (set_locked (Some k) s)).
  - by apply sinv_locked.
  - unfold add_wait_edge. destruct (_ || _); [|apply set_edge_ok]; apply (si_graph _ _ Hs).
  - intros u v Huv. apply waiting_edges in Huv as [[Huv _]|[-> ->]]; [by left|right]. split; [done|].
    destruct (si_owner _ _ Hs k e He Ho) as (_ & y & Hy & _). destruct (si_txn _ _ Hs _ _ Hy) as (? & _). split; [cbn; lia|]. by exists x.
Qed.

End Acquire.

(** The edge of the waiter is taken back. *)
Definition unwait (t o : nat) (s : state) : state := set_wait_for (remove_wait_edge t o (wait_for s)) s.

Lemma unwait_inv t o s : sinv None s → sinv None (unwait t o s).
Proof.
  intros Hs. apply sinv_graph; [done|apply unwait_graph_ok, (si_graph _ _ Hs)|]. intros u v Huv. left. by apply waits_remove in Huv as [? _].
Qed.

(** A victim other than [t] was aborted: the state for the next round. *)
Lemma next_round t k s x e v s2 :
  sinv None s → txns s !! t = Some (Some x) → store s !! k = Some e → used e = true → (∀ v, waits (wait_for s) t v ≠ true) →
  owner_txn e ≠ 0 → v ≠ t → sinv None s2 → aborted v (waiting k s x e) s2 →
  let s3 := unwait t (owner_txn e) s2 in
  sinv None s3 ∧ txns s3 !! t = Some (Some x) ∧ (∃ o, store s3 !! k = Some (with_owner o e)) ∧ (∀ v, waits (wait_for s3) t v ≠ true) ∧
  ∀ o s', taken t k s3 o s' → taken t k s o s'.
Proof.
  intros Hs Hx He Hu Hno Ho Hv Hs2 Hab s3. destruct (si_txn _ _ Hs _ _ Hx) as (Hr & _).
  assert (∀ u v, waits (wait_for s3) u v = true → waits (wait_for s) u v = true ∧ u ≠ t) as Hedges.
  { intros a b Hab'. apply waits_remove in Hab' as [Hab' Hcut]. destruct (ab_same _ _ _ Hab) as (_ & Hw & _). rewrite Hw in Hab'.
    apply waits_clear in Hab' as (Hab' & _). apply (waiting_edges t k s x e Hs Hx Hno) in Hab' as [?|[-> ->]]; [done|].
    by destruct (Hcut ltac:(lia) Ho). }
  assert (∀ i e', store s !! i = Some e' → ∃ o, store s3 !! i = Some (with_owner o e')) as Hstore.
  { intros i e' He'. destruct (ab_store _ _ _ Hab i e' He') as (o & Hoo & _). by exists o. }
  assert (txns s3 !! t = Some (Some x)) as Hx3 by (cbn [s3 unwait set_wait_for txns]; rewrite (ab_others _ _ _ Hab) by done; done).
  split_and!; [by apply unwait_inv|done|by apply Hstore|intros b Hb; by apply Hedges in Hb as [_ ?]|].
  intros o s' [T1 T2 T3 T4 T5 T6]. constructor; try done.
  - rewrite T3. cbn [s3 unwait set_wait_for next_txn_id]. by destruct (ab_same _ _ _ Hab) as (-> & _).
  - intros i e' He'. destruct (Hstore i e' He') as [o1 H1]. destruct (T4 i _ H1) as [o2 H2]. by exists o2.
  - intros a b Hab'. destruct (T5 a b Hab') as [[H1 H2]|?]; [left; by apply Hedges|by right].
  - intros y Hy. rewrite Hx in Hy. injection Hy as <-. by apply T6.
Qed.

(** What [contend] does with each result of the search. *)
Lemma contend_ok again t k s x e :
  sinv None s → txns s !! t = Some (Some x) → store s !! k = Some e → used e = true → (∀ v, waits (wait_for s) t v ≠ true) →
  status x = TXN_ACTIVE → owner_txn e ≠ 0 → owner_txn e ≠ t →
  (∀ s', sinv None s' → txns s' !! t = Some (Some x) → (∃ o, store s' !! k = Some (with_owner o e)) →
    (∀ v, waits (wait_for s') t v ≠ true) → actives s' < actives s →
    again s' = UB SelfDeadlock ∨ ∃ o s'' out, again s' = Ok (o, s'', out) ∧ taken t k s' o s'') →
  let r := contend again t x (owner_txn e) (set_locked (Some k) s) in
  r = UB SelfDeadlock ∨ ∃ o s' out, r = Ok (o, s', out) ∧ taken t k s o s'.
Proof.
  intros Hs Hx He Hu Hno Hst Ho Hot Hagain r. destruct (si_txn _ _ Hs _ _ Hx) as (Hr & Hid & _).
  pose proof (waiting_inv t k s x e Hs Hx He Hno Hst Ho) as Hs1. destruct (detect_ok _ Hs1) as (v & Hdet & Hv).
  unfold r, contend. rewrite (bind_step _ _ _ _ (waiting k s x e) eq_refl), (bind_step _ _ _ _ _ eq_refl), (bind_step _ _ _ _ _ (lift_Ok _ _ _ Hdet)).
  destruct v as [v|].
  - destruct (youngest_active _ _ Hs1 Hv) as (xv & y & Hxv & Hstv & Hget & Hy). destruct (Nat.eqb_spec v (id x)) as [Hvt|Hvt].
    + rewrite Hid in Hvt. subst v. rewrite (bind_step _ _ _ _ (unwait t (owner_txn e) (waiting k s x e))) by (by rewrite Hid).
      rewrite (bind_step _ _ _ _ _ eq_refl).
      destruct (abort_ok t x (set_locked None (unwait t (owner_txn e) (waiting k s x e)))) as (s' & o & Hab & Hs' & Ha); [by apply sinv_locked, unwait_inv|done..|].
      right. eexists Refused, s', _. split; [exact (bind_Ok _ _ _ _ _ _ _ _ [] Hab eq_refl)|]. destruct (ab_same _ _ _ Ha) as (Hn & Hw & Hl).
      constructor; [done|done|done| | |].
      * intros i e' He'. destruct (ab_store _ _ _ Ha i e' He') as (o' & Ho' & _). by exists o'.
      * intros a b Hab'. rewrite Hw in Hab'. apply waits_clear in Hab' as (Hab' & _). apply waits_remove in Hab' as [Hab' Hcut].
        apply (waiting_edges t k s x e Hs Hx Hno) in Hab' as [?|[-> ->]]; [by left|]. by destruct (Hcut ltac:(lia) Ho).
      * intros z _. destruct (ab_txn _ _ _ Ha) as (x' & Hx' & Hstx & _). exists x'. split; [done|]. by rewrite Hstx.
    + rewrite Hget. assert (v ≠ t) as Hvt' by congruence. destruct (decide (held_keys xv !! k = Some true)) as [Hh|Hh].
      * left. refine (bind_UB _ _ _ _ _ [_] _ eq_refl _). apply bind_fails. by apply (abort_hangs v xv _ k).
      * destruct (abort_ok v xv (waiting k s x e) Hs1 Hxv Hstv) as (s2 & o & Hab & Hs2 & Ha); [by intros j [= <-]|].
        destruct (next_round t k s x e v s2 Hs Hx He Hu Hno Ho Hvt' Hs2 Ha) as (Hs3 & Hx3 & He3 & Hno3 & Htrans).
        assert (modify (λ s, set_wait_for (remove_wait_edge (id x) (owner_txn e) (wait_for s)) s) s2 = Ok (tt, unwait t (owner_txn e) s2, [])) as Hun by (by rewrite Hid).
        destruct (Hagain _ Hs3 Hx3 He3 Hno3) as [Hub|(o' & s' & out & Hok & Htk)].
        { change (actives s2 < actives (waiting k s x e)). eapply actives_abort; [done| |done]. unfold is_active. rewrite Hxv. by rewrite bool_decide_eq_true_2. }
        -- left. refine (bind_UB _ _ _ _ _ [_] _ eq_refl _). refine (bind_UB _ _ _ _ _ _ _ Hab _). by rewrite (bind_step _ _ _ _ _ Hun).
        -- right. eexists o', s', _. split; [|by apply Htrans]. refine (bind_Ok _ _ _ _ _ [_] _ _ _ eq_refl _).
           refine (bind_Ok _ _ _ _ _ _ _ _ _ Hab _). rewrite (bind_step _ _ _ _ _ Hun). exact Hok.
  - right. eexists (Waits (owner_txn e)), (set_locked None (waiting k s x e)), []. split; [done|]. constructor; try done.
    + by apply sinv_locked.
    + intros i e' He'. exists (owner_txn e'). by rewrite with_owner_id.
    + intros a b Hab. apply (waiting_edges t k s x e Hs Hx Hno) in Hab as [?|[-> ->]]; [by left|by right].
    + intros z Hz. by exists z.
Qed.

Lemma key_acquire_ok fuel t k s x e :
  sinv None s → txns s !! t = Some (Some x) → store s !! k = Some e → used e = true → (∀ v, waits (wait_for s) t v ≠ true) →
  actives s < fuel →
  acquire_key_lock fuel t k s = UB SelfDeadlock ∨ ∃ o s' out, acquire_key_lock fuel t k s = Ok (o, s', out) ∧ taken t k s o s'.
Proof.
  revert s x e. induction fuel as [|fuel IH]; intros s x e Hs Hx He Hu Hno Hfuel; [lia|]. cbn [acquire_key_lock].
  destruct (si_txn _ _ Hs _ _ Hx) as (Hr & Hid & _).
  rewrite (bind_step _ _ _ _ (set_locked (Some k) s) eq_refl), (bind_step _ _ _ _ _ (txn_ok t (set_locked (Some k) s) x Hx)).
  destruct (decide (status x = TXN_ACTIVE)) as [Hst|Hst].
  2:{ right. rewrite bool_decide_eq_true_2 by done. eexists Refused, _, _. by split; [|apply (taken_same t k s x Hs Hx Hno Refused)]. }
  rewrite bool_decide_eq_false_2 by tauto. rewrite (bind_step _ _ _ _ _ (entry_at_ok k (set_locked (Some k) s) e He)).
  destruct (Nat.eqb_spec (owner_txn e) 0) as [Ho|Ho].
  { right. rewrite (bind_step _ _ _ _ _ (set_owner_ok k (id x) (set_locked (Some k) s) e He)).
    erewrite bind_step; [|apply (update_txn_ok t _ _ x); exact Hx]. rewrite Hid. eexists Acquired, _, []. by split; [|apply (taken_new t k s x e Hs Hx He Hu Hno)]. }
  destruct (Nat.eqb_spec (owner_txn e) (id x)) as [Hot|Hot].
  { right. eexists Acquired, _, []. split; [done|]. apply (taken_same t k s x Hs Hx Hno Acquired). split; [done|]. apply (held_iff s None t x k e); congruence. }
  apply contend_ok; try done; [congruence|]. intros s' Hs' Hx' [o He'] Hno' Hact. apply (IH s' x (with_owner o e)); try done. lia.
Qed.

(** *** The table of keys *)

(** A slot that was used keeps its key; nothing else matters. *)
Lemma sinv_slot s idx e k :
  sinv None s → store s !! idx = Some e → used e = false → sinv None (set_store (<[idx := mkEntry k "" 0 true]> (store s)) s).
Proof.
  intros Hs He Hu. assert (owner_txn e = 0) as Ho.
  { destruct (decide (owner_txn e = 0)) as [?|Hne]; [done|]. destruct (si_owner _ _ Hs _ _ He Hne). congruence. }
  pose proof (lookup_lt_Some _ _ _ He) as Hlt. destruct Hs as [H1 H2 H3 H4 H5 H6 H7 H8 H9 H10].
  constructor; cbn [store txns next_txn_id wait_for set_store]; try done.
  - by rewrite length_insert.
  - intros k' e' He' Ho'. apply list_lookup_insert_Some in He' as [(<- & <- & _)|[Hne He']]; [done|by apply H7].
  - intros i x k' Hx Hk'. destruct (H8 i x k' Hx Hk') as (e' & He' & Hoe'). exists e'. split; [|done].
    rewrite list_lookup_insert_ne; [done|]. intros <-. rewrite He in He'. injection He' as <-. destruct (H6 _ _ Hx) as (? & _). lia.
Qed.

(** What a search for a key changes. *)
Record keyed (s s' : state) : Prop := mkkeyed {
  ke_txns : txns s' = txns s;
  ke_wait : wait_for s' = wait_for s;
  ke_next : next_txn_id s' = next_txn_id s;
  ke_locked : locked s' = locked s;
  ke_store : ∀ i e, store s !! i = Some e → used e = true → store s' !! i = Some e
}.

Lemma probe_ok k slots idx s :
  sinv None s → idx < MAX_KEYS →
  ∃ r s' o, probe k idx slots s = Ok (r, s', o) ∧ sinv None s' ∧ keyed s s' ∧
    match r with Some i => ∃ e, store s' !! i = Some e ∧ used e = true | None => True end.
Proof.
  revert idx. induction slots as [|slots IH]; intros idx Hs Hi; cbn [probe].
  { exists None, s. eexists. split_and!; [done..|by constructor|done]. }
  destruct (entry_exists None s idx Hs Hi) as [e He]. rewrite (bind_step _ _ _ _ _ eq_refl), (bind_step _ _ _ _ _ (lift_Ok _ _ _ (aget_lookup _ _ _ He))).
  destruct (used e) eqn:Hu; cbn [negb].
  - destruct (same_prefix _ _ _); [exists (Some idx), s, []; split_and!; [done..|by constructor|by exists e]|].
    apply IH; [done|]. apply Nat.mod_upper_bound. done.
  - eexists (Some idx), _, []. split_and!; [done|by apply (sinv_slot s idx e)| |].
    + constructor; try done. intros i e' He' Hu'. cbn [set_store store]. rewrite list_lookup_insert_ne; [done|]. intros <-. congruence.
    + eexists. cbn [set_store store]. rewrite list_lookup_insert_eq; [done|]. by rewrite (si_store _ _ Hs).
Qed.

Lemma hash_key_lt k : hash_key k < MAX_KEYS.
Proof.
  unfold hash_key. pose proof (Z.mod_pos_bound (foldl (λ h c, (h * 32 + h + Z.of_nat (Ascii.nat_of_ascii c)) mod 2 ^ 64)%Z 5381%Z (String.list_ascii_of_string k))
    (Z.of_nat MAX_KEYS) ltac:(unfold MAX_KEYS; lia)). lia.
Qed.

(** *** Commit *)

Definition with_value (v : string) (e : KeyEntry) : KeyEntry := mkEntry (key e) v (owner_txn e) (used e).

Lemma sinv_value ex s k e v : sinv ex s → store s !! k = Some e → sinv ex (set_store (<[k := with_value v e]> (store s)) s).
Proof.
  intros [H1 H2 H3 H4 H5 H6 H7 H8 H9 H10] He. pose proof (lookup_lt_Some _ _ _ He) as Hlt.
  constructor; cbn [store txns next_txn_id wait_for set_store]; try done.
  - by rewrite length_insert.
  - intros k' e' He' Ho'. apply list_lookup_insert_Some in He' as [(<- & <- & _)|[Hne He']]; [exact (H7 k e He Ho')|by apply H7].
  - intros i x k' Hx Hk'. destruct (H8 i x k' Hx Hk') as (e' & He' & Hoe'). destruct (decide (k = k')) as [<-|Hne].
    + rewrite He in He'. injection He' as <-. exists (with_value v e). by rewrite list_lookup_insert_eq.
    + exists e'. by rewrite list_lookup_insert_ne.
Qed.

(** The values after the writes [l]: the last one for each key. *)
Definition written (l : list (nat * string)) (i : nat) (v : string) : string :=
  foldl (λ v w, if fst w =? i then clip MAX_VALUE_LEN (snd w) else v) v l.

Lemma store_writes_ok ex l s :
  sinv ex s → Forall (λ k, k < MAX_KEYS) (fst <$> l) →
  ∃ s', store_writes l s = Ok (tt, s', []) ∧ sinv ex s' ∧ txns s' = txns s ∧ wait_for s' = wait_for s ∧ next_txn_id s' = next_txn_id s ∧
    locked s' = locked s ∧ ∀ i e, store s !! i = Some e → store s' !! i = Some (with_value (written l i (value e)) e).
Proof.
  revert s. induction l as [|[k v] l IH]; intros s Hs Hl.
  { exists s. split_and!; [done..|]. intros i e He. by destruct e. }
  rewrite fmap_cons in Hl. apply Forall_cons in Hl as [Hk Hl]. cbn [fst] in Hk. destruct (entry_exists ex s k Hs Hk) as [e He].
  destruct (IH _ (sinv_value ex s k e (clip MAX_VALUE_LEN v) Hs He) Hl) as (s' & H1 & H2 & H3 & H4 & H5 & H6 & H7).
  exists s'. split_and!; [|done..|].
  - refine (for_each_Ok _ _ _ _ _ [] _ [] _ H1). cbn [fst snd]. rewrite (bind_step _ _ _ _ _ (entry_at_ok _ _ _ He)). reflexivity.
  - intros i e' He'. cbn [written foldl fst snd] in *. destruct (Nat.eqb_spec k i) as [<-|Hne].
    + rewrite He in He'. injection He' as <-. rewrite (H7 k (with_value (clip MAX_VALUE_LEN v) e)); [done|].
      cbn [set_store store]. apply list_lookup_insert_eq. by apply lookup_lt_Some in He.
    + apply (H7 i e'). cbn [set_store store]. by rewrite list_lookup_insert_ne.
Qed.

(** What a commit leaves: the writes are in the table, the locks are free. *)
Record committed (t : nat) (x : Transaction) (s s' : state) : Prop := mkcommitted {
  co_inv : sinv None s';
  co_next : next_txn_id s' = next_txn_id s;
  co_wait : wait_for s' = wait_for s;
  co_locked : locked s' = locked s;
  co_txn : ∃ x', txns s' !! t = Some (Some x') ∧ status x' = TXN_COMMITTED ∧ writes x' = [] ∧ ∀ k, held_keys x' !! k ≠ Some true;
  co_store : ∀ i e, store s !! i = Some e → ∃ o, store s' !! i = Some (with_owner o (with_value (written (writes x) i (value e)) e)) ∧
    (o = owner_txn e ∨ owner_txn e = t ∧ o = 0)
}.

Lemma commit_ok t x s :
  sinv None s → txns s !! t = Some (Some x) → status x = TXN_ACTIVE → locked s = None → (∀ v, waits (wait_for s) t v ≠ true) →
  ∃ s' o, txn_commit t s = Ok (0%Z, s', o) ∧ committed t x s s'.
Proof.
  intros Hs Ht Hst Hl Hno. unfold txn_commit. rewrite (bind_step _ _ _ _ _ (txn_ok _ _ _ Ht)), bool_decide_eq_false_2 by (rewrite Hst; tauto).
  destruct (store_writes_ok None (writes x) s Hs) as (s1 & H1 & Hs1 & Htx & Hw & Hn & Hl1 & Hv).
  { apply Forall_forall. intros k Hk. pose proof (si_writes _ _ Hs _ _ _ Ht Hk) as Hh. destruct (si_held _ _ Hs _ _ _ Ht Hh) as (e & He & _).
    apply lookup_lt_Some in He. by rewrite (si_store _ _ Hs) in He. }
  rewrite (bind_step _ _ _ _ _ H1). assert (txns s1 !! t = Some (Some x)) as Ht1 by (by rewrite Htx). pose proof (lookup_lt_Some _ _ _ Ht1) as Hlt.
  rewrite (bind_step _ _ _ _ _ (update_txn_ok t _ s1 x Ht1)). set (s2 := set_txns _ s1).
  assert (sinv None s2) as Hs2.
  { assert (s2 = set_wait_for (wait_for s1) s2) as -> by (by destruct s1). eapply sinv_txn; [exact Hs1|exact Ht1|done|done|constructor| |done|by left|apply (si_graph _ _ Hs1)|done].
    intros k Hk. by apply elem_of_nil in Hk. }
  assert (txns s2 !! t = Some (Some (set_writes [] x))) as Ht2 by (by apply list_lookup_insert_eq).
  destruct (release_all_ok None t s2 _ Hs2 Ht2 eq_refl) as (s3 & x3 & H3 & Hs3 & [R1 R2 R3 (R4 & R5 & R6 & _)] & Hx3 & Hnone).
  { intros k Hk. cbn [s2 set_txns locked] in Hk. congruence. }
  rewrite (bind_step _ _ _ _ _ H3), (bind_step _ _ _ _ _ (update_txn_ok t _ s3 x3 Hx3)).
  eexists _, _. split; [reflexivity|]. pose proof (lookup_lt_Some _ _ _ Hx3) as Hlt3.
  destruct (R2 _ Ht2) as (x3' & Hx3' & _ & Hw3 & _). rewrite Hx3 in Hx3'. injection Hx3' as <-.
  constructor; cbn [set_txns next_txn_id wait_for locked store txns]; [|by rewrite R4|by rewrite R5|by rewrite R6| |].
  - assert (set_txns (<[t := Some (set_status TXN_COMMITTED x3)]> (txns s3)) s3 =
      set_wait_for (wait_for s3) (set_txns (<[t := Some (set_status TXN_COMMITTED x3)]> (txns s3)) s3)) as -> by (by destruct s3).
    eapply sinv_txn; [exact Hs3|exact Hx3|done|done| | |done|by right; right|apply (si_graph _ _ Hs3)|].
    + cbn [set_status writes]. rewrite Hw3. constructor.
    + intros k Hk. cbn [set_status writes] in Hk. rewrite Hw3 in Hk. by apply elem_of_nil in Hk.
    + intros u v Huv. split; [done|]. intros ->. rewrite R5 in Huv. cbn [s2 set_txns wait_for] in Huv. rewrite Hw in Huv. by apply Hno in Huv.
  - exists (set_status TXN_COMMITTED x3). rewrite list_lookup_insert_eq by done. by split_and!.
  - intros i e He. exact (R3 i _ (Hv i e He)).
Qed.

(** *** Buffered writes *)

Lemma buffer_keys idx v l :
  NoDup (fst <$> l) → NoDup (fst <$> local_write idx v l) ∧ ∀ k, k ∈ (fst <$> local_write idx v l) → k = idx ∨ k ∈ (fst <$> l).
Proof.
  intros Hnd. unfold local_write. destruct (list_find _ l) as [[i [j u]]|] eqn:E.
  - apply list_find_Some in E as (Hi & Hj & _). cbn [fst] in Hj. subst j.
    assert (fst <$> <[i := (idx, clip MAX_VALUE_LEN v)]> l = fst <$> l) as ->; [|split; [done|by right]].
    rewrite list_fmap_insert. apply list_insert_id. by rewrite list_lookup_fmap, Hi.
  - apply list_find_None in E. rewrite fmap_cons. split.
    + constructor; [|done]. intros Hin. apply list_elem_of_fmap in Hin as (w & Hw' & Hw). cbn [fst] in Hw'. rewrite Forall_forall in E. by apply (E w).
    + intros k [->|Hk]%elem_of_cons; [by left|by right].
Qed.

Lemma buffer_ok t idx v s x :
  sinv None s → txns s !! t = Some (Some x) → status x = TXN_ACTIVE → held_keys x !! idx = Some true →
  ∃ s', update_txn t (λ x, set_writes (local_write idx v (writes x)) x) s = Ok (tt, s', []) ∧ sinv None s' ∧ store s' = store s ∧
    wait_for s' = wait_for s ∧ next_txn_id s' = next_txn_id s ∧ locked s' = locked s.
Proof.
  intros Hs Ht Hst Hh. eexists. split_and!; [by apply update_txn_ok| |done..].
  set (s' := set_txns _ s). assert (s' = set_wait_for (wait_for s) s') as -> by (by destruct s).
  destruct (si_txn _ _ Hs _ _ Ht) as (_ & _ & _ & Hnd). destruct (buffer_keys idx v _ Hnd) as [Hnd' Hk].
  eapply sinv_txn; [exact Hs|exact Ht|done|done|exact Hnd'| |done|by left|apply (si_graph _ _ Hs)|done].
  intros k Hin. apply Hk in Hin as [->|Hin]; [done|by apply (si_writes _ _ Hs t x)].
Qed.

(** *** All threads *)

Definition txn_of (p : pc) : option nat :=
  match p with Running t _ | Asleep t _ _ _ _ _ => Some t | _ => None end.

Definition is_start (p : pc) : bool := match p with Start _ _ => true | _ => false end.

Definition pc_ok (s : state) (p : pc) : Prop :=
  match p with
  | Running t _ => ∃ x, txns s !! t = Some (Some x)
  | Asleep t k _ _ _ _ => (∃ x, txns s !! t = Some (Some x)) ∧ ∃ e, store s !! k = Some e ∧ used e = true
  | _ => True
  end.

Record winv (s : system) : Prop := mkwinv {
  w_inv : sinv None (shared s);
  w_locked : locked (shared s) = None;
  w_pcs : ∀ i p, threads s !! i = Some p → pc_ok (shared s) p;
  w_ids : ∀ i j p q t, threads s !! i = Some p → threads s !! j = Some q → txn_of p = Some t → txn_of q = Some t → i = j;
  w_edges : ∀ u v, waits (wait_for (shared s)) u v = true →
    ∃ i k key v' todo, threads s !! i = Some (Asleep u k v key v' todo);
  w_room : length (filter (λ p, is_start p = true) (threads s)) + next_txn_id (shared s) ≤ MAX_TXNS
}.

(** The state after a step of one thread, as the others see it. *)
Record stepped (s s' : state) : Prop := mkstepped {
  st_inv : sinv None s';
  st_locked : locked s' = None;
  st_next : next_txn_id s ≤ next_txn_id s';
  st_used : ∀ i e, store s !! i = Some e → used e = true → ∃ e', store s' !! i = Some e' ∧ used e' = true
}.

Lemma pc_ok_stepped s s' p : sinv None s → stepped s s' → pc_ok s p → pc_ok s' p.
Proof.
  intros Hs [H1 _ H3 H4]. assert (∀ t x, txns s !! t = Some (Some x) → ∃ x', txns s' !! t = Some (Some x')) as Htx.
  { intros t x Hx. apply (si_exists _ _ H1). destruct (si_txn _ _ Hs _ _ Hx). lia. }
  destruct p; simpl; [done|intros [x Hx]; eauto| |done]. intros [[x Hx] (e & He & Hu)]. eauto.
Qed.

Lemma filter_insert_start (l : list pc) i p p' :
  l !! i = Some p → length (filter (λ p, is_start p = true) (<[i := p']> l)) + (if is_start p then 1 else 0) =
    length (filter (λ p, is_start p = true) l) + (if is_start p' then 1 else 0).
Proof.
  revert i. induction l as [|q l IH]; intros [|i] Hi; [done|done| |].
  - injection Hi as ->. cbn [insert list_insert]. rewrite !filter_cons. destruct (is_start p), (is_start p'); repeat case_decide; try done; cbn [length]; lia.
  - specialize (IH i Hi). cbn [insert list_insert]. rewrite !filter_cons. case_decide; [exact (f_equal S IH)|exact IH].
Qed.

(** Thread [i] goes from [p] to [p']. *)
Lemma winv_step s i p p' s' :
  winv s → threads s !! i = Some p → stepped (shared s) s' → pc_ok s' p' →
  (∀ t, txn_of p' = Some t → txn_of p = Some t ∨ next_txn_id (shared s) ≤ t) →
  (∀ u v, waits (wait_for s') u v = true →
    waits (wait_for (shared s)) u v = true ∧ txn_of p ≠ Some u ∨ ∃ k key v' todo, p' = Asleep u k v key v' todo) →
  next_txn_id s' + (if is_start p' then 1 else 0) ≤ next_txn_id (shared s) + (if is_start p then 1 else 0) →
  winv (mkSystem s' (<[i := p']> (threads s))).
Proof.
  intros Hw Hp Hst Hp' Hid He Hroom. pose proof (lookup_lt_Some _ _ _ Hp) as Hlt. pose proof (w_inv _ Hw) as Hs.
  constructor; cbn [shared threads]; [apply Hst|apply Hst| | | |].
  - intros j q Hq. apply list_lookup_insert_Some in Hq as [(<- & <- & _)|[_ Hq]]; [done|].
    eapply pc_ok_stepped; [exact Hs|exact Hst|by apply (w_pcs _ Hw j)].
  - assert (∀ j q t, threads s !! j = Some q → j ≠ i → txn_of q = Some t → txn_of p' = Some t → False) as Hcross.
    { intros j q t Hq Hj Ht Ht'. destruct (Hid t Ht') as [Hpt|Hge].
      - apply Hj. by eapply (w_ids _ Hw j i q p t).
      - pose proof (w_pcs _ Hw j q Hq) as Hok. assert (∃ x, txns (shared s) !! t = Some (Some x)) as [x Hx].
        { destruct q; cbn in Ht, Hok; try done; injection Ht as <-; tauto. }
        destruct (si_txn _ _ Hs _ _ Hx). lia. }
    intros a b q r t Ha Hb Hqa Hrb. apply list_lookup_insert_Some in Ha as [(<- & <- & _)|[Hna Ha]];
      apply list_lookup_insert_Some in Hb as [(<- & <- & _)|[Hnb Hb]]; [done| | |by eapply (w_ids _ Hw)].
    + exfalso. by apply (Hcross b r t).
    + exfalso. by apply (Hcross a q t).
  - intros u v Huv. destruct (He u v Huv) as [[Huv' Hnu]|(k & key & v' & todo & ->)].
    + destruct (w_edges _ Hw u v Huv') as (j & k & key & v' & todo & Hj). exists j, k, key, v', todo. rewrite list_lookup_insert_ne; [done|].
      intros <-. rewrite Hp in Hj. injection Hj as ->. by apply Hnu.
    + exists i, k, key, v', todo. by apply list_lookup_insert_eq.
  - pose proof (filter_insert_start (threads s) i p p' Hp). pose proof (w_room _ Hw). lia.
Qed.

Lemma stepped_refl s : sinv None s → locked s = None → stepped s s.
Proof. intros Hs Hl. constructor; [done|done|lia|eauto]. Qed.

(** A thread that is not asleep has no edge. *)
Lemma running_no_edges s i p t :
  winv s → threads s !! i = Some p → txn_of p = Some t → (∀ a b c d e f, p ≠ Asleep a b c d e f) →
  ∀ v, waits (wait_for (shared s)) t v ≠ true.
Proof.
  intros Hw Hp Ht Hna v Hv. destruct (w_edges _ Hw t v Hv) as (j & k & key & v' & todo & Hj).
  assert (i = j) as <- by (by eapply (w_ids _ Hw i j _ _ t)). rewrite Hp in Hj. injection Hj as ->. by eapply Hna.
Qed.

Lemma create_ok s :
  sinv None s → locked s = None → next_txn_id s < MAX_TXNS →
  ∃ s' x, create_txn s = Ok (Some (next_txn_id s), s', []) ∧ stepped s s' ∧ next_txn_id s' = next_txn_id s + 1 ∧
    wait_for s' = wait_for s ∧ txns s' !! next_txn_id s = Some (Some x).
Proof.
  intros [H1 H2 H3 H4 H5 H6 H7 H8 H9 H10] Hl Hn. unfold create_txn. rewrite (bind_step _ _ _ _ _ eq_refl).
  destruct (Nat.leb_spec MAX_TXNS (next_txn_id s)); [lia|]. set (n := next_txn_id s) in *.
  set (x := mkTxn n (global_ts s) TXN_ACTIVE [] (replicate MAX_KEYS false)).
  assert (∀ j y, txns s !! j = Some (Some y) → (<[n := Some x]> (txns s)) !! j = Some (Some y)) as Hold.
  { intros j y Hy. rewrite list_lookup_insert_ne; [done|]. intros <-. destruct (H6 _ _ Hy). lia. }
  assert (∀ k, held_keys x !! k ≠ Some true) as Hnone.
  { intros k Hk. cbn [x held_keys] in Hk. by apply lookup_replicate in Hk as [? _]. }
  eexists _, x. split_and!; [reflexivity| |done|done|cbn [txns]; apply list_lookup_insert_eq; lia].
  constructor; cbn [locked next_txn_id store]; [|done|lia|eauto].
  constructor; cbn [store txns wait_for next_txn_id]; try done.
  - by rewrite length_insert.
  - lia.
  - intros j Hj. destruct (decide (n = j)) as [<-|Hne]; [exists x; apply list_lookup_insert_eq; lia|].
    destruct (H5 j) as [y Hy]; [lia|]. exists y. by apply Hold.
  - intros j y Hy. txn_cases Hy; [|destruct (H6 _ _ Hy) as (? & ?); split; [lia|done]]. split_and!; [lia|lia|done|by apply length_replicate|constructor].
  - intros k e He Ho. destruct (H7 k e He Ho) as (Hu & y & Hy & Hyh & Hys). split; [done|]. exists y. by split; [apply Hold|].
  - intros j y k Hy Hk. txn_cases Hy; [by apply Hnone in Hk|by apply (H8 j y)].
  - intros j y k Hy Hk. txn_cases Hy; [by apply elem_of_nil in Hk|by apply (H9 j y)].
  - intros u v Huv. destruct (H10 u v Huv) as (Hv & Hvn & y & Hy & Hys). split_and!; [done|lia|]. exists y. by split; [apply Hold|].
Qed.

(** The rest of [txn_write]. *)
Lemma after_acquire_ok t idx k v todo s x e o s' :
  txns s !! t = Some (Some x) → store s !! idx = Some e → used e = true → taken t idx s o s' →
  ∃ p' s'' out, after_acquire t idx k v todo o s' = Ok (p', s'', out) ∧ stepped s s'' ∧ next_txn_id s'' = next_txn_id s ∧ pc_ok s'' p' ∧
    (∀ i, txn_of p' = Some i → i = t) ∧ is_start p' = false ∧
    ∀ a b, waits (wait_for s'') a b = true → waits (wait_for s) a b = true ∧ a ≠ t ∨ ∃ k key v' todo, p' = Asleep a k b key v' todo.
Proof.
  intros Hx He Hu [T1 T2 T3 T4 T5 T6]. destruct (T6 x Hx) as (x' & Hx' & Ho).
  assert (∀ s'', sinv None s'' → store s'' = store s' → locked s'' = locked s' → next_txn_id s'' = next_txn_id s' → stepped s s'') as Hstep.
  { intros s'' Hs'' Hst Hl Hn. constructor; [done|congruence|rewrite Hn, T3; lia|]. intros i e' He' Hu'. destruct (T4 i e' He') as [o' Ho']. rewrite Hst.
    by exists (with_owner o' e'). }
  destruct o as [| |ow]; cbn [after_acquire].
  - destruct Ho as (Hst & Hh & _). destruct (buffer_ok t idx v s' x' T1 Hx' Hst Hh) as (s'' & Hb & Hs'' & Hst'' & Hw & Hn & Hl).
    exists (Running t todo), s'', []. split_and!; [by rewrite (bind_step _ _ _ _ _ Hb)|by apply Hstep|congruence| |by intros i [= <-]|done|].
    + cbn [pc_ok]. apply (si_exists _ _ Hs''). rewrite Hn. destruct (si_txn _ _ T1 _ _ Hx') as (? & _). lia.
    + intros a b Hab. rewrite Hw in Hab. destruct (T5 a b Hab) as [?|[_ ?]]; [by left|done].
  - eexists Returned, s', _. split_and!; [reflexivity|by apply Hstep|done|done|done|done|].
    intros a b Hab. destruct (T5 a b Hab) as [?|[_ ?]]; [by left|done].
  - exists (Asleep t idx ow k v todo), s', []. split_and!; [done|by apply Hstep|done| |by intros i [= <-]|done|].
    + split; [by eexists|]. destruct (T4 idx e He) as [o' Ho']. by exists (with_owner o' e).
    + intros a b Hab. destruct (T5 a b Hab) as [?|[-> [= ->]]]; [by left|right]. by exists idx, k, v, todo.
Qed.

Definition good_step (s : system) (i : nat) (r : res (option pc * state * list string)) : Prop :=
  match r with
  | UB e => e = SelfDeadlock
  | Ok (None, _, _) => True
  | Ok (Some p, s', _) => winv (mkSystem s' (<[i := p]> (threads s)))
  end.

Lemma stepped_trans s1 s2 s3 : stepped s1 s2 → stepped s2 s3 → stepped s1 s3.
Proof.
  intros [A1 A2 A3 A4] [B1 B2 B3 B4]. constructor; [done|done|lia|]. intros i e He Hu. destruct (A4 i e He Hu) as (e' & He' & Hu'). by apply (B4 i e').
Qed.

(** A call of [acquire_key_lock], new or resumed, with what follows it. *)
Lemma lock_step s i p t idx k v todo (acq : C state outcome) base s1 x e :
  winv s → threads s !! i = Some p → txn_of p = Some t → is_start p = false →
  stepped (shared s) base → next_txn_id base = next_txn_id (shared s) → (∀ a b, waits (wait_for base) a b = true → waits (wait_for (shared s)) a b = true) →
  txns base !! t = Some (Some x) → store base !! idx = Some e → used e = true →
  (acq s1 = UB SelfDeadlock ∨ ∃ o s' out, acq s1 = Ok (o, s', out) ∧ taken t idx base o s') →
  good_step s i ((o ← acq; p ← after_acquire t idx k v todo o; mret (Some p)) s1).
Proof.
  intros Hw Hp Ht Hns Hst Hn He Hx Hs Hu [Hub|(o & s' & out & Hacq & Htk)].
  - by rewrite (bind_fails _ _ _ _ Hub).
  - destruct (after_acquire_ok t idx k v todo base x e o s' Hx Hs Hu Htk) as (p' & s'' & out' & Ha & Hst' & Hn' & Hpc & Hid & Hns' & Hedges).
    erewrite (bind_Ok _ _ _ _ _ _ _ _ _ Hacq); [|exact (bind_Ok _ _ _ _ _ _ _ _ [] Ha eq_refl)].
    apply (winv_step s i p p' s''); [done|done|by eapply stepped_trans|done| | |rewrite Hns, Hns'; lia].
    + intros j Hj. left. by rewrite (Hid j Hj).
    + intros a b Hab. destruct (Hedges a b Hab) as [[H1 H2]|?]; [left|by right]. split; [by apply He|]. rewrite Ht. congruence.
Qed.

Lemma advance_write s i t k v todo :
  winv s → threads s !! i = Some (Running t ((k, v) :: todo)) → good_step s i (advance (Running t ((k, v) :: todo)) (shared s)).
Proof.
  intros Hw Hp. pose proof (w_inv _ Hw) as Hs. destruct (w_pcs _ Hw _ _ Hp) as [x Hx]. cbn [advance]. rewrite (bind_step _ _ _ _ _ (txn_ok _ _ _ Hx)).
  pose proof (running_no_edges s i _ t Hw Hp eq_refl ltac:(done)) as Hno.
  destruct (decide (status x = TXN_ACTIVE)) as [Hst|Hst].
  - rewrite bool_decide_eq_false_2 by tauto.
    destruct (probe_ok k MAX_KEYS (hash_key k) (shared s) Hs (hash_key_lt k)) as (r & s1 & o & Hr & Hs1 & [K1 K2 K3 K4 K5] & Hslot).
    destruct r as [idx|].
    + destruct Hslot as (e & He & Hu).
      assert (good_step s i ((o ← acquire_key_lock acquire_fuel t idx; p ← after_acquire t idx k v todo o; mret (Some p)) s1)) as Hgood.
      { apply (lock_step s i (Running t ((k, v) :: todo)) t idx k v todo _ s1 s1 x e Hw Hp); try done.
        - constructor; [done|by rewrite K4, (w_locked _ Hw)|lia|]. intros j e' He' Hu'. exists e'. by rewrite (K5 j e' He' Hu').
        - by rewrite K2.
        - by rewrite K1.
        - apply (key_acquire_ok acquire_fuel t idx s1 x e); try done; [by rewrite K1|by rewrite K2|]. unfold acquire_fuel. pose proof (actives_bound s1). lia. }
      unfold good_step in *. unfold mbind at 1, C_bind at 1. unfold get_or_create_key. rewrite Hr.
      destruct (((o ← acquire_key_lock acquire_fuel t idx; p ← after_acquire t idx k v todo o; mret (Some p)) s1)) as [[[[p'|] s2] o2]|e2]; done.
    + unfold get_or_create_key. unfold mbind at 1, C_bind at 1. rewrite Hr. done.
  - rewrite bool_decide_eq_true_2 by done. unfold good_step. cbn.
    apply (winv_step s i (Running t ((k, v) :: todo)) Returned (shared s)); try done; [apply stepped_refl; [done|apply (w_locked _ Hw)]|].
    intros a b Hab. left. split; [done|]. intros [= <-]. by apply Hno in Hab.
Qed.

Lemma advance_woken s i t idx ow k v todo :
  winv s → threads s !! i = Some (Asleep t idx ow k v todo) → good_step s i (advance (Asleep t idx ow k v todo) (shared s)).
Proof.
  intros Hw Hp. pose proof (w_inv _ Hw) as Hs. destruct (w_pcs _ Hw _ _ Hp) as ([x Hx] & e & He & Hu). cbn [advance].
  assert (∀ b, waits (wait_for (shared s)) t b = true → b = ow) as Howner.
  { intros b Hb. destruct (w_edges _ Hw t b Hb) as (j & k' & key & v' & todo' & Hj).
    assert (i = j) as <- by (by eapply (w_ids _ Hw i j _ _ t)). rewrite Hp in Hj. by injection Hj as _ <-. }
  destruct (si_txn _ _ Hs _ _ Hx) as (Hr & Hid & _).
  assert (woken t idx ow (shared s) =
    if negb (owner_txn e =? 0) && negb (owner_txn e =? id x) && bool_decide (status x = TXN_ACTIVE) then Ok (Waits ow, shared s, [])
    else acquire_key_lock acquire_fuel t idx (unwait t ow (shared s))) as Hwoken.
  { unfold woken. rewrite (bind_step _ _ _ _ _ (txn_ok _ _ _ Hx)), (bind_step _ _ _ _ _ (entry_at_ok _ _ _ He)).
    destruct (_ && _); [done|]. erewrite bind_step; [reflexivity|]. by rewrite Hid. }
  destruct (_ && _) in Hwoken.
  - apply (lock_step s i (Asleep t idx ow k v todo) t idx k v todo _ (shared s) (shared s) x e Hw Hp); try done; [by apply stepped_refl; [|apply (w_locked _ Hw)]|].
    right. exists (Waits ow), (shared s), []. split; [done|]. constructor; try done; [apply (w_locked _ Hw)|..].
    + intros j e' He'. exists (owner_txn e'). by rewrite with_owner_id.
    + intros a b Hab. destruct (decide (a = t)) as [->|Hne]; [right; by rewrite (Howner b Hab)|by left].
    + intros y Hy. by exists y.
  - set (s1 := unwait t ow (shared s)) in *. assert (∀ a b, waits (wait_for s1) a b = true → waits (wait_for (shared s)) a b = true ∧ a ≠ t) as Hedges.
    { intros a b Hab. apply waits_remove in Hab as [Hab Hcut]. split; [done|]. intros ->. pose proof (Howner b Hab) as ->.
      destruct (si_edge _ _ Hs _ _ Hab) as (Hb & _). by destruct (Hcut ltac:(lia) Hb). }
    apply (lock_step s i (Asleep t idx ow k v todo) t idx k v todo _ s1 (shared s) x e Hw Hp); try done.
    + constructor; [by apply unwait_inv|apply (w_locked _ Hw)|cbn; lia|cbn; eauto].
    + intros a b Hab. by apply Hedges.
    + rewrite Hwoken. apply (key_acquire_ok acquire_fuel t idx s1 x e); try done.
      * by apply unwait_inv.
      * intros b Hb. by apply Hedges in Hb as [_ ?].
      * unfold acquire_fuel. pose proof (actives_bound s1). lia.
Qed.

Lemma advance_commit s i t :
  winv s → threads s !! i = Some (Running t []) → good_step s i (advance (Running t []) (shared s)).
Proof.
  intros Hw Hp. pose proof (w_inv _ Hw) as Hs. destruct (w_pcs _ Hw _ _ Hp) as [x Hx]. cbn [advance].
  pose proof (running_no_edges s i _ t Hw Hp eq_refl ltac:(done)) as Hno.
  assert (∀ s' z o, txn_commit t (shared s) = Ok (z, s', o) → stepped (shared s) s' → next_txn_id s' = next_txn_id (shared s) → wait_for s' = wait_for (shared s) →
    good_step s i ((txn_commit t ;; mret (Some Returned)) (shared s))) as Hgo.
  { intros s' z o Hc Hst Hn Hwt. erewrite (bind_Ok _ _ _ _ _ _ _ _ [] Hc); [|reflexivity]. apply (winv_step s i (Running t []) Returned s'); try done; [|cbn; lia].
    intros a b Hab. rewrite Hwt in Hab. left. split; [done|]. intros [= <-]. by apply Hno in Hab. }
  destruct (decide (status x = TXN_ACTIVE)) as [Hst|Hst].
  - destruct (commit_ok t x (shared s) Hs Hx Hst (w_locked _ Hw) Hno) as (s' & o & Hc & [C1 C2 C3 C4 C5 C6]).
    apply (Hgo s' _ o Hc); [|done|done]. constructor; [done|by rewrite C4, (w_locked _ Hw)|lia|]. intros j e He Hu. destruct (C6 j e He) as (ow & Ho & _). by eexists.
  - apply (Hgo (shared s) (-1)%Z []); [|apply stepped_refl; [done|apply (w_locked _ Hw)]|done|done].
    unfold txn_commit. rewrite (bind_step _ _ _ _ _ (txn_ok _ _ _ Hx)). by rewrite bool_decide_eq_true_2.
Qed.

Lemma advance_start s i about todo :
  winv s → threads s !! i = Some (Start about todo) → good_step s i (advance (Start about todo) (shared s)).
Proof.
  intros Hw Hp. pose proof (w_inv _ Hw) as Hs. cbn [advance].
  assert (next_txn_id (shared s) < MAX_TXNS) as Hroom.
  { pose proof (w_room _ Hw) as Hr. pose proof (filter_insert_start (threads s) i _ Returned Hp) as Hf. cbn [is_start] in Hf. lia. }
  destruct (create_ok (shared s) Hs (w_locked _ Hw) Hroom) as (s' & x & Hc & Hst & Hn & Hwt & Hx).
  rewrite (bind_step _ _ _ _ _ Hc), (bind_step _ _ _ _ _ (txn_ok _ _ _ Hx)). unfold good_step. cbn.
  apply (winv_step s i (Start about todo) (Running (next_txn_id (shared s)) todo) s'); [done|done|done|by exists x| | |cbn; lia].
  - intros j [= <-]. by right.
  - intros a b Hab. left. rewrite Hwt in Hab. done.
Qed.

Lemma advance_ok s i p : winv s → threads s !! i = Some p → good_step s i (advance p (shared s)).
Proof.
  intros Hw Hp. destruct p as [about todo|t [|[k v] todo]|t idx ow k v todo|].
  - by apply advance_start.
  - by apply advance_commit.
  - by apply advance_write.
  - by apply advance_woken.
  - unfold good_step. cbn. rewrite list_insert_id by done. by destruct s.
Qed.

Definition good_run (r : res (option system)) : Prop :=
  match r with UB e => e = SelfDeadlock | Ok None => True | Ok (Some s) => winv s end.

Lemma schedule_ok sched s : winv s → good_run (schedule sched s).
Proof.
  revert s. induction sched as [|i sched IH]; intros s Hw; [done|]. cbn [schedule]. unfold move. destruct (threads s !! i) as [p|] eqn:Hp; [|done].
  pose proof (advance_ok s i p Hw Hp) as Hg. unfold good_step in Hg. destruct (advance p (shared s)) as [[[[p'|] s'] o]|e]; [by apply IH|done|done].
Qed.

Lemma init_inv : sinv None init.
Proof.
  constructor; unfold init; cbn [store txns next_txn_id wait_for].
  - apply length_replicate.
  - apply length_replicate.
  - split; [apply length_replicate|]. apply Forall_replicate, length_replicate.
  - unfold MAX_TXNS. lia.
  - intros i Hi. lia.
  - intros i t Ht. by apply lookup_replicate in Ht as [? _].
  - intros k e He Ho. apply lookup_replicate in He as [-> _]. done.
  - intros i t k Ht. by apply lookup_replicate in Ht as [? _].
  - intros i t k Ht. by apply lookup_replicate in Ht as [? _].
  - intros u v Huv. unfold waits, Wfg.waits in Huv. destruct (replicate MAX_TXNS (replicate MAX_TXNS false) !! u) as [r|] eqn:Er; [|done].
    apply lookup_replicate in Er as [-> _]. destruct (replicate MAX_TXNS false !! v) as [b|] eqn:Eb; [|done]. apply lookup_replicate in Eb as [-> _]. done.
Qed.

Lemma start_winv (progs : list (string * list (string * string))) :
  length progs < MAX_TXNS → winv (mkSystem init ((λ p, Start (fst p) (snd p)) <$> progs)).
Proof.
  intros Hlen. constructor; cbn [shared threads].
  - apply init_inv.
  - done.
  - intros i p Hp. apply list_lookup_fmap_Some in Hp as (q & -> & _). done.
  - intros i j p q t Hp _ Ht. apply list_lookup_fmap_Some in Hp as (r & -> & _). done.
  - intros u v Huv. by destruct (si_edge _ _ init_inv u v Huv) as (_ & _ & t & Ht & _); apply lookup_replicate in Ht as [? _].
  - etransitivity; [apply Nat.add_le_mono_r, length_filter|]. rewrite length_fmap. cbn [init next_txn_id]. lia.
Qed.

(** *** Slots *)

Lemma clip_id n k : String.length k < n → clip n k = k.
Proof.
  intros Hk. unfold clip. rewrite take_ge, String.string_of_list_ascii_of_string; [done|].
  assert (∀ t, length (String.list_ascii_of_string t) = String.length t) as -> by (induction t; simpl; congruence). lia.
Qed.

Lemma same_prefix_eq n a b : String.length b < n → same_prefix n a b = true → a = b.
Proof.
  intros Hb H. apply bool_decide_eq_true in H.
  assert (∀ t, length (String.list_ascii_of_string t) = String.length t) as Hl by (induction t; simpl; congruence).
  rewrite (take_ge (String.list_ascii_of_string b)) in H by (rewrite Hl; lia). assert (String.length a < n) as Ha.
  { apply (f_equal length) in H. rewrite length_take, !Hl in H. lia. }
  rewrite take_ge in H by (rewrite Hl; lia). by rewrite <- (String.string_of_list_ascii_of_string a), H, String.string_of_list_ascii_of_string.
Qed.

(** The slots of [s1] that are used stay with their keys in [s2]. *)
Definition extends (s1 s2 : state) : Prop :=
  ∀ j e, store s1 !! j = Some e → used e = true → ∃ e', store s2 !! j = Some e' ∧ used e' = true ∧ key e' = key e.

Lemma slot_probe_stable k slots idx s i s1 o s2 :
  String.length k < MAX_KEY_LEN → probe k idx slots s = Ok (Some i, s1, o) → extends s1 s2 → probe k idx slots s2 = Ok (Some i, s2, []).
Proof.
  intros Hk. revert idx o. induction slots as [|slots IH]; intros idx o Hp Hext; cbn [probe] in *; [done|].
  rewrite (bind_step _ _ _ _ _ eq_refl) in Hp. rewrite (bind_step _ _ _ _ _ eq_refl).
  destruct (aget (store s) (Z.of_nat idx)) as [e|] eqn:He; [|done]. rewrite (bind_step _ _ _ _ _ (lift_Ok _ _ _ eq_refl)) in Hp.
  pose proof (aget_Some _ _ _ He) as He'.
  destruct (used e) eqn:Hu; cbn [negb] in Hp.
  - assert (∃ e2, store s2 !! idx = Some e2 ∧ used e2 = true ∧ key e2 = key e) as (e2 & He2 & Hu2 & Hk2).
    { apply Hext; [|done]. destruct (same_prefix _ _ _); [by injection Hp as _ <- _|].
      assert (∀ sl j s' r o, probe k j sl s = Ok (r, s', o) → store s' !! idx = Some e) as Hkeep; [|by eapply Hkeep].
      induction sl as [|sl IHs]; intros j s' r o' Hrun; cbn [probe] in Hrun; [by injection Hrun as _ <- _|].
      rewrite (bind_step _ _ _ _ _ eq_refl) in Hrun. destruct (aget (store s) (Z.of_nat j)) as [ej|] eqn:Hej; [|done].
      rewrite (bind_step _ _ _ _ _ (lift_Ok _ _ _ eq_refl)) in Hrun. destruct (used ej) eqn:Huj; cbn [negb] in Hrun.
      - destruct (same_prefix _ _ _); [by injection Hrun as _ <- _|by eapply IHs].
      - injection Hrun as _ <- _. cbn [set_store store]. rewrite list_lookup_insert_ne; [done|]. intros ->.
        rewrite (aget_lookup _ _ _ He') in Hej. injection Hej as ->. congruence. }
    rewrite (bind_step _ _ _ _ _ (lift_Ok _ _ _ (aget_lookup _ _ _ He2))), Hu2. cbn [negb]. rewrite Hk2.
    destruct (same_prefix _ _ _); [by injection Hp as -> _ _|by eapply IH].
  - injection Hp as -> <- _. pose proof (lookup_lt_Some _ _ _ He') as Hlt.
    destruct (Hext i (mkEntry (clip MAX_KEY_LEN k) "" 0 true)) as (e2 & He2 & Hu2 & Hk2); [by apply list_lookup_insert_eq|done|].
    rewrite (bind_step _ _ _ _ _ (lift_Ok _ _ _ (aget_lookup _ _ _ He2))), Hu2. cbn [negb key] in *. rewrite Hk2, clip_id by done.
    unfold same_prefix. by rewrite bool_decide_eq_true_2.
Qed.

Lemma slot_probe_key k slots idx s i s1 o :
  String.length k < MAX_KEY_LEN → probe k idx slots s = Ok (Some i, s1, o) → ∃ e, store s1 !! i = Some e ∧ used e = true ∧ key e = k.
Proof.
  intros Hk. revert idx o. induction slots as [|slots IH]; intros idx o Hp; cbn [probe] in *; [done|].
  rewrite (bind_step _ _ _ _ _ eq_refl) in Hp. destruct (aget (store s) (Z.of_nat idx)) as [e|] eqn:He; [|done].
  rewrite (bind_step _ _ _ _ _ (lift_Ok _ _ _ eq_refl)) in Hp. apply aget_Some in He. destruct (used e) eqn:Hu; cbn [negb] in Hp.
  - destruct (same_prefix _ _ _) eqn:Hs; [|by eapply IH]. injection Hp as <- <- _. exists e. split_and!; [done..|]. by apply (same_prefix_eq MAX_KEY_LEN).
  - injection Hp as <- <- _. eexists. cbn [set_store store]. rewrite list_lookup_insert_eq by (by eapply lookup_lt_Some). split_and!; [done..|]. by apply clip_id.
Qed.

End LockSpec.

(** The program's own timing: transaction 2 closes the cycle and aborts itself. *)
Lemma locking_demo :
  match Calls.schedule [0; 0; 1; 1; 0; 1; 0; 0] Calls.demo with
  | Ok (Some s) => (Calls.final_store s, Calls.threads s) = ([("A", "T1_A"); ("B", "T1_B")], [Calls.Returned; Calls.Returned])
  | _ => False
  end.
Proof. vm_compute. reflexivity. Qed.

(** The other order: transaction 1 chooses transaction 2, the owner of the key
    whose mutex it holds, and waits for that mutex for ever. *)
Lemma locking_demo_hangs : Calls.schedule [0; 0; 1; 1; 1; 0] Calls.demo = UB SelfDeadlock.
Proof. vm_compute. reflexivity. Qed.

(** ** Theorems *)
Section Theorems.
Import LockTxn Calls DetectSpec LockSpec.

(** C16: the search over the wait-for graph always ends, inside its arrays.  It
    reports a victim exactly when some transaction waits, through others, for
    itself; the victim is on such a cycle and no transaction of that cycle
    started later. *)
Theorem victim_correct (s : state) :
  next_txn_id s ≤ MAX_TXNS →
  (∀ u v, edge (wait_for s) (next_txn_id s) u v → is_Some (ts_of (txns s) u) ∧ u ≠ 0) →
  ∃ r, detect_cycle_and_pick_victim s = Ok r ∧
    match r with
    | Some v => youngest (txns s) (wait_for s) (next_txn_id s) v
    | None => ∀ x, ¬ tc (edge (wait_for s) (next_txn_id s)) x x
    end.
Proof.
  intros Hn Hts. destruct (search_ok (txns s) (wait_for s) (next_txn_id s) Hn Hts) as (r & Hr & Hf & Hv).
  unfold detect_cycle_and_pick_victim. rewrite Hr. unfold mbind, res_bind. rewrite Hf. eexists. split; [done|].
  destruct (winner_victim r) as [v|]; [|done]. by rewrite bool_decide_eq_true_2 by eauto.
Qed.

(** Two transactions that wait for each other. *)
Definition crossing : state :=
  match (create_txn ;; create_txn) init with
  | Ok (_, s, _) => set_wait_for (add_wait_edge 2 1 (add_wait_edge 1 2 (wait_for s))) s
  | UB _ => init
  end.

Lemma victim_correct_witness :
  ∃ v, detect_cycle_and_pick_victim crossing = Ok (Some v) ∧
    youngest (txns crossing) (wait_for crossing) (next_txn_id crossing) v.
Proof.
  destruct (victim_correct crossing) as (r & Hr & Hv).
  - apply (bool_decide_eq_true_1 _). vm_compute. reflexivity.
  - intros u v (Hu & Hv & Hw). change (next_txn_id crossing) with 3 in Hu, Hv.
    destruct u as [|[|[|u]]]; [|split; [vm_compute; eauto|done]..|lia].
    destruct v as [|[|[|v]]]; [vm_compute in Hw; discriminate..|lia].
  - destruct r as [v|]; [by exists v|]. vm_compute in Hr. discriminate.
Defined.

(** For any transactions (at most 255) whose calls do not overlap: the program
    either runs on, or stops because its key table is full, or a thread locks a
    mutex it holds already; no other undefined behaviour and no endless loop
    inside a call.  While it runs, a key that a transaction has written is locked
    by that transaction, which is active.  For calls that do overlap see
    [LockingRaces]. *)
Theorem locking_safe (progs : list (string * list (string * string))) (sched : list nat) :
  length progs < MAX_TXNS →
  match schedule sched (mkSystem init ((λ p, Start (fst p) (snd p)) <$> progs)) with
  | UB e => e = SelfDeadlock
  | Ok None => True
  | Ok (Some s) =>
      ∀ i t k, txns (shared s) !! i = Some (Some t) → k ∈ (fst <$> writes t) →
        status t = TXN_ACTIVE ∧ ∃ e, store (shared s) !! k = Some e ∧ owner_txn e = i
  end.
Proof.
  intros Hlen. pose proof (schedule_ok sched _ (start_winv progs Hlen)) as Hg. unfold good_run in Hg.
  destruct (schedule _ _) as [[s|]|e]; [|done|done]. intros i t k Ht Hk. pose proof (w_inv _ Hg) as Hs.
  pose proof (si_writes _ _ Hs _ _ _ Ht Hk) as Hh. destruct (si_held _ _ Hs _ _ _ Ht Hh) as (e & He & Ho). split; [|by exists e].
  destruct (si_owner _ _ Hs _ _ He) as (_ & t' & Ht' & _ & [Hst|?]); [destruct (si_txn _ _ Hs _ _ Ht); lia| |done].
  rewrite Ho, Ht in Ht'. by injection Ht' as <-.
Qed.

Lemma locking_safe_witness :
  match schedule [0; 0; 0] (mkSystem init ((λ p, Start (fst p) (snd p)) <$> [("A", [("A", "x")])])) with
  | UB e => e = SelfDeadlock
  | Ok None => True
  | Ok (Some s) =>
      ∀ i t k, txns (shared s) !! i = Some (Some t) → k ∈ (fst <$> writes t) →
        status t = TXN_ACTIVE ∧ ∃ e, store (shared s) !! k = Some e ∧ owner_txn e = i
  end.
Proof. apply locking_safe. unfold MAX_TXNS. simpl. lia. Defined.

(** C40: when the victim is the transaction that owns the requested key, the
    requesting thread waits for a mutex it holds itself: [abort_txn] locks the
    mutex of every key of the victim, and [acquire_key_lock] holds this one. *)
Theorem owner_victim_hangs (fuel t k : nat) (s : state) (x : Transaction) (e : KeyEntry) :
  sinv None s → txns s !! t = Some (Some x) → status x = TXN_ACTIVE → store s !! k = Some e → owner_txn e ≠ 0 → owner_txn e ≠ t →
  (∀ v, waits (wait_for s) t v ≠ true) → detect_cycle_and_pick_victim (waiting k s x e) = Ok (Some (owner_txn e)) →
  acquire_key_lock (S fuel) t k s = UB SelfDeadlock.
Proof.
  intros Hs Hx Hst He Ho Hot Hno Hdet. destruct (si_txn _ _ Hs _ _ Hx) as (_ & Hid & _).
  pose proof (waiting_inv t k s x e Hs Hx He Hno Hst Ho) as Hs1. cbn [acquire_key_lock].
  rewrite (bind_step _ _ _ _ (set_locked (Some k) s) eq_refl), (bind_step _ _ _ _ _ (txn_ok t (set_locked (Some k) s) x Hx)).
  rewrite bool_decide_eq_false_2 by tauto. rewrite (bind_step _ _ _ _ _ (entry_at_ok k (set_locked (Some k) s) e He)).
  destruct (Nat.eqb_spec (owner_txn e) 0); [done|]. destruct (Nat.eqb_spec (owner_txn e) (id x)) as [?|Hne]; [congruence|].
  unfold contend. rewrite (bind_step _ _ _ _ (waiting k s x e) eq_refl), (bind_step _ _ _ _ _ eq_refl), (bind_step _ _ _ _ _ (lift_Ok _ _ _ Hdet)).
  apply Nat.eqb_neq in Hne. rewrite Hne. destruct (detect_ok _ Hs1) as (r & Hr & Hv). rewrite Hdet in Hr. injection Hr as <-.
  destruct (youngest_active _ _ Hs1 Hv) as (xv & y & Hxv & Hstv & Hget & _). rewrite Hget. refine (bind_UB _ _ _ _ _ [_] _ eq_refl _). apply bind_fails.
  apply (abort_hangs (owner_txn e) xv _ k); [done|done|done|done|]. by apply (held_iff _ None (owner_txn e) xv k e Hs1 Hxv He).
Qed.

(** Transaction 2 waits for key A, and 1 is about to ask for B, whose owner the
    search then chooses. *)
Definition about_to_hang (s : system) : bool :=
  match threads s !! 0, txns (shared s) !! 1, store (shared s) !! hash_key "B" with
  | Some (Running 1 _), Some (Some x), Some e =>
      bool_decide (status x = TXN_ACTIVE) && (owner_txn e =? 2) &&
      match detect_cycle_and_pick_victim (waiting (hash_key "B") (shared s) x e) with Ok (Some v) => v =? 2 | _ => false end
  | _, _, _ => false
  end.

Definition run_about_to_hang (r : res (option system)) : bool :=
  match r with Ok (Some s) => about_to_hang s | _ => false end.

Lemma about_to_hang_runs : run_about_to_hang (schedule [0; 0; 1; 1; 1] demo) = true.
Proof. vm_compute. reflexivity. Qed.

Lemma about_to_hang_facts r :
  good_run r → run_about_to_hang r = true →
  ∃ s x e, r = Ok (Some s) ∧ sinv None (shared s) ∧ txns (shared s) !! 1 = Some (Some x) ∧ status x = TXN_ACTIVE ∧
    store (shared s) !! hash_key "B" = Some e ∧ owner_txn e = 2 ∧ (∀ v, waits (wait_for (shared s)) 1 v ≠ true) ∧
    detect_cycle_and_pick_victim (waiting (hash_key "B") (shared s) x e) = Ok (Some (owner_txn e)).
Proof.
  destruct r as [[s|]|]; [|done..]. unfold good_run, run_about_to_hang, about_to_hang. intros Hg Hc.
  destruct (threads s !! 0) as [[?|[|[]] todo|?|]|] eqn:Hp; try discriminate.
  destruct (txns (shared s) !! 1) as [[x|]|] eqn:Hx; try discriminate. destruct (store (shared s) !! hash_key "B") as [e|] eqn:He; try discriminate.
  apply andb_true_iff in Hc as [[Hst Ho]%andb_true_iff Hdet]. apply bool_decide_eq_true in Hst. apply Nat.eqb_eq in Ho.
  destruct (detect_cycle_and_pick_victim (waiting (hash_key "B") (shared s) x e)) as [[v|]|] eqn:Ed; try discriminate. apply Nat.eqb_eq in Hdet. subst v.
  exists s, x, e. split_and!; [reflexivity|apply (w_inv _ Hg)|done|done|done|done| |by rewrite Ed, Ho].
  by apply (running_no_edges s 0 (Running 1 todo) 1 Hg Hp).
Qed.

Lemma demo_winv : winv demo.
Proof.
  apply (start_winv [("A then B", [("A", "T1_A"); ("B", "T1_B")]); ("B then A", [("B", "T2_B"); ("A", "T2_A")])]). unfold MAX_TXNS. simpl. lia.
Qed.

Lemma owner_victim_hangs_witness :
  ∃ s, schedule [0; 0; 1; 1; 1] demo = Ok (Some s) ∧ acquire_key_lock 1 1 (hash_key "B") (shared s) = UB SelfDeadlock.
Proof.
  destruct (about_to_hang_facts _ (schedule_ok [0; 0; 1; 1; 1] demo demo_winv) about_to_hang_runs) as (s & x & e & Hrun & Hs & Hx & Hst & He & Ho & Hno & Hdet). exists s. split; [exact Hrun|].
  apply (owner_victim_hangs 0 1 (hash_key "B") (shared s) x e Hs Hx Hst He); [lia|lia|exact Hno|exact Hdet].
Defined.

(** A key keeps its slot: once [get_or_create_key] has returned slot [i] for
    a key of less than 64 characters, it returns [i] in every later state of the
    table, and changes nothing there; and the slot holds that key, so that no
    other key has it. *)
Theorem key_slot_stable (k : string) (s s1 s2 : state) (i : nat) (o : list string) :
  String.length k < MAX_KEY_LEN → get_or_create_key k s = Ok (Some i, s1, o) → extends s1 s2 →
  get_or_create_key k s2 = Ok (Some i, s2, []) ∧ ∃ e, store s2 !! i = Some e ∧ used e = true ∧ key e = k.
Proof.
  intros Hk Hg Hext. split; [by apply (slot_probe_stable k MAX_KEYS (hash_key k) s i s1 o s2 Hk Hg)|].
  destruct (slot_probe_key k MAX_KEYS (hash_key k) s i s1 o Hk Hg) as (e & He & Hu & <-). by apply Hext.
Qed.

Lemma key_slot_stable_witness :
  ∃ i s1 o, get_or_create_key "A" init = Ok (Some i, s1, o) ∧ get_or_create_key "A" s1 = Ok (Some i, s1, []) ∧ ∃ e, store s1 !! i = Some e ∧ used e = true ∧ key e = "A".
Proof.
  destruct (probe_ok "A" MAX_KEYS (hash_key "A") init init_inv (hash_key_lt "A")) as (r & s1 & o & Hr & _).
  destruct r as [i|]; [|exfalso; vm_compute in Hr; discriminate]. exists i, s1, o. split; [exact Hr|].
  apply (key_slot_stable "A" init s1 s1 i o); [simpl; unfold MAX_KEY_LEN; lia|exact Hr|]. intros j e He Hu. by exists e.
Defined.

End Theorems.
