(* ===== verification/LockingRaces.v ===== *)
(** * Locking transactions, one access at a time

    [concurrency-and-multithreading/deadlock_mutex_txn.c] once more.
    [LockingTxn] runs whole calls of the library; here every operation on the
    mutex of a key or of a transaction is a step of its own, and so is every
    access outside such a mutex or outside [wf_mtx], [store_mtx] and [txns_mtx]:
    the reads of [t->status] in [acquire_key_lock] and [txn_write], the accesses
    to [held_keys], and those of [txn_write] to the list [t->writes], which
    another thread frees when it aborts the transaction.  The critical sections
    of [wf_mtx], [store_mtx] and [txns_mtx] lock nothing else and are single
    steps; those of [wf_mtx] also read [next_txn_id], which [create_txn] may raise
    meanwhile, but the new transaction has no edges yet, so that what they find is
    the same.  [owner_txn] is only touched under the mutex of its key.  A run is
    any interleaving of the steps of the threads, and a thread in
    [pthread_cond_wait] may wake at any time.

    [Races] is the program, [RacesSpec] the invariant of its runs.  The theorems
    say what holds in all of them ([races_safe]), and that two defects are
    reached: a deadlock of two threads that abort the same transaction
    ([lock_order_deadlock]), and a read of freed memory ([write_race_reachable]). *)
From stdpp Require Import base list gmap strings relations.
From Stdlib Require Import ZArith Lia.
From S2P Require Import Prelude WaitForGraph LockingTxn.

Module Races.
Import LockTxn.

(** A node of [t->writes]; [wtxn] is no field of the program: it tells which
    transaction allocated the node. *)
Record WriteEntry : Set := mkWrite { key_idx : nat; wvalue : string; wnext : option nat; wtxn : nat }.

(** A call of [txn_write]: the transaction, the key and the value, and the
    writes that come after it. *)
Record call : Set := mkcall { ct : nat; ck : string; cv : string; ctodo : list (string * string) }.

(** Who calls [abort_txn]: [acquire_key_lock] for the victim of a cycle, with
    [owner] in its local variable, or for its own transaction. *)
Inductive caller : Set :=
  | ForVictim (w : call) (i owner : nat)
  | ForSelf.

(** Who frees the writes and releases the locks of a transaction. *)
Inductive closer : Set := Aborting (a : caller) | Committing.

(** Where a thread is.  [w] is the call of [txn_write] it is in, [i] the slot of
    the key, [p] and [q] pointers to write entries. *)
Inductive pc : Set :=
  | Start (todo : list (string * string))         (* [create_txn] *)
  | Next (t : nat) (todo : list (string * string)) (* before a write, or before the commit *)
  | GetKey (w : call)                             (* [get_or_create_key] *)
  | LockKey (w : call) (i : nat)                  (* [pthread_mutex_lock(&lk->mtx)] *)
  | Status (w : call) (i : nat)                   (* [if (t->status != TXN_ACTIVE)] *)
  | Owner (w : call) (i : nat)                    (* [lk->owner_txn] is tested, or set *)
  | Held (w : call) (i : nat)                     (* [t->held_keys[key_idx] = 1] *)
  | Leave (w : call) (i : nat) (ok : bool)        (* unlock, return 0 or -1 *)
  | AddEdge (w : call) (i owner : nat)
  | Detect (w : call) (i owner : nat)
  | SelfEdge (w : call) (i owner : nat)           (* the victim is [t]: [remove_wait_edge] *)
  | SelfLeave (w : call) (i : nat)                (* unlock before [abort_txn(t)] *)
  | Unwait (w : call) (i owner : nat)             (* [remove_wait_edge], then from the top of the loop *)
  | WaitTest (w : call) (i owner : nat)           (* the inner [while] *)
  | CondWait (w : call) (i owner : nat)           (* [pthread_cond_wait] lets the mutex go *)
  | Asleep (w : call) (i owner : nat)             (* ... and takes it again *)
  | FindHead (w : call) (i : nat)                 (* [w = t->writes] in [find_local_write] *)
  | Find (w : call) (i : nat) (p : option nat)    (* its loop *)
  | New (w : call) (i : nat)                      (* [malloc] to [w->next = t->writes] *)
  | Publish (w : call) (i q : nat)                (* [t->writes = w] *)
  | Copy (w : call) (i q : nat)                   (* [strncpy(w->value, ...)] *)
  | AbLock (v : nat) (a : caller)                 (* [abort_txn]: lock [t->mtx] *)
  | AbTest (v : nat) (a : caller)
  | AbSet (v : nat) (a : caller)                  (* [t->status = TXN_ABORTED] *)
  | AbEdges (v : nat) (a : caller)                (* its row and column of the graph *)
  | CoLock (t : nat)                              (* [txn_commit]: lock [t->mtx] *)
  | CoTest (t : nat)
  | CoHead (t : nat)                              (* [w = t->writes] *)
  | CoStore (t : nat) (p : option nat)            (* the loop that writes the store *)
  | FreeHead (v : nat) (r : closer)               (* [w = t->writes] *)
  | Free (v : nat) (r : closer) (p : option nat)  (* the loop that frees *)
  | FreeNull (v : nat) (r : closer)               (* [t->writes = NULL] *)
  | Rel (v i : nat) (r : closer)                  (* [release_all_locks], at key [i] *)
  | RelLock (v i : nat) (r : closer)
  | RelOwner (v i : nat) (r : closer)
  | RelUnlock (v i : nat) (r : closer)
  | RelHeld (v i : nat) (r : closer)              (* [t->held_keys[i] = 0] *)
  | CoStatus (t : nat)                            (* [t->status = TXN_COMMITTED] *)
  | Finish (v : nat) (r : closer)                 (* unlock [t->mtx] *)
  | Returned.

(** [shared] has the key table, the transactions (their list of writes is
    [heads], with its nodes in [cells]), the graph and the counters; a cell that
    was freed holds [None]; a mutex holds the number of the thread that has it.
    [freeing] is no variable of the program: it marks the transactions whose
    writes are being freed or were freed. *)
Record config : Set := mkconfig {
  shared : state;
  cells : list (option WriteEntry);
  heads : list (option nat);
  key_mtx : list (option nat);
  txn_mtx : list (option nat);
  freeing : list bool;
  threads : list pc
}.

Definition set_shared (s : state) (c : config) : config :=
  mkconfig s (cells c) (heads c) (key_mtx c) (txn_mtx c) (freeing c) (threads c).
Definition set_cells (l : list (option WriteEntry)) (c : config) : config :=
  mkconfig (shared c) l (heads c) (key_mtx c) (txn_mtx c) (freeing c) (threads c).
Definition set_head (t : nat) (p : option nat) (c : config) : config :=
  mkconfig (shared c) (cells c) (<[t := p]> (heads c)) (key_mtx c) (txn_mtx c) (freeing c) (threads c).
Definition set_key_mtx (i : nat) (o : option nat) (c : config) : config :=
  mkconfig (shared c) (cells c) (heads c) (<[i := o]> (key_mtx c)) (txn_mtx c) (freeing c) (threads c).
Definition set_txn_mtx (t : nat) (o : option nat) (c : config) : config :=
  mkconfig (shared c) (cells c) (heads c) (key_mtx c) (<[t := o]> (txn_mtx c)) (freeing c) (threads c).
Definition set_freeing (t : nat) (c : config) : config :=
  mkconfig (shared c) (cells c) (heads c) (key_mtx c) (txn_mtx c) (<[t := true]> (freeing c)) (threads c).
Definition goto (me : nat) (p : pc) (c : config) : config :=
  mkconfig (shared c) (cells c) (heads c) (key_mtx c) (txn_mtx c) (freeing c) (<[me := p]> (threads c)).

(** A step leads to a configuration, into undefined behaviour, or out of the
    program ([exit(1)] when the key table is full). *)
Inductive outcome : Set := Runs (c : config) | Crash (e : ub) | Exits.

Definition txn_at (t : nat) (c : config) : option Transaction := default None (txns (shared c) !! t).

Definition with_txn (t : nat) (c : config) (f : Transaction → outcome) : option outcome :=
  Some (match txn_at t c with Some x => f x | None => Crash NullDeref end).

Definition with_key (i : nat) (c : config) (f : KeyEntry → outcome) : option outcome :=
  Some (match store (shared c) !! i with Some e => f e | None => Crash OutOfBounds end).

Definition with_cell (q : nat) (c : config) (f : WriteEntry → outcome) : option outcome :=
  Some (match cells c !! q with Some (Some e) => f e | _ => Crash UseAfterFree end).

Definition active (x : Transaction) : bool := bool_decide (status x = TXN_ACTIVE).

Definition update (t : nat) (x : Transaction) (c : config) : config :=
  set_shared (set_txns (<[t := Some x]> (txns (shared c))) (shared c)) c.
Definition set_owner (i o : nat) (e : KeyEntry) (c : config) : config :=
  set_shared (set_store (<[i := mkEntry (key e) (value e) o (used e)]> (store (shared c))) (shared c)) c.
Definition set_graph (w : list (list bool)) (c : config) : config :=
  set_shared (set_wait_for w (shared c)) c.
Definition set_cell (q : nat) (e : option WriteEntry) (c : config) : config := set_cells (<[q := e]> (cells c)) c.

(** [pthread_mutex_lock]: [None] while somebody has the mutex. *)
Definition lock_key (i me : nat) (p : pc) (c : config) : option outcome :=
  match key_mtx c !! i with
  | Some None => Some (Runs (goto me p (set_key_mtx i (Some me) c)))
  | Some (Some _) => None
  | None => Some (Crash OutOfBounds)
  end.

Definition lock_txn (t me : nat) (p : pc) (c : config) : option outcome :=
  match txn_mtx c !! t with
  | Some None => Some (Runs (goto me p (set_txn_mtx t (Some me) c)))
  | Some (Some _) => None
  | None => Some (Crash OutOfBounds)
  end.

(** What follows [abort_txn] and [txn_commit]. *)
Definition after_close (r : closer) : pc :=
  match r with
  | Aborting (ForVictim w i owner) => Unwait w i owner
  | Aborting ForSelf | Committing => Returned
  end.

(** One step of thread [me]; [None] when it waits for a mutex or has returned. *)
Definition run (me : nat) (c : config) (p : pc) : option outcome :=
  match p with
  | Start todo =>
      Some (match create_txn (shared c) with
            | UB e => Crash e
            | Ok (None, _, _) => Crash NullDeref
            | Ok (Some t, s, _) => Runs (goto me (Next t todo) (set_shared s c))
            end)
  | Next t [] => Some (Runs (goto me (CoLock t) c))
  | Next t ((k, v) :: todo) =>
      with_txn t c (λ x, Runs (goto me (if active x then GetKey (mkcall t k v todo) else Returned) c))
  | GetKey w =>
      Some (match get_or_create_key (ck w) (shared c) with
            | UB e => Crash e
            | Ok (None, _, _) => Exits
            | Ok (Some i, s, _) => Runs (goto me (LockKey w i) (set_shared s c))
            end)
  (* [acquire_key_lock] *)
  | LockKey w i => lock_key i me (Status w i) c
  | Status w i => with_txn (ct w) c (λ x, Runs (goto me (if active x then Owner w i else Leave w i false) c))
  | Owner w i =>
      with_key i c (λ e,
        if owner_txn e =? 0 then Runs (goto me (Held w i) (set_owner i (ct w) e c))
        else if owner_txn e =? ct w then Runs (goto me (Leave w i true) c)
        else Runs (goto me (AddEdge w i (owner_txn e)) c))
  | Held w i => with_txn (ct w) c (λ x, Runs (goto me (Leave w i true) (update (ct w) (set_held i true x) c)))
  | Leave w i ok => Some (Runs (goto me (if ok then FindHead w i else Returned) (set_key_mtx i None c)))
  | AddEdge w i owner =>
      Some (Runs (goto me (Detect w i owner) (set_graph (add_wait_edge (ct w) owner (wait_for (shared c))) c)))
  | Detect w i owner =>
      Some (match detect_cycle_and_pick_victim (shared c) with
            | UB e => Crash e
            | Ok None => Runs (goto me (WaitTest w i owner) c)
            | Ok (Some v) =>
                if v =? ct w then Runs (goto me (SelfEdge w i owner) c)
                else match get_txn v (shared c) with
                     | Some _ => Runs (goto me (AbLock v (ForVictim w i owner)) c)
                     | None => Runs (goto me (WaitTest w i owner) c)
                     end
            end)
  | SelfEdge w i owner =>
      Some (Runs (goto me (SelfLeave w i) (set_graph (remove_wait_edge (ct w) owner (wait_for (shared c))) c)))
  | SelfLeave w i => Some (Runs (goto me (AbLock (ct w) ForSelf) (set_key_mtx i None c)))
  | Unwait w i owner =>
      Some (Runs (goto me (Status w i) (set_graph (remove_wait_edge (ct w) owner (wait_for (shared c))) c)))
  | WaitTest w i owner =>
      with_txn (ct w) c (λ x,
        match store (shared c) !! i with
        | Some e =>
            Runs (goto me (if negb (owner_txn e =? 0) && negb (owner_txn e =? ct w) && active x
                           then CondWait w i owner else Unwait w i owner) c)
        | None => Crash OutOfBounds
        end)
  | CondWait w i owner => Some (Runs (goto me (Asleep w i owner) (set_key_mtx i None c)))
  | Asleep w i owner => lock_key i me (WaitTest w i owner) c
  (* the rest of [txn_write] *)
  | FindHead w i => Some (Runs (goto me (Find w i (default None (heads c !! ct w))) c))
  | Find w i None => Some (Runs (goto me (New w i) c))
  | Find w i (Some q) =>
      with_cell q c (λ e, Runs (goto me (if key_idx e =? i then Copy w i q else Find w i (wnext e)) c))
  | New w i =>
      Some (Runs (goto me (Publish w i (length (cells c)))
        (set_cells (cells c ++ [Some (mkWrite i "" (default None (heads c !! ct w)) (ct w))]) c)))
  | Publish w i q => Some (Runs (goto me (Copy w i q) (set_head (ct w) (Some q) c)))
  | Copy w i q =>
      with_cell q c (λ e, Runs (goto me (Next (ct w) (ctodo w))
        (set_cell q (Some (mkWrite (key_idx e) (clip MAX_VALUE_LEN (cv w)) (wnext e) (wtxn e))) c)))
  (* [abort_txn] *)
  | AbLock v a => lock_txn v me (AbTest v a) c
  | AbTest v a => with_txn v c (λ x, Runs (goto me (if active x then AbSet v a else Finish v (Aborting a)) c))
  | AbSet v a => with_txn v c (λ x, Runs (goto me (AbEdges v a) (update v (set_status TXN_ABORTED x) c)))
  | AbEdges v a =>
      Some (Runs (goto me (FreeHead v (Aborting a))
        (set_graph (clear_edges v (next_txn_id (shared c)) (wait_for (shared c))) c)))
  (* [txn_commit] *)
  | CoLock t => lock_txn t me (CoTest t) c
  | CoTest t =>
      with_txn t c (λ x, Runs (if active x then goto me (CoHead t) c else goto me Returned (set_txn_mtx t None c)))
  | CoHead t => Some (Runs (goto me (CoStore t (default None (heads c !! t))) c))
  | CoStore t None => Some (Runs (goto me (FreeHead t Committing) c))
  | CoStore t (Some q) =>
      with_cell q c (λ w,
        match store (shared c) !! key_idx w with
        | Some e =>
            Runs (goto me (CoStore t (wnext w)) (set_shared (set_store
              (<[key_idx w := mkEntry (key e) (clip MAX_VALUE_LEN (wvalue w)) (owner_txn e) (used e)]> (store (shared c)))
              (shared c)) c))
        | None => Crash OutOfBounds
        end)
  (* freeing the writes *)
  | FreeHead v r => Some (Runs (goto me (Free v r (default None (heads c !! v))) (set_freeing v c)))
  | Free v r None => Some (Runs (goto me (FreeNull v r) c))
  | Free v r (Some q) => with_cell q c (λ e, Runs (goto me (Free v r (wnext e)) (set_cell q None c)))
  | FreeNull v r => Some (Runs (goto me (Rel v 0 r) (set_head v None c)))
  (* [release_all_locks] *)
  | Rel v i r =>
      if MAX_KEYS <=? i then
        Some (Runs (goto me (match r with Committing => CoStatus v | Aborting _ => Finish v r end) c))
      else
        with_txn v c (λ x,
          match held_keys x !! i with
          | Some held => Runs (goto me (if held : bool then RelLock v i r else Rel v (S i) r) c)
          | None => Crash OutOfBounds
          end)
  | RelLock v i r => lock_key i me (RelOwner v i r) c
  | RelOwner v i r =>
      with_key i c (λ e, Runs (goto me (RelUnlock v i r) (if owner_txn e =? v then set_owner i 0 e c else c)))
  | RelUnlock v i r => Some (Runs (goto me (RelHeld v i r) (set_key_mtx i None c)))
  | RelHeld v i r => with_txn v c (λ x, Runs (goto me (Rel v (S i) r) (update v (set_held i false x) c)))
  | CoStatus t => with_txn t c (λ x, Runs (goto me (Finish t Committing) (update t (set_status TXN_COMMITTED x) c)))
  | Finish v r => Some (Runs (goto me (after_close r) (set_txn_mtx v None c)))
  | Returned => None
  end.

Definition step (me : nat) (c : config) : option outcome :=
  match threads c !! me with Some p => run me c p | None => None end.

Definition any_step (c c' : config) : Prop := ∃ me, step me c = Some (Runs c').

Definition reachable : config → config → Prop := rtc any_step.

(** Threads that write the given keys and commit. *)
Definition start (progs : list (list (string * string))) : config :=
  mkconfig init [] (replicate MAX_TXNS None) (replicate MAX_KEYS None) (replicate MAX_TXNS None)
    (replicate MAX_TXNS false) (Start <$> progs).

(** The run in which the threads move in the given order, those that wait being
    passed over. *)
Fixpoint schedule (sched : list nat) (c : config) : config :=
  match sched with
  | [] => c
  | me :: sched => schedule sched (match step me c with Some (Runs c') => c' | _ => c end)
  end.

Lemma schedule_reachable sched c : reachable c (schedule sched c).
Proof.
  revert c. induction sched as [|me sched IH]; intros c; [apply rtc_refl|]. cbn [schedule].
  destruct (step me c) as [[c'| |]|] eqn:E; [|apply IH..]. eapply rtc_l; [by exists me|apply IH].
Qed.

End Races.

(** ** The invariant *)
Module RacesSpec.
Import LockTxn Races.

(** *** Who holds what *)

Definition caller_keys (a : caller) : list nat := match a with ForVictim _ i _ => [i] | ForSelf => [] end.
Definition closer_keys (r : closer) : list nat := match r with Aborting a => caller_keys a | Committing => [] end.

(** The keys whose mutexes a thread has locked and not yet unlocked. *)
Definition key_held (p : pc) : list nat :=
  match p with
  | Status _ i | Owner _ i | Held _ i | Leave _ i _ | AddEdge _ i _ | Detect _ i _ | SelfEdge _ i _
  | SelfLeave _ i | Unwait _ i _ | WaitTest _ i _ | CondWait _ i _ => [i]
  | AbLock _ a | AbTest _ a | AbSet _ a | AbEdges _ a => caller_keys a
  | FreeHead _ r | Free _ r _ | FreeNull _ r | Rel _ _ r | RelLock _ _ r | RelHeld _ _ r | Finish _ r => closer_keys r
  | RelOwner _ i r | RelUnlock _ i r => i :: closer_keys r
  | _ => []
  end.

(** The transaction whose mutex a thread has locked. *)
Definition txn_held (p : pc) : option nat :=
  match p with
  | AbTest v _ | AbSet v _ | AbEdges v _ | CoTest v | CoHead v | CoStore v _ | CoStatus v
  | FreeHead v _ | Free v _ _ | FreeNull v _ | Rel v _ _ | RelLock v _ _ | RelOwner v _ _ | RelUnlock v _ _
  | RelHeld v _ _ | Finish v _ => Some v
  | _ => None
  end.

(** The transaction of a thread. *)
Definition own_caller (v : nat) (a : caller) : nat := match a with ForVictim w _ _ => ct w | ForSelf => v end.
Definition own_closer (v : nat) (r : closer) : nat := match r with Aborting a => own_caller v a | Committing => v end.

Definition txn_of (p : pc) : option nat :=
  match p with
  | Start _ | Returned => None
  | Next t _ | CoLock t | CoTest t | CoHead t | CoStore t _ | CoStatus t => Some t
  | GetKey w | LockKey w _ | Status w _ | Owner w _ | Held w _ | Leave w _ _ | AddEdge w _ _ | Detect w _ _
  | SelfEdge w _ _ | SelfLeave w _ | Unwait w _ _ | WaitTest w _ _ | CondWait w _ _ | Asleep w _ _
  | FindHead w _ | Find w _ _ | New w _ | Publish w _ _ | Copy w _ _ => Some (ct w)
  | AbLock v a | AbTest v a | AbSet v a | AbEdges v a => Some (own_caller v a)
  | FreeHead v r | Free v r _ | FreeNull v r | Rel v _ r | RelLock v _ r | RelOwner v _ r | RelUnlock v _ r
  | RelHeld v _ r | Finish v r => Some (own_closer v r)
  end.

(** The slot of the key a thread writes. *)
Definition slots (p : pc) : list nat :=
  match p with
  | LockKey _ i | Asleep _ i _ | FindHead _ i | Find _ i _ | New _ i | Publish _ i _ | Copy _ i _ => [i]
  | RelOwner _ _ r | RelUnlock _ _ r => closer_keys r
  | _ => key_held p
  end.

(** The transactions a program counter mentions. *)
Definition mentions (p : pc) : list nat :=
  match p with
  | AbLock v _ => [v]
  | _ => option_list (txn_held p)
  end ++ option_list (txn_of p).

Definition is_start (p : pc) : bool := match p with Start _ => true | _ => false end.

(** A commit that has begun to free its writes. *)
Definition closing (p : pc) : option nat :=
  match p with
  | Free v Committing _ | FreeNull v Committing | Rel v _ Committing | RelLock v _ Committing
  | RelOwner v _ Committing | RelUnlock v _ Committing | RelHeld v _ Committing | CoStatus v => Some v
  | _ => None
  end.

(** *** Lists of writes *)

(** [p] leads through the live nodes [l], all allocated by [t]. *)
Fixpoint chain (cs : list (option WriteEntry)) (t : nat) (p : option nat) (l : list nat) : Prop :=
  match l with
  | [] => p = None
  | q :: l => p = Some q ∧ ∃ e, cs !! q = Some (Some e) ∧ wtxn e = t ∧ chain cs t (wnext e) l
  end.

Lemma chain_fun cs t p l l' : chain cs t p l → chain cs t p l' → l = l'.
Proof.
  revert p l'. induction l as [|q l IH]; intros p [|q' l']; simpl; [done| |..].
  - by intros -> [? _].
  - by intros [-> _] ?.
  - intros (-> & e & He & _ & Hl) ([= <-] & e' & He' & _ & Hl'). rewrite He in He'. injection He' as <-. f_equal. by eapply IH.
Qed.

Lemma chain_suffix cs t p l1 q l2 : chain cs t p (l1 ++ q :: l2) → chain cs t (Some q) (q :: l2).
Proof. revert p. induction l1 as [|q1 l1 IH]; intros p; [intros [-> H]; by split|]. intros (_ & e & _ & _ & H). by eapply IH. Qed.

(** A chain does not come back to its first node. *)
Lemma chain_nodup cs t q l : chain cs t (Some q) (q :: l) → q ∉ l.
Proof.
  intros Hc (l1 & l2 & ->)%list_elem_of_split. pose proof (chain_suffix cs t (Some q) (q :: l1) q l2 Hc) as Hs.
  pose proof (f_equal length (chain_fun _ _ _ _ _ Hc Hs)) as Hlen. simpl in Hlen. rewrite length_app in Hlen. simpl in Hlen. lia.
Qed.

(** The nodes of [t] stay, but for the value. *)
Definition keeps (t : nat) (cs cs' : list (option WriteEntry)) : Prop :=
  ∀ q e, cs !! q = Some (Some e) → wtxn e = t →
  ∃ e', cs' !! q = Some (Some e') ∧ wtxn e' = t ∧ wnext e' = wnext e ∧ key_idx e' = key_idx e.

Lemma chain_keeps t cs cs' p l : keeps t cs cs' → chain cs t p l → chain cs' t p l.
Proof.
  intros Hk. revert p. induction l as [|q l IH]; intros p; [done|]. intros (-> & e & He & Ht & Hl).
  destruct (Hk q e He Ht) as (e' & He' & Ht' & Hn & _). split; [done|]. exists e'. rewrite Hn. auto.
Qed.

(** Freeing the first node leaves the rest. *)
Lemma chain_free cs t q l e :
  chain cs t (Some q) (q :: l) → cs !! q = Some (Some e) → chain (<[q := None]> cs) t (wnext e) l.
Proof.
  intros Hc He. pose proof (chain_nodup _ _ _ _ Hc) as Hq. destruct Hc as (_ & e' & He' & _ & Hl).
  rewrite He in He'. injection He' as <-. clear He. revert Hl. generalize (wnext e). induction l as [|q' l IH]; intros p; [done|].
  apply not_elem_of_cons in Hq as [Hne Hq]. intros (-> & e' & He' & Ht & Hl). split; [done|]. exists e'.
  rewrite list_lookup_insert_ne by done. auto.
Qed.

(** *** What a thread knows *)

Definition txn_exists (c : config) (t : nat) : Prop := ∃ x, txns (shared c) !! t = Some (Some x).

Definition has_status (c : config) (t : nat) (P : txn_status → Prop) : Prop :=
  ∃ x, txns (shared c) !! t = Some (Some x) ∧ P (status x).

(** As long as [t] is active it owns the key in slot [i]. *)
Definition mine (c : config) (t i : nat) : Prop :=
  has_status c t (λ s, s = TXN_ACTIVE) → ∃ e, store (shared c) !! i = Some e ∧ owner_txn e = t.

Definition not_freed (c : config) (t : nat) : Prop := freeing c !! t = Some false.

Definition head (c : config) (t : nat) : option nat := default None (heads c !! t).

Definition used_slot (c : config) (i : nat) : Prop := ∃ e, store (shared c) !! i = Some e ∧ used e = true.

(** The status of a transaction that is being closed. *)
Definition closed_status (r : closer) (s : txn_status) : Prop :=
  match r with Aborting _ => s ≠ TXN_ACTIVE | Committing => s = TXN_ACTIVE end.

Definition knows (c : config) (p : pc) : Prop :=
  match p with
  | Held w i | Leave w i true | FindHead w i | New w i => mine c (ct w) i
  | Find w i p => mine c (ct w) i ∧ (not_freed c (ct w) → ∃ l, chain (cells c) (ct w) p l)
  | Publish w i q => mine c (ct w) i ∧
      (not_freed c (ct w) → ∃ e, cells c !! q = Some (Some e) ∧ wtxn e = ct w ∧ wnext e = head c (ct w))
  | Copy w i q => mine c (ct w) i ∧ (not_freed c (ct w) → ∃ e, cells c !! q = Some (Some e) ∧ wtxn e = ct w)
  | AbSet v _ => has_status c v (λ s, s = TXN_ACTIVE) ∧ not_freed c v
  | AbEdges v a => has_status c v (closed_status (Aborting a)) ∧ not_freed c v
  | CoHead t => has_status c t (λ s, s = TXN_ACTIVE) ∧ not_freed c t
  | CoStore t p => has_status c t (λ s, s = TXN_ACTIVE) ∧ not_freed c t ∧ ∃ l, chain (cells c) t p l
  | FreeHead v r => has_status c v (closed_status r) ∧ not_freed c v
  | Free v r p => has_status c v (closed_status r) ∧ freeing c !! v = Some true ∧ ∃ l, chain (cells c) v p l
  | FreeNull v r | Rel v _ r => has_status c v (closed_status r) ∧ freeing c !! v = Some true
  | RelLock v i r | RelOwner v i r | RelUnlock v i r | RelHeld v i r =>
      has_status c v (closed_status r) ∧ freeing c !! v = Some true ∧ i < MAX_KEYS
  | CoStatus t => freeing c !! t = Some true
  | _ => True
  end.

Definition pc_ok (c : config) (p : pc) : Prop :=
  Forall (used_slot c) (slots p) ∧ NoDup (key_held p) ∧ Forall (txn_exists c) (mentions p) ∧ knows c p.

(** The tables. *)
Record shape (c : config) : Prop := mkshape {
  sh_store : length (store (shared c)) = MAX_KEYS;
  sh_txns : length (txns (shared c)) = MAX_TXNS;
  sh_graph : LockSpec.graph_ok (wait_for (shared c));
  sh_next : 1 ≤ next_txn_id (shared c) ≤ MAX_TXNS;
  sh_txn t x : txns (shared c) !! t = Some (Some x) → 1 ≤ t < next_txn_id (shared c) ∧ length (held_keys x) = MAX_KEYS;
  sh_edge u v : waits (wait_for (shared c)) u v = true → txn_exists c u;
  sh_owner k e : store (shared c) !! k = Some e → owner_txn e ≠ 0 → used e = true;
  sh_heads : length (heads c) = MAX_TXNS;
  sh_keys : length (key_mtx c) = MAX_KEYS;
  sh_mtxs : length (txn_mtx c) = MAX_TXNS;
  sh_freeing : length (freeing c) = MAX_TXNS
}.

(** The mutexes and the threads. *)
Record owners (c : config) : Prop := mkowners {
  ow_key i me : key_mtx c !! i = Some (Some me) ↔ ∃ p, threads c !! me = Some p ∧ i ∈ key_held p;
  ow_txn t me : txn_mtx c !! t = Some (Some me) ↔ ∃ p, threads c !! me = Some p ∧ txn_held p = Some t;
  ow_own me1 me2 p1 p2 t : threads c !! me1 = Some p1 → threads c !! me2 = Some p2 →
    txn_of p1 = Some t → txn_of p2 = Some t → me1 = me2;
  ow_room : length (filter (λ p, is_start p = true) (threads c)) + next_txn_id (shared c) ≤ MAX_TXNS
}.

(** The buffered writes. *)
Record buffers (c : config) : Prop := mkbuffers {
  bu_chain t : not_freed c t → ∃ l, chain (cells c) t (head c t) l;
  bu_cell q e : cells c !! q = Some (Some e) →
    key_idx e < MAX_KEYS ∧ txn_exists c (wtxn e) ∧ (not_freed c (wtxn e) → mine c (wtxn e) (key_idx e));
  bu_freed t : freeing c !! t = Some true →
    has_status c t (λ s, s ≠ TXN_ACTIVE) ∨ ∃ me p, threads c !! me = Some p ∧ closing p = Some t
}.

Record inv (c : config) : Prop := mkinv {
  in_shape : shape c;
  in_owners : owners c;
  in_buffers : buffers c;
  in_pc me p : threads c !! me = Some p → pc_ok c p
}.

(** *** What the others may do *)

(** How a step of a thread at [p] changes what the other threads rely on. *)
Record evolves (p : pc) (c c' : config) : Prop := mkevolves {
  ev_txn t x : txns (shared c) !! t = Some (Some x) →
    ∃ x', txns (shared c') !! t = Some (Some x') ∧
      (status x' = status x ∨ status x' ≠ TXN_ACTIVE ∧ txn_held p = Some t);
  ev_owner k e : store (shared c) !! k = Some e →
    ∃ e', store (shared c') !! k = Some e' ∧ (used e = true → used e' = true) ∧
      (owner_txn e = 0 ∨ owner_txn e' = owner_txn e ∨
       txn_held p = Some (owner_txn e) ∧ freeing c !! owner_txn e = Some true);
  ev_cells q e : cells c !! q = Some (Some e) →
    (∃ e', cells c' !! q = Some (Some e') ∧ wtxn e' = wtxn e ∧ wnext e' = wnext e ∧ key_idx e' = key_idx e) ∨
    txn_held p = Some (wtxn e) ∧ freeing c !! wtxn e = Some true;
  ev_heads t : head c' t = head c t ∨ txn_of p = Some t ∨ txn_held p = Some t ∧ freeing c !! t = Some true;
  ev_freeing t : freeing c' !! t = freeing c !! t ∨ txn_held p = Some t ∧ freeing c' !! t = Some true
}.

Lemma evolves_refl p c : evolves p c c.
Proof. constructor; eauto 10. Qed.

Section Rely.
Context (p : pc) (c c' : config) (He : evolves p c c').

Lemma ev_exists t : txn_exists c t → txn_exists c' t.
Proof. intros [x Hx]. destruct (ev_txn _ _ _ He t x Hx) as (x' & Hx' & _). by exists x'. Qed.

Lemma ev_used i : used_slot c i → used_slot c' i.
Proof. intros (e & Hs & Hu). destruct (ev_owner _ _ _ He i e Hs) as (e' & Hs' & Hu' & _). exists e'. auto. Qed.

Lemma ev_not_freed t : not_freed c' t → not_freed c t.
Proof. unfold not_freed. intros Hf. destruct (ev_freeing _ _ _ He t) as [<-|[_ Ht]]; congruence. Qed.

Lemma ev_still t : freeing c !! t = Some true → freeing c' !! t = Some true.
Proof. intros Hf. destruct (ev_freeing _ _ _ He t) as [->|[_ ?]]; done. Qed.

Lemma ev_same_freed t : txn_held p ≠ Some t → freeing c' !! t = freeing c !! t.
Proof. intros Hne. destruct (ev_freeing _ _ _ He t) as [?|[? _]]; [done|congruence]. Qed.

Lemma ev_status t (P : txn_status → Prop) : txn_held p ≠ Some t → has_status c t P → has_status c' t P.
Proof. intros Hne (x & Hx & HP). destruct (ev_txn _ _ _ He t x Hx) as (x' & Hx' & [Hs|[_ ?]]); [|done]. exists x'. by rewrite Hs. Qed.

(** No transaction becomes active. *)
Lemma ev_active t : txn_exists c t → has_status c' t (λ s, s = TXN_ACTIVE) → has_status c t (λ s, s = TXN_ACTIVE).
Proof.
  intros [x Hx] (y & Hy & Hs). destruct (ev_txn _ _ _ He t x Hx) as (x' & Hx' & Hst). rewrite Hx' in Hy. injection Hy as ->.
  exists x. split; [done|]. destruct Hst as [<-|[? _]]; done.
Qed.

Lemma ev_inactive t : has_status c t (λ s, s ≠ TXN_ACTIVE) → has_status c' t (λ s, s ≠ TXN_ACTIVE).
Proof.
  intros (x & Hx & Hs). destruct (ev_txn _ _ _ He t x Hx) as (x' & Hx' & Hst). exists x'. split; [done|].
  destruct Hst as [->|[? _]]; done.
Qed.

(** An active transaction keeps its keys unless it is being closed. *)
Lemma ev_mine t i :
  t ≠ 0 → txn_exists c t → (has_status c t (λ s, s = TXN_ACTIVE) → txn_held p = Some t → freeing c !! t ≠ Some true) →
  mine c t i → mine c' t i.
Proof.
  intros H0 Hex Hcl Hm Ha. apply (ev_active _ Hex) in Ha. destruct (Hm Ha) as (e & Hs & Ho).
  destruct (ev_owner _ _ _ He i e Hs) as (e' & Hs' & _ & [?|[?|[Ht Hf]]]); [congruence|exists e'; by split; [|congruence]|].
  rewrite Ho in Ht, Hf. by destruct (Hcl Ha Ht).
Qed.

Lemma ev_keeps t : not_freed c t ∨ txn_held p ≠ Some t → keeps t (cells c) (cells c').
Proof.
  intros Hnf q e Hq <-. destruct (ev_cells _ _ _ He q e Hq) as [?|[Ht Hf]]; [done|]. destruct Hnf as [Hnf|Hnf]; [|done].
  unfold not_freed in Hnf. congruence.
Qed.

End Rely.

Lemma closing_held p t : closing p = Some t → txn_held p = Some t ∧ txn_of p = Some t.
Proof. destruct p; try done; simpl; (repeat match goal with r : closer |- _ => destruct r end); try done; by intros [= ->]. Qed.

Lemma held_unique c me1 me2 p1 p2 t :
  inv c → threads c !! me1 = Some p1 → threads c !! me2 = Some p2 → txn_held p1 = Some t → txn_held p2 = Some t → me1 = me2.
Proof.
  intros Hi H1 H2 Ht1 Ht2. pose proof (proj2 (ow_txn _ (in_owners _ Hi) t me1) (ex_intro _ p1 (conj H1 Ht1))).
  pose proof (proj2 (ow_txn _ (in_owners _ Hi) t me2) (ex_intro _ p2 (conj H2 Ht2))). congruence.
Qed.

Lemma exists_nonzero c t : inv c → txn_exists c t → t ≠ 0.
Proof. intros Hi [x Hx]. destruct (sh_txn _ (in_shape _ Hi) t x Hx). lia. Qed.

(** The commit of an active transaction that frees its writes is that of its own
    thread. *)
Lemma freeing_active c t :
  inv c → has_status c t (λ s, s = TXN_ACTIVE) → freeing c !! t = Some true →
  ∃ me p, threads c !! me = Some p ∧ closing p = Some t.
Proof.
  intros Hi (x & Hx & Hs) Hf. destruct (bu_freed _ (in_buffers _ Hi) t Hf) as [(x' & Hx' & Hs')|?]; [|done]. congruence.
Qed.

(** What another thread knows stays true. *)
Lemma knows_other c c' me me' p u :
  inv c → threads c !! me = Some p → threads c !! me' = Some u → me ≠ me' → evolves p c c' →
  Forall (txn_exists c) (mentions u) → knows c u → knows c' u.
Proof.
  intros Hi Hp Hu Hne He Hm Hk.
  assert (∀ t, txn_held u = Some t → txn_held p ≠ Some t) as Hheld by (intros t Htu Htp; by apply Hne, (held_unique c me me' p u t)).
  assert (∀ t, txn_of u = Some t → txn_of p ≠ Some t) as Hof by (intros t Htu Htp; by apply Hne, (ow_own _ (in_owners _ Hi) me me' p u t)).
  assert (∀ t i, txn_of u = Some t → mine c t i → mine c' t i) as Hmine.
  { intros t i Ht. assert (txn_exists c t) as Hex.
    { apply (proj1 (Forall_forall _ _) Hm). unfold mentions. rewrite Ht. apply elem_of_app. right. by left. }
    apply (ev_mine p c c' He); [by eapply exists_nonzero|done|]. intros Ha Hh Hf.
    destruct (freeing_active c t Hi Ha Hf) as (me0 & p0 & Hp0 & (Hh0 & Hof0)%closing_held).
    assert (me0 = me') as -> by (by eapply (ow_own _ (in_owners _ Hi) _ _ p0 u)). rewrite Hu in Hp0. injection Hp0 as <-. by apply (Hheld t). }
  assert (∀ t, txn_of u = Some t → not_freed c' t → head c' t = head c t) as Hhead.
  { intros t Ht Hnf. destruct (ev_heads _ _ _ He t) as [?|[?|[_ Hf]]]; [done|by apply Hof in Ht|].
    apply (ev_not_freed p c c' He) in Hnf. unfold not_freed in Hnf. congruence. }
  pose proof (ev_keeps p c c' He) as Hkeep. pose proof (ev_not_freed p c c' He) as Hnf.
  assert (∀ t l q, not_freed c t ∨ txn_held p ≠ Some t → chain (cells c) t q l → chain (cells c') t q l) as Hchain
    by (intros t l q H; by apply chain_keeps, Hkeep).
  assert (∀ t, txn_held u = Some t → not_freed c t → not_freed c' t) as Hnfs
    by (intros t Ht; unfold not_freed; by rewrite (ev_same_freed p c c' He t (Hheld t Ht))).
  pose proof (λ t P Ht, ev_status p c c' He t P (Hheld t Ht)) as Hst.
  destruct u; simpl in *; try done; try (by apply Hmine); try (by destruct ok; [apply Hmine|]).
  - destruct Hk as [Hk1 Hk2]. split; [by apply Hmine|]. intros H. destruct (Hk2 (Hnf _ H)) as [l Hl]. exists l. apply Hchain; auto.
  - destruct Hk as [Hk1 Hk2]. split; [by apply Hmine|]. intros H. destruct (Hk2 (Hnf _ H)) as (e & Hq & Ht & Hn).
    destruct (Hkeep (ct w) ltac:(auto) q e Hq Ht) as (e' & Hq' & Ht' & Hn' & _). exists e'. rewrite Hn', Hn, Hhead by done. done.
  - destruct Hk as [Hk1 Hk2]. split; [by apply Hmine|]. intros H. destruct (Hk2 (Hnf _ H)) as (e & Hq & Ht).
    destruct (Hkeep (ct w) ltac:(auto) q e Hq Ht) as (e' & Hq' & Ht' & _). by exists e'.
  - destruct Hk. auto.
  - destruct Hk. auto.
  - destruct Hk. auto.
  - destruct Hk as (? & ? & l & Hl). split; [auto|]. split; [auto|]. exists l. apply Hchain; auto.
  - destruct Hk. auto.
  - destruct Hk as (? & Hf & l & Hl). split; [auto|]. split; [by apply (ev_still p c c' He)|]. exists l. apply Hchain; auto.
  - destruct Hk. split; [auto|by apply (ev_still p c c' He)].
  - destruct Hk. split; [auto|by apply (ev_still p c c' He)].
  - destruct Hk as (? & ? & ?). split; [auto|]. split; [by apply (ev_still p c c' He)|done].
  - destruct Hk as (? & ? & ?). split; [auto|]. split; [by apply (ev_still p c c' He)|done].
  - destruct Hk as (? & ? & ?). split; [auto|]. split; [by apply (ev_still p c c' He)|done].
  - destruct Hk as (? & ? & ?). split; [auto|]. split; [by apply (ev_still p c c' He)|done].
  - by apply (ev_still p c c' He).
Qed.

(** *** One thread moves *)

Lemma filter_start_insert (l : list pc) i p p' :
  l !! i = Some p → is_start p' = false →
  length (filter (λ p, is_start p = true) (<[i := p']> l)) + (if is_start p then 1 else 0) =
    length (filter (λ p, is_start p = true) l).
Proof.
  intros Hp Hp'. rewrite insert_take_drop by (by eapply lookup_lt_Some). rewrite <- (take_drop_middle l i p Hp) at 3.
  rewrite !filter_app, filter_cons_False by congruence. rewrite !length_app. destruct (is_start p) eqn:E.
  - rewrite filter_cons_True by done. simpl. lia.
  - rewrite filter_cons_False by congruence. lia.
Qed.

Section Move.
Context (c c' : config) (me : nat) (p p' : pc).
Hypothesis Hi : inv c.
Hypothesis Hp : threads c !! me = Some p.
Hypothesis Hthreads : threads c' = <[me := p']> (threads c).

Lemma threads_me : threads c' !! me = Some p'.
Proof. rewrite Hthreads. apply list_lookup_insert_eq. by eapply lookup_lt_Some. Qed.

Lemma threads_other me' : me' ≠ me → threads c' !! me' = threads c !! me'.
Proof. intros Hne. rewrite Hthreads. by rewrite list_lookup_insert_ne. Qed.

(** The key mutexes of [me] become those of [p']. *)
Definition keys_move : Prop :=
  ∀ i me', key_mtx c' !! i = Some (Some me') ↔ if decide (me' = me) then i ∈ key_held p' else key_mtx c !! i = Some (Some me').
Definition txns_move : Prop :=
  ∀ t me', txn_mtx c' !! t = Some (Some me') ↔ if decide (me' = me) then txn_held p' = Some t else txn_mtx c !! t = Some (Some me').

Lemma keys_stay : key_mtx c' = key_mtx c → (∀ i, i ∈ key_held p' ↔ i ∈ key_held p) → keys_move.
Proof.
  intros Hm Hh i me'. rewrite Hm. case_decide as Hd; [subst me'|done]. rewrite (ow_key _ (in_owners _ Hi)), Hp, Hh. split.
  - by intros (q & [= <-] & ?).
  - eauto.
Qed.

Lemma keys_lock i : key_mtx c !! i = Some None → key_mtx c' = <[i := Some me]> (key_mtx c) →
  (∀ j, j ∈ key_held p' ↔ j = i ∨ j ∈ key_held p) → keys_move.
Proof.
  intros Hf Hm Hh j me'. rewrite Hm. pose proof (ow_key _ (in_owners _ Hi) j me') as Ho. destruct (decide (i = j)) as [<-|Hij].
  - rewrite list_lookup_insert_eq by (by eapply lookup_lt_Some). case_decide as Hd; [subst me'|].
    + rewrite Hh. split; [by left|done].
    + rewrite Hf. split; [|done]. intros [= ->]. done.
  - rewrite list_lookup_insert_ne by done. case_decide as Hd; [subst me'|done]. rewrite Ho, Hp, Hh. split.
    + intros (q & [= <-] & ?). by right.
    + intros [->|?]; [done|eauto].
Qed.

Lemma keys_unlock i ks : key_held p = i :: ks → NoDup (i :: ks) → key_mtx c' = <[i := None]> (key_mtx c) →
  (∀ j, j ∈ key_held p' ↔ j ∈ ks) → keys_move.
Proof.
  intros Hk [Hnd _]%NoDup_cons Hm Hh j me'. rewrite Hm. pose proof (ow_key _ (in_owners _ Hi) j me') as Ho.
  assert (key_mtx c !! i = Some (Some me)) as Hme by (apply (ow_key _ (in_owners _ Hi)); exists p; rewrite Hk; split; [done|by left]).
  destruct (decide (i = j)) as [<-|Hij].
  - rewrite list_lookup_insert_eq by (by eapply lookup_lt_Some). case_decide as Hd; [subst me'; rewrite Hh; done|].
    split; [done|]. congruence.
  - rewrite list_lookup_insert_ne by done. case_decide as Hd; [subst me'|done]. rewrite Ho, Hp, Hh. split.
    + intros (q & [= <-] & Hq). rewrite Hk in Hq. by apply elem_of_cons in Hq as [?|?].
    + intros ?. exists p. rewrite Hk. split; [done|by right].
Qed.

Lemma txns_stay : txn_mtx c' = txn_mtx c → txn_held p' = txn_held p → txns_move.
Proof.
  intros Hm Hh t me'. rewrite Hm. case_decide as Hd; [subst me'|done]. rewrite (ow_txn _ (in_owners _ Hi)), Hp, Hh. split.
  - by intros (q & [= <-] & ?).
  - eauto.
Qed.

Lemma txns_lock t : txn_mtx c !! t = Some None → txn_mtx c' = <[t := Some me]> (txn_mtx c) →
  txn_held p = None → txn_held p' = Some t → txns_move.
Proof.
  intros Hf Hm Hh Hh' j me'. rewrite Hm. pose proof (ow_txn _ (in_owners _ Hi) j me') as Ho. destruct (decide (t = j)) as [<-|Hij].
  - rewrite list_lookup_insert_eq by (by eapply lookup_lt_Some). case_decide as Hd; [by subst me'|].
    rewrite Hf. split; [|done]. intros [= ->]. done.
  - rewrite list_lookup_insert_ne by done. case_decide as Hd; [subst me'|done]. rewrite Ho, Hp. split.
    + intros (q & [= <-] & ?). congruence.
    + congruence.
Qed.

Lemma txns_unlock t : txn_held p = Some t → txn_mtx c' = <[t := None]> (txn_mtx c) → txn_held p' = None → txns_move.
Proof.
  intros Hh Hm Hh' j me'. rewrite Hm. pose proof (ow_txn _ (in_owners _ Hi) j me') as Ho.
  assert (txn_mtx c !! t = Some (Some me)) as Hme by (apply (ow_txn _ (in_owners _ Hi)); by exists p).
  destruct (decide (t = j)) as [<-|Hij].
  - rewrite list_lookup_insert_eq by (by eapply lookup_lt_Some). case_decide as Hd; [by subst me'; rewrite Hh'|].
    split; [done|]. congruence.
  - rewrite list_lookup_insert_ne by done. case_decide as Hd; [subst me'|done]. rewrite Ho, Hp, Hh'. split; [|done].
    intros (q & [= <-] & ?). congruence.
Qed.

Lemma owners_move :
  keys_move → txns_move →
  (txn_of p' = txn_of p ∨ txn_of p' = None ∨ ∃ t, txn_of p' = Some t ∧ ¬ txn_exists c t) →
  is_start p' = false → next_txn_id (shared c') ≤ next_txn_id (shared c) + (if is_start p then 1 else 0) → owners c'.
Proof.
  intros Hkm Htm Hof Hst Hn. constructor.
  - intros i me'. rewrite (Hkm i me'). case_decide as Hd; [subst me'; rewrite threads_me|].
    + split; [eauto|]. by intros (q & [= <-] & ?).
    + rewrite threads_other by done. apply (in_owners _ Hi).
  - intros t me'. rewrite (Htm t me'). case_decide as Hd; [subst me'; rewrite threads_me|].
    + split; [eauto|]. by intros (q & [= <-] & ?).
    + rewrite threads_other by done. apply (in_owners _ Hi).
  - assert (∀ me2 q t, me2 ≠ me → threads c !! me2 = Some q → txn_of p' = Some t → txn_of q = Some t → False) as Hnew.
    { intros me2 q t Hne Hq Ht Htq. destruct Hof as [Hof|[Hof|(t' & Hof & Hex)]].
      - apply Hne. apply (ow_own _ (in_owners _ Hi) me2 me q p t Hq Hp Htq). congruence.
      - congruence.
      - rewrite Ht in Hof. injection Hof as <-. apply Hex.
        destruct (in_pc _ Hi _ _ Hq) as (_ & _ & Hm & _). apply (proj1 (Forall_forall _ _) Hm). unfold mentions. rewrite Htq.
        apply elem_of_app. right. by left. }
    intros me1 me2 p1 p2 t H1 H2 Ht1 Ht2. destruct (decide (me1 = me)) as [->|H1n], (decide (me2 = me)) as [->|H2n]; [done|..].
    + rewrite threads_me in H1. injection H1 as <-. rewrite threads_other in H2 by done. by destruct (Hnew me2 p2 t).
    + rewrite threads_me in H2. injection H2 as <-. rewrite threads_other in H1 by done. by destruct (Hnew me1 p1 t).
    + rewrite threads_other in H1, H2 by done. by eapply (in_owners _ Hi).
  - rewrite Hthreads. pose proof (filter_start_insert (threads c) me p p' Hp Hst). pose proof (ow_room _ (in_owners _ Hi)). lia.
Qed.

(** The buffers after a step that other threads can live with. *)
Lemma buffers_move :
  evolves p c c' →
  (∀ t, not_freed c' t → head c' t = head c t ∨ ∃ l, chain (cells c') t (head c' t) l) →
  (∀ q e, cells c' !! q = Some (Some e) →
    (∃ e0, cells c !! q = Some (Some e0) ∧ key_idx e0 = key_idx e ∧ wtxn e0 = wtxn e) ∨
    (key_idx e < MAX_KEYS ∧ txn_exists c' (wtxn e) ∧ (not_freed c' (wtxn e) → mine c' (wtxn e) (key_idx e)))) →
  (∀ t, closing p = Some t → closing p' = Some t ∨ has_status c' t (λ s, s ≠ TXN_ACTIVE)) →
  (∀ t, freeing c' !! t = Some true → freeing c !! t = Some true ∨ closing p' = Some t ∨ has_status c' t (λ s, s ≠ TXN_ACTIVE)) →
  buffers c'.
Proof.
  intros He Hh Hc Hcl Hf. constructor.
  - intros t Ht. destruct (Hh t Ht) as [->|?]; [|done]. pose proof (ev_not_freed _ _ _ He t Ht) as Ht0.
    destruct (bu_chain _ (in_buffers _ Hi) t Ht0) as [l Hl]. exists l. eapply chain_keeps; [|exact Hl].
    apply (ev_keeps _ _ _ He). by left.
  - intros q e Hq. destruct (Hc q e Hq) as [(e0 & Hq0 & <- & <-)|?]; [|done].
    destruct (bu_cell _ (in_buffers _ Hi) q e0 Hq0) as (Hk & Hex & Hm). split; [done|]. split; [by apply (ev_exists _ _ _ He)|].
    intros Hnf. pose proof (ev_not_freed _ _ _ He _ Hnf) as Hnf0. apply (ev_mine _ _ _ He); auto.
    + by eapply exists_nonzero.
    + intros _ _. unfold not_freed in Hnf0. congruence.
  - intros t Ht. destruct (Hf t Ht) as [Hf0|[Hcl'|?]]; [|right|by left].
    + destruct (bu_freed _ (in_buffers _ Hi) t Hf0) as [Hs|(me0 & p0 & Hp0 & Hcl0)]; [left; by apply (ev_inactive _ _ _ He)|].
      destruct (decide (me0 = me)) as [->|Hne].
      * rewrite Hp in Hp0. injection Hp0 as <-. destruct (Hcl t Hcl0) as [?|?]; [|by left]. right. exists me, p'. by rewrite threads_me.
      * right. exists me0, p0. by rewrite threads_other.
    + exists me, p'. by rewrite threads_me.
Qed.

Lemma pcs_move : evolves p c c' → pc_ok c' p' → ∀ me' u, threads c' !! me' = Some u → pc_ok c' u.
Proof.
  intros He Hok me' u Hu. destruct (decide (me' = me)) as [->|Hne]; [rewrite threads_me in Hu; by injection Hu as <-|].
  rewrite threads_other in Hu by done. destruct (in_pc _ Hi _ _ Hu) as (H1 & H2 & H3 & H4).
  split; [eapply Forall_impl; [exact H1|]; intros t; apply (ev_used _ _ _ He)|]. split; [done|]. split.
  - eapply Forall_impl; [exact H3|]. intros t. apply (ev_exists _ _ _ He).
  - by eapply (knows_other c c' me me').
Qed.

End Move.

(** *** Kinds of steps *)

Section Steps.
Context (c c' : config) (me : nat) (p p' : pc).
Hypothesis Hi : inv c.
Hypothesis Hp : threads c !! me = Some p.
Hypothesis Hthreads : threads c' = <[me := p']> (threads c).
Hypothesis Hkeys : keys_move c c' me p'.
Hypothesis Htxns : txns_move c c' me p'.
Hypothesis Hof : txn_of p' = txn_of p ∨ txn_of p' = None.
Hypothesis Hst' : is_start p' = false.
Hypothesis Hlk : length (key_mtx c') = length (key_mtx c).
Hypothesis Hlt : length (txn_mtx c') = length (txn_mtx c).
Hypothesis Hclosing : ∀ t, closing p = Some t → closing p' = Some t ∨ has_status c' t (λ s, s ≠ TXN_ACTIVE).

(** The pieces together. *)
Lemma inv_move :
  shape c' → next_txn_id (shared c') = next_txn_id (shared c) → evolves p c c' →
  (∀ t, not_freed c' t → head c' t = head c t ∨ ∃ l, chain (cells c') t (head c' t) l) →
  (∀ q e, cells c' !! q = Some (Some e) →
    (∃ e0, cells c !! q = Some (Some e0) ∧ key_idx e0 = key_idx e ∧ wtxn e0 = wtxn e) ∨
    (key_idx e < MAX_KEYS ∧ txn_exists c' (wtxn e) ∧ (not_freed c' (wtxn e) → mine c' (wtxn e) (key_idx e)))) →
  (∀ t, freeing c' !! t = Some true → freeing c !! t = Some true ∨ closing p' = Some t ∨ has_status c' t (λ s, s ≠ TXN_ACTIVE)) →
  pc_ok c' p' → inv c'.
Proof.
  intros Hsh Hn He Hh Hc Hf Hok. constructor; [done| | |].
  - apply (owners_move c c' me p p'); try done; [|lia]. destruct Hof as [?|?]; auto.
  - by apply (buffers_move c c' me p p').
  - by eapply (pcs_move c c' me p p').
Qed.

(** The memory stays. *)
Lemma inv_sync w :
  shared c' = set_wait_for w (shared c) → cells c' = cells c → heads c' = heads c → freeing c' = freeing c →
  LockSpec.graph_ok w → (∀ u v, waits w u v = true → waits (wait_for (shared c)) u v = true ∨ txn_exists c u) →
  pc_ok c p' → inv c'.
Proof.
  intros Hs Hc Hh Hf Hg Hw Hok.
  assert (store (shared c') = store (shared c) ∧ txns (shared c') = txns (shared c) ∧ next_txn_id (shared c') = next_txn_id (shared c)) as (Hs1 & Hs2 & Hs3)
    by (by rewrite Hs).
  assert (wait_for (shared c') = w) as Hs4 by (by rewrite Hs).
  apply inv_move; [|done| | | | |].
  - destruct (in_shape _ Hi). constructor; unfold txn_exists; rewrite ?Hs1, ?Hs2, ?Hs3, ?Hs4, ?Hh, ?Hf; try done.
    + intros u v Huv. destruct (Hw u v Huv) as [Huv'|?]; [exact (sh_edge0 u v Huv')|done].
    + congruence.
    + congruence.
  - constructor; unfold head; rewrite ?Hs1, ?Hs2, ?Hs3, ?Hc, ?Hh, ?Hf; eauto 10.
  - intros t _. left. unfold head. by rewrite Hh.
  - intros q e Hq. left. exists e. by rewrite <- Hc.
  - intros t Ht. left. by rewrite <- Hf.
  - assert (∀ t P, has_status c' t P ↔ has_status c t P) as H1 by (intros; unfold has_status; by rewrite Hs2).
    destruct c as [s cs hs km tm fr ths], c' as [s' cs' hs' km' tm' fr' ths']. cbn [shared cells heads freeing] in *. subst cs' hs' fr' s'. exact Hok.
Qed.

(** The record of a transaction changes. *)
Lemma inv_txn t x x' :
  txns (shared c) !! t = Some (Some x) → shared c' = set_txns (<[t := Some x']> (txns (shared c))) (shared c) →
  cells c' = cells c → heads c' = heads c → freeing c' = freeing c →
  length (held_keys x') = length (held_keys x) → (status x' = status x ∨ status x' ≠ TXN_ACTIVE ∧ txn_held p = Some t) →
  pc_ok c' p' → inv c'.
Proof.
  intros Ht Hs Hc Hh Hf Hl Hst Hok. pose proof (in_shape _ Hi) as Hsh. pose proof (lookup_lt_Some _ _ _ Ht) as Htl.
  assert (store (shared c') = store (shared c) ∧ wait_for (shared c') = wait_for (shared c) ∧ next_txn_id (shared c') = next_txn_id (shared c)) as (Hs1 & Hs2 & Hs3)
    by (by rewrite Hs).
  assert (txns (shared c') = <[t := Some x']> (txns (shared c))) as Hs4 by (by rewrite Hs).
  assert (∀ j y, txns (shared c) !! j = Some (Some y) → ∃ y', txns (shared c') !! j = Some (Some y') ∧
    (status y' = status y ∨ status y' ≠ TXN_ACTIVE ∧ txn_held p = Some j)) as Htx.
  { intros j y Hj. rewrite Hs4. destruct (decide (t = j)) as [<-|Hne].
    - rewrite Ht in Hj. injection Hj as <-. exists x'. by rewrite list_lookup_insert_eq.
    - exists y. rewrite list_lookup_insert_ne by done. auto. }
  apply inv_move; [|done| | | | |done].
  - destruct Hsh. constructor; unfold txn_exists; rewrite ?Hs1, ?Hs2, ?Hs3, ?Hh, ?Hf; try done.
    + by rewrite Hs4, length_insert.
    + intros j y Hj. rewrite Hs4 in Hj. apply list_lookup_insert_Some in Hj as [(<- & [= <-] & _)|[_ Hj]]; [|eauto].
      rewrite Hl. eauto.
    + intros u v Huv. destruct (sh_edge0 u v Huv) as [y Hy]. destruct (Htx u y Hy) as (y' & Hy' & _). by exists y'.
    + congruence.
    + congruence.
  - constructor; unfold head; rewrite ?Hs1, ?Hc, ?Hh, ?Hf; eauto 10.
  - intros j _. left. unfold head. by rewrite Hh.
  - intros q e Hq. left. exists e. by rewrite <- Hc.
  - intros j Hj. left. by rewrite <- Hf.
Qed.

(** An entry of the key table changes. *)
Lemma inv_entry i e e' :
  store (shared c) !! i = Some e → shared c' = set_store (<[i := e']> (store (shared c))) (shared c) →
  cells c' = cells c → heads c' = heads c → freeing c' = freeing c →
  (used e = true → used e' = true) → (owner_txn e' ≠ 0 → used e' = true) →
  (owner_txn e = 0 ∨ owner_txn e' = owner_txn e ∨ txn_held p = Some (owner_txn e) ∧ freeing c !! owner_txn e = Some true) →
  pc_ok c' p' → inv c'.
Proof.
  intros Ht Hs Hc Hh Hf Hu Ho Hst Hok. pose proof (in_shape _ Hi) as Hsh. pose proof (lookup_lt_Some _ _ _ Ht) as Htl.
  assert (txns (shared c') = txns (shared c) ∧ wait_for (shared c') = wait_for (shared c) ∧ next_txn_id (shared c') = next_txn_id (shared c)) as (Hs1 & Hs2 & Hs3)
    by (by rewrite Hs).
  assert (store (shared c') = <[i := e']> (store (shared c))) as Hs4 by (by rewrite Hs).
  apply inv_move; [|done| | | | |done].
  - destruct Hsh. constructor; unfold txn_exists; rewrite ?Hs1, ?Hs2, ?Hs3, ?Hh, ?Hf; try done.
    + by rewrite Hs4, length_insert.
    + intros k y Hk. rewrite Hs4 in Hk. apply list_lookup_insert_Some in Hk as [(<- & <- & _)|[_ Hk]]; eauto.
    + congruence.
    + congruence.
  - constructor; unfold head; rewrite ?Hs1, ?Hs4, ?Hc, ?Hh, ?Hf; eauto 10.
    intros k y Hk. destruct (decide (i = k)) as [<-|Hne].
    + rewrite Ht in Hk. injection Hk as <-. exists e'. by rewrite list_lookup_insert_eq.
    + exists y. rewrite list_lookup_insert_ne by done. auto.
  - intros j _. left. unfold head. by rewrite Hh.
  - intros q y Hq. left. exists y. by rewrite <- Hc.
  - intros j Hj. left. by rewrite <- Hf.
Qed.

(** The writes of a transaction change. *)
Lemma inv_heap :
  shared c' = shared c → length (heads c') = length (heads c) → length (freeing c') = length (freeing c) →
  (∀ q e, cells c !! q = Some (Some e) →
    (∃ e', cells c' !! q = Some (Some e') ∧ wtxn e' = wtxn e ∧ wnext e' = wnext e ∧ key_idx e' = key_idx e) ∨
    txn_held p = Some (wtxn e) ∧ freeing c !! wtxn e = Some true) →
  (∀ t, head c' t = head c t ∨ txn_of p = Some t ∨ txn_held p = Some t ∧ freeing c !! t = Some true) →
  (∀ t, freeing c' !! t = freeing c !! t ∨ txn_held p = Some t ∧ freeing c' !! t = Some true) →
  (∀ t, not_freed c' t → head c' t = head c t ∨ ∃ l, chain (cells c') t (head c' t) l) →
  (∀ q e, cells c' !! q = Some (Some e) →
    (∃ e0, cells c !! q = Some (Some e0) ∧ key_idx e0 = key_idx e ∧ wtxn e0 = wtxn e) ∨
    (key_idx e < MAX_KEYS ∧ txn_exists c' (wtxn e) ∧ (not_freed c' (wtxn e) → mine c' (wtxn e) (key_idx e)))) →
  (∀ t, freeing c' !! t = Some true → freeing c !! t = Some true ∨ closing p' = Some t ∨ has_status c' t (λ s, s ≠ TXN_ACTIVE)) →
  pc_ok c' p' → inv c'.
Proof.
  intros Hs Hh Hf Hc1 Hh1 Hf1 Hh2 Hc2 Hf2 Hok. apply inv_move; try done; [|by rewrite Hs|].
  - destruct (in_shape _ Hi). constructor; unfold txn_exists; rewrite ?Hs; try done; congruence.
  - constructor; rewrite ?Hs; eauto 10.
Qed.

End Steps.

(** *** The steps *)

(** What a step may lead to: the only undefined behaviour is that of a
    transaction that was aborted while its thread buffers a write. *)
Definition good (c : config) (p : pc) (o : outcome) : Prop :=
  match o with
  | Runs c' => inv c'
  | Exits => True
  | Crash e => e = UseAfterFree ∧
      ∃ w i q, (p = Find w i (Some q) ∨ p = Copy w i q) ∧ has_status c (ct w) (λ s, s ≠ TXN_ACTIVE)
  end.

Lemma pc_ok_same c p p' :
  slots p' = slots p → key_held p' = key_held p → mentions p' = mentions p → pc_ok c p → knows c p' → pc_ok c p'.
Proof. intros Hs Hk Hm (H1 & H2 & H3 & _) H4. unfold pc_ok. rewrite Hs, Hk, Hm. done. Qed.

Lemma graph_same c : shared c = set_wait_for (wait_for (shared c)) (shared c).
Proof. by destruct c as [[] ? ? ? ? ? ?]. Qed.

Section Step.
Context (c : config) (me : nat) (p : pc).
Hypothesis Hi : inv c.
Hypothesis Hp : threads c !! me = Some p.

Lemma my_pc_ok : pc_ok c p.
Proof. by apply (in_pc _ Hi me). Qed.

Lemma my_txn t : t ∈ mentions p → ∃ x, txn_at t c = Some x ∧ txns (shared c) !! t = Some (Some x) ∧ 1 ≤ t < next_txn_id (shared c).
Proof.
  intros Ht. destruct my_pc_ok as (_ & _ & Hm & _). destruct (proj1 (Forall_forall _ _) Hm t Ht) as [x Hx]. exists x.
  unfold txn_at. rewrite Hx. split_and!; [done..|apply (sh_txn _ (in_shape _ Hi) t x Hx)|apply (sh_txn _ (in_shape _ Hi) t x Hx)].
Qed.

Lemma own_mentioned t : txn_of p = Some t → t ∈ mentions p.
Proof. intros Ht. unfold mentions. rewrite Ht. apply elem_of_app. right. by left. Qed.

Lemma slot_entry i : i ∈ slots p → ∃ e, store (shared c) !! i = Some e ∧ used e = true ∧ i < MAX_KEYS.
Proof.
  intros Hin. destruct my_pc_ok as (Hs & _). destruct (proj1 (Forall_forall _ _) Hs i Hin) as (e & He & Hu). exists e.
  split_and!; [done..|]. rewrite <- (sh_store _ (in_shape _ Hi)). by eapply lookup_lt_Some.
Qed.

Lemma freeing_bool t : t < MAX_TXNS → freeing c !! t = Some true ∨ not_freed c t.
Proof.
  intros Ht. destruct (lookup_lt_is_Some_2 (freeing c) t) as [[] Hf]; [by rewrite (sh_freeing _ (in_shape _ Hi))|by left|by right].
Qed.

Lemma exists_bound t : txn_exists c t → t < MAX_TXNS.
Proof. intros [x Hx]. pose proof (sh_txn _ (in_shape _ Hi) t x Hx). pose proof (sh_next _ (in_shape _ Hi)). lia. Qed.

(** Nobody but the own thread frees the writes of an active transaction. *)
Lemma own_not_freed t : txn_of p = Some t → closing p = None → has_status c t (λ s, s = TXN_ACTIVE) → not_freed c t.
Proof.
  intros Ht Hcl Ha. assert (t < MAX_TXNS) as Hlt by (apply exists_bound; destruct Ha as (x & Hx & _); by exists x).
  destruct (freeing_bool t Hlt) as [Hf|?]; [|done].
  destruct (freeing_active c t Hi Ha Hf) as (me0 & p0 & Hp0 & Hc). destruct (closing_held _ _ Hc) as [_ Hof].
  assert (me0 = me) as -> by (by eapply (ow_own _ (in_owners _ Hi) _ _ p0 p)). rewrite Hp in Hp0. injection Hp0 as <-. congruence.
Qed.

Lemma held_not_freed t : txn_held p = Some t → closing p = None → has_status c t (λ s, s = TXN_ACTIVE) → not_freed c t.
Proof.
  intros Ht Hcl Ha. assert (t < MAX_TXNS) as Hlt by (apply exists_bound; destruct Ha as (x & Hx & _); by exists x).
  destruct (freeing_bool t Hlt) as [Hf|?]; [|done].
  destruct (freeing_active c t Hi Ha Hf) as (me0 & p0 & Hp0 & Hc). destruct (closing_held _ _ Hc) as [Hh _].
    pose proof (held_unique c me0 me p0 p t Hi Hp0 Hp Hh Ht) as ->. rewrite Hp in Hp0. injection Hp0 as <-. congruence.
Qed.

Lemma crash_inactive w : txn_of p = Some (ct w) → closing p = None → ¬ not_freed c (ct w) → has_status c (ct w) (λ s, s ≠ TXN_ACTIVE).
Proof.
  intros Ht Hcl Hf. destruct (my_txn (ct w) (own_mentioned _ Ht)) as (x & _ & Hx & _). exists x. split; [done|].
  intros Hs. apply Hf, own_not_freed; [done..|]. by exists x.
Qed.

(** Steps that change the program counter, and perhaps the graph. *)
Lemma good_graph w p' :
  LockSpec.graph_ok w → (∀ u v, waits w u v = true → waits (wait_for (shared c)) u v = true ∨ txn_exists c u) →
  (∀ i, i ∈ key_held p' ↔ i ∈ key_held p) → txn_held p' = txn_held p → (txn_of p' = txn_of p ∨ txn_of p' = None) → is_start p' = false →
  (∀ t, closing p = Some t → closing p' = Some t) → pc_ok c p' → inv (goto me p' (set_graph w c)).
Proof.
  intros Hg Hw Hk Ht Ho Hs Hc Hok. apply (inv_sync c _ me p p') with (w := w); try done.
  - by apply (keys_stay c _ me p).
  - by apply (txns_stay c _ me p).
  - intros t Hcl. left. auto.
Qed.

Lemma good_goto p' :
  (∀ i, i ∈ key_held p' ↔ i ∈ key_held p) → txn_held p' = txn_held p → (txn_of p' = txn_of p ∨ txn_of p' = None) → is_start p' = false →
  (∀ t, closing p = Some t → closing p' = Some t) → pc_ok c p' → inv (goto me p' c).
Proof.
  intros Hk Ht Ho Hs Hc Hok. replace (goto me p' c) with (goto me p' (set_graph (wait_for (shared c)) c))
    by (unfold set_graph; rewrite <- graph_same; by destruct c).
  apply good_graph; try done; [apply Hi|]. intros u v ?. by left.
Qed.

(** Steps that lock or unlock the mutex of a key. *)
Lemma good_lock_key i p' o :
  lock_key i me p' c = Some o → i < MAX_KEYS → (∀ j, j ∈ key_held p' ↔ j = i ∨ j ∈ key_held p) →
  txn_held p' = txn_held p → txn_of p' = txn_of p → is_start p' = false → (∀ t, closing p = Some t → closing p' = Some t) →
  (key_mtx c !! i = Some None → pc_ok c p') → good c p o.
Proof.
  intros Hl Hlt Hk Ht Ho Hs Hc Hok. unfold lock_key in Hl. destruct (key_mtx c !! i) as [[|]|] eqn:Hm; [done| |].
  - injection Hl as <-. apply (inv_sync c _ me p p') with (w := wait_for (shared c)); try done.
    + by apply (keys_lock c _ me p p') with (i := i).
    + by apply (txns_stay c _ me p).
    + by left.
    + cbn. by rewrite length_insert.
    + intros t Hcl. left. auto.
    + exact (graph_same c).
    + apply Hi.
    + intros u v ?. by left.
    + auto.
  - apply lookup_ge_None in Hm. rewrite (sh_keys _ (in_shape _ Hi)) in Hm. lia.
Qed.

Lemma good_unlock_key i ks p' :
  key_held p = i :: ks → (∀ j, j ∈ key_held p' ↔ j ∈ ks) →
  txn_held p' = txn_held p → (txn_of p' = txn_of p ∨ txn_of p' = None) → is_start p' = false →
  (∀ t, closing p = Some t → closing p' = Some t) → pc_ok c p' → inv (goto me p' (set_key_mtx i None c)).
Proof.
  intros Hk Hk' Ht Ho Hs Hc Hok. apply (inv_sync c _ me p p') with (w := wait_for (shared c)); try done.
  - apply (keys_unlock c _ me p p' Hi Hp) with (ks := ks) (i := i); try done. rewrite <- Hk. apply my_pc_ok.
  - by apply (txns_stay c _ me p).
  - cbn. by rewrite length_insert.
  - intros t Hcl. left. auto.
  - exact (graph_same c).
  - apply Hi.
  - intros u v ?. by left.
Qed.

Lemma good_lock_txn t p' o :
  lock_txn t me p' c = Some o → t < MAX_TXNS → (∀ j, j ∈ key_held p' ↔ j ∈ key_held p) →
  txn_held p = None → txn_held p' = Some t → txn_of p' = txn_of p → is_start p' = false → closing p = None →
  pc_ok c p' → good c p o.
Proof.
  intros Hl Hlt Hk Ht Ht' Ho Hs Hc Hok. unfold lock_txn in Hl. destruct (txn_mtx c !! t) as [[|]|] eqn:Hm; [done| |].
  - injection Hl as <-. apply (inv_sync c _ me p p') with (w := wait_for (shared c)); try done.
    + by apply (keys_stay c _ me p).
    + by apply (txns_lock c _ me p p' Hi Hp) with (t := t).
    + by left.
    + cbn. by rewrite length_insert.
    + congruence.
    + exact (graph_same c).
    + apply Hi.
    + intros u v ?. by left.
  - apply lookup_ge_None in Hm. rewrite (sh_mtxs _ (in_shape _ Hi)) in Hm. lia.
Qed.

Lemma good_unlock_txn t p' :
  txn_held p = Some t → (∀ j, j ∈ key_held p' ↔ j ∈ key_held p) → txn_held p' = None →
  (txn_of p' = txn_of p ∨ txn_of p' = None) → is_start p' = false → closing p = None → pc_ok c p' →
  inv (goto me p' (set_txn_mtx t None c)).
Proof.
  intros Ht Hk Ht' Ho Hs Hc Hok. apply (inv_sync c _ me p p') with (w := wait_for (shared c)); try done.
  - by apply (keys_stay c _ me p).
  - by apply (txns_unlock c _ me p p' Hi Hp) with (t := t).
  - cbn. by rewrite length_insert.
  - congruence.
  - exact (graph_same c).
  - apply Hi.
  - intros u v ?. by left.
Qed.

End Step.

(** *** [acquire_key_lock] *)

(** A new program counter that mentions no more than the old one. *)
Lemma pc_ok_less c p p' :
  pc_ok c p → (∀ i, i ∈ slots p' → i ∈ slots p) → NoDup (key_held p') → (∀ t, t ∈ mentions p' → t ∈ mentions p) → knows c p' →
  pc_ok c p'.
Proof.
  intros (H1 & H2 & H3 & _) Hs Hk Hm Hn. split; [|split; [done|split; [|done]]].
  - apply Forall_forall. intros i Hin. apply (proj1 (Forall_forall _ _) H1). auto.
  - apply Forall_forall. intros t Ht. apply (proj1 (Forall_forall _ _) H3). auto.
Qed.

Ltac pc_less := eapply pc_ok_less; [by eapply my_pc_ok|cbn; set_solver|by repeat constructor; set_solver|cbn; set_solver|].

Lemma with_txn_Some c me p t f o :
  inv c → threads c !! me = Some p → t ∈ mentions p → with_txn t c f = Some o →
  ∃ x, txns (shared c) !! t = Some (Some x) ∧ o = f x.
Proof.
  intros Hi Hp Ht Ho. destruct (my_txn c me p Hi Hp t Ht) as (x & Hx & Hx' & _). exists x. split; [done|].
  unfold with_txn in Ho. rewrite Hx in Ho. by injection Ho as <-.
Qed.

Lemma waits_add t o w u v : waits (add_wait_edge t o w) u v = true → waits w u v = true ∨ u = t.
Proof.
  unfold add_wait_edge. destruct (_ || _); [by left|]. intros [[? _]|(_ & -> & _)]%LockSpec.waits_set_edge; auto.
Qed.

Lemma waits_removed t o w u v : waits (remove_wait_edge t o w) u v = true → waits w u v = true.
Proof. by intros [? _]%LockSpec.waits_remove. Qed.

Section Acquire.
Context (c : config) (me : nat) (p : pc) (o : outcome).
Hypothesis Hi : inv c.
Hypothesis Hp : threads c !! me = Some p.
Hypothesis Hrun : run me c p = Some o.

Lemma good_next t todo : p = Next t todo → good c p o.
Proof.
  intros ->. destruct todo as [|[k v] todo]; cbn [run] in Hrun.
  - injection Hrun as <-. apply (good_goto c me _ Hi Hp); try done; [by left|]. pc_less. done.
  - destruct (with_txn_Some c me _ t _ o Hi Hp ltac:(cbn; set_solver) Hrun) as (x & Hx & ->).
    destruct (active x); apply (good_goto c me _ Hi Hp); try done; [by left| |by right|]; pc_less; done.
Qed.

Lemma good_lock_step w i : p = LockKey w i → good c p o.
Proof.
  intros ->. destruct (slot_entry c me _ Hi Hp i) as (e & He & Hu & Hlt); [by left|].
  eapply (good_lock_key c me _ Hi Hp i); try done; [cbn; set_solver|]. intros _. pc_less. done.
Qed.

Lemma good_status w i : p = Status w i → good c p o.
Proof.
  intros ->. destruct (with_txn_Some c me _ (ct w) _ o Hi Hp ltac:(cbn; set_solver) Hrun) as (x & Hx & ->).
  destruct (active x); apply (good_goto c me _ Hi Hp); try done; [by left| |by left|]; pc_less; done.
Qed.

Lemma good_owner w i : p = Owner w i → good c p o.
Proof.
  intros ->. destruct (slot_entry c me _ Hi Hp i) as (e & He & Hu & Hlt); [by left|].
  cbn [run] in Hrun. unfold with_key in Hrun. rewrite He in Hrun. injection Hrun as <-.
  destruct (Nat.eqb_spec (owner_txn e) 0) as [H0|H0]; [|destruct (Nat.eqb_spec (owner_txn e) (ct w)) as [Ho|Ho]].
  - apply (inv_entry c _ me _ (Held w i) Hi Hp) with (i := i) (e := e) (e' := mkEntry (key e) (value e) (ct w) (used e)); try done.
    + by (eapply keys_stay; [exact Hi|exact Hp|..]).
    + by (eapply txns_stay; [exact Hi|exact Hp|..]).
    + by left.
    + by left.
    + pose proof (my_pc_ok c me _ Hi Hp) as (_ & _ & H3 & _). split; [|split; [by repeat constructor; set_solver|split]].
      * apply Forall_singleton. eexists. cbn. rewrite list_lookup_insert_eq by (by eapply lookup_lt_Some). by split.
      * exact H3.
      * intros _. eexists. cbn. rewrite list_lookup_insert_eq by (by eapply lookup_lt_Some). by split.
  - apply (good_goto c me _ Hi Hp); try done; [by left|]. pc_less. intros _. by exists e.
  - apply (good_goto c me _ Hi Hp); try done; [by left|]. by pc_less.
Qed.

Lemma good_held w i : p = Held w i → good c p o.
Proof.
  intros ->. destruct (with_txn_Some c me _ (ct w) _ o Hi Hp ltac:(cbn; set_solver) Hrun) as (x & Hx & ->).
  pose proof (my_pc_ok c me _ Hi Hp) as (H1 & _ & H3 & H4).
  apply (inv_txn c _ me _ (Leave w i true) Hi Hp) with (t := ct w) (x := x) (x' := set_held i true x); try done.
  - by (eapply keys_stay; [exact Hi|exact Hp|..]).
  - by (eapply txns_stay; [exact Hi|exact Hp|..]).
  - by left.
  - cbn. by rewrite length_insert.
  - by left.
  - assert (ct w < length (txns (shared c))) as Hlt by (by eapply lookup_lt_Some).
    split; [exact H1|split; [by repeat constructor; set_solver|split]].
    + apply Forall_singleton. eexists. cbn. by rewrite list_lookup_insert_eq.
    + intros (y & Hy & Hs). apply H4. exists x. split; [done|]. cbn in Hy. rewrite list_lookup_insert_eq in Hy by done.
      by injection Hy as <-.
Qed.

Lemma good_leave w i ok : p = Leave w i ok → good c p o.
Proof.
  intros ->. injection Hrun as <-. pose proof (my_pc_ok c me _ Hi Hp) as (H1 & _ & H3 & H4).
  destruct ok; apply (good_unlock_key c me _ Hi Hp) with (ks := []); try done; [by left| |by right|]; pc_less; done.
Qed.

Lemma good_add_edge w i ow : p = AddEdge w i ow → good c p o.
Proof.
  intros ->. injection Hrun as <-. apply (good_graph c me _ Hi Hp); try done.
  - unfold add_wait_edge. destruct (_ || _); [apply Hi|]. apply LockSpec.set_edge_ok, Hi.
  - intros u v [?| ->]%waits_add; [by left|right]. destruct (my_txn c me _ Hi Hp (ct w)) as (x & _ & Hx & _); [by left|by exists x].
  - by left.
  - by pc_less.
Qed.

Lemma good_unwait w i ow : p = Unwait w i ow → good c p o.
Proof.
  intros ->. injection Hrun as <-. apply (good_graph c me _ Hi Hp); try done.
  - apply LockSpec.unwait_graph_ok, Hi.
  - intros u v ?%waits_removed. by left.
  - by left.
  - by pc_less.
Qed.

Lemma good_self_edge w i ow : p = SelfEdge w i ow → good c p o.
Proof.
  intros ->. injection Hrun as <-. apply (good_graph c me _ Hi Hp); try done.
  - apply LockSpec.unwait_graph_ok, Hi.
  - intros u v ?%waits_removed. by left.
  - by left.
  - by pc_less.
Qed.

Lemma good_self_leave w i : p = SelfLeave w i → good c p o.
Proof. intros ->. injection Hrun as <-. apply (good_unlock_key c me _ Hi Hp) with (ks := []); try done; [by left|]. by pc_less. Qed.

(** The search in a state of the program. *)
Lemma detect_runs :
  ∃ r, detect_cycle_and_pick_victim (shared c) = Ok r ∧ ∀ v, r = Some v → txn_exists c v.
Proof.
  pose proof (in_shape _ Hi) as Hsh.
  assert (∀ u v, DetectSpec.edge (wait_for (shared c)) (next_txn_id (shared c)) u v → is_Some (ts_of (txns (shared c)) u) ∧ u ≠ 0) as Hts.
  { intros u v (_ & _ & Huv). destruct (sh_edge _ Hsh u v Huv) as [x Hx]. unfold ts_of. rewrite Hx. split; [by eexists|].
    by apply (exists_nonzero c u Hi); exists x. }
  destruct (DetectSpec.search_ok (txns (shared c)) (wait_for (shared c)) (next_txn_id (shared c))) as (r & Hr & Hf & Hv);
    [apply Hsh|done|].
  unfold detect_cycle_and_pick_victim. rewrite Hr. unfold mbind, res_bind. eexists. split; [done|]. intros v E.
  destruct (cycle_found r); [|done]. rewrite E in Hv. destruct Hv as (l & tv & _ & _ & Htv & _). unfold ts_of in Htv.
  destruct (txns (shared c) !! v) as [[x|]|] eqn:Ex; try done. by exists x.
Qed.

Lemma good_detect w i ow : p = Detect w i ow → good c p o.
Proof.
  intros ->. cbn [run] in Hrun. destruct detect_runs as (r & Hr & Hv). rewrite Hr in Hrun. destruct r as [v|].
  - destruct (v =? ct w); [injection Hrun as <-|destruct (get_txn v (shared c)); injection Hrun as <-];
      apply (good_goto c me _ Hi Hp); try done; try (by left); [by pc_less| |by pc_less].
    pose proof (my_pc_ok c me _ Hi Hp) as (H1 & H2 & H3 & _). split; [exact H1|split; [exact H2|split; [|done]]].
    cbn. constructor; [by apply Hv|exact H3].
  - injection Hrun as <-. apply (good_goto c me _ Hi Hp); try done; [by left|]. by pc_less.
Qed.

Lemma good_wait_test w i ow : p = WaitTest w i ow → good c p o.
Proof.
  intros ->. destruct (with_txn_Some c me _ (ct w) _ o Hi Hp ltac:(cbn; set_solver) Hrun) as (x & Hx & ->).
  destruct (slot_entry c me _ Hi Hp i) as (e & He & Hu & Hlt); [by left|]. rewrite He.
  destruct (_ && _); apply (good_goto c me _ Hi Hp); try done; [by left| |by left|]; by pc_less.
Qed.

Lemma good_cond_wait w i ow : p = CondWait w i ow → good c p o.
Proof. intros ->. injection Hrun as <-. apply (good_unlock_key c me _ Hi Hp) with (ks := []); try done; [by left|]. by pc_less. Qed.

Lemma good_asleep w i ow : p = Asleep w i ow → good c p o.
Proof.
  intros ->. destruct (slot_entry c me _ Hi Hp i) as (e & He & Hu & Hlt); [by left|].
  eapply (good_lock_key c me _ Hi Hp i); try done; [cbn; set_solver|]. intros _. by pc_less.
Qed.

End Acquire.

(** *** The rest of [txn_write] *)

Lemma with_cell_Some c q f o : with_cell q c f = Some o →
  (∃ e, cells c !! q = Some (Some e) ∧ o = f e) ∨ (∀ e, cells c !! q ≠ Some (Some e)) ∧ o = Crash UseAfterFree.
Proof. unfold with_cell. destruct (cells c !! q) as [[e|]|] eqn:E; intros [= <-]; [left; by exists e|by right..]. Qed.

Section Buffer.
Context (c : config) (me : nat) (p : pc) (o : outcome).
Hypothesis Hi : inv c.
Hypothesis Hp : threads c !! me = Some p.
Hypothesis Hrun : run me c p = Some o.

Lemma good_find_head w i : p = FindHead w i → good c p o.
Proof.
  intros ->. injection Hrun as <-. pose proof (my_pc_ok c me _ Hi Hp) as (_ & _ & _ & Hm).
  apply (good_goto c me _ Hi Hp); try done; [by left|]. pc_less. split; [exact Hm|]. apply (bu_chain _ (in_buffers _ Hi)).
Qed.

Lemma good_find w i q : p = Find w i q → good c p o.
Proof.
  intros ->. pose proof (my_pc_ok c me _ Hi Hp) as (_ & _ & _ & Hm & Hc). destruct q as [q|].
  - destruct (with_cell_Some c q _ o Hrun) as [(e & He & ->)|[Hno ->]].
    + assert (not_freed c (ct w) → wtxn e = ct w ∧ ∃ l, chain (cells c) (ct w) (wnext e) l) as Hchain.
      { intros Hnf. destruct (Hc Hnf) as [[|q' l] Hl]; [done|]. destruct Hl as ([= <-] & e' & He' & Ht & Hl).
        rewrite He in He'. injection He' as <-. split; [done|]. by exists l. }
      destruct (key_idx e =? i); apply (good_goto c me _ Hi Hp); try done; try (by left); pc_less; (split; [exact Hm|]); intros Hnf.
      * exists e. split; [done|]. by apply Hchain.
      * by apply Hchain.
    + split; [done|]. exists w, i, q. split; [by left|]. apply (crash_inactive c me _ Hi Hp); try done.
      intros Hnf. destruct (Hc Hnf) as [[|q' l] Hl]; [done|]. destruct Hl as ([= <-] & e' & He' & _). by apply (Hno e').
  - injection Hrun as <-. apply (good_goto c me _ Hi Hp); try done; [by left|]. pc_less. exact Hm.
Qed.

Lemma good_new w i : p = New w i → good c p o.
Proof.
  intros ->. injection Hrun as <-. pose proof (my_pc_ok c me _ Hi Hp) as (H1 & _ & H3 & Hm).
  destruct (my_txn c me _ Hi Hp (ct w) ltac:(by left)) as (x & _ & Hx & _).
  destruct (slot_entry c me _ Hi Hp i ltac:(by left)) as (e & _ & _ & Hlt).
  apply (inv_heap c _ me _ (Publish w i (length (cells c))) Hi Hp); try done.
  - by (eapply keys_stay; [exact Hi|exact Hp|..]).
  - by (eapply txns_stay; [exact Hi|exact Hp|..]).
  - by left.
  - intros q y Hq. left. exists y. cbn. split; [by apply lookup_app_l_Some|done].
  - intros t. by left.
  - intros t. by left.
  - intros t _. by left.
  - intros q y Hq. cbn in Hq. apply lookup_app_Some in Hq as [Hq|[_ Hq]]; [left; by exists y|right].
    apply list_lookup_singleton_Some in Hq as [_ [= <-]]. cbn. split; [done|]. split; [by exists x|]. intros _. exact Hm.
  - intros t Ht. by left.
  - split; [exact H1|split; [exact (NoDup_nil_2)|split; [exact H3|]]]. split; [exact Hm|]. intros _. eexists. cbn.
    rewrite lookup_app_r, Nat.sub_diag by done. done.
Qed.

Lemma good_publish w i q : p = Publish w i q → good c p o.
Proof.
  intros ->. injection Hrun as <-. pose proof (my_pc_ok c me _ Hi Hp) as (H1 & _ & H3 & Hm & Hq).
  destruct (my_txn c me _ Hi Hp (ct w) ltac:(by left)) as (x & _ & Hx & Hr).
  assert (ct w < length (heads c)) as Hlt.
  { rewrite (sh_heads _ (in_shape _ Hi)). pose proof (sh_next _ (in_shape _ Hi)). lia. }
  apply (inv_heap c _ me _ (Copy w i q) Hi Hp); try done.
  - by (eapply keys_stay; [exact Hi|exact Hp|..]).
  - by (eapply txns_stay; [exact Hi|exact Hp|..]).
  - by left.
  - cbn. by rewrite length_insert.
  - intros q' y Hq'. left. by exists y.
  - intros t. unfold head. cbn. destruct (decide (ct w = t)) as [<-|Hne]; [right; by left|left]. by rewrite list_lookup_insert_ne.
  - intros t. by left.
  - intros t Ht. destruct (decide (ct w = t)) as [<-|Hne]; [right|left; unfold head; cbn; by rewrite list_lookup_insert_ne].
    destruct (Hq Ht) as (e & He & Hte & Hn). destruct (bu_chain _ (in_buffers _ Hi) (ct w) Ht) as [l Hl].
    exists (q :: l). unfold head at 1. cbn. rewrite list_lookup_insert_eq by done. split; [done|]. exists e. by rewrite Hn.
  - intros q' y Hq'. left. by exists y.
  - intros t Ht. by left.
  - split; [exact H1|split; [exact NoDup_nil_2|split; [exact H3|]]]. split; [exact Hm|]. intros Hnf.
    destruct (Hq Hnf) as (e & He & Hte & _). by exists e.
Qed.

Lemma good_copy w i q : p = Copy w i q → good c p o.
Proof.
  intros ->. pose proof (my_pc_ok c me _ Hi Hp) as (H1 & _ & H3 & Hm & Hq). destruct (with_cell_Some c q _ o Hrun) as [(e & He & ->)|[Hno ->]].
  - assert (q < length (cells c)) as Hlt by (by eapply lookup_lt_Some).
    apply (inv_heap c _ me _ (Next (ct w) (ctodo w)) Hi Hp); try done.
    + by (eapply keys_stay; [exact Hi|exact Hp|..]).
    + by (eapply txns_stay; [exact Hi|exact Hp|..]).
    + by left.
    + intros q' y Hq'. left. cbn. destruct (decide (q = q')) as [<-|Hne].
      * rewrite He in Hq'. injection Hq' as <-. eexists. by rewrite list_lookup_insert_eq.
      * exists y. by rewrite list_lookup_insert_ne.
    + intros t. by left.
    + intros t. by left.
    + intros t _. by left.
    + intros q' y Hq'. left. cbn in Hq'. apply list_lookup_insert_Some in Hq' as [(<- & [= <-] & _)|[_ Hq']]; [by exists e|by exists y].
    + intros t Ht. by left.
    + split; [constructor|split; [exact NoDup_nil_2|split; [exact H3|done]]].
  - split; [done|]. exists w, i, q. split; [by right|]. apply (crash_inactive c me _ Hi Hp); try done.
    intros Hnf. destruct (Hq Hnf) as (e & He & _). by apply (Hno e).
Qed.

End Buffer.

(** *** [abort_txn] and [txn_commit] *)

Ltac same_keys Hi Hp := by (eapply keys_stay; [exact Hi|exact Hp|..]).
Ltac same_txns Hi Hp := by (eapply txns_stay; [exact Hi|exact Hp|..]).

Section Close.
Context (c : config) (me : nat) (p : pc) (o : outcome).
Hypothesis Hi : inv c.
Hypothesis Hp : threads c !! me = Some p.
Hypothesis Hrun : run me c p = Some o.

Lemma good_ab_lock v a : p = AbLock v a → good c p o.
Proof.
  intros ->. pose proof (my_pc_ok c me _ Hi Hp) as (H1 & H2 & H3 & _).
  eapply (good_lock_txn c me _ Hi Hp v); try done. apply (exists_bound c Hi). by apply Forall_inv in H3.
Qed.

Lemma good_ab_test v a : p = AbTest v a → good c p o.
Proof.
  intros ->. destruct (with_txn_Some c me _ v _ o Hi Hp ltac:(cbn; set_solver) Hrun) as (x & Hx & ->).
  pose proof (my_pc_ok c me _ Hi Hp) as (H1 & H2 & H3 & _). unfold active. case_bool_decide as Hs.
  - apply (good_goto c me _ Hi Hp); try done; [by left|]. split_and!; try done. assert (has_status c v (λ s, s = TXN_ACTIVE)) as Ha by (by exists x).
    split; [done|]. by apply (held_not_freed c me _ Hi Hp).
  - apply (good_goto c me _ Hi Hp); try done. by left.
Qed.

Lemma good_ab_set v a : p = AbSet v a → good c p o.
Proof.
  intros ->. destruct (with_txn_Some c me _ v _ o Hi Hp ltac:(cbn; set_solver) Hrun) as (x & Hx & ->).
  pose proof (my_pc_ok c me _ Hi Hp) as (H1 & H2 & H3 & _ & Hf). assert (v < length (txns (shared c))) as Hlt by (by eapply lookup_lt_Some).
  assert (∀ t, txn_exists c t → txn_exists (goto me (AbEdges v a) (update v (set_status TXN_ABORTED x) c)) t) as Hex.
  { intros t [y Hy]. unfold txn_exists. cbn. destruct (decide (v = t)) as [<-|Hne]; [rewrite list_lookup_insert_eq by done; by eexists|].
    rewrite list_lookup_insert_ne by done. by exists y. }
  apply (inv_txn c _ me _ (AbEdges v a) Hi Hp) with (t := v) (x := x) (x' := set_status TXN_ABORTED x); try done.
  - same_keys Hi Hp.
  - same_txns Hi Hp.
  - by left.
  - by right.
  - split; [exact H1|split; [exact H2|split; [exact (Forall_impl _ _ _ H3 Hex)|split; [|exact Hf]]]].
    eexists. cbn. by rewrite list_lookup_insert_eq.
Qed.

Lemma good_ab_edges v a : p = AbEdges v a → good c p o.
Proof.
  intros ->. injection Hrun as <-. apply (good_graph c me _ Hi Hp); try done.
  - apply LockSpec.clear_graph_ok, Hi.
  - intros u w [? _]%LockSpec.waits_clear. by left.
  - by left.
  - apply (my_pc_ok c me _ Hi Hp).
Qed.

Lemma good_co_lock t : p = CoLock t → good c p o.
Proof.
  intros ->. pose proof (my_pc_ok c me _ Hi Hp) as (H1 & H2 & H3 & _). apply Forall_inv in H3 as Hex.
  eapply (good_lock_txn c me _ Hi Hp t); try done; [by apply (exists_bound c Hi)|]. split_and!; [done..| |done].
  cbn. by repeat constructor.
Qed.

Lemma good_co_test t : p = CoTest t → good c p o.
Proof.
  intros ->. destruct (with_txn_Some c me _ t _ o Hi Hp ltac:(cbn; set_solver) Hrun) as (x & Hx & ->).
  pose proof (my_pc_ok c me _ Hi Hp) as (H1 & H2 & H3 & _). unfold active. case_bool_decide as Hs.
  - assert (has_status c t (λ s, s = TXN_ACTIVE)) as Ha by (by exists x).
    assert (not_freed c t) as Hf by (by apply (held_not_freed c me _ Hi Hp)).
    apply (good_goto c me _ Hi Hp); try done. by left.
  - apply (good_unlock_txn c me _ Hi Hp); try done. by right.
Qed.

Lemma good_co_head t : p = CoHead t → good c p o.
Proof.
  intros ->. injection Hrun as <-. pose proof (my_pc_ok c me _ Hi Hp) as (H1 & H2 & H3 & Ha & Hf).
  apply (good_goto c me _ Hi Hp); try done; [by left|]. split_and!; try done. split; [done|]. split; [done|].
  apply (bu_chain _ (in_buffers _ Hi) t Hf).
Qed.

Lemma good_co_store t q : p = CoStore t q → good c p o.
Proof.
  intros ->. pose proof (my_pc_ok c me _ Hi Hp) as (H1 & H2 & H3 & Ha & Hf & l & Hl). destruct q as [q|].
  - destruct l as [|q' l]; [done|]. destruct Hl as ([= <-] & w & Hw & Ht & Hl).
    destruct (with_cell_Some c q _ o Hrun) as [(w' & Hw' & ->)|[Hno _]]; [|by destruct (Hno w)].
    rewrite Hw in Hw'. injection Hw' as <-. destruct (bu_cell _ (in_buffers _ Hi) q w Hw) as (Hk & _).
    destruct (lookup_lt_is_Some_2 (store (shared c)) (key_idx w)) as [e He]; [by rewrite (sh_store _ (in_shape _ Hi))|]. rewrite He.
    apply (inv_entry c _ me _ (CoStore t (wnext w)) Hi Hp) with (i := key_idx w) (e := e)
      (e' := mkEntry (key e) (clip MAX_VALUE_LEN (wvalue w)) (owner_txn e) (used e)); try done.
    + same_keys Hi Hp.
    + same_txns Hi Hp.
    + by left.
    + apply (sh_owner _ (in_shape _ Hi) _ _ He).
    + right. by left.
    + split; [constructor|split; [exact H2|split; [exact H3|]]]. split; [exact Ha|]. split; [exact Hf|]. by exists l.
  - injection Hrun as <-. apply (good_goto c me _ Hi Hp); try done; by left.
Qed.

Lemma good_free_head v r : p = FreeHead v r → good c p o.
Proof.
  intros ->. injection Hrun as <-. pose proof (my_pc_ok c me _ Hi Hp) as (H1 & H2 & H3 & Ha & Hf).
  assert (v < length (freeing c)) as Hlt by (by eapply lookup_lt_Some).
  apply (inv_heap c _ me _ (Free v r (head c v)) Hi Hp); try done.
  - same_keys Hi Hp.
  - same_txns Hi Hp.
  - by left.
  - cbn. by rewrite length_insert.
  - intros q y Hq. left. by exists y.
  - intros t. by left.
  - intros t. cbn. destruct (decide (v = t)) as [<-|Hne]; [right; by rewrite list_lookup_insert_eq|left; by rewrite list_lookup_insert_ne].
  - intros t _. by left.
  - intros q y Hq. left. by exists y.
  - intros t Ht. cbn in Ht. destruct (decide (v = t)) as [<-|Hne]; [right|left; by rewrite list_lookup_insert_ne in Ht].
    destruct r as [a|]; [by right|by left].
  - split_and!; try done. split; [done|]. split; [cbn; by rewrite list_lookup_insert_eq|]. apply (bu_chain _ (in_buffers _ Hi) v Hf).
Qed.

Lemma good_free v r q : p = Free v r q → good c p o.
Proof.
  intros ->. pose proof (my_pc_ok c me _ Hi Hp) as (H1 & H2 & H3 & Ha & Hf & l & Hl). destruct q as [q|].
  - destruct l as [|q' l]; [done|]. assert (q' = q) as -> by (destruct Hl as ([= <-] & _); done).
    pose proof Hl as (_ & e & He & Ht & _).
    destruct (with_cell_Some c q _ o Hrun) as [(e' & He' & ->)|[Hno _]]; [|by destruct (Hno e)]. rewrite He in He'. injection He' as <-.
    apply (inv_heap c _ me _ (Free v r (wnext e)) Hi Hp); try done.
    + same_keys Hi Hp.
    + same_txns Hi Hp.
    + by left.
    + intros t Hc. by left.
    + intros q' y Hq'. cbn. destruct (decide (q = q')) as [<-|Hne].
      * right. rewrite He in Hq'. injection Hq' as <-. by rewrite Ht.
      * left. exists y. by rewrite list_lookup_insert_ne.
    + intros t. by left.
    + intros t. by left.
    + intros t _. by left.
    + intros q' y Hq'. cbn in Hq'. apply list_lookup_insert_Some in Hq' as [(_ & ? & _)|[_ Hq']]; [done|left; by exists y].
    + intros t Hc. by left.
    + split_and!; try done. split; [done|]. split; [done|]. exists l. by apply chain_free.
  - injection Hrun as <-. apply (good_goto c me _ Hi Hp); try done; (by left) || by split_and!.
Qed.

Lemma good_free_null v r : p = FreeNull v r → good c p o.
Proof.
  intros ->. injection Hrun as <-. pose proof (my_pc_ok c me _ Hi Hp) as (H1 & H2 & H3 & Ha & Hf).
  assert (∀ t, t ≠ v → head (goto me (Rel v 0 r) (set_head v None c)) t = head c t) as Hh.
  { intros t Hne. unfold head. cbn. by rewrite list_lookup_insert_ne. }
  apply (inv_heap c _ me _ (Rel v 0 r) Hi Hp); try done.
  - same_keys Hi Hp.
  - same_txns Hi Hp.
  - by left.
  - intros t Hc. by left.
  - cbn. by rewrite length_insert.
  - intros q y Hq. left. by exists y.
  - intros t. destruct (decide (t = v)) as [->|Hne]; [right; by right|left; by apply Hh].
  - intros t. by left.
  - intros t Ht. left. apply Hh. intros ->. unfold not_freed in Ht. cbn in Ht. congruence.
  - intros q y Hq. left. by exists y.
  - intros t Ht. by left.
Qed.

Lemma good_rel v i r : p = Rel v i r → good c p o.
Proof.
  intros ->. cbn [run] in Hrun. pose proof (my_pc_ok c me _ Hi Hp) as (H1 & H2 & H3 & Ha & Hf).
  destruct (Nat.leb_spec MAX_KEYS i) as [Hge|Hlt].
  - injection Hrun as <-. destruct r as [a|]; apply (good_goto c me _ Hi Hp); try done; (by left) || by split_and!.
  - destruct (with_txn_Some c me _ v _ o Hi Hp ltac:(cbn; set_solver) Hrun) as (x & Hx & ->).
    destruct (sh_txn _ (in_shape _ Hi) v x Hx) as [_ Hl].
    destruct (lookup_lt_is_Some_2 (held_keys x) i) as [b Hb]; [by rewrite Hl|]. rewrite Hb.
    destruct b; apply (good_goto c me _ Hi Hp); try done; (by left) || by split_and!.
Qed.

Lemma good_rel_lock v i r : p = RelLock v i r → good c p o.
Proof.
  intros ->. pose proof (my_pc_ok c me _ Hi Hp) as (H1 & H2 & H3 & Ha & Hf & Hlt).
  eapply (good_lock_key c me _ Hi Hp i); try done; [cbn; set_solver|]. intros Hfree. split_and!; try done.
  cbn. constructor; [|exact H2]. intros Hin.
  assert (key_mtx c !! i = Some (Some me)) by (apply (ow_key _ (in_owners _ Hi)); by eexists). congruence.
Qed.

Lemma good_rel_owner v i r : p = RelOwner v i r → good c p o.
Proof.
  intros ->. pose proof (my_pc_ok c me _ Hi Hp) as (H1 & H2 & H3 & Ha & Hf & Hlt).
  destruct (lookup_lt_is_Some_2 (store (shared c)) i) as [e He]; [by rewrite (sh_store _ (in_shape _ Hi))|].
  cbn [run] in Hrun. unfold with_key in Hrun. rewrite He in Hrun. injection Hrun as <-.
  destruct (Nat.eqb_spec (owner_txn e) v) as [Ho|Ho].
  - apply (inv_entry c _ me _ (RelUnlock v i r) Hi Hp) with (i := i) (e := e) (e' := mkEntry (key e) (value e) 0 (used e)); try done.
    + same_keys Hi Hp.
    + same_txns Hi Hp.
    + by left.
    + intros t Hc. by left.
    + right. right. by rewrite Ho.
    + split_and!; try done. apply Forall_forall. intros j Hj. destruct (proj1 (Forall_forall _ _) H1 j Hj) as (y & Hy & Hu).
      unfold used_slot. cbn. destruct (decide (i = j)) as [<-|Hne].
      * rewrite He in Hy. injection Hy as <-. eexists. rewrite list_lookup_insert_eq by (by eapply lookup_lt_Some). by split.
      * exists y. by rewrite list_lookup_insert_ne.
  - apply (good_goto c me _ Hi Hp); try done; (by left) || by split_and!.
Qed.

Lemma good_rel_unlock v i r : p = RelUnlock v i r → good c p o.
Proof.
  intros ->. injection Hrun as <-. pose proof (my_pc_ok c me _ Hi Hp) as (H1 & H2 & H3 & Hk).
  apply (good_unlock_key c me _ Hi Hp) with (ks := closer_keys r); try done; [by left|]. split_and!; try done.
  by apply NoDup_cons in H2 as [_ ?].
Qed.

Lemma good_rel_held v i r : p = RelHeld v i r → good c p o.
Proof.
  intros ->. destruct (with_txn_Some c me _ v _ o Hi Hp ltac:(cbn; set_solver) Hrun) as (x & Hx & ->).
  pose proof (my_pc_ok c me _ Hi Hp) as (H1 & H2 & H3 & (y & Hy & Hs) & Hf & Hlt).
  rewrite Hx in Hy. injection Hy as <-. assert (v < length (txns (shared c))) as Htl by (by eapply lookup_lt_Some).
  assert (∀ t, txn_exists c t → txn_exists (goto me (Rel v (S i) r) (update v (set_held i false x) c)) t) as Hex.
  { intros t [y Hy]. unfold txn_exists. cbn. destruct (decide (v = t)) as [<-|Hne]; [rewrite list_lookup_insert_eq by done; by eexists|].
    rewrite list_lookup_insert_ne by done. by exists y. }
  apply (inv_txn c _ me _ (Rel v (S i) r) Hi Hp) with (t := v) (x := x) (x' := set_held i false x); try done.
  - same_keys Hi Hp.
  - same_txns Hi Hp.
  - by left.
  - intros t Hc. by left.
  - cbn. by rewrite length_insert.
  - by left.
  - split; [exact H1|split; [exact H2|split; [exact (Forall_impl _ _ _ H3 Hex)|split; [|exact Hf]]]].
    eexists. cbn. by rewrite list_lookup_insert_eq.
Qed.

Lemma good_co_status t : p = CoStatus t → good c p o.
Proof.
  intros ->. destruct (with_txn_Some c me _ t _ o Hi Hp ltac:(cbn; set_solver) Hrun) as (x & Hx & ->).
  pose proof (my_pc_ok c me _ Hi Hp) as (H1 & H2 & H3 & Hf). assert (t < length (txns (shared c))) as Htl by (by eapply lookup_lt_Some).
  assert (txns (shared (goto me (Finish t Committing) (update t (set_status TXN_COMMITTED x) c))) !! t = Some (Some (set_status TXN_COMMITTED x))) as Ht
    by (cbn; by rewrite list_lookup_insert_eq).
  apply (inv_txn c _ me _ (Finish t Committing) Hi Hp) with (t := t) (x := x) (x' := set_status TXN_COMMITTED x); try done.
  - same_keys Hi Hp.
  - same_txns Hi Hp.
  - by left.
  - intros u [= <-]. right. by eexists.
  - by right.
  - split; [exact H1|split; [exact H2|split; [|done]]]. cbn. repeat constructor; by eexists.
Qed.

Lemma good_finish v r : p = Finish v r → good c p o.
Proof.
  intros ->. injection Hrun as <-. pose proof (my_pc_ok c me _ Hi Hp) as (H1 & H2 & H3 & _).
  destruct r as [[w i ow|]|]; cbn [after_close]; apply (good_unlock_txn c me _ Hi Hp); try done; try (by left); try (by right).
  split; [exact H1|split; [exact H2|split; [|done]]]. by apply Forall_inv_tail in H3.
Qed.

End Close.

(** *** [create_txn] and [get_or_create_key] *)

Section Create.
Context (c : config) (me : nat) (p : pc) (o : outcome).
Hypothesis Hi : inv c.
Hypothesis Hp : threads c !! me = Some p.
Hypothesis Hrun : run me c p = Some o.

Lemma good_start todo : p = Start todo → good c p o.
Proof.
  intros ->. cbn [run] in Hrun. pose proof (in_shape _ Hi) as Hsh. remember (next_txn_id (shared c)) as n eqn:En.
  assert (n < MAX_TXNS) as Hn.
  { pose proof (filter_start_insert (threads c) me _ Returned Hp eq_refl). pose proof (ow_room _ (in_owners _ Hi)). cbn in *. lia. }
  unfold create_txn in Hrun. rewrite (bind_step _ _ _ _ _ eq_refl) in Hrun. rewrite <- En in Hrun.
  destruct (Nat.leb_spec MAX_TXNS n); [lia|]. cbn -[replicate MAX_KEYS] in Hrun. injection Hrun as <-.
  set (x := mkTxn n (global_ts (shared c)) TXN_ACTIVE [] (replicate MAX_KEYS false)).
  assert (∀ j y, txns (shared c) !! j = Some (Some y) → (<[n := Some x]> (txns (shared c))) !! j = Some (Some y)) as Hold.
  { intros j y Hj. rewrite list_lookup_insert_ne; [done|]. intros <-. pose proof (sh_txn _ Hsh _ _ Hj). lia. }
  set (c' := goto _ _ _). assert (txns (shared c') !! n = Some (Some x)) as Hnew.
  { apply list_lookup_insert_eq. by rewrite (sh_txns _ Hsh). }
  assert (evolves (Start todo) c c') as He.
  { constructor; eauto 10. }
  constructor.
  - destruct Hsh. constructor; try done.
    + cbn. by rewrite length_insert.
    + cbn. lia.
    + intros t y Hy. cbn in Hy |- *. apply list_lookup_insert_Some in Hy as [(<- & [= <-] & _)|[_ Hy]].
      * split; [lia|]. reflexivity.
      * destruct (sh_txn0 t y Hy). split; [lia|done].
    + intros u v Huv. destruct (sh_edge0 u v Huv) as [y Hy]. exists y. by apply Hold.
  - apply (owners_move c c' me (Start todo) (Next n todo) Hi Hp eq_refl); try done.
    + by (eapply keys_stay; [exact Hi|exact Hp|..]).
    + by (eapply txns_stay; [exact Hi|exact Hp|..]).
    + right. right. exists n. split; [done|]. intros [y Hy]. pose proof (sh_txn _ Hsh _ _ Hy). lia.
    + cbn. lia.
  - apply (buffers_move c c' me (Start todo) (Next n todo) Hi Hp eq_refl He); try done.
    + intros t _. by left.
    + intros q e Hq. left. by exists e.
    + intros t Ht. by left.
  - apply (pcs_move c c' me (Start todo) (Next n todo) Hi Hp eq_refl He). split_and!; try done; try constructor; try constructor.
    by exists x.
Qed.

(** What the search for a slot does. *)
Lemma probe_runs k n idx s :
  length (store s) = MAX_KEYS → idx < MAX_KEYS →
  ∃ r s' out, probe k idx n s = Ok (r, s', out) ∧
    (s' = s ∨ ∃ i e, store s !! i = Some e ∧ used e = false ∧
      s' = set_store (<[i := mkEntry (clip MAX_KEY_LEN k) "" 0 true]> (store s)) s) ∧
    ∀ i, r = Some i → ∃ e, store s' !! i = Some e ∧ used e = true.
Proof.
  intros Hl. revert idx. induction n as [|n IH]; intros idx Hidx; cbn [probe].
  { exists None, s. eexists. split; [done|]. by split; [left|]. }
  destruct (lookup_lt_is_Some_2 (store s) idx) as [e He]; [by rewrite Hl|].
  rewrite (bind_step _ _ _ _ _ eq_refl), (bind_step _ _ _ _ _ (lift_Ok _ _ _ (aget_lookup _ _ _ He))).
  destruct (used e) eqn:Hu; cbn [negb].
  - destruct (same_prefix _ _ _).
    + exists (Some idx), s, []. split; [done|]. split; [by left|]. intros i [= <-]. by exists e.
    + apply IH. by apply Nat.mod_upper_bound.
  - eexists (Some idx), _, []. split; [done|]. split; [right; by exists idx, e|]. intros i [= <-]. cbn.
    rewrite list_lookup_insert_eq by (by rewrite Hl). by eexists.
Qed.

Lemma good_get_key w : p = GetKey w → good c p o.
Proof.
  intros ->. cbn [run] in Hrun. pose proof (in_shape _ Hi) as Hsh. pose proof (my_pc_ok c me _ Hi Hp) as (_ & _ & H3 & _).
  destruct (probe_runs (ck w) MAX_KEYS (hash_key (ck w)) (shared c) (sh_store _ Hsh) (LockSpec.hash_key_lt _)) as (r & s' & out & Hr & Hs & Hu).
  unfold get_or_create_key in Hrun. rewrite Hr in Hrun. destruct r as [i|]; injection Hrun as <-; [|done].
  specialize (Hu i eq_refl). destruct Hs as [->|(j & e & He & Hue & ->)].
  - replace (set_shared (shared c) c) with c by (by destruct c). apply (good_goto c me _ Hi Hp); try done; [by left|].
    split; [by apply Forall_singleton|split; [constructor|split; [exact H3|done]]].
  - assert (owner_txn e = 0) as H0.
    { destruct (decide (owner_txn e = 0)) as [?|Hne]; [done|]. pose proof (sh_owner _ Hsh _ _ He Hne). congruence. }
    apply (inv_entry c _ me _ (LockKey w i) Hi Hp) with (i := j) (e := e) (e' := mkEntry (clip MAX_KEY_LEN (ck w)) "" 0 true); try done.
    + by (eapply keys_stay; [exact Hi|exact Hp|..]).
    + by (eapply txns_stay; [exact Hi|exact Hp|..]).
    + by left.
    + by left.
    + split; [by apply Forall_singleton|split; [constructor|split; [exact H3|done]]].
Qed.

End Create.

(** Every step of every thread. *)
Lemma good_step c me p o : inv c → threads c !! me = Some p → run me c p = Some o → good c p o.
Proof.
  intros Hi Hp Hrun. destruct p eqn:E; first
    [ discriminate Hrun | by eapply good_start | by eapply good_next | by eapply good_get_key | by eapply good_lock_step | by eapply good_status
    | by eapply good_owner | by eapply good_held | by eapply good_leave | by eapply good_add_edge | by eapply good_detect
    | by eapply good_self_edge | by eapply good_self_leave | by eapply good_unwait | by eapply good_wait_test | by eapply good_cond_wait
    | by eapply good_asleep | by eapply good_find_head | by eapply good_find | by eapply good_new | by eapply good_publish
    | by eapply good_copy | by eapply good_ab_lock | by eapply good_ab_test | by eapply good_ab_set | by eapply good_ab_edges
    | by eapply good_co_lock | by eapply good_co_test | by eapply good_co_head | by eapply good_co_store | by eapply good_free_head
    | by eapply good_free | by eapply good_free_null | by eapply good_rel | by eapply good_rel_lock | by eapply good_rel_owner
    | by eapply good_rel_unlock | by eapply good_rel_held | by eapply good_co_status | by eapply good_finish ].
Qed.

Lemma races_inv_start progs : length progs < MAX_TXNS → inv (start progs).
Proof.
  intros Hlen. pose proof LockSpec.init_inv as Hinit.
  assert (∀ me p, threads (start progs) !! me = Some p → ∃ todo, p = Start todo) as Hst.
  { intros me p Hme. apply list_lookup_fmap_Some in Hme as (todo & -> & _). by exists todo. }
  assert (∀ t x, txns init !! t ≠ Some (Some x)) as Hno by (intros t x Hx; by apply lookup_replicate in Hx as [? _]).
  constructor.
  - constructor; unfold start; cbn [shared heads key_mtx txn_mtx freeing]; rewrite ?length_replicate; try done.
    + apply (LockSpec.si_graph _ _ Hinit).
    + cbn. unfold MAX_TXNS. lia.
    + intros t x Hx. by apply Hno in Hx.
    + intros u v Huv. destruct (LockSpec.si_edge _ _ Hinit u v Huv) as (_ & _ & x & Hx & _). by exists x.
    + intros k e He Ho. by destruct (LockSpec.si_owner _ _ Hinit k e He Ho).
  - constructor.
    + intros i me. split; [intros H; by apply lookup_replicate in H as [? _]|]. intros (p & [todo ->]%Hst & Hin). by apply elem_of_nil in Hin.
    + intros t me. split; [intros H; by apply lookup_replicate in H as [? _]|]. by intros (p & [todo ->]%Hst & ?).
    + by intros me1 me2 p1 p2 t [todo ->]%Hst _ ?.
    + etransitivity; [apply Nat.add_le_mono_r, length_filter|]. unfold start. cbn [threads shared init next_txn_id]. rewrite length_fmap. lia.
  - constructor.
    + intros t _. exists []. unfold head, start. cbn [heads chain]. destruct (replicate MAX_TXNS None !! t) as [h|] eqn:E; [|done].
      by apply lookup_replicate in E as [-> _].
    + intros q e Hq. done.
    + intros t Ht. by apply lookup_replicate in Ht as [? _].
  - intros me p [todo ->]%Hst. split_and!; try done; constructor.
Qed.

Lemma races_inv_reachable progs c : length progs < MAX_TXNS → reachable (start progs) c → inv c.
Proof.
  intros Hlen Hr. remember (start progs) as c0 eqn:E. assert (inv c0) as H0 by (subst; by apply races_inv_start). clear E.
  induction Hr as [c|c1 c2 c3 [me Hst] _ IH]; [done|]. apply IH. unfold step in Hst. destruct (threads c1 !! me) as [p|] eqn:Hp; [|done].
  apply (good_step c1 me p _ H0 Hp Hst).
Qed.

(** *** A deadlock *)

Lemma run_threads me c p c' : run me c p = Some (Runs c') → ∃ p', threads c' = <[me := p']> (threads c).
Proof.
  unfold run, with_txn, with_key, with_cell, lock_key, lock_txn. intros Hr.
  repeat case_match; simplify_eq/=; by eexists.
Qed.

(** Thread [a] has the mutex of transaction [v] and waits for that of key [k];
    thread [b] has the mutex of [k] and waits for that of [v]. *)
Definition crossed (c : config) (a b v k : nat) : Prop :=
  ∃ r x, threads c !! a = Some (RelLock v k r) ∧ threads c !! b = Some (AbLock v x) ∧ k ∈ caller_keys x.

Lemma crossed_stuck c a b v k : inv c → crossed c a b v k → step a c = None ∧ step b c = None.
Proof.
  intros Hi (r & x & Ha & Hb & Hk).
  assert (key_mtx c !! k = Some (Some b)) as Hm by (apply (ow_key _ (in_owners _ Hi)); by exists (AbLock v x)).
  assert (txn_mtx c !! v = Some (Some a)) as Ht by (apply (ow_txn _ (in_owners _ Hi)); by exists (RelLock v k r)).
  unfold step. rewrite Ha, Hb. cbn [run]. unfold lock_key, lock_txn. by rewrite Hm, Ht.
Qed.

Lemma races_inv_step c c' : inv c → any_step c c' → inv c'.
Proof.
  intros Hi [me Hst]. unfold step in Hst. destruct (threads c !! me) as [p|] eqn:Hp; [|done]. apply (good_step c me p _ Hi Hp Hst).
Qed.

(** It stays so whatever the other threads do. *)
Lemma crossed_forever c c' a b v k : inv c → crossed c a b v k → reachable c c' → inv c' ∧ crossed c' a b v k.
Proof.
  intros Hi Hc Hr. induction Hr as [c|c1 c2 c3 Hst _ IH]; [done|]. apply IH; [by eapply races_inv_step|].
  destruct Hst as [me Hst]. destruct (crossed_stuck c1 a b v k Hi Hc) as [Ha Hb]. destruct Hc as (r & x & Hta & Htb & Hk).
  assert (me ≠ a) as Hna by congruence. assert (me ≠ b) as Hnb by congruence. exists r, x.
  unfold step in Hst. destruct (threads c1 !! me) as [p|] eqn:Hp; [|done].
  destruct (run_threads me c1 p c2 Hst) as [p' ->]. by rewrite !list_lookup_insert_ne.
Qed.

End RacesSpec.

(** ** Theorems *)
Section Theorems.
Import LockTxn Races RacesSpec.




(** Three transactions in a cycle: the first writes A and B, the second B and C,
    the third C and A. *)
Definition ring : list (list (string * string)) :=
  [[("A", "1"); ("B", "1")]; [("B", "2"); ("C", "2")]; [("C", "3"); ("A", "3")]].

(** Each writes its first key; the third waits for A; the first and the second
    add their edges before either searches, so that both find the cycle and choose
    the third transaction; the first goes on as far as it can. *)
Definition ring_run : list nat :=
  replicate 15 0 ++ replicate 15 1 ++ replicate 15 2 ++ replicate 7 2 ++ replicate 4 0 ++ replicate 4 1 ++ [0; 1] ++ replicate 113 0.

Lemma ring_crossed : crossed (schedule ring_run (start ring)) 0 1 3 (hash_key "C").
Proof. vm_compute. do 2 eexists. split; [reflexivity|]. split; [reflexivity|]. by left. Qed.

(** The detector itself can deadlock: of three transactions that wait for each
    other two find the cycle and both abort the third.  The first has the mutex of
    the victim and waits for that of a key the victim owns; the second has the
    mutex of this key, since it called [acquire_key_lock] for it, and waits for
    that of the victim.  Neither waits for a mutex of its own, and neither moves
    again, whatever the other threads do. *)
Theorem lock_order_deadlock :
  ∃ c a b, reachable (start ring) c ∧ a ≠ b ∧
    key_mtx c !! hash_key "C" = Some (Some b) ∧ txn_mtx c !! 3 = Some (Some a) ∧
    (∃ p, threads c !! a = Some p ∧ p ≠ Returned) ∧ (∃ p, threads c !! b = Some p ∧ p ≠ Returned) ∧
    ∀ c', reachable c c' → step a c' = None ∧ step b c' = None.
Proof.
  assert (length ring < MAX_TXNS) as Hlen by (unfold MAX_TXNS; simpl; lia).
  pose proof (schedule_reachable ring_run (start ring)) as Hr. pose proof (races_inv_reachable ring _ Hlen Hr) as Hi.
  pose proof ring_crossed as Hc. exists (schedule ring_run (start ring)), 0, 1.
  generalize dependent (schedule ring_run (start ring)). intros c Hr Hi Hc.
  pose proof Hc as (r & x & Ha & Hb & Hk). split; [done|]. split; [done|]. split; [|split; [|split; [|split]]].
  - apply (ow_key _ (in_owners _ Hi)). by exists (AbLock 3 x).
  - apply (ow_txn _ (in_owners _ Hi)). by exists (RelLock 3 (hash_key "C") r).
  - by eexists.
  - by eexists.
  - intros c' Hr'. destruct (crossed_forever c c' 0 1 3 _ Hi Hc Hr') as [Hi' Hc']. by eapply crossed_stuck.
Qed.

(** Eight transactions.  The sixth is aborted as the victim of one cycle while its
    own thread is still in [acquire_key_lock] and adds an edge for it, so that two
    later searches find a cycle through the aborted transaction and choose the
    seventh, which waits for W and is given it meanwhile. *)
Definition eight : list (list (string * string)) :=
  map (λ k, (k, "1")) <$>
  [["X"; "Z"]; ["Z"; "V"; "U"]; ["A"; "B"]; ["B"; "P"]; ["P"; "A"]; ["V"; "W"; "X"]; ["U"; "W"]; ["W"]].

(** Which thread moves, and how many steps. *)
Definition eight_moves : list (nat * nat) :=
  [(0, 1); (1, 1); (2, 1); (3, 1); (4, 1); (5, 1); (6, 1); (7, 1);
   (0, 12); (1, 12); (2, 12); (3, 12); (4, 12); (5, 25); (6, 12);
   (1, 9); (4, 9); (3, 9); (2, 6); (5, 148); (0, 7); (5, 4); (0, 133); (5, 1); (6, 9); (0, 15);
   (7, 12); (1, 13); (1, 9); (0, 4); (7, 145); (6, 8); (0, 5); (0, 1)].

Definition eight_run : list nat := flat_map (λ '(me, n), replicate n me) eight_moves.

(** The race of [txn_write] with the detector is real: a run in which the first
    thread has freed the writes of the seventh transaction, whose own thread is in
    [find_local_write], where its next step reads a freed node. *)
Theorem write_race_reachable :
  ∃ c w i q, reachable (start eight) c ∧ threads c !! 6 = Some (Find w i (Some q)) ∧
    cells c !! q = Some None ∧ step 6 c = Some (Crash UseAfterFree).
Proof.
  exists (schedule eight_run (start eight)), (mkcall 7 "W" "1" []), (hash_key "W"), 7.
  split; [apply schedule_reachable|]. vm_compute. auto.
Qed.

End Theorems.
