(* ===== verification/ArrayPrograms.v ===== *)
(** * Array programs: [EXTRA_TASK/24-11-2025] and [EXTRA_TASK/26-11-2025]

    Sorting, the second largest number, common elements, majority elements, the
    repeated and the missing number, brackets, and reversal with a stack.  Each
    program is a module over arrays as lists; a [for] loop over an index is
    [loop].  [ArraySpec] and [BracketSpec] say what the results mean. *)
From stdpp Require Import base list strings pretty sorting.
From Stdlib Require Import ZArith Lia.
From Stdlib Require Ascii String.
From S2P Require Import Prelude.
Local Open Scope Z_scope.

(** [for (int i = from; ...; i++)], [n] times. *)
Fixpoint loop {A} (body : Z → A → res A) (n : nat) (from : Z) (a : A) : res A :=
  match n with
  | O => Ok a
  | S n => a ← body from a; loop body n (from + 1) a
  end.

(** [for (int i = from; i < to; i++)]. *)
Definition for_to {A} (from to : Z) (body : Z → A → res A) (a : A) : res A := loop body (Z.to_nat (to - from)) from a.

Definition len {A} (l : list A) : Z := Z.of_nat (length l).

(** The exchange of two elements. *)
Definition swap {A} (arr : list A) (i j : Z) : res (list A) :=
  temp ← aget arr i;
  y ← aget arr j;
  arr ← aset arr i y;
  aset arr j temp.

(** [printf("%d\t", arr[i])] for every element. *)
Definition tab : string := String (Ascii.ascii_of_nat 9) EmptyString.
Definition print_array (arr : list Z) : C unit unit := for_each (λ x, printf (d x +:+ tab)) arr.

(** ** [selection_sort.c] *)
Module SelectionSort.

Definition min_from (arr : list Z) (i : Z) : res Z :=
  for_to (i + 1) (len arr) (λ j min_pos,
    x ← aget arr j;
    y ← aget arr min_pos;
    Ok (if x <? y then j else min_pos)) i.

Definition sort (arr : list Z) : res (list Z) :=
  for_to 0 (len arr - 1) (λ i arr, min_pos ← min_from arr i; swap arr i min_pos) arr.

Definition main : C unit unit := arr ← lift (sort [10; 4; 80; 5; 48]); print_array arr.

End SelectionSort.

(** ** [bubble_sort.c] *)
Module BubbleSort.

Definition sort (arr : list Z) : res (list Z) :=
  let n := len arr in
  for_to 0 (n - 1) (λ i, for_to i (n - i - 1) (λ j arr,
    x ← aget arr j;
    y ← aget arr (j + 1);
    if x >? y then swap arr j (j + 1) else Ok arr)) arr.

Definition main : C unit unit := arr ← lift (sort [10; 4; 80; 5; 48]); print_array arr.

End BubbleSort.

(** ** [second_largest_number.c] *)
Module SecondLargest.

Definition INT_MIN : Z := -2147483648.

Definition step (x : Z) (p : Z * Z) : Z * Z :=
  let '(max, secondMax) := p in
  if x >? max then (x, max)
  else if (x >? secondMax) && negb (x =? max) then (max, x)
  else (max, secondMax).

Definition secondLargestNum (arr : list Z) : C unit unit :=
  '(max, secondMax) ← lift (for_to 0 (len arr) (λ i p, x ← aget arr i; Ok (step x p)) (INT_MIN, INT_MIN));
  printf ("Max= " +:+ d max +:+ nl +:+ "second Max= " +:+ d secondMax).

Definition main : C unit unit := secondLargestNum [20; 55; 3; 21; 18; 6].

End SecondLargest.

(** ** [common_elem_hashing.c] *)
Module CommonElements.

Definition count_all (a : list Z) : res (list Z) :=
  for_to 0 (len a) (λ i freq, x ← aget a i; f ← aget freq x; aset freq x (f + 1)) (replicate 1000 0).

Definition common (a b : list Z) : C unit unit :=
  freq ← lift (count_all a);
  printf "Common element:" ;;
  out ← lift (for_to 0 (len b) (λ i s,
    let '(freq, out) := s in
    x ← aget b i;
    f ← aget freq x;
    if f >? 0 then freq ← aset freq x (f - 1); Ok (freq, out ++ [x]) else Ok (freq, out)) (freq, []));
  print_array (snd out).

Definition main : C unit unit := common [1; 2; 2; 3; 4; 5] [2; 2; 3; 6].

End CommonElements.

(** ** [Majority_Elements] *)
Module Majority.

(** majority_elem_brute_force.c: the result when the loop returns early. *)
Definition frequency (arr : list Z) (i : Z) : res Z :=
  for_to 0 (len arr) (λ j freq, x ← aget arr i; y ← aget arr j; Ok (if x =? y then freq + 1 else freq)) 0.

Fixpoint majority_loop (arr : list Z) (n : nat) (i : Z) : res Z :=
  match n with
  | O => Ok (-1)
  | S n =>
      freq ← frequency arr i;
      if freq >? len arr / 2 then aget arr i else majority_loop arr n (i + 1)
  end.

Definition findMajority (arr : list Z) : res Z := majority_loop arr (length arr) 0.

(** majority_elem_moore_vot.c *)
Definition vote (x : Z) (p : Z * Z) : Z * Z :=
  let '(freq, ans) := p in
  let ans := if freq =? 0 then x else ans in
  (if ans =? x then freq + 1 else freq - 1, ans).

Definition mojorityElem (arr : list Z) : res Z :=
  '(_, ans) ← for_to 0 (len arr) (λ i p, x ← aget arr i; Ok (vote x p)) (0, 0);
  count ← for_to 0 (len arr) (λ i count, x ← aget arr i; Ok (if ans =? x then count + 1 else count)) 0;
  Ok (if count >? len arr / 2 then ans else -1).

Definition report (result : Z) : C unit unit :=
  printf (if negb (result =? -1) then "majority element=" +:+ d result else "majority element not found").

Definition main_brute_force : C unit unit := result ← lift (findMajority [2; 2; 1; 1; 3; 3; 2]); report result.
Definition main_moore : C unit unit := result ← lift (mojorityElem [2; 2; 1; 1; 2; 2; 2]); report result.

End Majority.

(** ** [repeat_missing.c], in [long long] *)
Module RepeatMissing.

Definition in_long (z : Z) : bool := (- 2 ^ 63 <=? z) && (z <? 2 ^ 63).
Definition as_long (z : Z) : res Z := if in_long z then Ok z else UB Overflow.

(** [a / b], truncated. *)
Definition divide (a b : Z) : res Z := if b =? 0 then UB DivByZero else as_long (Z.quot a b).

Definition sums (arr : list Z) : res (Z * Z) :=
  for_to 0 (len arr) (λ i s,
    let '(sumArr, sumSqrArr) := s in
    x ← aget arr i;
    a ← as_long (sumArr + x);
    q ← as_long (x * x);
    b ← as_long (sumSqrArr + q);
    Ok (a, b)) (0, 0).

(** [n + 1] and [2 * n + 1] are of type [int]. *)
Definition repeat_missing (arr : list Z) : res (Z * Z) :=
  let n := len arr in
  n1 ← as_int (n + 1);
  p ← as_long (n * n1);
  S ← divide p 2;
  n2 ← as_int (2 * n); n2 ← as_int (n2 + 1);
  p ← as_long (p * n2);
  P ← divide p 6;
  '(sumArr, sumSqrArr) ← sums arr;
  val1 ← as_long (sumArr - S);
  val2 ← as_long (sumSqrArr - P);
  val3 ← divide val2 val1;
  r ← as_long (val1 + val3);
  R ← divide r 2;
  M ← as_long (R - val1);
  Ok (R, M).

Definition repeatMissing (arr : list Z) : C unit unit :=
  '(R, M) ← lift (repeat_missing arr);
  printf ("Repeated: " +:+ d R +:+ nl) ;;
  printf ("Missing : " +:+ d M +:+ nl).

Definition main : C unit unit := repeatMissing [3; 1; 2; 5; 3].

End RepeatMissing.

(** ** What the array programs compute *)
Module ArraySpec.

(** *** Loops *)

(** A loop whose body cannot fail as long as the index is in range. *)
Lemma loop_inv {A} (body : Z → A → res A) (P : Z → A → Prop) n from a :
  P from a → (∀ i b, from ≤ i < from + Z.of_nat n → P i b → ∃ b', body i b = Ok b' ∧ P (i + 1) b') →
  ∃ a', loop body n from a = Ok a' ∧ P (from + Z.of_nat n) a'.
Proof.
  revert from a. induction n as [|n IH]; intros from a Ha Hstep; cbn [loop].
  - exists a. by rewrite Z.add_0_r.
  - destruct (Hstep from a ltac:(lia) Ha) as (b & -> & Hb). cbn. destruct (IH (from + 1) b Hb) as (a' & -> & Ha').
    { intros i c Hi Hc. apply Hstep; [lia|done]. }
    exists a'. split; [done|]. replace (from + Z.of_nat (S n)) with (from + 1 + Z.of_nat n) by lia. done.
Qed.

Lemma for_inv {A} (body : Z → A → res A) (P : Z → A → Prop) from to a :
  from ≤ to → P from a → (∀ i b, from ≤ i < to → P i b → ∃ b', body i b = Ok b' ∧ P (i + 1) b') →
  ∃ a', for_to from to body a = Ok a' ∧ P to a'.
Proof.
  intros Hle Ha Hstep. unfold for_to. destruct (loop_inv body P (Z.to_nat (to - from)) from a Ha) as (a' & H1 & H2).
  { intros i b Hi. apply Hstep. lia. }
  exists a'. split; [done|]. by replace to with (from + Z.of_nat (Z.to_nat (to - from))) by lia.
Qed.

(** A loop over all elements of an array is a fold. *)
Lemma for_fold {A} (arr : list Z) (f : Z → A → A) (a : A) :
  for_to 0 (len arr) (λ i a, x ← aget arr i; Ok (f x a)) a = Ok (foldl (λ a x, f x a) a arr).
Proof.
  unfold for_to, len. rewrite Z.sub_0_r, Nat2Z.id. change arr with ([] ++ arr) at 1. change 0 with (Z.of_nat (length (@nil Z))).
  generalize (@nil Z) as pre. intros pre. revert pre a. induction arr as [|x arr IH]; intros pre a; [done|]. cbn [length loop foldl].
  rewrite (aget_lookup _ (length pre) x) by (by rewrite lookup_app_r, Nat.sub_diag by lia). cbn.
  replace (Z.of_nat (length pre) + 1) with (Z.of_nat (length (pre ++ [x]))) by (rewrite length_app; simpl; lia).
  rewrite <- (IH (pre ++ [x])). by rewrite <- app_assoc.
Qed.

Lemma lookup_Z (arr : list Z) (i : Z) : 0 ≤ i < len arr → ∃ x, arr !! Z.to_nat i = Some x ∧ aget arr i = Ok x.
Proof.
  intros Hi. destruct (lookup_lt_is_Some_2 arr (Z.to_nat i)) as [x Hx]; [unfold len in Hi; lia|]. exists x. split; [done|]. by apply aget_Z; [lia|].
Qed.

(** *** Exchanges *)

Lemma exchange_ok (arr : list Z) i j x y :
  0 ≤ i → 0 ≤ j → arr !! Z.to_nat i = Some x → arr !! Z.to_nat j = Some y →
  swap arr i j = Ok (<[Z.to_nat j := x]> (<[Z.to_nat i := y]> arr)) ∧ <[Z.to_nat j := x]> (<[Z.to_nat i := y]> arr) ≡ₚ arr.
Proof.
  intros Hi Hj Hx Hy. pose proof (lookup_lt_Some _ _ _ Hx) as Hli. pose proof (lookup_lt_Some _ _ _ Hy) as Hlj. split.
  - unfold swap. rewrite (aget_Z _ _ _ Hi Hx). cbn. rewrite (aget_Z _ _ _ Hj Hy). cbn. rewrite aset_lt by lia. cbn. by rewrite aset_lt by (rewrite length_insert; lia).
  - by apply Permutation_insert_swap.
Qed.

(** *** Selection sort *)

(** The position of a smallest element from [i] on. *)
Lemma min_from_ok (arr : list Z) (i : Z) :
  0 ≤ i < len arr →
  ∃ m y, SelectionSort.min_from arr i = Ok m ∧ i ≤ m < len arr ∧ arr !! Z.to_nat m = Some y ∧
    ∀ q x, i ≤ Z.of_nat q → arr !! q = Some x → y ≤ x.
Proof.
  intros Hi. destruct (for_inv (λ j min_pos, x ← aget arr j; y ← aget arr min_pos; Ok (if x <? y then j else min_pos))
    (λ j m, i ≤ m < len arr ∧ m < j ∧ ∀ q x y, i ≤ Z.of_nat q < j → arr !! q = Some x → arr !! Z.to_nat m = Some y → y ≤ x) (i + 1) (len arr) i) as (m & Hm & Hr & _ & Hmin).
  - lia.
  - split; [lia|]. split; [lia|]. intros q x y Hq Hx Hy. assert (q = Z.to_nat i) as -> by lia. rewrite Hx in Hy. injection Hy as ->. lia.
  - intros j m Hj (Hm & Hmj & Hmin). destruct (lookup_Z arr j) as (x & Hx & ->); [lia|]. destruct (lookup_Z arr m) as (y & Hy & ->); [lia|]. cbn.
    eexists. split; [reflexivity|]. destruct (Z.ltb_spec x y) as [Hlt|Hge].
    + split; [lia|]. split; [lia|]. intros q u v Hq Hu Hv. rewrite Hx in Hv. injection Hv as <-. destruct (decide (q = Z.to_nat j)) as [->|]; [rewrite Hx in Hu; injection Hu as ->; lia|].
      pose proof (Hmin q u y ltac:(lia) Hu Hy). lia.
    + split; [lia|]. split; [lia|]. intros q u v Hq Hu Hv. rewrite Hy in Hv. injection Hv as <-. destruct (decide (q = Z.to_nat j)) as [->|]; [rewrite Hx in Hu; injection Hu as ->; lia|].
      by apply (Hmin q u y ltac:(lia)).
  - destruct (lookup_Z arr m) as (y & Hy & _); [lia|]. exists m, y. split_and!; [done|lia|lia|done|]. intros q x Hq Hx. pose proof (lookup_lt_Some _ _ _ Hx).
    apply (Hmin q x y); [unfold len; lia|done|done].
Qed.

(** The first [i] elements are in order and below the others. *)
Definition ordered_to (i : Z) (arr : list Z) : Prop :=
  ∀ p q x y, (p < q)%nat → Z.of_nat p < i → arr !! p = Some x → arr !! q = Some y → x ≤ y.

Lemma swap_ordered (arr : list Z) i m x y :
  0 ≤ i → i ≤ m → ordered_to i arr → arr !! Z.to_nat i = Some x → arr !! Z.to_nat m = Some y → (∀ q x, i ≤ Z.of_nat q → arr !! q = Some x → y ≤ x) →
  ordered_to (i + 1) (<[Z.to_nat m := x]> (<[Z.to_nat i := y]> arr)).
Proof.
  intros Hi Him Hord Hx Hy Hmin p q u v Hpq Hp Hu Hv.
  assert (∃ q', arr !! q' = Some v ∧ ((q' = q) ∨ i ≤ Z.of_nat q') ∧ (i ≤ Z.of_nat q → i ≤ Z.of_nat q')) as (q' & Hv' & Hq' & Hge).
  { apply list_lookup_insert_Some in Hv as [(<- & <- & _)|[_ Hv]]; [exists (Z.to_nat i); split; [done|]; lia|].
    apply list_lookup_insert_Some in Hv as [(<- & <- & _)|[_ Hv]]; [exists (Z.to_nat m); split; [done|]; lia|exists q; split; [done|]; lia]. }
  destruct (decide (Z.of_nat p = i)) as [Hpi|Hpi].
  - assert (u = y) as ->; [|by apply (Hmin q'); [apply Hge; lia|]]. apply list_lookup_insert_Some in Hu as [(Hmp & <- & _)|[_ Hu]].
    + assert (Z.to_nat i = Z.to_nat m) as E by lia. rewrite E in Hx. congruence.
    + apply list_lookup_insert_Some in Hu as [(_ & <- & _)|[Hne _]]; [done|]. destruct Hne. lia.
  - rewrite !list_lookup_insert_ne in Hu by lia. apply (Hord p q' u v); [lia|lia|done|done].
Qed.

Lemma ordered_sorted (arr : list Z) : ordered_to (len arr - 1) arr → Sorted Z.le arr.
Proof.
  intros Hord. apply StronglySorted_Sorted. assert (∀ p q x y, (p < q)%nat → arr !! p = Some x → arr !! q = Some y → x ≤ y) as H.
  { intros p q x y Hpq Hx Hy. apply (Hord p q x y Hpq); [|done|done]. apply lookup_lt_Some in Hy. unfold len. lia. }
  clear Hord. induction arr as [|a arr IH]; constructor.
  - apply IH. intros p q x y Hpq Hx Hy. by apply (H (S p) (S q) x y); [lia| |].
  - apply Forall_lookup. intros q y Hy. by apply (H 0%nat (S q) a y); [lia| |].
Qed.

Lemma selection_sort_ok (arr : list Z) : ∃ arr', SelectionSort.sort arr = Ok arr' ∧ arr' ≡ₚ arr ∧ Sorted Z.le arr'.
Proof.
  destruct arr as [|a0 arr0] eqn:E; [by exists []|]. rewrite <- E. assert (1 ≤ len arr) as Hn by (rewrite E; unfold len; simpl; lia). clear E a0 arr0.
  destruct (for_inv (λ i arr, min_pos ← SelectionSort.min_from arr i; swap arr i min_pos) (λ i b, b ≡ₚ arr ∧ ordered_to i b) 0 (len arr - 1) arr) as (b & Hb & Hp & Hord).
  - lia.
  - split; [done|]. intros p q x y _ Hp. lia.
  - intros i b Hi [Hp Hord]. assert (len b = len arr) as Hl by (unfold len; by rewrite Hp).
    destruct (min_from_ok b i) as (m & y & -> & Hm & Hy & Hmin); [lia|]. cbn. destruct (lookup_Z b i) as (x & Hx & _); [lia|].
    destruct (exchange_ok b i m x y) as [-> Hsp]; [lia|lia|done|done|]. eexists. split; [reflexivity|]. split; [by rewrite Hsp|].
    apply swap_ordered; [lia|lia|done..].
  - exists b. split_and!; [done|done|]. apply ordered_sorted. replace (len b) with (len arr) by (unfold len; by rewrite Hp). done.
Qed.

(** *** The two largest numbers *)

(** [m] is the largest of [l] and [s] the largest of those that are not [m]. *)
Definition top_two (l : list Z) (m s : Z) : Prop :=
  (l = [] ∧ m = SecondLargest.INT_MIN ∨ m ∈ l) ∧ (∀ x, x ∈ l → x ≤ m) ∧
  (s = SecondLargest.INT_MIN ∨ s ∈ l ∧ s ≠ m) ∧ (∀ x, x ∈ l → x ≠ m → x ≤ s).

Lemma top_two_ok l :
  Forall (λ x, SecondLargest.INT_MIN ≤ x) l →
  let r := foldl (λ p x, SecondLargest.step x p) (SecondLargest.INT_MIN, SecondLargest.INT_MIN) l in
  top_two l (fst r) (snd r) ∧ SecondLargest.INT_MIN ≤ snd r ≤ fst r.
Proof.
  induction l as [|x l IH] using rev_ind; intros Hl r; unfold r.
  { split; [|cbn; lia]. split; [by left|]. split; [intros x Hx; by apply elem_of_nil in Hx|]. split; [by left|]. intros x Hx. by apply elem_of_nil in Hx. }
  apply Forall_app in Hl as [Hl Hx]. apply Forall_cons in Hx as [Hx _]. specialize (IH Hl). cbn zeta in IH. rewrite foldl_app. cbn [foldl].
  destruct (foldl _ _ l) as [m s]. cbn [fst snd] in IH. destruct IH as [(H1 & H2 & H3 & H4) Hb]. unfold SecondLargest.step.
  assert (∀ y, y ∈ l ++ [x] ↔ y ∈ l ∨ y = x) as Hin by (intros y; rewrite elem_of_app, list_elem_of_singleton; done).
  destruct (Z.gtb_spec x m) as [Hgt|Hle]; cbn [fst snd].
  - split; [|lia]. split; [right; apply Hin; by right|]. split; [intros y [Hy| ->]%Hin; [specialize (H2 y Hy)|]; lia|]. split.
    + destruct H1 as [[-> ->]|H1]; [by left|]. right. split; [apply Hin; by left|lia].
    + intros y [Hy| ->]%Hin Hne; [by apply H2|done].
  - destruct (Z.gtb_spec x s) as [Hgs|Hls]; cbn [andb].
    + destruct (Z.eqb_spec x m) as [->|Hne]; cbn [negb fst snd].
      * split; [|lia]. split; [right; apply Hin; by right|]. split; [intros y [Hy| ->]%Hin; [by apply H2|lia]|].
        split; [destruct H3 as [?|[? ?]]; [by left|right; split; [apply Hin; by left|done]]|]. intros y [Hy| ->]%Hin Hyne; [by apply H4|done].
      * split; [|lia]. split; [destruct H1 as [[-> ->]|H1]; [exfalso; lia|right; apply Hin; by left]|]. split; [intros y [Hy| ->]%Hin; [by apply H2|lia]|].
        split; [right; split; [apply Hin; by right|done]|]. intros y [Hy| ->]%Hin Hyne; [specialize (H4 y Hy Hyne); lia|lia].
    + cbn [fst snd]. split; [|lia]. split; [destruct H1 as [[-> ->]|H1]; right; apply Hin; [right; lia|by left]|]. split; [intros y [Hy| ->]%Hin; [by apply H2|lia]|].
      split; [destruct H3 as [?|[? ?]]; [by left|right; split; [apply Hin; by left|done]]|]. intros y [Hy| ->]%Hin Hyne; [by apply H4|lia].
Qed.

(** *** Majority *)

Definition occ (x : Z) (l : list Z) : Z := Z.of_nat (length (filter (λ y, y = x) l)).

Lemma occ_app x l1 l2 : occ x (l1 ++ l2) = occ x l1 + occ x l2.
Proof. unfold occ. rewrite filter_app, length_app. lia. Qed.

Lemma occ_one x y : occ x [y] = if y =? x then 1 else 0.
Proof. unfold occ. rewrite filter_cons, filter_nil. destruct (Z.eqb_spec y x); case_decide; done. Qed.

(** An element that fills more than half of the array. *)
Definition majority (x : Z) (l : list Z) : Prop := occ x l > len l / 2.

Lemma len_app {A} (l1 l2 : list A) : len (l1 ++ l2) = len l1 + len l2.
Proof. unfold len. rewrite length_app. lia. Qed.

Lemma vote_ok l :
  let r := foldl (λ p x, Majority.vote x p) (0, 0) l in
  0 ≤ fst r ∧ ∀ x, 2 * occ x l ≤ len l + (if x =? snd r then fst r else - fst r).
Proof.
  induction l as [|y l IH] using rev_ind; intros r; unfold r; [split; [done|]; intros x; cbn; by destruct (x =? 0)|].
  cbn zeta in IH. rewrite foldl_app. cbn [foldl]. destruct (foldl _ _ l) as [freq ans]. cbn [fst snd] in IH. destruct IH as [H0 IH]. unfold Majority.vote.
  split.
  - destruct (Z.eqb_spec freq 0); [rewrite Z.eqb_refl; cbn; lia|]. destruct (_ =? _); cbn; lia.
  - intros x. specialize (IH x). rewrite occ_app, occ_one, len_app. change (len [y]) with 1. destruct (Z.eqb_spec freq 0) as [->|Hf].
    + rewrite Z.eqb_refl. cbn [fst snd]. destruct (Z.eqb_spec y x), (Z.eqb_spec x y), (Z.eqb_spec x ans); lia.
    + destruct (Z.eqb_spec ans y); cbn [fst snd]; destruct (Z.eqb_spec y x), (Z.eqb_spec x ans); lia.
Qed.

Lemma count_fold x l c : foldl (λ c y, if x =? y then c + 1 else c) c l = c + occ x l.
Proof.
  revert c. induction l as [|y l IH]; intros c; cbn [foldl]; [unfold occ; simpl; lia|].
  change (y :: l) with ([y] ++ l). rewrite occ_app, occ_one, IH, (Z.eqb_sym x y). destruct (_ =? _); lia.
Qed.

Lemma majority_unique x y l : majority x l → majority y l → x = y.
Proof.
  unfold majority. intros Hx Hy. destruct (decide (x = y)) as [|Hne]; [done|]. exfalso.
  assert (occ x l + occ y l ≤ len l) as Hs.
  { clear Hx Hy. induction l as [|z l IH]; [done|]. change (z :: l) with ([z] ++ l). rewrite !occ_app, !occ_one, len_app. change (len [z]) with 1.
    destruct (Z.eqb_spec z x), (Z.eqb_spec z y); lia. }
  pose proof (Z.div_mod (len l) 2 ltac:(lia)). pose proof (Z.mod_pos_bound (len l) 2 ltac:(lia)). lia.
Qed.

(** The result of both programs. *)
Definition majority_result (l : list Z) (r : Z) : Prop := majority r l ∨ r = -1 ∧ ∀ x, ¬ majority x l.

Lemma moore_ok l : ∃ r, Majority.mojorityElem l = Ok r ∧ majority_result l r.
Proof.
  unfold Majority.mojorityElem. rewrite for_fold. pose proof (vote_ok l) as Hv. cbn zeta in Hv. destruct (foldl _ (0, 0) l) as [freq ans]. cbn [fst snd] in Hv. destruct Hv as [H0 Hv].
  cbn. rewrite for_fold. cbn. rewrite count_fold. eexists. split; [reflexivity|]. rewrite Z.add_0_l. destruct (Z.gtb_spec (occ ans l) (len l / 2)) as [Hgt|Hle].
  - left. unfold majority. lia.
  - right. split; [done|]. intros x Hx. unfold majority in Hx. assert (x = ans) as ->; [|lia].
    pose proof (Z.div_mod (len l) 2 ltac:(lia)). pose proof (Z.mod_pos_bound (len l) 2 ltac:(lia)). specialize (Hv x). destruct (Z.eqb_spec x ans); lia.
Qed.

Lemma brute_ok l : ∃ r, Majority.findMajority l = Ok r ∧ majority_result l r.
Proof.
  unfold Majority.findMajority. assert (∀ n i, (i + n = length l)%nat → (∀ j x, (j < i)%nat → l !! j = Some x → ¬ majority x l) →
    ∃ r, Majority.majority_loop l n (Z.of_nat i) = Ok r ∧ majority_result l r) as Hgo; [|apply (Hgo (length l) 0%nat); [done|intros; lia]].
  induction n as [|n IH]; intros i Hi Hpre; cbn [Majority.majority_loop].
  - exists (-1). split; [done|]. right. split; [done|]. intros x Hx. assert (x ∈ l) as Hin.
    { unfold majority, occ in Hx. destruct (filter (λ y, y = x) l) as [|z fl] eqn:E; [cbn in Hx; pose proof (Z.div_pos (len l) 2); unfold len in *; lia|].
      assert (z ∈ filter (λ y, y = x) l) as Hz by (rewrite E; left). apply list_elem_of_filter in Hz as [-> Hz]. done. }
    apply list_elem_of_lookup in Hin as [j Hj]. apply (Hpre j x); [apply lookup_lt_Some in Hj; lia|done|done].
  - destruct (lookup_lt_is_Some_2 l i) as [x Hx]; [lia|]. unfold Majority.frequency.
    assert (for_to 0 (len l) (λ j freq, x ← aget l (Z.of_nat i); y ← aget l j; Ok (if x =? y then freq + 1 else freq)) 0 = Ok (occ x l)) as ->.
    { rewrite (aget_lookup _ _ _ Hx). cbn. rewrite (for_fold l (λ y freq, if x =? y then freq + 1 else freq)). by rewrite count_fold. }
    cbn. destruct (Z.gtb_spec (occ x l) (len l / 2)) as [Hgt|Hle].
    + exists x. rewrite (aget_lookup _ _ _ Hx). split; [done|]. left. unfold majority. lia.
    + replace (Z.of_nat i + 1) with (Z.of_nat (S i)) by lia. apply IH; [lia|]. intros j y Hj Hy. destruct (decide (j = i)) as [->|]; [|by apply (Hpre j y); [lia|]].
      rewrite Hx in Hy. injection Hy as <-. unfold majority. lia.
Qed.

(** *** Common elements *)

Lemma take_Z (l : list Z) i x : 0 ≤ i → l !! Z.to_nat i = Some x → take (Z.to_nat (i + 1)) l = take (Z.to_nat i) l ++ [x].
Proof. intros Hi Hx. replace (Z.to_nat (i + 1)) with (S (Z.to_nat i)) by lia. by apply take_S_r. Qed.

Lemma take_len {A} (l : list A) : take (Z.to_nat (len l)) l = l.
Proof. unfold len. rewrite Nat2Z.id. by apply take_ge. Qed.

(** The table of numbers of occurrences. *)
Definition counts (freq : list Z) (f : Z → Z) : Prop :=
  length freq = 1000%nat ∧ ∀ x, 0 ≤ x < 1000 → freq !! Z.to_nat x = Some (f x).

Lemma counts_get freq f x : counts freq f → 0 ≤ x < 1000 → aget freq x = Ok (f x).
Proof. intros [_ Hf] Hx. apply aget_Z; [lia|by apply Hf]. Qed.

Lemma counts_set freq f g x v :
  counts freq f → 0 ≤ x < 1000 → g x = v → (∀ y, y ≠ x → g y = f y) → ∃ freq', aset freq x v = Ok freq' ∧ counts freq' g.
Proof.
  intros [Hl Hf] Hx Hv Hg. eexists. split; [apply aset_lt; lia|]. split; [by rewrite length_insert|]. intros y Hy. destruct (decide (y = x)) as [->|Hne].
  - rewrite list_lookup_insert_eq by lia. by rewrite Hv.
  - rewrite list_lookup_insert_ne by lia. rewrite Hf by done. by rewrite Hg.
Qed.

Lemma count_all_ok a : Forall (λ x, 0 ≤ x < 1000) a → ∃ freq, CommonElements.count_all a = Ok freq ∧ counts freq (λ x, occ x a).
Proof.
  intros Ha. unfold CommonElements.count_all.
  destruct (for_inv (λ i freq, x ← aget a i; f ← aget freq x; aset freq x (f + 1)) (λ i freq, counts freq (λ x, occ x (take (Z.to_nat i) a))) 0 (len a) (replicate 1000 0)) as (freq & Hr & Hc).
  - unfold len. lia.
  - split; [apply length_replicate|]. intros x Hx. rewrite lookup_replicate_2 by lia. done.
  - intros i freq Hi Hc. destruct (lookup_Z a i) as (x & Hx & ->); [lia|]. cbn. assert (0 ≤ x < 1000) as Hr by (by eapply (proj1 (Forall_lookup _ _) Ha)).
    rewrite (counts_get _ _ _ Hc Hr). cbn. apply (counts_set _ _ _ _ _ Hc Hr); [|intros y Hy]; rewrite (take_Z a i x) by (done || lia); rewrite occ_app, occ_one.
    + by rewrite Z.eqb_refl.
    + destruct (Z.eqb_spec x y); [congruence|lia].
  - exists freq. split; [done|]. by rewrite take_len in Hc.
Qed.

(** The numbers printed: in the order of [b], each as often as in both arrays. *)
Lemma common_ok a b :
  Forall (λ x, 0 ≤ x < 1000) a → Forall (λ x, 0 ≤ x < 1000) b →
  ∃ out, CommonElements.common a b tt = Ok (tt, tt, "Common element:" :: ((λ x, d x +:+ tab) <$> out)) ∧
    out `sublist_of` b ∧ ∀ x, occ x out = Z.min (occ x a) (occ x b).
Proof.
  intros Ha Hb. destruct (count_all_ok a Ha) as (freq & Hfr & Hc). unfold CommonElements.common. rewrite (bind_step _ _ _ _ _ (lift_Ok _ _ _ Hfr)).
  destruct (for_inv (λ i s, let '(freq, out) := s in x ← aget b i; f ← aget freq x;
      if f >? 0 then freq ← aset freq x (f - 1); Ok (freq, out ++ [x]) else Ok (freq, out))
    (λ i s, counts (fst s) (λ x, occ x a - occ x (snd s)) ∧ snd s `sublist_of` take (Z.to_nat i) b ∧ ∀ x, occ x (snd s) = Z.min (occ x a) (occ x (take (Z.to_nat i) b)))
    0 (len b) (freq, [])) as ([freq' out] & Hr & _ & Hsub & Hocc).
  - unfold len. lia.
  - cbn [fst snd]. split_and!; [|done|intros x; unfold occ; simpl; lia]. destruct Hc as [Hl Hc]. split; [done|]. intros x Hx. rewrite Hc by done. f_equal. unfold occ; simpl; lia.
  - intros i [fr out] Hi (Hcn & Hsub & Hocc). cbn [fst snd] in *. destruct (lookup_Z b i) as (x & Hx & ->); [lia|]. cbn.
    assert (0 ≤ x < 1000) as Hrx by (by eapply (proj1 (Forall_lookup _ _) Hb)). rewrite (counts_get _ _ _ Hcn Hrx). cbn. pose proof (Hocc x) as Hox.
    rewrite (take_Z b i x) by (done || lia). assert (0 ≤ occ x (take (Z.to_nat i) b)) by (unfold occ; lia).
    destruct (Z.gtb_spec (occ x a - occ x out) 0) as [Hgt|Hle].
    + destruct (counts_set fr _ (λ y, occ y a - occ y (out ++ [x])) x (occ x a - occ x out - 1) Hcn Hrx) as (fr' & -> & Hcn').
      { rewrite occ_app, occ_one, Z.eqb_refl. lia. } { intros y Hy. rewrite occ_app, occ_one. destruct (Z.eqb_spec x y); [congruence|lia]. }
      eexists. split; [reflexivity|]. cbn [fst snd]. split_and!; [done|by apply sublist_app|]. intros y. specialize (Hocc y). rewrite !occ_app, !occ_one.
      destruct (Z.eqb_spec x y) as [->|]; lia.
    + eexists. split; [reflexivity|]. cbn [fst snd]. split_and!; [done|by apply sublist_inserts_r|]. intros y. specialize (Hocc y). rewrite !occ_app, !occ_one.
      destruct (Z.eqb_spec x y) as [->|]; lia.
  - exists out. rewrite take_len in Hsub, Hocc. split_and!; [|done|done]. refine (bind_Ok _ _ _ _ _ ["Common element:"] _ _ _ eq_refl _).
    rewrite (bind_step _ _ _ _ _ (lift_Ok _ _ _ Hr)). apply for_each_printf.
Qed.

(** *** The repeated and the missing number *)

Definition zsum (l : list Z) : Z := foldr Z.add 0 l.
Definition squares (l : list Z) : list Z := (λ x, x * x) <$> l.
Definition upto (n : nat) : list Z := Z.of_nat <$> seq 1 n.

Lemma squares_len l : len (squares l) = len l.
Proof. unfold len, squares. by rewrite length_fmap. Qed.

Lemma zsum_app l1 l2 : zsum (l1 ++ l2) = zsum l1 + zsum l2.
Proof. unfold zsum. induction l1 as [|x l1 IH]; [done|]. cbn. rewrite IH. lia. Qed.

Lemma zsum_perm l1 l2 : l1 ≡ₚ l2 → zsum l1 = zsum l2.
Proof. unfold zsum. induction 1; simpl; lia. Qed.

Lemma zsum_bound l b : Forall (λ x, 0 ≤ x ≤ b) l → 0 ≤ zsum l ≤ b * len l.
Proof. unfold len. induction 1 as [|x l Hx _ IH]; [cbn; lia|]. cbn [zsum foldr length]. fold (zsum l). nia. Qed.

Lemma upto_sums n : 2 * zsum (upto n) = Z.of_nat n * (Z.of_nat n + 1) ∧
  6 * zsum (squares (upto n)) = Z.of_nat n * (Z.of_nat n + 1) * (2 * Z.of_nat n + 1).
Proof.
  induction n as [|n [IH1 IH2]]; [done|]. unfold upto, squares in *. rewrite seq_S, !fmap_app, !zsum_app. cbn [fmap list_fmap zsum foldr]. split; nia.
Qed.

Lemma as_long_ok z : - 2 ^ 63 ≤ z < 2 ^ 63 → RepeatMissing.as_long z = Ok z.
Proof.
  intros Hz. unfold RepeatMissing.as_long, RepeatMissing.in_long. destruct (Z.leb_spec (- 2 ^ 63) z); [|lia]. destruct (Z.ltb_spec z (2 ^ 63)); [done|lia].
Qed.

Lemma as_int_range z : -2147483648 ≤ z ≤ 2147483647 → as_int z = Ok z.
Proof. intros Hz. apply as_int_ok. unfold in_int. apply andb_true_iff. split; apply Z.leb_le; lia. Qed.

Lemma divide_ok q b : b ≠ 0 → - 2 ^ 63 ≤ q < 2 ^ 63 → RepeatMissing.divide (q * b) b = Ok q.
Proof.
  intros Hb Hq. unfold RepeatMissing.divide. destruct (Z.eqb_spec b 0); [done|]. rewrite Z.quot_mul by done. by apply as_long_ok.
Qed.

Lemma sums_ok l b : Forall (λ x, 0 ≤ x ≤ b) l → b * b * len l < 2 ^ 63 → b * len l < 2 ^ 63 → RepeatMissing.sums l = Ok (zsum l, zsum (squares l)).
Proof.
  intros Hl H2 H1. unfold RepeatMissing.sums.
  destruct (for_inv (λ i s, let '(sumArr, sumSqrArr) := s in x ← aget l i; a ← RepeatMissing.as_long (sumArr + x); q ← RepeatMissing.as_long (x * x);
      c ← RepeatMissing.as_long (sumSqrArr + q); Ok (a, c)) (λ i s, s = (zsum (take (Z.to_nat i) l), zsum (squares (take (Z.to_nat i) l)))) 0 (len l) (0, 0)) as (s & -> & ->).
  - unfold len. lia.
  - done.
  - intros i s Hi ->. destruct (lookup_Z l i) as (x & Hx & ->); [lia|]. cbn. pose proof (take_Z l i x ltac:(lia) Hx) as Ht.
    assert (0 ≤ x ≤ b) as Hxb by (by eapply (proj1 (Forall_lookup _ _) Hl)).
    assert (Forall (λ x, 0 ≤ x ≤ b) (take (Z.to_nat (i + 1)) l)) as Hf by (by apply Forall_take).
    assert (len (take (Z.to_nat (i + 1)) l) ≤ len l) as Hlen by (unfold len; rewrite length_take; lia).
    pose proof (zsum_bound _ _ Hf) as Hb1. assert (Forall (λ x, 0 ≤ x ≤ b * b) (squares (take (Z.to_nat (i + 1)) l))) as Hsq.
    { unfold squares. apply Forall_fmap. eapply Forall_impl; [exact Hf|]. intros y Hy. cbn in *. nia. }
    pose proof (zsum_bound _ _ Hsq) as Hb2. rewrite squares_len in Hb2.
    rewrite Ht in *. unfold squares in *. rewrite fmap_app, !zsum_app in *. cbn [fmap list_fmap zsum foldr] in *.
    assert (0 ≤ len (take (Z.to_nat i) l ++ [x])) by (unfold len; lia).
    assert (b * len (take (Z.to_nat i) l ++ [x]) ≤ b * len l) by nia. assert (b * b * len (take (Z.to_nat i) l ++ [x]) ≤ b * b * len l) by nia.
    assert (0 ≤ zsum ((λ x, x * x) <$> take (Z.to_nat i) l)).
    { assert (Forall (λ x, 0 ≤ x ≤ b * b) ((λ x, x * x) <$> take (Z.to_nat i) l)) as Hq; [|by apply zsum_bound in Hq as [? _]].
      apply Forall_fmap. eapply Forall_impl; [exact (Forall_take _ _ _ Hl)|]. intros y Hy. cbn in *. nia. }
    rewrite as_long_ok by lia. cbn. rewrite as_long_ok by nia. cbn. rewrite as_long_ok by lia. cbn. eexists. split; [reflexivity|]. f_equal; lia.
  - by rewrite take_len.
Qed.

(** One statement of a computation that cannot fail. *)
Ltac res_step := unfold mbind at 1, res_bind at 1; cbv beta iota.

(** [arr] is 1, ..., n with [M] replaced by [R]. *)
Lemma repeat_missing_ok arr R M :
  M :: arr ≡ₚ R :: upto (length arr) → 1 ≤ R ≤ len arr → R ≠ M → len arr ≤ 1000000 → RepeatMissing.repeat_missing arr = Ok (R, M).
Proof.
  intros Hp HR Hne Hn. set (n := len arr) in *.
  pose proof (upto_sums (length arr)) as [Hs1 Hs2]. fold (len arr) in Hs1, Hs2. fold n in Hs1, Hs2.
  pose proof (zsum_perm _ _ Hp) as E1. cbn [zsum foldr] in E1. fold (zsum arr) (zsum (upto (length arr))) in E1.
  assert (zsum (squares (M :: arr)) = zsum (squares (R :: upto (length arr)))) as E2 by (apply zsum_perm; unfold squares; by rewrite Hp).
  cbn [squares fmap list_fmap zsum foldr] in E2. fold (squares arr) (squares (upto (length arr))) in E2. fold (zsum (squares arr)) (zsum (squares (upto (length arr)))) in E2.
  assert (Forall (λ x, 1 ≤ x ≤ n) (R :: upto (length arr))) as Hu.
  { constructor; [done|]. unfold upto. apply Forall_fmap, Forall_forall. intros k Hk%elem_of_seq. cbn. unfold n, len. lia. }
  rewrite <- Hp in Hu. apply Forall_cons in Hu as [HM Harr].
  assert (RepeatMissing.sums arr = Ok (zsum arr, zsum (squares arr))) as Hsums.
  { apply (sums_ok arr n); [eapply Forall_impl; [exact Harr|]; intros x Hx; cbn in *; lia| |]; fold n; nia. }
  set (A := zsum arr) in *. set (Q := zsum (squares arr)) in *. set (SS := zsum (upto (length arr))) in *. set (PP := zsum (squares (upto (length arr)))) in *.
  assert (0 ≤ n * (n + 1) ≤ 2 * 10 ^ 12) by nia. assert (0 ≤ n * (n + 1) * (2 * n + 1) ≤ 9 * 10 ^ 18) by nia.
  unfold RepeatMissing.repeat_missing. fold n. rewrite (as_int_range (n + 1)) by lia. res_step. rewrite as_long_ok by lia. res_step.
  replace (n * (n + 1)) with (SS * 2) by lia. rewrite divide_ok by lia. res_step. rewrite as_int_range by lia. res_step. rewrite as_int_range by lia. res_step.
  rewrite as_long_ok by lia. res_step. replace (SS * 2 * (2 * n + 1)) with (PP * 6) by lia. rewrite divide_ok by lia. res_step. rewrite Hsums. res_step.
  replace (A - SS) with (R - M) by lia. rewrite (as_long_ok (R - M)) by lia. res_step. replace (Q - PP) with ((R + M) * (R - M)) by lia.
  rewrite as_long_ok by nia. res_step. rewrite divide_ok by lia. res_step. rewrite as_long_ok by lia. res_step. replace (R - M + (R + M)) with (R * 2) by lia.
  rewrite divide_ok by lia. res_step. rewrite as_long_ok by lia. res_step. do 2 f_equal. lia.
Qed.

End ArraySpec.

(** ** [valid_parenthesis.c], in two versions *)
Module Brackets.

Abbreviation char := Ascii.ascii.
Definition code_is (n : nat) (c : char) : bool := Nat.eqb (Ascii.nat_of_ascii c) n.

Definition is_open (c : char) : bool := code_is 40 c || code_is 123 c || code_is 91 c.
Definition is_close (c : char) : bool := code_is 41 c || code_is 125 c || code_is 93 c.

(** 24-11-2025 *)
Definition isMatching_24 (o c : char) : bool := code_is 40 o && code_is 41 c || code_is 123 o && code_is 125 c || code_is 91 o || code_is 93 c.

(** 26-11-2025 *)
Definition isMatching (o c : char) : bool := code_is 40 o && code_is 41 c || code_is 123 o && code_is 125 c || code_is 91 o && code_is 93 c.

(** The loop of [isValid] with room for [size] characters on the stack, its top
    first. *)
Fixpoint check (matching : char → char → bool) (size : nat) (str stack : list char) : res bool :=
  match str with
  | [] => Ok (match stack with [] => true | _ => false end)
  | ch :: str =>
      if is_open ch then
        if Nat.leb size (length stack) then UB OutOfBounds else check matching size str (ch :: stack)
      else if is_close ch then
        match stack with
        | [] => Ok false
        | last :: stack => if matching last ch then check matching size str stack else Ok false
        end
      else check matching size str stack
  end.

(** The stack has one place per character; a string is not empty. *)
Definition isValid_24 (str : string) : res bool :=
  let str := String.list_ascii_of_string str in check isMatching_24 (length str) str [].

Definition isValid (str : string) : res bool := check isMatching 100 (String.list_ascii_of_string str) [].

Definition main_24 : C unit unit :=
  b ← lift (isValid_24 " [a{{(ba)}]"); printf (if b : bool then "Valid parenthesis" else "InValid parenthesis").

Definition main : C unit unit :=
  b ← lift (isValid "((a{b[(b)]}))"); printf (if b : bool then "valid parentheses" else "Invalid Parentheses").

End Brackets.

(** ** [reverse_str_stack.c] *)
Module ReverseStack.

Definition push (c : Ascii.ascii) (s : list (option Ascii.ascii) * Z) : res (list (option Ascii.ascii) * Z) :=
  let '(stack, top) := s in
  stack ← aset stack (top + 1) (Some c); Ok (stack, top + 1).

Fixpoint push_all (str : list Ascii.ascii) (s : list (option Ascii.ascii) * Z) : res (list (option Ascii.ascii) * Z) :=
  match str with
  | [] => Ok s
  | c :: str => s ← push c s; push_all str s
  end.

(** [for (int i = top; i >= 0; i--)] *)
Fixpoint pop_all (n : nat) (stack : list (option Ascii.ascii)) (i : Z) : C unit unit :=
  match n with
  | O => mret tt
  | S n => c ← lift (uget stack i); printf (of_chars [c]) ;; pop_all n stack (i - 1)
  end.

Definition reverseStr (str : string) : C unit unit :=
  let str := String.list_ascii_of_string str in
  '(stack, top) ← lift (push_all str (replicate (length str) None, -1));
  pop_all (Z.to_nat (top + 1)) stack top.

Definition main : C unit unit := reverseStr "Rahul Bansal".

End ReverseStack.

(** ** Brackets *)
Module BracketSpec.
Import Brackets.

(** The words in which every bracket has its partner. *)
Inductive balanced : list char → Prop :=
  | balanced_nil : balanced []
  | balanced_other c l : is_open c = false → is_close c = false → balanced l → balanced (c :: l)
  | balanced_pair o c l1 l2 : isMatching o c = true → balanced l1 → balanced l2 → balanced (o :: l1 ++ c :: l2).

Lemma code_is_eq n c : code_is n c = true → Ascii.nat_of_ascii c = n.
Proof. apply Nat.eqb_eq. Qed.

Lemma open_not_close c : is_open c = true → is_close c = false.
Proof.
  unfold is_open, is_close, code_is. intros H. rewrite !orb_true_iff, !Nat.eqb_eq in H. destruct H as [[-> | ->]| ->]; done.
Qed.

Lemma matching_open o c : isMatching o c = true → is_open o = true ∧ is_close c = true.
Proof.
  unfold isMatching, is_open, is_close. rewrite !orb_true_iff, !andb_true_iff. tauto.
Qed.

(** What is left to read when the brackets [st] are open. *)
Fixpoint closes (st : list char) (l : list char) : Prop :=
  match st with
  | [] => balanced l
  | o :: st => ∃ l1 c l2, l = l1 ++ c :: l2 ∧ balanced l1 ∧ isMatching o c = true ∧ closes st l2
  end.

Lemma balanced_open o l : is_open o = true → balanced (o :: l) → ∃ l1 c l2, l = l1 ++ c :: l2 ∧ isMatching o c = true ∧ balanced l1 ∧ balanced l2.
Proof. intros Ho Hb. inversion Hb as [|? ? Hno|? c l1 l2]; subst; [congruence|]. by exists l1, c, l2. Qed.

Lemma balanced_close c l : is_close c = true → ¬ balanced (c :: l).
Proof.
  intros Hc Hb. inversion Hb as [|? ? ? Hnc|o ? ? ? Hm]; subst; [congruence|]. apply matching_open in Hm as [Ho _]. apply open_not_close in Ho. congruence.
Qed.

Lemma balanced_skip c l : is_open c = false → is_close c = false → balanced (c :: l) ↔ balanced l.
Proof.
  intros Ho Hc. split; [|by constructor]. intros Hb. inversion Hb as [|? ? ? ? H|? ? ? ? Hm]; subst; [done|]. apply matching_open in Hm as [? _]. congruence.
Qed.

Lemma closes_other c st l : is_open c = false → is_close c = false → closes st (c :: l) ↔ closes st l.
Proof.
  intros Ho Hc. destruct st as [|o st]; [by apply balanced_skip|]. cbn [closes]. split.
  - intros ([|c' l1] & d & l2 & E & Hb & Hm & Hst); simplify_eq/=.
    + apply matching_open in Hm as [_ ?]. congruence.
    + exists l1, d, l2. by apply balanced_skip in Hb.
  - intros (l1 & d & l2 & -> & Hb & Hm & Hst). exists (c :: l1), d, l2. split; [done|]. split; [by constructor|done].
Qed.

Lemma closes_open c st l : is_open c = true → closes st (c :: l) ↔ closes (c :: st) l.
Proof.
  intros Ho. destruct st as [|o st]; cbn [closes].
  - split.
    + intros (l1 & d & l2 & -> & Hm & H1 & H2)%balanced_open; [|done]. by exists l1, d, l2.
    + intros (l1 & d & l2 & -> & H1 & Hm & H2). by constructor.
  - split.
    + intros ([|c' l1] & d & l2 & E & Hb & Hm & Hst); simplify_eq/=.
      * apply matching_open in Hm as [_ Hd]. apply open_not_close in Ho. congruence.
      * apply balanced_open in Hb as (a & e & b & -> & Hm' & Ha & Hb); [|done]. exists a, e, (b ++ d :: l2).
        rewrite <- app_assoc. split; [done|]. split; [done|]. split; [done|]. by exists b, d, l2.
    + intros (a & e & r & -> & Ha & Hm' & b & d & l2 & -> & Hb & Hm & Hst). exists (c :: a ++ e :: b), d, l2.
      cbn [app]. rewrite <- app_assoc. split; [done|]. split; [by constructor|done].
Qed.

Lemma closes_close c o st l : is_close c = true → closes (o :: st) (c :: l) ↔ isMatching o c = true ∧ closes st l.
Proof.
  intros Hc. cbn [closes]. split.
  - intros ([|c' l1] & d & l2 & E & Hb & Hm & Hst); simplify_eq/=; [done|]. by apply balanced_close in Hb.
  - intros [Hm Hst]. exists [], c, l. by split_and!; [|constructor| |].
Qed.

Lemma check_ok size l st :
  (length st + length (filter (λ c, is_open c = true) l) ≤ size)%nat → ∃ b, check isMatching size l st = Ok b ∧ (b = true ↔ closes st l).
Proof.
  revert st. induction l as [|c l IH]; intros st Hs; cbn [check].
  - eexists. split; [reflexivity|]. destruct st as [|o st]; cbn [closes]; [split; [constructor|done]|]. split; [done|]. intros (l1 & ? & ? & E & _). by destruct l1.
  - rewrite filter_cons in Hs. destruct (is_open c) eqn:Ho.
    + rewrite decide_True in Hs by done. cbn [length] in Hs. destruct (Nat.leb_spec size (length st)); [lia|].
      destruct (IH (c :: st)) as (b & -> & Hb); [cbn [length]; lia|]. exists b. split; [done|]. by rewrite Hb, closes_open.
    + rewrite decide_False in Hs by done. destruct (is_close c) eqn:Hc.
      * destruct st as [|o st]; [exists false; split; [done|]; split; [done|]; intros H; by apply balanced_close in H|].
        destruct (isMatching o c) eqn:Hm.
        -- destruct (IH st) as (b & -> & Hb); [cbn [length] in Hs; lia|]. exists b. split; [done|]. rewrite Hb, closes_close by done. tauto.
        -- exists false. split; [done|]. rewrite closes_close by done. split; [done|]. intros [? _]. congruence.
      * destruct (IH st Hs) as (b & -> & Hb). exists b. split; [done|]. by rewrite Hb, closes_other.
Qed.

(** *** Reversal *)

Lemma push_all_ok l pre n :
  (length pre + length l ≤ n)%nat →
  ReverseStack.push_all l ((Some <$> pre) ++ replicate (n - length pre) None, Z.of_nat (length pre) - 1) =
    Ok ((Some <$> pre ++ l) ++ replicate (n - length pre - length l) None, Z.of_nat (length pre + length l) - 1).
Proof.
  revert pre. induction l as [|c l IH]; intros pre Hn; cbn [ReverseStack.push_all length] in *.
  - rewrite app_nil_r, Nat.add_0_r, Nat.sub_0_r. done.
  - unfold ReverseStack.push. replace (Z.of_nat (length pre) - 1 + 1) with (Z.of_nat (length pre)) by lia.
    rewrite aset_nat by (rewrite length_app, length_fmap, length_replicate; lia). cbn.
    replace (<[length pre := Some c]> ((Some <$> pre) ++ replicate (n - length pre) None)) with ((Some <$> pre ++ [c]) ++ replicate (n - length (pre ++ [c])) None).
    + specialize (IH (pre ++ [c])). rewrite length_app in IH. cbn [length] in IH. replace (Z.of_nat (length pre)) with (Z.of_nat (length pre + 1) - 1) by lia.
      rewrite length_app. cbn [length]. rewrite IH by lia. rewrite <- app_assoc. cbn [app]. do 2 f_equal; [do 2 f_equal|]; lia.
    + rewrite length_app. cbn [length]. replace (n - length pre)%nat with (S (n - (length pre + 1))) by lia. cbn [replicate].
      rewrite fmap_app, <- app_assoc. rewrite <- (length_fmap Some pre) at 2. rewrite insert_app_r_alt, Nat.sub_diag by lia. done.
Qed.

Lemma pop_all_ok l rest :
  ReverseStack.pop_all (length l) ((Some <$> l) ++ rest) (Z.of_nat (length l) - 1) tt = Ok (tt, tt, (λ c, of_chars [c]) <$> reverse l).
Proof.
  revert rest. induction l as [|c l IH] using rev_ind; intros rest; [done|]. rewrite length_app, reverse_app, fmap_app. cbn [length].
  rewrite Nat.add_1_r. cbn [ReverseStack.pop_all]. replace (Z.of_nat (S (length l)) - 1) with (Z.of_nat (length l)) by lia.
  assert (uget (((λ c, Some c) <$> l) ++ Some c :: rest) (Z.of_nat (length l)) = Ok c) as Hu.
  { unfold uget. rewrite (aget_lookup _ _ (Some c)); [done|]. rewrite lookup_app_r, length_fmap, Nat.sub_diag by (rewrite length_fmap; lia). done. }
  rewrite <- app_assoc. cbn [fmap list_fmap app]. rewrite (bind_step _ _ _ _ _ (lift_Ok _ _ _ Hu)).
  rewrite reverse_singleton. cbn [app]. rewrite fmap_cons. refine (bind_Ok _ _ _ _ _ [_] _ _ _ eq_refl _). exact (IH (Some c :: rest)).
Qed.

Lemma reverse_str_ok str :
  ReverseStack.reverseStr str tt = Ok (tt, tt, (λ c, of_chars [c]) <$> reverse (String.list_ascii_of_string str)).
Proof.
  unfold ReverseStack.reverseStr. set (l := String.list_ascii_of_string str).
  pose proof (push_all_ok l [] (length l) ltac:(simpl; lia)) as Hp. cbn [length fmap list_fmap app Nat.sub Z.of_nat] in Hp. rewrite Nat.sub_0_r in Hp.
  rewrite (bind_step _ _ _ _ _ (lift_Ok _ _ _ Hp)). cbv iota beta. replace (Z.to_nat (Z.of_nat (0 + length l) - 1 + 1)) with (length l) by lia. apply pop_all_ok.
Qed.

End BracketSpec.

(** The inner loop starts at [i], so the smallest element may stay behind. *)
Lemma bubble_sort_wrong : BubbleSort.sort [2; 3; 1] = Ok [2; 1; 3].
Proof. vm_compute. reflexivity. Qed.

(** The array of the program itself comes out in order. *)
Lemma bubble_sort_demo : BubbleSort.sort [10; 4; 80; 5; 48] = Ok [4; 5; 10; 48; 80].
Proof. vm_compute. reflexivity. Qed.

(** [open == '['] or [close == ']'] is enough for a match. *)
Lemma brackets_24_wrong : Brackets.isValid_24 "[)" = Ok true ∧ Brackets.isValid_24 "(]" = Ok true.
Proof. split; vm_compute; reflexivity. Qed.

(** The stack of the later version has 100 places. *)
Lemma brackets_overflow : Brackets.isValid (String.string_of_list_ascii (replicate 101 (Ascii.ascii_of_nat 40))) = UB OutOfBounds.
Proof. vm_compute. reflexivity. Qed.

(** A majority of -1 is reported as none. *)
Lemma majority_minus_one : (r ← lift (Majority.mojorityElem [-1; -1; 3]); Majority.report r) tt = Ok (tt, tt, ["majority element not found"]).
Proof. vm_compute. reflexivity. Qed.

(** ** Theorems *)
Section ArrayTheorems.
Import ArraySpec BracketSpec.

(** Selection sort puts every array in ascending order. *)
Theorem selection_sort_correct (arr : list Z) : ∃ arr', SelectionSort.sort arr = Ok arr' ∧ arr' ≡ₚ arr ∧ Sorted Z.le arr'.
Proof. apply selection_sort_ok. Qed.

(** The largest number and the largest of the others are printed; where there
    is none, [INT_MIN]. *)
Theorem second_largest_correct (arr : list Z) :
  Forall (λ x, SecondLargest.INT_MIN ≤ x) arr →
  ∃ m s, SecondLargest.secondLargestNum arr tt = Ok (tt, tt, ["Max= " +:+ d m +:+ nl +:+ "second Max= " +:+ d s]) ∧ top_two arr m s.
Proof.
  intros Ha. destruct (top_two_ok arr Ha) as [Ht _]. unfold SecondLargest.secondLargestNum. rewrite (bind_step _ _ _ _ _ (lift_Ok _ _ _ (for_fold _ _ _))).
  destruct (foldl _ _ arr) as [m s]. by exists m, s.
Qed.

(** The search that counts every element and the vote of Boyer and Moore
    return the same number on every array: the element that fills more than half
    of it, or -1 when there is none. *)
Theorem majority_agree (arr : list Z) :
  ∃ r, Majority.findMajority arr = Ok r ∧ Majority.mojorityElem arr = Ok r ∧
    (majority r arr ∨ r = -1 ∧ ∀ x, ¬ majority x arr).
Proof.
  destruct (brute_ok arr) as (r & Hb & Hr). destruct (moore_ok arr) as (r' & Hm & Hr'). exists r. split; [done|]. split; [|exact Hr].
  rewrite Hm. f_equal. destruct Hr as [Hr|[-> Hr]], Hr' as [Hr'|[-> Hr']]; [by eapply majority_unique|by apply Hr' in Hr|by apply Hr in Hr'|done].
Qed.

(** For a string with at most 100 opening brackets [isValid] (of
    26-11-2025) stays inside its stack and returns true exactly when every
    bracket has its partner, properly nested. *)
Theorem brackets_exact (str : string) :
  (length (filter (λ c, Brackets.is_open c = true) (String.list_ascii_of_string str)) ≤ 100)%nat →
  ∃ b, Brackets.isValid str = Ok b ∧ (b = true ↔ balanced (String.list_ascii_of_string str)).
Proof. intros Hs. by apply (check_ok 100 (String.list_ascii_of_string str) []). Qed.

Lemma brackets_exact_witness :
  ∃ b, Brackets.isValid "((a{b[(b)]}))" = Ok b ∧ (b = true ↔ balanced (String.list_ascii_of_string "((a{b[(b)]}))")).
Proof. apply brackets_exact. vm_compute. lia. Defined.

(** The two numbers are found in every array of up to a million numbers in which
    one of 1, ..., n is replaced by another one. *)
Theorem repeat_missing_correct (arr : list Z) (R M : Z) :
  M :: arr ≡ₚ R :: upto (length arr) → 1 ≤ R ≤ len arr → R ≠ M → len arr ≤ 1000000 →
  RepeatMissing.repeatMissing arr tt = Ok (tt, tt, ["Repeated: " +:+ d R +:+ nl; "Missing : " +:+ d M +:+ nl]).
Proof.
  intros Hp HR Hne Hn. unfold RepeatMissing.repeatMissing. by rewrite (bind_step _ _ _ _ _ (lift_Ok _ _ _ (repeat_missing_ok arr R M Hp HR Hne Hn))).
Qed.

End ArrayTheorems.
