(* ===== verification/StringPrograms.v ===== *)
(** * String programs: [EXTRA_TASK/24-11-2025/STRING_AND_HASHING]

    Each program is a module.  A string in an array is the list of its
    characters; reading one with [scanf] into an array of 50 is [read_line].
    [StringSpec] relates the programs to lists. *)
From stdpp Require Import base list strings pretty sorting.
From Stdlib Require Import ZArith Lia.
From Stdlib Require Ascii String.
From S2P Require Import Prelude ArrayPrograms.
Local Open Scope Z_scope.

Abbreviation char := Ascii.ascii.
Definition chars (s : string) : list char := String.list_ascii_of_string s.

(** The character with a code. *)
Definition chr (n : nat) : char := Ascii.ascii_of_nat n.
Definition space : char := chr 32.
Definition char_eqb (a b : char) : bool := Ascii.eqb a b.

(** [scanf("%[^\n]s", str)] into [char str[50]]: an empty line leaves the array
    as it is. *)
Definition read_line (line : string) : res (list char) :=
  if Nat.eqb (String.length line) 0 then UB Uninitialised
  else if Nat.leb 50 (String.length line) then UB OutOfBounds
  else Ok (chars line).

(** [str[i]] as an index: [char] is signed. *)
Definition char_index (c : char) : Z :=
  let n := Z.of_nat (Ascii.nat_of_ascii c) in if n <? 128 then n else n - 256.

(** [freq[str[i]]++] over a string. *)
Fixpoint add_counts (by_ : Z) (str : list char) (freq : list Z) : res (list Z) :=
  match str with
  | [] => Ok freq
  | c :: str =>
      f ← aget freq (char_index c);
      freq ← aset freq (char_index c) (f + by_);
      add_counts by_ str freq
  end.

Definition count_chars (str : list char) : res (list Z) := add_counts 1 str (replicate 256 0).

(** ** [reverse_String.c], and the same function in two more programs *)
Module ReverseString.

(** [while (l < r)]. *)
Fixpoint reverse_loop (fuel : nat) (str : list char) (l r : Z) : res (list char) :=
  if l <? r then
    match fuel with
    | O => UB OutOfFuel
    | S fuel => str ← swap str l r; reverse_loop fuel str (l + 1) (r - 1)
    end
  else Ok str.

(** Each round shortens the part between [l] and [r]. *)
Definition reverse (str : list char) (l r : Z) : res (list char) := reverse_loop (Z.to_nat (r - l)) str l r.

Definition main : C unit unit :=
  let str := chars "Rahul" in
  printf ("Before reverse string is: " +:+ of_chars str) ;;
  str ← lift (reverse str 0 (len str - 1));
  printf (nl +:+ "After reverse: " +:+ of_chars str).

End ReverseString.

(** ** [reverse_word.c] *)
Module ReverseWord.

(** The terminator is the element behind the last one. *)
Definition word_step (i : Z) (s : list char * Z) : res (list char * Z) :=
  let '(str, start) := s in
  c ← (if i <? len str then aget str i else Ok (chr 0));
  if char_eqb c space || char_eqb c (chr 0) then str ← ReverseString.reverse str start (i - 1); Ok (str, i + 1)
  else Ok (str, start).

Definition reverse_words (str : list char) : res (list char) :=
  '(str, _) ← for_to 0 (len str + 1) word_step (str, 0); Ok str.

Definition main (line : string) : C unit unit :=
  printf "Enter any string:" ;;
  str ← lift (read_line line);
  str ← lift (reverse_words str);
  printf ("reverse string = " +:+ of_chars str).

End ReverseWord.

(** ** [rotate_string_k_times.c] *)
Module RotateString.

(** [k %= n] truncates towards zero. *)
Definition rotate (str : list char) (k : Z) : res (list char) :=
  let n := len str in
  if n =? 0 then UB DivByZero
  else
    let k := Z.rem k n in
    str ← ReverseString.reverse str 0 (k - 1);
    str ← ReverseString.reverse str (k + 1) (n - 1);
    ReverseString.reverse str 0 (n - 1).

(** [scanf("%s", str)] reads a word into [char str[100]]. *)
Definition main (word : string) (k : Z) : C unit unit :=
  printf "Enter string:" ;;
  (if Nat.leb 100 (String.length word) then lift (UB OutOfBounds) else mret tt) ;;
  printf "Enter k:" ;;
  str ← lift (rotate (chars word) k);
  printf (of_chars str).

End RotateString.

(** ** [string_palindrome.c] *)
Module Palindrome.

Fixpoint palindrome_loop (fuel : nat) (str : list char) (l r : Z) : res bool :=
  if l <? r then
    match fuel with
    | O => UB OutOfFuel
    | S fuel =>
        a ← aget str l;
        b ← aget str r;
        if negb (char_eqb a b) then Ok false else palindrome_loop fuel str (l + 1) (r - 1)
    end
  else Ok true.

Definition palindrome (str : list char) : res bool := palindrome_loop (length str) str 0 (len str - 1).

Definition main : C unit unit :=
  b ← lift (palindrome (chars "madam")); printf (if b : bool then "Palindrome" else "Not palindrom").

End Palindrome.

(** ** [anagram.c] *)
Module Anagram.

(** One array counts up for the first string and down for the second. *)
Fixpoint count_both (str1 str2 : list char) (freq : list Z) : res (list Z) :=
  match str1 with
  | [] => Ok freq
  | a :: str1 =>
      freq ← add_counts 1 [a] freq;
      match str2 with
      | [] => UB OutOfBounds
      | b :: str2 => freq ← add_counts (-1) [b] freq; count_both str1 str2 freq
      end
  end.

Definition anagram (str1 str2 : list char) : res bool :=
  if negb (len str1 =? len str2) then Ok false
  else freq ← count_both str1 str2 (replicate 256 0); Ok (forallb (λ f, f =? 0) freq).

Definition main : C unit unit :=
  b ← lift (anagram (chars "silent") (chars "listen")); printf (if b : bool then "Anagram" else "Not anagram").

End Anagram.

(** ** [all_unique_charac_string.c], [duplicates_char.c], [freq_char.c] *)
Module Frequencies.

Definition main_unique (line : string) : C unit unit :=
  printf "Enter string:" ;;
  str ← lift (read_line line);
  freq ← lift (count_chars str);
  printf (if existsb (λ f, f >=? 2) freq then "No all unique character" else "Unique characters").

(** [for (int i = 0; i < 256; i++)] *)
Definition print_freq (keep : Z → bool) (line : char → Z → string) (freq : list Z) : C unit unit :=
  for_each (λ i : nat,
    f ← lift (aget freq (Z.of_nat i));
    if keep f then printf (line (chr i) f) else mret tt) (seq 0 256).

Definition main_duplicates (line : string) : C unit unit :=
  printf "Enter string:" ;;
  str ← lift (read_line line);
  freq ← lift (count_chars str);
  print_freq (λ f, f >? 1) (λ c f, of_chars [c] +:+ " -> " +:+ d f +:+ " times" +:+ nl) freq.

Definition main_freq (line : string) : C unit unit :=
  str ← lift (read_line line);
  freq ← lift (count_chars str);
  print_freq (λ f, negb (f =? 0)) (λ c f, of_chars [c] +:+ " -> " +:+ d f +:+ nl) freq.

End Frequencies.

(** ** [first_non_repeating_char.c] *)
Module FirstNonRepeating.

(** [for (int i = 0; i < str[i]; i++)]; the terminator is read as well. *)
Fixpoint find (fuel : nat) (str : list char) (freq : list Z) (i : Z) : res (option char) :=
  match fuel with
  | O => UB OutOfFuel
  | S fuel =>
      c ← (if i =? len str then Ok (chr 0) else aget str i);
      if i <? char_index c then
        f ← aget freq (char_index c);
        if f =? 1 then Ok (Some c) else find fuel str freq (i + 1)
      else Ok None
  end.

Definition main (line : string) : C unit unit :=
  printf "Enter string:" ;;
  str ← lift (read_line line);
  freq ← lift (count_chars str);
  r ← lift (find (S (length str)) str freq 0);
  printf (match r with Some c => of_chars [c] | None => "No Non repeating character" end).

End FirstNonRepeating.

(** ** [count_char_word_space.c] and [count_vowels_constant.c] *)
Module Counting.

Definition count (str : list char) : Z * Z :=
  foldl (λ p c, let '(character, space_) := p in
    if char_eqb c space then (character, space_ + 1) else (character + 1, space_)) (0, 0) str.

Definition main_words : C unit unit :=
  let '(character, space_) := count (chars "Rahul bansal is engineer") in
  printf ("character = " +:+ d character +:+ ", space = " +:+ d space_ +:+ " and word = " +:+ d (space_ + 1)).

Definition tolower (c : char) : char :=
  let n := Ascii.nat_of_ascii c in if Nat.leb 65 n && Nat.leb n 90 then chr (n + 32) else c.

Definition isalpha (c : char) : bool :=
  let n := Ascii.nat_of_ascii c in Nat.leb 65 n && Nat.leb n 90 || Nat.leb 97 n && Nat.leb n 122.

Definition is_vowel (c : char) : bool := existsb (Nat.eqb (Ascii.nat_of_ascii c)) [97; 101; 105; 111; 117]%nat.

Definition vowels (str : list char) : Z * Z :=
  foldl (λ p c, let '(vowel, cons_) := p in
    let ch := tolower c in
    if isalpha ch then if is_vowel ch then (vowel + 1, cons_) else (vowel, cons_ + 1) else (vowel, cons_)) (0, 0) str.

Definition main_vowels : C unit unit :=
  let '(vowel, cons_) := vowels (chars "Rahul bansal") in
  printf ("Total vowels= " +:+ d vowel +:+ " " +:+ nl +:+ "and consonant= " +:+ d cons_).

End Counting.

(** ** [simple.c] *)
Module Tokens.

(** [strtok]: the tokens between runs of delimiters. *)
Fixpoint strtok_all (delim : char) (str token : list char) : list (list char) :=
  match str with
  | [] => match token with [] => [] | _ => [token] end
  | c :: str =>
      if char_eqb c delim then match token with [] => strtok_all delim str [] | _ => token :: strtok_all delim str [] end
      else strtok_all delim str (token ++ [c])
  end.

Definition main : C unit unit := for_each (λ t, printf (of_chars t)) (strtok_all (chr 44) (chars "a,b,c,d") []).

End Tokens.

(** ** What the programs compute *)
Module StringSpec.
Import ReverseString.

(** *** Reversal *)

Lemma swap_ends (a m b : list char) x y :
  swap (a ++ x :: m ++ y :: b) (Z.of_nat (length a)) (Z.of_nat (length a + S (length m))) = Ok (a ++ y :: m ++ x :: b).
Proof.
  unfold swap. rewrite (aget_lookup _ (length a) x) by (by rewrite lookup_app_r, Nat.sub_diag by lia). cbn.
  assert ((a ++ x :: m ++ y :: b) !! (length a + S (length m))%nat = Some y) as Hy.
  { rewrite app_comm_cons, app_assoc, lookup_app_r by (rewrite length_app; cbn; lia). rewrite length_app. cbn [length]. by rewrite Nat.sub_diag. }
  rewrite (aget_lookup _ _ y Hy). cbn. rewrite aset_nat by (rewrite length_app; cbn; lia). cbn. rewrite insert_app_r_alt, Nat.sub_diag by lia. cbn.
  rewrite aset_nat by (rewrite length_app; cbn; rewrite length_app; cbn; lia).
  rewrite app_comm_cons, app_assoc, insert_app_r_alt by (rewrite length_app; cbn; lia). rewrite length_app. cbn [length]. rewrite Nat.sub_diag. cbn.
  by rewrite <- app_assoc.
Qed.

(** The part between [l] and [r] is reversed, the rest stays. *)
Lemma reverse_loop_ok fuel (a m b : list char) :
  (length m ≤ 2 * fuel + 1)%nat →
  reverse_loop fuel (a ++ m ++ b) (Z.of_nat (length a)) (Z.of_nat (length a + length m) - 1) = Ok (a ++ list.reverse m ++ b).
Proof.
  revert a m b. induction fuel as [|fuel IH]; intros a m b Hf; cbn [reverse_loop].
  - destruct (Z.ltb_spec (Z.of_nat (length a)) (Z.of_nat (length a + length m) - 1)); [lia|]. destruct m as [|x [|y m]]; [done|done|cbn in Hf; lia].
  - destruct (Z.ltb_spec (Z.of_nat (length a)) (Z.of_nat (length a + length m) - 1)) as [Hlt|Hge]; [|destruct m as [|x [|y m]]; [done|done|cbn in Hge; lia]].
    destruct m as [|x m]; [cbn in Hlt; lia|]. destruct m as [|y m _] using rev_ind; [cbn in Hlt; lia|]. cbn [length] in *. rewrite length_app in *. cbn [length] in *.
    replace (Z.of_nat (length a + S (length m + 1)) - 1) with (Z.of_nat (length a + S (length m))) by lia. rewrite reverse_cons, reverse_app, <- !app_assoc. change ((x :: m ++ [y]) ++ b) with (x :: (m ++ [y]) ++ b). rewrite <- app_assoc. cbn [app].
    rewrite swap_ends. unfold mbind, res_bind. cbv beta iota. specialize (IH (a ++ [y]) m (x :: b)). rewrite length_app in IH. cbn [length] in IH. rewrite <- app_assoc in IH. cbn [app] in IH.
    replace (Z.of_nat (length a) + 1) with (Z.of_nat (length a + 1)) by lia. replace (Z.of_nat (length a + S (length m)) - 1) with (Z.of_nat (length a + 1 + length m) - 1) by lia.
    rewrite IH by lia. by rewrite <- app_assoc, reverse_singleton.
Qed.

Lemma reverse_ok (a m b : list char) l r :
  l = Z.of_nat (length a) → r = Z.of_nat (length a + length m) - 1 → reverse (a ++ m ++ b) l r = Ok (a ++ list.reverse m ++ b).
Proof. intros -> ->. unfold reverse. apply reverse_loop_ok. lia. Qed.

(** *** Words *)

(** Every word reversed: [acc] is the part of the current word that was read. *)
Fixpoint reverse_each (acc str : list char) : list char :=
  match str with
  | [] => list.reverse acc
  | c :: str => if char_eqb c space then list.reverse acc ++ c :: reverse_each [] str else reverse_each (acc ++ [c]) str
  end.

Lemma word_step_char pre acc c rest :
  c ≠ chr 0 →
  ReverseWord.word_step (Z.of_nat (length pre + length acc)) (pre ++ acc ++ c :: rest, Z.of_nat (length pre)) =
  Ok (if char_eqb c space then (pre ++ list.reverse acc ++ c :: rest, Z.of_nat (length pre + length acc) + 1)
      else (pre ++ acc ++ c :: rest, Z.of_nat (length pre))).
Proof.
  intros Hc0%Ascii.eqb_neq. unfold ReverseWord.word_step, len. rewrite !length_app. cbn [length].
  destruct (Z.ltb_spec (Z.of_nat (length pre + length acc)) (Z.of_nat (length pre + (length acc + S (length rest))))); [|lia].
  rewrite (aget_lookup _ _ c).
  2:{ rewrite lookup_app_r by lia. rewrite lookup_app_r by lia. by replace (length pre + length acc - length pre - length acc)%nat with 0%nat by lia. }
  unfold mbind, res_bind. cbv beta iota. unfold char_eqb at 2. rewrite Hc0, orb_false_r. destruct (char_eqb c space); [|done].
  by rewrite (reverse_ok pre acc (c :: rest)) by lia.
Qed.

Lemma word_loop_ok (pre acc rest : list char) :
  Forall (λ c, c ≠ chr 0) rest →
  ∃ j, loop ReverseWord.word_step (S (length rest)) (Z.of_nat (length pre + length acc)) (pre ++ acc ++ rest, Z.of_nat (length pre)) =
       Ok (pre ++ reverse_each acc rest, j).
Proof.
  intros Hz. revert pre acc. induction Hz as [|c rest Hc _ IH]; intros pre acc.
  - cbn [length loop]. unfold ReverseWord.word_step, len. rewrite !length_app. cbn [length].
    destruct (Z.ltb_spec (Z.of_nat (length pre + length acc)) (Z.of_nat (length pre + (length acc + 0)))); [lia|].
    cbn. rewrite (reverse_ok pre acc []) by lia. cbn. rewrite app_nil_r. by eexists.
  - change (length (c :: rest)) with (S (length rest)). set (n := S (length rest)) in *. cbn [loop]. rewrite word_step_char by done.
    unfold mbind, res_bind. cbv beta iota. cbn [reverse_each]. destruct (char_eqb c space).
    + destruct (IH (pre ++ list.reverse acc ++ [c]) []) as [j Hj]. exists j.
      rewrite !length_app, length_reverse in Hj. cbn [length] in Hj. rewrite <- !app_assoc in Hj. cbn [app] in Hj.
      replace (Z.of_nat (length pre + length acc) + 1) with (Z.of_nat (length pre + (length acc + 1))) by lia. by rewrite Nat.add_0_r in Hj.
    + destruct (IH pre (acc ++ [c])) as [j Hj]. exists j. rewrite length_app in Hj. cbn [length] in Hj. rewrite <- app_assoc in Hj. cbn [app] in Hj.
      by replace (Z.of_nat (length pre + length acc) + 1) with (Z.of_nat (length pre + (length acc + 1))) by lia.
Qed.

Lemma reverse_words_ok str : Forall (λ c, c ≠ chr 0) str → ReverseWord.reverse_words str = Ok (reverse_each [] str).
Proof.
  intros Hz. unfold ReverseWord.reverse_words, for_to. destruct (word_loop_ok [] [] str Hz) as [j Hj]. cbn [length app Nat.add] in Hj.
  replace (Z.to_nat (len str + 1 - 0)) with (S (length str)) by (unfold len; lia). change 0 with (Z.of_nat 0). rewrite Hj. done.
Qed.

Lemma char_eqb_neq c d : c ≠ d → char_eqb c d = false.
Proof. apply Ascii.eqb_neq. Qed.

(** A word in front of the rest. *)
Lemma reverse_each_word acc w rest :
  Forall (λ c, c ≠ space) w → reverse_each acc (w ++ rest) = reverse_each (acc ++ w) rest.
Proof.
  intros Hw. revert acc. induction Hw as [|c w Hc _ IH]; intros acc; [by rewrite app_nil_r|].
  cbn [app reverse_each]. rewrite char_eqb_neq by done. by rewrite IH, <- app_assoc.
Qed.

(** A string is a word, or a word, a space and a rest. *)
Lemma word_cases (str : list char) :
  Forall (λ c, c ≠ space) str ∨ ∃ w rest, str = w ++ space :: rest ∧ Forall (λ c, c ≠ space) w ∧ (length rest < length str)%nat.
Proof.
  induction str as [|c str IH]; [by left|]. destruct (decide (c = space)) as [->|Hc].
  { right. exists [], str. split_and!; [done|constructor|cbn; lia]. }
  destruct IH as [IH|(w & rest & -> & Hw & Hl)]; [by left; constructor|].
  right. exists (c :: w), rest. split_and!; [done|by constructor|cbn in *; lia].
Qed.

Lemma reverse_each_involutive str : reverse_each [] (reverse_each [] str) = str.
Proof.
  remember (length str) as n eqn:Hn. revert str Hn. induction n as [n IH] using lt_wf_ind. intros str ->.
  destruct (word_cases str) as [Hw|(w & rest & -> & Hw & Hl)].
  - rewrite <- (app_nil_r str) at 1. rewrite reverse_each_word by done. cbn [app reverse_each].
    rewrite <- (app_nil_r (list.reverse str)). rewrite reverse_each_word by (by apply Forall_reverse). cbn [app reverse_each]. apply reverse_involutive.
  - rewrite reverse_each_word by done. cbn [app reverse_each]. unfold char_eqb at 1. rewrite Ascii.eqb_refl.
    rewrite reverse_each_word by (by apply Forall_reverse). cbn [app reverse_each]. unfold char_eqb at 1. rewrite Ascii.eqb_refl.
    by rewrite (IH _ Hl _ eq_refl), reverse_involutive.
Qed.

(** *** Palindromes *)

Lemma palindrome_loop_ok fuel (a m b : list char) :
  (length m ≤ 2 * fuel + 1)%nat →
  Palindrome.palindrome_loop fuel (a ++ m ++ b) (Z.of_nat (length a)) (Z.of_nat (length a + length m) - 1) = Ok (bool_decide (m = list.reverse m)).
Proof.
  revert a m b. induction fuel as [|fuel IH]; intros a m b Hf; cbn [Palindrome.palindrome_loop].
  - destruct (Z.ltb_spec (Z.of_nat (length a)) (Z.of_nat (length a + length m) - 1)); [lia|]. destruct m as [|x [|y m]]; [done| |cbn in Hf; lia].
    by rewrite bool_decide_eq_true_2.
  - destruct (Z.ltb_spec (Z.of_nat (length a)) (Z.of_nat (length a + length m) - 1)) as [Hlt|Hge].
    2:{ destruct m as [|x [|y m]]; [done| |cbn in Hge; lia]. by rewrite bool_decide_eq_true_2. }
    destruct m as [|x m]; [cbn in Hlt; lia|]. destruct m as [|y m _] using rev_ind; [cbn in Hlt; lia|]. cbn [length] in *. rewrite length_app in *. cbn [length] in *.
    replace (Z.of_nat (length a + S (length m + 1)) - 1) with (Z.of_nat (length a + S (length m))) by lia.
    rewrite reverse_cons, reverse_app, reverse_singleton. change ((x :: m ++ [y]) ++ b) with (x :: (m ++ [y]) ++ b). rewrite <- app_assoc. cbn [app].
    rewrite (aget_lookup _ (length a) x) by (by rewrite lookup_app_r, Nat.sub_diag by lia).
    rewrite (aget_lookup _ (length a + S (length m)) y).
    2:{ rewrite lookup_app_r by lia. replace (length a + S (length m) - length a)%nat with (S (length m)) by lia. change ((m ++ y :: b) !! length m = Some y). by rewrite lookup_app_r, Nat.sub_diag by lia. }
    unfold mbind, res_bind. cbv beta iota. unfold char_eqb. destruct (Ascii.eqb_spec x y) as [->|Hne]; cbn [negb].
    + specialize (IH (a ++ [y]) m (y :: b)). rewrite length_app in IH. cbn [length] in IH. rewrite <- app_assoc in IH. cbn [app] in IH.
      replace (Z.of_nat (length a) + 1) with (Z.of_nat (length a + 1)) by lia. replace (Z.of_nat (length a + S (length m)) - 1) with (Z.of_nat (length a + 1 + length m) - 1) by lia.
      rewrite IH by lia. f_equal. apply bool_decide_ext. split; [intros Hm; by rewrite <- Hm|]. intros [= H]. by apply app_inj_tail in H as [H _].
    + rewrite bool_decide_eq_false_2; [done|]. by intros [= -> _].
Qed.

(** The palindrome test compares the string with its reversal. *)
Lemma palindrome_ok (str : list char) : Palindrome.palindrome str = Ok (bool_decide (str = list.reverse str)).
Proof.
  unfold Palindrome.palindrome. pose proof (palindrome_loop_ok (length str) [] str []) as H. rewrite !app_nil_r in H. apply H. lia.
Qed.

(** *** Counting *)

(** The number of occurrences of a character. *)
Definition count (str : list char) (c : char) : Z := Z.of_nat (count_occ Ascii.ascii_dec str c).

(** [freq] holds the number [g c] for every character. *)
Definition tallies (freq : list Z) (g : char → Z) : Prop :=
  length freq = 256%nat ∧ ∀ c, freq !! Ascii.nat_of_ascii c = Some (g c).

(** A seven-bit character. *)
Definition ascii7 (c : char) : Prop := (Ascii.nat_of_ascii c < 128)%nat.

Lemma tallies_zero : tallies (replicate 256 0) (λ _, 0).
Proof. split; [done|]. intros c. apply lookup_replicate_2, Ascii.nat_ascii_bounded. Qed.

Lemma tallies_ext freq g h : (∀ c, g c = h c) → tallies freq g → tallies freq h.
Proof. intros He [Hl Hg]. split; [done|]. intros c. by rewrite <- He. Qed.

Lemma nat_of_ascii_inj a b : Ascii.nat_of_ascii a = Ascii.nat_of_ascii b → a = b.
Proof. intros H. by rewrite <- (Ascii.ascii_nat_embedding a), H, Ascii.ascii_nat_embedding. Qed.

Lemma count_cons_Z c a str : count (a :: str) c = count [a] c + count str c.
Proof. unfold count. cbn. destruct (Ascii.ascii_dec a c); lia. Qed.

Lemma add_counts_ok k str freq g :
  Forall ascii7 str → tallies freq g → ∃ freq', add_counts k str freq = Ok freq' ∧ tallies freq' (λ c, g c + k * count str c).
Proof.
  intros Hs. revert freq g. induction Hs as [|a str Ha _ IH]; intros freq g Hg.
  { exists freq. split; [done|]. eapply tallies_ext, Hg. intros c. unfold count. cbn [count_occ]. lia. }
  pose proof Hg as [Hl Hf]. unfold ascii7 in Ha. cbn [add_counts]. unfold char_index.
  replace (Z.of_nat (Ascii.nat_of_ascii a) <? 128) with true by (symmetry; apply Z.ltb_lt; lia).
  rewrite (aget_lookup _ _ _ (Hf a)). unfold mbind at 1, res_bind at 1. rewrite aset_nat by lia. unfold mbind, res_bind. cbv beta iota.
  destruct (IH (<[Ascii.nat_of_ascii a := g a + k]> freq) (λ c, g c + k * count [a] c)) as (freq' & He & Ht).
  - split; [by rewrite length_insert|]. intros c. unfold count. cbn. destruct (Ascii.ascii_dec a c) as [->|Hne].
    + rewrite list_lookup_insert_eq by lia. f_equal. lia.
    + rewrite list_lookup_insert_ne by (by intros ?%nat_of_ascii_inj). rewrite Hf. f_equal. lia.
  - exists freq'. split; [exact He|]. eapply tallies_ext, Ht. intros c. rewrite (count_cons_Z c a str). cbv beta. lia.
Qed.

Lemma count_both_ok str1 str2 freq g :
  length str1 = length str2 → Forall ascii7 str1 → Forall ascii7 str2 → tallies freq g →
  ∃ freq', Anagram.count_both str1 str2 freq = Ok freq' ∧ tallies freq' (λ c, g c + count str1 c - count str2 c).
Proof.
  revert str2 freq g. induction str1 as [|a str1 IH]; intros [|b str2] freq g Hl H1 H2 Hg; try done.
  { exists freq. split; [done|]. eapply tallies_ext, Hg. intros c. unfold count. cbn [count_occ]. lia. }
  apply Forall_cons in H1 as [Ha H1], H2 as [Hb H2]. cbn [Anagram.count_both].
  destruct (add_counts_ok 1 [a] freq g) as (f1 & -> & Hg1); [by constructor|done|].
  destruct (add_counts_ok (-1) [b] f1 _ ltac:(by constructor) Hg1) as (f2 & E2 & Hg2).
  unfold mbind, res_bind. cbv beta iota. rewrite E2.
  destruct (IH str2 f2 _ ltac:(by injection Hl) H1 H2 Hg2) as (f3 & E3 & Hg3). exists f3. split; [done|].
  eapply tallies_ext, Hg3. intros c. cbv beta. rewrite (count_cons_Z c a str1), (count_cons_Z c b str2). lia.
Qed.

(** A test of every counter is a test of every character. *)
Lemma tallies_forallb freq g (p : Z → bool) : tallies freq g → forallb p freq = true ↔ ∀ c, p (g c) = true.
Proof.
  intros [Hl Hg]. rewrite forallb_forall. split.
  - intros H c. apply H, list_elem_of_In. by eapply list_elem_of_lookup_2.
  - intros H x Hx%list_elem_of_In. apply list_elem_of_lookup in Hx as [i Hi].
    pose proof (lookup_lt_Some _ _ _ Hi). pose proof (Hg (Ascii.ascii_of_nat i)) as Hc.
    rewrite Ascii.nat_ascii_embedding in Hc by lia. rewrite Hi in Hc. injection Hc as ->. apply H.
Qed.

Lemma count_perm str1 str2 : (∀ c, count str1 c = count str2 c) ↔ str1 ≡ₚ str2.
Proof. rewrite (Permutation_count_occ Ascii.ascii_dec). unfold count. split; intros H c; specialize (H c); lia. Qed.

(** Two seven-bit strings are anagrams exactly when one permutes the other. *)
Lemma anagram_ok str1 str2 :
  Forall ascii7 str1 → Forall ascii7 str2 → ∃ b : bool, Anagram.anagram str1 str2 = Ok b ∧ (b = true ↔ str1 ≡ₚ str2).
Proof.
  intros H1 H2. unfold Anagram.anagram, len. destruct (Z.eqb_spec (Z.of_nat (length str1)) (Z.of_nat (length str2))) as [Hl|Hl]; cbn [negb].
  - destruct (count_both_ok str1 str2 _ _ ltac:(lia) H1 H2 tallies_zero) as (freq & -> & Ht). eexists. split; [reflexivity|].
    rewrite (tallies_forallb _ _ _ Ht), <- count_perm. split; intros H c; specialize (H c); lia.
  - exists false. split; [done|]. split; [done|]. intros Hp%Permutation_length. lia.
Qed.

(** No counter reaches two exactly when no character occurs twice. *)
Lemma unique_ok str :
  Forall ascii7 str → ∃ freq, count_chars str = Ok freq ∧ (existsb (λ f, f >=? 2) freq = false ↔ NoDup str).
Proof.
  intros Hs. destruct (add_counts_ok 1 str _ _ Hs tallies_zero) as (freq & Hf & Ht). exists freq. split; [done|].
  rewrite NoDup_ListNoDup, (NoDup_count_occ Ascii.ascii_dec).
  assert (existsb (λ f, f >=? 2) freq = negb (forallb (λ f, f <? 2) freq)) as ->.
  { clear. induction freq as [|f freq IH]; [done|]. cbn. rewrite IH, negb_andb. f_equal. lia. }
  rewrite negb_false_iff, (tallies_forallb _ _ _ Ht). unfold count. split; intros H c; specialize (H c); lia.
Qed.

End StringSpec.

(** ** Theorems *)
Import StringSpec.

Lemma reverse_each_nonzero acc str :
  Forall (λ c, c ≠ chr 0) acc → Forall (λ c, c ≠ chr 0) str → Forall (λ c, c ≠ chr 0) (reverse_each acc str).
Proof.
  intros Ha Hs. revert acc Ha. induction Hs as [|c str Hc _ IH]; intros acc Ha; cbn [reverse_each]; [by apply Forall_reverse|].
  destruct (char_eqb c space).
  - apply Forall_app. split; [by apply Forall_reverse|]. constructor; [done|]. by apply IH.
  - apply IH, Forall_app. by split; [|constructor].
Qed.

(** Reversing the words of a string (reverse_word.c) always succeeds, and
    doing it a second time gives the string back: the spaces stay where they are
    and no character is lost. *)
Theorem reverse_words_twice str :
  Forall (λ c, c ≠ chr 0) str →
  (str' ← ReverseWord.reverse_words str; ReverseWord.reverse_words str') = Ok str.
Proof.
  intros Hs. rewrite (reverse_words_ok str Hs). unfold mbind, res_bind.
  rewrite reverse_words_ok by (by apply reverse_each_nonzero). by rewrite reverse_each_involutive.
Qed.

Lemma reverse_words_twice_witness :
  (str' ← ReverseWord.reverse_words (chars "one two"); ReverseWord.reverse_words str') = Ok (chars "one two").
Proof. apply reverse_words_twice. repeat (constructor; [vm_compute; discriminate|]). constructor. Defined.

Example words_reversed : ReverseWord.reverse_words (chars "one two") = Ok (chars "eno owt").
Proof. by vm_compute. Qed.

(** On seven-bit strings anagram.c says yes exactly when one string is a
    permutation of the other; it never reads outside its array. *)
Theorem anagram_correct str1 str2 :
  Forall ascii7 str1 → Forall ascii7 str2 →
  ∃ b : bool, Anagram.anagram str1 str2 = Ok b ∧ (b = true ↔ str1 ≡ₚ str2).
Proof. apply anagram_ok. Qed.

Lemma anagram_correct_witness :
  ∃ b : bool, Anagram.anagram (chars "silent") (chars "listen") = Ok b ∧ (b = true ↔ chars "silent" ≡ₚ chars "listen").
Proof. apply (anagram_correct (chars "silent") (chars "listen")); repeat (constructor; [vm_compute; lia|]); constructor. Defined.

(** ** Defects *)

(** rotate_string_k_times.c:32 reverses from [k + 1], so the character at [k]
    keeps its place in the second step: rotating abcd by one should give bcda. *)
Lemma rotate_wrong : RotateString.rotate (chars "abcd") 1 = Ok (chars "cdba").
Proof. by vm_compute. Qed.

(** rotate_string_k_times.c:29 divides by the length. *)
Lemma rotate_empty k : RotateString.rotate [] k = UB DivByZero.
Proof. done. Qed.

(** first_non_repeating_char.c:15 runs while [i < str[i]], not up to the end:
    the only space, behind forty letters, is not found. *)
Definition late_space : string := String.string_of_list_ascii (replicate 40 (chr 97) ++ [space]).

Lemma first_non_repeating_misses :
  FirstNonRepeating.main late_space tt = Ok (tt, tt, ["Enter string:"; "No Non repeating character"]%string).
Proof. by vm_compute. Qed.

(** The counting programs index [freq] with a signed [char]: a character above
    127 is a negative index. *)
Lemma signed_index : count_chars [chr 200] = UB OutOfBounds.
Proof. by vm_compute. Qed.
