(* ===== verification/Latch.v ===== *)
(** * The futex latch: [concurrency-and-multithreading/latch_demo_using_futex.c]
    and [futex.c]

    [Latch] models the latch and the threads that count under it, one step for
    every access to shared memory and for every system call; [FutexDemo] is the
    program of one waiter and one signaler.  The kernel's part is the queue of
    sleeping threads: [FUTEX_WAIT] compares and falls asleep in one step,
    [FUTEX_WAKE] wakes one sleeper if there is one, and a sleeper may also return
    by itself or because of a signal. *)
From stdpp Require Import base list relations strings pretty.
From Stdlib Require Import ZArith Lia.
From S2P Require Import Prelude BoundedBuffer.

Module Latch.

Definition NUMBER_OF_THREADS : nat := 4.
Definition INCREMENTS : nat := Z.to_nat 100000.
Definition SPINS : nat := 100.

(** Where a worker is in iteration [it]: in [latch_acquire] before the first
    compare-and-exchange, in the spin loop before the load or the exchange,
    before [futex_wait], inside it, after it; in the critical section before
    the load or the store of the counter; in [latch_release] before the store or
    [futex_wake]; before the progress message; returned. *)
Inductive pc : Set :=
  | FastCas (it : nat)
  | SpinLoad (it spin : nat)
  | SpinCas (it spin : nat)
  | CallWait (it : nat)
  | Asleep (it : nat)
  | WokenCas (it : nat)
  | ReadCounter (it : nat)
  | WriteCounter (it : nat) (value : Z)
  | StoreFree (it : nat)
  | CallWake (it : nat)
  | Progress (it : nat)
  | Done.

#[export] Instance pc_eq_dec : EqDecision pc.
Proof. solve_decision. Defined.

Record config : Set := mkconfig { state : Z; shared_counter : Z; threads : list pc; out : list string }.

Definition is_asleep (p : pc) : bool := match p with Asleep _ => true | _ => false end.

(** A sleeper that was woken returns 0 from [futex_wait]. *)
Definition wake (p : pc) : pc := match p with Asleep it => WokenCas it | _ => p end.

(** [futex_wake(&state, 1)]; [j] is the thread it wakes. *)
Definition futex_wake (j : nat) (l : list pc) : option (list pc) := Buffer.signal is_asleep wake j l.

(** The test of [worker]'s loop, and the message behind it. *)
Definition loop_top (limit it : nat) : pc := if it <? limit then FastCas it else Done.
Definition finished (limit it t : nat) : list string :=
  if it <? limit then [] else [("Thread " +:+ d (Z.of_nat (t + 1)) +:+ " finished" +:+ nl)%string].

Definition progress (limit it t : nat) : list string :=
  if (Z.of_nat it mod 25000 =? 0)%Z then
    [("Thread " +:+ d (Z.of_nat (t + 1)) +:+ ": progress " +:+ d (Z.of_nat it) +:+ "/" +:+ d (Z.of_nat limit) +:+ nl)%string]
  else [].

(** [for (spin = 0; spin < 100; ++spin)], then the slow path. *)
Definition spin_top (it spin : nat) : pc := if spin <? SPINS then SpinLoad it spin else CallWait it.

(** [atomic_compare_exchange_strong(&state, &expected, 1)] with [expected] 0. *)
Definition cas (s : Z) : bool * Z := if (s =? 0)%Z then (true, 1%Z) else (false, s).

Definition set_thread (t : nat) (p : pc) (c : config) : config :=
  mkconfig (state c) (shared_counter c) (<[t := p]> (threads c)) (out c).

(** The exchange, and where it leads. *)
Definition try_acquire (t : nat) (yes no : pc) (c : config) : config :=
  let '(b, s) := cas (state c) in mkconfig s (shared_counter c) (<[t := if b then yes else no]> (threads c)) (out c).

(** One step of thread [t]; a wake-up goes to thread [j]. *)
Definition thread_step (limit t j : nat) (p : pc) (c : config) : option config :=
  match p with
  | FastCas it => Some (try_acquire t (ReadCounter it) (spin_top it 0) c)
  | SpinLoad it spin =>
      Some (set_thread t (if (state c =? 0)%Z then SpinCas it spin else spin_top it (spin + 1)) c)
  | SpinCas it spin => Some (try_acquire t (ReadCounter it) (spin_top it (spin + 1)) c)
  | CallWait it =>
      (* the value is not 1: EAGAIN, and the loop starts again *)
      Some (set_thread t (if (state c =? 1)%Z then Asleep it else CallWait it) c)
  | Asleep _ => None
  | WokenCas it => Some (try_acquire t (ReadCounter it) (CallWait it) c)
  | ReadCounter it => Some (set_thread t (WriteCounter it (shared_counter c + 1)) c)
  | WriteCounter it v => Some (mkconfig (state c) v (<[t := StoreFree it]> (threads c)) (out c))
  | StoreFree it => Some (mkconfig 0 (shared_counter c) (<[t := CallWake it]> (threads c)) (out c))
  | CallWake it =>
      l ← futex_wake j (threads c); Some (mkconfig (state c) (shared_counter c) (<[t := Progress it]> l) (out c))
  | Progress it =>
      Some (mkconfig (state c) (shared_counter c) (<[t := loop_top limit (it + 1)]> (threads c))
        (out c ++ progress limit it t ++ finished limit (it + 1) t))
  | Done => None
  end.

(** Who moves: a thread, or a sleeper whose call ends by itself ([true]) or with
    [EINTR] ([false]). *)
Inductive action : Set := Step (t j : nat) | Return (t : nat) (spurious : bool).

Definition act (limit : nat) (a : action) (c : config) : option config :=
  match a with
  | Step t j => p ← threads c !! t; thread_step limit t j p c
  | Return t spurious =>
      match threads c !! t with
      | Some (Asleep it) => Some (set_thread t (if spurious then WokenCas it else CallWait it) c)
      | _ => None
      end
  end.

Definition step (limit : nat) (c c' : config) : Prop := ∃ a, act limit a c = Some c'.

(** After [latch_init] and the creation of the threads. *)
Definition start (limit n : nat) : config :=
  mkconfig 0 0 (replicate n (loop_top limit 0)) (seq 0 n ≫= finished limit 0).

Definition reachable (limit n : nat) (c : config) : Prop := rtc (step limit) (start limit n) c.

Definition all_done (c : config) : bool := forallb (λ p, bool_decide (p = Done)) (threads c).

(** [main] joins the workers and prints. *)
Definition report (c : config) : string :=
  ("All threads done. Expected counter=" +:+ d (Z.of_nat (NUMBER_OF_THREADS * INCREMENTS)) +:+ ", actual="
    +:+ d (shared_counter c) +:+ nl)%string.

Fixpoint run (limit : nat) (l : list action) (c : config) : option config :=
  match l with [] => Some c | a :: l => match act limit a c with Some c' => run limit l c' | None => None end end.

End Latch.

Module LatchSpec.
Import Latch.

#[local] Arguments Nat.ltb : simpl never.
#[local] Arguments Z.eqb : simpl never.

(** A thread that has the latch, that is about to wake a sleeper, and that was
    woken. *)
Definition holds (p : pc) : bool := match p with ReadCounter _ | WriteCounter _ _ | StoreFree _ => true | _ => false end.
Definition waking (p : pc) : bool := match p with CallWake _ => true | _ => false end.
Definition woken (p : pc) : bool := match p with WokenCas _ => true | _ => false end.

Definition number (f : pc → bool) (c : config) : nat := sum_list_with (Nat.b2n ∘ f) (threads c).

(** The increments a thread has made. *)
Definition made (limit : nat) (p : pc) : nat :=
  match p with
  | FastCas it | SpinLoad it _ | SpinCas it _ | CallWait it | Asleep it | WokenCas it | ReadCounter it | WriteCounter it _ => it
  | StoreFree it | CallWake it | Progress it => S it
  | Done => limit
  end.

(** A thread in iteration [it] has not made all increments. *)
Definition in_range (limit : nat) (p : pc) : Prop :=
  match p with StoreFree it | CallWake it | Progress it => S it ≤ limit | Done => True | p => made limit p < limit end.

Record inv (limit : nat) (c : config) : Prop := mkinv {
  inv_state : state c = Z.of_nat (number holds c);
  inv_mutex : number holds c ≤ 1;
  inv_counter : shared_counter c = Z.of_nat (sum_list_with (made limit) (threads c));
  inv_write t it v : threads c !! t = Some (WriteCounter it v) → v = (shared_counter c + 1)%Z;
  inv_range t p : threads c !! t = Some p → in_range limit p;
  inv_wake : 0 < number is_asleep c → (state c = 1)%Z ∨ 0 < number waking c ∨ 0 < number woken c
}.

(** Poses how the sums change when thread [t] goes from [p] to [q]. *)
Ltac account limit t p q Ht :=
  pose proof (sum_with_insert (Nat.b2n ∘ holds) _ t p q Ht);
  pose proof (sum_with_insert (Nat.b2n ∘ is_asleep) _ t p q Ht);
  pose proof (sum_with_insert (Nat.b2n ∘ waking) _ t p q Ht);
  pose proof (sum_with_insert (Nat.b2n ∘ woken) _ t p q Ht);
  pose proof (sum_with_insert (made limit) _ t p q Ht).

Lemma sum_replicate {A} (f : A → nat) n x : sum_list_with f (replicate n x) = n * f x.
Proof. induction n as [|n IH]; simpl; [done|]. by rewrite IH. Qed.

Lemma latch_inv_start limit n : inv limit (start limit n).
Proof.
  assert (∀ f : pc → bool, f (FastCas 0) = false → f Done = false → number f (start limit n) = 0) as Hz.
  { intros f H1 H2. unfold number, start, loop_top. simpl. rewrite sum_replicate. destruct (0 <? limit); simpl; rewrite ?H1, ?H2; simpl; lia. }
  constructor; rewrite ?Hz by done; try done; try lia.
  - unfold start, loop_top. cbn [threads shared_counter]. rewrite sum_replicate. destruct (Nat.ltb_spec 0 limit); simpl; [lia|]. replace limit with 0 by lia. lia.
  - intros t it v. unfold start, loop_top. cbn [threads]. intros [Hp _]%lookup_replicate. by destruct (0 <? limit).
  - intros t p. unfold start, loop_top. cbn [threads]. intros [-> _]%lookup_replicate. by destruct (Nat.ltb_spec 0 limit).
Qed.

Lemma insert_lookup_cases {A} (l : list A) t x u y : <[t := x]> l !! u = Some y → y = x ∨ l !! u = Some y.
Proof. intros [(_ & -> & _)|[_ H]]%list_lookup_insert_Some; [by left|by right]. Qed.

(** A step in which the latch and the counter stay. *)
Lemma inv_local limit c t p q o :
  inv limit c → threads c !! t = Some p → holds q = holds p → made limit q = made limit p → in_range limit q →
  (∀ it v, q = WriteCounter it v → v = (shared_counter c + 1)%Z) →
  (0 < number is_asleep (set_thread t q c) → (state c = 1)%Z ∨ 0 < number waking (set_thread t q c) ∨ 0 < number woken (set_thread t q c)) →
  inv limit (mkconfig (state c) (shared_counter c) (<[t := q]> (threads c)) o).
Proof.
  intros Hi Ht Hh Hm Hr Hw Ha. account limit t p q Ht. destruct Hi as [I1 I2 I3 I4 I5 I6]. unfold number in *. simpl in *. rewrite Hh in *.
  constructor; unfold number; simpl; try lia.
  - intros u it v Hu. apply insert_lookup_cases in Hu as [Hu|Hu]; [by eapply Hw|by eapply I4].
  - intros u r Hu. apply insert_lookup_cases in Hu as [->|Hu]; [done|by eapply I5].
Qed.

(** The compare-and-exchange. *)
Lemma inv_try limit c t p it q :
  inv limit c → threads c !! t = Some p → holds p = false → is_asleep p = false → waking p = false → made limit p = it → it < limit →
  holds q = false → is_asleep q = false → waking q = false → woken q = false → made limit q = it → in_range limit q → (∀ i v, q ≠ WriteCounter i v) →
  inv limit (try_acquire t (ReadCounter it) q c).
Proof.
  intros Hi Ht P1 P2 P3 P4 P5 Q1 Q2 Q3 Q4 Q5 Q6 Q7. unfold try_acquire, cas. destruct (Z.eqb_spec (state c) 0) as [Hs|Hs].
  - account limit t p (ReadCounter it) Ht. destruct Hi as [I1 I2 I3 I4 I5 I6]. unfold number in *. simpl in *. rewrite P1, P2, P3, P4 in *. simpl in *.
    constructor; unfold number; simpl; try lia.
    + intros u i v Hu. apply insert_lookup_cases in Hu as [Hu|Hu]; [done|by eapply I4].
    + intros u r Hu. apply insert_lookup_cases in Hu as [->|Hu]; [simpl; lia|by eapply I5].
  - assert (state c = 1)%Z as Hs1 by (destruct Hi; lia).
    eapply inv_local; [done|exact Ht|congruence|congruence|done| |by left]. intros i v ->. by destruct (Q7 i v).
Qed.

Lemma in_range_spin limit it spin : it < limit → in_range limit (spin_top it spin).
Proof. intros H. unfold spin_top. by destruct (spin <? SPINS). Qed.

Lemma spin_top_ne it spin i v : spin_top it spin ≠ WriteCounter i v.
Proof. unfold spin_top. by destruct (spin <? SPINS). Qed.

Lemma spin_top_facts limit it spin :
  holds (spin_top it spin) = false ∧ is_asleep (spin_top it spin) = false ∧ waking (spin_top it spin) = false ∧
  woken (spin_top it spin) = false ∧ made limit (spin_top it spin) = it.
Proof. unfold spin_top. by destruct (spin <? SPINS). Qed.

Lemma signal_keeps {A} (asleep : A → bool) wake j l l' t (x : A) :
  Buffer.signal asleep wake j l = Some l' → l !! t = Some x → asleep x = false → l' !! t = Some x.
Proof.
  unfold Buffer.signal. destruct (existsb asleep l); [|by intros [= <-]]. destruct (l !! j) as [y|] eqn:Hj; [|done].
  destruct (asleep y) eqn:Hy; [|done]. intros [= <-] Ht Hx. rewrite list_lookup_insert_ne; [done|]. intros ->. congruence.
Qed.

(** [futex_wake] and the return from [latch_release]. *)
Lemma inv_wake_step limit c t it j l :
  inv limit c → threads c !! t = Some (CallWake it) → futex_wake j (threads c) = Some l →
  inv limit (mkconfig (state c) (shared_counter c) (<[t := Progress it]> l) (out c)).
Proof.
  intros Hi Ht Hl. pose proof (signal_keeps _ _ _ _ _ _ _ Hl Ht eq_refl) as Ht'.
  assert (∀ x, is_asleep x = true → is_asleep (wake x) = false ∧ woken x = false ∧ woken (wake x) = true) as Hw by (by intros []).
  destruct (BufferSpec.signal_sum is_asleep woken wake (made limit) j _ l Hw ltac:(by intros []) Hl) as (S1 & _ & S4).
  destruct (BufferSpec.signal_sum is_asleep woken wake (Nat.b2n ∘ holds) j _ l Hw ltac:(by intros []) Hl) as (S2 & _ & _).
  account limit t (CallWake it) (Progress it) Ht'. destruct Hi as [I1 I2 I3 I4 I5 I6]. unfold number in *. simpl in *.
  constructor; unfold number; simpl; try lia.
  - intros u i v Hu. apply insert_lookup_cases in Hu as [Hu|Hu]; [done|]. eapply I4.
    destruct (BufferSpec.signal_lookup _ _ _ _ _ _ _ Hl Hu) as [H'|(y & _ & Hy & Hx)]; [exact H'|by destruct y].
  - intros u r Hu. apply insert_lookup_cases in Hu as [->|Hu]; [exact (I5 t _ Ht)|].
    destruct (BufferSpec.signal_lookup _ _ _ _ _ _ _ Hl Hu) as [H'|(y & Hy & Hs & ->)]; [by eapply I5|].
    pose proof (I5 u y Hy). by destruct y.
  - intros Ha. destruct S4 as [[Hz ->]|[Hz1 Hz2]]; lia.
Qed.

(** Every step keeps the invariant. *)
Lemma latch_inv_act limit a c c' : inv limit c → act limit a c = Some c' → inv limit c'.
Proof.
  intros Hi. destruct a as [t j|t spurious]; simpl.
  2:{ destruct (threads c !! t) as [[]|] eqn:Ht; try done. intros [= <-]. pose proof (inv_range _ _ Hi t _ Ht) as Hr.
      pose proof (inv_wake _ _ Hi) as Hw. account limit t (Asleep it) (if spurious then WokenCas it else CallWait it) Ht. unfold set_thread.
      apply (inv_local limit c t (Asleep it)); try done; destruct spurious; try done; unfold number in *; simpl in *; lia. }
  destruct (threads c !! t) as [p|] eqn:Ht; [|done]. simpl. pose proof (inv_range _ _ Hi t _ Ht) as Hr. pose proof (inv_wake _ _ Hi) as Hw.
  destruct p as [it|it spin|it spin|it|it|it|it|it v|it|it|it|]; simpl; try done.
  - intros [= <-]. destruct (spin_top_facts limit it 0) as (?&?&?&?&?).
    eapply inv_try; [done|exact Ht|done..|by apply in_range_spin|apply spin_top_ne].
  - intros [= <-]. unfold set_thread. destruct (Z.eqb_spec (state c) 0).
    + account limit t (SpinLoad it spin) (SpinCas it spin) Ht. apply (inv_local limit c t (SpinLoad it spin)); try done. unfold number in *. simpl in *. lia.
    + destruct (spin_top_facts limit it (spin + 1)) as (?&?&?&?&?). apply (inv_local limit c t (SpinLoad it spin)); try done.
      * by apply in_range_spin. * intros i v E. by destruct (spin_top_ne it (spin + 1) i v). * left. destruct Hi; lia.
  - intros [= <-]. destruct (spin_top_facts limit it (spin + 1)) as (?&?&?&?&?).
    eapply inv_try; [done|exact Ht|done..|by apply in_range_spin|apply spin_top_ne].
  - intros [= <-]. unfold set_thread. destruct (Z.eqb_spec (state c) 1).
    + apply (inv_local limit c t (CallWait it)); try done. by left.
    + account limit t (CallWait it) (CallWait it) Ht. apply (inv_local limit c t (CallWait it)); try done. unfold number in *. simpl in *. lia.
  - intros [= <-]. eapply inv_try; done.
  - intros [= <-]. account limit t (ReadCounter it) (WriteCounter it (shared_counter c + 1)) Ht. apply (inv_local limit c t (ReadCounter it)); try done.
    + by intros i v [= _ <-]. + unfold number in *. simpl in *. lia.
  - intros [= <-]. account limit t (WriteCounter it v) (StoreFree it) Ht. pose proof (inv_write _ _ Hi _ _ _ Ht) as ->.
    destruct Hi as [I1 I2 I3 I4 I5 I6]. unfold number in *. simpl in *. constructor; unfold number; simpl; try lia.
    + intros u i v Hu. apply list_lookup_insert_Some in Hu as [(_ & Hu & _)|[Hne Hu]]; [done|].
      pose proof (sum_with_insert (Nat.b2n ∘ holds) _ u _ Done Hu). pose proof (sum_with_insert (Nat.b2n ∘ holds) (<[u := Done]> (threads c)) t (WriteCounter it (shared_counter c + 1)) Done) as Hs.
      rewrite list_lookup_insert_ne in Hs by done. specialize (Hs Ht). simpl in *. lia.
    + intros u r Hu. apply insert_lookup_cases in Hu as [->|Hu]; [simpl; lia|by eapply I5].
  - intros [= <-]. account limit t (StoreFree it) (CallWake it) Ht. destruct Hi as [I1 I2 I3 I4 I5 I6]. unfold number in *. simpl in *.
    constructor; unfold number; simpl; try lia.
    + intros u i v Hu. apply insert_lookup_cases in Hu as [Hu|Hu]; [done|by eapply I4].
    + intros u r Hu. apply insert_lookup_cases in Hu as [->|Hu]; [done|by eapply I5].
  - destruct (futex_wake j (threads c)) as [l|] eqn:Hl; [|done]. simpl. intros [= <-]. by eapply inv_wake_step.
  - intros [= <-]. account limit t (Progress it) (loop_top limit (it + 1)) Ht. unfold loop_top in *. simpl in Hr.
    apply (inv_local limit c t (Progress it)); try done; destruct (Nat.ltb_spec (it + 1) limit); simpl in *; try done; unfold number in *; simpl in *; lia.
Qed.

Lemma latch_inv_steps limit c c' : rtc (step limit) c c' → inv limit c → inv limit c'.
Proof. induction 1 as [|c1 c2 c3 [a Ha] _ IH]; intros Hi; [done|]. by eapply IH, latch_inv_act. Qed.

Lemma latch_inv limit n c : reachable limit n c → inv limit c.
Proof. intros Hr. eapply latch_inv_steps; [exact Hr|apply latch_inv_start]. Qed.

Lemma threads_length limit c c' : rtc (step limit) c c' → length (threads c') = length (threads c).
Proof.
  induction 1 as [|c1 c2 c3 [a Ha] _ IH]; [done|]. rewrite IH. clear IH. destruct a as [t j|t b]; simpl in Ha.
  - destruct (threads c1 !! t) as [p|] eqn:Ht; [|done]. simpl in Ha.
    destruct p; simpl in Ha; simplify_eq; unfold try_acquire, set_thread, cas; simpl; repeat case_match; simplify_eq/=; rewrite ?length_insert; try done.
    destruct (futex_wake j (threads c1)) as [l|] eqn:Hl; simplify_eq/=. rewrite length_insert.
    by destruct (BufferSpec.signal_sum is_asleep woken wake (λ _, 0) j _ l ltac:(by intros []) ltac:(done) Hl) as (_ & ? & _).
  - destruct (threads c1 !! t) as [[]|]; simplify_eq/=. by rewrite length_insert.
Qed.

(** *** When nothing happens any more *)

(** A thread that can do something other than to call [futex_wait]. *)
Definition busy (p : pc) : bool := match p with CallWait _ | Asleep _ | Done => false | _ => true end.

(** The latch is free, and every thread that has not finished calls
    [futex_wait] for a value that is not there. *)
Definition spinning_forever (c : config) : Prop :=
  (state c = 0)%Z ∧ (∃ t it, threads c !! t = Some (CallWait it)) ∧ Forall (λ p, p = Done ∨ ∃ it, p = CallWait it) (threads c).

Lemma number_pos f c t p : threads c !! t = Some p → f p = true → 0 < number f c.
Proof. intros Ht Hp. pose proof (BufferSpec.sum_lookup (Nat.b2n ∘ f) _ _ _ Ht) as H. simpl in H. rewrite Hp in H. unfold number. simpl in H. lia. Qed.

Lemma number_zero f c : (∀ p, f p = true → busy p = true) → existsb busy (threads c) = false → number f c = 0.
Proof.
  intros Hf Hb. destruct (decide (0 < number f c)) as [Hp|]; [|lia]. apply BufferSpec.sum_pos in Hp as (t & p & Ht & Hp).
  assert (f p = true) as Hfp by (simpl in Hp; destruct (f p); [done|simpl in Hp; lia]).
  assert (existsb busy (threads c) = true) as Hb'; [|congruence]. apply existsb_exists. exists p. split; [by eapply list_elem_of_In, list_elem_of_lookup_2|by apply Hf].
Qed.

Lemma no_thread_busy limit c :
  inv limit c → existsb busy (threads c) = false → all_done c = true ∨ spinning_forever c.
Proof.
  intros Hi Hb. assert (number holds c = 0) as Hh by (apply number_zero; [by intros []|done]).
  assert (number waking c = 0) as Hk by (apply number_zero; [by intros []|done]).
  assert (number woken c = 0) as Hw by (apply number_zero; [by intros []|done]).
  pose proof (inv_state _ _ Hi) as Hs. pose proof (inv_wake _ _ Hi) as Ha. rewrite Hh in Hs.
  assert (Forall (λ p, p = Done ∨ ∃ it, p = CallWait it) (threads c)) as Hall.
  { apply Forall_lookup. intros t p Ht. assert (busy p = false) as Hp.
    { destruct (busy p) eqn:E; [|done]. rewrite <- Hb. symmetry. apply existsb_exists. exists p. split; [by eapply list_elem_of_In, list_elem_of_lookup_2|done]. }
    destruct p; try done; eauto. pose proof (number_pos is_asleep c t _ Ht eq_refl). lia. }
  destruct (all_done c) eqn:Hd; [by left|]. right. split; [lia|]. split; [|done]. unfold all_done in Hd.
  destruct (decide (Exists (λ p, p ≠ Done) (threads c))) as [He|Hn].
  - apply Exists_exists in He as (p & Hp & Hne). rewrite Forall_forall in Hall. destruct (Hall p Hp) as [|[it ->]]; [done|].
    apply list_elem_of_lookup in Hp as [t Ht]. by exists t, it.
  - rewrite <- not_true_iff_false, forallb_forall in Hd. destruct Hd. intros p Hp%list_elem_of_In. apply bool_decide_eq_true.
    destruct (decide (p = Done)); [done|]. destruct Hn. apply Exists_exists. by exists p.
Qed.

(** Once there, for ever. *)
Lemma spinning_step limit c c' : spinning_forever c → step limit c c' → c' = c.
Proof.
  intros (Hs & _ & Hall) [a Ha]. rewrite Forall_lookup in Hall. destruct a as [t j|t b]; simpl in Ha.
  - destruct (threads c !! t) as [p|] eqn:Ht; [|done]. simpl in Ha. destruct (Hall t p Ht) as [->|[it ->]]; [done|].
    simpl in Ha. rewrite Hs in Ha. simplify_eq. unfold set_thread. change (0 =? 1)%Z with false. cbv iota. rewrite list_insert_id by done. by destruct c.
  - destruct (threads c !! t) as [p|] eqn:Ht; [|done]. by destruct (Hall t p Ht) as [->|[it ->]].
Qed.

Lemma spinning_steps limit c c' : spinning_forever c → rtc (step limit) c c' → c' = c.
Proof. intros Hf. induction 1 as [|c1 c2 c3 Hs _ IH]; [done|]. pose proof (spinning_step _ _ _ Hf Hs) as ->. by apply IH. Qed.

Lemma run_steps limit l c c' : run limit l c = Some c' → rtc (step limit) c c'.
Proof.
  revert c. induction l as [|a l IH]; intros c; cbn [run]; [by intros [= ->]|]. destruct (act limit a c) as [c1|] eqn:Ha; [|done].
  intros H. eapply rtc_l; [by exists a|by apply IH].
Qed.

Lemma latch_run limit n l c : run limit l (start limit n) = Some c → reachable limit n c.
Proof. apply run_steps. Qed.

(** *** A run into that state *)

Lemma step_at limit c t p c' : threads c !! t = Some p → thread_step limit t 0 p c = Some c' → step limit c c'.
Proof. intros Ht Hs. exists (Step t 0). simpl. rewrite Ht. exact Hs. Qed.

(** One thread runs through its critical section while nobody sleeps. *)
Lemma solo_section limit t it l s n o :
  l !! t = Some (ReadCounter it) → existsb is_asleep l = false →
  ∃ o', rtc (step limit) (mkconfig s n l o) (mkconfig 0 (n + 1) (<[t := loop_top limit (it + 1)]> l) o').
Proof.
  intros Ht Ha. eexists. eapply rtc_l; [by eapply step_at; [exact Ht|reflexivity]|]. cbn.
  eapply rtc_l; [by eapply step_at; [by eapply lookup_self|reflexivity]|]. cbn. rewrite list_insert_insert_eq.
  eapply rtc_l; [by eapply step_at; [by eapply lookup_self|reflexivity]|]. cbn. rewrite list_insert_insert_eq.
  assert (∀ q, is_asleep q = false → existsb is_asleep (<[t := q]> l) = false) as Hq.
  { intros q Hq. rewrite BufferSpec.existsb_sum in Ha |- *. pose proof (sum_with_insert (Nat.b2n ∘ is_asleep) _ t _ q Ht) as H. simpl in H. rewrite Hq in H.
    simpl in *. destruct (Nat.ltb_spec 0 (sum_list_with (Nat.b2n ∘ is_asleep) l)); [done|]. apply Nat.ltb_ge. lia. }
  eapply rtc_l.
  { eapply step_at; [by eapply lookup_self|]. simpl. unfold futex_wake, Buffer.signal. rewrite Hq by done. simpl. reflexivity. }
  cbn. rewrite list_insert_insert_eq. eapply rtc_l; [by eapply step_at; [by eapply lookup_self|reflexivity]|]. cbn. rewrite list_insert_insert_eq. reflexivity.
Qed.

Lemma existsb_insert {A} (f : A → bool) l t x : existsb f l = false → f x = false → existsb f (<[t := x]> l) = false.
Proof.
  intros Hl Hx. apply not_true_iff_false. rewrite existsb_exists. intros (y & Hy%list_elem_of_In & Hf). apply list_elem_of_lookup in Hy as [u Hu].
  apply insert_lookup_cases in Hu as [->|Hu]; [congruence|]. apply not_true_iff_false in Hl. apply Hl, existsb_exists. exists y.
  split; [by eapply list_elem_of_In, list_elem_of_lookup_2|done].
Qed.

(** A thread that runs alone finishes. *)
Lemma solo_finish limit k t it l n o :
  k = limit - it → l !! t = Some (loop_top limit it) → existsb is_asleep l = false →
  ∃ n' o', rtc (step limit) (mkconfig 0 n l o) (mkconfig 0 n' (<[t := Done]> l) o').
Proof.
  revert it l n o. induction k as [|k IH]; intros it l n o Hk Ht Ha; unfold loop_top in Ht.
  { destruct (Nat.ltb_spec it limit); [lia|]. exists n, o. by rewrite list_insert_id. }
  destruct (Nat.ltb_spec it limit); [|lia].
  destruct (solo_section limit t it (<[t := ReadCounter it]> l) 1 n o) as [o1 H1]; [by eapply lookup_self|by apply existsb_insert|].
  rewrite list_insert_insert_eq in H1.
  destruct (IH (it + 1) (<[t := loop_top limit (it + 1)]> l) (n + 1)%Z o1) as (n2 & o2 & H2); [lia|by eapply lookup_self|apply existsb_insert; [done|by unfold loop_top; case_match]|].
  rewrite list_insert_insert_eq in H2. exists n2, o2. eapply rtc_l; [by eapply step_at; [exact Ht|reflexivity]|]. by etrans.
Qed.

(** The spin loop under a latch that stays held. *)
Lemma spin_out limit k t it spin l n o :
  k = SPINS - spin → l !! t = Some (spin_top it spin) →
  rtc (step limit) (mkconfig 1 n l o) (mkconfig 1 n (<[t := CallWait it]> l) o).
Proof.
  revert spin l. induction k as [|k IH]; intros spin l Hk Ht; unfold spin_top in Ht.
  { destruct (Nat.ltb_spec spin SPINS); [lia|]. by rewrite list_insert_id. }
  destruct (Nat.ltb_spec spin SPINS); [|lia]. eapply rtc_l; [by eapply step_at; [exact Ht|reflexivity]|]. unfold set_thread. cbn [state threads shared_counter out].
  change (1 =? 0)%Z with false. cbv iota. rewrite <- (list_insert_insert_eq l t (CallWait it) (spin_top it (spin + 1))).
  apply (IH (spin + 1)); [lia|by eapply lookup_self].
Qed.

(** All threads behind the first [k] run to their end. *)
Lemma others_finish limit m l n o k :
  length l = k + m → existsb is_asleep l = false → (∀ t, k ≤ t → t < k + m → l !! t = Some (loop_top limit 0)) →
  ∃ n' o', rtc (step limit) (mkconfig 0 n l o) (mkconfig 0 n' (take k l ++ replicate m Done) o').
Proof.
  revert l n o k. induction m as [|m IH]; intros l n o k Hl Ha Ht.
  { exists n, o. rewrite app_nil_r, take_ge by lia. done. }
  destruct (solo_finish limit (limit - 0) k 0 l n o) as (n1 & o1 & H1); [done|by apply Ht; lia|done|].
  destruct (IH (<[k := Done]> l) n1 o1 (S k)) as (n2 & o2 & H2).
  - rewrite length_insert. lia.
  - by apply existsb_insert.
  - intros t H2 H3. rewrite list_lookup_insert_ne by lia. apply Ht; lia.
  - exists n2, o2. etrans; [exact H1|]. replace (take k l ++ replicate (S m) Done) with (take (S k) (<[k := Done]> l) ++ replicate m Done); [done|].
    rewrite (take_S_r _ _ Done) by (apply list_lookup_insert_eq; lia). rewrite take_insert_ge by lia. by rewrite <- app_assoc.
Qed.

End LatchSpec.

(** ** [futex.c] *)
Module FutexDemo.

(** The waiter before its load, before [futex_wait], inside it, and returned. *)
Inductive waiter_pc : Set := Load | CallWait | Asleep | WaiterDone.

(** The signaler before its [sleep], before the store, before [futex_wake], and
    returned. *)
Inductive signaler_pc : Set := Sleep | Store | CallWake | SignalerDone.

Record config : Set := mkconfig { futex_value : Z; waiter : waiter_pc; signaler : signaler_pc; out : list string }.

Definition act_waiter (c : config) : option config :=
  match waiter c with
  | Load =>
      Some (if (futex_value c =? 0)%Z then mkconfig (futex_value c) CallWait (signaler c) (out c)
            else mkconfig (futex_value c) WaiterDone (signaler c)
              (out c ++ [("[Waiter] Observed futex != 0, proceeding further.." +:+ nl)%string]))
  | CallWait => Some (mkconfig (futex_value c) (if (futex_value c =? 0)%Z then Asleep else Load) (signaler c) (out c))
  | Asleep | WaiterDone => None
  end.

Definition act_signaler (c : config) : option config :=
  match signaler c with
  | Sleep =>
      Some (mkconfig (futex_value c) (waiter c) Store
        (out c ++ [("[Signaler] Sleeping 1s then setting the futex to 1 " +:+ nl)%string]))
  | Store => Some (mkconfig 1 (waiter c) CallWake (out c))
  | CallWake =>
      let '(w, woken) := match waiter c with Asleep => (Load, 1%Z) | w => (w, 0%Z) end in
      Some (mkconfig (futex_value c) w SignalerDone
        (out c ++ [("[Signaler] Futex set to 1, futex_wake returned  " +:+ d woken +:+ " " +:+ nl)%string]))
  | SignalerDone => None
  end.

(** Who moves; [Interrupted] is a sleep that ends by itself or with [EINTR]. *)
Inductive action : Set := Waiter | Signaler | Interrupted.

Definition act (a : action) (c : config) : option config :=
  match a with
  | Waiter => act_waiter c
  | Signaler => act_signaler c
  | Interrupted => match waiter c with Asleep => Some (mkconfig (futex_value c) Load (signaler c) (out c)) | _ => None end
  end.

Definition start : config := mkconfig 0 Load Sleep [("[Waiter] Startup, checking futex... " +:+ nl)%string].

Fixpoint run (l : list action) (c : config) : option config :=
  match l with [] => Some c | a :: l => match act a c with Some c' => run l c' | None => None end end.

Definition ended (c : config) : Prop := waiter c = WaiterDone ∧ signaler c = SignalerDone.

(** [main] joins both and prints. *)
Definition report (c : config) : string := ("Futex execution done, final value = " +:+ d (futex_value c) +:+ " " +:+ nl)%string.

(** The value is 1 once it is stored; who sleeps will be woken. *)
Definition inv (c : config) : Prop :=
  (futex_value c = match signaler c with Sleep | Store => 0 | _ => 1 end)%Z ∧
  (waiter c = Asleep → signaler c ≠ SignalerDone) ∧ (waiter c = WaiterDone → futex_value c = 1%Z).

Lemma futex_inv a c c' : inv c → act a c = Some c' → inv c'.
Proof. destruct c as [v [] [] o], a; unfold inv; simpl; intros (-> & H1 & H2) H; cbv in H; injection H as <- || discriminate H; simpl; split_and!; intros; try done; try (by destruct H1); try (by specialize (H2 eq_refl)). Qed.

(** Steps that remain: an interruption costs two more. *)
Definition rank (c : config) : nat :=
  match signaler c with Sleep => 12 | Store => 11 | CallWake => 5 | SignalerDone => 0 end +
  match signaler c, waiter c with
  | (Sleep | Store), Load => 2 | (Sleep | Store), CallWait => 1 | (Sleep | Store), Asleep => 0
  | _, Load => 1 | _, CallWait => 2 | _, Asleep => 0
  | _, WaiterDone => 0
  end.

#[export] Instance action_eq_dec : EqDecision action.
Proof. solve_decision. Defined.

Definition interruptions (l : list action) : nat := length (filter (λ a, a = Interrupted) l).

Lemma rank_act a c c' : inv c → act a c = Some c' → rank c' + 1 ≤ rank c + (if decide (a = Interrupted) then 3 else 0).
Proof.
  destruct c as [v [] [] o], a; unfold inv; simpl; intros (-> & H1 & H2) H; cbv in H; injection H as <- || discriminate H; cbn; try lia.
  all: by destruct H1.
Qed.

Lemma futex_run l c c' : inv c → run l c = Some c' → inv c' ∧ rank c' + length l ≤ rank c + 3 * interruptions l.
Proof.
  revert c. induction l as [|a l IH]; intros c Hi; cbn [run]; [intros [= <-]; split; [done|cbn; lia]|].
  destruct (act a c) as [c1|] eqn:Ha; [|done]. intros H. destruct (IH c1 (futex_inv _ _ _ Hi Ha) H) as [Hi' Hr]. split; [done|].
  pose proof (rank_act _ _ _ Hi Ha) as Hk. unfold interruptions in *. rewrite filter_cons. destruct (decide (a = Interrupted)); cbn [length]; lia.
Qed.

(** When neither thread can move, both have ended. *)
Lemma futex_no_deadlock c : inv c → act Waiter c = None → act Signaler c = None → ended c.
Proof. destruct c as [v [] [] o]; unfold inv, ended; simpl; intros (-> & H1 & H2) Hw Hs; try done. by destruct H1. Qed.

End FutexDemo.

(** ** Theorems *)
Import Latch LatchSpec.

(** C21: for any number of threads and increments, in every interleaving at most
    one thread holds the latch, it is held exactly when its word is 1, no
    increment of the shared counter is lost, and when all threads have finished
    the counter is the number of threads times the number of increments. *)
Theorem latch_safe limit n c :
  reachable limit n c →
  number holds c ≤ 1 ∧ state c = Z.of_nat (number holds c) ∧
  shared_counter c = Z.of_nat (sum_list_with (made limit) (threads c)) ∧
  (all_done c = true → shared_counter c = Z.of_nat (n * limit)).
Proof.
  intros Hr. pose proof (latch_inv _ _ _ Hr) as Hi. split_and!; [apply Hi..|]. intros Hd. rewrite (inv_counter _ _ Hi). f_equal.
  pose proof (threads_length _ _ _ Hr) as Hl. unfold start in Hl. cbn [threads] in Hl. rewrite length_replicate in Hl.
  unfold all_done in Hd. rewrite <- Hl. clear -Hd. induction (threads c) as [|p l IH]; [done|]. cbn in Hd |- *.
  apply andb_prop in Hd as [Hp%bool_decide_eq_true Hd]. subst p. rewrite IH by done. done.
Qed.

(** No wake-up of the latch is lost: in every reachable state in which some
    thread has not finished, a thread can do something other than wait, or the
    latch is free and every unfinished thread calls [futex_wait] for the value 1. *)
Theorem latch_no_lost_wakeup limit n c :
  reachable limit n c → all_done c = false → existsb busy (threads c) = true ∨ spinning_forever c.
Proof.
  intros Hr Hd. destruct (existsb busy (threads c)) eqn:Hb; [by left|].
  destruct (no_thread_busy _ _ (latch_inv _ _ _ Hr) Hb) as [H|H]; [congruence|by right].
Qed.

(** C22: with at least two threads the program may never end: after [EAGAIN] the
    slow path does not try to take the latch, so a thread that comes there when
    the others are about to finish calls [futex_wait] for ever although the
    latch is free. *)
Theorem latch_livelock limit n :
  2 ≤ n → 1 ≤ limit →
  ∃ c, reachable limit n c ∧ state c = 0%Z ∧ all_done c = false ∧ ∀ c', rtc (step limit) c c' → c' = c.
Proof.
  intros Hn Hk. destruct n as [|[|m]]; [lia..|]. set (r := replicate m (FastCas 0)).
  assert (start limit (S (S m)) = mkconfig 0 0 (FastCas 0 :: FastCas 0 :: r) (seq 0 (S (S m)) ≫= finished limit 0)) as Hs.
  { unfold start, loop_top. destruct (Nat.ltb_spec 0 limit); [done|lia]. }
  assert (existsb is_asleep r = false) as Hr by (unfold r; clear; induction m; done).
  destruct (solo_section limit 1 0 (CallWait 0 :: ReadCounter 0 :: r) 1 0 (seq 0 (S (S m)) ≫= finished limit 0)) as [o1 H1]; [done..|].
  destruct (solo_finish limit (limit - 1) 1 1 (CallWait 0 :: loop_top limit 1 :: r) 1 o1) as (n2 & o2 & H2); [done..| |].
  { cbn. rewrite Hr, orb_false_r. unfold loop_top. by case_match. }
  destruct (others_finish limit m (CallWait 0 :: Done :: r) n2 o2 2) as (n3 & o3 & H3); [by unfold r; cbn; rewrite length_replicate|done| |].
  { intros t ? ?. destruct t as [|[|t]]; [lia..|]. cbn. unfold r, loop_top. rewrite (proj2 (Nat.ltb_lt 0 limit)) by lia. apply lookup_replicate_2. lia. }
  assert (spinning_forever (mkconfig 0 n3 (take 2 (CallWait 0 :: Done :: r) ++ replicate m Done) o3)) as Hf.
  { split; [done|]. split; [by exists 0, 0|]. cbn. constructor; [right; by eexists|]. constructor; [by left|]. apply Forall_replicate. by left. }
  exists (mkconfig 0 n3 (take 2 (CallWait 0 :: Done :: r) ++ replicate m Done) o3). split_and!; [|reflexivity|reflexivity|].
  - unfold reachable. rewrite Hs. eapply rtc_l; [apply (step_at _ _ 1 (FastCas 0)); reflexivity|].
    eapply rtc_l; [apply (step_at _ _ 0 (FastCas 0)); reflexivity|].
    etrans; [apply (spin_out limit SPINS 0 0 0); reflexivity|]. etrans; [exact H1|]. etrans; [exact H2|]. exact H3.
  - intros c' Hc. by apply (spinning_steps limit).
Qed.

(** Two threads with one increment each; the first one finds the latch taken and
    spins until the second one has finished. *)
Definition to_end : list action := [Step 1 0; Step 0 0] ++ replicate 5 (Step 1 0) ++ replicate 7 (Step 0 0).
Definition ended_config : config := default (start 1 2) (run 1 to_end (start 1 2)).

Lemma latch_safe_witness : threads ended_config = [Done; Done] ∧ shared_counter ended_config = Z.of_nat (2 * 1).
Proof.
  split; [by vm_compute|]. apply (latch_safe 1 2); [|by vm_compute]. apply (latch_run 1 2 to_end). by vm_compute.
Defined.

(** The first thread falls asleep while the second one holds the latch. *)
Definition to_sleep : list action := [Step 1 0; Step 0 0] ++ replicate SPINS (Step 0 0) ++ [Step 0 0].
Definition slept : config := default (start 1 2) (run 1 to_sleep (start 1 2)).

Lemma latch_no_lost_wakeup_witness :
  threads slept = [Asleep 0; ReadCounter 0] ∧ (existsb busy (threads slept) = true ∨ spinning_forever slept).
Proof.
  split; [by vm_compute|]. apply (latch_no_lost_wakeup 1 2); [|by vm_compute]. apply (latch_run 1 2 to_sleep). by vm_compute.
Defined.

Lemma latch_livelock_witness :
  ∃ c, reachable INCREMENTS NUMBER_OF_THREADS c ∧ state c = 0%Z ∧ all_done c = false ∧ ∀ c', rtc (step INCREMENTS) c c' → c' = c.
Proof. apply (latch_livelock INCREMENTS NUMBER_OF_THREADS); [unfold NUMBER_OF_THREADS; lia|unfold INCREMENTS; lia]. Defined.

(** In futex.c the waiter is always released: every run has at most fourteen
    steps and three more for every interruption of the waiter's sleep, and it can
    only stop when both threads have returned and the value is 1. *)
Theorem futex_demo_terminates l c :
  FutexDemo.run l FutexDemo.start = Some c →
  length l ≤ 14 + 3 * FutexDemo.interruptions l ∧
  (FutexDemo.act FutexDemo.Waiter c = None → FutexDemo.act FutexDemo.Signaler c = None →
   FutexDemo.ended c ∧ FutexDemo.futex_value c = 1%Z).
Proof.
  intros H. destruct (FutexDemo.futex_run l FutexDemo.start c) as [Hi Hr]; [by split_and!|done|].
  split; [change (FutexDemo.rank FutexDemo.start) with 14 in Hr; lia|]. intros Hw Hs.
  pose proof (FutexDemo.futex_no_deadlock c Hi Hw Hs) as He. split; [done|]. by apply Hi, He.
Qed.

(** The waiter sleeps before the signaler stores. *)
Definition futex_schedule : list FutexDemo.action :=
  [FutexDemo.Waiter; FutexDemo.Waiter; FutexDemo.Signaler; FutexDemo.Signaler; FutexDemo.Signaler; FutexDemo.Waiter].
Definition futex_end : FutexDemo.config := default FutexDemo.start (FutexDemo.run futex_schedule FutexDemo.start).

Lemma futex_demo_terminates_witness : FutexDemo.ended futex_end ∧ FutexDemo.futex_value futex_end = 1%Z.
Proof. apply (futex_demo_terminates futex_schedule futex_end); by vm_compute. Defined.
