(* ===== verification/WordCount.v ===== *)
(** * The parallel word count: [Posix-Thread/word_count_using_thread.c]

    Four threads count the words of one file, each in its own part.  A file is
    the list of its bytes; [pread] returns at least one byte before the end of
    the file and at most as many as asked for, how many exactly is an argument of
    the model.  The threads share only the file, which nobody writes, and print
    under a mutex: the order of their lines is the only thing the schedule
    decides, so a thread is modelled by the function it computes. *)
From stdpp Require Import base list strings pretty.
From Stdlib Require Import ZArith Lia.
From Stdlib Require Ascii String.
From S2P Require Import Prelude.

Module WordCount.

Abbreviation char := Ascii.ascii.

Definition MAX_THREADS : nat := 4.
Definition BUF_SIZE : nat := 8 * 1024.

Definition is_delim (c : char) : bool := is_space c.

(** [start], [end] of a thread's part. *)
Record ThreadData : Set := mkdata { start : nat; end_ : nat }.

(** The loop over the bytes of the buffer. *)
Definition count_byte (s : nat * bool) (c : char) : nat * bool :=
  let '(count, in_word) := s in
  if is_delim c then if in_word then (count + 1, false) else (count, false) else (count, true).

Section Pread.

(** How many bytes [pread] delivers at a position when so many are wanted. *)
Variable delivered : nat → nat → nat.

Definition pread (file : list char) (want pos : nat) : list char :=
  take (delivered pos want) (take want (drop pos file)).

(** [while (pos < tdata->end)]. *)
Fixpoint count_loop (fuel : nat) (file : list char) (pos end_ : nat) (s : nat * bool) : res (nat * bool) :=
  if pos <? end_ then
    match fuel with
    | O => UB OutOfFuel
    | S fuel =>
        let to_read := if end_ - pos <? BUF_SIZE then end_ - pos else BUF_SIZE in
        let buf := pread file to_read pos in
        if length buf =? 0 then Ok s
        else count_loop fuel file (pos + length buf) end_ (foldl count_byte s buf)
    end
  else Ok s.

(** Each round reads a byte, so the length of the part is enough. *)
Definition count_words (file : list char) (t : ThreadData) : res nat :=
  '(count, in_word) ← count_loop (end_ t - start t) file (start t) (end_ t) (0, false);
  Ok (if in_word : bool then count + 1 else count).

(** [while (pread(fd, &c, 1, start) == 1 && !is_delim(c)) start++]. *)
Fixpoint adjust (fuel : nat) (file : list char) (pos : nat) : res nat :=
  match pread file 1 pos with
  | [c] =>
      if is_delim c then Ok pos
      else match fuel with O => UB OutOfFuel | S fuel => adjust fuel file (pos + 1) end
  | _ => Ok pos
  end.

(** The part of thread [i]. *)
Definition part (file : list char) (i : nat) : res ThreadData :=
  let size := length file in
  let chunk_size := size / MAX_THREADS in
  let start := i * chunk_size in
  let end_ := if i =? MAX_THREADS - 1 then size else (i + 1) * chunk_size in
  if 0 <? i then start ← adjust size file start; Ok (mkdata start end_) else Ok (mkdata start end_).

(** What thread [i] prints. *)
Definition thread_line (t : ThreadData) (count : nat) : string :=
  ("Thread [" +:+ d (Z.of_nat (start t)) +:+ " - " +:+ d (Z.of_nat (end_ t)) +:+ "]: " +:+ d (Z.of_nat count) +:+ " words" +:+ nl)%string.

Fixpoint threads (file : list char) (l : list nat) : C unit nat :=
  match l with
  | [] => mret 0
  | i :: l =>
      t ← lift (part file i);
      n ← lift (count_words file t);
      printf (thread_line t n) ;;
      total ← threads file l;
      mret (n + total)
  end.

(** [main], the lines of the threads in the order of their creation. *)
Definition main (file : list char) : C unit unit :=
  if length file =? 0 then mret tt
  else
    total_words ← threads file (seq 0 MAX_THREADS);
    printf ("Total words: " +:+ d (Z.of_nat total_words) +:+ nl)%string.

End Pread.

End WordCount.

(** ** Words *)
Module WordSpec.
Import WordCount.

(** The number of words that begin in a text; [p] says whether a delimiter or
    nothing precedes it. *)
Fixpoint starts (p : bool) (l : list char) : nat :=
  match l with
  | [] => 0
  | c :: l => if is_delim c then starts true l else Nat.b2n p + starts false l
  end.

Definition words (l : list char) : nat := starts true l.

Definition after (p : bool) (l : list char) : bool := match last l with Some c => is_delim c | None => p end.

(** A word begins at position [b]. *)
Definition begins_word (file : list char) (b : nat) : bool :=
  match file !! b with Some c => negb (is_delim c) && after true (take b file) | None => false end.

Lemma after_cons p c l : after p (c :: l) = after (is_delim c) l.
Proof. unfold after. rewrite last_cons. by destruct (last l). Qed.

Lemma starts_app p l1 l2 : starts p (l1 ++ l2) = starts p l1 + starts (after p l1) l2.
Proof.
  revert p. induction l1 as [|c l1 IH]; intros p; [done|]. cbn [app starts]. rewrite !IH.
  rewrite after_cons. destruct (is_delim c); lia.
Qed.

(** The counting loop counts the words that begin. *)
Lemma count_bytes l n w :
  foldl count_byte (n, w) l = (n + starts (negb w) l + Nat.b2n w - Nat.b2n (negb (after (negb w) l)), negb (after (negb w) l)).
Proof.
  revert n w. induction l as [|c l IH]; intros n w; cbn [foldl].
  { cbn. rewrite negb_involutive. f_equal. lia. }
  rewrite after_cons. cbn [starts]. unfold count_byte at 2. destruct (is_delim c), w; rewrite IH; cbn [negb Nat.b2n]; f_equal; lia.
Qed.

(** The length of the leading non-delimiters. *)
Fixpoint word_length (l : list char) : nat :=
  match l with [] => 0 | c :: l => if is_delim c then 0 else S (word_length l) end.

Lemma word_length_le l : word_length l ≤ length l.
Proof. induction l as [|c l IH]; cbn; [done|]. destruct (is_delim c); lia. Qed.

(** Words are lost when a part begins with a word that the part before it does
    not end with. *)
Lemma starts_skip p l : starts p l = Nat.b2n (p && negb (word_length l =? 0)) + words (drop (word_length l) l).
Proof.
  assert (∀ l, starts false l = words (drop (word_length l) l)) as Hf.
  { clear. induction l as [|c l IH]; cbn; [done|]. destruct (is_delim c) eqn:Hc; cbn; [by rewrite Hc|]. exact IH. }
  destruct p; cbn [andb]; [|by rewrite Hf]. destruct l as [|c l]; [done|]. cbn [starts word_length].
  destruct (is_delim c) eqn:Hc; cbn; [by rewrite Hc|]. by rewrite Hf.
Qed.

Lemma drop_word_take l n : drop (word_length l) (take n l) = drop (word_length (take n l)) (take n l).
Proof.
  revert n. induction l as [|c l IH]; intros n; [by destruct n|]. destruct n as [|n]; [by rewrite take_0, !drop_nil|].
  cbn [take word_length]. destruct (is_delim c); [done|]. cbn. apply IH.
Qed.

Section Reading.
Variable delivered : nat → nat → nat.
Hypothesis delivers : ∀ pos want, 0 < want → 0 < delivered pos want.

Lemma pread_ok file want pos :
  pos < length file → 0 < want →
  ∃ n, 0 < n ≤ want ∧ n ≤ length file - pos ∧ pread delivered file want pos = take n (drop pos file) ∧ length (pread delivered file want pos) = n.
Proof.
  intros Hp Hw. pose proof (delivers pos want Hw). unfold pread. exists (min (min (delivered pos want) want) (length file - pos)).
  split; [lia|]. split; [lia|]. rewrite length_take, length_take, length_drop. split; [|lia]. rewrite take_take.
  destruct (Nat.le_gt_cases (min (delivered pos want) want) (length file - pos)).
  - by rewrite (Nat.min_l _ (length file - pos)) by lia.
  - rewrite (Nat.min_r _ (length file - pos)) by lia. rewrite !take_ge; rewrite ?length_drop; [done|lia..].
Qed.

#[local] Opaque BUF_SIZE.

Lemma count_loop_ok fuel file pos end_ s :
  end_ ≤ length file → end_ - pos ≤ fuel →
  count_loop delivered fuel file pos end_ s = Ok (foldl count_byte s (take (end_ - pos) (drop pos file))).
Proof.
  revert pos s. induction fuel as [|fuel IH]; intros pos s He Hf; cbn [count_loop]; destruct (Nat.ltb_spec pos end_); try lia.
  1, 3: by replace (end_ - pos) with 0 by lia.
  set (want := if end_ - pos <? BUF_SIZE then end_ - pos else BUF_SIZE).
  assert (0 < want ≤ end_ - pos) as Hw. { unfold want. assert (0 < BUF_SIZE) by (by apply (Nat.ltb_lt 0); vm_compute). destruct (Nat.ltb_spec (end_ - pos) BUF_SIZE); lia. }
  destruct (pread_ok file want pos) as (n & Hn1 & Hn2 & -> & Hl); [lia..|]. clearbody want.
  rewrite length_take, length_drop, Nat.min_l by lia. destruct (Nat.eqb_spec n 0); [lia|]. rewrite IH by lia. f_equal.
  rewrite <- foldl_app. f_equal. rewrite <- drop_drop, take_take_drop. f_equal. lia.
Qed.

Lemma count_words_ok file t :
  end_ t ≤ length file → count_words delivered file t = Ok (words (take (end_ t - start t) (drop (start t) file))).
Proof.
  intros He. unfold count_words. rewrite count_loop_ok by lia. rewrite count_bytes. unfold mbind, res_bind. cbn [negb Nat.b2n]. unfold words.
  set (l := take _ _). assert (after true l = true ∨ 0 < starts true l) as Ha.
  { clear. induction l as [|c l IH]; [by left|]. cbn [starts]. rewrite after_cons. destruct (is_delim c); [done|]. right. cbn. lia. }
  destruct (after true l); cbn; f_equal; destruct Ha; try done; lia.
Qed.

Lemma adjust_ok fuel file pos :
  length file - pos ≤ fuel → adjust delivered fuel file pos = Ok (pos + word_length (drop pos file)).
Proof.
  revert pos. induction fuel as [|fuel IH]; intros pos Hf.
  - cbn [adjust]. unfold pread. rewrite drop_ge by lia. cbn. rewrite take_nil. by rewrite Nat.add_0_r.
  - destruct (Nat.le_gt_cases (length file) pos).
    { cbn [adjust]. unfold pread. rewrite drop_ge by lia. cbn. rewrite take_nil. by rewrite Nat.add_0_r. }
    destruct (lookup_lt_is_Some_2 file pos) as [c Hc]; [lia|]. destruct (pread_ok file 1 pos) as (n & Hn1 & _ & Hr & _); [lia..|].
    cbn [adjust]. rewrite Hr. replace n with 1 by lia. rewrite (drop_S _ _ _ Hc). cbn [take word_length]. destruct (is_delim c); [by rewrite Nat.add_0_r|].
    rewrite IH by lia. f_equal. rewrite Nat.add_1_r. lia.
Qed.

(** The bounds of a part before its start is moved. *)
Definition low (file : list char) (i : nat) : nat := i * (length file / MAX_THREADS).
Definition high (file : list char) (i : nat) : nat := if i =? MAX_THREADS - 1 then length file else (i + 1) * (length file / MAX_THREADS).

(** A word that begins exactly where a part other than the first begins. *)
Definition lost (file : list char) (i : nat) : nat := Nat.b2n ((0 <? i) && (low file i <? high file i) && begins_word file (low file i)).

Lemma high_le file i : i < MAX_THREADS → low file i ≤ high file i ≤ length file.
Proof.
  intros Hi. unfold low, high. pose proof (Nat.Div0.mul_div_le (length file) MAX_THREADS) as H. change MAX_THREADS with 4 in *.
  change (4 - 1) with 3. destruct (Nat.eqb_spec i 3) as [->|]; [lia|]. set (q := length file / 4) in *. nia.
Qed.

Lemma starts_part file b e :
  b ≤ e → starts true (take e file) = starts true (take b file) + starts (after true (take b file)) (take (e - b) (drop b file)).
Proof. intros Hb. rewrite <- starts_app. f_equal. rewrite take_take_drop. f_equal. lia. Qed.

Lemma begins_part file b e :
  b ≤ e → after true (take b file) && negb (word_length (take (e - b) (drop b file)) =? 0) = (b <? e) && begins_word file b.
Proof.
  intros Hb. unfold begins_word. destruct (Nat.ltb_spec b e); cbn [andb].
  - destruct (file !! b) as [c|] eqn:Hc.
    + rewrite (drop_S _ _ _ Hc). destruct (e - b) as [|k] eqn:Hk; [lia|]. cbn. destruct (is_delim c), (after true (take b file)); done.
    + rewrite drop_ge by (by apply lookup_ge_None). rewrite take_nil. cbn. by rewrite andb_false_r.
  - replace (e - b) with 0 by lia. cbn. by rewrite andb_false_r.
Qed.

(** What thread [i] counts, and what it leaves out. *)
Lemma thread_ok file i :
  i < MAX_THREADS →
  ∃ t n, part delivered file i = Ok t ∧ count_words delivered file t = Ok n ∧
    starts true (take (high file i) file) = starts true (take (low file i) file) + n + lost file i.
Proof.
  intros Hi. destruct (high_le file i Hi) as [Hlh Hh]. unfold part. fold (low file i) (high file i). unfold lost.
  destruct (Nat.ltb_spec 0 i) as [Hpos|Hz]; cbn [andb].
  - rewrite adjust_ok by lia. eexists _, _. split; [reflexivity|]. rewrite count_words_ok by done. split; [reflexivity|]. cbn [start end_].
    rewrite (starts_part file (low file i) (high file i)) by done. rewrite (starts_skip (after true (take (low file i) file))), begins_part by done. rewrite <- Nat.add_assoc. f_equal. rewrite Nat.add_comm. f_equal.
    rewrite <- drop_word_take, <- drop_drop. f_equal. set (X := drop (low file i) file). set (w := word_length X). rewrite (firstn_skipn_comm _ w X). destruct (Nat.le_gt_cases w (high file i - low file i)).
    + by replace (w + (high file i - (low file i + w))) with (high file i - low file i) by lia.
    + rewrite !(drop_ge _ w); [done|rewrite length_take; lia..].
  - assert (i = 0) as -> by lia. assert (low file 0 = 0) as -> by done. eexists _, _. split; [reflexivity|]. rewrite count_words_ok by done. split; [reflexivity|].
    cbn [start end_]. rewrite Nat.sub_0_r, Nat.add_0_r. done.
Qed.

End Reading.

End WordSpec.

(** ** Theorems *)
Import WordCount WordSpec.

(** C28: the program ends and reports the number of words of the file less the
    words that begin exactly at one of the three inner boundaries: such a word
    is skipped by the part that begins there and is not seen by the part before.
    The answer does not depend on how [pread] cuts the file. *)
Theorem word_count_total delivered (delivers : ∀ pos want, 0 < want → 0 < delivered pos want) file :
  file ≠ [] →
  ∃ lines n, main delivered file tt = Ok (tt, tt, lines ++ [("Total words: " +:+ d (Z.of_nat n) +:+ nl)%string]) ∧
    length lines = MAX_THREADS ∧ n + (lost file 1 + lost file 2 + lost file 3) = words file.
Proof.
  intros Hne. unfold main. destruct file as [|c file]; [done|]. set (l := c :: file). replace (length l =? 0) with false by done.
  destruct (thread_ok delivered delivers l 0) as (t0 & n0 & P0 & N0 & S0); [by unfold MAX_THREADS; lia|].
  destruct (thread_ok delivered delivers l 1) as (t1 & n1 & P1 & N1 & S1); [by unfold MAX_THREADS; lia|].
  destruct (thread_ok delivered delivers l 2) as (t2 & n2 & P2 & N2 & S2); [by unfold MAX_THREADS; lia|].
  destruct (thread_ok delivered delivers l 3) as (t3 & n3 & P3 & N3 & S3); [by unfold MAX_THREADS; lia|].
  cbn [seq MAX_THREADS threads]. unfold mbind, C_bind, mret, C_ret, lift, printf. rewrite P0, N0, P1, N1, P2, N2, P3, N3.
  eexists [_; _; _; _], _. split; [reflexivity|]. split; [done|].
  change (high l 0) with (low l 1) in S0. change (high l 1) with (low l 2) in S1. change (high l 2) with (low l 3) in S2.
  change (high l 3) with (length l) in S3. change (low l 0) with 0 in S0. change (lost l 0) with 0 in S0.
  rewrite firstn_all in S3. unfold words. rewrite S3, S2, S1, S0. change (starts true (take 0 l)) with 0. lia.
Qed.

Lemma word_count_total_witness :
  ∃ lines n, main (λ _ want, want) (String.list_ascii_of_string "ab cd ef gh ij") tt =
      Ok (tt, tt, lines ++ [("Total words: " +:+ d (Z.of_nat n) +:+ nl)%string]) ∧
    length lines = MAX_THREADS ∧ n + 3 = 5.
Proof.
  destruct (word_count_total (λ _ want, want) (λ _ _ H, H) (String.list_ascii_of_string "ab cd ef gh ij")) as (lines & n & H1 & H2 & H3); [done|].
  exists lines, n. split; [exact H1|]. split; [exact H2|]. exact H3.
Defined.

(** One word at every boundary: one of four words is reported. *)
Lemma word_count_loses :
  words (String.list_ascii_of_string "a b c d ") = 4 ∧
  run_output (main (λ _ want, want) (String.list_ascii_of_string "a b c d ")) tt =
    Ok [("Thread [0 - 2]: 1 words" +:+ nl)%string; ("Thread [3 - 4]: 0 words" +:+ nl)%string;
        ("Thread [5 - 6]: 0 words" +:+ nl)%string; ("Thread [7 - 8]: 0 words" +:+ nl)%string;
        ("Total words: 1" +:+ nl)%string].
Proof. by vm_compute. Qed.
