(* ===== verification/Scanner.v ===== *)
(** * The scanners: [LEXICAL_ANALYZER/lex.yy.c] and [LEXICAL_ANALYZER/TASK/lex.yy.c]

    Both files are flex output: one matching loop over compressed tables, and the
    actions of the rules.  [Flex] is the loop, generic in the tables; [CalcScanner] and
    [SqlScanner] hold the tables and actions of the two files.  The text is the
    whole input: how it comes through the buffer is [FlexBuffer]'s matter.  [FlexSpec] shows what the tables recognise: the scanners
    are equal to direct descriptions of their tokens. *)
From stdpp Require Import base list strings.
From Stdlib Require Import ZArith Lia.
From Stdlib Require Ascii String.
From S2P Require Import Prelude.
Local Open Scope Z_scope.

Abbreviation char := Ascii.ascii.
Definition code (c : char) : Z := Z.of_nat (Ascii.nat_of_ascii c).

(** ** The matching loop *)
Module Flex.

(** The tables of a scanner; [jam_base] ends the loop, states from [meta_from]
    on are templates. *)
Record tables : Set := mktables {
  yy_accept : list Z; yy_ec : list Z; yy_meta : list Z; yy_base : list Z; yy_def : list Z;
  yy_nxt : list Z; yy_chk : list Z; jam_base : Z; meta_from : Z }.

(** The class of a character; NUL, which marks the end of the buffer in the
    tables, has class 1 when it is part of the text. *)
Definition yy_class (T : tables) (c : char) : res Z :=
  if code c =? 0 then Ok 1 else aget (yy_ec T) (code c).

(** [while (yy_chk[yy_base[s] + c] != s)] and the step behind it. *)
Fixpoint next_state (fuel : nat) (T : tables) (s c : Z) : res Z :=
  b ← aget (yy_base T) s;
  k ← aget (yy_chk T) (b + c);
  if k =? s then aget (yy_nxt T) (b + c)
  else
    match fuel with
    | O => UB OutOfFuel
    | S fuel =>
        s ← aget (yy_def T) s;
        c ← (if s >=? meta_from T then aget (yy_meta T) c else Ok c);
        next_state fuel T s c
    end.

(** [yy_find_action]: the rule, and the length of the text it matched. *)
Definition yy_find_action (T : tables) (s : Z) (n : nat) (last : Z * nat) : res (Z * nat) :=
  a ← aget (yy_accept T) s;
  if a =? 0 then a ← aget (yy_accept T) (fst last); Ok (a, snd last) else Ok (a, n).

(** [yy_match]: [n] characters have been read; [last] is the last accepting
    state with its position. *)
Fixpoint yy_match (T : tables) (text : list char) (n : nat) (s : Z) (last : Z * nat) : res (Z * nat) :=
  match text with
  | [] => yy_find_action T s n last
  | ch :: text =>
      c ← yy_class T ch;
      a ← aget (yy_accept T) s;
      let last := if a =? 0 then last else (s, n) in
      s ← next_state 3 T s c;
      b ← aget (yy_base T) s;
      if b =? jam_base T then yy_find_action T s (S n) last else yy_match T text (S n) s last
  end.

(** [yylex]: rules without a [return] go round the loop; at the end of the text
    the result is 0. *)
Section Yylex.
Context {V : Type} (T : tables) (action : Z → list char → res (option (Z * option V))).

Fixpoint yylex_loop (fuel : nat) (text : list char) : res (Z * option V * list char) :=
  match text with
  | [] => Ok (0, None, [])
  | _ =>
      '(yy_act, n) ← yy_match T text 0 1 (0, 0%nat);
      r ← action yy_act (take n text);
      match r, fuel with
      | Some token, _ => Ok (token, drop n text)
      | None, S fuel => yylex_loop fuel (drop n text)
      | None, O => UB OutOfFuel
      end
  end.

Definition yylex (text : list char) : res (Z * option V * list char) := yylex_loop (length text) text.

End Yylex.

End Flex.

(** A character returned as a token: [yytext[0]] is a signed [char]. *)
Definition signed_code (c : char) : Z := if code c <? 128 then code c else code c - 256.

Definition first_char (yytext : list char) : res Z :=
  match yytext with c :: _ => Ok (signed_code c) | [] => Ok 0 end.

(** ** [LEXICAL_ANALYZER/lex.yy.c] *)
Module CalcScanner.

Definition yy_accept : list Z :=
  [0; 0; 0; 12; 10; 2; 9; 3; 4; 7; 5; 6; 8; 1; 2; 1; 0].

Definition yy_ec : list Z :=
  [0; 1; 1; 1; 1; 1; 1; 1; 1; 2; 3; 1; 1; 1; 1; 1; 1; 1; 1; 1; 1; 1; 1; 1; 1; 1; 1; 1; 1; 1; 1; 1; 2; 1; 1; 1;
   1; 1; 1; 1; 4; 5; 6; 7; 1; 8; 1; 9; 10; 10; 10; 10; 10; 10; 10; 10; 10; 10; 1; 1; 1; 1; 1; 1; 1; 1; 1; 1; 1;
   1; 1; 1; 1; 1; 1; 1; 1; 1; 1; 1; 1; 1; 1; 1; 1; 1; 1; 1; 1; 1; 1; 1; 1; 1; 1; 1; 1; 1; 1; 1; 1; 1; 1; 1; 1;
   1; 1; 1; 1; 1; 1; 1; 1; 1; 1; 1; 1; 1; 1; 1; 1; 1; 1; 1; 1; 1; 1; 1; 1; 1; 1; 1; 1; 1; 1; 1; 1; 1; 1; 1; 1;
   1; 1; 1; 1; 1; 1; 1; 1; 1; 1; 1; 1; 1; 1; 1; 1; 1; 1; 1; 1; 1; 1; 1; 1; 1; 1; 1; 1; 1; 1; 1; 1; 1; 1; 1; 1;
   1; 1; 1; 1; 1; 1; 1; 1; 1; 1; 1; 1; 1; 1; 1; 1; 1; 1; 1; 1; 1; 1; 1; 1; 1; 1; 1; 1; 1; 1; 1; 1; 1; 1; 1; 1;
   1; 1; 1; 1; 1; 1; 1; 1; 1; 1; 1; 1; 1; 1; 1; 1; 1; 1; 1; 1; 1; 1; 1; 1; 1; 1; 1; 1; 1; 1; 1; 1; 1; 1; 1; 1;
   1; 1; 1; 1; 1; 1; 1].

Definition yy_meta : list Z :=
  [0; 1; 1; 1; 1; 1; 1; 1; 1; 1; 1].

Definition yy_base : list Z :=
  [0; 0; 0; 15; 16; 12; 16; 16; 16; 16; 16; 16; 16; 3; 10; 1; 16].

Definition yy_def : list Z :=
  [0; 16; 1; 16; 16; 16; 16; 16; 16; 16; 16; 16; 16; 16; 16; 16; 0].

Definition yy_nxt : list Z :=
  [0; 4; 5; 6; 7; 8; 9; 10; 11; 12; 13; 15; 14; 15; 14; 16; 3; 16; 16; 16; 16; 16; 16; 16; 16; 16; 16].

Definition yy_chk : list Z :=
  [0; 1; 1; 1; 1; 1; 1; 1; 1; 1; 1; 15; 14; 13; 5; 3; 16; 16; 16; 16; 16; 16; 16; 16; 16; 16; 16].

Definition scanner : Flex.tables := Flex.mktables yy_accept yy_ec yy_meta yy_base yy_def yy_nxt yy_chk 16 17.

(** lex_analyzer.tab.h *)
Definition NUMBER : Z := 258.

(** The actions; [yylval.num] is the only value a token has. *)
Definition action (yy_act : Z) (yytext : list char) : res (option (Z * option Z)) :=
  match yy_act with
  | 1 => n ← atoi (of_chars yytext); Ok (Some (NUMBER, Some n))
  | 2 => Ok None
  | 3 => Ok (Some (40, None))
  | 4 => Ok (Some (41, None))
  | 5 => Ok (Some (43, None))
  | 6 => Ok (Some (45, None))
  | 7 => Ok (Some (42, None))
  | 8 => Ok (Some (47, None))
  | 9 => Ok (Some (10, None))
  | 10 => c ← first_char yytext; Ok (Some (c, None))
  | _ => Ok None
  end.

Definition yylex (text : list char) : res (Z * option Z * list char) := Flex.yylex scanner action text.

End CalcScanner.

(** ** [LEXICAL_ANALYZER/TASK/lex.yy.c] *)
Module SqlScanner.

Definition yy_accept : list Z :=
  [0; 0; 0; 11; 9; 8; 8; 4; 7; 6; 5; 5; 5; 5; 8; 4; 5; 5; 5; 5; 5; 5; 5; 2; 5; 5; 5; 3; 1; 0].

Definition yy_ec : list Z :=
  [0; 1; 1; 1; 1; 1; 1; 1; 1; 2; 3; 1; 1; 1; 1; 1; 1; 1; 1; 1; 1; 1; 1; 1; 1; 1; 1; 1; 1; 1; 1; 1; 2; 1; 1; 1;
   1; 1; 1; 1; 1; 1; 1; 1; 1; 1; 1; 1; 4; 4; 4; 4; 4; 4; 4; 4; 4; 4; 1; 5; 1; 6; 1; 1; 1; 7; 7; 8; 7; 9; 10; 7;
   11; 7; 7; 7; 12; 13; 7; 14; 7; 7; 15; 16; 17; 7; 7; 18; 7; 7; 7; 1; 1; 1; 1; 7; 1; 7; 7; 7; 7; 7; 7; 7; 7; 7;
   7; 7; 7; 7; 7; 7; 7; 7; 7; 7; 7; 7; 7; 7; 7; 7; 7; 1; 1; 1; 1; 1; 1; 1; 1; 1; 1; 1; 1; 1; 1; 1; 1; 1; 1; 1;
   1; 1; 1; 1; 1; 1; 1; 1; 1; 1; 1; 1; 1; 1; 1; 1; 1; 1; 1; 1; 1; 1; 1; 1; 1; 1; 1; 1; 1; 1; 1; 1; 1; 1; 1; 1;
   1; 1; 1; 1; 1; 1; 1; 1; 1; 1; 1; 1; 1; 1; 1; 1; 1; 1; 1; 1; 1; 1; 1; 1; 1; 1; 1; 1; 1; 1; 1; 1; 1; 1; 1; 1;
   1; 1; 1; 1; 1; 1; 1; 1; 1; 1; 1; 1; 1; 1; 1; 1; 1; 1; 1; 1; 1; 1; 1; 1; 1; 1; 1; 1; 1; 1; 1; 1; 1; 1; 1; 1;
   1; 1; 1; 1; 1; 1].

Definition yy_meta : list Z :=
  [0; 1; 1; 1; 2; 1; 1; 2; 2; 2; 2; 2; 2; 2; 2; 2; 2; 2; 2].

Definition yy_base : list Z :=
  [0; 0; 0; 40; 41; 17; 19; 35; 41; 41; 0; 23; 28; 25; 21; 31; 0; 20; 21; 23; 18; 21; 14; 0; 20; 18; 9; 0; 0;
   41; 23].

Definition yy_def : list Z :=
  [0; 29; 1; 29; 29; 29; 29; 29; 29; 29; 30; 30; 30; 30; 29; 29; 30; 30; 30; 30; 30; 30; 30; 30; 30; 30; 30; 30;
   30; 0; 29].

Definition yy_nxt : list Z :=
  [0; 4; 5; 6; 7; 8; 9; 10; 10; 10; 11; 10; 10; 10; 10; 10; 12; 10; 13; 14; 14; 14; 14; 14; 14; 16; 28; 27; 26;
   25; 24; 23; 22; 21; 20; 15; 19; 18; 17; 15; 29; 3; 29; 29; 29; 29; 29; 29; 29; 29; 29; 29; 29; 29; 29; 29;
   29; 29; 29; 29].

Definition yy_chk : list Z :=
  [0; 1; 1; 1; 1; 1; 1; 1; 1; 1; 1; 1; 1; 1; 1; 1; 1; 1; 1; 5; 5; 6; 6; 14; 14; 30; 26; 25; 24; 22; 21; 20; 19;
   18; 17; 15; 13; 12; 11; 7; 3; 29; 29; 29; 29; 29; 29; 29; 29; 29; 29; 29; 29; 29; 29; 29; 29; 29; 29; 29].

Definition scanner : Flex.tables := Flex.mktables yy_accept yy_ec yy_meta yy_base yy_def yy_nxt yy_chk 41 30.

(** sql_lex.tab.h *)
Definition SELECT_TOKEN : Z := 258.
Definition FROM_TOKEN : Z := 259.
Definition WHERE_TOKEN : Z := 260.
Definition EQ : Z := 261.
Definition SEMICOLON : Z := 262.
Definition IDENTIFIER : Z := 263.
Definition NUMBER : Z := 264.

(** [union YYSTYPE]. *)
Inductive YYSTYPE : Set := Num (num : Z) | Str (str : string).

Definition action (yy_act : Z) (yytext : list char) : res (option (Z * option YYSTYPE)) :=
  match yy_act with
  | 1 => Ok (Some (SELECT_TOKEN, None))
  | 2 => Ok (Some (FROM_TOKEN, None))
  | 3 => Ok (Some (WHERE_TOKEN, None))
  | 4 => n ← atoi (of_chars yytext); Ok (Some (NUMBER, Some (Num n)))
  | 5 => Ok (Some (IDENTIFIER, Some (Str (of_chars yytext))))
  | 6 => Ok (Some (EQ, None))
  | 7 => Ok (Some (SEMICOLON, None))
  | 8 => Ok None
  | 9 => c ← first_char yytext; Ok (Some (c, None))
  | _ => Ok None
  end.

Definition yylex (text : list char) : res (Z * option YYSTYPE * list char) := Flex.yylex scanner action text.

End SqlScanner.

(** ** What the tables recognise *)
Module FlexSpec.
Import Flex.

Lemma signed_code_bound c : signed_code c ≤ 127.
Proof. unfold signed_code, code. pose proof (Ascii.nat_ascii_bounded c). case_match; lia. Qed.

(** The longest prefix whose characters satisfy a test, and the rest. *)
Fixpoint run (P : char → bool) (l : list char) : list char :=
  match l with c :: l' => if P c then c :: run P l' else [] | [] => [] end.
Fixpoint rest (P : char → bool) (l : list char) : list char :=
  match l with c :: l' => if P c then rest P l' else l | [] => [] end.

Lemma run_rest P l : run P l ++ rest P l = l.
Proof. induction l as [|c l IH]; [done|]. cbn. destruct (P c); [|done]. cbn. by rewrite IH. Qed.

Lemma take_run P l : take (length (run P l)) l = run P l.
Proof. rewrite <- (run_rest P l) at 2. by rewrite take_app_length. Qed.

Lemma drop_run P l : drop (length (run P l)) l = rest P l.
Proof. rewrite <- (run_rest P l) at 2. by rewrite drop_app_length. Qed.

Lemma rest_rest P l : rest P (rest P l) = rest P l.
Proof. induction l as [|c l IH]; [done|]. cbn. destruct (P c) eqn:Hc; [done|]. cbn. by rewrite Hc. Qed.

Lemma length_rest P l : (length (rest P l) ≤ length l)%nat.
Proof. induction l as [|c l IH]; [done|]. cbn. destruct (P c); cbn; lia. Qed.

(** One character: its class and the next state. *)
Definition delta (T : tables) (s : Z) (ch : char) : res Z := c ← yy_class T ch; next_state 3 T s c.

(** A token that ends at once. *)
Lemma match_single T ch text s s' a n last :
  delta T s ch = Ok s' → is_ok (aget (yy_accept T) s) = true → aget (yy_base T) s' = Ok (jam_base T) → aget (yy_accept T) s' = Ok a → a ≠ 0 →
  yy_match T (ch :: text) n s last = Ok (a, S n).
Proof.
  unfold delta. cbn [yy_match]. destruct (yy_class T ch) as [c|]; [|done]. unfold mbind, res_bind. intros Hd Hs Hb Ha Hne.
  destruct (aget (yy_accept T) s) as [x|]; [|done]. cbv beta iota. rewrite Hd, Hb, Z.eqb_refl. unfold yy_find_action. rewrite Ha. unfold mbind, res_bind.
  by rewrite (proj2 (Z.eqb_neq a 0) Hne).
Qed.

(** States [R] that stay in [R] on the characters [P] and stop on the others. *)
Section Run.
Context (T : tables) (P : char → bool) (step : Z → char → Z) (R : Z → Prop) (accepts : Z → Z) (jam : Z).
Hypothesis step_in : ∀ s c, R s → P c = true → delta T s c = Ok (step s c) ∧ R (step s c).
Hypothesis step_out : ∀ s c, R s → P c = false → delta T s c = Ok jam.
Hypothesis accept_in : ∀ s, R s → aget (yy_accept T) s = Ok (accepts s) ∧ accepts s ≠ 0.
Hypothesis base_in : ∀ s, R s → ∃ b, aget (yy_base T) s = Ok b ∧ b ≠ jam_base T.
Hypothesis jam_accept : aget (yy_accept T) jam = Ok 0.
Hypothesis jam_ends : aget (yy_base T) jam = Ok (jam_base T).

Lemma match_run text n s last :
  R s → yy_match T text n s last = Ok (accepts (foldl step s (run P text)), (n + length (run P text))%nat).
Proof.
  revert n s last. induction text as [|c text IH]; intros n s last Hs; destruct (accept_in s Hs) as [Ha Hne].
  - cbn. unfold yy_find_action. rewrite Ha. unfold mbind, res_bind. rewrite (proj2 (Z.eqb_neq _ 0) Hne). by rewrite Nat.add_0_r.
  - destruct (P c) eqn:Hc.
    + destruct (step_in s c Hs Hc) as [Hd Hs']. destruct (base_in _ Hs') as (b & Hb & Hbne). unfold delta in Hd. cbn [yy_match run]. rewrite Hc.
      destruct (yy_class T c) as [k|]; [|done]. unfold mbind, res_bind in *. rewrite Ha. cbv beta iota. rewrite Hd, Hb, (proj2 (Z.eqb_neq _ _) Hbne).
      rewrite IH by done. cbn [foldl length]. do 2 f_equal. lia.
    + pose proof (step_out s c Hs Hc) as Hd. unfold delta in Hd. cbn [yy_match run]. rewrite Hc.
      destruct (yy_class T c) as [k|]; [|done]. unfold mbind, res_bind in *. rewrite Ha. cbv beta iota. rewrite Hd, jam_ends, Z.eqb_refl.
      unfold yy_find_action. rewrite jam_accept. unfold mbind, res_bind. cbn [Z.eqb]. rewrite (proj2 (Z.eqb_neq _ 0) Hne). cbn [fst snd]. rewrite Ha.
      cbn. by rewrite Nat.add_0_r.
Qed.

(** The same from a state outside of [R]. *)
Lemma match_first c text s s' :
  delta T s c = Ok s' → R s' → is_ok (aget (yy_accept T) s) = true →
  yy_match T (c :: text) 0 s (0, 0%nat) = Ok (accepts (foldl step s' (run P text)), S (length (run P text))).
Proof.
  intros Hd Hs Ha. destruct (base_in _ Hs) as (b & Hb & Hbne). unfold delta in Hd. cbn [yy_match].
  destruct (yy_class T c) as [k|]; [|done]. unfold mbind, res_bind in *. destruct (aget (yy_accept T) s) as [x|]; [|done]. cbv beta iota.
  rewrite Hd, Hb, (proj2 (Z.eqb_neq _ _) Hbne). by rewrite match_run.
Qed.

End Run.

(** A statement about every character is checked on the 256 of them. *)
Definition all_chars : list char := Ascii.ascii_of_nat <$> seq 0 256.

Lemma every_char (p : char → bool) : forallb p all_chars = true → ∀ c, p c = true.
Proof.
  intros H c. rewrite forallb_forall in H. apply H, list_elem_of_In, list_elem_of_fmap. exists (Ascii.nat_of_ascii c).
  split; [by rewrite Ascii.ascii_nat_embedding|]. apply elem_of_seq. pose proof (Ascii.nat_ascii_bounded c). lia.
Qed.

Lemma every_char_eq (p : char → bool) (f g : char → res Z) :
  forallb (λ c, negb (p c) || bool_decide (f c = g c)) all_chars = true → ∀ c, p c = true → f c = g c.
Proof. intros H c Hp. pose proof (every_char _ H c) as Hc. cbn in Hc. rewrite Hp in Hc. by apply bool_decide_eq_true_1 in Hc. Qed.

#[export] Instance char_eq_dec : EqDecision char := Ascii.ascii_dec.

(** *** The scanner of the calculator *)

Definition blank (c : char) : bool := (code c =? 32) || (code c =? 9).

(** The next token: blanks are skipped, digits are one number, every other
    character stands for itself. *)
Definition calc_token (text : list char) : res (Z * option Z * list char) :=
  match rest blank text with
  | [] => Ok (0, None, [])
  | c :: l =>
      if is_digit c then n ← atoi (of_chars (c :: run is_digit l)); Ok (CalcScanner.NUMBER, Some n, rest is_digit l)
      else Ok (signed_code c, None, l)
  end.

Abbreviation calc := CalcScanner.scanner.

(** The states of a number and of blanks. *)
Definition calc_number (s : Z) : Prop := s = 13 ∨ s = 15.
Definition calc_blank (s : Z) : Prop := s = 5 ∨ s = 14.

Lemma calc_number_step s c : calc_number s → delta calc s c = Ok (if is_digit c then 15 else 16).
Proof.
  intros [-> | ->]; apply (every_char_eq (λ _, true) (delta calc _) (λ c, Ok (if is_digit c then 15 else 16))); by vm_compute.
Qed.

Lemma calc_blank_step s c : calc_blank s → delta calc s c = Ok (if blank c then 14 else 16).
Proof.
  intros [-> | ->]; apply (every_char_eq (λ _, true) (delta calc _) (λ c, Ok (if blank c then 14 else 16))); by vm_compute.
Qed.

(** A character that is a token of its own. *)
Definition single {V} `{EqDecision V} (T : tables) (action : Z → list char → res (option (Z * option V))) (t : char → Z) (c : char) : bool :=
  match delta T 1 c with
  | Ok s =>
      match aget (yy_base T) s, aget (yy_accept T) s with
      | Ok b, Ok a => (b =? jam_base T) && negb (a =? 0) && bool_decide (action a [c] = Ok (Some (t c, None)))
      | _, _ => false
      end
  | UB _ => false
  end.

Lemma match_single_token {V} `{EqDecision V} T (action : Z → list char → res (option (Z * option V))) t c text :
  single T action t c = true → is_ok (aget (yy_accept T) 1) = true →
  ∃ a, yy_match T (c :: text) 0 1 (0, 0%nat) = Ok (a, 1%nat) ∧ action a [c] = Ok (Some (t c, None)).
Proof.
  unfold single. destruct (delta T 1 c) as [s|] eqn:Hd; [|done]. destruct (aget (yy_base T) s) as [b|] eqn:Hb; [|done].
  destruct (aget (yy_accept T) s) as [a|] eqn:Ha; [|done]. intros [[Hb'%Z.eqb_eq Ha'%negb_true_iff]%andb_prop Hact%bool_decide_eq_true_1]%andb_prop H1.
  exists a. split; [|done]. eapply match_single; [exact Hd|done|by rewrite Hb, Hb'|exact Ha|by apply Z.eqb_neq].
Qed.

Lemma calc_single c : is_digit c = false → blank c = false → single calc CalcScanner.action signed_code c = true.
Proof.
  intros Hd Hb. assert (is_digit c || blank c || single calc CalcScanner.action signed_code c = true) as H.
  { apply (every_char (λ c, is_digit c || blank c || single calc CalcScanner.action signed_code c)). by vm_compute. }
  by rewrite Hd, Hb in H.
Qed.

Lemma calc_number_start c : is_digit c = true → delta calc 1 c = Ok 13.
Proof. apply (every_char_eq is_digit (delta calc 1) (λ _, Ok 13)). by vm_compute. Qed.

Lemma calc_blank_start c : blank c = true → delta calc 1 c = Ok 5.
Proof. apply (every_char_eq blank (delta calc 1) (λ _, Ok 5)). by vm_compute. Qed.

Lemma calc_match_number c text :
  is_digit c = true → yy_match calc (c :: text) 0 1 (0, 0%nat) = Ok (1, S (length (run is_digit text))).
Proof.
  intros Hd. apply (match_first calc is_digit (λ _ _, 15) calc_number (λ _, 1) 16) with (s' := 13); try done.
  - intros s k Hs Hk. rewrite (calc_number_step s k Hs), Hk. split; [done|by right].
  - intros s k Hs Hk. by rewrite (calc_number_step s k Hs), Hk.
  - by intros s [-> | ->].
  - intros s [-> | ->]; by eexists.
  - by apply calc_number_start.
  - by left.
Qed.

Lemma calc_match_blank c text :
  blank c = true → yy_match calc (c :: text) 0 1 (0, 0%nat) = Ok (2, S (length (run blank text))).
Proof.
  intros Hd. apply (match_first calc blank (λ _ _, 14) calc_blank (λ _, 2) 16) with (s' := 5); try done.
  - intros s k Hs Hk. rewrite (calc_blank_step s k Hs), Hk. split; [done|by right].
  - intros s k Hs Hk. by rewrite (calc_blank_step s k Hs), Hk.
  - by intros s [-> | ->].
  - intros s [-> | ->]; by eexists.
  - by apply calc_blank_start.
  - by left.
Qed.

Lemma calc_loop_ok fuel text : (length text ≤ fuel)%nat → yylex_loop calc CalcScanner.action fuel text = calc_token text.
Proof.
  revert text. induction fuel as [|fuel IH]; intros [|c text] Hf; try done; [cbn in Hf; lia|].
  cbn [yylex_loop]. unfold calc_token. cbn [rest]. destruct (blank c) eqn:Hb.
  - rewrite calc_match_blank by done. cbn. rewrite drop_run. rewrite IH by (pose proof (length_rest blank text); cbn in Hf; lia). unfold calc_token.
    by rewrite rest_rest.
  - destruct (is_digit c) eqn:Hd.
    + rewrite calc_match_number by done. unfold mbind at 1, res_bind at 1. cbn [take drop]. rewrite take_run, drop_run. unfold CalcScanner.action.
      destruct (atoi (of_chars (c :: run is_digit text))); done.
    + destruct (match_single_token calc CalcScanner.action signed_code c text (calc_single c Hd Hb) eq_refl) as (a & Hm & Ha).
      rewrite Hm. unfold mbind at 1, res_bind at 1. change (take 1 (c :: text)) with [c]. change (drop 1 (c :: text)) with text. rewrite Ha. done.
Qed.

(** The flex tables of the calculator recognise exactly these tokens. *)
Lemma calc_yylex text : CalcScanner.yylex text = calc_token text.
Proof. apply calc_loop_ok. done. Qed.

(** *** The scanner of the SQL parser *)

Definition white (c : char) : bool := (code c =? 32) || (code c =? 9) || (code c =? 10).
Definition word_start (c : char) : bool :=
  (65 <=? code c) && (code c <=? 90) || (97 <=? code c) && (code c <=? 122) || (code c =? 95).
Definition word_char (c : char) : bool := word_start c || is_digit c.

(** The token of a word. *)
Definition word_token (w : list char) : Z * option SqlScanner.YYSTYPE :=
  if decide (of_chars w = "SELECT"%string) then (SqlScanner.SELECT_TOKEN, None)
  else if decide (of_chars w = "FROM"%string) then (SqlScanner.FROM_TOKEN, None)
  else if decide (of_chars w = "WHERE"%string) then (SqlScanner.WHERE_TOKEN, None)
  else (SqlScanner.IDENTIFIER, Some (SqlScanner.Str (of_chars w))).

(** The token of any other character. *)
Definition sign_token (c : char) : Z :=
  if code c =? 61 then SqlScanner.EQ else if code c =? 59 then SqlScanner.SEMICOLON else signed_code c.

Definition sql_token (text : list char) : res (Z * option SqlScanner.YYSTYPE * list char) :=
  match rest white text with
  | [] => Ok (0, None, [])
  | c :: l =>
      if is_digit c then n ← atoi (of_chars (c :: run is_digit l)); Ok (SqlScanner.NUMBER, Some (SqlScanner.Num n), rest is_digit l)
      else if word_start c then Ok (word_token (c :: run word_char l), rest word_char l)
      else Ok (sign_token c, None, l)
  end.

Abbreviation sql := SqlScanner.scanner.

#[export] Instance yystype_eq_dec : EqDecision SqlScanner.YYSTYPE.
Proof. solve_decision. Defined.

(** The keyword automaton: [path] is the only word that leads to a state. *)
Definition word_first (c : char) : Z := if code c =? 70 then 11 else if code c =? 83 then 12 else if code c =? 87 then 13 else 10.

Definition edge (s : Z) : option (Z * Z) :=
  match s with
  | 11 => Some (82, 17) | 17 => Some (79, 20) | 20 => Some (77, 23)
  | 12 => Some (69, 18) | 18 => Some (76, 21) | 21 => Some (69, 24) | 24 => Some (67, 26) | 26 => Some (84, 28)
  | 13 => Some (72, 19) | 19 => Some (69, 22) | 22 => Some (82, 25) | 25 => Some (69, 27)
  | _ => None
  end.

Definition word_next (s : Z) (c : char) : Z :=
  match edge s with Some (k, s') => if code c =? k then s' else 16 | None => 16 end.

Definition path (s : Z) : option string :=
  match s with
  | 11 => Some "F" | 17 => Some "FR" | 20 => Some "FRO" | 23 => Some "FROM"
  | 12 => Some "S" | 18 => Some "SE" | 21 => Some "SEL" | 24 => Some "SELE" | 26 => Some "SELEC" | 28 => Some "SELECT"
  | 13 => Some "W" | 19 => Some "WH" | 22 => Some "WHE" | 25 => Some "WHER" | 27 => Some "WHERE"
  | _ => None
  end%string.

Definition word_states : list Z := [10; 11; 12; 13; 16; 17; 18; 19; 20; 21; 22; 23; 24; 25; 26; 27; 28].
Definition word_accept (s : Z) : Z := if s =? 28 then 1 else if s =? 23 then 2 else if s =? 27 then 3 else 5.

(** The tables agree with this automaton: every state is checked. *)
Lemma word_states_ind (p : Z → bool) : forallb p word_states = true → ∀ s, s ∈ word_states → p s = true.
Proof. intros H s Hs. rewrite forallb_forall in H. by apply H, list_elem_of_In. Qed.

Definition word_step_ok (s : Z) (c : char) : bool :=
  bool_decide (delta sql s c = Ok (if word_char c then word_next s c else 29)) && bool_decide (word_next s c ∈ word_states).

Lemma word_step s c :
  s ∈ word_states → delta sql s c = Ok (if word_char c then word_next s c else 29) ∧ word_next s c ∈ word_states.
Proof.
  intros Hs. assert (forallb (word_step_ok s) all_chars = true) as H
    by (apply (word_states_ind (λ s, forallb (word_step_ok s) all_chars)); [by vm_compute|done]).
  pose proof (every_char _ H c) as [H1%bool_decide_eq_true_1 H2%bool_decide_eq_true_1]%andb_prop. done.
Qed.

Definition word_state_ok (s : Z) : bool :=
  bool_decide (aget (yy_accept sql) s = Ok (word_accept s)) && negb (word_accept s =? 0) &&
  match aget (yy_base sql) s with Ok b => negb (b =? jam_base sql) | _ => false end.

Lemma word_accepts s :
  s ∈ word_states → aget (yy_accept sql) s = Ok (word_accept s) ∧ word_accept s ≠ 0 ∧ ∃ b, aget (yy_base sql) s = Ok b ∧ b ≠ jam_base sql.
Proof.
  intros Hs. pose proof (word_states_ind word_state_ok eq_refl s Hs) as H. unfold word_state_ok in H.
  apply andb_prop in H as [[H1%bool_decide_eq_true_1 H2%negb_true_iff%Z.eqb_neq]%andb_prop H3]. split_and!; [done..|].
  destruct (aget (yy_base sql) s) as [b|]; [|done]. exists b. split; [done|]. by apply Z.eqb_neq, negb_true_iff.
Qed.

Lemma code_inj a b : code a = code b → a = b.
Proof. unfold code. intros H%Nat2Z.inj. by rewrite <- (Ascii.ascii_nat_embedding a), H, Ascii.ascii_nat_embedding. Qed.

Lemma of_chars_app a b : of_chars (a ++ b) = (of_chars a +:+ of_chars b)%string.
Proof. unfold of_chars. induction a as [|c a IH]; [done|]. cbn. by rewrite IH. Qed.

(** Only one word leads to a state of a keyword. *)
Definition path_first_ok (c : char) : bool :=
  match path (word_first c) with Some p => bool_decide (p = of_chars [c]) | None => true end.

Lemma path_first c p : path (word_first c) = Some p → p = of_chars [c].
Proof.
  pose proof (every_char path_first_ok eq_refl c) as H. unfold path_first_ok in H. intros Hp. rewrite Hp in H. by apply bool_decide_eq_true_1 in H.
Qed.

Definition path_ok (s : Z) (c : char) : bool :=
  match path (word_next s c) with
  | None => true
  | Some p => match path s with Some q => bool_decide (p = q +:+ of_chars [c])%string | None => false end
  end.

Lemma path_next s c p :
  s ∈ word_states → path (word_next s c) = Some p → ∃ q, path s = Some q ∧ p = (q +:+ of_chars [c])%string.
Proof.
  intros Hs Hp. assert (forallb (path_ok s) all_chars = true) as H by (apply (word_states_ind (λ s, forallb (path_ok s) all_chars)); [by vm_compute|done]).
  pose proof (every_char _ H c) as Hc. unfold path_ok in Hc. rewrite Hp in Hc. destruct (path s) as [q|]; [|done]. exists q. split; [done|].
  by apply bool_decide_eq_true_1 in Hc.
Qed.

Lemma word_first_in c : word_first c ∈ word_states.
Proof. unfold word_first, word_states. repeat case_match; by apply (bool_decide_eq_true_1 (_ ∈ _)). Qed.

Lemma word_run_in s w : s ∈ word_states → foldl word_next s w ∈ word_states.
Proof. revert s. induction w as [|c w IH]; intros s Hs; [done|]. cbn. apply IH. by apply word_step. Qed.

Lemma path_word c w p : path (foldl word_next (word_first c) w) = Some p → p = of_chars (c :: w).
Proof.
  revert p. induction w as [|x w IH] using rev_ind; intros p; [apply path_first|]. rewrite foldl_app. cbn [foldl]. intros Hp.
  apply path_next in Hp as (q & Hq & ->); [|apply word_run_in, word_first_in]. rewrite (IH _ Hq). change (c :: w ++ [x]) with ((c :: w) ++ [x]).
  by rewrite of_chars_app.
Qed.

Lemma of_chars_inj a b : of_chars a = of_chars b → a = b.
Proof. revert b. induction a as [|x a IH]; intros [|y b] H; try done. cbn in H. injection H as -> H. f_equal. by apply IH. Qed.

(** The rule that matches a word. *)
Lemma word_action c w :
  SqlScanner.action (word_accept (foldl word_next (word_first c) w)) (c :: w) = Ok (Some (word_token (c :: w))).
Proof.
  pose proof (path_word c w) as Hp. set (s := foldl word_next (word_first c) w) in *. unfold word_accept.
  destruct (Z.eqb_spec s 28) as [E|N1]; [rewrite E in Hp; specialize (Hp _ eq_refl); unfold word_token; by rewrite <- Hp|].
  destruct (Z.eqb_spec s 23) as [E|N2]; [rewrite E in Hp; specialize (Hp _ eq_refl); unfold word_token; by rewrite <- Hp|].
  destruct (Z.eqb_spec s 27) as [E|N3]; [rewrite E in Hp; specialize (Hp _ eq_refl); unfold word_token; by rewrite <- Hp|].
  unfold SqlScanner.action, word_token.
  assert (∀ k, of_chars (c :: w) = of_chars k → s = match k with k0 :: k' => foldl word_next (word_first k0) k' | [] => s end) as Hk.
  { intros [|k0 k'] Hk%of_chars_inj; [done|]. by injection Hk as <- <-. }
  destruct (decide (of_chars (c :: w) = "SELECT"%string)) as [E|_]; [destruct N1; exact (Hk (String.list_ascii_of_string "SELECT") E)|].
  destruct (decide (of_chars (c :: w) = "FROM"%string)) as [E|_]; [destruct N2; exact (Hk (String.list_ascii_of_string "FROM") E)|].
  destruct (decide (of_chars (c :: w) = "WHERE"%string)) as [E|_]; [destruct N3; exact (Hk (String.list_ascii_of_string "WHERE") E)|]. done.
Qed.

Definition sql_number (s : Z) : Prop := s = 7 ∨ s = 15.
Definition sql_white (s : Z) : Prop := s = 5 ∨ s = 6 ∨ s = 14.

Lemma sql_number_step s c : sql_number s → delta sql s c = Ok (if is_digit c then 15 else 29).
Proof.
  intros [-> | ->]; apply (every_char_eq (λ _, true) (delta sql _) (λ c, Ok (if is_digit c then 15 else 29))); by vm_compute.
Qed.

Lemma sql_white_step s c : sql_white s → delta sql s c = Ok (if white c then 14 else 29).
Proof.
  intros [-> | [-> | ->]]; apply (every_char_eq (λ _, true) (delta sql _) (λ c, Ok (if white c then 14 else 29))); by vm_compute.
Qed.

Lemma sql_match_number c text :
  is_digit c = true → yy_match sql (c :: text) 0 1 (0, 0%nat) = Ok (4, S (length (run is_digit text))).
Proof.
  intros Hd. apply (match_first sql is_digit (λ _ _, 15) sql_number (λ _, 4) 29) with (s' := 7); try done.
  - intros s k Hs Hk. rewrite (sql_number_step s k Hs), Hk. split; [done|by right].
  - intros s k Hs Hk. by rewrite (sql_number_step s k Hs), Hk.
  - by intros s [-> | ->].
  - intros s [-> | ->]; by eexists.
  - revert c Hd. apply (every_char_eq is_digit (delta sql 1) (λ _, Ok 7)). by vm_compute.
  - by left.
Qed.

Lemma sql_match_white c text :
  white c = true → yy_match sql (c :: text) 0 1 (0, 0%nat) = Ok (8, S (length (run white text))).
Proof.
  intros Hd. apply (match_first sql white (λ _ _, 14) sql_white (λ _, 8) 29) with (s' := if code c =? 10 then 6 else 5); try done.
  - intros s k Hs Hk. rewrite (sql_white_step s k Hs), Hk. split; [done|by right; right].
  - intros s k Hs Hk. by rewrite (sql_white_step s k Hs), Hk.
  - by intros s [-> | [-> | ->]].
  - intros s [-> | [-> | ->]]; by eexists.
  - revert c Hd. apply (every_char_eq white (delta sql 1) (λ c, Ok (if code c =? 10 then 6 else 5))). by vm_compute.
  - destruct (code c =? 10); [by right; left|by left].
Qed.

Lemma sql_match_word c text :
  word_start c = true →
  yy_match sql (c :: text) 0 1 (0, 0%nat) = Ok (word_accept (foldl word_next (word_first c) (run word_char text)), S (length (run word_char text))).
Proof.
  intros Hd. apply (match_first sql word_char word_next (λ s, s ∈ word_states) word_accept 29); try done.
  - intros s k Hs Hk. destruct (word_step s k Hs) as [H1 H2]. rewrite Hk in H1. done.
  - intros s k Hs Hk. destruct (word_step s k Hs) as [H1 H2]. by rewrite Hk in H1.
  - intros s Hs. by destruct (word_accepts s Hs) as (? & ? & _).
  - intros s Hs. by destruct (word_accepts s Hs) as (_ & _ & ?).
  - revert c Hd. apply (every_char_eq word_start (delta sql 1) (λ c, Ok (word_first c))). by vm_compute.
  - apply word_first_in.
Qed.

Definition sql_single_ok (c : char) : bool :=
  is_digit c || white c || word_start c || single sql SqlScanner.action sign_token c.

Lemma sql_single c :
  is_digit c = false → white c = false → word_start c = false → single sql SqlScanner.action sign_token c = true.
Proof.
  intros H1 H2 H3. pose proof (every_char sql_single_ok eq_refl c) as H. unfold sql_single_ok in H. by rewrite H1, H2, H3 in H.
Qed.

Lemma sql_loop_ok fuel text : (length text ≤ fuel)%nat → yylex_loop sql SqlScanner.action fuel text = sql_token text.
Proof.
  revert text. induction fuel as [|fuel IH]; intros [|c text] Hf; try done; [cbn in Hf; lia|].
  cbn [yylex_loop]. unfold sql_token. cbn [rest]. destruct (white c) eqn:Hb.
  - rewrite sql_match_white by done. cbn. rewrite drop_run. rewrite IH by (pose proof (length_rest white text); cbn in Hf; lia). unfold sql_token.
    by rewrite rest_rest.
  - destruct (is_digit c) eqn:Hd.
    + rewrite sql_match_number by done. unfold mbind at 1, res_bind at 1. cbn [take drop]. rewrite take_run, drop_run. unfold SqlScanner.action.
      destruct (atoi (of_chars (c :: run is_digit text))); done.
    + destruct (word_start c) eqn:Hw.
      * rewrite sql_match_word by done. unfold mbind at 1, res_bind at 1. cbn [take drop]. rewrite take_run, drop_run. by rewrite word_action.
      * destruct (match_single_token sql SqlScanner.action sign_token c text (sql_single c Hd Hb Hw) eq_refl) as (a & Hm & Ha).
        rewrite Hm. unfold mbind at 1, res_bind at 1. change (take 1 (c :: text)) with [c]. change (drop 1 (c :: text)) with text. rewrite Ha. done.
Qed.

(** The flex tables of the SQL parser recognise exactly these tokens. *)
Lemma sql_yylex text : SqlScanner.yylex text = sql_token text.
Proof. apply sql_loop_ok. done. Qed.

End FlexSpec.

(** ** Theorems *)
Import FlexSpec.

(** C14: on every text both flex scanners return the token that a direct
    description gives: blanks are skipped, digits make one number, in the SQL
    scanner letters, digits and underscores make one word, which is a keyword
    only if it is exactly one of the three, and every other character is a token
    of its own.  The compressed tables are never read outside their bounds, and
    the loops end. *)
Theorem scanners_exact text :
  CalcScanner.yylex text = calc_token text ∧ SqlScanner.yylex text = sql_token text.
Proof. split; [apply calc_yylex|apply sql_yylex]. Qed.
