(* ===== verification/Bison.v ===== *)
(** * The parser skeleton: [yyparse] in [lex_analyzer.tab.c] and [sql_lex.tab.c]

    Both files are bison output: the same automaton over different tables, with
    the actions of their rules.  [Bison] is the automaton, generic in the tables,
    the scanner and the actions; a step goes from one entry of the label
    [yysetstate] to the next.  [BisonSpec] holds what is true of any tables: runs
    are deterministic, and a measure that every step lowers bounds the fuel. *)
From stdpp Require Import base list relations strings.
From Stdlib Require Import ZArith Lia.
From S2P Require Import Prelude.
Local Open Scope Z_scope.

Module Bison.

Definition YYEOF : Z := 0.
Definition YYerror : Z := 256.
Definition YYUNDEF : Z := 257.
Definition YYSYMBOL_YYEOF : Z := 0.
Definition YYSYMBOL_YYerror : Z := 1.
Definition YYSYMBOL_YYUNDEF : Z := 2.
Definition YYMAXDEPTH : Z := 10000.

Record tables : Set := mktables {
  yytranslate : list Z; yypact : list Z; yydefact : list Z; yypgoto : list Z; yydefgoto : list Z;
  yytable : list Z; yycheck : list Z; yyr1 : list Z; yyr2 : list Z;
  YYFINAL : Z; YYLAST : Z; YYNTOKENS : Z; YYMAXUTOK : Z; YYPACT_NINF : Z }.

Section Yyparse.

(** Semantic values, the scanner with its state, and the actions: the value of
    the left side and the text printed, from the values on the stack, the top
    first.  A token without a value leaves [yylval] as it was: what is pushed
    then is [None], and no action may read it. *)
Context {V S : Type} (T : tables) (yylex : S → res (Z * option V * S))
  (action : Z → list (option V) → res (option V * list string)) (yyerror : string → string).

(** The stacks, the top first, the lookahead ([None] is [YYEMPTY]) with its
    value, the scanner, [yyerrstatus] and the text printed. *)
Record config : Type := mkconfig {
  yyss : list Z; yyvs : list (option V); yychar : option (Z * option V); input : S;
  yyerrstatus : Z; out : list string }.

Inductive outcome : Type := Running (c : config) | Returned (yyresult : Z) (c : config).

(** [YYTRANSLATE]. *)
Definition translate (t : Z) : res Z :=
  if (0 <=? t) && (t <=? YYMAXUTOK T) then aget (yytranslate T) t else Ok YYSYMBOL_YYUNDEF.

(** [*yyssp] *)
Definition top (ss : list Z) : res Z := match ss with s :: _ => Ok s | [] => UB OutOfBounds end.

(** [YYPOPSTACK(n)]. *)
Definition pop {A} (n : Z) (l : list A) : res (list A) :=
  if (0 <=? n) && (n <=? Z.of_nat (length l)) then Ok (drop (Z.to_nat n) l) else UB OutOfBounds.

(** [yyreduce]: rule [yyn]. *)
Definition yyreduce (yyn : Z) (c : config) : res outcome :=
  yylen ← aget (yyr2 T) yyn;
  '(yyval, text) ← action yyn (yyvs c);
  ss ← pop yylen (yyss c);
  vs ← pop yylen (yyvs c);
  lhs ← aget (yyr1 T) yyn;
  let yylhs := lhs - YYNTOKENS T in
  s ← top ss;
  g ← aget (yypgoto T) yylhs;
  let yyi := g + s in
  hit ← (if (0 <=? yyi) && (yyi <=? YYLAST T) then k ← aget (yycheck T) yyi; Ok (k =? s) else Ok false);
  yystate ← (if hit : bool then aget (yytable T) yyi else aget (yydefgoto T) yylhs);
  Ok (Running (mkconfig (yystate :: ss) (yyval :: vs) (yychar c) (input c) (yyerrstatus c) (out c ++ text))).

(** [yyerrlab1]: pop until a state shifts the error token. *)
Fixpoint pop_error (ss : list Z) (vs : list (option V)) : res (option (Z * list Z * list (option V))) :=
  match ss, vs with
  | s :: ss', _ :: vs' =>
      n ← aget (yypact T) s;
      let yyn := n + YYSYMBOL_YYerror in
      hit ← (if negb (n =? YYPACT_NINF T) && (0 <=? yyn) && (yyn <=? YYLAST T) then
               k ← aget (yycheck T) yyn; Ok (k =? YYSYMBOL_YYerror)
             else Ok false);
      yyn ← (if hit : bool then aget (yytable T) yyn else Ok 0);
      if 0 <? yyn then Ok (Some (yyn, ss, vs))
      else match ss' with [] => Ok None | _ => pop_error ss' vs' end
  | _, _ => UB OutOfBounds
  end.

Definition yyerrlab1 (c : config) : res outcome :=
  r ← pop_error (yyss c) (yyvs c);
  match r with
  | None => Ok (Returned 1 c)
  | Some (yyn, ss, vs) =>
      let yylval := match yychar c with Some (_, v) => v | None => None end in
      Ok (Running (mkconfig (yyn :: ss) (yylval :: vs) (yychar c) (input c) 3 (out c)))
  end.

(** [yyerrlab]: report, and give up at the end of the input. *)
Definition yyerrlab (c : config) : res outcome :=
  let c := if yyerrstatus c =? 0 then mkconfig (yyss c) (yyvs c) (yychar c) (input c) (yyerrstatus c) (out c ++ [yyerror "syntax error"]) else c in
  if yyerrstatus c =? 3 then
    match yychar c with
    | Some (t, _) =>
        if t <=? YYEOF then (if t =? YYEOF then Ok (Returned 1 c) else yyerrlab1 c)
        else yyerrlab1 (mkconfig (yyss c) (yyvs c) None (input c) (yyerrstatus c) (out c))
    | None => yyerrlab1 c
    end
  else yyerrlab1 c.

(** [yydefault]. *)
Definition yydefault (yystate : Z) (c : config) : res outcome :=
  yyn ← aget (yydefact T) yystate;
  if yyn =? 0 then yyerrlab c else yyreduce yyn c.

(** The lookahead of [yybackup], read if there is none. *)
Definition lookahead (c : config) : res (Z * option V * config) :=
  match yychar c with
  | Some t => Ok (t, c)
  | None =>
      '(t, s) ← yylex (input c);
      Ok (t, mkconfig (yyss c) (yyvs c) (Some t) s (yyerrstatus c) (out c))
  end.

Definition set_char (t : Z) (v : option V) (c : config) : config :=
  mkconfig (yyss c) (yyvs c) (Some (t, v)) (input c) (yyerrstatus c) (out c).

(** The rest of [yybackup] once the symbol is known. *)
Definition on_token (yystate yyn yytoken : Z) (v : option V) (c : config) : res outcome :=
  let yyn := yyn + yytoken in
  if (yyn <? 0) || (YYLAST T <? yyn) then yydefault yystate c
  else
    k ← aget (yycheck T) yyn;
    if negb (k =? yytoken) then yydefault yystate c
    else
      yyn ← aget (yytable T) yyn;
      if yyn <=? 0 then yyreduce (- yyn) c
      else
        let e := if yyerrstatus c =? 0 then 0 else yyerrstatus c - 1 in
        Ok (Running (mkconfig (yyn :: yyss c) (v :: yyvs c) None (input c) e (out c))).

Definition yybackup (yystate : Z) (c : config) : res outcome :=
  yyn ← aget (yypact T) yystate;
  if yyn =? YYPACT_NINF T then yydefault yystate c
  else
    '(t, v, c) ← lookahead c;
    if t <=? YYEOF then on_token yystate yyn YYSYMBOL_YYEOF v (set_char YYEOF v c)
    else if t =? YYerror then yyerrlab1 (set_char YYUNDEF v c)
    else yytoken ← translate t; on_token yystate yyn yytoken v c.

(** From [yysetstate] to the next one; the stacks may grow to [YYMAXDEPTH]. *)
Definition step (c : config) : res outcome :=
  yystate ← top (yyss c);
  if YYMAXDEPTH <=? Z.of_nat (length (yyss c)) then
    Ok (Returned 2 (mkconfig (yyss c) (yyvs c) (yychar c) (input c) (yyerrstatus c) (out c ++ [yyerror "memory exhausted"])))
  else if yystate =? YYFINAL T then Ok (Returned 0 c)
  else yybackup yystate c.

Fixpoint run (fuel : nat) (c : config) : res (Z * config) :=
  r ← step c;
  match r, fuel with
  | Returned r c, _ => Ok (r, c)
  | Running c, Datatypes.S fuel => run fuel c
  | Running c, O => UB OutOfFuel
  end.

Definition start (s : S) : config := mkconfig [0] [None] None s 0 [].

(** [yyparse]: the result and the text printed. *)
Definition yyparse (fuel : nat) (s : S) : res (Z * list string) :=
  '(r, c) ← run fuel (start s); Ok (r, out c).

End Yyparse.

End Bison.

Module BisonSpec.
Import Bison.

Section Runs.
Context {V S : Type} (T : tables) (yylex : S → res (Z * option V * S))
  (action : Z → list (option V) → res (option V * list string)) (yyerror : string → string).

Abbreviation step := (step T yylex action yyerror).
Abbreviation run := (run T yylex action yyerror).

Definition steps : relation config := rtc (λ c c', step c = Ok (Running c')).

(** A measure that every step lowers, under an invariant, bounds the fuel. *)
Lemma run_total (inv : config → Prop) (measure : config → nat) fuel c :
  (∀ c r, inv c → step c = Ok r → match r with Running c' => inv c' ∧ (measure c' < measure c)%nat | Returned _ _ => True end) →
  inv c → (measure c ≤ fuel)%nat → run fuel c ≠ UB OutOfFuel ∨ ∃ c', steps c c' ∧ inv c' ∧ step c' = UB OutOfFuel.
Proof.
  intros Hstep. revert c. induction fuel as [|fuel IH]; intros c Hi Hm; cbn [Bison.run].
  - destruct (step c) as [[c'|r c']|e] eqn:Hs; unfold mbind, res_bind; try (by left).
    + apply Hstep in Hs as [_ Hlt]; [lia|done].
    + destruct e; try (by left). right. exists c. split; [apply rtc_refl|done].
  - destruct (step c) as [[c'|r c']|e] eqn:Hs; unfold mbind, res_bind; try (by left).
    + pose proof (Hstep _ _ Hi Hs) as [Hi' Hlt]. destruct (IH c' Hi') as [|(c2 & H1 & H2 & H3)]; [lia|by left|].
      right. exists c2. split; [by eapply rtc_l|done].
    + destruct e; try (by left). right. exists c. split; [apply rtc_refl|done].
Qed.

(** What a run comes to. *)
Lemma run_by_steps fuel c c' r c'' :
  steps c c' → step c' = Ok (Returned r c'') → run fuel c = Ok (r, c'') ∨ run fuel c = UB OutOfFuel.
Proof.
  intros Hr Hs. revert fuel. induction Hr as [c|c1 c2 c3 H12 _ IH]; intros fuel.
  - left. destruct fuel; cbn [Bison.run]; by rewrite Hs.
  - destruct fuel as [|fuel]; cbn [Bison.run]; rewrite H12; unfold mbind, res_bind; [by right|by apply IH].
Qed.

(** A run that returns is a sequence of steps. *)
Lemma run_returns fuel c r c'' : run fuel c = Ok (r, c'') → ∃ c', steps c c' ∧ step c' = Ok (Returned r c'').
Proof.
  revert c. induction fuel as [|fuel IH]; intros c; cbn [Bison.run]; destruct (step c) as [[c'|r' c']|e] eqn:Hs; unfold mbind, res_bind; try done.
  - intros [= -> ->]. exists c. by split; [apply rtc_refl|].
  - intros H. destruct (IH c' H) as (c2 & H1 & H2). exists c2. split; [by eapply rtc_l|done].
  - intros [= -> ->]. exists c. by split; [apply rtc_refl|].
Qed.

Lemma run_UB fuel c e : run fuel c = UB e → e = OutOfFuel ∨ ∃ c', steps c c' ∧ step c' = UB e.
Proof.
  revert c. induction fuel as [|fuel IH]; intros c; cbn [Bison.run]; destruct (step c) as [[c'|r' c']|e'] eqn:Hs; unfold mbind, res_bind; try done.
  - intros [= <-]. by left.
  - intros [= <-]. right. exists c. by split; [apply rtc_refl|].
  - intros H. destruct (IH c' H) as [|(c2 & H1 & H2)]; [by left|]. right. exists c2. split; [by eapply rtc_l|done].
  - intros [= <-]. right. exists c. by split; [apply rtc_refl|].
Qed.

Lemma steps_keep (inv : config → Prop) c c' :
  (∀ c c', inv c → step c = Ok (Running c') → inv c') → inv c → steps c c' → inv c'.
Proof. intros Hstep Hi Hr. induction Hr as [|c1 c2 c3 H12 _ IH]; [done|]. by eapply IH, Hstep. Qed.

End Runs.

(** *** Decisions of the automaton *)

Inductive decision : Set := Shift (yystate : Z) | Reduce (yyn : Z) | Error.

#[global] Instance decision_eq_dec : EqDecision decision.
Proof. solve_decision. Defined.

Definition by_default (T : tables) (s : Z) : res decision :=
  r ← aget (yydefact T) s; Ok (if r =? 0 then Error else Reduce r).

(** In state [s] with entry [yyn] on symbol [k]. *)
Definition decision_of (T : tables) (s yyn k : Z) : res decision :=
  if (yyn + k <? 0) || (YYLAST T <? yyn + k) then by_default T s
  else
    x ← aget (yycheck T) (yyn + k);
    if negb (x =? k) then by_default T s
    else x ← aget (yytable T) (yyn + k); Ok (if x <=? 0 then Reduce (- x) else Shift x).

(** The state behind a nonterminal. *)
Definition goto (T : tables) (yyn s : Z) : res Z :=
  lhs ← aget (yyr1 T) yyn;
  g ← aget (yypgoto T) (lhs - YYNTOKENS T);
  hit ← (if (0 <=? g + s) && (g + s <=? YYLAST T) then k ← aget (yycheck T) (g + s); Ok (k =? s) else Ok false);
  if hit : bool then aget (yytable T) (g + s) else aget (yydefgoto T) (lhs - YYNTOKENS T).

Section Steps.
Context {V S : Type} (T : tables) (yylex : S → res (Z * option V * S))
  (action : Z → list (option V) → res (option V * list string)) (yyerror : string → string).

Lemma on_token_decision s yyn k v (c : config (V:=V) (S:=S)) dec :
  decision_of T s yyn k = Ok dec →
  on_token T action yyerror s yyn k v c =
    match dec with
    | Shift n => Ok (Running (mkconfig (n :: yyss c) (v :: yyvs c) None (input c) (if yyerrstatus c =? 0 then 0 else yyerrstatus c - 1) (out c)))
    | Reduce r => yyreduce T action r c
    | Error => yyerrlab T yyerror c
    end.
Proof.
  unfold decision_of, on_token, yydefault, by_default, mbind, res_bind. destruct ((yyn + k <? 0) || (YYLAST T <? yyn + k)).
  - destruct (aget (yydefact T) s) as [r|]; [|done]. intros [= <-]. by destruct (r =? 0).
  - destruct (aget (yycheck T) (yyn + k)) as [x|]; [|done]. destruct (negb (x =? k)).
    + destruct (aget (yydefact T) s) as [r|]; [|done]. intros [= <-]. by destruct (r =? 0).
    + destruct (aget (yytable T) (yyn + k)) as [y|]; [|done]. intros [= <-]. by destruct (y <=? 0).
Qed.

(** A reduction pops the right side and pushes the left side. *)
Lemma yyreduce_ok r p1 p2 s ss vs la inp e o v text s' :
  aget (yyr2 T) r = Ok (Z.of_nat (length p1)) → length p2 = length p1 → action r (p2 ++ vs) = Ok (v, text) → goto T r s = Ok s' →
  yyreduce T action r (mkconfig (S:=S) (p1 ++ s :: ss) (p2 ++ vs) la inp e o) = Ok (Running (mkconfig (s' :: s :: ss) (v :: vs) la inp e (o ++ text))).
Proof.
  intros Hr Hl Ha Hg. unfold yyreduce. cbn [yyss yyvs yychar input yyerrstatus out]. rewrite Hr. unfold mbind, res_bind. rewrite Ha.
  assert (∀ {A} (p l : list A), length p = length p1 → pop (Z.of_nat (length p1)) (p ++ l) = Ok l) as Hp.
  { intros A p l Hp. unfold pop. rewrite length_app, Hp. destruct (Z.leb_spec 0 (Z.of_nat (length p1))); [|lia].
    destruct (Z.leb_spec (Z.of_nat (length p1)) (Z.of_nat (length p1 + length l))); [|lia]. cbn [andb]. by rewrite Nat2Z.id, <- Hp, drop_app_length. }
  rewrite !Hp by done. unfold goto, mbind, res_bind in Hg. destruct (aget (yyr1 T) r) as [lhs|]; [|done]. cbn [top].
  destruct (aget (yypgoto T) (lhs - YYNTOKENS T)) as [g|]; [|done]. cbv zeta.
  destruct (if (0 <=? g + s) && (g + s <=? YYLAST T) then _ else _) as [b|]; [|done]. by rewrite Hg.
Qed.

Lemma yyreduce_UB r (c : config (V:=V) (S:=S)) n e :
  aget (yyr2 T) r = Ok n → action r (yyvs c) = UB e → yyreduce T action r c = UB e.
Proof. intros Hr Ha. unfold yyreduce, mbind, res_bind. by rewrite Hr, Ha. Qed.

(** A state that needs no lookahead. *)
Lemma step_default s ss vs la inp e o r :
  Z.of_nat (length (s :: ss)) < YYMAXDEPTH → s ≠ YYFINAL T → aget (yypact T) s = Ok (YYPACT_NINF T) → aget (yydefact T) s = Ok r → r ≠ 0 →
  step T yylex action yyerror (mkconfig (s :: ss) vs la inp e o) = yyreduce T action r (mkconfig (s :: ss) vs la inp e o).
Proof.
  intros Hd Hf Hp Hr Hn. unfold step. cbn [yyss top]. unfold mbind, res_bind. destruct (Z.leb_spec YYMAXDEPTH (Z.of_nat (length (s :: ss)))); [lia|].
  rewrite (proj2 (Z.eqb_neq _ _) Hf). unfold yybackup. rewrite Hp. unfold mbind, res_bind. rewrite Z.eqb_refl. unfold yydefault. rewrite Hr.
  unfold mbind, res_bind. by rewrite (proj2 (Z.eqb_neq _ _) Hn).
Qed.

(** A state that looks at the next token: at the end of the input, and before. *)
Lemma step_look s ss vs (c : config (V:=V) (S:=S)) yyn t v c' :
  yyss c = s :: ss → yyvs c = vs → Z.of_nat (length (s :: ss)) < YYMAXDEPTH → s ≠ YYFINAL T → aget (yypact T) s = Ok yyn → yyn ≠ YYPACT_NINF T →
  lookahead yylex c = Ok (t, v, c') → t ≠ YYerror →
  step T yylex action yyerror c =
    (if t <=? YYEOF then on_token T action yyerror s yyn YYSYMBOL_YYEOF v (set_char YYEOF v c')
     else k ← translate T t; on_token T action yyerror s yyn k v c').
Proof.
  intros Hs Hv Hd Hf Hp Hn Hl Ht. unfold step. rewrite Hs. cbn [top]. unfold mbind at 1, res_bind at 1.
  destruct (Z.leb_spec YYMAXDEPTH (Z.of_nat (length (s :: ss)))); [lia|]. rewrite (proj2 (Z.eqb_neq _ _) Hf). unfold yybackup. rewrite Hp.
  unfold mbind at 1, res_bind at 1. rewrite (proj2 (Z.eqb_neq _ _) Hn), Hl. unfold mbind at 1, res_bind at 1. destruct (t <=? YYEOF); [done|].
  by rewrite (proj2 (Z.eqb_neq _ _) Ht).
Qed.

Lemma step_deep (c : config (V:=V) (S:=S)) : yyss c ≠ [] → YYMAXDEPTH ≤ Z.of_nat (length (yyss c)) → ∃ c', step T yylex action yyerror c = Ok (Returned 2 c').
Proof.
  intros Hs Hd. unfold step. destruct (yyss c) as [|s ss] eqn:E; [done|]. cbn [top]. unfold mbind, res_bind.
  destruct (Z.leb_spec YYMAXDEPTH (Z.of_nat (length (s :: ss)))); [by eexists|lia].
Qed.

End Steps.

(** No state shifts the error token, so an error ends the parse. *)
Definition no_error_shift (T : tables) (s : Z) : bool :=
  match aget (yypact T) s with
  | Ok n =>
      if negb (n =? YYPACT_NINF T) && (0 <=? n + YYSYMBOL_YYerror) && (n + YYSYMBOL_YYerror <=? YYLAST T)
      then match aget (yycheck T) (n + YYSYMBOL_YYerror) with Ok k => negb (k =? YYSYMBOL_YYerror) | _ => false end else true
  | UB _ => false
  end.

Lemma pop_error_none {V} T ss (vs : list (option V)) :
  Forall (λ s, no_error_shift T s = true) ss → length vs = length ss → ss ≠ [] → pop_error T ss vs = Ok None.
Proof.
  intros Hs. revert vs. induction Hs as [|s ss H _ IH]; intros [|v vs] Hl Hne; try done. cbn [pop_error]. unfold no_error_shift in H.
  destruct (aget (yypact T) s) as [n|]; [|done]. unfold mbind, res_bind. cbv zeta.
  destruct (negb (n =? YYPACT_NINF T) && (0 <=? n + YYSYMBOL_YYerror) && (n + YYSYMBOL_YYerror <=? YYLAST T)).
  - destruct (aget (yycheck T) (n + YYSYMBOL_YYerror)) as [k|]; [|done]. apply negb_true_iff in H. rewrite H. cbn [Z.ltb Z.compare].
    destruct ss as [|s2 ss]; [done|]. apply IH; [by injection Hl|done].
  - cbn [Z.ltb Z.compare]. destruct ss as [|s2 ss]; [done|]. apply IH; [by injection Hl|done].
Qed.

Lemma yyerrlab_ends {V S} T yyerror (c : config (V:=V) (S:=S)) :
  Forall (λ s, no_error_shift T s = true) (yyss c) → length (yyvs c) = length (yyss c) → yyss c ≠ [] → yyerrstatus c = 0 →
  ∃ c', yyerrlab T yyerror c = Ok (Returned 1 c').
Proof. intros H1 H2 H3 He. unfold yyerrlab. rewrite He. cbn. unfold yyerrlab1. cbn. rewrite pop_error_none by done. cbn. by eexists. Qed.

(** What holds of every state or token code below a bound, by evaluation. *)
Lemma below_bound (P : Z → bool) n x : forallb P (Z.of_nat <$> seq 0 n) = true → 0 ≤ x < Z.of_nat n → P x = true.
Proof.
  intros H Hx. rewrite forallb_forall in H. apply H, list_elem_of_In, list_elem_of_fmap. exists (Z.to_nat x). rewrite elem_of_seq. lia.
Qed.

(** The symbols of the tokens. *)
Definition translates (T : tables) (kind : Z → Z) (t : Z) : bool :=
  (t =? 0) || (t =? YYerror) || match aget (yytranslate T) t with Ok k => k =? kind t | UB _ => false end.

Lemma translate_kind T kind t :
  0 ≤ YYMAXUTOK T → forallb (translates T kind) (Z.of_nat <$> seq 0 (Z.to_nat (YYMAXUTOK T + 1))) = true → (YYMAXUTOK T < t → kind t = YYSYMBOL_YYUNDEF) →
  0 < t → t ≠ YYerror → translate T t = Ok (kind t).
Proof.
  intros HT Hall Hout Ht Hne. unfold translate. destruct (Z.leb_spec 0 t); [|lia]. destruct (Z.leb_spec t (YYMAXUTOK T)) as [Hle|Hgt]; cbn [andb]; [|by rewrite Hout].
  pose proof (below_bound _ _ t Hall ltac:(lia)) as H1. unfold translates in H1. rewrite (proj2 (Z.eqb_neq t 0)), (proj2 (Z.eqb_neq _ _) Hne) in H1 by lia.
  cbn in H1. destruct (aget (yytranslate T) t) as [k|]; [|done]. by apply Z.eqb_eq in H1 as ->.
Qed.

(** *** Parsers that implement a grammar *)

Section Driver.
Context {V S : Type} (T : tables) (yylex : S → res (Z * option V * S))
  (action : Z → list (option V) → res (option V * list string)) (yyerror : string → string) (size : S → nat).

Abbreviation token := (Z * option V)%type.
Abbreviation cfg := (config (V:=V) (S:=S)).
Abbreviation step := (Bison.step T yylex action yyerror).
Abbreviation steps := (BisonSpec.steps T yylex action yyerror).

(** The tokens the scanner reads from a text, up to a place in it. *)
Inductive scans : S → list token → S → Prop :=
  | scans_nil text : scans text [] text
  | scans_cons text t text1 ts text2 :
      yylex text = Ok (t, text1) → 0 < fst t → scans text1 ts text2 → scans text (t :: ts) text2.

(** The next token is the end of the input. *)
Definition at_end (text : S) : Prop := ∃ t v text', yylex text = Ok (t, v, text') ∧ t ≤ 0.

Lemma scans_app text ts1 ts2 text2 :
  scans text (ts1 ++ ts2) text2 ↔ ∃ text1, scans text ts1 text1 ∧ scans text1 ts2 text2.
Proof.
  split.
  - revert text. induction ts1 as [|t ts1 IH]; intros text H; [exists text; by split; [constructor|]|].
    inversion H as [|? ? text' ? ? Hy Ht Hs]; subst. destruct (IH _ Hs) as (text1 & H1 & H2). exists text1. split; [by econstructor|done].
  - intros (text1 & H1 & H2). induction H1; [done|]. cbn. econstructor; eauto.
Qed.

Lemma scans_one inp t inp' : scans inp [t] inp' → yylex inp = Ok (t, inp') ∧ 0 < fst t.
Proof. intros H. inversion H as [|? ? text1 ? ? Hy Ht Hs]; subst. inversion Hs; subst. by split. Qed.

Lemma scans_split inp ts1 t ts2 inp' :
  scans inp (ts1 ++ t :: ts2) inp' → ∃ inp1 inp2, scans inp ts1 inp1 ∧ yylex inp1 = Ok (t, inp2) ∧ 0 < fst t ∧ scans inp2 ts2 inp'.
Proof.
  rewrite scans_app. intros (inp1 & H1 & H2). inversion H2 as [|? ? inp2 ? ? Hy Ht Hs]; subst. by exists inp1, inp2.
Qed.

(** Reading and shifting a token. *)
Lemma step_shift s ss vs inp t v inp' o yyn k n :
  Z.of_nat (length (s :: ss)) < YYMAXDEPTH → s ≠ YYFINAL T → aget (yypact T) s = Ok yyn → yyn ≠ YYPACT_NINF T →
  yylex inp = Ok (t, v, inp') → 0 < t → t ≠ YYerror → translate T t = Ok k → decision_of T s yyn k = Ok (Shift n) →
  step (mkconfig (s :: ss) vs None inp 0 o) = Ok (Running (mkconfig (n :: s :: ss) (v :: vs) None inp' 0 o)).
Proof.
  intros Hd Hf Hp Hn Hy Ht Hne Hk Hdec. rewrite (step_look T yylex action yyerror s ss vs _ yyn t v (mkconfig (s :: ss) vs (Some (t, v)) inp' 0 o)); try done.
  - destruct (Z.leb_spec t YYEOF); [unfold YYEOF in *; lia|]. rewrite Hk. unfold mbind, res_bind. by rewrite (on_token_decision _ _ _ _ _ _ _ _ _ Hdec).
  - unfold lookahead. cbn. by rewrite Hy.
Qed.

(** A reduction without a look at the input. *)
Lemma step_reduce p1 p2 s ss vs la inp o s0 r v text s' q1 :
  p1 = s0 :: q1 → Z.of_nat (length (s0 :: q1 ++ s :: ss)) < YYMAXDEPTH → s0 ≠ YYFINAL T → aget (yypact T) s0 = Ok (YYPACT_NINF T) → aget (yydefact T) s0 = Ok r → r ≠ 0 →
  aget (yyr2 T) r = Ok (Z.of_nat (length p1)) → length p2 = length p1 → action r (p2 ++ vs) = Ok (v, text) → goto T r s = Ok s' →
  step (mkconfig (p1 ++ s :: ss) (p2 ++ vs) la inp 0 o) = Ok (Running (mkconfig (s' :: s :: ss) (v :: vs) la inp 0 (o ++ text))).
Proof.
  intros -> Hd Hf Hp Hr Hn Hl Hl2 Ha Hg. cbn [app]. rewrite (step_default _ _ _ _ s0 _ _ _ _ _ _ r); try done.
  by apply (yyreduce_ok T action r (s0 :: q1) p2).
Qed.

(** The end of the input in a state that shifts it. *)
Lemma step_end s ss vs inp o yyn :
  Z.of_nat (length (s :: ss)) < YYMAXDEPTH → s ≠ YYFINAL T → aget (yypact T) s = Ok yyn → yyn ≠ YYPACT_NINF T →
  decision_of T s yyn YYSYMBOL_YYEOF = Ok (Shift (YYFINAL T)) → Z.of_nat (length (s :: ss)) + 1 < YYMAXDEPTH → at_end inp →
  ∃ c, steps (mkconfig (s :: ss) vs None inp 0 o) c ∧ step c = Ok (Returned 0 c) ∧ out c = o.
Proof.
  intros Hd Hf Hp Hn Hdec Hd2 (t & v & inp' & Hy & Ht). exists (mkconfig (YYFINAL T :: s :: ss) (v :: vs) None inp' 0 o). split; [|split; [|done]].
  - apply rtc_once. rewrite (step_look T yylex action yyerror s ss vs _ yyn t v (mkconfig (s :: ss) vs (Some (t, v)) inp' 0 o)); try done.
    + destruct (Z.leb_spec t YYEOF); [|unfold YYEOF in *; lia]. by rewrite (on_token_decision _ _ _ _ _ _ _ _ _ Hdec).
    + unfold lookahead. cbn. by rewrite Hy.
    + unfold YYerror. lia.
  - unfold Bison.step. cbn [yyss top]. unfold mbind, res_bind. destruct (Z.leb_spec YYMAXDEPTH (Z.of_nat (length (YYFINAL T :: s :: ss)))); [cbn [length] in *; lia|].
    by rewrite Z.eqb_refl.
Qed.

(** The meaning of the stacks ([good]: the tokens shifted and the text printed),
    the sentences of the grammar with their output, and the work left on the
    stack. *)
Variable good : list Z → list (option V) → list token → list string → Prop.
Variable sentence : list token → list string → Prop.
Variable work : list Z → nat.

Hypothesis yylex_shorter : ∀ text t v text', yylex text = Ok (t, v, text') → 0 < t → (size text' < size text)%nat.
Hypothesis yylex_overflow : ∀ text, match yylex text with Ok _ => True | UB u => u = Overflow end.
Hypothesis yylex_no_error : ∀ text t v text', yylex text = Ok (t, v, text') → t ≠ YYerror.
Hypothesis good_start : good [0] [None] [] [].
Hypothesis good_nonempty : ∀ ss vs ts o, good ss vs ts o → ∃ s ss', ss = s :: ss' ∧ s ≠ YYFINAL T.

Definition accepts (text : S) (o : list string) : Prop := ∃ ts text', scans text ts text' ∧ at_end text' ∧ sentence ts o.

(** Where the scanner is. *)
Definition seen (text : S) (c : cfg) (ts : list token) : Prop :=
  match yychar c with
  | None => scans text ts (input c)
  | Some (t, v) => ∃ text1, scans text ts text1 ∧ (0 < t ∧ yylex text1 = Ok (t, v, input c) ∨ t = 0 ∧ at_end text1)
  end.

Inductive inv (text : S) (c : cfg) : Prop :=
  | inv_running ts : good (yyss c) (yyvs c) ts (out c) → yyerrstatus c = 0 → seen text c ts → inv text c
  | inv_accepting : (∃ ss, yyss c = YYFINAL T :: ss) → accepts text (out c) → inv text c.

(** What remains to be done: six for every token, and the work on the stack. *)
Definition tokens_left (c : cfg) : nat :=
  match yychar c with None => size (input c) + 1 | Some (t, _) => if (t <=? 0)%Z then 1 else size (input c) + 2 end%nat.
Definition measure (c : cfg) : nat :=
  match yyss c with s :: _ => if s =? YYFINAL T then 0%nat else (6 * tokens_left c + work (yyss c))%nat | [] => 0%nat end.

(** A step keeps the invariant and lowers the measure; a result 0 is a sentence;
    the only undefined behaviour is an [int] out of range. *)
Definition step_ok (text : S) (c : cfg) : Prop :=
  match step c with
  | Ok (Running c') => inv text c' ∧ (measure c' < measure c)%nat
  | Ok (Returned r c') => r = 0 → accepts text (out c')
  | UB u => u = Overflow
  end.

(** The result of a reduction: the same tokens, less work. *)
Definition reduced (r : Z) (c : cfg) (ts : list token) : Prop :=
  (∃ s ss vs text, yyreduce T action r c = Ok (Running (mkconfig (s :: ss) vs (yychar c) (input c) (yyerrstatus c) (out c ++ text))) ∧
     good (s :: ss) vs ts (out c ++ text) ∧ (work (s :: ss) < work (yyss c))%nat ∧ s ≠ YYFINAL T) ∨
  yyreduce T action r c = UB Overflow.

(** Applies a reduction to a stack with [p1], [p2] on top. *)
Lemma reduce_with r p1 p2 s ss vs la inp e o v text s' ts :
  aget (yyr2 T) r = Ok (Z.of_nat (length p1)) → length p2 = length p1 → action r (p2 ++ vs) = Ok (v, text) → goto T r s = Ok s' →
  good (s' :: s :: ss) (v :: vs) ts (o ++ text) → (work (s' :: s :: ss) < work (p1 ++ s :: ss))%nat → s' ≠ YYFINAL T →
  reduced r (mkconfig (p1 ++ s :: ss) (p2 ++ vs) la inp e o) ts.
Proof.
  intros Hr Hl Ha Hg Hgood Hw Hne. left. exists s', (s :: ss), (v :: vs), text. split; [|done]. by apply (yyreduce_ok T action r p1 p2).
Qed.

(** A reduction, with or without a token read before it. *)
Lemma reduced_ok text (c c1 : cfg) r ts s ss :
  yyss c = s :: ss → s ≠ YYFINAL T → yyss c1 = yyss c → (tokens_left c1 ≤ tokens_left c)%nat → yyerrstatus c1 = 0 → seen text c1 ts →
  step c = yyreduce T action r c1 → reduced r c1 ts → step_ok text c.
Proof.
  intros Hs Hne Hss Ht He Hseen Hstep [(s' & ss' & vs' & o & Hr & Hg & Hw & Hne')|Hr]; unfold step_ok; rewrite Hstep, Hr; [|done]. split.
  - eapply inv_running; [exact Hg|done|exact Hseen].
  - rewrite Hss in Hw. unfold measure. cbn [yyss]. rewrite Hs in *. rewrite (proj2 (Z.eqb_neq _ _) Hne), (proj2 (Z.eqb_neq _ _) Hne').
    change (tokens_left (mkconfig (s' :: ss') vs' (yychar c1) (input c1) (yyerrstatus c1) (out c1 ++ o))) with (tokens_left c1). lia.
Qed.

(** The lookahead, read now or before. *)
Lemma lookahead_ok text (c : cfg) ts :
  seen text c ts →
  lookahead yylex c = UB Overflow ∨
  ∃ t v inp' text1, lookahead yylex c = Ok (t, v, mkconfig (yyss c) (yyvs c) (Some (t, v)) inp' (yyerrstatus c) (out c)) ∧
    scans text ts text1 ∧ (0 < t ∧ yylex text1 = Ok (t, v, inp') ∧ (size inp' + 2 ≤ tokens_left c)%nat ∨ t ≤ 0 ∧ at_end text1) ∧ (1 ≤ tokens_left c)%nat.
Proof.
  unfold seen, lookahead, tokens_left. destruct c as [ss vs [[t v]|] inp e o]; cbn.
  - intros (text1 & H1 & Ht). right. exists t, v, inp, text1. split; [done|]. split; [done|]. destruct Ht as [[Ht Hy]|[-> Ha]].
    + split; [|case_match; lia]. left. split_and!; [done..|]. destruct (Z.leb_spec t 0); lia.
    + split; [by right|done].
  - intros Hsc. pose proof (yylex_overflow inp) as Ho. destruct (yylex inp) as [[[t v] inp']|u] eqn:Hy; cbn; [|left; by subst]. right. exists t, v, inp', inp.
    split; [done|]. split; [done|]. split; [|lia]. destruct (Z.lt_ge_cases 0 t) as [Ht|Ht].
    + left. split_and!; [done..|]. pose proof (yylex_shorter _ _ _ _ Hy Ht). lia.
    + right. split; [done|]. by exists t, v, inp'.
Qed.

(** A state that looks at the next token, from what it does on every symbol. *)
Section Looking.
Context (text : S) (c : cfg) (ts : list token) (s : Z) (ss : list Z) (yyn : Z) (decided : Z → decision).
Hypothesis state_is : yyss c = s :: ss.
Hypothesis depth_ok : Z.of_nat (length (s :: ss)) < YYMAXDEPTH.
Hypothesis not_final : s ≠ YYFINAL T.
Hypothesis entry : aget (yypact T) s = Ok yyn.
Hypothesis looks : yyn ≠ YYPACT_NINF T.
Hypothesis is_good : good (yyss c) (yyvs c) ts (out c).
Hypothesis no_recovery : yyerrstatus c = 0.
Hypothesis is_seen : seen text c ts.
Hypothesis on_end : decision_of T s yyn YYSYMBOL_YYEOF = Ok (decided YYSYMBOL_YYEOF).
Hypothesis on_symbol : ∀ t, 0 < t → t ≠ YYerror → ∃ k, translate T t = Ok k ∧ decision_of T s yyn k = Ok (decided k).
Hypothesis shift_end : ∀ n, decided YYSYMBOL_YYEOF = Shift n → n = YYFINAL T ∧ sentence ts (out c).
Hypothesis shift_symbol : ∀ t v text1 text2 k n,
  yylex text1 = Ok (t, v, text2) → 0 < t → translate T t = Ok k → decided k = Shift n →
  good (n :: s :: ss) (v :: yyvs c) (ts ++ [(t, v)]) (out c) ∧ n ≠ YYFINAL T ∧ (work (n :: s :: ss) < 6 + work (s :: ss))%nat.
Hypothesis reduce_symbol : ∀ k r (c1 : cfg), decided k = Reduce r → yyss c1 = yyss c → yyvs c1 = yyvs c → out c1 = out c → yyerrstatus c1 = 0 → reduced r c1 ts.
Hypothesis error_symbol : ∀ c1 : cfg, yyss c1 = yyss c → yyvs c1 = yyvs c → out c1 = out c → yyerrstatus c1 = 0 → ∃ c2, yyerrlab T yyerror c1 = Ok (Returned 1 c2).

Lemma looking_ok : step_ok text c.
Proof.
  destruct (lookahead_ok text c ts is_seen) as [Hu|(t & v & inp' & text1 & Hla & Hsc & Ht & Htok)].
  { unfold step_ok, Bison.step. rewrite state_is. cbn [top]. unfold mbind at 1, res_bind at 1.
    destruct (Z.leb_spec YYMAXDEPTH (Z.of_nat (length (s :: ss)))); [lia|]. rewrite (proj2 (Z.eqb_neq _ _) not_final). unfold yybackup.
    rewrite entry. unfold mbind at 1, res_bind at 1. rewrite (proj2 (Z.eqb_neq _ _) looks), Hu. done. }
  set (c1 := mkconfig (yyss c) (yyvs c) (Some (t, v)) inp' (yyerrstatus c) (out c)) in *.
  assert (t ≠ YYerror) as H256. { destruct Ht as [(Ht & Hy & _)|[Ht _]]; [by eapply yylex_no_error|unfold YYerror; lia]. }
  pose proof (step_look T yylex action yyerror s ss (yyvs c) c yyn t v c1 state_is eq_refl depth_ok not_final entry looks Hla H256) as Hstep.
  change YYEOF with 0 in Hstep. destruct (Z.leb_spec t 0) as [Hle|Hgt].
  - destruct Ht as [[? _]|[_ Hend]]; [lia|]. rewrite (on_token_decision _ _ _ _ _ _ _ _ _ on_end) in Hstep.
    assert (seen text (set_char 0 v c1) ts) as Hseen1 by (exists text1; split; [done|by right]).
    destruct (decided YYSYMBOL_YYEOF) as [m|r|] eqn:Hdec.
    + destruct (shift_end m eq_refl) as [-> Hsent]. unfold step_ok. rewrite Hstep. split.
      * apply inv_accepting; [by eexists|]. by exists ts, text1.
      * unfold measure. cbn. rewrite state_is, Z.eqb_refl, (proj2 (Z.eqb_neq _ _) not_final). lia.
    + apply (reduced_ok text c (set_char 0 v c1) r ts s ss); try done. by eapply reduce_symbol.
    + destruct (error_symbol (set_char 0 v c1)) as [c' Hc']; [done..|]. unfold step_ok. by rewrite Hstep, Hc'.
  - destruct Ht as [(_ & Hy & Hlen)|[? _]]; [|lia]. destruct (on_symbol t Hgt H256) as (k & Hk & Hdec). rewrite Hk in Hstep. unfold mbind, res_bind in Hstep.
    rewrite (on_token_decision _ _ _ _ _ _ _ _ _ Hdec) in Hstep.
    assert (seen text c1 ts) as Hseen1 by (exists text1; split; [done|by left]).
    assert (tokens_left c1 ≤ tokens_left c)%nat as Htl by (unfold tokens_left at 1; cbn; destruct (Z.leb_spec t 0); lia).
    destruct (decided k) as [m|r|] eqn:Hdk.
    + destruct (shift_symbol t v text1 inp' k m Hy Hgt Hk Hdk) as (Hg & Hm & Hw). unfold step_ok. rewrite Hstep. unfold c1. cbn [yyss yyvs input yyerrstatus out].
      rewrite no_recovery, state_is. cbn [Z.eqb]. split.
      * eapply inv_running; [exact Hg|done|]. unfold seen. cbn. apply scans_app. exists text1. split; [done|]. by econstructor; [exact Hy|done|constructor].
      * unfold measure. cbn [yyss]. rewrite state_is, (proj2 (Z.eqb_neq _ _) Hm), (proj2 (Z.eqb_neq _ _) not_final). unfold tokens_left at 1. cbn [yychar input]. lia.
    + apply (reduced_ok text c c1 r ts s ss); try done. by eapply reduce_symbol.
    + destruct (error_symbol c1) as [c' Hc']; [done..|]. unfold step_ok. by rewrite Hstep, Hc'.
Qed.

End Looking.

(** The cases that are the same in every parser. *)
Lemma step_inv text c :
  (∀ ts s ss, yyss c = s :: ss → s ≠ YYFINAL T → Z.of_nat (length (s :: ss)) < YYMAXDEPTH → good (yyss c) (yyvs c) ts (out c) → yyerrstatus c = 0 →
    seen text c ts → step_ok text c) →
  inv text c → step_ok text c.
Proof.
  intros Hgen [ts Hg He Hseen|(ss & Hs) Hacc].
  - destruct (good_nonempty _ _ _ _ Hg) as (s & ss & Hs & Hne).
    destruct (Z.le_gt_cases YYMAXDEPTH (Z.of_nat (length (s :: ss)))) as [Hdeep|Hd]; [|by eapply Hgen].
    destruct (step_deep T yylex action yyerror c) as [c' Hc']; [by rewrite Hs|by rewrite Hs|]. unfold step_ok. by rewrite Hc'.
  - unfold step_ok, Bison.step. rewrite Hs. cbn [top]. unfold mbind, res_bind. destruct (Z.leb_spec YYMAXDEPTH (Z.of_nat (length (YYFINAL T :: ss)))); [done|].
    by rewrite Z.eqb_refl.
Qed.

Section Results.
Hypothesis every_step : ∀ text c, inv text c → step_ok text c.

Lemma start_inv text : inv text (start text).
Proof. eapply inv_running; [exact good_start|done|constructor]. Qed.

Lemma inv_reachable text c : steps (start text) c → inv text c.
Proof.
  intros Hr. eapply (steps_keep T yylex action yyerror (inv text)); [|apply start_inv|exact Hr].
  intros c1 c2 Hi Hs. pose proof (every_step text c1 Hi) as Hok. unfold step_ok in Hok. rewrite Hs in Hok. apply Hok.
Qed.

(** Fuel for the measure at the start is enough. *)
Lemma run_fuel text fuel : (measure (start text) ≤ fuel)%nat → Bison.run T yylex action yyerror fuel (start text) ≠ UB OutOfFuel.
Proof.
  intros Hf. destruct (run_total T yylex action yyerror (inv text) measure fuel (start text)) as [|(c & _ & Hi & Hs)]; [|apply start_inv|done|done|].
  - intros c r Hi Hs. pose proof (every_step text c Hi) as Hok. unfold step_ok in Hok. rewrite Hs in Hok. by destruct r.
  - pose proof (every_step text c Hi) as Hok. unfold step_ok in Hok. by rewrite Hs in Hok.
Qed.

Lemma yyparse_run text fuel :
  yyparse T yylex action yyerror fuel text = match Bison.run T yylex action yyerror fuel (start text) with Ok (r, c) => Ok (r, out c) | UB e => UB e end.
Proof. unfold yyparse, mbind, res_bind. by destruct (Bison.run _ _ _ _ _ _) as [[r c]|e]. Qed.

(** Every input is parsed or overflows. *)
Lemma yyparse_total text fuel :
  (measure (start text) ≤ fuel)%nat → is_ok (yyparse T yylex action yyerror fuel text) = true ∨ yyparse T yylex action yyerror fuel text = UB Overflow.
Proof.
  intros Hf. rewrite yyparse_run. destruct (Bison.run T yylex action yyerror fuel (start text)) as [[r c]|e] eqn:Hr; [by left|]. right.
  destruct (run_UB _ _ _ _ _ _ _ Hr) as [->|(c & Hst & Hs)]; [by destruct (run_fuel text fuel Hf)|].
  pose proof (every_step text c (inv_reachable text c Hst)) as Hok. unfold step_ok in Hok. rewrite Hs in Hok. by subst.
Qed.

(** What is accepted is a sentence. *)
Lemma yyparse_sound text fuel o : yyparse T yylex action yyerror fuel text = Ok (0, o) → accepts text o.
Proof.
  rewrite yyparse_run. destruct (Bison.run T yylex action yyerror fuel (start text)) as [[r c]|e] eqn:Hr; [|done]. intros [= -> <-].
  destruct (run_returns _ _ _ _ _ _ _ _ Hr) as (c' & Hst & Hs).
  pose proof (every_step text c' (inv_reachable text c' Hst)) as Hok. unfold step_ok in Hok. rewrite Hs in Hok. by apply Hok.
Qed.

(** A run into an accepting state is what the parser does. *)
Lemma yyparse_steps text fuel c o :
  (measure (start text) ≤ fuel)%nat → steps (start text) c → step c = Ok (Returned 0 c) → out c = o → yyparse T yylex action yyerror fuel text = Ok (0, o).
Proof.
  intros Hf Hst Hs Ho. rewrite yyparse_run. destruct (run_by_steps T yylex action yyerror fuel _ _ _ _ Hst Hs) as [-> | Hbad]; [by rewrite Ho|].
  by destruct (run_fuel text fuel Hf).
Qed.

End Results.
End Driver.

End BisonSpec.

(** ** Two scanners under one parser

    Scanners that return the same tokens from related states are
    indistinguishable to the parser, which only passes their state on. *)
Module BisonSim.
Import Bison.

Section Sim.
Context {V S1 S2 : Type} (T : tables) (lex1 : S1 → res (Z * option V * S1)) (lex2 : S2 → res (Z * option V * S2))
  (action : Z → list (option V) → res (option V * list string)) (yyerror : string → string) (R : S1 → S2 → Prop).
Hypothesis same_tokens : ∀ s1 s2, R s1 s2 →
  match lex2 s2 with Ok (t, v, s2') => ∃ s1', lex1 s1 = Ok (t, v, s1') ∧ R s1' s2' | UB e => lex1 s1 = UB e end.

(** The same configuration with another scanner. *)
Definition with_input (s : S1) (c : config (V:=V) (S:=S2)) : config (V:=V) (S:=S1) :=
  mkconfig (yyss c) (yyvs c) (yychar c) s (yyerrstatus c) (out c).

(** Equal results, up to the states of the scanners. *)
Definition agree (r1 : res (outcome (V:=V) (S:=S1))) (r2 : res (outcome (V:=V) (S:=S2))) : Prop :=
  match r2 with
  | Ok (Running c) => ∃ s, r1 = Ok (Running (with_input s c)) ∧ R s (input c)
  | Ok (Returned z c) => ∃ s, r1 = Ok (Returned z (with_input s c))
  | UB e => r1 = UB e
  end.

(** Splits every choice that the code makes. *)
Ltac choices := repeat (cbn; match goal with |- context [match ?x with _ => _ end] => destruct x end); try done; try match goal with H : R ?s _ |- _ => exists s; try split; [reflexivity|assumption] end.

Lemma yyreduce_agrees s yyn c : R s (input c) → agree (yyreduce T action yyn (with_input s c)) (yyreduce T action yyn c).
Proof. intros H. unfold yyreduce, mbind, res_bind. cbn [with_input yyss yyvs yychar yyerrstatus out input]. choices. Qed.

Lemma yyerrlab1_agrees s c : R s (input c) → agree (yyerrlab1 T (with_input s c)) (yyerrlab1 T c).
Proof. intros H. unfold yyerrlab1, mbind, res_bind. cbn [with_input yyss yyvs yychar yyerrstatus out input]. destruct (pop_error T (yyss c) (yyvs c)) as [[[[yyn ss] vs]|]|e]; [by exists s|by exists s|done]. Qed.

Lemma yyerrlab_agrees s c : R s (input c) → agree (yyerrlab T yyerror (with_input s c)) (yyerrlab T yyerror c).
Proof.
  destruct c as [ss vs ch inp e o]. intros H. unfold yyerrlab, with_input. cbn [yyss yyvs yychar yyerrstatus out input] in *.
  destruct (e =? 0); cbn [yyss yyvs yychar yyerrstatus out input]; (destruct (e =? 3); [destruct ch as [[t v]|]; [destruct (t <=? YYEOF); [destruct (t =? YYEOF); [by exists s|]|]|]|]).
  all: match goal with |- agree _ (yyerrlab1 T ?c0) => exact (yyerrlab1_agrees s c0 H) end.
Qed.

Lemma yydefault_agrees s x c : R s (input c) → agree (yydefault T action yyerror x (with_input s c)) (yydefault T action yyerror x c).
Proof.
  intros H. unfold yydefault. destruct (aget (yydefact T) x) as [n|e]; [|done]. cbn [mbind res_bind]. destruct (n =? 0); [by apply yyerrlab_agrees|by apply yyreduce_agrees].
Qed.

Lemma on_token_agrees s x n k v c : R s (input c) → agree (on_token T action yyerror x n k v (with_input s c)) (on_token T action yyerror x n k v c).
Proof.
  intros H. unfold on_token. destruct (_ || _); [by apply yydefault_agrees|]. destruct (aget (yycheck T) _) as [m|e]; [|done]. cbn [mbind res_bind].
  destruct (negb (m =? k)); [by apply yydefault_agrees|]. destruct (aget (yytable T) _) as [q|e]; [|done]. cbn [mbind res_bind].
  destruct (q <=? 0); [by apply yyreduce_agrees|]. by exists s.
Qed.

Lemma lookahead_agrees s c :
  R s (input c) →
  match lookahead lex2 c with Ok (t, c') => ∃ s', lookahead lex1 (with_input s c) = Ok (t, with_input s' c') ∧ R s' (input c') | UB e => lookahead lex1 (with_input s c) = UB e end.
Proof.
  intros H. unfold lookahead. cbn [with_input yychar input]. destruct (yychar c) as [t|]; [by exists s|]. pose proof (same_tokens s (input c) H) as Hs.
  destruct (lex2 (input c)) as [[[t v] s2]|e]; cbn [mbind res_bind]; [|by rewrite Hs]. destruct Hs as (s1 & -> & HR). by exists s1.
Qed.

Lemma yybackup_agrees s x c : R s (input c) → agree (yybackup T lex1 action yyerror x (with_input s c)) (yybackup T lex2 action yyerror x c).
Proof.
  intros H. unfold yybackup. destruct (aget (yypact T) x) as [n|e]; [|done]. cbn [mbind res_bind]. destruct (n =? YYPACT_NINF T); [by apply yydefault_agrees|].
  pose proof (lookahead_agrees s c H) as Hl. destruct (lookahead lex2 c) as [[[t v] c']|e]; cbn [mbind res_bind]; [|by rewrite Hl].
  destruct Hl as (s' & -> & HR). cbn [mbind res_bind]. destruct (t <=? YYEOF); [by apply (on_token_agrees s' x n _ v (set_char YYEOF v c'))|].
  destruct (t =? YYerror); [by apply (yyerrlab1_agrees s' (set_char YYUNDEF v c'))|]. destruct (translate T t) as [k|e]; [|done]. by apply on_token_agrees.
Qed.

Lemma step_agrees s c : R s (input c) → agree (step T lex1 action yyerror (with_input s c)) (step T lex2 action yyerror c).
Proof.
  intros H. unfold step. cbn [with_input yyss yyvs yychar yyerrstatus out input]. destruct (top (yyss c)) as [x|e]; [|done]. cbn [mbind res_bind].
  destruct (YYMAXDEPTH <=? _); [by exists s|]. destruct (x =? YYFINAL T); [by exists s|]. by apply yybackup_agrees.
Qed.

(** The parser returns and prints the same. *)
Lemma yyparse_agrees fuel s1 s2 : R s1 s2 → yyparse T lex1 action yyerror fuel s1 = yyparse T lex2 action yyerror fuel s2.
Proof.
  intros H0. assert (∀ c s, R s (input c) →
    match run T lex2 action yyerror fuel c with Ok (r, c') => ∃ s', run T lex1 action yyerror fuel (with_input s c) = Ok (r, with_input s' c') | UB e => run T lex1 action yyerror fuel (with_input s c) = UB e end) as Hrun.
  { induction fuel as [|fuel IH]; intros c s H; cbn [run]; pose proof (step_agrees s c H) as Hs; unfold agree in Hs;
      (destruct (step T lex2 action yyerror c) as [[c'|z c']|e]; cbn [mbind res_bind]; [destruct Hs as (s' & -> & HR)|destruct Hs as (s' & ->)|by rewrite Hs]); cbn [mbind res_bind].
    - done.
    - by exists s'.
    - by apply IH.
    - by exists s'. }
  specialize (Hrun (start s2) s1 H0). unfold yyparse. change (start s1) with (with_input s1 (start s2)).
  destruct (run T lex2 action yyerror fuel (start s2)) as [[r c]|e]; [destruct Hrun as (s' & ->)|rewrite Hrun]; done.
Qed.

End Sim.
End BisonSim.
