(* ===== verification/Calculator.v ===== *)
(** * The calculator: [LEXICAL_ANALYZER/lex_analyzer.tab.c]

    [Calculator] holds the tables, actions and functions of the parser and puts
    them together with the scanner of [Scanner] and the automaton of [Bison].
    [CalcGrammar] is the grammar of lex_analyzer.y as inductive relations, and
    [CalcSpec] relates the two: the tables implement the grammar. *)
From stdpp Require Import base list relations strings pretty.
From Stdlib Require Import ZArith Lia.
From Stdlib Require Ascii String.
From S2P Require Import Prelude Scanner Bison.
Local Open Scope Z_scope.

Module Calculator.

Definition yytranslate : list Z :=
  [0; 2; 2; 2; 2; 2; 2; 2; 2; 2; 8; 2; 2; 2; 2; 2; 2; 2; 2; 2; 2; 2; 2; 2; 2; 2; 2; 2; 2; 2; 2; 2; 2; 2; 2; 2;
   2; 2; 2; 2; 9; 10; 6; 4; 2; 5; 2; 7; 2; 2; 2; 2; 2; 2; 2; 2; 2; 2; 2; 2; 2; 2; 2; 2; 2; 2; 2; 2; 2; 2; 2; 2;
   2; 2; 2; 2; 2; 2; 2; 2; 2; 2; 2; 2; 2; 2; 2; 2; 2; 2; 2; 2; 2; 2; 2; 2; 2; 2; 2; 2; 2; 2; 2; 2; 2; 2; 2; 2;
   2; 2; 2; 2; 2; 2; 2; 2; 2; 2; 2; 2; 2; 2; 2; 2; 2; 2; 2; 2; 2; 2; 2; 2; 2; 2; 2; 2; 2; 2; 2; 2; 2; 2; 2; 2;
   2; 2; 2; 2; 2; 2; 2; 2; 2; 2; 2; 2; 2; 2; 2; 2; 2; 2; 2; 2; 2; 2; 2; 2; 2; 2; 2; 2; 2; 2; 2; 2; 2; 2; 2; 2;
   2; 2; 2; 2; 2; 2; 2; 2; 2; 2; 2; 2; 2; 2; 2; 2; 2; 2; 2; 2; 2; 2; 2; 2; 2; 2; 2; 2; 2; 2; 2; 2; 2; 2; 2; 2;
   2; 2; 2; 2; 2; 2; 2; 2; 2; 2; 2; 2; 2; 2; 2; 2; 2; 2; 2; 2; 2; 2; 2; 2; 2; 2; 2; 2; 2; 2; 2; 2; 2; 2; 2; 2;
   2; 2; 2; 2; 1; 2; 3].

Definition yypact : list Z :=
  [-4; 0; -4; -4; 1; 7; -1; -4; -3; 1; 1; -4; 1; 1; -4; -1; -1; -4; -4].

Definition yydefact : list Z :=
  [2; 0; 1; 10; 0; 0; 6; 9; 0; 0; 0; 3; 0; 0; 11; 4; 5; 7; 8].

Definition yypgoto : list Z :=
  [-4; -4; 12; 4; 5].

Definition yydefgoto : list Z :=
  [0; 1; 5; 6; 7].

Definition yytable : list Z :=
  [2; 9; 10; 3; 3; 12; 13; 14; 0; 4; 4; 9; 10; 15; 16; 11; 8; 17; 18].

Definition yycheck : list Z :=
  [0; 4; 5; 3; 3; 6; 7; 10; -1; 9; 9; 4; 5; 9; 10; 8; 4; 12; 13].

Definition yyr1 : list Z :=
  [0; 11; 12; 12; 13; 13; 13; 14; 14; 14; 15; 15].

Definition yyr2 : list Z :=
  [0; 2; 0; 3; 3; 3; 1; 3; 3; 1; 1; 3].

Definition parser : Bison.tables :=
  Bison.mktables yytranslate yypact yydefact yypgoto yydefgoto yytable yycheck yyr1 yyr2 2 18 11 258 (-4).

(** [struct Node]; nodes are built once and never changed, so a pointer is the
    tree it leads to. *)
Inductive Node : Set := NULL | mkNode (op : char) (value : Z) (left_ right_ : Node).

Definition nul : char := Ascii.ascii_of_nat 0.
Definition plus : char := Ascii.ascii_of_nat 43.
Definition minus : char := Ascii.ascii_of_nat 45.
Definition times : char := Ascii.ascii_of_nat 42.
Definition slash : char := Ascii.ascii_of_nat 47.

Definition makeNode (op : char) (left right : Node) : Node := mkNode op 0 left right.
Definition makeLeaf (value : Z) : Node := mkNode nul value NULL NULL.

(** Every [printf] is one string. *)
Fixpoint printTree (root : Node) : list string :=
  match root with
  | NULL => []
  | mkNode op value left_ right_ =>
      if Ascii.eqb op nul then [d value]
      else ["("%string] ++ printTree left_ ++ [(" " +:+ of_chars [op] +:+ " ")%string] ++ printTree right_ ++ [")"%string]
  end.

(** [int] arithmetic; a quotient by zero is 0. *)
Fixpoint evaluate (root : Node) : res Z :=
  match root with
  | NULL => Ok 0
  | mkNode op value left_ right_ =>
      if Ascii.eqb op nul then Ok value
      else
        leftVal ← evaluate left_;
        rightVal ← evaluate right_;
        if Ascii.eqb op plus then as_int (leftVal + rightVal)
        else if Ascii.eqb op minus then as_int (leftVal - rightVal)
        else if Ascii.eqb op times then as_int (leftVal * rightVal)
        else if Ascii.eqb op slash then (if rightVal =? 0 then Ok 0 else as_int (Z.quot leftVal rightVal))
        else Ok 0
  end.

(** [union YYSTYPE]. *)
Inductive YYSTYPE : Set := Num (num : Z) | NodeV (node : Node).

(** [$n] of a rule; the members of the union are read as they were written. *)
Definition node_at (i : nat) (vs : list (option YYSTYPE)) : res Node :=
  match vs !! i with Some (Some (NodeV n)) => Ok n | _ => UB Uninitialised end.
Definition num_at (i : nat) (vs : list (option YYSTYPE)) : res Z :=
  match vs !! i with Some (Some (Num n)) => Ok n | _ => UB Uninitialised end.

(** What rule 3 prints. *)
Definition report (root : Node) (value : Z) : list string :=
  ["AST: "%string] ++ printTree root ++ [nl; ("Result = " +:+ d value +:+ nl +:+ nl)%string].

Definition action (yyn : Z) (yyvs : list (option YYSTYPE)) : res (option YYSTYPE * list string) :=
  match yyn with
  | 3 =>
      root ← node_at 1 yyvs;
      value ← evaluate root;
      Ok (mjoin (yyvs !! 2%nat), report root value)
  | 4 => l ← node_at 2 yyvs; r ← node_at 0 yyvs; Ok (Some (NodeV (makeNode plus l r)), [])
  | 5 => l ← node_at 2 yyvs; r ← node_at 0 yyvs; Ok (Some (NodeV (makeNode minus l r)), [])
  | 6 => n ← node_at 0 yyvs; Ok (Some (NodeV n), [])
  | 7 => l ← node_at 2 yyvs; r ← node_at 0 yyvs; Ok (Some (NodeV (makeNode times l r)), [])
  | 8 => l ← node_at 2 yyvs; r ← node_at 0 yyvs; Ok (Some (NodeV (makeNode slash l r)), [])
  | 9 => n ← node_at 0 yyvs; Ok (Some (NodeV n), [])
  | 10 => n ← num_at 0 yyvs; Ok (Some (NodeV (makeLeaf n)), [])
  | 11 => n ← node_at 1 yyvs; Ok (Some (NodeV n), [])
  | _ => Ok (None, [])
  end.

Definition yylex (text : list char) : res (Z * option YYSTYPE * list char) :=
  match CalcScanner.yylex text with Ok (t, v, text) => Ok (t, option_map Num v, text) | UB e => UB e end.

Definition yyerror (s : string) : string := ("Error: " +:+ s +:+ nl)%string.

(** Six steps for every character of the input are enough. *)
Definition yyparse (text : list char) : res (Z * list string) :=
  Bison.yyparse parser yylex action yyerror (6 * length text + 20) text.

Definition main (text : string) : C unit unit :=
  printf ("Enter expressions (Ctrl+D to exit):" +:+ nl) ;;
  '(_, out) ← lift (yyparse (String.list_ascii_of_string text));
  for_each (λ line, printf line) out.

End Calculator.

(** ** The grammar of lex_analyzer.y *)
Module CalcGrammar.
Import Calculator.

Definition token : Set := Z * option YYSTYPE.
Definition tNUMBER (n : Z) : token := (CalcScanner.NUMBER, Some (Num n)).
Definition tPLUS : token := (43, None).
Definition tMINUS : token := (45, None).
Definition tTIMES : token := (42, None).
Definition tSLASH : token := (47, None).
Definition tLPAR : token := (40, None).
Definition tRPAR : token := (41, None).
Definition tNEWLINE : token := (10, None).

Inductive expr_of : list token → Node → Prop :=
  | expr_plus ts1 ts2 e1 e2 : expr_of ts1 e1 → term_of ts2 e2 → expr_of (ts1 ++ tPLUS :: ts2) (makeNode plus e1 e2)
  | expr_minus ts1 ts2 e1 e2 : expr_of ts1 e1 → term_of ts2 e2 → expr_of (ts1 ++ tMINUS :: ts2) (makeNode minus e1 e2)
  | expr_term ts e : term_of ts e → expr_of ts e
with term_of : list token → Node → Prop :=
  | term_times ts1 ts2 e1 e2 : term_of ts1 e1 → factor_of ts2 e2 → term_of (ts1 ++ tTIMES :: ts2) (makeNode times e1 e2)
  | term_slash ts1 ts2 e1 e2 : term_of ts1 e1 → factor_of ts2 e2 → term_of (ts1 ++ tSLASH :: ts2) (makeNode slash e1 e2)
  | term_factor ts e : factor_of ts e → term_of ts e
with factor_of : list token → Node → Prop :=
  | factor_number n : factor_of [tNUMBER n] (makeLeaf n)
  | factor_paren ts e : expr_of ts e → factor_of (tLPAR :: ts ++ [tRPAR]) e.

Scheme expr_ind2 := Minimality for expr_of Sort Prop
  with term_ind2 := Minimality for term_of Sort Prop
  with factor_ind2 := Minimality for factor_of Sort Prop.
Combined Scheme grammar_ind from expr_ind2, term_ind2, factor_ind2.

(** [input]: lines, each with what its rule prints; [n] bounds the number of
    tokens of a line. *)
Inductive input_of (n : Z) : list token → list string → Prop :=
  | input_empty : input_of n [] []
  | input_line ts1 o1 ts e value :
      input_of n ts1 o1 → expr_of ts e → Z.of_nat (length ts) ≤ n → evaluate e = Ok value →
      input_of n (ts1 ++ ts ++ [tNEWLINE]) (o1 ++ report e value).

Abbreviation scans := (BisonSpec.scans yylex).
Abbreviation at_end := (BisonSpec.at_end yylex).

(** A text that is an [input] of the grammar, and what it prints. *)
Definition session (n : Z) (text : list char) (o : list string) : Prop :=
  ∃ ts text', scans text ts text' ∧ at_end text' ∧ input_of n ts o.

End CalcGrammar.

(** ** The tables implement the grammar *)
Module CalcSpec.
Import Calculator CalcGrammar.

Abbreviation cfg := (Bison.config (V:=YYSTYPE) (S:=list char)).
Abbreviation step := (Bison.step parser yylex action yyerror).
Abbreviation steps := (BisonSpec.steps parser yylex action yyerror).

(** The symbol of a token. *)
Definition kind (t : Z) : Z :=
  if t =? 258 then 3 else if t =? 43 then 4 else if t =? 45 then 5 else if t =? 42 then 6 else if t =? 47 then 7
  else if t =? 10 then 8 else if t =? 40 then 9 else if t =? 41 then 10 else 2.

Lemma translate_ok t : 0 < t → t ≠ 256 → Bison.translate parser t = Ok (kind t).
Proof.
  apply BisonSpec.translate_kind; [done|by vm_compute|]. change (Bison.YYMAXUTOK parser) with 258. intros Ht. unfold kind. by repeat (case_match; [lia|]).
Qed.

(** The tokens of the scanner: only numbers have a value. *)
Lemma yylex_token text t v text' :
  yylex text = Ok (t, v, text') → t ≤ 127 ∧ v = None ∨ ∃ n, (t, v) = tNUMBER n.
Proof.
  unfold yylex. rewrite FlexSpec.calc_yylex. unfold FlexSpec.calc_token. destruct (FlexSpec.rest FlexSpec.blank text) as [|c l].
  { intros [= <- <- <-]. left. split; [lia|done]. }
  destruct (is_digit c).
  - destruct (atoi _) as [n|]; [|done]. intros [= <- <- <-]. right. by exists n.
  - intros [= <- <- <-]. left. split; [apply FlexSpec.signed_code_bound|done].
Qed.

(** *** The automaton on a derivation *)

Definition config_at (s : Z) (ss : list Z) (vs : list (option YYSTYPE)) (la : option token) (inp : list char) (o : list string) : cfg :=
  Bison.mkconfig (s :: ss) vs la inp 0 o.

(** States in which a factor, a term or an expression may begin, and the state
    behind it. *)
Definition after_factor (s : Z) : option Z :=
  match s with 1 | 4 | 9 | 10 => Some 7 | 12 => Some 17 | 13 => Some 18 | _ => None end.
Definition after_term (s : Z) : option Z := match s with 1 | 4 => Some 6 | 9 => Some 15 | 10 => Some 16 | _ => None end.
Definition after_expr (s : Z) : option Z := match s with 1 => Some 5 | 4 => Some 8 | _ => None end.

Definition depth (s : Z) (ss : list Z) : Z := Z.of_nat (length (s :: ss)).

(** A step that reads a token and shifts it. *)
Lemma shift_token s ss vs inp t v inp' o yyn n :
  depth s ss < Bison.YYMAXDEPTH → s ≠ 2 → aget yypact s = Ok yyn → yyn ≠ -4 → yylex inp = Ok (t, v, inp') → 0 < t → t ≠ 256 →
  BisonSpec.decision_of parser s yyn (kind t) = Ok (BisonSpec.Shift n) →
  step (config_at s ss vs None inp o) = Ok (Bison.Running (config_at n (s :: ss) (v :: vs) None inp' o)).
Proof. intros. eapply BisonSpec.step_shift; eauto. by apply translate_ok. Qed.

(** The same when the token has been read before. *)
Lemma step_shift_read s ss vs inp t v o yyn n :
  depth s ss < Bison.YYMAXDEPTH → s ≠ 2 → aget yypact s = Ok yyn → yyn ≠ -4 → 0 < t → t ≠ 256 →
  BisonSpec.decision_of parser s yyn (kind t) = Ok (BisonSpec.Shift n) →
  step (config_at s ss vs (Some (t, v)) inp o) = Ok (Bison.Running (config_at n (s :: ss) (v :: vs) None inp o)).
Proof.
  intros Hd Hf Hp Hn Ht Hne Hdec.
  rewrite (BisonSpec.step_look parser yylex action yyerror s ss vs _ yyn t v (config_at s ss vs (Some (t, v)) inp o)); try done.
  destruct (Z.leb_spec t Bison.YYEOF); [unfold Bison.YYEOF in *; lia|]. rewrite translate_ok by done. unfold mbind, res_bind.
  by rewrite (BisonSpec.on_token_decision _ _ _ _ _ _ _ _ _ Hdec).
Qed.

(** A reduction decided by the next token. *)
Lemma step_look_reduce p1 p2 s ss vs inp t tv inp' o s0 q1 yyn r v text s' :
  p1 = s0 :: q1 → depth s0 (q1 ++ s :: ss) < Bison.YYMAXDEPTH → s0 ≠ 2 → aget yypact s0 = Ok yyn → yyn ≠ -4 → yylex inp = Ok (t, tv, inp') → 0 < t → t ≠ 256 →
  BisonSpec.decision_of parser s0 yyn (kind t) = Ok (BisonSpec.Reduce r) →
  aget yyr2 r = Ok (Z.of_nat (length p1)) → length p2 = length p1 → action r (p2 ++ vs) = Ok (v, text) → BisonSpec.goto parser r s = Ok s' →
  step (Bison.mkconfig (p1 ++ s :: ss) (p2 ++ vs) None inp 0 o) = Ok (Bison.Running (config_at s' (s :: ss) (v :: vs) (Some (t, tv)) inp' (o ++ text))).
Proof.
  intros -> Hd Hf Hp Hn Hy Ht Hne Hdec Hl Hl2 Ha Hg.
  rewrite (BisonSpec.step_look parser yylex action yyerror s0 (q1 ++ s :: ss) (p2 ++ vs) _ yyn t tv (Bison.mkconfig ((s0 :: q1) ++ s :: ss) (p2 ++ vs) (Some (t, tv)) inp' 0 o)); try done.
  - destruct (Z.leb_spec t Bison.YYEOF); [unfold Bison.YYEOF in *; lia|]. rewrite translate_ok by done. unfold mbind, res_bind.
    rewrite (BisonSpec.on_token_decision _ _ _ _ _ _ _ _ _ Hdec). by apply (BisonSpec.yyreduce_ok parser action r (s0 :: q1) p2).
  - unfold Bison.lookahead. cbn [Bison.yychar]. cbn. by rewrite Hy.
Qed.

Lemma derivation_nonempty :
  (∀ ts e, expr_of ts e → (0 < length ts)%nat) ∧ (∀ ts e, term_of ts e → (0 < length ts)%nat) ∧ (∀ ts e, factor_of ts e → (0 < length ts)%nat).
Proof. apply grammar_ind; intros; rewrite ?length_app; cbn; rewrite ?length_app; cbn; lia. Qed.

Definition runs_factor (ts : list token) (e : Node) : Prop :=
  ∀ s s' ss vs inp inp' o, after_factor s = Some s' → scans inp ts inp' → depth s ss + Z.of_nat (length ts) < Bison.YYMAXDEPTH →
  steps (config_at s ss vs None inp o) (config_at s' (s :: ss) (Some (NodeV e) :: vs) None inp' o).

Definition runs_term (ts : list token) (e : Node) : Prop :=
  ∀ s s' ss vs inp inp' o, after_term s = Some s' → scans inp ts inp' → depth s ss + Z.of_nat (length ts) < Bison.YYMAXDEPTH →
  steps (config_at s ss vs None inp o) (config_at s' (s :: ss) (Some (NodeV e) :: vs) None inp' o).

(** The end of an expression is seen at the token behind it. *)
Definition ends_expr (t : Z) : Prop := 0 < t ∧ t ≠ 256 ∧ kind t ≠ 6 ∧ kind t ≠ 7.

Definition runs_expr (ts : list token) (e : Node) : Prop :=
  ∀ s s' ss vs inp inp1 t v inp2 o, after_expr s = Some s' → scans inp ts inp1 → yylex inp1 = Ok (t, v, inp2) → ends_expr t →
  depth s ss + Z.of_nat (length ts) < Bison.YYMAXDEPTH →
  steps (config_at s ss vs None inp o) (config_at s' (s :: ss) (Some (NodeV e) :: vs) (Some (t, v)) inp2 o).

Lemma kind_range t : kind t = 2 ∨ kind t = 3 ∨ kind t = 4 ∨ kind t = 5 ∨ kind t = 6 ∨ kind t = 7 ∨ kind t = 8 ∨ kind t = 9 ∨ kind t = 10.
Proof. unfold kind. repeat case_match; tauto. Qed.

(** The states behind a term: only a product goes on. *)
Lemma term_ends s r t : (s, r) ∈ [(6, 6); (15, 4); (16, 5)] → ends_expr t → BisonSpec.decision_of parser s (-1) (kind t) = Ok (BisonSpec.Reduce r).
Proof.
  intros Hs (_ & _ & H6 & H7). rewrite !elem_of_cons, elem_of_nil in Hs.
  destruct (kind_range t) as [->|[->|[->|[->|[E|[E|[->|[->| ->]]]]]]]]; try done; by destruct Hs as [[= -> ->]|[[= -> ->]|[[= -> ->]|[]]]].
Qed.

(** Splits the depth of a longer stack. *)
Ltac deep := unfold depth in *; cbn [length] in *; rewrite ?length_app in *; cbn [length] in *; rewrite ?length_app in *; cbn [length] in *; lia.

Lemma after_expr_cases s s' : after_expr s = Some s' → s = 1 ∧ s' = 5 ∨ s = 4 ∧ s' = 8.
Proof. unfold after_expr. intros H. repeat case_match; simplify_eq; tauto. Qed.

Lemma after_term_cases s s' : after_term s = Some s' → s = 1 ∧ s' = 6 ∨ s = 4 ∧ s' = 6 ∨ s = 9 ∧ s' = 15 ∨ s = 10 ∧ s' = 16.
Proof. unfold after_term. intros H. repeat case_match; simplify_eq; tauto. Qed.

Lemma after_factor_cases s s' :
  after_factor s = Some s' → s = 1 ∧ s' = 7 ∨ s = 4 ∧ s' = 7 ∨ s = 9 ∧ s' = 7 ∨ s = 10 ∧ s' = 7 ∨ s = 12 ∧ s' = 17 ∨ s = 13 ∧ s' = 18.
Proof. unfold after_factor. intros H. repeat case_match; simplify_eq; tauto. Qed.

(** A sum or difference. *)
Lemma runs_additive ts1 ts2 e1 e2 t op s9 s15 r :
  (t = 43 ∧ op = plus ∧ s9 = 9 ∧ s15 = 15 ∧ r = 4) ∨ (t = 45 ∧ op = minus ∧ s9 = 10 ∧ s15 = 16 ∧ r = 5) →
  expr_of ts1 e1 → term_of ts2 e2 → runs_expr ts1 e1 → runs_term ts2 e2 → runs_expr (ts1 ++ (t, None) :: ts2) (makeNode op e1 e2).
Proof.
  intros Hop D1 D2 IH1 IH2 s s' ss vs inp inp1 t' v inp2 o Hs Hsc Hy He Hd. pose proof (proj1 derivation_nonempty _ _ D1).
  pose proof (proj1 (proj2 derivation_nonempty) _ _ D2). destruct (BisonSpec.scans_split _ _ _ _ _ _ Hsc) as (i1 & i2 & S1 & Y1 & _ & S2).
  assert (ends_expr t) as Ht by (destruct Hop as [(-> & _)|(-> & _)]; by split_and!).
  assert (BisonSpec.decision_of parser s15 (-1) (kind t') = Ok (BisonSpec.Reduce r)) as Hr.
  { apply term_ends; [|done]. destruct Hop as [(_ & _ & _ & -> & ->)|(_ & _ & _ & -> & ->)]; rewrite !elem_of_cons; tauto. }
  etrans; [eapply (IH1 s s' ss vs inp i1 t None i2 o); [done..|deep]|].
  destruct (after_expr_cases _ _ Hs) as [[-> ->]|[-> ->]], Hop as [(-> & -> & -> & -> & ->)|(-> & -> & -> & -> & ->)].
  all: eapply rtc_l; [eapply step_shift_read; [deep|done|reflexivity|done..|reflexivity]|].
  all: etrans; [eapply (IH2 _ _ _ _ i2 inp1 o); [reflexivity|done|deep]|].
  all: apply rtc_once; rewrite <- (app_nil_r o) at 2.
  all: eapply (step_look_reduce [_; _; _] [_; _; _] _ ss vs); [reflexivity|deep|done|reflexivity|done|exact Hy|apply He|apply He|exact Hr|reflexivity..].
Qed.

(** A product or quotient. *)
Lemma runs_multiplicative ts1 ts2 e1 e2 t op s12 s17 r :
  (t = 42 ∧ op = times ∧ s12 = 12 ∧ s17 = 17 ∧ r = 7) ∨ (t = 47 ∧ op = slash ∧ s12 = 13 ∧ s17 = 18 ∧ r = 8) →
  term_of ts1 e1 → factor_of ts2 e2 → runs_term ts1 e1 → runs_factor ts2 e2 → runs_term (ts1 ++ (t, None) :: ts2) (makeNode op e1 e2).
Proof.
  intros Hop D1 D2 IH1 IH2 s s' ss vs inp inp' o Hs Hsc Hd. pose proof (proj1 (proj2 derivation_nonempty) _ _ D1).
  pose proof (proj2 (proj2 derivation_nonempty) _ _ D2). destruct (BisonSpec.scans_split _ _ _ _ _ _ Hsc) as (i1 & i2 & S1 & Y1 & _ & S2).
  etrans; [eapply (IH1 s s' ss vs inp i1 o); [done..|deep]|].
  destruct (after_term_cases _ _ Hs) as [[-> ->]|[[-> ->]|[[-> ->]|[-> ->]]]], Hop as [(-> & -> & -> & -> & ->)|(-> & -> & -> & -> & ->)].
  all: eapply rtc_l; [eapply shift_token; [deep|done|reflexivity|done|exact Y1|done..|reflexivity]|].
  all: etrans; [eapply (IH2 _ _ _ _ i2 inp' o); [reflexivity|done|deep]|].
  all: apply rtc_once; rewrite <- (app_nil_r o) at 2.
  all: eapply (BisonSpec.step_reduce parser yylex action yyerror [_; _; _] [_; _; _] _ ss vs); [reflexivity|deep|done|reflexivity|reflexivity|done|reflexivity..].
Qed.

Lemma runs_number n : runs_factor [tNUMBER n] (makeLeaf n).
Proof.
  intros s s' ss vs inp inp' o Hs Hsc Hd. destruct (BisonSpec.scans_one _ _ _ _ Hsc) as [Hy _].
  destruct (after_factor_cases _ _ Hs) as [[-> ->]|[[-> ->]|[[-> ->]|[[-> ->]|[[-> ->]|[-> ->]]]]]].
  all: eapply rtc_l; [eapply shift_token; [deep|done|reflexivity|done|exact Hy|done..|reflexivity]|].
  all: apply rtc_once; rewrite <- (app_nil_r o) at 2.
  all: eapply (BisonSpec.step_reduce parser yylex action yyerror [_] [_] _ ss vs); [reflexivity|deep|done|reflexivity|reflexivity|done|reflexivity..].
Qed.

Lemma runs_paren ts e : expr_of ts e → runs_expr ts e → runs_factor (tLPAR :: ts ++ [tRPAR]) e.
Proof.
  intros D IH s s' ss vs inp inp' o Hs Hsc Hd. inversion Hsc as [|? ? i1 ? ? Y1 _ S1]; subst. pose proof (proj1 derivation_nonempty _ _ D).
  destruct (BisonSpec.scans_split _ _ _ _ _ _ S1) as (i2 & i3 & S2 & Y2 & _ & S3). inversion S3; subst.
  destruct (after_factor_cases _ _ Hs) as [[-> ->]|[[-> ->]|[[-> ->]|[[-> ->]|[[-> ->]|[-> ->]]]]]].
  all: eapply rtc_l; [eapply shift_token; [deep|done|reflexivity|done|exact Y1|done..|reflexivity]|].
  all: etrans; [eapply (IH 4 8 _ _ i1 i2 41 None inp' o); [done..|by split_and!|deep]|].
  all: eapply rtc_l; [eapply step_shift_read; [deep|done|reflexivity|done..|reflexivity]|].
  all: apply rtc_once; rewrite <- (app_nil_r o) at 2.
  all: eapply (BisonSpec.step_reduce parser yylex action yyerror [_; _; _] [_; _; _] _ ss vs); [reflexivity|deep|done|reflexivity|reflexivity|done|reflexivity..].
Qed.

Lemma runs_unit_term ts e : factor_of ts e → runs_factor ts e → runs_term ts e.
Proof.
  intros D IH s s' ss vs inp inp' o Hs Hsc Hd. pose proof (proj2 (proj2 derivation_nonempty) _ _ D).
  destruct (after_term_cases _ _ Hs) as [[-> ->]|[[-> ->]|[[-> ->]|[-> ->]]]].
  all: etrans; [eapply (IH _ _ ss vs inp inp' o); [reflexivity|done|deep]|].
  all: apply rtc_once; rewrite <- (app_nil_r o) at 2.
  all: eapply (BisonSpec.step_reduce parser yylex action yyerror [_] [_] _ ss vs); [reflexivity|deep|done|reflexivity|reflexivity|done|reflexivity..].
Qed.

Lemma runs_unit_expr ts e : term_of ts e → runs_term ts e → runs_expr ts e.
Proof.
  intros D IH s s' ss vs inp inp1 t v inp2 o Hs Hsc Hy He Hd. pose proof (proj1 (proj2 derivation_nonempty) _ _ D).
  assert (BisonSpec.decision_of parser 6 (-1) (kind t) = Ok (BisonSpec.Reduce 6)) as Hr by (apply term_ends; [rewrite !elem_of_cons; tauto|done]).
  destruct (after_expr_cases _ _ Hs) as [[-> ->]|[-> ->]].
  all: etrans; [eapply (IH _ _ ss vs inp inp1 o); [reflexivity|done|deep]|].
  all: apply rtc_once; rewrite <- (app_nil_r o) at 2.
  all: eapply (step_look_reduce [_] [_] _ ss vs); [reflexivity|deep|done|reflexivity|done|exact Hy|apply He|apply He|exact Hr|reflexivity..].
Qed.

(** On the tokens of a derivation the automaton builds its tree. *)
Lemma derivation_runs :
  (∀ ts e, expr_of ts e → runs_expr ts e) ∧ (∀ ts e, term_of ts e → runs_term ts e) ∧ (∀ ts e, factor_of ts e → runs_factor ts e).
Proof.
  apply grammar_ind; intros.
  - eapply runs_additive; [by left|done..].
  - eapply runs_additive; [by right|done..].
  - by apply runs_unit_expr.
  - eapply runs_multiplicative; [by left|done..].
  - eapply runs_multiplicative; [by right|done..].
  - by apply runs_unit_term.
  - apply runs_number.
  - by apply runs_paren.
Qed.

(** A line in state 1. *)
Lemma line_runs v inp ts e value inp' o :
  scans inp (ts ++ [tNEWLINE]) inp' → expr_of ts e → Z.of_nat (length ts) ≤ 9990 → evaluate e = Ok value →
  ∃ v', steps (config_at 1 [0] [v; None] None inp o) (config_at 1 [0] [v'; None] None inp' (o ++ report e value)).
Proof.
  intros Hsc He Hl Hv. destruct (BisonSpec.scans_split _ _ _ _ _ _ Hsc) as (i1 & i2 & S1 & Y1 & _ & S2). inversion S2; subst. eexists.
  etrans; [eapply (proj1 derivation_runs ts e He 1 5 [0] _ inp i1 10 None inp' o); [done..|by split_and!|unfold depth, Bison.YYMAXDEPTH; cbn [length]; lia]|].
  eapply rtc_l; [eapply step_shift_read; [done|done|reflexivity|done..|reflexivity]|]. apply rtc_once.
  eapply (BisonSpec.step_reduce parser yylex action yyerror [_; _; _] [_; _; _] 0 [] [None]); [reflexivity|done|done|reflexivity|reflexivity|done|reflexivity|reflexivity| |reflexivity].
  cbn. by rewrite Hv.
Qed.

(** All lines. *)
Lemma input_runs n ts o inp inp' :
  n ≤ 9990 → input_of n ts o → scans inp ts inp' → ∃ v, steps (Bison.start inp) (config_at 1 [0] [v; None] None inp' o).
Proof.
  intros Hn Hi. revert inp'. induction Hi as [|ts1 o1 ts e value _ IH He Hl Hv]; intros inp' Hsc.
  - inversion Hsc; subst. exists None. apply rtc_once. reflexivity.
  - apply BisonSpec.scans_app in Hsc as (i1 & S1 & S2). destruct (IH _ S1) as [v Hr]. destruct (line_runs v i1 ts e value inp' o1) as [v' Hr2]; [done..|lia|done|].
    exists v'. by etrans.
Qed.

(** *** What the stacks mean *)

(** The state behind an operator, a closing parenthesis or the end of a line. *)
Definition after_sign (s t : Z) : option Z :=
  if t =? 43 then (if (s =? 5) || (s =? 8) then Some 9 else None)
  else if t =? 45 then (if (s =? 5) || (s =? 8) then Some 10 else None)
  else if t =? 42 then (if (s =? 6) || (s =? 15) || (s =? 16) then Some 12 else None)
  else if t =? 47 then (if (s =? 6) || (s =? 15) || (s =? 16) then Some 13 else None)
  else if t =? 10 then (if s =? 5 then Some 11 else None)
  else if t =? 41 then (if s =? 8 then Some 14 else None)
  else None.

(** The tokens [ts] have been shifted and [o] has been printed; every entry of
    the value stack is the tree of its tokens. *)
Inductive good : list Z → list (option YYSTYPE) → list token → list string → Prop :=
  | good_start : good [0] [None] [] []
  | good_input v n ts o : input_of n ts o → good [1; 0] [v; None] ts o
  | good_number s s' ss vs ts o n :
      good (s :: ss) vs ts o → after_factor s = Some s' → good (3 :: s :: ss) (Some (Num n) :: vs) (ts ++ [tNUMBER n]) o
  | good_paren s s' ss vs ts o :
      good (s :: ss) vs ts o → after_factor s = Some s' → good (4 :: s :: ss) (None :: vs) (ts ++ [tLPAR]) o
  | good_sign s t s' ss vs ts o :
      good (s :: ss) vs ts o → after_sign s t = Some s' → good (s' :: s :: ss) (None :: vs) (ts ++ [(t, None)]) o
  | good_factor s s' ss vs ts ts' o e :
      good (s :: ss) vs ts o → after_factor s = Some s' → factor_of ts' e → good (s' :: s :: ss) (Some (NodeV e) :: vs) (ts ++ ts') o
  | good_term s s' ss vs ts ts' o e :
      good (s :: ss) vs ts o → after_term s = Some s' → term_of ts' e → good (s' :: s :: ss) (Some (NodeV e) :: vs) (ts ++ ts') o
  | good_expr s s' ss vs ts ts' o e :
      good (s :: ss) vs ts o → after_expr s = Some s' → expr_of ts' e → good (s' :: s :: ss) (Some (NodeV e) :: vs) (ts ++ ts') o.

Lemma after_sign_cases s t s' :
  after_sign s t = Some s' →
  t = 43 ∧ s' = 9 ∧ (s = 5 ∨ s = 8) ∨ t = 45 ∧ s' = 10 ∧ (s = 5 ∨ s = 8) ∨
  t = 42 ∧ s' = 12 ∧ (s = 6 ∨ s = 15 ∨ s = 16) ∨ t = 47 ∧ s' = 13 ∧ (s = 6 ∨ s = 15 ∨ s = 16) ∨
  t = 10 ∧ s' = 11 ∧ s = 5 ∨ t = 41 ∧ s' = 14 ∧ s = 8.
Proof.
  unfold after_sign. intros H.
  destruct (Z.eqb_spec t 43); [|destruct (Z.eqb_spec t 45); [|destruct (Z.eqb_spec t 42); [|destruct (Z.eqb_spec t 47); [|destruct (Z.eqb_spec t 10); [|destruct (Z.eqb_spec t 41)]]]]].
  all: repeat match type of H with context [?a =? ?b] => destruct (Z.eqb_spec a b) end; cbn in H; simplify_eq; tauto.
Qed.

(** Finds the contradiction between the top state and the kind of its symbol. *)
Ltac wrong_symbol :=
  exfalso; repeat match goal with
  | H : after_factor _ = Some _ |- _ => apply after_factor_cases in H
  | H : after_term _ = Some _ |- _ => apply after_term_cases in H
  | H : after_expr _ = Some _ |- _ => apply after_expr_cases in H
  | H : after_sign _ _ = Some _ |- _ => apply after_sign_cases in H
  end; lia.

Lemma good_inv_number ss vs ts o :
  good (3 :: ss) vs ts o →
  ∃ s s' ss' vs' ts' n, ss = s :: ss' ∧ vs = Some (Num n) :: vs' ∧ ts = ts' ++ [tNUMBER n] ∧ good (s :: ss') vs' ts' o ∧ after_factor s = Some s'.
Proof. intros H. inversion H; subst; try wrong_symbol. by eexists _, _, _, _, _, _. Qed.

Lemma good_inv_paren ss vs ts o :
  good (4 :: ss) vs ts o →
  ∃ s s' ss' vs' ts', ss = s :: ss' ∧ vs = None :: vs' ∧ ts = ts' ++ [tLPAR] ∧ good (s :: ss') vs' ts' o ∧ after_factor s = Some s'.
Proof. intros H. inversion H; subst; try wrong_symbol. by eexists _, _, _, _, _. Qed.

Lemma good_inv_sign k ss vs ts o :
  good (k :: ss) vs ts o → 9 ≤ k ≤ 14 →
  ∃ s t ss' vs' ts', ss = s :: ss' ∧ vs = None :: vs' ∧ ts = ts' ++ [(t, None)] ∧ good (s :: ss') vs' ts' o ∧ after_sign s t = Some k.
Proof. intros H Hk. inversion H; subst; try lia; try wrong_symbol. by eexists _, _, _, _, _. Qed.

Lemma good_inv_factor k ss vs ts o :
  good (k :: ss) vs ts o → k = 7 ∨ 17 ≤ k →
  ∃ s ss' vs' ts1 ts2 e, ss = s :: ss' ∧ vs = Some (NodeV e) :: vs' ∧ ts = ts1 ++ ts2 ∧ good (s :: ss') vs' ts1 o ∧ after_factor s = Some k ∧ factor_of ts2 e.
Proof. intros H Hk. inversion H; subst; try lia; try wrong_symbol. by eexists _, _, _, _, _, _. Qed.

Lemma good_inv_term k ss vs ts o :
  good (k :: ss) vs ts o → k = 6 ∨ k = 15 ∨ k = 16 →
  ∃ s ss' vs' ts1 ts2 e, ss = s :: ss' ∧ vs = Some (NodeV e) :: vs' ∧ ts = ts1 ++ ts2 ∧ good (s :: ss') vs' ts1 o ∧ after_term s = Some k ∧ term_of ts2 e.
Proof. intros H Hk. inversion H; subst; try lia; try wrong_symbol. by eexists _, _, _, _, _, _. Qed.

Lemma good_inv_expr k ss vs ts o :
  good (k :: ss) vs ts o → k = 5 ∨ k = 8 →
  ∃ s ss' vs' ts1 ts2 e, ss = s :: ss' ∧ vs = Some (NodeV e) :: vs' ∧ ts = ts1 ++ ts2 ∧ good (s :: ss') vs' ts1 o ∧ after_expr s = Some k ∧ expr_of ts2 e.
Proof. intros H Hk. inversion H; subst; try lia; try wrong_symbol. by eexists _, _, _, _, _, _. Qed.

Lemma good_inv_input ss vs ts o : good (1 :: ss) vs ts o → ∃ v n, ss = [0] ∧ vs = [v; None] ∧ input_of n ts o.
Proof. intros H. inversion H; subst; try wrong_symbol. by eexists _, _. Qed.

(** The states of a stack, and its height. *)
Lemma good_states ss vs ts o : good ss vs ts o → Forall (λ s, 0 ≤ s ≤ 18) ss ∧ length vs = length ss ∧ ss ≠ [].
Proof.
  induction 1 as [| |? ? ? ? ? ? ? _ (H1 & H2 & _) Ha|? ? ? ? ? ? _ (H1 & H2 & _) Ha|? ? ? ? ? ? ? _ (H1 & H2 & _) Ha
    |? ? ? ? ? ? ? ? _ (H1 & H2 & _) Ha|? ? ? ? ? ? ? ? _ (H1 & H2 & _) Ha|? ? ? ? ? ? ? ? _ (H1 & H2 & _) Ha].
  1-2: split_and!; [repeat constructor; lia|done|done].
  all: split_and!; [|cbn; by rewrite H2|done]; constructor; [|done].
  all: first [lia|apply after_sign_cases in Ha; lia|apply after_factor_cases in Ha; lia|apply after_term_cases in Ha; lia|apply after_expr_cases in Ha; lia].
Qed.

(** *** Decisions *)

Definition looking : list Z := [1; 4; 5; 6; 8; 9; 10; 12; 13; 15; 16].
Definition kinds : list Z := [0; 2; 3; 4; 5; 6; 7; 8; 9; 10].

(** What the tables say, state by state. *)
Definition lr (s k : Z) : BisonSpec.decision :=
  if (s =? 6) || (s =? 15) || (s =? 16) then
    if k =? 6 then BisonSpec.Shift 12 else if k =? 7 then BisonSpec.Shift 13
    else BisonSpec.Reduce (if s =? 6 then 6 else if s =? 15 then 4 else 5)
  else if (s =? 5) || (s =? 8) then
    if k =? 4 then BisonSpec.Shift 9 else if k =? 5 then BisonSpec.Shift 10
    else if (s =? 5) && (k =? 8) then BisonSpec.Shift 11 else if (s =? 8) && (k =? 10) then BisonSpec.Shift 14
    else BisonSpec.Error
  else if k =? 3 then BisonSpec.Shift 3 else if k =? 9 then BisonSpec.Shift 4
  else if (s =? 1) && (k =? 0) then BisonSpec.Shift 2 else BisonSpec.Error.

Definition lr_entry_ok (s k : Z) : bool :=
  match aget yypact s with
  | Ok n => negb (n =? -4) && bool_decide (BisonSpec.decision_of parser s n k = Ok (lr s k))
  | UB _ => false
  end.

Lemma lr_ok s k :
  s ∈ looking → k ∈ kinds → ∃ n, aget yypact s = Ok n ∧ n ≠ -4 ∧ BisonSpec.decision_of parser s n k = Ok (lr s k).
Proof.
  intros Hs Hk. assert (forallb (λ s, forallb (lr_entry_ok s) kinds) looking = true) as H by (by vm_compute).
  rewrite forallb_forall in H. specialize (H s ltac:(by apply list_elem_of_In)). rewrite forallb_forall in H.
  specialize (H k ltac:(by apply list_elem_of_In)). unfold lr_entry_ok in H. destruct (aget yypact s) as [n|]; [|done]. exists n.
  apply andb_prop in H as [H1%negb_true_iff%Z.eqb_neq H2%bool_decide_eq_true_1]. done.
Qed.

Lemma kind_in t : kind t ∈ kinds.
Proof. unfold kinds. rewrite !elem_of_cons. pose proof (kind_range t). tauto. Qed.

(** An error ends the parse. *)
Lemma error_ends (c : cfg) ts :
  good (Bison.yyss c) (Bison.yyvs c) ts (Bison.out c) → Bison.yyerrstatus c = 0 → ∃ c', Bison.yyerrlab parser yyerror c = Ok (Bison.Returned 1 c').
Proof.
  intros Hg He. destruct (good_states _ _ _ _ Hg) as (H1 & H2 & H3). apply BisonSpec.yyerrlab_ends; [|done..].
  eapply Forall_impl; [exact H1|]. intros s Hs. apply (BisonSpec.below_bound _ 19); [by vm_compute|cbv beta in Hs; lia].
Qed.

(** *** Reductions *)

(** What a state adds to the work that remains: a number becomes a factor, a
    factor a term and a term an expression. *)
Definition weight (s : Z) : nat :=
  if s =? 3 then 4 else if (s =? 7) || (17 <=? s) then 3 else if (s =? 6) || (s =? 15) || (s =? 16) then 2
  else if (s =? 5) || (s =? 8) then 1 else if (s =? 4) || (9 <=? s) then 2 else 0.

Definition work (ss : list Z) : nat :=
  (sum_list_with weight ss + match ss with s :: _ => if (s =? 0)%Z then 1 else 0 | [] => 0 end)%nat.

Definition rule_of (s : Z) : option Z :=
  match s with
  | 0 => Some 2 | 3 => Some 10 | 7 => Some 9 | 17 => Some 7 | 18 => Some 8 | 14 => Some 11 | 11 => Some 3
  | 6 => Some 6 | 15 => Some 4 | 16 => Some 5 | _ => None
  end.

Lemma input_of_mono n m ts o : n ≤ m → input_of n ts o → input_of m ts o.
Proof. intros Hnm. induction 1; econstructor; eauto. lia. Qed.

Lemma evaluate_overflow e : match evaluate e with Ok _ => True | UB u => u = Overflow end.
Proof.
  induction e as [|op value l IHl r IHr]; [done|]. cbn. destruct (Ascii.eqb op nul); [done|]. unfold mbind, res_bind.
  destruct (evaluate l); [|done]. destruct (evaluate r); [|done]. unfold as_int. repeat case_match; by simplify_eq.
Qed.

Abbreviation reduced := (BisonSpec.reduced (S:=list char) parser action good work).

Ltac work_lt := unfold work; cbn; lia.

Lemma reduce_number ss vs la inp e o ts : good (3 :: ss) vs ts o → reduced 10 (Bison.mkconfig (3 :: ss) vs la inp e o) ts.
Proof.
  intros (s & s' & ss' & vs' & ts' & n & -> & -> & -> & Hg & Ha)%good_inv_number. rewrite <- (app_nil_r o) in Hg.
  eapply (BisonSpec.reduce_with parser action good work 10 [3] [Some (Num n)] s ss' vs' la inp e o (Some (NodeV (makeLeaf n))) [] s'); try done.
  - destruct (after_factor_cases _ _ Ha) as [[-> ->]|[[-> ->]|[[-> ->]|[[-> ->]|[[-> ->]|[-> ->]]]]]]; done.
  - eapply good_factor; [exact Hg|done|constructor].
  - destruct (after_factor_cases _ _ Ha) as [[-> ->]|[[-> ->]|[[-> ->]|[[-> ->]|[[-> ->]|[-> ->]]]]]]; work_lt.
  - change (Bison.YYFINAL parser) with 2; destruct (after_factor_cases _ _ Ha); lia.
Qed.

Lemma reduce_unit_term ss vs la inp e o ts : good (7 :: ss) vs ts o → reduced 9 (Bison.mkconfig (7 :: ss) vs la inp e o) ts.
Proof.
  intros (s & ss' & vs' & ts1 & ts2 & e1 & -> & -> & -> & Hg & Ha & He)%good_inv_factor; [|by left]. rewrite <- (app_nil_r o) in Hg.
  destruct (after_factor_cases _ _ Ha) as [[-> _]|[[-> _]|[[-> _]|[[-> _]|Hbad]]]]; [..|lia].
  all: eapply (BisonSpec.reduce_with parser action good work 9 [7] [_]); [reflexivity..| |work_lt|done]; (eapply good_term; [exact Hg|done|by constructor]).
Qed.

Lemma reduce_unit_expr ss vs la inp e o ts : good (6 :: ss) vs ts o → reduced 6 (Bison.mkconfig (6 :: ss) vs la inp e o) ts.
Proof.
  intros (s & ss' & vs' & ts1 & ts2 & e1 & -> & -> & -> & Hg & Ha & He)%good_inv_term; [|by left]. rewrite <- (app_nil_r o) in Hg.
  destruct (after_term_cases _ _ Ha) as [[-> _]|[[-> _]|Hbad]]; [..|lia].
  all: eapply (BisonSpec.reduce_with parser action good work 6 [6] [_]); [reflexivity..| |work_lt|done]; (eapply good_expr; [exact Hg|done|by constructor]).
Qed.

(** The products: states 17 and 18. *)
Lemma reduce_product k t op r ss vs la inp e o ts :
  (k = 17 ∧ t = 42 ∧ op = times ∧ r = 7) ∨ (k = 18 ∧ t = 47 ∧ op = slash ∧ r = 8) →
  good (k :: ss) vs ts o → reduced r (Bison.mkconfig (k :: ss) vs la inp e o) ts.
Proof.
  intros Hk (s & ss' & vs' & ts1 & ts2 & e2 & -> & -> & -> & Hg & Ha & He)%good_inv_factor; [|lia].
  assert (s = 12 ∧ k = 17 ∨ s = 13 ∧ k = 18) as Hs by (apply after_factor_cases in Ha; lia).
  apply good_inv_sign in Hg as (s0 & t' & ss0 & vs0 & ts0 & -> & -> & -> & Hg & Hsign); [|lia].
  apply after_sign_cases in Hsign. assert (t' = t) as -> by lia.
  apply good_inv_term in Hg as (s1 & ss1 & vs1 & ta & tb & e1 & -> & -> & -> & Hg & Hterm & He1); [|lia].
  rewrite <- (app_nil_r o) in Hg. rewrite <- !app_assoc. cbn [app].
  assert (term_of (tb ++ (t, None) :: ts2) (makeNode op e1 e2)) as Hnew.
  { destruct Hk as [(_ & -> & -> & _)|(_ & -> & -> & _)]; by constructor. }
  destruct (after_term_cases _ _ Hterm) as [[-> ->]|[[-> ->]|[[-> ->]|[-> ->]]]], Hk as [(-> & -> & -> & ->)|(-> & -> & -> & ->)], Hs as [[-> E]|[-> E]]; try done.
  all: eapply (BisonSpec.reduce_with parser action good work _ [_; _; _] [_; _; _]); [reflexivity..| |work_lt|done]; (eapply good_term; [exact Hg|done|exact Hnew]).
Qed.

(** The sums: states 15 and 16. *)
Lemma reduce_sum k t op r ss vs la inp e o ts :
  (k = 15 ∧ t = 43 ∧ op = plus ∧ r = 4) ∨ (k = 16 ∧ t = 45 ∧ op = minus ∧ r = 5) →
  good (k :: ss) vs ts o → reduced r (Bison.mkconfig (k :: ss) vs la inp e o) ts.
Proof.
  intros Hk (s & ss' & vs' & ts1 & ts2 & e2 & -> & -> & -> & Hg & Ha & He)%good_inv_term; [|lia].
  assert (s = 9 ∧ k = 15 ∨ s = 10 ∧ k = 16) as Hs by (apply after_term_cases in Ha; lia).
  apply good_inv_sign in Hg as (s0 & t' & ss0 & vs0 & ts0 & -> & -> & -> & Hg & Hsign); [|lia].
  apply after_sign_cases in Hsign. assert (t' = t) as -> by lia.
  apply good_inv_expr in Hg as (s1 & ss1 & vs1 & ta & tb & e1 & -> & -> & -> & Hg & Hexpr & He1); [|lia].
  rewrite <- (app_nil_r o) in Hg. rewrite <- !app_assoc. cbn [app].
  assert (expr_of (tb ++ (t, None) :: ts2) (makeNode op e1 e2)) as Hnew.
  { destruct Hk as [(_ & -> & -> & _)|(_ & -> & -> & _)]; by constructor. }
  destruct (after_expr_cases _ _ Hexpr) as [[-> ->]|[-> ->]], Hk as [(-> & -> & -> & ->)|(-> & -> & -> & ->)], Hs as [[-> E]|[-> E]]; try done.
  all: eapply (BisonSpec.reduce_with parser action good work _ [_; _; _] [_; _; _]); [reflexivity..| |work_lt|done]; (eapply good_expr; [exact Hg|done|exact Hnew]).
Qed.

Lemma reduce_paren ss vs la inp e o ts : good (14 :: ss) vs ts o → reduced 11 (Bison.mkconfig (14 :: ss) vs la inp e o) ts.
Proof.
  intros (s & t & ss' & vs' & ts' & -> & -> & -> & Hg & Hsign)%good_inv_sign; [|lia].
  apply after_sign_cases in Hsign. assert (t = 41 ∧ s = 8) as [-> ->] by lia.
  apply good_inv_expr in Hg as (s1 & ss1 & vs1 & ta & tb & e1 & -> & -> & -> & Hg & Hexpr & He1); [|by right].
  apply after_expr_cases in Hexpr as [[_ ?]|[-> _]]; [lia|].
  apply good_inv_paren in Hg as (s2 & s2' & ss2 & vs2 & tc & -> & -> & -> & Hg & Ha). rewrite <- (app_nil_r o) in Hg. rewrite <- !app_assoc. cbn [app].
  destruct (after_factor_cases _ _ Ha) as [[-> ->]|[[-> ->]|[[-> ->]|[[-> ->]|[[-> ->]|[-> ->]]]]]].
  all: eapply (BisonSpec.reduce_with parser action good work 11 [_; _; _] [_; _; _]); [reflexivity..| |work_lt|done]; (eapply good_factor; [exact Hg|done|by constructor]).
Qed.

Lemma reduce_line ss vs la inp e o ts : good (11 :: ss) vs ts o → reduced 3 (Bison.mkconfig (11 :: ss) vs la inp e o) ts.
Proof.
  intros (s & t & ss' & vs' & ts' & -> & -> & -> & Hg & Hsign)%good_inv_sign; [|lia].
  apply after_sign_cases in Hsign. assert (t = 10 ∧ s = 5) as [-> ->] by lia.
  apply good_inv_expr in Hg as (s1 & ss1 & vs1 & ta & tb & e1 & -> & -> & -> & Hg & Hexpr & He1); [|by left].
  apply after_expr_cases in Hexpr as [[-> _]|[_ ?]]; [|lia].
  apply good_inv_input in Hg as (v & n & -> & -> & Hin). pose proof (evaluate_overflow e1) as Hev. destruct (evaluate e1) as [value|u] eqn:Hv.
  - rewrite <- app_assoc. eapply (BisonSpec.reduce_with parser action good work 3 [_; _; _] [_; _; _]); [reflexivity|reflexivity| |reflexivity| |work_lt|done].
    + cbn. rewrite Hv. reflexivity.
    + eapply good_input, (input_line (n `max` Z.of_nat (length tb))); [|done|lia|done]. eapply input_of_mono; [|done]. lia.
  - right. subst u. eapply BisonSpec.yyreduce_UB; [reflexivity|]. cbn. by rewrite Hv.
Qed.

(** Every reduction the tables choose fits the stack. *)
Lemma reduce_good k r ss vs la inp e o ts :
  rule_of k = Some r → good (k :: ss) vs ts o → reduced r (Bison.mkconfig (k :: ss) vs la inp e o) ts.
Proof.
  intros Hr Hg. unfold rule_of in Hr.
  assert (k = 0 ∧ r = 2 ∨ k = 3 ∧ r = 10 ∨ k = 7 ∧ r = 9 ∨ (k = 17 ∧ r = 7 ∨ k = 18 ∧ r = 8) ∨ k = 14 ∧ r = 11 ∨ k = 11 ∧ r = 3 ∨ k = 6 ∧ r = 6 ∨ (k = 15 ∧ r = 4 ∨ k = 16 ∧ r = 5)) as Hc
    by (repeat case_match; simplify_eq; tauto).
  clear Hr. destruct Hc as [[-> ->]|[[-> ->]|[[-> ->]|[Hp|[[-> ->]|[[-> ->]|[[-> ->]|Hp]]]]]]].
  - inversion Hg; subst; try wrong_symbol. eapply (BisonSpec.reduce_with parser action good work 2 [] []); [reflexivity..| |work_lt|done]. apply (good_input None 0). constructor.
  - by apply reduce_number.
  - by apply reduce_unit_term.
  - destruct Hp as [[-> ->]|[-> ->]]; (eapply reduce_product; [|done]); [by left|by right].
  - by apply reduce_paren.
  - by apply reduce_line.
  - by apply reduce_unit_expr.
  - destruct Hp as [[-> ->]|[-> ->]]; (eapply reduce_sum; [|done]); [by left|by right].
Qed.

(** *** Runs *)

Lemma yylex_shorter text t v text' : yylex text = Ok (t, v, text') → 0 < t → (length text' < length text)%nat.
Proof.
  unfold yylex. rewrite FlexSpec.calc_yylex. unfold FlexSpec.calc_token. pose proof (FlexSpec.length_rest FlexSpec.blank text) as Hl.
  destruct (FlexSpec.rest FlexSpec.blank text) as [|c l]; [intros [= <- <- <-]; lia|]. cbn in Hl. destruct (is_digit c).
  - pose proof (FlexSpec.length_rest is_digit l). destruct (atoi _); [|done]. intros [= <- <- <-] _. lia.
  - intros [= <- <- <-] _. lia.
Qed.

Lemma yylex_overflow text : match yylex text with Ok _ => True | UB u => u = Overflow end.
Proof.
  unfold yylex. rewrite FlexSpec.calc_yylex. unfold FlexSpec.calc_token. destruct (FlexSpec.rest FlexSpec.blank text) as [|c l]; [done|].
  destruct (is_digit c); [|done]. unfold atoi, as_int. by destruct (in_int _).
Qed.

Definition sentence (ts : list token) (o : list string) : Prop := ∃ n, input_of n ts o.

Abbreviation inv := (BisonSpec.inv parser yylex good sentence).
Abbreviation step_ok := (BisonSpec.step_ok parser yylex action yyerror length good sentence work).

Lemma work_cons s ss : (work (s :: ss) ≤ 4 + 1 + sum_list_with weight ss)%nat.
Proof. unfold work, weight. cbn [sum_list_with]. repeat case_match; lia. Qed.

(** The stack behind a shift. *)
Lemma shift_good s ss vs ts o t v n text text1 :
  s ∈ looking → good (s :: ss) vs ts o → yylex text = Ok (t, v, text1) → 0 < t → lr s (kind t) = BisonSpec.Shift n →
  good (n :: s :: ss) (v :: vs) (ts ++ [(t, v)]) o ∧ n ≠ 2.
Proof.
  intros Hs Hg Hy Ht Hlr. pose proof (yylex_token _ _ _ _ Hy) as Hv.
  unfold looking in Hs. rewrite !elem_of_cons, elem_of_nil in Hs. unfold kind in Hlr.
  destruct (Z.eqb_spec t 258) as [->|]; [|destruct Hv as [[_ ->]|[k [= -> ->]]]; [|done]].
  { destruct Hv as [[? _]|[k [= ->]]]; [lia|].
    repeat destruct Hs as [->|Hs]; try done; cbn in Hlr; simplify_eq; (split; [|done]); (eapply good_number; [done|reflexivity]). }
  destruct (Z.eqb_spec t 43) as [->|]; [|destruct (Z.eqb_spec t 45) as [->|]; [|destruct (Z.eqb_spec t 42) as [->|]; [|destruct (Z.eqb_spec t 47) as [->|]; [|
    destruct (Z.eqb_spec t 10) as [->|]; [|destruct (Z.eqb_spec t 40) as [->|]; [|destruct (Z.eqb_spec t 41) as [->|]]]]]]].
  all: repeat destruct Hs as [->|Hs]; try done; cbn in Hlr; simplify_eq; (split; [|done]).
  all: first [eapply good_paren; [done|reflexivity]|eapply good_sign; [done|reflexivity]].
Qed.

Lemma lr_end s m : s ∈ looking → lr s 0 = BisonSpec.Shift m → s = 1 ∧ m = 2.
Proof.
  unfold looking. rewrite !elem_of_cons, elem_of_nil. intros Hs Hlr. repeat destruct Hs as [->|Hs]; try done; cbn in Hlr; by simplify_eq.
Qed.

Lemma lr_rule s k r : s ∈ looking → lr s k = BisonSpec.Reduce r → rule_of s = Some r.
Proof.
  unfold looking. rewrite !elem_of_cons, !elem_of_nil. intros Hs Hlr. unfold lr in Hlr.
  repeat destruct Hs as [->|Hs]; try done; cbn in Hlr; repeat case_match; by simplify_eq.
Qed.

Lemma yylex_no_error text t v text' : yylex text = Ok (t, v, text') → t ≠ 256.
Proof. intros Hy. destruct (yylex_token _ _ _ _ Hy) as [[? _]|[x [= -> _]]]; [lia|done]. Qed.

(** A state that looks at the next token. *)
Lemma looking_step text (c : cfg) ts s ss :
  Bison.yyss c = s :: ss → s ∈ looking → Z.of_nat (length (s :: ss)) < Bison.YYMAXDEPTH →
  good (Bison.yyss c) (Bison.yyvs c) ts (Bison.out c) → Bison.yyerrstatus c = 0 → BisonSpec.seen yylex text c ts → step_ok text c.
Proof.
  intros Hs Hl Hd Hg He Hseen. assert (s ≠ 2) as Hne by (intros ->; unfold looking in Hl; rewrite !elem_of_cons, elem_of_nil in Hl; lia).
  destruct (lr_ok s 0 Hl) as (n & Hp & Hn & Hend); [unfold kinds; rewrite !elem_of_cons; tauto|].
  eapply (BisonSpec.looking_ok parser yylex action yyerror length good sentence work yylex_shorter yylex_overflow yylex_no_error text c ts s ss n (lr s)); try done.
  - intros t Ht Hne'. exists (kind t). split; [by apply translate_ok|]. destruct (lr_ok s (kind t) Hl (kind_in t)) as (n' & Hp' & _ & Hdec). rewrite Hp in Hp'. by injection Hp' as <-.
  - intros m Hlr. destruct (lr_end s m Hl Hlr) as [-> ->]. split; [done|]. rewrite Hs in Hg. apply good_inv_input in Hg as (v0 & n0 & _ & _ & Hin). by exists n0.
  - intros t v text1 text2 k m Hy Ht Hk Hlr. pose proof (translate_ok t Ht (yylex_no_error _ _ _ _ Hy)) as Hk'. rewrite Hk in Hk'. injection Hk' as ->. rewrite Hs in Hg.
    destruct (shift_good s ss _ ts _ t v m text1 text2 Hl Hg Hy Ht Hlr) as [Hg' Hm]. split_and!; [done..|]. pose proof (work_cons m (s :: ss)). unfold work at 2. lia.
  - intros k r [ss1 vs1 la inp e o] Hlr; cbn; intros -> -> -> ->. rewrite Hs in Hg |- *. apply reduce_good; [|done]. by eapply lr_rule.
  - intros c1 H1 H2 H3 H4. eapply (error_ends c1 ts); [by rewrite H1, H2, H3|done].
Qed.

Definition reducing_entry_ok (s : Z) : bool :=
  bool_decide (s ∈ looking) || (s =? 2) ||
  match rule_of s with
  | Some r => bool_decide (aget yypact s = Ok (-4)) && bool_decide (aget yydefact s = Ok r) && negb (r =? 0)
  | None => false
  end.

Lemma reducing_ok s :
  0 ≤ s ≤ 18 → s ∉ looking → s ≠ 2 → ∃ r, rule_of s = Some r ∧ aget yypact s = Ok (-4) ∧ aget yydefact s = Ok r ∧ r ≠ 0.
Proof.
  intros Hs Hl H2. pose proof (BisonSpec.below_bound reducing_entry_ok 19 s eq_refl ltac:(lia)) as H.
  unfold reducing_entry_ok in H. rewrite (bool_decide_eq_false_2 _ Hl), (proj2 (Z.eqb_neq _ _) H2) in H. cbn in H. destruct (rule_of s) as [r|]; [|done]. exists r.
  apply andb_prop in H as [[Ha%bool_decide_eq_true_1 Hb%bool_decide_eq_true_1]%andb_prop Hc%negb_true_iff%Z.eqb_neq]. done.
Qed.

Lemma good_not_final ss vs ts o : good ss vs ts o → ∃ s ss', ss = s :: ss' ∧ s ≠ 2.
Proof. intros Hg. inversion Hg; subst; eexists _, _; (split; [done|]); try done; intros ->; wrong_symbol. Qed.

(** Every state is one that looks or one that reduces. *)
Lemma every_step text (c : cfg) : inv text c → step_ok text c.
Proof.
  apply BisonSpec.step_inv; [exact good_not_final|]. intros ts s ss Hs Hne Hd Hg He Hseen.
  destruct (decide (s ∈ looking)) as [Hl|Hl]; [by eapply looking_step|].
  destruct (good_states _ _ _ _ Hg) as (Hrange & _ & _). rewrite Hs in Hrange. apply Forall_cons in Hrange as [Hrange _].
  destruct (reducing_ok s) as (r & Hr & Hp & Hdf & Hr0); [done..|].
  apply (BisonSpec.reduced_ok _ _ _ _ _ _ _ _ text c c r ts s ss); try done; destruct c as [ss0 vs0 la inp e o]; cbn in *; subst ss0.
  - by apply (BisonSpec.step_default parser yylex action yyerror s ss).
  - by apply reduce_good.
Qed.

Lemma fuel_enough (text : list char) : (BisonSpec.measure parser length work (Bison.start (V:=YYSTYPE) (text : list char)) ≤ 6 * length text + 20)%nat.
Proof. unfold BisonSpec.measure. cbn. lia. Qed.

Lemma parse_total text : is_ok (yyparse text) = true ∨ yyparse text = UB Overflow.
Proof. eapply BisonSpec.yyparse_total; [exact good_start|exact every_step|apply fuel_enough]. Qed.

Lemma parse_sound text o : yyparse text = Ok (0, o) → ∃ n, session n text o.
Proof.
  intros H. destruct (BisonSpec.yyparse_sound parser yylex action yyerror length good sentence work good_start every_step _ _ _ H) as (ts & text' & H1 & H2 & n & H3).
  by exists n, ts, text'.
Qed.

Lemma parse_complete n text o : n ≤ 9990 → session n text o → yyparse text = Ok (0, o).
Proof.
  intros Hn (ts & text' & Hsc & Hend & Hin). destruct (input_runs n ts o text text' Hn Hin Hsc) as [v H1].
  destruct (BisonSpec.step_end parser yylex action yyerror 1 [0] [v; None] text' o 0) as (c & H2 & H3 & Ho); [done..|].
  eapply (BisonSpec.yyparse_steps parser yylex action yyerror length good sentence work good_start every_step); [apply fuel_enough|by etrans|done|done].
Qed.

(** *** Printed trees *)

(** Trees as the parser builds them. *)
Inductive tree : Node → Prop :=
  | tree_leaf value : 0 ≤ value ≤ 2147483647 → tree (makeLeaf value)
  | tree_node op l r : op ∈ [plus; minus; times; slash] → tree l → tree r → tree (makeNode op l r).

(** The printed text, and its tokens. *)
Definition text_of (e : Node) : list char := String.list_ascii_of_string (String.concat "" (printTree e)).

Fixpoint tokens_of (e : Node) : list token :=
  match e with
  | NULL => []
  | mkNode op value l r =>
      if Ascii.eqb op nul then [tNUMBER value] else tLPAR :: tokens_of l ++ (code op, None) :: tokens_of r ++ [tRPAR]
  end.

Lemma tokens_parse e : tree e → factor_of (tokens_of e) e.
Proof.
  induction 1 as [value Hv|op l r Hop _ IHl _ IHr]; [constructor|]. rewrite !elem_of_cons, elem_of_nil in Hop.
  assert (tokens_of (makeNode op l r) = tLPAR :: (tokens_of l ++ (code op, None) :: tokens_of r) ++ [tRPAR]) as ->.
  { destruct Hop as [->|[->|[->|[->|[]]]]]; cbn; by rewrite <- app_assoc. }
  apply factor_paren. destruct Hop as [->|[->|[->|[->|[]]]]].
  - apply (expr_plus (tokens_of l) (tokens_of r)); by repeat constructor.
  - apply (expr_minus (tokens_of l) (tokens_of r)); by repeat constructor.
  - apply expr_term, (term_times (tokens_of l) (tokens_of r)); by repeat constructor.
  - apply expr_term, (term_slash (tokens_of l) (tokens_of r)); by repeat constructor.
Qed.

(** Reading a printed tree back. *)

Lemma list_ascii_app a b : String.list_ascii_of_string (a +:+ b) = String.list_ascii_of_string a ++ String.list_ascii_of_string b.
Proof. induction a as [|c a IH]; [done|]. exact (f_equal (cons c) IH). Qed.

Lemma append_nil (a : string) : (a +:+ "")%string = a.
Proof. induction a as [|c a IH]; [done|]. exact (f_equal (String c) IH). Qed.

Lemma append_assoc (a b c : string) : (a +:+ (b +:+ c))%string = ((a +:+ b) +:+ c)%string.
Proof. induction a as [|x a IH]; [done|]. exact (f_equal (String x) IH). Qed.

Lemma concat_cons a l : String.concat "" (a :: l) = (a +:+ String.concat "" l)%string.
Proof. destruct l; cbn; [|done]. by rewrite append_nil. Qed.

Lemma concat_app a b : String.concat "" (a ++ b) = (String.concat "" a +:+ String.concat "" b)%string.
Proof. induction a as [|x a IH]; [done|]. rewrite <- app_comm_cons, !concat_cons, IH. by rewrite append_assoc. Qed.

(** A printed number is a run of digits. *)
Lemma pretty_go_digits x s : Forall (λ c, is_digit c = true) (String.list_ascii_of_string s) → Forall (λ c, is_digit c = true) (String.list_ascii_of_string (pretty_N_go x s)).
Proof.
  revert s. induction (N.lt_wf_0 x) as [x _ IH]; intros s Hs. destruct (decide (x = 0)%N) as [->|Hx]; [done|].
  rewrite pretty_N_go_step by lia. apply IH; [apply N.div_lt; lia|]. constructor; [|done]. by apply pretty_N_char_digit, N.mod_lt.
Qed.

Lemma d_digits v : 0 ≤ v → Forall (λ c, is_digit c = true) (String.list_ascii_of_string (d v)) ∧ String.list_ascii_of_string (d v) ≠ [].
Proof.
  intros Hv. destruct v as [|p|p]; [by split; [repeat constructor|]| |lia]. change (d (Z.pos p)) with (pretty_N_go (N.pos p) "").
  split; [apply pretty_go_digits; constructor|]. destruct (pretty_N_go_head (N.pos p) "") as (c & s & -> & _); done.
Qed.

Lemma run_app (P : char → bool) l c l' : Forall (λ c, P c = true) l → P c = false → FlexSpec.run P (l ++ c :: l') = l ∧ FlexSpec.rest P (l ++ c :: l') = c :: l'.
Proof. intros Hl Hc. induction Hl as [|x l Hx _ [IH1 IH2]]; cbn; [by rewrite Hc|]. rewrite Hx. by rewrite IH1, IH2. Qed.

Lemma of_chars_string s : of_chars (String.list_ascii_of_string s) = s.
Proof. apply String.string_of_list_ascii_of_string. Qed.

Lemma digit_not_blank c : is_digit c = true → FlexSpec.blank c = false.
Proof.
  intros Hc. apply not_true_is_false. intros Hb. pose proof (FlexSpec.every_char (λ c, negb (is_digit c && FlexSpec.blank c)) eq_refl c) as H. cbv beta in H.
  by rewrite Hc, Hb in H.
Qed.

Lemma scan_number v c l : 0 ≤ v ≤ 2147483647 → is_digit c = false → yylex (String.list_ascii_of_string (d v) ++ c :: l) = Ok (tNUMBER v, c :: l).
Proof.
  intros Hv Hc. destruct (d_digits v) as [Hd Hne]; [lia|]. unfold yylex. rewrite FlexSpec.calc_yylex. unfold FlexSpec.calc_token.
  pose proof (of_chars_string (d v)) as Hs. destruct (String.list_ascii_of_string (d v)) as [|x w] eqn:E; [done|]. apply Forall_cons in Hd as [Hx Hw].
  cbn [app FlexSpec.rest]. rewrite (digit_not_blank x Hx), Hx. destruct (run_app is_digit w c l Hw Hc) as [-> ->]. rewrite Hs, atoi_d. unfold as_int, in_int.
  destruct (Z.leb_spec (-2147483648) v); [|lia]. destruct (Z.leb_spec v 2147483647); [|lia]. done.
Qed.

Definition sp : char := Ascii.ascii_of_nat 32.

Lemma scan_blank l : yylex (sp :: l) = yylex l.
Proof. unfold yylex. by rewrite !FlexSpec.calc_yylex. Qed.

Lemma scan_sign c l : is_digit c = false → FlexSpec.blank c = false → yylex (c :: l) = Ok (signed_code c, None, l).
Proof. intros Hd Hb. unfold yylex. rewrite FlexSpec.calc_yylex. unfold FlexSpec.calc_token. cbn [FlexSpec.rest]. by rewrite Hb, Hd. Qed.

Lemma scans_blank l ts l' : ts ≠ [] → scans l ts l' → scans (sp :: l) ts l'.
Proof. intros Hne H. inversion H; subst; [done|]. econstructor; [by rewrite scan_blank|done|done]. Qed.

Lemma tokens_nonempty e : tree e → tokens_of e ≠ [].
Proof. intros Ht He. pose proof (proj2 (proj2 derivation_nonempty) _ _ (tokens_parse e Ht)) as Hl. rewrite He in Hl. cbn in Hl. lia. Qed.


Lemma text_leaf v : text_of (makeLeaf v) = String.list_ascii_of_string (d v).
Proof. done. Qed.

Lemma text_node op l r :
  op ≠ nul → text_of (makeNode op l r) = Ascii.ascii_of_nat 40 :: text_of l ++ sp :: op :: sp :: text_of r ++ [Ascii.ascii_of_nat 41].
Proof.
  intros Hop. unfold text_of, makeNode. cbn [printTree]. rewrite (proj2 (Ascii.eqb_neq op nul) Hop). rewrite !concat_app, !list_ascii_app. done.
Qed.

Lemma tokens_node op l r : op ≠ nul → tokens_of (makeNode op l r) = tLPAR :: tokens_of l ++ (code op, None) :: tokens_of r ++ [tRPAR].
Proof. intros Hop. unfold makeNode. cbn [tokens_of]. by rewrite (proj2 (Ascii.eqb_neq op nul) Hop). Qed.

(** The tokens of a printed tree. *)
Lemma tree_scans e c l : tree e → is_digit c = false → scans (text_of e ++ c :: l) (tokens_of e) (c :: l).
Proof.
  intros Ht. revert c l. induction Ht as [v Hv|op e1 e2 Hop H1 IH1 H2 IH2]; intros c l Hc.
  - rewrite text_leaf. econstructor; [by apply scan_number|done|constructor].
  - assert (op ≠ nul ∧ is_digit op = false ∧ FlexSpec.blank op = false ∧ signed_code op = code op ∧ 0 < code op) as (Hn & Hd & Hb & Hs & Hpos).
    { rewrite !elem_of_cons, elem_of_nil in Hop. by destruct Hop as [->|[->|[->|[->|[]]]]]. }
    rewrite text_node by done. rewrite tokens_node by done. cbn [app]. rewrite <- app_assoc. cbn [app].
    econstructor; [by apply scan_sign|done|]. apply BisonSpec.scans_app. eexists. split; [by apply IH1|].
    econstructor; [rewrite scan_blank; rewrite scan_sign by done; by rewrite Hs|done|]. apply scans_blank; [by destruct (tokens_of e2)|].
    rewrite <- app_assoc. cbn [app]. apply BisonSpec.scans_app. eexists. split; [by apply IH2|]. econstructor; [by apply scan_sign|done|constructor].
Qed.

End CalcSpec.

(** ** Theorems *)
Import CalcSpec.

(** C13: the bison parser of the calculator implements its grammar.  On every
    input it returns, or an [int] overflows; when it returns 0, the input is a
    sequence of lines of the grammar and the output is, line by line, the tree
    that the grammar gives (products bind stronger than sums, both group to the
    left) and its value; and every such input with lines of at most 9990 tokens
    is accepted with this output. *)
Theorem calculator_exact text :
  (is_ok (Calculator.yyparse text) = true ∨ Calculator.yyparse text = UB Overflow) ∧
  (∀ o, Calculator.yyparse text = Ok (0, o) → ∃ n, CalcGrammar.session n text o) ∧
  (∀ n o, n ≤ 9990 → CalcGrammar.session n text o → Calculator.yyparse text = Ok (0, o)).
Proof.
  split; [apply parse_total|]. split; [apply parse_sound|]. intros n o. apply parse_complete.
Qed.

(** C25: the calculator reads back what it prints: a line that is a printed tree
    is parsed to this tree, which is printed again with its value. *)
Theorem calculator_roundtrip e value :
  tree e → Calculator.evaluate e = Ok value → Z.of_nat (length (tokens_of e)) ≤ 9990 →
  Calculator.yyparse (text_of e ++ String.list_ascii_of_string nl) = Ok (0, Calculator.report e value).
Proof.
  intros Ht Hv Hl. apply (parse_complete 9990); [lia|]. exists (tokens_of e ++ [CalcGrammar.tNEWLINE]), []. split_and!.
  - apply BisonSpec.scans_app. exists (String.list_ascii_of_string nl). split; [by apply tree_scans|]. econstructor; [reflexivity|done|constructor].
  - by exists 0, None, [].
  - apply (CalcGrammar.input_line 9990 [] [] (tokens_of e) e value); [constructor| |done|done]. by repeat constructor; apply tokens_parse.
Qed.

(** [(1 + (2 * 3))] *)
Definition sample : Calculator.Node :=
  Calculator.makeNode Calculator.plus (Calculator.makeLeaf 1) (Calculator.makeNode Calculator.times (Calculator.makeLeaf 2) (Calculator.makeLeaf 3)).

Lemma calculator_roundtrip_witness :
  Calculator.yyparse (text_of sample ++ String.list_ascii_of_string nl) = Ok (0, Calculator.report sample 7).
Proof.
  apply (calculator_roundtrip sample 7); [|reflexivity|by vm_compute].
  apply tree_node; [rewrite !elem_of_cons; tauto|by apply tree_leaf|]. apply tree_node; [rewrite !elem_of_cons; tauto|by apply tree_leaf..].
Defined.

(** Grouping and precedence. *)
Example groups_left :
  Calculator.yyparse (String.list_ascii_of_string ("8-2-1*4" +:+ nl)) =
    Ok (0, Calculator.report (Calculator.makeNode Calculator.minus
      (Calculator.makeNode Calculator.minus (Calculator.makeLeaf 8) (Calculator.makeLeaf 2))
      (Calculator.makeNode Calculator.times (Calculator.makeLeaf 1) (Calculator.makeLeaf 4))) 2).
Proof. by vm_compute. Qed.

(** A byte above 127 is a negative token, which the parser takes for the end of
    the input: what follows is dropped without an error. *)
Lemma high_byte_ends : Calculator.yyparse (Ascii.ascii_of_nat 200 :: String.list_ascii_of_string ("1+1" +:+ nl)) = Ok (0, []).
Proof. by vm_compute. Qed.
