(* ===== verification/SqlParser.v ===== *)
(** * The SQL parser: [LEXICAL_ANALYZER/TASK/sql_lex.tab.c]

    [SqlParser] holds the tables and the action of the parser over the scanner
    [SqlScanner] and the automaton [Bison]; [SqlGrammar] is the grammar of
    sql_lex.y, and [SqlSpec] shows that the tables implement it. *)
From stdpp Require Import base list relations strings.
From Stdlib Require Import ZArith Lia.
From Stdlib Require Ascii String.
From S2P Require Import Prelude Scanner Bison.
Local Open Scope Z_scope.

Module SqlParser.
Import SqlScanner.

Definition yytranslate : list Z :=
  [0; 2; 2; 2; 2; 2; 2; 2; 2; 2; 2; 2; 2; 2; 2; 2; 2; 2; 2; 2; 2; 2; 2; 2; 2; 2; 2; 2; 2; 2; 2; 2; 2; 2; 2; 2;
   2; 2; 2; 2; 2; 2; 2; 2; 2; 2; 2; 2; 2; 2; 2; 2; 2; 2; 2; 2; 2; 2; 2; 2; 2; 2; 2; 2; 2; 2; 2; 2; 2; 2; 2; 2;
   2; 2; 2; 2; 2; 2; 2; 2; 2; 2; 2; 2; 2; 2; 2; 2; 2; 2; 2; 2; 2; 2; 2; 2; 2; 2; 2; 2; 2; 2; 2; 2; 2; 2; 2; 2;
   2; 2; 2; 2; 2; 2; 2; 2; 2; 2; 2; 2; 2; 2; 2; 2; 2; 2; 2; 2; 2; 2; 2; 2; 2; 2; 2; 2; 2; 2; 2; 2; 2; 2; 2; 2;
   2; 2; 2; 2; 2; 2; 2; 2; 2; 2; 2; 2; 2; 2; 2; 2; 2; 2; 2; 2; 2; 2; 2; 2; 2; 2; 2; 2; 2; 2; 2; 2; 2; 2; 2; 2;
   2; 2; 2; 2; 2; 2; 2; 2; 2; 2; 2; 2; 2; 2; 2; 2; 2; 2; 2; 2; 2; 2; 2; 2; 2; 2; 2; 2; 2; 2; 2; 2; 2; 2; 2; 2;
   2; 2; 2; 2; 2; 2; 2; 2; 2; 2; 2; 2; 2; 2; 2; 2; 2; 2; 2; 2; 2; 2; 2; 2; 2; 2; 2; 2; 2; 2; 2; 2; 2; 2; 2; 2;
   2; 2; 2; 2; 1; 2; 3; 4; 5; 6; 7; 8; 9].

Definition yypact : list Z :=
  [-8; 0; -8; -7; -8; -2; -4; 1; -3; 2; 3; 4; -8].

Definition yydefact : list Z :=
  [2; 0; 1; 0; 3; 0; 0; 0; 0; 0; 0; 0; 4].

Definition yypgoto : list Z :=
  [-8; -8; -8].

Definition yydefgoto : list Z :=
  [0; 1; 4].

Definition yytable : list Z :=
  [2; 5; 6; 3; 7; 9; 8; 0; 10; 0; 0; 12; 11].

Definition yycheck : list Z :=
  [0; 8; 4; 3; 8; 8; 5; -1; 6; -1; -1; 7; 9].

Definition yyr1 : list Z :=
  [0; 10; 11; 11; 12].

Definition yyr2 : list Z :=
  [0; 2; 0; 2; 9].

Definition parser : Bison.tables :=
  Bison.mktables yytranslate yypact yydefact yypgoto yydefgoto yytable yycheck yyr1 yyr2 2 12 10 264 (-8).

(** [$n] of a rule; the members of the union are read as they were written. *)
Definition str_at (i : nat) (vs : list (option YYSTYPE)) : res string :=
  match vs !! i with Some (Some (Str s)) => Ok s | _ => UB Uninitialised end.
Definition num_at (i : nat) (vs : list (option YYSTYPE)) : res Z :=
  match vs !! i with Some (Some (Num n)) => Ok n | _ => UB Uninitialised end.

(** What rule 4 prints. *)
Definition report (column table key : string) (value : Z) : list string :=
  [(nl +:+ "Parser SQL Successfully!" +:+ nl)%string; ("Column: " +:+ column +:+ nl)%string; ("Table: " +:+ table +:+ nl)%string;
   ("where : " +:+ key +:+ " = " +:+ d value +:+ " " +:+ nl)%string].

(** [yyval = yyvsp[1-yylen]] before the action. *)
Definition action (yyn : Z) (yyvs : list (option YYSTYPE)) : res (option YYSTYPE * list string) :=
  match yyn with
  | 3 => Ok (mjoin (yyvs !! 1%nat), [])
  | 4 =>
      column ← str_at 7 yyvs;
      table ← str_at 5 yyvs;
      key ← str_at 3 yyvs;
      value ← num_at 1 yyvs;
      Ok (mjoin (yyvs !! 8%nat), report column table key value)
  | _ => Ok (None, [])
  end.

Definition yyerror (s : string) : string := ("Syntax Error: " +:+ s +:+ nl)%string.

(** Six steps for every character of the input are enough. *)
Definition yyparse (text : list char) : res (Z * list string) :=
  Bison.yyparse parser SqlScanner.yylex action yyerror (6 * length text + 20) text.

Definition main (text : string) : C unit unit :=
  printf ("Enter SQL Query:" +:+ nl) ;;
  '(_, out) ← lift (yyparse (String.list_ascii_of_string text));
  for_each (λ line, printf line) out.

End SqlParser.

(** ** The grammar of sql_lex.y *)
Module SqlGrammar.
Import SqlScanner SqlParser.

Definition token : Set := Z * option YYSTYPE.

Definition statement (column table key : string) (value : Z) : list token :=
  [(SELECT_TOKEN, None); (IDENTIFIER, Some (Str column)); (FROM_TOKEN, None); (IDENTIFIER, Some (Str table)); (WHERE_TOKEN, None);
   (IDENTIFIER, Some (Str key)); (EQ, None); (NUMBER, Some (Num value)); (SEMICOLON, None)].

Inductive statements : list token → list string → Prop :=
  | statements_empty : statements [] []
  | statements_more ts o column table key value :
      statements ts o → statements (ts ++ statement column table key value) (o ++ report column table key value).

(** A text that is a sequence of statements, and what it prints. *)
Definition session (text : list char) (o : list string) : Prop :=
  ∃ ts text', BisonSpec.scans SqlScanner.yylex text ts text' ∧ BisonSpec.at_end SqlScanner.yylex text' ∧ statements ts o.

End SqlGrammar.

(** ** The tables implement the grammar *)
Module SqlSpec.
Import SqlScanner SqlParser SqlGrammar.

Abbreviation cfg := (Bison.config (V:=YYSTYPE) (S:=list char)).
Abbreviation step := (Bison.step parser SqlScanner.yylex action yyerror).
Abbreviation steps := (BisonSpec.steps parser SqlScanner.yylex action yyerror).
Abbreviation scans := (BisonSpec.scans SqlScanner.yylex).

(** The symbol of a token. *)
Definition kind (t : Z) : Z := if (258 <=? t) && (t <=? 264) then t - 255 else 2.

Lemma sql_translate_ok t : 0 < t → t ≠ 256 → Bison.translate parser t = Ok (kind t).
Proof.
  apply BisonSpec.translate_kind; [done|by vm_compute|]. change (Bison.YYMAXUTOK parser) with 264. intros Ht. unfold kind.
  destruct (Z.leb_spec t 264); [lia|]. by rewrite andb_false_r.
Qed.

(** The tokens of the scanner and their values. *)
Definition valued (t : Z) (v : option YYSTYPE) : Prop :=
  match kind t with 8 => ∃ w, v = Some (Str w) | 9 => ∃ n, v = Some (Num n) | 3 | 4 | 5 | 6 | 7 => v = None | _ => True end.

Lemma sql_yylex_token text t v text' : SqlScanner.yylex text = Ok (t, v, text') → t ≠ 256 ∧ valued t v.
Proof.
  rewrite FlexSpec.sql_yylex. unfold FlexSpec.sql_token. destruct (FlexSpec.rest FlexSpec.white text) as [|c l]; [by intros [= <- <- <-]|].
  destruct (is_digit c); [destruct (atoi _) as [n|]; [|done]; intros [= <- <- <-]; split; [done|by exists n]|]. destruct (FlexSpec.word_start c).
  - unfold FlexSpec.word_token. repeat case_match; intros [= <- <- <-]; (split; [done|]); try done. by eexists.
  - intros [= <- <- <-]. unfold FlexSpec.sign_token. repeat case_match; try done. pose proof (FlexSpec.signed_code_bound c).
    split; [lia|]. unfold valued, kind. destruct (Z.leb_spec 258 (signed_code c)); [lia|done].
Qed.

Lemma sql_yylex_shorter text t v text' : SqlScanner.yylex text = Ok (t, v, text') → 0 < t → (length text' < length text)%nat.
Proof.
  rewrite FlexSpec.sql_yylex. unfold FlexSpec.sql_token. pose proof (FlexSpec.length_rest FlexSpec.white text) as Hl.
  destruct (FlexSpec.rest FlexSpec.white text) as [|c l]; [intros [= <- <- <-]; lia|]. cbn in Hl.
  pose proof (FlexSpec.length_rest is_digit l). pose proof (FlexSpec.length_rest FlexSpec.word_char l).
  destruct (is_digit c); [destruct (atoi _); [|done]; intros [= <- <- <-]; lia|]. destruct (FlexSpec.word_start c).
  - destruct (FlexSpec.word_token _). intros [= <- <- <-]. lia.
  - intros [= <- <- <-]. lia.
Qed.

Lemma sql_yylex_overflow text : match SqlScanner.yylex text with Ok _ => True | UB u => u = Overflow end.
Proof.
  rewrite FlexSpec.sql_yylex. unfold FlexSpec.sql_token. destruct (FlexSpec.rest FlexSpec.white text) as [|c l]; [done|].
  destruct (is_digit c); [unfold atoi, as_int; by destruct (in_int _)|]. by destruct (FlexSpec.word_start c).
Qed.

(** *** What the stacks mean *)

(** The states behind the tokens of a statement. *)
Definition path : list Z := [3; 5; 6; 7; 8; 9; 10; 11; 12].

(** [ts] has been shifted and [o] printed: before the first reduction, inside a
    statement of which [i] tokens have been read, or behind its last one. *)
Inductive good : list Z → list (option YYSTYPE) → list token → list string → Prop :=
  | good_start : good [0] [None] [] []
  | good_within i column table key value v ts o :
      (i ≤ 9)%nat → statements ts o →
      good (reverse (take i path) ++ [1; 0]) (reverse (take i (snd <$> statement column table key value)) ++ [v; None])
        (ts ++ take i (statement column table key value)) o
  | good_statement v1 v2 ts o : statements ts o → good [4; 1; 0] [v1; v2; None] ts o.

Definition work (ss : list Z) : nat := match ss with [0] => 1 | _ => length ss - 2 end.

Abbreviation inv := (BisonSpec.inv parser SqlScanner.yylex good statements).
Abbreviation step_ok := (BisonSpec.step_ok parser SqlScanner.yylex action yyerror length good statements work).
Abbreviation reduced := (BisonSpec.reduced (S:=list char) parser action good work).

(** The ten places in a statement. *)
Ltac places i := destruct i as [|[|[|[|[|[|[|[|[|[|i]]]]]]]]]]; [..|lia].

Lemma sql_good_states ss vs ts o : good ss vs ts o → Forall (λ s, 0 ≤ s < 13 ∧ s ≠ 2) ss ∧ length vs = length ss ∧ ss ≠ [].
Proof.
  intros [|i column table key value v ts' o' Hi _|v1 v2 ts' o' _]; [|places i|]; (split_and!; [|done..]); repeat constructor; lia.
Qed.

(** The only symbol a state shifts, and where it leads. *)
Definition next (s : Z) : Z * Z :=
  match s with 1 => (3, 3) | 3 => (8, 5) | 5 => (4, 6) | 6 => (8, 7) | 7 => (5, 8) | 8 => (8, 9) | 9 => (6, 10) | 10 => (9, 11) | 11 => (7, 12) | _ => (-1, -1) end.

Definition sql_lr (s k : Z) : BisonSpec.decision :=
  if (s =? 1) && (k =? 0) then BisonSpec.Shift 2 else if k =? fst (next s) then BisonSpec.Shift (snd (next s)) else BisonSpec.Error.

Definition looking : list Z := [1; 3; 5; 6; 7; 8; 9; 10; 11].

Definition sql_entry_ok (s k : Z) : bool :=
  match aget yypact s with
  | Ok n => negb (n =? -8) && bool_decide (BisonSpec.decision_of parser s n k = Ok (sql_lr s k))
  | UB _ => false
  end.

Lemma sql_lr_ok s k : s ∈ looking → 0 ≤ k < 10 → ∃ n, aget yypact s = Ok n ∧ n ≠ -8 ∧ BisonSpec.decision_of parser s n k = Ok (sql_lr s k).
Proof.
  intros Hs Hk. assert (forallb (λ s, forallb (sql_entry_ok s) (Z.of_nat <$> seq 0 10)) looking = true) as H by (by vm_compute).
  rewrite forallb_forall in H. specialize (H s ltac:(by apply list_elem_of_In)). pose proof (BisonSpec.below_bound _ 10 k H ltac:(lia)) as H1.
  unfold sql_entry_ok in H1. destruct (aget yypact s) as [n|]; [|done]. exists n.
  apply andb_prop in H1 as [Ha%negb_true_iff%Z.eqb_neq Hb%bool_decide_eq_true_1]. done.
Qed.

Lemma kind_bound t : 0 ≤ kind t < 10.
Proof. unfold kind. destruct (Z.leb_spec 258 t), (Z.leb_spec t 264); cbn; lia. Qed.

Lemma kind_inv t k : kind t = k → 3 ≤ k → t = k + 255.
Proof. unfold kind. destruct (Z.leb_spec 258 t), (Z.leb_spec t 264); cbn; lia. Qed.

(** The stack behind a shift. *)
Lemma sql_shift_good s ss vs ts o t v :
  good (s :: ss) vs ts o → s ∈ looking → valued t v → kind t = fst (next s) →
  good (snd (next s) :: s :: ss) (v :: vs) (ts ++ [(t, v)]) o ∧ (work (snd (next s) :: s :: ss) < 6 + work (s :: ss))%nat.
Proof.
  intros Hg Hs Hv Hk. remember (s :: ss) as st eqn:E. destruct Hg as [|i column table key value v0 ts o Hi Hst|v1 v2 ts o Hst].
  - injection E as <- <-. unfold looking in Hs. by rewrite !elem_of_cons, elem_of_nil in Hs; destruct_or!.
  - unfold valued in Hv. rewrite Hk in Hv.
    assert (i ≠ 9%nat) as Hi9.
    { intros ->. cbv in E. injection E as <- <-. unfold looking in Hs. rewrite !elem_of_cons, elem_of_nil in Hs. lia. }
    places i; [..|done]; cbv in E; injection E as <- <-; cbn in Hv, Hk; (apply kind_inv in Hk as ->; [|done]);
      rewrite <- app_assoc; (split; [|cbn; lia]); first [subst v|destruct Hv as [w ->]].
    + exact (good_within 1 column table key value v0 ts o ltac:(lia) Hst).
    + exact (good_within 2 w table key value v0 ts o ltac:(lia) Hst).
    + exact (good_within 3 column table key value v0 ts o ltac:(lia) Hst).
    + exact (good_within 4 column w key value v0 ts o ltac:(lia) Hst).
    + exact (good_within 5 column table key value v0 ts o ltac:(lia) Hst).
    + exact (good_within 6 column table w value v0 ts o ltac:(lia) Hst).
    + exact (good_within 7 column table key value v0 ts o ltac:(lia) Hst).
    + exact (good_within 8 column table key w v0 ts o ltac:(lia) Hst).
    + exact (good_within 9 column table key value v0 ts o ltac:(lia) Hst).
  - injection E as <- <-. unfold looking in Hs. by rewrite !elem_of_cons, elem_of_nil in Hs; destruct_or!.
Qed.

(** At the end of the input. *)
Lemma sql_end_good ss vs ts o : good (1 :: ss) vs ts o → statements ts o.
Proof.
  intros Hg. remember (1 :: ss) as st eqn:E. destruct Hg as [|i column table key value v0 ts o Hi Hst|v1 v2 ts o Hst]; [done| |done].
  places i; try done. by rewrite app_nil_r.
Qed.

Lemma sql_error_ends (c : cfg) ts :
  good (Bison.yyss c) (Bison.yyvs c) ts (Bison.out c) → Bison.yyerrstatus c = 0 → ∃ c', Bison.yyerrlab parser yyerror c = Ok (Bison.Returned 1 c').
Proof.
  intros Hg He. destruct (sql_good_states _ _ _ _ Hg) as (H1 & H2 & H3). apply BisonSpec.yyerrlab_ends; [|done..].
  eapply Forall_impl; [exact H1|]. intros s [Hs _]. by apply (BisonSpec.below_bound _ 13); [vm_compute|].
Qed.

(** A state inside a statement. *)
Lemma sql_looking_step text (c : cfg) ts s ss :
  Bison.yyss c = s :: ss → s ∈ looking → Z.of_nat (length (s :: ss)) < Bison.YYMAXDEPTH → s ≠ 2 →
  good (Bison.yyss c) (Bison.yyvs c) ts (Bison.out c) → Bison.yyerrstatus c = 0 → BisonSpec.seen SqlScanner.yylex text c ts → step_ok text c.
Proof.
  intros Hs Hl Hd Hne Hg He Hseen. destruct (sql_lr_ok s 0 Hl) as (n & Hp & Hn & Hend); [lia|].
  eapply (BisonSpec.looking_ok parser SqlScanner.yylex action yyerror length good statements work sql_yylex_shorter sql_yylex_overflow
    (λ text t v text' H, proj1 (sql_yylex_token text t v text' H)) text c ts s ss n (sql_lr s)); try done.
  - intros t Ht Hne'. exists (kind t). split; [by apply sql_translate_ok|]. destruct (sql_lr_ok s (kind t) Hl (kind_bound t)) as (n' & Hp' & _ & Hdec).
    rewrite Hp in Hp'. by injection Hp' as <-.
  - intros m Hlr. rewrite Hs in Hg. unfold looking in Hl. rewrite !elem_of_cons, elem_of_nil in Hl. destruct_or! Hl; subst s; try done.
    injection Hlr as <-. split; [done|]. by eapply sql_end_good.
  - intros t v text1 text2 k m Hy Ht Hk Hlr. destruct (sql_yylex_token _ _ _ _ Hy) as [H256 Hval]. rewrite (sql_translate_ok t Ht H256) in Hk. injection Hk as <-.
    rewrite Hs in Hg. unfold sql_lr in Hlr. pose proof (kind_bound t).
    assert (kind t ≠ 0) as Hk0 by (unfold kind; destruct (Z.leb_spec 258 t), (Z.leb_spec t 264); cbn; lia). rewrite (proj2 (Z.eqb_neq _ _) Hk0), andb_false_r in Hlr.
    destruct (Z.eqb_spec (kind t) (fst (next s))) as [Hk|]; [|done]. injection Hlr as <-. destruct (sql_shift_good s ss _ ts _ t v Hg Hl Hval Hk) as [Hg' Hw].
    split_and!; [done| |done]. unfold looking in Hl. rewrite !elem_of_cons, elem_of_nil in Hl. by destruct_or! Hl; subst s.
  - intros k r c1 Hlr. unfold sql_lr in Hlr. by repeat case_match.
  - intros c1 H1 H2 H3 H4. eapply (sql_error_ends c1 ts); [by rewrite H1, H2, H3|done].
Qed.

(** The reductions. *)
Lemma sql_reduce_statement column table key value v la inp e o ts :
  statements ts o →
  reduced 4 (Bison.mkconfig (reverse path ++ [1; 0]) (reverse (snd <$> statement column table key value) ++ [v; None]) la inp e o) (ts ++ statement column table key value).
Proof.
  intros Hst. eapply (BisonSpec.reduce_with parser action good work 4 (reverse path) (reverse (snd <$> statement column table key value)) 1 [0] [v; None]); try reflexivity.
  - apply good_statement. by constructor.
  - cbn. lia.
  - done.
Qed.

Lemma sql_reduce_more v1 v2 la inp e o ts : statements ts o → reduced 3 (Bison.mkconfig [4; 1; 0] [v1; v2; None] la inp e o) ts.
Proof.
  intros Hst. eapply (BisonSpec.reduce_with parser action good work 3 [4; 1] [v1; v2] 0 [] [None]); try reflexivity.
  - rewrite app_nil_r. pose proof (good_within 0 nl nl nl 0 v2 ts o ltac:(lia) Hst : good [1; 0] [v2; None] (ts ++ []) o) as Hg. by rewrite app_nil_r in Hg.
  - cbn. lia.
  - done.
Qed.

Lemma sql_reduce_empty la inp e : reduced 2 (Bison.mkconfig [0] [None] la inp e []) [].
Proof.
  eapply (BisonSpec.reduce_with parser action good work 2 [] [] 0 [] [None]); try reflexivity.
  - exact (good_within 0 nl nl nl 0 None [] [] ltac:(lia) statements_empty).
  - cbn. lia.
  - done.
Qed.

Lemma sql_good_not_final ss vs ts o : good ss vs ts o → ∃ s ss', ss = s :: ss' ∧ s ≠ 2.
Proof.
  intros Hg. destruct (sql_good_states _ _ _ _ Hg) as (H1 & _ & H3). destruct ss as [|s ss]; [done|]. apply Forall_cons in H1 as [[_ H1] _]. by exists s, ss.
Qed.

(** A state that reduces without a look at the input. *)
Lemma sql_reducing_step text (c : cfg) ts s ss r :
  Bison.yyss c = s :: ss → (s, r) ∈ [(0, 2); (4, 3); (12, 4)] → Z.of_nat (length (s :: ss)) < Bison.YYMAXDEPTH →
  Bison.yyerrstatus c = 0 → BisonSpec.seen SqlScanner.yylex text c ts → reduced r c ts → step_ok text c.
Proof.
  intros Hs Hr Hd He Hseen Hred. assert (s ≠ 2 ∧ aget yypact s = Ok (-8) ∧ aget yydefact s = Ok r ∧ r ≠ 0) as (Hne & Hp & Hdf & Hr0).
  { rewrite !elem_of_cons, elem_of_nil in Hr. by destruct Hr as [[= -> ->]|[[= -> ->]|[[= -> ->]|[]]]]. }
  apply (BisonSpec.reduced_ok _ _ _ _ _ _ _ _ text c c r ts s ss); try done. destruct c as [ss0 vs0 la inp e o]; cbn in *; subst ss0.
  by apply (BisonSpec.step_default parser SqlScanner.yylex action yyerror s ss).
Qed.

Lemma sql_every_step text (c : cfg) : inv text c → step_ok text c.
Proof.
  apply BisonSpec.step_inv; [exact sql_good_not_final|]. intros ts s ss Hs Hne Hd Hg He Hseen.
  destruct (decide (s ∈ looking)) as [Hl|Hl]; [by eapply sql_looking_step|].
  destruct c as [ss0 vs0 la inp e o]. cbn [Bison.yyss Bison.yyvs Bison.out] in Hs, Hg. subst ss0. cbn in He. remember (s :: ss) as st eqn:E.
  destruct Hg as [|i column table key value v0 ts o Hi Hst|v1 v2 ts o Hst].
  - injection E as <- <-. eapply (sql_reducing_step text _ _ 0 [] 2); try done; [set_solver|]. by apply sql_reduce_empty.
  - destruct (decide (i = 9%nat)) as [->|Hi9].
    + eapply (sql_reducing_step text _ _ 12 _ 4); [reflexivity|set_solver|done..|]. by apply sql_reduce_statement.
    + exfalso. apply Hl. places i; [..|done]; cbv in E; injection E as <- <-; unfold looking; set_solver.
  - injection E as <- <-. eapply (sql_reducing_step text _ _ 4 _ 3); [reflexivity|set_solver|done..|]. by apply sql_reduce_more.
Qed.

Lemma sql_fuel_enough (text : list char) : (BisonSpec.measure parser length work (Bison.start (V:=YYSTYPE) text) ≤ 6 * length text + 20)%nat.
Proof. unfold BisonSpec.measure. cbn. lia. Qed.

Lemma sql_parse_total text : is_ok (yyparse text) = true ∨ yyparse text = UB Overflow.
Proof. eapply BisonSpec.yyparse_total; [exact good_start|exact sql_every_step|apply sql_fuel_enough]. Qed.

Lemma sql_parse_sound text o : yyparse text = Ok (0, o) → session text o.
Proof. apply (BisonSpec.yyparse_sound parser SqlScanner.yylex action yyerror length good statements work good_start sql_every_step). Qed.

(** *** The automaton on a sequence of statements *)

Lemma scans_next inp t ts inp' : scans inp (t :: ts) inp' → ∃ inp1, SqlScanner.yylex inp = Ok (t, inp1) ∧ scans inp1 ts inp'.
Proof. intros H. inversion H; subst. by eexists. Qed.

(** Reads and shifts a token of a statement. *)
Lemma sql_shift s ss vs inp t v inp' o :
  s ∈ looking → Z.of_nat (length (s :: ss)) < 100 → SqlScanner.yylex inp = Ok (t, v, inp') → 0 < t → kind t = fst (next s) →
  step (Bison.mkconfig (s :: ss) vs None inp 0 o) = Ok (Bison.Running (Bison.mkconfig (snd (next s) :: s :: ss) (v :: vs) None inp' 0 o)).
Proof.
  intros Hs Hd Hy Ht Hk. destruct (sql_lr_ok s (kind t) Hs (kind_bound t)) as (n & Hp & Hn & Hdec).
  assert (kind t ≠ 0) as Hk0 by (unfold kind; destruct (Z.leb_spec 258 t), (Z.leb_spec t 264); cbn; lia).
  unfold sql_lr in Hdec. rewrite (proj2 (Z.eqb_neq _ _) Hk0), andb_false_r, Hk, Z.eqb_refl, <- Hk in Hdec. destruct (sql_yylex_token _ _ _ _ Hy) as [H256 _].
  eapply BisonSpec.step_shift; try done; [unfold Bison.YYMAXDEPTH; lia| |by apply sql_translate_ok]. change (Bison.YYFINAL parser) with 2. intros ->. unfold looking in Hs. rewrite !elem_of_cons, elem_of_nil in Hs. lia.
Qed.

Lemma statement_runs column table key value v inp inp' o :
  scans inp (statement column table key value) inp' →
  steps (Bison.mkconfig [1; 0] [v; None] None inp 0 o) (Bison.mkconfig [1; 0] [v; None] None inp' 0 (o ++ report column table key value)).
Proof.
  intros Hsc. unfold statement in Hsc. do 9 (apply scans_next in Hsc as (? & ? & Hsc)). inversion Hsc; subst.
  do 9 (eapply rtc_l; [eapply sql_shift; [unfold looking; set_solver|done|eassumption|done|reflexivity]|]; cbn [next snd]).
  eapply rtc_l.
  { eapply (BisonSpec.step_reduce parser SqlScanner.yylex action yyerror [12; 11; 10; 9; 8; 7; 6; 5; 3] [_; _; _; _; _; _; _; _; _] 1 [0] [v; None]);
      [reflexivity|done|done|reflexivity|reflexivity|done|reflexivity..]. }
  rewrite <- (app_nil_r (o ++ report column table key value)) at 2. apply rtc_once.
  eapply (BisonSpec.step_reduce parser SqlScanner.yylex action yyerror [4; 1] [_; _] 0 [] [None]); [reflexivity|done|done|reflexivity|reflexivity|done|reflexivity..].
Qed.

Lemma statements_run ts o inp inp' :
  statements ts o → scans inp ts inp' → ∃ v, steps (Bison.start inp) (Bison.mkconfig [1; 0] [v; None] None inp' 0 o).
Proof.
  intros Hst. revert inp'. induction Hst as [|ts o column table key value _ IH]; intros inp' Hsc.
  - inversion Hsc; subst. exists None. apply rtc_once. reflexivity.
  - apply BisonSpec.scans_app in Hsc as (i1 & S1 & S2). destruct (IH _ S1) as [v Hr]. exists v. etrans; [exact Hr|by apply statement_runs].
Qed.

Lemma sql_parse_complete text o : session text o → yyparse text = Ok (0, o).
Proof.
  intros (ts & text' & Hsc & Hend & Hst). destruct (statements_run ts o text text' Hst Hsc) as [v H1].
  destruct (BisonSpec.step_end parser SqlScanner.yylex action yyerror 1 [0] [v; None] text' o 0) as (c & H2 & H3 & Ho); [done..|].
  eapply (BisonSpec.yyparse_steps parser SqlScanner.yylex action yyerror length good statements work good_start sql_every_step); [apply sql_fuel_enough|by etrans|done|done].
Qed.

End SqlSpec.

(** ** Theorems *)
Import SqlSpec.

(** C26: the bison parser of the SQL statements implements its grammar.  On every
    input it returns, or a number in it overflows an [int]; it returns 0 exactly
    on the texts whose tokens are a sequence of statements
    [SELECT column FROM table WHERE key = value ;], and then it has printed the
    column, the table and the condition of every statement in order. *)
Theorem sql_parser_exact text :
  (is_ok (SqlParser.yyparse text) = true ∨ SqlParser.yyparse text = UB Overflow) ∧
  (∀ o, SqlParser.yyparse text = Ok (0, o) ↔ SqlGrammar.session text o).
Proof. split; [apply sql_parse_total|]. intros o. split; [apply sql_parse_sound|apply sql_parse_complete]. Qed.

(** Statements need no line breaks, and an error after one keeps its report. *)
Example two_statements :
  SqlParser.yyparse (String.list_ascii_of_string "SELECT age FROM people WHERE id = 7; SELECT a FROM b WHERE c=1 SELECT") =
    Ok (1, SqlParser.report "age" "people" "id" 7 ++ [SqlParser.yyerror "syntax error"]).
Proof. by vm_compute. Qed.

(** Keywords are matched as they are written: in lower case they are names. *)
Example lower_case_select :
  SqlParser.yyparse (String.list_ascii_of_string "select a FROM b WHERE c = 1;") = Ok (1, [SqlParser.yyerror "syntax error"]).
Proof. by vm_compute. Qed.
