(* ===== verification/FlexBuffer.v ===== *)
(** * The scanners' input buffer: [lex.yy.c] of both scanners

    [Scanner] describes the generated scanners over a text in memory.  Here is
    how they get that text: the buffer with its two end-of-buffer characters,
    which move the automaton to a state of its own, the refilling and growing of
    the buffer, the rescanning behind it, and the NULs that are part of the text.
    [FlexBuffer] is the machine, generic in the tables; [BufferedSpec] shows that
    however the input is delivered the scanner finds the tokens of the whole
    text, and the theorems put the buffered scanners under the parsers. *)
From stdpp Require Import base list strings.
From Stdlib Require Import ZArith Lia.
From Stdlib Require Ascii String.
From S2P Require Import Prelude Scanner Bison Calculator SqlParser.
Local Open Scope Z_scope.

Module FlexBuffer.
Import Flex.

(** What a read of the input file delivers: some characters, an interruption or
    an error.  Behind the list is the end of the file, which stays. *)
Inductive delivery : Set := Chunk (c : char) (cs : list char) | Interrupted | Failed.

Inductive buffer_status : Set := YY_BUFFER_NEW | YY_BUFFER_NORMAL | YY_BUFFER_EOF_PENDING.

(** [struct yy_buffer_state]: a pointer into [yy_ch_buf] is an index; cells that
    were never written hold [None]. *)
Record yy_buffer_state : Set := mkbuffer {
  yy_ch_buf : list (option char); yy_buf_pos : Z; yy_buf_size : Z; b_n_chars : Z;
  yy_is_our_buffer : bool; yy_is_interactive : bool; yy_fill_buffer : bool; yy_buffer_status : buffer_status }.

(** The current buffer and the static variables of the file. *)
Record scanner : Set := mkscanner {
  buffer : yy_buffer_state; yy_hold_char : char; yy_n_chars : Z; yy_c_buf_p : Z; yytext_ptr : Z;
  yy_last_accepting_state : Z; yy_last_accepting_cpos : Z; yyin : list delivery }.

Definition YY_END_OF_BUFFER_CHAR : char := Ascii.ascii_of_nat 0.
Definition newline : char := Ascii.ascii_of_nat 10.
Definition YY_BUF_SIZE : Z := 16384.
Definition YY_READ_BUF_SIZE : Z := 8192.

Inductive eob_action : Set := EOB_ACT_CONTINUE_SCAN | EOB_ACT_END_OF_FILE | EOB_ACT_LAST_MATCH.

(** Assignments. *)
Definition set_buffer (b : yy_buffer_state) (y : scanner) : scanner :=
  mkscanner b (yy_hold_char y) (yy_n_chars y) (yy_c_buf_p y) (yytext_ptr y) (yy_last_accepting_state y) (yy_last_accepting_cpos y) (yyin y).
Definition set_ch_buf (l : list (option char)) (b : yy_buffer_state) : yy_buffer_state :=
  mkbuffer l (yy_buf_pos b) (yy_buf_size b) (b_n_chars b) (yy_is_our_buffer b) (yy_is_interactive b) (yy_fill_buffer b) (yy_buffer_status b).
Definition set_b_n_chars (n : Z) (b : yy_buffer_state) : yy_buffer_state :=
  mkbuffer (yy_ch_buf b) (yy_buf_pos b) (yy_buf_size b) n (yy_is_our_buffer b) (yy_is_interactive b) (yy_fill_buffer b) (yy_buffer_status b).
Definition set_status (st : buffer_status) (b : yy_buffer_state) : yy_buffer_state :=
  mkbuffer (yy_ch_buf b) (yy_buf_pos b) (yy_buf_size b) (b_n_chars b) (yy_is_our_buffer b) (yy_is_interactive b) (yy_fill_buffer b) st.
Definition set_n_chars (n : Z) (y : scanner) : scanner :=
  mkscanner (buffer y) (yy_hold_char y) n (yy_c_buf_p y) (yytext_ptr y) (yy_last_accepting_state y) (yy_last_accepting_cpos y) (yyin y).
Definition set_c_buf_p (p : Z) (y : scanner) : scanner :=
  mkscanner (buffer y) (yy_hold_char y) (yy_n_chars y) p (yytext_ptr y) (yy_last_accepting_state y) (yy_last_accepting_cpos y) (yyin y).
Definition set_text_ptr (p : Z) (y : scanner) : scanner :=
  mkscanner (buffer y) (yy_hold_char y) (yy_n_chars y) (yy_c_buf_p y) p (yy_last_accepting_state y) (yy_last_accepting_cpos y) (yyin y).
Definition set_last (s p : Z) (y : scanner) : scanner :=
  mkscanner (buffer y) (yy_hold_char y) (yy_n_chars y) (yy_c_buf_p y) (yytext_ptr y) s p (yyin y).
Definition set_hold (c : char) (y : scanner) : scanner :=
  mkscanner (buffer y) c (yy_n_chars y) (yy_c_buf_p y) (yytext_ptr y) (yy_last_accepting_state y) (yy_last_accepting_cpos y) (yyin y).
Definition set_yyin (inp : list delivery) (y : scanner) : scanner :=
  mkscanner (buffer y) (yy_hold_char y) (yy_n_chars y) (yy_c_buf_p y) (yytext_ptr y) (yy_last_accepting_state y) (yy_last_accepting_cpos y) inp.

(** [*p] and [*p = c]. *)
Definition at_ptr (p : Z) (y : scanner) : res char := uget (yy_ch_buf (buffer y)) p.
Definition put_ptr (p : Z) (c : char) (y : scanner) : res scanner :=
  l ← aset (yy_ch_buf (buffer y)) p (Some c);
  Ok (set_buffer (set_ch_buf l (buffer y)) y).

(** [YY_INPUT].  [fread] is repeated after an interruption; [getc] is not, and it
    stops behind a newline. *)
Definition undelivered (l : list char) (inp : list delivery) : list delivery :=
  match l with [] => inp | c :: cs => Chunk c cs :: inp end.

Fixpoint fread (max_size : nat) (inp : list delivery) : res (list char * list delivery) :=
  match inp with
  | [] => Ok ([], [])
  | Chunk c cs :: inp => Ok (take max_size (c :: cs), undelivered (drop max_size (c :: cs)) inp)
  | Interrupted :: inp => fread max_size inp
  | Failed :: _ => UB FatalError
  end.

Fixpoint getc_loop (max_size : nat) (inp : list delivery) : res (list char * list delivery) :=
  match max_size, inp with
  | O, _ | _, [] => Ok ([], inp)
  | S max_size, Chunk c cs :: inp =>
      if Ascii.eqb c newline then Ok ([c], undelivered cs inp)
      else '(l, inp) ← getc_loop max_size (undelivered cs inp); Ok (c :: l, inp)
  | S _, (Interrupted | Failed) :: _ => UB FatalError
  end.

Definition YY_INPUT (interactive : bool) (max_size : Z) (inp : list delivery) : res (list char * list delivery) :=
  if interactive then getc_loop (Z.to_nat max_size) inp else fread (Z.to_nat max_size) inp.

(** [yy_load_buffer_state]. *)
Definition yy_load_buffer_state (y : scanner) : res scanner :=
  let b := buffer y in
  c ← uget (yy_ch_buf b) (yy_buf_pos b);
  Ok (mkscanner b c (b_n_chars b) (yy_buf_pos b) (yy_buf_pos b) (yy_last_accepting_state y) (yy_last_accepting_cpos y) (yyin y)).

Section Buffer.

(** Whether the input is a terminal. *)
Context (isatty : bool).

(** [yy_flush_buffer] and [yy_init_buffer]; [yyrestart] reinitialises the current
    buffer and loads it. *)
Definition yy_flush_buffer (b : yy_buffer_state) : res yy_buffer_state :=
  l ← aset (yy_ch_buf b) 0 (Some YY_END_OF_BUFFER_CHAR);
  l ← aset l 1 (Some YY_END_OF_BUFFER_CHAR);
  Ok (mkbuffer l 0 (yy_buf_size b) 0 (yy_is_our_buffer b) (yy_is_interactive b) (yy_fill_buffer b) YY_BUFFER_NEW).

Definition yy_init_buffer (b : yy_buffer_state) : res yy_buffer_state :=
  b ← yy_flush_buffer b;
  Ok (mkbuffer (yy_ch_buf b) (yy_buf_pos b) (yy_buf_size b) (b_n_chars b) (yy_is_our_buffer b) isatty true (yy_buffer_status b)).

Definition yy_create_buffer (size : Z) : res yy_buffer_state :=
  yy_init_buffer (mkbuffer (replicate (Z.to_nat (size + 2)) None) 0 size 0 true false false YY_BUFFER_NEW).

Definition yyrestart (y : scanner) : res scanner :=
  b ← yy_init_buffer (buffer y);
  yy_load_buffer_state (set_buffer b y).

(** [for (i = 0; i < number_to_move; ++i) *(dest++) = *(source++)]: the cells are
    copied as they are. *)
Fixpoint move (n : nat) (dest source : Z) (l : list (option char)) : res (list (option char)) :=
  match n with
  | O => Ok l
  | S n => c ← aget l source; l ← aset l dest c; move n (dest + 1) (source + 1) l
  end.

Fixpoint put_all (p : Z) (cs : list char) (l : list (option char)) : res (list (option char)) :=
  match cs with [] => Ok l | c :: cs => l ← aset l p (Some c); put_all (p + 1) cs l end.

(** [yyrealloc]: the cells kept, and new ones without a value. *)
Definition yyrealloc (size : Z) (l : list (option char)) : list (option char) :=
  take (Z.to_nat size) l ++ replicate (Z.to_nat size - length l) None.

(** [while (num_to_read <= 0)]: the size at least doubles, so that 32 rounds are
    more than an [int] allows. *)
Fixpoint grow (fuel : nat) (number_to_move : Z) (b : yy_buffer_state) : res yy_buffer_state :=
  if 0 <? yy_buf_size b - number_to_move - 1 then Ok b
  else
    match fuel with
    | O => UB OutOfFuel
    | S fuel =>
        if negb (yy_is_our_buffer b) then UB FatalError
        else
          new_size ← as_int (yy_buf_size b * 2);
          let size := if new_size <=? 0 then yy_buf_size b + Z.quot (yy_buf_size b) 8 else yy_buf_size b * 2 in
          grow fuel number_to_move
            (mkbuffer (yyrealloc (size + 2) (yy_ch_buf b)) (yy_buf_pos b) size (b_n_chars b) (yy_is_our_buffer b) (yy_is_interactive b) (yy_fill_buffer b) (yy_buffer_status b))
    end.

(** The read of [yy_get_next_buffer]: nothing is read once the end has been seen. *)
Definition read_more (number_to_move : Z) (y : scanner) : res scanner :=
  match yy_buffer_status (buffer y) with
  | YY_BUFFER_EOF_PENDING => Ok (set_n_chars 0 (set_buffer (set_b_n_chars 0 (buffer y)) y))
  | _ =>
      b ← grow 32 number_to_move (buffer y);
      let num_to_read := Z.min (yy_buf_size b - number_to_move - 1) YY_READ_BUF_SIZE in
      '(cs, inp) ← YY_INPUT (yy_is_interactive b) num_to_read (yyin y);
      l ← put_all number_to_move cs (yy_ch_buf b);
      let n := Z.of_nat (length cs) in
      Ok (set_yyin inp (set_n_chars n (set_buffer (set_b_n_chars n (set_ch_buf l b)) y)))
  end.

(** The last realloc, for a read that delivers more than was asked for. *)
Definition extend (number_to_move : Z) (y : scanner) : scanner :=
  let b := buffer y in
  if yy_buf_size b <? yy_n_chars y + number_to_move then
    let new_size := yy_n_chars y + number_to_move + Z.shiftr (yy_n_chars y) 1 in
    set_buffer (mkbuffer (yyrealloc new_size (yy_ch_buf b)) (yy_buf_pos b) (new_size - 2) (b_n_chars b) (yy_is_our_buffer b) (yy_is_interactive b) (yy_fill_buffer b) (yy_buffer_status b)) y
  else y.

Definition yy_get_next_buffer (y : scanner) : res (eob_action * scanner) :=
  if yy_n_chars y + 1 <? yy_c_buf_p y then UB FatalError
  else if negb (yy_fill_buffer (buffer y)) then
    Ok (if yy_c_buf_p y - yytext_ptr y =? 1 then EOB_ACT_END_OF_FILE else EOB_ACT_LAST_MATCH, y)
  else
    let number_to_move := yy_c_buf_p y - yytext_ptr y - 1 in
    l ← move (Z.to_nat number_to_move) 0 (yytext_ptr y) (yy_ch_buf (buffer y));
    y ← read_more number_to_move (set_buffer (set_ch_buf l (buffer y)) y);
    '(ret_val, y) ←
      (if yy_n_chars y =? 0 then
         if number_to_move =? 0 then y ← yyrestart y; Ok (EOB_ACT_END_OF_FILE, y)
         else Ok (EOB_ACT_LAST_MATCH, set_buffer (set_status YY_BUFFER_EOF_PENDING (buffer y)) y)
       else Ok (EOB_ACT_CONTINUE_SCAN, y));
    let y := extend number_to_move y in
    let y := set_n_chars (yy_n_chars y + number_to_move) y in
    y ← put_ptr (yy_n_chars y) YY_END_OF_BUFFER_CHAR y;
    y ← put_ptr (yy_n_chars y + 1) YY_END_OF_BUFFER_CHAR y;
    Ok (ret_val, set_text_ptr 0 y).

End Buffer.

Section Yylex.
Context {V : Type} (T : tables) (YY_END_OF_BUFFER jam : Z) (action : Z → list char → res (option (Z * option V))) (isatty : bool).

(** The note of the last accepting state. *)
Definition note (s cp : Z) (y : scanner) : res scanner :=
  a ← aget (yy_accept T) s;
  Ok (if a =? 0 then y else set_last s cp y).

(** [yy_get_previous_state]: the state behind the text from [yytext_ptr] to
    [yy_c_buf_p]. *)
Fixpoint previous_loop (n : nat) (s cp : Z) (y : scanner) : res (Z * scanner) :=
  match n with
  | O => Ok (s, y)
  | S n =>
      ch ← at_ptr cp y;
      c ← yy_class T ch;
      y ← note s cp y;
      s ← next_state 3 T s c;
      previous_loop n s (cp + 1) y
  end.

Definition yy_get_previous_state (y : scanner) : res (Z * scanner) :=
  previous_loop (Z.to_nat (yy_c_buf_p y - yytext_ptr y)) 1 (yytext_ptr y) y.

(** [yy_try_NUL_trans]: [None] if the automaton jams. *)
Definition yy_try_NUL_trans (s : Z) (y : scanner) : res (option Z * scanner) :=
  y ← note s (yy_c_buf_p y) y;
  s ← next_state 3 T s 1;
  Ok (if s =? jam then None else Some s, y).

(** The places of [yylex] that are reached by jumps. *)
Inductive place : Set := Scan | Yy_match (s yy_cp yy_bp : Z) | Yy_find_action (s yy_cp yy_bp : Z).

Inductive outcome : Type := Goto (p : place) (y : scanner) | Return (t : Z) (v : option V) (y : scanner).

(** The characters from [p] on. *)
Fixpoint text_at (n : nat) (p : Z) (y : scanner) : res (list char) :=
  match n with O => Ok [] | S n => c ← at_ptr p y; cs ← text_at n (p + 1) y; Ok (c :: cs) end.

(** [case YY_END_OF_BUFFER], once the effect of [YY_DO_BEFORE_ACTION] is undone: a
    NUL of the text, or the end of what has been read. *)
Definition refill (yy_amount_of_matched_text : Z) (y : scanner) : res outcome :=
  let y :=
    match yy_buffer_status (buffer y) with
    | YY_BUFFER_NEW => set_n_chars (b_n_chars (buffer y)) (set_buffer (set_status YY_BUFFER_NORMAL (buffer y)) y)
    | _ => y
    end in
  if yy_c_buf_p y <=? yy_n_chars y then
    let y := set_c_buf_p (yytext_ptr y + yy_amount_of_matched_text) y in
    '(s, y) ← yy_get_previous_state y;
    '(next, y) ← yy_try_NUL_trans s y;
    match next with
    | Some s => let y := set_c_buf_p (yy_c_buf_p y + 1) y in Ok (Goto (Yy_match s (yy_c_buf_p y) (yytext_ptr y)) y)
    | None => Ok (Goto (Yy_find_action s (yy_c_buf_p y) (yytext_ptr y)) y)
    end
  else
    '(act, y) ← yy_get_next_buffer isatty y;
    match act with
    | EOB_ACT_END_OF_FILE => Ok (Return 0 None (set_c_buf_p (yytext_ptr y) y))
    | EOB_ACT_CONTINUE_SCAN =>
        let y := set_c_buf_p (yytext_ptr y + yy_amount_of_matched_text) y in
        '(s, y) ← yy_get_previous_state y;
        Ok (Goto (Yy_match s (yy_c_buf_p y) (yytext_ptr y)) y)
    | EOB_ACT_LAST_MATCH =>
        let y := set_c_buf_p (yy_n_chars y) y in
        '(s, y) ← yy_get_previous_state y;
        Ok (Goto (Yy_find_action s (yy_c_buf_p y) (yytext_ptr y)) y)
    end.

Definition end_of_buffer (yy_cp : Z) (y : scanner) : res outcome :=
  let yy_amount_of_matched_text := yy_cp - yytext_ptr y - 1 in
  y ← put_ptr yy_cp (yy_hold_char y) y;
  refill yy_amount_of_matched_text y.

(** [YY_DO_BEFORE_ACTION] and the switch. *)
Definition do_action (yy_act yy_cp yy_bp : Z) (y : scanner) : res outcome :=
  let y := set_text_ptr yy_bp y in
  hold ← at_ptr yy_cp y;
  yytext ← text_at (Z.to_nat (yy_cp - yy_bp)) yy_bp y;
  y ← put_ptr yy_cp (Ascii.ascii_of_nat 0) (set_hold hold y);
  let y := set_c_buf_p yy_cp y in
  if yy_act =? 0 then
    y ← put_ptr yy_cp (yy_hold_char y) y;
    Ok (Goto (Yy_find_action (yy_last_accepting_state y) (yy_last_accepting_cpos y) yy_bp) y)
  else if yy_act =? YY_END_OF_BUFFER then end_of_buffer yy_cp y
  else
    r ← action yy_act yytext;
    Ok (match r with Some (t, v) => Return t v y | None => Goto Scan y end).

(** From one place to the next; [Yy_match] is one round of its loop. *)
Definition step (p : place) (y : scanner) : res outcome :=
  match p with
  | Scan =>
      let yy_cp := yy_c_buf_p y in
      y ← put_ptr yy_cp (yy_hold_char y) y;
      Ok (Goto (Yy_match 1 yy_cp yy_cp) y)
  | Yy_match s yy_cp yy_bp =>
      ch ← at_ptr yy_cp y;
      c ← aget (yy_ec T) (code ch);
      y ← note s yy_cp y;
      s ← next_state 3 T s c;
      b ← aget (yy_base T) s;
      Ok (Goto (if b =? jam_base T then Yy_find_action s (yy_cp + 1) yy_bp else Yy_match s (yy_cp + 1) yy_bp) y)
  | Yy_find_action s yy_cp yy_bp =>
      a ← aget (yy_accept T) s;
      if a =? 0 then
        a ← aget (yy_accept T) (yy_last_accepting_state y);
        do_action a (yy_last_accepting_cpos y) yy_bp y
      else do_action a yy_cp yy_bp y
  end.

Fixpoint run (fuel : nat) (p : place) (y : scanner) : res (Z * option V * scanner) :=
  r ← step p y;
  match r, fuel with
  | Return t v y, _ => Ok (t, v, y)
  | Goto p y, S fuel => run fuel p y
  | Goto _ _, O => UB OutOfFuel
  end.

(** The number of characters still to come. *)
Fixpoint to_come (inp : list delivery) : nat :=
  match inp with [] => 0 | Chunk _ cs :: inp => S (length cs) + to_come inp | _ :: inp => to_come inp end.

(** The scanner before its first call, and after it. *)
Inductive yy : Set := Unstarted (inp : list delivery) | Started (y : scanner).

(** The first call: [if (!yy_init)]. *)
Definition start (inp : list delivery) : res scanner :=
  b ← yy_create_buffer isatty YY_BUF_SIZE;
  yy_load_buffer_state (mkscanner b YY_END_OF_BUFFER_CHAR 0 0 0 0 0 inp).

Definition yylex (s : yy) : res (Z * option V * yy) :=
  y ← (match s with Unstarted inp => start inp | Started y => Ok y end);
  '(t, v, y) ← run (20 * (Z.to_nat (yy_n_chars y) + to_come (yyin y)) + 20) Scan y;
  Ok (t, v, Started y).

End Yylex.

(** The two scanners. *)
Definition calc_yylex := yylex CalcScanner.scanner 12 16 CalcScanner.action.
Definition sql_yylex := yylex SqlScanner.scanner 11 29 SqlScanner.action.

End FlexBuffer.

Module BufferedSpec.
Import Flex FlexBuffer.

Abbreviation nul := YY_END_OF_BUFFER_CHAR.

(** ** The input *)

(** The whole text that the input delivers. *)
Definition text (inp : list delivery) : list char := inp ≫= λ d, match d with Chunk c cs => c :: cs | _ => [] end.

(** No read fails; a terminal is not interrupted either. *)
Definition readable (isatty : bool) (inp : list delivery) : Prop := Forall (λ d, d ≠ Failed ∧ (isatty = true → d ≠ Interrupted)) inp.

Lemma to_come_text inp : to_come inp = length (text inp).
Proof. induction inp as [|[c cs| |] inp IH]; cbn; [done| |done|done]. rewrite length_app, IH. done. Qed.

Lemma undelivered_text l inp : text (undelivered l inp) = l ++ text inp.
Proof. by destruct l. Qed.

Lemma undelivered_readable tty l inp : readable tty inp → readable tty (undelivered l inp).
Proof. destruct l; [done|]. by constructor. Qed.

Lemma fread_ok max inp :
  (0 < max)%nat → readable false inp →
  ∃ cs inp', fread max inp = Ok (cs, inp') ∧ text inp = cs ++ text inp' ∧ readable false inp' ∧ (length cs ≤ max)%nat ∧ (cs = [] → inp' = []).
Proof.
  intros Hm. induction 1 as [|[c cs| |] inp [Hd1 Hd2] Hr IH]; cbn [fread]; [exists [], []; split_and!; [done|done|by apply Forall_nil_2|cbn; lia|done]| | |done].
  - exists (take max (c :: cs)), (undelivered (drop max (c :: cs)) inp). rewrite undelivered_text. split_and!; [done| |by apply undelivered_readable| |].
    + by rewrite app_assoc, take_drop.
    + rewrite length_take. lia.
    + destruct max; [lia|]. cbn. intros [=].
  - exact IH.
Qed.

Lemma getc_loop_ok max inp :
  readable true inp →
  ∃ cs inp', getc_loop max inp = Ok (cs, inp') ∧ text inp = cs ++ text inp' ∧ readable true inp' ∧ (length cs ≤ max)%nat ∧ ((0 < max)%nat → cs = [] → inp' = []).
Proof.
  revert inp. induction max as [|max IH]; intros inp Hr; cbn [getc_loop].
  - exists [], inp. split_and!; [by destruct inp|done|done|done|lia].
  - destruct Hr as [|[c cs| |] inp [Hd1 Hd2] Hr]; [exists [], []; split_and!; [done|done|by apply Forall_nil_2|cbn; lia|done]| |by destruct Hd2|done].
    destruct (Ascii.eqb c newline).
    + exists [c], (undelivered cs inp). rewrite undelivered_text. split_and!; [done|done|by apply undelivered_readable|cbn; lia|done].
    + destruct (IH (undelivered cs inp)) as (l & inp' & -> & Ht & Hr' & Hl & _); [by apply undelivered_readable|]. rewrite undelivered_text in Ht.
      exists (c :: l), inp'. split_and!; [done|change (c :: (cs ++ text inp) = c :: (l ++ text inp')); by rewrite Ht|done|cbn; lia|done].
Qed.

Lemma input_ok tty max inp :
  0 < max → readable tty inp →
  ∃ cs inp', YY_INPUT tty max inp = Ok (cs, inp') ∧ text inp = cs ++ text inp' ∧ readable tty inp' ∧ Z.of_nat (length cs) ≤ max ∧ (cs = [] → inp' = []).
Proof.
  intros Hm Hr. destruct tty; cbn [YY_INPUT].
  - destruct (getc_loop_ok (Z.to_nat max) inp Hr) as (cs & inp' & H1 & H2 & H3 & H4 & H5). exists cs, inp'. split_and!; [done..|lia|]. apply H5. lia.
  - destruct (fread_ok (Z.to_nat max) inp) as (cs & inp' & H1 & H2 & H3 & H4 & H5); [lia|done|]. exists cs, inp'. split_and!; [done..|lia|done].
Qed.

(** ** The cells of the buffer *)

(** A buffer with this content: two end-of-buffer characters follow. *)
Definition cells (content : list char) (junk : list (option char)) : list (option char) := (Some <$> content ++ [nul; nul]) ++ junk.

Lemma uget_cells content junk p c : (content ++ [nul; nul]) !! p = Some c → uget (cells content junk) (Z.of_nat p) = Ok c.
Proof.
  intros Hp. unfold uget. rewrite (aget_lookup _ p (Some c)); [done|]. unfold cells. rewrite lookup_app_l by (rewrite length_fmap; by eapply lookup_lt_Some).
  by rewrite list_lookup_fmap, Hp.
Qed.

(** Writing behind the content. *)
Lemma seal content (l : list (option char)) :
  take (length content) l = Some <$> content → (length content + 2 ≤ length l)%nat →
  <[S (length content) := Some nul]> (<[length content := Some nul]> l) = cells content (drop (length content + 2) l).
Proof.
  intros Ht Hl. unfold cells. rewrite <- (take_drop (length content) l) at 1. rewrite Ht. set (n := length content) in *.
  destruct (drop n l) as [|x [|z r]] eqn:Hd; [apply (f_equal length) in Hd; rewrite length_drop in Hd; cbn in Hd; lia..|].
  assert (drop (n + 2) l = r) as ->. { by rewrite <- drop_drop, Hd. }
  assert (n = length (Some <$> content)) as Hn by (by rewrite length_fmap).
  rewrite (insert_app_r_alt _ _ n) by lia. rewrite (insert_app_r_alt _ _ (S n)) by lia. rewrite <- Hn, Nat.sub_diag, Nat.sub_succ_l, Nat.sub_diag by lia. cbn.
  by rewrite fmap_app, <- app_assoc.
Qed.

Lemma move_ok n d s (l : list (option char)) :
  (d ≤ s)%nat → (s + n ≤ length l)%nat →
  ∃ l', move n (Z.of_nat d) (Z.of_nat s) l = Ok l' ∧ length l' = length l ∧ take (d + n) l' = take d l ++ take n (drop s l).
Proof.
  revert d s l. induction n as [|n IH]; intros d s l Hds Hl; cbn [move].
  - exists l. split_and!; [done|done|]. by rewrite take_0, app_nil_r, Nat.add_0_r.
  - destruct (lookup_lt_is_Some_2 l s) as [c Hc]; [lia|]. rewrite (aget_lookup _ _ c) by done. cbn [mbind res_bind]. rewrite aset_nat by lia. cbn [mbind res_bind].
    replace (Z.of_nat d + 1) with (Z.of_nat (S d)) by lia. replace (Z.of_nat s + 1) with (Z.of_nat (S s)) by lia.
    destruct (IH (S d) (S s) (<[d := c]> l)) as (l' & -> & Hl' & Ht); [lia|rewrite length_insert; lia|]. rewrite length_insert in Hl'.
    exists l'. split_and!; [done|done|]. replace (d + S n)%nat with (S d + n)%nat by lia. rewrite Ht, drop_insert_lt by lia.
    rewrite (drop_S l c s) by done. cbn [take]. rewrite (take_S_r _ _ c) by (apply list_lookup_insert_eq; lia). by rewrite take_insert_ge, <- app_assoc by lia.
Qed.

Lemma put_all_ok p cs (l : list (option char)) :
  (p + length cs ≤ length l)%nat →
  ∃ l', put_all (Z.of_nat p) cs l = Ok l' ∧ length l' = length l ∧ take (p + length cs) l' = take p l ++ (Some <$> cs).
Proof.
  revert p l. induction cs as [|c cs IH]; intros p l Hl; cbn [put_all length] in *.
  - exists l. split_and!; [done|done|]. by rewrite app_nil_r, Nat.add_0_r.
  - rewrite aset_nat by lia. cbn [mbind res_bind]. replace (Z.of_nat p + 1) with (Z.of_nat (S p)) by lia.
    destruct (IH (S p) (<[p := Some c]> l)) as (l' & -> & Hl' & Ht); [rewrite length_insert; lia|]. rewrite length_insert in Hl'.
    exists l'. split_and!; [done|done|]. replace (p + S (length cs))%nat with (S p + length cs)%nat by lia. rewrite Ht.
    rewrite (take_S_r _ _ (Some c)) by (apply list_lookup_insert_eq; lia). by rewrite take_insert_ge, <- app_assoc by lia.
Qed.

(** ** A buffer between two rounds *)

Record raw (tty : bool) (b : yy_buffer_state) (n : Z) (inp : list delivery) (content : list char) : Prop := mkraw {
  raw_cells : ∃ junk, yy_ch_buf b = cells content junk;
  raw_n : n = Z.of_nat (length content);
  raw_size : Z.of_nat (length (yy_ch_buf b)) = yy_buf_size b + 2;
  raw_min : 2 ≤ yy_buf_size b;
  raw_our : yy_is_our_buffer b = true;
  raw_interactive : yy_is_interactive b = tty;
  raw_fill : yy_fill_buffer b = true;
  raw_new : yy_buffer_status b = YY_BUFFER_NEW → b_n_chars b = n;
  raw_pending : yy_buffer_status b = YY_BUFFER_EOF_PENDING → inp = [];
  raw_input : readable tty inp }.

Lemma raw_room tty b n inp content : raw tty b n inp content → Z.of_nat (length content) ≤ yy_buf_size b.
Proof.
  intros H. destruct (raw_cells _ _ _ _ _ H) as [junk Hj]. pose proof (raw_size _ _ _ _ _ H) as Hs. rewrite Hj in Hs. unfold cells in Hs.
  rewrite length_app, length_fmap, length_app in Hs. cbn in Hs. lia.
Qed.

Lemma raw_at tty b n inp content p c : raw tty b n inp content → (content ++ [nul; nul]) !! p = Some c → uget (yy_ch_buf b) (Z.of_nat p) = Ok c.
Proof. intros H Hp. destruct (raw_cells _ _ _ _ _ H) as [junk ->]. by apply uget_cells. Qed.

(** Growing keeps what is in the buffer. *)
Lemma grow_ok fuel n b :
  Z.of_nat (length (yy_ch_buf b)) = yy_buf_size b + 2 → 2 ≤ yy_buf_size b → yy_is_our_buffer b = true → 0 ≤ n ≤ yy_buf_size b → n + 1 < 2 ^ 30 →
  ∃ b', grow (S (S fuel)) n b = Ok b' ∧ take (length (yy_ch_buf b)) (yy_ch_buf b') = yy_ch_buf b ∧ Z.of_nat (length (yy_ch_buf b')) = yy_buf_size b' + 2 ∧
    2 ≤ yy_buf_size b' ∧ n + 1 < yy_buf_size b' ∧ yy_buf_pos b' = yy_buf_pos b ∧ b_n_chars b' = b_n_chars b ∧ yy_is_our_buffer b' = true ∧
    yy_is_interactive b' = yy_is_interactive b ∧ yy_fill_buffer b' = yy_fill_buffer b ∧ yy_buffer_status b' = yy_buffer_status b.
Proof.
  intros Hs Hm Ho Hn Hb. cbn [grow]. destruct (Z.ltb_spec 0 (yy_buf_size b - n - 1)) as [Hlt|Hge].
  - exists b. rewrite take_ge by done. split_and!; try done; lia.
  - rewrite Ho. cbn [negb]. rewrite as_int_ok by (unfold in_int; apply andb_true_intro; split; apply Z.leb_le; lia). cbn [mbind res_bind].
    destruct (Z.leb_spec (yy_buf_size b * 2) 0); [lia|]. cbn [yy_buf_size]. destruct (Z.ltb_spec 0 (yy_buf_size b * 2 - n - 1)); [|lia]. eexists. split; [done|].
    cbn. unfold yyrealloc. rewrite (take_ge (yy_ch_buf b)) by lia. rewrite take_app_length, length_app, length_replicate. split_and!; try done; lia.
Qed.

(** The read: what it delivers follows what was kept. *)
Lemma read_more_ok tty y kept :
  let b := buffer y in
  take (length kept) (yy_ch_buf b) = Some <$> kept → Z.of_nat (length (yy_ch_buf b)) = yy_buf_size b + 2 → 2 ≤ yy_buf_size b → yy_is_our_buffer b = true →
  yy_is_interactive b = tty → yy_fill_buffer b = true → (yy_buffer_status b = YY_BUFFER_EOF_PENDING → yyin y = []) → readable tty (yyin y) →
  Z.of_nat (length kept) ≤ yy_buf_size b → Z.of_nat (length kept) + 1 < 2 ^ 30 →
  ∃ cs inp' b', read_more (Z.of_nat (length kept)) y = Ok (set_yyin inp' (set_n_chars (Z.of_nat (length cs)) (set_buffer b' y))) ∧
    text (yyin y) = cs ++ text inp' ∧ readable tty inp' ∧ (cs = [] → inp' = []) ∧
    take (length (kept ++ cs)) (yy_ch_buf b') = Some <$> kept ++ cs ∧ Z.of_nat (length (yy_ch_buf b')) = yy_buf_size b' + 2 ∧ 2 ≤ yy_buf_size b' ∧
    yy_is_our_buffer b' = true ∧ yy_is_interactive b' = tty ∧ yy_fill_buffer b' = true ∧ b_n_chars b' = Z.of_nat (length cs) ∧
    Z.of_nat (length (kept ++ cs)) ≤ yy_buf_size b' ∧ yy_buffer_status b' = yy_buffer_status b.
Proof.
  intros b Hk Hs Hm Ho Hi Hf Hp Hr Hn Hb. unfold read_more. fold b.
  assert (yy_buffer_status b = YY_BUFFER_EOF_PENDING ∨ yy_buffer_status b ≠ YY_BUFFER_EOF_PENDING) as [He|He] by (by destruct (yy_buffer_status b); (left + right)).
  - rewrite He. specialize (Hp He). exists [], [], (set_b_n_chars 0 b). rewrite Hp, !(app_nil_r kept). split_and!; try done; try (by apply Forall_nil_2).
    f_equal. unfold set_yyin, set_n_chars, set_buffer. cbn. by rewrite Hp.
  - destruct (grow_ok 30 (Z.of_nat (length kept)) b) as (b' & Hg & Ht & Hs' & Hm' & Hn' & _ & _ & Ho' & Hi' & Hf' & Hst); [done|done|done|lia|done|].
    destruct (input_ok tty (Z.min (yy_buf_size b' - Z.of_nat (length kept) - 1) YY_READ_BUF_SIZE) (yyin y)) as (cs & inp' & Hin & Htx & Hr' & Hl & He'); [unfold YY_READ_BUF_SIZE; lia|done|].
    destruct (put_all_ok (length kept) cs (yy_ch_buf b')) as (l & Hput & Hll & Hlt); [lia|].
    exists cs, inp', (set_b_n_chars (Z.of_nat (length cs)) (set_ch_buf l b')). clear Hp.
    assert (take (length kept) (yy_ch_buf b') = Some <$> kept) as Hk'.
    { rewrite <- Hk, <- Ht, take_take. f_equal. lia. }
    split.
    { assert (∀ X : res scanner, match yy_buffer_status b with YY_BUFFER_EOF_PENDING => Ok (set_n_chars 0 (set_buffer (set_b_n_chars 0 b) y)) | _ => X end = X) as ->
        by (intros X; by destruct (yy_buffer_status b)).
      rewrite Hg. cbn [mbind res_bind]. rewrite Hi', Hi, Hin. cbn [mbind res_bind]. by rewrite Hput. }
    split_and!; try done; cbn; try congruence.
    + rewrite length_app, Hlt, Hk', fmap_app. done.
    + rewrite length_app. lia.
Qed.

Lemma cells_slice content junk bp : (bp ≤ length content)%nat → take (length content - bp) (drop bp (cells content junk)) = Some <$> drop bp content.
Proof.
  intros Hb. unfold cells. rewrite fmap_app, <- app_assoc, drop_app_le by (rewrite length_fmap; lia). rewrite take_app_le by (rewrite length_drop, length_fmap; lia).
  rewrite <- fmap_drop. apply take_ge. rewrite length_fmap, length_drop. lia.
Qed.

(** The end of [yy_get_next_buffer]: the end-of-buffer characters behind the new
    content. *)
Lemma finish {A} (r : A) m y content :
  take (length content) (yy_ch_buf (buffer y)) = Some <$> content → Z.of_nat (length (yy_ch_buf (buffer y))) = yy_buf_size (buffer y) + 2 →
  Z.of_nat (length content) ≤ yy_buf_size (buffer y) → yy_n_chars y + m = Z.of_nat (length content) →
  (put_ptr (yy_n_chars (extend m y) + m) nul (set_n_chars (yy_n_chars (extend m y) + m) (extend m y)) ≫= λ y1,
    put_ptr (yy_n_chars y1 + 1) nul y1 ≫= λ y2, Ok (r, set_text_ptr 0 y2)) =
  Ok (r, set_text_ptr 0 (set_n_chars (Z.of_nat (length content))
    (set_buffer (set_ch_buf (cells content (drop (length content + 2) (yy_ch_buf (buffer y)))) (buffer y)) y))).
Proof.
  intros Ht Hs Hl Hn. unfold extend. rewrite Hn. destruct (Z.ltb_spec (yy_buf_size (buffer y)) (Z.of_nat (length content))); [lia|]. rewrite Hn. unfold put_ptr.
  cbn [set_n_chars buffer]. rewrite aset_nat by lia. cbn [mbind res_bind]. cbn [set_buffer set_n_chars yy_n_chars buffer set_ch_buf yy_ch_buf].
  replace (Z.of_nat (length content) + 1) with (Z.of_nat (S (length content))) by lia. rewrite aset_nat by (rewrite length_insert; lia). cbn [mbind res_bind].
  by rewrite seal by (done || lia).
Qed.

Lemma length_cells content junk : length (cells content junk) = (length content + 2 + length junk)%nat.
Proof. unfold cells. by rewrite length_app, length_fmap, length_app. Qed.

Lemma restart_ok tty y :
  (2 ≤ length (yy_ch_buf (buffer y)))%nat →
  yyrestart tty y = Ok (mkscanner (mkbuffer (<[1%nat := Some nul]> (<[0%nat := Some nul]> (yy_ch_buf (buffer y)))) 0 (yy_buf_size (buffer y)) 0 (yy_is_our_buffer (buffer y)) tty true YY_BUFFER_NEW)
    nul 0 0 0 (yy_last_accepting_state y) (yy_last_accepting_cpos y) (yyin y)).
Proof.
  intros Hl. unfold yyrestart, yy_init_buffer, yy_flush_buffer. rewrite (aset_lt _ 0) by lia. cbn [mbind res_bind]. rewrite (aset_lt _ 1) by (rewrite length_insert; lia).
  cbn [mbind res_bind yy_ch_buf yy_buf_pos yy_buf_size b_n_chars yy_is_our_buffer yy_buffer_status]. unfold yy_load_buffer_state. cbn [set_buffer buffer yy_ch_buf yy_buf_pos].
  unfold uget. rewrite (aget_lookup _ 0 (Some nul)); [done|]. change (Z.to_nat 1) with 1%nat. change (Z.to_nat 0) with 0%nat.
  rewrite list_lookup_insert_ne by done. apply list_lookup_insert_eq. lia.
Qed.

(** What [yy_get_next_buffer] leaves: the text of the token so far, and what was
    read behind it. *)
Lemma next_buffer_ok tty y content bp :
  raw tty (buffer y) (yy_n_chars y) (yyin y) content → yy_buffer_status (buffer y) ≠ YY_BUFFER_NEW → yytext_ptr y = Z.of_nat bp → (bp ≤ length content)%nat →
  yy_c_buf_p y = Z.of_nat (length content) + 1 → Z.of_nat (length (drop bp content)) + 1 < 2 ^ 30 →
  ∃ cs act y', yy_get_next_buffer tty y = Ok (act, y') ∧ text (yyin y) = cs ++ text (yyin y') ∧ (cs = [] → yyin y' = []) ∧
    yytext_ptr y' = 0 ∧ raw tty (buffer y') (yy_n_chars y') (yyin y') (drop bp content ++ cs) ∧
    match cs, drop bp content with
    | _ :: _, _ => act = EOB_ACT_CONTINUE_SCAN | [], _ :: _ => act = EOB_ACT_LAST_MATCH | [], [] => act = EOB_ACT_END_OF_FILE ∧ yy_hold_char y' = nul
    end.
Proof.
  intros Hraw Hnew Hbp Hle Hcp Hbound. pose proof (raw_room _ _ _ _ _ Hraw) as Hroom. destruct (raw_cells _ _ _ _ _ Hraw) as [junk Hj]. set (w := drop bp content) in *.
  assert (length w = (length content - bp)%nat) as Hw by (apply length_drop).
  unfold yy_get_next_buffer. rewrite (raw_n _ _ _ _ _ Hraw), Hcp, Hbp, (raw_fill _ _ _ _ _ Hraw), Z.ltb_irrefl. cbn [negb].
  replace (Z.of_nat (length content) + 1 - Z.of_nat bp - 1) with (Z.of_nat (length w)) by lia. rewrite Nat2Z.id.
  destruct (move_ok (length w) 0 bp (yy_ch_buf (buffer y))) as (l & Hmv & Hl & Ht); [lia|rewrite Hj, length_cells; lia|].
  change (Z.of_nat 0) with 0 in Hmv. rewrite Hmv. cbn [mbind res_bind].
  rewrite Hj, Hw, cells_slice in Ht by done. cbn [Nat.add take app] in Ht. fold w in Ht. rewrite <- Hw in Ht.
  destruct (read_more_ok tty (set_buffer (set_ch_buf l (buffer y)) y) w) as (cs & inp' & b' & -> & Htx & Hr & Hnil & Ht' & Hs' & Hm' & Ho' & Hi' & Hf' & Hn' & Hroom' & Hst');
    cbn [set_buffer buffer yyin set_ch_buf yy_ch_buf yy_buf_size yy_is_our_buffer yy_is_interactive yy_fill_buffer yy_buffer_status] in *; try (by apply Hraw); try done;
    [rewrite Hl; by apply Hraw|lia|]. cbn [mbind res_bind]. cbn [set_yyin set_n_chars set_buffer yy_n_chars buffer yyin].
  assert (∀ b inp k, length (yy_ch_buf b) = length (yy_ch_buf b') → yy_buf_size b = yy_buf_size b' → yy_is_our_buffer b = true → yy_is_interactive b = tty → yy_fill_buffer b = true →
    (yy_buffer_status b = YY_BUFFER_NEW → b_n_chars b = Z.of_nat (length (w ++ k))) → (yy_buffer_status b = YY_BUFFER_EOF_PENDING → inp = []) → readable tty inp →
    Z.of_nat (length (w ++ k)) ≤ yy_buf_size b' →
    raw tty (set_ch_buf (cells (w ++ k) (drop (length (w ++ k) + 2) (yy_ch_buf b))) b) (Z.of_nat (length (w ++ k))) inp (w ++ k)) as Hrep.
  { intros b inp k H1 H2 H3 H4 H5 H6 H7 H8 H9. constructor; cbn [set_ch_buf yy_ch_buf yy_buf_size yy_is_our_buffer yy_is_interactive yy_fill_buffer yy_buffer_status b_n_chars]; try done; [by eexists|rewrite length_cells, length_drop; lia|lia]. }
  destruct cs as [|c cs].
  - specialize (Hnil eq_refl). subst inp'. change (Z.of_nat (length []) =? 0) with true. cbv iota. destruct (decide (w = [])) as [Ew|Ew].
    + rewrite Ew. change (Z.of_nat (length []) =? 0) with true. cbv iota. exists [], EOB_ACT_END_OF_FILE. eexists. rewrite (restart_ok tty) by (cbn [set_yyin set_n_chars set_buffer buffer]; lia). cbn [mbind res_bind].
      rewrite (finish _ _ _ []) by (cbn [set_yyin set_n_chars set_buffer buffer yy_ch_buf yy_buf_size yy_n_chars length]; rewrite ?length_insert; done || lia).
      split; [done|]. cbn [set_text_ptr set_yyin set_n_chars set_buffer set_ch_buf buffer yyin yytext_ptr yy_n_chars]. split_and!; try done.
      rewrite Ew in Hrep. eapply (Hrep (mkbuffer _ 0 (yy_buf_size b') 0 _ tty true YY_BUFFER_NEW) [] []); cbn; rewrite ?length_insert; try done. lia.
    + exists [], EOB_ACT_LAST_MATCH. eexists. rewrite (proj2 (Z.eqb_neq (Z.of_nat (length w)) 0)) by (destruct w; [done|cbn; lia]). cbn [mbind res_bind].
      rewrite (finish _ _ _ (w ++ [])) by (cbn [set_yyin set_n_chars set_buffer set_status buffer yy_ch_buf yy_buf_size yy_n_chars]; done || (rewrite ?length_app in *; cbn [length] in *; lia)).
      split; [done|]. cbn [set_text_ptr set_yyin set_n_chars set_buffer set_ch_buf set_status buffer yyin yytext_ptr yy_n_chars]. split_and!; [done|done|done| |].
      * by apply (Hrep (set_status YY_BUFFER_EOF_PENDING b') [] []).
      * by destruct w.
  - exists (c :: cs), EOB_ACT_CONTINUE_SCAN. eexists. rewrite (proj2 (Z.eqb_neq (Z.of_nat (length (c :: cs))) 0)) by (cbn; lia). cbn [mbind res_bind].
    rewrite (finish _ _ _ (w ++ c :: cs)) by (cbn [set_yyin set_n_chars set_buffer buffer yy_ch_buf yy_buf_size yy_n_chars]; done || (rewrite ?length_app in *; lia)).
    split; [done|]. cbn [set_text_ptr set_yyin set_n_chars set_buffer set_ch_buf buffer yyin yytext_ptr yy_n_chars]. split_and!; try done.
    apply (Hrep b' inp' (c :: cs)); try done; rewrite Hst'; [done|]. intros Hp. exfalso. apply (raw_pending _ _ _ _ _ Hraw) in Hp. by rewrite Hp in Htx.
Qed.

(** ** What the tables promise

    [G] are the states behind a piece of text, [eob] the state behind an
    end-of-buffer character, [N] the number of character classes. *)
Record tables_ok (T : tables) (E jam eob N : Z) (G : list Z) : Prop := mktables_ok {
  ok_start : 1 ∈ G;
  ok_jam : jam ∉ G;
  ok_zero : 0 ∉ G;
  ok_classes : 1 < N;
  ok_ec0 : aget (yy_ec T) 0 = Ok 0;
  ok_ec c : code c ≠ 0 → ∃ k, aget (yy_ec T) (code c) = Ok k ∧ 1 ≤ k < N;
  ok_step s k : s ∈ G → 1 ≤ k < N → ∃ s', next_state 3 T s k = Ok s' ∧ (s' = jam ∧ s ≠ 1 ∨ s' ∈ G ∧ s' ≠ 1);
  ok_step0 s : s ∈ G → next_state 3 T s 0 = Ok eob;
  ok_eob k : 0 ≤ k < N → next_state 3 T eob k = Ok jam;
  ok_rule : E ≠ 0;
  ok_accept_eob : aget (yy_accept T) eob = Ok E;
  ok_base_eob : ∃ b, aget (yy_base T) eob = Ok b ∧ b ≠ jam_base T;
  ok_accept_jam : aget (yy_accept T) jam = Ok 0;
  ok_base_jam : aget (yy_base T) jam = Ok (jam_base T);
  ok_accept1 : aget (yy_accept T) 1 = Ok 0;
  ok_accept s : s ∈ G → s ≠ 1 → ∃ a, aget (yy_accept T) s = Ok a ∧ a ≠ 0 ∧ a ≠ E;
  ok_base s : s ∈ G → ∃ b, aget (yy_base T) s = Ok b ∧ (b = jam_base T → s ≠ 1 ∧ ∀ k, 1 ≤ k < N → next_state 3 T s k = Ok jam) }.

(** The promise is decided by looking at all entries. *)
Definition res_is (r : res Z) (p : Z → bool) : bool := match r with Ok z => p z | UB _ => false end.

Definition check_state (T : tables) (E jam eob N : Z) (G : list Z) (s : Z) : bool :=
  forallb (λ k, res_is (next_state 3 T s k) (λ s', (s' =? jam) && negb (s =? 1) || bool_decide (s' ∈ G) && negb (s' =? 1))) (seqZ 1 (N - 1)) &&
  res_is (next_state 3 T s 0) (λ s', s' =? eob) &&
  ((s =? 1) || res_is (aget (yy_accept T) s) (λ a, negb (a =? 0) && negb (a =? E))) &&
  res_is (aget (yy_base T) s) (λ b, negb (b =? jam_base T) || negb (s =? 1) && forallb (λ k, res_is (next_state 3 T s k) (λ s', s' =? jam)) (seqZ 1 (N - 1))).

Definition check_tables (T : tables) (E jam eob N : Z) (G : list Z) : bool :=
  bool_decide (1 ∈ G) && bool_decide (jam ∉ G) && bool_decide (0 ∉ G) && (1 <? N) && res_is (aget (yy_ec T) 0) (λ k, k =? 0) &&
  forallb (λ c, (code c =? 0) || res_is (aget (yy_ec T) (code c)) (λ k, (1 <=? k) && (k <? N))) FlexSpec.all_chars &&
  forallb (check_state T E jam eob N G) G &&
  forallb (λ k, res_is (next_state 3 T eob k) (λ s', s' =? jam)) (seqZ 0 N) &&
  negb (E =? 0) && res_is (aget (yy_accept T) eob) (λ a, a =? E) && res_is (aget (yy_base T) eob) (λ b, negb (b =? jam_base T)) &&
  res_is (aget (yy_accept T) jam) (λ a, a =? 0) && res_is (aget (yy_base T) jam) (λ b, b =? jam_base T) && res_is (aget (yy_accept T) 1) (λ a, a =? 0).

Lemma res_is_eq r z : res_is r (λ x, x =? z) = true → r = Ok z.
Proof. destruct r; [|done]. by intros ->%Z.eqb_eq. Qed.

Lemma res_is_some r p : res_is r p = true → ∃ z, r = Ok z ∧ p z = true.
Proof. destruct r; [|done]. by eexists. Qed.

Lemma forallb_seqZ p m n : forallb p (seqZ m n) = true → ∀ k, m ≤ k < m + n → p k = true.
Proof. intros H k Hk. rewrite forallb_forall in H. apply H, list_elem_of_In, elem_of_seqZ. lia. Qed.

Lemma check_tables_ok T E jam eob N G : check_tables T E jam eob N G = true → tables_ok T E jam eob N G.
Proof.
  unfold check_tables. rewrite !andb_true_iff. intros [[[[[[[[[[[[[H1 H2] H3] H4] H5] H6] H7] H8] H9] H10] H11] H12] H13] H14].
  assert (∀ s, s ∈ G → check_state T E jam eob N G s = true) as HG by (intros s Hs; rewrite forallb_forall in H7; by apply H7, list_elem_of_In).
  unfold check_state in HG. setoid_rewrite andb_true_iff in HG. setoid_rewrite andb_true_iff in HG. setoid_rewrite andb_true_iff in HG.
  constructor; try (by apply res_is_eq).
  - by apply bool_decide_eq_true_1 in H1.
  - by apply bool_decide_eq_true_1 in H2.
  - by apply bool_decide_eq_true_1 in H3.
  - by apply Z.ltb_lt.
  - intros c Hc. pose proof (FlexSpec.every_char _ H6 c) as H. cbn beta in H. rewrite (proj2 (Z.eqb_neq _ _) Hc) in H. apply res_is_some in H as (k & Hk & H).
    exists k. split; [done|]. apply andb_prop in H as [Ha%Z.leb_le Hb%Z.ltb_lt]. lia.
  - intros s k Hs Hk. destruct (HG s Hs) as [[[Ha _] _] _]. pose proof (forallb_seqZ _ _ _ Ha k ltac:(lia)) as Hk'. apply res_is_some in Hk' as (s' & Hs' & H). exists s'. split; [done|].
    apply orb_true_iff in H as [[Ha1%Z.eqb_eq Hb%negb_true_iff%Z.eqb_neq]%andb_prop|[Ha1%bool_decide_eq_true_1 Hb%negb_true_iff%Z.eqb_neq]%andb_prop]; [by left|by right].
  - intros s Hs. destruct (HG s Hs) as [[[_ Ha] _] _]. by apply res_is_eq.
  - intros k Hk. apply res_is_eq, (forallb_seqZ _ _ _ H8 k). lia.
  - by apply Z.eqb_neq, negb_true_iff.
  - apply res_is_some in H11 as (b & Hb & H%negb_true_iff%Z.eqb_neq). by exists b.
  - intros s Hs Hne. destruct (HG s Hs) as [[_ Ha] _]. rewrite (proj2 (Z.eqb_neq _ _) Hne) in Ha. apply res_is_some in Ha as (a & Ha & H). exists a.
    apply andb_prop in H as [Hb%negb_true_iff%Z.eqb_neq Hc%negb_true_iff%Z.eqb_neq]. done.
  - intros s Hs. destruct (HG s Hs) as [_ Ha]. apply res_is_some in Ha as (b & Hb & H). exists b. split; [done|]. intros ->. rewrite Z.eqb_refl in H. cbn in H.
    apply andb_prop in H as [H0%negb_true_iff%Z.eqb_neq H]. split; [done|]. intros k Hk. apply res_is_eq, (forallb_seqZ _ _ _ H k). lia.
Qed.

Definition calc_states : list Z := [1; 4; 5; 6; 7; 8; 9; 10; 11; 12; 13; 14; 15].
Definition sql_states : list Z := 1 :: seqZ 4 25.

Lemma calc_tables_ok : tables_ok CalcScanner.scanner 12 16 3 11 calc_states.
Proof. apply check_tables_ok. by vm_compute. Qed.

Lemma sql_tables_ok : tables_ok SqlScanner.scanner 11 29 3 19 sql_states.
Proof. apply check_tables_ok. by vm_compute. Qed.

(** ** Matching through the buffer *)

Section Exact.
Context {V : Type} (T : tables) (E jam eob N : Z) (G : list Z) (tables_fine : tables_ok T E jam eob N G)
  (action : Z → list char → res (option (Z * option V))) (tty : bool).

Abbreviation step := (step T E jam action tty).
Abbreviation run := (run T E jam action tty).

(** The next state and the rule of a state, as functions. *)
Definition nx (s : Z) (c : char) : Z := match (k ← yy_class T c; next_state 3 T s k) with Ok s' => s' | UB _ => 0 end.
Definition acc (s : Z) : Z := match aget (yy_accept T) s with Ok a => a | UB _ => 0 end.
Definition walk : Z → list char → Z := foldl nx.

Lemma class_ok c : ∃ k, yy_class T c = Ok k ∧ 1 ≤ k < N.
Proof.
  unfold yy_class. destruct (Z.eqb_spec (code c) 0) as [Hc|Hc]; [exists 1; split; [done|]; pose proof (ok_classes _ _ _ _ _ _ tables_fine); lia|].
  by apply (ok_ec _ _ _ _ _ _ tables_fine).
Qed.

Lemma nx_ok s c k : s ∈ G → yy_class T c = Ok k → next_state 3 T s k = Ok (nx s c) ∧ (nx s c = jam ∧ s ≠ 1 ∨ nx s c ∈ G ∧ nx s c ≠ 1).
Proof.
  intros Hs Hk. destruct (class_ok c) as (k' & Hk' & Hr). rewrite Hk in Hk'. injection Hk' as <-. unfold nx. rewrite Hk.
  destruct (ok_step _ _ _ _ _ _ tables_fine s k Hs Hr) as (s' & Hs' & Hcase). cbn [mbind res_bind]. rewrite Hs'. done.
Qed.

Lemma acc_ok s : s ∈ G → s ≠ 1 → aget (yy_accept T) s = Ok (acc s) ∧ acc s ≠ 0 ∧ acc s ≠ E.
Proof. intros Hs Hne. destruct (ok_accept _ _ _ _ _ _ tables_fine s Hs Hne) as (a & Ha & H). unfold acc. by rewrite Ha. Qed.

Lemma note_ok s cp y : s ∈ G → note T s cp y = Ok (if s =? 1 then y else set_last s cp y).
Proof.
  intros Hs. unfold note. destruct (Z.eqb_spec s 1) as [-> |Hne].
  - by rewrite (ok_accept1 _ _ _ _ _ _ tables_fine).
  - destruct (acc_ok s Hs Hne) as (-> & Ha & _). cbn [mbind res_bind]. by rewrite (proj2 (Z.eqb_neq _ _) Ha).
Qed.

(** All states on the way are states of the automaton. *)
Fixpoint on_path (s : Z) (w : list char) : Prop := s ∈ G ∧ match w with [] => True | c :: w => on_path (nx s c) w end.

Lemma on_path_end s w : on_path s w → walk s w ∈ G.
Proof. revert s. induction w as [|c w IH]; intros s [Hs Hw]; [done|]. by apply IH. Qed.

Lemma on_path_snoc s w c : on_path s w → nx (walk s w) c ∈ G → on_path s (w ++ [c]).
Proof. revert s. induction w as [|c0 w IH]; intros s [Hs Hw] Hc; cbn; [done|]. split; [done|]. by apply IH. Qed.

Lemma walk_snoc s w c : walk s (w ++ [c]) = nx (walk s w) c.
Proof. unfold walk. by rewrite foldl_app. Qed.

Lemma walk_not_start w : w ≠ [] → on_path 1 w → walk 1 w ≠ 1.
Proof.
  destruct w as [|c w' _] using rev_ind; [done|]. intros _ Hp. rewrite walk_snoc.
  assert (∀ s, on_path s (w' ++ [c]) → walk s w' ∈ G ∧ nx (walk s w') c ∈ G) as H.
  { clear. induction w' as [|c0 w' IH]; intros s [Hs Hw]; cbn in *; [naive_solver|]. by apply IH. }
  destruct (H _ Hp) as [H1 H2]. destruct (class_ok c) as (k & Hk & _). destruct (nx_ok _ _ _ H1 Hk) as [_ [[Hj _]|[_ ?]]]; [|done].
  rewrite Hj in H2. by apply (ok_jam _ _ _ _ _ _ tables_fine) in H2.
Qed.

(** How far the automaton gets. *)
Fixpoint longest (s : Z) (t : list char) : nat :=
  match t with [] => 0 | c :: t => if nx s c =? jam then 0 else S (longest (nx s c) t) end.

Lemma longest_stop s t : s ∈ G → aget (yy_base T) s = Ok (jam_base T) → longest s t = 0%nat.
Proof.
  intros Hs Hb. destruct t as [|c t]; [done|]. cbn. destruct (class_ok c) as (k & Hk & Hr). destruct (ok_base _ _ _ _ _ _ tables_fine s Hs) as (b & Hb' & H).
  rewrite Hb in Hb'. injection Hb' as <-. destruct (H eq_refl) as [_ Hj]. unfold nx. rewrite Hk. cbn [mbind res_bind]. by rewrite (Hj k Hr), Z.eqb_refl.
Qed.

(** The loop over a text in memory. *)
Lemma flex_match_ok t n s last :
  s ∈ G → aget (yy_base T) s ≠ Ok (jam_base T) → (s = 1 → t ≠ []) →
  Flex.yy_match T t n s last = Ok (acc (walk s (take (longest s t) t)), (n + longest s t)%nat).
Proof.
  revert n s last. induction t as [|c t IH]; intros n s last Hs Hb H1; cbn [Flex.yy_match longest].
  - destruct (decide (s = 1)) as [-> |Hne]; [by destruct H1|]. destruct (acc_ok s Hs Hne) as (Ha & Ha0 & _). unfold yy_find_action. rewrite Ha. cbn [mbind res_bind].
    by rewrite (proj2 (Z.eqb_neq _ _) Ha0), Nat.add_0_r.
  - destruct (class_ok c) as (k & Hk & _). destruct (nx_ok s c k Hs Hk) as [Hn Hcase]. rewrite Hk. cbn [mbind res_bind].
    destruct Hcase as [[Hj Hne]|[Hg Hne]].
    + destruct (acc_ok s Hs Hne) as (Ha & Ha0 & _). rewrite Ha. cbn [mbind res_bind]. rewrite (proj2 (Z.eqb_neq _ _) Ha0), Hn, Hj. cbn [mbind res_bind].
      rewrite (ok_base_jam _ _ _ _ _ _ tables_fine). cbn [mbind res_bind]. rewrite !Z.eqb_refl. unfold yy_find_action. rewrite (ok_accept_jam _ _ _ _ _ _ tables_fine).
      cbn [mbind res_bind fst snd Z.eqb]. rewrite Ha. cbn. by rewrite Nat.add_0_r.
    + assert (∃ a, aget (yy_accept T) s = Ok a) as [a Ha].
      { destruct (decide (s = 1)) as [-> |Hs1]; [eexists; by apply tables_fine|]. destruct (acc_ok s Hs Hs1) as (? & _). by eexists. }
      rewrite Ha. cbn [mbind res_bind]. rewrite Hn. cbn [mbind res_bind]. destruct (ok_base _ _ _ _ _ _ tables_fine _ Hg) as (b & Hb' & _). rewrite Hb'. cbn [mbind res_bind].
      assert (nx s c ≠ jam) as Hnj by (intros Hj; rewrite Hj in Hg; by apply (ok_jam _ _ _ _ _ _ tables_fine) in Hg). rewrite (proj2 (Z.eqb_neq _ _) Hnj).
      destruct (Z.eqb_spec b (jam_base T)) as [-> |Hbj].
      * destruct (acc_ok _ Hg Hne) as (Ha' & Ha0 & _). unfold yy_find_action. rewrite Ha'. cbn [mbind res_bind]. rewrite (proj2 (Z.eqb_neq _ _) Ha0), longest_stop by done.
        cbn. do 2 f_equal. lia.
      * rewrite IH; [cbn; do 2 f_equal; lia|done|congruence|done].
Qed.

(** The buffer of a scanner whose [yytext] is not terminated. *)
Abbreviation raw_y y content := (raw tty (buffer y) (yy_n_chars y) (yyin y) content).

Lemma at_ok y content p c : raw_y y content → (content ++ [nul; nul]) !! p = Some c → at_ptr (Z.of_nat p) y = Ok c.
Proof. intros Hr Hp. by eapply raw_at. Qed.

Lemma previous_ok y content p n s :
  raw_y y content → (p + n ≤ length content)%nat → on_path s (take n (drop p content)) →
  ∃ a b, previous_loop T n s (Z.of_nat p) y = Ok (walk s (take n (drop p content)), set_last a b y).
Proof.
  intros Hr. assert (∀ m a0 b0 p s, (p + m ≤ length content)%nat → on_path s (take m (drop p content)) →
    ∃ a b, previous_loop T m s (Z.of_nat p) (set_last a0 b0 y) = Ok (walk s (take m (drop p content)), set_last a b y)) as H.
  { clear n p s. induction m as [|m IH]; intros a0 b0 p s Hl Hp; [by exists a0, b0|]. destruct (lookup_lt_is_Some_2 content p) as [c Hc]; [lia|].
    rewrite (drop_S content c p) in * by done. cbn [take on_path previous_loop] in *. destruct Hp as [Hs Hp]. destruct (class_ok c) as (k & Hk & _).
    rewrite (at_ok (set_last a0 b0 y) content p c) by (done || by apply lookup_app_l_Some). cbn [mbind res_bind]. rewrite Hk. cbn [mbind res_bind]. rewrite note_ok by done.
    cbn [mbind res_bind]. destruct (nx_ok s c k Hs Hk) as [-> _]. cbn [mbind res_bind]. replace (Z.of_nat p + 1) with (Z.of_nat (S p)) by lia.
    destruct (s =? 1); [apply IH|apply (IH s (Z.of_nat p))]; (lia || done). }
  intros Hl Hp. destruct (H n (yy_last_accepting_state y) (yy_last_accepting_cpos y) p s Hl Hp) as (a & b & Hab). exists a, b. rewrite <- Hab. f_equal. by destruct y.
Qed.

Lemma previous_state_ok y content p q :
  raw_y y content → yytext_ptr y = Z.of_nat p → yy_c_buf_p y = Z.of_nat q → (p ≤ q ≤ length content)%nat → on_path 1 (take (q - p) (drop p content)) →
  ∃ a b, yy_get_previous_state T y = Ok (walk 1 (take (q - p) (drop p content)), set_last a b y).
Proof.
  intros Hr Hp Hq Hl Hpath. unfold yy_get_previous_state. rewrite Hp, Hq. replace (Z.to_nat (Z.of_nat q - Z.of_nat p)) with (q - p)%nat by lia.
  apply previous_ok; [done|lia|done].
Qed.

Lemma text_at_ok y content n p :
  raw_y y content → (p + n ≤ length content + 2)%nat → text_at n (Z.of_nat p) y = Ok (take n (drop p (content ++ [nul; nul]))).
Proof.
  intros Hr. revert p. induction n as [|n IH]; intros p Hl; [done|]. cbn [text_at].
  destruct (lookup_lt_is_Some_2 (content ++ [nul; nul]) p) as [c Hc]; [rewrite length_app; cbn; lia|]. rewrite (at_ok y content p c) by done. cbn [mbind res_bind].
  replace (Z.of_nat p + 1) with (Z.of_nat (S p)) by lia. rewrite IH by lia. cbn [mbind res_bind]. by rewrite (drop_S _ c p).
Qed.

(** Between two calls the character behind [yytext] is in [yy_hold_char]. *)
Definition held (y : scanner) (content : list char) (p : nat) : Prop :=
  raw tty (set_ch_buf (<[p := Some (yy_hold_char y)]> (yy_ch_buf (buffer y))) (buffer y)) (yy_n_chars y) (yyin y) content ∧
  yy_c_buf_p y = Z.of_nat p ∧ (p ≤ length content)%nat.

Lemma set_ch_buf_id b : set_ch_buf (yy_ch_buf b) b = b.
Proof. by destruct b. Qed.

Lemma raw_length y content : raw_y y content → (length content + 2 ≤ length (yy_ch_buf (buffer y)))%nat.
Proof. intros H. destruct (raw_cells _ _ _ _ _ H) as [junk ->]. rewrite length_cells. lia. Qed.

Lemma raw_lookup y content p c : raw_y y content → (content ++ [nul; nul]) !! p = Some c → yy_ch_buf (buffer y) !! p = Some (Some c).
Proof.
  intros Hr Hp. destruct (raw_cells _ _ _ _ _ Hr) as [junk ->]. unfold cells. rewrite lookup_app_l by (rewrite length_fmap; by eapply lookup_lt_Some).
  by rewrite list_lookup_fmap, Hp.
Qed.

Lemma put_ok p c y :
  (p < length (yy_ch_buf (buffer y)))%nat → put_ptr (Z.of_nat p) c y = Ok (set_buffer (set_ch_buf (<[p := Some c]> (yy_ch_buf (buffer y))) (buffer y)) y).
Proof. intros H. unfold put_ptr. by rewrite aset_nat. Qed.

(** The end of a token: its rule gets its text. *)
Lemma rule_ok a y content bp cp :
  raw_y y content → (bp ≤ cp ≤ length content)%nat → a ≠ 0 → a ≠ E →
  ∃ y', do_action T E jam action tty a (Z.of_nat cp) (Z.of_nat bp) y =
      (r ← action a (take (cp - bp) (drop bp content)); Ok (match r with Some (t, v) => Return t v y' | None => Goto Scan y' end)) ∧
    held y' content cp ∧ yyin y' = yyin y.
Proof.
  intros Hr Hl Ha0 HaE. destruct (lookup_lt_is_Some_2 (content ++ [nul; nul]) cp) as [h Hh]; [rewrite length_app; cbn; lia|].
  pose proof (raw_length _ _ Hr) as Hlen. unfold do_action. rewrite (at_ok _ content cp h) by done. cbn [mbind res_bind].
  rewrite (text_at_ok _ content) by (done || lia). cbn [mbind res_bind]. rewrite put_ok by (cbn [set_hold set_text_ptr buffer]; lia). cbn [mbind res_bind].
  rewrite (proj2 (Z.eqb_neq _ _) Ha0), (proj2 (Z.eqb_neq _ _) HaE). replace (Z.to_nat (Z.of_nat cp - Z.of_nat bp)) with (cp - bp)%nat by lia.
  rewrite drop_app_le, take_app_le by (rewrite ?length_drop; lia). eexists. split; [done|]. split; [|done].
  split; [|split; [done|lia]]. cbn [set_c_buf_p set_buffer set_hold set_text_ptr buffer yy_hold_char yy_n_chars yyin set_ch_buf yy_ch_buf].
  rewrite list_insert_insert_eq, list_insert_id by (by eapply raw_lookup). destruct y as [b ? ? ? ? ? ? ?]. by destruct b.
Qed.

(** The action of the end-of-buffer rule. *)
Lemma eob_ok y content bp cp h :
  raw_y y content → (bp ≤ cp ≤ length content + 1)%nat → (content ++ [nul; nul]) !! cp = Some h →
  do_action T E jam action tty E (Z.of_nat cp) (Z.of_nat bp) y =
    refill T jam tty (Z.of_nat cp - Z.of_nat bp - 1) (set_c_buf_p (Z.of_nat cp) (set_text_ptr (Z.of_nat bp) (set_hold h y))).
Proof.
  intros Hr Hl Hh. pose proof (raw_length _ _ Hr) as Hlen. unfold do_action. rewrite (at_ok _ content cp h) by done. cbn [mbind res_bind].
  rewrite (text_at_ok _ content) by (done || lia). cbn [mbind res_bind]. rewrite put_ok by (cbn [set_hold set_text_ptr buffer]; lia). cbn [mbind res_bind].
  rewrite (proj2 (Z.eqb_neq _ _) (ok_rule _ _ _ _ _ _ tables_fine)), Z.eqb_refl. unfold end_of_buffer.
  rewrite put_ok by (cbn; rewrite length_insert; lia). cbn [mbind res_bind set_c_buf_p set_buffer set_hold set_text_ptr buffer yy_hold_char yytext_ptr set_ch_buf yy_ch_buf].
  rewrite list_insert_insert_eq, list_insert_id by (by eapply raw_lookup). f_equal. destruct y as [b ? ? ? ? ? ? ?]. by destruct b.
Qed.

(** What follows the end of a token. *)
Definition after (a : Z) (yytext : list char) (y : scanner) (fuel : nat) : res (Z * option V * scanner) :=
  r ← action a yytext; match r with Some (t, v) => Ok (t, v, y) | None => run fuel Scan y end.

Lemma run_goto p y p' y' fuel : step p y = Ok (Goto p' y') → run (S fuel) p y = run fuel p' y'.
Proof. intros H. cbn [FlexBuffer.run]. by rewrite H. Qed.

Lemma find_ok s y content bp cp cp' :
  raw_y y content → (bp ≤ cp ≤ length content)%nat → s ∈ G → s ≠ 1 →
  (cp' = (s, Z.of_nat cp) ∨ cp'.1 = jam ∧ yy_last_accepting_state y = s ∧ yy_last_accepting_cpos y = Z.of_nat cp) →
  ∃ y', (∀ fuel, run (S fuel) (Yy_find_action cp'.1 cp'.2 (Z.of_nat bp)) y = after (acc s) (take (cp - bp) (drop bp content)) y' fuel) ∧
    held y' content cp ∧ yyin y' = yyin y.
Proof.
  intros Hr Hl Hs Hne Hcp. destruct (acc_ok s Hs Hne) as (Ha & Ha0 & HaE). destruct (rule_ok (acc s) y content bp cp Hr Hl Ha0 HaE) as (y' & Hd & Hh & Hy').
  exists y'. split_and!; [|done|done]. intros fuel. cbn [FlexBuffer.run]. unfold FlexBuffer.step.
  assert (∀ o : res outcome, o = (r ← action (acc s) (take (cp - bp) (drop bp content)); Ok (match r with Some (t, v) => Return t v y' | None => Goto Scan y' end)) →
    (r ← o; match r with Return t v y => Ok (t, v, y) | Goto p y => run fuel p y end) = after (acc s) (take (cp - bp) (drop bp content)) y' fuel) as Hrun.
  { intros o ->. unfold after. by destruct (action _ _) as [[[]|]|]. }
  destruct Hcp as [-> |(-> & Hst & Hpos)]; cbn [fst snd].
  - rewrite Ha. cbn [mbind res_bind]. rewrite (proj2 (Z.eqb_neq _ _) Ha0). by apply Hrun.
  - rewrite (ok_accept_jam _ _ _ _ _ _ tables_fine), Hst. cbn [mbind res_bind Z.eqb]. rewrite Ha, Hpos. cbn [mbind res_bind]. by apply Hrun.
Qed.

(** One round of the loop on a character of the text that is not NUL. *)
Lemma step_char s y content bp cp c :
  raw_y y content → content !! cp = Some c → code c ≠ 0 → s ∈ G →
  step (Yy_match s (Z.of_nat cp) bp) y =
    Ok (Goto (if res_is (aget (yy_base T) (nx s c)) (λ b, b =? jam_base T) then Yy_find_action (nx s c) (Z.of_nat (S cp)) bp else Yy_match (nx s c) (Z.of_nat (S cp)) bp)
         (if s =? 1 then y else set_last s (Z.of_nat cp) y)).
Proof.
  intros Hr Hc Hz Hs. cbn [FlexBuffer.step]. rewrite (at_ok y content cp c) by (done || by apply lookup_app_l_Some). cbn [mbind res_bind].
  destruct (class_ok c) as (k & Hk & _). assert (aget (yy_ec T) (code c) = Ok k) as ->.
  { unfold yy_class in Hk. by rewrite (proj2 (Z.eqb_neq _ _) Hz) in Hk. }
  cbn [mbind res_bind]. rewrite note_ok by done. cbn [mbind res_bind]. destruct (nx_ok s c k Hs Hk) as [-> Hcase]. cbn [mbind res_bind].
  replace (Z.of_nat cp + 1) with (Z.of_nat (S cp)) by lia.
  assert (∃ b, aget (yy_base T) (nx s c) = Ok b) as [b ->]; [|done].
  destruct Hcase as [[-> _]|[Hg _]]; [eexists; by apply (ok_base_jam _ _ _ _ _ _ tables_fine)|]. destruct (ok_base _ _ _ _ _ _ tables_fine _ Hg) as (b & Hb & _). by exists b.
Qed.

(** Two rounds on a NUL, of the text or behind it. *)
Lemma steps_nul s y content bp cp :
  raw_y y content → (bp ≤ cp ≤ length content)%nat → (content ++ [nul; nul]) !! cp = Some nul → s ∈ G →
  ∃ h, ∀ fuel, run (3 + fuel) (Yy_match s (Z.of_nat cp) (Z.of_nat bp)) y =
    (r ← refill T jam tty (Z.of_nat cp - Z.of_nat bp)
           (set_c_buf_p (Z.of_nat (S cp)) (set_text_ptr (Z.of_nat bp) (set_hold h (set_last eob (Z.of_nat (S cp)) y))));
     match r with Return t v y => Ok (t, v, y) | Goto p y => run fuel p y end).
Proof.
  intros Hr Hl Hc Hs. destruct (ok_base_eob _ _ _ _ _ _ tables_fine) as (b & Hb & Hbj).
  assert (step (Yy_match s (Z.of_nat cp) (Z.of_nat bp)) y = Ok (Goto (Yy_match eob (Z.of_nat (S cp)) (Z.of_nat bp)) (if s =? 1 then y else set_last s (Z.of_nat cp) y))) as H1.
  { cbn [FlexBuffer.step]. rewrite (at_ok y content cp nul) by done. cbn [mbind res_bind]. change (code nul) with 0. rewrite (ok_ec0 _ _ _ _ _ _ tables_fine). cbn [mbind res_bind].
    rewrite note_ok by done. cbn [mbind res_bind]. rewrite (ok_step0 _ _ _ _ _ _ tables_fine) by done. cbn [mbind res_bind]. rewrite Hb. cbn [mbind res_bind].
    rewrite (proj2 (Z.eqb_neq _ _) Hbj). by replace (Z.of_nat cp + 1) with (Z.of_nat (S cp)) by lia. }
  destruct (lookup_lt_is_Some_2 (content ++ [nul; nul]) (S cp)) as [h Hh]; [rewrite length_app; cbn; lia|].
  assert (∃ k, aget (yy_ec T) (code h) = Ok k ∧ 0 ≤ k < N) as (k & Hk & Hkr).
  { pose proof (ok_classes _ _ _ _ _ _ tables_fine). destruct (decide (code h = 0)) as [Hz|Hz].
    - rewrite Hz. exists 0. split; [apply tables_fine|lia].
    - destruct (ok_ec _ _ _ _ _ _ tables_fine h Hz) as (k & Hk & ?). exists k. split; [done|lia]. }
  set (y1 := if s =? 1 then y else set_last s (Z.of_nat cp) y) in *.
  assert (raw_y y1 content ∧ set_last eob (Z.of_nat (S cp)) y1 = set_last eob (Z.of_nat (S cp)) y) as [Hr1 Hy1] by (unfold y1; by destruct (s =? 1)).
  assert (step (Yy_match eob (Z.of_nat (S cp)) (Z.of_nat bp)) y1 =
    Ok (Goto (Yy_find_action jam (Z.of_nat (S cp) + 1) (Z.of_nat bp)) (set_last eob (Z.of_nat (S cp)) y1))) as H2.
  { cbn [FlexBuffer.step]. rewrite (at_ok y1 content (S cp) h) by done. cbn [mbind res_bind]. rewrite Hk. cbn [mbind res_bind]. unfold note.
    rewrite (ok_accept_eob _ _ _ _ _ _ tables_fine). cbn [mbind res_bind]. rewrite (proj2 (Z.eqb_neq _ _) (ok_rule _ _ _ _ _ _ tables_fine)).
    rewrite (ok_eob _ _ _ _ _ _ tables_fine) by done. cbn [mbind res_bind]. rewrite (ok_base_jam _ _ _ _ _ _ tables_fine). cbn [mbind res_bind]. by rewrite Z.eqb_refl. }
  exists h. intros fuel. cbn [Nat.add]. rewrite (run_goto _ _ _ _ _ H1), (run_goto _ _ _ _ _ H2), Hy1. cbn [FlexBuffer.run]. unfold FlexBuffer.step at 1.
  rewrite (ok_accept_jam _ _ _ _ _ _ tables_fine). cbn [mbind res_bind Z.eqb set_last yy_last_accepting_state yy_last_accepting_cpos].
  rewrite (ok_accept_eob _ _ _ _ _ _ tables_fine). cbn [mbind res_bind]. rewrite (eob_ok _ content bp (S cp) h) by (done || lia).
  by replace (Z.of_nat (S cp) - Z.of_nat bp - 1) with (Z.of_nat cp - Z.of_nat bp) by lia.
Qed.

(** A new buffer becomes a normal one. *)
Definition normal (y : scanner) : scanner :=
  match yy_buffer_status (buffer y) with
  | YY_BUFFER_NEW => set_n_chars (b_n_chars (buffer y)) (set_buffer (set_status YY_BUFFER_NORMAL (buffer y)) y)
  | _ => y
  end.

Lemma normal_ok y content :
  raw_y y content → raw_y (normal y) content ∧ yy_buffer_status (buffer (normal y)) ≠ YY_BUFFER_NEW ∧
    yyin (normal y) = yyin y ∧ yy_c_buf_p (normal y) = yy_c_buf_p y ∧ yytext_ptr (normal y) = yytext_ptr y.
Proof.
  intros Hr. unfold normal. destruct (yy_buffer_status (buffer y)) eqn:Hst; [|by rewrite Hst|by rewrite Hst]. split_and!; try done.
  destruct Hr as [H1 H2 H3 H4 H5 H6 H7 H8 H9 H10]. constructor; try done. cbn. by rewrite H8.
Qed.

(** A NUL of the text: the automaton takes it as the character it is. *)
Lemma refill_nul y content bp cp :
  raw_y y content → (bp ≤ cp < length content)%nat → content !! cp = Some nul → yytext_ptr y = Z.of_nat bp → yy_c_buf_p y = Z.of_nat (S cp) →
  let w := take (cp - bp) (drop bp content) in on_path 1 w →
  ∃ y', raw_y y' content ∧ yyin y' = yyin y ∧
    refill (V := V) T jam tty (Z.of_nat cp - Z.of_nat bp) y =
      Ok (Goto (if nx (walk 1 w) nul =? jam then Yy_find_action (walk 1 w) (Z.of_nat cp) (Z.of_nat bp) else Yy_match (nx (walk 1 w) nul) (Z.of_nat (S cp)) (Z.of_nat bp)) y').
Proof.
  intros Hr Hl Hc Hbp Hcp w Hp. destruct (normal_ok y content Hr) as (Hr1 & _ & Hin & Hcp1 & Hbp1). unfold refill. fold (normal y).
  rewrite Hcp1, Hcp, (raw_n _ _ _ _ _ Hr1). destruct (Z.leb_spec (Z.of_nat (S cp)) (Z.of_nat (length content))); [|lia].
  rewrite Hbp1, Hbp. replace (Z.of_nat bp + (Z.of_nat cp - Z.of_nat bp)) with (Z.of_nat cp) by lia.
  destruct (previous_state_ok (set_c_buf_p (Z.of_nat cp) (normal y)) content bp cp) as (a & b & ->); [done|by cbn; rewrite Hbp1|done|lia|done|].
  cbn [mbind res_bind]. fold w. unfold yy_try_NUL_trans. pose proof (on_path_end _ _ Hp) as Hs. rewrite note_ok by done. cbn [mbind res_bind].
  destruct (nx_ok (walk 1 w) nul 1 Hs eq_refl) as [-> _]. cbn [mbind res_bind]. unfold w in *.
  destruct (nx _ nul =? jam); destruct (walk 1 _ =? 1); cbn; rewrite Hbp1, Hbp; eexists; (split; [|split; [|try (replace (Z.of_nat cp + 1) with (Z.of_nat (S cp)) by lia); reflexivity]]); done.
Qed.

(** The end of what has been read. *)
Lemma refill_end y content bp :
  raw_y y content → (bp ≤ length content)%nat → yytext_ptr y = Z.of_nat bp → yy_c_buf_p y = Z.of_nat (S (length content)) →
  let w := drop bp content in on_path 1 w → Z.of_nat (length w) + 1 < 2 ^ 30 →
  ∃ cs y', raw_y y' (w ++ cs) ∧ text (yyin y) = cs ++ text (yyin y') ∧ (cs = [] → yyin y' = []) ∧
    refill (V := V) T jam tty (Z.of_nat (length content) - Z.of_nat bp) y =
      Ok (match cs, w with
          | _ :: _, _ => Goto (Yy_match (walk 1 w) (Z.of_nat (length w)) 0) y'
          | [], _ :: _ => Goto (Yy_find_action (walk 1 w) (Z.of_nat (length w)) 0) y'
          | [], [] => Return 0 None y'
          end) ∧
    (cs = [] → w = [] → yy_c_buf_p y' = 0 ∧ yy_hold_char y' = nul).
Proof.
  intros Hr Hl Hbp Hcp w Hp Hbound. destruct (normal_ok y content Hr) as (Hr1 & Hst & Hin & Hcp1 & Hbp1). unfold refill. fold (normal y).
  assert (length w = (length content - bp)%nat) as Hw by (apply length_drop).
  rewrite Hcp1, Hcp, (raw_n _ _ _ _ _ Hr1). destruct (Z.leb_spec (Z.of_nat (S (length content))) (Z.of_nat (length content))); [lia|].
  destruct (next_buffer_ok tty (normal y) content bp) as (cs & act & y' & -> & Htx & Hnil & H0 & Hr' & Hact); [done|done|by rewrite Hbp1|done|rewrite Hcp1, Hcp; lia|done|].
  fold w in Hact, Hr'. rewrite Hin in Htx. cbn [mbind res_bind]. rewrite <- Hin in Htx.
  assert (∀ q, q = Z.of_nat (length w) → ∃ a b, yy_get_previous_state T (set_c_buf_p q y') = Ok (walk 1 w, set_last a b (set_c_buf_p q y'))) as Hprev.
  { intros q ->. assert (take (length w - 0) (drop 0 (w ++ cs)) = w) as Ht by (rewrite Nat.sub_0_r, drop_0; apply take_app_length).
    destruct (previous_state_ok (set_c_buf_p (Z.of_nat (length w)) y') (w ++ cs) 0 (length w)) as (a & b & Hab); [done|done|done|rewrite length_app; lia|by rewrite Ht|].
    rewrite Ht in Hab. by exists a, b. }
  destruct cs as [|c cs]; [destruct w as [|c0 w0] eqn:Ew|].
  - destruct Hact as [-> Hh]. exists [], (set_c_buf_p (yytext_ptr y') y'). rewrite Hin in Htx. rewrite H0. split_and!; try done.
  - subst act. destruct (Hprev (yy_n_chars y')) as (a & b & ->); [rewrite (raw_n _ _ _ _ _ Hr'), app_nil_r; done|]. cbn [mbind res_bind]. exists [].
    exists (set_last a b (set_c_buf_p (yy_n_chars y') y')). rewrite Hin in Htx. split_and!; try done.
    cbn [set_last set_c_buf_p yy_c_buf_p yytext_ptr]. by rewrite H0, (raw_n _ _ _ _ _ Hr'), app_nil_r.
  - subst act. destruct (Hprev (yytext_ptr y' + (Z.of_nat (length content) - Z.of_nat bp))) as (a & b & ->); [rewrite H0; lia|]. cbn [mbind res_bind]. exists (c :: cs).
    eexists (set_last a b (set_c_buf_p _ y')). rewrite Hin in Htx. split_and!; [done|done|done| |done].
    cbn [set_last set_c_buf_p yy_c_buf_p yytext_ptr]. rewrite H0. do 3 f_equal. lia.
Qed.

Lemma slice_end (content : list char) bp cp c :
  (bp ≤ cp)%nat → content !! cp = Some c → take (S cp - bp) (drop bp content) = take (cp - bp) (drop bp content) ++ [c].
Proof. intros Hl Hc. rewrite Nat.sub_succ_l by done. apply take_S_r. rewrite lookup_drop. by replace (bp + (cp - bp))%nat with cp by lia. Qed.

(** What is still to be scanned, the characters to be read counted twice. *)
Definition left_over (y : scanner) (content : list char) (p : nat) : nat := (2 * length (text (yyin y)) + (length content - p))%nat.

(** The claim about [yy_match]: from the state behind [w] the loop comes to the end
    of the longest match, however often the buffer is refilled on the way. *)
Definition matches (y : scanner) (content : list char) (bp cp : nat) : Prop :=
  let w := take (cp - bp) (drop bp content) in
  let rest := drop cp content ++ text (yyin y) in
  let n := longest (walk 1 w) rest in
  ∃ k y' content' p',
    (∀ fuel, run (k + S fuel) (Yy_match (walk 1 w) (Z.of_nat cp) (Z.of_nat bp)) y =
       after (acc (walk (walk 1 w) (take n rest))) (w ++ take n rest) y' fuel) ∧
    held y' content' p' ∧ drop p' content' ++ text (yyin y') = drop n rest ∧ (k + 3 * left_over y' content' p' ≤ 3 * left_over y content cp + 4)%nat.

Definition matchable (y : scanner) (content : list char) (bp cp : nat) : Prop :=
  let w := take (cp - bp) (drop bp content) in
  raw_y y content ∧ (bp ≤ cp ≤ length content)%nat ∧ on_path 1 w ∧ (w = [] → drop cp content ++ text (yyin y) ≠ []) ∧
  Z.of_nat (length w + length (drop cp content ++ text (yyin y))) + 1 < 2 ^ 30.

(** A jam, or a state that nothing leaves: the token ends here. *)
Lemma matches_here y content bp cp k y1 cp' :
  let w := take (cp - bp) (drop bp content) in
  raw_y y1 content → yyin y1 = yyin y → (bp ≤ cp ≤ length content)%nat → on_path 1 w → walk 1 w ≠ 1 →
  longest (walk 1 w) (drop cp content ++ text (yyin y)) = 0%nat → (k ≤ 3)%nat →
  (∀ fuel, run (k + fuel) (Yy_match (walk 1 w) (Z.of_nat cp) (Z.of_nat bp)) y = run fuel (Yy_find_action cp'.1 cp'.2 (Z.of_nat bp)) y1) →
  (cp' = (walk 1 w, Z.of_nat cp) ∨ cp'.1 = jam ∧ yy_last_accepting_state y1 = walk 1 w ∧ yy_last_accepting_cpos y1 = Z.of_nat cp) →
  matches y content bp cp.
Proof.
  intros w Hr Hin Hl Hp Hne Hlong Hk Hrun Hcp. destruct (find_ok (walk 1 w) y1 content bp cp cp' Hr Hl (on_path_end _ _ Hp) Hne Hcp) as (y' & Hf & Hh & Hy').
  exists k, y', content, cp. fold w. rewrite Hlong, take_0, app_nil_r, drop_0. split_and!; [|done|by rewrite Hy', Hin|unfold left_over; rewrite Hy', Hin; lia].
  intros fuel. by rewrite Hrun, Hf.
Qed.

(** Some steps to a later place of the same token. *)
Lemma matches_later y content bp cp k y1 content1 bp1 cp1 cs :
  let w := take (cp - bp) (drop bp content) in
  matches y1 content1 bp1 cp1 →
  take (cp1 - bp1) (drop bp1 content1) = w ++ cs → drop cp content ++ text (yyin y) = cs ++ drop cp1 content1 ++ text (yyin y1) →
  longest (walk 1 w) (drop cp content ++ text (yyin y)) = (length cs + longest (walk 1 (w ++ cs)) (drop cp1 content1 ++ text (yyin y1)))%nat →
  (k + 3 * left_over y1 content1 cp1 ≤ 3 * left_over y content cp)%nat →
  (∀ fuel, run (k + fuel) (Yy_match (walk 1 w) (Z.of_nat cp) (Z.of_nat bp)) y = run fuel (Yy_match (walk 1 (w ++ cs)) (Z.of_nat cp1) (Z.of_nat bp1)) y1) →
  matches y content bp cp.
Proof.
  intros w (k1 & y' & content' & p' & Hrun & Hh & Hd & Hk) Hw Hrest Hlong Hleft Hsteps. rewrite Hw in Hrun, Hd. exists (k + k1)%nat, y', content', p'. fold w.
  rewrite Hlong, Hrest, take_app_add, drop_app_add by done. split_and!; [|done|done|lia]. intros fuel.
  rewrite <- Nat.add_assoc, Hsteps, Hrun, <- app_assoc. unfold walk. by rewrite !foldl_app.
Qed.

Section Place.
Context (y : scanner) (content : list char) (bp cp : nat).
Hypothesis here : matchable y content bp cp.
Hypothesis later : ∀ y1 content1 bp1 cp1, (left_over y1 content1 cp1 < left_over y content cp)%nat → matchable y1 content1 bp1 cp1 → matches y1 content1 bp1 cp1.

#[local] Abbreviation w := (take (cp - bp) (drop bp content)).

(** The next character is read without leaving the token. *)
Lemma matchable_next y1 c :
  raw_y y1 content → yyin y1 = yyin y → content !! cp = Some c → nx (walk 1 w) c ∈ G → matchable y1 content bp (S cp) ∧ (left_over y1 content (S cp) < left_over y content cp)%nat.
Proof.
  intros Hr Hin Hc Hg. destruct here as (_ & Hl & Hp & _ & Hb). pose proof (lookup_lt_Some _ _ _ Hc). rewrite (drop_S content c cp Hc) in Hb.
  split; [|unfold left_over; rewrite Hin; lia]. unfold matchable. rewrite (slice_end _ _ _ c) by (done || lia). split_and!; [done|lia|lia|by apply on_path_snoc| |].
  - by destruct w.
  - rewrite Hin. rewrite !length_app in *. cbn [length app] in *. lia.
Qed.

Lemma longest_next c l : nx (walk 1 w) c ≠ jam → longest (walk 1 w) (c :: l) = (length [c] + longest (walk 1 (w ++ [c])) l)%nat.
Proof. intros Hj. cbn [longest length]. by rewrite (proj2 (Z.eqb_neq _ _) Hj), walk_snoc. Qed.

Lemma longest_jam c l : nx (walk 1 w) c = jam → longest (walk 1 w) (c :: l) = 0%nat.
Proof. intros Hj. cbn [longest]. by rewrite Hj, Z.eqb_refl. Qed.

Lemma in_G_not_jam s : s ∈ G → s ≠ jam.
Proof. intros Hs ->. by apply (ok_jam _ _ _ _ _ _ tables_fine) in Hs. Qed.

(** Some steps to the place behind the next character. *)
Lemma match_next c k y1 :
  raw_y y1 content → yyin y1 = yyin y → content !! cp = Some c → nx (walk 1 w) c ∈ G → (k ≤ 3)%nat →
  (∀ fuel, run (k + fuel) (Yy_match (walk 1 w) (Z.of_nat cp) (Z.of_nat bp)) y = run fuel (Yy_match (nx (walk 1 w) c) (Z.of_nat (S cp)) (Z.of_nat bp)) y1) →
  matches y content bp cp.
Proof.
  intros Hr Hin Hc Hg Hk Hrun. destruct (matchable_next y1 c Hr Hin Hc Hg) as [Hm Hlt]. pose proof here as (_ & Hl & _).
  eapply (matches_later y content bp cp k y1 content bp (S cp) [c]); [by apply later|apply slice_end; [lia|done]| | | |].
  - by rewrite (drop_S content c cp Hc), Hin.
  - rewrite (drop_S content c cp Hc), Hin. cbn [app]. apply longest_next. by apply in_G_not_jam.
  - lia.
  - intros fuel. by rewrite Hrun, walk_snoc.
Qed.

Lemma match_char c : content !! cp = Some c → code c ≠ 0 → matches y content bp cp.
Proof.
  intros Hc Hz. pose proof here as (Hr & Hl & Hp & Hne & Hb). pose proof (on_path_end _ _ Hp) as Hs.
  pose proof (step_char _ y content (Z.of_nat bp) cp c Hr Hc Hz Hs) as Hstep. set (y1 := if walk 1 w =? 1 then y else _) in Hstep.
  assert (raw_y y1 content ∧ yyin y1 = yyin y) as [Hr1 Hin] by (unfold y1; by destruct (walk 1 w =? 1)).
  destruct (class_ok c) as (kc & Hkc & _). destruct (nx_ok _ c kc Hs Hkc) as [_ [[Hj Hs1]|[Hg Hg1]]].
  - eapply (matches_here y content bp cp 1 y1 (jam, Z.of_nat (S cp))); try done; [|lia| |].
    + rewrite (drop_S content c cp Hc). by apply longest_jam.
    + intros fuel. rewrite Hj, (ok_base_jam _ _ _ _ _ _ tables_fine) in Hstep. cbn [res_is] in Hstep. rewrite Z.eqb_refl in Hstep. by apply run_goto.
    + right. unfold y1. rewrite (proj2 (Z.eqb_neq _ _) Hs1). done.
  - destruct (ok_base _ _ _ _ _ _ tables_fine _ Hg) as (b & Hb' & _). rewrite Hb' in Hstep. cbn [res_is] in Hstep. destruct (Z.eqb_spec b (jam_base T)) as [Hbj|Hbj].
    + rewrite Hbj in Hb'. assert (matchable y1 content bp (S cp)) as Hm1 by (by eapply matchable_next). pose proof (slice_end content bp cp c ltac:(lia) Hc) as Hsl. pose proof (lookup_lt_Some _ _ _ Hc).
      destruct (find_ok (nx (walk 1 w) c) y1 content bp (S cp) (nx (walk 1 w) c, Z.of_nat (S cp))) as (y' & Hf & Hh & Hy'); [done|lia|done|done|by left|].
      exists 1%nat, y', content, (S cp). rewrite (drop_S content c cp Hc). cbn [app]. rewrite longest_next by (by apply in_G_not_jam).
      rewrite walk_snoc, longest_stop by done. cbn [length Nat.add take drop]. split_and!; [|done|by rewrite Hy', Hin|unfold left_over; rewrite Hy', Hin; lia].
      intros fuel. rewrite (run_goto _ _ _ _ _ Hstep), Hf, Hsl. unfold walk at 3. done.
    + apply (match_next c 1 y1); try done; [lia|]. intros fuel. by apply run_goto.
Qed.

Lemma match_nul : content !! cp = Some nul → matches y content bp cp.
Proof.
  intros Hc. pose proof here as (Hr & Hl & Hp & Hne & Hb). pose proof (on_path_end _ _ Hp) as Hs. pose proof (lookup_lt_Some _ _ _ Hc).
  destruct (nx_ok _ nul 1 Hs eq_refl) as [_ Hcase].
  assert (∃ y1, raw_y y1 content ∧ yyin y1 = yyin y ∧ ∀ fuel, run (3 + fuel) (Yy_match (walk 1 w) (Z.of_nat cp) (Z.of_nat bp)) y =
    run fuel (if nx (walk 1 w) nul =? jam then Yy_find_action (walk 1 w) (Z.of_nat cp) (Z.of_nat bp) else Yy_match (nx (walk 1 w) nul) (Z.of_nat (S cp)) (Z.of_nat bp)) y1) as (y1 & Hr1 & Hin & Hrun).
  { destruct (steps_nul _ y content bp cp Hr Hl ltac:(by apply lookup_app_l_Some) Hs) as (h & Hsteps).
    edestruct (refill_nul (set_c_buf_p (Z.of_nat (S cp)) (set_text_ptr (Z.of_nat bp) (set_hold h (set_last eob (Z.of_nat (S cp)) y)))) content bp cp) as (y1 & Hr1 & Hin & Href); [done|lia|done..|].
    exists y1. split_and!; [done|done|]. intros fuel. by rewrite Hsteps, Href. }
  destruct Hcase as [[Hj Hs1]|[Hg Hg1]].
  - eapply (matches_here y content bp cp 3 y1 (walk 1 w, Z.of_nat cp)); try done; [| |by left].
    + rewrite (drop_S content nul cp Hc). by apply longest_jam.
    + intros fuel. by rewrite Hrun, Hj, Z.eqb_refl.
  - apply (match_next nul 3 y1); try done. intros fuel. by rewrite Hrun, (proj2 (Z.eqb_neq _ _) (in_G_not_jam _ Hg)).
Qed.

Lemma match_end : cp = length content → matches y content bp cp.
Proof.
  intros Hcp. pose proof here as (Hr & Hl & Hp & Hne & Hb). pose proof (on_path_end _ _ Hp) as Hs.
  assert (w = drop bp content) as Hw by (apply take_ge; rewrite length_drop; lia). assert (drop cp content = []) as Hd by (apply drop_ge; lia).
  assert (length (drop bp content) = (cp - bp)%nat) as Hlw by (rewrite length_drop; lia).
  destruct (steps_nul (walk 1 w) y content bp cp Hr Hl) as (h & Hsteps); [rewrite Hcp; by rewrite lookup_app_r, Nat.sub_diag by done|done|].
  edestruct (refill_end (set_c_buf_p (Z.of_nat (S cp)) (set_text_ptr (Z.of_nat bp) (set_hold h (set_last eob (Z.of_nat (S cp)) y)))) content bp) as (cs & y1 & Hr1 & Htx & Hnil & Href & _);
    [done|lia|done|cbn; by rewrite Hcp|by rewrite <- Hw|rewrite Hw in Hb; lia|].
  cbn [set_c_buf_p set_text_ptr set_hold set_last yyin] in Htx. rewrite <- Hcp in Href. rewrite <- Hw in Hr1, Href. rewrite <- Hw in Hlw. destruct cs as [|c cs].
  - rewrite (Hnil eq_refl) in Htx. cbn in Htx. destruct (decide (w = [])) as [Ew|Ew]; [by rewrite Hd, Htx in Hne; destruct (Hne Ew)|]. rewrite app_nil_r in Hr1.
    destruct (find_ok (walk 1 w) y1 w 0 (length w) (walk 1 w, Z.of_nat (length w))) as (y' & Hf & Hh & Hy'); [done|lia|done|by apply walk_not_start|by left|].
    exists 3%nat, y', w, (length w). rewrite Hd, Htx. cbn [app longest take drop]. rewrite app_nil_r, Hy', (Hnil eq_refl), drop_all. split_and!; [|done|done|].
    + intros fuel. rewrite Hsteps, Href. destruct w as [|c0 w0] eqn:E0; [done|]. rewrite <- E0 in *. cbn [mbind res_bind]. change 0 with (Z.of_nat 0). rewrite Hf.
      by rewrite Nat.sub_0_r, drop_0, (take_ge w (length w)).
    + unfold left_over. rewrite Hy', (Hnil eq_refl). cbn. lia.
  - assert (take (length w - 0) (drop 0 (w ++ c :: cs)) = w) as Ht by (rewrite Nat.sub_0_r, drop_0; apply take_app_length).
    assert (left_over y1 (w ++ c :: cs) (length w) < left_over y content cp)%nat as Hlt.
    { unfold left_over. rewrite Htx, !length_app. cbn [length]. lia. }
    eapply (matches_later y content bp cp 3 y1 (w ++ c :: cs) 0 (length w) []); [apply later; [done|]| | | | |].
    + unfold matchable. rewrite Ht, drop_app_length. rewrite Hd, Htx in Hb. split_and!; [done|lia|rewrite length_app; lia|done|done|]. cbn [app] in *. done.
    + by rewrite Ht, app_nil_r.
    + by rewrite drop_app_length, Hd.
    + by rewrite drop_app_length, Hd, Htx, app_nil_r.
    + lia.
    + intros fuel. rewrite Hsteps, Href, app_nil_r. done.
Qed.

Lemma match_place : matches y content bp cp.
Proof.
  destruct (content !! cp) as [c|] eqn:Hc.
  - destruct (decide (code c = 0)) as [Hz|Hz]; [|by eapply match_char]. apply match_nul. rewrite Hc. f_equal. by apply FlexSpec.code_inj.
  - apply match_end. destruct here as (_ & Hl & _). apply lookup_ge_None in Hc. lia.
Qed.

End Place.

Lemma match_ok y content bp cp : matchable y content bp cp → matches y content bp cp.
Proof.
  remember (left_over y content cp) as m eqn:Hm. revert y content bp cp Hm. induction (lt_wf m) as [m _ IH]. intros y content bp cp -> Hmatch.
  apply match_place; [done|]. intros y1 content1 bp1 cp1 Hlt Hmatch1. by eapply (IH _ Hlt).
Qed.


(** ** Whole calls *)

(** [t] is the text that the scanner has not returned yet. *)
Definition pending (y : scanner) (t : list char) : Prop := ∃ content p, held y content p ∧ drop p content ++ text (yyin y) = t.

Lemma scan_held y content p :
  held y content p → ∃ y1, raw_y y1 content ∧ yyin y1 = yyin y ∧ ∀ fuel, run (S fuel) Scan y = run fuel (Yy_match 1 (Z.of_nat p) (Z.of_nat p)) y1.
Proof.
  intros (Hr & Hp & Hl). pose proof (raw_size _ _ _ _ _ Hr) as Hs. pose proof (raw_room _ _ _ _ _ Hr) as Hroom. cbn [set_ch_buf yy_ch_buf yy_buf_size] in Hs, Hroom.
  rewrite length_insert in Hs.
  exists (set_buffer (set_ch_buf (<[p := Some (yy_hold_char y)]> (yy_ch_buf (buffer y))) (buffer y)) y). split; [exact Hr|]. split; [done|]. intros fuel. apply run_goto. cbn [FlexBuffer.step]. rewrite Hp, put_ok by lia. done.
Qed.

(** A token, the steps it takes, and what is left. *)
Lemma token_ok y content p t :
  held y content p → drop p content ++ text (yyin y) = t → t ≠ [] → Z.of_nat (length t) + 1 < 2 ^ 30 →
  ∃ a n k y' content' p', Flex.yy_match T t 0 1 (0, 0%nat) = Ok (a, n) ∧ (1 ≤ n)%nat ∧ (∀ fuel, run (k + S fuel) Scan y = after a (take n t) y' fuel) ∧
    held y' content' p' ∧ drop p' content' ++ text (yyin y') = drop n t ∧ (k + 3 * left_over y' content' p' ≤ 3 * left_over y content p + 5)%nat.
Proof.
  intros Hh Ht Hne Hb. destruct (scan_held y content p Hh) as (y1 & Hr1 & Hin & Hrun). pose proof Hh as (_ & _ & Hl). pose proof (ok_start _ _ _ _ _ _ tables_fine) as H1.
  assert (drop p content ++ text (yyin y1) = t) as Ht1 by (by rewrite Hin).
  destruct (match_ok y1 content p p) as (k & y' & content' & p' & Hm & Hh' & Hd & Hk).
  { unfold matchable. rewrite Nat.sub_diag, take_0, Ht1. cbn [on_path length]. split_and!; [done|lia|lia|done|done|done|lia]. }
  rewrite Nat.sub_diag, take_0, Ht1 in *. cbn [walk foldl app] in Hm, Hd.
  assert (aget (yy_base T) 1 ≠ Ok (jam_base T)) as Hb1.
  { destruct (ok_base _ _ _ _ _ _ tables_fine 1 H1) as (b & -> & Hbj). intros [= ->]. by destruct (Hbj eq_refl). }
  eexists _, _, (S k), y', content', p'. split; [by apply flex_match_ok|]. cbn [Nat.add]. split_and!; [|by intros fuel; rewrite Hrun, Hm|done|done|].
  - destruct t as [|c t]; [done|]. cbn [longest]. destruct (class_ok c) as (kc & Hkc & _). destruct (nx_ok 1 c kc H1 Hkc) as [_ [[_ ?]|[Hg _]]]; [done|].
    destruct (Z.eqb_spec (nx 1 c) jam) as [Hj|Hj]; [|lia]. rewrite Hj in Hg. by apply (ok_jam _ _ _ _ _ _ tables_fine) in Hg.
  - unfold left_over in *. rewrite Hin in Hk. lia.
Qed.

(** At the end of the input the scanner returns 0, and would again. *)
Lemma eof_ok y content p :
  held y content p → drop p content ++ text (yyin y) = [] → ∃ y', (∀ fuel, run (4 + fuel) Scan y = Ok (0, None, y')) ∧ held y' [] 0 ∧ text (yyin y') = [].
Proof.
  intros Hh Ht. destruct (scan_held y content p Hh) as (y1 & Hr1 & Hin & Hrun). pose proof Hh as (_ & _ & Hl). apply app_eq_nil in Ht as [Hd Ht].
  assert (p = length content) as Hp by (apply (f_equal length) in Hd; rewrite length_drop in Hd; cbn in Hd; lia). pose proof (ok_start _ _ _ _ _ _ tables_fine) as H1.
  destruct (steps_nul 1 y1 content p p Hr1) as (h & Hsteps); [lia|rewrite Hp; by rewrite lookup_app_r, Nat.sub_diag by done|done|].
  edestruct (refill_end (set_c_buf_p (Z.of_nat (S p)) (set_text_ptr (Z.of_nat p) (set_hold h (set_last eob (Z.of_nat (S p)) y1)))) content p) as (cs & y' & Hr' & Htx & Hnil & Href & Hfin);
    [done|lia|done|cbn; by rewrite Hp|by rewrite Hd|rewrite Hd; cbn; lia|].
  cbn [set_c_buf_p set_text_ptr set_hold set_last yyin] in Htx. rewrite Hin, Ht in Htx. destruct cs; [|done]. rewrite Hd in *. destruct (Hfin eq_refl eq_refl) as [Hc Hhold].
  exists y'. rewrite <- Hp in Href. split_and!; [|split; [|by rewrite Hc]|by rewrite (Hnil eq_refl)].
  - intros fuel. change (4 + fuel)%nat with (S (3 + fuel)). rewrite Hrun, Hsteps, Href. done.
  - rewrite Hhold, list_insert_id, set_ch_buf_id by (by eapply raw_lookup). done.
Qed.

Lemma loop_ok ft : ∀ t fuel y content p,
  held y content p → drop p content ++ text (yyin y) = t → (length t ≤ ft)%nat → Z.of_nat (length t) + 1 < 2 ^ 30 → (3 * left_over y content p + 6 * length t + 4 ≤ fuel)%nat →
  match Flex.yylex_loop T action ft t with
  | Ok (tok, v, t') => ∃ y', run fuel Scan y = Ok (tok, v, y') ∧ pending y' t' ∧ (length t' ≤ length t)%nat
  | UB e => run fuel Scan y = UB e
  end.
Proof.
  induction ft as [|ft IH]; intros t fuel y content p Hh Ht Hft Hb Hfuel.
  - assert (t = []) as Et by (destruct t; [done|cbn in Hft; lia]). rewrite Et in *. destruct (eof_ok y content p Hh Ht) as (y' & Hrun & Hh' & Hin').
    exists y'. replace fuel with (4 + (fuel - 4))%nat by lia. split_and!; [done| |done]. exists [], 0%nat. split; [done|]. by rewrite Hin'.
  - destruct (decide (t = [])) as [-> |Hne].
    + destruct (eof_ok y content p Hh Ht) as (y' & Hrun & Hh' & Hin'). exists y'. replace fuel with (4 + (fuel - 4))%nat by lia.
      split_and!; [done| |done]. exists [], 0%nat. split; [done|]. by rewrite Hin'.
    + destruct (token_ok y content p t Hh Ht Hne Hb) as (a & n & k & y' & content' & p' & Hm & Hn & Hrun & Hh' & Hd & Hk).
      assert (length (drop n t) < length t)%nat as Hlt by (rewrite length_drop; destruct t; cbn; [done|lia]).
      replace fuel with (k + S (fuel - k - 1))%nat by lia. rewrite Hrun. unfold after. cbn [Flex.yylex_loop]. destruct t as [|c0 t0]; [done|]. rewrite Hm. cbn [mbind res_bind].
      destruct (action a _) as [[[tok v]|]|e]; cbn [mbind res_bind]; [exists y'; split_and!; [done|by exists content', p'|lia]| |done].
      pose proof (IH _ (fuel - k - 1)%nat y' content' p' Hh' Hd ltac:(lia) ltac:(lia) ltac:(lia)) as Hrest.
      destruct (Flex.yylex_loop T action ft _) as [[[tok v] t']|e]; [|done]. destruct Hrest as (y2 & ? & ? & ?). exists y2. split_and!; [done|done|lia].
Qed.

(** The relation of the buffered scanner to the text. *)
Definition holds (s : yy) (t : list char) : Prop :=
  match s with Unstarted inp => readable tty inp ∧ text inp = t | Started y => pending y t end ∧ Z.of_nat (length t) + 1 < 2 ^ 30.

Lemma start_ok inp : readable tty inp → ∃ y, start tty inp = Ok y ∧ held y [] 0 ∧ yyin y = inp.
Proof.
  intros Hr. unfold start, yy_create_buffer, yy_init_buffer, yy_flush_buffer. cbn [yy_ch_buf].
  set (l := replicate (Z.to_nat (YY_BUF_SIZE + 2)) None). assert (Z.of_nat (length l) = YY_BUF_SIZE + 2) as Hl by (unfold l; rewrite length_replicate; by vm_compute).
  clearbody l. unfold YY_BUF_SIZE in *. rewrite (aset_lt _ 0) by lia. cbn [mbind res_bind]. rewrite (aset_lt _ 1) by (rewrite length_insert; lia).
  change (Z.to_nat 0) with 0%nat. change (Z.to_nat 1) with 1%nat.
  cbn [mbind res_bind yy_ch_buf yy_buf_pos yy_buf_size b_n_chars yy_is_our_buffer yy_buffer_status]. unfold yy_load_buffer_state. cbn [buffer yy_ch_buf yy_buf_pos b_n_chars].
  assert ((<[1%nat:=Some nul]> (<[0%nat:=Some nul]> l)) !! 0%nat = Some (Some nul)) as H0 by (rewrite list_lookup_insert_ne by done; apply list_lookup_insert_eq; lia).
  unfold uget. apply aget_lookup in H0 as H0a. change (Z.of_nat 0) with 0 in H0a. rewrite H0a. cbn [mbind res_bind]. eexists. split; [done|]. split; [|done]. split; [|done].
  cbn [buffer yy_hold_char yy_ch_buf set_ch_buf yy_n_chars yyin]. rewrite list_insert_id by done.
  constructor; cbn [set_ch_buf yy_ch_buf yy_buf_size yy_is_our_buffer yy_is_interactive yy_fill_buffer yy_buffer_status b_n_chars]; try done; rewrite ?length_insert; try lia.
  exists (drop 2 l). apply (seal []); [done|cbn; lia].
Qed.

(** One call of the buffered scanner is one call of the scanner of the text. *)
Lemma yylex_exact s t :
  holds s t →
  match Flex.yylex T action t with
  | Ok (tok, v, t') => ∃ s', yylex T E jam action tty s = Ok (tok, v, s') ∧ holds s' t'
  | UB e => yylex T E jam action tty s = UB e
  end.
Proof.
  intros [Hs Hb]. assert (∃ y content p, (match s with Unstarted inp => start tty inp | Started y => Ok y end) = Ok y ∧ held y content p ∧ drop p content ++ text (yyin y) = t) as (y & content & p & Hy & Hh & Ht).
  { destruct s as [inp|y].
    - destruct Hs as [Hr Ht]. destruct (start_ok inp Hr) as (y & Hy & Hh & Hin). exists y, [], 0%nat. split_and!; [done|done|]. by rewrite Hin.
    - destruct Hs as (content & p & Hh & Ht). by exists y, content, p. }
  unfold yylex, Flex.yylex. rewrite Hy. cbn [mbind res_bind].
  pose proof (loop_ok (length t) t (20 * (Z.to_nat (yy_n_chars y) + to_come (yyin y)) + 20) y content p Hh Ht (le_n _) Hb) as Hloop.
  destruct (Flex.yylex_loop T action (length t) t) as [[[tok v] t']|e].
  - destruct Hloop as (y' & -> & Hp & Hlen); [|cbn [mbind res_bind]; exists (Started y'); split; [done|]; split; [done|lia]].
    destruct Hh as (Hr & _ & Hl). rewrite (raw_n _ _ _ _ _ Hr), Nat2Z.id, to_come_text. unfold left_over. rewrite <- Ht, length_app, length_drop. lia.
  - rewrite Hloop; [done|]. destruct Hh as (Hr & _ & Hl). rewrite (raw_n _ _ _ _ _ Hr), Nat2Z.id, to_come_text. unfold left_over. rewrite <- Ht, length_app, length_drop. lia.
Qed.

End Exact.

End BufferedSpec.

(** ** The programs *)
Module BufferedPrograms.
Import FlexBuffer.

(** [yyparse] and [main] of the two programs over what their standard input
    delivers. *)
Definition calc_lex (isatty : bool) (s : yy) : res (Z * option Calculator.YYSTYPE * yy) :=
  match calc_yylex isatty s with Ok (t, v, s) => Ok (t, option_map Calculator.Num v, s) | UB e => UB e end.

Definition calc_yyparse (isatty : bool) (inp : list delivery) : res (Z * list string) :=
  Bison.yyparse Calculator.parser (calc_lex isatty) Calculator.action Calculator.yyerror (6 * to_come inp + 20) (Unstarted inp).

Definition sql_yyparse (isatty : bool) (inp : list delivery) : res (Z * list string) :=
  Bison.yyparse SqlParser.parser (sql_yylex isatty) SqlParser.action SqlParser.yyerror (6 * to_come inp + 20) (Unstarted inp).

(** The first [n] calls of a scanner. *)
Fixpoint calls {S V} (lex : S → res (Z * option V * S)) (n : nat) (s : S) : res (list (Z * option V)) :=
  match n with O => Ok [] | S n => '(t, v, s) ← lex s; l ← calls lex n s; Ok ((t, v) :: l) end.

End BufferedPrograms.

(** ** Theorems *)
Import FlexBuffer BufferedSpec BufferedPrograms.

Lemma calls_agree {S1 S2 V} (lex1 : S1 → res (Z * option V * S1)) (lex2 : S2 → res (Z * option V * S2)) (R : S1 → S2 → Prop) :
  (∀ s1 s2, R s1 s2 → match lex2 s2 with Ok (t, v, s2') => ∃ s1', lex1 s1 = Ok (t, v, s1') ∧ R s1' s2' | UB e => lex1 s1 = UB e end) →
  ∀ n s1 s2, R s1 s2 → calls lex1 n s1 = calls lex2 n s2.
Proof.
  intros Hlex. induction n as [|n IH]; intros s1 s2 HR; [done|]. cbn [calls]. specialize (Hlex s1 s2 HR).
  destruct (lex2 s2) as [[[t v] s2']|e]; [|by rewrite Hlex]. destruct Hlex as (s1' & -> & HR'). cbn [mbind res_bind]. by rewrite (IH s1' s2' HR').
Qed.

Lemma calc_holds tty s t :
  holds tty s t → match CalcScanner.yylex t with Ok (tok, v, t') => ∃ s', calc_yylex tty s = Ok (tok, v, s') ∧ holds tty s' t' | UB e => calc_yylex tty s = UB e end.
Proof. exact (yylex_exact _ _ _ _ _ _ calc_tables_ok CalcScanner.action tty s t). Qed.

Lemma sql_holds tty s t :
  holds tty s t → match SqlScanner.yylex t with Ok (tok, v, t') => ∃ s', sql_yylex tty s = Ok (tok, v, s') ∧ holds tty s' t' | UB e => sql_yylex tty s = UB e end.
Proof. exact (yylex_exact _ _ _ _ _ _ sql_tables_ok SqlScanner.action tty s t). Qed.

(** C12: the buffered scanners refine the scanners of a text in memory.  However the
    input is cut into reads, interrupted, or typed line by line on a terminal, and
    whatever NULs it contains, any number of calls of [yylex] gives the tokens of
    the whole text: the buffer is never overrun or read before it is written, it
    grows when a token does not fit, no character is lost or scanned twice, and the
    internal errors of the scanner do not occur. *)
Theorem buffered_scanners_exact tty inp n :
  readable tty inp → Z.of_nat (length (text inp)) + 1 < 2 ^ 30 →
  calls (calc_yylex tty) n (Unstarted inp) = calls CalcScanner.yylex n (text inp) ∧
  calls (sql_yylex tty) n (Unstarted inp) = calls SqlScanner.yylex n (text inp).
Proof.
  intros Hr Hb. assert (holds tty (Unstarted inp) (text inp)) as H0 by done.
  split; apply (calls_agree _ _ (holds tty)); [exact (calc_holds tty)|done|exact (sql_holds tty)|done].
Qed.

(** One read that delivers a string. *)
Definition delivered (s : string) : list delivery := undelivered (String.list_ascii_of_string s) [].

(** A number in two reads, an interruption, and two NULs. *)
Definition pieces : list delivery := delivered "12" ++ [Interrupted] ++ delivered "3 +" ++ [Chunk nul [nul]] ++ delivered "4".

Lemma buffered_scanners_exact_witness :
  calls (calc_yylex false) 6 (Unstarted pieces) = Ok [(258, Some 123); (43, None); (0, None); (0, None); (258, Some 4); (0, None)].
Proof.
  assert (readable false pieces) as Hr by (unfold readable, pieces; cbn; repeat (apply Forall_cons; split; [done|]); apply Forall_nil_2).
  destruct (buffered_scanners_exact false pieces 6 Hr ltac:(by vm_compute)) as [-> _]. by vm_compute.
Defined.

(** C15: the programs as they run.  The parsers over the buffered scanners return
    and print what they do over the text in memory, for which [calculator_exact]
    and [sql_parser_exact] say what that is. *)
Theorem buffered_parsers_exact tty inp :
  readable tty inp → Z.of_nat (length (text inp)) + 1 < 2 ^ 30 →
  calc_yyparse tty inp = Calculator.yyparse (text inp) ∧ sql_yyparse tty inp = SqlParser.yyparse (text inp).
Proof.
  intros Hr Hb. unfold calc_yyparse, sql_yyparse. rewrite to_come_text.
  assert (holds tty (Unstarted inp) (text inp)) as H0 by done.
  split; apply (BisonSim.yyparse_agrees _ _ _ _ _ (holds tty)); [|done|exact (sql_holds tty)|done].
  intros s t Hs. pose proof (calc_holds tty s t Hs) as H. unfold Calculator.yylex, calc_lex. destruct (CalcScanner.yylex t) as [[[tok v] t']|e]; [|by rewrite H].
  destruct H as (s' & -> & Hs'). by exists s'.
Qed.

(** [1+2], typed on a terminal. *)
Definition typed : list delivery := delivered "1+" ++ delivered ("2" +:+ nl).

Lemma buffered_parsers_exact_witness : calc_yyparse true typed = Calculator.yyparse (text typed) ∧ is_ok (calc_yyparse true typed) = true.
Proof.
  assert (readable true typed) as Hr by (unfold readable, typed; cbn; repeat (apply Forall_cons; split; [done|]); apply Forall_nil_2).
  destruct (buffered_parsers_exact true typed Hr ltac:(by vm_compute)) as [H _]. split; [exact H|]. rewrite H. by vm_compute.
Defined.
