(* ===== verification/SocketServers.v ===== *)
(** * Line servers: [SOCKET/uds_server.c] and [SOCKET/tcp_server.c]

    [SocketIO] holds [read_line] and [write_all], which all socket programs of the
    repository share, over the results of the system calls: a connection is the
    list of what [read] returns on it and the list of what [write] returns.
    [UpperServer] is the server that answers one line in upper case. *)
From stdpp Require Import base list strings.
From Stdlib Require Import Lia.
From Stdlib Require Ascii String.
From S2P Require Import Prelude WriteAheadLog.
Import Stdio.

Module SocketIO.

Definition nul : char := Ascii.ascii_of_nat 0.
Definition not_nul (c : char) : bool := negb (Ascii.eqb c nul).

(** What a C function sees of a buffer of characters. *)
Definition c_string (buf : text) : text := (span not_nul buf).1.

(** [read] of one byte: the byte, [EINTR], another error; the end of the list is
    the end of the input. *)
Inductive received : Set := Byte (c : char) | Interrupted | Failed.

(** [while (n + 1 < maxlen)]: [None] is the result -1. *)
Fixpoint read_loop (n maxlen : nat) (ev : list received) : option text * list received :=
  match ev with
  | [] => (Some [], [])
  | e :: ev' =>
      if n + 1 <? maxlen then
        match e with
        | Interrupted => read_loop n maxlen ev'
        | Failed => (None, ev')
        | Byte c =>
            if Ascii.eqb c newline then (Some [c], ev')
            else let '(r, ev'') := read_loop (n + 1) maxlen ev' in (cons c <$> r, ev'')
        end
      else (Some [], ev)
  end.

(** The bytes in the buffer, before the terminator. *)
Definition read_line (maxlen : nat) (ev : list received) : option text * list received := read_loop 0 maxlen ev.

(** A line with its end, of at most [room] bytes. *)
Fixpoint first_line (room : nat) (bs : text) : text :=
  match room, bs with
  | S room, c :: bs => if Ascii.eqb c newline then [c] else c :: first_line room bs
  | _, _ => []
  end.

(** [write]: the number of bytes taken, [EINTR], another error; behind the end of
    the list everything is taken. *)
Inductive accepted : Set := Took (w : nat) | WriteInterrupted | WriteFailed.

(** The bytes that were sent, and whether all were. *)
Fixpoint write_all (ev : list accepted) (buf : text) : text * bool * list accepted :=
  match buf, ev with
  | [], _ => ([], true, ev)
  | _, [] => (buf, true, [])
  | _, Took w :: ev => let '(sent, ok, ev) := write_all ev (drop w buf) in (take w buf ++ sent, ok, ev)
  | _, WriteInterrupted :: ev => write_all ev buf
  | _, WriteFailed :: ev => ([], false, ev)
  end.

(** [accept]: a connection, [EINTR], another error. *)
Inductive attempt : Set := Connected (input : list received) (output : list accepted) | AcceptInterrupted | AcceptFailed.

End SocketIO.

(** ** [uds_server.c], [tcp_server.c] *)
Module UpperServer.
Import SocketIO.

Definition BUF_SIZE : nat := 1024.

Definition upper (c : char) : char :=
  if (97 <=? code c) && (code c <=? 122) then Ascii.ascii_of_nat (code c - 97 + 65) else c.

Fixpoint to_upper (s : text) : text :=
  match s with c :: s' => if Ascii.eqb c nul then s else upper c :: to_upper s' | [] => [] end.

Definition greet (name : string) : text :=
  chars ("Hello! You’re connected to the " +:+ name +:+ " Server. Send a line, and I’ll convert it to uppercase." +:+ nl)%string.

(** The body of the loop of [main], for one client: what it is sent. *)
Definition serve_client (name : string) (input : list received) (output : list accepted) : text :=
  let '(sent, ok, output) := write_all output (greet name) in
  if negb ok then sent
  else
    match read_line BUF_SIZE input with
    | (None, _) | (Some [], _) => sent
    | (Some line, _) =>
        let buf := to_upper line in
        let out := chars "OK: " ++ c_string buf in
        if BUF_SIZE + 16 <=? length out then sent
        else let '(reply, _, _) := write_all output out in sent ++ reply
    end.

(** [main]: what the clients are sent, until [accept] fails. *)
Fixpoint main (name : string) (l : list attempt) : list text :=
  match l with
  | [] | AcceptFailed :: _ => []
  | AcceptInterrupted :: l => main name l
  | Connected input output :: l => serve_client name input output :: main name l
  end.

Definition uds_server : list attempt → list text := main "UDS".
Definition tcp_server : list attempt → list text := main "TCP".

End UpperServer.

Module SocketSpec.
Import SocketIO.

(** The bytes of a connection, and that no call on it fails. *)
Definition bytes (ev : list received) : text := omap (λ e, match e with Byte c => Some c | _ => None end) ev.
Definition sound (ev : list received) : Prop := Forall (λ e, e ≠ Failed) ev.
Definition writable (ev : list accepted) : Prop := Forall (λ e, e ≠ WriteFailed) ev.

Lemma read_loop_line n maxlen ev :
  sound ev → ∃ ev', read_loop n maxlen ev = (Some (first_line (maxlen - 1 - n) (bytes ev)), ev') ∧
    bytes ev' = drop (length (first_line (maxlen - 1 - n) (bytes ev))) (bytes ev) ∧ sound ev' ∧ length ev' ≤ length ev.
Proof.
  intros Hs. revert n. induction Hs as [|e ev He Hs IH]; intros n.
  { exists []. change (bytes []) with (@nil char). assert (first_line (maxlen - 1 - n) [] = []) as -> by (by destruct (maxlen - 1 - n)). split_and!; [done|done|by constructor|done]. }
  cbn [read_loop]. destruct (Nat.ltb_spec (n + 1) maxlen).
  - destruct e as [c| |]; [|destruct (IH n) as (ev' & H1 & H2 & H3 & H4); exists ev'; split_and!; [done..|cbn; lia]|done].
    change (bytes (Byte c :: ev)) with (c :: bytes ev). replace (maxlen - 1 - n) with (S (maxlen - 1 - (n + 1))) by lia. cbn [first_line].
    destruct (Ascii.eqb c newline); [exists ev; split_and!; [done..|cbn; lia]|].
    destruct (IH (n + 1)) as (ev' & H1 & H2 & H3 & H4). exists ev'. rewrite H1. split_and!; [done..|cbn; lia].
  - exists (e :: ev). replace (maxlen - 1 - n) with 0 by lia. cbn. split_and!; [done..|by constructor|done].
Qed.

(** [read_line] delivers the next line, whatever interrupts it. *)
Lemma read_line_ok maxlen ev :
  sound ev → ∃ ev', read_line maxlen ev = (Some (first_line (maxlen - 1) (bytes ev)), ev') ∧
    bytes ev' = drop (length (first_line (maxlen - 1) (bytes ev))) (bytes ev) ∧ sound ev' ∧ length ev' ≤ length ev.
Proof. intros Hs. destruct (read_loop_line 0 maxlen ev Hs) as (ev' & H). rewrite Nat.sub_0_r in H. by exists ev'. Qed.

(** [write_all] sends everything unless a call fails, and then a prefix. *)
Lemma write_all_ok ev buf : writable ev → ∃ ev', write_all ev buf = (buf, true, ev') ∧ writable ev'.
Proof.
  intros Hw. revert buf. induction Hw as [|e ev He Hw IH]; intros buf; [exists []; by destruct buf; split; try constructor|].
  destruct buf as [|c buf]; [eexists; split; [done|by constructor]|]. destruct e as [w| |]; [| |done]; cbn [write_all].
  - destruct (IH (drop w (c :: buf))) as (ev' & -> & H). exists ev'. by rewrite take_drop.
  - apply IH.
Qed.

Lemma write_all_prefix ev buf : let '(sent, ok, _) := write_all ev buf in sent `prefix_of` buf ∧ (ok = true → sent = buf).
Proof.
  revert buf. induction ev as [|e ev IH]; intros buf; [destruct buf; cbn; by split|].
  destruct buf as [|c buf]; [by split|]. destruct e as [w| |]; cbn [write_all].
  - specialize (IH (drop w (c :: buf))). destruct (write_all ev (drop w (c :: buf))) as [[sent ok] ev'], IH as [[l Hl] Hok]. split.
    + exists l. rewrite <- app_assoc, <- Hl. by rewrite take_drop.
    + intros Ht. rewrite (Hok Ht). by rewrite take_drop.
  - apply IH.
  - split; [apply prefix_nil|done].
Qed.

Lemma first_line_length room bs : length (first_line room bs) ≤ room.
Proof. revert bs. induction room as [|room IH]; intros [|c bs]; cbn; try lia. destruct (Ascii.eqb c newline); cbn; [lia|]. specialize (IH bs). lia. Qed.

Lemma first_line_nil room bs : 0 < room → first_line room bs = [] → bs = [].
Proof. destruct room, bs as [|c bs]; cbn; try lia; try done. by destruct (Ascii.eqb c newline). Qed.

Lemma c_string_upper l : c_string (UpperServer.to_upper l) = UpperServer.upper <$> c_string l.
Proof.
  induction l as [|c l IH]; [done|]. unfold c_string in *. cbn [UpperServer.to_upper span]. unfold not_nul at 2. destruct (Ascii.eqb_spec c nul) as [->|Hc]; cbn [negb].
  - done.
  - cbn [span]. destruct (not_nul (UpperServer.upper c)) eqn:E.
    + destruct (span not_nul (UpperServer.to_upper l)), (span not_nul l). cbn in *. by rewrite IH.
    + exfalso. unfold UpperServer.upper in E. destruct ((97 <=? code c) && (code c <=? 122)) eqn:Hr.
      * apply andb_prop in Hr as [H1%Nat.leb_le H2%Nat.leb_le]. unfold not_nul in E. apply negb_false_iff, Ascii.eqb_eq in E.
        apply (f_equal Ascii.nat_of_ascii) in E. unfold nul in E. rewrite !Ascii.nat_ascii_embedding in E by lia. lia.
      * unfold not_nul in E. by apply negb_false_iff, Ascii.eqb_eq in E.
Qed.

Lemma length_span p (l : text) : length (span p l).1 ≤ length l.
Proof. induction l as [|c l IH]; [done|]. cbn. destruct (p c); cbn; [|lia]. destruct (span p l). cbn in *. lia. Qed.

End SocketSpec.

(** ** Theorems *)
Import SocketSpec.

(** A client of the upper-case server on whose connection no call fails is
    sent the greeting and, unless it sends nothing, its first line in upper case
    behind [OK: ]: a line of more than 1023 bytes is cut there, one with a NUL at
    the NUL, and the reply always fits its buffer. *)
Theorem upper_reply name input output :
  sound input → writable output →
  UpperServer.serve_client name input output =
    UpperServer.greet name ++
    (if bytes input is [] then [] else chars "OK: " ++ (UpperServer.upper <$> SocketIO.c_string (SocketIO.first_line 1023 (bytes input)))).
Proof.
  intros Hi Ho. unfold UpperServer.serve_client. destruct (write_all_ok output (UpperServer.greet name) Ho) as (o1 & -> & Ho1). cbn [negb].
  destruct (read_line_ok UpperServer.BUF_SIZE input Hi) as (i1 & -> & _). change (UpperServer.BUF_SIZE - 1) with 1023.
  destruct (SocketIO.first_line 1023 (bytes input)) as [|c l] eqn:E.
  - apply first_line_nil in E as ->; [|lia]. by rewrite app_nil_r.
  - destruct (bytes input) as [|b bs]; [done|]. rewrite c_string_upper.
    pose proof (first_line_length 1023 (b :: bs)) as Hl. rewrite E in Hl.
    destruct (Nat.leb_spec (UpperServer.BUF_SIZE + 16) (length (chars "OK: " ++ (UpperServer.upper <$> SocketIO.c_string (c :: l))))) as [Hbad|_].
    + exfalso. rewrite length_app, length_fmap in Hbad. pose proof (length_span SocketIO.not_nul (c :: l)) as Hc. unfold SocketIO.c_string in Hbad.
      change (length (chars "OK: ")) with 4 in Hbad. unfold UpperServer.BUF_SIZE in Hbad. lia.
    + destruct (write_all_ok o1 (chars "OK: " ++ (UpperServer.upper <$> SocketIO.c_string (c :: l))) Ho1) as (o2 & -> & _). done.
Qed.
