(* ===== verification/KvServer.v ===== *)
(** * Key-value servers on sockets

    [SOCKET/KEY_VALUE_UDS/uds_kv_server.c] with its client, the same server over
    a store from a shared library ([STATIC_DYNAMIC_LIBRARY/DYNAMIC_LIBRARY/TASK])
    and the threaded one of [PROFILING/TASK].  [KvStore] holds the three stores at
    the level of their bytes; [kv_ops] is what a server uses of a store and
    [KvLaws] what it may rely on.  [KvServer] is the command loop over any store,
    and [KvSpec] its meaning as a finite map of at most 128 keys. *)
From stdpp Require Import base list gmap strings.
From Stdlib Require Import Lia.
From Stdlib Require Ascii String.
From S2P Require Import Prelude WriteAheadLog SocketServers.
Import Stdio SocketIO.

(** ** The stores *)
Module KvStore.

Definition MAX_ITEMS : nat := 128.
Definition KEY_LEN : nat := 64.
Definition VAL_LEN : nat := 256.

(** [char key[KEY_LEN]; char val[VAL_LEN]]. *)
Record KVPair : Set := mkpair { key : text; val : text }.

Record state : Set := mkstate { store : list KVPair; store_count : nat }.

(** Static memory is zero. *)
Definition init : state := mkstate (replicate MAX_ITEMS (mkpair (replicate KEY_LEN nul) (replicate VAL_LEN nul))) 0.

(** A C string at the start of an array; it needs a terminator. *)
Definition c_str (a : text) : res text :=
  match span not_nul a with (s, _ :: _) => Ok s | (_, []) => UB OutOfBounds end.

(** [strncpy(dst, src, n)]. *)
Definition strncpy (n : nat) (src dst : text) : text := take n src ++ replicate (n - length src) nul ++ drop n dst.

(** [a[i] = 0]. *)
Definition terminate (i : nat) (a : text) : res text := if i <? length a then Ok (<[i := nul]> a) else UB OutOfBounds.

Definition pair_at (s : state) (i : nat) : res KVPair := match store s !! i with Some p => Ok p | None => UB OutOfBounds end.

(** [for (i = 0; i < store_count; ++i) if (strcmp(store[i].key, k) == 0)]. *)
Fixpoint find (l : list nat) (k : text) (s : state) : res (option nat) :=
  match l with
  | [] => Ok None
  | i :: l =>
      p ← pair_at s i;
      a ← c_str (key p);
      if bool_decide (a = k) then Ok (Some i) else find l k s
  end.

Definition set_pair (i : nat) (p : KVPair) (s : state) : state := mkstate (<[i := p]> (store s)) (store_count s).

Definition get_value (k : text) (s : state) : res (option text) :=
  r ← find (seq 0 (store_count s)) k s;
  match r with
  | Some i => p ← pair_at s i; v ← c_str (val p); Ok (Some v)
  | None => Ok None
  end.

Section SetValue.

(** Whether the terminators are written when a value is replaced, and when an
    entry is new. *)
Context (close_update close_new : bool).

Definition put_value (close : bool) (v : text) (a : text) : res text :=
  let a := strncpy (VAL_LEN - 1) v a in if close then terminate (VAL_LEN - 1) a else Ok a.

Definition put_key (close : bool) (k : text) (a : text) : res text :=
  let a := strncpy (KEY_LEN - 1) k a in if close then terminate (KEY_LEN - 1) a else Ok a.

Definition set_value (k v : text) (s : state) : res state :=
  r ← find (seq 0 (store_count s)) k s;
  match r with
  | Some i => p ← pair_at s i; a ← put_value close_update v (val p); Ok (set_pair i (mkpair (key p) a) s)
  | None =>
      if store_count s <? MAX_ITEMS then
        p ← pair_at s (store_count s);
        a ← put_key close_new k (key p);
        b ← put_value close_new v (val p);
        Ok (mkstate (<[store_count s := mkpair a b]> (store s)) (store_count s + 1))
      else Ok s
  end.

End SetValue.

(** [uds_kv_server.c], [libkvstore.c], [uds_kv_server_perf_top.c]. *)
Definition uds_set_value := set_value true true.
Definition lib_set_value := set_value true false.
Definition perf_set_value := set_value false false.

End KvStore.

(** ** What a server uses of a store *)

Record kv_ops (S : Type) : Type := mkops {
  ops_set : text → text → S → res S;
  ops_get : text → S → res (option text) }.
Arguments ops_set {_}.
Arguments ops_get {_}.

(** ** The servers *)
Module KvServer.

Definition BUF_SIZE : nat := 1024.
Definition carriage_return : char := Ascii.ascii_of_nat 13.

(** [buf[strcspn(buf, "\r\n")] = 0]. *)
Definition trim (buf : text) : text :=
  (span (λ c, negb (Ascii.eqb c carriage_return) && negb (Ascii.eqb c newline)) (c_string buf)).1.

(** A conversion of [sscanf] with a field width. *)
Definition scan_field (width : nat) (p : char → bool) (t : text) : option (text * text) :=
  match take width (span p t).1 with [] => None | a => Some (a, drop (length a) t) end.

(** [sscanf(t, "%63s", key) == 1] *)
Definition scan_key (t : text) : option (text * text) := scan_field 63 (λ c, negb (isspace c)) (skip_space t).

(** [sscanf(t, "%63s %255[^\n]", key, val) == 2] *)
Definition scan_pair (t : text) : option (text * text) :=
  match scan_key t with
  | None => None
  | Some (key, t) =>
      match scan_field 255 (λ c, negb (Ascii.eqb c newline)) (skip_space t) with
      | None => None
      | Some (val, _) => Some (key, val)
      end
  end.

Definition line (s : string) : text := chars (s +:+ nl)%string.

(** [strncmp(buf, s, strlen(s)) == 0], and what follows. *)
Definition after_prefix (s : string) (buf : text) : option text :=
  if bool_decide (take (String.length s) buf = chars s) then Some (drop (String.length s) buf) else None.

(** [snprintf(out, size, "VALUE %s\n", v)], and the bytes of [out] that are
    written: as many as [snprintf] returns, or up to the terminator. *)
Definition value_text (v : text) : text := chars "VALUE " ++ v ++ chars nl.
Definition reply_counted (size : nat) (v : text) : res text :=
  let out := take (size - 1) (value_text v) ++ [nul] in
  if length (value_text v) <=? length out then Ok (take (length (value_text v)) out) else UB OutOfBounds.
Definition reply_string (size : nat) (v : text) : res text := Ok (take (size - 1) (value_text v)).

Section Server.
Context {S : Type} (K : kv_ops S) (value_reply : text → res text).

(** A command: the reply, the store, and whether the loop goes on. *)
Definition command (buf : text) (s : S) : res (text * S * bool) :=
  match after_prefix "SET " buf with
  | Some t =>
      match scan_pair t with
      | Some (key, val) => s ← ops_set K key val s; Ok (line "OK", s, true)
      | None => Ok (line "ERR usage: SET <key> <value>", s, true)
      end
  | None =>
      match after_prefix "GET " buf with
      | Some t =>
          match scan_key t with
          | Some (key, _) =>
              r ← ops_get K key s;
              match r with
              | Some v => out ← value_reply v; Ok (out, s, true)
              | None => Ok (line "NOTFOUND", s, true)
              end
          | None => Ok (line "ERR usage: GET <key>", s, true)
          end
      | None =>
          if bool_decide (buf = chars "EXIT") then Ok (line "BYE", s, false)
          else Ok (line "ERR unknown command", s, true)
      end
  end.

(** [while (1)] over the lines of a client: what it is sent, and the store.  The
    results of [write_all] are not used. *)
Fixpoint client_loop (fuel : nat) (input : list received) (output : list accepted) (s : S) : res (text * S) :=
  match read_line BUF_SIZE input with
  | (None, _) | (Some [], _) => Ok ([], s)
  | (Some buf, input) =>
      '(reply, s, more) ← command (trim buf) s;
      let '(sent, _, output) := write_all output reply in
      match more, fuel with
      | false, _ => Ok (sent, s)
      | true, Datatypes.S fuel => '(rest, s) ← client_loop fuel input output s; Ok (sent ++ rest, s)
      | true, O => UB OutOfFuel
      end
  end.

Definition greeting : text := line "Mini KV Store ready".

(** A client; every line takes a byte of the input, so its length is enough. *)
Definition serve_client (input : list received) (output : list accepted) (s : S) : res (text * S) :=
  let '(sent, _, output) := write_all output greeting in
  '(rest, s) ← client_loop (length input) input output s;
  Ok (sent ++ rest, s).

(** [main]: what the clients are sent, one after the other, until [accept]
    fails. *)
Fixpoint main (l : list attempt) (s : S) : res (list text * S) :=
  match l with
  | [] | AcceptFailed :: _ => Ok ([], s)
  | AcceptInterrupted :: l => main l s
  | Connected input output :: l =>
      '(sent, s) ← serve_client input output s;
      '(rest, s) ← main l s;
      Ok (sent :: rest, s)
  end.

End Server.

(** The server and its store in one program. *)
Definition uds_ops : kv_ops KvStore.state := mkops _ KvStore.uds_set_value KvStore.get_value.
Definition uds_reply : text → res text := reply_counted (KvStore.VAL_LEN + KvStore.KEY_LEN + 4).
Definition uds_serve := serve_client uds_ops uds_reply.
Definition uds_main (l : list attempt) : res (list text * KvStore.state) := main uds_ops uds_reply l KvStore.init.

(** The server that loads [libkvstore.so]. *)
Definition lib_ops : kv_ops KvStore.state := mkops _ KvStore.lib_set_value KvStore.get_value.
Definition lib_reply : text → res text := reply_string 512.
Definition lib_serve := serve_client lib_ops lib_reply.
Definition lib_main (l : list attempt) : res (list text * KvStore.state) := main lib_ops lib_reply l KvStore.init.

End KvServer.

(** ** [uds_kv_server_perf_top.c] *)
Module PerfServer.
Import KvServer.

Definition BUF_SIZE : nat := 512.
Definition perf_ops : kv_ops KvStore.state := mkops _ KvStore.perf_set_value KvStore.get_value.

(** [client_handler], without other threads: every [read] is one command.  The
    chunks are what [read] returns, each of at most [BUF_SIZE - 1] bytes; the end
    of the list is the end of the input or an error. *)
Fixpoint client_loop (chunks : list text) (s : KvStore.state) : res (text * KvStore.state) :=
  match chunks with
  | [] | [] :: _ => Ok ([], s)
  | buf :: chunks =>
      '(reply, s, more) ← command perf_ops (λ v, Ok (value_text v)) (trim buf) s;
      if more : bool then '(rest, s) ← client_loop chunks s; Ok (reply ++ rest, s) else Ok (reply, s)
  end.

Definition client_handler (chunks : list text) (s : KvStore.state) : res (text * KvStore.state) :=
  '(rest, s) ← client_loop chunks s; Ok (greeting ++ rest, s).

End PerfServer.

(** ** [uds_kv_client.c] *)
Module KvClient.
Import KvServer.

(** [fgets(buf, BUF_SIZE, stdin)]: at most [BUF_SIZE - 1] bytes of a line. *)
Definition fgets (stdin : text) : text * text :=
  let l := first_line (BUF_SIZE - 1) stdin in (l, drop (length l) stdin).

(** The prompt loop: what is printed and what is sent, from what is typed and
    what the server sends. *)
Fixpoint client_loop (fuel : nat) (stdin : text) (input : list received) (output : list accepted) : res (text * text) :=
  match fgets stdin with
  | ([], _) => Ok (chars "kv> ", [])
  | (buf, stdin) =>
      let '(sent, ok, output) := write_all output (c_string buf) in
      if negb ok then Ok (chars "kv> ", sent)
      else if bool_decide (take 4 (c_string buf) = chars "EXIT") then Ok (chars "kv> ", sent)
      else
        match read_line BUF_SIZE input, fuel with
        | (None, _), _ | (Some [], _), _ => Ok (chars "kv> ", sent)
        | (Some reply, input), Datatypes.S fuel =>
            '(printed, more) ← client_loop fuel stdin input output;
            Ok (chars "kv> " ++ c_string reply ++ printed, sent ++ more)
        | _, O => UB OutOfFuel
        end
  end.

Definition main (stdin : text) (input : list received) (output : list accepted) : res (text * text) :=
  let '(greet, input) := match read_line BUF_SIZE input with (Some l, input) => (c_string l, input) | (None, input) => ([], input) end in
  '(printed, sent) ← client_loop (length stdin) stdin input output;
  Ok (greet ++ printed, sent).

End KvClient.

(** ** What the servers promise *)
Module KvSpec.

(** C strings that fit an array with [n] characters and a terminator. *)
Definition fits (n : nat) (a : text) : Prop := length a ≤ n ∧ Forall (λ c, not_nul c = true) a.

(** [SET] on a map of at most 128 keys: a new key is dropped when it is full. *)
Definition set (k v : text) (m : gmap text text) : gmap text text :=
  if bool_decide (is_Some (m !! k)) || (size m <? KvStore.MAX_ITEMS) then <[k := v]> m else m.

End KvSpec.

(** A store whose states stand for maps. *)
Class KvLaws {S : Type} (K : kv_ops S) (repr : S → gmap text text → Prop) : Prop := {
  kv_set_ok k v s m :
    repr s m → KvSpec.fits 63 k → KvSpec.fits 255 v → ∃ s', ops_set K k v s = Ok s' ∧ repr s' (KvSpec.set k v m);
  kv_get_ok k s m : repr s m → KvSpec.fits 63 k → ops_get K k s = Ok (m !! k);
  kv_values_fit k v s m : repr s m → m !! k = Some v → KvSpec.fits 255 v }.

(** ** The stores implement a map *)
Module StoreSpec.
Import KvStore KvSpec.

(** A string in an array of [n] characters. *)
Definition pad (n : nat) (a : text) : text := a ++ replicate (n - length a) nul.

Definition encode (p : text * text) : KVPair := mkpair (pad 64 p.1) (pad 256 p.2).

Definition entry_ok (p : text * text) : Prop := fits 63 p.1 ∧ fits 255 p.2.

(** The array that holds some pairs, then zeros. *)
Definition layout (l : list (text * text)) : state :=
  mkstate ((encode <$> l) ++ replicate (MAX_ITEMS - length l) (encode ([], []))) (length l).

Inductive repr : state → gmap text text → Prop :=
  | repr_layout l : length l ≤ MAX_ITEMS → NoDup l.*1 → Forall entry_ok l → repr (layout l) (list_to_map l).

Lemma init_repr : repr init ∅.
Proof. exact (repr_layout [] ltac:(unfold MAX_ITEMS; cbn; lia) (NoDup_nil_2) (Forall_nil_2 _)). Qed.

Lemma span_pad n a : Forall (λ c, not_nul c = true) a → 0 < n → span not_nul (a ++ replicate n nul) = (a, replicate n nul).
Proof. intros Ha Hn. apply StdioSpec.span_app; [done|]. by destruct n; [lia|]. Qed.

Lemma c_str_pad n a : fits n a → c_str (pad (S n) a) = Ok a.
Proof.
  intros [Hl Ha]. unfold c_str, pad. rewrite span_pad by (done || lia). by replace (S n - length a) with (S (n - length a)) by lia.
Qed.

Lemma strncpy_pad n a b : length a ≤ n → length b ≤ n → strncpy n a (pad (S n) b) = pad (S n) a.
Proof.
  intros Ha Hb. unfold strncpy, pad. rewrite take_ge, drop_app_ge, drop_replicate by lia.
  f_equal. rewrite <- replicate_add. f_equal. lia.
Qed.

Lemma terminate_pad n a : length a ≤ n → terminate n (pad (S n) a) = Ok (pad (S n) a).
Proof.
  intros Ha. unfold terminate. assert (length (pad (S n) a) = S n) as Hl by (unfold pad; rewrite length_app, length_replicate; lia).
  rewrite Hl. destruct (Nat.ltb_spec n (S n)); [|lia]. f_equal. apply list_insert_id. unfold pad. rewrite lookup_app_r by lia.
  apply lookup_replicate. split; [done|lia].
Qed.

Lemma put_value_pad close v w : fits 255 v → fits 255 w → put_value close v (pad 256 w) = Ok (pad 256 v).
Proof. intros [Hv _] [Hw _]. unfold put_value. change (VAL_LEN - 1) with 255. rewrite strncpy_pad by done. destruct close; [by apply terminate_pad|done]. Qed.

Lemma put_key_pad close k j : fits 63 k → fits 63 j → put_key close k (pad 64 j) = Ok (pad 64 k).
Proof. intros [Hv _] [Hw _]. unfold put_key. change (KEY_LEN - 1) with 63. rewrite strncpy_pad by done. destruct close; [by apply terminate_pad|done]. Qed.

Lemma pair_at_layout l i p : l !! i = Some p → pair_at (layout l) i = Ok (encode p).
Proof. intros Hi. unfold pair_at, layout. cbn [store]. rewrite lookup_app_l by (rewrite length_fmap; by eapply lookup_lt_Some). by rewrite list_lookup_fmap, Hi. Qed.

Lemma pair_at_free l : length l < MAX_ITEMS → pair_at (layout l) (length l) = Ok (encode ([], [])).
Proof.
  intros Hl. unfold pair_at, layout. cbn [store]. rewrite lookup_app_r; rewrite length_fmap; [|done].
  by rewrite Nat.sub_diag, lookup_replicate_2 by lia.
Qed.

(** The search for a key. *)
Lemma find_layout l1 l2 k :
  Forall entry_ok (l1 ++ l2) →
  (k ∉ l2.*1) ∧ find (seq (length l1) (length l2)) k (layout (l1 ++ l2)) = Ok None ∨
  ∃ a v b, l2 = a ++ (k, v) :: b ∧ find (seq (length l1) (length l2)) k (layout (l1 ++ l2)) = Ok (Some (length l1 + length a)).
Proof.
  revert l1. induction l2 as [|[j v] l2 IH]; intros l1 Hok; [left; split; [apply not_elem_of_nil|done]|].
  cbn [length seq find]. rewrite (pair_at_layout _ _ (j, v)) by (by rewrite lookup_app_r, Nat.sub_diag by lia). unfold mbind at 1 3, res_bind at 1 3.
  assert (entry_ok (j, v)) as [Hj _] by (by apply Forall_app in Hok as [_ [? _]%Forall_cons]).
  change (key (encode (j, v))) with (pad 64 j). rewrite (c_str_pad 63) by done. unfold mbind, res_bind. case_bool_decide as E.
  - subst j. right. exists [], v, l2. split; [done|]. cbn. by rewrite Nat.add_0_r.
  - specialize (IH (l1 ++ [(j, v)])). rewrite length_app, <- app_assoc in IH. cbn [length app] in IH. rewrite Nat.add_1_r in IH.
    destruct (IH Hok) as [[Hn Hf]|(a & w & b & -> & Hf)].
    + left. split; [|done]. cbn. rewrite not_elem_of_cons. by split.
    + right. exists ((j, v) :: a), w, b. split; [done|]. cbn [length]. rewrite Hf. do 2 f_equal. lia.
Qed.

Lemma list_to_map_middle (a b : list (text * text)) k v :
  NoDup (a ++ (k, v) :: b).*1 → (list_to_map (a ++ (k, v) :: b) : gmap text text) = <[k := v]> (list_to_map (a ++ b)).
Proof. intros Hn. by rewrite (list_to_map_proper _ ((k, v) :: a ++ b)) by (done || by rewrite Permutation_middle). Qed.

Lemma fmap_fst_middle (a b : list (text * text)) k v w : (a ++ (k, w) :: b).*1 = (a ++ (k, v) :: b).*1.
Proof. by rewrite !fmap_app, !fmap_cons. Qed.

Lemma lookup_middle (a b : list (text * text)) k v : NoDup (a ++ (k, v) :: b).*1 → (list_to_map (a ++ (k, v) :: b) : gmap text text) !! k = Some v.
Proof. intros Hn. by rewrite list_to_map_middle, lookup_insert_eq. Qed.

(** Replacing a value, and adding a pair, keep the layout. *)
Lemma set_pair_layout a b k v w :
  set_pair (length a) (mkpair (pad 64 k) (pad 256 v)) (layout (a ++ (k, w) :: b)) = layout (a ++ (k, v) :: b).
Proof.
  unfold set_pair, layout. cbn [store store_count]. rewrite !length_app. cbn [length]. f_equal. rewrite !fmap_app, !fmap_cons.
  rewrite insert_app_l by (rewrite length_app, !length_fmap; cbn; lia). f_equal. rewrite insert_app_r_alt by (by rewrite length_fmap).
  by rewrite length_fmap, Nat.sub_diag.
Qed.

Lemma add_pair_layout l k v :
  length l < MAX_ITEMS →
  mkstate (<[length l := mkpair (pad 64 k) (pad 256 v)]> (store (layout l))) (length l + 1) = layout (l ++ [(k, v)]).
Proof.
  intros Hl. unfold layout. cbn [store]. rewrite length_app. cbn [length]. f_equal. rewrite insert_app_r_alt by (by rewrite length_fmap).
  rewrite length_fmap, Nat.sub_diag, fmap_app. replace (MAX_ITEMS - length l) with (S (MAX_ITEMS - (length l + 1))) by lia. by rewrite <- app_assoc.
Qed.

Lemma get_value_ok k s m : repr s m → fits 63 k → get_value k s = Ok (m !! k).
Proof.
  intros [l Hl Hn Hok] Hk. unfold get_value. change (store_count (layout l)) with (length l).
  destruct (find_layout [] l k Hok) as [[Hk1 Hf]|(a & v & b & E & Hf)]; cbn [length app Nat.add] in Hf; rewrite Hf; unfold mbind at 1, res_bind at 1.
  - f_equal. symmetry. by apply not_elem_of_list_to_map_1.
  - subst l. rewrite (pair_at_layout _ _ (k, v)) by (by rewrite lookup_app_r, Nat.sub_diag by lia). unfold mbind at 1, res_bind at 1.
    apply Forall_app in Hok as [_ [[_ Hv] _]%Forall_cons]. change (val (encode (k, v))) with (pad 256 v). rewrite (c_str_pad 255) by done.
    unfold mbind, res_bind. by rewrite lookup_middle.
Qed.

Lemma kv_set_value_ok cu cn k v s m :
  repr s m → fits 63 k → fits 255 v → ∃ s', set_value cu cn k v s = Ok s' ∧ repr s' (KvSpec.set k v m).
Proof.
  intros [l Hl Hn Hok] Hk Hv. unfold set_value. change (store_count (layout l)) with (length l). unfold KvSpec.set.
  destruct (find_layout [] l k Hok) as [[Hk1 Hf]|(a & w & b & E & Hf)]; cbn [length app Nat.add] in Hf; rewrite Hf; unfold mbind at 1, res_bind at 1.
  - rewrite (not_elem_of_list_to_map_1 l k Hk1). rewrite bool_decide_eq_false_2 by (by intros [? ?]). cbn [orb].
    rewrite map_size_list_to_map by done. destruct (Nat.ltb_spec (length l) MAX_ITEMS) as [Hlt|Hge]; [|eexists; by split; [|constructor]].
    rewrite pair_at_free by done. unfold mbind at 1, res_bind at 1. cbn [encode key val fst snd].
    assert (fits 63 [] ∧ fits 255 []) as [H1 H2] by (split; split; cbn; (lia || constructor)).
    rewrite (put_key_pad cn k []) by done. unfold mbind at 1, res_bind at 1. rewrite (put_value_pad cn v []) by done. unfold mbind, res_bind.
    rewrite add_pair_layout by done. eexists. split; [done|]. rewrite <- list_to_map_snoc by done. constructor.
    + rewrite length_app. cbn. lia.
    + rewrite fmap_app. apply NoDup_app. split_and!; [done| |apply NoDup_singleton]. cbn. intros j Hj ->%list_elem_of_singleton. done.
    + apply Forall_app. split; [done|]. by apply Forall_singleton.
  - subst l. rewrite (pair_at_layout _ _ (k, w)) by (by rewrite lookup_app_r, Nat.sub_diag by lia). unfold mbind at 1, res_bind at 1.
    pose proof Hok as [Ha [[Hk' Hw] Hb]%Forall_cons]%Forall_app. change (val (encode (k, w))) with (pad 256 w). rewrite put_value_pad by done.
    unfold mbind, res_bind. change (key (encode (k, w))) with (pad 64 k). rewrite set_pair_layout. rewrite bool_decide_eq_true_2 by (rewrite lookup_middle by done; by eexists).
    cbn [orb]. eexists. split; [done|]. pose proof Hn as Hn2. rewrite (fmap_fst_middle a b k v w) in Hn2.
    rewrite (list_to_map_middle a b k w Hn), insert_insert_eq, <- (list_to_map_middle a b k v Hn2). constructor.
    + rewrite length_app in *. done.
    + done.
    + apply Forall_app. by split; [|constructor].
Qed.

Lemma values_fit k v s m : repr s m → m !! k = Some v → fits 255 v.
Proof.
  intros [l Hl Hn Hok] Hm. apply elem_of_list_to_map_2 in Hm. rewrite Forall_forall in Hok. by apply (Hok (k, v)).
Qed.

#[global] Instance uds_laws : KvLaws KvServer.uds_ops repr.
Proof. split; [intros; by apply kv_set_value_ok|intros; by apply get_value_ok|intros; by eapply values_fit]. Qed.

#[global] Instance lib_laws : KvLaws KvServer.lib_ops repr.
Proof. split; [intros; by apply kv_set_value_ok|intros; by apply get_value_ok|intros; by eapply values_fit]. Qed.

#[global] Instance perf_laws : KvLaws PerfServer.perf_ops repr.
Proof. split; [intros; by apply kv_set_value_ok|intros; by apply get_value_ok|intros; by eapply values_fit]. Qed.

End StoreSpec.

(** ** The command loop implements the map *)
Module ServerSpec.
Import KvSpec KvServer SocketSpec.

(** Requests as a client writes them. *)
Inductive request : Set := Set_ (k v : text) | Get (k : text) | Exit.

Definition body (r : request) : text :=
  match r with
  | Set_ k v => chars "SET " ++ k ++ chars " " ++ v
  | Get k => chars "GET " ++ k
  | Exit => chars "EXIT"
  end.

Definition print (r : request) : text := body r ++ [newline].

Definition key_ok (k : text) : Prop := k ≠ [] ∧ fits 63 k ∧ Forall (λ c, isspace c = false) k.

Definition on_line (c : char) : bool := negb (Ascii.eqb c carriage_return) && negb (Ascii.eqb c newline).

Definition val_ok (v : text) : Prop :=
  v ≠ [] ∧ fits 255 v ∧ Forall (λ c, on_line c = true) v ∧ StdioSpec.ends isspace v.

Definition request_ok (r : request) : Prop := match r with Set_ k v => key_ok k ∧ val_ok v | Get k => key_ok k | Exit => True end.

(** What a map server answers. *)
Definition answer (r : request) (m : gmap text text) : text * gmap text text * bool :=
  match r with
  | Set_ k v => (line "OK", KvSpec.set k v m, true)
  | Get k => (match m !! k with Some v => value_text v | None => line "NOTFOUND" end, m, true)
  | Exit => (line "BYE", m, false)
  end.

Fixpoint answers (l : list request) (m : gmap text text) : text * gmap text text :=
  match l with
  | [] => ([], m)
  | r :: l =>
      let '(reply, m, more) := answer r m in
      if more then let '(rest, m) := answers l m in (reply ++ rest, m) else (reply, m)
  end.

(** *** Parsing *)

Lemma span_all p (l : text) : Forall (λ c, p c = true) l → span p l = (l, []).
Proof. intros Hl. rewrite <- (app_nil_r l) at 1. by apply StdioSpec.span_app. Qed.

Lemma span_holds p (l : text) : Forall (λ c, p c = true) (span p l).1.
Proof. induction l as [|c l IH]; [constructor|]. cbn. destruct (p c) eqn:E; [|constructor]. destruct (span p l). by constructor. Qed.

Lemma span_parts p (P : char → Prop) (l : text) : Forall P l → Forall P (span p l).1 ∧ Forall P (span p l).2.
Proof.
  induction 1 as [|c l Hc Hl [IH1 IH2]]; [by split|]. cbn. destruct (p c); [|by split; constructor].
  destruct (span p l) as [a b]. cbn in *. by split; [constructor|].
Qed.

Lemma not_nul_true c : not_nul c = true ↔ c ≠ nul.
Proof. unfold not_nul. by rewrite negb_true_iff, Ascii.eqb_neq. Qed.

Lemma isspace_not_nul c : isspace c = true → not_nul c = true.
Proof. intros Hc. apply not_nul_true. by intros ->. Qed.

Lemma nospace_on_line c : isspace c = false → on_line c = true.
Proof.
  intros Hc. unfold on_line. apply andb_true_intro. split; apply negb_true_iff, Ascii.eqb_neq; intros ->; done.
Qed.

Lemma trim_line t : Forall (λ c, not_nul c = true) t → Forall (λ c, on_line c = true) t → trim (t ++ [newline]) = t.
Proof.
  intros Hn Hl. unfold trim, c_string. rewrite (span_all not_nul) by (apply Forall_app; split; [done|by constructor]).
  by rewrite (StdioSpec.span_app _ t [newline]).
Qed.

(** A trimmed line holds no NUL. *)
Lemma trim_not_nul buf : Forall (λ c, not_nul c = true) (trim buf).
Proof. apply span_parts, span_holds. Qed.

Lemma scan_field_ok width p a t :
  a ≠ [] → length a ≤ width → Forall (λ c, p c = true) a → StdioSpec.ends p t → scan_field width p (a ++ t) = Some (a, t).
Proof.
  intros Hne Hl Ha Ht. unfold scan_field. rewrite StdioSpec.span_app by done. cbn [fst]. rewrite take_ge by done. destruct a as [|c l]; [done|].
  by rewrite drop_app_length.
Qed.

Lemma scan_field_bound width p t a t' : scan_field width p t = Some (a, t') → Forall (λ c, not_nul c = true) t → fits width a ∧ Forall (λ c, not_nul c = true) t'.
Proof.
  unfold scan_field. intros H Hn. destruct (take width (span p t).1) as [|c l] eqn:E; [done|]. injection H as <- <-. split; [split|].
  - rewrite <- E, length_take. lia.
  - rewrite <- E. apply Forall_take. by apply (span_parts p _ t Hn).
  - apply Forall_drop, Hn.
Qed.

Lemma skip_space_not_nul t : Forall (λ c, not_nul c = true) t → Forall (λ c, not_nul c = true) (skip_space t).
Proof. intros H. by apply (span_parts isspace _ t H). Qed.

Lemma scan_key_bound t k t' : scan_key t = Some (k, t') → Forall (λ c, not_nul c = true) t → fits 63 k ∧ Forall (λ c, not_nul c = true) t'.
Proof. intros H Hn. eapply scan_field_bound; [exact H|by apply skip_space_not_nul]. Qed.

Lemma scan_pair_bound t k v : scan_pair t = Some (k, v) → Forall (λ c, not_nul c = true) t → fits 63 k ∧ fits 255 v.
Proof.
  unfold scan_pair. intros H Hn. destruct (scan_key t) as [[k1 t1]|] eqn:E1; [|done]. destruct (scan_key_bound _ _ _ E1 Hn) as [Hk Ht1].
  destruct (scan_field 255 _ (skip_space t1)) as [[v1 t2]|] eqn:E2; [|done]. injection H as <- <-.
  split; [done|]. eapply scan_field_bound; [exact E2|by apply skip_space_not_nul].
Qed.

Lemma after_prefix_not_nul s buf t : after_prefix s buf = Some t → Forall (λ c, not_nul c = true) buf → Forall (λ c, not_nul c = true) t.
Proof. unfold after_prefix. case_bool_decide as E; [|done]. intros [= <-] H. by apply Forall_drop. Qed.

Lemma key_ends k t : key_ok k → StdioSpec.ends isspace (k ++ t).
Proof. intros (Hne & _ & Hk). destruct k as [|c k]; [done|]. by apply Forall_cons in Hk as [Hc _]. Qed.

Lemma scan_key_ok k t : key_ok k → StdioSpec.ends (λ c, negb (isspace c)) t → scan_key (k ++ t) = Some (k, t).
Proof.
  intros Hk Ht. unfold scan_key. rewrite StdioSpec.skip_nothing by (by apply key_ends). destruct Hk as (Hne & [Hl _] & Hs).
  apply scan_field_ok; [done|done| |done]. eapply Forall_impl; [exact Hs|]. cbn. by intros c ->.
Qed.

Lemma scan_pair_ok k v : key_ok k → val_ok v → scan_pair (k ++ chars " " ++ v) = Some (k, v).
Proof.
  intros Hk (Hne & [Hl _] & Hv & He). unfold scan_pair. rewrite scan_key_ok by done. change (chars " " ++ v) with (Ascii.ascii_of_nat 32 :: v).
  rewrite StdioSpec.skip_one by done. pose proof (scan_field_ok 255 (λ c, negb (Ascii.eqb c newline)) v []) as H. rewrite app_nil_r in H.
  rewrite H; [done|done|done| |done]. eapply Forall_impl; [exact Hv|]. intros c Hc. unfold on_line in Hc. by apply andb_prop in Hc as [_ Hc].
Qed.

(** *** The loop, over any store that keeps its promise *)
Section Loop.
Context {S : Type} (K : kv_ops S) (repr : S → gmap text text → Prop) `{!KvLaws K repr} (value_reply : text → res text).
Hypothesis reply_ok : ∀ v, fits 255 v → value_reply v = Ok (value_text v).

(** Any line is handled. *)
Lemma command_total buf s m :
  repr s m → Forall (λ c, not_nul c = true) buf → ∃ reply s' m' more, command K value_reply buf s = Ok (reply, s', more) ∧ repr s' m'.
Proof.
  intros Hr Hn. unfold command. destruct (after_prefix "SET " buf) as [t|] eqn:E1.
  { pose proof (after_prefix_not_nul _ _ _ E1 Hn) as Ht. destruct (scan_pair t) as [[k v]|] eqn:E2; [|by eexists _, s, m, _].
    destruct (scan_pair_bound _ _ _ E2 Ht) as [Hk Hv]. destruct (kv_set_ok k v s m Hr Hk Hv) as (s' & -> & Hr'). by eexists _, s', _, _. }
  destruct (after_prefix "GET " buf) as [t|] eqn:E2; [|case_bool_decide; by eexists _, s, m, _].
  pose proof (after_prefix_not_nul _ _ _ E2 Hn) as Ht. destruct (scan_key t) as [[k t']|] eqn:E3; [|by eexists _, s, m, _].
  destruct (scan_key_bound _ _ _ E3 Ht) as [Hk _]. rewrite (kv_get_ok k s m Hr Hk). unfold mbind, res_bind.
  destruct (m !! k) as [v|] eqn:Em; [|by eexists _, s, m, _]. rewrite reply_ok by (by eapply kv_values_fit). by eexists _, s, m, _.
Qed.

(** A request is answered as the map answers it. *)
Lemma command_request r s m :
  repr s m → request_ok r →
  ∃ s', command K value_reply (body r) s = Ok ((answer r m).1.1, s', (answer r m).2) ∧ repr s' (answer r m).1.2.
Proof.
  intros Hr Hok. destruct r as [k v|k|]; cbn [body answer fst snd].
  - destruct Hok as [Hk Hv]. unfold command. change (after_prefix "SET " (chars "SET " ++ k ++ chars " " ++ v)) with (Some (k ++ chars " " ++ v)).
    cbv beta iota. rewrite scan_pair_ok by done. destruct (kv_set_ok k v s m Hr) as (s' & -> & Hr'); [apply Hk|apply Hv|]. by exists s'.
  - unfold command. change (after_prefix "SET " (chars "GET " ++ k)) with (@None text). change (after_prefix "GET " (chars "GET " ++ k)) with (Some k). cbv beta iota.
    pose proof (scan_key_ok k [] Hok I) as H. rewrite app_nil_r in H. rewrite H, (kv_get_ok k s m Hr) by apply Hok. unfold mbind, res_bind.
    exists s. destruct (m !! k) as [v|] eqn:Em; [|done]. by rewrite reply_ok by (by eapply kv_values_fit).
  - by exists s.
Qed.

Lemma read_loop_no_longer n maxlen ev : length (read_loop n maxlen ev).2 ≤ length ev.
Proof.
  revert n. induction ev as [|e ev IH]; intros n; [done|]. cbn [read_loop]. destruct (n + 1 <? maxlen); [|done].
  destruct e as [c| |]; cbn [length]; [|specialize (IH n); lia|cbn; lia]. destruct (Ascii.eqb c newline); [cbn; lia|].
  specialize (IH (n + 1)). destruct (read_loop (n + 1) maxlen ev). cbn in *. lia.
Qed.

Lemma read_loop_shorter n maxlen ev c l ev' : read_loop n maxlen ev = (Some (c :: l), ev') → length ev' < length ev.
Proof.
  revert n c l. induction ev as [|e ev IH]; intros n c l; [done|]. cbn [read_loop length]. destruct (n + 1 <? maxlen); [|done].
  destruct e as [b| |]; [|intros H%IH; lia|done]. destruct (Ascii.eqb b newline); [intros [= <- <- <-]; lia|].
  pose proof (read_loop_no_longer (n + 1) maxlen ev) as Hl. destruct (read_loop (n + 1) maxlen ev) as [[r|] ev1]; [|done]. intros [= <- <- <-]. cbn in Hl. lia.
Qed.

(** Whatever a client sends, and whatever the system calls return, the loop ends
    without undefined behaviour and the store stays sound. *)
Lemma client_loop_total fuel input output s m :
  repr s m → length input ≤ fuel → ∃ sent s' m', client_loop K value_reply fuel input output s = Ok (sent, s') ∧ repr s' m'.
Proof.
  revert input output s m. induction fuel as [|fuel IH]; intros input output s m Hr Hf.
  { destruct input; [|cbn in Hf; lia]. by exists [], s, m. }
  cbn [client_loop]. destruct (read_line BUF_SIZE input) as [[[|c l]|] input'] eqn:E; [by exists [], s, m| |by exists [], s, m].
  destruct (command_total (trim (c :: l)) s m Hr (trim_not_nul _)) as (reply & s1 & m1 & more & -> & Hr1). unfold mbind at 1, res_bind at 1.
  destruct (write_all output reply) as [[sent ok] output']. destruct more; [|by exists sent, s1, m1].
  apply read_loop_shorter in E. destruct (IH input' output' s1 m1 Hr1) as (rest & s2 & m2 & -> & Hr2); [lia|]. by exists (sent ++ rest), s2, m2.
Qed.

Lemma serve_total input output s m :
  repr s m → ∃ sent s' m', serve_client K value_reply input output s = Ok (sent, s') ∧ repr s' m'.
Proof.
  intros Hr. unfold serve_client. destruct (write_all output greeting) as [[sent ok] output'].
  destruct (client_loop_total (length input) input output' s m Hr) as (rest & s' & m' & -> & Hr'); [done|]. by exists (sent ++ rest), s', m'.
Qed.

Lemma main_total l s m : repr s m → ∃ sent s' m', main K value_reply l s = Ok (sent, s') ∧ repr s' m'.
Proof.
  revert s m. induction l as [|a l IH]; intros s m Hr; [by exists [], s, m|]. destruct a as [input output| |]; cbn [main]; [|by apply (IH s m)|by exists [], s, m].
  destruct (serve_total input output s m Hr) as (sent & s1 & m1 & -> & Hr1). destruct (IH s1 m1 Hr1) as (rest & s2 & m2 & H & Hr2).
  unfold mbind, res_bind in *. rewrite H. by exists (sent :: rest), s2, m2.
Qed.

Lemma first_line_app room a b :
  Forall (λ c, Ascii.eqb c newline = false) a → length a < room → first_line room (a ++ newline :: b) = a ++ [newline].
Proof.
  intros Ha. revert room. induction Ha as [|c a Hc _ IH]; intros [|room] Hl; cbn in *; try lia; [done|]. rewrite Hc. f_equal. apply IH. lia.
Qed.

Lemma on_line_newline a : Forall (λ c, on_line c = true) a → Forall (λ c, Ascii.eqb c newline = false) a.
Proof. intros Ha. eapply Forall_impl; [exact Ha|]. intros c Hc. unfold on_line in Hc. by apply andb_prop in Hc as [_ Hc%negb_true_iff]. Qed.

Lemma body_ok r : request_ok r → Forall (λ c, not_nul c = true) (body r) ∧ Forall (λ c, on_line c = true) (body r) ∧ length (body r) < 1023.
Proof.
  assert (∀ k, key_ok k → Forall (λ c, not_nul c = true) k ∧ Forall (λ c, on_line c = true) k ∧ length k ≤ 63) as Hkey.
  { intros k (_ & [Hl Hn] & Hs). split_and!; [done| |done]. eapply Forall_impl; [exact Hs|]. intros c. apply nospace_on_line. }
  destruct r as [k v|k|]; cbn [request_ok body]; [intros [Hk (_ & [Hl Hn] & Hv & _)]|intros Hk|intros _; split_and!; [by repeat constructor|by repeat constructor|cbn; lia]].
  all: destruct (Hkey k Hk) as (H1 & H2 & H3); rewrite !Forall_app, !length_app; cbn [length]; split_and!; try done; try (by repeat constructor); cbn; lia.
Qed.

(** The requests of a client in order, however the bytes arrive. *)
Lemma client_loop_requests l fuel input output s m :
  repr s m → Forall request_ok l → sound input → writable output → bytes input = concat (print <$> l) → length l ≤ fuel →
  ∃ s', client_loop K value_reply fuel input output s = Ok ((answers l m).1, s') ∧ repr s' (answers l m).2.
Proof.
  revert fuel input output s m. induction l as [|r l IH]; intros fuel input output s m Hr Hok Hin Hout Hb Hf.
  - destruct (read_line_ok BUF_SIZE input Hin) as (input' & Hrd & _). rewrite Hb in Hrd. exists s. by destruct fuel; cbn [client_loop]; rewrite Hrd.
  - apply Forall_cons in Hok as [Hr1 Hok]. destruct fuel as [|fuel]; [cbn in Hf; lia|]. destruct (body_ok r Hr1) as (Hn & Hl & Hlen).
    assert (bytes input = body r ++ newline :: concat (print <$> l)) as Hb2 by (rewrite Hb; cbn [fmap list_fmap concat]; unfold print at 1; by rewrite <- app_assoc).
    destruct (read_line_ok BUF_SIZE input Hin) as (input' & Hrd & Hb' & Hin' & _). rewrite Hb2 in Hrd, Hb'.
    change (BUF_SIZE - 1) with 1023 in *. rewrite first_line_app in Hrd, Hb' by (done || by apply on_line_newline).
    change (newline :: concat (print <$> l)) with ([newline] ++ concat (print <$> l)) in Hb'. rewrite app_assoc, drop_app_length in Hb'.
    cbn [client_loop]. rewrite Hrd. destruct (body r ++ [newline]) as [|c t] eqn:E; [by destruct (body r)|]. rewrite <- E, trim_line by done.
    destruct (command_request r s m Hr Hr1) as (s1 & -> & Hr2). unfold mbind at 1, res_bind at 1. cbn [answers]. destruct (answer r m) as [[reply m1] more]. cbn [fst snd] in *.
    destruct (write_all_ok output reply Hout) as (output' & -> & Hout'). destruct more; [|by exists s1].
    destruct (IH fuel input' output' s1 m1) as (s2 & -> & Hr3); [done..|cbn in Hf; lia|]. destruct (answers l m1) as [rest m2]. by exists s2.
Qed.

Lemma requests_length (l : list request) : length l ≤ length (concat (print <$> l)).
Proof. induction l as [|r l IH]; [done|]. cbn. rewrite length_app. unfold print at 1. rewrite length_app. cbn. lia. Qed.

Lemma bytes_length ev : length (bytes ev) ≤ length ev.
Proof. induction ev as [|[c| |] ev IH]; cbn; unfold bytes in *; lia. Qed.

Lemma serve_requests l input output s m :
  repr s m → Forall request_ok l → sound input → writable output → bytes input = concat (print <$> l) →
  ∃ s', serve_client K value_reply input output s = Ok (greeting ++ (answers l m).1, s') ∧ repr s' (answers l m).2.
Proof.
  intros Hr Hok Hin Hout Hb. unfold serve_client. destruct (write_all_ok output greeting Hout) as (output' & -> & Hout').
  destruct (client_loop_requests l (length input) input output' s m) as (s' & -> & Hr'); [done..| |by exists s'].
  rewrite (requests_length l), <- Hb. apply bytes_length.
Qed.

(** Connections that carry requests; [accept] may be interrupted in between. *)
Inductive carries : list attempt → list (list request) → Prop :=
  | carries_none : carries [] []
  | carries_interrupted a l : carries a l → carries (AcceptInterrupted :: a) l
  | carries_client input output a r l :
      sound input → writable output → Forall request_ok r → bytes input = concat (print <$> r) →
      carries a l → carries (Connected input output :: a) (r :: l).

(** What the clients are sent, one session after the other. *)
Fixpoint sessions (l : list (list request)) (m : gmap text text) : list text * gmap text text :=
  match l with
  | [] => ([], m)
  | r :: l => let '(out, m) := answers r m in let '(rest, m) := sessions l m in ((greeting ++ out) :: rest, m)
  end.

Lemma main_sessions a l s m :
  carries a l → repr s m → ∃ s', main K value_reply a s = Ok ((sessions l m).1, s') ∧ repr s' (sessions l m).2.
Proof.
  intros Hc. revert s m. induction Hc as [|a l _ IH|input output a r l Hin Hout Hok Hb _ IH]; intros s m Hr; [by exists s|by apply IH|].
  cbn [main sessions]. destruct (serve_requests r input output s m Hr Hok Hin Hout Hb) as (s1 & -> & Hr1). unfold mbind at 1, res_bind at 1.
  destruct (answers r m) as [out m1]. destruct (IH s1 m1 Hr1) as (s2 & -> & Hr2). destruct (sessions l m1) as [rest m2]. by exists s2.
Qed.

End Loop.

Lemma uds_reply_ok v : fits 255 v → uds_reply v = Ok (value_text v).
Proof.
  intros [Hl _]. unfold uds_reply, reply_counted. assert (length (value_text v) ≤ 262) as Hv.
  { unfold value_text. rewrite !length_app. cbn. lia. }
  change (KvStore.VAL_LEN + KvStore.KEY_LEN + 4 - 1) with 323. rewrite take_ge, length_app by lia. cbn [length].
  destruct (Nat.leb_spec (length (value_text v)) (length (value_text v) + 1)); [|lia]. by rewrite take_app_length.
Qed.

Lemma lib_reply_ok v : fits 255 v → lib_reply v = Ok (value_text v).
Proof. intros [Hl _]. unfold lib_reply, reply_string. rewrite take_ge; [done|]. unfold value_text. rewrite !length_app. cbn. lia. Qed.

(** *** The client *)

(** What is sent: up to the first [EXIT]. *)
Fixpoint upto_exit (l : list request) : list request :=
  match l with [] => [] | Exit :: _ => [Exit] | r :: l => r :: upto_exit l end.

(** What the user sees. *)
Fixpoint transcript (l : list request) (m : gmap text text) : text :=
  match l with
  | [] | Exit :: _ => chars "kv> "
  | r :: l => chars "kv> " ++ (answer r m).1.1 ++ transcript l (answer r m).1.2
  end.

Lemma answers_upto_exit l m : answers (upto_exit l) m = answers l m.
Proof. revert m. induction l as [|[k v|k|] l IH]; intros m; cbn; by rewrite ?IH. Qed.

Lemma upto_exit_ok l : Forall request_ok l → Forall request_ok (upto_exit l).
Proof. induction 1 as [|[k v|k|] l Hr _ IH]; cbn; [done|by constructor..|by apply Forall_singleton]. Qed.

(** Replies are lines. *)
Definition is_line (t : text) : Prop :=
  ∃ a, t = a ++ [newline] ∧ Forall (λ c, not_nul c = true) a ∧ Forall (λ c, Ascii.eqb c newline = false) a ∧ length a < 1023.

Definition map_ok (m : gmap text text) : Prop := map_Forall (λ _ v, fits 255 v ∧ Forall (λ c, Ascii.eqb c newline = false) v) m.

Lemma set_map_ok k v m : map_ok m → val_ok v → map_ok (KvSpec.set k v m).
Proof.
  intros Hm (_ & Hv & Hl & _). unfold KvSpec.set. case_match; [|done]. apply map_Forall_insert_2; [|done]. split; [done|by apply on_line_newline].
Qed.

Lemma answer_line r m : map_ok m → request_ok r → is_line (answer r m).1.1 ∧ map_ok (answer r m).1.2.
Proof.
  assert (∀ t : string, Forall (λ c, not_nul c = true) (chars t) → Forall (λ c, Ascii.eqb c newline = false) (chars t) → length (chars t) < 1023 → is_line (line t)) as Hline.
  { intros t H1 H2 H3. exists (chars t). split_and!; [|done..]. unfold line. by rewrite StdioSpec.chars_app. }
  intros Hm Hr. destruct r as [k v|k|]; cbn [answer fst snd]; (split; [|first [done|apply set_map_ok; [done|apply Hr]]]).
  - apply Hline; [by repeat constructor|by repeat constructor|cbn; lia].
  - destruct (m !! k) as [v|] eqn:E; [|apply Hline; [by repeat constructor|by repeat constructor|cbn; lia]].
    apply Hm in E as [[Hl Hn] Hv]. exists (chars "VALUE " ++ v). unfold value_text. rewrite !Forall_app, length_app, <- app_assoc.
    split_and!; [done|by repeat constructor|done|by repeat constructor|done|cbn; lia].
  - apply Hline; [by repeat constructor|by repeat constructor|cbn; lia].
Qed.

Lemma line_read a t ev :
  is_line a → sound ev → bytes ev = a ++ t → ∃ ev', read_line BUF_SIZE ev = (Some a, ev') ∧ sound ev' ∧ bytes ev' = t ∧ c_string a = a ∧ a ≠ [].
Proof.
  intros (b & -> & Hn & Hl & Hlen) Hs Hb. destruct (read_line_ok BUF_SIZE ev Hs) as (ev' & Hr & Hb' & Hs' & _). exists ev'.
  rewrite Hb, <- app_assoc in Hr, Hb'. change (BUF_SIZE - 1) with 1023 in *. cbn [app] in Hr, Hb'. rewrite first_line_app in Hr, Hb' by done.
  change (newline :: t) with ([newline] ++ t) in Hb'. rewrite app_assoc, drop_app_length in Hb'. split_and!; [done..| |by destruct b].
  unfold c_string. by rewrite span_all by (apply Forall_app; split; [done|by constructor]).
Qed.

Lemma print_line r : request_ok r → is_line (print r).
Proof. intros Hr. destruct (body_ok r Hr) as (H1 & H2 & H3). exists (body r). split_and!; [done..|by apply on_line_newline|done]. Qed.

Lemma line_typed a t : is_line a → KvClient.fgets (a ++ t) = (a, t) ∧ c_string a = a ∧ a ≠ [].
Proof.
  intros (b & -> & Hn & Hl & Hlen). unfold KvClient.fgets. rewrite <- app_assoc. cbn [app]. change (BUF_SIZE - 1) with 1023. rewrite first_line_app by done.
  split_and!; [|unfold c_string; by rewrite span_all by (apply Forall_app; split; [done|by constructor])|by destruct b].
  f_equal. change (newline :: t) with ([newline] ++ t). by rewrite app_assoc, drop_app_length.
Qed.

Lemma client_runs l fuel input output m :
  map_ok m → Forall request_ok l → sound input → writable output → bytes input = (answers l m).1 → length l ≤ fuel →
  KvClient.client_loop fuel (concat (print <$> l)) input output = Ok (transcript l m, concat (print <$> upto_exit l)).
Proof.
  revert fuel input output m. induction l as [|r l IH]; intros fuel input output m Hm Hok Hin Hout Hb Hf; [by destruct fuel|].
  apply Forall_cons in Hok as [Hr Hok]. destruct fuel as [|fuel]; [cbn in Hf; lia|]. cbn [fmap list_fmap concat]. cbn [KvClient.client_loop].
  destruct (line_typed (print r) (concat (print <$> l)) (print_line r Hr)) as (-> & Hc & Hne). destruct (print r) as [|c t] eqn:Ep; [done|]. rewrite <- Ep in *. clear Hne.
  rewrite Hc. destruct (write_all_ok output (print r) Hout) as (output' & -> & Hout'). cbn [negb].
  destruct (answer_line r m Hm Hr) as [Hline Hm'].
  assert (r = Exit ∨ bool_decide (take 4 (print r) = chars "EXIT") = false ∧ (answer r m).2 = true ∧ upto_exit (r :: l) = r :: upto_exit l ∧
    transcript (r :: l) m = chars "kv> " ++ (answer r m).1.1 ++ transcript l (answer r m).1.2) as [->|(Hx & Hmore & -> & ->)]
    by (destruct r; [by right..|by left]); [reflexivity|].
  rewrite Hx. cbn [answers] in Hb. destruct (answer r m) as [[reply m1] more]. cbn [fst snd] in *. subst more.
  specialize (IH fuel). destruct (answers l m1) as [rest m2] eqn:Ea. cbn [fst] in Hb.
  destruct (line_read _ _ _ Hline Hin Hb) as (input' & -> & Hin' & Hb' & Hc' & Hne). destruct reply as [|c' t']; [done|].
  rewrite (IH input' output' m1); [|done..|by rewrite Ea|cbn in Hf; lia]. unfold mbind, res_bind. by rewrite Hc'.
Qed.

End ServerSpec.

(** ** Theorems *)
Import KvSpec SocketSpec ServerSpec.

(** C19: the key-value servers implement a finite map of at most 128 keys.
    However the bytes of the clients' requests arrive, however much each [write]
    takes and whichever calls are interrupted, every client is sent the greeting
    and the answers of the map, in order, up to its [EXIT]; the map lives on from
    one client to the next.  The server with its own store and the one with the
    library store do the same. *)
Theorem kv_servers_refine a l :
  carries a l →
  ∃ s1 s2, KvServer.uds_main a = Ok ((sessions l ∅).1, s1) ∧ StoreSpec.repr s1 (sessions l ∅).2 ∧
    KvServer.lib_main a = Ok ((sessions l ∅).1, s2) ∧ StoreSpec.repr s2 (sessions l ∅).2.
Proof.
  intros Hc.
  destruct (main_sessions KvServer.uds_ops StoreSpec.repr KvServer.uds_reply uds_reply_ok a l _ ∅ Hc StoreSpec.init_repr) as (s1 & H1 & H2).
  destruct (main_sessions KvServer.lib_ops StoreSpec.repr KvServer.lib_reply lib_reply_ok a l _ ∅ Hc StoreSpec.init_repr) as (s2 & H3 & H4).
  by exists s1, s2.
Qed.

Definition received_all (t : text) : list received := Interrupted :: (Byte <$> t).
Definition first_client : list request := [Set_ (chars "k") (chars "two words"); Get (chars "j")].
Definition second_client : list request := [Get (chars "k"); Exit].
Definition two_clients : list attempt :=
  [Connected (received_all (concat (print <$> first_client))) [Took 3; WriteInterrupted]; AcceptInterrupted;
   Connected (received_all (concat (print <$> second_client))) []].

Lemma kv_servers_refine_witness :
  ∃ s1 s2, KvServer.uds_main two_clients = Ok ((sessions [first_client; second_client] ∅).1, s1) ∧ StoreSpec.repr s1 (sessions [first_client; second_client] ∅).2 ∧
    KvServer.lib_main two_clients = Ok ((sessions [first_client; second_client] ∅).1, s2) ∧ StoreSpec.repr s2 (sessions [first_client; second_client] ∅).2.
Proof.
  apply (kv_servers_refine two_clients [first_client; second_client]).
  assert (∀ t, sound (received_all t)) as Hs by (intros t; constructor; [done|]; apply Forall_fmap, Forall_true; done).
  assert (∀ t, bytes (received_all t) = t) as Hb by (intros t; unfold bytes; cbn; induction t as [|c t IH]; [done|]; cbn; by f_equal).
  assert (key_ok (chars "k") ∧ key_ok (chars "j") ∧ val_ok (chars "two words")) as (H1 & H2 & H3).
  { unfold key_ok, val_ok, fits. split_and!; try done; try (cbn; lia); by repeat constructor. }
  repeat (constructor || done || apply Hs || apply Hb).
Defined.

(** C23: the key-value servers are robust.  Whatever the clients send and whatever
    the calls of [accept], [read] and [write] return, the program runs without
    undefined behaviour (no array is overrun, no string lacks its end, no loop
    runs for ever), and its store stays the representation of a map. *)
Theorem kv_servers_safe a :
  (∃ sent s m, KvServer.uds_main a = Ok (sent, s) ∧ StoreSpec.repr s m) ∧ (∃ sent s m, KvServer.lib_main a = Ok (sent, s) ∧ StoreSpec.repr s m).
Proof.
  split.
  - exact (main_total KvServer.uds_ops StoreSpec.repr KvServer.uds_reply uds_reply_ok a _ ∅ StoreSpec.init_repr).
  - exact (main_total KvServer.lib_ops StoreSpec.repr KvServer.lib_reply lib_reply_ok a _ ∅ StoreSpec.init_repr).
Qed.

(** C24: the client and the server together.  When the server receives what the
    client sends and the client receives what the server sends, the user who types
    requests sees the greeting and, behind each prompt, the answer of the map; the
    client sends the requests up to [EXIT]. *)
Theorem kv_dialogue l s m input output input' output' :
  StoreSpec.repr s m → map_ok m → Forall request_ok l → sound input → writable output → sound input' → writable output' →
  bytes input = concat (print <$> upto_exit l) →
  ∃ out s', KvServer.uds_serve input output s = Ok (out, s') ∧ StoreSpec.repr s' (answers l m).2 ∧
    (bytes input' = out →
     KvClient.main (concat (print <$> l)) input' output' = Ok (KvServer.greeting ++ transcript l m, bytes input)).
Proof.
  intros Hr Hm Hok Hi Ho Hi' Ho' Hb.
  destruct (serve_requests KvServer.uds_ops StoreSpec.repr KvServer.uds_reply uds_reply_ok (upto_exit l) input output s m Hr (upto_exit_ok l Hok) Hi Ho Hb) as (s' & Hs & Hr').
  rewrite answers_upto_exit in Hs, Hr'. eexists _, s'. split; [exact Hs|]. split; [done|]. intros Hb'. unfold KvClient.main.
  assert (is_line KvServer.greeting) as Hg.
  { exists (chars "Mini KV Store ready"). split_and!; [done|by repeat constructor|by repeat constructor|cbn; lia]. }
  destruct (line_read _ _ _ Hg Hi' Hb') as (i1 & -> & Hi1 & Hb1 & -> & _).
  rewrite (client_runs l _ i1 output' m) by (done || apply requests_length). unfold mbind, res_bind. by rewrite Hb.
Qed.

Lemma kv_dialogue_witness :
  ∃ out s', KvServer.uds_serve (received_all (concat (print <$> second_client))) [] KvStore.init = Ok (out, s') ∧ StoreSpec.repr s' (answers second_client ∅).2 ∧
    (bytes (received_all (KvServer.greeting ++ (answers second_client ∅).1)) = out →
     KvClient.main (concat (print <$> second_client)) (received_all (KvServer.greeting ++ (answers second_client ∅).1)) [Took 1] =
       Ok (KvServer.greeting ++ transcript second_client ∅, bytes (received_all (concat (print <$> second_client))))).
Proof.
  apply (kv_dialogue second_client); [apply StoreSpec.init_repr|apply map_Forall_empty| | | | | |by vm_compute].
  - apply Forall_cons. split; [|by apply Forall_singleton]. split; [done|]. split; [|by repeat constructor]. split; [cbn; lia|by repeat constructor].
  - constructor; [done|]. apply Forall_fmap, Forall_true. done.
  - constructor.
  - constructor; [done|]. apply Forall_fmap, Forall_true. done.
  - by repeat constructor.
Defined.

(** A full store answers [OK] and drops the key. *)
Lemma kv_full_store_drops k v m : m !! k = None → size m = KvStore.MAX_ITEMS →
  answers [Set_ k v; Get k] m = (KvServer.line "OK" ++ KvServer.line "NOTFOUND", m).
Proof.
  intros Hk Hs. cbn [answers answer]. unfold KvSpec.set. rewrite Hk, Hs. rewrite bool_decide_eq_false_2 by (by intros [? ?]). cbn [orb]. rewrite Nat.ltb_irrefl.
  by rewrite Hk, app_nil_r.
Qed.

Definition sent_of {S} (r : res (text * S)) : option text := match r with Ok (t, _) => Some t | UB _ => None end.

(** A line of more than 1023 bytes is taken for several commands. *)
Example kv_long_line :
  sent_of (KvServer.uds_serve (Byte <$> (chars "GET " ++ replicate 1019 (Ascii.ascii_of_nat 97) ++ chars "EXIT" ++ [newline])) [] KvStore.init) =
    Some (KvServer.greeting ++ KvServer.line "NOTFOUND" ++ KvServer.line "BYE").
Proof. by vm_compute. Qed.

(** The threaded server takes one command from each [read]: requests that arrive
    one by one are answered, a second one in the same chunk is dropped. *)
Lemma perf_requests l s m :
  StoreSpec.repr s m → Forall request_ok l →
  ∃ s', PerfServer.client_handler (print <$> l) s = Ok (KvServer.greeting ++ (answers l m).1, s') ∧ StoreSpec.repr s' (answers l m).2.
Proof.
  assert (∀ l s m, StoreSpec.repr s m → Forall request_ok l →
    ∃ s', PerfServer.client_loop (print <$> l) s = Ok ((answers l m).1, s') ∧ StoreSpec.repr s' (answers l m).2) as H.
  { clear. intros l. induction l as [|r l IH]; intros s m Hr Hok; [by exists s|]. apply Forall_cons in Hok as [Hr1 Hok]. destruct (body_ok r Hr1) as (Hn & Hl & _).
    cbn [fmap list_fmap PerfServer.client_loop]. destruct (print r) as [|c t] eqn:E; [unfold print in E; by destruct (body r)|]. rewrite <- E. replace (KvServer.trim (print r)) with (body r) by (symmetry; by apply trim_line).
    destruct (command_request PerfServer.perf_ops StoreSpec.repr _ (λ v _, eq_refl) r s m Hr Hr1) as (s1 & -> & Hr2). unfold mbind at 1, res_bind at 1.
    cbn [answers]. destruct (answer r m) as [[reply m1] more]. cbn [fst snd] in *. destruct more; [|by exists s1].
    destruct (IH s1 m1 Hr2 Hok) as (s2 & -> & Hr3). destruct (answers l m1). by exists s2. }
  intros Hr Hok. destruct (H l s m Hr Hok) as (s' & Hs & Hr'). exists s'. unfold PerfServer.client_handler. by rewrite Hs.
Qed.

Example perf_pipelined_lost :
  sent_of (PerfServer.client_handler [print (Get (chars "a")) ++ print Exit] KvStore.init) = Some (KvServer.greeting ++ KvServer.line "NOTFOUND").
Proof. by vm_compute. Qed.
