(* ===== verification/SelectServers.v ===== *)
(** * Servers with [select]: chat and echo

    [SOCKET/KEY_VALUE_UDS/multiclient_chat_server.c] ([Chat]) and
    [NON_BLOCKING_IO/multi_client_echo_server_non_blocking_select.c] ([Echo]).
    One round of the main loop is a function of what [select], [accept] and
    [read] deliver in it: the connection that is waiting, if any, and for every
    readable socket the result of its [read].  What is sent is a list of sockets
    with their bytes; [send] is taken to succeed. *)
From stdpp Require Import base list gmap strings.
From Stdlib Require Import ZArith Lia.
From Stdlib Require Ascii String.
From S2P Require Import Prelude WriteAheadLog SocketServers.
Import Stdio SocketIO.
Local Open Scope Z_scope.

(** [accept] and [read]. *)
Inductive accept_result : Set := NewSocket (fd : Z) | AcceptError | AcceptWouldBlock.
Inductive read_result : Set := Data (bs : text) | Closed | ReadError | ReadWouldBlock.

(** A round in which [select] does not fail. *)
Record activity : Set := mkactivity { connection : option accept_result; readable : gmap Z read_result }.

(** [FD_ISSET(sd, &readfds)] with what [read] will return: only the sockets in
    the array before the round are in the set. *)
Definition fd_isset (before : list Z) (a : activity) (sd : Z) : option read_result :=
  if (0 <? sd) && bool_decide (sd ∈ before) then readable a !! sd else None.

(** The first free place in the array gets the new socket. *)
Fixpoint add_client (fd : Z) (l : list Z) : list Z :=
  match l with
  | [] => []
  | s :: l => if s =? 0 then fd :: l else s :: add_client fd l
  end.

(** ** The chat server *)
Module Chat.

Definition MAX_CLIENTS : nat := 10.
Definition BUF_SIZE : nat := 1024.

Definition init : list Z := replicate MAX_CLIENTS 0.

Definition welcome : text := chars ("Welcome to the chat!" +:+ nl)%string.

(** [for (j = 0; j < MAX_CLIENTS; j++)]: to all others. *)
Definition broadcast (client_socket : list Z) (sd : Z) (msg : text) : list (Z * text) :=
  client_socket ≫= λ s, if negb (s =? 0) && negb (s =? sd) then [(s, msg)] else [].

(** The body of the second loop; [buffer[valread] = 0] is outside the buffer when
    it is full and when [read] has failed. *)
Definition handle_client (isset : Z → option read_result) (i : nat) (client_socket : list Z) : res (list Z * list (Z * text)) :=
  sd ← aget client_socket (Z.of_nat i);
  match isset sd with
  | None => Ok (client_socket, [])
  | Some Closed => Ok (<[i := 0]> client_socket, [])
  | Some (Data bs) =>
      if (length bs <? BUF_SIZE)%nat then Ok (client_socket, broadcast client_socket sd (c_string bs)) else UB OutOfBounds
  | Some ReadError | Some ReadWouldBlock => UB OutOfBounds
  end.

Fixpoint handle_clients (isset : Z → option read_result) (l : list nat) (client_socket : list Z) : res (list Z * list (Z * text)) :=
  match l with
  | [] => Ok (client_socket, [])
  | i :: l =>
      '(client_socket, sent) ← handle_client isset i client_socket;
      '(client_socket, rest) ← handle_clients isset l client_socket;
      Ok (client_socket, sent ++ rest)
  end.

(** A round of [while (1)]; [None]: the program exits because [accept] failed. *)
Definition round (a : activity) (client_socket : list Z) : res (option (list Z * list (Z * text))) :=
  let isset := fd_isset client_socket a in
  match connection a with
  | Some AcceptError | Some AcceptWouldBlock => Ok None
  | Some (NewSocket fd) =>
      '(client_socket, sent) ← handle_clients isset (seq 0 MAX_CLIENTS) (add_client fd client_socket);
      Ok (Some (client_socket, (fd, welcome) :: sent))
  | None =>
      r ← handle_clients isset (seq 0 MAX_CLIENTS) client_socket;
      Ok (Some r)
  end.

End Chat.

(** ** The echo server *)
Module Echo.

Definition MAX_CLIENTS : nat := 1024.
Definition BUFFER_SIZE : nat := 1024.

Definition init : list Z := replicate MAX_CLIENTS 0.

(** The body of the loop over the clients; [printf("%s", buffer)] needs a NUL in
    the buffer, which was cleared before. *)
Definition handle_client (isset : Z → option read_result) (i : nat) (client_socket : list Z) : res (list Z * list (Z * text)) :=
  sd ← aget client_socket (Z.of_nat i);
  match (if 0 <? sd then isset sd else None) with
  | None | Some ReadWouldBlock => Ok (client_socket, [])
  | Some Closed | Some ReadError => Ok (<[i := 0]> client_socket, [])
  | Some (Data bs) =>
      if (length bs <? BUFFER_SIZE)%nat || bool_decide (nul ∈ bs) then Ok (client_socket, [(sd, bs)]) else UB OutOfBounds
  end.

Fixpoint handle_clients (isset : Z → option read_result) (l : list nat) (client_socket : list Z) : res (list Z * list (Z * text)) :=
  match l with
  | [] => Ok (client_socket, [])
  | i :: l =>
      '(client_socket, sent) ← handle_client isset i client_socket;
      '(client_socket, rest) ← handle_clients isset l client_socket;
      Ok (client_socket, sent ++ rest)
  end.

Definition round (a : activity) (client_socket : list Z) : res (list Z * list (Z * text)) :=
  let isset := fd_isset client_socket a in
  let client_socket := match connection a with Some (NewSocket fd) => add_client fd client_socket | _ => client_socket end in
  handle_clients isset (seq 0 MAX_CLIENTS) client_socket.

End Echo.

Module SelectSpec.

(** The connected sockets, and that each is in one place. *)
Definition members (l : list Z) : list Z := filter (λ s, s ≠ 0) l.
Definition sockets_ok (l : list Z) : Prop := NoDup (members l) ∧ Forall (λ s, 0 ≤ s) l.

(** What one socket is sent. *)
Definition sent_to (f : Z) (l : list (Z * text)) : text := l ≫= λ p, if p.1 =? f then p.2 else [].

(** What happens to a socket that is done. *)
Definition leave (isset : Z → option read_result) (s : Z) : Z :=
  match isset s with Some Closed => 0 | _ => s end.

(** The chat message of a socket in this round, as another one receives it. *)
Definition message (isset : Z → option read_result) (f g : Z) : text :=
  match isset g with Some (Data bs) => if g =? f then [] else c_string bs | _ => [] end.

Lemma sent_to_app f a b : sent_to f (a ++ b) = sent_to f a ++ sent_to f b.
Proof. apply bind_app. Qed.

Lemma broadcast_sent f l sd msg :
  sockets_ok l → f ≠ 0 → f ∈ l → sent_to f (Chat.broadcast l sd msg) = if f =? sd then [] else msg.
Proof.
  intros [Hn _] Hf. unfold Chat.broadcast. induction l as [|s l IH]; [by intros ?%not_elem_of_nil|].
  assert (f ∉ l → sent_to f (l ≫= λ s, if negb (s =? 0) && negb (s =? sd) then [(s, msg)] else []) = []) as Hnot.
  { clear. intros Hn. induction l as [|s l IH]; [done|]. apply not_elem_of_cons in Hn as [Hs Hn]. rewrite bind_cons, sent_to_app, (IH Hn), app_nil_r.
    destruct (negb (s =? 0) && negb (s =? sd)); [|done]. cbn. by rewrite (proj2 (Z.eqb_neq s f)). }
  intros Hin. rewrite bind_cons, sent_to_app. unfold members in *. rewrite filter_cons in Hn. destruct (decide (s = f)) as [->|Hs].
  - rewrite decide_True in Hn by done. apply NoDup_cons in Hn as [Hn _].
    rewrite Hnot, app_nil_r by (intros ?; by apply Hn, list_elem_of_filter). rewrite (proj2 (Z.eqb_neq f 0) Hf). cbn [negb andb].
    destruct (Z.eqb_spec f sd); cbn; [done|]. by rewrite Z.eqb_refl, app_nil_r.
  - apply elem_of_cons in Hin as [?|Hin]; [done|]. rewrite IH; [|by destruct (decide (s ≠ 0)); [apply NoDup_cons in Hn as [_ Hn]|]|done].
    destruct (negb (s =? 0) && negb (s =? sd)); [|done]. cbn. by rewrite (proj2 (Z.eqb_neq s f) Hs).
Qed.

Lemma members_middle a x b : members (a ++ x :: b) = members a ++ (if decide (x ≠ 0) then [x] else []) ++ members b.
Proof. unfold members. rewrite filter_app, filter_cons. by destruct (decide (x ≠ 0)). Qed.

(** Freeing a place, and taking a free one. *)
Lemma sockets_ok_free a x b : sockets_ok (a ++ x :: b) → sockets_ok (a ++ 0 :: b).
Proof.
  intros [Hn Hp]. split.
  - rewrite members_middle in *. rewrite (decide_False (P := 0 ≠ 0)) by (by intros []). cbn [app].
    apply NoDup_app in Hn as (H1 & H2 & H3). apply NoDup_app in H3 as (_ & _ & H3). apply NoDup_app. split_and!; [done| |done].
    intros y Hy Hb. apply (H2 y Hy). apply elem_of_app. by right.
  - apply Forall_app in Hp as [H1 H2]. apply Forall_app. split; [done|]. apply Forall_cons in H2 as [_ H2]. by constructor.
Qed.

Lemma sockets_ok_take a x b : sockets_ok (a ++ 0 :: b) → 0 < x → (x ∉ a ++ b) → sockets_ok (a ++ x :: b).
Proof.
  intros [Hn Hp] Hx Hnew. apply not_elem_of_app in Hnew as [Ha Hb]. split.
  - rewrite members_middle in *. rewrite (decide_False (P := 0 ≠ 0)) in Hn by (by intros []). rewrite decide_True by lia. cbn [app] in *.
    apply NoDup_app in Hn as (H1 & H2 & H3). apply NoDup_app. split_and!; [done| |].
    + intros y Hy [->|Hy2]%elem_of_cons; [by apply Ha; apply list_elem_of_filter in Hy as [_ Hy]|by apply (H2 y)].
    + apply NoDup_cons. split; [|done]. intros Hy. by apply Hb; apply list_elem_of_filter in Hy as [_ Hy].
  - apply Forall_app in Hp as [H1 [_ H2]%Forall_cons]. apply Forall_app. split; [done|]. constructor; [lia|done].
Qed.

Lemma leave_sockets_ok isset a x b : sockets_ok (a ++ x :: b) → sockets_ok (a ++ leave isset x :: b).
Proof. intros H. unfold leave. repeat case_match; try done. by eapply sockets_ok_free. Qed.

Lemma add_client_free fd l : 0 ∈ l → ∃ a b, l = a ++ 0 :: b ∧ add_client fd l = a ++ fd :: b.
Proof.
  induction l as [|s l IH]; [by intros ?%not_elem_of_nil|]. intros Hin. cbn. destruct (Z.eqb_spec s 0) as [->|Hs]; [by exists [], l|].
  apply elem_of_cons in Hin as [?|Hin]; [done|]. destruct (IH Hin) as (a & b & -> & ->). by exists (s :: a), b.
Qed.

Lemma add_client_full fd l : (0 ∉ l) → add_client fd l = l.
Proof. induction l as [|s l IH]; [done|]. intros [Hs Hl]%not_elem_of_cons. cbn. rewrite (proj2 (Z.eqb_neq s 0)) by done. by rewrite IH. Qed.

(** What a chat client may send. *)
Definition short (r : option read_result) : Prop :=
  match r with Some (Data bs) => (length bs < Chat.BUF_SIZE)%nat | Some ReadError | Some ReadWouldBlock => False | _ => True end.

Lemma handle_client_ok isset a x b :
  sockets_ok (a ++ x :: b) → isset 0 = None → short (isset x) →
  ∃ sent, Chat.handle_client isset (length a) (a ++ x :: b) = Ok (a ++ leave isset x :: b, sent) ∧
    ∀ f, f ≠ 0 → f ∈ a ++ leave isset x :: b → sent_to f sent = message isset f x.
Proof.
  intros Hs H0 Hx. unfold Chat.handle_client. rewrite (aget_lookup _ _ x) by (by rewrite lookup_app_r, Nat.sub_diag by lia). unfold mbind, res_bind.
  unfold leave, message, short in *. destruct (isset x) as [[bs| | |]|] eqn:E; try done; [| |by exists []].
  - destruct (Nat.ltb_spec (length bs) Chat.BUF_SIZE); [|lia]. eexists. split; [done|]. intros f Hf Hin. rewrite broadcast_sent by done. by rewrite Z.eqb_sym.
  - exists []. split; [|done]. by rewrite insert_app_r_alt, Nat.sub_diag by lia.
Qed.

Lemma handle_clients_ok isset rest done :
  sockets_ok (done ++ rest) → isset 0 = None → (∀ s, s ∈ rest → short (isset s)) →
  ∃ sent, Chat.handle_clients isset (seq (length done) (length rest)) (done ++ rest) = Ok (done ++ (leave isset <$> rest), sent) ∧
    sockets_ok (done ++ (leave isset <$> rest)) ∧
    ∀ f, f ≠ 0 → f ∈ done ++ (leave isset <$> rest) → sent_to f sent = rest ≫= message isset f.
Proof.
  revert done. induction rest as [|x rest IH]; intros done Hs H0 Hr; [by exists []|]. cbn [length seq Chat.handle_clients].
  destruct (handle_client_ok isset done x rest Hs H0) as (sent & -> & Hsent); [apply Hr, elem_of_cons; by left|]. unfold mbind at 1, res_bind at 1.
  destruct (IH (done ++ [leave isset x])) as (more & Hm & Hs' & Hmore).
  - rewrite <- app_assoc. by apply leave_sockets_ok.
  - done.
  - intros s Hin. apply Hr, elem_of_cons. by right.
  - rewrite length_app, <- !app_assoc in *. cbn [app length] in *. rewrite Nat.add_1_r in Hm. rewrite Hm. exists (sent ++ more). split; [done|]. split; [done|].
    intros f Hf Hin. rewrite sent_to_app, Hmore by done. rewrite bind_cons. f_equal. apply Hsent; [done|].
    apply elem_of_app in Hin as [Hin|Hin]; [apply elem_of_app; by left|]. apply elem_of_app. right.
    cbn in Hin. apply elem_of_cons in Hin as [->|Hin]; [apply elem_of_cons; by left|]. apply elem_of_cons. right.
    apply list_elem_of_fmap in Hin as (y & -> & Hy). unfold leave in Hf |- *. by repeat case_match.
Qed.

End SelectSpec.

(** ** Theorems *)
Import SelectSpec.

(** The greeting of a new client. *)
Definition welcomed (a : activity) (f : Z) : text :=
  match connection a with Some (NewSocket fd) => if fd =? f then Chat.welcome else [] | _ => [] end.

(** C29: a round of the chat server.  When no message fills the buffer, no read
    fails and a new client finds a free place, the members afterwards are those
    before, less the ones that closed their connection, and the new client; each
    of them is sent its welcome if it is new and then, in the order of the places,
    the messages of all others and none of its own. *)
Theorem chat_delivers a l :
  sockets_ok l → length l = Chat.MAX_CLIENTS → (∀ s, short (readable a !! s)) →
  (connection a = None ∨ ∃ fd, connection a = Some (NewSocket fd) ∧ 0 < fd ∧ (fd ∉ l) ∧ 0 ∈ l) →
  ∃ l' sent, Chat.round a l = Ok (Some (l', sent)) ∧ sockets_ok l' ∧ length l' = Chat.MAX_CLIENTS ∧
    (∀ f, f ≠ 0 → f ∈ l' ↔ (f ∈ l ∧ fd_isset l a f ≠ Some Closed) ∨ connection a = Some (NewSocket f)) ∧
    (∀ f, f ≠ 0 → f ∈ l' → sent_to f sent = welcomed a f ++ (l ≫= message (fd_isset l a) f)).
Proof.
  intros Hs Hl Hshort Hconn. set (isset := fd_isset l a).
  assert (isset 0 = None) as H0 by done.
  assert (∀ s, short (isset s)) as Hsh by (intros s; unfold isset, fd_isset; by case_match).
  assert (∀ (m : list Z) f, f ≠ 0 → (f ∈ leave isset <$> m) ↔ f ∈ m ∧ isset f ≠ Some Closed) as Hleave.
  { intros m f Hf. rewrite list_elem_of_fmap. unfold leave. split.
    - intros (y & E & Hy). destruct (isset y) as [[]|] eqn:Ey; subst f; try done; (split; [done|congruence]).
    - intros [Hin Hc]. exists f. split; [|done]. by destruct (isset f) as [[]|]. }
  unfold Chat.round. fold isset. unfold welcomed. destruct Hconn as [->|(fd & -> & Hfd & Hnew & Hfree)].
  - destruct (handle_clients_ok isset l [] Hs H0 (λ s _, Hsh s)) as (sent & Hm & Hs' & Hsent). cbn [app length] in *. rewrite Hl in Hm. rewrite Hm.
    exists (leave isset <$> l), sent. split_and!; [done..|by rewrite length_fmap| |done]. intros f Hf. rewrite Hleave by done. naive_solver.
  - destruct (add_client_free fd l Hfree) as (b1 & b2 & E & Eadd). assert (isset fd = None) as Hfd0.
    { unfold isset, fd_isset. rewrite bool_decide_eq_false_2 by done. by rewrite andb_false_r. }
    assert (∀ g, l ≫= message isset g = add_client fd l ≫= message isset g) as Hmsg.
    { intros g. rewrite Eadd. rewrite E at 1. rewrite !bind_app, !bind_cons. unfold message at 2 5. by rewrite H0, Hfd0. }
    assert (length (add_client fd l) = Chat.MAX_CLIENTS) as Hl2 by (by rewrite Eadd, <- Hl, E, !length_app).
    destruct (handle_clients_ok isset (add_client fd l) []) as (sent & Hm & Hs' & Hsent); [|done|done|].
    { cbn [app]. rewrite Eadd. rewrite E in Hs, Hnew. apply sockets_ok_take; [done..|]. set_solver. }
    cbn [app length] in *. rewrite Hl2 in Hm. rewrite Hm. exists (leave isset <$> add_client fd l), ((fd, Chat.welcome) :: sent).
    split_and!; [done..|by rewrite length_fmap| |].
    + intros f Hf. rewrite Hleave by done. rewrite Eadd. rewrite E at 1. split.
      * intros [Hin Hc]. rewrite elem_of_app, elem_of_cons in *. destruct Hin as [?|[->|?]]; [left|by right|left]; (split; [|done]); set_solver.
      * intros [[Hin Hc]|[= ->]]; [split; [set_solver|done]|]. split; [set_solver|]. by rewrite Hfd0.
    + intros f Hf Hin. unfold sent_to. rewrite bind_cons. cbn [fst snd]. rewrite Hmsg. fold (sent_to f sent). by rewrite Hsent.
Qed.

Definition two_members : list Z := [4; 5; 0; 0; 0; 0; 0; 0; 0; 0].
Definition hello_round : activity := mkactivity (Some (NewSocket 6)) {[ 4 := Data (chars "hello"); 5 := Closed ]}.

Lemma chat_delivers_witness :
  ∃ l' sent, Chat.round hello_round two_members = Ok (Some (l', sent)) ∧ sockets_ok l' ∧ length l' = Chat.MAX_CLIENTS ∧
    (∀ f, f ≠ 0 → f ∈ l' ↔ (f ∈ two_members ∧ fd_isset two_members hello_round f ≠ Some Closed) ∨ connection hello_round = Some (NewSocket f)) ∧
    (∀ f, f ≠ 0 → f ∈ l' → sent_to f sent = welcomed hello_round f ++ (two_members ≫= message (fd_isset two_members hello_round) f)).
Proof.
  apply (chat_delivers hello_round two_members); [|done| |].
  - split; [change (members two_members) with [4; 5]; repeat (apply NoDup_cons; split; [set_solver|]); apply NoDup_nil_2|].
    unfold two_members. repeat (apply Forall_cons; split; [lia|]). apply Forall_nil_2.
  - intros s. unfold hello_round. cbn [readable]. destruct (decide (s = 4)) as [->|H4]; [rewrite lookup_insert_eq; by apply Nat.ltb_lt|]. rewrite lookup_insert_ne by done.
    destruct (decide (s = 5)) as [->|H5]; [done|]. by rewrite lookup_singleton_ne.
  - right. exists 6. split_and!; [done|lia|unfold two_members; set_solver|unfold two_members; set_solver].
Defined.

(** The eleventh client is welcomed and never served. *)
Lemma chat_full fd a l l' sent :
  connection a = Some (NewSocket fd) → (0 ∉ l) → (fd ∉ l) → fd ≠ 0 → Chat.round a l = Ok (Some (l', sent)) → fd ∉ l'.
Proof.
  intros Hc H0 Hfd Hne. unfold Chat.round. rewrite Hc, add_client_full by done.
  assert (∀ isset idx cs cs' out, (fd ∉ cs) → Chat.handle_clients isset idx cs = Ok (cs', out) → fd ∉ cs') as H.
  { intros isset idx. induction idx as [|i idx IH]; intros cs cs' out Hcs; cbn [Chat.handle_clients]; [by intros [= <- _]|].
    destruct (Chat.handle_client isset i cs) as [[c1 s1]|] eqn:E1; cbn; [|done]. destruct (Chat.handle_clients isset idx c1) as [[c2 s2]|] eqn:E2; cbn; [|done].
    intros [= <- _]. eapply IH; [|exact E2]. clear -E1 Hcs Hne. unfold Chat.handle_client, mbind, res_bind in E1. destruct (aget cs (Z.of_nat i)); [|done].
    destruct (isset _) as [[]|]; try case_match; simplify_eq; try done. intros Hin. apply list_elem_of_lookup in Hin as (j & Hj).
    apply list_lookup_insert_Some in Hj as [(_ & Hj & _)|[_ Hj]]; [done|]. apply Hcs. by eapply list_elem_of_lookup_2. }
  destruct (Chat.handle_clients _ _ l) as [[cs out]|] eqn:E; cbn; [|done]. intros [= <- _]. by eapply H.
Qed.

(** A message of 1024 bytes, or a read that fails, writes outside the buffer. *)
Lemma chat_overrun bs :
  length bs = Chat.BUF_SIZE →
  Chat.round (mkactivity None {[ 4 := Data bs ]}) two_members = UB OutOfBounds ∧ Chat.round (mkactivity None {[ 4 := ReadError ]}) two_members = UB OutOfBounds.
Proof.
  intros Hl. split; [|by vm_compute]. unfold Chat.round. cbn [connection]. change (seq 0 Chat.MAX_CLIENTS) with (0%nat :: seq 1 9). cbn [Chat.handle_clients].
  assert (fd_isset two_members (mkactivity None {[ 4 := Data bs ]}) 4 = Some (Data bs)) as E by (unfold fd_isset; cbn [readable]; by rewrite lookup_singleton_eq).
  unfold Chat.handle_client at 1. change (aget two_members (Z.of_nat 0)) with (Ok 4). unfold mbind, res_bind. by rewrite E, Hl, Nat.ltb_irrefl.
Qed.

(** The echo server sends back what it reads; its message to the terminal needs a
    NUL in the full buffer. *)
Lemma echo_returns isset a x b bs :
  0 < x → isset x = Some (Data bs) → (length bs < Echo.BUFFER_SIZE)%nat ∨ nul ∈ bs →
  Echo.handle_client isset (length a) (a ++ x :: b) = Ok (a ++ x :: b, [(x, bs)]).
Proof.
  intros Hx Hi Hb. unfold Echo.handle_client. rewrite (aget_lookup _ _ x) by (by rewrite lookup_app_r, Nat.sub_diag by lia). unfold mbind, res_bind.
  rewrite (proj2 (Z.ltb_lt 0 x) Hx), Hi. destruct Hb as [Hb|Hb].
  - by rewrite (proj2 (Nat.ltb_lt _ _) Hb).
  - by rewrite (bool_decide_eq_true_2 _ Hb), orb_true_r.
Qed.

Lemma echo_overrun isset a x b bs :
  0 < x → isset x = Some (Data bs) → length bs = Echo.BUFFER_SIZE → (nul ∉ bs) → Echo.handle_client isset (length a) (a ++ x :: b) = UB OutOfBounds.
Proof.
  intros Hx Hi Hl Hb. unfold Echo.handle_client. rewrite (aget_lookup _ _ x) by (by rewrite lookup_app_r, Nat.sub_diag by lia). unfold mbind, res_bind.
  rewrite (proj2 (Z.ltb_lt 0 x) Hx), Hi, Hl, Nat.ltb_irrefl. by rewrite (bool_decide_eq_false_2 _ Hb).
Qed.
