(* ===== verification/RequestQueue.v ===== *)
(** * The request queue: [Posix-Thread/pthread_db.c]

    Clients put requests into a ring of eight under a mutex, workers take them
    out, and [main] sends every worker a shutdown token once the clients have
    finished.  As in [BoundedBuffer] a step is the stretch of code between taking
    a mutex and giving it back, whom [pthread_cond_signal] wakes is part of the
    step, and a wait may return without a signal.  What a thread prints before its
    next step is recorded with the step; the pauses take no time.  [QueueSpec] shows that every
    request is processed exactly once and that the program always ends. *)
From stdpp Require Import base list relations strings pretty.
From Stdlib Require Import ZArith Lia.
From S2P Require Import Prelude BoundedBuffer.

Module RequestQueue.

Definition QUEUE_SIZE : nat := 8.
Definition MAX_CLIENTS : nat := 3.
Definition WORKER_COUNT : nat := 4.
Definition REQUESTS_PER_CLIENT : nat := 5.

Record request_t : Set := mkrequest { id : Z; text : string }.

#[export] Instance request_eq_dec : EqDecision request_t.
Proof. solve_decision. Defined.

(** The threads that enqueue.  A client: before it takes an id for request [it],
    before [enqueue], waiting in it (signalled or not), returned.  [main]: joining
    the clients, before the [k]th token, waiting with it, joining the workers,
    returned. *)
Inductive producer : Set :=
  | TakeId (it : nat) | Enqueue (it : nat) (r : request_t) | ClientWaits (it : nat) (r : request_t) (woken : bool) | Finished
  | JoinClients | Token (k : nat) | MainWaits (k : nat) (woken : bool) | JoinWorkers | Returned.

(** A worker: before [dequeue], waiting in it, returned. *)
Inductive worker : Set := Dequeue | WorkerWaits (woken : bool) | Exited.

#[export] Instance producer_eq_dec : EqDecision producer.
Proof. solve_decision. Defined.
#[export] Instance worker_eq_dec : EqDecision worker.
Proof. solve_decision. Defined.

(** The shared variables, the threads ([main] is the last of the producers) and
    the text printed; [entered] and [taken] record what went through the queue. *)
Record config : Set := mkconfig {
  queue : list request_t; q_head : nat; q_tail : nat; q_count : nat; next_request_id : Z;
  producers : list producer; workers : list worker; out : list string;
  entered : list request_t; taken : list request_t }.

Definition asleep_p (p : producer) : bool := match p with ClientWaits _ _ false | MainWaits _ false => true | _ => false end.
Definition wake_p (p : producer) : producer :=
  match p with ClientWaits it r _ => ClientWaits it r true | MainWaits k _ => MainWaits k true | _ => p end.
Definition asleep_w (w : worker) : bool := match w with WorkerWaits false => true | _ => false end.
Definition wake_w (w : worker) : worker := match w with WorkerWaits _ => WorkerWaits true | _ => w end.

Definition set_producer (t : nat) (p : producer) (lines : list string) (c : config) : config :=
  mkconfig (queue c) (q_head c) (q_tail c) (q_count c) (next_request_id c) (<[t := p]> (producers c)) (workers c) (out c ++ lines) (entered c) (taken c).

Definition set_worker (t : nat) (w : worker) (lines : list string) (c : config) : config :=
  mkconfig (queue c) (q_head c) (q_tail c) (q_count c) (next_request_id c) (producers c) (<[t := w]> (workers c)) (out c ++ lines) (entered c) (taken c).

Definition line (s : string) : string := (s +:+ nl)%string.

(** [enqueue] with the mutex: the thread waits, or goes on behind the call; its
    signal wakes worker [j]. *)
Definition enqueue (t j : nat) (r : request_t) (waits goes_on : producer) (lines : list string) (c : config) : option config :=
  if q_count c =? QUEUE_SIZE then
    Some (set_producer t waits [line "Queue is full (enqueue) - producer is waiting "] c)
  else
    ws ← Buffer.signal asleep_w wake_w j (workers c);
    Some (mkconfig (<[q_tail c := r]> (queue c)) (q_head c) ((q_tail c + 1) mod QUEUE_SIZE) (q_count c + 1) (next_request_id c)
      (<[t := goes_on]> (producers c)) ws (out c ++ lines) (entered c ++ [r]) (taken c)).

Definition numbered (before : string) (n : Z) (after : string) : string := (before +:+ d n +:+ after)%string.

(** What a worker does with a request. *)
Definition process (t : nat) (r : request_t) : list string :=
  let me := numbered "[worker " (Z.of_nat (t + 1)) "] " in
  if (id r =? -1)%Z then [line (me +:+ "received shutdown signal, exiting... ")]
  else [line (me +:+ numbered "processing request id = " (id r) (" text = " +:+ dquote +:+ text r +:+ dquote +:+ " "));
        line (me +:+ numbered "done request id = " (id r) " ")].

(** [dequeue] with the mutex, and what follows it; its signal wakes producer [j]. *)
Definition dequeue (t j : nat) (c : config) : option config :=
  if q_count c =? 0 then
    Some (set_worker t (WorkerWaits false) [line "Queue is empty (dequeue) - consumer is waiting "] c)
  else
    r ← queue c !! q_head c;
    ps ← Buffer.signal asleep_p wake_p j (producers c);
    Some (mkconfig (queue c) ((q_head c + 1) mod QUEUE_SIZE) (q_tail c) (q_count c - 1) (next_request_id c)
      ps (<[t := if (id r =? -1)%Z then Exited else Dequeue]> (workers c)) (out c ++ process t r) (entered c) (taken c ++ [r])).

Definition client_line (t : nat) (s : string) : string := line (numbered "[client " (Z.of_nat (t + 1)) "] " +:+ s).

(** [snprintf(req.text, MAX_TEXT, "Client %d request #%d", ...)]: it always fits. *)
Definition request_text (t it : nat) : string := (numbered "Client " (Z.of_nat (t + 1)) "" +:+ numbered " request #" (Z.of_nat (it + 1)) "")%string.

Definition token : request_t := mkrequest (-1) EmptyString.

Definition client_done (p : producer) : bool :=
  match p with TakeId _ | Enqueue _ _ | ClientWaits _ _ _ => false | _ => true end.

(** A thread that enqueues. *)
Definition producer_step (t j : nat) (p : producer) (c : config) : option config :=
  let behind := [client_line t "finished producing.. "] in
  match p with
  | TakeId it =>
      if it <? REQUESTS_PER_CLIENT then
        let r := mkrequest (next_request_id c) (request_text t it) in
        Some (mkconfig (queue c) (q_head c) (q_tail c) (q_count c) (next_request_id c + 1)%Z (<[t := Enqueue it r]> (producers c)) (workers c)
          (out c ++ [client_line t (numbered "producing request id = " (next_request_id c) " ")]) (entered c) (taken c))
      else Some (set_producer t Finished [] c)
  | Enqueue it r | ClientWaits it r true => enqueue t j r (ClientWaits it r false) (TakeId (it + 1)) behind c
  | JoinClients =>
      if forallb client_done (producers c) then
        Some (set_producer t (Token 0) [line "[main] all clients finished - sending shutdown signals to the workers "] c)
      else None
  | Token k =>
      if k <? WORKER_COUNT then enqueue t j token (MainWaits k false) (Token (k + 1)) [] c
      else Some (set_producer t JoinWorkers [] c)
  | MainWaits k true => enqueue t j token (MainWaits k false) (Token (k + 1)) [] c
  | JoinWorkers =>
      if forallb (λ w, bool_decide (w = Exited)) (workers c) then
        Some (set_producer t Returned [line "[main] all workers exited - terminating the program "] c)
      else None
  | ClientWaits _ _ false | Finished | MainWaits _ false | Returned => None
  end.

Definition worker_step (t j : nat) (w : worker) (c : config) : option config :=
  match w with Dequeue | WorkerWaits true => dequeue t j c | WorkerWaits false | Exited => None end.

(** Who runs next, and whom its signal wakes; or a wait that returns by itself. *)
Inductive action : Set := Producer (t j : nat) | Worker (t j : nat) | SpuriousProducer (t : nat) | SpuriousWorker (t : nat).

Definition act (a : action) (c : config) : option config :=
  match a with
  | Producer t j => p ← producers c !! t; producer_step t j p c
  | Worker t j => w ← workers c !! t; worker_step t j w c
  | SpuriousProducer t =>
      p ← producers c !! t; if asleep_p p then Some (set_producer t (wake_p p) [] c) else None
  | SpuriousWorker t =>
      w ← workers c !! t; if asleep_w w then Some (set_worker t (wake_w w) [] c) else None
  end.

(** Workers are created first, then the clients. *)
Definition start : config :=
  mkconfig (replicate QUEUE_SIZE (mkrequest 0 EmptyString)) 0 0 0 1 (replicate MAX_CLIENTS (TakeId 0) ++ [JoinClients])
    (replicate WORKER_COUNT Dequeue) [] [] [].

Fixpoint run (l : list action) (c : config) : option config :=
  match l with [] => Some c | a :: l => match act a c with Some c' => run l c' | None => None end end.

End RequestQueue.

Module QueueSpec.
Import RequestQueue.

#[local] Arguments Nat.modulo : simpl never.
#[local] Arguments Nat.leb : simpl never.
#[local] Arguments Nat.ltb : simpl never.
#[local] Arguments Nat.eqb : simpl never.
#[local] Arguments Nat.sub : simpl never.
#[local] Arguments Nat.mul : simpl never.

Abbreviation Σ f l := (sum_list_with f l).

(** *** The ring *)

Abbreviation ring := (Prelude.ring token QUEUE_SIZE).

Record ring_ok (c : config) : Prop := mkring {
  ring_length : length (queue c) = QUEUE_SIZE;
  ring_head : q_head c < QUEUE_SIZE;
  ring_count : q_count c ≤ QUEUE_SIZE;
  ring_tail : q_tail c = (q_head c + q_count c) mod QUEUE_SIZE;
  ring_fifo : entered c = taken c ++ ring (queue c) (q_head c) (q_count c) }.

(** *** Sleepers *)

Definition awake_p (p : producer) : bool := match p with ClientWaits _ _ true | MainWaits _ true => true | _ => false end.
Definition awake_w (w : worker) : bool := match w with WorkerWaits true => true | _ => false end.

(** A sleeping worker means that a woken one comes for every request; a sleeping
    producer, that one comes for every free place. *)
Record sleep_ok (c : config) : Prop := mksleep {
  sleep_workers : 0 < Σ (Nat.b2n ∘ asleep_w) (workers c) → q_count c ≤ Σ (Nat.b2n ∘ awake_w) (workers c);
  sleep_producers : 0 < Σ (Nat.b2n ∘ asleep_p) (producers c) → QUEUE_SIZE - q_count c ≤ Σ (Nat.b2n ∘ awake_p) (producers c) }.

(** *** The ledger of ids, requests and tokens *)

Definition ids_taken (p : producer) : nat :=
  match p with TakeId it => it | Enqueue it _ | ClientWaits it _ _ => it + 1 | Finished => REQUESTS_PER_CLIENT | _ => 0 end.
Definition requests_put (p : producer) : nat :=
  match p with TakeId it | Enqueue it _ | ClientWaits it _ _ => it | Finished => REQUESTS_PER_CLIENT | _ => 0 end.
Definition tokens_put (p : producer) : nat :=
  match p with Token k | MainWaits k _ => k | JoinWorkers | Returned => WORKER_COUNT | _ => 0 end.
Definition pending (p : producer) : list request_t := match p with Enqueue _ r | ClientWaits _ r _ => [r] | _ => [] end.
Definition joined (p : producer) : nat := match p with Token _ | MainWaits _ _ | JoinWorkers | Returned => 1 | _ => 0 end.
Definition is_main (p : producer) : bool := match p with TakeId _ | Enqueue _ _ | ClientWaits _ _ _ | Finished => false | _ => true end.
Definition bounded (p : producer) : Prop :=
  match p with
  | TakeId it => it ≤ REQUESTS_PER_CLIENT | Enqueue it _ | ClientWaits it _ _ => it < REQUESTS_PER_CLIENT
  | Token k => k ≤ WORKER_COUNT | MainWaits k _ => k < WORKER_COUNT | _ => True
  end.
Definition exited (w : worker) : nat := match w with Exited => 1 | _ => 0 end.

Definition requests (l : list request_t) : list request_t := filter (λ r, id r ≠ (-1)%Z) l.
Definition tokens (l : list request_t) : list request_t := filter (λ r, id r = (-1)%Z) l.

Record ledger (c : config) : Prop := mkledger {
  led_producers : length (producers c) = MAX_CLIENTS + 1;
  led_workers : length (workers c) = WORKER_COUNT;
  led_main t p : producers c !! t = Some p → is_main p = (t =? MAX_CLIENTS);
  led_bound t p : producers c !! t = Some p → bounded p;
  led_next : next_request_id c = (1 + Z.of_nat (Σ ids_taken (producers c)))%Z;
  led_ids : (id <$> (producers c ≫= pending) ++ requests (entered c)) ≡ₚ seqZ 1 (Z.of_nat (Σ ids_taken (producers c)));
  led_order : ∃ reqs, entered c = reqs ++ replicate (Σ tokens_put (producers c)) token ∧ Forall (λ r, id r ≠ (-1)%Z) reqs ∧ length reqs = Σ requests_put (producers c);
  led_joined : 0 < Σ joined (producers c) → ∀ t p, producers c !! t = Some p → client_done p = true;
  led_exited : Σ exited (workers c) = length (tokens (taken c));
  led_returned t : producers c !! t = Some Returned → Forall (λ w, w = Exited) (workers c) }.

(** *** Lists of threads *)

Lemma bind_insert {A B} (f : A → list B) (l : list A) t x y :
  l !! t = Some x → f x ++ (<[t := y]> l ≫= f) ≡ₚ f y ++ (l ≫= f).
Proof.
  intros Ht. rewrite <- (take_drop_middle l t x Ht) at 2. rewrite insert_take_drop by (by eapply lookup_lt_Some).
  rewrite !bind_app, !bind_cons. rewrite !(Permutation_app_swap_app (take t l ≫= f)). by rewrite Permutation_app_swap_app.
Qed.

Lemma bind_insert_same {A B} (f : A → list B) (l : list A) t x y : l !! t = Some x → f y = f x → <[t := y]> l ≫= f = l ≫= f.
Proof.
  intros Ht He. rewrite <- (take_drop_middle l t x Ht) at 2. rewrite insert_take_drop by (by eapply lookup_lt_Some).
  by rewrite !bind_app, !bind_cons, He.
Qed.

Lemma signal_bind {A B} (f : A → list B) (asleep : A → bool) wake j l l' :
  (∀ x, f (wake x) = f x) → Buffer.signal asleep wake j l = Some l' → l' ≫= f = l ≫= f.
Proof.
  intros Hf. unfold Buffer.signal. destruct (existsb asleep l); [|by intros [= <-]]. destruct (l !! j) as [x|] eqn:Hj; [|done].
  destruct (asleep x); [|done]. intros [= <-]. by eapply bind_insert_same.
Qed.

Lemma sum_signal {A} (f : A → nat) (asleep : A → bool) wake j l l' :
  (∀ x, f (wake x) = f x) → Buffer.signal asleep wake j l = Some l' → Σ f l' = Σ f l.
Proof.
  intros Hf. unfold Buffer.signal. destruct (existsb asleep l); [|by intros [= <-]]. destruct (l !! j) as [x|] eqn:Hj; [|done].
  destruct (asleep x); [|done]. intros [= <-]. pose proof (sum_with_insert f l j x (wake x) Hj). rewrite Hf in *. lia.
Qed.

Lemma sum_le {A} (f g : A → nat) (l : list A) : (∀ t x, l !! t = Some x → f x ≤ g x) → Σ f l ≤ Σ g l.
Proof.
  induction l as [|x l IH]; [done|]. intros H. cbn. pose proof (H 0 x eq_refl). assert (Σ f l ≤ Σ g l); [|lia]. apply IH. intros t y Ht. exact (H (S t) y Ht).
Qed.

Lemma sum_const {A} (f : A → nat) n (l : list A) : (∀ t x, l !! t = Some x → f x = n) → Σ f l = length l * n.
Proof.
  induction l as [|x l IH]; [done|]. intros H. cbn. rewrite (H 0 x eq_refl), IH; [done|]. intros t y Ht. exact (H (S t) y Ht).
Qed.

(** *** Steps keep the invariant *)

Record inv (c : config) : Prop := mkinv { inv_ring : ring_ok c; inv_sleep : sleep_ok c; inv_ledger : ledger c }.

Lemma queue_inv_start : inv start.
Proof.
  constructor; constructor; cbn; try done; try (unfold QUEUE_SIZE; lia).
  - intros t p Ht. do 4 (destruct t as [|t]; [by injection Ht as <-|]). done.
  - intros t p Ht. do 4 (destruct t as [|t]; [injection Ht as <-; unfold bounded; lia|]). done.
  - by exists [].
  - intros t Ht. do 4 (destruct t as [|t]; [done|]). done.
Qed.

(** A producer that moves without touching the queue. *)
Lemma set_producer_ledger t p p' lines c :
  ledger c → producers c !! t = Some p → ids_taken p' = ids_taken p → requests_put p' = requests_put p → tokens_put p' = tokens_put p → pending p' = pending p →
  is_main p' = is_main p → bounded p' → (client_done p = true → client_done p' = true) →
  (joined p' = joined p ∨ forallb client_done (producers c) = true) → (p' = Returned → Forall (λ w, w = Exited) (workers c)) →
  ledger (set_producer t p' lines c).
Proof.
  intros Hi Ht H1 H2 H3 H4 H5 H6 H7 H8 H9.
  assert (∀ f : producer → nat, f p' = f p → Σ f (<[t := p']> (producers c)) = Σ f (producers c)) as Hsum.
  { intros f Hf. pose proof (sum_with_insert f _ _ _ p' Ht). lia. }
  constructor; cbn [producers workers next_request_id entered taken set_producer]; rewrite ?Hsum by done; try apply Hi.
  - rewrite length_insert. apply Hi.
  - intros t' q Hq. apply list_lookup_insert_Some in Hq as [(<- & <- & _)|[_ Hq]]; [rewrite H5; by apply (led_main c Hi)|by apply (led_main c Hi)].
  - intros t' q Hq. apply list_lookup_insert_Some in Hq as [(<- & <- & _)|[_ Hq]]; [done|by eapply (led_bound c Hi)].
  - rewrite (bind_insert_same _ _ _ p) by done. apply Hi.
  - intros Hj t' q Hq. assert (∀ t q, producers c !! t = Some q → client_done q = true) as Hall.
    { destruct H8 as [H8|H8]; [rewrite Hsum in Hj by done; by apply (led_joined c Hi)|]. intros t0 q0 Hq0. rewrite forallb_forall in H8.
      apply H8, list_elem_of_In. by eapply list_elem_of_lookup_2. }
    apply list_lookup_insert_Some in Hq as [(<- & <- & _)|[_ Hq]]; [by eapply H7, Hall|by eapply Hall].
  - intros t' Hq. apply list_lookup_insert_Some in Hq as [(_ & Hq & _)|[_ Hq]]; [by apply H9|by eapply (led_returned c Hi)].
Qed.

Lemma set_producer_sleep t p p' lines c :
  sleep_ok c → producers c !! t = Some p → (q_count c = QUEUE_SIZE ∨ asleep_p p' = false ∧ (awake_p p = true → awake_p p' = true)) →
  sleep_ok (set_producer t p' lines c).
Proof.
  intros [H1 H2] Ht Hc. constructor; cbn [producers workers q_count set_producer]; [done|].
  pose proof (sum_with_insert (Nat.b2n ∘ asleep_p) _ _ _ p' Ht) as HA. pose proof (sum_with_insert (Nat.b2n ∘ awake_p) _ _ _ p' Ht) as HB. simpl in HA, HB.
  destruct Hc as [Hc|[Hc1 Hc2]]; [lia|]. rewrite Hc1 in HA. simpl in HA. intros Hs.
  assert (Nat.b2n (awake_p p) ≤ Nat.b2n (awake_p p')) by (destruct (awake_p p); [rewrite Hc2 by done; done|simpl; lia]). lia.
Qed.

Lemma set_producer_ring t p lines c : ring_ok c → ring_ok (set_producer t p lines c).
Proof. intros [H1 H2 H3 H4 H5]. by constructor. Qed.

Lemma set_producer_inv t p p' lines c :
  inv c → producers c !! t = Some p → ids_taken p' = ids_taken p → requests_put p' = requests_put p → tokens_put p' = tokens_put p → pending p' = pending p →
  is_main p' = is_main p → bounded p' → (client_done p = true → client_done p' = true) →
  (joined p' = joined p ∨ forallb client_done (producers c) = true) → (p' = Returned → Forall (λ w, w = Exited) (workers c)) →
  (q_count c = QUEUE_SIZE ∨ asleep_p p' = false ∧ (awake_p p = true → awake_p p' = true)) →
  inv (set_producer t p' lines c).
Proof.
  intros [Hr Hs Hl] Ht H1 H2 H3 H4 H5 H6 H7 H8 H9 H10.
  constructor; [by apply set_producer_ring|by eapply set_producer_sleep|by eapply set_producer_ledger].
Qed.

(** The ids in the ledger are positive. *)
Lemma pending_id c t p r : ledger c → producers c !! t = Some p → r ∈ pending p → (1 ≤ id r)%Z.
Proof.
  intros Hi Ht Hr. assert (id r ∈ seqZ 1 (Z.of_nat (Σ ids_taken (producers c)))) as H%elem_of_seqZ; [|lia].
  rewrite <- (led_ids c Hi). apply list_elem_of_fmap. exists r. split; [done|]. apply elem_of_app. left. apply list_elem_of_bind. exists p. split; [done|].
  by eapply list_elem_of_lookup_2.
Qed.

Lemma requests_snoc l r : requests (l ++ [r]) = requests l ++ (if decide (id r ≠ (-1)%Z) then [r] else []).
Proof. unfold requests. rewrite filter_app, filter_cons. by case_decide. Qed.

Lemma tokens_snoc l r : tokens (l ++ [r]) = tokens l ++ (if decide (id r = (-1)%Z) then [r] else []).
Proof. unfold tokens. rewrite filter_app, filter_cons. by case_decide. Qed.

(** Taking an id. *)
Lemma take_id_inv t it c :
  inv c → producers c !! t = Some (TakeId it) → it < REQUESTS_PER_CLIENT → ∀ lines s,
  inv (mkconfig (queue c) (q_head c) (q_tail c) (q_count c) (next_request_id c + 1)%Z (<[t := Enqueue it (mkrequest (next_request_id c) s)]> (producers c)) (workers c)
    (out c ++ lines) (entered c) (taken c)).
Proof.
  intros [Hr Hs Hi] Ht Hit lines s. set (r := mkrequest (next_request_id c) s).
  assert (∀ f : producer → nat, f (Enqueue it r) = f (TakeId it) → Σ f (<[t := Enqueue it r]> (producers c)) = Σ f (producers c)) as Hsum.
  { intros f Hf. pose proof (sum_with_insert f _ _ _ (Enqueue it r) Ht). lia. }
  assert (Σ ids_taken (<[t := Enqueue it r]> (producers c)) = Σ ids_taken (producers c) + 1) as Hids.
  { pose proof (sum_with_insert ids_taken _ _ _ (Enqueue it r) Ht) as H. cbn in H. lia. }
  constructor.
  - destruct Hr. by constructor.
  - destruct (set_producer_sleep t (TakeId it) (Enqueue it r) lines c Hs Ht) as [Ha Hb]; [by right|]. by constructor.
  - constructor; cbn [producers workers next_request_id entered taken]; try apply Hi.
    + rewrite length_insert. apply Hi.
    + intros t' q Hq. apply list_lookup_insert_Some in Hq as [(<- & <- & _)|[_ Hq]]; [exact (led_main c Hi _ _ Ht)|by apply (led_main c Hi)].
    + intros t' q Hq. apply list_lookup_insert_Some in Hq as [(<- & <- & _)|[_ Hq]]; [done|by eapply (led_bound c Hi)].
    + rewrite Hids, (led_next c Hi). lia.
    + pose proof (bind_insert pending _ _ _ (Enqueue it r) Ht) as Hb. cbn [pending app] in Hb. rewrite Hb, Hids.
      rewrite <- app_comm_cons, fmap_cons. change (id r) with (next_request_id c). rewrite (led_ids c Hi), (led_next c Hi), Nat2Z.inj_add. rewrite seqZ_app by lia. cbn. by rewrite Permutation_app_comm.
    + rewrite !Hsum by done. apply Hi.
    + rewrite Hsum by done. intros Hj. pose proof (led_joined c Hi Hj t _ Ht). done.
    + intros t' Hq. apply list_lookup_insert_Some in Hq as [(_ & Hq & _)|[_ Hq]]; [done|by eapply (led_returned c Hi)].
Qed.

(** *** [enqueue] *)

Lemma signal_worker_sum j l l' :
  Buffer.signal asleep_w wake_w j l = Some l' →
  length l' = length l ∧ Σ exited l' = Σ exited l ∧
  (Σ (Nat.b2n ∘ asleep_w) l = 0 ∧ l' = l ∨
   Σ (Nat.b2n ∘ asleep_w) l = Σ (Nat.b2n ∘ asleep_w) l' + 1 ∧ Σ (Nat.b2n ∘ awake_w) l' = Σ (Nat.b2n ∘ awake_w) l + 1).
Proof. intros H. apply (BufferSpec.signal_sum asleep_w awake_w wake_w exited) in H as (H1 & H2 & H3); [done|by intros [|[]|]|by intros [|[]|]]. Qed.

Lemma signal_producer_sum j l l' :
  Buffer.signal asleep_p wake_p j l = Some l' →
  length l' = length l ∧
  (Σ (Nat.b2n ∘ asleep_p) l = 0 ∧ l' = l ∨
   Σ (Nat.b2n ∘ asleep_p) l = Σ (Nat.b2n ∘ asleep_p) l' + 1 ∧ Σ (Nat.b2n ∘ awake_p) l' = Σ (Nat.b2n ∘ awake_p) l + 1).
Proof. intros H. apply (BufferSpec.signal_sum asleep_p awake_p wake_p (λ _, 0)) in H as (_ & H2 & H3); [done|by intros [| |? ? []| | | |? []| |]|done]. Qed.

Definition enqueued (t : nat) (r : request_t) (p : producer) (ws : list worker) (lines : list string) (c : config) : config :=
  mkconfig (<[q_tail c := r]> (queue c)) (q_head c) ((q_tail c + 1) mod QUEUE_SIZE) (q_count c + 1) (next_request_id c)
    (<[t := p]> (producers c)) ws (out c ++ lines) (entered c ++ [r]) (taken c).

Lemma enqueued_ring t r p ws lines c : ring_ok c → q_count c ≠ QUEUE_SIZE → ring_ok (enqueued t r p ws lines c).
Proof.
  intros [H1 H2 H3 H4 H5] Hc. constructor; cbn [enqueued queue q_head q_tail q_count entered taken]; [by rewrite length_insert|done|lia| |].
  - rewrite H4, Nat.Div0.add_mod_idemp_l. f_equal. lia.
  - rewrite H4, Nat.add_1_r, ring_put, H5, app_assoc; [done|done|lia].
Qed.

Lemma enqueued_sleep t r p p' ws j lines c :
  ring_ok c → sleep_ok c → producers c !! t = Some p → asleep_p p' = false → awake_p p' = false → q_count c ≠ QUEUE_SIZE →
  Buffer.signal asleep_w wake_w j (workers c) = Some ws → sleep_ok (enqueued t r p' ws lines c).
Proof.
  intros Hr [H1 H2] Ht Hp1 Hp2 Hc Hsig. pose proof (ring_count c Hr). destruct (signal_worker_sum _ _ _ Hsig) as (_ & _ & Hcase).
  constructor; cbn [enqueued producers workers q_count]; [destruct Hcase as [[Hz ->]|[Ha Hb]]; lia|].
  pose proof (sum_with_insert (Nat.b2n ∘ asleep_p) _ _ _ p' Ht) as HA. pose proof (sum_with_insert (Nat.b2n ∘ awake_p) _ _ _ p' Ht) as HB. simpl in HA, HB.
  rewrite Hp1 in HA. rewrite Hp2 in HB. simpl in HA, HB. assert (Nat.b2n (awake_p p) ≤ 1) by (destruct (awake_p p); simpl; lia). lia.
Qed.

(** Before the shutdown there are no tokens. *)
Lemma no_tokens c t p : ledger c → producers c !! t = Some p → client_done p = false → Σ tokens_put (producers c) = 0.
Proof.
  intros Hi Ht Hd. destruct (decide (0 < Σ joined (producers c))) as [Hj|Hj]; [by rewrite (led_joined c Hi Hj t p Ht) in Hd|].
  assert (∀ t p, producers c !! t = Some p → joined p = 0) as H0.
  { intros t' q Hq. pose proof (BufferSpec.sum_lookup joined _ _ _ Hq). lia. }
  rewrite (sum_const tokens_put 0), Nat.mul_0_r; [done|]. intros t' q Hq. specialize (H0 t' q Hq). by destruct q.
Qed.

Lemma enqueued_ledger t r p p' ws j lines c :
  ledger c → producers c !! t = Some p → Buffer.signal asleep_w wake_w j (workers c) = Some ws →
  (∃ it, p' = TakeId (it + 1) ∧ it < REQUESTS_PER_CLIENT ∧ (p = Enqueue it r ∨ p = ClientWaits it r true)) ∨
  (∃ k, r = token ∧ p' = Token (k + 1) ∧ k < WORKER_COUNT ∧ (p = Token k ∨ p = MainWaits k true)) →
  ledger (enqueued t r p' ws lines c).
Proof.
  intros Hi Ht Hsig Hcase. destruct (signal_worker_sum _ _ _ Hsig) as (Hlen & Hex & _).
  assert (∀ f : producer → nat, Σ f (<[t := p']> (producers c)) + f p = Σ f (producers c) + f p') as Hsum by (intros f; by apply sum_with_insert).
  pose proof (Hsum ids_taken) as S1. pose proof (Hsum requests_put) as S2. pose proof (Hsum tokens_put) as S3. pose proof (Hsum joined) as S4.
  pose proof (bind_insert pending _ _ _ p' Ht) as Hb.
  assert (is_main p' = is_main p ∧ bounded p' ∧ client_done p' = client_done p ∧ joined p' = joined p ∧ ids_taken p' = ids_taken p ∧ p' ≠ Returned) as (Hm & Hbd & Hcd & Hj & Hid & Hne).
  { destruct Hcase as [(it & -> & Hit & [-> | ->])|(k & -> & -> & Hk & [-> | ->])]; split_and!; try done; unfold bounded; try lia. }
  constructor; cbn [enqueued producers workers next_request_id entered taken]; try (by rewrite ?Hlen, ?Hex; apply Hi).
  - rewrite length_insert. apply Hi.
  - intros t' q Hq. apply list_lookup_insert_Some in Hq as [(<- & <- & _)|[_ Hq]]; [rewrite Hm; by apply (led_main c Hi)|by apply (led_main c Hi)].
  - intros t' q Hq. apply list_lookup_insert_Some in Hq as [(<- & <- & _)|[_ Hq]]; [done|by eapply (led_bound c Hi)].
  - rewrite (led_next c Hi). lia.
  - replace (Σ ids_taken (<[t := p']> (producers c))) with (Σ ids_taken (producers c)) by lia. rewrite <- (led_ids c Hi), requests_snoc.
    destruct Hcase as [(it & -> & Hit & Hp)|(k & -> & -> & Hk & Hp)].
    + assert (pending p = [r]) as Hpp by (by destruct Hp as [-> | ->]). rewrite decide_True; [|assert (1 ≤ id r)%Z; [|lia]; eapply pending_id; [done|done|rewrite Hpp; by apply list_elem_of_singleton]].
      rewrite Hpp in Hb. cbn [pending app] in Hb. rewrite <- Hb. apply fmap_Permutation. cbn [app]. rewrite app_assoc. by rewrite <- Permutation_cons_append.
    + rewrite decide_False by (by intros []). rewrite app_nil_r. assert (pending p = []) as Hpp by (by destruct Hp as [-> | ->]). rewrite Hpp in Hb. cbn [pending app] in Hb. by rewrite Hb.
  - destruct (led_order c Hi) as (reqs & He & Hf & Hl). destruct Hcase as [(it & -> & Hit & Hp)|(k & -> & -> & Hk & Hp)].
    + assert (client_done p = false) as Hnd by (by destruct Hp as [-> | ->]). pose proof (no_tokens c t p Hi Ht Hnd) as H0.
      replace (Σ tokens_put (<[t := TakeId (it + 1)]> (producers c))) with 0 by (cbn in S3; lia). rewrite H0 in He. cbn in He. rewrite app_nil_r in He. exists (reqs ++ [r]).
      rewrite He, app_nil_r, length_app, Forall_app. split_and!; [done|done| |].
      * apply Forall_singleton. assert (1 ≤ id r)%Z; [|lia]. eapply pending_id; [done|done|]. destruct Hp as [-> | ->]; by apply list_elem_of_singleton.
      * cbn [length]. destruct Hp as [-> | ->]; cbn in S2; lia.
    + exists reqs. replace (Σ tokens_put (<[t := Token (k + 1)]> (producers c))) with (Σ tokens_put (producers c) + 1) by (destruct Hp as [-> | ->]; cbn in S3; lia).
      rewrite He, replicate_add, app_assoc. split_and!; [done|done|]. destruct Hp as [-> | ->]; cbn in S2; lia.
  - intros Hj' t' q Hq. assert (0 < Σ joined (producers c)) as Hj0 by lia.
    apply list_lookup_insert_Some in Hq as [(<- & <- & _)|[_ Hq]]; [rewrite Hcd; by eapply (led_joined c Hi)|by eapply (led_joined c Hi)].
  - intros t' Hq. apply list_lookup_insert_Some in Hq as [(_ & Hq & _)|[_ Hq]]; [done|]. pose proof (led_returned c Hi t' Hq) as Hall.
    apply Forall_lookup. intros w x Hx. destruct (BufferSpec.signal_lookup _ _ _ _ _ _ _ Hsig Hx) as [Hy|(y & Hy & Hay & ->)].
    + by apply (Forall_lookup_1 _ _ _ _ Hall Hy).
    + pose proof (Forall_lookup_1 _ _ _ _ Hall Hy) as ->. done.
Qed.

(** *** [dequeue] *)

Definition dequeued (t : nat) (r : request_t) (ps : list producer) (lines : list string) (c : config) : config :=
  mkconfig (queue c) ((q_head c + 1) mod QUEUE_SIZE) (q_tail c) (q_count c - 1) (next_request_id c)
    ps (<[t := if (id r =? -1)%Z then Exited else Dequeue]> (workers c)) (out c ++ lines) (entered c) (taken c ++ [r]).

Definition takes (w : worker) : Prop := w = Dequeue ∨ w = WorkerWaits true.

Lemma dequeued_ring t r ps lines c : ring_ok c → q_count c ≠ 0 → queue c !! q_head c = Some r → ring_ok (dequeued t r ps lines c).
Proof.
  intros [H1 H2 H3 H4 H5] Hc Hr. constructor; cbn [dequeued queue q_head q_tail q_count entered taken]; [done|by apply Nat.mod_upper_bound|lia| |].
  - rewrite H4, Nat.Div0.add_mod_idemp_l. f_equal. lia.
  - rewrite H5. replace (q_count c) with (S (q_count c - 1)) at 1 by lia. by rewrite (ring_take _ _ _ _ _ r), cons_middle, app_assoc.
Qed.

Lemma dequeued_sleep t w r ps j lines c :
  ring_ok c → sleep_ok c → workers c !! t = Some w → takes w → q_count c ≠ 0 →
  Buffer.signal asleep_p wake_p j (producers c) = Some ps → sleep_ok (dequeued t r ps lines c).
Proof.
  intros Hr [H1 H2] Ht Hw Hc Hsig. pose proof (ring_count c Hr). destruct (signal_producer_sum _ _ _ Hsig) as (_ & Hcase).
  constructor; cbn [dequeued producers workers q_count]; [|destruct Hcase as [[Hz ->]|[Ha Hb]]; lia].
  set (w' := if (id r =? -1)%Z then Exited else Dequeue). assert (asleep_w w' = false ∧ awake_w w' = false) as [Ha Hb] by (unfold w'; by destruct (id r =? -1)%Z).
  pose proof (sum_with_insert (Nat.b2n ∘ asleep_w) _ _ _ w' Ht) as HA. pose proof (sum_with_insert (Nat.b2n ∘ awake_w) _ _ _ w' Ht) as HB.
  simpl in HA, HB. rewrite Ha in HA. rewrite Hb in HB. destruct Hw as [-> | ->]; simpl in HA, HB; lia.
Qed.

Lemma signal_producer_lookup j l l' t p' :
  Buffer.signal asleep_p wake_p j l = Some l' → l' !! t = Some p' →
  ∃ p, l !! t = Some p ∧ is_main p' = is_main p ∧ (bounded p → bounded p') ∧ client_done p' = client_done p ∧ (p' = Returned → p = Returned).
Proof.
  intros Hsig Ht. destruct (BufferSpec.signal_lookup _ _ _ _ _ _ _ Hsig Ht) as [Hy|(y & Hy & Hay & ->)]; [by exists p'|].
  exists y. split; [done|]. by destruct y as [| |? ? []| | | |? []| |].
Qed.

Lemma dequeued_ledger t w r ps j lines c :
  ledger c → workers c !! t = Some w → takes w → Buffer.signal asleep_p wake_p j (producers c) = Some ps → ledger (dequeued t r ps lines c).
Proof.
  intros Hi Ht Hw Hsig. destruct (signal_producer_sum _ _ _ Hsig) as (Hlen & _).
  assert (∀ f : producer → nat, (∀ p, f (wake_p p) = f p) → Σ f ps = Σ f (producers c)) as Hsum by (intros f Hf; by eapply sum_signal).
  constructor; cbn [dequeued producers workers next_request_id entered taken].
  - rewrite Hlen. apply Hi.
  - rewrite length_insert. apply Hi.
  - intros t' q Hq. destruct (signal_producer_lookup _ _ _ _ _ Hsig Hq) as (p & Hp & -> & _). by apply (led_main c Hi).
  - intros t' q Hq. destruct (signal_producer_lookup _ _ _ _ _ Hsig Hq) as (p & Hp & _ & Hb & _). by eapply Hb, (led_bound c Hi).
  - rewrite Hsum by (by intros []). apply Hi.
  - rewrite Hsum by (by intros []). assert (ps ≫= pending = producers c ≫= pending) as ->; [|apply Hi].
    by eapply signal_bind; [|exact Hsig]; intros [].
  - rewrite !Hsum by (by intros []). apply Hi.
  - rewrite Hsum by (by intros []). intros Hj t' q Hq. destruct (signal_producer_lookup _ _ _ _ _ Hsig Hq) as (p & Hp & _ & _ & -> & _). by eapply (led_joined c Hi).
  - rewrite tokens_snoc, length_app, <- (led_exited c Hi). pose proof (sum_with_insert exited _ _ _ (if (id r =? -1)%Z then Exited else Dequeue) Ht) as HA.
    destruct Hw as [-> | ->]; destruct (Z.eqb_spec (id r) (-1)) as [He|He]; cbn [exited] in HA; case_decide; try done; cbn [length]; lia.
  - intros t' Hq. destruct (signal_producer_lookup _ _ _ _ _ Hsig Hq) as (p & Hp & _ & _ & _ & Hret). rewrite (Hret eq_refl) in Hp.
    pose proof (Forall_lookup_1 _ _ _ _ (led_returned c Hi t' Hp) Ht) as ->. by destruct Hw.
Qed.

(** A worker that moves without touching the queue. *)
Lemma set_worker_inv t w w' lines c :
  inv c → workers c !! t = Some w → w ≠ Exited → exited w' = 0 → (q_count c = 0 ∨ asleep_w w' = false ∧ (awake_w w = true → awake_w w' = true)) →
  inv (set_worker t w' lines c).
Proof.
  intros [[R1 R2 R3 R4 R5] [S1 S2] Hi] Ht Hne Hex Hc. constructor; [by constructor|constructor; cbn [producers workers q_count set_worker]; [|done]|].
  - pose proof (sum_with_insert (Nat.b2n ∘ asleep_w) _ _ _ w' Ht) as HA. pose proof (sum_with_insert (Nat.b2n ∘ awake_w) _ _ _ w' Ht) as HB. simpl in HA, HB.
    destruct Hc as [Hc|[Hc1 Hc2]]; [lia|]. rewrite Hc1 in HA. simpl in HA. intros Hs.
    assert (Nat.b2n (awake_w w) ≤ Nat.b2n (awake_w w')) by (destruct (awake_w w); [rewrite Hc2 by done; done|simpl; lia]). lia.
  - constructor; cbn [producers workers next_request_id entered taken set_worker]; try apply Hi.
    + rewrite length_insert. apply Hi.
    + rewrite <- (led_exited c Hi). pose proof (sum_with_insert exited _ _ _ w' Ht) as HA. rewrite Hex in HA. destruct w; cbn in HA; lia || done.
    + intros t' Hq. pose proof (Forall_lookup_1 _ _ _ _ (led_returned c Hi t' Hq) Ht). done.
Qed.

(** *** Every step *)

Lemma enqueue_cases t j r waits goes_on lines c c' :
  enqueue t j r waits goes_on lines c = Some c' →
  q_count c = QUEUE_SIZE ∧ c' = set_producer t waits [line "Queue is full (enqueue) - producer is waiting "] c ∨
  q_count c ≠ QUEUE_SIZE ∧ ∃ ws, Buffer.signal asleep_w wake_w j (workers c) = Some ws ∧ c' = enqueued t r goes_on ws lines c.
Proof.
  unfold enqueue. destruct (Nat.eqb_spec (q_count c) QUEUE_SIZE) as [Hc|Hc]; [intros [= <-]; by left|]. intros H. right. split; [done|].
  destruct (Buffer.signal _ _ _ _) as [ws|] eqn:Hs; [|done]. exists ws. split; [done|]. by injection H as <-.
Qed.

Lemma dequeue_cases t j c c' :
  dequeue t j c = Some c' →
  q_count c = 0 ∧ c' = set_worker t (WorkerWaits false) [line "Queue is empty (dequeue) - consumer is waiting "] c ∨
  q_count c ≠ 0 ∧ ∃ r ps, queue c !! q_head c = Some r ∧ Buffer.signal asleep_p wake_p j (producers c) = Some ps ∧ c' = dequeued t r ps (process t r) c.
Proof.
  unfold dequeue. destruct (Nat.eqb_spec (q_count c) 0) as [Hc|Hc]; [intros [= <-]; by left|]. intros H. right. split; [done|].
  destruct (queue c !! q_head c) as [r|] eqn:Hr; [|done]. destruct (Buffer.signal _ _ _ _) as [ps|] eqn:Hs; [|done]. exists r, ps. split_and!; [done|done|]. by injection H as <-.
Qed.

(** A producer at [enqueue]: what it enters, and where it is when it has to wait
    and when it has not. *)
Inductive enters : producer → request_t → producer → producer → Prop :=
  | client_enters it r : enters (Enqueue it r) r (ClientWaits it r false) (TakeId (it + 1))
  | client_again it r : enters (ClientWaits it r true) r (ClientWaits it r false) (TakeId (it + 1))
  | main_enters k : k < WORKER_COUNT → enters (Token k) token (MainWaits k false) (Token (k + 1))
  | main_again k : enters (MainWaits k true) token (MainWaits k false) (Token (k + 1)).

Lemma enqueue_inv t j p r waits goes_on lines c c' :
  inv c → producers c !! t = Some p → enters p r waits goes_on → enqueue t j r waits goes_on lines c = Some c' → inv c'.
Proof.
  intros Hi Ht Hp He. pose proof (led_bound c (inv_ledger c Hi) t p Ht) as Hb.
  apply enqueue_cases in He as [[Hc ->]|(Hc & ws & Hsig & ->)].
  - eapply set_producer_inv; [done|done|..]; destruct Hp; try done; by left.
  - destruct Hi as [Hr Hs Hl]. constructor; [by apply enqueued_ring|eapply enqueued_sleep; try done; by destruct Hp|eapply enqueued_ledger; try done].
    destruct Hp; [left|left|right|right]; eexists; split_and!; try done; eauto.
Qed.

Lemma dequeue_inv t j w c c' : inv c → workers c !! t = Some w → takes w → dequeue t j c = Some c' → inv c'.
Proof.
  intros Hi Ht Hw He. apply dequeue_cases in He as [[Hc ->]|(Hc & r & ps & Hr & Hsig & ->)].
  - eapply set_worker_inv; [done|done| |done|by left]. by destruct Hw as [-> | ->].
  - destruct Hi as [H1 H2 H3]. constructor; [by apply dequeued_ring|by eapply dequeued_sleep|by eapply dequeued_ledger].
Qed.

(** The shapes of a producer's step. *)
Lemma producer_cases t j p c c' :
  producer_step t j p c = Some c' →
  (∃ r waits goes_on lines, enters p r waits goes_on ∧ enqueue t j r waits goes_on lines c = Some c') ∨
  (∃ it lines s, p = TakeId it ∧ it < REQUESTS_PER_CLIENT ∧
     c' = mkconfig (queue c) (q_head c) (q_tail c) (q_count c) (next_request_id c + 1)%Z (<[t := Enqueue it (mkrequest (next_request_id c) s)]> (producers c)) (workers c)
       (out c ++ lines) (entered c) (taken c)) ∨
  (∃ p' lines, c' = set_producer t p' lines c ∧
     ((∃ it, p = TakeId it ∧ REQUESTS_PER_CLIENT ≤ it ∧ p' = Finished) ∨ (p = JoinClients ∧ forallb client_done (producers c) = true ∧ p' = Token 0) ∨
      (∃ k, p = Token k ∧ WORKER_COUNT ≤ k ∧ p' = JoinWorkers) ∨ (p = JoinWorkers ∧ Forall (λ w, w = Exited) (workers c) ∧ p' = Returned))).
Proof.
  destruct p as [it|it r|it r []| | |k|k []| |]; cbn [producer_step]; try done.
  - destruct (Nat.ltb_spec it REQUESTS_PER_CLIENT) as [Hit|Hit]; intros [= <-]; [right; left; by eauto 8|]. right. right. eauto 10.
  - intros H. left. by eauto 8 using enters.
  - intros H. left. by eauto 8 using enters.
  - destruct (forallb _ _) eqn:Hf; [|done]. intros [= <-]. right. right. eauto 10.
  - destruct (Nat.ltb_spec k WORKER_COUNT) as [Hk|Hk]; [intros H; left; by eauto 8 using enters|]. intros [= <-]. right. right. eauto 10.
  - intros H. left. by eauto 8 using enters.
  - destruct (forallb _ _) eqn:Hf; [|done]. intros [= <-]. right. right. do 2 eexists. split; [done|]. do 3 right. split_and!; [done| |done].
    apply Forall_forall. intros w Hw%list_elem_of_In. rewrite forallb_forall in Hf. eapply bool_decide_eq_true_1. by apply Hf.
Qed.

Lemma act_inv a c c' : inv c → act a c = Some c' → inv c'.
Proof.
  intros Hi. destruct a as [t j|t j|t|t]; cbn [act].
  - destruct (producers c !! t) as [p|] eqn:Ht; [|done]. intros H. pose proof (led_bound c (inv_ledger c Hi) t p Ht) as Hb.
    destruct (producer_cases _ _ _ _ _ H) as [(r & waits & goes_on & lines & Hp & He)|[(it & lines & s & -> & Hit & ->)|(p' & lines & -> & Hp)]].
    + by eapply enqueue_inv.
    + by apply take_id_inv.
    + destruct Hp as [(it & -> & Hit & ->)|[(-> & Hf & ->)|[(k & -> & Hk & ->)|(-> & Hf & ->)]]]; cbn in Hb;
        eapply set_producer_inv; try done; cbn; try (by left); try (by right); try lia.
  - destruct (workers c !! t) as [w|] eqn:Ht; [|done]. intros H.
    assert (takes w ∧ dequeue t j c = Some c') as [Hw Hd]; [|by eapply dequeue_inv]. by destruct w as [|[]|]; try done; split; try done; [left|right].
  - destruct (producers c !! t) as [p|] eqn:Ht; [|done]. cbn [mbind option_bind]. destruct (asleep_p p) eqn:Hp; [|done]. intros [= <-]. pose proof (led_bound c (inv_ledger c Hi) t p Ht) as Hb.
    eapply set_producer_inv; [done|done|..]; destruct p as [| |? ? []| | | |? []| |]; try done; try (by left); by right.
  - destruct (workers c !! t) as [w|] eqn:Ht; [|done]. cbn [mbind option_bind]. destruct (asleep_w w) eqn:Hw; [|done]. intros [= <-].
    eapply set_worker_inv; [done|done|..]; destruct w as [|[]|]; try done; by right.
Qed.

(** *** Termination *)

Definition weight_p (p : producer) : nat :=
  match p with
  | TakeId it => 4 * (REQUESTS_PER_CLIENT - it) + 1 | Enqueue it _ | ClientWaits it _ true => 4 * (REQUESTS_PER_CLIENT - it)
  | ClientWaits it _ false => 4 * (REQUESTS_PER_CLIENT - it) - 1 | Finished => 0
  | JoinClients => 4 * WORKER_COUNT + 4 | Token k => 4 * (WORKER_COUNT - k) + 3
  | MainWaits k true => 4 * (WORKER_COUNT - k) + 3 | MainWaits k false => 4 * (WORKER_COUNT - k) + 2
  | JoinWorkers => 1 | Returned => 0
  end.
Definition weight_w (w : worker) : nat := match w with Dequeue | WorkerWaits true => 1 | WorkerWaits false | Exited => 0 end.

Definition TOTAL : nat := MAX_CLIENTS * REQUESTS_PER_CLIENT.

Definition work (c : config) : nat := Σ weight_p (producers c) + Σ weight_w (workers c) + 2 * (TOTAL + WORKER_COUNT - length (taken c)).

Lemma entered_total c : inv c → length (entered c) ≤ TOTAL + WORKER_COUNT.
Proof.
  intros [_ _ Hi]. destruct (led_order c Hi) as (reqs & -> & _ & Hl). rewrite length_app, length_replicate, Hl.
  pose proof (led_producers c Hi) as Hlen. destruct (producers c) as [|p0 [|p1 [|p2 [|p3 [|]]]]] eqn:He; try done.
  assert (∀ t p, producers c !! t = Some p → requests_put p ≤ (if t =? MAX_CLIENTS then 0 else REQUESTS_PER_CLIENT) ∧
    tokens_put p ≤ (if t =? MAX_CLIENTS then WORKER_COUNT else 0)) as H.
  { intros t p Ht. pose proof (led_main c Hi t p Ht) as Hm. pose proof (led_bound c Hi t p Ht) as Hb. rewrite <- Hm. destruct p; cbn in *; lia. }
  rewrite He in H. destruct (H 0 p0 eq_refl) as [A0 B0], (H 1 p1 eq_refl) as [A1 B1], (H 2 p2 eq_refl) as [A2 B2], (H 3 p3 eq_refl) as [A3 B3].
  unfold TOTAL. unfold MAX_CLIENTS, REQUESTS_PER_CLIENT, WORKER_COUNT in *. cbv [Nat.eqb] in A0, B0, A1, B1, A2, B2, A3, B3. cbn. lia.
Qed.

Lemma taken_prefix c : inv c → length (taken c) + q_count c = length (entered c).
Proof. intros [[_ _ _ _ H] _ _]. by rewrite H, length_app, length_ring. Qed.

Definition cost (a : action) : nat := match a with SpuriousProducer _ | SpuriousWorker _ => 1 | _ => 0 end.

Lemma enqueue_work t j p r waits goes_on lines c c' :
  inv c → producers c !! t = Some p → enters p r waits goes_on → enqueue t j r waits goes_on lines c = Some c' → work c' + 1 ≤ work c.
Proof.
  intros Hi Ht Hp He. pose proof (led_bound c (inv_ledger c Hi) t p Ht) as Hb.
  apply enqueue_cases in He as [[Hc ->]|(Hc & ws & Hsig & ->)]; unfold work; cbn [set_producer enqueued producers workers taken].
  - pose proof (sum_with_insert weight_p _ _ _ waits Ht) as HA. destruct Hp; cbn in HA, Hb; unfold REQUESTS_PER_CLIENT, WORKER_COUNT in *; lia.
  - pose proof (sum_with_insert weight_p _ _ _ goes_on Ht) as HA.
    assert (Σ weight_w ws ≤ Σ weight_w (workers c) + 1) by (eapply BufferSpec.signal_weight; [|done]; by intros [|[]|]; cbn; lia).
    destruct Hp; cbn in HA, Hb; unfold REQUESTS_PER_CLIENT, WORKER_COUNT in *; lia.
Qed.

Lemma dequeue_work t j w c c' : inv c → workers c !! t = Some w → takes w → dequeue t j c = Some c' → work c' + 1 ≤ work c.
Proof.
  intros Hi Ht Hw He. pose proof (taken_prefix c Hi). pose proof (entered_total c Hi).
  apply dequeue_cases in He as [[Hc ->]|(Hc & r & ps & Hr & Hsig & ->)]; unfold work; cbn [set_worker dequeued producers workers taken].
  - pose proof (sum_with_insert weight_w _ _ _ (WorkerWaits false) Ht) as HA. destruct Hw as [-> | ->]; cbn [weight_w] in HA; lia.
  - pose proof (sum_with_insert weight_w _ _ _ (if (id r =? -1)%Z then Exited else Dequeue) Ht) as HA.
    assert (Σ weight_p ps ≤ Σ weight_p (producers c) + 1) by (eapply BufferSpec.signal_weight; [|done]; by intros [| |? ? []| | | |? []| |]; cbn; lia).
    rewrite length_app. cbn [length]. assert (weight_w (if (id r =? -1)%Z then Exited else Dequeue) ≤ 1) by (by destruct (id r =? -1)%Z; cbn; lia).
    destruct Hw as [-> | ->]; cbn [weight_w] in HA; lia.
Qed.

Lemma queue_act_work a c c' : inv c → act a c = Some c' → work c' + 1 ≤ work c + 2 * cost a.
Proof.
  intros Hi. destruct a as [t j|t j|t|t]; cbn [act cost].
  - destruct (producers c !! t) as [p|] eqn:Ht; [|done]. intros H. pose proof (led_bound c (inv_ledger c Hi) t p Ht) as Hb.
    destruct (producer_cases _ _ _ _ _ H) as [(r & waits & goes_on & lines & Hp & He)|[(it & lines & s & -> & Hit & ->)|(p' & lines & -> & Hp)]].
    + pose proof (enqueue_work _ _ _ _ _ _ _ _ _ Hi Ht Hp He). lia.
    + unfold work. cbn [producers workers taken]. pose proof (sum_with_insert weight_p _ _ _ (Enqueue it (mkrequest (next_request_id c) s)) Ht) as HA. cbn in HA. lia.
    + unfold work. cbn [set_producer producers workers taken]. pose proof (sum_with_insert weight_p _ _ _ p' Ht) as HA.
      destruct Hp as [(it & -> & Hit & ->)|[(-> & Hf & ->)|[(k & -> & Hk & ->)|(-> & Hf & ->)]]]; cbn in HA; unfold REQUESTS_PER_CLIENT, WORKER_COUNT in *; lia.
  - destruct (workers c !! t) as [w|] eqn:Ht; [|done]. intros H.
    assert (takes w ∧ dequeue t j c = Some c') as [Hw Hd]; [|pose proof (dequeue_work _ _ _ _ _ Hi Ht Hw Hd); lia]. by destruct w as [|[]|]; try done; split; try done; [left|right].
  - destruct (producers c !! t) as [p|] eqn:Ht; [|done]. cbn [mbind option_bind]. destruct (asleep_p p) eqn:Hp; [|done]. intros [= <-]. unfold work. cbn [set_producer producers workers taken].
    pose proof (sum_with_insert weight_p _ _ _ (wake_p p) Ht) as HA. destruct p as [| |? ? []| | | |? []| |]; try done; cbn [wake_p weight_p] in *; unfold REQUESTS_PER_CLIENT, WORKER_COUNT in *; lia.
  - destruct (workers c !! t) as [w|] eqn:Ht; [|done]. cbn [mbind option_bind]. destruct (asleep_w w) eqn:Hw; [|done]. intros [= <-]. unfold work. cbn [set_worker producers workers taken].
    pose proof (sum_with_insert weight_w _ _ _ (wake_w w) Ht) as HA. destruct w as [|[]|]; try done; cbn [wake_w weight_w] in *; lia.
Qed.

Lemma run_inv l c c' : inv c → run l c = Some c' → inv c' ∧ length l + work c' ≤ work c + 2 * Σ cost l.
Proof.
  revert c. induction l as [|a l IH]; intros c Hi; cbn [run]; [intros [= <-]; cbn; split; [done|lia]|].
  destruct (act a c) as [c1|] eqn:Ha; [|done]. intros H. destruct (IH c1) as [Hi' Hw]; [by eapply act_inv|done|]. split; [done|].
  pose proof (queue_act_work a c c1 Hi Ha). cbn. lia.
Qed.

(** *** No deadlock *)

(** No thread can take a step of its own. *)
Definition stuck (c : config) : Prop := ∀ t j, act (Producer t j) c = None ∧ act (Worker t j) c = None.

Lemma enqueue_some t r waits goes_on lines c : ∃ j c', enqueue t j r waits goes_on lines c = Some c'.
Proof.
  unfold enqueue. destruct (q_count c =? QUEUE_SIZE); [by exists 0; eexists|].
  destruct (BufferSpec.signal_some asleep_w wake_w (workers c)) as (j & ws & Hj). exists j. rewrite Hj. by eexists.
Qed.

Lemma dequeue_some t c : ring_ok c → ∃ j c', dequeue t j c = Some c'.
Proof.
  intros Hr. unfold dequeue. destruct (q_count c =? 0); [by exists 0; eexists|].
  destruct (BufferSpec.signal_some asleep_p wake_p (producers c)) as (j & ps & Hj). exists j. rewrite Hj.
  destruct (lookup_lt_is_Some_2 (queue c) (q_head c)) as [r ->]; [rewrite (ring_length c Hr); apply Hr|]. by eexists.
Qed.

Lemma stuck_worker c t w : inv c → stuck c → workers c !! t = Some w → w = WorkerWaits false ∨ w = Exited.
Proof.
  intros Hi Hs Ht. destruct (dequeue_some t c (inv_ring c Hi)) as (j & c' & Hd). destruct (Hs t j) as [_ Hw]. unfold act in Hw. rewrite Ht in Hw. cbn in Hw.
  destruct w as [|[]|]; cbn in Hw; [by rewrite Hd in Hw|by rewrite Hd in Hw|by left|by right].
Qed.

(** What a producer that cannot move is doing. *)
Lemma stuck_producer c t p :
  stuck c → producers c !! t = Some p →
  asleep_p p = true ∨ p = Finished ∨ p = Returned ∨ (p = JoinClients ∧ forallb client_done (producers c) = false) ∨
  (p = JoinWorkers ∧ forallb (λ w, bool_decide (w = Exited)) (workers c) = false).
Proof.
  intros Hs Ht. assert (∀ j, producer_step t j p c = None) as Hn. { intros j. destruct (Hs t j) as [Hp _]. unfold act in Hp. by rewrite Ht in Hp. }
  assert (∀ r waits goes_on, ¬ enters p r waits goes_on) as Hne.
  { intros r waits goes_on He. destruct (enqueue_some t r waits goes_on (match p with Enqueue _ _ | ClientWaits _ _ _ => [client_line t "finished producing.. "] | _ => [] end) c) as (j & c' & H).
    specialize (Hn j). destruct He; cbn [producer_step] in Hn; try (by rewrite H in Hn). rewrite (proj2 (Nat.ltb_lt _ _)) in Hn by done. by rewrite H in Hn. }
  destruct p as [it|it r|it r []| | |k|k []| |]; cbn in *; try (by left); try (by right; left); try (by do 2 right; left).
  - specialize (Hn 0). by destruct (it <? REQUESTS_PER_CLIENT).
  - by destruct (Hne _ _ _ (client_enters it r)).
  - by destruct (Hne _ _ _ (client_again it r)).
  - specialize (Hn 0). destruct (forallb _ _); [done|]. by do 3 right; left.
  - specialize (Hn 0). destruct (Nat.ltb_spec k WORKER_COUNT) as [Hk|Hk]; [|done]. by destruct (Hne _ _ _ (main_enters k Hk)).
  - by destruct (Hne _ _ _ (main_again k)).
  - specialize (Hn 0). destruct (forallb _ _); [done|]. by do 4 right.
Qed.

Lemma requests_all l : Forall (λ r, id r ≠ (-1)%Z) l → requests l = l.
Proof. unfold requests. induction 1 as [|r l Hr _ IH]; [done|]. by rewrite filter_cons_True, IH. Qed.

Lemma tokens_entered c : ledger c → length (tokens (entered c)) = Σ tokens_put (producers c).
Proof.
  intros Hi. destruct (led_order c Hi) as (reqs & -> & Hf & _). unfold tokens. rewrite filter_app, length_app.
  replace (filter (λ r, id r = (-1)%Z) reqs) with (@nil request_t); cbn.
  - induction (Σ tokens_put (producers c)) as [|n IH]; [done|]. cbn [replicate]. rewrite filter_cons_True by done. cbn. by rewrite IH.
  - induction Hf as [|r reqs Hr _ IH]; [done|]. by rewrite filter_cons_False.
Qed.

Lemma tokens_left c : inv c → length (tokens (entered c)) = length (tokens (taken c)) + length (tokens (ring (queue c) (q_head c) (q_count c))).
Proof. intros Hi. rewrite (ring_fifo c (inv_ring c Hi)) at 1. unfold tokens. by rewrite filter_app, length_app. Qed.

Lemma exited_all (l : list worker) : Forall (λ w, w = Exited) l ↔ Σ exited l = length l.
Proof.
  induction l as [|w l IH]; [by split|]. assert (Σ exited l ≤ length l). { clear IH. induction l as [|[] l IH]; cbn; lia. }
  rewrite Forall_cons, IH. destruct w; cbn; split; try (intros [? ?]; lia || done); intros; try lia; split; try done; lia.
Qed.

Lemma client_tokens p : is_main p = false → tokens_put p = 0.
Proof. by destruct p. Qed.

(** Only [main] puts tokens. *)
Lemma tokens_main c : ledger c → ∃ p, producers c !! MAX_CLIENTS = Some p ∧ is_main p = true ∧ Σ tokens_put (producers c) = tokens_put p.
Proof.
  intros Hi. pose proof (led_producers c Hi) as Hlen. pose proof (led_main c Hi) as Hm.
  destruct (producers c) as [|p0 [|p1 [|p2 [|p3 [|]]]]]; try done. exists p3. split; [done|]. split; [exact (Hm 3 p3 eq_refl)|].
  cbn. rewrite (client_tokens p0 (Hm 0 p0 eq_refl)), (client_tokens p1 (Hm 1 p1 eq_refl)), (client_tokens p2 (Hm 2 p2 eq_refl)). lia.
Qed.

Lemma none_of {A} (f : A → bool) (l : list A) : (∀ t x, l !! t = Some x → f x = false) → Σ (Nat.b2n ∘ f) l = 0.
Proof. intros H. rewrite (sum_const _ 0), Nat.mul_0_r; [done|]. intros t x Hx. simpl. by rewrite (H t x Hx). Qed.

Lemma stuck_exited c : inv c → stuck c → Forall (λ w, w = Exited) (workers c).
Proof.
  intros Hi Hs. apply Forall_lookup. intros t w Ht. destruct (stuck_worker c t w Hi Hs Ht) as [-> |]; [exfalso|done].
  pose proof (BufferSpec.sum_lookup (Nat.b2n ∘ asleep_w) _ _ _ Ht) as H1. simpl in H1. pose proof (sleep_workers c (inv_sleep c Hi) H1) as Hc.
  rewrite none_of in Hc by (intros t' w Hw; destruct (stuck_worker c t' w Hi Hs Hw) as [-> | ->]; done).
  assert (∀ t p, producers c !! t = Some p → asleep_p p = false) as Hno.
  { intros t' p Hp. destruct (asleep_p p) eqn:Ha; [exfalso|done]. pose proof (BufferSpec.sum_lookup (Nat.b2n ∘ asleep_p) _ _ _ Hp) as H2. simpl in H2. rewrite Ha in H2.
    pose proof (sleep_producers c (inv_sleep c Hi) H2) as Hc2. rewrite none_of in Hc2; [unfold QUEUE_SIZE in Hc2; lia|].
    intros t2 q Hq. destruct (stuck_producer c t2 q Hs Hq) as [H|[-> |[-> |[[-> _]|[-> _]]]]]; [by destruct q as [| |? ? []| | | |? []| |]|done..]. }
  destruct (tokens_main c (inv_ledger c Hi)) as (p & Hp & Hm & Htok).
  assert (tokens_put p = WORKER_COUNT) as Hw.
  { destruct (stuck_producer c _ p Hs Hp) as [H|[-> |[-> |[[-> Hf]|[-> _]]]]]; [by rewrite (Hno _ _ Hp) in H|done|done|exfalso|done].
    apply (not_true_iff_false (forallb client_done (producers c))) in Hf. apply Hf, forallb_forall. intros q [t' Hq]%list_elem_of_In%list_elem_of_lookup.
    destruct (stuck_producer c t' q Hs Hq) as [H|[-> |[-> |[[-> _]|[-> _]]]]]; [by rewrite (Hno _ _ Hq) in H|done..]. }
  pose proof (tokens_left c Hi) as Hl. rewrite (tokens_entered c (inv_ledger c Hi)), Htok, Hw in Hl. assert (q_count c = 0) as H0 by lia. rewrite H0 in Hl. cbn in Hl.
  rewrite <- (led_exited c (inv_ledger c Hi)), Nat.add_0_r in Hl. rewrite <- (led_workers c (inv_ledger c Hi)) in Hl.
  by pose proof (Forall_lookup_1 _ _ _ _ (proj2 (exited_all _) (eq_sym Hl)) Ht).
Qed.

Lemma stuck_main_returned c : inv c → stuck c → producers c !! MAX_CLIENTS = Some Returned.
Proof.
  intros Hi Hs. pose proof (stuck_exited c Hi Hs) as He. destruct (tokens_main c (inv_ledger c Hi)) as (p & Hp & Hm & Htok).
  assert (WORKER_COUNT ≤ tokens_put p) as Hw.
  { rewrite <- Htok, <- (tokens_entered c (inv_ledger c Hi)), (tokens_left c Hi), <- (led_exited c (inv_ledger c Hi)), (proj1 (exited_all _) He), (led_workers c (inv_ledger c Hi)). lia. }
  pose proof (led_bound c (inv_ledger c Hi) _ p Hp) as Hb.
  destruct (stuck_producer c _ p Hs Hp) as [H|[-> |[-> |[[-> Hf]|[-> Hf]]]]]; [exfalso|done|done|cbn in Hw; unfold WORKER_COUNT in Hw; lia|exfalso].
  - destruct p as [| |? ? []| | | |? []| |]; try done. cbn in Hw, Hb. lia.
  - apply (not_true_iff_false (forallb _ (workers c))) in Hf. apply Hf, forallb_forall. intros w Hin%list_elem_of_In. rewrite Forall_forall in He.
    by apply bool_decide_eq_true_2, He.
Qed.

Lemma stuck_clients c t p : inv c → stuck c → producers c !! t = Some p → p = if t =? MAX_CLIENTS then Returned else Finished.
Proof.
  intros Hi Hs Ht. pose proof (stuck_main_returned c Hi Hs) as Hmain. pose proof (led_main c (inv_ledger c Hi) t p Ht) as Hm.
  destruct (Nat.eqb_spec t MAX_CLIENTS) as [-> |Hne]; [congruence|].
  pose proof (BufferSpec.sum_lookup joined _ _ _ Hmain) as Hj. pose proof (led_joined c (inv_ledger c Hi) Hj t p Ht) as Hd. by destruct p.
Qed.

(** The queue is empty when everybody has returned. *)
Lemma stuck_empty c : inv c → stuck c → taken c = entered c.
Proof.
  intros Hi Hs. pose proof (stuck_main_returned c Hi Hs) as Hmain. destruct (tokens_main c (inv_ledger c Hi)) as (p & Hp & Hm & Htok). rewrite Hmain in Hp. injection Hp as <-.
  pose proof (tokens_left c Hi) as Hl. rewrite (tokens_entered c (inv_ledger c Hi)), Htok, <- (led_exited c (inv_ledger c Hi)) in Hl.
  rewrite (proj1 (exited_all _) (stuck_exited c Hi Hs)), (led_workers c (inv_ledger c Hi)) in Hl. cbn [tokens_put] in Hl.
  destruct (led_order c (inv_ledger c Hi)) as (reqs & He & _). rewrite Htok in He. pose proof (ring_fifo c (inv_ring c Hi)) as Hf.
  destruct (ring (queue c) (q_head c) (q_count c)) as [|x l _] eqn:Hring using rev_ind; [by rewrite app_nil_r in Hf|]. exfalso.
  rewrite tokens_snoc, length_app in Hl. rewrite app_assoc in Hf. cbn [tokens_put] in He. change (replicate WORKER_COUNT token) with (replicate 3 token ++ [token]) in He.
  rewrite app_assoc, Hf in He. apply app_inj_tail in He as [_ ->]. rewrite decide_True in Hl by done. cbn [length] in Hl. lia.
Qed.

End QueueSpec.

Import RequestQueue QueueSpec.

(** C20: [pthread_db.c] under every interleaving of its eight threads, every choice
    of the thread a signal wakes and any number of waits that return without a
    signal: a run has at most 125 steps and two more for every such wait; requests
    leave the queue in the order in which they entered it; and when no thread can
    take a step, all clients, all workers and [main] have returned, the queue is
    empty, and what the workers took out is the fifteen requests, with the ids 1
    to 15 once each, and behind them the four tokens. *)
Theorem request_queue_correct l c :
  run l start = Some c →
  length l ≤ 125 + 2 * sum_list_with cost l ∧ taken c `prefix_of` entered c ∧
  (stuck c →
   producers c = replicate MAX_CLIENTS Finished ++ [Returned] ∧ workers c = replicate WORKER_COUNT Exited ∧ taken c = entered c ∧
   ∃ reqs, taken c = reqs ++ replicate WORKER_COUNT token ∧ id <$> reqs ≡ₚ seqZ 1 15).
Proof.
  intros H. destruct (run_inv l start c queue_inv_start H) as [Hi Hw]. change (work start) with 125 in Hw. split_and!; [lia| |intros Hs].
  { exists (ring (queue c) (q_head c) (q_count c)). apply Hi. }
  pose proof (stuck_clients c) as Hc. pose proof (led_producers c (inv_ledger c Hi)) as Hlen.
  assert (producers c = replicate MAX_CLIENTS Finished ++ [Returned]) as Hp.
  { destruct (producers c) as [|p0 [|p1 [|p2 [|p3 [|]]]]]; try done.
    by rewrite (Hc 0 p0 Hi Hs eq_refl), (Hc 1 p1 Hi Hs eq_refl), (Hc 2 p2 Hi Hs eq_refl), (Hc 3 p3 Hi Hs eq_refl). }
  split_and!; [done| |by apply stuck_empty|].
  - rewrite <- (led_workers c (inv_ledger c Hi)). symmetry. apply replicate_as_elem_of. split; [done|]. by apply Forall_forall, stuck_exited.
  - rewrite (stuck_empty c Hi Hs). destruct (led_order c (inv_ledger c Hi)) as (reqs & He & Hf & _). exists reqs. rewrite Hp in He. split; [exact He|].
    pose proof (led_ids c (inv_ledger c Hi)) as Hids. rewrite Hp, He in Hids. cbn in Hids. rewrite <- Hids.
    unfold requests at 1. rewrite filter_app. fold (requests reqs). by rewrite (requests_all reqs Hf), app_nil_r.
Qed.


(** A whole run: at every point the first thread that can move takes its step. *)
Definition candidates : list action :=
  (t ← seq 0 4; Producer t <$> seq 0 4) ++ (t ← seq 0 4; Worker t <$> seq 0 4).

Fixpoint first_enabled (n : nat) (c : config) : list action :=
  match n with
  | 0 => []
  | S n =>
      match filter (λ a, is_Some (act a c)) candidates with
      | a :: _ => match act a c with Some c' => a :: first_enabled n c' | None => [] end
      | [] => []
      end
  end.

Definition whole_run : list action := Eval vm_compute in first_enabled 200 start.
Definition returned : config := Eval vm_compute in default start (run whole_run start).

Lemma returned_stuck : stuck returned.
Proof. intros t j. split; do 4 (destruct t as [|t]; [done|]); done. Qed.

Lemma request_queue_correct_witness :
  run whole_run start = Some returned ∧ stuck returned ∧ length whole_run ≤ 125 + 2 * sum_list_with cost whole_run ∧
  ∃ reqs, taken returned = reqs ++ replicate WORKER_COUNT token ∧ id <$> reqs ≡ₚ seqZ 1 15.
Proof.
  assert (run whole_run start = Some returned) as H by (by vm_compute).
  destruct (request_queue_correct whole_run returned H) as (H1 & _ & H2). destruct (H2 returned_stuck) as (_ & _ & _ & H3). exact (conj H (conj returned_stuck (conj H1 H3))).
Defined.
