(* ===== verification/SharedCounters.v ===== *)
(** * Counters shared by threads: [Mutex-Spi-Sem-RWlock/mutex.c], [lock_comparision.c],
    [concurrency-and-multithreading/atomic_counter_with_instrinsics.c],
    [atomics_vs_mutex.c] and [lock_free_atomics_vs_mutex_benchmark.c]

    [Counters] runs threads that repeat a short loop body on one counter; a step is
    one access to the counter, one operation on the lock or one wait at the
    barrier.  The modules behind it give the loop bodies of the programs and what
    their [main] prints.  [CountersSpec] shows that no increment is lost under a
    lock or with atomic instructions, that without either the result may be
    anything from 2 on, and that all programs end.

    [counter++] on a plain variable is a load and a store, as in code compiled
    without optimisation.  The counters are unbounded integers here; they never
    exceed threads * iterations, so a [long] holds them unless that product is
    2^63 or more. *)
From stdpp Require Import base list relations strings pretty.
From Stdlib Require Import ZArith Lia.
From S2P Require Import Prelude BoundedBuffer.

Module Counters.

(** What a loop body does, in order: take the lock, load the counter into a
    register, store the register plus one, add one atomically, compute on
    variables of its own, give the lock back. *)
Inductive instr : Set := Lock | Load | Store | FetchAdd | Busy | Unlock.

(** A worker: whether it waits at a barrier first, and its loop body. *)
Record program : Set := mkprogram { barrier : bool; body : list instr }.

(** A thread before and in [pthread_barrier_wait]; in iteration [it] with the
    rest of the body and its register; returned. *)
Inductive thread : Set := Created | AtBarrier | Running (it : nat) (rest : list instr) (reg : Z) | Finished.

(** [main] before the barrier, joining the workers, behind that. *)
Inductive main_pc : Set := MainArrives | Joining | Joined.

Record config : Set := mkconfig { counter : Z; owner : option nat; threads : list thread; main_at : main_pc }.

#[export] Instance thread_eq_dec : EqDecision thread.
Proof. unfold EqDecision, Decision. repeat decide equality. Defined.

Section run.
Context (p : program) (limit : nat).

(** The test of the loop. *)
Definition loop_top (it : nat) (reg : Z) : thread := if it <? limit then Running it (body p) reg else Finished.

(** Behind an instruction. *)
Definition next (it : nat) (rest : list instr) (reg : Z) : thread :=
  match rest with [] => loop_top (it + 1) reg | _ => Running it rest reg end.

Definition set_thread (t : nat) (th : thread) (c : config) : config :=
  mkconfig (counter c) (owner c) (<[t := th]> (threads c)) (main_at c).

(** The barrier opens when every worker and [main] wait. *)
Definition barrier_open (c : config) : bool :=
  forallb (λ th, match th with Created => false | _ => true end) (threads c) &&
  match main_at c with MainArrives => false | _ => true end.

Definition exec (t it : nat) (i : instr) (rest : list instr) (reg : Z) (c : config) : option config :=
  match i with
  | Lock =>
      match owner c with
      | None => Some (mkconfig (counter c) (Some t) (<[t := next it rest reg]> (threads c)) (main_at c))
      | Some _ => None
      end
  | Load => Some (set_thread t (next it rest (counter c)) c)
  | Store => Some (mkconfig (reg + 1) (owner c) (<[t := next it rest reg]> (threads c)) (main_at c))
  | FetchAdd => Some (mkconfig (counter c + 1) (owner c) (<[t := next it rest reg]> (threads c)) (main_at c))
  | Busy => Some (set_thread t (next it rest reg) c)
  | Unlock => Some (mkconfig (counter c) None (<[t := next it rest reg]> (threads c)) (main_at c))
  end.

Definition thread_step (t : nat) (th : thread) (c : config) : option config :=
  match th with
  | Created => Some (set_thread t AtBarrier c)
  | AtBarrier => if barrier_open c then Some (set_thread t (loop_top 0 0) c) else None
  | Running it (i :: rest) reg => exec t it i rest reg c
  | Running _ [] _ | Finished => None
  end.

Definition set_main (m : main_pc) (c : config) : config := mkconfig (counter c) (owner c) (threads c) m.

Definition main_step (c : config) : option config :=
  match main_at c with
  | MainArrives => Some (set_main Joining c)
  | Joining => if forallb (λ th, bool_decide (th = Finished)) (threads c) then Some (set_main Joined c) else None
  | Joined => None
  end.

Inductive action : Set := Thread (t : nat) | Main.

Definition act (a : action) (c : config) : option config :=
  match a with
  | Thread t => th ← threads c !! t; thread_step t th c
  | Main => main_step c
  end.

Definition step (c c' : config) : Prop := ∃ a, act a c = Some c'.

(** [n] workers have been created and the counter is 0. *)
Definition start (n : nat) : config :=
  mkconfig 0 None (replicate n (if barrier p then Created else loop_top 0 0)) (if barrier p then MainArrives else Joining).

Definition reachable (n : nat) (c : config) : Prop := rtc step (start n) c.

Fixpoint run (l : list action) (c : config) : option config :=
  match l with [] => Some c | a :: l => c' ← act a c; run l c' end.

(** The workers leave the value [v] to [main]. *)
Definition result (n : nat) (v : Z) : Prop := ∃ c, reachable n c ∧ main_at c = Joined ∧ counter c = v.

End run.

(** [(argc > k) ? number(argv[k]) : default] *)
Definition argument (number : string → res Z) (argv : list string) (k : nat) (default : Z) : res Z :=
  match argv !! k with Some s => number s | None => Ok default end.

Definition long_max : Z := 9223372036854775807.

Definition atol (s : string) : res Z :=
  let z := signed_digits (skip_spaces s) in
  if (- long_max - 1 <=? z)%Z && (z <=? long_max)%Z then Ok z else UB Overflow.

End Counters.

(** ** [mutex.c] *)
Module MutexDemo.
Import Counters.

Definition THREADS : nat := 8.
Definition OPS_PER_THREAD : nat := Z.to_nat 100000.

Definition worker_with_mutex : program := mkprogram false [Lock; Load; Store; Unlock].
Definition worker_without_mutex : program := mkprogram false [Load; Store].

(** [main]; [racy] and [exact] are what the two groups of workers leave. *)
Definition main (racy exact : Z) : list string :=
  let expected := d (Z.of_nat THREADS * Z.of_nat OPS_PER_THREAD) in
  [("Without mutex : expected = " +:+ expected +:+ " actual = " +:+ d racy +:+ " " +:+ nl)%string;
   ("With mutex : expected = " +:+ expected +:+ " actual = " +:+ d exact +:+ " " +:+ nl)%string].

End MutexDemo.

(** ** [atomic_counter_with_instrinsics.c] *)
Module AtomicCounter.
Import Counters.

Definition THREADS : nat := 8.
Definition ITERATIONS : nat := Z.to_nat 1000.

Definition worker_atomic : program := mkprogram false [FetchAdd].

(** [main]; [time] is the elapsed time as printed. *)
Definition main (total : Z) (time : string) : list string :=
  [("atomic_counter = " +:+ d total +:+ " (expected = " +:+ d (Z.of_nat THREADS * Z.of_nat ITERATIONS) +:+ ") " +:+ nl)%string;
   ("time = " +:+ time +:+ "s " +:+ nl)%string].

End AtomicCounter.

(** ** [atomics_vs_mutex.c] *)
Module AtomicsVsMutex.
Import Counters.

Definition worker_atomic : program := mkprogram false [FetchAdd].
Definition worker_mutex : program := mkprogram false [Lock; Load; Store; Unlock].

(** The number of threads and of iterations; a negative one counts as none. *)
Definition arguments (argv : list string) : res (Z * Z) :=
  n ← argument atoi argv 1 32; k ← argument atol argv 2 1000000; Ok (n, k).

Definition main (argv : list string) (atomic mutex : Z) (time_atomic time_mutex : string) : res (list string) :=
  _ ← arguments argv;
  Ok [("Atomic : counter = " +:+ d atomic +:+ " time = " +:+ time_atomic +:+ "s " +:+ nl)%string;
      ("Mutex : counter = " +:+ d mutex +:+ " time = " +:+ time_mutex +:+ "s " +:+ nl)%string].

End AtomicsVsMutex.

(** ** [lock_free_atomics_vs_mutex_benchmark.c] *)
Module LockFreeBenchmark.
Import Counters.

Definition worker_atomic : program := mkprogram false [FetchAdd].
Definition worker_mutex : program := mkprogram false [Lock; Load; Store; Unlock].

Definition arguments (argv : list string) : res (Z * Z) :=
  n ← argument atoi argv 1 8; k ← argument atol argv 2 2000000; Ok (n, k).

(** [number_of_threads * iterations] *)
Definition total (n k : Z) : res Z :=
  if (- long_max - 1 <=? n * k)%Z && (n * k <=? long_max)%Z then Ok (n * k)%Z else UB Overflow.

Definition main (argv : list string) (atomic mutex : Z) (time_atomic time_mutex : string) : res (list string) :=
  '(n, k) ← arguments argv;
  t ← total n k;
  Ok [("Benchmarking with " +:+ d n +:+ " threads × " +:+ d k +:+ " iterations each (total = " +:+ d t +:+ " ops)" +:+ nl +:+ nl)%string;
      ("[Atomic] counter = " +:+ d atomic +:+ " | time = " +:+ time_atomic +:+ " sec" +:+ nl)%string;
      ("[Mutex ] counter = " +:+ d mutex +:+ " | time = " +:+ time_mutex +:+ " sec" +:+ nl)%string].

End LockFreeBenchmark.

(** ** [lock_comparision.c] *)
Module LockComparison.
Import Counters.

Inductive lock_type_t : Set := LOCK_MUTEX | LOCK_SPIN.

(** The critical section is the same under both locks. *)
Definition worker (type : lock_type_t) : program :=
  match type with
  | LOCK_MUTEX => mkprogram true [Lock; Busy; Load; Store; Unlock]
  | LOCK_SPIN => mkprogram true [Lock; Busy; Load; Store; Unlock]
  end.

(** [run_mode]'s report; [timing] is the elapsed time and the rate as printed. *)
Definition run_mode (name : string) (threads iterations cs_work total : Z) (timing : string * string) : string :=
  (name +:+ " : threads=" +:+ d threads +:+ " iterations=" +:+ d iterations +:+ " cs_work=" +:+ d cs_work +:+ " -> total=" +:+ d total
    +:+ " time=" +:+ timing.1 +:+ "s ops/sec=" +:+ timing.2 +:+ nl)%string.

(** [strncpy(mode, argv[4], sizeof(mode) - 1)] *)
Definition copy_mode (s : string) : string := String.substring 0 15 s.

Definition EXIT_FAILURE : Z := 1.

(** [main]: the exit status and what it prints; [final] is the counter that the
    workers of a mode leave. *)
Definition main (argv : list string) (final : lock_type_t → Z) (timing : lock_type_t → string * string) : res (Z * list string) :=
  match argv with
  | prog :: a1 :: a2 :: a3 :: a4 :: _ =>
      threads ← atoi a1; iterations ← atoi a2; cs_work ← atoi a3;
      let mode := copy_mode a4 in
      if (threads <=? 0)%Z || (iterations <=? 0)%Z || (cs_work <? 0)%Z then
        Ok (EXIT_FAILURE, [("Invalid numeric args" +:+ nl)%string])
      else
        let run type name := run_mode name threads iterations cs_work (final type) (timing type) in
        Ok (0%Z,
          (if bool_decide (mode = "mutex" ∨ mode = "both")%string then [run LOCK_MUTEX "MUTEX"%string] else []) ++
          (if bool_decide (mode = "spin" ∨ mode = "both")%string then [run LOCK_SPIN "SPIN"%string] else []))
  | prog :: _ =>
      Ok (EXIT_FAILURE, [("Usage: " +:+ prog +:+ " <threads> <iterations> <cs_work> <mode>" +:+ nl)%string;
                         ("mode: mutex | spin | both" +:+ nl)%string])
  | [] => UB NullDeref
  end.

End LockComparison.

(** ** The properties *)
Module CountersSpec.
Import Counters.

#[local] Arguments Nat.ltb : simpl never.
#[local] Arguments Nat.mul : simpl never.
#[local] Arguments Nat.sub : simpl never.

Abbreviation Σ f l := (sum_list_with f l).

(** *** A discipline for loop bodies *)

(** How the counter is protected: by the lock, by the atomic instruction, or
    not at all. *)
Inductive mode : Set := ByLock | ByAtomic | Unprotected.

#[export] Instance mode_eq_dec : EqDecision mode.
Proof. solve_decision. Defined.

(** The body keeps to the discipline when it begins with the lock held or not
    ([h]) and the register up to date or not ([l]). *)
Fixpoint guarded (m : mode) (h l : bool) (b : list instr) : bool :=
  match b, m with
  | [], _ => negb h && negb l
  | Busy :: b, _ => guarded m h l b
  | Lock :: b, ByLock => negb h && guarded m true false b
  | Unlock :: b, ByLock => h && negb l && guarded m false false b
  | Load :: b, ByLock => h && negb l && guarded m true true b
  | Store :: b, ByLock => h && l && guarded m true false b
  | FetchAdd :: b, ByLock => h && negb l && guarded m h l b
  | FetchAdd :: b, _ => guarded m h l b
  | Load :: b, Unprotected | Store :: b, Unprotected => guarded m h l b
  | _, _ => false
  end.

Lemma guarded_cons m h l i b :
  guarded m h l (i :: b) = true →
  match i with
  | Lock => m = ByLock ∧ h = false ∧ guarded m true false b = true
  | Unlock => m = ByLock ∧ h = true ∧ guarded m false false b = true
  | Load => m = ByLock ∧ h = true ∧ guarded m true true b = true ∨ m = Unprotected ∧ guarded m h l b = true
  | Store => m = ByLock ∧ h = true ∧ l = true ∧ guarded m true false b = true ∨ m = Unprotected ∧ guarded m h l b = true
  | FetchAdd => guarded m h l b = true ∧ (m = ByLock → h = true ∧ l = false)
  | Busy => guarded m h l b = true
  end.
Proof. destruct i, m, h, l; simpl; intros H; try done; naive_solver. Qed.

Definition adds (i : instr) : nat := match i with Store | FetchAdd => 1 | _ => 0 end.
Definition incs (b : list instr) : nat := Σ adds b.

Section discipline.
Context (p : program) (limit : nat) (m : mode).
Hypothesis Hbody : guarded m false false (body p) = true.
Hypothesis Hne : body p ≠ [].

(** The increments a thread has made. *)
Definition made (th : thread) : nat :=
  match th with
  | Running it rest _ => it * incs (body p) + (incs (body p) - incs rest)
  | Finished => limit * incs (body p)
  | _ => 0
  end.

(** What a running thread knows: [h] when it holds the lock, [l] when its
    register is the counter. *)
Definition knows (t : nat) (rest : list instr) (reg v : Z) (o : option nat) : Prop :=
  ∃ h l, guarded m h l rest = true ∧ (h = true ↔ o = Some t) ∧ (l = true → h = true ∧ reg = v).

Record inv (c : config) : Prop := mkinv {
  inv_thread t it rest reg : threads c !! t = Some (Running it rest reg) →
    it < limit ∧ rest ≠ [] ∧ rest `suffix_of` body p ∧ knows t rest reg (counter c) (owner c);
  inv_owner t : owner c = Some t → m = ByLock ∧ ∃ it rest reg, threads c !! t = Some (Running it rest reg);
  inv_counter : m ≠ Unprotected → counter c = Z.of_nat (Σ made (threads c));
  inv_joined : main_at c = Joined → Forall (λ th, th = Finished) (threads c)
}.

Lemma made_loop_top it reg : it ≤ limit → made (loop_top p limit it reg) = it * incs (body p).
Proof. intros Hle. unfold loop_top. destruct (Nat.ltb_spec it limit); simpl; [lia|]. by replace it with limit by lia. Qed.

Lemma loop_top_running it reg it' rest reg' :
  loop_top p limit it reg = Running it' rest reg' → it' = it ∧ rest = body p ∧ reg' = reg ∧ it < limit.
Proof. unfold loop_top. destruct (Nat.ltb_spec it limit); [|done]. by intros [= <- <- <-]. Qed.

Lemma knows_body t reg v o : o ≠ Some t → knows t (body p) reg v o.
Proof. intros Ho. exists false, false. split; [done|]. by split. Qed.

Lemma suffix_next i rest : (i :: rest) `suffix_of` body p → rest `suffix_of` body p ∧ incs (i :: rest) ≤ incs (body p).
Proof.
  intros [pre Hp]. split; [exists (pre ++ [i]); by rewrite <- app_assoc|]. rewrite Hp. unfold incs. rewrite sum_list_with_app. lia.
Qed.

Lemma counters_inv_start n : inv (start p limit n).
Proof.
  constructor; unfold start; cbn [threads owner counter main_at].
  - intros t it rest reg [Hth _]%lookup_replicate. destruct (barrier p); [done|]. symmetry in Hth. apply loop_top_running in Hth as (-> & -> & -> & Hl).
    split; [done|]. split; [done|]. split; [done|]. by apply knows_body.
  - done.
  - intros _. replace (Σ made _) with 0; [done|]. induction n as [|n IH]; [done|]. simpl. rewrite <- IH. destruct (barrier p); [done|].
    by rewrite made_loop_top by lia.
  - by destruct (barrier p).
Qed.

(** Thread [t] goes behind an instruction: what is left to show is its own
    knowledge and that it does not disturb the others. *)
Lemma inv_next c t it i rest reg v o r :
  inv c → threads c !! t = Some (Running it (i :: rest) reg) →
  knows t rest r v o →
  (∀ u, u ≠ t → (o = Some u ↔ owner c = Some u)) → (o ≠ None → m = ByLock) →
  (v = counter c ∨ owner c = Some t ∨ m ≠ ByLock) →
  (m ≠ Unprotected → v = counter c + Z.of_nat (adds i))%Z →
  inv (mkconfig v o (<[t := next p limit it rest r]> (threads c)) (main_at c)).
Proof.
  intros Hi Ht Hk Ho Hm Hv Hc. pose proof (inv_thread c Hi _ _ _ _ Ht) as (Hlt & _ & Hsuf & _).
  apply suffix_next in Hsuf as [Hsuf Hincs]. constructor; cbn [threads owner counter main_at].
  - intros u it' rest' reg' Hu. apply list_lookup_insert_Some in Hu as [(<- & Hu & _)|[Hne' Hu]].
    + destruct Hk as (h & l & Hg & Hh & Hl). unfold next in Hu. destruct rest as [|i' rest].
      * apply loop_top_running in Hu as (-> & -> & -> & Hlt'). split; [done|]. split; [done|]. split; [done|].
        apply knows_body. intros Hot. apply Hh in Hot as ->. done.
      * injection Hu as <- <- <-. split; [done|]. split; [done|]. split; [done|]. by exists h, l.
    + pose proof (inv_thread c Hi _ _ _ _ Hu) as (H1 & H2 & H3 & h & l & Hg & Hh & Hl).
      split; [done|]. split; [done|]. split; [done|]. exists h, l. split; [done|]. rewrite Ho by done. split; [done|].
      intros Hlt'. destruct (Hl Hlt') as [-> ->]. split; [done|].
      pose proof (proj1 Hh eq_refl) as Hou. destruct (inv_owner c Hi u Hou) as [Hml _]. destruct Hv as [Hv|[Hv|Hv]]; congruence.
  - intros u Hu. split; [apply Hm; congruence|]. destruct (decide (u = t)) as [->|Hne'].
    + subst o. destruct Hk as (h & l & Hg & Hh & _). pose proof (proj2 Hh eq_refl) as ->. unfold next. destruct rest as [|i' rest]; [done|].
      eexists it, _, r. by eapply lookup_self.
    + apply Ho in Hu; [|done]. destruct (inv_owner c Hi u Hu) as [_ H]. by rewrite list_lookup_insert_ne.
  - intros Hmu. rewrite (Hc Hmu), (inv_counter c Hi Hmu). pose proof (sum_with_insert made _ t _ (next p limit it rest r) Ht) as Hs.
    assert (made (next p limit it rest r) = made (Running it (i :: rest) reg) + adds i) as Hmade; [|lia].
    unfold next. unfold incs in *. simpl in *. destruct rest as [|i' rest]; [rewrite made_loop_top by lia; unfold incs; simpl in *; nia|simpl in *; unfold incs; simpl; lia].
  - intros Hj. pose proof (inv_joined c Hi Hj) as Hf. rewrite Forall_lookup in Hf. by specialize (Hf t _ Ht).
Qed.

(** A thread that waits or computes on variables of its own. *)
Lemma inv_aside c t th th' :
  inv c → threads c !! t = Some th → made th = made th' →
  (∀ it rest reg, th ≠ Running it rest reg) → th ≠ Finished →
  (∀ it rest reg, th' = Running it rest reg → it = 0 ∧ 0 < limit ∧ rest = body p) →
  inv (set_thread t th' c).
Proof.
  intros Hi Ht Hmade Hth Hfin Hth'. constructor; cbn [set_thread threads owner counter main_at].
  - intros u it rest reg Hu. apply list_lookup_insert_Some in Hu as [(<- & Hu & _)|[_ Hu]]; [|by eapply (inv_thread c Hi)].
    destruct (Hth' _ _ _ Hu) as (-> & Hl & ->). split; [done|]. split; [done|]. split; [done|]. apply knows_body.
    intros Ho. destruct (inv_owner c Hi t Ho) as (_ & i & r & g & Hr). rewrite Ht in Hr. injection Hr as Hr. by eapply Hth.
  - intros u Hu. destruct (inv_owner c Hi u Hu) as (Hm & i & r & g & Hr). split; [done|]. exists i, r, g.
    rewrite list_lookup_insert_ne; [done|]. intros <-. rewrite Ht in Hr. injection Hr as Hr. by eapply Hth.
  - intros Hm. rewrite (inv_counter c Hi Hm). pose proof (sum_with_insert made _ t _ th' Ht). lia.
  - intros Hj. pose proof (inv_joined c Hi Hj) as Hf. rewrite Forall_lookup in Hf. by specialize (Hf t _ Ht).
Qed.

Lemma inv_exec c t it i rest reg c' :
  inv c → threads c !! t = Some (Running it (i :: rest) reg) → exec p limit t it i rest reg c = Some c' → inv c'.
Proof.
  intros Hi Ht He. destruct (inv_thread c Hi _ _ _ _ Ht) as (_ & _ & _ & h & l & Hg & Hh & Hl).
  assert (owner c ≠ None → m = ByLock) as Hm by (intros Hn; destruct (owner c) as [u|] eqn:Ho; [by apply (inv_owner c Hi u Ho)|done]).
  assert (m ≠ ByLock → h = false ∧ l = false) as Hu.
  { intros Hmu. assert (h = false) as -> by (destruct h; [destruct Hmu; apply Hm; by rewrite (proj1 Hh eq_refl)|done]).
    split; [done|]. destruct l; [|done]. by destruct (Hl eq_refl). }
  apply guarded_cons in Hg. destruct i; simpl in He.
  - destruct Hg as (Em & -> & Hg). destruct (owner c) as [u|] eqn:Ho; [done|]. injection He as <-.
    eapply inv_next; try done; [by exists true, false|intros u Hne'; rewrite Ho; split; congruence|by left|simpl; lia].
  - injection He as <-. eapply inv_next; try done; [|by left|simpl; lia].
    destruct Hg as [(Em & -> & Hg)|[Em Hg]]; [by exists true, true|]. destruct Hu as [-> ->]; [congruence|]. by exists false, false.
  - injection He as <-. destruct Hg as [(Em & -> & -> & Hg)|[Em Hg]].
    + destruct (Hl eq_refl) as [_ ->]. eapply inv_next; try done; [by exists true, false|right; left; by apply Hh].
    + destruct Hu as [-> ->]; [congruence|]. eapply inv_next; try done; [by exists false, false|right; right; congruence].
  - injection He as <-. destruct Hg as [Hg HL]. eapply inv_next; try done.
    + exists h, l. split; [done|]. split; [done|]. intros ->. destruct (Hl eq_refl) as [-> _].
      destruct (decide (m = ByLock)) as [Em|Em]; [by destruct (HL Em)|by destruct (Hu Em)].
    + destruct (decide (m = ByLock)) as [Em|Em]; [right; left; apply Hh; by apply HL|by right; right].
  - injection He as <-. eapply inv_next; try done; [by exists h, l|by left|simpl; lia].
  - destruct Hg as (Em & -> & Hg). pose proof (proj1 Hh eq_refl) as Ho. injection He as <-.
    eapply inv_next; try done; [by exists false, false|intros u Hne'; rewrite Ho; split; congruence|by left|simpl; lia].
Qed.

Lemma counters_inv_act a c c' : inv c → act p limit a c = Some c' → inv c'.
Proof.
  intros Hi. destruct a as [t|]; simpl.
  - destruct (threads c !! t) as [th|] eqn:Ht; [|done]. simpl. destruct th as [| |it rest reg|]; simpl; [| | |done].
    + intros [= <-]. by eapply inv_aside.
    + destruct (barrier_open c); [|done]. intros [= <-]. eapply inv_aside; try done.
      * by rewrite made_loop_top by lia.
      * intros it rest reg Hr. apply loop_top_running in Hr. naive_solver.
    + destruct rest as [|i rest]; [done|]. by apply inv_exec.
  - unfold main_step. destruct Hi as [H1 H2 H3 H4]. destruct (main_at c); [| |done].
    + intros [= <-]. by constructor.
    + destruct (forallb _ _) eqn:Hf; [|done]. intros [= <-]. constructor; simpl; try done. intros _.
      apply Forall_forall. intros x Hx. rewrite forallb_forall in Hf. specialize (Hf x). rewrite bool_decide_eq_true in Hf.
      by apply Hf, list_elem_of_In.
Qed.

Lemma counters_inv_steps c c' : rtc (step p limit) c c' → inv c → inv c'.
Proof. induction 1 as [|c1 c2 c3 [a Ha] _ IH]; intros Hi; [done|]. by eapply IH, counters_inv_act. Qed.

Lemma counters_inv n c : reachable p limit n c → inv c.
Proof. intros Hr. eapply counters_inv_steps; [exact Hr|apply counters_inv_start]. Qed.

(** Before [main] has joined them, threads can go on. *)
Lemma counters_progress c : inv c → main_at c ≠ Joined → ∃ c', step p limit c c'.
Proof.
  intros Hi Hm. assert (main_at c = MainArrives ∨ main_at c = Joining) as [Ha|Ha] by (destruct (main_at c); naive_solver).
  { eexists. exists Main. simpl. unfold main_step. by rewrite Ha. }
  assert (∀ t it i rest reg, threads c !! t = Some (Running it (i :: rest) reg) → i ≠ Lock ∨ owner c = None → ∃ c', step p limit c c') as Hrun.
  { intros t it i rest reg Ht Hi'. destruct (exec p limit t it i rest reg c) as [c'|] eqn:He.
    - exists c', (Thread t). simpl. rewrite Ht. done.
    - destruct i; simpl in He; try done. destruct (owner c); [|done]. by destruct Hi'. }
  destruct (owner c) as [t|] eqn:Ho.
  { destruct (inv_owner c Hi t Ho) as (_ & it & rest & reg & Ht). destruct (inv_thread c Hi _ _ _ _ Ht) as (_ & Hr & _ & h & l & Hg & Hh & _).
    destruct rest as [|i rest]; [done|]. apply (Hrun t it i rest reg Ht). left. intros ->. apply guarded_cons in Hg as (_ & -> & _).
    by apply Hh in Ho. }
  destruct (decide (Forall (λ th, th = Finished) (threads c))) as [Hf|Hf].
  { eexists. exists Main. simpl. unfold main_step. rewrite Ha. rewrite (proj2 (forallb_forall _ _)); [done|].
    intros x Hx. apply bool_decide_eq_true. rewrite Forall_forall in Hf. by apply Hf, list_elem_of_In. }
  destruct (decide (Created ∈ threads c)) as [[t Ht]%list_elem_of_lookup|Hcr].
  { eexists. exists (Thread t). simpl. by rewrite Ht. }
  apply not_Forall_Exists in Hf; [|apply _]. apply Exists_exists in Hf as (th & [t Ht]%list_elem_of_lookup & Hth). destruct th as [| |it rest reg|].
  - destruct Hcr. by eapply list_elem_of_lookup_2.
  - eexists. exists (Thread t). simpl. rewrite Ht. simpl. replace (barrier_open c) with true; [done|]. symmetry.
    unfold barrier_open. rewrite Ha, andb_true_r. apply forallb_forall. intros x Hx. destruct x; try done. by apply list_elem_of_In in Hx.
  - destruct (inv_thread c Hi _ _ _ _ Ht) as (_ & Hr & _). destruct rest as [|i rest]; [done|]. by apply (Hrun t it i rest reg Ht); right.
  - by destruct Hth.
Qed.

(** The steps that are left. *)
Definition weight (th : thread) : nat :=
  match th with
  | Created => limit * length (body p) + 2
  | AtBarrier => limit * length (body p) + 1
  | Running it rest _ => (limit - S it) * length (body p) + length rest
  | Finished => 0
  end.
Definition weight_main (a : main_pc) : nat := match a with MainArrives => 2 | Joining => 1 | Joined => 0 end.
Definition work (c : config) : nat := Σ weight (threads c) + weight_main (main_at c).

Lemma weight_loop_top it reg : it ≤ limit → weight (loop_top p limit it reg) = (limit - it) * length (body p).
Proof.
  intros Hle. unfold loop_top. destruct (Nat.ltb_spec it limit); simpl; [|by replace (limit - it) with 0 by lia].
  replace (limit - it) with (S (limit - S it)) by lia. lia.
Qed.

Lemma weight_next it i rest reg r : it < limit → weight (next p limit it rest r) + 1 = weight (Running it (i :: rest) reg).
Proof.
  intros Hlt. unfold next. destruct rest as [|i' rest]; [rewrite weight_loop_top by lia|]; cbn [weight length]; [|lia].
  by replace (limit - (it + 1)) with (limit - S it) by lia.
Qed.

(** Every step is one of them. *)
Lemma counters_act_work a c c' : inv c → act p limit a c = Some c' → work c' + 1 = work c.
Proof.
  intros Hi. destruct a as [t|]; simpl.
  - destruct (threads c !! t) as [th|] eqn:Ht; [|done]. simpl. unfold work.
    assert (∀ th' c'', threads c'' = <[t := th']> (threads c) → main_at c'' = main_at c → weight th' + 1 = weight th →
      Σ weight (threads c'') + weight_main (main_at c'') + 1 = Σ weight (threads c) + weight_main (main_at c)) as Hw.
    { intros th' c'' -> -> Hw. pose proof (sum_with_insert weight _ t _ th' Ht). lia. }
    destruct th as [| |it rest reg|]; simpl; [| | |done].
    + intros [= <-]. eapply Hw; [done..|simpl; lia].
    + destruct (barrier_open c); [|done]. intros [= <-]. eapply Hw; [done..|]. rewrite weight_loop_top by lia. simpl. by rewrite Nat.sub_0_r.
    + destruct (inv_thread c Hi _ _ _ _ Ht) as (Hlt & _). destruct rest as [|i rest]; [done|].
      destruct i; simpl; try destruct (owner c); intros He; simplify_eq; (eapply Hw; [done..|by apply weight_next]).
  - unfold main_step, work. destruct (main_at c); [| |done].
    + intros [= <-]. simpl. lia.
    + destruct (forallb _ _); [|done]. intros [= <-]. simpl. lia.
Qed.

Lemma counters_run_length n k c : nsteps (step p limit) k (start p limit n) c → inv c ∧ k + work c = work (start p limit n).
Proof.
  intros Hr. pose proof (counters_inv_start n) as Hi. induction Hr as [c|k c1 c2 c3 [a Ha] _ IH]; [done|].
  pose proof (counters_act_work a c1 c2 Hi Ha). destruct (IH (counters_inv_act a c1 c2 Hi Ha)) as [H1 H2]. split; [done|]. lia.
Qed.

Lemma counters_run_end n k c :
  nsteps (step p limit) k (start p limit n) c → k + work c = work (start p limit n) ∧ (main_at c = Joined ∨ ∃ c', step p limit c c').
Proof.
  intros [Hi Hk]%counters_run_length. split; [done|].
  destruct (main_at c) eqn:Hm; [right|right|by left]; apply counters_progress; congruence.
Qed.

Lemma made_le c th t : inv c → threads c !! t = Some th → made th ≤ limit * incs (body p).
Proof.
  intros Hi Ht. destruct th as [| |it rest reg|]; simpl; try lia. destruct (inv_thread c Hi _ _ _ _ Ht) as (Hlt & _). nia.
Qed.

Lemma act_length a c c' : act p limit a c = Some c' → length (threads c') = length (threads c).
Proof.
  destruct a as [t|]; simpl.
  - destruct (threads c !! t) as [[| |it [|i rest] reg|]|]; simpl; try done.
    + intros [= <-]. apply length_insert.
    + destruct (barrier_open c); [|done]. intros [= <-]. apply length_insert.
    + destruct i; simpl; try destruct (owner c); intros; simplify_eq; apply length_insert.
  - unfold main_step. destruct (main_at c); [| |done]; repeat case_match; intros; by simplify_eq.
Qed.

Lemma counters_threads n c : reachable p limit n c → length (threads c) = n.
Proof.
  intros Hr. assert (∀ c c', rtc (step p limit) c c' → length (threads c') = length (threads c)) as Hl.
  { induction 1 as [|c1 c2 c3 [a Ha] _ IH]; [done|]. rewrite IH. by eapply act_length. }
  rewrite (Hl _ _ Hr). apply length_replicate.
Qed.

Lemma sum_all (f : thread → nat) (l : list thread) x : Forall (λ th, th = x) l → Σ f l = length l * f x.
Proof. induction 1 as [|? l -> _ IH]; [done|]. cbn [sum_list_with length]. rewrite IH. lia. Qed.

Lemma sum_each_bound {A} (f : A → nat) (l : list A) b : (∀ t x, l !! t = Some x → f x ≤ b) → Σ f l ≤ length l * b.
Proof.
  induction l as [|x l IH]; intros H; [done|]. cbn [sum_list_with length]. pose proof (H 0 x eq_refl).
  assert (Σ f l ≤ length l * b) by (apply IH; intros t; apply (H (S t))). lia.
Qed.

(** No increment is lost. *)
Lemma counters_exact n c :
  m ≠ Unprotected → reachable p limit n c →
  (0 ≤ counter c ≤ Z.of_nat (n * (limit * incs (body p))))%Z ∧ (main_at c = Joined → counter c = Z.of_nat (n * (limit * incs (body p)))).
Proof.
  intros Hm Hr. pose proof (counters_inv n c Hr) as Hi. pose proof (counters_threads n c Hr) as Hl. rewrite (inv_counter c Hi Hm). split.
  - split; [lia|]. apply inj_le. rewrite <- Hl. apply sum_each_bound. intros t th. by apply made_le.
  - intros Hj. by rewrite (sum_all _ _ _ (inv_joined c Hi Hj)), Hl.
Qed.

End discipline.

(** *** Without protection *)

Section racy.
Context (limit : nat).
Hypothesis Hlimit : 2 ≤ limit.

Abbreviation racer := MutexDemo.worker_without_mutex.
Abbreviation made := (made racer limit).

Record racy (c : config) : Prop := mkracy {
  racy_inv : inv racer limit Unprotected c;
  racy_counter : (0 ≤ counter c ≤ Z.of_nat (Σ made (threads c)))%Z;
  racy_pos : 0 < Σ made (threads c) → (1 ≤ counter c)%Z;
  racy_reg t it reg : threads c !! t = Some (Running it [Store] reg) →
    (0 ≤ reg ≤ Z.of_nat (Σ made (threads c)))%Z ∧ (0 < it → (1 ≤ reg)%Z);
  racy_end : 0 < length (threads c) → Forall (λ th, th = Finished) (threads c) → (2 ≤ counter c)%Z
}.

Lemma racy_start n : racy (start racer limit n).
Proof.
  assert (loop_top racer limit 0 0 = Running 0 [Load; Store] 0) as E by (unfold loop_top; by destruct (Nat.ltb_spec 0 limit); [|lia]).
  assert (Σ made (replicate n (Running 0 [Load; Store] 0)) = 0) as H0 by (by induction n as [|n IH]; [|cbn [replicate sum_list_with]; rewrite IH]).
  constructor; [by apply counters_inv_start|..]; unfold start; cbn [threads counter barrier MutexDemo.worker_without_mutex]; rewrite ?E, ?H0; try lia.
  - by intros t it reg [? _]%lookup_replicate.
  - rewrite length_replicate. intros Hn Hf. rewrite Forall_lookup in Hf. specialize (Hf 0 (Running 0 [Load; Store] 0)).
    by discriminate Hf; apply lookup_replicate.
Qed.

(** A thread other than one that stores. *)
Lemma racy_local c t th th' :
  racy c → threads c !! t = Some th → made th' = made th → th' ≠ Finished →
  (∀ it reg, th' = Running it [Store] reg → reg = counter c ∧ made th = it) →
  inv racer limit Unprotected (set_thread t th' c) → racy (set_thread t th' c).
Proof.
  intros [H1 H2 H3 H4 H5] Ht Hm Hf Hr Hi. pose proof (sum_with_insert made _ t _ th' Ht) as Hs.
  pose proof (BufferSpec.sum_lookup made _ _ _ Ht).
  constructor; cbn [set_thread threads counter]; [done|lia|intros; apply H3; lia| |].
  - intros u it reg Hu. apply list_lookup_insert_Some in Hu as [(<- & Hu & _)|[_ Hu]].
    + destruct (Hr _ _ Hu) as [-> <-]. split; [lia|]. intros. apply H3. lia.
    + destruct (H4 _ _ _ Hu). split; [lia|done].
  - intros _ Hall. rewrite Forall_lookup in Hall. destruct Hf. eapply Hall. by eapply lookup_self.
Qed.

Lemma racy_act a c c' : racy c → act racer limit a c = Some c' → racy c'.
Proof.
  intros Hc Ha. pose proof (racy_inv c Hc) as Hi. assert (inv racer limit Unprotected c') as Hi' by (by eapply counters_inv_act).
  destruct a as [t|]; simpl in Ha.
  - destruct (threads c !! t) as [th|] eqn:Ht; [|done]. simpl in Ha. destruct th as [| |it rest reg|]; simpl in Ha; [| | |done].
    + injection Ha as <-. by eapply racy_local.
    + destruct (barrier_open c); [|done]. injection Ha as <-. unfold loop_top in *. destruct (Nat.ltb_spec 0 limit); [|lia]. by eapply racy_local.
    + destruct (inv_thread _ _ _ _ Hi _ _ _ _ Ht) as (Hlt & Hr & [pre Hsuf] & _). destruct rest as [|i rest]; [done|].
      assert (i = Load ∧ rest = [Store] ∨ i = Store ∧ rest = []) as [[-> ->]|[-> ->]].
      { simpl in Hsuf. destruct pre as [|? [|? [|? ?]]]; simplify_eq/=; [by left|by right]. }
      * simpl in Ha. injection Ha as <-. eapply racy_local; try done.
        intros i r [= -> ->]. split; [done|]. simpl. unfold incs. simpl. lia.
      * simpl in Ha. injection Ha as <-. destruct Hc as [_ H2 H3 H4 H5]. destruct (H4 _ _ _ Ht) as [Hr1 Hr2].
        pose proof (sum_with_insert made _ t _ (loop_top racer limit (it + 1) reg) Ht) as Hs. rewrite made_loop_top in Hs by lia. simpl in Hs. unfold incs in Hs. simpl in Hs.
        constructor; cbn [threads counter]; [done|lia|lia| |].
        -- intros u i r Hu. apply list_lookup_insert_Some in Hu as [(<- & Hu & _)|[_ Hu]]; [by apply loop_top_running in Hu as (_ & ? & _)|].
           destruct (H4 _ _ _ Hu). split; [lia|done].
        -- intros _ Hall. rewrite Forall_lookup in Hall. specialize (Hall t _ (lookup_self _ _ _ _ Ht)). unfold loop_top in Hall.
           destruct (Nat.ltb_spec (it + 1) limit); [done|]. lia.
  - unfold main_step in Ha. destruct Hc as [_ H2 H3 H4 H5]. destruct (main_at c); [| |done]; repeat case_match; simplify_eq; by constructor.
Qed.

Lemma racy_reachable n c : reachable racer limit n c → racy c.
Proof.
  unfold reachable. pose proof (racy_start n) as Hs. revert Hs. generalize (start racer limit n). intros c0 Hs Hr.
  induction Hr as [c|c1 c2 c3 [a Ha] _ IH]; [done|]. by eapply IH, racy_act.
Qed.

Lemma racy_result n v : 0 < n → result racer limit n v → (2 ≤ v ≤ Z.of_nat (n * limit))%Z.
Proof.
  intros Hn (c & Hr & Hj & <-). pose proof (racy_reachable n c Hr) as [Hi H2 _ _ H5]. pose proof (counters_threads racer limit ltac:(done) n c Hr) as Hl.
  pose proof (inv_joined _ _ _ _ Hi Hj) as Hf. split; [apply H5; [lia|done]|]. rewrite (sum_all made _ _ Hf), Hl in H2.
  change (made Finished) with (limit * 1) in H2. rewrite Nat.mul_1_r in H2. lia.
Qed.

(** Thread [t] loads. *)
Lemma racer_load c t it r :
  threads c !! t = Some (Running it [Load; Store] r) → step racer limit c (set_thread t (Running it [Store] (counter c)) c).
Proof. intros Ht. exists (Thread t). simpl. by rewrite Ht. Qed.

(** Thread [t] stores. *)
Lemma racer_store c t it r :
  threads c !! t = Some (Running it [Store] r) →
  step racer limit c (mkconfig (r + 1) (owner c) (<[t := loop_top racer limit (it + 1) r]> (threads c)) (main_at c)).
Proof. intros Ht. exists (Thread t). simpl. by rewrite Ht. Qed.

(** Thread [t] runs [k] iterations while the others rest. *)
Lemma racer_solo k c t it r :
  threads c !! t = Some (loop_top racer limit it r) → it + k ≤ limit →
  ∃ r', rtc (step racer limit) c
    (mkconfig (counter c + Z.of_nat k) (owner c) (<[t := loop_top racer limit (it + k) r']> (threads c)) (main_at c)).
Proof.
  revert c it r. induction k as [|k IH]; intros c it r Ht Hle.
  - exists r. rewrite Nat.add_0_r, list_insert_id by done. change (Z.of_nat 0) with 0%Z. rewrite Z.add_0_r. by destruct c.
  - unfold loop_top in Ht. destruct (Nat.ltb_spec it limit); [|lia]. pose proof (racer_load _ _ _ _ Ht) as H1. unfold set_thread in H1.
    pose proof (racer_store (set_thread t (Running it [Store] (counter c)) c) t it (counter c) (lookup_self _ _ _ _ Ht)) as H2. unfold set_thread in H2. simpl in H2.
    rewrite list_insert_insert_eq in H2.
    destruct (IH (mkconfig (counter c + 1) (owner c) (<[t := loop_top racer limit (it + 1) (counter c)]> (threads c)) (main_at c)) (it + 1) (counter c))
      as [r' H3]; [by eapply lookup_self|lia|]. simpl in H3. rewrite list_insert_insert_eq in H3. exists r'.
    eapply rtc_l; [exact H1|]. eapply rtc_l; [exact H2|]. replace (it + S k) with (it + 1 + k) by lia.
    by replace (counter c + Z.of_nat (S k))%Z with (counter c + 1 + Z.of_nat k)%Z by lia.
Qed.

Lemma loop_top_end r : loop_top racer limit limit r = Finished.
Proof. unfold loop_top. destruct (Nat.ltb_spec limit limit); [lia|done]. Qed.

(** The threads [j], ..., [j + k - 1] run one after the other. *)
Lemma racer_rest k j c :
  (∀ u, j ≤ u < j + k → threads c !! u = Some (loop_top racer limit 0 0)) →
  ∃ c', rtc (step racer limit) c c' ∧ counter c' = (counter c + Z.of_nat (k * limit))%Z ∧ owner c' = owner c ∧ main_at c' = main_at c ∧
    length (threads c') = length (threads c) ∧
    ∀ u, threads c' !! u = if decide (j ≤ u < j + k) then Some Finished else threads c !! u.
Proof.
  revert j c. induction k as [|k IH]; intros j c Hc.
  - exists c. split; [done|]. split; [lia|]. do 3 (split; [done|]). intros u. case_decide; [lia|done].
  - destruct (racer_solo limit c j 0 0 (Hc j ltac:(lia)) ltac:(lia)) as [r H1]. rewrite Nat.add_0_l, loop_top_end in H1.
    destruct (IH (S j) (mkconfig (counter c + Z.of_nat limit) (owner c) (<[j := Finished]> (threads c)) (main_at c))) as (c' & H2 & H3 & H4 & H5 & H6 & H7).
    { intros u Hu. simpl. rewrite list_lookup_insert_ne by lia. apply Hc. lia. }
    exists c'. simpl in *. split; [by etrans|]. split; [rewrite H3; lia|]. rewrite length_insert in H6. do 3 (split; [done|]).
    intros u. rewrite H7. repeat case_decide; try lia; try done.
    + assert (u = j) as -> by lia. apply list_lookup_insert_eq. apply lookup_lt_Some with (loop_top racer limit 0 0). apply Hc. lia.
    + rewrite list_lookup_insert_ne; [done|lia].
Qed.

(** When all threads have finished [main] joins them. *)
Lemma racer_join n c :
  reachable racer limit n c → main_at c = Joining → (∀ u, u < n → threads c !! u = Some Finished) → result racer limit n (counter c).
Proof.
  intros Hr Hm Hf. exists (set_main Joined c). split; [|done]. eapply rtc_r; [exact Hr|]. exists Main. simpl. unfold main_step. rewrite Hm.
  replace (forallb _ _) with true; [done|]. symmetry. apply forallb_forall. intros x [u Hu]%list_elem_of_In%list_elem_of_lookup.
  apply bool_decide_eq_true. pose proof (lookup_lt_Some _ _ _ Hu) as Hl. rewrite (counters_threads racer limit ltac:(done) n c Hr) in Hl.
  specialize (Hf u Hl). congruence.
Qed.

(** No two threads meet. *)
Lemma racy_most n : result racer limit n (Z.of_nat (n * limit)).
Proof.
  destruct (racer_rest n 0 (start racer limit n)) as (c & H1 & H2 & _ & H4 & _ & H6).
  { intros u Hu. apply lookup_replicate. split; [done|lia]. }
  replace (Z.of_nat (n * limit)) with (counter c) by (rewrite H2; simpl; lia).
  apply racer_join; [done|done|]. intros u Hu. rewrite H6. case_decide; [done|lia].
Qed.

(** Thread 0 stores 1 behind all but one iteration of thread 1, and thread 1
    what it then loads behind everything else. *)
Lemma racy_least n : 2 ≤ n → result racer limit n 2.
Proof.
  intros Hn. set (c0 := start racer limit n).
  assert (∀ u, u < n → threads c0 !! u = Some (loop_top racer limit 0 0)) as H0 by (intros u Hu; by apply lookup_replicate).
  assert (loop_top racer limit 0 0 = Running 0 [Load; Store] 0) as E by (unfold loop_top; by destruct (Nat.ltb_spec 0 limit); [|lia]).
  pose proof (racer_load c0 0 0 0 ltac:(rewrite H0 by lia; by rewrite E)) as S1.
  set (c1 := set_thread 0 _ c0) in S1.
  destruct (racer_solo (limit - 1) c1 1 0 0) as [r S2]; [simpl; rewrite list_lookup_insert_ne by lia; apply H0; lia|lia|]. rewrite Nat.add_0_l in S2.
  set (c2 := mkconfig _ _ _ _) in S2.
  assert (threads c1 !! 0 = Some (Running 0 [Store] 0)) as L1 by (apply (lookup_self _ _ (loop_top racer limit 0 0)), H0; lia).
  assert (threads c2 !! 0 = Some (Running 0 [Store] 0)) as L2 by (simpl; rewrite list_lookup_insert_ne by lia; exact L1).
  assert (threads c2 !! 1 = Some (loop_top racer limit (limit - 1) r)) as M2.
  { apply (lookup_self _ _ (loop_top racer limit 0 0)). simpl. rewrite list_lookup_insert_ne by lia. apply H0. lia. }
  pose proof (racer_store c2 0 0 0 L2) as S3. set (c3 := mkconfig _ _ _ _) in S3.
  assert (threads c3 !! 1 = Some (Running (limit - 1) [Load; Store] r)) as M3.
  { change (threads c3) with (<[0 := loop_top racer limit 1 0]> (threads c2)). rewrite list_lookup_insert_ne by lia. rewrite M2. unfold loop_top. by destruct (Nat.ltb_spec (limit - 1) limit); [|lia]. }
  pose proof (racer_load c3 1 _ _ M3) as S4. set (c4 := set_thread _ _ _) in S4.
  destruct (racer_solo (limit - 1) c4 0 1 0) as [r' S5]; [|lia|].
  { change (threads c4) with (<[1 := Running (limit - 1) [Store] 1]> (threads c3)). rewrite list_lookup_insert_ne by lia. apply (lookup_self _ _ _ _ L2). }
  replace (1 + (limit - 1)) with limit in S5 by lia. rewrite loop_top_end in S5. set (c5 := mkconfig _ _ _ _) in S5.
  assert (threads c4 !! 1 = Some (Running (limit - 1) [Store] 1)) as M4 by (apply (lookup_self _ _ _ _ M3)).
  assert (threads c5 !! 1 = Some (Running (limit - 1) [Store] 1)) as M5 by (change (threads c5) with (<[0 := Finished]> (threads c4)); rewrite list_lookup_insert_ne by lia; exact M4).
  destruct (racer_rest (n - 2) 2 c5) as (c6 & S6 & _ & _ & J6 & _ & L6).
  { intros u Hu. simpl threads. rewrite !list_lookup_insert_ne by lia. apply H0. lia. }
  pose proof (racer_store c6 1 (limit - 1) 1 ltac:(rewrite L6; by case_decide; [lia|])) as S7. set (c7 := mkconfig _ _ _ _) in S7.
  apply (racer_join n c7).
  - eapply rtc_l; [exact S1|]. etrans; [exact S2|]. eapply rtc_l; [exact S3|]. eapply rtc_l; [exact S4|]. etrans; [exact S5|].
    etrans; [exact S6|]. by apply rtc_once.
  - simpl. by rewrite J6.
  - intros u Hu. replace (threads c7) with (<[1 := Finished]> (threads c6)) by (subst c7; simpl; replace (limit - 1 + 1) with limit by lia; by rewrite loop_top_end). destruct (decide (u = 1)) as [->|Hne].
    + apply (lookup_self _ _ (Running (limit - 1) [Store] 1)). rewrite L6. by case_decide; [lia|].
    + rewrite list_lookup_insert_ne by done. rewrite L6. case_decide; [done|]. assert (u = 0) as -> by lia.
      apply (lookup_self _ _ (loop_top racer limit 1 0)). change (threads c4) with (<[1 := Running (limit - 1) [Store] 1]> (threads c3)).
      rewrite list_lookup_insert_ne by lia. apply (lookup_self _ _ _ _ L2).
Qed.

End racy.

(** ** The theorems *)

(** The workers that use a lock or an atomic instruction. *)
Definition protected : list program :=
  [MutexDemo.worker_with_mutex; AtomicCounter.worker_atomic; AtomicsVsMutex.worker_atomic; AtomicsVsMutex.worker_mutex;
   LockFreeBenchmark.worker_atomic; LockFreeBenchmark.worker_mutex;
   LockComparison.worker LockComparison.LOCK_MUTEX; LockComparison.worker LockComparison.LOCK_SPIN].

Lemma protected_guarded p :
  p ∈ protected → body p ≠ [] ∧ incs (body p) = 1 ∧ ∃ m, m ≠ Unprotected ∧ guarded m false false (body p) = true.
Proof.
  intros Hp. unfold protected in Hp. rewrite !elem_of_cons, elem_of_nil in Hp.
  destruct_or? Hp; subst; (split; [done|]); (split; [done|]); (exists ByLock; done) || (exists ByAtomic; done).
Qed.

(** Under a lock or with atomic instructions no increment is lost: however [n]
    workers of [limit] iterations interleave, the counter never exceeds
    [n * limit], and that is its value once [main] has joined them. *)
Theorem protected_counters_exact p limit n c :
  p ∈ protected → reachable p limit n c →
  (0 ≤ counter c ≤ Z.of_nat (n * limit))%Z ∧ (main_at c = Joined → counter c = Z.of_nat (n * limit)).
Proof.
  intros (Hne & Hinc & m & Hm & Hg)%protected_guarded Hr.
  pose proof (counters_exact p limit m Hg Hne n c Hm Hr) as H. by rewrite Hinc, Nat.mul_1_r in H.
Qed.

(** C34: the counter of [worker_without_mutex] is at least 2 and at most [n * limit]
    when the [n] workers have made their [limit] (two or more) increments each,
    and both values occur when there are two workers or more: all but two of the
    increments can be lost, and never more. *)
Theorem unprotected_counter_range limit n :
  2 ≤ limit → 2 ≤ n →
  (∀ v, result MutexDemo.worker_without_mutex limit n v → (2 ≤ v ≤ Z.of_nat (n * limit))%Z) ∧
  result MutexDemo.worker_without_mutex limit n 2 ∧
  result MutexDemo.worker_without_mutex limit n (Z.of_nat (n * limit)).
Proof.
  intros Hl Hn. split; [intros v; apply racy_result; lia|]. split; [by apply racy_least|by apply racy_most].
Qed.

(** All programs, protected or not, end: no run is longer than the steps of the
    loops, the barriers and [main], and before [main] has joined the workers some
    thread can always go on. *)
Theorem counters_terminate p limit n k c :
  p = MutexDemo.worker_without_mutex ∨ p ∈ protected → nsteps (step p limit) k (start p limit n) c →
  k ≤ n * (limit * length (body p) + 2) + 2 ∧ (main_at c = Joined ∨ ∃ c', step p limit c c').
Proof.
  intros Hp Hr. assert (∃ m, guarded m false false (body p) = true ∧ body p ≠ []) as (m & Hg & Hne).
  { destruct Hp as [->|(Hne & _ & m & _ & Hg)%protected_guarded]; [by exists Unprotected|by exists m]. }
  destruct (counters_run_end p limit m Hg Hne n k c Hr) as [Hk Hend]. split; [|done].
  assert (work p limit (start p limit n) ≤ n * (limit * length (body p) + 2) + 2) as Hw; [|lia].
  unfold work, start. cbn [threads main_at]. apply Nat.add_le_mono; [|by destruct (barrier p); simpl; lia].
  etrans; [apply (sum_each_bound _ _ (limit * length (body p) + 2))|by rewrite length_replicate].
  intros t th [-> _]%lookup_replicate. destruct (barrier p); [done|]. rewrite weight_loop_top by lia. rewrite Nat.sub_0_r. lia.
Qed.

(** What [lock_comparision] prints does not depend on how its workers interleave,
    the times apart: both modes report the total threads * iterations. *)
Theorem lock_comparison_totals prog a1 a2 a3 a4 rest threads iterations cs_work final timing :
  atoi a1 = Ok threads → atoi a2 = Ok iterations → atoi a3 = Ok cs_work → (0 ≤ threads)%Z → (0 ≤ iterations)%Z →
  (∀ type, result (LockComparison.worker type) (Z.to_nat iterations) (Z.to_nat threads) (final type)) →
  LockComparison.main (prog :: a1 :: a2 :: a3 :: a4 :: rest) final timing =
  LockComparison.main (prog :: a1 :: a2 :: a3 :: a4 :: rest) (λ _, threads * iterations)%Z timing.
Proof.
  intros H1 H2 H3 Ht Hi Hf. assert (∀ type, final type = (threads * iterations)%Z) as E.
  { intros type. destruct (Hf type) as (c & Hr & Hj & <-).
    assert (LockComparison.worker type ∈ protected) as Hp by (destruct type; unfold protected; set_solver).
    apply (protected_counters_exact _ _ _ _ Hp) in Hr as [_ Hr]. rewrite (Hr Hj). rewrite Nat2Z.inj_mul, !Z2Nat.id by done. done. }
  unfold LockComparison.main. rewrite H1, H2, H3. simpl. by rewrite !E.
Qed.

Lemma unprotected_counter_range_witness :
  (∀ v, result MutexDemo.worker_without_mutex MutexDemo.OPS_PER_THREAD MutexDemo.THREADS v → (2 ≤ v ≤ 800000)%Z) ∧
  result MutexDemo.worker_without_mutex MutexDemo.OPS_PER_THREAD MutexDemo.THREADS 2.
Proof.
  destruct (unprotected_counter_range MutexDemo.OPS_PER_THREAD MutexDemo.THREADS) as (H1 & H2 & _).
  - unfold MutexDemo.OPS_PER_THREAD. lia.
  - unfold MutexDemo.THREADS. lia.
  - split; [|exact H2]. intros v Hv. specialize (H1 v Hv). unfold MutexDemo.OPS_PER_THREAD, MutexDemo.THREADS in H1. lia.
Defined.

(** Two threads of two increments: a run that loses two. *)
Example two_of_four :
  counter <$> run MutexDemo.worker_without_mutex 2
    [Thread 0; Thread 1; Thread 1; Thread 0; Thread 1; Thread 0; Thread 0; Thread 1; Main]
    (start MutexDemo.worker_without_mutex 2 2) = Some 2%Z.
Proof. reflexivity. Qed.

End CountersSpec.
