(* ===== verification/ThreadPrograms.v ===== *)
(** * Threads under one lock: [WEEKEND_TASK/multi_thread_bank.c],
    [WEEKEND_TASK/thread_safe_logging.c] and
    [Mutex-Spi-Sem-RWlock/read_write_lock.c]

    [Bank] and [Logger] take a step for every critical section; the pauses take
    no time.  [RwLock] takes one for every operation on the lock and every access
    to the shared variables.  Behind each module come its properties: the
    account's ledger, whole lines in the log, and exclusion of the writers. *)
From stdpp Require Import base list relations strings pretty.
From Stdlib Require Import ZArith Lia.
From S2P Require Import Prelude.

(** ** The bank account *)
Module Bank.

Definition THREADS : nat := 4.
Definition TRANSACTIONS : nat := 5.

(** The balance, the number of transactions each thread has made, and the text
    printed. *)
Record config : Set := mkconfig { balance : Z; threads : list nat; out : list string }.

Definition deposited (thread_id amount new : Z) : string :=
  ("Thread " +:+ d thread_id +:+ ": Deposited " +:+ d amount +:+ " | New Balance: " +:+ d new +:+ nl)%string.
Definition withdrawn (thread_id amount new : Z) : string :=
  ("Thread " +:+ d thread_id +:+ ": Withdrawn " +:+ d amount +:+ " | New Balance: " +:+ d new +:+ nl)%string.
Definition failed (thread_id amount : Z) : string :=
  ("Thread " +:+ d thread_id +:+ ": Withdrawal of " +:+ d amount +:+ " failed (Insufficient balance)" +:+ nl)%string.

(** The critical sections: the new balance and the line printed. *)
Definition deposit (amount thread_id b : Z) : res (Z * string) :=
  b' ← as_int (b + amount)%Z; Ok (b', deposited thread_id amount b').

Definition withdraw (amount thread_id b : Z) : res (Z * string) :=
  if (amount <=? b)%Z then b' ← as_int (b - amount)%Z; Ok (b', withdrawn thread_id amount b')
  else Ok (b, failed thread_id amount).

(** The loop body; [r1] and [r2] are what [rand] returns. *)
Definition transaction (r1 r2 thread_id b : Z) : res (Z * string) :=
  let amount := (r1 mod 200 + 50)%Z in
  let action := (r2 mod 2)%Z in
  if (action =? 0)%Z then deposit amount thread_id b else withdraw amount thread_id b.

(** [rand] returns a number from 0 to [RAND_MAX]. *)
Definition RAND_MAX : Z := 2147483647.
Definition rand_value (r : Z) : bool := (0 <=? r)%Z && (r <=? RAND_MAX)%Z.

(** Thread [t] makes its next transaction; [None]: it has made them all. *)
Definition act (t : nat) (r1 r2 : Z) (c : config) : option (res config) :=
  i ← threads c !! t;
  if (i <? TRANSACTIONS) && rand_value r1 && rand_value r2 then
    Some ('(b, line) ← transaction r1 r2 (Z.of_nat t + 1) (balance c); Ok (mkconfig b (<[t := S i]> (threads c)) (out c ++ [line])))
  else None.

Definition start : config :=
  mkconfig 1000 (replicate THREADS 0)
    [("Initial Balance: " +:+ d 1000 +:+ nl)%string; ("Starting transactions..." +:+ nl +:+ nl)%string].

Definition step (c c' : config) : Prop := ∃ t r1 r2, act t r1 r2 c = Some (Ok c').
Definition reachable (c : config) : Prop := rtc step start c.

(** [main] behind the joins. *)
Definition finished (c : config) : bool := forallb (λ i, i =? TRANSACTIONS) (threads c).
Definition report (c : config) : list string :=
  out c ++ [(nl +:+ "All transactions complete." +:+ nl)%string; ("Final Balance: " +:+ d (balance c) +:+ nl)%string].

End Bank.

Module BankSpec.
Import Bank.

(** What a line of the output stands for. *)
Inductive entry : Set := Deposited (t amount : Z) | Withdrawn (t amount : Z) | Refused (t amount : Z).

Definition amount (e : entry) : Z := match e with Deposited _ a | Withdrawn _ a | Refused _ a => a end.
Definition author (e : entry) : Z := match e with Deposited t _ | Withdrawn t _ | Refused t _ => t end.

(** The ledger that begins with balance [b]: its lines and its last balance. *)
Fixpoint ledger (b : Z) (l : list entry) : list string :=
  match l with
  | [] => []
  | Deposited t a :: l => deposited t a (b + a) :: ledger (b + a) l
  | Withdrawn t a :: l => withdrawn t a (b - a) :: ledger (b - a) l
  | Refused t a :: l => failed t a :: ledger b l
  end.

Definition apply (b : Z) (e : entry) : Z :=
  match e with Deposited _ a => b + a | Withdrawn _ a => b - a | Refused _ _ => b end%Z.
Definition final (b : Z) (l : list entry) : Z := foldl apply b l.

(** Withdrawals are made exactly when the balance suffices. *)
Fixpoint honest (b : Z) (l : list entry) : Prop :=
  match l with
  | [] => True
  | e :: l => match e with Deposited _ _ => True | Withdrawn _ a => a ≤ b | Refused _ a => b < a end%Z ∧ honest (apply b e) l
  end.

Lemma ledger_app b l e : ledger b (l ++ [e]) = ledger b l ++ ledger (final b l) [e].
Proof. revert b. induction l as [|[t a|t a|t a] l IH]; intros b; simpl; [done|by rewrite IH..]. Qed.

Lemma honest_app b l e : honest b l → honest (final b l) [e] → honest b (l ++ [e]).
Proof. revert b. induction l as [|x l IH]; intros b Hl He; [done|]. destruct Hl as [Hx Hl]. split; [done|by apply IH]. Qed.

Record inv (c : config) (l : list entry) : Prop := mkinv {
  inv_out : out c = out start ++ ledger 1000 l;
  inv_balance : balance c = final 1000 l;
  inv_honest : honest 1000 l;
  inv_range : (0 ≤ balance c ≤ 1000 + 249 * Z.of_nat (length l))%Z;
  inv_amounts : Forall (λ e, 50 ≤ amount e ≤ 249)%Z l;
  inv_threads t i : threads c !! t = Some i → i ≤ TRANSACTIONS ∧ length (filter (λ e, author e = Z.of_nat t + 1)%Z l) = i;
  inv_number : length (threads c) = THREADS;
  inv_total : length l = sum_list (threads c)
}.

Lemma total_bound (l : list nat) b : Forall (λ i, i ≤ b) l → sum_list l ≤ length l * b.
Proof. induction 1; simpl; lia. Qed.

(** A transaction adds an entry. *)
Lemma transaction_entry r1 r2 t b :
  (0 ≤ b ≤ 10000)%Z → ∃ e line, transaction r1 r2 t b = Ok (apply b e, line) ∧ ledger b [e] = [line] ∧
    honest b [e] ∧ (50 ≤ amount e ≤ 249)%Z ∧ author e = t ∧ (0 ≤ apply b e ≤ b + 249)%Z.
Proof.
  intros Hb. unfold transaction, deposit, withdraw. set (a := (r1 mod 200 + 50)%Z).
  assert (50 ≤ a ≤ 249)%Z as Ha by (pose proof (Z.mod_pos_bound r1 200 ltac:(lia)); lia).
  destruct (Z.eqb_spec (r2 mod 2) 0).
  - eexists (Deposited t a), _. rewrite as_int_ok by (unfold in_int; zcases; lia). simpl. split; [done|]. split; [done|]. repeat split; lia.
  - destruct (Z.leb_spec a b).
    + eexists (Withdrawn t a), _. rewrite as_int_ok by (unfold in_int; zcases; lia). simpl. split; [done|]. split; [done|]. repeat split; lia.
    + eexists (Refused t a), _. simpl. split; [done|]. split; [done|]. repeat split; lia.
Qed.

Lemma bank_inv_start : inv start [].
Proof.
  constructor; try done; try (simpl; lia).
  intros t i Ht. unfold start in Ht. cbn [threads] in Ht. apply lookup_replicate in Ht as [-> _]. split; [unfold TRANSACTIONS; lia|done].
Qed.

Lemma inv_small c l : inv c l → (0 ≤ balance c ≤ 10000)%Z ∧ length l ≤ THREADS * TRANSACTIONS.
Proof.
  intros Hi. assert (length l ≤ THREADS * TRANSACTIONS) as Hl.
  { rewrite (inv_total c l Hi), <- (inv_number c l Hi). apply total_bound, Forall_lookup. intros t i Ht. by destruct (inv_threads c l Hi t i Ht). }
  pose proof (inv_range c l Hi). unfold THREADS, TRANSACTIONS in *. lia.
Qed.

Lemma sum_list_insert (l : list nat) t i : l !! t = Some i → sum_list (<[t := S i]> l) = S (sum_list l).
Proof. revert t. induction l as [|x l IH]; intros [|t] Ht; simplify_eq/=; [done|]. rewrite (IH t Ht). lia. Qed.

(** A transaction of a thread that has some left succeeds, and keeps the invariant. *)
Lemma bank_inv_act c l t r1 r2 o :
  inv c l → act t r1 r2 c = Some o → ∃ c' e, o = Ok c' ∧ author e = (Z.of_nat t + 1)%Z ∧ inv c' (l ++ [e]).
Proof.
  intros Hi Ha. unfold act in Ha. destruct (threads c !! t) as [i|] eqn:Ht; [|done]. simpl in Ha.
  destruct (Nat.ltb_spec i TRANSACTIONS) as [Hlt|]; [|done]. simpl in Ha. destruct (rand_value r1); [|done]. destruct (rand_value r2); [|done]. simpl in Ha.
  destruct (inv_small c l Hi) as [Hb _]. destruct (transaction_entry r1 r2 (Z.of_nat t + 1) (balance c) Hb) as (e & line & He & Hline & Hh & Ham & Hau & Hr).
  rewrite He in Ha. simpl in Ha. injection Ha as <-. eexists _, e. split; [done|]. split; [done|]. destruct Hi as [I1 I2 I3 I4 I5 I6 I7 I8].
  constructor; cbn [out balance threads].
  - rewrite ledger_app, <- I2, I1, Hline, <- app_assoc. done.
  - unfold final. rewrite foldl_app. simpl. by rewrite I2.
  - apply honest_app; [done|]. by rewrite <- I2.
  - rewrite length_app. simpl. lia.
  - apply Forall_app. by split; [|apply Forall_singleton].
  - intros u k Hu. rewrite filter_app, length_app. apply list_lookup_insert_Some in Hu as [(<- & <- & _)|[Hne Hu]].
    + split; [lia|]. rewrite filter_cons_True by done. simpl. destruct (I6 t i Ht) as [_ ->]. lia.
    + rewrite filter_cons_False by lia. simpl. destruct (I6 u k Hu) as [H1 <-]. split; [done|lia].
  - by rewrite length_insert.
  - rewrite length_app. simpl. rewrite (sum_list_insert _ _ _ Ht), I8. lia.
Qed.

Lemma bank_inv c : reachable c → ∃ l, inv c l.
Proof.
  unfold reachable. pose proof bank_inv_start as Hi. revert Hi. generalize start ([] : list entry). intros c0 l0 Hi Hr.
  revert l0 Hi. induction Hr as [c|c1 c2 c3 (t & r1 & r2 & Ha) _ IH]; intros l0 Hi; [by exists l0|].
  destruct (bank_inv_act _ _ _ _ _ _ Hi Ha) as (c' & e & [= <-] & _ & Hi'). by eapply IH.
Qed.

(** The account in every reachable state and whatever [rand] returns: what has
    been printed is the ledger of the transactions in the order in which they
    were made, beginning with 1000; every new balance in it is the one before plus
    or minus the amount; withdrawals fail exactly when the balance does not
    suffice; the balance is never negative and never overflows, and every thread
    makes five transactions of 50 to 249. *)
Theorem bank_ledger c :
  reachable c →
  ∃ l, out c = out start ++ ledger 1000 l ∧ balance c = final 1000 l ∧ honest 1000 l ∧ (0 ≤ balance c ≤ 5980)%Z ∧
    Forall (λ e, 50 ≤ amount e ≤ 249)%Z l ∧
    (finished c = true → length l = 20 ∧ ∀ t, t < 4 → length (filter (λ e, author e = Z.of_nat t + 1)%Z l) = 5).
Proof.
  intros [l Hi]%bank_inv. exists l. destruct (inv_small c l Hi) as [_ Hl]. pose proof Hi as [I1 I2 I3 I4 I5 I6 I7 I8].
  do 3 (split; [done|]). split; [unfold THREADS, TRANSACTIONS in *; lia|]. split; [done|]. intros Hf.
  assert (threads c = replicate 4 5) as Ht.
  { symmetry. apply replicate_as_Forall. split; [done|]. apply Forall_forall. intros x Hx. unfold finished in Hf. rewrite forallb_forall in Hf.
    symmetry. by apply Nat.eqb_eq, Hf, list_elem_of_In. }
  split; [by rewrite I8, Ht|]. intros t Hlt. apply I6. rewrite Ht. by apply lookup_replicate.
Qed.

(** No transaction is ever undefined, and a thread that has some left can always
    make it. *)
Theorem bank_total c t r1 r2 i :
  reachable c → threads c !! t = Some i → i < TRANSACTIONS → rand_value r1 = true → rand_value r2 = true →
  ∃ c', act t r1 r2 c = Some (Ok c').
Proof.
  intros [l Hi]%bank_inv Ht Hlt H1 H2. assert (∃ o, act t r1 r2 c = Some o) as [o Ho].
  { unfold act. rewrite Ht. simpl. rewrite H1, H2. destruct (Nat.ltb_spec i TRANSACTIONS); [|lia]. by eexists. }
  destruct (bank_inv_act _ _ _ _ _ _ Hi Ho) as (c' & _ & -> & _). by exists c'.
Qed.

End BankSpec.

(** ** The log file *)
Module Logger.

Definition THREADS : nat := 3.
Definition MESSAGES : nat := 5.

(** The messages each thread has written, and the file. *)
Record config : Set := mkconfig { threads : list nat; log : list string }.

Definition message (thread_id i : Z) : string :=
  ("Thread " +:+ d thread_id +:+ ": Log message " +:+ d i +:+ nl)%string.

Section worker.
(** The thread identifiers the workers read: [main] passes the addresses of
    [t1], [t2] and [t3], so they are the first four bytes of the [pthread_t]s. *)
Context (thread_id : nat → Z).

(** The critical section of [worker]. *)
Definition act (t : nat) (c : config) : option config :=
  i ← threads c !! t;
  if i <? MESSAGES then Some (mkconfig (<[t := S i]> (threads c)) (log c ++ [message (thread_id t) (Z.of_nat i + 1)])) else None.

Definition start : config := mkconfig (replicate THREADS 0) [].

Definition step (c c' : config) : Prop := ∃ t, act t c = Some c'.
Definition reachable (c : config) : Prop := rtc step start c.

(** [main] behind the joins. *)
Definition finished (c : config) : bool := forallb (λ i, i =? MESSAGES) (threads c).

End worker.

Definition report : string := ("All threads finished. Check 'log.txt' for logs." +:+ nl)%string.

End Logger.

Module LoggerSpec.
Import Logger.

Section spec.
Context (thread_id : nat → Z).

(** The first [i] messages of thread [t]. *)
Definition written (t i : nat) : list string := (λ k, message (thread_id t) (Z.of_nat k + 1)) <$> seq 0 i.

(** The file, with every line marked with the thread that wrote it. *)
Record inv (c : config) (l : list (nat * string)) : Prop := mkinv {
  inv_log : log c = l.*2;
  inv_threads t i : threads c !! t = Some i → i ≤ MESSAGES ∧ (filter (λ x, x.1 = t) l).*2 = written t i;
  inv_number : length (threads c) = THREADS;
  inv_total : length l = sum_list (threads c)
}.

Lemma log_inv_start : inv start [].
Proof.
  constructor; try done. intros t i Ht. unfold start in Ht. cbn [threads] in Ht. apply lookup_replicate in Ht as [-> _].
  split; [unfold MESSAGES; lia|done].
Qed.

Lemma log_inv_act c l t c' : inv c l → act thread_id t c = Some c' → ∃ s, inv c' (l ++ [(t, s)]).
Proof.
  intros [I1 I2 I3 I4] Ha. unfold act in Ha. destruct (threads c !! t) as [i|] eqn:Ht; [|done]. simpl in Ha.
  destruct (Nat.ltb_spec i MESSAGES) as [Hlt|]; [|done]. injection Ha as <-. eexists. constructor; cbn [log threads].
  - rewrite fmap_app, I1. done.
  - intros u k Hu. rewrite filter_app, fmap_app. apply list_lookup_insert_Some in Hu as [(<- & <- & _)|[Hne Hu]].
    + split; [lia|]. rewrite filter_cons_True by done. destruct (I2 t i Ht) as [_ ->]. unfold written. by rewrite seq_S, fmap_app.
    + rewrite filter_cons_False by done. destruct (I2 u k Hu) as [H1 <-]. split; [done|]. simpl. by rewrite app_nil_r.
  - by rewrite length_insert.
  - rewrite length_app. simpl. rewrite (BankSpec.sum_list_insert _ _ _ Ht), I4. lia.
Qed.

Lemma log_inv c : reachable thread_id c → ∃ l, inv c l.
Proof.
  unfold reachable. pose proof log_inv_start as Hi. revert Hi. generalize start ([] : list (nat * string)). intros c0 l0 Hi Hr.
  revert l0 Hi. induction Hr as [c|c1 c2 c3 [t Ha] _ IH]; intros l0 Hi; [by exists l0|].
  destruct (log_inv_act _ _ _ _ Hi Ha) as [s Hi']. by eapply IH.
Qed.

(** The log is an interleaving of whole lines: every line belongs to one thread,
    the lines of a thread are its messages in order, and there are 15 of them in
    the end. *)
Theorem log_interleaves c :
  reachable thread_id c →
  ∃ l, log c = l.*2 ∧ (∀ t i, threads c !! t = Some i → (filter (λ x, x.1 = t) l).*2 = written t i) ∧
    (finished c = true → length (log c) = 15).
Proof.
  intros [l [I1 I2 I3 I4]]%log_inv. exists l. split; [done|]. split; [intros t i Ht; by apply I2|]. intros Hf.
  rewrite I1, length_fmap, I4. replace (threads c) with (replicate 3 5); [done|]. apply replicate_as_Forall. split; [done|].
  apply Forall_forall. intros x Hx. unfold finished in Hf. rewrite forallb_forall in Hf.
  symmetry. by apply Nat.eqb_eq, Hf, list_elem_of_In.
Qed.

End spec.
End LoggerSpec.

(** ** Readers and writers *)
Module RwLock.

(** A reader: at its loop test, before [pthread_rwlock_rdlock], before its load,
    before the atomic addition, before the unlock, returned. *)
Inductive reader : Set := RTest | RLock | RLoad | RCount | RUnlock | RDone.

(** A writer: at its loop test, before [pthread_rwlock_wrlock], before the load
    and the store of [shared_counter++], before the atomic addition, before the
    unlock, returned. *)
Inductive writer : Set := WTest | WLock | WLoad | WStore (v : Z) | WCount | WUnlock | WDone.

#[export] Instance reader_eq_dec : EqDecision reader.
Proof. solve_decision. Defined.
#[export] Instance writer_eq_dec : EqDecision writer.
Proof. solve_decision. Defined.

(** The lock is the number of readers that have it and whether a writer has it. *)
Record config : Set := mkconfig {
  readers_in : nat; writer_in : bool; shared_counter : Z; total_reader_operations : Z; total_writer_operations : Z;
  stop_requested : bool; readers : list reader; writers : list writer }.

Definition ulong (z : Z) : Z := (z mod 18446744073709551616)%Z.

Definition set_reader (t : nat) (r : reader) (n : nat) (reads : Z) (c : config) : config :=
  mkconfig n (writer_in c) (shared_counter c) reads (total_writer_operations c) (stop_requested c) (<[t := r]> (readers c)) (writers c).

Definition set_writer (t : nat) (w : writer) (b : bool) (v writes : Z) (c : config) : config :=
  mkconfig (readers_in c) b v (total_reader_operations c) writes (stop_requested c) (readers c) (<[t := w]> (writers c)).

(** One step of [reader_thread]; a reader has to wait while a writer has the
    lock.  (It may have to wait for writers in the queue too.) *)
Definition reader_step (t : nat) (r : reader) (c : config) : option config :=
  let to r := set_reader t r (readers_in c) (total_reader_operations c) c in
  match r with
  | RTest => Some (to (if stop_requested c then RDone else RLock))
  | RLock => if writer_in c then None else Some (set_reader t RLoad (readers_in c + 1) (total_reader_operations c) c)
  | RLoad => Some (to RCount)
  | RCount => Some (set_reader t RUnlock (readers_in c) (ulong (total_reader_operations c + 1)) c)
  | RUnlock => Some (set_reader t RTest (readers_in c - 1) (total_reader_operations c) c)
  | RDone => None
  end.

(** One step of [writer_thread]. *)
Definition writer_step (t : nat) (w : writer) (c : config) : option (res config) :=
  let to w b := set_writer t w b (shared_counter c) (total_writer_operations c) c in
  match w with
  | WTest => Some (Ok (to (if stop_requested c then WDone else WLock) (writer_in c)))
  | WLock => if writer_in c || (0 <? readers_in c) then None else Some (Ok (to WLoad true))
  | WLoad => Some (Ok (to (WStore (shared_counter c)) (writer_in c)))
  | WStore v => Some (v' ← as_int (v + 1)%Z; Ok (set_writer t WCount (writer_in c) v' (total_writer_operations c) c))
  | WCount => Some (Ok (set_writer t WUnlock (writer_in c) (shared_counter c) (ulong (total_writer_operations c + 1)) c))
  | WUnlock => Some (Ok (to WTest false))
  | WDone => None
  end.

(** Who moves; [Stop] is [main] behind its sleep. *)
Inductive action : Set := Reader (t : nat) | Writer (t : nat) | Stop.

Definition act (a : action) (c : config) : option (res config) :=
  match a with
  | Reader t => r ← readers c !! t; c' ← reader_step t r c; Some (Ok c')
  | Writer t => w ← writers c !! t; writer_step t w c
  | Stop => Some (Ok (mkconfig (readers_in c) (writer_in c) (shared_counter c) (total_reader_operations c) (total_writer_operations c) true (readers c) (writers c)))
  end.

Definition start (num_readers num_writers : nat) : config :=
  mkconfig 0 false 0 0 0 false (replicate num_readers RTest) (replicate num_writers WTest).

Definition step (c c' : config) : Prop := ∃ a, act a c = Some (Ok c').
Definition reachable (num_readers num_writers : nat) (c : config) : Prop := rtc step (start num_readers num_writers) c.

(** [main] joins the threads and prints. *)
Definition finished (c : config) : bool :=
  stop_requested c && forallb (λ r, bool_decide (r = RDone)) (readers c) && forallb (λ w, bool_decide (w = WDone)) (writers c).

Definition report (c : config) : list string :=
  [("Total Reads:  " +:+ d (total_reader_operations c) +:+ nl)%string;
   ("Total Writes: " +:+ d (total_writer_operations c) +:+ nl)%string;
   ("Final shared_counter = " +:+ d (shared_counter c) +:+ nl)%string].

End RwLock.

Module RwLockSpec.
Import RwLock.

Abbreviation Σ f l := (sum_list_with f l).

(** The threads that have the lock, and the writers between the store and the
    atomic addition. *)
Definition reads (r : reader) : bool := match r with RLoad | RCount | RUnlock => true | _ => false end.
Definition writes (w : writer) : bool := match w with WLoad | WStore _ | WCount | WUnlock => true | _ => false end.
Definition stored (w : writer) : bool := match w with WCount => true | _ => false end.

Definition count {A} (f : A → bool) (l : list A) : nat := Σ (Nat.b2n ∘ f) l.

Record inv (c : config) : Prop := mkinv {
  inv_readers : readers_in c = count reads (readers c);
  inv_writer : Nat.b2n (writer_in c) = count writes (writers c);
  inv_exclusive : writer_in c = true → readers_in c = 0;
  inv_counter : shared_counter c = (total_writer_operations c + Z.of_nat (count stored (writers c)))%Z;
  inv_range : (0 ≤ total_writer_operations c ≤ shared_counter c)%Z ∧ (shared_counter c ≤ 2147483647)%Z;
  inv_loaded t v : writers c !! t = Some (WStore v) → v = shared_counter c
}.

Lemma count_insert {A} (f : A → bool) (l : list A) t x y :
  l !! t = Some x → count f (<[t := y]> l) + Nat.b2n (f x) = count f l + Nat.b2n (f y).
Proof. apply (sum_with_insert (Nat.b2n ∘ f)). Qed.

Lemma count_replicate {A} (f : A → bool) n x : f x = false → count f (replicate n x) = 0.
Proof. intros Hf. unfold count. induction n as [|n IH]; [done|]. simpl. by rewrite Hf, IH. Qed.

Lemma count_stored l : count stored l ≤ count writes l.
Proof. unfold count. induction l as [|w l IH]; [done|]. simpl. destruct w; simpl; lia. Qed.

Lemma rw_inv_start n m : inv (start n m).
Proof.
  constructor; unfold start; cbn [readers_in readers writer_in writers shared_counter total_writer_operations]; rewrite ?count_replicate by done; try done.
  by intros t v [? _]%lookup_replicate.
Qed.

(** A step of a reader. *)
Lemma inv_set_reader c t r r' n ops :
  inv c → readers c !! t = Some r → n + Nat.b2n (reads r) = readers_in c + Nat.b2n (reads r') →
  (writer_in c = true → n = 0) → inv (set_reader t r' n ops c).
Proof.
  intros [I1 I2 I3 I4 I5 I6] Ht Hn Hw. pose proof (count_insert reads _ t r r' Ht).
  constructor; cbn [set_reader readers_in readers writer_in writers shared_counter total_writer_operations]; try done. lia.
Qed.

Lemma inv_reader c t r c' : inv c → readers c !! t = Some r → reader_step t r c = Some c' → inv c'.
Proof.
  intros Hi Ht Hs. pose proof (inv_exclusive c Hi) as He. pose proof (count_insert reads _ t r RTest Ht) as Hc. pose proof (inv_readers c Hi) as Hn.
  destruct r; simpl in Hs; [| | | | |done].
  - injection Hs as <-. apply (inv_set_reader c t RTest); [done..| |done]. by destruct (stop_requested c).
  - destruct (writer_in c) eqn:Hw; [done|]. injection Hs as <-. apply (inv_set_reader c t RLock); [done..|simpl; lia|congruence].
  - injection Hs as <-. by apply (inv_set_reader c t RLoad).
  - injection Hs as <-. by apply (inv_set_reader c t RCount).
  - injection Hs as <-. simpl in Hc. apply (inv_set_reader c t RUnlock); [done..|simpl; lia|]. intros Hw. rewrite (He Hw). done.
Qed.

(** A writer with the lock is the only one. *)
Lemma only_writer c t w u v : inv c → writers c !! t = Some w → writes w = true → u ≠ t → writers c !! u = Some v → writes v = false.
Proof.
  intros Hi Ht Hw Hne Hu. destruct (writes v) eqn:Hv; [|done]. exfalso.
  pose proof (count_insert writes _ _ _ WTest Ht) as H1. pose proof (count_insert writes (<[t := WTest]> (writers c)) u v WTest) as H2.
  rewrite list_lookup_insert_ne in H2 by done. specialize (H2 Hu). rewrite Hw in H1. rewrite Hv in H2. simpl in *.
  pose proof (inv_writer c Hi). destruct (writer_in c); simpl in *; lia.
Qed.

(** A step of a writer. *)
Lemma inv_set_writer c t w w' b v ops :
  inv c → writers c !! t = Some w → Nat.b2n b + Nat.b2n (writes w) = Nat.b2n (writer_in c) + Nat.b2n (writes w') →
  (b = true → readers_in c = 0) →
  (v - ops - Z.b2z (stored w') = shared_counter c - total_writer_operations c - Z.b2z (stored w))%Z →
  (0 ≤ ops ≤ v ∧ v ≤ 2147483647)%Z → (∀ x, w' = WStore x → x = v) → (v = shared_counter c ∨ writes w = true) →
  inv (set_writer t w' b v ops c).
Proof.
  intros Hi Ht Hb Hr Hv Hrange Hl Hx. pose proof (only_writer c t w) as Ho.
  pose proof (count_insert writes _ t w w' Ht). pose proof (count_insert stored _ t w w' Ht).
  pose proof (λ u x, Ho u (WStore x) Hi Ht) as Ho'. destruct Hi as [I1 I2 I3 I4 I5 I6].
  constructor; cbn [set_writer readers_in readers writer_in writers shared_counter total_writer_operations]; try done.
  - lia.
  - destruct (stored w), (stored w'); simpl in *; lia.
  - intros u x Hu. apply list_lookup_insert_Some in Hu as [(_ & Hu & _)|[Hne Hu]]; [by apply Hl|].
    destruct Hx as [->|Hx]; [by eapply I6|]. by discriminate (Ho' u x Hx (not_eq_sym Hne) Hu).
Qed.

Lemma stored_range c t w : inv c → writers c !! t = Some w → stored w = true → (total_writer_operations c + 1 ≤ shared_counter c)%Z.
Proof.
  intros Hi Ht Hw. pose proof (count_insert stored _ t w WTest Ht) as H. rewrite Hw in H. simpl in H. rewrite (inv_counter c Hi). lia.
Qed.

Lemma inv_writer_step c t w c' : inv c → writers c !! t = Some w → writer_step t w c = Some (Ok c') → inv c'.
Proof.
  intros Hi Ht Hs. pose proof (inv_exclusive c Hi) as He. pose proof (inv_range c Hi) as [Hr Hr']. pose proof (inv_writer c Hi) as Hw.
  pose proof (count_insert writes _ t w WTest Ht) as Hc. destruct w as [| | |v| | |]; simpl in Hs; [| | | | | |done].
  - injection Hs as <-. apply (inv_set_writer c t WTest); try done; destruct (stop_requested c); try done; by left.
  - destruct (writer_in c || (0 <? readers_in c)) eqn:Hg; [done|]. apply orb_false_iff in Hg as [Hg1 Hg2%Nat.ltb_ge].
    injection Hs as <-. apply (inv_set_writer c t WLock); try done; [by rewrite Hg1|intros _; lia|by left].
  - injection Hs as <-. apply (inv_set_writer c t WLoad); try done; [by intros x [= ->]|by left].
  - pose proof (inv_loaded c Hi t v Ht) as ->. unfold as_int, in_int in Hs. revert Hs. zcases; intros Hs; simplify_eq/=.
    apply (inv_set_writer c t (WStore (shared_counter c))); try done; [simpl; lia|lia|by right].
  - pose proof (stored_range c t WCount Hi Ht eq_refl). injection Hs as <-.
    assert (ulong (total_writer_operations c + 1) = (total_writer_operations c + 1)%Z) as E by (unfold ulong; apply Z.mod_small; lia).
    rewrite E. apply (inv_set_writer c t WCount); try done; [simpl; lia|lia|by left].
  - injection Hs as <-. apply (inv_set_writer c t WUnlock); try done; [|by left]. simpl in *. destruct (writer_in c); simpl in *; lia.
Qed.

Lemma rw_inv n m c : reachable n m c → inv c.
Proof.
  unfold reachable. pose proof (rw_inv_start n m) as Hi. revert Hi. generalize (start n m). intros c0 Hi Hr.
  induction Hr as [c|c1 c2 c3 [a Ha] _ IH]; [done|]. apply IH. destruct a as [t|t|]; simpl in Ha.
  - destruct (readers c1 !! t) as [r|] eqn:Ht; [|done]. simpl in Ha. destruct (reader_step t r c1) as [c'|] eqn:Hs; [|done].
    simpl in Ha. injection Ha as <-. by eapply inv_reader.
  - destruct (writers c1 !! t) as [w|] eqn:Ht; [|done]. by eapply inv_writer_step.
  - injection Ha as <-. by destruct Hi.
Qed.

Lemma count_pos {A} (f : A → bool) (l : list A) t x : l !! t = Some x → f x = true → 0 < count f l.
Proof.
  revert t. unfold count. induction l as [|y l IH]; intros [|t] Ht Hf; simplify_eq/=; [rewrite Hf; simpl; lia|]. specialize (IH t Ht Hf). lia.
Qed.

(** Mutual exclusion: a writer that has the lock is alone with it; no update of
    the counter is lost, so the two numbers that [main] prints for the writers
    agree; and the only undefined behaviour is the overflow of [shared_counter]
    at its 2^31st increment. *)
Theorem rwlock_safe n m c :
  reachable n m c →
  (∀ t w, writers c !! t = Some w → writes w = true →
     (∀ u v, u ≠ t → writers c !! u = Some v → writes v = false) ∧ ∀ u r, readers c !! u = Some r → reads r = false) ∧
  (finished c = true → shared_counter c = total_writer_operations c) ∧
  (∀ a e, act a c = Some (UB e) → e = Overflow ∧ shared_counter c = 2147483647%Z).
Proof.
  intros Hi%rw_inv. split; [|split].
  - intros t w Ht Hw. split; [intros u v; by apply (only_writer c t w)|]. intros u r Hu. destruct (reads r) eqn:Hr; [|done]. exfalso.
    pose proof (count_pos _ _ _ _ Ht Hw). pose proof (count_pos _ _ _ _ Hu Hr). pose proof (inv_writer c Hi). pose proof (inv_readers c Hi).
    pose proof (inv_exclusive c Hi). destruct (writer_in c); simpl in *; lia.
  - unfold finished. intros [_ Hf]%andb_true_iff. rewrite (inv_counter c Hi). replace (count stored (writers c)) with 0; [lia|].
    rewrite forallb_forall in Hf. symmetry. destruct (decide (0 < count stored (writers c))) as [Hp|]; [|lia].
    unfold count in Hp. clear -Hf Hp. induction (writers c) as [|w l IH]; [done|]. assert (w = WDone) as -> by (eapply bool_decide_eq_true_1, Hf; by left).
    simpl in Hp. unfold count in *. simpl. apply IH; [intros x Hx; apply Hf; by right|done].
  - intros a e Ha. pose proof (inv_range c Hi). destruct a as [t|t|]; simpl in Ha; [| |done].
    + destruct (readers c !! t) as [r|]; [|done]. simpl in Ha. by destruct (reader_step t r c).
    + destruct (writers c !! t) as [w|] eqn:Ht; [|done]. simpl in Ha. destruct w as [| | |v| | |]; simpl in Ha; try done; [by destruct (_ || _)|].
      pose proof (inv_loaded c Hi t v Ht) as ->. unfold as_int, in_int in Ha. revert Ha. zcases; intros Ha; simplify_eq/=; (split; [done|lia]).
Qed.

End RwLockSpec.
