(* ===== verification/CondBuffer.v ===== *)
(** * A bounded buffer whose consumers watch for the end:
    [Mutex-Spi-Sem-RWlock/mutex_with_conditional_variable.c]

    Two producers and two consumers share a ring of five.  As in [BoundedBuffer] a
    step is the stretch of code between taking the mutex and giving it back, whom
    [pthread_cond_signal] wakes is part of the step, and a wait may return without
    a signal; the pauses take no time.  Unlike there a consumer looks for the end
    inside its waiting loop and once more, without the mutex, behind its pause,
    and nobody wakes the consumers at the end: [CondSpec] shows what is correct
    about the program, and how it hangs. *)
From stdpp Require Import base list relations.
From Stdlib Require Import ZArith Lia.
From S2P Require Import Prelude BoundedBuffer.

Module CondBuffer.

Definition BUFFER_SIZE : nat := 5.
Definition PRODUCE_PER_PRODUCER : nat := 10.
Definition NUMBER_OF_PRODUCERS : nat := 2.
Definition NUMBER_OF_CONSUMERS : nat := 2.
Definition total_to_produce : nat := PRODUCE_PER_PRODUCER * NUMBER_OF_PRODUCERS.

(** A producer before item [i], in [pthread_cond_wait] (signalled or not), or
    returned. *)
Inductive producer : Set := Produce (i : nat) | WaitNotFull (i : nat) (woken : bool) | Produced.

(** A consumer at the top of its loop, in [pthread_cond_wait], behind its pause,
    or returned. *)
Inductive consumer : Set := Consume | WaitNotEmpty (woken : bool) | Pause | Consumed.

(** [main]: joining the producers, then the consumers. *)
Inductive main_pc : Set := JoinProducers | JoinConsumers | Returned.

#[export] Instance producer_eq_dec : EqDecision producer.
Proof. solve_decision. Defined.
#[export] Instance consumer_eq_dec : EqDecision consumer.
Proof. solve_decision. Defined.

(** The shared variables and the threads; [items_in] and [items_out] record what
    went into the buffer and came out of it, in order. *)
Record config : Set := mkconfig {
  buffer : list Z; in_ : nat; out : nat; count : nat; consumed_total : nat;
  producers : list producer; consumers : list consumer; main_at : main_pc;
  items_in : list Z; items_out : list Z }.

Definition asleep_p (p : producer) : bool := match p with WaitNotFull _ false => true | _ => false end.
Definition wake_p (p : producer) : producer := match p with WaitNotFull i _ => WaitNotFull i true | _ => p end.
Definition asleep_c (p : consumer) : bool := match p with WaitNotEmpty false => true | _ => false end.
Definition wake_c (p : consumer) : consumer := match p with WaitNotEmpty _ => WaitNotEmpty true | _ => p end.

Definition set_producers (ps : list producer) (c : config) : config :=
  mkconfig (buffer c) (in_ c) (out c) (count c) (consumed_total c) ps (consumers c) (main_at c) (items_in c) (items_out c).
Definition set_consumers (cs : list consumer) (c : config) : config :=
  mkconfig (buffer c) (in_ c) (out c) (count c) (consumed_total c) (producers c) cs (main_at c) (items_in c) (items_out c).
Definition set_main (m : main_pc) (c : config) : config :=
  mkconfig (buffer c) (in_ c) (out c) (count c) (consumed_total c) (producers c) (consumers c) m (items_in c) (items_out c).

(** Item [i] of producer [t], whose id is [t + 1]. *)
Definition item (t i : nat) : Z := (Z.of_nat (t + 1) * 1000 + Z.of_nat i)%Z.

(** The body of [producer]'s loop with the mutex; the signal wakes consumer [j]. *)
Definition produce (t i j : nat) (c : config) : option config :=
  if count c =? BUFFER_SIZE then Some (set_producers (<[t := WaitNotFull i false]> (producers c)) c)
  else
    cs ← Buffer.signal asleep_c wake_c j (consumers c);
    Some (mkconfig (<[in_ c := item t i]> (buffer c)) ((in_ c + 1) mod BUFFER_SIZE) (out c) (count c + 1) (consumed_total c)
      (<[t := Produce (i + 1)]> (producers c)) cs (main_at c) (items_in c ++ [item t i]) (items_out c)).

(** The test for the end. *)
Definition at_end (c : config) : bool := total_to_produce <=? consumed_total c.

(** The body of [consumer]'s loop with the mutex; the signal wakes producer [j]. *)
Definition consume (t j : nat) (c : config) : option config :=
  if count c =? 0 then
    Some (set_consumers (<[t := if at_end c then Consumed else WaitNotEmpty false]> (consumers c)) c)
  else
    x ← buffer c !! out c;
    ps ← Buffer.signal asleep_p wake_p j (producers c);
    Some (mkconfig (buffer c) (in_ c) ((out c + 1) mod BUFFER_SIZE) (count c - 1) (consumed_total c + 1)
      ps (<[t := Pause]> (consumers c)) (main_at c) (items_in c) (items_out c ++ [x])).

Definition producer_step (t j : nat) (p : producer) (c : config) : option config :=
  match p with
  | Produce i =>
      if i <? PRODUCE_PER_PRODUCER then produce t i j c else Some (set_producers (<[t := Produced]> (producers c)) c)
  | WaitNotFull i true => produce t i j c
  | WaitNotFull _ false | Produced => None
  end.

Definition consumer_step (t j : nat) (p : consumer) (c : config) : option config :=
  match p with
  | Consume | WaitNotEmpty true => consume t j c
  | Pause => Some (set_consumers (<[t := if at_end c then Consumed else Consume]> (consumers c)) c)
  | WaitNotEmpty false | Consumed => None
  end.

Definition main_step (c : config) : option config :=
  match main_at c with
  | JoinProducers => if forallb (λ p, bool_decide (p = Produced)) (producers c) then Some (set_main JoinConsumers c) else None
  | JoinConsumers => if forallb (λ p, bool_decide (p = Consumed)) (consumers c) then Some (set_main Returned c) else None
  | Returned => None
  end.

(** Who runs next: a producer or consumer, with the thread its signal wakes,
    a wait that returns by itself, or [main]. *)
Inductive action : Set :=
  | Producer (t j : nat) | Consumer (t j : nat) | SpuriousProducer (t : nat) | SpuriousConsumer (t : nat) | Main.

Definition act (a : action) (c : config) : option config :=
  match a with
  | Producer t j => p ← producers c !! t; producer_step t j p c
  | Consumer t j => p ← consumers c !! t; consumer_step t j p c
  | SpuriousProducer t => p ← producers c !! t; Some (set_producers (<[t := wake_p p]> (producers c)) c)
  | SpuriousConsumer t => p ← consumers c !! t; Some (set_consumers (<[t := wake_c p]> (consumers c)) c)
  | Main => main_step c
  end.

Definition step (c c' : config) : Prop := ∃ a, act a c = Some c'.

Definition start : config :=
  mkconfig (replicate BUFFER_SIZE 0%Z) 0 0 0 0 (replicate NUMBER_OF_PRODUCERS (Produce 0))
    (replicate NUMBER_OF_CONSUMERS Consume) JoinProducers [] [].

Definition reachable (c : config) : Prop := rtc step start c.

Fixpoint run (l : list action) (c : config) : option config :=
  match l with [] => Some c | a :: l => c' ← act a c; run l c' end.

End CondBuffer.

Module CondSpec.
Import CondBuffer.

#[local] Arguments Nat.modulo : simpl never.
#[local] Arguments Nat.leb : simpl never.
#[local] Arguments Nat.ltb : simpl never.
#[local] Arguments Nat.eqb : simpl never.

Abbreviation Σ f l := (sum_list_with f l).
Abbreviation ring := (Prelude.ring 0%Z BUFFER_SIZE).

Definition awake_p (p : producer) : bool := match p with WaitNotFull _ true => true | _ => false end.
Definition awake_c (p : consumer) : bool := match p with WaitNotEmpty true => true | _ => false end.
Definition made (p : producer) : nat := match p with Produce i | WaitNotFull i _ => i | Produced => PRODUCE_PER_PRODUCER end.

Definition number {A} (f : A → bool) (l : list A) : nat := Σ (Nat.b2n ∘ f) l.

(** The first [i] items of producer [t]. *)
Definition items (t i : nat) : list Z := item t <$> seq 0 i.

(** The ring and the items. *)
Record ring_ok (c : config) : Prop := mkring {
  ring_buf : length (buffer c) = BUFFER_SIZE;
  ring_out : out c < BUFFER_SIZE;
  ring_count : count c ≤ BUFFER_SIZE;
  ring_in : in_ c = (out c + count c) mod BUFFER_SIZE;
  ring_fifo : items_in c = items_out c ++ ring (buffer c) (out c) (count c);
  ring_consumed : consumed_total c = length (items_out c);
  ring_made : length (items_in c) = Σ made (producers c);
  ring_items t p : producers c !! t = Some p → filter (λ x, x / 1000 = Z.of_nat (t + 1))%Z (items_in c) = items t (made p)
}.

(** The threads. *)
Record threads_ok (c : config) : Prop := mkthreads {
  thr_producers : length (producers c) = NUMBER_OF_PRODUCERS;
  thr_consumers : length (consumers c) = NUMBER_OF_CONSUMERS;
  thr_bound t p : producers c !! t = Some p → made p ≤ PRODUCE_PER_PRODUCER;
  thr_waiting t i w : producers c !! t = Some (WaitNotFull i w) → i < PRODUCE_PER_PRODUCER;
  thr_not_empty : 0 < number asleep_c (consumers c) → count c ≤ number awake_c (consumers c);
  thr_not_full : 0 < number asleep_p (producers c) → BUFFER_SIZE - count c ≤ number awake_p (producers c);
  thr_end t : consumers c !! t = Some Consumed → total_to_produce ≤ consumed_total c
}.

Definition inv (c : config) : Prop := ring_ok c ∧ threads_ok c.

Lemma cond_inv_start : inv start.
Proof.
  split; constructor; unfold start; cbn [buffer in_ out count consumed_total producers consumers items_in items_out];
    try done; try (unfold BUFFER_SIZE; lia).
  - intros t p [-> _]%lookup_replicate. done.
  - intros t p [-> _]%lookup_replicate. simpl. lia.
  - intros t i w [? _]%lookup_replicate. done.
  - unfold number. simpl. lia.
  - intros t [? _]%lookup_replicate. done.
Qed.

Lemma cond_signal_p_sum j l l' :
  Buffer.signal asleep_p wake_p j l = Some l' →
  Σ made l' = Σ made l ∧ length l' = length l ∧
  (number asleep_p l = 0 ∧ l' = l ∨ number asleep_p l = number asleep_p l' + 1 ∧ number awake_p l' = number awake_p l + 1).
Proof. apply BufferSpec.signal_sum; [by intros [|? []|]|by intros []]. Qed.

Lemma cond_signal_c_sum j l l' :
  Buffer.signal asleep_c wake_c j l = Some l' →
  length l' = length l ∧
  (number asleep_c l = 0 ∧ l' = l ∨ number asleep_c l = number asleep_c l' + 1 ∧ number awake_c l' = number awake_c l + 1).
Proof. intros H. by apply (BufferSpec.signal_sum asleep_c awake_c wake_c (λ _, 0)) in H as (_ & ? & ?); [|intros [|[]| |]|]. Qed.

Lemma number_insert {A} (f : A → bool) (l : list A) t x y :
  l !! t = Some x → number f (<[t := y]> l) + Nat.b2n (f x) = number f l + Nat.b2n (f y).
Proof. apply (sum_with_insert (Nat.b2n ∘ f)). Qed.

(** A producer moves and the buffer stays. *)
Lemma inv_set_producer c t p p' :
  inv c → producers c !! t = Some p → made p' = made p → (∀ i w, p' = WaitNotFull i w → i < PRODUCE_PER_PRODUCER) →
  (0 < number asleep_p (<[t := p']> (producers c)) → BUFFER_SIZE - count c ≤ number awake_p (<[t := p']> (producers c))) →
  inv (set_producers (<[t := p']> (producers c)) c).
Proof.
  intros [[] []] Ht Hm Hw Hf. pose proof (sum_with_insert made _ t p p' Ht). split; constructor; simpl; try done; try lia.
  - intros u q Hu. apply list_lookup_insert_Some in Hu as [(<- & <- & _)|[_ Hu]]; [|by auto]. rewrite Hm. by auto.
  - by rewrite length_insert.
  - intros u q Hu. apply list_lookup_insert_Some in Hu as [(<- & <- & _)|[_ Hu]]; [|by eauto]. rewrite Hm. by eauto.
  - intros u i w Hu. apply list_lookup_insert_Some in Hu as [(_ & Hu & _)|[_ Hu]]; by eauto.
Qed.

(** A consumer moves and the buffer stays. *)
Lemma inv_set_consumer c t p p' :
  inv c → consumers c !! t = Some p → (p' = Consumed → total_to_produce ≤ consumed_total c) →
  (0 < number asleep_c (<[t := p']> (consumers c)) → count c ≤ number awake_c (<[t := p']> (consumers c))) →
  inv (set_consumers (<[t := p']> (consumers c)) c).
Proof.
  intros [[] []] Ht He Hf. split; constructor; simpl; try done.
  - by rewrite length_insert.
  - intros u Hu. apply list_lookup_insert_Some in Hu as [(_ & Hu & _)|[_ Hu]]; by eauto.
Qed.

Lemma item_id t i : i < PRODUCE_PER_PRODUCER → (item t i / 1000)%Z = Z.of_nat (t + 1).
Proof. unfold PRODUCE_PER_PRODUCER, item. intros Hi. rewrite Z.div_add_l by lia. rewrite Z.div_small by lia. lia. Qed.

(** An item goes in. *)
Lemma inv_put c t p i j cs :
  inv c → producers c !! t = Some p → made p = i → i < PRODUCE_PER_PRODUCER → asleep_p p = false → count c ≠ BUFFER_SIZE →
  Buffer.signal asleep_c wake_c j (consumers c) = Some cs →
  inv (mkconfig (<[in_ c := item t i]> (buffer c)) ((in_ c + 1) mod BUFFER_SIZE) (out c) (count c + 1) (consumed_total c)
    (<[t := Produce (i + 1)]> (producers c)) cs (main_at c) (items_in c ++ [item t i]) (items_out c)).
Proof.
  intros [[R1 R2 R3 R4 R5 R6 R7 R8] [T1 T2 T3 T4 T5 T6 T7]] Ht Hm Hlt Hs Hc Hsig.
  destruct (cond_signal_c_sum _ _ _ Hsig) as [Hlen Hcase]. pose proof (sum_with_insert made _ t p (Produce (i + 1)) Ht) as Hmade.
  pose proof (number_insert asleep_p _ t p (Produce (i + 1)) Ht) as Ha. pose proof (number_insert awake_p _ t p (Produce (i + 1)) Ht) as Hb.
  rewrite Hs in Ha. simpl in Ha, Hb, Hmade. split; constructor; simpl; try done.
  - by rewrite length_insert.
  - lia.
  - rewrite R4, Nat.Div0.add_mod_idemp_l. f_equal. lia.
  - rewrite R4, Nat.add_1_r, ring_put, R5, app_assoc; [done|done|lia].
  - rewrite length_app, R7. simpl. lia.
  - intros u q Hu. rewrite filter_app. apply list_lookup_insert_Some in Hu as [(<- & <- & _)|[Hne Hu]].
    + rewrite filter_cons_True by (by apply item_id). rewrite (R8 t p Ht), Hm, filter_nil. cbn [made]. unfold items.
      replace (i + 1) with (S i) by lia. by rewrite seq_S, fmap_app.
    + rewrite filter_cons_False by (rewrite item_id by done; lia). simpl. rewrite app_nil_r. by apply R8.
  - by rewrite length_insert.
  - by rewrite Hlen.
  - intros u q Hu. apply list_lookup_insert_Some in Hu as [(_ & <- & _)|[_ Hu]]; [simpl; lia|by eauto].
  - intros u k w Hu. apply list_lookup_insert_Some in Hu as [(_ & Hu & _)|[_ Hu]]; [done|by eauto].
  - destruct Hcase as [[H1 ->]|[H1 H2]]; lia.
  - assert (Nat.b2n (awake_p p) ≤ 1) by (destruct (awake_p p); simpl; lia). lia.
  - intros u Hu. apply (T7 u). destruct (BufferSpec.signal_lookup _ _ _ _ _ _ _ Hsig Hu) as [|([|[]| |] & _ & ? & ?)]; done.
Qed.

(** An item comes out. *)
Lemma inv_take c t p x j ps :
  inv c → consumers c !! t = Some p → p ≠ Consumed → asleep_c p = false → count c ≠ 0 → buffer c !! out c = Some x →
  Buffer.signal asleep_p wake_p j (producers c) = Some ps →
  inv (mkconfig (buffer c) (in_ c) ((out c + 1) mod BUFFER_SIZE) (count c - 1) (consumed_total c + 1)
    ps (<[t := Pause]> (consumers c)) (main_at c) (items_in c) (items_out c ++ [x])).
Proof.
  intros [[R1 R2 R3 R4 R5 R6 R7 R8] [T1 T2 T3 T4 T5 T6 T7]] Ht Hp Hs Hc Hx Hsig.
  destruct (cond_signal_p_sum _ _ _ Hsig) as (Hmade & Hlen & Hcase).
  pose proof (number_insert asleep_c _ t p Pause Ht) as Ha. pose proof (number_insert awake_c _ t p Pause Ht) as Hb.
  rewrite Hs in Ha. simpl in Ha, Hb.
  assert (∀ u q, ps !! u = Some q → ∃ q', producers c !! u = Some q' ∧ made q' = made q ∧
    ∀ k w, q = WaitNotFull k w → ∃ w', q' = WaitNotFull k w') as Hq.
  { intros u q Hu. destruct (BufferSpec.signal_lookup _ _ _ _ _ _ _ Hsig Hu) as [H|(y & H & _ & ->)]; [exists q|exists y]; (split; [done|]).
    - split; [done|]. intros k w ->. by exists w.
    - split; [by destruct y|]. intros k w Hk. destruct y; simplify_eq/=. by eexists. }
  split; constructor; simpl; try done.
  - by apply Nat.mod_upper_bound.
  - lia.
  - rewrite R4, Nat.Div0.add_mod_idemp_l. f_equal. lia.
  - rewrite R5, <- app_assoc. simpl. replace (count c) with (S (count c - 1)) at 1 by lia. by rewrite (ring_take _ _ _ _ _ x).
  - rewrite length_app, R6. simpl. lia.
  - by rewrite Hmade.
  - intros u q Hu. destruct (Hq u q Hu) as (q' & Hu' & <- & _). by apply R8.
  - by rewrite Hlen.
  - by rewrite length_insert.
  - intros u q Hu. destruct (Hq u q Hu) as (q' & Hu' & <- & _). by apply (T3 u).
  - intros u k w Hu. destruct (Hq u _ Hu) as (q' & Hu' & _ & Hk). destruct (Hk k w eq_refl) as [w' ->]. by eapply T4.
  - assert (Nat.b2n (awake_c p) ≤ 1) by (destruct (awake_c p); simpl; lia). lia.
  - destruct Hcase as [[H1 ->]|[H1 H2]]; lia.
  - intros u Hu. apply list_lookup_insert_Some in Hu as [(_ & ? & _)|[_ Hu]]; [done|]. pose proof (T7 u Hu). lia.
Qed.

Lemma cond_inv_produce c t p i j c' :
  inv c → producers c !! t = Some p → made p = i → i < PRODUCE_PER_PRODUCER → asleep_p p = false →
  produce t i j c = Some c' → inv c'.
Proof.
  intros Hi Ht Hm Hlt Hs. unfold produce. destruct (Nat.eqb_spec (count c) BUFFER_SIZE) as [Hc|Hc].
  - intros [= <-]. eapply inv_set_producer; try done; [by intros k w [= <- _]|lia].
  - destruct (Buffer.signal _ _ _ _) as [cs|] eqn:Hsig; [|done]. intros [= <-]. by eapply inv_put.
Qed.

Lemma at_end_le c : at_end c = true → total_to_produce ≤ consumed_total c.
Proof. apply Nat.leb_le. Qed.

Lemma cond_inv_consume c t p j c' :
  inv c → consumers c !! t = Some p → p ≠ Consumed → asleep_c p = false → consume t j c = Some c' → inv c'.
Proof.
  intros Hi Ht Hp Hs. unfold consume. destruct (Nat.eqb_spec (count c) 0) as [Hc|Hc].
  - intros [= <-]. eapply inv_set_consumer; try done; [|lia]. destruct (at_end c) eqn:He; [intros _; by apply at_end_le|done].
  - destruct (buffer c !! out c) as [x|] eqn:Hx; [|done]. simpl.
    destruct (Buffer.signal _ _ _ _) as [ps|] eqn:Hsig; [|done]. intros [= <-]. by eapply inv_take.
Qed.

Lemma cond_inv_act a c c' : inv c → act a c = Some c' → inv c'.
Proof.
  intros Hi. destruct a as [t j|t j|t|t|]; simpl.
  - destruct (producers c !! t) as [p|] eqn:Ht; [|done]. simpl. destruct p as [i|i []|]; simpl; [| |done..].
    + destruct (Nat.ltb_spec i PRODUCE_PER_PRODUCER) as [Hlt|Hge]; [by eapply cond_inv_produce|]. intros [= <-].
      destruct Hi as [HR HT]. pose proof (thr_bound c HT t _ Ht) as Hb. simpl in Hb.
      pose proof (number_insert asleep_p _ t _ Produced Ht) as Ha. pose proof (number_insert awake_p _ t _ Produced Ht) as Hw. simpl in *.
      eapply inv_set_producer; try done; [simpl; lia|]. pose proof (thr_not_full c HT). lia.
    + destruct Hi as [HR HT]. pose proof (thr_waiting c HT _ _ _ Ht). by eapply cond_inv_produce.
  - destruct (consumers c !! t) as [p|] eqn:Ht; [|done]. simpl. destruct p as [|[]| |]; simpl; try done; [by eapply cond_inv_consume..|].
    intros [= <-]. eapply inv_set_consumer; try done; [destruct (at_end c) eqn:He; [intros _; by apply at_end_le|done]|].
    pose proof (number_insert asleep_c _ t _ (if at_end c then Consumed else Consume) Ht) as Ha.
    pose proof (number_insert awake_c _ t _ (if at_end c then Consumed else Consume) Ht) as Hw.
    pose proof (thr_not_empty c (proj2 Hi)). destruct (at_end c); simpl in *; lia.
  - destruct (producers c !! t) as [p|] eqn:Ht; [|done]. intros [= <-].
    pose proof (number_insert asleep_p _ t _ (wake_p p) Ht) as Ha. pose proof (number_insert awake_p _ t _ (wake_p p) Ht) as Hw.
    eapply inv_set_producer; try done; [by destruct p| |].
    + intros i w Hp. destruct p; simplify_eq/=. eapply (thr_waiting c (proj2 Hi)). done.
    + pose proof (thr_not_full c (proj2 Hi)). destruct p as [|? []|]; simpl in *; lia.
  - destruct (consumers c !! t) as [p|] eqn:Ht; [|done]. intros [= <-].
    pose proof (number_insert asleep_c _ t _ (wake_c p) Ht) as Ha. pose proof (number_insert awake_c _ t _ (wake_c p) Ht) as Hw.
    eapply inv_set_consumer; try done.
    + intros Hp. destruct p; simplify_eq/=. by eapply (thr_end c (proj2 Hi)).
    + pose proof (thr_not_empty c (proj2 Hi)). destruct p as [|[]| |]; simpl in *; lia.
  - unfold main_step. destruct Hi as [[] []]. destruct (main_at c); [| |done]; case_match; intros; simplify_eq; split; constructor; done.
Qed.

Lemma cond_inv c : reachable c → inv c.
Proof.
  unfold reachable. pose proof cond_inv_start as Hi. revert Hi. generalize start. intros c0 Hi Hr.
  induction Hr as [c|c1 c2 c3 [a Ha] _ IH]; [done|]. by apply IH, (cond_inv_act a c1).
Qed.

(** *** Progress *)

Lemma cond_items_total c : inv c → consumed_total c + count c = Σ made (producers c).
Proof. intros [[] _]. rewrite <- ring_made0, ring_fifo0, length_app, length_ring. lia. Qed.

Lemma cond_made_total c : inv c → Σ made (producers c) ≤ total_to_produce.
Proof.
  intros [_ HT]. pose proof (thr_producers c HT) as Hl. pose proof (thr_bound c HT) as Hb. unfold NUMBER_OF_PRODUCERS in Hl.
  destruct (producers c) as [|p [|q [|]]]; try done. pose proof (Hb 0 p eq_refl). pose proof (Hb 1 q eq_refl). simpl.
  unfold total_to_produce, NUMBER_OF_PRODUCERS. lia.
Qed.

(** An action that is not a spurious wake-up. *)
Definition real (a : action) : bool := match a with SpuriousProducer _ | SpuriousConsumer _ => false | _ => true end.
Definition real_step (c c' : config) : Prop := ∃ a, real a = true ∧ act a c = Some c'.

Lemma cond_producer_advances c t p : producers c !! t = Some p → asleep_p p = false → p ≠ Produced → ∃ c', real_step c c'.
Proof.
  intros Ht Hs Hp. assert (∀ i, ∃ j c', produce t i j c = Some c') as Hput.
  { intros i. unfold produce. destruct (count c =? BUFFER_SIZE); [by exists 0; eexists|].
    destruct (BufferSpec.signal_some asleep_c wake_c (consumers c)) as (j & cs & Hj). exists j. rewrite Hj. by eexists. }
  destruct p as [i|i []|]; try done; destruct (Hput i) as (j & c' & Hj).
  - destruct (i <? PRODUCE_PER_PRODUCER) eqn:Hlt.
    + exists c', (Producer t j). split; [done|]. simpl. rewrite Ht. simpl. by rewrite Hlt.
    + eexists. exists (Producer t 0). split; [done|]. simpl. rewrite Ht. simpl. by rewrite Hlt.
  - exists c', (Producer t j). split; [done|]. simpl. by rewrite Ht.
Qed.

Lemma cond_consumer_advances c t p :
  inv c → consumers c !! t = Some p → asleep_c p = false → p ≠ Consumed → ∃ c', real_step c c'.
Proof.
  intros Hi Ht Hs Hp. assert (∃ j c', consume t j c = Some c') as (j & c' & Hj).
  { unfold consume. destruct (count c =? 0); [by exists 0; eexists|]. destruct Hi as [HR _].
    destruct (lookup_lt_is_Some_2 (buffer c) (out c)) as [x Hx]; [rewrite (ring_buf c HR); apply HR|]. rewrite Hx. simpl.
    destruct (BufferSpec.signal_some asleep_p wake_p (producers c)) as (j & ps & Hj). exists j. rewrite Hj. by eexists. }
  destruct p as [|[]| |]; try done; try (exists c', (Consumer t j); split; [done|]; simpl; by rewrite Ht).
  eexists. exists (Consumer t 0). split; [done|]. simpl. by rewrite Ht.
Qed.

Lemma cond_number_pos {A} (f : A → bool) (l : list A) t x : l !! t = Some x → f x = true → 0 < number f l.
Proof. intros Ht Hx. pose proof (BufferSpec.sum_lookup (Nat.b2n ∘ f) l t x Ht) as H. simpl in H. rewrite Hx in H. done. Qed.

Lemma number_some {A} (f : A → bool) (l : list A) : 0 < number f l → ∃ t x, l !! t = Some x ∧ f x = true.
Proof.
  intros (t & x & Ht & Hx)%BufferSpec.sum_pos. exists t, x. split; [done|]. simpl in Hx. destruct (f x); [done|simpl in Hx; lia].
Qed.

Lemma cond_progress c : inv c → consumed_total c < total_to_produce → ∃ c', real_step c c'.
Proof.
  intros Hi Hlt. pose proof (cond_items_total c Hi) as Hsum. destruct (decide (count c = 0)) as [H0|H0].
  - assert (∃ t p, producers c !! t = Some p ∧ p ≠ Produced) as (t & p & Ht & Hp).
    { pose proof (thr_producers c (proj2 Hi)) as Hl. destruct (producers c) as [|p [|q [|]]]; try done.
      destruct (decide (p = Produced)) as [->|Hp]; [|by exists 0, p]. destruct (decide (q = Produced)) as [->|Hq]; [|by exists 1, q].
      simpl in Hsum. unfold total_to_produce, NUMBER_OF_PRODUCERS, PRODUCE_PER_PRODUCER in Hlt. lia. }
    eapply cond_producer_advances; [done| |done]. destruct (asleep_p p) eqn:Hs; [|done]. exfalso.
    pose proof (thr_not_full c (proj2 Hi) (cond_number_pos _ _ _ _ Ht Hs)) as Hf. pose proof (BufferSpec.sum_bool_le awake_p (producers c)) as Hb.
    rewrite (thr_producers c (proj2 Hi)) in Hb. unfold number, BUFFER_SIZE, NUMBER_OF_PRODUCERS in *. lia.
  - destruct (lookup_lt_is_Some_2 (consumers c) 0) as [p Hp]; [rewrite (thr_consumers c (proj2 Hi)); unfold NUMBER_OF_CONSUMERS; lia|].
    destruct (asleep_c p) eqn:Hs.
    + pose proof (thr_not_empty c (proj2 Hi) (cond_number_pos _ _ _ _ Hp Hs)). destruct (number_some awake_c (consumers c)) as (t & q & Ht & Hq); [lia|].
      destruct q as [|[]| |]; try done. by eapply (cond_consumer_advances c t).
    + eapply (cond_consumer_advances c 0); try done. intros ->. pose proof (thr_end c (proj2 Hi) 0 Hp). lia.
Qed.

(** *** Runs are finite *)

Definition weight_p (p : producer) : nat := match p with Produce _ | WaitNotFull _ true => 1 | _ => 0 end.
Definition weight_c (p : consumer) : nat := match p with Pause => 2 | Consume | WaitNotEmpty true => 1 | _ => 0 end.
Definition weight_m (m : main_pc) : nat := match m with JoinProducers => 2 | JoinConsumers => 1 | Returned => 0 end.

(** Three for every item still to go in or out, and what the threads can do
    without moving one. *)
Definition work (c : config) : nat :=
  3 * (2 * total_to_produce - (Σ made (producers c) + consumed_total c)) +
  Σ weight_p (producers c) + Σ weight_c (consumers c) + weight_m (main_at c).

Lemma cond_act_work a c c' : inv c → real a = true → act a c = Some c' → work c' < work c.
Proof.
  intros Hi Hr Ha. pose proof (cond_inv_act a c c' Hi Ha) as Hi'. pose proof (cond_items_total c Hi) as H1. pose proof (cond_made_total c Hi) as H2.
  pose proof (cond_made_total c' Hi') as H3. unfold work. destruct a as [t j|t j|t|t|]; try done; simpl in Ha.
  - destruct (producers c !! t) as [p|] eqn:Ht; [|done]. simpl in Ha.
    assert (∀ i, made p = i → weight_p p = 1 → produce t i j c = Some c' → work c' < work c) as Hput.
    { intros i Hm Hw Hp. unfold produce in Hp. pose proof (sum_with_insert made _ t p (WaitNotFull i false) Ht).
      pose proof (sum_with_insert weight_p _ t p (WaitNotFull i false) Ht). pose proof (sum_with_insert made _ t p (Produce (i + 1)) Ht).
      pose proof (sum_with_insert weight_p _ t p (Produce (i + 1)) Ht). unfold work. destruct (count c =? BUFFER_SIZE).
      - injection Hp as <-. simpl in *. lia.
      - destruct (Buffer.signal _ _ _ _) as [cs|] eqn:Hsig; [|done]. apply (BufferSpec.signal_weight _ _ weight_c) in Hsig; [|intros [|[]| |]; simpl; lia].
        injection Hp as <-. cbn [producers consumers main_at consumed_total made weight_p] in *. lia. }
    destruct p as [i|i []|]; simpl in Ha; [|by eapply Hput|done..]. destruct (i <? PRODUCE_PER_PRODUCER); [by eapply Hput|].
    pose proof (thr_bound c (proj2 Hi) t _ Ht) as Hb. injection Ha as <-. pose proof (sum_with_insert made _ t _ Produced Ht).
    pose proof (sum_with_insert weight_p _ t _ Produced Ht). cbn [set_producers producers consumers main_at consumed_total made weight_p] in *. lia.
  - destruct (consumers c !! t) as [p|] eqn:Ht; [|done]. simpl in Ha. pose proof (λ q, sum_with_insert weight_c _ t p q Ht) as Hq.
    assert (weight_c p = 1 → consume t j c = Some c' → work c' < work c) as Htake.
    { intros Hw Hp. unfold consume in Hp. unfold work. destruct (Nat.eqb_spec (count c) 0) as [Hc|Hc].
      - injection Hp as <-. specialize (Hq (if at_end c then Consumed else WaitNotEmpty false)).
        cbn [set_consumers producers consumers main_at consumed_total]. destruct (at_end c); simpl in Hq; lia.
      - destruct (buffer c !! out c) as [x|]; [|done]. simpl in Hp. destruct (Buffer.signal _ _ _ _) as [ps|] eqn:Hsig; [|done].
        destruct (cond_signal_p_sum _ _ _ Hsig) as (Hmade & _). apply (BufferSpec.signal_weight _ _ weight_p) in Hsig; [|intros [|? []|]; simpl; lia].
        injection Hp as <-. specialize (Hq Pause). cbn [producers consumers main_at consumed_total weight_c] in *. lia. }
    destruct p as [|[]| |]; simpl in Ha; try done; [by apply Htake..|]. injection Ha as <-. specialize (Hq (if at_end c then Consumed else Consume)).
    cbn [set_consumers producers consumers main_at consumed_total]. destruct (at_end c); simpl in Hq; lia.
  - unfold main_step in Ha. destruct (main_at c); [| |done]; case_match; simplify_eq/=; lia.
Qed.

Lemma real_run m c c' : inv c → nsteps real_step m c c' → inv c' ∧ m + work c' ≤ work c.
Proof.
  intros Hi Hr. induction Hr as [c|m c1 c2 c3 (a & Hr & Ha) _ IH]; [split; [done|lia]|].
  pose proof (cond_act_work a c1 c2 Hi Hr Ha). destruct (IH (cond_inv_act a c1 c2 Hi Ha)). split; [done|lia].
Qed.

(** *** The consumer that nobody wakes *)

(** All items have been consumed and consumer [t] sleeps. *)
Definition forgotten (t : nat) (c : config) : Prop :=
  inv c ∧ consumed_total c = total_to_produce ∧ consumers c !! t = Some (WaitNotEmpty false).

Lemma forgotten_step t c c' : forgotten t c → real_step c c' → forgotten t c' ∧ (main_at c ≠ Returned → main_at c' ≠ Returned).
Proof.
  intros (Hi & Hc & Ht) (a & Hr & Ha). pose proof (cond_inv_act a c c' Hi Ha) as Hi'. pose proof (cond_items_total c Hi) as H1. pose proof (cond_made_total c Hi) as H2.
  pose proof (cond_items_total c' Hi') as H3. pose proof (cond_made_total c' Hi') as H4. assert (count c = 0) as H0 by lia.
  destruct a as [u j|u j|u|u|]; try done; simpl in Ha.
  - assert (∀ i, produce u i j c = Some c' → False) as Hno.
    { intros i Hp. unfold produce in Hp. rewrite H0 in Hp. simpl in Hp. destruct (Buffer.signal _ _ _ _); [|done]. injection Hp as <-. simpl in *. lia. }
    destruct (producers c !! u) as [[i|i []|]|]; simpl in Ha; try done; [|by destruct (Hno i)].
    destruct (i <? PRODUCE_PER_PRODUCER); [by destruct (Hno i)|]. injection Ha as <-. by split; [split|].
  - destruct (consumers c !! u) as [p|] eqn:Hu; [|done]. simpl in Ha.
    assert (∃ q, c' = set_consumers (<[u := q]> (consumers c)) c ∧ asleep_c p = false) as (q & -> & Hp).
    { destruct p as [|[]| |]; simpl in Ha; try done; unfold consume in Ha; rewrite ?H0 in Ha; simpl in Ha; injection Ha as <-; by eexists. }
    split; [|done]. split; [done|]. split; [done|]. simpl. rewrite list_lookup_insert_ne; [done|]. intros ->. by simplify_eq.
  - unfold main_step in Ha. destruct (main_at c) eqn:Hm; [| |done].
    + destruct (forallb _ _); [|done]. injection Ha as <-. by split; [split|].
    + destruct (forallb _ _) eqn:Hf; [|done]. rewrite forallb_forall in Hf.
      assert (WaitNotEmpty false = Consumed) as E; [|done]. eapply bool_decide_eq_true_1, Hf. by eapply list_elem_of_In, list_elem_of_lookup_2.
Qed.

(** Both consumers sleep whenever an item goes in; consumer 0 is the one that is
    woken, and it returns behind the last item. *)
Definition schedule : list action :=
  [Consumer 0 0; Consumer 1 0] ++
  mjoin (replicate 10 [Producer 0 0; Consumer 0 0; Consumer 0 0; Consumer 0 0]) ++
  mjoin (replicate 10 [Producer 1 0; Consumer 0 0; Consumer 0 0; Consumer 0 0]).

(** The last action is not possible any more. *)
Definition hung : config := Eval vm_compute in default start (run (take 81 schedule ++ [Producer 0 0; Producer 1 0; Main]) start).

Lemma cond_run_reachable l c c' : run l c = Some c' → rtc step c c'.
Proof.
  revert c. induction l as [|a l IH]; intros c; simpl; [intros [= <-]; apply rtc_refl|].
  destruct (act a c) as [c1|] eqn:Ha; [|done]. intros Hr. eapply rtc_l; [by exists a|by apply IH].
Qed.

Lemma hung_reachable : reachable hung.
Proof. apply (cond_run_reachable (take 81 schedule ++ [Producer 0 0; Producer 1 0; Main])). vm_compute. reflexivity. Qed.

(** ** The properties *)

(** The buffer is a bounded queue, spurious wake-ups included: what came out is, in
    order, the first part of what went in, the rest lies in the ring, which never
    holds more than five; the items of each producer go in in order and once each;
    and a consumer returns only when all 20 items have been consumed. *)
Theorem cond_buffer_fifo c :
  reachable c →
  items_in c = items_out c ++ ring (buffer c) (out c) (count c) ∧ count c ≤ BUFFER_SIZE ∧
  (∀ t p, producers c !! t = Some p → filter (λ x, x / 1000 = Z.of_nat (t + 1))%Z (items_in c) = items t (made p)) ∧
  (∀ t, consumers c !! t = Some Consumed → length (items_out c) = total_to_produce ∧ items_out c = items_in c).
Proof.
  intros Hi%cond_inv. pose proof Hi as [HR HT]. split; [apply HR|]. split; [apply HR|]. split; [apply HR|]. intros t Ht.
  pose proof (thr_end c HT t Ht) as He. pose proof (cond_items_total c Hi). pose proof (cond_made_total c Hi). rewrite <- (ring_consumed c HR).
  split; [lia|]. rewrite (ring_fifo c HR). replace (count c) with 0 by lia. simpl. by rewrite app_nil_r.
Qed.

(** As long as items are missing some thread can go on without spurious wake-ups,
    and no run without them has more than 126 steps: every one consumes all the
    items. *)
Theorem cond_buffer_live m c :
  nsteps real_step m start c → m ≤ 126 ∧ (consumed_total c < total_to_produce → ∃ c', real_step c c').
Proof.
  intros [Hi Hm]%(real_run m start c cond_inv_start). assert (work start = 126) as E by reflexivity. split; [lia|]. by apply cond_progress.
Qed.

(** The program can hang at its end: once all items are consumed a consumer that
    sleeps is never woken, so [main] waits for it for ever unless a wait returns
    by itself; and this state is reached when both consumers sleep while the last
    item goes in. *)
Theorem cond_buffer_hangs :
  (∀ t c c', reachable c → consumed_total c = total_to_produce → consumers c !! t = Some (WaitNotEmpty false) → main_at c ≠ Returned →
     rtc real_step c c' → consumers c' !! t = Some (WaitNotEmpty false) ∧ main_at c' ≠ Returned) ∧
  ∃ c, reachable c ∧ consumed_total c = total_to_produce ∧ consumers c !! 1 = Some (WaitNotEmpty false) ∧ main_at c = JoinConsumers ∧
     ∀ c', ¬ real_step c c'.
Proof.
  split.
  - intros t c c' Hi%cond_inv Hc Ht Hm Hr. assert (forgotten t c) as Hf by (by split).
    clear Hi Hc Ht. induction Hr as [c|c1 c2 c3 Hs _ IH]; [by destruct Hf as (_ & _ & ?)|].
    destruct (forgotten_step t c1 c2 Hf Hs) as [Hf2 Hm2]. apply IH; [by apply Hm2|done].
  - exists hung. split; [apply hung_reachable|]. do 3 (split; [reflexivity|]). intros c' ([t j|t j|t|t|] & Hr & Ha); try done; simpl in Ha.
    + by destruct t as [|[|t]].
    + by destruct t as [|[|t]].
Qed.

End CondSpec.
